(* ===== verification/_CoqProject ===== *)
-Q . S2P
Prelude.v
Utf8.v
Text.v
Buffers.v
BTree.v
Encoding.v
Style.v
Value.v
StrMap.v
Terminal.v
Abi.v
SchemeProtocol.v
RingBuffer.v
Path.v
Handle.v
Mailbox.v
UserPtr.v
Waiting.v
Channel.v
BufferVaddr.v
Scheduler.v
Dispatch.v
Effects.v
BlockDevice.v
VirtioBlock.v
FsTypes.v
Devices.v
Vfs.v
TarFs.v
VirtioQueue.v
Ext2Structs.v
Bitmap.v
Ext2Fs.v
Ext2Alloc.v
Ext2Layout.v
Ext2Image.v
Ext2AllocProof.v
Ext2Blocks.v
Ext2Dir.v
Ext2File.v
Ext2Ops.v
Ext2Session.v
Ext2DirProof.v
Ext2FileProof.v
Ext2Mount.v
CompositorProtocol.v
Graphics.v
Compositor.v
CompositorProof.v
CompositorScreen.v
CompositorClients.v
PageTable.v
PageTableProof.v
Paging.v
PagingMap.v
ProcessMemory.v
MapRegion.v
Elf.v
ElfLoad.v
Pixels.v
TermText.v
Term.v
TermProof.v
TermScreen.v
SchemeProvider.v
SchemeCalls.v
SchemeRegistry.v
FileCalls.v
EnvCalls.v
