(* ===== verification/Prelude.v ===== *)
(** * Panda OS: a verification development

    Panda OS is a single-CPU hobby kernel in Rust with its userspace.  Processes
    talk to the kernel through one system call (an operation code and a handle),
    to each other through channels and mailboxes, and to the terminal, the
    pipeline and scheme providers through byte protocols defined in [panda-abi].
    The kernel runs every blocking system call as a future: a poll either
    completes it or registers the process on a waker; the scheduler blocks the
    process, polls again after a wake-up and returns to user mode.

    ** Conventions

    The code is embedded shallowly.  A machine integer is a [Z] kept in range by
    [is_u8] ... [is_i64] with its wrap-around written out ([wrap_u]); a byte
    string is a list of [Z] and a Rust [str] one that is [utf8_valid]; maps with
    a relevant order are association lists ([BTree.v]), others [gmap]s.  Fallible
    code returns an [outcome]: a value, an error, a panic, or [OutOfFuel] where a
    loop is bounded by fuel.  Shared state is passed explicitly: channel ends and
    mailboxes are values, and the store of mailboxes a channel notifies is a map.
    Where an operation wakes processes it returns their ids.

    ** Files and what they model

    - [Prelude.v]: outcomes, machine integers, byte lists, slices and indexing,
      little-endian bytes, bit lemmas and the tactics [pow2], [rng], [len_lia].
    - [Utf8.v]: [str::from_utf8] and the encoding of a [char].
    - [Buffers.v]: code that writes into a caller's buffer, as a monad.
    - [BTree.v]: the [BTreeMap] of the standard library with integer keys.
    - [Encoding.v] ([panda-abi/src/encoding.rs]): the TLV [Encoder] and
      [Decoder]; the class [Codec] states a round trip and [DecSafe] that a
      decoder is total on any bytes, with instances for the basic types.
    - [Style.v], [Value.v] ([terminal.rs], [value.rs]): styles, pipeline values
      and tables.  [Value_decode] recurses with the number of bytes left as fuel:
      every nested value consumes its tag, so the fuel is enough, and
      [value_decode_untrusted] shows it.
    - [Terminal.v] ([terminal.rs]): requests and events of the terminal.
    - [Abi.v] ([lib.rs]): handle tags, operation and error codes, flags, packed
      key events, limits.
    - [SchemeProtocol.v] ([scheme_protocol.rs]): requests and responses between
      the kernel and a scheme provider, and directory listings.
    - [RingBuffer.v] ([crates/ring-buffer/src/lib.rs]) and [Path.v] ([path.rs]):
      the ring and path canonicalisation, each against an abstract reading (the
      queue of live entries; a stack of components).
    - [Handle.v] ([panda-kernel/src/handle.rs]): a process's handle table.
    - [Mailbox.v] ([process/waker.rs], [resource/mailbox.rs], the poll of
      [syscall/mailbox.rs]): wakers, event queues and their coalescing.
    - [UserPtr.v] ([syscall/user_ptr.rs]): access to user memory, results of
      system calls and the two paths that copy them out.
    - [Waiting.v]: the protocol "poll, register, poll again, block, wake up" as a
      transition system, once, against the interface [Waitable]; the mailbox is
      its first instance.
    - [Channel.v] ([resource/channel.rs], the polls of [syscall/channel.rs]):
      both ends of a channel, closing, attachments; two instances of [Waitable].
      The loops of send and recv run at most twice (register, then retry), which
      is their fuel.
    - [BufferVaddr.v] ([process/mod.rs]): the free list of buffer addresses.
    - [Scheduler.v] ([scheduler/mod.rs], [scheduler/deadline.rs]): the queues, the
      deadline tracker and the scheduling decision; its loop pops one entry per
      round, so the size of the queue plus one is enough fuel.
    - [Dispatch.v] (the rest of [scheduler/mod.rs], [context_switch.rs],
      [executor/mod.rs], the exits of [syscall/mod.rs]): the machine that
      alternates between the scheduling loop and user mode.
    - [Text.v], [StrMap.v]: searching strings, printing and parsing numbers, and
      maps with string keys, as the sources use the standard library.
    - [Effects.v]: stateful fallible code as a monad with a logic of
      specifications, and simulation between two state types.
    - [BlockDevice.v], [VirtioBlock.v], [VirtioQueue.v] ([resource/block.rs],
      [devices/virtio_block]): the contract of a byte device, the driver that
      implements it over sectors, and its request futures over a virtqueue.  The
      queue is a third-party crate: an interface with laws.
    - [FsTypes.v], [Ext2Structs.v], [Bitmap.v], [Ext2Fs.v], [Ext2Alloc.v],
      [Ext2Blocks.v], [Ext2Dir.v], [Ext2File.v], [Ext2Ops.v] ([vfs/ext2]): the
      ext2 driver over any byte device; [Ext2Layout.v], [Ext2Image.v],
      [Ext2AllocProof.v], [Ext2DirProof.v], [Ext2FileProof.v], [Ext2Session.v],
      [Ext2Mount.v] hold its invariant, a small disk, and the proofs.  Directory
      scans have the block's length as fuel and copy loops the number of bytes:
      each round consumes at least one.
    - [Devices.v] ([device_address.rs], [device_path.rs], [pci.rs],
      [devices/claims.rs]): addresses, classes, the bus enumeration over the
      bytes of configuration space, device paths, and exclusive claims.
    - [Vfs.v], [TarFs.v] ([vfs/mod.rs], [vfs/tarfs.rs]): the mount table over
      records of file system methods, and the archive file system; the reader of
      the tar format is a crate and its entries are an argument.
    - [SchemeProvider.v], [SchemeCalls.v], [SchemeRegistry.v]
      ([resource/scheme.rs], [resource/initrd.rs], [syscall/scheme.rs]): calls to
      userspace providers poll by poll, all interleavings of such calls, and the
      registry with its built-in handlers and the registration system call.  The
      receiving loop takes a message from the queue per round, so the queue's
      length plus one is its fuel.
    - [PageTable.v], [PageTableProof.v], [Paging.v], [PagingMap.v],
      [MapRegion.v] ([memory/paging.rs], [recursive.rs], [address.rs],
      [mod.rs]): page tables in physical memory, reached through the recursive
      entry and walked by the processor; the frame allocator is an interface with
      laws.  A walk descends at most four levels, which is its fuel; the trap
      theorem shows the two calls that never end.
    - [ProcessMemory.v], [Elf.v], [ElfLoad.v] ([memory/demand_paging.rs],
      [memory/mapping.rs], [process/mod.rs], [crates/panda-elf],
      [process/elf.rs]): heap and stack on demand, the ELF parser, the loader.
    - [CompositorProtocol.v], [Graphics.v], [Compositor.v], [CompositorProof.v],
      [CompositorScreen.v], [CompositorClients.v]
      ([userspace/compositor-protocol], [userspace/compositor]): messages,
      rectangles and blending, the window manager with the memory clients share,
      and the server.
    - [Pixels.v] ([libpanda/src/graphics/pixels.rs]): drawing in a pixel buffer.
    - [TermText.v], [Term.v], [TermProof.v], [TermScreen.v]
      ([userspace/terminal], [libpanda/src/keyboard.rs]): the terminal over a
      font and a world of windows, channels and processes with laws.

    ** What the theorems show

    Scheduling.  [scheduler_never_panics]: from boot on no sequence of system
    calls, faults, interrupts and polls makes the scheduler panic, and exactly the
    current process runs in user mode, under the stated hypothesis that kernel
    tasks register no deadlines; [stale_deadline_panics] shows what happens
    without it.  [sched_history], [prepare_next_exact] and [sched_fair]: each
    process is queued once under its state, the least recently scheduled entity
    is picked, and a runnable one waits a bounded number of decisions.

    Blocking and messages.  [channel_no_lost_wakeup] and
    [mailbox_no_lost_wakeup]: a blocked process is registered and the event that
    lets it proceed wakes it.  [channel_fifo], [channel_close]: a channel refines
    two bounded FIFO queues and closes in order.  [mailbox_history],
    [mailbox_post_exact]: the event queue is bounded and what is lost is exact.
    [shared_endpoint_wakes_last], [key_events_merge] and [deferred_handle_lost]
    record where the code falls short of its documentation.

    Isolation and resources.  [user_write_confined]; [handle_history] and
    [insert_typed_exact]: handles are fresh, bounded and typed;
    [buffer_vaddr_accounted] and [buffer_alloc_free]: buffer ranges are disjoint
    and nothing is lost; [canonicalize_refines], [canonicalize_canonical] and
    [is_canonical_exact]: paths cannot climb above the root.

    Wire formats.  Round trips ([value_roundtrip], [request_roundtrip],
    [event_roundtrip], [scheme_request_roundtrip], [scheme_response_roundtrip],
    [readdir_roundtrip], [handle_tag_roundtrip], [key_event_roundtrip],
    [codes_roundtrip]) and behaviour on untrusted bytes
    ([value_decode_untrusted], [terminal_decode_untrusted],
    [scheme_request_exact], [scheme_response_untrusted]); tables stay rectangular
    ([table_rows_rectangular], [push_row_valid]); [long_string_truncated] shows
    the limit of the 16-bit length prefix.  The ring buffer keeps the newest
    entries ([ring_keeps_newest]) and refines a queue ([ring_refines_queue]).

    Storage.  [virtio_block_refines_array]: the driver is an array of bytes;
    [virtio_requests_owned]: every token in flight has one owner, and
    [virtio_lost_completion] a lost wake-up.  [ext2_alloc_refines_pool]: the
    allocator hands out nothing twice and keeps bitmaps and counters consistent;
    [ext2_dir_block_edits], [ext2_dir_scans_terminate]: directory blocks are
    lists of entries, scanned within their length whatever the bytes;
    [ext2_read_exact], [ext2_cached_lookup_equiv]; [ext2_mount_untrusted]: no
    disk makes a mount panic or write; [ext2_session_refines]: over any device
    that keeps its contract a session behaves as over the array.
    [ext2_handles_diverge] records two open files of one inode.

    Names and owners.  [vfs_resolve_exact]: a path goes to the longest mount
    point with the components below it; [tar_archive_exact], [tar_file_exact]:
    the archive is served as packed; [device_paths_exact]: device paths name what
    the enumeration found; [claims_exclusive], [mount_ext2_exact],
    [device_owners_exclusive]: over any sequence of opens, closes and mounts a
    device has one owner; [scheme_register_exact]: registration is all or
    nothing; [scheme_calls_exact], [scheme_provider_gone]: concurrent calls to a
    provider get their own answers and all end when it is gone.

    Memory.  [paging_refines_map]: mapping, unmapping and changing rights through
    the recursive entry are updates of a finite map of pages;
    [user_memory_exact]: a program sees a plain memory of bytes in heap and stack;
    [parse_elf_exact], [load_elf_exact]: the parser is total and a loaded process
    finds its segments; [paging_traps], [brk_traps], [load_elf_traps] record
    calls and files that fault, loop or corrupt.

    Screen.  [compositor_screen_exact]: every frame equals the reference picture
    while clients keep to the protocol; [compositor_buffers_accounted];
    [compositor_clients_trusted] lists what is not checked.
    [pixel_drawing_exact]; [terminal_screen_exact], [terminal_steps_exact]: after
    every event the window shows the last rows of the scrollback, and requests
    change the rows by exactly their text; [terminal_traps] lists what stops it.

    ** What is not modelled

    Hardware and its set-up: interrupt controllers, timers, ACPI, virtio
    transports, the GPU and keyboard drivers, the assembly entry points, saved
    registers, the boot address space.  Third-party code: the virtqueue, the heap
    allocator, the tar reader and the font rasteriser are arguments with laws.
    System call handlers that marshal their arguments into calls modelled here
    (files, directories, environment, display, devices), shared buffers and the
    executor's mutex, join and sleep futures: the futures of handlers are
    arguments of the dispatch model.  The userspace library's wrappers, and
    programs that only loop over its calls.  Operations of the file systems run
    one after the other; interleavings are modelled where the code's claims are
    about them: channels, mailboxes, block requests, scheme calls, scheduling. *)

From stdpp Require Export prelude list gmap.
From Stdlib Require Export ZArith Lia.

#[export] Set Default Goal Selector "!".
#[global] Open Scope Z_scope.

(** ** Outcomes of Rust code

    A Rust function of the modelled code returns a value, returns an error
    through [Result], or panics (an index out of range, a failed [assert!],
    an arithmetic overflow of a checked build).  [OutOfFuel] is not a
    behaviour of the code: it is how a fuelled definition reports that its
    fuel was too small, and every fuelled definition of the development has a
    theorem that excludes it. *)
Inductive outcome (E A : Type) : Type :=
| Ok (a : A)
| Err (e : E)
| Panic
| OutOfFuel.
Arguments Ok {E A} a.
Arguments Err {E A} e.
Arguments Panic {E A}.
Arguments OutOfFuel {E A}.

#[export] Instance outcome_ret {E} : MRet (outcome E) := λ A a, Ok a.
#[export] Instance outcome_bind {E} : MBind (outcome E) := λ A B f m,
  match m with
  | Ok a => f a
  | Err e => Err e
  | Panic => Panic
  | OutOfFuel => OutOfFuel
  end.
#[export] Instance outcome_fmap {E} : FMap (outcome E) := λ A B f m,
  match m with
  | Ok a => Ok (f a)
  | Err e => Err e
  | Panic => Panic
  | OutOfFuel => OutOfFuel
  end.

Definition is_Ok {E A} (m : outcome E A) : bool :=
  match m with Ok _ => true | _ => false end.

(** [m] neither panics nor runs out of fuel. *)
Definition no_panic {E A} (m : outcome E A) : Prop :=
  match m with Ok _ | Err _ => True | Panic | OutOfFuel => False end.

(** [m] does not panic, and a value it returns satisfies [P]. *)
Definition ensures {E A} (m : outcome E A) (P : A → Prop) : Prop :=
  match m with Ok a => P a | Err _ => True | Panic | OutOfFuel => False end.

Lemma ensures_bind {E A B} (m : outcome E A) (k : A → outcome E B) Q P :
  ensures m Q → (∀ a, Q a → ensures (k a) P) → ensures (m ≫= k) P.
Proof. destruct m; cbn; auto. Qed.

Lemma ensures_weaken {E A} (m : outcome E A) (P Q : A → Prop) :
  ensures m P → (∀ a, P a → Q a) → ensures m Q.
Proof. destruct m; cbn; auto. Qed.

Lemma ensures_spec {E A} (m : outcome E A) P :
  ensures m P ↔ no_panic m ∧ ∀ a, m = Ok a → P a.
Proof. destruct m; cbn; naive_solver. Qed.

(** [Option::ok_or]. *)
Definition ok_or {E A} (o : option A) (e : E) : outcome E A :=
  match o with Some a => Ok a | None => Err e end.

(** ** Machine integers

    A [w]-bit integer is a [Z] with a range predicate; the casts and the
    wrapping operations are written out. *)
Definition in_u (w z : Z) : Prop := 0 <= z < 2 ^ w.
Definition in_i (w z : Z) : Prop := - 2 ^ (w - 1) <= z < 2 ^ (w - 1).
Definition wrap_u (w z : Z) : Z := z mod 2 ^ w.
Definition wrap_i (w z : Z) : Z := (z + 2 ^ (w - 1)) mod 2 ^ w - 2 ^ (w - 1).

Abbreviation is_u8 := (in_u 8).
Abbreviation is_u16 := (in_u 16).
Abbreviation is_u32 := (in_u 32).
Abbreviation is_u64 := (in_u 64).
Abbreviation is_i32 := (in_i 32).
Abbreviation is_i64 := (in_i 64).

#[export] Instance in_u_dec w z : Decision (in_u w z).
Proof. unfold in_u. apply _. Defined.
#[export] Instance in_i_dec w z : Decision (in_i w z).
Proof. unfold in_i. apply _. Defined.

(** Solve a goal about machine-integer ranges by making the ranges and the
    powers of two explicit. *)
Ltac pow2 :=
  repeat match goal with
  | H : context [2 ^ ?n] |- _ =>
      let v := eval vm_compute in (2 ^ n) in progress change (2 ^ n) with v in H
  | |- context [2 ^ ?n] =>
      let v := eval vm_compute in (2 ^ n) in progress change (2 ^ n) with v
  end.
Ltac rng := unfold in_u, in_i, wrap_u, wrap_i in *; pow2; try lia.

Lemma wrap_u_small w z : in_u w z → wrap_u w z = z.
Proof. unfold in_u, wrap_u. apply Z.mod_small. Qed.

Lemma wrap_u_range w z : 0 <= w → in_u w (wrap_u w z).
Proof. intros. unfold in_u, wrap_u. apply Z.mod_pos_bound. lia. Qed.

Lemma wrap_i_small w z : 0 < w → in_i w z → wrap_i w z = z.
Proof.
  unfold in_i, wrap_i. intros Hw Hz.
  assert (2 ^ w = 2 * 2 ^ (w - 1)) as Hp.
  { rewrite <- Z.pow_succ_r by lia. f_equal. lia. }
  rewrite Z.mod_small; lia.
Qed.

Lemma wrap_i_range w z : 0 < w → in_i w (wrap_i w z).
Proof.
  intros Hw. unfold in_i, wrap_i.
  assert (2 ^ w = 2 * 2 ^ (w - 1)) as Hp.
  { rewrite <- Z.pow_succ_r by lia. f_equal. lia. }
  pose proof (Z.mod_pos_bound (z + 2 ^ (w - 1)) (2 ^ w)). lia.
Qed.

Lemma wrap_i_wrap_u w z : 0 < w → wrap_i w (wrap_u w z) = wrap_i w z.
Proof.
  intros Hw. unfold wrap_i, wrap_u. f_equal.
  rewrite Zplus_mod_idemp_l. done.
Qed.

(** ** Slices

    Lengths and indices are [Z], as [usize] values; [len] is Rust's [len()]. *)
Definition len {A} (l : list A) : Z := Z.of_nat (length l).

(** [l[i]]: panics out of range. *)
Definition index {E A} (l : list A) (i : Z) : outcome E A :=
  if decide (0 <= i < len l)
  then match l !! Z.to_nat i with Some x => Ok x | None => Panic end
  else Panic.

(** [l.get(a..b)]. *)
Definition get_range {A} (l : list A) (a b : Z) : option (list A) :=
  if decide (0 <= a <= b ∧ b <= len l)
  then Some (take (Z.to_nat (b - a)) (drop (Z.to_nat a) l))
  else None.

(** [&l[a..b]]: panics out of range. *)
Definition slice {E A} (l : list A) (a b : Z) : outcome E (list A) :=
  match get_range l a b with Some s => Ok s | None => Panic end.

(** [l[a..a + src.len()].copy_from_slice(src)]. *)
Definition copy_at {E A} (l : list A) (a : Z) (src : list A) : outcome E (list A) :=
  if decide (0 <= a ∧ a + len src <= len l)
  then Ok (take (Z.to_nat a) l ++ src ++ drop (Z.to_nat (a + len src)) l)
  else Panic.

(** [l[i] = x]: panics out of range. *)
Definition set_index {E A} (l : list A) (i : Z) (x : A) : outcome E (list A) :=
  if decide (0 <= i < len l) then Ok (<[Z.to_nat i := x]> l) else Panic.

Lemma len_nonneg {A} (l : list A) : 0 <= len l.
Proof. unfold len. lia. Qed.
Lemma len_nil {A} : len (@nil A) = 0.
Proof. done. Qed.
Lemma len_cons {A} (x : A) l : len (x :: l) = 1 + len l.
Proof. unfold len. cbn [length]. lia. Qed.
Lemma len_app {A} (l k : list A) : len (l ++ k) = len l + len k.
Proof. unfold len. rewrite length_app. lia. Qed.
Lemma len_take {A} (l : list A) n : len (take n l) = Z.min (Z.of_nat n) (len l).
Proof. unfold len. rewrite length_take. lia. Qed.
Lemma len_drop {A} (l : list A) n : len (drop n l) = Z.max 0 (len l - Z.of_nat n).
Proof. unfold len. rewrite length_drop. lia. Qed.
Lemma len_fold {A} (l : list A) : Z.of_nat (length l) = len l.
Proof. done. Qed.

Create HintDb panda.
Create Rewrite HintDb len.
#[export] Hint Rewrite @len_nil @len_cons @len_app @len_take @len_drop @len_fold : len.
#[export] Hint Resolve len_nonneg : panda.

(** Normalise lengths and finish by linear arithmetic. *)
Ltac len_lia :=
  autorewrite with len in *;
  repeat match goal with
  | |- context [len ?l] =>
      lazymatch goal with
      | _ : 0 <= len l |- _ => fail
      | _ => pose proof (len_nonneg l)
      end
  | H : context [len ?l] |- _ =>
      lazymatch goal with
      | _ : 0 <= len l |- _ => fail
      | _ => pose proof (len_nonneg l)
      end
  end; first [lia | unfold len in *; lia].

Lemma get_range_app {A} (l k m : list A) :
  get_range (l ++ k ++ m) (len l) (len l + len k) = Some k.
Proof.
  unfold get_range. rewrite decide_True by len_lia.
  f_equal. replace (len l + len k - len l) with (len k) by lia.
  unfold len. rewrite !Nat2Z.id, drop_app_length, take_app_length. done.
Qed.

Lemma copy_at_app {E A} (l k m src : list A) :
  len k = len src →
  copy_at (E:=E) (l ++ k ++ m) (len l) src = Ok (l ++ src ++ m).
Proof.
  intros Hk. unfold copy_at. rewrite decide_True by len_lia.
  rewrite <- Hk. replace (len l + len k) with (len (l ++ k)) by len_lia.
  unfold len. rewrite !Nat2Z.id, take_app_length, (app_assoc l k m), drop_app_length. done.
Qed.

(** Writing right after the part [l] of a buffer that is already written. *)
Lemma copy_next {E A} (l rest src : list A) a :
  a = len l → len src <= len rest →
  copy_at (E:=E) (l ++ rest) a src = Ok ((l ++ src) ++ drop (length src) rest).
Proof.
  intros -> Hle. rewrite <- (take_drop (length src) rest) at 1.
  rewrite copy_at_app by len_lia. by rewrite app_assoc.
Qed.

(** Reading past a part of a buffer, and at its start. *)
Lemma get_range_skip {A} (l m : list A) a b :
  len l <= a → get_range (l ++ m) a b = get_range m (a - len l) (b - len l).
Proof.
  intros Ha. pose proof (len_nonneg l). unfold get_range.
  destruct (decide (0 <= a - len l <= b - len l ∧ b - len l <= len m)).
  - rewrite !decide_True by len_lia. rewrite drop_app_ge by (unfold len in *; lia).
    unfold len in *. f_equal. f_equal; [lia|]. f_equal. lia.
  - rewrite !decide_False by len_lia. done.
Qed.

Lemma get_range_here {A} (k m : list A) b : b = len k → get_range (k ++ m) 0 b = Some k.
Proof.
  intros ->. rewrite <- (app_nil_l (k ++ m)).
  replace (len k) with (len (@nil A) + len k) by len_lia. apply (get_range_app []).
Qed.

Lemma index_lookup {E A} (l : list A) i :
  0 <= i < len l → ∃ x, l !! Z.to_nat i = Some x ∧ index (E:=E) l i = Ok x.
Proof.
  intros Hi. destruct (lookup_lt_is_Some_2 l (Z.to_nat i)) as [x Hx]; [len_lia|].
  exists x. split; [done|]. unfold index. by rewrite decide_True, Hx by done.
Qed.

Lemma index_middle {E A} (l1 l2 : list A) o : index (E:=E) (l1 ++ o :: l2) (len l1) = Ok o.
Proof.
  unfold index. rewrite decide_True by len_lia. unfold len.
  by rewrite Nat2Z.id, list_lookup_middle.
Qed.

Lemma set_index_middle {E A} (l1 l2 : list A) o x :
  set_index (E:=E) (l1 ++ o :: l2) (len l1) x = Ok (l1 ++ x :: l2).
Proof.
  unfold set_index. rewrite decide_True by len_lia. unfold len.
  by rewrite Nat2Z.id, insert_app_r_alt, Nat.sub_diag by lia.
Qed.

(** [usize::checked_add] on the 64-bit target. *)
Definition checked_add (a b : Z) : option Z :=
  if decide (a + b < 2 ^ 64) then Some (a + b) else None.

(** ** Little-endian bytes: [to_le_bytes] and [from_le_bytes] *)
Fixpoint to_le_bytes (n : nat) (z : Z) : list Z :=
  match n with
  | O => []
  | S n => z mod 256 :: to_le_bytes n (z / 256)
  end.

Fixpoint from_le_bytes (bs : list Z) : Z :=
  match bs with
  | [] => 0
  | b :: bs => b + 256 * from_le_bytes bs
  end.

Lemma length_to_le_bytes n z : length (to_le_bytes n z) = n.
Proof. revert z. induction n as [|n IH]; intros z; cbn; [done|by rewrite IH]. Qed.

Lemma len_to_le_bytes n z : len (to_le_bytes n z) = Z.of_nat n.
Proof. unfold len. by rewrite length_to_le_bytes. Qed.
#[export] Hint Rewrite len_to_le_bytes : len.

Lemma to_le_bytes_u8 n z : Forall is_u8 (to_le_bytes n z).
Proof.
  revert z. induction n as [|n IH]; intros z; cbn; constructor; [|done].
  unfold in_u. pose proof (Z.mod_pos_bound z 256). rng.
Qed.

Lemma from_to_le_bytes n z : from_le_bytes (to_le_bytes n z) = wrap_u (8 * Z.of_nat n) z.
Proof.
  unfold wrap_u. revert z. induction n as [|n IH]; intros z.
  { cbn. by rewrite Z.mod_1_r. }
  cbn [to_le_bytes from_le_bytes]. rewrite IH.
  replace (8 * Z.of_nat (S n)) with (8 + 8 * Z.of_nat n) by lia.
  rewrite Z.pow_add_r by lia. change (2 ^ 8) with 256.
  rewrite Z.rem_mul_r by lia. done.
Qed.

Lemma from_le_bytes_bound bs :
  Forall is_u8 bs → in_u (8 * len bs) (from_le_bytes bs).
Proof.
  unfold in_u. induction 1 as [|b bs Hb Hbs IH]; cbn [from_le_bytes].
  { by split. }
  rewrite len_cons, Z.mul_add_distr_l, Z.pow_add_r by len_lia.
  change (2 ^ (8 * 1)) with 256. unfold in_u in Hb. change (2 ^ 8) with 256 in Hb. lia.
Qed.

Lemma to_from_le_bytes bs :
  Forall is_u8 bs → to_le_bytes (length bs) (from_le_bytes bs) = bs.
Proof.
  induction 1 as [|b bs Hb Hbs IH]; cbn [length from_le_bytes to_le_bytes]; [done|].
  unfold in_u in Hb. change (2 ^ 8) with 256 in Hb.
  rewrite Z.mul_comm, Z_mod_plus_full, Z.mod_small, Z.div_add, Z.div_small, Z.add_0_l, IH by lia.
  done.
Qed.

Arguments to_le_bytes : simpl never.
Arguments from_le_bytes : simpl never.

(** ** Bits *)
Lemma testbit_small b n i : 0 <= n → 0 <= b < 2 ^ n → n <= i → Z.testbit b i = false.
Proof. intros Hn Hb. by apply (Z.bounded_iff_bits_nonneg' n b); [|lia|]. Qed.

(** Two fields that do not overlap add up. *)
Lemma lor_shiftl_add a b n :
  0 <= n → 0 <= b < 2 ^ n → Z.lor (Z.shiftl a n) b = a * 2 ^ n + b.
Proof.
  intros Hn Hb. rewrite <- Z.add_nocarry_lor; [by rewrite Z.shiftl_mul_pow2|].
  apply Z.bits_inj'. intros i Hi. rewrite Z.land_spec, Z.bits_0, Z.shiftl_spec by done.
  destruct (decide (i < n)); [by rewrite Z.testbit_neg_r by lia|].
  by rewrite (testbit_small b n i), andb_false_r by lia.
Qed.

Lemma land_mask a n : 0 <= n → Z.land a (2 ^ n - 1) = a mod 2 ^ n.
Proof. intros Hn. rewrite <- Z.land_ones by done. f_equal. rewrite Z.ones_equiv. lia. Qed.
