(* ===== verification/Utf8.v ===== *)
(** * UTF-8, as far as the sources use it

    The wire formats carry [String]s.  Decoding one calls
    [core::str::from_utf8]; the terminal protocol also encodes a [char] with
    [char::encode_utf8] and reads one back with [str::chars].  A Rust string is
    modelled as the list of its bytes, and the standard library's well-formed
    byte sequences (the table of RFC 3629, which [from_utf8] implements) are
    the boolean [utf8_valid]. *)

From S2P Require Import Prelude.

(** A Rust [str] or [String]: its UTF-8 bytes. *)
Abbreviation str := (list Z).

(** A [char]: a Unicode scalar value. *)
Definition is_char (c : Z) : Prop := 0 <= c < 0xD800 ∨ 0xE000 <= c < 0x110000.

Definition between (a b z : Z) : bool := (a <=? z) && (z <=? b).
Definition cont (z : Z) : bool := between 0x80 0xBF z.

(** The second byte's range depends on the first byte, which is how overlong
    forms, surrogates and values above U+10FFFF are refused. *)
Definition second3 (b0 b1 : Z) : bool :=
  if b0 =? 0xE0 then between 0xA0 0xBF b1
  else if b0 =? 0xED then between 0x80 0x9F b1
  else between 0xE1 0xEF b0 && cont b1.
Definition second4 (b0 b1 : Z) : bool :=
  if b0 =? 0xF0 then between 0x90 0xBF b1
  else if b0 =? 0xF4 then between 0x80 0x8F b1
  else between 0xF1 0xF3 b0 && cont b1.

(** [core::str::from_utf8(bs).is_ok()]. *)
Fixpoint utf8_valid (bs : list Z) : bool :=
  match bs with
  | [] => true
  | b0 :: r1 =>
      if between 0 0x7F b0 then utf8_valid r1 else
      match r1 with
      | [] => false
      | b1 :: r2 =>
          if between 0xC2 0xDF b0 then cont b1 && utf8_valid r2 else
          match r2 with
          | [] => false
          | b2 :: r3 =>
              if between 0xE0 0xEF b0 then second3 b0 b1 && cont b2 && utf8_valid r3 else
              match r3 with
              | [] => false
              | b3 :: r4 =>
                  between 0xF0 0xF4 b0 && second4 b0 b1 && cont b2 && cont b3 && utf8_valid r4
              end
          end
      end
  end.

(** [char::encode_utf8]. *)
Definition encode_utf8 (c : Z) : list Z :=
  if c <? 0x80 then [c]
  else if c <? 0x800 then [0xC0 + c / 64; 0x80 + c mod 64]
  else if c <? 0x10000 then
    [0xE0 + c / 4096; 0x80 + (c / 64) mod 64; 0x80 + c mod 64]
  else
    [0xF0 + c / 262144; 0x80 + (c / 4096) mod 64; 0x80 + (c / 64) mod 64; 0x80 + c mod 64].

(** [s.chars().next()] of a string. *)
Definition chars_next (s : str) : option Z :=
  match s with
  | [] => None
  | b0 :: r =>
      if b0 <? 0x80 then Some b0
      else if b0 <? 0xE0 then
        match r with
        | b1 :: _ => Some (b0 mod 32 * 64 + b1 mod 64)
        | _ => None
        end
      else if b0 <? 0xF0 then
        match r with
        | b1 :: b2 :: _ => Some (b0 mod 16 * 4096 + b1 mod 64 * 64 + b2 mod 64)
        | _ => None
        end
      else
        match r with
        | b1 :: b2 :: b3 :: _ =>
            Some (b0 mod 8 * 262144 + b1 mod 64 * 4096 + b2 mod 64 * 64 + b3 mod 64)
        | _ => None
        end
  end.

Lemma between_spec a b z : between a b z = true ↔ a <= z <= b.
Proof. unfold between. lia. Qed.

Lemma between_true a b z : a <= z <= b → between a b z = true.
Proof. apply between_spec. Qed.

Lemma between_false a b z : z < a ∨ b < z → between a b z = false.
Proof. unfold between. lia. Qed.

(** Decide the range tests of a goal whose bytes have linear bounds. *)
Ltac byte_tests :=
  repeat match goal with
  | |- context [between ?a ?b ?z] =>
      first [rewrite (between_true a b z) by lia | rewrite (between_false a b z) by lia]
  | |- context [?x =? ?y] => destruct (Z.eqb_spec x y); try lia
  | |- context [?x <? ?y] => destruct (Z.ltb_spec x y); try lia
  end.

(** Case analysis of the ranges [encode_utf8] and the validity table split
    on, with the quotients and remainders as linear facts. *)
Ltac utf8_cases c :=
  destruct (Z.ltb_spec c 0x80); [|
  destruct (Z.ltb_spec c 0x800); [|
  destruct (Z.ltb_spec c 0x10000)]].

Lemma utf8_valid_encode c tl :
  is_char c → utf8_valid (encode_utf8 c ++ tl) = utf8_valid tl.
Proof.
  unfold is_char, encode_utf8. intros Hc.
  utf8_cases c; cbn [app utf8_valid]; unfold second3, second4, cont.
  - by byte_tests.
  - assert (2 <= c / 64 < 32 ∧ 0 <= c mod 64 < 64) by (Z.to_euclidean_division_equations; lia).
    by byte_tests.
  - assert (0 <= c / 4096 < 16 ∧ 0 <= c mod 64 < 64 ∧ 0 <= (c / 64) mod 64 < 64
      ∧ (c / 4096 = 0 → 32 <= (c / 64) mod 64)
      ∧ (c / 4096 = 13 → (c / 64) mod 64 < 32)) by (Z.to_euclidean_division_equations; lia).
    by byte_tests.
  - assert (0 <= c / 262144 < 5 ∧ 0 <= c mod 64 < 64 ∧ 0 <= (c / 64) mod 64 < 64
      ∧ 0 <= (c / 4096) mod 64 < 64
      ∧ (c / 262144 = 0 → 16 <= (c / 4096) mod 64)
      ∧ (c / 262144 = 4 → (c / 4096) mod 64 < 16)) by (Z.to_euclidean_division_equations; lia).
    by byte_tests.
Qed.

Lemma chars_next_encode c tl :
  is_char c → chars_next (encode_utf8 c ++ tl) = Some c.
Proof.
  unfold is_char, encode_utf8. intros Hc.
  utf8_cases c; cbn [app chars_next].
  - by byte_tests.
  - assert (2 <= c / 64 < 32) by (Z.to_euclidean_division_equations; lia).
    byte_tests. f_equal. Z.to_euclidean_division_equations; lia.
  - assert (0 <= c / 4096 < 16) by (Z.to_euclidean_division_equations; lia).
    byte_tests. f_equal. Z.to_euclidean_division_equations; lia.
  - assert (0 <= c / 262144 < 5) by (Z.to_euclidean_division_equations; lia).
    byte_tests. f_equal. Z.to_euclidean_division_equations; lia.
Qed.

Lemma encode_utf8_len c : 1 <= len (encode_utf8 c) <= 4.
Proof. unfold encode_utf8. utf8_cases c; cbv; by split. Qed.

Lemma encode_utf8_u8 c : is_char c → Forall is_u8 (encode_utf8 c).
Proof.
  unfold is_char, encode_utf8. intros Hc. utf8_cases c; repeat constructor; rng;
    Z.to_euclidean_division_equations; lia.
Qed.

(** The first character of a valid string is a scalar value. *)
Lemma chars_next_valid s c :
  utf8_valid s = true → chars_next s = Some c → is_char c.
Proof.
  unfold is_char. destruct s as [|b0 [|b1 [|b2 [|b3 s]]]]; cbn [utf8_valid chars_next];
    [done|..]; unfold second3, second4, cont, between; intros Hv Hc;
    repeat (case_match; simplify_eq/=); try done;
    Z.to_euclidean_division_equations; lia.
Qed.

(** A nonempty valid string has a first character. *)
Lemma chars_next_some s :
  utf8_valid s = true → s ≠ [] → is_Some (chars_next s).
Proof.
  destruct s as [|b0 [|b1 [|b2 [|b3 s]]]]; cbn [utf8_valid chars_next];
    unfold second3, second4, cont, between; intros Hv Hs; try done;
    repeat (case_match; simplify_eq/=); try (by eexists); lia.
Qed.
