(* ===== verification/Text.v ===== *)
(** * Strings and numbers as text, as far as the sources use them

    The [core::str] searches and the parsing and printing of integers: a string
    is the list of its bytes. *)

From Stdlib Require Import Ascii String.
From S2P Require Import Prelude Utf8.
#[local] Open Scope list_scope.

(** The characters of a literal. *)
Definition lit (s : string) : list Z := (λ a, Z.of_N (N_of_ascii a)) <$> list_ascii_of_string s.

(** ** Searches *)
(** [str::split_once] at a character. *)
Fixpoint split_once (c : Z) (s : str) : option (str * str) :=
  match s with
  | [] => None
  | x :: s => if decide (x = c) then Some ([], s)
              else match split_once c s with Some (a, b) => Some (x :: a, b) | None => None end
  end.
Fixpoint strip_prefix (p s : str) : option str :=
  match p, s with
  | [], _ => Some s
  | x :: p, y :: s => if decide (x = y) then strip_prefix p s else None
  | _ :: _, [] => None
  end.
(** [trim_start_matches] of a character. *)
Fixpoint trim_start_char (c : Z) (s : str) : str :=
  match s with
  | [] => []
  | x :: r => if decide (x = c) then trim_start_char c r else s
  end.
Definition starts_with (s p : str) : bool := bool_decide (is_Some (strip_prefix p s)).

Lemma strip_prefix_app p s : strip_prefix p (p ++ s) = Some s.
Proof. induction p as [|x p IH]; [done|]. cbn. by rewrite decide_True. Qed.
Lemma strip_prefix_Some p s r : strip_prefix p s = Some r ↔ s = p ++ r.
Proof.
  split; [|intros ->; apply strip_prefix_app]. revert s. induction p as [|x p IH]; intros s; cbn; [by intros [= ->]|].
  destruct s as [|y s]; [done|]. case_decide; [|done]. intros Hs. subst y. by rewrite (IH s Hs).
Qed.

Lemma split_once_app c a b : c ∉ a → split_once c (a ++ c :: b) = Some (a, b).
Proof.
  induction a as [|x a IH]; intros Ha; cbn; [by rewrite decide_True|].
  rewrite decide_False by (intros ->; apply Ha, list_elem_of_here). by rewrite IH by (intros ?; apply Ha; by apply list_elem_of_further).
Qed.
Lemma split_once_None c s : c ∉ s → split_once c s = None.
Proof.
  induction s as [|x s IH]; intros Hs; cbn; [done|]. rewrite decide_False by (intros ->; apply Hs, list_elem_of_here).
  by rewrite IH by (intros ?; apply Hs; by apply list_elem_of_further).
Qed.
Lemma split_once_Some c s a b : split_once c s = Some (a, b) → s = a ++ c :: b ∧ c ∉ a.
Proof.
  revert a b. induction s as [|x s IH]; intros a b; cbn; [done|]. case_decide as Hx; [intros [= <- <-]; subst x; split; [done|apply not_elem_of_nil]|].
  destruct (split_once c s) as [[a' b']|]; [|done]. intros [= <- <-]. destruct (IH a' b' eq_refl) as [-> Ha]. split; [done|].
  intros [->|?]%elem_of_cons; done.
Qed.

(** ** Numbers *)
(** [{}], [{:x}]: the digits, at most as many as the fuel. *)
Definition digit_char (d : Z) : Z := if decide (d < 10) then 48 + d else 87 + d.
Fixpoint digits_from (radix : Z) (fuel : nat) (n : Z) : list Z :=
  match fuel with
  | O => []
  | S fuel => if decide (n < radix) then [digit_char n] else digits_from radix fuel (n / radix) ++ [digit_char (n mod radix)]
  end.
(** [{}] of an integer: at most 20 digits at 64 bits. *)
Definition decimal (n : Z) : list Z := if decide (n < 0) then 45 :: digits_from 10 20 (- n) else digits_from 10 20 n.
(** [{:x}] of a byte, and [{:02x}]. *)
Definition hex (n : Z) : list Z := digits_from 16 2 n.
Definition hex2 (n : Z) : list Z := if decide (n < 16) then 48 :: hex n else hex n.

(** [char::to_digit]. *)
Definition to_digit (radix c : Z) : option Z :=
  let d := if decide (48 <= c <= 57) then Some (c - 48)
           else if decide (97 <= c <= 122) then Some (c - 87)
           else if decide (65 <= c <= 90) then Some (c - 55) else None in
  match d with Some d => if decide (d < radix) then Some d else None | None => None end.

Fixpoint parse_digits (radix max n : Z) (s : str) : option Z :=
  match s with
  | [] => Some n
  | c :: s =>
      match to_digit radix c with
      | Some d => let n := n * radix + d in if decide (n <= max) then parse_digits radix max n s else None
      | None => None
      end
  end.
(** [from_str_radix] of an unsigned type: a sign [+] is accepted. *)
Definition parse_uint (radix max : Z) (s : str) : option Z :=
  match s with
  | [] => None
  | c :: r => if decide (c = 43 ∧ r ≠ []) then parse_digits radix max 0 r else parse_digits radix max 0 s
  end.

Lemma to_digit_char radix d : 2 <= radix <= 16 → 0 <= d < radix → to_digit radix (digit_char d) = Some d.
Proof.
  intros Hr Hd. unfold to_digit, digit_char. destruct (decide (d < 10)).
  - rewrite decide_True by lia. rewrite decide_True by lia. f_equal. lia.
  - rewrite decide_False by lia. rewrite decide_True by lia. rewrite decide_True by lia. f_equal. lia.
Qed.

Lemma parse_digits_app radix max n s1 s2 :
  parse_digits radix max n (s1 ++ s2) = match parse_digits radix max n s1 with Some n => parse_digits radix max n s2 | None => None end.
Proof.
  revert n. induction s1 as [|c s1 IH]; intros n; cbn [parse_digits app]; [done|]. destruct (to_digit radix c); [|done]. case_decide; [|done]. apply IH.
Qed.

(** What is printed parses back. *)
Lemma parse_digits_from radix max fuel : 2 <= radix <= 16 → ∀ n, 0 <= n <= max → n < radix ^ Z.of_nat fuel →
  parse_digits radix max 0 (digits_from radix fuel n) = Some n.
Proof.
  intros Hr. induction fuel as [|fuel IH]; intros n Hn Hf; [simpl in Hf; assert (n = 0) as -> by lia; done|]. cbn [digits_from].
  destruct (decide (n < radix)).
  - cbn [parse_digits]. rewrite to_digit_char by lia. rewrite Z.mul_0_l, Z.add_0_l, decide_True by lia. done.
  - rewrite parse_digits_app, IH.
    + cbn [parse_digits]. rewrite to_digit_char by (try lia; apply Z.mod_pos_bound; lia).
      replace (n / radix * radix + n mod radix) with n by (pose proof (Z.div_mod n radix ltac:(lia)); lia). by rewrite decide_True by lia.
    + split; [apply Z.div_pos; lia|]. apply Z.div_le_upper_bound; [lia|]. nia.
    + apply Z.div_lt_upper_bound; [lia|]. rewrite Nat2Z.inj_succ, Z.pow_succ_r in Hf by lia. lia.
Qed.

Lemma digits_no_plus radix fuel n c : 2 <= radix <= 16 → 0 <= n → c ∈ digits_from radix fuel n → 48 <= c <= 57 ∨ 97 <= c <= 102.
Proof.
  intros Hr. revert n. induction fuel as [|fuel IH]; intros n Hn; cbn [digits_from]; [by intros ?%elem_of_nil|].
  assert (∀ d, 0 <= d < radix → 48 <= digit_char d <= 57 ∨ 97 <= digit_char d <= 102) as Hd by (intros d ?; unfold digit_char; destruct (decide _); lia).
  destruct (decide _); [intros ->%list_elem_of_singleton; apply Hd; lia|]. intros [Hc| ->%list_elem_of_singleton]%elem_of_app.
  - apply (IH (n / radix)); [apply Z.div_pos; lia|done].
  - apply Hd, Z.mod_pos_bound. lia.
Qed.

Lemma digits_nonempty radix fuel n : (0 < fuel)%nat → digits_from radix fuel n ≠ [].
Proof. destruct fuel as [|fuel]; [lia|]. cbn. intros _. destruct (decide _); [done|]. intros [_ ?]%app_nil. done. Qed.

Lemma parse_uint_digits radix max s n : s ≠ [] → head s ≠ Some 43 → parse_digits radix max 0 s = Some n → parse_uint radix max s = Some n.
Proof. intros Hs Hh Hp. destruct s as [|c s]; [done|]. cbn [parse_uint]. rewrite decide_False; [done|]. intros [-> _]. done. Qed.

Lemma parse_decimal max n : 0 <= n <= max → n < 10 ^ 20 → parse_uint 10 max (decimal n) = Some n.
Proof.
  intros Hn Hl. unfold decimal. rewrite decide_False by lia. apply parse_uint_digits; [by apply digits_nonempty; lia| |by apply parse_digits_from].
  intros Hh. destruct (digits_from 10 20 n) as [|c s] eqn:E; [done|]. injection Hh as ->.
  destruct (digits_no_plus 10 20 n 43) as [?|?]; [lia|lia|rewrite E; apply list_elem_of_here|lia|lia].
Qed.

Lemma parse_hex2 n : 0 <= n < 256 → parse_uint 16 255 (hex2 n) = Some n ∧ parse_uint 16 255 (hex n) = Some n.
Proof.
  intros Hn. assert (parse_digits 16 255 0 (hex n) = Some n) as Hp by (apply parse_digits_from; lia).
  assert (hex n ≠ [] ∧ head (hex n) ≠ Some 43) as [Hne Hh].
  { split; [apply digits_nonempty; lia|]. intros Hh. unfold hex in Hh. destruct (digits_from 16 2 n) as [|c s] eqn:E; [done|]. injection Hh as ->.
    destruct (digits_no_plus 16 2 n 43) as [?|?]; [lia|lia|rewrite E; apply list_elem_of_here|lia|lia]. }
  split; [|by apply parse_uint_digits]. unfold hex2. destruct (decide _); [|by apply parse_uint_digits]. by apply parse_uint_digits.
Qed.
