(* ===== verification/Buffers.v ===== *)
(** * Computations on a caller's buffer

    Several functions of the sources fill a [&mut [u8]] they are given and
    return [Option].  [BufM A] is such a computation: the buffer is threaded
    through, a [None] keeps the writes made before it, and an index out of
    range panics. *)

From S2P Require Import Prelude.

(** ** Computations on a caller's buffer *)
Definition BufM (A : Type) : Type := list Z → outcome Empty_set (list Z * option A).

#[export] Instance BufM_ret : MRet BufM := λ A a buf, Ok (buf, Some a).
#[export] Instance BufM_bind : MBind BufM := λ A B f m buf,
  match m buf with
  | Ok (buf', Some a) => f a buf'
  | Ok (buf', None) => Ok (buf', None)
  | Err e => Err e
  | Panic => Panic
  | OutOfFuel => OutOfFuel
  end.

(** [return None]. *)
Definition none {A} : BufM A := λ buf, Ok (buf, None).
(** [buf.len()]. *)
Definition buf_len : BufM Z := λ buf, Ok (buf, Some (len buf)).
(** [buf[a..a + src.len()].copy_from_slice(src)]; one byte is [buf[a] = b]. *)
Definition store (a : Z) (src : list Z) : BufM () := λ buf,
  buf' ← copy_at buf a src; Ok (buf', Some tt).

(** [&buf[a..b]]. *)
Definition load (a b : Z) : BufM (list Z) := λ buf,
  s ← slice buf a b; Ok (buf, Some s).
(** A computation that does not touch the buffer. *)
Definition lift {A} (m : outcome Empty_set A) : BufM A := λ buf,
  a ← m; Ok (buf, Some a).

(** ** Running the computations *)
Lemma bind_buf_len {B} (k : Z → BufM B) buf : (buf_len ≫= k) buf = k (len buf) buf.
Proof. done. Qed.

Lemma bind_store {B} (k : () → BufM B) l rest src a :
  a = len l → len src <= len rest →
  (store a src ≫= k) (l ++ rest) = k tt ((l ++ src) ++ drop (length src) rest).
Proof.
  intros. unfold mbind, BufM_bind, store. by rewrite (copy_next (E:=Empty_set)) by done.
Qed.

Lemma bind_assoc_buf {A B C} (m : BufM A) (f : A → BufM B) (g : B → BufM C) buf :
  ((m ≫= f) ≫= g) buf = (m ≫= λ a, f a ≫= g) buf.
Proof. unfold mbind, BufM_bind. by repeat case_match; simplify_eq. Qed.

Lemma Ok_eq {A B} (x x' : A) (y y' : B) :
  x = x' → y = y' → @Ok Empty_set _ (x, Some y) = Ok (x', Some y').
Proof. by intros -> ->. Qed.

(** Starts a run at the beginning of the buffer. *)
Ltac from_start :=
  lazymatch goal with |- ?m ?b = ?r => change (m ([] ++ b) = r) end.
