(* ===== verification/BTree.v ===== *)
(** * [BTreeMap] with integer keys

    The kernel uses [alloc::collections::BTreeMap] where it needs the order of
    the keys: first-fit searches, neighbours of a key, expiry in order.  Such a
    map is modelled by its entries in ascending order of their keys; [bt_get]
    is its meaning as a finite function. *)

From S2P Require Import Prelude.
From stdpp Require Import sorting.
#[local] Open Scope Z_scope.

Abbreviation btree V := (list (Z * V)).

Section btree.
Context {V : Type}.
Implicit Types (t : btree V) (k : Z) (v : V).

Fixpoint bt_get k t : option V :=
  match t with
  | [] => None
  | (k', v) :: t => if decide (k = k') then Some v else bt_get k t
  end.

(** [insert]: replaces the value of an existing key. *)
Fixpoint bt_insert k v t : btree V :=
  match t with
  | [] => [(k, v)]
  | (k', v') :: t =>
      if decide (k < k') then (k, v) :: (k', v') :: t
      else if decide (k = k') then (k, v) :: t
      else (k', v') :: bt_insert k v t
  end.

Fixpoint bt_remove k t : btree V :=
  match t with
  | [] => []
  | (k', v') :: t => if decide (k = k') then bt_remove k t else (k', v') :: bt_remove k t
  end.

(** [range(..k).next_back()]. *)
Definition bt_before k t : option (Z * V) := last (filter (λ e, e.1 < k) t).
(** [range(k..).next()]. *)
Definition bt_from k t : option (Z * V) := head (filter (λ e, k <= e.1) t).

(** Keys strictly ascend. *)
Definition bt_sorted t : Prop := StronglySorted Z.lt t.*1.

Lemma bt_sorted_cons k v t :
  bt_sorted ((k, v) :: t) ↔ bt_sorted t ∧ Forall (λ e, k < e.1) t.
Proof. unfold bt_sorted. cbn. rewrite StronglySorted_cons, Forall_fmap. naive_solver. Qed.

Lemma bt_get_elem k v t : bt_sorted t → (k, v) ∈ t ↔ bt_get k t = Some v.
Proof.
  induction t as [|[k' v'] t IH]; cbn; [intros _; split; [by intros ?%elem_of_nil|done]|].
  intros [Hs Hlt]%bt_sorted_cons. rewrite elem_of_cons. case_decide as Hk.
  - subst k'. split; [|intros [= ->]; by left]. intros [[= ->]|Hin]; [done|].
    rewrite Forall_forall in Hlt. apply Hlt in Hin. cbn in Hin. lia.
  - rewrite IH by done. naive_solver.
Qed.

Lemma bt_get_None_lt k t : Forall (λ e, k < e.1) t → bt_get k t = None.
Proof.
  induction 1 as [|[k' v'] t Hk Ht IH]; [done|]. cbn in *. by rewrite decide_False by lia.
Qed.

Lemma bt_insert_Forall (P : Z * V → Prop) k v t : P (k, v) → Forall P t → Forall P (bt_insert k v t).
Proof.
  intros Hk Ht. induction Ht as [|[k' v'] t Hk' Ht IH]; cbn; [by constructor|].
  repeat case_decide; repeat constructor; done.
Qed.

Lemma bt_insert_sorted k v t : bt_sorted t → bt_sorted (bt_insert k v t).
Proof.
  induction t as [|[k' v'] t IH]; intros Hs; cbn.
  { apply bt_sorted_cons. split; [done|constructor]. }
  pose proof Hs as [Hs' Hlt]%bt_sorted_cons. repeat case_decide.
  - apply bt_sorted_cons. split; [done|]. constructor; [done|].
    eapply Forall_impl; [exact Hlt|]. cbn. lia.
  - subst k'. by apply bt_sorted_cons.
  - apply bt_sorted_cons. split; [by apply IH|]. apply bt_insert_Forall; [cbn; lia|done].
Qed.

Lemma bt_get_insert k v t k' :
  bt_sorted t → bt_get k' (bt_insert k v t) = if decide (k' = k) then Some v else bt_get k' t.
Proof.
  induction t as [|[k1 v1] t IH]; intros Hs; cbn; [done|].
  apply bt_sorted_cons in Hs as [Hs Hlt].
  destruct (decide (k < k1)); [cbn; done|]. destruct (decide (k = k1)) as [<-|Hk1]; cbn.
  - by repeat case_decide.
  - rewrite IH by done. repeat case_decide; congruence.
Qed.

Lemma bt_remove_Forall (P : Z * V → Prop) k t : Forall P t → Forall P (bt_remove k t).
Proof. induction 1 as [|[k' v'] t Hk Ht IH]; cbn; [done|]. case_decide; [done|by constructor]. Qed.

Lemma bt_remove_sorted k t : bt_sorted t → bt_sorted (bt_remove k t).
Proof.
  induction t as [|[k' v'] t IH]; [done|]. intros [Hs Hlt]%bt_sorted_cons. cbn.
  case_decide; [by apply IH|]. apply bt_sorted_cons. split; [by apply IH|by apply bt_remove_Forall].
Qed.

Lemma bt_get_remove k t k' :
  bt_get k' (bt_remove k t) = if decide (k' = k) then None else bt_get k' t.
Proof.
  induction t as [|[k1 v1] t IH]; cbn; [by case_decide|].
  destruct (decide (k = k1)); cbn; rewrite IH; repeat case_decide; congruence.
Qed.

(** Cutting a map at a key: the entries below it and the rest.  The
    neighbours are the last of the former and the first of the latter. *)
Lemma filter_none {A} (P : A → Prop) `{!∀ x, Decision (P x)} (l : list A) :
  Forall (λ x, ¬ P x) l → filter P l = [].
Proof. induction 1 as [|x l Hx Hl IH]; [done|]. by rewrite filter_cons, decide_False. Qed.

Lemma filter_all {A} (P : A → Prop) `{!∀ x, Decision (P x)} (l : list A) :
  Forall P l → filter P l = l.
Proof. induction 1 as [|x l Hx Hl IH]; [done|]. by rewrite filter_cons, decide_True, IH. Qed.

Lemma bt_cut_at k l r :
  Forall (λ e, e.1 < k) l → Forall (λ e, k <= e.1) r →
  bt_before k (l ++ r) = last l ∧ bt_from k (l ++ r) = head r.
Proof.
  intros Hl Hr. unfold bt_before, bt_from; rewrite !filter_app. split.
  - rewrite (filter_all _ l) by done.
    rewrite (filter_none _ r) by (eapply Forall_impl; [exact Hr|]; cbn; lia).
    by rewrite app_nil_r.
  - rewrite (filter_none _ l) by (eapply Forall_impl; [exact Hl|]; cbn; lia).
    by rewrite (filter_all _ r).
Qed.

Lemma bt_cut k t :
  bt_sorted t →
  ∃ l r, t = l ++ r ∧ Forall (λ e, e.1 < k) l ∧ Forall (λ e, k <= e.1) r ∧
    bt_before k t = last l ∧ bt_from k t = head r.
Proof.
  intros Hs. assert (∃ l r, t = l ++ r ∧ Forall (λ e, e.1 < k) l ∧ Forall (λ e, k <= e.1) r)
    as (l & r & -> & Hl & Hr).
  { induction t as [|[k' v'] t IH]; [by exists [], []|]. apply bt_sorted_cons in Hs as [Hs Hlt].
    destruct (decide (k' < k)) as [Hk|Hk].
    - destruct IH as (l & r & -> & Hl & Hr); [done|]. exists ((k', v') :: l), r. by repeat constructor.
    - exists [], ((k', v') :: t). split_and!; [done|done|]. constructor; [cbn; lia|].
      eapply Forall_impl; [exact Hlt|]. cbn. lia. }
  exists l, r. destruct (bt_cut_at k l r Hl Hr). done.
Qed.

(** Inserting and removing at a cut. *)
Lemma bt_insert_at k v l r :
  Forall (λ e, e.1 < k) l → Forall (λ e, k < e.1) r → bt_insert k v (l ++ r) = l ++ (k, v) :: r.
Proof.
  intros Hl Hr. induction Hl as [|[k' v'] l Hk Hl IH]; cbn.
  - destruct Hr as [|[k' v'] r Hk Hr]; [done|]. cbn in *. by rewrite decide_True by lia.
  - cbn in Hk. rewrite !decide_False by lia. by rewrite IH.
Qed.

Lemma bt_remove_notin k t : Forall (λ e, e.1 ≠ k) t → bt_remove k t = t.
Proof.
  induction 1 as [|[k' v'] t Hk Ht IH]; [done|]. cbn in *. rewrite decide_False by congruence.
  by rewrite IH.
Qed.

Lemma bt_remove_app k l r : bt_remove k (l ++ r) = bt_remove k l ++ bt_remove k r.
Proof. induction l as [|[k' v'] l IH]; [done|]. cbn. case_decide; by rewrite IH. Qed.

Lemma bt_remove_at k v l r :
  Forall (λ e, e.1 < k) l → Forall (λ e, k < e.1) r → bt_remove k (l ++ (k, v) :: r) = l ++ r.
Proof.
  intros Hl Hr. rewrite bt_remove_app. cbn. rewrite decide_True by done.
  rewrite !bt_remove_notin; [done| |]; eapply Forall_impl; [exact Hr| |exact Hl|]; cbn; lia.
Qed.

End btree.
