(* ===== verification/Encoding.v ===== *)
(** * The TLV encoding layer ([panda-abi/src/encoding.rs])

    [Encoder] and [Decoder] with one definition per method, the [Encode] and
    [Decode] implementations for the primitive and container types, and the two
    contracts every codec of the ABI is proved against: [Codec] (what is
    written is read back, [encode] only appends) and [DecSafe] (decoding
    arbitrary bytes never panics, never runs past the buffer, and only yields
    well-formed values). *)

From S2P Require Import Prelude Utf8.

(** ** Errors *)
Inductive DecodeError :=
| Truncated
| UnknownType
| InvalidValue
| InvalidUtf8.

#[export] Instance DecodeError_eq_dec : EqDecision DecodeError.
Proof. solve_decision. Defined.

(** ** Encoder *)
Record Encoder := mkEncoder { ebuf : list Z }.

Definition Encoder_new : Encoder := mkEncoder [].
Definition finish (e : Encoder) : list Z := ebuf e.
Definition Encoder_len (e : Encoder) : Z := len (ebuf e).

Definition extend_from_slice (e : Encoder) (bs : list Z) : Encoder :=
  mkEncoder (ebuf e ++ bs).

(** Returns the encoder and the position of the length field. *)
Definition write_tlv_header (msg_type length : Z) (e : Encoder) : Encoder * Z :=
  let e := extend_from_slice e (to_le_bytes 2 msg_type) in
  let len_pos := Encoder_len e in
  (extend_from_slice e (to_le_bytes 4 length), len_pos).

(** Panics when the field is not inside the buffer. *)
Definition update_length {E} (len_pos length : Z) (e : Encoder) : outcome E Encoder :=
  mkEncoder <$> copy_at (ebuf e) len_pos (to_le_bytes 4 length).

Definition write_u8 (value : Z) (e : Encoder) : Encoder := extend_from_slice e [value].
Definition write_u16 (value : Z) (e : Encoder) : Encoder :=
  extend_from_slice e (to_le_bytes 2 value).
Definition write_u32 (value : Z) (e : Encoder) : Encoder :=
  extend_from_slice e (to_le_bytes 4 value).
Definition write_i32 (value : Z) (e : Encoder) : Encoder :=
  extend_from_slice e (to_le_bytes 4 value).
Definition write_i64 (value : Z) (e : Encoder) : Encoder :=
  extend_from_slice e (to_le_bytes 8 value).
(** An [f64] is its 64-bit pattern: [f64::to_le_bytes] and [from_le_bytes]
    transport the bits. *)
Definition write_f64 (bits : Z) (e : Encoder) : Encoder :=
  extend_from_slice e (to_le_bytes 8 bits).

(** The length prefix is cast with [as u16]; the bytes are written in full. *)
Definition write_string (s : str) (e : Encoder) : Encoder :=
  extend_from_slice (write_u16 (wrap_u 16 (len s)) e) s.
Definition write_bytes (bytes : list Z) (e : Encoder) : Encoder := extend_from_slice e bytes.
Definition write_byte_array (bytes : list Z) (e : Encoder) : Encoder :=
  extend_from_slice (write_u32 (wrap_u 32 (len bytes)) e) bytes.
Definition write_bool (value : bool) (e : Encoder) : Encoder :=
  extend_from_slice e [if value then 1 else 0].

(** ** Decoder *)
Record Decoder := mkDecoder { dbuf : list Z; dpos : Z }.

Definition Decoder_new (buf : list Z) : Decoder := mkDecoder buf 0.
Definition position (d : Decoder) : Z := dpos d.
Definition remaining (d : Decoder) : Z := Z.max 0 (len (dbuf d) - dpos d).
Definition Decoder_is_empty (d : Decoder) : bool := len (dbuf d) <=? dpos d.
Definition remaining_slice {E} (d : Decoder) : outcome E (list Z) :=
  slice (dbuf d) (dpos d) (len (dbuf d)).

(** A decoding step: on success the value and the decoder with its position
    moved.  After an error the position is never read again ([?] propagates the
    error to the caller that owns the decoder). *)
Definition Dec (A : Type) : Type := Decoder → outcome DecodeError (A * Decoder).

#[export] Instance Dec_ret : MRet Dec := λ A a d, Ok (a, d).
#[export] Instance Dec_bind : MBind Dec := λ A B k m d,
  match m d with
  | Ok (a, d) => k a d
  | Err e => Err e
  | Panic => Panic
  | OutOfFuel => OutOfFuel
  end.
Definition Dec_err {A} (e : DecodeError) : Dec A := λ _, Err e.
Definition Dec_ok_or {A} (o : option A) (e : DecodeError) : Dec A :=
  match o with Some a => mret a | None => Dec_err e end.

Definition advance (d : Decoder) (n : Z) : Decoder := mkDecoder (dbuf d) (dpos d + n).

(** [[buf[pos], buf[pos + 1], ..., buf[pos + n - 1]]], each access checked. *)
Fixpoint index_array {E} (buf : list Z) (pos : Z) (n : nat) : outcome E (list Z) :=
  match n with
  | O => Ok []
  | S n =>
      b ← index buf pos;
      bs ← index_array buf (pos + 1) n;
      Ok (b :: bs)
  end.

(** The shape shared by the fixed-width reads: check [remaining], index the
    bytes, convert, move the position. *)
Definition read_array {A} (n : nat) (from : list Z → A) : Dec A := λ d,
  if decide (remaining d < Z.of_nat n) then Err Truncated
  else
    bs ← index_array (dbuf d) (dpos d) n;
    Ok (from bs, advance d (Z.of_nat n)).

Definition read_u8 : Dec Z := λ d,
  if decide (remaining d < 1) then Err Truncated
  else
    value ← index (dbuf d) (dpos d);
    Ok (value, advance d 1).
Definition read_u16 : Dec Z := read_array 2 from_le_bytes.
Definition read_u32 : Dec Z := read_array 4 from_le_bytes.
Definition read_i32 : Dec Z := read_array 4 (λ bs, wrap_i 32 (from_le_bytes bs)).
Definition read_i64 : Dec Z := read_array 8 (λ bs, wrap_i 64 (from_le_bytes bs)).
Definition read_f64 : Dec Z := read_array 8 from_le_bytes.

Definition read_tlv_header : Dec (Z * Z) :=
  msg_type ← read_u16;
  length ← read_u32;
  mret (msg_type, length).

Definition read_bytes (n : Z) : Dec (list Z) := λ d,
  if decide (remaining d < n) then Err Truncated
  else
    bytes ← slice (dbuf d) (dpos d) (dpos d + n);
    Ok (bytes, advance d n).

Definition read_string : Dec str :=
  n ← read_u16;
  ((λ d,
    if decide (remaining d < n) then Err Truncated
    else
      s ← slice (dbuf d) (dpos d) (dpos d + n);
      if utf8_valid s then Ok (s, advance d n) else Err InvalidUtf8) : Dec str).

Definition read_byte_array : Dec (list Z) :=
  n ← read_u32;
  ((λ d,
    if decide (remaining d < n) then Err Truncated
    else
      bytes ← slice (dbuf d) (dpos d) (dpos d + n);
      Ok (bytes, advance d n)) : Dec (list Z)).

Definition read_bool : Dec bool :=
  b ← read_u8;
  mret (negb (b =? 0)).

Definition skip (n : Z) : Dec unit := λ d,
  if decide (remaining d < n) then Err Truncated
  else Ok ((), advance d n).

(** ** [Encode] and [Decode] *)

(** [Encode::to_bytes]. *)
Definition to_bytes {A} (encode : A → Encoder → Encoder) (v : A) : list Z :=
  finish (encode v Encoder_new).

(** [Decode::from_bytes]. *)
Definition from_bytes {A} (decode : Dec A) (bytes : list Z) : outcome DecodeError A :=
  fst <$> decode (Decoder_new bytes).

(** [impl Encode for Vec<T>], [impl Decode for Vec<T>]. *)
Definition vec_encode {A} (encode : A → Encoder → Encoder) (l : list A) (e : Encoder) : Encoder :=
  foldl (λ e item, encode item e) (write_u16 (wrap_u 16 (len l)) e) l.

Fixpoint decode_n {A} (decode : Dec A) (n : nat) : Dec (list A) :=
  match n with
  | O => mret []
  | S n =>
      item ← decode;
      items ← decode_n decode n;
      mret (item :: items)
  end.

Definition vec_decode {A} (decode : Dec A) : Dec (list A) :=
  count ← read_u16;
  decode_n decode (Z.to_nat count).

(** [impl Encode for Option<T>], [impl Decode for Option<T>]. *)
Definition option_encode {A} (encode : A → Encoder → Encoder) (o : option A) (e : Encoder)
    : Encoder :=
  match o with
  | Some value => encode value (write_u8 1 e)
  | None => write_u8 0 e
  end.

Definition option_decode {A} (decode : Dec A) : Dec (option A) :=
  tag ← read_u8;
  if decide (tag = 0) then mret None
  else
    v ← decode;
    mret (Some v).

(** [impl Encode for (A, B)], [impl Decode for (A, B)]. *)
Definition pair_encode {A B} (enc_a : A → Encoder → Encoder) (enc_b : B → Encoder → Encoder)
    (p : A * B) (e : Encoder) : Encoder :=
  enc_b p.2 (enc_a p.1 e).

Definition pair_decode {A B} (dec_a : Dec A) (dec_b : Dec B) : Dec (A * B) :=
  a ← dec_a;
  b ← dec_b;
  mret (a, b).

(** ** The contracts *)

(** The decoder's position is inside its buffer. *)
Definition dec_ok (d : Decoder) : Prop := 0 <= dpos d <= len (dbuf d).

(** The bytes still to be read. *)
Definition rest (d : Decoder) : list Z := drop (Z.to_nat (dpos d)) (dbuf d).

(** On every decoder whose remaining bytes (at most [n] of them) start with
    [bs], [dec] returns [v] and consumes exactly [bs]. *)
Definition reads {A} (n : Z) (dec : Dec A) (bs : list Z) (v : A) : Prop :=
  ∀ d tl, dec_ok d → len (rest d) <= n → rest d = bs ++ tl →
  dec d = Ok (v, advance d (len bs)).

(** On every decoder over bytes with at most [n] of them left, [dec] ends
    without a panic; when it succeeds it has consumed at least [c] bytes, has
    stayed inside the buffer and its value satisfies [P]. *)
Definition safe {A} (c n : Z) (dec : Dec A) (P : A → Prop) : Prop :=
  ∀ d, dec_ok d → Forall is_u8 (dbuf d) → len (rest d) <= n →
  match dec d with
  | Ok (v, d') => P v ∧ dbuf d' = dbuf d ∧ dpos d + c <= dpos d' <= len (dbuf d)
  | Err _ => True
  | Panic | OutOfFuel => False
  end.

(** What an [Encode]/[Decode] pair promises for the well-formed values. *)
Class Codec {A} (encode : A → Encoder → Encoder) (decode : Dec A) (wf : A → Prop) := {
  codec_writes v e : encode v e = extend_from_slice e (to_bytes encode v);
  codec_reads v n : wf v → reads n decode (to_bytes encode v) v;
}.

(** What a [Decode] promises on untrusted bytes. *)
Class DecSafe {A} (decode : Dec A) (wf : A → Prop) :=
  dec_safe n : safe 0 n decode wf.

(** The strings the [u16] length prefix can carry. *)
Definition wf_str (s : str) : Prop := utf8_valid s = true ∧ len s < 2 ^ 16.
Definition wf_vec {A} (wf : A → Prop) (l : list A) : Prop := Forall wf l ∧ len l < 2 ^ 16.
Definition wf_option {A} (wf : A → Prop) (o : option A) : Prop :=
  match o with Some v => wf v | None => True end.
Definition wf_pair {A B} (wfa : A → Prop) (wfb : B → Prop) (p : A * B) : Prop :=
  wfa p.1 ∧ wfb p.2.

Arguments to_bytes : simpl never.

(** ** Encoder lemmas *)
Lemma extend_new bs : extend_from_slice Encoder_new bs = mkEncoder bs.
Proof. done. Qed.

Lemma extend_extend e a b :
  extend_from_slice (extend_from_slice e a) b = extend_from_slice e (a ++ b).
Proof. unfold extend_from_slice. cbn. by rewrite <- app_assoc. Qed.

Lemma extend_nil e : extend_from_slice e [] = e.
Proof. destruct e. unfold extend_from_slice. cbn. by rewrite app_nil_r. Qed.

Lemma finish_extend bs : finish (extend_from_slice Encoder_new bs) = bs.
Proof. done. Qed.

(** The bytes of an encoding that is known to append [bs]. *)
Lemma to_bytes_eq {A} (encode : A → Encoder → Encoder) v bs :
  (∀ e, encode v e = extend_from_slice e bs) → to_bytes encode v = bs.
Proof. intros H. unfold to_bytes. by rewrite H. Qed.

Lemma foldl_extend {A} (encode : A → Encoder → Encoder) l e (f : A → list Z) :
  (∀ v e, v ∈ l → encode v e = extend_from_slice e (f v)) →
  foldl (λ e item, encode item e) e l = extend_from_slice e (concat (f <$> l)).
Proof.
  revert e. induction l as [|x l IH]; intros e H; cbn.
  { by rewrite extend_nil. }
  rewrite H by constructor. rewrite IH by (intros; apply H; by constructor).
  by rewrite extend_extend.
Qed.

Lemma vec_encode_extend {A} (encode : A → Encoder → Encoder) l e (f : A → list Z) :
  (∀ v e, v ∈ l → encode v e = extend_from_slice e (f v)) →
  vec_encode encode l e =
    extend_from_slice e (to_le_bytes 2 (wrap_u 16 (len l)) ++ concat (f <$> l)).
Proof.
  intros H. unfold vec_encode. rewrite (foldl_extend _ _ _ f) by done.
  unfold write_u16. by rewrite extend_extend.
Qed.

Ltac unfold_writes :=
  unfold write_string, write_byte_array;
  unfold write_u8, write_u16, write_u32, write_i32, write_i64, write_f64, write_bytes, write_bool;
  rewrite ?extend_extend, <- ?app_assoc.

(** ** Decoder lemmas *)
Lemma len_rest d : dec_ok d → len (rest d) = len (dbuf d) - dpos d.
Proof. unfold dec_ok, rest. intros. len_lia. Qed.

Lemma remaining_rest d : dec_ok d → remaining d = len (rest d).
Proof. intros H. rewrite len_rest by done. unfold remaining, dec_ok in *. lia. Qed.

Lemma dbuf_split d : dec_ok d → ∃ pre, dbuf d = pre ++ rest d ∧ len pre = dpos d.
Proof.
  intros H. exists (take (Z.to_nat (dpos d)) (dbuf d)). split.
  - unfold rest. by rewrite take_drop.
  - unfold dec_ok in H. len_lia.
Qed.

Lemma advance_ok d bs tl :
  dec_ok d → rest d = bs ++ tl →
  dec_ok (advance d (len bs)) ∧ rest (advance d (len bs)) = tl.
Proof.
  intros Hd Hr. destruct (dbuf_split d Hd) as (pre & Hb & Hp).
  unfold dec_ok, rest, advance in *. cbn [dbuf dpos] in *.
  rewrite Hb, Hr. split; [len_lia|].
  rewrite app_assoc. replace (dpos d + len bs) with (len (pre ++ bs)) by len_lia.
  unfold len. by rewrite Nat2Z.id, drop_app_length.
Qed.

Lemma advance_advance d a b : advance (advance d a) b = advance d (a + b).
Proof. unfold advance. cbn. f_equal. lia. Qed.

Lemma advance_0 d : advance d 0 = d.
Proof. destruct d. unfold advance. cbn. f_equal. lia. Qed.

Lemma index_app {E A} (l : list A) x r : index (E:=E) (l ++ x :: r) (len l) = Ok x.
Proof.
  unfold index. rewrite decide_True by len_lia.
  unfold len. by rewrite Nat2Z.id, list_lookup_middle by done.
Qed.

Lemma index_array_app {E} pre bs tl :
  index_array (E:=E) (pre ++ bs ++ tl) (len pre) (length bs) = Ok bs.
Proof.
  revert pre. induction bs as [|b bs IH]; intros pre; cbn [index_array length app]; [done|].
  rewrite index_app. cbn.
  specialize (IH (pre ++ [b])). rewrite <- app_assoc in IH. cbn in IH.
  rewrite len_app, len_cons, len_nil, Z.add_0_r in IH. by rewrite IH.
Qed.

Lemma rest_suffix d : dec_ok d → Forall is_u8 (dbuf d) → Forall is_u8 (rest d).
Proof. intros _ H. by apply Forall_drop. Qed.

Lemma rest_split d n :
  dec_ok d → 0 <= n <= len (rest d) →
  ∃ bs tl, rest d = bs ++ tl ∧ len bs = n.
Proof.
  intros Hd Hn. exists (take (Z.to_nat n) (rest d)), (drop (Z.to_nat n) (rest d)).
  split; [by rewrite take_drop|]. len_lia.
Qed.

Lemma reads_ret {A} n (v : A) : reads n (mret v) [] v.
Proof. intros d tl Hd Hn Hr. rewrite len_nil, advance_0. done. Qed.

Lemma reads_bind {A B} n (m : Dec A) (k : A → Dec B) b1 b2 a v :
  reads n m b1 a → reads (n - len b1) (k a) b2 v → reads n (m ≫= k) (b1 ++ b2) v.
Proof.
  intros Hm Hk d tl Hd Hn Hr. rewrite <- app_assoc in Hr.
  pose proof Hr as Hl. apply (f_equal len) in Hl.
  destruct (advance_ok d b1 (b2 ++ tl)) as [Hd' Hr']; [done..|].
  unfold mbind, Dec_bind. rewrite (Hm d (b2 ++ tl)) by done.
  rewrite (Hk _ tl); [|done|rewrite Hr'; len_lia|done].
  by rewrite advance_advance, len_app.
Qed.

Lemma reads_bind_ret {A B} n (m : Dec A) (k : A → Dec B) bs a v :
  reads n m bs a → k a = mret v → reads n (m ≫= k) bs v.
Proof.
  intros Hm Hk. rewrite <- (app_nil_r bs).
  eapply reads_bind; [done|]. rewrite Hk. apply reads_ret.
Qed.

Lemma reads_mono {A} n n' (m : Dec A) bs v : n' <= n → reads n m bs v → reads n' m bs v.
Proof. intros Hn H d tl ???. apply (H d tl); [done|lia|done]. Qed.

Lemma reads_array {A} n k (from : list Z → A) bs :
  length bs = k → reads n (read_array k from) bs (from bs).
Proof.
  intros Hk d tl Hd Hn Hr. unfold read_array.
  rewrite remaining_rest, Hr by done. rewrite decide_False by (unfold len; rewrite length_app; lia).
  destruct (dbuf_split d Hd) as (pre & Hb & Hp).
  rewrite Hb, <- Hp, Hr, <- Hk, index_array_app. done.
Qed.

Lemma reads_u8 n v : reads n read_u8 [v] v.
Proof.
  intros d tl Hd Hn Hr. unfold read_u8.
  rewrite remaining_rest, Hr by done. rewrite decide_False by (cbn [app]; len_lia).
  destruct (dbuf_split d Hd) as (pre & Hb & Hp).
  rewrite Hb, <- Hp, Hr. cbn [app]. by rewrite index_app.
Qed.

Lemma reads_u16 n v : is_u16 v → reads n read_u16 (to_le_bytes 2 v) v.
Proof.
  intros Hv. rewrite <- (wrap_u_small 16 v) at 2 by done. unfold read_u16.
  change 16 with (8 * Z.of_nat 2). rewrite <- from_to_le_bytes.
  apply reads_array, length_to_le_bytes.
Qed.

Lemma reads_u32 n v : is_u32 v → reads n read_u32 (to_le_bytes 4 v) v.
Proof.
  intros Hv. rewrite <- (wrap_u_small 32 v) at 2 by done. unfold read_u32.
  change 32 with (8 * Z.of_nat 4). rewrite <- from_to_le_bytes.
  apply reads_array, length_to_le_bytes.
Qed.

Lemma reads_f64 n v : is_u64 v → reads n read_f64 (to_le_bytes 8 v) v.
Proof.
  intros Hv. rewrite <- (wrap_u_small 64 v) at 2 by done. unfold read_f64.
  change 64 with (8 * Z.of_nat 8). rewrite <- from_to_le_bytes.
  apply reads_array, length_to_le_bytes.
Qed.

Lemma reads_signed n w k v :
  w = 8 * Z.of_nat k → 0 < w → in_i w v →
  reads n (read_array k (λ bs, wrap_i w (from_le_bytes bs))) (to_le_bytes k v) v.
Proof.
  intros Hw H0 Hv. rewrite <- (wrap_i_small w v) at 2 by done.
  rewrite <- wrap_i_wrap_u by done. rewrite Hw at 2. rewrite <- from_to_le_bytes.
  apply (reads_array n k (λ bs, wrap_i w (from_le_bytes bs))), length_to_le_bytes.
Qed.

Lemma reads_i32 n v : is_i32 v → reads n read_i32 (to_le_bytes 4 v) v.
Proof. by apply reads_signed. Qed.
Lemma reads_i64 n v : is_i64 v → reads n read_i64 (to_le_bytes 8 v) v.
Proof. by apply reads_signed. Qed.

Lemma slice_rest {E} d bs tl :
  dec_ok d → rest d = bs ++ tl →
  slice (E:=E) (dbuf d) (dpos d) (dpos d + len bs) = Ok bs.
Proof.
  intros Hd Hr. destruct (dbuf_split d Hd) as (pre & Hb & Hp).
  unfold slice. by rewrite Hb, <- Hp, Hr, get_range_app.
Qed.

Lemma reads_string n s :
  wf_str s → reads n read_string (to_le_bytes 2 (wrap_u 16 (len s)) ++ s) s.
Proof.
  intros [Hv Hl]. pose proof (len_nonneg s).
  rewrite wrap_u_small by (unfold in_u; lia).
  eapply reads_bind; [apply reads_u16; unfold in_u; lia|].
  intros d tl Hd _ Hr. rewrite remaining_rest, Hr by done.
  rewrite decide_False by len_lia. rewrite (slice_rest d s tl) by done. cbn. by rewrite Hv.
Qed.

Lemma reads_byte_array n bs :
  len bs < 2 ^ 32 → reads n read_byte_array (to_le_bytes 4 (wrap_u 32 (len bs)) ++ bs) bs.
Proof.
  intros Hl. pose proof (len_nonneg bs).
  rewrite wrap_u_small by (unfold in_u; lia).
  eapply reads_bind; [apply reads_u32; unfold in_u; lia|].
  intros d tl Hd _ Hr. rewrite remaining_rest, Hr by done.
  rewrite decide_False by len_lia. by rewrite (slice_rest d bs tl).
Qed.

Lemma reads_bool n (b : bool) : reads n read_bool [if b then 1 else 0] b.
Proof. eapply reads_bind_ret; [apply reads_u8|]. by destruct b. Qed.

Lemma reads_decode_n {A} n (dec : Dec A) (f : A → list Z) l :
  Forall (λ v, reads n dec (f v) v) l →
  reads n (decode_n dec (length l)) (concat (f <$> l)) l.
Proof.
  revert n. induction l as [|v l IH]; intros n; cbn; [intros; apply reads_ret|].
  intros [Hv Hl]%Forall_cons. eapply reads_bind; [done|].
  eapply reads_bind_ret; [|done]. apply IH.
  eapply Forall_impl; [exact Hl|]. intros x Hx. eapply reads_mono; [|exact Hx]. len_lia.
Qed.

(** Reading back a vector needs the element law only for the bytes left after
    the count. *)
Lemma reads_vec {A} n (dec : Dec A) (f : A → list Z) l :
  Forall (λ v, reads (n - 2) dec (f v) v) l → len l < 2 ^ 16 →
  reads n (vec_decode dec) (to_le_bytes 2 (wrap_u 16 (len l)) ++ concat (f <$> l)) l.
Proof.
  intros Hf Hl. pose proof (len_nonneg l).
  rewrite wrap_u_small by (unfold in_u; lia).
  eapply reads_bind; [apply reads_u16; unfold in_u; lia|].
  rewrite len_to_le_bytes. replace (Z.to_nat (len l)) with (length l) by (unfold len; lia).
  by apply reads_decode_n.
Qed.

Lemma reads_option {A} n (dec : Dec A) (f : A → list Z) o :
  wf_option (λ v, reads (n - 1) dec (f v) v) o →
  reads n (option_decode dec) (match o with Some v => 1 :: f v | None => [0] end) o.
Proof.
  destruct o as [v|]; cbn; intros Hv.
  - change (1 :: f v) with ([1] ++ f v).
    eapply reads_bind; [apply reads_u8|]. cbn.
    by eapply reads_bind_ret.
  - by eapply reads_bind_ret; [apply reads_u8|].
Qed.

(** ** Safety of the readers *)
Lemma safe_ret {A} n (v : A) (P : A → Prop) : P v → safe 0 n (mret v) P.
Proof. intros HP d Hd Hb Hn. cbn. unfold dec_ok in Hd. split_and!; [done..|lia|lia]. Qed.

Lemma safe_err {A} c n e (P : A → Prop) : safe c n (Dec_err e) P.
Proof. done. Qed.

Lemma safe_ok_or {A} n (o : option A) e : safe 0 n (Dec_ok_or o e) (λ a, o = Some a).
Proof. destruct o; [by apply safe_ret|done]. Qed.

Lemma safe_bind {A B} c1 c2 n (m : Dec A) (k : A → Dec B) P Q :
  0 <= c1 → safe c1 n m P → (∀ a, P a → safe c2 (n - c1) (k a) Q) →
  safe (c1 + c2) n (m ≫= k) Q.
Proof.
  intros Hc Hm Hk d Hd Hb Hn. unfold mbind, Dec_bind.
  specialize (Hm d Hd Hb Hn). destruct (m d) as [[a d']|e| |]; [|done..].
  destruct Hm as (HP & Hbuf & Hpos).
  assert (dec_ok d') as Hd' by (unfold dec_ok in *; rewrite Hbuf; lia).
  specialize (Hk a HP d' Hd'). rewrite (len_rest d'), Hbuf in Hk by done.
  rewrite len_rest in Hn by done. specialize (Hk Hb ltac:(lia)).
  destruct (k a d') as [[b d'']|e| |]; [|done..].
  destruct Hk as (HQ & Hbuf' & Hpos'). split_and!; [done|by rewrite Hbuf'|lia|lia].
Qed.

Lemma safe_weaken {A} c c' n n' (m : Dec A) (P Q : A → Prop) :
  c' <= c → n' <= n → (∀ a, P a → Q a) → safe c n m P → safe c' n' m Q.
Proof.
  intros Hc Hn HPQ H d Hd Hb Hl. specialize (H d Hd Hb ltac:(lia)).
  destruct (m d) as [[a d']|e| |]; [|done..]. destruct H as (?&?&?). split_and!; auto; lia.
Qed.

(** Sequencing without a progress count. *)
Lemma safe_bind0 {A B} n (m : Dec A) (k : A → Dec B) P Q :
  safe 0 n m P → (∀ a, P a → safe 0 n (k a) Q) → safe 0 n (m ≫= k) Q.
Proof.
  intros Hm Hk. apply (safe_bind 0 0 n m k P Q); [done|done|].
  intros a Ha. rewrite Z.sub_0_r. auto.
Qed.

Lemma safe_fmap {A B} c n (m : Dec A) (f : A → B) P Q :
  0 <= c → safe c n m P → (∀ a, P a → Q (f a)) → safe c n (a ← m; mret (f a)) Q.
Proof.
  intros Hc Hm HQ. rewrite <- (Z.add_0_r c).
  eapply safe_bind; [done|done|]. intros a Ha. apply safe_ret. auto.
Qed.

Lemma safe_array {A} n k (from : list Z → A) (P : A → Prop) :
  (∀ bs, length bs = k → Forall is_u8 bs → P (from bs)) →
  safe (Z.of_nat k) n (read_array k from) P.
Proof.
  intros HP d Hd Hb Hn. unfold read_array. rewrite remaining_rest by done.
  case_decide as Hr; [done|].
  destruct (rest_split d (Z.of_nat k)) as (bs & tl & Hs & Hl); [done|lia|].
  destruct (dbuf_split d Hd) as (pre & Hbuf & Hp).
  assert (length bs = k) as Hk by (unfold len in Hl; lia).
  assert (index_array (E:=DecodeError) (dbuf d) (dpos d) k = Ok bs) as ->.
  { by rewrite Hbuf, <- Hp, Hs, <- Hk, index_array_app. }
  cbn. pose proof (rest_suffix d Hd Hb) as Hf. rewrite Hs in Hf.
  apply Forall_app in Hf as [Hf _]. rewrite len_rest in Hr by done.
  split_and!; [auto|done|lia|lia].
Qed.

Lemma safe_u8 n : safe 1 n read_u8 is_u8.
Proof.
  intros d Hd Hb Hn. unfold read_u8. rewrite remaining_rest by done.
  case_decide as Hr; [done|].
  destruct (rest d) as [|b tl] eqn:Hs; [by rewrite len_nil in Hr|].
  destruct (dbuf_split d Hd) as (pre & Hbuf & Hp).
  assert (index (E:=DecodeError) (dbuf d) (dpos d) = Ok b) as ->.
  { by rewrite Hbuf, <- Hp, Hs, index_app. }
  cbn. pose proof (rest_suffix d Hd Hb) as Hf. rewrite Hs in Hf.
  apply Forall_cons in Hf as [Hf _]. pose proof (len_rest d Hd) as Hl. rewrite Hs in Hl.
  split_and!; [done|done|lia|]. len_lia.
Qed.

Lemma from_le_u w k bs :
  w = 8 * Z.of_nat k → length bs = k → Forall is_u8 bs → in_u w (from_le_bytes bs).
Proof. intros -> <- H. by apply (from_le_bytes_bound bs) in H. Qed.

Lemma safe_u16 n : safe 2 n read_u16 is_u16.
Proof. apply safe_array. intros. by apply (from_le_u 16 2). Qed.
Lemma safe_u32 n : safe 4 n read_u32 is_u32.
Proof. apply safe_array. intros. by apply (from_le_u 32 4). Qed.
Lemma safe_i32 n : safe 4 n read_i32 is_i32.
Proof. apply safe_array. intros. by apply wrap_i_range. Qed.
Lemma safe_i64 n : safe 8 n read_i64 is_i64.
Proof. apply safe_array. intros. by apply wrap_i_range. Qed.
Lemma safe_f64 n : safe 8 n read_f64 is_u64.
Proof. apply safe_array. intros. by apply (from_le_u 64 8). Qed.
Lemma safe_bool n : safe 1 n read_bool (λ _, True).
Proof. by eapply safe_fmap; [|apply safe_u8|]. Qed.

(** The tail of a length-prefixed read: [k] bytes, checked by [chk]. *)
Lemma safe_take {A} n (k : Z) (chk : list Z → bool) (f : list Z → A) err (P : A → Prop) :
  0 <= k → (∀ bs, len bs = k → Forall is_u8 bs → chk bs = true → P (f bs)) →
  safe k n (λ d, if decide (remaining d < k) then Err Truncated
                 else bs ← slice (dbuf d) (dpos d) (dpos d + k);
                      if chk bs then Ok (f bs, advance d k) else Err err) P.
Proof.
  intros Hk HP d Hd Hb Hn. rewrite remaining_rest by done. case_decide as Hr; [done|].
  destruct (rest_split d k) as (bs & tl & Hs & Hl); [done|lia|].
  rewrite <- Hl. rewrite (slice_rest d bs tl) by done. cbn.
  pose proof (rest_suffix d Hd Hb) as Hf. rewrite Hs in Hf.
  apply Forall_app in Hf as [Hf _]. pose proof (len_rest d Hd) as Hrl.
  destruct (chk bs) eqn:Hc; [|done]. cbn. split_and!; [auto|done|lia|lia].
Qed.

Lemma between_u8 a b z : between a b z = true → 0 <= a → b < 256 → is_u8 z.
Proof. intros H%between_spec ??. rng. Qed.

Lemma second_u8 b0 b1 : second3 b0 b1 = true ∨ second4 b0 b1 = true → is_u8 b1.
Proof. unfold second3, second4, cont, between. intros [H|H]; repeat case_match; rng. Qed.

Lemma utf8_valid_u8 s : utf8_valid s = true → Forall is_u8 s.
Proof.
  remember (length s) as k eqn:Hk. revert s Hk.
  induction (lt_wf k) as [k _ IH]. intros s ->.
  pose proof (λ t H, IH (length t) H t eq_refl) as IHl. clear IH.
  destruct s as [|b0 r1]; [done|]. cbn [utf8_valid].
  destruct (between 0 0x7F b0) eqn:E0.
  { intros. constructor; [by eapply between_u8|]. apply IHl; cbn; [lia|done]. }
  destruct r1 as [|b1 r2]; [done|]. destruct (between 0xC2 0xDF b0) eqn:E1.
  { intros [H1 H2]%andb_true_iff. constructor; [by eapply between_u8|].
    constructor; [by eapply between_u8|]. apply IHl; cbn; [lia|done]. }
  destruct r2 as [|b2 r3]; [done|]. destruct (between 0xE0 0xEF b0) eqn:E2.
  { rewrite !andb_true_iff. intros [[H1 H2] H3].
    constructor; [by eapply between_u8|]. constructor; [apply (second_u8 b0); auto|].
    constructor; [by eapply between_u8|]. apply IHl; cbn; [lia|done]. }
  destruct r3 as [|b3 r4]; [done|]. rewrite !andb_true_iff. intros [[[[H1 H2] H3] H4] H5].
  constructor; [by eapply between_u8|]. constructor; [apply (second_u8 b0); auto|].
  constructor; [by eapply between_u8|]. constructor; [by eapply between_u8|].
  apply IHl; cbn; [lia|done].
Qed.

Lemma safe_string n : safe 2 n read_string wf_str.
Proof.
  eapply (safe_weaken (2 + 0)); [lia|done|done|].
  eapply safe_bind; [lia|apply safe_u16|]. intros k Hk. cbn beta.
  eapply (safe_weaken k 0); [rng|done|done|].
  apply (safe_take _ k utf8_valid (λ s, s)); [rng|].
  intros bs Hl _ Hu. split; [done|]. unfold in_u in Hk. lia.
Qed.

(** Byte arrays: any bytes, up to the [u32] length prefix. *)
Definition wf_byte_array (bs : list Z) : Prop := Forall is_u8 bs ∧ len bs < 2 ^ 32.

Lemma safe_byte_array n : safe 4 n read_byte_array wf_byte_array.
Proof.
  eapply (safe_weaken (4 + 0)); [lia|done|done|].
  eapply safe_bind; [lia|apply safe_u32|]. intros k Hk. cbn beta.
  eapply (safe_weaken k 0); [rng|done|done|].
  apply (safe_take _ k (λ _, true) (λ s, s) Truncated); [rng|].
  intros bs Hl Hf _. split; [done|]. unfold in_u in Hk. lia.
Qed.

Lemma safe_decode_n {A} n k (dec : Dec A) P :
  safe 0 n dec P → safe 0 n (decode_n dec k) (λ l, Forall P l ∧ length l = k).
Proof.
  intros Hd. induction k as [|k IH]; cbn.
  { by apply safe_ret. }
  eapply safe_bind0; [done|]. intros a Ha.
  eapply safe_fmap; [done|done|]. intros l [Hl Hk]. split; [by constructor|cbn; lia].
Qed.

(** Decoding a vector whose elements are safe on the bytes after the count. *)
Lemma safe_vec {A} n (dec : Dec A) P :
  safe 0 (n - 2) dec P → safe 2 n (vec_decode dec) (wf_vec P).
Proof.
  intros Hd. eapply (safe_weaken (2 + 0)); [lia|done|done|].
  eapply safe_bind; [lia|apply safe_u16|]. intros k Hk.
  eapply safe_weaken; [done|done| |by apply safe_decode_n].
  intros l [Hl Hlen]. split; [done|]. unfold len. rewrite Hlen. rng.
Qed.

Lemma safe_option {A} n (dec : Dec A) P :
  safe 0 (n - 1) dec P → safe 1 n (option_decode dec) (wf_option P).
Proof.
  intros Hd. eapply (safe_weaken (1 + 0)); [lia|done|done|].
  eapply safe_bind; [lia|apply safe_u8|]. intros tag Htag. case_decide.
  - by apply safe_ret.
  - by eapply safe_fmap.
Qed.

Lemma safe_mono {A} n n' (dec : Dec A) P : n' <= n → safe 0 n dec P → safe 0 n' dec P.
Proof. intros. by eapply safe_weaken. Qed.

(** The same without progress counts. *)
Lemma safe_vec0 {A} n (dec : Dec A) P : safe 0 n dec P → safe 0 n (vec_decode dec) (wf_vec P).
Proof.
  intros H. eapply (safe_weaken 2); [done|done|by intros ? X|].
  apply safe_vec. eapply safe_mono; [|exact H]. lia.
Qed.
Lemma safe_option0 {A} n (dec : Dec A) P :
  safe 0 n dec P → safe 0 n (option_decode dec) (wf_option P).
Proof.
  intros H. eapply (safe_weaken 1); [done|done|by intros ? X|].
  apply safe_option. eapply safe_mono; [|exact H]. lia.
Qed.

Lemma safe_pair {A B} n (da : Dec A) (db : Dec B) P Q :
  safe 0 n da P → safe 0 n db Q → safe 0 n (pair_decode da db) (wf_pair P Q).
Proof.
  intros Ha Hb. eapply safe_bind0; [done|]. intros a HP.
  by eapply safe_fmap; [done|done|].
Qed.

(** ** Automation

    [codec] collects the reading and safety lemmas of the primitive readers;
    [reads_step] and [safe_step] peel one monadic step of a decoder against
    them. *)
Create HintDb codec.
#[export] Hint Resolve reads_u8 reads_u16 reads_u32 reads_i32 reads_i64 reads_f64
  reads_string reads_byte_array reads_bool reads_ret : codec.
#[export] Hint Resolve safe_u8 safe_u16 safe_u32 safe_i32 safe_i64 safe_f64
  safe_string safe_byte_array safe_bool : codec.

Lemma codec_reads' {A} enc (dec : Dec A) wf `{!Codec enc dec wf} v n :
  wf v → reads n dec (to_bytes enc v) v.
Proof. apply codec_reads. Qed.

Lemma codec_writes' {A} enc (dec : Dec A) wf `{!Codec enc dec wf} v e :
  enc v e = extend_from_slice e (to_bytes enc v).
Proof. apply (codec_writes (decode := dec) (wf := wf)). Qed.

(** Build a codec from the bytes its encoder appends. *)
Lemma mk_codec {A} (enc : A → Encoder → Encoder) (dec : Dec A) (wf : A → Prop)
    (bytes : A → list Z) :
  (∀ v e, enc v e = extend_from_slice e (bytes v)) →
  (∀ v n, wf v → reads n dec (bytes v) v) →
  Codec enc dec wf.
Proof.
  intros Hw Hr. assert (∀ v, to_bytes enc v = bytes v) as Hb.
  { intros v. by apply to_bytes_eq. }
  split; intros; rewrite Hb; auto.
Qed.

(** Build [DecSafe] from any progress count. *)
Lemma mk_safe {A} c (dec : Dec A) (wf : A → Prop) :
  0 <= c → (∀ n, safe c n dec wf) → DecSafe dec wf.
Proof. intros Hc H n. by eapply safe_weaken; [exact Hc| | |apply H]. Qed.

Ltac reads_one := first [solve [eauto 3 with codec] | solve [apply codec_reads; done]].
Ltac reads_step :=
  first [ eapply reads_bind_ret; [reads_one|done]
        | eapply reads_bind; [reads_one|]; cbn beta ].

Ltac safe_step :=
  first [ eapply safe_bind0;
            [first [apply dec_safe | apply safe_ok_or | eapply safe_weaken; [| | |solve [eauto 3 with codec]]; [lia|done|done]]|];
          cbn beta; intros ? ?
        | apply safe_ret
        | apply safe_err ].

(** Case analysis of a tag byte: unknown tags are errors. *)
Ltac safe_cases := repeat (case_match; try apply safe_err); repeat safe_step.

(** ** The primitive codecs *)
#[export] Instance u8_codec : Codec write_u8 read_u8 is_u8.
Proof. by apply (mk_codec _ _ _ (λ v, [v])); auto with codec. Qed.
#[export] Instance u16_codec : Codec write_u16 read_u16 is_u16.
Proof. by apply (mk_codec _ _ _ (to_le_bytes 2)); auto with codec. Qed.
#[export] Instance u32_codec : Codec write_u32 read_u32 is_u32.
Proof. by apply (mk_codec _ _ _ (to_le_bytes 4)); auto with codec. Qed.
#[export] Instance i32_codec : Codec write_i32 read_i32 is_i32.
Proof. by apply (mk_codec _ _ _ (to_le_bytes 4)); auto with codec. Qed.
#[export] Instance i64_codec : Codec write_i64 read_i64 is_i64.
Proof. by apply (mk_codec _ _ _ (to_le_bytes 8)); auto with codec. Qed.
#[export] Instance f64_codec : Codec write_f64 read_f64 is_u64.
Proof. by apply (mk_codec _ _ _ (to_le_bytes 8)); auto with codec. Qed.
#[export] Instance bool_codec : Codec write_bool read_bool (λ _, True).
Proof. by apply (mk_codec _ _ _ (λ v : bool, [if v then 1 else 0])); auto with codec. Qed.
#[export] Instance string_codec : Codec write_string read_string wf_str.
Proof.
  apply (mk_codec _ _ _ (λ s, to_le_bytes 2 (wrap_u 16 (len s)) ++ s)); [|auto with codec].
  intros. by unfold_writes.
Qed.
#[export] Instance byte_array_codec : Codec write_byte_array read_byte_array wf_byte_array.
Proof.
  apply (mk_codec _ _ _ (λ s, to_le_bytes 4 (wrap_u 32 (len s)) ++ s)).
  - intros. by unfold_writes.
  - intros v n [_ Hv]. by apply reads_byte_array.
Qed.

#[export] Instance vec_codec {A} enc (dec : Dec A) wf `{!Codec enc dec wf} :
  Codec (vec_encode enc) (vec_decode dec) (wf_vec wf).
Proof.
  apply (mk_codec _ _ _
    (λ l, to_le_bytes 2 (wrap_u 16 (len l)) ++ concat (to_bytes enc <$> l))).
  - intros. apply vec_encode_extend. intros. apply (codec_writes' _ dec wf).
  - intros l n [Hf Hl]. apply reads_vec; [|done].
    eapply Forall_impl; [exact Hf|]. intros v Hv. by apply (codec_reads' _ dec wf).
Qed.

#[export] Instance option_codec {A} enc (dec : Dec A) wf `{!Codec enc dec wf} :
  Codec (option_encode enc) (option_decode dec) (wf_option wf).
Proof.
  apply (mk_codec _ _ _ (λ o, match o with Some v => 1 :: to_bytes enc v | None => [0] end)).
  - intros [v|] e; [|done]. cbn. rewrite (codec_writes' _ dec wf). by unfold_writes.
  - intros o n Ho. apply reads_option. destruct o; [|done]. cbn in *. by apply codec_reads.
Qed.

#[export] Instance pair_codec {A B} ea (da : Dec A) wfa `{!Codec ea da wfa}
    eb (db : Dec B) wfb `{!Codec eb db wfb} :
  Codec (pair_encode ea eb) (pair_decode da db) (wf_pair wfa wfb).
Proof.
  apply (mk_codec _ _ _ (λ p, to_bytes ea p.1 ++ to_bytes eb p.2)).
  - intros [a b] e. unfold pair_encode. cbn.
    by rewrite (codec_writes' _ da wfa), (codec_writes' _ db wfb), extend_extend.
  - intros [a b] n [Ha Hb]. cbn in *. unfold pair_decode.
    eapply reads_bind; [by apply (codec_reads' _ da wfa)|].
    eapply reads_bind_ret; [by apply (codec_reads' _ db wfb)|done].
Qed.

#[export] Instance u8_safe : DecSafe read_u8 is_u8.
Proof. by apply (mk_safe 1); auto with codec. Qed.
#[export] Instance u16_safe : DecSafe read_u16 is_u16.
Proof. by apply (mk_safe 2); auto with codec. Qed.
#[export] Instance u32_safe : DecSafe read_u32 is_u32.
Proof. by apply (mk_safe 4); auto with codec. Qed.
#[export] Instance i32_safe : DecSafe read_i32 is_i32.
Proof. by apply (mk_safe 4); auto with codec. Qed.
#[export] Instance i64_safe : DecSafe read_i64 is_i64.
Proof. by apply (mk_safe 8); auto with codec. Qed.
#[export] Instance f64_safe : DecSafe read_f64 is_u64.
Proof. by apply (mk_safe 8); auto with codec. Qed.
#[export] Instance bool_safe : DecSafe read_bool (λ _, True).
Proof. by apply (mk_safe 1); auto with codec. Qed.
#[export] Instance string_safe : DecSafe read_string wf_str.
Proof. by apply (mk_safe 2); auto with codec. Qed.
#[export] Instance byte_array_safe : DecSafe read_byte_array wf_byte_array.
Proof. by apply (mk_safe 4); auto with codec. Qed.
#[export] Instance vec_safe {A} (dec : Dec A) wf `{!DecSafe dec wf} :
  DecSafe (vec_decode dec) (wf_vec wf).
Proof. apply (mk_safe 2); [done|]. intros. apply safe_vec, dec_safe. Qed.
#[export] Instance option_safe {A} (dec : Dec A) wf `{!DecSafe dec wf} :
  DecSafe (option_decode dec) (wf_option wf).
Proof. apply (mk_safe 1); [done|]. intros. apply safe_option, dec_safe. Qed.
#[export] Instance pair_safe {A B} (da : Dec A) (db : Dec B) wfa wfb
    `{!DecSafe da wfa} `{!DecSafe db wfb} :
  DecSafe (pair_decode da db) (wf_pair wfa wfb).
Proof. intros n. apply safe_pair; apply dec_safe. Qed.

(** ** Consequences of the contracts at the level of byte strings *)
Lemma dec_ok_new bs : dec_ok (Decoder_new bs).
Proof. unfold dec_ok. cbn. split; [done|apply len_nonneg]. Qed.

Lemma rest_new bs : rest (Decoder_new bs) = bs.
Proof. done. Qed.

(** Decoding an encoding returns the value, whatever bytes follow it. *)
Lemma codec_from_bytes {A} enc (dec : Dec A) wf `{!Codec enc dec wf} v tl :
  wf v → from_bytes dec (to_bytes enc v ++ tl) = Ok v.
Proof.
  intros Hv. unfold from_bytes.
  by rewrite (codec_reads v (len (to_bytes enc v ++ tl)) Hv _ tl); [|apply dec_ok_new|..].
Qed.

Lemma safe_from_bytes {A} (dec : Dec A) wf `{!DecSafe dec wf} bs :
  Forall is_u8 bs →
  match from_bytes dec bs with
  | Ok v => wf v
  | Err _ => True
  | Panic | OutOfFuel => False
  end.
Proof.
  intros Hb. unfold from_bytes.
  pose proof (dec_safe (len bs) (Decoder_new bs) (dec_ok_new bs) Hb ltac:(done)) as H.
  destruct (dec (Decoder_new bs)) as [[v d]|e| |]; [|done..]. apply H.
Qed.

(** The prefix a reader takes after the wrapped length. *)
Lemma read_long_string s :
  from_bytes read_string (to_bytes write_string s) =
    let s' := take (Z.to_nat (wrap_u 16 (len s))) s in
    if utf8_valid s' then Ok s' else Err InvalidUtf8.
Proof.
  rewrite (to_bytes_eq _ _ (to_le_bytes 2 (wrap_u 16 (len s)) ++ s)) by (intros; by unfold_writes).
  set (n := wrap_u 16 (len s)). assert (is_u16 n) as Hn by by apply wrap_u_range.
  assert (n <= len s) as Hle.
  { unfold n, wrap_u. apply Z.mod_le; [apply len_nonneg|done]. }
  unfold from_bytes, read_string, mbind, Dec_bind.
  rewrite (reads_u16 (len (to_le_bytes 2 n ++ s)) n Hn _ s); [|apply dec_ok_new|done|done].
  destruct (advance_ok (Decoder_new (to_le_bytes 2 n ++ s)) (to_le_bytes 2 n) s) as [Hd Hr];
    [apply dec_ok_new|done|].
  rewrite remaining_rest, Hr by done. rewrite decide_False by lia.
  set (s' := take (Z.to_nat n) s).
  assert (n = len s') as Hls by (unfold s', in_u in *; len_lia).
  assert (rest (advance (Decoder_new (to_le_bytes 2 n ++ s)) (len (to_le_bytes 2 n)))
    = s' ++ drop (Z.to_nat n) s) as Hs by (rewrite Hr; unfold s'; by rewrite take_drop).
  pose proof (slice_rest (E:=DecodeError) _ _ _ Hd Hs) as Hsl. rewrite <- Hls in Hsl.
  rewrite Hsl. cbn. by destruct (utf8_valid s').
Qed.

(** The [u16] length prefix bounds what survives: a string of 65536 bytes
    or more is written in full behind a wrapped length, and the reader gets at
    best its first [len mod 65536] bytes, never the string that was written. *)
Theorem long_string_truncated (s : str) :
  2 ^ 16 <= len s →
  match from_bytes read_string (to_bytes write_string s) with
  | Ok s' => s' = take (Z.to_nat (len s mod 2 ^ 16)) s ∧ s' ≠ s
  | Err e => e = InvalidUtf8
  | Panic | OutOfFuel => False
  end.
Proof.
  intros Hl. rewrite read_long_string. cbn zeta.
  destruct (utf8_valid _); [|done]. split; [done|]. intros Heq.
  apply (f_equal len) in Heq. rewrite len_take in Heq.
  pose proof (wrap_u_range 16 (len s) ltac:(lia)) as Hw. unfold in_u in Hw. lia.
Qed.

Lemma long_string_truncated_witness :
  match from_bytes read_string (to_bytes write_string (replicate (Z.to_nat 65537) 97)) with
  | Ok s' => s' = take (Z.to_nat (len (replicate (Z.to_nat 65537) 97) mod 2 ^ 16))
                    (replicate (Z.to_nat 65537) 97) ∧ s' ≠ replicate (Z.to_nat 65537) 97
  | Err e => e = InvalidUtf8
  | Panic | OutOfFuel => False
  end.
Proof. apply long_string_truncated. unfold len. rewrite length_replicate. lia. Defined.
