(* ===== verification/Style.v ===== *)
(** * Text styling ([panda-abi/src/terminal.rs], [Style] helpers of [value.rs])

    Colours and styles, with their wire format: a style is a flag byte and two
    optional colours. *)

From S2P Require Import Prelude Utf8 Encoding.

Inductive NamedColour :=
| Black
| Red
| Green
| Yellow
| Blue
| Magenta
| Cyan
| White
| BrightBlack
| BrightRed
| BrightGreen
| BrightYellow
| BrightBlue
| BrightMagenta
| BrightCyan
| BrightWhite.

Definition NamedColour_as_u8 (c : NamedColour) : Z :=
  match c with
  | Black => 0
  | Red => 1
  | Green => 2
  | Yellow => 3
  | Blue => 4
  | Magenta => 5
  | Cyan => 6
  | White => 7
  | BrightBlack => 8
  | BrightRed => 9
  | BrightGreen => 10
  | BrightYellow => 11
  | BrightBlue => 12
  | BrightMagenta => 13
  | BrightCyan => 14
  | BrightWhite => 15
  end.

Definition NamedColour_from_u8 (value : Z) : option NamedColour :=
  match value with
  | 0 => Some Black
  | 1 => Some Red
  | 2 => Some Green
  | 3 => Some Yellow
  | 4 => Some Blue
  | 5 => Some Magenta
  | 6 => Some Cyan
  | 7 => Some White
  | 8 => Some BrightBlack
  | 9 => Some BrightRed
  | 10 => Some BrightGreen
  | 11 => Some BrightYellow
  | 12 => Some BrightBlue
  | 13 => Some BrightMagenta
  | 14 => Some BrightCyan
  | 15 => Some BrightWhite
  | _ => None
  end.

Inductive Colour :=
| Named (c : NamedColour)
| Palette (p : Z)
| Rgb (r g b : Z).

Definition Colour_encode (c : Colour) (e : Encoder) : Encoder :=
  match c with
  | Named c => write_u8 (NamedColour_as_u8 c) (write_u8 1 e)
  | Palette p => write_u8 p (write_u8 2 e)
  | Rgb r g b => write_u8 b (write_u8 g (write_u8 r (write_u8 3 e)))
  end.

Definition Colour_decode : Dec Colour :=
  tag ← read_u8;
  match tag with
  | 1 =>
      c ← read_u8;
      named ← Dec_ok_or (NamedColour_from_u8 c) InvalidValue;
      mret (Named named)
  | 2 =>
      p ← read_u8;
      mret (Palette p)
  | 3 =>
      r ← read_u8;
      g ← read_u8;
      b ← read_u8;
      mret (Rgb r g b)
  | _ => Dec_err InvalidValue
  end.

Record Style := mkStyle {
  foreground : option Colour;
  background : option Colour;
  bold : bool;
  italic : bool;
  underline : bool;
  strikethrough : bool;
}.

(** [Style::default()]. *)
Definition Style_default : Style := mkStyle None None false false false false.

Definition Style_flags (s : Style) : Z :=
  Z.lor (Z.lor (Z.lor (if bold s then 1 else 0) (if italic s then 2 else 0))
               (if underline s then 4 else 0))
        (if strikethrough s then 8 else 0).

Definition Style_encode (s : Style) (e : Encoder) : Encoder :=
  option_encode Colour_encode (background s)
    (option_encode Colour_encode (foreground s)
      (write_u8 (Style_flags s) e)).

Definition Style_decode : Dec Style :=
  flags ← read_u8;
  foreground ← option_decode Colour_decode;
  background ← option_decode Colour_decode;
  mret (mkStyle foreground background
    (negb (Z.land flags 1 =? 0)) (negb (Z.land flags 2 =? 0))
    (negb (Z.land flags 4 =? 0)) (negb (Z.land flags 8 =? 0))).

(** The constructors of [value.rs]. *)
Definition Style_bold : Style := mkStyle None None true false false false.
Definition Style_fg (colour : Colour) : Style := mkStyle (Some colour) None false false false false.
Definition Style_colours (fg bg : Colour) : Style :=
  mkStyle (Some fg) (Some bg) false false false false.
Definition Style_italic : Style := mkStyle None None false true false false.
Definition Style_underline : Style := mkStyle None None false false true false.

(** [Option::or]. *)
Definition option_or {A} (a b : option A) : option A :=
  match a with Some _ => a | None => b end.

(** [self.merge(other)]: [self] takes precedence. *)
Definition Style_merge (self other : Style) : Style :=
  mkStyle (option_or (foreground self) (foreground other))
          (option_or (background self) (background other))
          (bold self || bold other) (italic self || italic other)
          (underline self || underline other) (strikethrough self || strikethrough other).

(** ** Well-formedness: the [u8] fields *)
Definition wf_colour (c : Colour) : Prop :=
  match c with
  | Named _ => True
  | Palette p => is_u8 p
  | Rgb r g b => is_u8 r ∧ is_u8 g ∧ is_u8 b
  end.

Definition wf_style (s : Style) : Prop :=
  wf_option wf_colour (foreground s) ∧ wf_option wf_colour (background s).

(** ** Codecs *)
Lemma NamedColour_from_as c : NamedColour_from_u8 (NamedColour_as_u8 c) = Some c.
Proof. by destruct c. Qed.

#[export] Instance colour_codec : Codec Colour_encode Colour_decode wf_colour.
Proof.
  apply (mk_codec _ _ _ (λ c, match c with
    | Named c => [1; NamedColour_as_u8 c] | Palette p => [2; p] | Rgb r g b => [3; r; g; b] end)).
  - intros [] e; cbn; by unfold_writes.
  - intros [c|p|r g b] n _.
    + change [1; NamedColour_as_u8 c] with ([1] ++ [NamedColour_as_u8 c]).
      reads_step. eapply reads_bind_ret; [apply reads_u8|]. by rewrite NamedColour_from_as.
    + change [2; p] with ([2] ++ [p]). by repeat reads_step.
    + change [3; r; g; b] with ([3] ++ [r] ++ [g] ++ [b]). by repeat reads_step.
Qed.

#[export] Instance colour_safe : DecSafe Colour_decode wf_colour.
Proof.
  intros n. safe_step. safe_cases; done.
Qed.

Lemma Style_flags_bits s :
  negb (Z.land (Style_flags s) 1 =? 0) = bold s ∧
  negb (Z.land (Style_flags s) 2 =? 0) = italic s ∧
  negb (Z.land (Style_flags s) 4 =? 0) = underline s ∧
  negb (Z.land (Style_flags s) 8 =? 0) = strikethrough s.
Proof. by destruct s as [? ? [] [] [] []]. Qed.

#[export] Instance style_codec : Codec Style_encode Style_decode wf_style.
Proof.
  apply (mk_codec _ _ _ (λ s, [Style_flags s]
    ++ to_bytes (option_encode Colour_encode) (foreground s)
    ++ to_bytes (option_encode Colour_encode) (background s))).
  - intros s e. unfold Style_encode.
    rewrite !(codec_writes' _ (option_decode Colour_decode) (wf_option wf_colour)).
    by unfold_writes.
  - intros s n [Hf Hb]. unfold Style_decode. reads_step.
    reads_step. eapply reads_bind_ret; [reads_one|].
    destruct (Style_flags_bits s) as (-> & -> & -> & ->). by destruct s.
Qed.

#[export] Instance style_safe : DecSafe Style_decode wf_style.
Proof. intros n. by repeat safe_step. Qed.
