(* ===== verification/Value.v ===== *)
(** * Pipeline values ([panda-abi/src/value.rs])

    [Value], the data that flows between pipeline stages, its recursive wire
    format, and the rectangular [Table].  Decoding recurses on untrusted input,
    so its definition takes fuel; [Value_decode] supplies one more than the
    bytes left, which is proved to be enough for every input (each recursive
    call consumes at least its tag byte). *)

From Stdlib Require Import Sorted.
From S2P Require Import Prelude Utf8 Encoding Style.

#[local] Set Warnings "-register-all".

(** ** Tables *)
Record Table (V : Type) := mkTable {
  cols : Z;
  headers : option (list V);
  cells : list V;
}.
Arguments mkTable {V} _ _ _.
Arguments cols {V} _.
Arguments headers {V} _.
Arguments cells {V} _.

Inductive TableError :=
| InvalidHeaderCount
| InvalidCellCount
| ZeroColumns.

(** [if let Some(ref h) = headers { h.len() != cols as usize }]. *)
Definition header_mismatch {V} (headers : option (list V)) (cols : Z) : bool :=
  match headers with Some h => negb (len h =? cols) | None => false end.

Definition is_empty {V} (l : list V) : bool :=
  match l with [] => true | _ => false end.

Definition Table_new {V} (cols : Z) (headers : option (list V)) (cells : list V)
    : outcome TableError (Table V) :=
  if decide (cols = 0) then Err ZeroColumns
  else if header_mismatch headers cols then Err InvalidHeaderCount
  else if decide (len cells mod cols ≠ 0) then Err InvalidCellCount
  else Ok (mkTable cols headers cells).

(** The column count is [headers.len() as u16]. *)
Definition Table_with_headers {V} (headers : list V) : outcome TableError (Table V) :=
  let cols := wrap_u 16 (len headers) in
  if decide (cols = 0) then Err ZeroColumns
  else Ok (mkTable cols (Some headers) []).

Definition rows {V} (t : Table V) : Z :=
  if decide (cols t = 0) then 0 else len (cells t) / cols t.

(** [None] out of range; the index of the cell is checked. *)
Definition Table_get {V E} (t : Table V) (row col : Z) : outcome E (option V) :=
  if decide (col < cols t ∧ row < rows t)
  then Some <$> index (cells t) (row * cols t + col)
  else Ok None.

(** [slice::chunks(n)]: panics when [n] is zero. *)
Fixpoint chunks_from {V} (fuel : nat) (n : nat) (l : list V) : list (list V) :=
  match fuel, l with
  | S fuel, _ :: _ => take n l :: chunks_from fuel n (drop n l)
  | _, _ => []
  end.
Definition chunks {V E} (n : Z) (l : list V) : outcome E (list (list V)) :=
  if decide (n = 0) then Panic else Ok (chunks_from (length l) (Z.to_nat n) l).

Definition row_iter {V E} (t : Table V) : outcome E (list (list V)) :=
  chunks (cols t) (cells t).

(** Panics unless the row has exactly [cols] cells. *)
Definition push_row {V E} (row : list V) (t : Table V) : outcome E (Table V) :=
  if decide (len row = cols t) then Ok (mkTable (cols t) (headers t) (cells t ++ row))
  else Panic.

Definition Table_encode {V} (encode : V → Encoder → Encoder) (t : Table V) (e : Encoder)
    : Encoder :=
  vec_encode encode (cells t)
    (option_encode (vec_encode encode) (headers t) (write_u16 (cols t) e)).

Definition Table_decode {V} (decode : Dec V) : Dec (Table V) :=
  cols ← read_u16;
  headers ← option_decode (vec_decode decode);
  cells ← vec_decode decode;
  if (cols =? 0) && negb (is_empty cells) then Dec_err InvalidValue
  else if header_mismatch headers cols then Dec_err InvalidValue
  else if decide (0 < cols ∧ len cells mod cols ≠ 0) then Dec_err InvalidValue
  else mret (mkTable cols headers cells).

(** ** [BTreeMap<String, V>]

    The map is its entries in key order; [String]'s order compares bytes. *)
Fixpoint str_compare (a b : str) : comparison :=
  match a, b with
  | [], [] => Eq
  | [], _ :: _ => Lt
  | _ :: _, [] => Gt
  | x :: a, y :: b =>
      match x ?= y with
      | Eq => str_compare a b
      | c => c
      end
  end.
Definition str_lt (a b : str) : Prop := str_compare a b = Lt.

Fixpoint btree_insert {V} (k : str) (v : V) (m : list (str * V)) : list (str * V) :=
  match m with
  | [] => [(k, v)]
  | (k', v') :: r =>
      match str_compare k k' with
      | Lt => (k, v) :: m
      | Eq => (k', v) :: r
      | Gt => (k', v') :: btree_insert k v r
      end
  end.

(** ** Values *)
Inductive Value :=
| VNull
| VBool (b : bool)
| VInt (i : Z)
| VFloat (bits : Z)
| VString (s : str)
| VBytes (b : list Z)
| VArray (arr : list Value)
| VMap (map : list (str * Value))
| VStyled (style : Style) (inner : Value)
| VLink (url : str) (inner : Value)
| VTable (table : Table Value).

Inductive ValueTag :=
| TNull | TBool | TInt | TFloat | TString | TBytes | TArray | TMap | TStyled | TLink | TTable.

Definition ValueTag_as_u8 (t : ValueTag) : Z :=
  match t with
  | TNull => 0 | TBool => 1 | TInt => 2 | TFloat => 3 | TString => 4 | TBytes => 5
  | TArray => 6 | TMap => 7 | TStyled => 8 | TLink => 9 | TTable => 10
  end.

Definition ValueTag_from_u8 (v : Z) : option ValueTag :=
  match v with
  | 0 => Some TNull
  | 1 => Some TBool
  | 2 => Some TInt
  | 3 => Some TFloat
  | 4 => Some TString
  | 5 => Some TBytes
  | 6 => Some TArray
  | 7 => Some TMap
  | 8 => Some TStyled
  | 9 => Some TLink
  | 10 => Some TTable
  | _ => None
  end.

Fixpoint Value_encode (v : Value) (e : Encoder) : Encoder :=
  match v with
  | VNull => write_u8 (ValueTag_as_u8 TNull) e
  | VBool b => write_bool b (write_u8 (ValueTag_as_u8 TBool) e)
  | VInt i => write_i64 i (write_u8 (ValueTag_as_u8 TInt) e)
  | VFloat f => write_f64 f (write_u8 (ValueTag_as_u8 TFloat) e)
  | VString s => write_string s (write_u8 (ValueTag_as_u8 TString) e)
  | VBytes b => write_byte_array b (write_u8 (ValueTag_as_u8 TBytes) e)
  | VArray arr => vec_encode Value_encode arr (write_u8 (ValueTag_as_u8 TArray) e)
  | VMap map =>
      foldl (λ e kv, match kv with (k, v) => Value_encode v (write_string k e) end)
        (write_u16 (wrap_u 16 (len map)) (write_u8 (ValueTag_as_u8 TMap) e)) map
  | VStyled style inner =>
      Value_encode inner (Style_encode style (write_u8 (ValueTag_as_u8 TStyled) e))
  | VLink url inner =>
      Value_encode inner (write_string url (write_u8 (ValueTag_as_u8 TLink) e))
  | VTable table => Table_encode Value_encode table (write_u8 (ValueTag_as_u8 TTable) e)
  end.

(** The loop of the [Map] case: [count] times a key and a value, inserted. *)
Fixpoint decode_entries {V} (decode : Dec V) (n : nat) (map : list (str * V))
    : Dec (list (str * V)) :=
  match n with
  | O => mret map
  | S n =>
      k ← read_string;
      v ← decode;
      decode_entries decode n (btree_insert k v map)
  end.

Fixpoint Value_decode_fuel (fuel : nat) : Dec Value :=
  match fuel with
  | O => λ _, OutOfFuel
  | S fuel =>
      b ← read_u8;
      tag ← Dec_ok_or (ValueTag_from_u8 b) UnknownType;
      match tag with
      | TNull => mret VNull
      | TBool => b ← read_bool; mret (VBool b)
      | TInt => i ← read_i64; mret (VInt i)
      | TFloat => f ← read_f64; mret (VFloat f)
      | TString => s ← read_string; mret (VString s)
      | TBytes => b ← read_byte_array; mret (VBytes b)
      | TArray => arr ← vec_decode (Value_decode_fuel fuel); mret (VArray arr)
      | TMap =>
          count ← read_u16;
          map ← decode_entries (Value_decode_fuel fuel) (Z.to_nat count) [];
          mret (VMap map)
      | TStyled =>
          style ← Style_decode;
          inner ← Value_decode_fuel fuel;
          mret (VStyled style inner)
      | TLink =>
          url ← read_string;
          inner ← Value_decode_fuel fuel;
          mret (VLink url inner)
      | TTable => table ← Table_decode (Value_decode_fuel fuel); mret (VTable table)
      end
  end.

Definition Value_decode : Dec Value := λ d,
  Value_decode_fuel (S (Z.to_nat (remaining d))) d.

Definition Value_to_bytes (v : Value) : list Z := to_bytes Value_encode v.
Definition Value_from_bytes (bytes : list Z) : outcome DecodeError Value :=
  from_bytes Value_decode bytes.

Definition Value_bold (inner : Value) : Value := VStyled Style_bold inner.
Definition Value_coloured (inner : Value) (colour : Colour) : Value :=
  VStyled (Style_fg colour) inner.

(** ** Well-formedness

    The ranges of the Rust types, the order of a [BTreeMap], the structure
    [Table_decode] validates, and the sizes the [u16] and [u32] prefixes carry. *)
Fixpoint all {A} (P : A → Prop) (l : list A) : Prop :=
  match l with
  | [] => True
  | x :: l => P x ∧ all P l
  end.

Definition table_valid {V} (t : Table V) : Prop :=
  (cols t = 0 → cells t = []) ∧
  match headers t with Some h => len h = cols t | None => True end ∧
  (0 < cols t → len (cells t) mod cols t = 0).

Definition wf_table {V} (wf : V → Prop) (t : Table V) : Prop :=
  is_u16 (cols t) ∧
  match headers t with Some h => all wf h ∧ len h < 2 ^ 16 | None => True end ∧
  all wf (cells t) ∧ len (cells t) < 2 ^ 16 ∧
  table_valid t.

Fixpoint wf_value (v : Value) : Prop :=
  match v with
  | VNull | VBool _ => True
  | VInt i => is_i64 i
  | VFloat f => is_u64 f
  | VString s => wf_str s
  | VBytes b => wf_byte_array b
  | VArray arr => all wf_value arr ∧ len arr < 2 ^ 16
  | VMap map =>
      all (λ kv, match kv with (k, v) => wf_str k ∧ wf_value v end) map ∧
      StronglySorted str_lt map.*1 ∧ len map < 2 ^ 16
  | VStyled style inner => wf_style style ∧ wf_value inner
  | VLink url inner => wf_str url ∧ wf_value inner
  | VTable table => wf_table wf_value table
  end.

Example value_decode_nested :
  let v := VArray [VMap [([97], VInt (-5)); ([98], VTable (mkTable 2 (Some [VNull; VBool true])
             [VString [104; 105]; VStyled Style_bold (VBytes [1; 2])]))];
             VLink [104] (VFloat 7)] in
  Value_from_bytes (Value_to_bytes v) = Ok v.
Proof. vm_compute. reflexivity. Qed.

(** ** Induction over nested values *)
Section value_ind.
Context (P : Value → Prop).
Hypothesis H_null : P VNull.
Hypothesis H_bool : ∀ b, P (VBool b).
Hypothesis H_int : ∀ i, P (VInt i).
Hypothesis H_float : ∀ f, P (VFloat f).
Hypothesis H_string : ∀ s, P (VString s).
Hypothesis H_bytes : ∀ b, P (VBytes b).
Hypothesis H_array : ∀ l, Forall P l → P (VArray l).
Hypothesis H_map : ∀ m, Forall (λ kv, P kv.2) m → P (VMap m).
Hypothesis H_styled : ∀ s v, P v → P (VStyled s v).
Hypothesis H_link : ∀ u v, P v → P (VLink u v).
Hypothesis H_table : ∀ t,
  Forall P (default [] (headers t)) → Forall P (cells t) → P (VTable t).

Fixpoint value_ind (v : Value) : P v :=
  let list_ind := fix go (l : list Value) : Forall P l :=
    match l with
    | [] => Forall_nil_2 P
    | x :: l => Forall_cons_2 P x l (value_ind x) (go l)
    end in
  match v with
  | VNull => H_null
  | VBool b => H_bool b
  | VInt i => H_int i
  | VFloat f => H_float f
  | VString s => H_string s
  | VBytes b => H_bytes b
  | VArray l => H_array l (list_ind l)
  | VMap m => H_map m
      ((fix go (m : list (str * Value)) : Forall (λ kv, P kv.2) m :=
        match m with
        | [] => Forall_nil_2 _
        | (k, x) :: m => Forall_cons_2 (λ kv, P kv.2) (k, x) m (value_ind x) (go m)
        end) m)
  | VStyled s v => H_styled s v (value_ind v)
  | VLink u v => H_link u v (value_ind v)
  | VTable t => match t as t return P (VTable t) with
      mkTable c h l =>
        H_table (mkTable c h l)
          (match h as h return Forall P (default [] h) with
           | Some h => list_ind h
           | None => Forall_nil_2 P
           end)
          (list_ind l)
      end
  end.
End value_ind.

(** ** Appending *)
Lemma Table_encode_extend {V} (enc : V → Encoder → Encoder) (f : V → list Z) t e :
  (∀ v e, v ∈ default [] (headers t) ∨ v ∈ cells t → enc v e = extend_from_slice e (f v)) →
  Table_encode enc t e = extend_from_slice e
    (to_le_bytes 2 (cols t)
     ++ match headers t with
        | Some h => 1 :: to_le_bytes 2 (wrap_u 16 (len h)) ++ concat (f <$> h)
        | None => [0] end
     ++ to_le_bytes 2 (wrap_u 16 (len (cells t))) ++ concat (f <$> cells t)).
Proof.
  intros H. unfold Table_encode.
  rewrite (vec_encode_extend _ _ _ f) by auto. destruct (headers t) as [h|]; cbn [option_encode].
  - rewrite (vec_encode_extend _ _ _ f) by auto. by unfold_writes.
  - by unfold_writes.
Qed.

Definition entry_encode (kv : str * Value) (e : Encoder) : Encoder :=
  match kv with (k, v) => Value_encode v (write_string k e) end.
Definition entry_bytes (kv : str * Value) : list Z :=
  to_bytes write_string kv.1 ++ to_bytes Value_encode kv.2.

Lemma Value_writes v e : Value_encode v e = extend_from_slice e (to_bytes Value_encode v).
Proof.
  revert e. induction v as [|b|i|f|s|b|l IH|m IH|s v IH|u v IH|t IHh IHc] using value_ind;
    intros e; unfold to_bytes at 1; cbn [Value_encode].
  1-6: by unfold_writes.
  - rewrite Forall_forall in IH.
    rewrite !(vec_encode_extend _ _ _ (to_bytes Value_encode)) by auto. by unfold_writes.
  - rewrite Forall_forall in IH.
    assert (∀ kv e, kv ∈ m → entry_encode kv e = extend_from_slice e (entry_bytes kv)) as Hm.
    { intros [k v] e' Hin. unfold entry_encode, entry_bytes. cbn.
      rewrite (IH (k, v)) by done. rewrite (codec_writes' _ read_string wf_str).
      by rewrite extend_extend. }
    rewrite !(foldl_extend entry_encode _ _ entry_bytes) by done. by unfold_writes.
  - rewrite !IH, !(codec_writes' Style_encode Style_decode wf_style). by unfold_writes.
  - rewrite !IH, !(codec_writes' write_string read_string wf_str). by unfold_writes.
  - rewrite Forall_forall in IHh, IHc.
    rewrite !(Table_encode_extend _ (to_bytes Value_encode)) by (intros ?? []; auto).
    by unfold_writes.
Qed.

(** ** Key order and [BTreeMap] insertion *)
Lemma str_compare_eq a b : str_compare a b = Eq ↔ a = b.
Proof.
  split; [|intros <-; by induction a; cbn; rewrite ?Z.compare_refl].
  revert b. induction a as [|x a IH]; intros [|y b]; cbn; try done.
  destruct (x ?= y) eqn:Hc; try done. apply Z.compare_eq in Hc as ->. intros H. by rewrite (IH b).
Qed.

Lemma str_compare_antisym a b : str_compare b a = CompOpp (str_compare a b).
Proof.
  revert b. induction a as [|x a IH]; intros [|y b]; cbn; try done.
  rewrite (Z.compare_antisym x y). by destruct (x ?= y); cbn.
Qed.

Lemma str_compare_gt a b : str_compare a b = Gt ↔ str_lt b a.
Proof. unfold str_lt. rewrite (str_compare_antisym a b). by destruct (str_compare a b). Qed.

#[export] Instance str_lt_trans : Transitive str_lt.
Proof.
  unfold str_lt. intros a. induction a as [|x a IH]; intros [|y b] [|z c]; cbn; try done.
  intros H1 H2. destruct (Z.compare_spec x y), (Z.compare_spec y z), (Z.compare_spec x z);
    try done; try lia. by apply (IH b).
Qed.

Lemma str_lt_irrefl a : ¬ str_lt a a.
Proof. unfold str_lt. by rewrite (proj2 (str_compare_eq a a)). Qed.

Section btree.
Context {V : Type}.
Implicit Types (m : list (str * V)).

(** Inserting a key above all others appends it. *)
Lemma btree_insert_last k v m :
  Forall (λ k', str_lt k' k) m.*1 → btree_insert k v m = m ++ [(k, v)].
Proof.
  induction m as [|[k' v'] m IH]; [done|]. cbn. intros [Hk Hm]%Forall_cons.
  apply str_compare_gt in Hk as ->. by rewrite IH.
Qed.

Lemma btree_insert_keys k v m x : x ∈ (btree_insert k v m).*1 → x = k ∨ x ∈ m.*1.
Proof.
  induction m as [|[k' v'] m IH]; cbn; [set_solver|].
  destruct (str_compare k k') eqn:Hc; cbn; set_solver.
Qed.

Lemma btree_insert_sorted k v m :
  StronglySorted str_lt m.*1 → StronglySorted str_lt (btree_insert k v m).*1.
Proof.
  induction m as [|[k' v'] m IH]; cbn; [by repeat constructor|].
  intros [Hs Hf]%StronglySorted_inv.
  destruct (str_compare k k') eqn:Hc; cbn; [by constructor|..].
  - do 2 constructor; [done|done|done|].
    eapply Forall_impl; [exact Hf|]. intros x. by apply str_lt_trans.
  - constructor; [auto|]. apply Forall_forall. intros x [->|Hx]%btree_insert_keys.
    + by apply str_compare_gt.
    + by eapply Forall_forall in Hf.
Qed.

Lemma btree_insert_len k v m : len (btree_insert k v m) <= 1 + len m.
Proof.
  induction m as [|[k' v'] m IH]; cbn; [done|].
  destruct (str_compare k k'); len_lia.
Qed.

Lemma btree_insert_all (P : str * V → Prop) k v m :
  (∀ k' , str_compare k k' = Eq → P (k', v)) → P (k, v) → Forall P m →
  Forall P (btree_insert k v m).
Proof.
  intros Heq Hkv. induction m as [|[k' v'] m IH]; cbn; [by repeat constructor|].
  intros [Hk Hm]%Forall_cons. destruct (str_compare k k') eqn:Hc; constructor; auto.
Qed.
End btree.

Lemma all_Forall {A} (P : A → Prop) l : all P l ↔ Forall P l.
Proof. induction l as [|x l IH]; cbn; [done|]. by rewrite Forall_cons, IH. Qed.

(** ** Reading values back *)
Lemma reads_entries {V} n (dec : Dec V) (bytes : V → list Z) m acc :
  Forall (λ kv, wf_str kv.1 ∧ reads n dec (bytes kv.2) kv.2) m →
  StronglySorted str_lt (acc ++ m).*1 →
  reads n (decode_entries dec (length m) acc)
    (concat ((λ kv, to_bytes write_string kv.1 ++ bytes kv.2) <$> m)) (acc ++ m).
Proof.
  revert n acc. induction m as [|[k v] m IH]; intros n acc; cbn.
  { intros _ _. rewrite app_nil_r. apply reads_ret. }
  intros [[Hk Hv] Hm]%Forall_cons Hs. cbn in Hk, Hv. rewrite <- app_assoc.
  eapply reads_bind; [by apply codec_reads|].
  eapply reads_bind; [eapply reads_mono, Hv; len_lia|].
  rewrite btree_insert_last.
  - rewrite (cons_middle (k, v) acc m), app_assoc.
    apply IH; [|by rewrite <- app_assoc].
    eapply Forall_impl; [exact Hm|]. intros kv [Hk' Hv']. split; [done|].
    eapply reads_mono, Hv'. len_lia.
  - rewrite fmap_app in Hs. cbn in Hs. clear -Hs.
    induction acc as [|[k' v'] acc IH]; cbn in *; [constructor|].
    apply StronglySorted_inv in Hs as [Hs Hf]. constructor; [|auto].
    rewrite Forall_app, Forall_cons in Hf. tauto.
Qed.

Lemma reads_table {V} n (dec : Dec V) (f : V → list Z) (wf : V → Prop) t :
  wf_table wf t →
  Forall (λ v, reads (n - 4) dec (f v) v) (default [] (headers t)) →
  Forall (λ v, reads (n - 4) dec (f v) v) (cells t) →
  reads n (Table_decode dec)
    (to_le_bytes 2 (cols t)
     ++ match headers t with
        | Some h => 1 :: to_le_bytes 2 (wrap_u 16 (len h)) ++ concat (f <$> h)
        | None => [0] end
     ++ to_le_bytes 2 (wrap_u 16 (len (cells t))) ++ concat (f <$> cells t)) t.
Proof.
  destruct t as [c h l]. unfold wf_table, table_valid. cbn.
  intros (Hc & Hh & Hl & Hln & Hz & Hhl & Hm) Rh Rl. unfold Table_decode.
  reads_step. rewrite len_to_le_bytes.
  eapply reads_bind.
  { apply (reads_option _ _ (λ l, to_le_bytes 2 (wrap_u 16 (len l)) ++ concat (f <$> l)) h).
    destruct h as [h|]; [|done]. cbn in *. apply reads_vec; [|by destruct Hh].
    eapply Forall_impl; [exact Rh|]. intros v. apply reads_mono. lia. }
  eapply reads_bind_ret.
  { apply reads_vec; [|done]. eapply Forall_impl; [exact Rl|]. intros v. apply reads_mono.
    destruct h; len_lia. }
  unfold header_mismatch.
  destruct (Z.eqb_spec c 0) as [->|]; [rewrite Hz by done|]; cbn [is_empty negb andb];
    (destruct h; [rewrite (proj2 (Z.eqb_eq _ _)) by done|]; cbn [negb];
     rewrite decide_False by (unfold in_u in Hc; naive_solver lia); done).
Qed.

Lemma reads_tag {A} n tag body (v : A) (k : ValueTag → Dec A) :
  reads (n - 1) (k tag) body v →
  reads n (b ← read_u8; t ← Dec_ok_or (ValueTag_from_u8 b) UnknownType; k t)
    (ValueTag_as_u8 tag :: body) v.
Proof.
  intros Hk. change (ValueTag_as_u8 tag :: body) with ([ValueTag_as_u8 tag] ++ body).
  reads_step. by destruct tag.
Qed.

Lemma reads_neg {A} n (m : Dec A) bs v : n < 0 → reads n m bs v.
Proof. intros Hn d tl _ H. pose proof (len_nonneg (rest d)). lia. Qed.

(** The bytes of a value: its tag, then the encoding of its parts. *)
Definition value_body (v : Value) : ValueTag * list Z :=
  match v with
  | VNull => (TNull, [])
  | VBool b => (TBool, to_bytes write_bool b)
  | VInt i => (TInt, to_bytes write_i64 i)
  | VFloat f => (TFloat, to_bytes write_f64 f)
  | VString s => (TString, to_bytes write_string s)
  | VBytes b => (TBytes, to_bytes write_byte_array b)
  | VArray l => (TArray,
      to_le_bytes 2 (wrap_u 16 (len l)) ++ concat (to_bytes Value_encode <$> l))
  | VMap m => (TMap, to_le_bytes 2 (wrap_u 16 (len m)) ++ concat (entry_bytes <$> m))
  | VStyled s v => (TStyled, to_bytes Style_encode s ++ to_bytes Value_encode v)
  | VLink u v => (TLink, to_bytes write_string u ++ to_bytes Value_encode v)
  | VTable t => (TTable,
      to_le_bytes 2 (cols t)
      ++ match headers t with
         | Some h =>
             1 :: to_le_bytes 2 (wrap_u 16 (len h)) ++ concat (to_bytes Value_encode <$> h)
         | None => [0] end
      ++ to_le_bytes 2 (wrap_u 16 (len (cells t)))
      ++ concat (to_bytes Value_encode <$> cells t))
  end.

Lemma value_bytes v :
  to_bytes Value_encode v = ValueTag_as_u8 (value_body v).1 :: (value_body v).2.
Proof.
  apply to_bytes_eq. intros e. destruct v; cbn [Value_encode value_body fst snd].
  1-6: by unfold_writes.
  - rewrite (vec_encode_extend _ _ _ (to_bytes Value_encode)) by (intros; apply Value_writes).
    by unfold_writes.
  - rewrite (foldl_extend entry_encode _ _ entry_bytes).
    { by unfold_writes. }
    intros [k v] e' _. unfold entry_encode, entry_bytes.
    by rewrite Value_writes, (codec_writes' _ read_string wf_str), extend_extend.
  - rewrite Value_writes, (codec_writes' Style_encode Style_decode wf_style). by unfold_writes.
  - rewrite Value_writes, (codec_writes' write_string read_string wf_str). by unfold_writes.
  - rewrite (Table_encode_extend _ (to_bytes Value_encode)) by (intros; apply Value_writes).
    by unfold_writes.
Qed.

Lemma Value_reads v :
  wf_value v → ∀ fuel n, n < Z.of_nat fuel →
  reads n (Value_decode_fuel fuel) (to_bytes Value_encode v) v.
Proof.
  induction v as [|b|i|f|s|b|l IH|m IH|s v IH|u v IH|t IHh IHc] using value_ind;
    intros Hwf fuel n Hn; (destruct fuel as [|fuel]; [by apply reads_neg|]);
    rewrite value_bytes; cbn [Value_decode_fuel value_body fst snd]; apply reads_tag; cbn in Hwf.
  1-6: first [apply reads_ret | eapply reads_bind_ret; [apply codec_reads|]; done].
  - destruct Hwf as [Hl Hlen]. rewrite all_Forall in Hl.
    eapply reads_bind_ret; [|done]. apply reads_vec; [|done].
    apply Forall_forall. intros v Hin. rewrite Forall_forall in IH, Hl. apply IH; auto; lia.
  - destruct Hwf as (Hm & Hs & Hlen). rewrite all_Forall in Hm.
    pose proof (len_nonneg m). rewrite wrap_u_small by (unfold in_u; lia).
    eapply reads_bind; [apply reads_u16; unfold in_u; lia|].
    eapply reads_bind_ret; [|done].
    replace (Z.to_nat (len m)) with (length m) by (unfold len; lia).
    apply (reads_entries _ _ (to_bytes Value_encode) m []); [|done].
    rewrite Forall_forall in *. intros [k v] Hin. specialize (Hm _ Hin) as [Hk Hv].
    split; [done|]. apply (IH _ Hin); [done|]. len_lia.
  - destruct Hwf as [Hs Hv]. eapply reads_bind; [by apply codec_reads|].
    eapply reads_bind_ret; [|done]. apply IH; [done|]. len_lia.
  - destruct Hwf as [Hs Hv]. eapply reads_bind; [by apply codec_reads|].
    eapply reads_bind_ret; [|done]. apply IH; [done|]. len_lia.
  - eapply reads_bind_ret; [|done]. eapply reads_table; [done|..];
      destruct Hwf as (_ & Hh & Hc & _); rewrite all_Forall in Hc; rewrite Forall_forall in *.
    + intros v Hin. apply IHh; [done| |lia].
      destruct (headers t); [|by apply elem_of_nil in Hin].
      destruct Hh as [Hh _]. rewrite all_Forall, Forall_forall in Hh. auto.
    + intros v Hin. apply IHc; [done|auto|lia].
Qed.

(** ** Decoding untrusted bytes *)
Lemma safe_neg {A} c n (m : Dec A) P : n < 0 → safe c n m P.
Proof. intros Hn d _ _ H. pose proof (len_nonneg (rest d)). lia. Qed.

Lemma safe_entries {V} n (dec : Dec V) (wf : V → Prop) k m :
  safe 0 n dec wf →
  Forall (λ kv, wf_str kv.1 ∧ wf kv.2) m → StronglySorted str_lt m.*1 →
  safe 0 n (decode_entries dec k m) (λ m',
    Forall (λ kv, wf_str kv.1 ∧ wf kv.2) m' ∧ StronglySorted str_lt m'.*1 ∧
    len m' <= len m + Z.of_nat k).
Proof.
  intros Hd. revert m. induction k as [|k IH]; intros m Hm Hs; cbn [decode_entries].
  { apply safe_ret. split_and!; [done|done|lia]. }
  eapply safe_bind0; [apply dec_safe|]. intros key Hkey.
  eapply safe_bind0; [exact Hd|]. intros v Hv.
  eapply safe_weaken; [done|done| |apply IH].
  - intros m' (?&?&?). split_and!; [done|done|]. pose proof (btree_insert_len key v m). lia.
  - apply btree_insert_all; [|done|done]. cbn. intros k' <-%str_compare_eq. done.
  - by apply btree_insert_sorted.
Qed.

Lemma safe_table {V} n (dec : Dec V) (wf : V → Prop) :
  safe 0 n dec wf → safe 0 n (Table_decode dec) (wf_table wf).
Proof.
  intros Hd. unfold Table_decode.
  pose proof (safe_vec0 n dec wf Hd) as Hv.
  eapply safe_bind0; [apply dec_safe|]. intros c Hc.
  eapply safe_bind0; [by apply safe_option0|]. intros h Hh. eapply safe_bind0; [exact Hv|]. intros l [Hl Hlen].
  destruct ((c =? 0) && negb (is_empty l)) eqn:H1; [apply safe_err|].
  destruct (header_mismatch h c) eqn:H2; [apply safe_err|].
  case_decide as H3; [apply safe_err|]. apply safe_ret.
  unfold wf_table, table_valid. cbn. rewrite all_Forall. split_and!; [done| |done|done|..].
  - destruct h as [h|]; [|done]. cbn in Hh. destruct Hh. by rewrite all_Forall.
  - intros ->. by destruct l.
  - destruct h as [h|]; [|done]. cbn in H2. lia.
  - destruct (decide (len l mod c = 0)); [done|]. intros. by destruct H3.
Qed.

Lemma Value_safe fuel n : n < Z.of_nat fuel → safe 1 n (Value_decode_fuel fuel) wf_value.
Proof.
  revert n. induction fuel as [|fuel IH]; intros n Hn; [by apply safe_neg|].
  cbn [Value_decode_fuel]. apply (safe_weaken (1 + 0) _ n _ _ wf_value); [done..|].
  eapply safe_bind; [done|apply safe_u8|]. intros b Hb.
  assert (safe 0 (n - 1) (Value_decode_fuel fuel) wf_value) as Hv.
  { eapply (safe_weaken 1); [done|done|by intros ? X|apply IH; lia]. }
  eapply safe_bind0; [apply safe_ok_or|]. intros tag _. destruct tag.
  - by apply safe_ret.
  - by repeat safe_step.
  - by repeat safe_step.
  - by repeat safe_step.
  - by repeat safe_step.
  - by repeat safe_step.
  - eapply safe_fmap; [done|by apply safe_vec0|]. intros l [Hl ?]. cbn. by rewrite all_Forall.
  - eapply safe_bind0; [apply dec_safe|]. intros k Hk.
    eapply safe_fmap; [done|by apply safe_entries; [|constructor..]|].
    intros m (Hm & Hs & Hlen). cbn. rewrite all_Forall. split_and!; [|done|].
    + eapply Forall_impl; [exact Hm|]. by intros [].
    + rewrite len_nil in Hlen. rng.
  - eapply safe_bind0; [apply dec_safe|]. intros s Hs. by eapply safe_fmap.
  - eapply safe_bind0; [apply dec_safe|]. intros s Hs. by eapply safe_fmap.
  - by eapply safe_fmap; [|apply safe_table|].
Qed.

#[export] Instance value_codec : Codec Value_encode Value_decode wf_value.
Proof.
  split; [apply Value_writes|]. intros v n Hv d tl Hd Hn Hr. unfold Value_decode.
  apply (Value_reads v Hv _ (len (rest d))) with tl; [|done..].
  rewrite remaining_rest by done. lia.
Qed.

#[export] Instance value_safe : DecSafe Value_decode wf_value.
Proof.
  intros n d Hd Hb Hn. unfold Value_decode.
  eapply (safe_weaken 1 0 (len (rest d)) (len (rest d)) _ wf_value); try done.
  apply Value_safe. rewrite remaining_rest by done. lia.
Qed.

(** ** Rows of a table *)
Lemma chunks_from_spec {V} (n : nat) (k fuel : nat) (l : list V) :
  (0 < n)%nat → length l = (k * n)%nat → (k <= fuel)%nat →
  length (chunks_from fuel n l) = k ∧
  Forall (λ r, length r = n) (chunks_from fuel n l) ∧
  concat (chunks_from fuel n l) = l.
Proof.
  intros Hn. revert fuel l. induction k as [|k IH]; intros fuel l Hl Hk.
  { apply nil_length_inv in Hl as ->. by destruct fuel. }
  destruct fuel as [|fuel]; [lia|]. destruct l as [|x l]; [cbn in Hl; lia|].
  cbn [chunks_from]. destruct (IH fuel (drop n (x :: l))) as (H1 & H2 & H3).
  { rewrite length_drop, Hl. lia. }
  { lia. }
  cbn [length concat]. rewrite H1, H3, take_drop. split_and!; [done| |done].
  constructor; [|done]. rewrite length_take, Hl. lia.
Qed.

Lemma chunks_from_lookup {V} (n fuel : nat) (l : list V) r row c :
  chunks_from fuel n l !! r = Some row → (c < n)%nat → row !! c = l !! (r * n + c)%nat.
Proof.
  revert l r. induction fuel as [|fuel IH]; intros l r; [done|].
  destruct l as [|x l]; [done|]. cbn [chunks_from]. destruct r as [|r]; cbn [lookup list_lookup].
  - intros [= <-] Hc. by rewrite lookup_take_lt.
  - intros Hr Hc. rewrite (IH _ _ Hr Hc), lookup_drop. f_equal. lia.
Qed.

Lemma rows_cells {V} (t : Table V) :
  table_valid t → 0 < cols t → len (cells t) = rows t * cols t.
Proof.
  intros (_ & _ & Hm) Hc. specialize (Hm Hc). unfold rows. rewrite decide_False by lia.
  rewrite Z.mul_comm. apply Z_div_exact_full_2; lia.
Qed.

Lemma Table_new_ok {V} c (h : option (list V)) l t :
  Table_new c h l = Ok t → t = mkTable c h l ∧ c ≠ 0 ∧ table_valid t.
Proof.
  unfold Table_new. case_decide; [done|]. destruct (header_mismatch h c) eqn:Hh; [done|].
  case_decide as Hm; [done|]. intros [= <-]. split_and!; [done|done|].
  unfold table_valid. cbn. split_and!; [done| |].
  - destruct h; [|done]. cbn in Hh. lia.
  - intros _. destruct (decide (len l mod c = 0)); [done|]. by destruct Hm.
Qed.

Lemma Table_get_cell {V E} (t : Table V) r c :
  table_valid t → 0 <= r < rows t → 0 <= c < cols t →
  Table_get (E:=E) t r c = Ok (cells t !! Z.to_nat (r * cols t + c)) ∧
  is_Some (cells t !! Z.to_nat (r * cols t + c)).
Proof.
  intros Ht Hr Hc. pose proof (rows_cells t Ht ltac:(lia)) as Hl.
  unfold Table_get, index. rewrite decide_True by lia. rewrite decide_True by nia.
  assert (is_Some (cells t !! Z.to_nat (r * cols t + c))) as [x Hx].
  { apply lookup_lt_is_Some. unfold len in Hl. nia. }
  by rewrite Hx.
Qed.

(** ** Properties *)

(** C18.  Encoding a well-formed [Value] and decoding the bytes, whatever
    follows them in the buffer, gives the value back.  The values cover every
    constructor, nested to any depth. *)
Theorem value_roundtrip (v : Value) (tl : list Z) :
  wf_value v → Value_from_bytes (Value_to_bytes v ++ tl) = Ok v.
Proof. apply codec_from_bytes. apply _. Qed.

Lemma value_roundtrip_witness :
  Value_from_bytes (Value_to_bytes
    (VMap [([97], VArray [VInt (-1); VNull]);
           ([98], VTable (mkTable 2 None [VString [195; 169]; VBool true]))]) ++ [7; 7]) =
  Ok (VMap [([97], VArray [VInt (-1); VNull]);
            ([98], VTable (mkTable 2 None [VString [195; 169]; VBool true]))]).
Proof.
  apply value_roundtrip. cbn. unfold wf_table, table_valid, wf_str, in_u, in_i. cbn.
  repeat first [split | constructor | progress intros]; vm_compute; done.
Defined.

(** C19.  Decoding arbitrary bytes as a [Value] terminates without panicking:
    it is an error or a well-formed value, and that value survives being sent
    on (encoding it and decoding again gives the same value). *)
Theorem value_decode_untrusted (bs : list Z) :
  Forall is_u8 bs →
  match Value_from_bytes bs with
  | Ok v => wf_value v ∧ Value_from_bytes (Value_to_bytes v) = Ok v
  | Err _ => True
  | Panic | OutOfFuel => False
  end.
Proof.
  intros Hb. pose proof (safe_from_bytes Value_decode wf_value bs Hb) as H.
  unfold Value_from_bytes. destruct (from_bytes Value_decode bs) as [v|e| |]; [|done..].
  split; [done|]. rewrite <- (app_nil_r (Value_to_bytes v)). by apply (codec_from_bytes _ _ _).
Qed.

Lemma value_decode_untrusted_witness :
  match Value_from_bytes [6; 2; 0; 4; 1; 0; 104; 9] with
  | Ok v => wf_value v ∧ Value_from_bytes (Value_to_bytes v) = Ok v
  | Err _ => True
  | Panic | OutOfFuel => False
  end.
Proof. apply value_decode_untrusted. repeat constructor; done. Defined.

(** A table built by [Table::new] iterates as its rows: there are [rows()]
    of them, each of exactly [cols] cells, their concatenation is the cell
    vector, and [get] reads the same cells without an out-of-range index. *)
Theorem table_rows_rectangular {V} c (h : option (list V)) l t :
  is_u16 c → Table_new c h l = Ok t →
  ∃ rs, row_iter (E:=TableError) t = Ok rs ∧ len rs = rows t ∧
    Forall (λ r, len r = c) rs ∧ concat rs = l ∧
    ∀ r row col, rs !! r = Some row → 0 <= col < c →
      Table_get (E:=TableError) t (Z.of_nat r) col = Ok (row !! Z.to_nat col).
Proof.
  intros Hc16 Ht. apply Table_new_ok in Ht as (Et & Hc0 & Hv).
  assert (cols t = c ∧ cells t = l) as [Hct Hlt] by by subst t.
  assert (0 < cols t) as Hc by (unfold in_u in Hc16; lia).
  pose proof (rows_cells t Hv Hc) as Hl.
  unfold row_iter, chunks. rewrite decide_False by lia.
  destruct (chunks_from_spec (Z.to_nat (cols t)) (Z.to_nat (rows t)) (length (cells t)) (cells t))
    as (H1 & H2 & H3); [lia|unfold len in Hl; nia|unfold len in Hl; nia|].
  assert (0 <= rows t) as Hr0 by (unfold len in Hl; nia).
  eexists. split_and!; [done| | | |].
  - unfold len. lia.
  - eapply Forall_impl; [exact H2|]. intros r Hr. cbn in *. unfold len. lia.
  - by rewrite H3.
  - intros r row col Hrow Hcol.
    assert (Z.of_nat r < rows t) as Hr by (apply lookup_lt_Some in Hrow; lia).
    destruct (Table_get_cell (E:=TableError) t (Z.of_nat r) col) as [-> _]; [done|lia|lia|].
    f_equal. rewrite (chunks_from_lookup _ _ _ _ _ _ Hrow) by lia.
    f_equal. rewrite Z2Nat.inj_add, Z2Nat.inj_mul by nia. lia.
Qed.

Lemma table_rows_rectangular_witness :
  ∃ rs, row_iter (E:=TableError) (mkTable 2 None [1; 2; 3; 4]) = Ok rs ∧ len rs = 2 ∧
    Forall (λ r, len r = 2) rs ∧ concat rs = [1; 2; 3; 4] ∧
    ∀ r row col, rs !! r = Some row → 0 <= col < 2 →
      Table_get (E:=TableError) (mkTable 2 None [1; 2; 3; 4]) (Z.of_nat r) col
        = Ok (row !! Z.to_nat col).
Proof. apply (table_rows_rectangular 2 None); [by split|reflexivity]. Defined.

(** [push_row] keeps a valid table valid, adds exactly one row at the end
    and panics exactly when the row has the wrong width. *)
Theorem push_row_valid {V} (t : Table V) (row : list V) :
  table_valid t → 0 < cols t →
  match push_row (E:=TableError) row t with
  | Ok t' => len row = cols t ∧ table_valid t' ∧ rows t' = rows t + 1 ∧
      ∀ c, 0 <= c < cols t →
        Table_get (E:=TableError) t' (rows t) c = Ok (row !! Z.to_nat c)
  | Panic => len row ≠ cols t
  | Err _ | OutOfFuel => False
  end.
Proof.
  intros Ht Hc. unfold push_row. case_decide as Hr; [|done]. split; [done|].
  pose proof (rows_cells t Ht Hc) as Hl. destruct Ht as (_ & Hh & Hm).
  assert (table_valid (mkTable (cols t) (headers t) (cells t ++ row))) as Hv.
  { unfold table_valid. cbn. split_and!; [lia|done|]. intros _.
    rewrite len_app, Hl, Hr, <- Z.mul_succ_l. apply Z_mod_mult. }
  assert (rows (mkTable (cols t) (headers t) (cells t ++ row)) = rows t + 1) as Hrows.
  { pose proof (rows_cells _ Hv Hc) as Hl'. cbn in Hl'. rewrite len_app in Hl'. nia. }
  split_and!; [done|done|]. intros c Hcc.
  assert (0 <= rows t) by (pose proof (len_nonneg (cells t)); nia).
  destruct (Table_get_cell (E:=TableError) _ (rows t) c Hv) as [-> _]; [lia|done|].
  cbn. f_equal. rewrite lookup_app_r by (unfold len in Hl; nia).
  f_equal. unfold len in Hl. nia.
Qed.

Lemma push_row_valid_witness :
  match push_row (E:=TableError) [5; 6] (mkTable 2 None [1; 2; 3; 4]) with
  | Ok t' => len [5; 6] = 2 ∧ table_valid t' ∧ rows t' = 2 + 1 ∧
      ∀ c, 0 <= c < 2 → Table_get (E:=TableError) t' 2 c = Ok ([5; 6] !! Z.to_nat c)
  | Panic => len [5; 6] ≠ 2
  | Err _ | OutOfFuel => False
  end.
Proof.
  apply (push_row_valid (mkTable 2 None [1; 2; 3; 4])); [|done].
  unfold table_valid. by split_and!.
Defined.
