(* ===== verification/StrMap.v ===== *)
(** * [BTreeMap<String, V>]: lookups

    The map is its entries in key order (see [btree_insert]); lookup and
    removal, and their laws with insertion. *)

From Stdlib Require Import Sorted.
From S2P Require Import Prelude Utf8 Value.

Section strmap.
Context {V : Type}.
Implicit Types (m : list (str * V)) (k : str).

Fixpoint sm_get k m : option V :=
  match m with
  | [] => None
  | (k', v) :: m => if decide (k = k') then Some v else sm_get k m
  end.
Fixpoint sm_remove k m : list (str * V) :=
  match m with
  | [] => []
  | (k', v) :: m => if decide (k = k') then m else (k', v) :: sm_remove k m
  end.

Definition sm_sorted m : Prop := StronglySorted str_lt m.*1.

Lemma sm_sorted_nil : sm_sorted [].
Proof. constructor. Qed.

Lemma sm_get_None k m : sm_get k m = None ↔ k ∉ m.*1.
Proof.
  induction m as [|[k' v] m IH]; cbn; [split; [intros _; apply not_elem_of_nil|done]|]. rewrite not_elem_of_cons. case_decide; [|rewrite IH]; naive_solver.
Qed.

Lemma sm_sorted_cons k v m : sm_sorted ((k, v) :: m) → sm_sorted m ∧ k ∉ m.*1.
Proof.
  intros [Hs Hf]%StronglySorted_inv. split; [done|]. intros Hin. rewrite Forall_forall in Hf. by apply (str_lt_irrefl k), Hf.
Qed.

Lemma sm_get_elem k v m : sm_sorted m → sm_get k m = Some v ↔ (k, v) ∈ m.
Proof.
  induction m as [|[k' v'] m IH]; intros Hs; cbn; [split; [done|by intros ?%elem_of_nil]|]. apply sm_sorted_cons in Hs as [Hs Hn].
  rewrite elem_of_cons. case_decide as Hk; [subst k'|rewrite (IH Hs)].
  - split; [intros [= ->]; by left|]. intros [[= ->]|Hin]; [done|]. exfalso. apply Hn. by apply (list_elem_of_fmap_2 fst) in Hin.
  - split; [by right|]. by intros [[= ? ?]|?].
Qed.

Lemma sm_get_is_Some k m : is_Some (sm_get k m) ↔ k ∈ m.*1.
Proof. rewrite <-not_eq_None_Some, sm_get_None. split; [intros H; by apply dec_stable|tauto]. Qed.

Lemma sm_get_insert k v m k' : sm_sorted m → sm_get k' (btree_insert k v m) = if decide (k' = k) then Some v else sm_get k' m.
Proof.
  induction m as [|[k0 v0] m IH]; intros Hs; [done|]. cbn [btree_insert]. pose proof (str_compare_eq k k0) as Heq.
  destruct (str_compare k k0); cbn [sm_get].
  - assert (k = k0) as <- by (by apply Heq). by destruct (decide _).
  - done.
  - assert (k ≠ k0) by (by intros He; apply Heq in He).
    rewrite IH by (by apply sm_sorted_cons in Hs as [? _]). repeat case_decide; congruence.
Qed.

Lemma sm_remove_keys k m x : x ∈ (sm_remove k m).*1 → x ∈ m.*1.
Proof.
  induction m as [|[k' v] m IH]; cbn; [done|]. case_decide; cbn; rewrite ?elem_of_cons; [by right|]. intros [->|?]; [by left|right; auto].
Qed.
Lemma sm_remove_sorted k m : sm_sorted m → sm_sorted (sm_remove k m).
Proof.
  induction m as [|[k' v] m IH]; intros Hs; [done|]. cbn [sm_remove]. apply StronglySorted_inv in Hs as [Hs Hf].
  case_decide; [done|]. constructor; [by apply IH|]. apply Forall_forall. intros x Hx%sm_remove_keys. by eapply Forall_forall in Hf.
Qed.
Lemma sm_get_remove k m k' : sm_sorted m → sm_get k' (sm_remove k m) = if decide (k' = k) then None else sm_get k' m.
Proof.
  induction m as [|[k0 v0] m IH]; intros Hs; cbn [sm_remove sm_get]; [by destruct (decide _)|]. apply sm_sorted_cons in Hs as [Hs Hn].
  destruct (decide (k = k0)) as [->|Hne].
  - destruct (decide (k' = k0)) as [->|]; [by apply sm_get_None|done].
  - cbn [sm_get]. rewrite IH by done. repeat case_decide; congruence.
Qed.
End strmap.
