(* ===== verification/Terminal.v ===== *)
(** * The terminal control protocol ([panda-abi/src/terminal.rs])

    [Request]s travel from a child process to the terminal and [Event]s back,
    each as one TLV frame: message type, length, content.  The length field is
    written as a placeholder and patched once the content is known. *)

From S2P Require Import Prelude Utf8 Encoding Style Value.

(** ** Message types *)
Inductive MessageType :=
| MWrite | MMoveCursor | MClear | MRequestInput | MSetTitle | MProgress | MQuery | MExit
| MError | MWarning
| MInputResponse | MKey | MResize | MSignal | MQueryResponse.

Definition MessageType_as_u16 (m : MessageType) : Z :=
  match m with
  | MWrite => 0x0001
  | MMoveCursor => 0x0002
  | MClear => 0x0003
  | MRequestInput => 0x0004
  | MSetTitle => 0x0005
  | MProgress => 0x0006
  | MQuery => 0x0007
  | MExit => 0x0008
  | MError => 0x0009
  | MWarning => 0x000A
  | MInputResponse => 0x0100
  | MKey => 0x0101
  | MResize => 0x0102
  | MSignal => 0x0103
  | MQueryResponse => 0x0104
  end.

(** ** Enumerations sent as one byte *)
(** Table alignment. *)
Inductive Alignment :=
| ALeft
| ACentre
| ARight.

Definition Alignment_as_u8 (x : Alignment) : Z :=
  match x with
  | ALeft => 0
  | ACentre => 1
  | ARight => 2
  end.

Definition Alignment_encode (x : Alignment) (e : Encoder) : Encoder := write_u8 (Alignment_as_u8 x) e.

Definition Alignment_decode : Dec Alignment :=
  b ← read_u8;
  match b with
  | 0 => mret ALeft
  | 1 => mret ACentre
  | 2 => mret ARight
  | _ => Dec_err InvalidValue
  end.

(** Region to clear. *)
Inductive ClearRegion :=
| CScreen
| CToEndOfScreen
| CToEndOfLine
| CLine.

Definition ClearRegion_as_u8 (x : ClearRegion) : Z :=
  match x with
  | CScreen => 0
  | CToEndOfScreen => 1
  | CToEndOfLine => 2
  | CLine => 3
  end.

Definition ClearRegion_encode (x : ClearRegion) (e : Encoder) : Encoder := write_u8 (ClearRegion_as_u8 x) e.

Definition ClearRegion_decode : Dec ClearRegion :=
  b ← read_u8;
  match b with
  | 0 => mret CScreen
  | 1 => mret CToEndOfScreen
  | 2 => mret CToEndOfLine
  | 3 => mret CLine
  | _ => Dec_err InvalidValue
  end.

(** Kinds of input request. *)
Inductive InputKind :=
| KLine
| KPassword
| KChar
| KConfirm
| KChoice
| KRawKeys.

Definition InputKind_as_u8 (x : InputKind) : Z :=
  match x with
  | KLine => 0
  | KPassword => 1
  | KChar => 2
  | KConfirm => 3
  | KChoice => 4
  | KRawKeys => 5
  end.

Definition InputKind_encode (x : InputKind) (e : Encoder) : Encoder := write_u8 (InputKind_as_u8 x) e.

Definition InputKind_decode : Dec InputKind :=
  b ← read_u8;
  match b with
  | 0 => mret KLine
  | 1 => mret KPassword
  | 2 => mret KChar
  | 3 => mret KConfirm
  | 4 => mret KChoice
  | 5 => mret KRawKeys
  | _ => Dec_err InvalidValue
  end.

(** Terminal queries. *)
Inductive TerminalQuery :=
| QSize
| QCapabilities
| QCursorPosition.

Definition TerminalQuery_as_u8 (x : TerminalQuery) : Z :=
  match x with
  | QSize => 0
  | QCapabilities => 1
  | QCursorPosition => 2
  end.

Definition TerminalQuery_encode (x : TerminalQuery) (e : Encoder) : Encoder := write_u8 (TerminalQuery_as_u8 x) e.

Definition TerminalQuery_decode : Dec TerminalQuery :=
  b ← read_u8;
  match b with
  | 0 => mret QSize
  | 1 => mret QCapabilities
  | 2 => mret QCursorPosition
  | _ => Dec_err InvalidValue
  end.

(** Signals from the terminal to the child. *)
Inductive Signal :=
| Interrupt
| Quit
| Suspend.

Definition Signal_as_u8 (x : Signal) : Z :=
  match x with
  | Interrupt => 0
  | Quit => 1
  | Suspend => 2
  end.

Definition Signal_encode (x : Signal) (e : Encoder) : Encoder := write_u8 (Signal_as_u8 x) e.

Definition Signal_decode : Dec Signal :=
  b ← read_u8;
  match b with
  | 0 => mret Interrupt
  | 1 => mret Quit
  | 2 => mret Suspend
  | _ => Dec_err InvalidValue
  end.

(** Colour support level. *)
Inductive ColourSupport :=
| CSNone
| CSBasic
| CSPalette
| CSTrueColour.

Definition ColourSupport_as_u8 (x : ColourSupport) : Z :=
  match x with
  | CSNone => 0
  | CSBasic => 1
  | CSPalette => 2
  | CSTrueColour => 3
  end.

Definition ColourSupport_encode (x : ColourSupport) (e : Encoder) : Encoder := write_u8 (ColourSupport_as_u8 x) e.

Definition ColourSupport_decode : Dec ColourSupport :=
  b ← read_u8;
  match b with
  | 0 => mret CSNone
  | 1 => mret CSBasic
  | 2 => mret CSPalette
  | 3 => mret CSTrueColour
  | _ => Dec_err InvalidValue
  end.


(** ** Composite types *)
Record InputRequest := mkInputRequest {
  ireq_id : Z;
  ireq_kind : InputKind;
  ireq_prompt : option Value;
  ireq_choices : list str;
}.

Definition InputRequest_encode (r : InputRequest) (e : Encoder) : Encoder :=
  vec_encode write_string (ireq_choices r)
    (option_encode Value_encode (ireq_prompt r)
      (InputKind_encode (ireq_kind r)
        (write_u32 (ireq_id r) e))).

Definition InputRequest_decode : Dec InputRequest :=
  id ← read_u32;
  kind ← InputKind_decode;
  prompt ← option_decode Value_decode;
  choices ← vec_decode read_string;
  mret (mkInputRequest id kind prompt choices).

Inductive InputValue :=
| IText (s : str)
| IChar (c : Z)
| IBool (b : bool)
| IChoice (idx : Z).

(** A choice is a [usize], written [as u32]. *)
Definition InputValue_encode (v : InputValue) (e : Encoder) : Encoder :=
  match v with
  | IText s => write_string s (write_u8 0 e)
  | IChar c => write_string (encode_utf8 c) (write_u8 1 e)
  | IBool b => write_bool b (write_u8 2 e)
  | IChoice idx => write_u32 (wrap_u 32 idx) (write_u8 3 e)
  end.

Definition InputValue_decode : Dec InputValue :=
  tag ← read_u8;
  match tag with
  | 0 => s ← read_string; mret (IText s)
  | 1 =>
      s ← read_string;
      c ← Dec_ok_or (chars_next s) InvalidValue;
      mret (IChar c)
  | 2 => b ← read_bool; mret (IBool b)
  | 3 => idx ← read_u32; mret (IChoice idx)
  | _ => Dec_err InvalidValue
  end.

Record InputResponse := mkInputResponse {
  iresp_id : Z;
  iresp_value : option InputValue;
}.

Definition InputResponse_encode (r : InputResponse) (e : Encoder) : Encoder :=
  option_encode InputValue_encode (iresp_value r) (write_u32 (iresp_id r) e).

Definition InputResponse_decode : Dec InputResponse :=
  id ← read_u32;
  value ← option_decode InputValue_decode;
  mret (mkInputResponse id value).

Record KeyModifiers := mkKeyModifiers { shift : bool; ctrl : bool; alt : bool }.

Record KeyEvent := mkKeyEvent {
  key_code : Z;
  key_modifiers : KeyModifiers;
  key_value : Z;
}.

Definition KeyEvent_mods (k : KeyEvent) : Z :=
  Z.lor (Z.lor (if shift (key_modifiers k) then 1 else 0) (if ctrl (key_modifiers k) then 2 else 0))
        (if alt (key_modifiers k) then 4 else 0).

Definition KeyEvent_encode (k : KeyEvent) (e : Encoder) : Encoder :=
  write_u8 (key_value k) (write_u8 (KeyEvent_mods k) (write_u16 (key_code k) e)).

Definition KeyEvent_decode : Dec KeyEvent :=
  code ← read_u16;
  mods ← read_u8;
  value ← read_u8;
  mret (mkKeyEvent code
    (mkKeyModifiers (negb (Z.land mods 1 =? 0)) (negb (Z.land mods 2 =? 0))
                    (negb (Z.land mods 4 =? 0)))
    value).

Record TerminalCapabilities := mkTerminalCapabilities {
  colours : ColourSupport;
  images : bool;
  hyperlinks : bool;
  unicode : bool;
}.

Definition TerminalCapabilities_encode (c : TerminalCapabilities) (e : Encoder) : Encoder :=
  write_bool (unicode c)
    (write_bool (hyperlinks c)
      (write_bool (images c)
        (ColourSupport_encode (colours c) e))).

Definition TerminalCapabilities_decode : Dec TerminalCapabilities :=
  colours ← ColourSupport_decode;
  images ← read_bool;
  hyperlinks ← read_bool;
  unicode ← read_bool;
  mret (mkTerminalCapabilities colours images hyperlinks unicode).

Inductive QueryResponse :=
| QRSize (cols rows : Z)
| QRCapabilities (caps : TerminalCapabilities)
| QRCursorPosition (row col : Z).

Definition QueryResponse_encode (q : QueryResponse) (e : Encoder) : Encoder :=
  match q with
  | QRSize cols rows => write_u16 rows (write_u16 cols (write_u8 0 e))
  | QRCapabilities caps => TerminalCapabilities_encode caps (write_u8 1 e)
  | QRCursorPosition row col => write_u16 col (write_u16 row (write_u8 2 e))
  end.

Definition QueryResponse_decode : Dec QueryResponse :=
  tag ← read_u8;
  match tag with
  | 0 => cols ← read_u16; rows ← read_u16; mret (QRSize cols rows)
  | 1 => caps ← TerminalCapabilities_decode; mret (QRCapabilities caps)
  | 2 => row ← read_u16; col ← read_u16; mret (QRCursorPosition row col)
  | _ => Dec_err InvalidValue
  end.

(** ** Framing

    The tail shared by both [encode_with_header]s: header with a placeholder,
    content, then the real content length. *)
Definition with_header (msg_type : MessageType) (content : Encoder → Encoder) (e : Encoder)
    : outcome DecodeError Encoder :=
  let '(e, len_pos) := write_tlv_header (MessageType_as_u16 msg_type) 0 e in
  let content_start := Encoder_len e in
  let e := content e in
  let content_len := Encoder_len e - content_start in
  update_length len_pos (wrap_u 32 content_len) e.

(** ** Requests *)
Inductive Request :=
| RError (v : Value)
| RWarning (v : Value)
| RMoveCursor (row col : Z)
| RClear (region : ClearRegion)
| RRequestInput (req : InputRequest)
| RSetTitle (title : str)
| RProgress (current total : Z) (message : str)
| RQuery (query : TerminalQuery)
| RExit (code : Z)
| RWrite (v : Value).

Definition Request_type (r : Request) : MessageType :=
  match r with
  | RError _ => MError
  | RWarning _ => MWarning
  | RMoveCursor _ _ => MMoveCursor
  | RClear _ => MClear
  | RRequestInput _ => MRequestInput
  | RSetTitle _ => MSetTitle
  | RProgress _ _ _ => MProgress
  | RQuery _ => MQuery
  | RExit _ => MExit
  | RWrite _ => MWrite
  end.

Definition Request_content (r : Request) (e : Encoder) : Encoder :=
  match r with
  | RError value => Value_encode value e
  | RWarning value => Value_encode value e
  | RMoveCursor row col => write_u16 col (write_u16 row e)
  | RClear region => ClearRegion_encode region e
  | RRequestInput req => InputRequest_encode req e
  | RSetTitle title => write_string title e
  | RProgress current total message =>
      write_string message (write_u32 total (write_u32 current e))
  | RQuery query => TerminalQuery_encode query e
  | RExit code => write_i32 code e
  | RWrite value => Value_encode value e
  end.

Definition Request_encode_with_header (r : Request) (e : Encoder) : outcome DecodeError Encoder :=
  with_header (Request_type r) (Request_content r) e.

(** The dispatch on the message type; the header's length is not used. *)
Definition Request_decode_content (msg_type : Z) : Dec Request :=
  if msg_type =? MessageType_as_u16 MError then v ← Value_decode; mret (RError v)
  else if msg_type =? MessageType_as_u16 MWarning then v ← Value_decode; mret (RWarning v)
  else if msg_type =? MessageType_as_u16 MWrite then v ← Value_decode; mret (RWrite v)
  else if msg_type =? MessageType_as_u16 MMoveCursor then
    row ← read_u16; col ← read_u16; mret (RMoveCursor row col)
  else if msg_type =? MessageType_as_u16 MClear then
    region ← ClearRegion_decode; mret (RClear region)
  else if msg_type =? MessageType_as_u16 MRequestInput then
    req ← InputRequest_decode; mret (RRequestInput req)
  else if msg_type =? MessageType_as_u16 MSetTitle then
    title ← read_string; mret (RSetTitle title)
  else if msg_type =? MessageType_as_u16 MProgress then
    current ← read_u32; total ← read_u32; message ← read_string;
    mret (RProgress current total message)
  else if msg_type =? MessageType_as_u16 MQuery then
    query ← TerminalQuery_decode; mret (RQuery query)
  else if msg_type =? MessageType_as_u16 MExit then
    code ← read_i32; mret (RExit code)
  else Dec_err UnknownType.

Definition Request_decode_with_header : Dec Request :=
  header ← read_tlv_header;
  Request_decode_content header.1.

Definition Request_to_bytes (r : Request) : outcome DecodeError (list Z) :=
  finish <$> Request_encode_with_header r Encoder_new.

Definition Request_from_bytes (bytes : list Z) : outcome DecodeError (Request * Z) :=
  '(msg, d) ← Request_decode_with_header (Decoder_new bytes);
  Ok (msg, position d).

(** ** Events *)
Inductive Event :=
| EInput (resp : InputResponse)
| EKey (key : KeyEvent)
| EResize (cols rows : Z)
| ESignal (sig : Signal)
| EQueryResponse (resp : QueryResponse).

Definition Event_type (v : Event) : MessageType :=
  match v with
  | EInput _ => MInputResponse
  | EKey _ => MKey
  | EResize _ _ => MResize
  | ESignal _ => MSignal
  | EQueryResponse _ => MQueryResponse
  end.

Definition Event_content (v : Event) (e : Encoder) : Encoder :=
  match v with
  | EInput resp => InputResponse_encode resp e
  | EKey key => KeyEvent_encode key e
  | EResize cols rows => write_u16 rows (write_u16 cols e)
  | ESignal sig => Signal_encode sig e
  | EQueryResponse resp => QueryResponse_encode resp e
  end.

Definition Event_encode_with_header (v : Event) (e : Encoder) : outcome DecodeError Encoder :=
  with_header (Event_type v) (Event_content v) e.

(** The dispatch on the message type; the header's length is not used. *)
Definition Event_decode_content (msg_type : Z) : Dec Event :=
  if msg_type =? MessageType_as_u16 MInputResponse then
    resp ← InputResponse_decode; mret (EInput resp)
  else if msg_type =? MessageType_as_u16 MKey then
    key ← KeyEvent_decode; mret (EKey key)
  else if msg_type =? MessageType_as_u16 MResize then
    cols ← read_u16; rows ← read_u16; mret (EResize cols rows)
  else if msg_type =? MessageType_as_u16 MSignal then
    sig ← Signal_decode; mret (ESignal sig)
  else if msg_type =? MessageType_as_u16 MQueryResponse then
    resp ← QueryResponse_decode; mret (EQueryResponse resp)
  else Dec_err UnknownType.

Definition Event_decode_with_header : Dec Event :=
  header ← read_tlv_header;
  Event_decode_content header.1.

Definition Event_to_bytes (v : Event) : outcome DecodeError (list Z) :=
  finish <$> Event_encode_with_header v Encoder_new.

Definition Event_from_bytes (bytes : list Z) : outcome DecodeError (Event * Z) :=
  '(msg, d) ← Event_decode_with_header (Decoder_new bytes);
  Ok (msg, position d).

(** ** Well-formedness *)
Definition wf_input_request (r : InputRequest) : Prop :=
  is_u32 (ireq_id r) ∧ wf_option wf_value (ireq_prompt r) ∧ wf_vec wf_str (ireq_choices r).

(** A choice index has to fit the [u32] it is cast to. *)
Definition wf_input_value (v : InputValue) : Prop :=
  match v with
  | IText s => wf_str s
  | IChar c => is_char c
  | IBool _ => True
  | IChoice idx => is_u32 idx
  end.

Definition wf_input_response (r : InputResponse) : Prop :=
  is_u32 (iresp_id r) ∧ wf_option wf_input_value (iresp_value r).

Definition wf_key_event (k : KeyEvent) : Prop := is_u16 (key_code k) ∧ is_u8 (key_value k).

Definition wf_query_response (q : QueryResponse) : Prop :=
  match q with
  | QRSize a b | QRCursorPosition a b => is_u16 a ∧ is_u16 b
  | QRCapabilities _ => True
  end.

Definition wf_request (r : Request) : Prop :=
  match r with
  | RError v | RWarning v | RWrite v => wf_value v
  | RMoveCursor row col => is_u16 row ∧ is_u16 col
  | RClear _ | RQuery _ => True
  | RRequestInput req => wf_input_request req
  | RSetTitle title => wf_str title
  | RProgress current total message => is_u32 current ∧ is_u32 total ∧ wf_str message
  | RExit code => is_i32 code
  end.

Definition wf_event (v : Event) : Prop :=
  match v with
  | EInput resp => wf_input_response resp
  | EKey key => wf_key_event key
  | EResize cols rows => is_u16 cols ∧ is_u16 rows
  | ESignal _ => True
  | EQueryResponse resp => wf_query_response resp
  end.

(** ** Codecs of the parts *)
Lemma enum_codec {A} (as_u8 : A → Z) (from : Z → Dec A) :
  (∀ a, from (as_u8 a) = mret a) →
  Codec (λ a, write_u8 (as_u8 a)) (b ← read_u8; from b) (λ _, True).
Proof.
  intros H. apply (mk_codec _ _ _ (λ a, [as_u8 a])); [done|].
  intros a n _. by eapply reads_bind_ret; [apply reads_u8|].
Qed.

#[export] Instance alignment_codec : Codec Alignment_encode Alignment_decode (λ _, True).
Proof. apply (enum_codec Alignment_as_u8). by intros []. Qed.
#[export] Instance alignment_safe : DecSafe Alignment_decode (λ _, True).
Proof. intros n. safe_step. safe_cases; done. Qed.
#[export] Instance clearregion_codec : Codec ClearRegion_encode ClearRegion_decode (λ _, True).
Proof. apply (enum_codec ClearRegion_as_u8). by intros []. Qed.
#[export] Instance clearregion_safe : DecSafe ClearRegion_decode (λ _, True).
Proof. intros n. safe_step. safe_cases; done. Qed.
#[export] Instance inputkind_codec : Codec InputKind_encode InputKind_decode (λ _, True).
Proof. apply (enum_codec InputKind_as_u8). by intros []. Qed.
#[export] Instance inputkind_safe : DecSafe InputKind_decode (λ _, True).
Proof. intros n. safe_step. safe_cases; done. Qed.
#[export] Instance terminalquery_codec : Codec TerminalQuery_encode TerminalQuery_decode (λ _, True).
Proof. apply (enum_codec TerminalQuery_as_u8). by intros []. Qed.
#[export] Instance terminalquery_safe : DecSafe TerminalQuery_decode (λ _, True).
Proof. intros n. safe_step. safe_cases; done. Qed.
#[export] Instance signal_codec : Codec Signal_encode Signal_decode (λ _, True).
Proof. apply (enum_codec Signal_as_u8). by intros []. Qed.
#[export] Instance signal_safe : DecSafe Signal_decode (λ _, True).
Proof. intros n. safe_step. safe_cases; done. Qed.
#[export] Instance coloursupport_codec : Codec ColourSupport_encode ColourSupport_decode (λ _, True).
Proof. apply (enum_codec ColourSupport_as_u8). by intros []. Qed.
#[export] Instance coloursupport_safe : DecSafe ColourSupport_decode (λ _, True).
Proof. intros n. safe_step. safe_cases; done. Qed.

(** Rewrite every sub-encoder of a goal into the bytes it appends. *)
Ltac writes_parts :=
  repeat first
    [ rewrite (codec_writes' Value_encode Value_decode wf_value)
    | rewrite (codec_writes' (option_encode Value_encode) (option_decode Value_decode)
                 (wf_option wf_value))
    | rewrite (codec_writes' (vec_encode write_string) (vec_decode read_string) (wf_vec wf_str))
    | rewrite (codec_writes' write_string read_string wf_str)
    | rewrite (codec_writes' write_u32 read_u32 is_u32)
    | rewrite (codec_writes' write_u16 read_u16 is_u16)
    | rewrite (codec_writes' write_i32 read_i32 is_i32)
    | rewrite (codec_writes' InputKind_encode InputKind_decode (λ _, True))
    | rewrite (codec_writes' ColourSupport_encode ColourSupport_decode (λ _, True))
    | rewrite (codec_writes' write_bool read_bool (λ _, True)) ];
  unfold_writes.

#[export] Instance input_request_codec :
  Codec InputRequest_encode InputRequest_decode wf_input_request.
Proof.
  apply (mk_codec _ _ _ (λ r, to_bytes write_u32 (ireq_id r)
    ++ to_bytes InputKind_encode (ireq_kind r)
    ++ to_bytes (option_encode Value_encode) (ireq_prompt r)
    ++ to_bytes (vec_encode write_string) (ireq_choices r))).
  - intros r e. unfold InputRequest_encode. by writes_parts.
  - intros [id kind prompt choices] n (Hid & Hp & Hc). cbn in *.
    unfold InputRequest_decode. by repeat reads_step.
Qed.

#[export] Instance input_request_safe : DecSafe InputRequest_decode wf_input_request.
Proof. intros n. by repeat safe_step. Qed.

Lemma wf_str_char c : is_char c → wf_str (encode_utf8 c).
Proof.
  intros Hc. split; [|pose proof (encode_utf8_len c); lia].
  by rewrite <- (app_nil_r (encode_utf8 c)), utf8_valid_encode.
Qed.

#[export] Instance input_value_codec : Codec InputValue_encode InputValue_decode wf_input_value.
Proof.
  apply (mk_codec _ _ _ (λ v, match v with
    | IText s => [0] ++ to_bytes write_string s
    | IChar c => [1] ++ to_bytes write_string (encode_utf8 c)
    | IBool b => [2] ++ to_bytes write_bool b
    | IChoice idx => [3] ++ to_bytes write_u32 (wrap_u 32 idx) end)).
  - intros [] e; cbn [InputValue_encode]; by writes_parts.
  - intros [s|c|b|idx] n Hv; cbn in Hv; unfold InputValue_decode; reads_step.
    + by reads_step.
    + eapply reads_bind_ret; [apply codec_reads; by apply wf_str_char|].
      rewrite <- (app_nil_r (encode_utf8 c)). by rewrite chars_next_encode.
    + by reads_step.
    + rewrite wrap_u_small by done. by reads_step.
Qed.

#[export] Instance input_value_safe : DecSafe InputValue_decode wf_input_value.
Proof.
  intros n. safe_step. safe_cases; try done. cbn.
  by eapply chars_next_valid; [match goal with H : wf_str _ |- _ => apply H end|].
Qed.

#[export] Instance input_response_codec :
  Codec InputResponse_encode InputResponse_decode wf_input_response.
Proof.
  apply (mk_codec _ _ _ (λ r, to_bytes write_u32 (iresp_id r)
    ++ to_bytes (option_encode InputValue_encode) (iresp_value r))).
  - intros r e. unfold InputResponse_encode.
    rewrite (codec_writes' (option_encode InputValue_encode) (option_decode InputValue_decode)
      (wf_option wf_input_value)). by writes_parts.
  - intros [id v] n [Hid Hv]. cbn in *. unfold InputResponse_decode. by repeat reads_step.
Qed.

#[export] Instance input_response_safe : DecSafe InputResponse_decode wf_input_response.
Proof. intros n. by repeat safe_step. Qed.

Lemma KeyEvent_mods_bits k :
  mkKeyModifiers (negb (Z.land (KeyEvent_mods k) 1 =? 0))
    (negb (Z.land (KeyEvent_mods k) 2 =? 0)) (negb (Z.land (KeyEvent_mods k) 4 =? 0))
  = key_modifiers k.
Proof. by destruct k as [? [[] [] []] ?]. Qed.

#[export] Instance key_event_codec : Codec KeyEvent_encode KeyEvent_decode wf_key_event.
Proof.
  apply (mk_codec _ _ _ (λ k, to_bytes write_u16 (key_code k) ++ [KeyEvent_mods k] ++ [key_value k])).
  - intros k e. unfold KeyEvent_encode. by writes_parts.
  - intros k n [Hc Hv]. unfold KeyEvent_decode. do 2 reads_step.
    eapply reads_bind_ret; [reads_one|]. rewrite KeyEvent_mods_bits. by destruct k.
Qed.

#[export] Instance key_event_safe : DecSafe KeyEvent_decode wf_key_event.
Proof. intros n. by repeat safe_step. Qed.

#[export] Instance capabilities_codec :
  Codec TerminalCapabilities_encode TerminalCapabilities_decode (λ _, True).
Proof.
  apply (mk_codec _ _ _ (λ c, to_bytes ColourSupport_encode (colours c)
    ++ to_bytes write_bool (images c) ++ to_bytes write_bool (hyperlinks c)
    ++ to_bytes write_bool (unicode c))).
  - intros c e. unfold TerminalCapabilities_encode. by writes_parts.
  - intros [c i h u] n _. unfold TerminalCapabilities_decode. cbn. by repeat reads_step.
Qed.

#[export] Instance capabilities_safe : DecSafe TerminalCapabilities_decode (λ _, True).
Proof. intros n. by repeat safe_step. Qed.

#[export] Instance query_response_codec :
  Codec QueryResponse_encode QueryResponse_decode wf_query_response.
Proof.
  apply (mk_codec _ _ _ (λ q, match q with
    | QRSize a b => [0] ++ to_bytes write_u16 a ++ to_bytes write_u16 b
    | QRCapabilities c => [1] ++ to_bytes TerminalCapabilities_encode c
    | QRCursorPosition a b => [2] ++ to_bytes write_u16 a ++ to_bytes write_u16 b end)).
  - intros [] e; cbn [QueryResponse_encode];
      rewrite ?(codec_writes' TerminalCapabilities_encode TerminalCapabilities_decode (λ _, True));
      by writes_parts.
  - intros [] n Hq; unfold QueryResponse_decode; cbn in Hq; destruct_and?; by repeat reads_step.
Qed.

#[export] Instance query_response_safe : DecSafe QueryResponse_decode wf_query_response.
Proof. intros n. safe_step. safe_cases; done. Qed.

(** ** Frames *)

(** The frame of a message: type, length of the content, content. *)
Definition frame (ty : MessageType) (body : list Z) : list Z :=
  to_le_bytes 2 (MessageType_as_u16 ty) ++ to_le_bytes 4 (wrap_u 32 (len body)) ++ body.

Lemma with_header_frame ty content body e :
  (∀ e, content e = extend_from_slice e body) →
  with_header ty content e = Ok (extend_from_slice e (frame ty body)).
Proof.
  intros Hc. unfold with_header, write_tlv_header, update_length. rewrite Hc, !extend_extend.
  unfold Encoder_len, extend_from_slice. cbn [ebuf].
  replace (len (_ ++ _ ++ _ ++ body) - _) with (len body) by len_lia.
  rewrite (app_assoc (ebuf e) _ (_ ++ body)).
  rewrite copy_at_app by (by rewrite !len_to_le_bytes).
  cbn. unfold frame. by rewrite <- app_assoc.
Qed.

Lemma reads_header n ty l :
  is_u32 l →
  reads n read_tlv_header (to_le_bytes 2 (MessageType_as_u16 ty) ++ to_le_bytes 4 l)
    (MessageType_as_u16 ty, l).
Proof.
  intros Hl. unfold read_tlv_header.
  eapply reads_bind; [apply reads_u16; destruct ty; by split|].
  eapply reads_bind_ret; [by apply reads_u32|done].
Qed.

#[export] Instance header_safe : DecSafe read_tlv_header (λ h, is_u16 h.1 ∧ is_u32 h.2).
Proof. intros n. by repeat safe_step. Qed.

(** Reading a frame back, given that the dispatch on the message type reads
    the content. *)
Lemma reads_frame {A} n ty body (v : A) (k : Z → Dec A) :
  (∀ n, reads n (k (MessageType_as_u16 ty)) body v) →
  reads n (header ← read_tlv_header; k header.1) (frame ty body) v.
Proof.
  intros Hk. unfold frame. rewrite app_assoc. eapply reads_bind.
  - apply reads_header. by apply wrap_u_range.
  - apply Hk.
Qed.

Lemma Request_content_writes r e :
  Request_content r e = extend_from_slice e (to_bytes Request_content r).
Proof.
  unfold to_bytes. destruct r; cbn [Request_content];
    rewrite ?(codec_writes' InputRequest_encode InputRequest_decode wf_input_request);
    by writes_parts.
Qed.

Lemma Event_content_writes v e :
  Event_content v e = extend_from_slice e (to_bytes Event_content v).
Proof.
  unfold to_bytes. destruct v; cbn [Event_content];
    rewrite ?(codec_writes' InputResponse_encode InputResponse_decode wf_input_response),
      ?(codec_writes' KeyEvent_encode KeyEvent_decode wf_key_event),
      ?(codec_writes' QueryResponse_encode QueryResponse_decode wf_query_response);
    by writes_parts.
Qed.

(** A content that is one sub-encoder is that encoder's bytes. *)
Ltac content_bytes :=
  unfold to_bytes; cbn [Request_content Event_content];
  lazymatch goal with
  | |- context [finish (?enc ?x Encoder_new)] =>
      change (finish (enc x Encoder_new)) with (to_bytes enc x)
  end;
  eapply reads_bind_ret; [by apply codec_reads|done].

Lemma Request_reads r n :
  wf_request r →
  reads n Request_decode_with_header (frame (Request_type r) (to_bytes Request_content r)) r.
Proof.
  intros Hr. apply (reads_frame n (Request_type r) _ r Request_decode_content). clear n. intros n.
  destruct r; cbn in Hr; destruct_and?; cbn [Request_type];
    unfold Request_decode_content; cbn [MessageType_as_u16 Z.eqb Pos.eqb].
  1,2,4,5,6,8,9,10: content_bytes.
  - rewrite (to_bytes_eq _ _ (to_bytes write_u16 row ++ to_bytes write_u16 col)).
    { by repeat reads_step. }
    intros e. cbn [Request_content]. by writes_parts.
  - rewrite (to_bytes_eq _ _ (to_bytes write_u32 current ++ to_bytes write_u32 total
      ++ to_bytes write_string message)).
    { by repeat reads_step. }
    intros e. cbn [Request_content]. by writes_parts.
Qed.

Lemma Event_reads v n :
  wf_event v →
  reads n Event_decode_with_header (frame (Event_type v) (to_bytes Event_content v)) v.
Proof.
  intros Hv. apply (reads_frame n (Event_type v) _ v Event_decode_content). clear n. intros n.
  destruct v; cbn in Hv; destruct_and?; cbn [Event_type];
    unfold Event_decode_content; cbn [MessageType_as_u16 Z.eqb Pos.eqb].
  1,2,4,5: content_bytes.
  rewrite (to_bytes_eq _ _ (to_bytes write_u16 cols ++ to_bytes write_u16 rows)).
  { by repeat reads_step. }
  intros e. cbn [Event_content]. by writes_parts.
Qed.

#[export] Instance request_safe : DecSafe Request_decode_with_header wf_request.
Proof.
  intros n. safe_step. unfold Request_decode_content. repeat (case_match; [repeat safe_step; done|]). apply safe_err.
Qed.

#[export] Instance event_safe : DecSafe Event_decode_with_header wf_event.
Proof.
  intros n. safe_step. unfold Event_decode_content. repeat (case_match; [repeat safe_step; done|]). apply safe_err.
Qed.

(** Encoding never panics on the length patch: the frame is what is sent. *)
Lemma Request_to_bytes_frame r :
  Request_to_bytes r = Ok (frame (Request_type r) (to_bytes Request_content r)).
Proof.
  unfold Request_to_bytes, Request_encode_with_header.
  by rewrite (with_header_frame _ _ _ _ (Request_content_writes r)).
Qed.

Lemma Event_to_bytes_frame v :
  Event_to_bytes v = Ok (frame (Event_type v) (to_bytes Event_content v)).
Proof.
  unfold Event_to_bytes, Event_encode_with_header.
  by rewrite (with_header_frame _ _ _ _ (Event_content_writes v)).
Qed.

Lemma frame_len ty body : len (frame ty body) = 6 + len body.
Proof. unfold frame. len_lia. Qed.

(** From the decoder's point of view: [from_bytes] on a prefix it reads. *)
Lemma framed_from_bytes {A} (dec : Dec A) bs tl v :
  (∀ n, reads n dec bs v) →
  ('(msg, d) ← dec (Decoder_new (bs ++ tl)); Ok (msg, position d)) = Ok (v, len bs).
Proof.
  intros H. rewrite (H (len (bs ++ tl)) (Decoder_new (bs ++ tl)) tl); [|apply dec_ok_new|done|done].
  done.
Qed.

Lemma framed_safe {A} (dec : Dec A) wf `{!DecSafe dec wf} bs :
  Forall is_u8 bs →
  match '(msg, d) ← dec (Decoder_new bs); Ok (msg, position d) with
  | Ok (v, n) => wf v ∧ 0 <= n <= len bs
  | Err _ => True
  | Panic | OutOfFuel => False
  end.
Proof.
  intros Hb.
  pose proof (dec_safe (len bs) (Decoder_new bs) (dec_ok_new bs) Hb ltac:(done)) as H.
  destruct (dec (Decoder_new bs)) as [[v d]|e| |]; [|done..]. cbn in *.
  destruct H as (? & _ & ?). split; [done|]. unfold position. lia.
Qed.

(** ** Properties *)

(** Every well-formed request is sent as one TLV frame whose length field
    is the length of its content, and the receiver decodes the same request
    from it and consumes exactly the frame, whatever follows in the buffer. *)
Theorem request_roundtrip (r : Request) (tl : list Z) :
  wf_request r →
  ∃ body, Request_to_bytes r = Ok (frame (Request_type r) body) ∧
    Request_from_bytes (frame (Request_type r) body ++ tl) = Ok (r, 6 + len body).
Proof.
  intros Hr. exists (to_bytes Request_content r). split; [apply Request_to_bytes_frame|].
  unfold Request_from_bytes. rewrite <- (frame_len (Request_type r)).
  apply framed_from_bytes. intros n. by apply Request_reads.
Qed.

Lemma request_roundtrip_witness :
  let r := RProgress 3 10 [104; 105] in
  ∃ body, Request_to_bytes r = Ok (frame (Request_type r) body) ∧
    Request_from_bytes (frame (Request_type r) body ++ [1; 2]) = Ok (r, 6 + len body).
Proof. apply (request_roundtrip (RProgress 3 10 [104; 105])). by repeat split. Defined.

(** The same for events: input responses (a [char] goes through UTF-8),
    key events, resizes, signals and query responses. *)
Theorem event_roundtrip (v : Event) (tl : list Z) :
  wf_event v →
  ∃ body, Event_to_bytes v = Ok (frame (Event_type v) body) ∧
    Event_from_bytes (frame (Event_type v) body ++ tl) = Ok (v, 6 + len body).
Proof.
  intros Hv. exists (to_bytes Event_content v). split; [apply Event_to_bytes_frame|].
  unfold Event_from_bytes. rewrite <- (frame_len (Event_type v)).
  apply framed_from_bytes. intros n. by apply Event_reads.
Qed.

Lemma event_roundtrip_witness :
  let v := EInput (mkInputResponse 9 (Some (IChar 0x1F43C))) in
  ∃ body, Event_to_bytes v = Ok (frame (Event_type v) body) ∧
    Event_from_bytes (frame (Event_type v) body ++ [0]) = Ok (v, 6 + len body).
Proof.
  apply (event_roundtrip (EInput (mkInputResponse 9 (Some (IChar 0x1F43C))))).
  split; [by split|]. right. by split.
Defined.

(** Decoding arbitrary bytes as a request or as an event ends without a
    panic: in an error, or in a well-formed message with a byte count inside
    the buffer. *)
Theorem terminal_decode_untrusted (bs : list Z) :
  Forall is_u8 bs →
  match Request_from_bytes bs with
  | Ok (r, n) => wf_request r ∧ 0 <= n <= len bs
  | Err _ => True
  | Panic | OutOfFuel => False
  end ∧
  match Event_from_bytes bs with
  | Ok (v, n) => wf_event v ∧ 0 <= n <= len bs
  | Err _ => True
  | Panic | OutOfFuel => False
  end.
Proof.
  intros Hb. split.
  - exact (framed_safe Request_decode_with_header wf_request bs Hb).
  - exact (framed_safe Event_decode_with_header wf_event bs Hb).
Qed.

Lemma terminal_decode_untrusted_witness :
  match Request_from_bytes [5; 0; 3; 0; 0; 0; 1; 0; 104] with
  | Ok (r, n) => wf_request r ∧ 0 <= n <= 9
  | Err _ => True
  | Panic | OutOfFuel => False
  end ∧
  match Event_from_bytes [5; 0; 3; 0; 0; 0; 1; 0; 104] with
  | Ok (v, n) => wf_event v ∧ 0 <= n <= 9
  | Err _ => True
  | Panic | OutOfFuel => False
  end.
Proof.
  apply (terminal_decode_untrusted [5; 0; 3; 0; 0; 0; 1; 0; 104]). repeat constructor; done.
Defined.
