(* ===== verification/Abi.v ===== *)
(** * The syscall ABI ([panda-abi/src/lib.rs])

    The constants, tags, flags and codes the kernel and the userspace library
    share: operation codes, tagged handles, event flags with the packed key
    events, and error codes with their [isize] form. *)

From S2P Require Import Prelude.

(** ** Limits *)
Definition MAX_MESSAGE_SIZE : Z := 4096.
Definition MAX_FILE_IO_SIZE : Z := 1024 * 1024.
Definition MAX_BUFFER_SIZE : Z := 16 * 1024 * 1024.
Definition DEFAULT_QUEUE_CAPACITY : Z := 16.
Definition MAX_MAILBOX_EVENTS : Z := 256.
Definition DIRENT_NAME_MAX : Z := 255.

(** ** Handle types and tagged handles *)
Inductive HandleType :=
| HTInvalid | HTFile | HTDirectory | HTChannel
| HTProcess | HTMailbox | HTBuffer | HTDisplay
| HTDeviceSubscription.

#[export] Instance HandleType_eq_dec : EqDecision HandleType.
Proof. solve_decision. Defined.

Definition HandleType_as_u8 (t : HandleType) : Z :=
  match t with
  | HTInvalid => 0x00
  | HTFile => 0x01
  | HTDirectory => 0x02
  | HTChannel => 0x10
  | HTProcess => 0x11
  | HTMailbox => 0x20
  | HTBuffer => 0x31
  | HTDisplay => 0x32
  | HTDeviceSubscription => 0x40
  end.

Definition ID_BITS : Z := 56.
Definition ID_MASK : Z := 2 ^ ID_BITS - 1.
Definition MAX_ID : Z := ID_MASK.

(** [((self as u64) << 56) | (id & ID_MASK)]. *)
Definition make_handle (t : HandleType) (id : Z) : Z :=
  Z.lor (wrap_u 64 (Z.shiftl (HandleType_as_u8 t) ID_BITS)) (Z.land id ID_MASK).
Definition from_handle (handle : Z) : Z := wrap_u 8 (Z.shiftr handle ID_BITS).
Definition id_from_handle (handle : Z) : Z := Z.land handle ID_MASK.

Definition from_tag (tag : Z) : option HandleType :=
  match tag with
  | 0x00 => Some HTInvalid
  | 0x01 => Some HTFile
  | 0x02 => Some HTDirectory
  | 0x10 => Some HTChannel
  | 0x11 => Some HTProcess
  | 0x20 => Some HTMailbox
  | 0x31 => Some HTBuffer
  | 0x32 => Some HTDisplay
  | 0x40 => Some HTDeviceSubscription
  | _ => None
  end.

Definition is_compatible_with (self expected : HandleType) : bool :=
  if HandleType_as_u8 self =? HandleType_as_u8 expected then true
  else if (HandleType_as_u8 self =? HandleType_as_u8 HTProcess)
          && (HandleType_as_u8 expected =? HandleType_as_u8 HTChannel) then true
  else false.

(** ** Well-known handles *)
Definition HANDLE_STDIN : Z := make_handle HTChannel 0.
Definition HANDLE_STDOUT : Z := make_handle HTChannel 1.
Definition HANDLE_STDERR : Z := make_handle HTChannel 2.
Definition HANDLE_PROCESS : Z := make_handle HTProcess 3.
Definition HANDLE_ENVIRONMENT : Z := 4.
Definition HANDLE_MAILBOX : Z := make_handle HTMailbox 5.
Definition HANDLE_PARENT : Z := make_handle HTChannel 6.

(** ** Operation codes *)
Inductive Operation :=
| FileRead | FileWrite | FileSeek
| FileStat | FileClose | FileReaddir
| ProcessYield | ProcessExit | ProcessGetPid
| ProcessWait | ProcessSignal | ProcessBrk
| ProcessSleep | EnvironmentOpen | EnvironmentSpawn
| EnvironmentLog | EnvironmentTime | EnvironmentOpendir
| EnvironmentMount | EnvironmentConnect | DirectoryCreateFile
| DirectoryUnlinkFile | DirectoryMkdir | DirectoryRmdir
| BufferAlloc | BufferMap | BufferResize
| BufferFree | FileReadBuffer | FileWriteBuffer
| DisplayInfo | DisplayMap | DisplayFlush
| MailboxCreate | MailboxWait | MailboxPoll
| ChannelCreate | ChannelSend | ChannelRecv
| SchemeRegister.

Definition Operation_as_u32 (op : Operation) : Z :=
  match op with
  | FileRead => 0x10000
  | FileWrite => 0x10001
  | FileSeek => 0x10002
  | FileStat => 0x10003
  | FileClose => 0x10004
  | FileReaddir => 0x10005
  | ProcessYield => 0x20000
  | ProcessExit => 0x20001
  | ProcessGetPid => 0x20002
  | ProcessWait => 0x20003
  | ProcessSignal => 0x20004
  | ProcessBrk => 0x20005
  | ProcessSleep => 0x20006
  | EnvironmentOpen => 0x30000
  | EnvironmentSpawn => 0x30001
  | EnvironmentLog => 0x30002
  | EnvironmentTime => 0x30003
  | EnvironmentOpendir => 0x30004
  | EnvironmentMount => 0x30005
  | EnvironmentConnect => 0x30006
  | DirectoryCreateFile => 0x80000
  | DirectoryUnlinkFile => 0x80001
  | DirectoryMkdir => 0x80002
  | DirectoryRmdir => 0x80003
  | BufferAlloc => 0x40000
  | BufferMap => 0x40001
  | BufferResize => 0x40002
  | BufferFree => 0x40003
  | FileReadBuffer => 0x50000
  | FileWriteBuffer => 0x50001
  | DisplayInfo => 0x61000
  | DisplayMap => 0x61001
  | DisplayFlush => 0x61002
  | MailboxCreate => 0x70000
  | MailboxWait => 0x70001
  | MailboxPoll => 0x70002
  | ChannelCreate => 0x71000
  | ChannelSend => 0x71001
  | ChannelRecv => 0x71002
  | SchemeRegister => 0x90000
  end.

Definition Operation_from_u32 (value : Z) : option Operation :=
  match value with
  | 0x10000 => Some FileRead
  | 0x10001 => Some FileWrite
  | 0x10002 => Some FileSeek
  | 0x10003 => Some FileStat
  | 0x10004 => Some FileClose
  | 0x10005 => Some FileReaddir
  | 0x20000 => Some ProcessYield
  | 0x20001 => Some ProcessExit
  | 0x20002 => Some ProcessGetPid
  | 0x20003 => Some ProcessWait
  | 0x20004 => Some ProcessSignal
  | 0x20005 => Some ProcessBrk
  | 0x20006 => Some ProcessSleep
  | 0x30000 => Some EnvironmentOpen
  | 0x30001 => Some EnvironmentSpawn
  | 0x30002 => Some EnvironmentLog
  | 0x30003 => Some EnvironmentTime
  | 0x30004 => Some EnvironmentOpendir
  | 0x30005 => Some EnvironmentMount
  | 0x30006 => Some EnvironmentConnect
  | 0x80000 => Some DirectoryCreateFile
  | 0x80001 => Some DirectoryUnlinkFile
  | 0x80002 => Some DirectoryMkdir
  | 0x80003 => Some DirectoryRmdir
  | 0x40000 => Some BufferAlloc
  | 0x40001 => Some BufferMap
  | 0x40002 => Some BufferResize
  | 0x40003 => Some BufferFree
  | 0x50000 => Some FileReadBuffer
  | 0x50001 => Some FileWriteBuffer
  | 0x61000 => Some DisplayInfo
  | 0x61001 => Some DisplayMap
  | 0x61002 => Some DisplayFlush
  | 0x70000 => Some MailboxCreate
  | 0x70001 => Some MailboxWait
  | 0x70002 => Some MailboxPoll
  | 0x71000 => Some ChannelCreate
  | 0x71001 => Some ChannelSend
  | 0x71002 => Some ChannelRecv
  | 0x90000 => Some SchemeRegister
  | _ => None
  end.

(** ** Seek origins *)
Inductive SeekFrom := SeekStart | SeekCurrent | SeekEnd.
Definition SeekFrom_as_u32 (s : SeekFrom) : Z :=
  match s with SeekStart => 0 | SeekCurrent => 1 | SeekEnd => 2 end.
Definition SeekFrom_from_u32 (value : Z) : option SeekFrom :=
  match value with
  | 0 => Some SeekStart
  | 1 => Some SeekCurrent
  | 2 => Some SeekEnd
  | _ => None
  end.

(** ** Event flags *)
Definition EVENT_CHANNEL_READABLE : Z := Z.shiftl 1 0.
Definition EVENT_CHANNEL_WRITABLE : Z := Z.shiftl 1 1.
Definition EVENT_CHANNEL_CLOSED : Z := Z.shiftl 1 2.
Definition EVENT_PROCESS_EXITED : Z := Z.shiftl 1 3.
Definition EVENT_KEYBOARD_KEY : Z := Z.shiftl 1 4.
Definition EVENT_DISPLAY_CHANGED : Z := Z.shiftl 1 5.

(** [EventFlags::contains] and [contains_all]. *)
Definition flags_contains (self other : Z) : bool := negb (Z.land self other =? 0).
Definition flags_contains_all (self other : Z) : bool := Z.land self other =? other.

Definition CHANNEL_NONBLOCK : Z := Z.shiftl 1 0.
Definition is_nonblock (flags : Z) : bool := negb (Z.land flags CHANNEL_NONBLOCK =? 0).

Definition EVENT_KEY_CODE_SHIFT : Z := 8.
Definition EVENT_KEY_CODE_MASK : Z := 0xFFFF.
Definition EVENT_KEY_VALUE_SHIFT : Z := 24.
Definition EVENT_KEY_VALUE_MASK : Z := 0x3.

Definition encode_key_event (code value : Z) : Z :=
  Z.lor (Z.lor EVENT_KEYBOARD_KEY (wrap_u 32 (Z.shiftl code EVENT_KEY_CODE_SHIFT)))
        (wrap_u 32 (Z.shiftl (Z.land value EVENT_KEY_VALUE_MASK) EVENT_KEY_VALUE_SHIFT)).
Definition decode_key_code (flags : Z) : Z :=
  wrap_u 16 (Z.land (Z.shiftr flags EVENT_KEY_CODE_SHIFT) EVENT_KEY_CODE_MASK).
Definition decode_key_value (flags : Z) : Z :=
  wrap_u 8 (Z.land (Z.shiftr flags EVENT_KEY_VALUE_SHIFT) EVENT_KEY_VALUE_MASK).

(** ** Error codes *)
Inductive ErrorCode :=
| EOk | ENotFound | EInvalidOffset | ENotReadable
| ENotWritable | ENotSeekable | ENotSupported | EPermissionDenied
| EIoError | EWouldBlock | EInvalidArgument | EProtocol
| EInvalidHandle | ETooManyHandles | EChannelClosed | EMessageTooLarge
| EBufferTooSmall | EAlreadyExists | ENoSpace | ENotEmpty
| EIsDirectory | ENotDirectory | EBusy.

#[export] Instance ErrorCode_eq_dec : EqDecision ErrorCode.
Proof. solve_decision. Defined.

Definition ErrorCode_as_u32 (e : ErrorCode) : Z :=
  match e with
  | EOk => 0
  | ENotFound => 1
  | EInvalidOffset => 2
  | ENotReadable => 3
  | ENotWritable => 4
  | ENotSeekable => 5
  | ENotSupported => 6
  | EPermissionDenied => 7
  | EIoError => 8
  | EWouldBlock => 9
  | EInvalidArgument => 10
  | EProtocol => 11
  | EInvalidHandle => 12
  | ETooManyHandles => 13
  | EChannelClosed => 14
  | EMessageTooLarge => 15
  | EBufferTooSmall => 16
  | EAlreadyExists => 17
  | ENoSpace => 18
  | ENotEmpty => 19
  | EIsDirectory => 20
  | ENotDirectory => 21
  | EBusy => 22
  end.

Definition to_isize (e : ErrorCode) : Z := - ErrorCode_as_u32 e.

(** [(-value) as u32], then the table. *)
Definition from_isize (value : Z) : option ErrorCode :=
  match wrap_u 32 (- value) with
  | 0 => Some EOk
  | 1 => Some ENotFound
  | 2 => Some EInvalidOffset
  | 3 => Some ENotReadable
  | 4 => Some ENotWritable
  | 5 => Some ENotSeekable
  | 6 => Some ENotSupported
  | 7 => Some EPermissionDenied
  | 8 => Some EIoError
  | 9 => Some EWouldBlock
  | 10 => Some EInvalidArgument
  | 11 => Some EProtocol
  | 12 => Some EInvalidHandle
  | 13 => Some ETooManyHandles
  | 14 => Some EChannelClosed
  | 15 => Some EMessageTooLarge
  | 16 => Some EBufferTooSmall
  | 17 => Some EAlreadyExists
  | 18 => Some ENoSpace
  | 19 => Some ENotEmpty
  | 20 => Some EIsDirectory
  | 21 => Some ENotDirectory
  | 22 => Some EBusy
  | _ => None
  end.

(** ** Lemmas *)

Lemma HandleType_u8 t : 0 <= HandleType_as_u8 t <= 0x40.
Proof. by destruct t. Qed.

Lemma make_handle_eq t id :
  make_handle t id = HandleType_as_u8 t * 2 ^ 56 + id mod 2 ^ 56.
Proof.
  pose proof (HandleType_u8 t). pose proof (Z.mod_pos_bound id (2 ^ 56)) as Hid.
  unfold make_handle, ID_MASK, ID_BITS. rewrite land_mask by lia.
  rewrite wrap_u_small.
  - apply lor_shiftl_add; [lia|]. apply Hid. lia.
  - rewrite Z.shiftl_mul_pow2 by lia. rng.
Qed.

Lemma make_handle_parts t id :
  from_handle (make_handle t id) = HandleType_as_u8 t ∧
  id_from_handle (make_handle t id) = id mod 2 ^ 56.
Proof.
  pose proof (HandleType_u8 t). pose proof (Z.mod_pos_bound id (2 ^ 56) ltac:(lia)) as Hid.
  unfold from_handle, id_from_handle, ID_MASK, ID_BITS.
  rewrite land_mask, Z.shiftr_div_pow2, make_handle_eq by lia.
  rewrite Z.add_comm, Z.div_add, (Z.div_small (id mod _)), Z.add_0_l by lia.
  rewrite Z_mod_plus_full, Z.mod_mod by lia.
  rewrite wrap_u_small by rng. done.
Qed.

Lemma from_tag_as_u8 t : from_tag (HandleType_as_u8 t) = Some t.
Proof. by destruct t. Qed.

Lemma encode_key_event_eq code value :
  is_u16 code →
  encode_key_event code value = (value mod 4) * 2 ^ 24 + code * 2 ^ 8 + 16.
Proof.
  intros Hc. unfold in_u in Hc. pose proof (Z.mod_pos_bound value 4 ltac:(lia)) as Hv.
  unfold encode_key_event, EVENT_KEYBOARD_KEY, EVENT_KEY_CODE_SHIFT, EVENT_KEY_VALUE_SHIFT,
    EVENT_KEY_VALUE_MASK.
  change 3 with (2 ^ 2 - 1). rewrite land_mask by lia. change (2 ^ 2) with 4.
  rewrite !wrap_u_small by (rewrite Z.shiftl_mul_pow2 by lia; rng).
  change (Z.shiftl 1 4) with 16. rewrite (Z.lor_comm 16).
  rewrite (lor_shiftl_add code 16 8) by lia.
  rewrite Z.lor_comm, lor_shiftl_add by rng. lia.
Qed.

Lemma decode_encode_key_code code value :
  is_u16 code → decode_key_code (encode_key_event code value) = code.
Proof.
  intros Hc. rewrite encode_key_event_eq by done. unfold in_u in *.
  pose proof (Z.mod_pos_bound value 4 ltac:(lia)) as Hv. set (v := value mod 4) in *.
  unfold decode_key_code, EVENT_KEY_CODE_SHIFT, EVENT_KEY_CODE_MASK.
  change 0xFFFF with (2 ^ 16 - 1). rewrite !land_mask, !Z.shiftr_div_pow2 by lia. unfold wrap_u.
  pow2. Z.to_euclidean_division_equations. lia.
Qed.

(** ** Properties *)

(** A tagged handle carries its type and its id: the type tag and the
    56-bit id are both recovered from it, distinct (type, id) pairs give
    distinct handles, and, every tag being below 0x80, a handle returned as an
    [isize] is never read as a negative error code. *)
Theorem handle_tag_roundtrip (t : HandleType) (id : Z) :
  0 <= id <= MAX_ID →
  from_tag (from_handle (make_handle t id)) = Some t ∧
  id_from_handle (make_handle t id) = id ∧
  0 <= make_handle t id < 2 ^ 63 ∧
  ∀ t' id', 0 <= id' <= MAX_ID → make_handle t' id' = make_handle t id → t' = t ∧ id' = id.
Proof.
  unfold MAX_ID, ID_MASK, ID_BITS. intros Hid.
  destruct (make_handle_parts t id) as [H1 H2]. rewrite Z.mod_small in H2 by lia.
  split_and!; [by rewrite H1, from_tag_as_u8|done|..].
  - pose proof (HandleType_u8 t). rewrite make_handle_eq, Z.mod_small by lia. lia.
  - pose proof (HandleType_u8 t). rewrite make_handle_eq, Z.mod_small by lia. lia.
  - intros t' id' Hid' Heq. destruct (make_handle_parts t' id') as [H1' H2'].
    rewrite Z.mod_small in H2' by lia. rewrite Heq in H1', H2'. split; [|congruence].
    enough (Some t' = Some t) by congruence.
    rewrite <- !from_tag_as_u8. congruence.
Qed.

Lemma handle_tag_roundtrip_witness :
  from_tag (from_handle (make_handle HTBuffer 7)) = Some HTBuffer ∧
  id_from_handle (make_handle HTBuffer 7) = 7 ∧
  0 <= make_handle HTBuffer 7 < 2 ^ 63 ∧
  ∀ t' id', 0 <= id' <= MAX_ID → make_handle t' id' = make_handle HTBuffer 7 →
    t' = HTBuffer ∧ id' = 7.
Proof. apply handle_tag_roundtrip. by vm_compute. Defined.

(** A packed keyboard event gives back its key code and the low two bits
    of its value, and always carries the keyboard flag. *)
Theorem key_event_roundtrip (code value : Z) :
  is_u16 code →
  decode_key_code (encode_key_event code value) = code ∧
  decode_key_value (encode_key_event code value) = value mod 4 ∧
  flags_contains (encode_key_event code value) EVENT_KEYBOARD_KEY = true ∧
  is_u32 (encode_key_event code value).
Proof.
  intros Hc. split; [by apply decode_encode_key_code|].
  rewrite encode_key_event_eq by done. unfold in_u in *.
  pose proof (Z.mod_pos_bound value 4 ltac:(lia)) as Hv. set (v := value mod 4) in *.
  unfold decode_key_value, flags_contains, EVENT_KEY_VALUE_SHIFT, EVENT_KEY_VALUE_MASK,
    EVENT_KEYBOARD_KEY.
  change 3 with (2 ^ 2 - 1).
  rewrite !land_mask, !Z.shiftr_div_pow2 by lia. unfold wrap_u. split_and!.
  - pow2. Z.to_euclidean_division_equations. lia.
  - apply negb_true_iff, Z.eqb_neq. intros H0.
    apply (f_equal (λ z, Z.testbit z 4)) in H0. rewrite Z.land_spec, Z.bits_0 in H0.
    change (Z.testbit (Z.shiftl 1 4) 4) with true in H0. rewrite andb_true_r in H0.
    rewrite Z.testbit_odd, Z.shiftr_div_pow2 in H0 by lia.
    assert ((v * 2 ^ 24 + code * 2 ^ 8 + 16) / 2 ^ 4 = 2 * (v * 2 ^ 19 + code * 2 ^ 3) + 1) as Hd
      by (pow2; Z.to_euclidean_division_equations; lia).
    rewrite Hd, Z.odd_odd in H0. done.
  - pow2. lia.
  - pow2. lia.
Qed.

Lemma key_event_roundtrip_witness :
  decode_key_code (encode_key_event 30 1) = 30 ∧
  decode_key_value (encode_key_event 30 1) = 1 mod 4 ∧
  flags_contains (encode_key_event 30 1) EVENT_KEYBOARD_KEY = true ∧
  is_u32 (encode_key_event 30 1).
Proof. apply key_event_roundtrip. by split. Defined.

(** Operation and error codes are unambiguous: [from_u32] inverts
    [as_u32] on every operation, [from_isize] inverts [to_isize] on every error
    code, every error but [Ok] is a negative return value, and no code outside
    the operation table is accepted. *)
Theorem codes_roundtrip :
  (∀ op, Operation_from_u32 (Operation_as_u32 op) = Some op) ∧
  (∀ v op, Operation_from_u32 v = Some op → v = Operation_as_u32 op) ∧
  (∀ e, from_isize (to_isize e) = Some e) ∧
  (∀ e, e ≠ EOk → to_isize e < 0).
Proof.
  split_and!.
  - by intros [].
  - intros v op. unfold Operation_from_u32. repeat case_match; intros [= <-]; done.
  - by intros [].
  - by intros [].
Qed.
