(* ===== verification/SchemeProtocol.v ===== *)
(** * The wire protocol of userspace scheme providers
      ([panda-abi/src/scheme_protocol.rs])

    Requests are written into a buffer of the caller, so an encoder is a
    computation on the buffer ([BufM]): a [None] return keeps the writes made
    before it, an index out of range panics.  Decoders return [Option], here
    [outcome unit], whose [Err tt] is [None]. *)

From S2P Require Import Prelude Utf8 Buffers Abi.

(** ** Constants *)
Definition MSG_OPEN : Z := 1.
Definition MSG_READDIR : Z := 2.
Definition MSG_READ : Z := 3.
Definition MSG_WRITE : Z := 4.
Definition MSG_CLOSE : Z := 5.
Definition MSG_CONNECT : Z := 6.
Definition STATUS_OK : Z := 0.
Definition STATUS_ERR : Z := 1.
Definition HEADER_LEN : Z := 9.
Definition RESP_HEADER_LEN : Z := HEADER_LEN + 1.
Definition MAX_TRANSFER_SIZE : Z := MAX_MESSAGE_SIZE - 96.

Definition error_to_u8 (err : ErrorCode) : Z := wrap_u 8 (ErrorCode_as_u32 err).

Definition u8_to_error (byte : Z) : ErrorCode :=
  match byte with
  | 1 => ENotFound
  | 2 => EInvalidOffset
  | 3 => ENotReadable
  | 4 => ENotWritable
  | 5 => ENotSeekable
  | 6 => ENotSupported
  | 7 => EPermissionDenied
  | 9 => EWouldBlock
  | 10 => EInvalidArgument
  | 11 => EProtocol
  | 12 => EInvalidHandle
  | 13 => ETooManyHandles
  | 14 => EChannelClosed
  | 15 => EMessageTooLarge
  | 16 => EBufferTooSmall
  | 17 => EAlreadyExists
  | 18 => ENoSpace
  | 19 => ENotEmpty
  | 20 => EIsDirectory
  | 21 => ENotDirectory
  | 22 => EBusy
  | _ => EIoError
  end.

(** ** Requests *)
Inductive SchemeRequest :=
| SOpen (request_id : Z) (path : str)
| SReaddir (request_id : Z) (path : str)
| SRead (request_id resource_id len : Z)
| SWrite (request_id resource_id : Z) (data : list Z)
| SClose (request_id resource_id : Z)
| SConnect (request_id : Z) (path : str).

#[export] Instance SchemeRequest_eq_dec : EqDecision SchemeRequest.
Proof. solve_decision. Defined.

Definition SchemeRequest_request_id (r : SchemeRequest) : Z :=
  match r with
  | SOpen request_id _ | SReaddir request_id _ | SRead request_id _ _
  | SWrite request_id _ _ | SClose request_id _ | SConnect request_id _ => request_id
  end.

(** The arm shared by [Open], [Readdir] and [Connect]. *)
Definition encode_path_request (kind request_id : Z) (path : str) : BufM Z :=
  let total := HEADER_LEN + 2 + len path in
  n ← buf_len;
  if decide (total > n ∨ len path > 0xFFFF) then none else
  store 0 [kind];;
  store 1 (to_le_bytes 8 request_id);;
  store 9 (to_le_bytes 2 (wrap_u 16 (len path)));;
  store 11 path;;
  mret total.

Definition SchemeRequest_encode (r : SchemeRequest) : BufM Z :=
  match r with
  | SOpen request_id path => encode_path_request MSG_OPEN request_id path
  | SReaddir request_id path => encode_path_request MSG_READDIR request_id path
  | SConnect request_id path => encode_path_request MSG_CONNECT request_id path
  | SRead request_id resource_id l =>
      let total := HEADER_LEN + 8 + 4 in
      n ← buf_len;
      if decide (total > n) then none else
      store 0 [MSG_READ];;
      store 1 (to_le_bytes 8 request_id);;
      store 9 (to_le_bytes 8 resource_id);;
      store 17 (to_le_bytes 4 l);;
      mret total
  | SWrite request_id resource_id data =>
      let total := HEADER_LEN + 8 + 4 + len data in
      n ← buf_len;
      if decide (total > n) then none else
      store 0 [MSG_WRITE];;
      store 1 (to_le_bytes 8 request_id);;
      store 9 (to_le_bytes 8 resource_id);;
      store 17 (to_le_bytes 4 (wrap_u 32 (len data)));;
      store 21 data;;
      mret total
  | SClose request_id resource_id =>
      let total := HEADER_LEN + 8 in
      n ← buf_len;
      if decide (total > n) then none else
      store 0 [MSG_CLOSE];;
      store 1 (to_le_bytes 8 request_id);;
      store 9 (to_le_bytes 8 resource_id);;
      mret total
  end.

(** The fields that decoders read: [buf.get(..)?] and [buf[a..b]]. *)
Definition get (buf : list Z) (a b : Z) : outcome () (list Z) := ok_or (get_range buf a b) tt.
Definition read_le (buf : list Z) (a b : Z) : outcome () Z :=
  from_le_bytes <$> slice buf a b.
Definition get_le (buf : list Z) (a b : Z) : outcome () Z :=
  from_le_bytes <$> get buf a b.
(** [core::str::from_utf8(s).ok()?]. *)
Definition as_str (s : list Z) : outcome () str :=
  if utf8_valid s then Ok s else Err tt.

Definition SchemeRequest_decode (buf : list Z) : outcome () SchemeRequest :=
  if decide (len buf < HEADER_LEN) then Err tt else
  kind ← index buf 0;
  request_id ← read_le buf 1 9;
  if decide (kind = MSG_OPEN ∨ kind = MSG_READDIR ∨ kind = MSG_CONNECT) then
    if decide (len buf < 11) then Err tt else
    path_len ← read_le buf 9 11;
    stop ← ok_or (checked_add 11 path_len) tt;
    bytes ← get buf 11 stop;
    path ← as_str bytes;
    Ok (if decide (kind = MSG_OPEN) then SOpen request_id path
        else if decide (kind = MSG_READDIR) then SReaddir request_id path
        else SConnect request_id path)
  else if decide (kind = MSG_READ) then
    if decide (len buf < 21) then Err tt else
    resource_id ← read_le buf 9 17;
    l ← read_le buf 17 21;
    Ok (SRead request_id resource_id l)
  else if decide (kind = MSG_WRITE) then
    if decide (len buf < 21) then Err tt else
    resource_id ← read_le buf 9 17;
    data_len ← read_le buf 17 21;
    stop ← ok_or (checked_add 21 data_len) tt;
    data ← get buf 21 stop;
    Ok (SWrite request_id resource_id data)
  else if decide (kind = MSG_CLOSE) then
    if decide (len buf < 17) then Err tt else
    resource_id ← read_le buf 9 17;
    Ok (SClose request_id resource_id)
  else Err tt.

(** ** Responses *)
Record ReaddirEntry := { entry_name : str; entry_is_dir : bool }.

#[export] Instance ReaddirEntry_eq_dec : EqDecision ReaddirEntry.
Proof. solve_decision. Defined.

Inductive SchemeResponse :=
| OpenOk (request_id resource_id : Z)
| OpenErr (request_id : Z) (error : ErrorCode)
| ReaddirOk (request_id : Z) (raw : list Z)
| ReaddirErr (request_id : Z) (error : ErrorCode)
| ReadOk (request_id : Z) (data : list Z)
| ReadErr (request_id : Z) (error : ErrorCode)
| WriteOk (request_id written : Z)
| WriteErr (request_id : Z) (error : ErrorCode)
| CloseOk (request_id : Z)
| CloseErr (request_id : Z) (error : ErrorCode)
| ConnectOk (request_id : Z)
| ConnectErr (request_id : Z) (error : ErrorCode).

#[export] Instance SchemeResponse_eq_dec : EqDecision SchemeResponse.
Proof. solve_decision. Defined.

Definition SchemeResponse_request_id (r : SchemeResponse) : Z :=
  match r with
  | OpenOk request_id _ | OpenErr request_id _ | ReaddirOk request_id _
  | ReaddirErr request_id _ | ReadOk request_id _ | ReadErr request_id _
  | WriteOk request_id _ | WriteErr request_id _ | CloseOk request_id
  | CloseErr request_id _ | ConnectOk request_id | ConnectErr request_id _ => request_id
  end.

Definition response_header (kind request_id status : Z) : BufM () :=
  n ← buf_len;
  if decide (n < RESP_HEADER_LEN) then none else
  store 0 [kind];;
  store 1 (to_le_bytes 8 request_id);;
  store 9 [status].

Definition encode_open_ok (request_id resource_id : Z) : BufM Z :=
  let total := RESP_HEADER_LEN + 8 in
  n ← buf_len;
  if decide (total > n) then none else
  response_header MSG_OPEN request_id STATUS_OK;;
  store 10 (to_le_bytes 8 resource_id);;
  mret total.

Definition encode_err (kind request_id : Z) (error : ErrorCode) : BufM Z :=
  let total := RESP_HEADER_LEN + 1 in
  n ← buf_len;
  if decide (total > n) then none else
  response_header kind request_id STATUS_ERR;;
  store 10 [error_to_u8 error];;
  mret total.

(** The loop over the entries; [count += 1] overflows [u16] with a panic. *)
Fixpoint encode_entries (entries : list ReaddirEntry) (off count : Z) : BufM (Z * Z) :=
  match entries with
  | [] => mret (off, count)
  | entry :: rest =>
      let name := entry_name entry in
      if decide (len name > DIRENT_NAME_MAX) then none else
      let entry_len := 2 + len name in
      n ← buf_len;
      if decide (off + entry_len > n) then none else
      store off [wrap_u 8 (len name)];;
      store (off + 1) [Z.b2z (entry_is_dir entry)];;
      store (off + 2) name;;
      if decide (count + 1 < 2 ^ 16) then encode_entries rest (off + entry_len) (count + 1)
      else λ _, Panic
  end.

Definition encode_readdir_ok (request_id : Z) (entries : list ReaddirEntry) : BufM Z :=
  response_header MSG_READDIR request_id STATUS_OK;;
  let off := RESP_HEADER_LEN + 2 in
  n ← buf_len;
  if decide (off > n) then none else
  '(off, count) ← encode_entries entries off 0;
  store RESP_HEADER_LEN (to_le_bytes 2 count);;
  mret off.

Definition encode_read_ok (request_id : Z) (data : list Z) : BufM Z :=
  let total := RESP_HEADER_LEN + 4 + len data in
  n ← buf_len;
  if decide (total > n) then none else
  response_header MSG_READ request_id STATUS_OK;;
  store 10 (to_le_bytes 4 (wrap_u 32 (len data)));;
  store 14 data;;
  mret total.

Definition encode_write_ok (request_id written : Z) : BufM Z :=
  let total := RESP_HEADER_LEN + 4 in
  n ← buf_len;
  if decide (total > n) then none else
  response_header MSG_WRITE request_id STATUS_OK;;
  store 10 (to_le_bytes 4 written);;
  mret total.

Definition encode_close_ok (request_id : Z) : BufM Z :=
  let total := RESP_HEADER_LEN in
  n ← buf_len;
  if decide (total > n) then none else
  response_header MSG_CLOSE request_id STATUS_OK;;
  mret total.

Definition encode_connect_ok (request_id : Z) : BufM Z :=
  let total := RESP_HEADER_LEN in
  n ← buf_len;
  if decide (total > n) then none else
  response_header MSG_CONNECT request_id STATUS_OK;;
  mret total.

Definition err_response (kind request_id : Z) (error : ErrorCode) : outcome () SchemeResponse :=
  if decide (kind = MSG_OPEN) then Ok (OpenErr request_id error)
  else if decide (kind = MSG_READDIR) then Ok (ReaddirErr request_id error)
  else if decide (kind = MSG_READ) then Ok (ReadErr request_id error)
  else if decide (kind = MSG_WRITE) then Ok (WriteErr request_id error)
  else if decide (kind = MSG_CLOSE) then Ok (CloseErr request_id error)
  else if decide (kind = MSG_CONNECT) then Ok (ConnectErr request_id error)
  else Err tt.

Definition SchemeResponse_decode (buf : list Z) : outcome () SchemeResponse :=
  if decide (len buf < RESP_HEADER_LEN) then Err tt else
  kind ← index buf 0;
  request_id ← read_le buf 1 9;
  status ← index buf 9;
  if decide (status = STATUS_ERR) then
    byte ← ok_or (buf !! 10%nat) tt;
    err_response kind request_id (u8_to_error byte)
  else if decide (status ≠ STATUS_OK) then Err tt
  else if decide (kind = MSG_OPEN) then
    resource_id ← get_le buf 10 18;
    Ok (OpenOk request_id resource_id)
  else if decide (kind = MSG_READDIR) then
    raw ← get buf RESP_HEADER_LEN (len buf);
    Ok (ReaddirOk request_id raw)
  else if decide (kind = MSG_READ) then
    data_len ← get_le buf 10 14;
    data ← get buf 14 (14 + data_len);
    Ok (ReadOk request_id data)
  else if decide (kind = MSG_WRITE) then
    written ← get_le buf 10 14;
    Ok (WriteOk request_id written)
  else if decide (kind = MSG_CLOSE) then Ok (CloseOk request_id)
  else if decide (kind = MSG_CONNECT) then Ok (ConnectOk request_id)
  else Err tt.

(** ** [ReaddirEntriesIter] *)
Record ReaddirEntriesIter := { iter_remaining : Z; iter_buf : list Z; iter_off : Z }.

Definition ReaddirEntriesIter_new (raw : list Z) : outcome () ReaddirEntriesIter :=
  count ← get_le raw 0 2;
  Ok {| iter_remaining := count; iter_buf := raw; iter_off := 2 |}.

(** [next]: [Err tt] is [None], which ends the iteration. *)
Definition ReaddirEntriesIter_next (it : ReaddirEntriesIter) :
    outcome () (ReaddirEntry * ReaddirEntriesIter) :=
  if decide (iter_remaining it = 0) then Err tt else
  name_len ← ok_or (iter_buf it !! Z.to_nat (iter_off it)) tt;
  dir_byte ← ok_or (iter_buf it !! Z.to_nat (iter_off it + 1)) tt;
  let name_start := iter_off it + 2 in
  bytes ← get (iter_buf it) name_start (name_start + name_len);
  name ← as_str bytes;
  Ok ({| entry_name := name; entry_is_dir := negb (dir_byte =? 0) |},
      {| iter_remaining := iter_remaining it - 1; iter_buf := iter_buf it;
         iter_off := name_start + name_len |}).

(** [collect()]: each [next] lowers [remaining], which bounds the fuel. *)
Fixpoint iter_collect (fuel : nat) (it : ReaddirEntriesIter) : outcome () (list ReaddirEntry) :=
  match fuel with
  | O => OutOfFuel
  | S fuel =>
      match ReaddirEntriesIter_next it with
      | Ok (entry, it') => rest ← iter_collect fuel it'; Ok (entry :: rest)
      | Err _ => Ok []
      | Panic => Panic
      | OutOfFuel => OutOfFuel
      end
  end.

Definition readdir_entries (raw : list Z) : outcome () (list ReaddirEntry) :=
  it ← ReaddirEntriesIter_new raw;
  iter_collect (S (Z.to_nat (iter_remaining it))) it.

(** ** Encoders as frames

    An encoder that writes contiguous fields leaves [frame] at the start of
    the buffer and the rest as it was, or, when the frame does not fit,
    returns [None] without a write. *)
Definition frames (m : BufM Z) (frame : list Z) : Prop := ∀ buf,
  m buf = if decide (len frame <= len buf)
          then Ok (frame ++ drop (length frame) buf, Some (len frame))
          else Ok (buf, None).

Lemma bind_header {B} (k : () → BufM B) kind id status buf :
  RESP_HEADER_LEN <= len buf →
  (response_header kind id status ≫= k) buf =
    k tt (([kind] ++ to_le_bytes 8 id ++ [status]) ++ drop 10 buf).
Proof.
  unfold RESP_HEADER_LEN, HEADER_LEN. intros Hlen.
  unfold response_header. rewrite bind_assoc_buf, bind_buf_len.
  rewrite decide_False by (unfold RESP_HEADER_LEN, HEADER_LEN; lia).
  rewrite <- (app_nil_l buf) at 1.
  rewrite bind_assoc_buf, bind_store by len_lia.
  rewrite bind_assoc_buf, bind_store by len_lia.
  rewrite bind_store by len_lia.
  rewrite !drop_drop, !length_to_le_bytes. cbn [length Nat.add]. by rewrite <- !app_assoc.
Qed.

(** Runs the stores of an encoder on a buffer that is long enough. *)
Ltac run_frame :=
  intros buf; rewrite bind_buf_len;
  let Hfit := fresh "Hfit" in
  match goal with
  | |- _ = if decide ?P then _ else _ => destruct (decide P) as [Hfit|Hfit]
  end;
  unfold RESP_HEADER_LEN, HEADER_LEN in *;
  [ rewrite decide_False by len_lia
  | by rewrite decide_True by len_lia ].
Ltac run_stores :=
  repeat rewrite bind_store by len_lia;
  unfold mret, BufM_ret; apply Ok_eq; [|len_lia];
  rewrite ?drop_drop, ?length_app, <- ?app_assoc; cbn [length app];
  repeat f_equal; lia.

Definition path_frame (kind id : Z) (path : str) : list Z :=
  [kind] ++ to_le_bytes 8 id ++ to_le_bytes 2 (len path) ++ path.

Lemma encode_path_frames kind id path :
  len path <= 0xFFFF → frames (encode_path_request kind id path) (path_frame kind id path).
Proof.
  intros Hp. unfold encode_path_request, path_frame.
  rewrite wrap_u_small by (unfold in_u; len_lia). run_frame. from_start. run_stores.
Qed.

Definition request_frame (r : SchemeRequest) : list Z :=
  match r with
  | SOpen id path => path_frame MSG_OPEN id path
  | SReaddir id path => path_frame MSG_READDIR id path
  | SConnect id path => path_frame MSG_CONNECT id path
  | SRead id rid l => [MSG_READ] ++ to_le_bytes 8 id ++ to_le_bytes 8 rid ++ to_le_bytes 4 l
  | SWrite id rid data =>
      [MSG_WRITE] ++ to_le_bytes 8 id ++ to_le_bytes 8 rid ++ to_le_bytes 4 (len data) ++ data
  | SClose id rid => [MSG_CLOSE] ++ to_le_bytes 8 id ++ to_le_bytes 8 rid
  end.

(** The requests the fields' types and widths allow. *)
Definition wf_scheme_request (r : SchemeRequest) : Prop :=
  is_u64 (SchemeRequest_request_id r) ∧
  match r with
  | SOpen _ path | SReaddir _ path | SConnect _ path =>
      utf8_valid path = true ∧ len path <= 0xFFFF
  | SRead _ rid l => is_u64 rid ∧ is_u32 l
  | SWrite _ rid data => is_u64 rid ∧ Forall is_u8 data ∧ len data < 2 ^ 32
  | SClose _ rid => is_u64 rid
  end.

Lemma SchemeRequest_frames r :
  wf_scheme_request r → frames (SchemeRequest_encode r) (request_frame r).
Proof.
  destruct r; intros [_ Hwf]; cbn [SchemeRequest_encode request_frame];
    try (apply encode_path_frames; apply Hwf).
  - run_frame. from_start. run_stores.
  - rewrite wrap_u_small by (unfold in_u; len_lia). run_frame. from_start. run_stores.
  - run_frame. from_start. run_stores.
Qed.

(** ** Reading a frame back *)
Lemma index_here {E A} (x : A) l i : i = 0 → index (E:=E) ([x] ++ l) i = Ok x.
Proof. intros ->. unfold index. by rewrite decide_True by len_lia. Qed.

Lemma index_skip {E A} (l m : list A) i :
  len l <= i → index (E:=E) (l ++ m) i = index m (i - len l).
Proof.
  intros Hi. pose proof (len_nonneg l). unfold index. destruct (decide (0 <= i - len l < len m)).
  - rewrite decide_True by len_lia. rewrite lookup_app_r by (unfold len in *; lia).
    by replace (Z.to_nat (i - len l)) with (Z.to_nat i - length l)%nat by (unfold len in *; lia).
  - by rewrite decide_False by len_lia.
Qed.

Lemma read_le_skip l m a b :
  len l <= a → read_le (l ++ m) a b = read_le m (a - len l) (b - len l).
Proof. intros. unfold read_le, slice. by rewrite get_range_skip. Qed.

Lemma read_le_here n z m a b :
  a = 0 → b = Z.of_nat n → in_u (8 * Z.of_nat n) z → read_le (to_le_bytes n z ++ m) a b = Ok z.
Proof.
  intros -> -> Hz. unfold read_le, slice. rewrite get_range_here by len_lia.
  cbn. by rewrite from_to_le_bytes, wrap_u_small.
Qed.

Lemma get_le_read_le buf a b v : read_le buf a b = Ok v → get_le buf a b = Ok v.
Proof. unfold read_le, get_le, get, slice. by destruct (get_range buf a b). Qed.

Lemma get_skip l m a b : len l <= a → get (l ++ m) a b = get m (a - len l) (b - len l).
Proof. intros. unfold get. by rewrite get_range_skip. Qed.

Lemma get_here k m a b : a = 0 → b = len k → get (k ++ m) a b = Ok k.
Proof. intros -> ->. unfold get. by rewrite get_range_here. Qed.

(** A successful read cuts the buffer. *)
Lemma get_range_cut {A} (l : list A) a b s :
  get_range l a b = Some s → drop (Z.to_nat a) l = s ++ drop (Z.to_nat b) l ∧ len s = b - a.
Proof.
  unfold get_range. case_decide as Hab; [|done]. intros [= <-]. split; [|len_lia].
  rewrite <- (take_drop (Z.to_nat (b - a)) (drop (Z.to_nat a) l)) at 1.
  rewrite drop_drop. do 2 f_equal. lia.
Qed.

Lemma ensures_get_le n buf a b :
  Forall is_u8 buf → b - a = Z.of_nat n →
  ensures (get_le buf a b) (λ v,
    drop (Z.to_nat a) buf = to_le_bytes n v ++ drop (Z.to_nat b) buf ∧
    in_u (8 * Z.of_nat n) v).
Proof.
  intros Hb Hn. unfold get_le, get.
  destruct (get_range buf a b) as [s|] eqn:Hs; [|done]. cbn.
  destruct (get_range_cut _ _ _ _ Hs) as [Hcut Hlen].
  assert (length s = n) as <- by (unfold len in *; lia).
  assert (Forall is_u8 s) as Hs8.
  { apply (Forall_drop _ (Z.to_nat a)) in Hb. rewrite Hcut in Hb. by apply Forall_app in Hb as [? _]. }
  rewrite to_from_le_bytes by done. split; [done|]. by apply from_le_bytes_bound.
Qed.

Lemma ensures_read_le n buf a b :
  Forall is_u8 buf → b - a = Z.of_nat n → 0 <= a → b <= len buf →
  ensures (read_le buf a b) (λ v,
    drop (Z.to_nat a) buf = to_le_bytes n v ++ drop (Z.to_nat b) buf ∧
    in_u (8 * Z.of_nat n) v).
Proof.
  intros Hb Hn Ha Hl. pose proof (ensures_get_le n buf a b Hb Hn) as He.
  revert He. unfold get_le, get, read_le, slice.
  assert (is_Some (get_range buf a b)) as [s ->]; [|done].
  unfold get_range. rewrite decide_True by lia. eauto.
Qed.

Lemma ensures_get buf a b :
  Forall is_u8 buf →
  ensures (get buf a b) (λ s,
    drop (Z.to_nat a) buf = s ++ drop (Z.to_nat b) buf ∧ len s = b - a ∧ Forall is_u8 s).
Proof.
  intros Hb. unfold get. destruct (get_range buf a b) as [s|] eqn:Hs; [|done]. cbn.
  destruct (get_range_cut _ _ _ _ Hs) as [Hcut Hlen]. split_and!; [done..|].
  apply (Forall_drop _ (Z.to_nat a)) in Hb. rewrite Hcut in Hb. by apply Forall_app in Hb as [? _].
Qed.

Lemma ensures_index {E} (buf : list Z) i :
  0 <= i < len buf →
  ensures (index (E:=E) buf i) (λ k,
    drop (Z.to_nat i) buf = [k] ++ drop (Z.to_nat (i + 1)) buf).
Proof.
  intros Hi. unfold index. rewrite decide_True by done.
  destruct (buf !! Z.to_nat i) as [x|] eqn:Hx; cbn.
  - rewrite (drop_S _ _ _ Hx). do 2 f_equal. lia.
  - apply lookup_ge_None in Hx. unfold len in *. lia.
Qed.

Lemma ensures_checked_add a b : ensures (ok_or (checked_add a b) tt) (λ c, c = a + b).
Proof. unfold checked_add. by case_decide. Qed.

Lemma ensures_as_str s : ensures (as_str s) (λ p, p = s ∧ utf8_valid p = true).
Proof. unfold as_str. by destruct (utf8_valid s) eqn:?. Qed.

(** Reads of known fields, one after the other. *)
Lemma bind_Ok {E A B} (m : outcome E A) (k : A → outcome E B) a r :
  m = Ok a → k a = r → m ≫= k = r.
Proof. by intros -> <-. Qed.

Ltac read_field :=
  first
    [ repeat rewrite index_skip by len_lia; apply index_here; len_lia
    | repeat rewrite read_le_skip by len_lia; apply read_le_here; [len_lia|len_lia|]
    | apply get_le_read_le; repeat rewrite read_le_skip by len_lia;
      apply read_le_here; [len_lia|len_lia|]
    | repeat rewrite get_skip by len_lia; apply get_here; len_lia ].
Ltac read_one :=
  eapply bind_Ok; [solve [read_field; first [done | rng; len_lia]]|cbv beta].
Ltac other_kind :=
  rewrite decide_False
    by (unfold MSG_OPEN, MSG_READDIR, MSG_READ, MSG_WRITE, MSG_CLOSE, MSG_CONNECT,
          STATUS_OK, STATUS_ERR; clear; lia).

Lemma decode_path_frame kind id path tail :
  kind = MSG_OPEN ∨ kind = MSG_READDIR ∨ kind = MSG_CONNECT →
  is_u64 id → utf8_valid path = true → len path <= 0xFFFF →
  SchemeRequest_decode (path_frame kind id path ++ tail) =
    Ok (if decide (kind = MSG_OPEN) then SOpen id path
        else if decide (kind = MSG_READDIR) then SReaddir id path else SConnect id path).
Proof.
  intros Hk Hid Hp Hl. unfold SchemeRequest_decode, path_frame, HEADER_LEN.
  rewrite <- !app_assoc. rewrite decide_False by len_lia. do 2 read_one.
  rewrite decide_True by done. rewrite decide_False by len_lia. read_one.
  unfold checked_add. rewrite decide_True by len_lia. cbn [mbind outcome_bind ok_or].
  read_one. unfold as_str. by rewrite Hp.
Qed.

Lemma SchemeRequest_decode_frame r tail :
  wf_scheme_request r → SchemeRequest_decode (request_frame r ++ tail) = Ok r.
Proof.
  intros [Hid Hwf]. destruct r; cbn [SchemeRequest_request_id] in Hid;
    cbn [request_frame]; try (destruct Hwf; rewrite decode_path_frame by tauto; done).
  all: unfold SchemeRequest_decode, HEADER_LEN; rewrite <- !app_assoc;
    rewrite decide_False by len_lia; do 2 read_one;
    repeat other_kind; rewrite decide_True by done;
    rewrite decide_False by len_lia; destruct_and?; repeat read_one.
  - done.
  - unfold checked_add. rewrite decide_True by len_lia. cbn [mbind outcome_bind ok_or].
    by read_one.
  - done.
Qed.

(** ** Decoding untrusted frames *)
Ltac cut_one n :=
  eapply ensures_bind;
  [ first [ apply (ensures_read_le n); [done|lia|lia|len_lia]
          | apply (ensures_get_le n); [done|lia]
          | apply ensures_index; len_lia | apply ensures_get; done
          | apply ensures_checked_add | apply ensures_as_str ]
  | cbv beta; intros ? ? ].

(** Glues the fields cut off a buffer back to a frame. *)
Ltac glue :=
  repeat match goal with H : _ ∧ _ |- _ => destruct H end;
  change (0 + 1) with 1 in *; change (Z.to_nat 0) with 0%nat in *; rewrite ?drop_0 in *;
  subst; cbn [ensures]; split;
  [ unfold wf_scheme_request; cbn; rng; repeat split; first [done | lia]
  | eexists;
    match goal with H : ?b = [_] ++ _ |- ?b = _ => etrans; [exact H|] end;
    repeat match goal with H : drop ?n ?b = _ ++ _ |- context [drop ?n ?b] => rewrite H end;
    cbn [request_frame]; unfold path_frame; rewrite <- !app_assoc;
    repeat f_equal; first [done | lia] ].

Lemma SchemeRequest_decode_ensures buf :
  Forall is_u8 buf →
  ensures (SchemeRequest_decode buf) (λ r, wf_scheme_request r ∧ ∃ tail, buf = request_frame r ++ tail).
Proof.
  intros Hb. unfold SchemeRequest_decode, HEADER_LEN. case_decide; [done|].
  cut_one 0%nat. cut_one 8%nat.
  destruct (decide (_ ∨ _)) as [Hk|_]; [|repeat case_decide; try done].
  - case_decide; [done|]. cut_one 2%nat. do 3 cut_one 0%nat.
    repeat case_decide; [..|destruct Hk as [?|[?|?]]; [done..|]]; glue.
  - cut_one 8%nat. cut_one 4%nat. glue.
  - cut_one 8%nat. cut_one 4%nat. do 2 cut_one 0%nat. glue.
  - cut_one 8%nat. glue.
Qed.

(** ** What an encoder promises to a decoder

    [m] writes [n] bytes, leaves the rest of the buffer alone, and whatever
    follows those bytes, [dec] reads [r] from them; on a buffer that is too
    small it returns [None] and writes nothing. *)
Definition carries {R} (m : BufM Z) (dec : list Z → outcome () R) (r : R) (n : Z) : Prop :=
  ∀ buf,
    if decide (n <= len buf) then
      ∃ buf', m buf = Ok (buf', Some n) ∧ len buf' = len buf ∧
        drop (Z.to_nat n) buf' = drop (Z.to_nat n) buf ∧
        ∀ tail, dec (take (Z.to_nat n) buf' ++ tail) = Ok r
    else m buf = Ok (buf, None).

Lemma frames_carries {R} m (dec : list Z → outcome () R) r f :
  frames m f → (∀ tail, dec (f ++ tail) = Ok r) → carries m dec r (len f).
Proof.
  intros Hf Hd buf. rewrite (Hf buf). case_decide; [|done].
  eexists. split; [done|]. unfold len in *. rewrite Nat2Z.id, take_app_length, drop_app_length.
  rewrite length_app, length_drop. split_and!; [lia|done|done].
Qed.

Ltac header_frame :=
  unfold RESP_HEADER_LEN, HEADER_LEN in *;
  rewrite bind_header by (unfold RESP_HEADER_LEN, HEADER_LEN; len_lia).

Definition response_frame (kind id status : Z) (payload : list Z) : list Z :=
  ([kind] ++ to_le_bytes 8 id ++ [status]) ++ payload.

Lemma encode_open_ok_frames id rid :
  frames (encode_open_ok id rid) (response_frame MSG_OPEN id STATUS_OK (to_le_bytes 8 rid)).
Proof. unfold encode_open_ok, response_frame. run_frame. header_frame. run_stores. Qed.

Lemma encode_err_frames kind id e :
  frames (encode_err kind id e) (response_frame kind id STATUS_ERR [error_to_u8 e]).
Proof. unfold encode_err, response_frame. run_frame. header_frame. run_stores. Qed.

Lemma encode_read_ok_frames id data :
  len data < 2 ^ 32 →
  frames (encode_read_ok id data)
    (response_frame MSG_READ id STATUS_OK (to_le_bytes 4 (len data) ++ data)).
Proof.
  intros Hd. unfold encode_read_ok, response_frame.
  rewrite wrap_u_small by (unfold in_u; len_lia). run_frame. header_frame. run_stores.
Qed.

Lemma encode_write_ok_frames id w :
  frames (encode_write_ok id w) (response_frame MSG_WRITE id STATUS_OK (to_le_bytes 4 w)).
Proof. unfold encode_write_ok, response_frame. run_frame. header_frame. run_stores. Qed.

Lemma encode_close_ok_frames id :
  frames (encode_close_ok id) (response_frame MSG_CLOSE id STATUS_OK []).
Proof. unfold encode_close_ok, response_frame. run_frame. header_frame. run_stores. Qed.

Lemma encode_connect_ok_frames id :
  frames (encode_connect_ok id) (response_frame MSG_CONNECT id STATUS_OK []).
Proof. unfold encode_connect_ok, response_frame. run_frame. header_frame. run_stores. Qed.

(** The head of [decode] on a response frame. *)
Ltac decode_head :=
  unfold SchemeResponse_decode, response_frame, RESP_HEADER_LEN, HEADER_LEN;
  rewrite <- !app_assoc; rewrite decide_False by len_lia; do 3 read_one.
Ltac decode_kind :=
  repeat other_kind; first [rewrite decide_True by done | idtac].

Lemma error_roundtrip e : e ≠ EOk → u8_to_error (error_to_u8 e) = e.
Proof. by destruct e. Qed.

Lemma u8_to_error_not_ok b : u8_to_error b ≠ EOk.
Proof. unfold u8_to_error. by repeat case_match. Qed.

Lemma decode_err_frame kind id e tail :
  is_u64 id →
  SchemeResponse_decode (response_frame kind id STATUS_ERR [error_to_u8 e] ++ tail) =
    err_response kind id (u8_to_error (error_to_u8 e)).
Proof. intros Hid. decode_head. by rewrite decide_True by done. Qed.

Lemma decode_open_frame id rid tail :
  is_u64 id → is_u64 rid →
  SchemeResponse_decode (response_frame MSG_OPEN id STATUS_OK (to_le_bytes 8 rid) ++ tail) =
    Ok (OpenOk id rid).
Proof. intros. decode_head. decode_kind. by read_one. Qed.

Lemma decode_read_frame id data tail :
  is_u64 id → len data < 2 ^ 32 →
  SchemeResponse_decode
    (response_frame MSG_READ id STATUS_OK (to_le_bytes 4 (len data) ++ data) ++ tail) =
    Ok (ReadOk id data).
Proof. intros. decode_head. decode_kind. read_one. by read_one. Qed.

Lemma decode_write_frame id w tail :
  is_u64 id → is_u32 w →
  SchemeResponse_decode (response_frame MSG_WRITE id STATUS_OK (to_le_bytes 4 w) ++ tail) =
    Ok (WriteOk id w).
Proof. intros. decode_head. decode_kind. by read_one. Qed.

Lemma decode_close_frame id tail :
  is_u64 id →
  SchemeResponse_decode (response_frame MSG_CLOSE id STATUS_OK [] ++ tail) = Ok (CloseOk id).
Proof. intros. decode_head. by decode_kind. Qed.

Lemma decode_connect_frame id tail :
  is_u64 id →
  SchemeResponse_decode (response_frame MSG_CONNECT id STATUS_OK [] ++ tail) = Ok (ConnectOk id).
Proof. intros. decode_head. by decode_kind. Qed.

(** ** Directory listings *)
Definition entry_frame (e : ReaddirEntry) : list Z :=
  [len (entry_name e); Z.b2z (entry_is_dir e)] ++ entry_name e.

Definition wf_entry (e : ReaddirEntry) : Prop :=
  utf8_valid (entry_name e) = true ∧ len (entry_name e) <= DIRENT_NAME_MAX.

Definition entries_frame (es : list ReaddirEntry) : list Z := concat (entry_frame <$> es).

(** The loop appends the frames of the entries after the bytes [l] already
    written. *)
Lemma encode_entries_spec es : ∀ l rest count,
  Forall wf_entry es → 0 <= count → count + len es < 2 ^ 16 →
  len (entries_frame es) <= len rest →
  encode_entries es (len l) count (l ++ rest) =
    Ok ((l ++ entries_frame es) ++ drop (length (entries_frame es)) rest,
        Some (len l + len (entries_frame es), count + len es)).
Proof.
  induction es as [|e es IH]; intros l rest count Hwf Hc Hn Hfit.
  { unfold entries_frame. cbn. unfold mret, BufM_ret. rewrite app_nil_r, drop_0.
    do 3 f_equal. f_equal; len_lia. }
  apply Forall_cons in Hwf as [[Hv Hlen] Hwf]. unfold DIRENT_NAME_MAX in *.
  unfold entries_frame in *. cbn [fmap list_fmap concat encode_entries] in *.
  unfold entry_frame in * |- *. unfold entry_frame in IH.
  rewrite decide_False by (unfold DIRENT_NAME_MAX; lia). rewrite bind_buf_len.
  rewrite decide_False by len_lia. rewrite wrap_u_small by (unfold in_u; len_lia).
  repeat rewrite bind_store by len_lia. rewrite decide_True by len_lia.
  replace (len l + (2 + len (entry_name e)))
    with (len (((l ++ [len (entry_name e)]) ++ [Z.b2z (entry_is_dir e)]) ++ entry_name e))
    by len_lia.
  rewrite IH by (try done; len_lia). apply Ok_eq.
  - rewrite !drop_drop, !length_app. cbn [length]. rewrite <- !app_assoc. cbn [app].
    repeat f_equal.
  - f_equal; len_lia.
Qed.

Definition readdir_payload (es : list ReaddirEntry) : list Z :=
  to_le_bytes 2 (len es) ++ entries_frame es.

Lemma encode_readdir_ok_spec id es buf :
  let f := response_frame MSG_READDIR id STATUS_OK (readdir_payload es) in
  Forall wf_entry es → len es < 2 ^ 16 → len f <= len buf →
  encode_readdir_ok id es buf = Ok (f ++ drop (length f) buf, Some (len f)).
Proof.
  intros f Hwf Hn Hfit. subst f. unfold response_frame, readdir_payload in *.
  unfold encode_readdir_ok. header_frame. rewrite bind_buf_len.
  rewrite decide_False by len_lia.
  set (h := [MSG_READDIR] ++ to_le_bytes 8 id ++ [STATUS_OK]) in *.
  assert (len h = 10) as Hh by (subst h; len_lia).
  rewrite <- (take_drop 2 (drop 10 buf)), app_assoc.
  unfold mbind at 1, BufM_bind at 1.
  replace (9 + 1 + 2) with (len (h ++ take 2 (drop 10 buf))) by len_lia.
  rewrite encode_entries_spec; [|done|lia|lia|len_lia].
  rewrite Z.add_0_l. unfold mbind, BufM_bind, store.
  rewrite <- !app_assoc. replace (9 + 1) with (len h) by lia.
  rewrite copy_at_app by len_lia. unfold mret, BufM_ret. cbn.
  apply Ok_eq; [|len_lia]. do 3 f_equal. by rewrite !drop_drop.
Qed.

Lemma lookup_past {E} (l m : list Z) i x (e : E) :
  len l <= i → m !! Z.to_nat (i - len l) = Some x → ok_or ((l ++ m) !! Z.to_nat i) e = Ok x.
Proof.
  intros Hi Hx. rewrite lookup_app_r by (unfold len in *; lia).
  replace (Z.to_nat i - length l)%nat with (Z.to_nat (i - len l)) by (unfold len in *; lia).
  by rewrite Hx.
Qed.

Ltac cut_offset :=
  match goal with
  | |- _ !! Z.to_nat (?x + ?k - ?x) = _ => replace (x + k - x) with k by lia
  | |- _ !! Z.to_nat (?x - ?x) = _ => rewrite Z.sub_diag
  end.

(** The iterator reads the entries one by one. *)
Lemma next_entry l e rest n off :
  wf_entry e → 0 < n → off = len l →
  ReaddirEntriesIter_next
    {| iter_remaining := n; iter_buf := l ++ entry_frame e ++ rest; iter_off := off |} =
  Ok (e, {| iter_remaining := n - 1; iter_buf := l ++ entry_frame e ++ rest;
            iter_off := off + len (entry_frame e) |}).
Proof.
  intros [Hv Hl] Hn ->. unfold ReaddirEntriesIter_next. cbn [iter_remaining iter_buf iter_off].
  rewrite decide_False by lia. unfold entry_frame.
  do 2 (eapply bind_Ok; [apply lookup_past; [len_lia|cut_offset; done]|]; cbv beta).
  rewrite <- app_assoc.
  eapply bind_Ok; [solve [read_field]|]. cbv beta. unfold as_str. rewrite Hv. cbn.
  f_equal. f_equal; [by destruct e as [? []]|]. f_equal. len_lia.
Qed.

Lemma iter_collect_entries es : ∀ l off tail fuel,
  Forall wf_entry es → off = len l → (length es < fuel)%nat →
  iter_collect fuel
    {| iter_remaining := len es; iter_buf := l ++ entries_frame es ++ tail; iter_off := off |} =
  Ok es.
Proof.
  induction es as [|e es IH]; intros l off tail fuel Hwf -> Hf.
  { destruct fuel; [cbn in Hf; lia|]. done. }
  destruct fuel as [|fuel]; [cbn in Hf; lia|]. cbn in Hf.
  apply Forall_cons in Hwf as [He Hwf]. unfold entries_frame. cbn [fmap list_fmap concat].
  rewrite <- app_assoc. cbn [iter_collect].
  rewrite (next_entry l e _ (len (e :: es)) (len l) He ltac:(len_lia) eq_refl).
  rewrite app_assoc. replace (len (e :: es) - 1) with (len es) by len_lia.
  fold (entries_frame es).
  rewrite IH; [done|done|len_lia|lia].
Qed.

Lemma readdir_entries_frame es tail :
  Forall wf_entry es → len es < 2 ^ 16 → readdir_entries (readdir_payload es ++ tail) = Ok es.
Proof.
  intros Hwf Hn. unfold readdir_entries, ReaddirEntriesIter_new, readdir_payload.
  rewrite <- app_assoc. eapply bind_Ok; [by read_one|]. cbn [iter_remaining].
  apply iter_collect_entries; [done|len_lia|len_lia].
Qed.

(** Iterating the entries of any bytes ends, without a panic, after at most
    as many entries as the count field says. *)
Lemma next_ensures it :
  0 <= iter_remaining it →
  ensures (ReaddirEntriesIter_next it) (λ '(e, it'),
    utf8_valid (entry_name e) = true ∧ iter_remaining it' = iter_remaining it - 1 ∧
    0 <= iter_remaining it').
Proof.
  intros Hr. unfold ReaddirEntriesIter_next. case_decide; [done|].
  destruct (iter_buf it !! Z.to_nat (iter_off it)); [|done].
  destruct (iter_buf it !! Z.to_nat (iter_off it + 1)); [|done]. cbn [ok_or mbind outcome_bind].
  unfold get. destruct (get_range _ _ _) as [bs|]; [|done]. cbn.
  unfold as_str. destruct (utf8_valid bs) eqn:?; [|done]. cbn. split_and!; [done|done|lia].
Qed.

Lemma iter_collect_total fuel : ∀ it,
  0 <= iter_remaining it → (Z.to_nat (iter_remaining it) < fuel)%nat →
  ∃ es, iter_collect fuel it = Ok es ∧ len es <= iter_remaining it ∧
    Forall (λ e, utf8_valid (entry_name e) = true) es.
Proof.
  induction fuel as [|fuel IH]; intros it Hr Hf; [lia|]. cbn [iter_collect].
  pose proof (next_ensures it Hr) as Hnext.
  destruct (ReaddirEntriesIter_next it) as [[e it']| | |]; [|..]; cbn in Hnext; try done.
  - destruct Hnext as (Hv & Hrem & Hpos).
    destruct (IH it') as (es & -> & Hlen & Hall); [done|lia|].
    exists (e :: es). cbn. split_and!; [done|len_lia|by constructor].
  - exists []. split_and!; [done|len_lia|done].
Qed.

Definition response_error (r : SchemeResponse) : option ErrorCode :=
  match r with
  | OpenErr _ e | ReaddirErr _ e | ReadErr _ e | WriteErr _ e | CloseErr _ e
  | ConnectErr _ e => Some e
  | _ => None
  end.

(** [r] answers the request the frame names, and reports success exactly when
    the frame's status byte does. *)
Definition answers (buf : list Z) (r : SchemeResponse) : Prop :=
  is_u64 (SchemeResponse_request_id r) ∧
  drop 1 buf = to_le_bytes 8 (SchemeResponse_request_id r) ++ drop 9 buf ∧
  match response_error r with
  | Some e => buf !! 9%nat = Some STATUS_ERR ∧ e ≠ EOk
  | None => buf !! 9%nat = Some STATUS_OK
  end.

Lemma SchemeResponse_decode_ensures buf :
  Forall is_u8 buf → ensures (SchemeResponse_decode buf) (answers buf).
Proof.
  intros Hb. unfold SchemeResponse_decode, RESP_HEADER_LEN, HEADER_LEN. case_decide; [done|].
  cut_one 0%nat. cut_one 8%nat. cut_one 0%nat.
  match goal with H : drop (Z.to_nat 9) buf = [?s] ++ _ |- _ =>
    assert (buf !! 9%nat = Some s) as Hst
      by (rewrite <- (Nat.add_0_r 9), <- lookup_drop; change 9%nat with (Z.to_nat 9); by rewrite H)
  end.
  destruct_and!. change (8 * Z.of_nat 8) with 64 in *.
  repeat case_decide; subst; try done.
  - destruct (buf !! 10%nat) as [b|]; [|done]. cbn [ok_or mbind outcome_bind].
    pose proof (u8_to_error_not_ok b). unfold err_response. by repeat case_decide.
  all: match goal with H : ¬ (_ ≠ _) |- _ => apply dec_stable in H; subst end.
  - by cut_one 8%nat.
  - by cut_one 0%nat.
  - cut_one 4%nat. by cut_one 0%nat.
  - by cut_one 4%nat.
Qed.

(** ** Properties *)

(** A scheme request encoded into a buffer it fits in is the request
    decoded from those bytes, whatever follows them, and the rest of the
    buffer is untouched; one that does not fit returns [None] without writing;
    and a [Write] of at most [MAX_TRANSFER_SIZE] bytes fits in one channel
    message. *)
Theorem scheme_request_roundtrip (r : SchemeRequest) :
  wf_scheme_request r →
  carries (SchemeRequest_encode r) SchemeRequest_decode r (len (request_frame r)) ∧
  ∀ id rid data, r = SWrite id rid data → len data <= MAX_TRANSFER_SIZE →
    len (request_frame r) <= MAX_MESSAGE_SIZE.
Proof.
  intros Hwf. split.
  - apply frames_carries; [by apply SchemeRequest_frames|].
    intros tail. by apply SchemeRequest_decode_frame.
  - intros id rid data -> Hd. unfold MAX_TRANSFER_SIZE in Hd. cbn [request_frame]. len_lia.
Qed.

Lemma scheme_request_roundtrip_witness :
  let r := SWrite 7 3 [104; 105] in
  carries (SchemeRequest_encode r) SchemeRequest_decode r (len (request_frame r)) ∧
  ∀ id rid data, r = SWrite id rid data → len data <= MAX_TRANSFER_SIZE →
    len (request_frame r) <= MAX_MESSAGE_SIZE.
Proof.
  apply (scheme_request_roundtrip (SWrite 7 3 [104; 105])).
  split; [by split|]. split_and!; [by split| |done]. by repeat constructor.
Defined.

(** C30.  Decoding any bytes as a scheme request never panics, and accepts
    only frames the encoder produces: the decoded request is well formed and
    encoding it over the same buffer leaves the buffer as it was. *)
Theorem scheme_request_exact (buf : list Z) :
  Forall is_u8 buf →
  no_panic (SchemeRequest_decode buf) ∧
  ∀ r, SchemeRequest_decode buf = Ok r →
    wf_scheme_request r ∧ ∃ n, SchemeRequest_encode r buf = Ok (buf, Some n).
Proof.
  intros Hb. apply ensures_spec.
  eapply ensures_weaken; [by apply SchemeRequest_decode_ensures|].
  intros r [Hwf [tail ->]]. split; [done|]. exists (len (request_frame r)).
  rewrite SchemeRequest_frames by done. rewrite decide_True by len_lia.
  by rewrite drop_app_length.
Qed.

Lemma scheme_request_exact_witness :
  let buf := request_frame (SClose 5 9) in
  no_panic (SchemeRequest_decode buf) ∧
  ∀ r, SchemeRequest_decode buf = Ok r →
    wf_scheme_request r ∧ ∃ n, SchemeRequest_encode r buf = Ok (buf, Some n).
Proof. apply scheme_request_exact. by vm_compute; repeat constructor. Defined.

(** The response that [encode_err] stands for. *)
Definition err_variant (kind id : Z) (e : ErrorCode) : option SchemeResponse :=
  match err_response kind id e with Ok r => Some r | _ => None end.

(** Every response encoder is read back by [Response::decode] as the
    response it encodes, in the same sense as the requests: success frames
    for open, read, write, close and connect, and the error frame of each
    kind for every error code but [Ok]. *)
Theorem scheme_response_roundtrip (id rid w kind : Z) (data : list Z) (e : ErrorCode) :
  is_u64 id → is_u64 rid → is_u32 w → len data < 2 ^ 32 → e ≠ EOk →
  carries (encode_open_ok id rid) SchemeResponse_decode (OpenOk id rid) 18 ∧
  carries (encode_read_ok id data) SchemeResponse_decode (ReadOk id data) (14 + len data) ∧
  carries (encode_write_ok id w) SchemeResponse_decode (WriteOk id w) 14 ∧
  carries (encode_close_ok id) SchemeResponse_decode (CloseOk id) 10 ∧
  carries (encode_connect_ok id) SchemeResponse_decode (ConnectOk id) 10 ∧
  (MSG_OPEN <= kind <= MSG_CONNECT →
   ∃ r, err_variant kind id e = Some r ∧
     carries (encode_err kind id e) SchemeResponse_decode r 11).
Proof.
  intros Hid Hrid Hw Hd He. split_and!.
  - apply (frames_carries _ _ _ _ (encode_open_ok_frames id rid)).
    intros. by apply decode_open_frame.
  - replace (14 + len data)
      with (len (response_frame MSG_READ id STATUS_OK (to_le_bytes 4 (len data) ++ data)))
      by (unfold response_frame; len_lia).
    apply frames_carries; [by apply encode_read_ok_frames|].
    intros. by apply decode_read_frame.
  - apply (frames_carries _ _ _ _ (encode_write_ok_frames id w)).
    intros. by apply decode_write_frame.
  - apply (frames_carries _ _ _ _ (encode_close_ok_frames id)).
    intros. by apply decode_close_frame.
  - apply (frames_carries _ _ _ _ (encode_connect_ok_frames id)).
    intros. by apply decode_connect_frame.
  - intros Hk. assert (∃ r, err_response kind id e = Ok r) as [r Hr].
    { unfold err_response, MSG_OPEN, MSG_READDIR, MSG_READ, MSG_WRITE, MSG_CLOSE, MSG_CONNECT in *.
      repeat case_decide; eauto. lia. }
    exists r. split; [by unfold err_variant; rewrite Hr|].
    apply (frames_carries _ _ _ _ (encode_err_frames kind id e)).
    intros. by rewrite decode_err_frame, error_roundtrip.
Qed.

Lemma scheme_response_roundtrip_witness :
  carries (encode_open_ok 1 2) SchemeResponse_decode (OpenOk 1 2) 18 ∧
  carries (encode_read_ok 1 [7]) SchemeResponse_decode (ReadOk 1 [7]) (14 + len [7]) ∧
  carries (encode_write_ok 1 1) SchemeResponse_decode (WriteOk 1 1) 14 ∧
  carries (encode_close_ok 1) SchemeResponse_decode (CloseOk 1) 10 ∧
  carries (encode_connect_ok 1) SchemeResponse_decode (ConnectOk 1) 10 ∧
  (MSG_OPEN <= MSG_READ <= MSG_CONNECT →
   ∃ r, err_variant MSG_READ 1 ENotFound = Some r ∧
     carries (encode_err MSG_READ 1 ENotFound) SchemeResponse_decode r 11).
Proof. by apply scheme_response_roundtrip. Defined.

(** A directory listing survives the wire: [encode_readdir_ok] of
    entries with valid names that fit in the buffer writes a frame that
    decodes to [ReaddirOk], whose raw bytes the iterator turns back into the
    same entries, in order. *)
Theorem readdir_roundtrip (id : Z) (es : list ReaddirEntry) (buf : list Z) :
  is_u64 id → Forall wf_entry es → len es < 2 ^ 16 →
  12 + len (entries_frame es) <= len buf →
  ∃ buf' n raw,
    encode_readdir_ok id es buf = Ok (buf', Some n) ∧
    n = 12 + len (entries_frame es) ∧
    drop (Z.to_nat n) buf' = drop (Z.to_nat n) buf ∧
    SchemeResponse_decode (take (Z.to_nat n) buf') = Ok (ReaddirOk id raw) ∧
    readdir_entries raw = Ok es.
Proof.
  intros Hid Hwf Hn Hfit.
  set (f := response_frame MSG_READDIR id STATUS_OK (readdir_payload es)).
  assert (len f = 12 + len (entries_frame es)) as Hf
    by (subst f; unfold response_frame, readdir_payload; len_lia).
  exists (f ++ drop (length f) buf), (len f), (readdir_payload es).
  split_and!; [apply encode_readdir_ok_spec; [done|done|]; fold f; lia|done|..].
  - unfold len. by rewrite Nat2Z.id, drop_app_length.
  - unfold len. rewrite Nat2Z.id, take_app_length. clear Hf. subst f.
    rewrite <- (app_nil_r (response_frame _ _ _ _)). decode_head. decode_kind.
    eapply bind_Ok; [|done]. rewrite app_nil_r.
    replace (len _) with (10 + len (readdir_payload es)) by len_lia.
    repeat rewrite get_skip by len_lia. rewrite <- (app_nil_r (readdir_payload es)) at 1.
    apply get_here; len_lia.
  - rewrite <- (app_nil_r (readdir_payload es)). by apply readdir_entries_frame.
Qed.

Lemma readdir_roundtrip_witness :
  let es := [ {| entry_name := [97]; entry_is_dir := true |};
              {| entry_name := [98; 99]; entry_is_dir := false |} ] in
  ∃ buf' n raw,
    encode_readdir_ok 4 es (replicate 32 0) = Ok (buf', Some n) ∧
    n = 12 + len (entries_frame es) ∧
    drop (Z.to_nat n) buf' = drop (Z.to_nat n) (replicate 32 0) ∧
    SchemeResponse_decode (take (Z.to_nat n) buf') = Ok (ReaddirOk 4 raw) ∧
    readdir_entries raw = Ok es.
Proof. apply readdir_roundtrip; [done|by repeat constructor|done|done]. Defined.

(** A provider is untrusted: decoding any bytes as a response never
    panics; a decoded response names the request the frame names, is an error
    exactly when the status byte says so, and its error is never [Ok]; and
    iterating the entries of any raw listing ends without a panic after at
    most the announced number of entries, all with valid names. *)
Theorem scheme_response_untrusted (buf raw : list Z) :
  Forall is_u8 buf → Forall is_u8 raw →
  no_panic (SchemeResponse_decode buf) ∧
  (∀ r, SchemeResponse_decode buf = Ok r → answers buf r) ∧
  ensures (readdir_entries raw) (λ es,
    len es <= from_le_bytes (take 2 raw) ∧
    Forall (λ e, utf8_valid (entry_name e) = true) es).
Proof.
  intros Hb Hr.
  destruct (proj1 (ensures_spec _ _) (SchemeResponse_decode_ensures buf Hb)) as [Hnp Hok].
  split_and!; [done..|].
  unfold readdir_entries, ReaddirEntriesIter_new, get_le, get, get_range.
  case_decide as Hl; [|done]. cbn [ok_or fmap outcome_fmap mbind outcome_bind].
  change (Z.to_nat (2 - 0)) with 2%nat. rewrite drop_0. cbn [iter_remaining].
  assert (0 <= from_le_bytes (take 2 raw)) as Hc.
  { apply (Forall_take _ 2) in Hr. by apply from_le_bytes_bound in Hr as [? _]. }
  edestruct iter_collect_total as (es & -> & ? & ?); [| |done]; cbn; lia.
Qed.

Lemma scheme_response_untrusted_witness :
  let buf := [1; 0; 0; 0; 0; 0; 0; 0; 0; 1; 0] in
  let raw := [2; 0; 1; 1; 97] in
  no_panic (SchemeResponse_decode buf) ∧
  (∀ r, SchemeResponse_decode buf = Ok r → answers buf r) ∧
  ensures (readdir_entries raw) (λ es,
    len es <= from_le_bytes (take 2 raw) ∧
    Forall (λ e, utf8_valid (entry_name e) = true) es).
Proof. apply scheme_response_untrusted; by repeat constructor. Defined.
