(* ===== verification/RingBuffer.v ===== *)
(** * The fixed-capacity ring buffer ([crates/ring-buffer/src/lib.rs])

    The detailed structure is the backing [Vec] with a write cursor; the
    abstract one is the queue of live entries, oldest first.  A method that
    hands out a [&mut T] is modelled by the value together with the function
    that writes through the reference. *)

From S2P Require Import Prelude.

Record RingBuffer (A : Type) := mkRing {
  rb_buf : list A;
  rb_cap : Z;
  rb_head : Z;
  rb_len : Z;
}.
Arguments mkRing {A}.
Arguments rb_buf {A}.
Arguments rb_cap {A}.
Arguments rb_head {A}.
Arguments rb_len {A}.

Section ring.
Context {A : Type}.
Implicit Types (rb : RingBuffer A) (x : A).

Definition ring_new (capacity : Z) : outcome Empty_set (RingBuffer A) :=
  if decide (capacity > 0) then Ok (mkRing [] capacity 0 0) else Panic.

Definition ring_is_empty rb : bool := rb_len rb =? 0.
Definition ring_is_full rb : bool := rb_len rb =? rb_cap rb.

Definition ring_push rb x : outcome Empty_set (RingBuffer A * option A) :=
  let cap := rb_cap rb in
  if decide (len (rb_buf rb) < cap) then
    let buf := rb_buf rb ++ [x] in
    Ok (mkRing buf cap (len buf mod cap) (len buf), None)
  else
    old ← index (rb_buf rb) (rb_head rb);
    buf ← set_index (rb_buf rb) (rb_head rb) x;
    Ok (mkRing buf cap ((rb_head rb + 1) mod cap) (rb_len rb), Some old).

Definition next_evictable rb : outcome Empty_set (option (A * (A → RingBuffer A))) :=
  if ring_is_full rb then
    old ← index (rb_buf rb) (rb_head rb);
    Ok (Some (old, λ x,
      mkRing (<[Z.to_nat (rb_head rb) := x]> (rb_buf rb)) (rb_cap rb) (rb_head rb) (rb_len rb)))
  else Ok None.

Definition advance_head rb : outcome Empty_set (RingBuffer A) :=
  if ring_is_full rb
  then Ok (mkRing (rb_buf rb) (rb_cap rb) ((rb_head rb + 1) mod rb_cap rb) (rb_len rb))
  else Panic.

(** The closure is given by its two cases: on the evicted slot it returns the
    slot as it leaves it and possibly a replacement, without a slot possibly a
    new item. *)
Definition push_or_recycle rb (recycle_slot : A → A * option A) (recycle_none : option A) :
    outcome Empty_set (RingBuffer A) :=
  if ring_is_full rb then
    slot ← index (rb_buf rb) (rb_head rb);
    let '(slot', result) := recycle_slot slot in
    buf ← set_index (rb_buf rb) (rb_head rb) slot';
    buf ← match result with
          | Some new_item => set_index buf (rb_head rb) new_item
          | None => Ok buf
          end;
    Ok (mkRing buf (rb_cap rb) ((rb_head rb + 1) mod rb_cap rb) (rb_len rb))
  else
    match recycle_none with
    | Some item =>
        let buf := rb_buf rb ++ [item] in
        Ok (mkRing buf (rb_cap rb) (len buf mod rb_cap rb) (len buf))
    | None => Ok rb
    end.

Definition ring_actual rb (i : Z) : Z :=
  if ring_is_full rb then (rb_head rb + i) mod rb_cap rb else i.

Definition ring_get rb (i : Z) : outcome Empty_set (option A) :=
  if decide (i >= rb_len rb) then Ok None else
  Some <$> index (rb_buf rb) (ring_actual rb i).

Definition ring_get_mut rb (i : Z) : outcome Empty_set (option (A * (A → RingBuffer A))) :=
  if decide (i >= rb_len rb) then Ok None else
  x ← index (rb_buf rb) (ring_actual rb i);
  Ok (Some (x, λ y,
    mkRing (<[Z.to_nat (ring_actual rb i) := y]> (rb_buf rb)) (rb_cap rb) (rb_head rb) (rb_len rb))).

Definition ring_last rb : outcome Empty_set (option A) :=
  if decide (rb_len rb = 0) then Ok None else ring_get rb (rb_len rb - 1).

Definition ring_last_mut rb : outcome Empty_set (option (A * (A → RingBuffer A))) :=
  if decide (rb_len rb = 0) then Ok None else ring_get_mut rb (rb_len rb - 1).

Definition ring_clear rb : RingBuffer A := mkRing [] (rb_cap rb) 0 0.

(** [RingBufferIter]: the buffer and the next index. *)
Definition iter_next rb (i : Z) : outcome Empty_set (option (A * Z)) :=
  o ← ring_get rb i;
  Ok (match o with Some x => Some (x, i + 1) | None => None end).

Fixpoint iter_run (fuel : nat) rb (i : Z) : outcome Empty_set (list A) :=
  match fuel with
  | O => OutOfFuel
  | S fuel =>
      o ← iter_next rb i;
      match o with
      | None => Ok []
      | Some (x, i') => cons x <$> iter_run fuel rb i'
      end
  end.

(** [iter().collect()]: [get] ends the iteration at [len], which bounds the
    fuel. *)
Definition ring_iter rb : outcome Empty_set (list A) := iter_run (S (Z.to_nat (rb_len rb))) rb 0.

(** ** Invariant and abstraction *)
Definition ring_inv rb : Prop :=
  0 < rb_cap rb ∧ len (rb_buf rb) = rb_len rb ∧ rb_len rb <= rb_cap rb ∧
  0 <= rb_head rb < rb_cap rb ∧ (rb_len rb < rb_cap rb → rb_head rb = rb_len rb).

(** The live entries, oldest first. *)
Definition contents rb : list A :=
  if ring_is_full rb
  then drop (Z.to_nat (rb_head rb)) (rb_buf rb) ++ take (Z.to_nat (rb_head rb)) (rb_buf rb)
  else rb_buf rb.

(** The abstract bounded queue. *)
Definition queue_push (cap : Z) (q : list A) x : list A * option A :=
  if decide (len q < cap) then (q ++ [x], None) else (tail q ++ [x], head q).

(** ** Lemmas *)
Lemma is_full_eq rb : ring_is_full rb = bool_decide (rb_len rb = rb_cap rb).
Proof. unfold ring_is_full. by case_bool_decide; [apply Z.eqb_eq|apply Z.eqb_neq]. Qed.

Lemma contents_split (l1 l2 : list A) x cap n :
  n = cap → len (l1 ++ x :: l2) = cap →
  contents (mkRing (l1 ++ x :: l2) cap (len l1) n) = x :: l2 ++ l1.
Proof.
  intros -> Hl. unfold contents. rewrite is_full_eq. cbn [rb_buf rb_head rb_len rb_cap].
  rewrite bool_decide_true by done. unfold len.
  by rewrite Nat2Z.id, drop_app_length, take_app_length.
Qed.

(** Overwriting the oldest slot of a full ring and advancing the cursor. *)
Lemma overwrite_oldest (l1 l2 : list A) o x cap :
  len (l1 ++ o :: l2) = cap →
  let rb' := mkRing (l1 ++ x :: l2) cap ((len l1 + 1) mod cap) cap in
  ring_inv rb' ∧ contents rb' = l2 ++ l1 ++ [x].
Proof.
  intros Hl rb'. subst rb'. unfold ring_inv. cbn [rb_buf rb_cap rb_head rb_len].
  assert (0 < cap ∧ 0 <= (len l1 + 1) mod cap < cap) as [? ?].
  { split; [len_lia|]. apply Z.mod_pos_bound. len_lia. }
  split; [split_and!; [len_lia|len_lia|lia|lia|lia|lia]|].
  destruct (decide (len l1 + 1 = cap)) as [He|He].
  - rewrite He, Z.mod_same by lia.
    assert (l2 = []) as -> by (apply length_zero_iff_nil; len_lia).
    unfold contents. rewrite is_full_eq. cbn. rewrite bool_decide_true by done.
    by rewrite drop_0, app_nil_r.
  - rewrite Z.mod_small by len_lia. destruct l2 as [|y l2]; [len_lia|].
    replace (l1 ++ x :: y :: l2) with ((l1 ++ [x]) ++ y :: l2) by (by rewrite <- app_assoc).
    replace (len l1 + 1) with (len (l1 ++ [x])) by len_lia.
    rewrite contents_split; [by rewrite <- app_comm_cons|done|]. len_lia.
Qed.

(** A full ring is its older part, the oldest entry and the rest. *)
Lemma full_split rb :
  ring_inv rb → rb_len rb = rb_cap rb →
  ∃ l1 o l2 cap, rb = mkRing (l1 ++ o :: l2) cap (len l1) cap ∧ len (l1 ++ o :: l2) = cap.
Proof.
  destruct rb as [buf cap h n]. intros (Hc & Hb & _ & Hh & _) Hfull.
  cbn [rb_buf rb_cap rb_head rb_len] in *. subst n.
  destruct (lookup_lt_is_Some_2 buf (Z.to_nat h)) as [o Ho]; [len_lia|].
  exists (take (Z.to_nat h) buf), o, (drop (S (Z.to_nat h)) buf), cap.
  rewrite take_drop_middle by done. split; [|lia]. f_equal; len_lia.
Qed.

(** Appending to a ring that is not full. *)
Lemma append_inv buf cap n x :
  ring_inv (mkRing buf cap (len buf) n) → len buf < cap →
  let rb' := mkRing (buf ++ [x]) cap (len (buf ++ [x]) mod cap) (len (buf ++ [x])) in
  ring_inv rb' ∧ contents rb' = buf ++ [x].
Proof.
  intros (Hc & Hb & _ & _ & _) Hlt rb'. cbn [rb_buf rb_cap rb_len] in *. subst rb'.
  assert (0 <= len (buf ++ [x]) mod cap < cap) by (apply Z.mod_pos_bound; lia).
  unfold ring_inv, contents. rewrite is_full_eq. cbn [rb_buf rb_cap rb_head rb_len].
  split; [split_and!; [lia|done|len_lia|lia|lia|]|].
  - intros. by rewrite Z.mod_small by len_lia.
  - case_bool_decide as He; [|done]. rewrite He, Z.mod_same by lia. by rewrite drop_0, app_nil_r.
Qed.

Lemma not_full_shape rb :
  ring_inv rb → rb_len rb ≠ rb_cap rb →
  ∃ buf cap, rb = mkRing buf cap (len buf) (len buf) ∧ len buf < cap ∧ contents rb = buf.
Proof.
  destruct rb as [buf cap h n]. unfold ring_inv, contents. rewrite is_full_eq. cbn.
  intros (? & ? & ? & ? & Hh) Hn. rewrite bool_decide_false by done.
  exists buf, cap. split_and!; [f_equal; lia|lia|done].
Qed.

Lemma len_contents rb : ring_inv rb → len (contents rb) = rb_len rb.
Proof.
  intros (? & ? & ? & ? & _). unfold contents. destruct (ring_is_full rb); len_lia.
Qed.

Lemma ring_push_refines rb x :
  ring_inv rb →
  ∃ rb' o, ring_push rb x = Ok (rb', o) ∧ ring_inv rb' ∧ rb_cap rb' = rb_cap rb ∧
    queue_push (rb_cap rb) (contents rb) x = (contents rb', o).
Proof.
  intros Hinv. unfold ring_push, queue_push. rewrite len_contents by done.
  destruct (decide (rb_len rb = rb_cap rb)) as [Hf|Hf].
  - destruct (full_split rb Hinv Hf) as (l1 & o & l2 & cap & -> & Hl).
    cbn [rb_buf rb_cap rb_head rb_len] in *. rewrite !decide_False by lia.
    rewrite index_middle. cbn [mbind outcome_bind]. rewrite set_index_middle.
    destruct (overwrite_oldest l1 l2 o x cap) as [? Hc]; [done|].
    do 2 eexists. split_and!; [done..|]. rewrite contents_split by done.
    rewrite Hc. cbn. by rewrite <- app_assoc.
  - destruct (not_full_shape rb Hinv Hf) as (buf & cap & -> & Hlt & Hc).
    cbn [rb_buf rb_cap rb_head rb_len] in *. rewrite !decide_True by done.
    destruct (append_inv buf cap (len buf) x) as [? Hc']; [done..|].
    do 2 eexists. split_and!; [done..|]. by rewrite Hc', Hc.
Qed.

Lemma push_or_recycle_refines rb slot none_ :
  ring_inv rb →
  ∃ rb', push_or_recycle rb slot none_ = Ok rb' ∧ ring_inv rb' ∧
    rb_cap rb' = rb_cap rb ∧
    contents rb' =
      match (if ring_is_full rb then
               match head (contents rb) with
               | Some o => let '(o', r) := slot o in Some (default o' r)
               | None => None
               end
             else none_) with
      | Some y => (queue_push (rb_cap rb) (contents rb) y).1
      | None => contents rb
      end.
Proof.
  intros Hinv. unfold push_or_recycle, queue_push. rewrite is_full_eq, len_contents by done.
  case_bool_decide as Hf.
  - destruct (full_split rb Hinv Hf) as (l1 & o & l2 & cap & -> & Hl).
    cbn [rb_buf rb_cap rb_head rb_len] in *. rewrite contents_split by done. cbn [head].
    rewrite index_middle. cbn [mbind outcome_bind]. destruct (slot o) as [o' r].
    rewrite set_index_middle. cbn [mbind outcome_bind]. rewrite decide_False by lia.
    destruct r as [y|]; cbn [mbind outcome_bind default];
      rewrite ?set_index_middle; cbn [mbind outcome_bind];
      (eexists; split; [done|]); cbn [tail fst]; rewrite <- app_assoc.
    + by destruct (overwrite_oldest l1 l2 o y cap Hl).
    + by destruct (overwrite_oldest l1 l2 o o' cap Hl).
  - destruct (not_full_shape rb Hinv Hf) as (buf & cap & -> & Hlt & Hc).
    cbn [rb_buf rb_cap rb_head rb_len] in *. rewrite Hc. destruct none_ as [y|]; [|by eauto].
    rewrite decide_True by done. destruct (append_inv buf cap (len buf) y) as [? Hc']; [done..|].
    by eauto.
Qed.

Lemma mod_once a c : 0 <= a < 2 * c → a mod c = if decide (a < c) then a else a - c.
Proof.
  intros Ha. case_decide; [apply Z.mod_small; lia|]. symmetry. apply (Z.mod_unique_pos _ _ 1); lia.
Qed.

(** Logical index [i] is the [i]-th oldest entry. *)
Lemma contents_lookup rb i :
  ring_inv rb → 0 <= i < rb_len rb →
  contents rb !! Z.to_nat i = rb_buf rb !! Z.to_nat (ring_actual rb i) ∧
  0 <= ring_actual rb i < len (rb_buf rb).
Proof.
  intros Hinv Hi. unfold contents, ring_actual. rewrite is_full_eq.
  destruct Hinv as (Hc & Hb & Hle & Hh & _). case_bool_decide as Hf; [|split; [done|lia]].
  rewrite mod_once by lia. case_decide.
  - split; [|lia].
    rewrite lookup_app_l by (rewrite length_drop; len_lia).
    rewrite lookup_drop. f_equal. lia.
  - split; [|lia]. rewrite lookup_app_r by (rewrite length_drop; len_lia).
    rewrite length_drop, lookup_take_lt by len_lia. f_equal. len_lia.
Qed.

Lemma ring_get_refines rb i :
  ring_inv rb → 0 <= i → ring_get rb i = Ok (contents rb !! Z.to_nat i).
Proof.
  intros Hinv Hi. unfold ring_get. pose proof (len_contents rb Hinv). case_decide.
  - by rewrite lookup_ge_None_2 by len_lia.
  - destruct (contents_lookup rb i) as [-> Hr]; [done|lia|].
    by destruct (index_lookup (E:=Empty_set) _ _ Hr) as (x & -> & ->).
Qed.

(** Writing through [get_mut] changes the entry at that logical index only. *)
Lemma ring_get_mut_refines rb i :
  ring_inv rb → 0 <= i →
  ∃ o, ring_get_mut rb i = Ok o ∧
    match o with
    | None => rb_len rb <= i
    | Some (x, put) => contents rb !! Z.to_nat i = Some x ∧
        ∀ y, ring_inv (put y) ∧ ∀ j, 0 <= j →
          contents (put y) !! Z.to_nat j =
            if decide (j = i) then Some y else contents rb !! Z.to_nat j
    end.
Proof.
  intros Hinv Hi. unfold ring_get_mut. case_decide as Hlt.
  { exists None. split; [done|]. lia. }
  destruct (contents_lookup rb i) as [Hc Hr]; [done|lia|].
  destruct (index_lookup (E:=Empty_set) _ _ Hr) as (x & Hx & ->).
  eexists. split; [done|]. cbn. split; [congruence|]. intros y.
  set (rb' := mkRing _ _ _ _).
  assert (ring_inv rb') as Hinv'.
  { subst rb'. destruct Hinv as (? & ? & ? & ? & ?). unfold ring_inv. cbn.
    split_and!; [done|unfold len in *; by rewrite length_insert|done|lia|lia|done]. }
  split; [done|]. intros j Hj.
  assert (rb_len rb' = rb_len rb) as Hlen by done.
  destruct (decide (j < rb_len rb)) as [Hjl|Hjl].
  - destruct (contents_lookup rb j) as [-> Hrj]; [done|lia|].
    destruct (contents_lookup rb' j) as [-> Hrj']; [done|lia|].
    subst rb'. cbn [rb_buf].
    change (ring_actual (mkRing _ _ _ _) j) with (ring_actual rb j).
    case_decide as Hji; [subst; apply list_lookup_insert_eq; len_lia|].
    apply list_lookup_insert_ne. intros Heq.
    apply Hji. assert (ring_actual rb j = ring_actual rb i) as Ha by lia. revert Ha.
    clear -Hinv Hi Hlt Hj Hjl. destruct Hinv as (? & ? & ? & ? & ?).
    unfold ring_actual. rewrite is_full_eq. case_bool_decide; [|done].
    rewrite !mod_once by lia. repeat case_decide; lia.
  - pose proof (len_contents rb Hinv). pose proof (len_contents rb' Hinv').
    rewrite decide_False by lia. rewrite !lookup_ge_None_2 by len_lia. done.
Qed.

Lemma iter_run_refines rb fuel : ∀ i,
  ring_inv rb → 0 <= i <= rb_len rb → (Z.to_nat (rb_len rb - i) < fuel)%nat →
  iter_run fuel rb i = Ok (drop (Z.to_nat i) (contents rb)).
Proof.
  induction fuel as [|fuel IH]; intros i Hinv Hi Hf; [lia|]. cbn [iter_run].
  unfold iter_next. rewrite ring_get_refines by (done || lia). cbn [mbind outcome_bind].
  pose proof (len_contents rb Hinv).
  destruct (contents rb !! Z.to_nat i) as [x|] eqn:Hx.
  - pose proof (lookup_lt_Some _ _ _ Hx). rewrite IH by (done || len_lia). cbn.
    rewrite (drop_S _ _ _ Hx). do 3 f_equal. lia.
  - apply lookup_ge_None_1 in Hx. by rewrite drop_ge.
Qed.

(** Pushing a sequence, collecting what is evicted. *)
Fixpoint push_all rb (xs : list A) : outcome Empty_set (RingBuffer A * list A) :=
  match xs with
  | [] => Ok (rb, [])
  | x :: xs =>
      '(rb', o) ← ring_push rb x;
      '(rb'', evicted) ← push_all rb' xs;
      Ok (rb'', option_list o ++ evicted)
  end.

Lemma ring_iter_contents rb : ring_inv rb → ring_iter rb = Ok (contents rb).
Proof.
  intros Hinv. unfold ring_iter. destruct Hinv as (? & ? & ? & ? & ?).
  rewrite iter_run_refines; [by rewrite drop_0|done|len_lia|lia].
Qed.

(** Pushes keep the order of arrival, evict from the front and never shrink. *)
Lemma push_all_fifo xs : ∀ rb,
  ring_inv rb →
  ∃ rb' evicted, push_all rb xs = Ok (rb', evicted) ∧ ring_inv rb' ∧
    contents rb ++ xs = evicted ++ contents rb' ∧ rb_cap rb' = rb_cap rb ∧
    len (contents rb') = Z.min (rb_cap rb) (len (contents rb) + len xs).
Proof.
  induction xs as [|x xs IH]; intros rb Hinv; cbn [push_all].
  { exists rb, []. pose proof (len_contents rb Hinv). destruct Hinv as (? & ? & ? & ?).
    split_and!; [done|done|by rewrite app_nil_r|done|len_lia]. }
  destruct (ring_push_refines rb x Hinv) as (rb1 & o & -> & Hinv1 & Hcap & Hq).
  cbn [mbind outcome_bind].
  destruct (IH rb1 Hinv1) as (rb2 & ev & -> & Hinv2 & Heq & Hcap2 & Hlen). cbn.
  exists rb2, (option_list o ++ ev). split_and!; [done..| |congruence|].
  - rewrite <- app_assoc, <- Heq. revert Hq. unfold queue_push. case_decide; intros [= <- <-].
    + by rewrite <- app_assoc.
    + pose proof (len_contents rb Hinv). destruct Hinv as (? & _).
      destruct (contents rb); [len_lia|]. cbn. by rewrite <- app_assoc.
  - rewrite Hlen, Hcap. pose proof (len_contents rb Hinv). pose proof (len_contents rb1 Hinv1).
    destruct Hinv as (? & ? & ? & ?). revert Hq. unfold queue_push.
    case_decide; intros [= Hc _]; rewrite <- Hc; [len_lia|].
    destruct (contents rb); [len_lia|]. cbn [tail]. len_lia.
Qed.

Lemma contents_nil cap h n : contents (mkRing (A:=A) [] cap h n) = [].
Proof. unfold contents. case_match; [|done]. cbn. by rewrite drop_nil, take_nil. Qed.

(** The ring keeps the newest entries: pushing any sequence into a new
    buffer of capacity [cap] never panics, the iterator then yields the last
    [cap] pushed entries (all, when fewer), oldest first, and the entries
    evicted on the way are exactly the others, in the order pushed. *)
Theorem ring_keeps_newest (cap : Z) (xs : list A) :
  cap > 0 →
  ∃ rb0 rb evicted live,
    ring_new cap = Ok rb0 ∧ push_all rb0 xs = Ok (rb, evicted) ∧
    ring_iter rb = Ok live ∧ evicted ++ live = xs ∧ len live = Z.min cap (len xs).
Proof.
  intros Hcap. unfold ring_new. rewrite decide_True by done.
  assert (ring_inv (mkRing (A:=A) [] cap 0 0)) as Hinv
    by (unfold ring_inv, len; cbn; lia).
  destruct (push_all_fifo xs _ Hinv) as (rb & ev & Hp & Hinv' & Heq & _ & Hlen).
  exists (mkRing [] cap 0 0), rb, ev, (contents rb).
  rewrite contents_nil in Heq, Hlen. cbn in Hlen.
  split_and!; [done|done|by apply ring_iter_contents|done|len_lia].
Qed.

(** Every operation of the detailed structure implements the abstract
    queue of live entries and keeps the invariant: [push] is the bounded
    queue's push with its eviction, [get] reads the [i]-th oldest, a write
    through [get_mut] changes that entry only, and [push_or_recycle] pushes
    whatever its closure leaves or returns. *)
Theorem ring_refines_queue (rb : RingBuffer A) :
  ring_inv rb →
  (∀ x, ∃ rb' o, ring_push rb x = Ok (rb', o) ∧ ring_inv rb' ∧
    queue_push (rb_cap rb) (contents rb) x = (contents rb', o)) ∧
  (∀ i, 0 <= i → ring_get rb i = Ok (contents rb !! Z.to_nat i)) ∧
  (∀ i, 0 <= i → ∃ o, ring_get_mut rb i = Ok o ∧
    match o with
    | None => rb_len rb <= i
    | Some (x, put) => contents rb !! Z.to_nat i = Some x ∧
        ∀ y, ring_inv (put y) ∧ ∀ j, 0 <= j →
          contents (put y) !! Z.to_nat j =
            if decide (j = i) then Some y else contents rb !! Z.to_nat j
    end) ∧
  (∀ slot new_item, ∃ rb', push_or_recycle rb slot new_item = Ok rb' ∧ ring_inv rb' ∧
    contents rb' =
      match (if ring_is_full rb then
               match head (contents rb) with
               | Some o => let '(o', r) := slot o in Some (default o' r)
               | None => None
               end
             else new_item) with
      | Some y => (queue_push (rb_cap rb) (contents rb) y).1
      | None => contents rb
      end).
Proof.
  intros Hinv. split_and!.
  - intros x. destruct (ring_push_refines rb x Hinv) as (rb' & o & ? & ? & ? & ?). eauto 10.
  - intros i Hi. by apply ring_get_refines.
  - intros i Hi. by apply ring_get_mut_refines.
  - intros slot new_item.
    destruct (push_or_recycle_refines rb slot new_item Hinv) as (rb' & ? & ? & ? & ?). eauto.
Qed.

End ring.

Lemma ring_keeps_newest_witness :
  ∃ rb0 rb evicted live,
    ring_new 3 = Ok rb0 ∧ push_all rb0 [10; 20; 30; 40; 50] = Ok (rb, evicted) ∧
    ring_iter rb = Ok live ∧ evicted ++ live = [10; 20; 30; 40; 50] ∧
    len live = Z.min 3 (len [10; 20; 30; 40; 50]).
Proof. apply ring_keeps_newest. lia. Defined.

Lemma ring_refines_queue_witness :
  ring_inv (mkRing [40; 20; 30] 3 1 3) ∧
  ∃ rb' o, ring_push (mkRing [40; 20; 30] 3 1 3) 50 = Ok (rb', o) ∧ ring_inv rb' ∧
    queue_push 3 (contents (mkRing [40; 20; 30] 3 1 3)) 50 = (contents rb', o).
Proof.
  assert (ring_inv (mkRing [40; 20; 30] 3 1 3)) as Hinv by (unfold ring_inv, len; cbn; lia).
  split; [exact Hinv|]. exact (proj1 (ring_refines_queue _ Hinv) 50).
Defined.
