(* ===== verification/Path.v ===== *)
(** * Path canonicalization ([panda-abi/src/path.rs])

    The VFS resolves every path through [canonicalize_path_to_buf] before it
    looks for a mount.  The function keeps the positions of the surviving
    components in an array of 64 entries and renders them into the caller's
    buffer; [resolve] is the abstract reading, a stack of components. *)

From S2P Require Import Prelude Utf8 Buffers.

Definition SLASH : Z := 47.
Definition DOT : Z := 46.

(** ** [is_canonical] *)

(** The inner [while]: the length of the component at the front. *)
Fixpoint component_len (bs : list Z) : nat :=
  match bs with
  | [] => O
  | b :: bs => if b =? SLASH then O else S (component_len bs)
  end.

(** The outer [while i < bytes.len()].  Each round moves [i] forward, so the
    length bounds the rounds. *)
Fixpoint check_components (fuel : nat) (bytes : list Z) (i : Z) : outcome Empty_set bool :=
  match fuel with
  | O => OutOfFuel
  | S fuel =>
      if decide (i < len bytes) then
        let start := i in
        let i := start + Z.of_nat (component_len (drop (Z.to_nat start) bytes)) in
        component ← slice bytes start i;
        if decide (component = []) then Ok false
        else if decide (component = [DOT] ∨ component = [DOT; DOT]) then Ok false
        else check_components fuel bytes (i + 1)
      else Ok true
  end.

Definition is_canonical (path : str) : outcome Empty_set bool :=
  if decide (head path ≠ Some SLASH) then Ok false
  else if decide (len path = 1) then Ok true
  else if decide (last path = Some SLASH) then Ok false
  else check_components (S (length path)) path 1.

(** ** [canonicalize_path_to_buf] *)

(** [path.split('/')]: each piece with the offset it starts at. *)
Fixpoint split_slash (start : Z) (piece rest : str) : list (Z * str) :=
  match rest with
  | [] => [(start, piece)]
  | b :: rest =>
      if b =? SLASH then (start, piece) :: split_slash (start + len piece + 1) [] rest
      else split_slash start (piece ++ [b]) rest
  end.

(** [.filter(|s| !s.is_empty())]. *)
Definition nonempty (c : Z * str) : bool := match c.2 with [] => false | _ => true end.

Definition components (path : str) : list (Z * str) :=
  filter nonempty (split_slash 0 [] path).

Definition MAX_COMPONENTS : Z := 64.

(** The loop over the components: [positions] and [count].  [Err tt] is the
    [return None] of a path that is too deep. *)
Fixpoint collect_components (cs : list (Z * str)) (positions : list (Z * Z)) (count : Z) :
    outcome () (list (Z * Z) * Z) :=
  match cs with
  | [] => Ok (positions, count)
  | (start, component) :: cs =>
      if decide (component = [DOT]) then collect_components cs positions count
      else if decide (component = [DOT; DOT]) then
        collect_components cs positions (if decide (count > 0) then count - 1 else count)
      else if decide (count >= MAX_COMPONENTS) then Err tt
      else
        positions ← set_index positions count (start, len component);
        collect_components cs positions (count + 1)
  end.

(** [for i in 0..count { needed += 1 + positions[i].1 }]; [n] rounds are left. *)
Fixpoint needed_size (n : nat) (positions : list (Z * Z)) (i needed : Z) : outcome Empty_set Z :=
  match n with
  | O => Ok needed
  | S n => p ← index positions i; needed_size n positions (i + 1) (needed + (1 + p.2))
  end.

Fixpoint write_components (n : nat) (path : str) (positions : list (Z * Z)) (i pos : Z) : BufM Z :=
  match n with
  | O => mret pos
  | S n =>
      p ← lift (index positions i);
      store pos [SLASH];;
      bytes ← lift (slice path p.1 (p.1 + p.2));
      store (pos + 1) bytes;;
      write_components n path positions (i + 1) (pos + 1 + p.2)
  end.

Definition canonicalize_path_to_buf (path : str) : BufM str :=
  match collect_components (components path) (replicate (Z.to_nat MAX_COMPONENTS) (0, 0)) 0 with
  | Ok (positions, count) =>
      if decide (count = 0) then
        n ← buf_len;
        if decide (n = 0) then none else
        store 0 [SLASH];;
        load 0 1
      else
        needed ← lift (needed_size (Z.to_nat count) positions 0 0);
        n ← buf_len;
        if decide (needed > n) then none else
        pos ← write_components (Z.to_nat count) path positions 0 0;
        load 0 pos
  | Err _ => none
  | Panic => λ _, Panic
  | OutOfFuel => λ _, OutOfFuel
  end.

(** ** Abstract reading *)

(** Resolving components on a stack; [None] when it would exceed 64. *)
Fixpoint resolve (cs stack : list str) : option (list str) :=
  match cs with
  | [] => Some stack
  | c :: cs =>
      if decide (c = [DOT]) then resolve cs stack
      else if decide (c = [DOT; DOT]) then resolve cs (removelast stack)
      else if decide (len stack >= MAX_COMPONENTS) then None
      else resolve cs (stack ++ [c])
  end.

Definition join (cs : list str) : str := concat ((λ c, SLASH :: c) <$> cs).

Definition render (cs : list str) : str :=
  match cs with [] => [SLASH] | _ => join cs end.

(** A component of a canonical path. *)
Definition good (c : str) : Prop := c ≠ [] ∧ (SLASH ∉ c) ∧ c ≠ [DOT] ∧ c ≠ [DOT; DOT].

#[export] Instance good_dec c : Decision (good c).
Proof. unfold good. apply _. Defined.

(** What the whole function computes. *)
Definition canonical_form (path : str) : option str :=
  render <$> resolve (snd <$> components path) [].

Definition pieces (s : str) : list str := snd <$> split_slash 0 [] s.

(** ** Splitting and joining *)
Lemma join_cons c cs : join (c :: cs) = SLASH :: c ++ join cs.
Proof. done. Qed.

Lemma join_app cs cs' : join (cs ++ cs') = join cs ++ join cs'.
Proof. unfold join. by rewrite fmap_app, concat_app. Qed.

Lemma split_no_slash c : ∀ start piece rest,
  SLASH ∉ c → split_slash start piece (c ++ rest) = split_slash start (piece ++ c) rest.
Proof.
  induction c as [|b c IH]; intros start piece rest Hc; [by rewrite app_nil_r|].
  apply not_elem_of_cons in Hc as [Hb Hc]. cbn [app split_slash].
  rewrite (proj2 (Z.eqb_neq b SLASH)) by done. rewrite IH by done. by rewrite <- app_assoc.
Qed.

Lemma split_pieces rest : ∀ start start' piece,
  snd <$> split_slash start piece rest = snd <$> split_slash start' piece rest.
Proof.
  induction rest as [|b rest IH]; intros start start' piece; [done|].
  cbn [split_slash]. destruct (b =? SLASH); [|apply IH]. cbn. f_equal. apply IH.
Qed.

Lemma pieces_slash c rest : SLASH ∉ c → pieces (c ++ SLASH :: rest) = c :: pieces rest.
Proof.
  intros Hc. unfold pieces. rewrite split_no_slash by done. cbn. f_equal. apply split_pieces.
Qed.

Lemma pieces_end c : SLASH ∉ c → pieces c = [c].
Proof. intros Hc. unfold pieces. by rewrite <- (app_nil_r c), split_no_slash, app_nil_r by done. Qed.

(** Cutting a string at its first slash. *)
Lemma first_slash s :
  let c := take (component_len s) s in
  (SLASH ∉ c) ∧ (s = c ∨ ∃ rest, s = c ++ SLASH :: rest).
Proof.
  induction s as [|b s [Hn Hs]]; cbn; [split; [apply not_elem_of_nil|by left]|].
  destruct (Z.eqb_spec b SLASH) as [->|Hb]; cbn.
  - split; [apply not_elem_of_nil|]. right. by exists s.
  - split; [by apply not_elem_of_cons|].
    destruct Hs as [Hs|[rest Hs]]; [left|right; exists rest]; by rewrite Hs at 1.
Qed.

(** Induction on the pieces of a string. *)
Lemma slash_ind (P : str → Prop) :
  (∀ c, SLASH ∉ c → P c) → (∀ c rest, SLASH ∉ c → P rest → P (c ++ SLASH :: rest)) → ∀ s, P s.
Proof.
  intros Hend Hcons s. assert (∀ n s, (length s <= n)%nat → P s) as H; [|by eapply H].
  clear s. induction n as [|n IH]; intros s Hn;
    destruct (first_slash s) as [Hc [Hs|[rest Hs]]]; [by rewrite Hs; apply Hend| |by rewrite Hs; apply Hend|].
  - rewrite Hs, length_app in Hn. cbn in Hn. lia.
  - rewrite Hs. apply Hcons; [done|]. apply IH. rewrite Hs, length_app in Hn. cbn in Hn. lia.
Qed.

Lemma join_pieces s : join (pieces s) = SLASH :: s.
Proof.
  induction s as [c Hc|c rest Hc IH] using slash_ind.
  - rewrite pieces_end by done. unfold join. cbn. by rewrite app_nil_r.
  - by rewrite pieces_slash, join_cons, IH by done.
Qed.

Lemma pieces_join c cs :
  SLASH ∉ c → Forall (λ c, SLASH ∉ c) cs → pieces (c ++ join cs) = c :: cs.
Proof.
  intros Hc Hcs. revert c Hc. induction Hcs as [|d cs Hd Hcs IH]; intros c Hc.
  - unfold join. cbn. rewrite app_nil_r. by apply pieces_end.
  - rewrite join_cons, pieces_slash by done. by rewrite IH.
Qed.

Lemma pieces_no_slash s : Forall (λ c, SLASH ∉ c) (pieces s).
Proof.
  induction s as [c Hc|c rest Hc IH] using slash_ind.
  - rewrite pieces_end by done. by constructor.
  - rewrite pieces_slash by done. by constructor.
Qed.

(** ** [is_canonical] *)
Lemma last_app_cons {A} (l k : list A) x : last (l ++ x :: k) = last (x :: k).
Proof.
  rewrite last_app. destruct (last (x :: k)) eqn:Hl; [done|]. by apply last_None in Hl.
Qed.

Lemma component_len_app c rest :
  SLASH ∉ c → (rest = [] ∨ head rest = Some SLASH) → component_len (c ++ rest) = length c.
Proof.
  intros Hc Hr. induction c as [|b c IH].
  - destruct Hr as [->|Hr]; [done|]. destruct rest; [done|]. by injection Hr as ->.
  - apply not_elem_of_cons in Hc as [Hb Hc]. cbn.
    rewrite (proj2 (Z.eqb_neq b SLASH)) by done. by rewrite IH.
Qed.

(** One round of the outer loop. *)
Lemma check_round pre c rest fuel :
  SLASH ∉ c → (rest = [] ∨ head rest = Some SLASH) → c ++ rest ≠ [] →
  check_components (S fuel) (pre ++ c ++ rest) (len pre) =
    if decide (good c) then check_components fuel (pre ++ c ++ rest) (len pre + len c + 1)
    else Ok false.
Proof.
  intros Hc Hr Hne. cbn [check_components].
  rewrite decide_True by (destruct (c ++ rest); [done|len_lia]).
  replace (drop (Z.to_nat (len pre)) (pre ++ c ++ rest)) with (c ++ rest)
    by (unfold len; by rewrite Nat2Z.id, drop_app_length).
  rewrite component_len_app by done. rewrite len_fold.
  unfold slice. rewrite get_range_app. cbn [mbind outcome_bind].
  unfold good. repeat case_decide; try done; naive_solver.
Qed.

Lemma check_components_spec rest : ∀ pre fuel,
  rest ≠ [] → last rest ≠ Some SLASH → (length rest < fuel)%nat →
  check_components fuel (pre ++ rest) (len pre) = Ok (bool_decide (Forall good (pieces rest))).
Proof.
  induction rest as [c Hc|c rest Hc IH] using slash_ind; intros pre fuel Hne Hlast Hf;
    (destruct fuel as [|fuel]; [lia|]).
  - rewrite pieces_end by done. pose proof (check_round pre c [] fuel Hc) as Hround.
    rewrite app_nil_r in Hround. rewrite Hround; [|by left|done].
    destruct fuel as [|fuel]; [destruct c; cbn in Hf; [done|lia]|].
    destruct (decide (good c)) as [Hg|Hg];
      [|rewrite bool_decide_false; [done|by rewrite Forall_singleton]].
    cbn [check_components]. rewrite decide_False by len_lia.
    by rewrite bool_decide_true by (by apply Forall_singleton).
  - rewrite check_round; [|done|by right|by destruct c]. rewrite pieces_slash by done.
    rewrite last_app_cons in Hlast. rewrite length_app in Hf. cbn in Hf.
    destruct (decide (good c)) as [Hg|Hg];
      [|rewrite bool_decide_false; [done|by rewrite Forall_cons; intros [? _]]].
    replace (pre ++ c ++ SLASH :: rest) with ((pre ++ c ++ [SLASH]) ++ rest)
      by (by rewrite <- !app_assoc).
    replace (len pre + len c + 1) with (len (pre ++ c ++ [SLASH])) by len_lia.
    destruct rest as [|b rest]; [done|]. rewrite IH; [|done|done|lia].
    f_equal. apply bool_decide_ext. rewrite Forall_cons. naive_solver.
Qed.

Lemma last_join cs : Forall good cs → last (join cs) ≠ Some SLASH.
Proof.
  intros Hcs. induction cs as [|c cs _] using rev_ind; [done|].
  apply Forall_app in Hcs as [_ Hc]. apply Forall_singleton in Hc as (Hne & Hs & _).
  rewrite join_app. unfold join at 2. cbn. rewrite app_nil_r, last_app_cons.
  induction c as [|b c _] using rev_ind; [done|]. rewrite app_comm_cons, last_snoc.
  intros [= ->]. apply Hs. set_solver.
Qed.

Lemma good_no_slash cs : Forall good cs → Forall (λ c, SLASH ∉ c) cs.
Proof. intros H. eapply Forall_impl; [exact H|]. by intros c (_ & ? & _). Qed.

Lemma is_canonical_spec path :
  ∃ b, is_canonical path = Ok b ∧ (b = true ↔ ∃ cs, Forall good cs ∧ path = render cs).
Proof.
  unfold is_canonical. case_decide as Hh.
  { exists false. split; [done|]. split; [done|]. intros (cs & _ & ->). by destruct cs. }
  destruct path as [|b path]; [done|]. injection Hh as ->.
  case_decide as H1.
  { exists true. split; [done|]. split; [|done]. intros _. exists []. split; [done|].
    destruct path; [done|len_lia]. }
  assert (path ≠ []) as Hne by (intros ->; done).
  assert (∀ cs, Forall good cs → SLASH :: path = render cs → cs = pieces path ∧ last path ≠ Some SLASH) as Hcs.
  { intros cs Hg Heq. destruct cs as [|c cs]; [by injection Heq|].
    cbn [render] in Heq. pose proof (last_join _ Hg) as Hl. rewrite <- Heq in Hl.
    split; [|by destruct path]. rewrite join_cons in Heq. injection Heq as ->.
    apply good_no_slash, Forall_cons in Hg as [? ?]. by rewrite pieces_join. }
  case_decide as Hl.
  { exists false. split; [done|]. split; [done|]. intros (cs & Hg & Heq).
    destruct (Hcs cs Hg Heq). by destruct path. }
  rewrite (check_components_spec path [SLASH]); [|done|by destruct path|cbn; lia].
  eexists. split; [done|]. rewrite bool_decide_eq_true. split.
  - intros Hg. exists (pieces path). split; [done|]. rewrite <- join_pieces.
    pose proof (join_pieces path). by destruct (pieces path).
  - intros (cs & Hg & Heq). by destruct (Hcs cs Hg Heq) as [<- _].
Qed.

(** ** The positions array implements the stack *)
Section located.
Context (path : str).

(** [c] is the piece of the path at offset [s]. *)
Definition located (p : Z * str) : Prop :=
  get_range path p.1 (p.1 + len p.2) = Some p.2.

Definition slot_of (p : Z * str) : Z * Z := (p.1, len p.2).

(** The first [count] entries of [positions] are the stack's. *)
Definition implements (positions : list (Z * Z)) (count : Z) (stack : list (Z * str)) : Prop :=
  len positions = MAX_COMPONENTS ∧ count = len stack ∧ count <= MAX_COMPONENTS ∧
  (∃ rest, positions = (slot_of <$> stack) ++ rest) ∧
  Forall located stack ∧ Forall (λ p, good p.2) stack.

Lemma split_located rest : ∀ pre piece,
  path = pre ++ piece ++ rest →
  Forall located (split_slash (len pre) piece rest).
Proof.
  induction rest as [|b rest IH]; intros pre piece Hp; cbn [split_slash].
  - repeat constructor. unfold located. cbn. rewrite Hp. apply get_range_app.
  - destruct (Z.eqb_spec b SLASH) as [->|].
    + constructor; [unfold located; cbn; rewrite Hp; apply get_range_app|].
      replace (len pre + len piece + 1) with (len (pre ++ piece ++ [SLASH])) by len_lia.
      apply IH. by rewrite Hp, <- !app_assoc.
    + apply IH. by rewrite Hp, <- app_assoc.
Qed.

Lemma components_located : Forall (λ p, located p ∧ p.2 ≠ [] ∧ (SLASH ∉ p.2)) (components path).
Proof.
  pose proof (split_located path [] [] eq_refl) as Hl.
  pose proof (pieces_no_slash path) as Hs. unfold pieces in Hs. rewrite Forall_fmap in Hs.
  rewrite Forall_forall in *. intros p Hp. unfold components in Hp.
  apply list_elem_of_filter in Hp as [Hne Hp]. split_and!; [by apply Hl| |by apply Hs].
  unfold nonempty in Hne. by destruct p as [? []].
Qed.

Lemma implements_pop positions stack p :
  implements positions (len (stack ++ [p])) (stack ++ [p]) → implements positions (len stack) stack.
Proof.
  intros (? & ? & ? & [rest ->] & [? _]%Forall_app & [? _]%Forall_app).
  unfold implements. split_and!; [done|done|len_lia| |done|done].
  exists (slot_of p :: rest). by rewrite fmap_app, <- app_assoc.
Qed.

Lemma implements_push positions stack p :
  implements positions (len stack) stack → located p → good p.2 → len stack < MAX_COMPONENTS →
  ∃ positions', set_index (E:=()) positions (len stack) (p.1, len p.2) = Ok positions' ∧
    implements positions' (len stack + 1) (stack ++ [p]).
Proof.
  intros (Hlen & _ & _ & [rest ->] & Hloc & Hgood) Hp Hg Hlt.
  destruct rest as [|x rest]; [unfold len in *; rewrite app_nil_r, length_fmap in *; lia|].
  pose proof (set_index_middle (E:=()) (slot_of <$> stack) rest x (p.1, len p.2)) as Hset.
  replace (len (slot_of <$> stack)) with (len stack) in Hset by (unfold len; by rewrite length_fmap).
  rewrite Hset. eexists. split; [done|].
  unfold implements. split_and!.
  - len_lia.
  - len_lia.
  - lia.
  - exists rest. by rewrite fmap_app, <- app_assoc.
  - apply Forall_app. split; [done|]. by apply Forall_singleton.
  - apply Forall_app. split; [done|]. by apply Forall_singleton.
Qed.

Lemma removelast_pop {A} (l : list A) x : removelast (l ++ [x]) = l.
Proof. by rewrite removelast_app, app_nil_r. Qed.

Lemma collect_implements cs : ∀ positions stack,
  Forall (λ p, located p ∧ p.2 ≠ [] ∧ (SLASH ∉ p.2)) cs →
  implements positions (len stack) stack →
  match collect_components cs positions (len stack) with
  | Ok (positions', count) => ∃ stack', implements positions' count stack' ∧
      resolve (snd <$> cs) (snd <$> stack) = Some (snd <$> stack')
  | Err _ => resolve (snd <$> cs) (snd <$> stack) = None
  | Panic | OutOfFuel => False
  end.
Proof.
  induction cs as [|[start c] cs IH]; intros positions stack Hcs Himp; cbn [collect_components].
  { exists stack. done. }
  apply Forall_cons in Hcs as [(Hloc & Hne & Hns) Hcs]. cbn [fmap list_fmap resolve snd].
  destruct (decide (c = [DOT])); [by apply IH|].
  destruct (decide (c = [DOT; DOT])).
  { induction stack as [|p stack _] using rev_ind.
    - by apply IH.
    - rewrite decide_True by len_lia. rewrite fmap_app. cbn [fmap list_fmap].
      rewrite removelast_pop. replace (len (stack ++ [p]) - 1) with (len stack) by len_lia.
      apply IH; [done|]. by eapply implements_pop. }
  replace (len (snd <$> stack)) with (len stack) by (unfold len; by rewrite length_fmap).
  case_decide; [done|].
  destruct (implements_push positions stack (start, c)) as (positions' & Hset & Himp');
    [done..|lia|]. cbn [fst snd] in Hset. rewrite Hset.
  cbn [mbind outcome_bind]. replace (len stack + 1) with (len (stack ++ [(start, c)])) by len_lia.
  specialize (IH positions' (stack ++ [(start, c)])). rewrite fmap_app in IH. apply IH; [done|].
  by replace (len (stack ++ [(start, c)])) with (len stack + 1) by len_lia.
Qed.

(** ** Rendering *)
Lemma needed_size_join stack : ∀ l rest needed,
  needed_size (length stack) (l ++ (slot_of <$> stack) ++ rest) (len l) needed =
    Ok (needed + len (join (snd <$> stack))).
Proof.
  induction stack as [|p stack IH]; intros l rest needed; cbn [length needed_size].
  { cbn. unfold join. cbn. f_equal. len_lia. }
  cbn [fmap list_fmap app]. rewrite index_middle. cbn [mbind outcome_bind].
  replace (l ++ slot_of p :: (slot_of <$> stack) ++ rest)
    with ((l ++ [slot_of p]) ++ (slot_of <$> stack) ++ rest) by (by rewrite <- app_assoc).
  replace (len l + 1) with (len (l ++ [slot_of p])) by len_lia.
  rewrite IH. f_equal. rewrite join_cons. cbn [slot_of snd]. len_lia.
Qed.

Lemma bind_lift {A B} (a : A) (m : outcome Empty_set A) (k : A → BufM B) buf :
  m = Ok a → (lift m ≫= k) buf = k a buf.
Proof. by intros ->. Qed.

Lemma write_components_join stack : ∀ l rest w buf,
  Forall located stack → len (join (snd <$> stack)) <= len buf →
  write_components (length stack) path (l ++ (slot_of <$> stack) ++ rest) (len l) (len w)
      (w ++ buf) =
    Ok ((w ++ join (snd <$> stack)) ++ drop (length (join (snd <$> stack))) buf,
        Some (len w + len (join (snd <$> stack)))).
Proof.
  induction stack as [|p stack IH]; intros l rest w buf Hloc Hfit; cbn [length write_components].
  { unfold join. cbn. rewrite app_nil_r, drop_0. unfold mret, BufM_ret. do 3 f_equal. len_lia. }
  apply Forall_cons in Hloc as [Hp Hloc]. cbn [fmap list_fmap app] in *. rewrite join_cons in *.
  rewrite (bind_lift (slot_of p)) by apply index_middle. cbn [slot_of fst snd].
  rewrite bind_store by len_lia.
  rewrite (bind_lift p.2) by (unfold slice; by rewrite Hp).
  rewrite bind_store by len_lia.
  replace (l ++ slot_of p :: (slot_of <$> stack) ++ rest)
    with ((l ++ [slot_of p]) ++ (slot_of <$> stack) ++ rest) by (by rewrite <- app_assoc).
  replace (len l + 1) with (len (l ++ [slot_of p])) by len_lia.
  replace (len w + 1 + len p.2) with (len ((w ++ [SLASH]) ++ p.2)) by len_lia.
  rewrite IH by (done || len_lia). apply Ok_eq; [|len_lia].
  rewrite !drop_drop, <- !app_assoc. cbn [length app]. by rewrite <- !app_assoc, length_app.
Qed.

End located.

Lemma bind_Some {A B} (m : BufM A) (k : A → BufM B) buf buf' a :
  m buf = Ok (buf', Some a) → (m ≫= k) buf = k a buf'.
Proof. intros Hm. unfold mbind, BufM_bind. by rewrite Hm. Qed.

Lemma load_prefix r rest n : n = len r → load 0 n (r ++ rest) = Ok (r ++ rest, Some r).
Proof. intros ->. unfold load, slice. by rewrite get_range_here. Qed.

(** The function computes the canonical form, or refuses it when it does not
    fit, without touching the buffer. *)
Lemma canonicalize_spec path buf :
  canonicalize_path_to_buf path buf =
    match canonical_form path with
    | Some r => if decide (len r <= len buf) then Ok (r ++ drop (length r) buf, Some r)
                else Ok (buf, None)
    | None => Ok (buf, None)
    end.
Proof.
  unfold canonicalize_path_to_buf, canonical_form.
  set (positions := replicate _ _).
  assert (implements path positions 0 []) as Hinit.
  { unfold implements. split_and!; [done..| | |]; [by exists positions|constructor..]. }
  pose proof (collect_implements path (components path) positions []
    (components_located path) Hinit) as Hcol. change (len []) with 0 in Hcol. clear Hinit.
  cbn [fmap list_fmap] in Hcol.
  destruct (collect_components _ _ 0) as [[ps count]|[]| |]; [|by rewrite Hcol|done..].
  destruct Hcol as (stack & (_ & -> & _ & [rest ->] & Hloc & Hgood) & ->). cbn [fmap option_fmap option_map].
  destruct stack as [|p stack].
  - rewrite decide_True by done. rewrite bind_buf_len. destruct buf as [|b buf]; [done|].
    rewrite decide_False by len_lia. rewrite decide_True by (cbn; len_lia).
    from_start. rewrite bind_store by len_lia. by apply load_prefix.
  - rewrite decide_False by len_lia. set (stk := p :: stack) in *.
    assert (render (stk.*2) = join (stk.*2)) as -> by done.
    replace (Z.to_nat (len stk)) with (length stk) by len_lia.
    rewrite (bind_lift (len (join (stk.*2))))
      by apply (needed_size_join stk [] rest 0).
    rewrite bind_buf_len. case_decide as Hfit; [by rewrite decide_False by lia|].
    rewrite decide_True by lia.
    pose proof (write_components_join path stk [] rest [] buf Hloc ltac:(lia)) as Hw.
    cbn [app] in Hw. rewrite (bind_Some _ _ _ _ _ Hw).
    by apply load_prefix.
Qed.

(** ** Splitting keeps UTF-8 *)
Lemma cont_slash : cont SLASH = false.
Proof. done. Qed.

Lemma second3_slash b : second3 b SLASH = false.
Proof. unfold second3. repeat case_match; try done. by rewrite cont_slash, andb_false_r. Qed.

Lemma second4_slash b : second4 b SLASH = false.
Proof. unfold second4. repeat case_match; try done. by rewrite cont_slash, andb_false_r. Qed.

Lemma utf8_valid_slash a b : utf8_valid (a ++ SLASH :: b) = utf8_valid a && utf8_valid b.
Proof.
  assert (∀ n a, (length a <= n)%nat →
    utf8_valid (a ++ SLASH :: b) = utf8_valid a && utf8_valid b) as H; [|by eapply H].
  clear a. induction n as [|n IH]; intros a Hn; [by destruct a; [|cbn in Hn; lia]|].
  destruct a as [|b0 a]; [done|]. cbn in Hn.
  cbn [app utf8_valid]. destruct (between 0 127 b0); [apply IH; lia|].
  destruct a as [|b1 a]; [cbn [app]; rewrite cont_slash|].
  { destruct (between 194 223 b0); [done|]. destruct b as [|b2 b]; [done|].
    rewrite second3_slash, second4_slash. destruct (between 224 239 b0); [done|].
    destruct b; [done|]. by rewrite andb_false_r. }
  cbn in Hn. cbn [app]. destruct (between 194 223 b0).
  { rewrite IH by lia. by rewrite andb_assoc. }
  destruct a as [|b2 a]; [cbn [app]; rewrite cont_slash|].
  { destruct (between 224 239 b0); [by rewrite !andb_false_r|].
    destruct b; [done|]. by rewrite !andb_false_r. }
  cbn in Hn. cbn [app]. destruct (between 224 239 b0).
  { rewrite IH by lia. by rewrite andb_assoc. }
  destruct a as [|b3 a]; [cbn [app]; rewrite cont_slash; by rewrite !andb_false_r|].
  cbn in Hn. cbn [app]. rewrite IH by lia. by rewrite andb_assoc.
Qed.

Lemma pieces_utf8 s : utf8_valid s = true → Forall (λ c, utf8_valid c = true) (pieces s).
Proof.
  induction s as [c Hc|c rest Hc IH] using slash_ind; intros Hv.
  - rewrite pieces_end by done. by constructor.
  - rewrite utf8_valid_slash in Hv. apply andb_true_iff in Hv as [? ?].
    rewrite pieces_slash by done. constructor; [done|]. by apply IH.
Qed.

Lemma join_utf8 cs : Forall (λ c, utf8_valid c = true) cs → utf8_valid (join cs) = true.
Proof.
  intros Hcs. induction cs as [|c cs IH] using rev_ind; [done|].
  apply Forall_app in Hcs as [? Hc]. rewrite Forall_singleton in Hc.
  rewrite join_app. unfold join at 2. cbn. rewrite app_nil_r, utf8_valid_slash, Hc. by rewrite IH.
Qed.

(** ** The resolved components *)
Lemma resolve_Forall (P : str → Prop) cs : ∀ stack stack',
  Forall P cs → Forall P stack → resolve cs stack = Some stack' → Forall P stack'.
Proof.
  induction cs as [|c cs IH]; intros stack stack' Hcs Hst; cbn [resolve]; [by intros [= <-]|].
  apply Forall_cons in Hcs as [Hc Hcs]. repeat case_decide; [by apply IH| |done|].
  - apply IH; [done|]. induction stack as [|p stack _] using rev_ind; [done|].
    rewrite removelast_pop. by apply Forall_app in Hst as [? _].
  - apply IH; [done|]. apply Forall_app. split; [done|]. by apply Forall_singleton.
Qed.

Lemma resolve_good cs : ∀ stack stack',
  Forall (λ c, c ≠ [] ∧ (SLASH ∉ c)) cs → Forall good stack → len stack <= MAX_COMPONENTS →
  resolve cs stack = Some stack' → Forall good stack' ∧ len stack' <= MAX_COMPONENTS.
Proof.
  induction cs as [|c cs IH]; intros stack stack' Hcs Hst Hlen; cbn [resolve]; [by intros [= <-]|].
  apply Forall_cons in Hcs as [[Hne Hns] Hcs]. repeat case_decide; [by apply IH| |done|].
  - induction stack as [|p stack _] using rev_ind; [by apply IH|].
    rewrite removelast_pop. apply Forall_app in Hst as [? _]. apply IH; [done..|len_lia].
  - apply IH; [done| |len_lia]. apply Forall_app. split; [done|]. by apply Forall_singleton.
Qed.

(** Good components resolve to themselves. *)
Lemma resolve_id cs : ∀ stack,
  Forall good cs → len stack + len cs <= MAX_COMPONENTS → resolve cs stack = Some (stack ++ cs).
Proof.
  induction cs as [|c cs IH]; intros stack Hcs Hlen; cbn [resolve]; [by rewrite app_nil_r|].
  apply Forall_cons in Hcs as [(? & ? & ? & ?) Hcs]. repeat case_decide; try done; [len_lia|].
  rewrite IH by (done || len_lia). by rewrite <- app_assoc.
Qed.

Lemma components_pieces path : snd <$> components path = filter (.≠ []) (pieces path).
Proof.
  unfold components, pieces. induction (split_slash 0 [] path) as [|[s c] l IH]; [done|].
  rewrite filter_cons. cbn [fmap list_fmap snd]. rewrite filter_cons. unfold nonempty at 1. cbn [snd].
  destruct c; cbn; [by rewrite !decide_False by auto|].
  rewrite !decide_True by done. cbn. by f_equal.
Qed.

Lemma filter_good cs : Forall good cs → filter (.≠ []) cs = cs.
Proof.
  intros Hcs. induction Hcs as [|c cs (Hne & _) Hcs IH]; [done|].
  by rewrite filter_cons, decide_True, IH by done.
Qed.

Lemma canonical_form_render cs :
  Forall good cs → len cs <= MAX_COMPONENTS → canonical_form (render cs) = Some (render cs).
Proof.
  intros Hg Hlen. unfold canonical_form. rewrite components_pieces.
  enough (filter (.≠ []) (pieces (render cs)) = cs) as ->.
  { by rewrite resolve_id by (done || len_lia). }
  destruct cs as [|c cs]; [done|]. cbn [render].
  change (join (c :: cs)) with ([] ++ join (c :: cs)). rewrite pieces_join; [|apply not_elem_of_nil|by apply good_no_slash].
  rewrite filter_cons, decide_False by auto. by apply filter_good.
Qed.

Lemma canonical_form_inv path r :
  canonical_form path = Some r →
  ∃ cs, r = render cs ∧ Forall good cs ∧ len cs <= MAX_COMPONENTS ∧
    resolve (snd <$> components path) [] = Some cs.
Proof.
  unfold canonical_form. destruct (resolve _ []) as [cs|] eqn:Hr; [|done]. intros [= <-].
  exists cs. destruct (resolve_good (snd <$> components path) [] cs); [|constructor|done|done|done].
  apply Forall_fmap. eapply Forall_impl; [apply components_located|]. by intros p (_ & ? & ?).
Qed.

Lemma canonical_form_utf8 path r :
  canonical_form path = Some r → utf8_valid path = true → utf8_valid r = true.
Proof.
  intros (cs & -> & _ & _ & Hres)%canonical_form_inv Hv.
  destruct cs as [|c cs]; [done|]. cbn [render]. apply join_utf8.
  eapply resolve_Forall; [|constructor|exact Hres]. rewrite components_pieces.
  apply pieces_utf8 in Hv. rewrite Forall_forall in *.
  intros c' Hc'%list_elem_of_filter. by apply Hv, Hc'.
Qed.

(** ** Properties *)

(** C21.  [canonicalize_path_to_buf] implements the stack reading of paths:
    it never panics; when the path resolves within 64 components and its
    canonical form fits, it writes exactly that form at the start of the
    buffer and returns it; otherwise it returns [None] and leaves the buffer
    alone. *)
Theorem canonicalize_refines (path buf : list Z) :
  canonicalize_path_to_buf path buf =
    match canonical_form path with
    | Some r => if decide (len r <= len buf) then Ok (r ++ drop (length r) buf, Some r)
                else Ok (buf, None)
    | None => Ok (buf, None)
    end.
Proof. apply canonicalize_spec. Qed.

(** What it returns is canonical: [is_canonical] accepts it, no [..],
    [.] or empty component survives, canonicalizing it again gives the same
    path, and it is valid UTF-8 when the argument is, which the function's
    [from_utf8_unchecked] relies on. *)
Theorem canonicalize_canonical (path buf buf' r : list Z) :
  canonicalize_path_to_buf path buf = Ok (buf', Some r) →
  is_canonical r = Ok true ∧
  (∃ cs, r = render cs ∧ Forall good cs) ∧
  (∀ buf2, len r <= len buf2 →
    canonicalize_path_to_buf r buf2 = Ok (r ++ drop (length r) buf2, Some r)) ∧
  (utf8_valid path = true → utf8_valid r = true).
Proof.
  rewrite canonicalize_spec. destruct (canonical_form path) as [r'|] eqn:Hform; [|done].
  case_decide; [|done]. intros [= _ ->].
  destruct (canonical_form_inv path r Hform) as (cs & -> & Hg & Hlen & _). split_and!.
  - destruct (is_canonical_spec (render cs)) as (b & -> & Hb). f_equal. apply Hb. eauto.
  - eauto.
  - intros buf2 Hfit. rewrite canonicalize_spec, canonical_form_render by done.
    by rewrite decide_True.
  - by apply canonical_form_utf8.
Qed.

Lemma canonicalize_canonical_witness :
  let path := [47; 97; 47; 46; 46; 47; 98; 47] in
  let r := [47; 98] in
  is_canonical r = Ok true ∧
  (∃ cs, r = render cs ∧ Forall good cs) ∧
  (∀ buf2, len r <= len buf2 →
    canonicalize_path_to_buf r buf2 = Ok (r ++ drop (length r) buf2, Some r)) ∧
  (utf8_valid path = true → utf8_valid r = true).
Proof.
  apply (canonicalize_canonical _ (replicate 4 0) [47; 98; 0; 0]). by vm_compute.
Defined.

(** [is_canonical] always answers, and it accepts exactly the paths made
    of components that are non-empty, free of slashes and neither [.] nor
    [..]; with at most 64 components those are the fixed points of
    [canonicalize_path_to_buf]. *)
Theorem is_canonical_exact (path : list Z) :
  ∃ b, is_canonical path = Ok b ∧
    (b = true ↔ ∃ cs, Forall good cs ∧ path = render cs) ∧
    ∀ cs buf, b = true → path = render cs → Forall good cs → len cs <= MAX_COMPONENTS →
      len path <= len buf →
      canonicalize_path_to_buf path buf = Ok (path ++ drop (length path) buf, Some path).
Proof.
  destruct (is_canonical_spec path) as (b & Hb & Hiff). exists b. split_and!; [done..|].
  intros cs buf _ -> Hg Hlen Hfit.
  rewrite canonicalize_spec, canonical_form_render by done. by rewrite decide_True.
Qed.
