(* ===== verification/Handle.v ===== *)
(** * Handle tables ([panda-kernel/src/handle.rs])

    A process names kernel resources by 64-bit handles, a type tag over a
    56-bit id.  Resources are trait objects: the development leaves their type
    [R] and their [handle_type()] as arguments. *)

From S2P Require Import Prelude Abi.

Definition MAX_HANDLES_PER_PROCESS : Z := 4096.

Inductive HandleError := IdSpaceExhausted | TooManyHandles.

#[export] Instance HandleError_eq_dec : EqDecision HandleError.
Proof. solve_decision. Defined.

Record Handle (R : Type) := mkHandle { h_resource : R; h_offset : Z }.
Arguments mkHandle {R}.
Arguments h_resource {R}.
Arguments h_offset {R}.

Record HandleTable (R : Type) := mkTable { handles : gmap Z (Handle R); next_id : Z }.
Arguments mkTable {R}.
Arguments handles {R}.
Arguments next_id {R}.

Section table.
Context {R : Type}.
Implicit Types (t : HandleTable R) (r : R).

Definition Handle_new r : Handle R := mkHandle r 0.
Definition set_offset (h : Handle R) (offset : Z) : Handle R := mkHandle (h_resource h) offset.
Definition replace_resource (h : Handle R) r : Handle R := mkHandle r (h_offset h).

Definition HandleTable_new : HandleTable R := mkTable ∅ 7.

Definition insert_at t (id : Z) r : HandleTable R :=
  mkTable (<[id := Handle_new r]> (handles t)) (next_id t).

(** [self.handles.len()]. *)
Definition table_len t : Z := Z.of_nat (size (handles t)).

Definition insert_typed t (ty : HandleType) r : HandleTable R * (Z + HandleError) :=
  if decide (table_len t >= MAX_HANDLES_PER_PROCESS) then (t, inr TooManyHandles) else
  let id := next_id t in
  if decide (id > MAX_ID) then (t, inr IdSpaceExhausted) else
  let tagged_id := make_handle ty id in
  (mkTable (<[tagged_id := Handle_new r]> (handles t)) (next_id t + 1), inl tagged_id).

(** [insert]: the tag is the resource's own. *)
Definition table_insert (handle_type : R → HandleType) t r : HandleTable R * (Z + HandleError) :=
  insert_typed t (handle_type r) r.

Definition table_get t (id : Z) : option (Handle R) := handles t !! id.

(** A write through [get_mut]; nothing when the handle does not exist. *)
Definition table_update t (id : Z) (f : Handle R → Handle R) : HandleTable R :=
  mkTable (alter f id (handles t)) (next_id t).

Definition table_remove t (id : Z) : HandleTable R * option (Handle R) :=
  (mkTable (delete id (handles t)) (next_id t), handles t !! id).

Definition table_is_full t : bool := bool_decide (table_len t >= MAX_HANDLES_PER_PROCESS).

(** ** Histories of a table

    The kernel reaches a table only through these operations; [insert_at] is
    called with the well-known handles ([process/mod.rs],
    [syscall/environment.rs]). *)
Inductive TableOp :=
| OpInsertAt (id : Z) (r : R)
| OpInsertTyped (ty : HandleType) (r : R)
| OpUpdate (id : Z) (f : Handle R → Handle R)
| OpRemove (id : Z).

Definition well_known : list Z :=
  [HANDLE_STDIN; HANDLE_STDOUT; HANDLE_STDERR; HANDLE_PROCESS; HANDLE_ENVIRONMENT;
   HANDLE_MAILBOX; HANDLE_PARENT].

Definition op_ok (o : TableOp) : Prop :=
  match o with OpInsertAt id _ => id ∈ well_known | _ => True end.

(** One operation, with the handle it creates. *)
Definition table_step t (o : TableOp) : HandleTable R * option Z :=
  match o with
  | OpInsertAt id r => (insert_at t id r, None)
  | OpInsertTyped ty r =>
      let '(t', res) := insert_typed t ty r in
      (t', match res with inl id => Some id | inr _ => None end)
  | OpUpdate id f => (table_update t id f, None)
  | OpRemove id => ((table_remove t id).1, None)
  end.

(** The table after a history and the handles it created, oldest first. *)
Fixpoint table_run t (ops : list TableOp) : HandleTable R * list Z :=
  match ops with
  | [] => (t, [])
  | o :: ops =>
      let '(t1, id) := table_step t o in
      let '(t2, ids) := table_run t1 ops in
      (t2, option_list id ++ ids)
  end.

(** Handles that were not created at a well-known id. *)
Definition dynamic t : gset Z := dom (handles t) ∖ list_to_set well_known.

(** Every handle of the table has an id below the counter, and the counter
    has passed the reserved ids. *)
Definition table_inv t : Prop :=
  7 <= next_id t <= MAX_ID + 1 ∧
  (∀ k, is_Some (handles t !! k) → k ∉ well_known →
     ∃ ty id, k = make_handle ty id ∧ 7 <= id < next_id t) ∧
  Z.of_nat (size (dynamic t)) <= MAX_HANDLES_PER_PROCESS.

(** ** Lemmas *)
Lemma id_of_make_handle ty id : 0 <= id <= MAX_ID → id_from_handle (make_handle ty id) = id.
Proof.
  intros Hid. destruct (make_handle_parts ty id) as [_ ->]. apply Z.mod_small.
  unfold MAX_ID, ID_MASK, ID_BITS in Hid. lia.
Qed.

Lemma well_known_reserved : Forall (λ k, id_from_handle k < 7) well_known.
Proof. by repeat constructor. Qed.

Lemma make_handle_dynamic ty id : 7 <= id <= MAX_ID → make_handle ty id ∉ well_known.
Proof.
  intros Hid Hin. pose proof well_known_reserved as Hw. rewrite Forall_forall in Hw.
  apply Hw in Hin. rewrite id_of_make_handle in Hin by lia. lia.
Qed.

Lemma insert_typed_ok t ty r t' k :
  insert_typed t ty r = (t', inl k) →
  table_len t < MAX_HANDLES_PER_PROCESS ∧ next_id t <= MAX_ID ∧ k = make_handle ty (next_id t) ∧
  t' = mkTable (<[k := Handle_new r]> (handles t)) (next_id t + 1).
Proof. unfold insert_typed. repeat case_decide; [done|done|]. intros [= <- <-]. repeat split; lia. Qed.

Lemma insert_typed_err t ty r t' e : insert_typed t ty r = (t', inr e) → t' = t.
Proof. unfold insert_typed. repeat case_decide; by intros [= <- <-]. Qed.

Lemma fresh_id t ty : table_inv t → next_id t <= MAX_ID → handles t !! make_handle ty (next_id t) = None.
Proof.
  intros (Hn & Hk & _) Hmax. destruct (handles t !! _) as [h|] eqn:Hl; [|done].
  destruct (Hk _ (mk_is_Some _ _ Hl)) as (ty' & id & Heq & Hid).
  - apply make_handle_dynamic. lia.
  - apply (f_equal id_from_handle) in Heq. rewrite !id_of_make_handle in Heq by lia. lia.
Qed.

Lemma size_dynamic t : (size (dynamic t) <= size (handles t))%nat.
Proof. rewrite <- (size_dom (D:=gset Z)). apply subseteq_size. unfold dynamic. set_solver. Qed.

Lemma table_inv_new : table_inv HandleTable_new.
Proof.
  assert (dynamic HandleTable_new = ∅) as Hd
    by (unfold dynamic, HandleTable_new; cbn [handles]; rewrite dom_empty_L; set_solver).
  unfold table_inv. rewrite Hd, size_empty. cbn [handles next_id HandleTable_new].
  split_and!; [done|by vm_compute| |by vm_compute]. intros k [h Hl]. by rewrite lookup_empty in Hl.
Qed.

Lemma table_inv_insert_typed t ty r t' k :
  table_inv t → insert_typed t ty r = (t', inl k) → table_inv t'.
Proof.
  intros (Hn & Hk & Hsz) (Hlen & Hmax & -> & ->)%insert_typed_ok.
  unfold table_inv. cbn [handles next_id]. split_and!; [lia|lia| |].
  - intros k Hl Hw. destruct (decide (k = make_handle ty (next_id t))) as [->|Hne].
    + exists ty, (next_id t). split; [done|lia].
    + rewrite lookup_insert_ne in Hl by done. destruct (Hk k Hl Hw) as (ty' & id & -> & Hid).
      exists ty', id. split; [done|lia].
  - set (k := make_handle ty (next_id t)).
    assert (size (dynamic (mkTable (<[k := Handle_new r]> (handles t)) (next_id t + 1)))
              <= size ({[k]} ∪ dynamic t))%nat as Hle.
    { apply subseteq_size. unfold dynamic. cbn [handles]. rewrite dom_insert_L. set_solver. }
    pose proof (size_dynamic t). pose proof (size_union_alt {[k]} (dynamic t)) as Hu.
    rewrite size_singleton in Hu.
    assert (size (dynamic t ∖ {[k]}) <= size (dynamic t))%nat by (apply subseteq_size; set_solver).
    unfold table_len in Hlen. lia.
Qed.

(** Operations that add no dynamic handle keep the invariant. *)
Lemma table_inv_sub t m :
  table_inv t → dom m ⊆ dom (handles t) ∪ list_to_set well_known → table_inv (mkTable m (next_id t)).
Proof.
  intros (Hn & Hk & Hsz) Hsub. unfold table_inv. cbn [handles next_id]. split_and!; [lia|lia| |].
  - intros k Hl Hw. apply Hk; [|done]. rewrite <- elem_of_dom in *. set_solver.
  - etrans; [|exact Hsz]. apply inj_le, subseteq_size. unfold dynamic. cbn [handles]. set_solver.
Qed.

Lemma table_step_spec t o t' k :
  table_inv t → op_ok o → table_step t o = (t', k) →
  table_inv t' ∧ next_id t <= next_id t' ∧
  match k with
  | Some id => (∃ ty, id = make_handle ty (next_id t)) ∧ next_id t < next_id t' ∧
               handles t !! id = None
  | None => True
  end.
Proof.
  intros Hinv Hop. destruct o as [id r|ty r|id f|id]; cbn [table_step].
  - intros [= <- <-]. split_and!; [|done|done]. apply table_inv_sub; [done|].
    rewrite dom_insert_L. cbn in Hop. set_solver.
  - destruct (insert_typed t ty r) as [t1 [id|e]] eqn:Hi; intros [= <- <-].
    + pose proof (table_inv_insert_typed _ _ _ _ _ Hinv Hi).
      apply insert_typed_ok in Hi as (_ & Hmax & -> & ->). cbn [next_id].
      split_and!; [done|lia|by exists ty|lia|by apply fresh_id].
    + apply insert_typed_err in Hi as ->. split_and!; [done|lia|done].
  - intros [= <- <-]. split_and!; [|done|done]. apply table_inv_sub; [done|].
    rewrite dom_alter_L. set_solver.
  - intros [= <- <-]. split_and!; [|done|done]. apply table_inv_sub; [done|].
    rewrite dom_delete_L. set_solver.
Qed.

Lemma table_run_spec ops : ∀ t t' ids,
  table_inv t → Forall op_ok ops → table_run t ops = (t', ids) →
  table_inv t' ∧ next_id t <= next_id t' ∧ NoDup ids ∧
  Forall (λ k, ∃ ty id, k = make_handle ty id ∧ next_id t <= id < next_id t') ids.
Proof.
  induction ops as [|o ops IH]; intros t t' ids Hinv Hops; cbn [table_run].
  { intros [= <- <-]. split_and!; [done|done|constructor|constructor]. }
  apply Forall_cons in Hops as [Hop Hops].
  destruct (table_step t o) as [t1 k] eqn:Hs.
  destruct (table_run t1 ops) as [t2 ids'] eqn:Hr. intros [= <- <-].
  destruct (table_step_spec _ _ _ _ Hinv Hop Hs) as (Hinv1 & Hle & Hk).
  destruct (IH t1 t2 ids' Hinv1 Hops Hr) as (Hinv2 & Hle2 & Hnd & Hall).
  destruct Hinv as (Hn & _). destruct Hinv2 as (Hn2 & Hrest).
  assert (Forall (λ k, ∃ ty id, k = make_handle ty id ∧ next_id t <= id < next_id t2) ids') as Hall'.
  { eapply Forall_impl; [exact Hall|]. intros k' (ty & id & -> & ?). exists ty, id. split; [done|lia]. }
  split_and!; [done|lia| |].
  - destruct k as [k|]; [|done]. destruct Hk as ([ty ->] & Hlt & _). apply NoDup_cons. split; [|done].
    intros Hin. rewrite Forall_forall in Hall. destruct (Hall _ Hin) as (ty' & id & Heq & Hid).
    apply (f_equal id_from_handle) in Heq. rewrite !id_of_make_handle in Heq by lia. lia.
  - destruct k as [k|]; [|done]. destruct Hk as ([ty ->] & Hlt & _). constructor; [|done].
    exists ty, (next_id t). split; [done|lia].
Qed.

(** Handles are never reused: over any history of a process's table,
    with closes in between, the handles the kernel creates are pairwise
    distinct, differ from every well-known handle, are non-negative as return
    values, and at most [MAX_HANDLES_PER_PROCESS] of them are open at once. *)
Theorem handle_history (ops : list TableOp) (t : HandleTable R) (ids : list Z) :
  Forall op_ok ops → table_run HandleTable_new ops = (t, ids) →
  NoDup ids ∧ Forall (λ k, (k ∉ well_known) ∧ 0 <= k < 2 ^ 63) ids ∧
  Z.of_nat (size (dynamic t)) <= MAX_HANDLES_PER_PROCESS.
Proof.
  intros Hops Hrun.
  destruct (table_run_spec ops _ _ _ table_inv_new Hops Hrun) as (Hinv & _ & Hnd & Hall).
  destruct Hinv as (Hn & _ & Hsz). split_and!; [done| |done].
  eapply Forall_impl; [exact Hall|]. intros k (ty & id & -> & Hid).
  change (next_id HandleTable_new) with 7 in Hid.
  pose proof (HandleType_u8 ty). unfold MAX_ID, ID_MASK, ID_BITS in *.
  split; [apply make_handle_dynamic; unfold MAX_ID, ID_MASK, ID_BITS; lia|].
  rewrite make_handle_eq, Z.mod_small by lia. lia.
Qed.

(** [insert_typed] on every branch: it refuses exactly a full table or
    an exhausted id space, leaving the table alone; otherwise the new handle
    was free, carries the requested tag, maps to the resource at offset 0, and
    no other handle changes. *)
Theorem insert_typed_exact (t : HandleTable R) (ty : HandleType) (r : R) :
  table_inv t →
  match insert_typed t ty r with
  | (t', inl k) =>
      table_is_full t = false ∧ next_id t <= MAX_ID ∧ from_tag (from_handle k) = Some ty ∧
      table_get t k = None ∧ table_get t' k = Some (mkHandle r 0) ∧ table_inv t' ∧
      (∀ k', k' ≠ k → table_get t' k' = table_get t k')
  | (t', inr TooManyHandles) => t' = t ∧ table_is_full t = true
  | (t', inr IdSpaceExhausted) => t' = t ∧ table_is_full t = false ∧ MAX_ID < next_id t
  end.
Proof.
  intros Hinv. destruct (insert_typed t ty r) as [t' [k|e]] eqn:Hi.
  - pose proof (table_inv_insert_typed _ _ _ _ _ Hinv Hi) as Hinv'.
    apply insert_typed_ok in Hi as (Hlen & Hmax & -> & ->). unfold table_is_full, table_get.
    rewrite bool_decide_false by lia. split_and!; [done|done| |by apply fresh_id| |done|].
    + destruct (make_handle_parts ty (next_id t)) as [-> _]. apply from_tag_as_u8.
    + apply lookup_insert_eq.
    + intros k' Hk'. by apply lookup_insert_ne.
  - revert Hi. unfold insert_typed, table_is_full.
    repeat case_decide; intros [= <- <-]; rewrite ?bool_decide_true, ?bool_decide_false by done;
      split_and?; try done; lia.
Qed.

End table.

Lemma handle_history_witness :
  let ops := [OpInsertAt HANDLE_MAILBOX 1; OpInsertTyped HTChannel 2;
              OpRemove (make_handle HTChannel 7); OpInsertTyped HTChannel 3] in
  let t := (table_run (R:=Z) HandleTable_new ops).1 in
  let ids := (table_run (R:=Z) HandleTable_new ops).2 in
  NoDup ids ∧ Forall (λ k, (k ∉ well_known) ∧ 0 <= k < 2 ^ 63) ids ∧
  Z.of_nat (size (dynamic t)) <= MAX_HANDLES_PER_PROCESS.
Proof.
  intros ops t ids. apply (handle_history ops t ids); [|apply surjective_pairing].
  repeat constructor; cbn; unfold well_known; set_solver.
Defined.

Lemma insert_typed_exact_witness :
  match insert_typed (R:=Z) HandleTable_new HTBuffer 5 with
  | (t', inl k) =>
      table_is_full (R:=Z) HandleTable_new = false ∧ 7 <= MAX_ID ∧
      from_tag (from_handle k) = Some HTBuffer ∧
      table_get (R:=Z) HandleTable_new k = None ∧ table_get t' k = Some (mkHandle 5 0) ∧
      table_inv t' ∧ (∀ k', k' ≠ k → table_get t' k' = table_get HandleTable_new k')
  | (t', inr TooManyHandles) => t' = HandleTable_new ∧ table_is_full (R:=Z) HandleTable_new = true
  | (t', inr IdSpaceExhausted) =>
      t' = HandleTable_new ∧ table_is_full (R:=Z) HandleTable_new = false ∧ MAX_ID < 7
  end.
Proof. apply (insert_typed_exact (R:=Z) HandleTable_new HTBuffer 5 table_inv_new). Defined.
