(* ===== verification/Mailbox.v ===== *)
(** * Wakers and mailboxes ([panda-kernel/src/process/waker.rs],
      [panda-kernel/src/resource/mailbox.rs])

    An [IoWaker] remembers one waiting process; [wake] hands it to the
    scheduler.  The calls of [scheduler::wake_process] are the effect of the
    operations of this file: each returns the pids it wakes, in order.
    A mailbox is modelled by the contents of its lock; every method holds the
    lock for its whole body. *)

From S2P Require Import Prelude Abi.

(** ** [IoWaker] *)
Record IoWaker := mkWaker { signaled : bool; waiting : option Z }.

#[export] Instance IoWaker_eq_dec : EqDecision IoWaker.
Proof. solve_decision. Defined.

Definition IoWaker_new : IoWaker := mkWaker false None.

(** The new waker and the process handed to [wake_process]. *)
Definition wake (w : IoWaker) : IoWaker * list Z := (mkWaker true None, option_list (waiting w)).
Definition is_signaled (w : IoWaker) : bool := signaled w.
Definition waker_clear (w : IoWaker) : IoWaker := mkWaker false (waiting w).
Definition set_waiting (w : IoWaker) (pid : Z) : IoWaker := mkWaker (signaled w) (Some pid).

(** ** [MailboxInner] *)
Record MailboxInner := mkMailbox {
  attached : gmap Z Z;
  pending : list (Z * Z);
  mb_waker : IoWaker;
}.

Definition Mailbox_new : MailboxInner := mkMailbox ∅ [] IoWaker_new.

(** The search of [push_event_bounded]: merge into the first entry of the
    handle, [None] when it has none. *)
Fixpoint coalesce (q : list (Z * Z)) (handle_id events : Z) : option (list (Z * Z)) :=
  match q with
  | [] => None
  | (h, e) :: q =>
      if decide (h = handle_id) then Some ((h, Z.lor e events) :: q)
      else cons (h, e) <$> coalesce q handle_id events
  end.

Definition push_event_bounded (q : list (Z * Z)) (handle_id events : Z) : list (Z * Z) :=
  match coalesce q handle_id events with
  | Some q' => q'
  | None =>
      let q := if decide (len q >= MAX_MAILBOX_EVENTS) then tail q else q in
      q ++ [(handle_id, events)]
  end.

Definition post_event (mb : MailboxInner) (handle_id events : Z) : MailboxInner * list Z :=
  match attached mb !! handle_id with
  | Some mask =>
      if decide (Z.land events mask ≠ 0) then
        let q := push_event_bounded (pending mb) handle_id events in
        let '(w, woken) := wake (mb_waker mb) in
        (mkMailbox (attached mb) q w, woken)
      else (mb, [])
  | None => (mb, [])
  end.

Definition mb_attach (mb : MailboxInner) (handle_id event_mask : Z) : MailboxInner :=
  mkMailbox (<[handle_id := event_mask]> (attached mb)) (pending mb) (mb_waker mb).

Definition mb_detach (mb : MailboxInner) (handle_id : Z) : MailboxInner :=
  mkMailbox (delete handle_id (attached mb)) (filter (λ p, p.1 ≠ handle_id) (pending mb))
    (mb_waker mb).

(** [wait] and [poll] have the same body: [pending.pop_front()]. *)
Definition mb_wait (mb : MailboxInner) : MailboxInner * option (Z * Z) :=
  match pending mb with
  | [] => (mb, None)
  | e :: q => (mkMailbox (attached mb) q (mb_waker mb), Some e)
  end.
Definition mb_poll (mb : MailboxInner) : MailboxInner * option (Z * Z) := mb_wait mb.

Definition has_pending (mb : MailboxInner) : bool := negb (bool_decide (pending mb = [])).
Definition clear_waker (mb : MailboxInner) : MailboxInner :=
  mkMailbox (attached mb) (pending mb) (waker_clear (mb_waker mb)).
Definition mb_set_waiting (mb : MailboxInner) (pid : Z) : MailboxInner :=
  mkMailbox (attached mb) (pending mb) (set_waiting (mb_waker mb) pid).

(** The poll of [handle_wait]'s future: try, register, try again.  [None] is
    [Poll::Pending]. *)
Definition wait_poll (mb : MailboxInner) (pid : Z) : MailboxInner * option (Z * Z) :=
  match mb_wait mb with
  | (mb, Some e) => (mb, Some e)
  | (mb, None) => mb_wait (mb_set_waiting mb pid)
  end.

(** ** Mailbox references

    A resource holds a weak reference: [post_event] does nothing once the
    mailbox is gone.  The live mailboxes are a store. *)
Record MailboxRef := mkRef { ref_mailbox : Z; ref_handle : Z }.
Abbreviation mailboxes := (gmap Z MailboxInner).

Definition ref_post_event (ms : mailboxes) (r : MailboxRef) (events : Z) : mailboxes * list Z :=
  match ms !! ref_mailbox r with
  | Some mb =>
      let '(mb', woken) := post_event mb (ref_handle r) events in
      (<[ref_mailbox r := mb']> ms, woken)
  | None => (ms, [])
  end.

(** ** Invariant *)
Definition mailbox_inv (mb : MailboxInner) : Prop :=
  NoDup (pending mb).*1 ∧ len (pending mb) <= MAX_MAILBOX_EVENTS ∧
  (∀ h, h ∈ (pending mb).*1 → is_Some (attached mb !! h)).

(** The event flags pending for a handle; 0 when there are none. *)
Definition flags_of (mb : MailboxInner) (h : Z) : Z :=
  default 0 (list_to_map (M:=gmap Z Z) (pending mb) !! h).

Inductive MailboxOp :=
| MAttach (h mask : Z)
| MDetach (h : Z)
| MPost (h events : Z)
| MWait
| MSetWaiting (pid : Z)
| MClearWaker.

(** One operation: the mailbox, the event it delivers, the pids it wakes. *)
Definition mailbox_step (mb : MailboxInner) (o : MailboxOp) :
    MailboxInner * option (Z * Z) * list Z :=
  match o with
  | MAttach h mask => (mb_attach mb h mask, None, [])
  | MDetach h => (mb_detach mb h, None, [])
  | MPost h events => let '(mb', woken) := post_event mb h events in (mb', None, woken)
  | MWait => let '(mb', e) := mb_wait mb in (mb', e, [])
  | MSetWaiting pid => (mb_set_waiting mb pid, None, [])
  | MClearWaker => (clear_waker mb, None, [])
  end.

(** ** Lemmas *)
Abbreviation qmap q := (list_to_map q : gmap Z Z).

Lemma coalesce_None q h ev : coalesce q h ev = None ↔ h ∉ q.*1.
Proof.
  induction q as [|[h0 e0] q IH]; cbn; [by split; [intros _; apply not_elem_of_nil|]|].
  case_decide; [set_solver|]. rewrite fmap_None, IH. set_solver.
Qed.

Lemma coalesce_Some q h ev q' :
  coalesce q h ev = Some q' →
  q'.*1 = q.*1 ∧ ∃ e, qmap q !! h = Some e ∧ qmap q' = <[h := Z.lor e ev]> (qmap q).
Proof.
  revert q'. induction q as [|[h0 e0] q IH]; intros q'; cbn; [done|]. case_decide as Hh.
  - intros [= <-]. subst. split; [done|]. exists e0. cbn.
    by rewrite lookup_insert_eq, insert_insert_eq.
  - destruct (coalesce q h ev) as [q1|]; [|done]. intros [= <-].
    destruct (IH q1 eq_refl) as (Hf & e & He & Hm). cbn. split; [by f_equal|].
    exists e. rewrite lookup_insert_ne by done. split; [done|].
    rewrite Hm. by apply insert_insert_ne.
Qed.

Lemma qmap_None q h : h ∉ q.*1 → qmap q !! h = None.
Proof. apply not_elem_of_list_to_map_1. Qed.

Lemma lookup_tail q k :
  NoDup q.*1 → qmap (tail q) !! k = if decide (head q.*1 = Some k) then None else qmap q !! k.
Proof.
  destruct q as [|[x e] q]; cbn; [by rewrite decide_False by done|].
  intros [Hx _]%NoDup_cons. case_decide as Hk.
  - injection Hk as ->. by apply qmap_None.
  - rewrite lookup_insert_ne; [done|]. by intros ->.
Qed.

(** What a bounded push does to the pending flags. *)
Lemma push_event_spec q h ev :
  NoDup q.*1 → len q <= MAX_MAILBOX_EVENTS →
  let q' := push_event_bounded q h ev in
  NoDup q'.*1 ∧ len q' <= MAX_MAILBOX_EVENTS ∧
  (∀ k, k ∈ q'.*1 → k = h ∨ k ∈ q.*1) ∧
  qmap q' !! h = Some (Z.lor (default 0 (qmap q !! h)) ev) ∧
  ∀ k, k ≠ h → qmap q' !! k = if decide ((h ∉ q.*1) ∧ len q = MAX_MAILBOX_EVENTS ∧ head q.*1 = Some k)
                              then None else qmap q !! k.
Proof.
  intros Hnd Hlen q'. subst q'. unfold push_event_bounded.
  destruct (coalesce q h ev) as [q'|] eqn:Hc.
  - assert (h ∈ q.*1) as Hin by (apply dec_stable; rewrite <- (coalesce_None q h ev), Hc; done).
    apply coalesce_Some in Hc as (Hf & e & He & Hm).
    assert (len q' = len q) as -> by (unfold len; by rewrite <- (length_fmap fst q'), Hf, length_fmap).
    rewrite Hf, He, Hm. split_and!; [done|done|by right|by rewrite lookup_insert_eq|].
    intros k Hk. rewrite lookup_insert_ne by done. by rewrite decide_False by tauto.
  - apply coalesce_None in Hc.
    set (q0 := if decide (len q >= MAX_MAILBOX_EVENTS) then tail q else q).
    assert (q0.*1 ⊆ q.*1 ∧ NoDup q0.*1 ∧ len q0 < MAX_MAILBOX_EVENTS) as (Hsub & Hnd0 & Hl0).
    { subst q0. case_decide; [|split_and!; [done|done|lia]]. destruct q as [|x q]; [by vm_compute in H|].
      cbn in *. apply NoDup_cons in Hnd as [_ ?]. split_and!; [set_solver|done|len_lia]. }
    assert (h ∉ q0.*1) as Hh0 by set_solver. rewrite fmap_app, (qmap_None q h) by done.
    assert (∀ k, qmap (q0 ++ [(h, ev)]) !! k = if decide (k = h) then Some ev else qmap q0 !! k) as Hl.
    { intros k. rewrite list_to_map_app. cbn. case_decide as Hk.
      - subst. rewrite lookup_union_r by (by apply qmap_None). by rewrite lookup_insert_eq.
      - rewrite lookup_union_l; [done|]. by rewrite lookup_insert_ne by done. }
    split_and!.
    + apply NoDup_app. split_and!; [done|set_solver|apply NoDup_singleton].
    + len_lia.
    + intros k. set_solver.
    + rewrite Hl, decide_True by done. done.
    + intros k Hk. rewrite Hl, decide_False by done. subst q0. clear -Hnd Hlen Hc.
      destruct (decide (len q >= MAX_MAILBOX_EVENTS)).
      * rewrite lookup_tail by done. apply decide_ext. intuition lia.
      * by rewrite decide_False by lia.
Qed.

Lemma post_event_accepts mb h ev mask :
  attached mb !! h = Some mask → Z.land ev mask ≠ 0 →
  post_event mb h ev =
    (mkMailbox (attached mb) (push_event_bounded (pending mb) h ev) (mkWaker true None),
     option_list (waiting (mb_waker mb))).
Proof. intros Ha Hm. unfold post_event. rewrite Ha. by rewrite decide_True. Qed.

Lemma post_event_ignores mb h ev :
  (∀ mask, attached mb !! h = Some mask → Z.land ev mask = 0) → post_event mb h ev = (mb, []).
Proof.
  intros Ha. unfold post_event. destruct (attached mb !! h) as [mask|]; [|done].
  by rewrite decide_False by (rewrite (Ha mask) by done; tauto).
Qed.

Lemma mailbox_inv_post mb h ev : mailbox_inv mb → mailbox_inv (post_event mb h ev).1.
Proof.
  intros Hinv. unfold post_event. destruct (attached mb !! h) as [mask|] eqn:Ha; [|done].
  case_decide; [|done]. destruct Hinv as (Hnd & Hlen & Hatt).
  destruct (push_event_spec (pending mb) h ev Hnd Hlen) as (? & ? & Hin & _).
  unfold mailbox_inv. cbn. split_and!; [done..|].
  intros k Hk. destruct (Hin k Hk) as [->|?]; [by eexists|by apply Hatt].
Qed.

Lemma filter_fst (q : list (Z * Z)) h :
  (filter (λ p, p.1 ≠ h) q).*1 = filter (.≠ h) q.*1.
Proof.
  induction q as [|[k e] q IH]; [done|]. cbn [fmap list_fmap fst].
  rewrite !filter_cons. cbn [fst]. case_decide; cbn; by rewrite IH.
Qed.

Lemma mailbox_inv_step mb o : mailbox_inv mb → mailbox_inv (mailbox_step mb o).1.1.
Proof.
  intros Hinv. pose proof Hinv as (Hnd & Hlen & Hatt). destruct o as [h mask|h|h ev| |pid|]; cbn.
  - unfold mailbox_inv, mb_attach. cbn. split_and!; [done..|].
    intros k Hk. rewrite lookup_insert_is_Some'. right. by apply Hatt.
  - unfold mailbox_inv, mb_detach. cbn. rewrite filter_fst. split_and!.
    + by apply NoDup_filter.
    + pose proof (length_filter (λ p : Z * Z, p.1 ≠ h) (pending mb)). len_lia.
    + intros k [Hk Hin]%list_elem_of_filter. rewrite lookup_delete_ne by done. by apply Hatt.
  - pose proof (mailbox_inv_post mb h ev Hinv). by destruct (post_event mb h ev).
  - unfold mb_wait. destruct (pending mb) as [|e q] eqn:Hp; [done|]. unfold mailbox_inv.
    cbn in *. apply NoDup_cons in Hnd as [_ ?]. split_and!; [done|len_lia|].
    intros k Hk. apply Hatt. set_solver.
  - done.
  - done.
Qed.

Fixpoint mailbox_run (mb : MailboxInner) (ops : list MailboxOp) : MailboxInner :=
  match ops with [] => mb | o :: ops => mailbox_run (mailbox_step mb o).1.1 ops end.

Lemma mailbox_inv_run ops : ∀ mb, mailbox_inv mb → mailbox_inv (mailbox_run mb ops).
Proof. induction ops as [|o ops IH]; intros mb Hinv; [done|]. apply IH, mailbox_inv_step, Hinv. Qed.

Lemma mailbox_inv_new : mailbox_inv Mailbox_new.
Proof. split_and!; [constructor|done|]. intros h Hh. by apply elem_of_nil in Hh. Qed.

Lemma land_lor_mask a b n :
  0 <= n → Z.land (Z.lor a b) (2 ^ n - 1) = Z.lor (Z.land a (2 ^ n - 1)) (Z.land b (2 ^ n - 1)).
Proof. intros. apply Z.land_lor_distr_l. Qed.

Lemma wrap_u_lor w a b : 0 <= w → wrap_u w (Z.lor a b) = Z.lor (wrap_u w a) (wrap_u w b).
Proof. intros Hw. unfold wrap_u. rewrite <- !land_mask by done. apply Z.land_lor_distr_l. Qed.

Lemma decode_key_code_lor a b :
  decode_key_code (Z.lor a b) = Z.lor (decode_key_code a) (decode_key_code b).
Proof.
  unfold decode_key_code.
  rewrite Z.shiftr_lor, Z.land_lor_distr_l. by rewrite ?wrap_u_lor by lia.
Qed.

(** ** Properties *)

(** Posting an event, on every branch.  An event is accepted exactly
    when its handle is attached with a mask it meets; then the waiting process
    is woken, the event's bits are added to what is pending for the handle,
    and no other handle loses anything, except that the oldest entry is
    dropped when the queue is full and the handle has no entry of its own.
    Anything else leaves the mailbox as it is and wakes nobody. *)
Theorem mailbox_post_exact (mb : MailboxInner) (h ev : Z) :
  mailbox_inv mb →
  let '(mb', woken) := post_event mb h ev in
  match attached mb !! h with
  | Some mask =>
      if decide (Z.land ev mask ≠ 0) then
        woken = option_list (waiting (mb_waker mb)) ∧ waiting (mb_waker mb') = None ∧
        has_pending mb' = true ∧
        flags_of mb' h = Z.lor (flags_of mb h) ev ∧
        ∀ k, k ≠ h → flags_of mb' k =
          if decide ((h ∉ (pending mb).*1) ∧ len (pending mb) = MAX_MAILBOX_EVENTS ∧
                     head (pending mb).*1 = Some k) then 0 else flags_of mb k
      else mb' = mb ∧ woken = []
  | None => mb' = mb ∧ woken = []
  end.
Proof.
  intros (Hnd & Hlen & _). destruct (attached mb !! h) as [mask|] eqn:Ha.
  2: { by rewrite post_event_ignores by (intros mask Hm; congruence). }
  case_decide as Hm.
  2: { rewrite post_event_ignores; [done|]. intros mask' Hm'. rewrite Ha in Hm'. injection Hm' as <-.
       by destruct (decide (Z.land ev mask = 0)). }
  rewrite (post_event_accepts mb h ev mask) by done.
  destruct (push_event_spec (pending mb) h ev Hnd Hlen) as (_ & _ & _ & Hh & Hk).
  unfold flags_of, has_pending. cbn [pending mb_waker waiting]. rewrite Hh. split_and!; [done|done| |done|].
  - destruct (push_event_bounded _ _ _); [by cbn in Hh; rewrite lookup_empty in Hh|done].
  - intros k Hne. rewrite Hk by done. by repeat case_decide; try tauto.
Qed.

Lemma mailbox_post_exact_witness :
  let mb := mkMailbox {[ 9 := 16 ]} [] (mkWaker false (Some 3)) in
  let mb' := mkMailbox {[ 9 := 16 ]} [(9, 16)] (mkWaker true None) in
  [3] = option_list (waiting (mb_waker mb)) ∧ waiting (mb_waker mb') = None ∧
  has_pending mb' = true ∧ flags_of mb' 9 = Z.lor (flags_of mb 9) 16 ∧
  ∀ k, k ≠ 9 → flags_of mb' k =
    if decide ((9 ∉ (pending mb).*1) ∧ len (pending mb) = MAX_MAILBOX_EVENTS ∧
               head (pending mb).*1 = Some k) then 0 else flags_of mb k.
Proof.
  refine (mailbox_post_exact (mkMailbox {[ 9 := 16 ]} [] (mkWaker false (Some 3))) 9 16 _).
  split_and!; [constructor|done|]. intros h Hh. by apply elem_of_nil in Hh.
Defined.

(** Over any history of a mailbox, the queue is bounded by
    [MAX_MAILBOX_EVENTS], holds at most one entry per handle, and only for
    attached handles; [wait] then delivers everything pending for the oldest
    handle at once and leaves nothing of it behind. *)
Theorem mailbox_history (ops : list MailboxOp) :
  let mb := mailbox_run Mailbox_new ops in
  mailbox_inv mb ∧
  match mb_wait mb with
  | (mb', Some (h, e)) =>
      is_Some (attached mb !! h) ∧ e = flags_of mb h ∧ flags_of mb' h = 0 ∧
      ∀ k, k ≠ h → flags_of mb' k = flags_of mb k
  | (mb', None) => mb' = mb ∧ has_pending mb = false
  end.
Proof.
  intros mb. pose proof (mailbox_inv_run ops Mailbox_new mailbox_inv_new) as Hinv. fold mb in Hinv.
  split; [done|]. destruct Hinv as (Hnd & _ & Hatt). unfold mb_wait, has_pending, flags_of.
  destruct (pending mb) as [|[h e] q] eqn:Hq; [done|]. cbn in *.
  apply NoDup_cons in Hnd as [Hh _]. split_and!.
  - apply Hatt. set_solver.
  - by rewrite lookup_insert_eq.
  - by rewrite qmap_None.
  - intros k Hk. by rewrite lookup_insert_ne by done.
Qed.

(** Keyboard events are packed values, and the queue merges values by
    OR: two key events posted before the mailbox is read are delivered as one
    event, whose key code is the OR of the two codes. *)
Theorem key_events_merge (mb : MailboxInner) (h mask c1 v1 c2 v2 : Z) :
  mailbox_inv mb → attached mb !! h = Some mask → flags_of mb h = 0 →
  is_u16 c1 → is_u16 c2 →
  Z.land (encode_key_event c1 v1) mask ≠ 0 → Z.land (encode_key_event c2 v2) mask ≠ 0 →
  let mb1 := (post_event mb h (encode_key_event c1 v1)).1 in
  let mb2 := (post_event mb1 h (encode_key_event c2 v2)).1 in
  decode_key_code (flags_of mb2 h) = Z.lor c1 c2 ∧ NoDup (pending mb2).*1.
Proof.
  intros Hinv Ha H0 Hc1 Hc2 Hm1 Hm2 mb1 mb2.
  assert (∀ mb ev, mailbox_inv mb → attached mb !! h = Some mask → Z.land ev mask ≠ 0 →
    flags_of (post_event mb h ev).1 h = Z.lor (flags_of mb h) ev ∧
    attached (post_event mb h ev).1 = attached mb) as Hpost.
  { intros m ev (Hnd & Hlen & _) Hat Hmk. rewrite (post_event_accepts m h ev mask) by done.
    destruct (push_event_spec (pending m) h ev Hnd Hlen) as (_ & _ & _ & Hh & _).
    unfold flags_of. cbn. by rewrite Hh. }
  destruct (Hpost mb (encode_key_event c1 v1)) as [Hf1 Ha1]; [done..|].
  pose proof (mailbox_inv_post mb h (encode_key_event c1 v1) Hinv) as Hinv1. fold mb1 in Hf1, Ha1, Hinv1.
  destruct (Hpost mb1 (encode_key_event c2 v2)) as [Hf2 _]; [done|congruence|done|].
  pose proof (mailbox_inv_post mb1 h (encode_key_event c2 v2) Hinv1) as [Hnd _].
  split; [|done]. unfold mb2. rewrite Hf2, Hf1, H0, Z.lor_0_l, decode_key_code_lor.
  f_equal; by apply decode_encode_key_code.
Qed.

Lemma key_events_merge_witness :
  let mb := mkMailbox {[ 9 := 16 ]} [] IoWaker_new in
  let mb1 := (post_event mb 9 (encode_key_event 30 1)).1 in
  let mb2 := (post_event mb1 9 (encode_key_event 48 1)).1 in
  decode_key_code (flags_of mb2 9) = Z.lor 30 48 ∧ NoDup (pending mb2).*1.
Proof.
  apply (key_events_merge (mkMailbox {[ 9 := 16 ]} [] IoWaker_new) 9 16); try done.
  split_and!; [constructor|done|]. intros h Hh. by apply elem_of_nil in Hh.
Defined.
