(* ===== verification/UserPtr.v ===== *)
(** * Access to userspace memory and syscall results
      ([panda-kernel/src/syscall/user_ptr.rs], and the two places that copy a
      result out: [poll_and_dispatch] in [syscall/mod.rs] and
      [dispatch_completed_syscall] in [scheduler/mod.rs])

    The memory of the active address space is a map from addresses to bytes;
    an address that was never written reads as 0 (a demand-paged page).  Page
    faults and SMAP are not modelled. *)

From S2P Require Import Prelude Utf8 Abi.

Definition USER_ADDR_MAX : Z := 0x00007fffffffffff.

Record UserSlice := mkSlice { us_addr : Z; us_len : Z }.

Inductive SyscallError := BadUserPointer | BadHandle.

Definition to_error_code (e : SyscallError) : ErrorCode :=
  match e with BadUserPointer => EInvalidArgument | BadHandle => EInvalidHandle end.

Abbreviation mem := (gmap Z Z).

Definition peek_byte (m : mem) (a : Z) : Z := default 0 (m !! a).

Fixpoint store_bytes (m : mem) (a : Z) (bs : list Z) : mem :=
  match bs with [] => m | b :: bs => store_bytes (<[a := b]> m) (a + 1) bs end.

Definition load_bytes (m : mem) (a : Z) (n : nat) : list Z :=
  (λ i : nat, peek_byte m (a + Z.of_nat i)) <$> seq 0 n.

(** [UserAccess::validate]. *)
Definition validate (s : UserSlice) : outcome SyscallError () :=
  if decide (us_len s = 0) then Ok tt else
  stop ← ok_or (checked_add (us_addr s) (us_len s)) BadUserPointer;
  if decide (stop - 1 > USER_ADDR_MAX) then Err BadUserPointer else Ok tt.

Definition ua_read (m : mem) (src : UserSlice) : outcome SyscallError (list Z) :=
  validate src;;
  Ok (load_bytes m (us_addr src) (Z.to_nat (us_len src))).

Definition ua_write (m : mem) (dst : UserSlice) (data : list Z) : outcome SyscallError (mem * Z) :=
  validate dst;;
  let n := Z.min (len data) (us_len dst) in
  Ok (store_bytes m (us_addr dst) (take (Z.to_nat n) data), n).

(** [read_user] and [write_user] at type [u64]. *)
Definition read_user_u64 (m : mem) (ptr : Z) : outcome SyscallError Z :=
  validate (mkSlice ptr 8);;
  Ok (from_le_bytes (load_bytes m ptr 8)).

Definition write_user_u64 (m : mem) (ptr value : Z) : outcome SyscallError mem :=
  validate (mkSlice ptr 8);;
  Ok (store_bytes m ptr (to_le_bytes 8 value)).

Definition ua_read_str (m : mem) (addr l : Z) : outcome SyscallError str :=
  bytes ← ua_read m (mkSlice addr l);
  if utf8_valid bytes then Ok bytes else Err BadUserPointer.

(** ** [SyscallResult] *)
Record WriteBack := mkWriteBack { wb_data : list Z; wb_dst : UserSlice }.
Record HandleWriteBack := mkHandleWriteBack { hwb_ptr : Z; hwb_value : Z }.
Record SyscallResult := mkResult {
  code : Z;
  writeback : option WriteBack;
  handle_writeback : option HandleWriteBack;
}.

Definition result_ok (c : Z) : SyscallResult := mkResult c None None.
Definition result_err (e : ErrorCode) : SyscallResult := mkResult (to_isize e) None None.
Definition write_back (c : Z) (data : list Z) (dst : UserSlice) : SyscallResult :=
  mkResult c (Some (mkWriteBack data dst)) None.
Definition write_back_with_handle (c : Z) (data : list Z) (dst : UserSlice)
    (handle_ptr handle_value : Z) : SyscallResult :=
  mkResult c (Some (mkWriteBack data dst)) (Some (mkHandleWriteBack handle_ptr handle_value)).

(** [let _ = ua.write(..)]: a failed write changes nothing. *)
Definition try_write (m : mem) (wb : WriteBack) : mem :=
  match ua_write m (wb_dst wb) (wb_data wb) with Ok (m', _) => m' | _ => m end.
Definition try_write_handle (m : mem) (hwb : HandleWriteBack) : mem :=
  match write_user_u64 m (hwb_ptr hwb) (hwb_value hwb) with Ok m' => m' | _ => m end.

(** The copy-out of a syscall whose future is ready at once
    ([poll_and_dispatch]). *)
Definition complete_now (m : mem) (r : SyscallResult) : mem * Z :=
  let m := match writeback r with Some wb => try_write m wb | None => m end in
  let m := match handle_writeback r with Some hwb => try_write_handle m hwb | None => m end in
  (m, code r).

(** The copy-out of a syscall that was pending
    ([dispatch_completed_syscall]). *)
Definition complete_deferred (m : mem) (r : SyscallResult) : mem * Z :=
  let m := match writeback r with Some wb => try_write m wb | None => m end in
  (m, code r).

(** ** Lemmas *)
Lemma validate_spec s :
  0 <= us_addr s → 0 <= us_len s →
  validate s = Ok tt ↔ us_len s = 0 ∨ us_addr s + us_len s - 1 <= USER_ADDR_MAX.
Proof.
  intros Ha Hl. unfold validate, checked_add, USER_ADDR_MAX. repeat case_decide; cbn.
  - by split; [left|].
  - case_decide; (split; [intros; try done; lia|intros; try done; lia]).
  - split; [done|]. intros [?|?]; [done|]. pow2. lia.
Qed.

Lemma lookup_store_bytes bs : ∀ m a k,
  store_bytes m a bs !! k =
    if decide (a <= k < a + len bs) then bs !! Z.to_nat (k - a) else m !! k.
Proof.
  induction bs as [|b bs IH]; intros m a k; cbn [store_bytes].
  { by rewrite decide_False by len_lia. }
  rewrite IH. destruct (decide (k = a)) as [->|Hk].
  - rewrite decide_False by lia. rewrite decide_True by len_lia.
    by rewrite Z.sub_diag, lookup_insert_eq.
  - rewrite lookup_insert_ne by done. destruct (decide (a + 1 <= k < a + 1 + len bs)).
    + rewrite decide_True by len_lia.
      by replace (Z.to_nat (k - a)) with (S (Z.to_nat (k - (a + 1)))) by lia.
    + by rewrite decide_False by len_lia.
Qed.

Lemma load_store_bytes m a bs : load_bytes (store_bytes m a bs) a (length bs) = bs.
Proof.
  apply list_eq. intros i. unfold load_bytes. rewrite list_lookup_fmap.
  destruct (decide (i < length bs)%nat) as [Hi|Hi].
  - rewrite lookup_seq_lt by done. cbn [fmap option_fmap option_map Nat.add]. unfold peek_byte.
    rewrite lookup_store_bytes, decide_True by len_lia.
    replace (Z.to_nat (a + Z.of_nat i - a)) with i by lia.
    by destruct (lookup_lt_is_Some_2 bs i Hi) as [x ->].
  - rewrite lookup_seq_ge by lia. by rewrite lookup_ge_None_2 by lia.
Qed.

Lemma read_write_u64 m ptr v :
  validate (mkSlice ptr 8) = Ok tt → is_u64 v →
  read_user_u64 (store_bytes m ptr (to_le_bytes 8 v)) ptr = Ok v.
Proof.
  intros Hv Hu. unfold read_user_u64. rewrite Hv. cbn [mbind outcome_bind].
  replace 8%nat with (length (to_le_bytes 8 v)) at 2 by apply length_to_le_bytes.
  rewrite load_store_bytes, from_to_le_bytes. f_equal. by apply wrap_u_small.
Qed.

(** ** Properties *)



(** A result that carries a transferred handle is copied out completely
    only when the syscall did not have to wait: the immediate path writes the
    handle id to the caller's out-pointer, the deferred path returns the same
    code and the same data but leaves the out-pointer's bytes as they were. *)
Theorem deferred_handle_lost (m : mem) (c : Z) (data : list Z) (dst : UserSlice) (ptr h : Z) :
  0 <= us_addr dst → 0 <= us_len dst → 0 <= ptr → ptr + 7 <= USER_ADDR_MAX →
  (us_addr dst + us_len dst <= ptr ∨ ptr + 8 <= us_addr dst) → is_u64 h →
  let r := write_back_with_handle c data dst ptr h in
  read_user_u64 (complete_now m r).1 ptr = Ok h ∧
  read_user_u64 (complete_deferred m r).1 ptr = read_user_u64 m ptr ∧
  (complete_deferred m r).2 = (complete_now m r).2.
Proof.
  intros Ha Hl Hp Hmax Hdis Hh r. subst r. unfold complete_now, complete_deferred.
  cbn [writeback handle_writeback write_back_with_handle code fst snd].
  assert (validate (mkSlice ptr 8) = Ok tt) as Hv.
  { apply validate_spec; cbn; [done|done|]. right. lia. }
  split_and!; [| |done].
  - unfold try_write_handle, write_user_u64. cbn [hwb_ptr hwb_value]. rewrite Hv.
    cbn [mbind outcome_bind]. by apply read_write_u64.
  - unfold read_user_u64. rewrite Hv. cbn [mbind outcome_bind]. f_equal. f_equal.
    unfold load_bytes. apply list_fmap_ext. intros i x Hx.
    apply lookup_seq in Hx as [-> Hi]. unfold peek_byte, try_write, ua_write. cbn [wb_dst wb_data].
    destruct (validate dst); cbn [mbind outcome_bind]; try done. f_equal.
    rewrite lookup_store_bytes. rewrite decide_False; [done|]. len_lia.
Qed.

Lemma deferred_handle_lost_witness :
  let r := write_back_with_handle 2 [104; 105] (mkSlice 4096 16) 8192 (make_handle HTChannel 9) in
  read_user_u64 (complete_now ∅ r).1 8192 = Ok (make_handle HTChannel 9) ∧
  read_user_u64 (complete_deferred ∅ r).1 8192 = read_user_u64 ∅ 8192 ∧
  (complete_deferred ∅ r).2 = (complete_now ∅ r).2.
Proof. apply deferred_handle_lost; try done. by left. Defined.
