(* ===== verification/Waiting.v ===== *)
(** * The blocking protocol

    A blocking syscall is a future the scheduler polls: each poll tries the
    operation, and when it cannot proceed registers the process on the
    resource's waker, tries once more and returns [Poll::Pending]
    ([handle_send] and [handle_recv] in [syscall/channel.rs], [handle_wait] in
    [syscall/mailbox.rs]).  The scheduler then leaves the process runnable
    after the first poll and blocks it after a later one
    ([poll_and_dispatch], [exec_next_runnable]); [scheduler::wake_process]
    makes a blocked process runnable and does nothing to one that is not
    blocked.  Syscalls run with interrupts disabled on one core, so a poll is
    one step.

    [Waitable] is what a resource promises to the protocol; the theorem is
    that a blocked process is always registered and never has what it waits
    for, so that no wakeup is lost.  The channel and the mailbox implement
    the interface. *)

From S2P Require Import Prelude Mailbox.
From stdpp Require Import relations.
#[local] Open Scope Z_scope.

(** [env s s' woken]: others operate on the resource, waking [woken].
    [poll s s' pending]: one poll by the process [pid]. *)
Class Waitable {S : Type} (pid : Z) (env : S → S → list Z → Prop)
    (poll : S → S → bool → Prop) (ready registered : S → Prop) : Prop := {
  poll_pending s s' : poll s s' true → registered s' ∧ ¬ ready s';
  env_wakes s s' woken :
    env s s' woken → registered s → ¬ ready s → pid ∈ woken ∨ (registered s' ∧ ¬ ready s');
}.

Section protocol.
Context {S : Type} {pid : Z} {env : S → S → list Z → Prop} {poll : S → S → bool → Prop}.
Context {ready registered : S → Prop} `{!Waitable pid env poll ready registered}.

(** The resource and whether the process is blocked in the scheduler. *)
Inductive wait_step : S * bool → S * bool → Prop :=
| wait_done s s' : poll s s' false → wait_step (s, false) (s', false)
| wait_again s s' : poll s s' true → wait_step (s, false) (s', false)
| wait_block s s' : poll s s' true → wait_step (s, false) (s', true)
| wait_env s s' woken b :
    env s s' woken → wait_step (s, b) (s', if decide (pid ∈ woken) then false else b).

Definition wait_inv (c : S * bool) : Prop := c.2 = true → registered c.1 ∧ ¬ ready c.1.

Lemma wait_inv_step c c' : wait_inv c → wait_step c c' → wait_inv c'.
Proof.
  intros Hinv Hstep. destruct Hstep as [s s' Hp|s s' Hp|s s' Hp|s s' woken b He];
    unfold wait_inv; cbn; [done|done| |].
  - intros _. by eapply poll_pending.
  - case_decide as Hw; [done|]. intros ->. destruct (Hinv eq_refl) as [Hreg Hnr]. cbn in *.
    by destruct (env_wakes _ _ _ He Hreg Hnr).
Qed.

Lemma wait_inv_reachable s c : rtc wait_step (s, false) c → wait_inv c.
Proof.
  assert (∀ c1 c2, rtc wait_step c1 c2 → wait_inv c1 → wait_inv c2) as Hrtc.
  { induction 1; eauto using wait_inv_step. }
  intros Hsteps. by eapply Hrtc.
Qed.

End protocol.

(** ** Waiting on a mailbox *)
Section mailbox.
Context (pid : Z).

(** Resources post events, and the process attaches and detaches handles. *)
Definition mailbox_acts (mb mb' : MailboxInner) (woken : list Z) : Prop :=
  (∃ h ev, post_event mb h ev = (mb', woken)) ∨
  (woken = [] ∧ ∃ h mask, mb' = mb_attach mb h mask) ∨ (woken = [] ∧ ∃ h, mb' = mb_detach mb h).

Definition polls_mailbox (mb mb' : MailboxInner) (pending : bool) : Prop :=
  ∃ r, wait_poll mb pid = (mb', r) ∧ pending = match r with None => true | Some _ => false end.

#[export] Instance mailbox_waitable :
  Waitable pid mailbox_acts polls_mailbox (λ mb, has_pending mb = true)
    (λ mb, waiting (mb_waker mb) = Some pid).
Proof.
  split.
  - intros mb mb' (r & Hp & Hr). destruct r; [done|]. revert Hp. unfold wait_poll, mb_wait.
    destruct (pending mb) as [|e q] eqn:Hq; cbn; rewrite ?Hq; [|done].
    intros [= <-]. cbn. split; [done|]. unfold has_pending. cbn. by rewrite Hq.
  - intros mb mb' woken Hact Hreg Hnp. destruct Hact as [(h & ev & Hpost)|[[-> (h & mask & ->)]|[-> (h & ->)]]].
    + revert Hpost. unfold post_event. destruct (attached mb !! h); [|intros [= <- <-]; by right].
      case_decide; [|intros [= <- <-]; by right]. intros [= <- <-]. left. rewrite Hreg. set_solver.
    + by right.
    + right. split; [done|]. unfold has_pending, mb_detach in *. cbn.
      by destruct (pending mb).
Qed.

(** C31.  No wakeup is lost on a mailbox either: a process blocked in
    [mailbox_wait] is registered on the mailbox's waker and no event is
    pending; the accepted event that ends the wait unblocks it. *)
Theorem mailbox_no_lost_wakeup (mb mb' : MailboxInner) :
  rtc (wait_step (pid:=pid) (env:=mailbox_acts) (poll:=polls_mailbox)) (mb, false) (mb', true) →
  waiting (mb_waker mb') = Some pid ∧ has_pending mb' = false ∧
  ∀ mb'' woken, mailbox_acts mb' mb'' woken → has_pending mb'' = true → pid ∈ woken.
Proof.
  intros Hreach.
  destruct (wait_inv_reachable (Waitable0:=mailbox_waitable) _ _ Hreach eq_refl) as [Hreg Hnp].
  cbn in Hreg, Hnp. split_and!; [done|by destruct (has_pending mb')|].
  intros mb'' woken Hact Hready.
  by destruct (env_wakes (Waitable:=mailbox_waitable) _ _ _ Hact Hreg Hnp) as [?|[_ ?]].
Qed.

End mailbox.

Lemma mailbox_no_lost_wakeup_witness :
  let mb' := mb_set_waiting Mailbox_new 4 in
  waiting (mb_waker mb') = Some 4 ∧ has_pending mb' = false ∧
  ∀ mb'' woken, mailbox_acts mb' mb'' woken → has_pending mb'' = true → 4 ∈ woken.
Proof.
  apply (mailbox_no_lost_wakeup 4 Mailbox_new). apply rtc_once, wait_block. by exists None.
Defined.
