(* ===== verification/Channel.v ===== *)
(** * Channels ([panda-kernel/src/resource/channel.rs]) and the channel
      syscalls ([panda-kernel/src/syscall/channel.rs])

    A channel is the contents of its lock: two halves, each with the queue of
    what its side has sent.  Operations notify the peer through its waker and
    its mailbox, so they also act on the store of mailboxes and return the
    pids they wake.  The attached resources are values of a type [R]. *)

From S2P Require Import Prelude Abi Handle Mailbox UserPtr Waiting.
From stdpp Require Import relations.
#[local] Open Scope Z_scope.

Inductive ChannelError := ChMessageTooLarge | ChBufferTooSmall | ChQueueFull | ChQueueEmpty | ChPeerClosed.

#[export] Instance ChannelError_eq_dec : EqDecision ChannelError.
Proof. solve_decision. Defined.

Inductive Side := SideA | SideB.

#[export] Instance Side_eq_dec : EqDecision Side.
Proof. solve_decision. Defined.

Definition other (s : Side) : Side := match s with SideA => SideB | SideB => SideA end.

Record ChannelMessage (R : Type) := mkMsg { msg_data : list Z; attachment : option R }.
Arguments mkMsg {R}.
Arguments msg_data {R}.
Arguments attachment {R}.

Record ChannelHalf (R : Type) := mkHalf {
  queue : list (ChannelMessage R);
  closed : bool;
  half_waker : IoWaker;
  half_mailbox : option MailboxRef;
}.
Arguments mkHalf {R}.
Arguments queue {R}.
Arguments closed {R}.
Arguments half_waker {R}.
Arguments half_mailbox {R}.

Record ChannelShared (R : Type) := mkShared {
  half_a : ChannelHalf R;
  half_b : ChannelHalf R;
  capacity : Z;
}.
Arguments mkShared {R}.
Arguments half_a {R}.
Arguments half_b {R}.
Arguments capacity {R}.

Section channel.
Context {R : Type}.
Implicit Types (sh : ChannelShared R) (h : ChannelHalf R) (ms : mailboxes).

Definition half_new : ChannelHalf R := mkHalf [] false IoWaker_new None.
(** [ChannelEndpoint::create_pair]: the shared state of both endpoints. *)
Definition shared_new : ChannelShared R := mkShared half_new half_new DEFAULT_QUEUE_CAPACITY.

(** [halves(side)]: our half and the peer's, and the state with both updated. *)
Definition half sh (s : Side) : ChannelHalf R :=
  match s with SideA => half_a sh | SideB => half_b sh end.
Definition set_half sh (s : Side) h : ChannelShared R :=
  match s with
  | SideA => mkShared h (half_b sh) (capacity sh)
  | SideB => mkShared (half_a sh) h (capacity sh)
  end.

Definition set_queue h (q : list (ChannelMessage R)) : ChannelHalf R :=
  mkHalf q (closed h) (half_waker h) (half_mailbox h).
Definition set_waker h (w : IoWaker) : ChannelHalf R :=
  mkHalf (queue h) (closed h) w (half_mailbox h).
Definition set_closed h : ChannelHalf R :=
  mkHalf (queue h) true (half_waker h) (half_mailbox h).

Definition attach_mailbox sh (s : Side) (r : MailboxRef) : ChannelShared R :=
  let h := half sh s in
  set_half sh s (mkHalf (queue h) (closed h) (half_waker h) (Some r)).

(** [waker.wake()], then [mailbox.post_event(event)] if there is one. *)
Definition notify h ms (event : Z) : ChannelHalf R * mailboxes * list Z :=
  let '(w, woken) := wake (half_waker h) in
  let h := set_waker h w in
  match half_mailbox h with
  | Some r => let '(ms, woken') := ref_post_event ms r event in (h, ms, woken ++ woken')
  | None => (h, ms, woken)
  end.

Abbreviation state := (ChannelShared R * mailboxes)%type.

Definition send_with_attachment sh ms (s : Side) (msg : list Z) (att : option R) :
    state * list Z * (() + ChannelError) :=
  if decide (len msg > MAX_MESSAGE_SIZE) then (sh, ms, [], inr ChMessageTooLarge) else
  let ours := half sh s in
  let peer := half sh (other s) in
  if closed peer then (sh, ms, [], inr ChPeerClosed) else
  if decide (len (queue ours) >= capacity sh) then (sh, ms, [], inr ChQueueFull) else
  let sh := set_half sh s (set_queue ours (queue ours ++ [mkMsg msg att])) in
  let '(peer, ms, woken) := notify peer ms EVENT_CHANNEL_READABLE in
  (set_half sh (other s) peer, ms, woken, inl tt).

Definition would_block_send sh (s : Side) : bool :=
  bool_decide (len (queue (half sh s)) >= capacity sh).

(** The caller's buffer is returned with the message copied in. *)
Definition recv_with_attachment sh ms (s : Side) (buf : list Z) :
    state * list Z * ((list Z * Z * option R) + ChannelError) :=
  let peer := half sh (other s) in
  match queue peer with
  | msg :: rest =>
      if decide (len buf < len (msg_data msg)) then (sh, ms, [], inr ChBufferTooSmall) else
      let l := len (msg_data msg) in
      let buf := msg_data msg ++ drop (Z.to_nat l) buf in
      let peer := set_queue peer rest in
      let was_full := bool_decide (len rest + 1 >= capacity sh) in
      let '(peer, ms, woken) :=
        if was_full then notify peer ms EVENT_CHANNEL_WRITABLE else (peer, ms, []) in
      (set_half sh (other s) peer, ms, woken, inl (buf, l, attachment msg))
  | [] => (sh, ms, [], inr (if closed peer then ChPeerClosed else ChQueueEmpty))
  end.

Definition peek_has_attachment sh (s : Side) : option bool :=
  (λ msg, bool_decide (is_Some (attachment msg))) <$> head (queue (half sh (other s))).

Definition would_block_recv sh (s : Side) : bool :=
  let peer := half sh (other s) in
  bool_decide (queue peer = []) && negb (closed peer).

Definition is_peer_closed sh (s : Side) : bool := closed (half sh (other s)).

Definition channel_poll_events sh (s : Side) : Z :=
  let ours := half sh s in
  let peer := half sh (other s) in
  let events := 0 in
  let events := if bool_decide (queue peer ≠ []) then Z.lor events EVENT_CHANNEL_READABLE else events in
  let events := if bool_decide (len (queue ours) < capacity sh)
                then Z.lor events EVENT_CHANNEL_WRITABLE else events in
  if closed peer then Z.lor events EVENT_CHANNEL_CLOSED else events.

(** [Drop]: the endpoint of a side closes. *)
Definition close sh ms (s : Side) : state * list Z :=
  let sh := set_half sh s (set_closed (half sh s)) in
  let '(peer, ms, woken) := notify (half sh (other s)) ms EVENT_CHANNEL_CLOSED in
  (set_half sh (other s) peer, ms, woken).

(** [channel.waker().set_waiting(pid)]. *)
Definition channel_set_waiting sh (s : Side) (pid : Z) : ChannelShared R :=
  set_half sh s (set_waker (half sh s) (set_waiting (half_waker (half sh s)) pid)).

(** ** The syscalls

    The polls of the futures of [handle_send] and [handle_recv], after the
    handle has been resolved to a channel.  [None] is [Poll::Pending].  The
    [loop] runs at most twice, [registered] being false and then true. *)
Fixpoint send_loop (fuel : nat) sh ms (s : Side) (pid flags : Z) (msg : list Z) (att : option R)
    (registered : bool) : outcome Empty_set (state * list Z * option SyscallResult) :=
  match fuel with
  | O => OutOfFuel
  | S fuel =>
      match send_with_attachment sh ms s msg att with
      | (sh, ms, woken, inl _) => Ok (sh, ms, woken, Some (result_ok 0))
      | (sh, ms, woken, inr ChQueueFull) =>
          if is_nonblock flags then Ok (sh, ms, woken, Some (result_err EWouldBlock))
          else if registered then Ok (sh, ms, woken, None)
          else send_loop fuel (channel_set_waiting sh s pid) ms s pid flags msg att true
      | (sh, ms, woken, inr ChMessageTooLarge) => Ok (sh, ms, woken, Some (result_err EMessageTooLarge))
      | (sh, ms, woken, inr ChPeerClosed) => Ok (sh, ms, woken, Some (result_err EChannelClosed))
      | (sh, ms, woken, inr _) => Ok (sh, ms, woken, Some (result_err EIoError))
      end
  end.

Definition send_poll sh ms (s : Side) (pid flags : Z) (msg : list Z) (att : option R) :
    outcome Empty_set (state * list Z * option SyscallResult) :=
  send_loop 2 sh ms s pid (wrap_u 32 flags) msg att false.

Section recv.
Context (handle_type : R → HandleType).

(** The current process's handle table is part of the state: an attachment
    is installed there. *)
Definition install (t : HandleTable R) (att : option R) : HandleTable R * Z :=
  match att with
  | Some res =>
      let '(t, r) := table_insert handle_type t res in
      (t, match r with inl id => id | inr _ => 0 end)
  | None => (t, 0)
  end.

Fixpoint recv_loop (fuel : nat) sh ms (t : HandleTable R) (s : Side) (pid flags : Z)
    (dst : UserSlice) (out_handle_ptr : Z) (registered : bool) :
    outcome Empty_set (state * HandleTable R * list Z * option SyscallResult) :=
  match fuel with
  | O => OutOfFuel
  | S fuel =>
      if bool_decide (peek_has_attachment sh s = Some true) && table_is_full t
      then Ok (sh, ms, t, [], Some (result_err ETooManyHandles)) else
      let alloc_len := Z.min (us_len dst) MAX_MESSAGE_SIZE in
      let kernel_buf := replicate (Z.to_nat alloc_len) 0 in
      match recv_with_attachment sh ms s kernel_buf with
      | (sh, ms, woken, inl (kernel_buf, l, att)) =>
          let kernel_buf := take (Z.to_nat l) kernel_buf in
          let '(t, received_handle) := install t att in
          Ok (sh, ms, t, woken,
              Some (if decide (out_handle_ptr = 0) then write_back l kernel_buf dst
                    else write_back_with_handle l kernel_buf dst out_handle_ptr received_handle))
      | (sh, ms, woken, inr ChQueueEmpty) =>
          if is_nonblock flags then Ok (sh, ms, t, woken, Some (result_err EWouldBlock))
          else if registered then Ok (sh, ms, t, woken, None)
          else recv_loop fuel (channel_set_waiting sh s pid) ms t s pid flags dst out_handle_ptr true
      | (sh, ms, woken, inr ChBufferTooSmall) => Ok (sh, ms, t, woken, Some (result_err EBufferTooSmall))
      | (sh, ms, woken, inr ChPeerClosed) => Ok (sh, ms, t, woken, Some (result_err EChannelClosed))
      | (sh, ms, woken, inr _) => Ok (sh, ms, t, woken, Some (result_err EIoError))
      end
  end.

Definition recv_poll sh ms (t : HandleTable R) (s : Side) (pid flags : Z) (dst : UserSlice)
    (out_handle_ptr : Z) : outcome Empty_set (state * HandleTable R * list Z * option SyscallResult) :=
  recv_loop 2 sh ms t s pid (wrap_u 32 flags) dst out_handle_ptr false.

End recv.

(** ** Operations on a channel, by whichever process *)
Inductive ChanOp :=
| CSend (s : Side) (msg : list Z) (att : option R)
| CRecv (s : Side) (buf : list Z)
| CClose (s : Side)
| CAttach (s : Side) (r : MailboxRef)
| CWait (s : Side) (pid : Z).

Definition op_side (o : ChanOp) : Side :=
  match o with
  | CSend s _ _ | CRecv s _ | CClose s | CAttach s _ | CWait s _ => s
  end.

(** The new state, the pids woken, and the message that entered ([inl]) or
    left ([inr]) the channel. *)
Definition chan_step (st : state) (o : ChanOp) :
    state * list Z * option (ChannelMessage R + ChannelMessage R) :=
  let '(sh, ms) := st in
  match o with
  | CSend s msg att =>
      match send_with_attachment sh ms s msg att with
      | (sh, ms, woken, inl _) => (sh, ms, woken, Some (inl (mkMsg msg att)))
      | (sh, ms, woken, inr _) => (sh, ms, woken, None)
      end
  | CRecv s buf =>
      match recv_with_attachment sh ms s buf with
      | (sh, ms, woken, inl (buf, l, att)) => (sh, ms, woken, Some (inr (mkMsg (take (Z.to_nat l) buf) att)))
      | (sh, ms, woken, inr _) => (sh, ms, woken, None)
      end
  | CClose s => let '(sh, ms, woken) := close sh ms s in (sh, ms, woken, None)
  | CAttach s r => (attach_mailbox sh s r, ms, [], None)
  | CWait s pid => (channel_set_waiting sh s pid, ms, [], None)
  end.

(** A history: the final state and, for each message that passed, the side
    that sent or received it. *)
Abbreviation event := (Side * (ChannelMessage R + ChannelMessage R))%type.

Fixpoint chan_run (st : state) (ops : list ChanOp) : state * list event :=
  match ops with
  | [] => (st, [])
  | o :: ops =>
      let '(st, _, ev) := chan_step st o in
      let '(st, evs) := chan_run st ops in
      (st, option_list (pair (op_side o) <$> ev) ++ evs)
  end.

Definition sent_by (s : Side) (evs : list event) : list (ChannelMessage R) :=
  omap (λ ev, match ev with (s', inl m) => if decide (s' = s) then Some m else None | _ => None end) evs.
Definition received_by (s : Side) (evs : list event) : list (ChannelMessage R) :=
  omap (λ ev, match ev with (s', inr m) => if decide (s' = s) then Some m else None | _ => None end) evs.

(** ** Lemmas *)
Lemma half_set_same sh s h : half (set_half sh s h) s = h.
Proof. by destruct s. Qed.
Lemma half_set_other sh s h : half (set_half sh (other s) h) s = half sh s.
Proof. by destruct s. Qed.
Lemma half_set_other' sh s h : half (set_half sh s h) (other s) = half sh (other s).
Proof. by destruct s. Qed.
Lemma capacity_set sh s h : capacity (set_half sh s h) = capacity sh.
Proof. by destruct s. Qed.
Lemma other_other s : other (other s) = s.
Proof. by destruct s. Qed.

(** What a notification does to the half it notifies. *)
Lemma notify_spec h ms ev :
  ∃ h' ms' woken, notify h ms ev = (h', ms', woken) ∧
    queue h' = queue h ∧ closed h' = closed h ∧ half_mailbox h' = half_mailbox h ∧
    waiting (half_waker h') = None ∧ (∀ p, waiting (half_waker h) = Some p → p ∈ woken).
Proof.
  unfold notify, wake. cbn [half_mailbox set_waker].
  destruct (half_mailbox h) as [r|] eqn:Hm.
  - destruct (ref_post_event ms r ev) as [ms' woken'].
    do 3 eexists. split; [done|]. cbn. split_and!; [done..|]. intros p ->. set_solver.
  - do 3 eexists. split; [done|]. cbn. split_and!; [done..|]. intros p ->. set_solver.
Qed.

(** The send succeeds exactly on a message of legal size to an open peer with
    room, and otherwise changes nothing. *)
Lemma send_cases sh ms s msg att :
  (∃ e, send_with_attachment sh ms s msg att = (sh, ms, [], inr e) ∧
    (e = ChMessageTooLarge ∧ MAX_MESSAGE_SIZE < len msg ∨
     e = ChPeerClosed ∧ len msg <= MAX_MESSAGE_SIZE ∧ closed (half sh (other s)) = true ∨
     e = ChQueueFull ∧ len msg <= MAX_MESSAGE_SIZE ∧ closed (half sh (other s)) = false ∧
       capacity sh <= len (queue (half sh s)))) ∨
  (∃ peer' ms' woken,
    send_with_attachment sh ms s msg att =
      (set_half (set_half sh s (set_queue (half sh s) (queue (half sh s) ++ [mkMsg msg att])))
         (other s) peer', ms', woken, inl tt) ∧
    len msg <= MAX_MESSAGE_SIZE ∧ closed (half sh (other s)) = false ∧
    len (queue (half sh s)) < capacity sh ∧
    queue peer' = queue (half sh (other s)) ∧ closed peer' = closed (half sh (other s)) ∧
    waiting (half_waker peer') = None ∧
    ∀ p, waiting (half_waker (half sh (other s))) = Some p → p ∈ woken).
Proof.
  unfold send_with_attachment. case_decide; [left; eexists; split; [done|left; split; [done|lia]]|].
  destruct (closed (half sh (other s))) eqn:Hc.
  { left. eexists. split; [done|]. right. left. split_and!; [done|lia|done]. }
  case_decide; [left; eexists; split; [done|]; right; right; split_and!; [done|lia|done|lia]|].
  right. destruct (notify_spec (half sh (other s)) ms EVENT_CHANNEL_READABLE)
    as (peer' & ms' & woken & -> & ? & ? & ? & ? & ?).
  do 3 eexists. split; [done|]. split_and!; [lia|done|lia|done|congruence|done|done].
Qed.

Lemma recv_cases sh ms s buf :
  (∃ e, recv_with_attachment sh ms s buf = (sh, ms, [], inr e) ∧
    (e = ChBufferTooSmall ∧ (∃ msg rest, queue (half sh (other s)) = msg :: rest ∧
        len buf < len (msg_data msg)) ∨
     e = ChPeerClosed ∧ queue (half sh (other s)) = [] ∧ closed (half sh (other s)) = true ∨
     e = ChQueueEmpty ∧ queue (half sh (other s)) = [] ∧ closed (half sh (other s)) = false)) ∨
  (∃ msg rest peer' ms' woken,
    queue (half sh (other s)) = msg :: rest ∧ len (msg_data msg) <= len buf ∧
    recv_with_attachment sh ms s buf =
      (set_half sh (other s) peer', ms', woken,
       inl (msg_data msg ++ drop (length (msg_data msg)) buf, len (msg_data msg), attachment msg)) ∧
    queue peer' = rest ∧ closed peer' = closed (half sh (other s)) ∧
    (waiting (half_waker peer') = waiting (half_waker (half sh (other s))) ∧
       len (queue (half sh (other s))) < capacity sh ∨
     ∀ p, waiting (half_waker (half sh (other s))) = Some p → p ∈ woken)).
Proof.
  unfold recv_with_attachment. destruct (queue (half sh (other s))) as [|msg rest] eqn:Hq.
  { left. destruct (closed (half sh (other s))) eqn:Hc; eexists; (split; [done|]); right; [left|right]; done. }
  case_decide; [left; eexists; split; [done|]; left; split; [done|]; eauto|].
  right. replace (Z.to_nat (len (msg_data msg))) with (length (msg_data msg)) by len_lia.
  case_bool_decide as Hf.
  - destruct (notify_spec (set_queue (half sh (other s)) rest) ms EVENT_CHANNEL_WRITABLE)
      as (peer' & ms' & woken & -> & ? & ? & ? & ? & ?).
    exists msg, rest, peer', ms', woken. split_and!; [done|lia|done|done|done|by right].
  - do 5 eexists. split_and!; [done|lia|done|done|done|]. left. split; [done|]. len_lia.
Qed.

Lemma close_cases sh ms s :
  ∃ peer' ms' woken,
    close sh ms s = (set_half (set_half sh s (set_closed (half sh s))) (other s) peer', ms', woken) ∧
    queue peer' = queue (half sh (other s)) ∧ closed peer' = closed (half sh (other s)) ∧
    ∀ p, waiting (half_waker (half sh (other s))) = Some p → p ∈ woken.
Proof.
  unfold close. rewrite half_set_other'.
  destruct (notify_spec (half sh (other s)) ms EVENT_CHANNEL_CLOSED)
    as (peer' & ms' & woken & -> & ? & ? & ? & ? & ?).
  by do 3 eexists.
Qed.

(** Rewrites every access to a half of an updated channel. *)
Ltac halves :=
  rewrite ?half_set_same, ?half_set_other, ?half_set_other', ?half_set_same, ?capacity_set.

(** Queues are bounded, messages are of legal size. *)
Definition chan_inv sh : Prop :=
  capacity sh = DEFAULT_QUEUE_CAPACITY ∧
  ∀ s, len (queue (half sh s)) <= capacity sh ∧
       Forall (λ m, len (msg_data m) <= MAX_MESSAGE_SIZE) (queue (half sh s)).

(** The messages an event adds to and takes from the queue of a side. *)
Definition added (s : Side) (o : ChanOp) (ev : option (ChannelMessage R + ChannelMessage R)) :
    list (ChannelMessage R) :=
  match ev with Some (inl m) => if decide (op_side o = s) then [m] else [] | _ => [] end.
Definition taken (s : Side) (o : ChanOp) (ev : option (ChannelMessage R + ChannelMessage R)) :
    list (ChannelMessage R) :=
  match ev with Some (inr m) => if decide (op_side o = other s) then [m] else [] | _ => [] end.

Lemma side_cases s s' : s' = s ∨ s' = other s ∧ other s' = s ∧ s' ≠ s.
Proof. destruct s, s'; auto. Qed.

Lemma chan_inv_same sh sh1 :
  chan_inv sh → capacity sh1 = capacity sh → (∀ s, queue (half sh1 s) = queue (half sh s)) →
  chan_inv sh1 ∧ ∀ s, queue (half sh s) ++ [] = [] ++ queue (half sh1 s).
Proof.
  intros [Hcap Hs] Hc Hq. split; [|intros s; by rewrite app_nil_r, Hq].
  split; [congruence|]. intros s. rewrite Hc, Hq. apply Hs.
Qed.

Lemma chan_step_fifo sh ms o sh' ms' woken ev :
  chan_inv sh → chan_step (sh, ms) o = (sh', ms', woken, ev) →
  chan_inv sh' ∧
  ∀ s, queue (half sh s) ++ added s o ev = taken s o ev ++ queue (half sh' s).
Proof.
  intros Hinv. pose proof (λ sh1, chan_inv_same sh sh1 Hinv) as Hsame.
  destruct o as [s msg att|s buf|s|s r|s pid]; cbn [chan_step].
  - destruct (send_cases sh ms s msg att)
      as [(e & -> & _)|(peer' & ms1 & w & -> & Hl & Hc & Hcap & Hq & _)];
      intros [= <- <- <- <-]; [by apply Hsame|]. cbn [added taken op_side].
    assert (∀ s', queue (half (set_half (set_half sh s (set_queue (half sh s)
       (queue (half sh s) ++ [mkMsg msg att]))) (other s) peer') s') =
       queue (half sh s') ++ if decide (s = s') then [mkMsg msg att] else []) as Hq'.
    { intros s'. destruct (side_cases s s') as [->|(-> & _ & Hne)]; halves.
      - by rewrite decide_True.
      - by rewrite decide_False, app_nil_r by done. }
    split; [|intros s'; by rewrite Hq'].
    destruct Hinv as [Hcp Hs]. split; [by halves|]. intros s'. halves. rewrite Hq'. destruct (Hs s').
    case_decide; [|by rewrite app_nil_r]. subst s'. split; [len_lia|].
    apply Forall_app. split; [done|]. by apply Forall_singleton.
  - destruct (recv_cases sh ms s buf)
      as [(e & -> & _)|(msg & rest & peer' & ms1 & w & Hq & Hl & -> & Hq' & _)];
      intros [= <- <- <- <-]; [by apply Hsame|]. cbn [added taken op_side].
    assert (∀ s', queue (half sh s') = (if decide (s = other s') then [msg] else []) ++
       queue (half (set_half sh (other s) peer') s')) as Hqs.
    { intros s'. destruct (side_cases s s') as [->|(-> & _ & Hne)]; halves.
      - by rewrite decide_False by (by destruct s).
      - rewrite other_other, decide_True, Hq' by done. done. }
    split.
    + destruct Hinv as [Hcp Hs]. split; [by halves|]. intros s'. halves. specialize (Hs s').
      rewrite Hqs in Hs. destruct Hs as [? [_ ?]%Forall_app]. split; [len_lia|done].
    + intros s'. rewrite app_nil_r. etrans; [apply Hqs|]. f_equal.
      case_decide; [|done]. f_equal. unfold len. rewrite Nat2Z.id, take_app_length.
      by destruct msg.
  - destruct (close_cases sh ms s) as (peer' & ms1 & w & -> & Hq & _).
    intros [= <- <- <- <-]. apply Hsame; [by halves|]. intros s'.
    destruct (side_cases s s') as [->|(-> & _ & Hne)]; by halves.
  - intros [= <- <- <- <-]. unfold attach_mailbox. apply Hsame; [by halves|]. intros s'.
    destruct (side_cases s s') as [->|(-> & _ & Hne)]; by halves.
  - intros [= <- <- <- <-]. unfold channel_set_waiting. apply Hsame; [by halves|]. intros s'.
    destruct (side_cases s s') as [->|(-> & _ & Hne)]; by halves.
Qed.

Lemma sent_by_cons s o ev evs :
  sent_by s (option_list (pair (op_side o) <$> ev) ++ evs) = added s o ev ++ sent_by s evs.
Proof. unfold sent_by, added. destruct ev as [[m|m]|]; cbn; [by case_decide|done|done]. Qed.

Lemma received_by_cons s o ev evs :
  received_by (other s) (option_list (pair (op_side o) <$> ev) ++ evs) =
    taken s o ev ++ received_by (other s) evs.
Proof. unfold received_by, taken. destruct ev as [[m|m]|]; cbn; [done|by case_decide|done]. Qed.

Lemma chan_run_fifo ops : ∀ sh ms sh' ms' evs,
  chan_inv sh → chan_run (sh, ms) ops = (sh', ms', evs) →
  chan_inv sh' ∧
  ∀ s, queue (half sh s) ++ sent_by s evs = received_by (other s) evs ++ queue (half sh' s).
Proof.
  induction ops as [|o ops IH]; intros sh ms sh' ms' evs Hinv; cbn [chan_run].
  { intros [= <- <- <-]. split; [done|]. intros s. cbn. by rewrite app_nil_r. }
  destruct (chan_step (sh, ms) o) as [[[sh1 ms1] w] ev] eqn:Hs.
  destruct (chan_run (sh1, ms1) ops) as [[sh2 ms2] evs'] eqn:Hr. intros [= <- <- <-].
  destruct (chan_step_fifo _ _ _ _ _ _ _ Hinv Hs) as [Hinv1 Hq1].
  destruct (IH _ _ _ _ _ Hinv1 Hr) as [Hinv2 Hq2]. split; [done|]. intros s.
  rewrite sent_by_cons, received_by_cons, app_assoc, Hq1, <- !app_assoc. f_equal. apply Hq2.
Qed.

Lemma chan_inv_new : chan_inv shared_new.
Proof. split; [done|]. intros []; (split; [done|constructor]). Qed.

(** ** Polls *)
Lemma set_waiting_queue sh s pid s' :
  queue (half (channel_set_waiting sh s pid) s') = queue (half sh s') ∧
  closed (half (channel_set_waiting sh s pid) s') = closed (half sh s').
Proof. unfold channel_set_waiting. by destruct s, s'. Qed.

Lemma set_waiting_waiting sh s pid :
  waiting (half_waker (half (channel_set_waiting sh s pid) s)) = Some pid.
Proof. by destruct s. Qed.

(** A send poll always answers; it is pending exactly when the message would
    be accepted but for a full queue, and then the process is registered. *)
Lemma send_poll_spec sh ms s pid flags msg att :
  ∃ sh' ms' woken r, send_poll sh ms s pid flags msg att = Ok (sh', ms', woken, r) ∧
    (r = None →
       sh' = channel_set_waiting sh s pid ∧ ms' = ms ∧
       capacity sh <= len (queue (half sh s)) ∧ closed (half sh (other s)) = false).
Proof.
  unfold send_poll. cbn [send_loop].
  destruct (send_cases sh ms s msg att) as [(e & -> & He)|(peer' & ms1 & w & -> & _)].
  2: { do 4 eexists. by split. }
  destruct He as [[-> ?]|[(-> & ?)|(-> & Hl & Hc & Hq)]]; [do 4 eexists; by split..|].
  destruct (is_nonblock _); [do 4 eexists; by split|].
  destruct (set_waiting_queue sh s pid s) as [Hqs _].
  destruct (set_waiting_queue sh s pid (other s)) as [_ Hcs].
  destruct (send_cases (channel_set_waiting sh s pid) ms s msg att)
    as [(e & -> & He)|(peer' & ms1 & w & _ & _ & _ & Hlt & _)].
  - rewrite Hqs, Hcs in He. destruct He as [[-> ?]|[(-> & _ & ?)|(-> & _ & _ & _)]]; [lia|congruence|].
    do 4 eexists. split; [done|]. intros _. done.
  - rewrite Hqs in Hlt. unfold channel_set_waiting in Hlt. rewrite capacity_set in Hlt. lia.
Qed.

Lemma recv_poll_spec ht sh ms t s pid flags dst out :
  ∃ sh' ms' t' woken r, recv_poll ht sh ms t s pid flags dst out = Ok (sh', ms', t', woken, r) ∧
    (r = None →
       sh' = channel_set_waiting sh s pid ∧ ms' = ms ∧ t' = t ∧
       queue (half sh (other s)) = [] ∧ closed (half sh (other s)) = false).
Proof.
  unfold recv_poll. cbn [recv_loop]. case_match; [do 5 eexists; by split|].
  set (buf := replicate _ _).
  destruct (recv_cases sh ms s buf) as [(e & -> & He)|(msg & rest & peer' & ms1 & w & _ & _ & -> & _)].
  2: { destruct (install ht t (attachment msg)). do 5 eexists. by split. }
  destruct He as [(-> & ?)|[(-> & ?)|(-> & Hq & Hc)]]; [do 5 eexists; by split..|].
  destruct (is_nonblock _); [do 5 eexists; by split|].
  destruct (set_waiting_queue sh s pid (other s)) as [Hqs Hcs].
  assert (peek_has_attachment (channel_set_waiting sh s pid) s = None) as ->
    by (unfold peek_has_attachment; by rewrite Hqs, Hq).
  cbn [bool_decide andb]. rewrite bool_decide_false by done. cbn [andb].
  destruct (recv_cases (channel_set_waiting sh s pid) ms s buf)
    as [(e & -> & He)|(msg & rest & peer' & ms1 & w & Hq' & _)].
  - destruct He as [(-> & msg & rest & Hq' & _)|[(-> & _ & Hc')|(-> & _ & _)]]; [congruence|congruence|].
    do 5 eexists. split; [done|]. done.
  - congruence.
Qed.

(** An operation of the peer either wakes the process registered on our half
    or leaves the registration and what we can receive alone, and takes from
    our queue only when it was not full. *)
Lemma peer_step sh ms o sh' ms' woken ev s pid :
  chan_step (sh, ms) o = (sh', ms', woken, ev) → op_side o = other s →
  waiting (half_waker (half sh s)) = Some pid →
  pid ∈ woken ∨
  waiting (half_waker (half sh' s)) = Some pid ∧
  queue (half sh' (other s)) = queue (half sh (other s)) ∧
  closed (half sh' (other s)) = closed (half sh (other s)) ∧ capacity sh' = capacity sh ∧
  (queue (half sh' s) = queue (half sh s) ∨ len (queue (half sh s)) < capacity sh).
Proof.
  intros Hstep Ho Hw. destruct o as [s' msg att|s' buf|s'|s' r|s' p]; cbn in Ho; subst s';
    cbn [chan_step] in Hstep.
  - destruct (send_cases sh ms (other s) msg att)
      as [(e & He & _)|(peer' & ms1 & w & He & _ & _ & _ & _ & _ & _ & Hp)];
      rewrite He in Hstep; injection Hstep as <- <- <- <-.
    + right. split_and!; auto.
    + left. rewrite other_other in Hp. auto.
  - destruct (recv_cases sh ms (other s) buf)
      as [(e & He & _)|(msg & rest & peer' & ms1 & w & _ & _ & He & _ & _ & Hp)];
      rewrite He in Hstep; injection Hstep as <- <- <- <-.
    + right. split_and!; auto.
    + rewrite other_other in Hp |- *. destruct Hp as [[Hp Hlt]|Hp]; [right|left; auto].
      halves. rewrite Hp. split_and!; auto.
  - destruct (close_cases sh ms (other s)) as (peer' & ms1 & w & He & _ & _ & Hp).
    rewrite He in Hstep. injection Hstep as <- <- <- <-. left. rewrite other_other in Hp. auto.
  - injection Hstep as <- <- <- <-. right. unfold attach_mailbox. halves. split_and!; auto.
  - injection Hstep as <- <- <- <-. right. unfold channel_set_waiting. halves. split_and!; auto.
Qed.

Section blocking.
Context (handle_type : R → HandleType) (s : Side) (pid : Z).

Definition registered_on (st : state) : Prop := waiting (half_waker (half st.1 s)) = Some pid.

(** Operations of whoever holds the other endpoint. *)
Definition peer_acts (st st' : state) (woken : list Z) : Prop :=
  ∃ o ev, op_side o = other s ∧ chan_step st o = (st', woken, ev).

Definition polls_send (st st' : state) (pending : bool) : Prop :=
  ∃ flags msg att woken r,
    send_poll st.1 st.2 s pid flags msg att = Ok (st', woken, r) ∧
    pending = match r with None => true | Some _ => false end.

Definition can_send (st : state) : Prop :=
  would_block_send st.1 s = false ∨ is_peer_closed st.1 s = true.

#[export] Instance send_waitable : Waitable pid peer_acts polls_send can_send registered_on.
Proof.
  split.
  - intros [sh ms] st' (flags & msg & att & woken & r & Hp & Hr). destruct r; [done|].
    destruct (send_poll_spec sh ms s pid flags msg att) as (sh' & ms' & w & r & Hp' & Hspec).
    cbn [fst snd] in Hp. rewrite Hp in Hp'. injection Hp' as -> -> <-.
    destruct (Hspec eq_refl) as (-> & -> & Hfull & Hopen).
    unfold registered_on, can_send, would_block_send, is_peer_closed. cbn [fst].
    destruct (set_waiting_queue sh s pid s) as [-> _].
    destruct (set_waiting_queue sh s pid (other s)) as [_ ->].
    split; [apply set_waiting_waiting|]. rewrite Hopen.
    unfold channel_set_waiting. rewrite capacity_set, bool_decide_true by lia. by intros [?|?].
  - intros [sh ms] [sh' ms'] woken (o & ev & Ho & Hstep) Hreg Hnr.
    unfold registered_on, can_send, would_block_send, is_peer_closed in *. cbn [fst] in *.
    destruct (peer_step _ _ _ _ _ _ _ _ _ Hstep Ho Hreg) as [?|(? & _ & -> & -> & Hq)]; [by left|].
    right. split; [done|]. destruct Hq as [->|Hlt]; [done|].
    exfalso. apply Hnr. left. by apply bool_decide_false; lia.
Qed.

Abbreviation rstate := (state * HandleTable R)%type.

Definition peer_acts_r (st st' : rstate) (woken : list Z) : Prop :=
  st'.2 = st.2 ∧ peer_acts st.1 st'.1 woken.

Definition polls_recv (st st' : rstate) (pending : bool) : Prop :=
  ∃ flags dst out woken r,
    recv_poll handle_type st.1.1 st.1.2 st.2 s pid flags dst out = Ok (st', woken, r) ∧
    pending = match r with None => true | Some _ => false end.

Definition can_recv (st : rstate) : Prop := would_block_recv st.1.1 s = false.

#[export] Instance recv_waitable :
  Waitable pid peer_acts_r polls_recv can_recv (λ st, registered_on st.1).
Proof.
  split.
  - intros [[sh ms] t] st' (flags & dst & out & woken & r & Hp & Hr). destruct r; [done|].
    destruct (recv_poll_spec handle_type sh ms t s pid flags dst out)
      as (sh' & ms' & t' & w & r & Hp' & Hspec).
    cbn [fst snd] in Hp. rewrite Hp in Hp'. injection Hp' as -> -> <-.
    destruct (Hspec eq_refl) as (-> & -> & -> & Hq & Hc).
    unfold registered_on, can_recv, would_block_recv. cbn [fst].
    destruct (set_waiting_queue sh s pid (other s)) as [-> ->].
    split; [apply set_waiting_waiting|]. by rewrite Hq, Hc.
  - intros [[sh ms] t] [[sh' ms'] t'] woken [_ (o & ev & Ho & Hstep)] Hreg Hnr.
    unfold registered_on, can_recv, would_block_recv in *. cbn [fst] in *.
    destruct (peer_step _ _ _ _ _ _ _ _ _ Hstep Ho Hreg) as [?|(? & -> & -> & _)]; [by left|].
    by right.
Qed.

End blocking.

(** A closed half stays closed. *)
Lemma closed_step sh ms o sh' ms' woken ev s :
  chan_step (sh, ms) o = (sh', ms', woken, ev) → closed (half sh s) = true →
  closed (half sh' s) = true.
Proof.
  intros Hstep Hc. destruct o as [s' msg att|s' buf|s'|s' r|s' p]; cbn [chan_step] in Hstep.
  - destruct (send_cases sh ms s' msg att) as [(e & He & _)|(peer' & ms1 & w & He & _ & _ & _ & _ & Hcl & _)];
      rewrite He in Hstep; injection Hstep as <- <- <- <-; [done|].
    destruct (side_cases s' s) as [->|(-> & _ & _)]; halves; [done|congruence].
  - destruct (recv_cases sh ms s' buf) as [(e & He & _)|(msg & rest & peer' & ms1 & w & _ & _ & He & _ & Hcl & _)];
      rewrite He in Hstep; injection Hstep as <- <- <- <-; [done|].
    destruct (side_cases s' s) as [->|(-> & _ & _)]; halves; [done|congruence].
  - destruct (close_cases sh ms s') as (peer' & ms1 & w & He & _ & Hcl & _).
    rewrite He in Hstep. injection Hstep as <- <- <- <-.
    destruct (side_cases s' s) as [->|(-> & _ & _)]; halves; [done|congruence].
  - injection Hstep as <- <- <- <-. unfold attach_mailbox.
    destruct (side_cases s' s) as [->|(-> & _ & _)]; by halves.
  - injection Hstep as <- <- <- <-. unfold channel_set_waiting.
    destruct (side_cases s' s) as [->|(-> & _ & _)]; by halves.
Qed.

Lemma closed_run ops : ∀ sh ms sh' ms' evs s,
  chan_run (sh, ms) ops = (sh', ms', evs) → closed (half sh s) = true → closed (half sh' s) = true.
Proof.
  induction ops as [|o ops IH]; intros sh ms sh' ms' evs s; cbn [chan_run].
  { by intros [= <- <- <-]. }
  destruct (chan_step (sh, ms) o) as [[[sh1 ms1] w] ev] eqn:Hs.
  destruct (chan_run (sh1, ms1) ops) as [[sh2 ms2] evs'] eqn:Hr. intros [= <- <- <-] Hc.
  eapply IH; [exact Hr|]. by eapply closed_step.
Qed.

(** C13.  A channel is a pair of bounded FIFO queues: over any interleaving of
    operations by the two sides, what one side has received, followed by what
    is still queued, is exactly what the other side has sent, message by
    message with its attachment; a queue never holds more than
    [DEFAULT_QUEUE_CAPACITY] messages, none larger than [MAX_MESSAGE_SIZE]. *)
Theorem channel_fifo (ops : list ChanOp) (ms : mailboxes) (st : state) (evs : list event) :
  chan_run (shared_new, ms) ops = (st, evs) →
  ∀ s, sent_by s evs = received_by (other s) evs ++ queue (half st.1 s) ∧
       len (queue (half st.1 s)) <= DEFAULT_QUEUE_CAPACITY ∧
       Forall (λ m, len (msg_data m) <= MAX_MESSAGE_SIZE) (queue (half st.1 s)).
Proof.
  destruct st as [sh ms']. intros Hrun s.
  destruct (chan_run_fifo ops _ _ _ _ _ chan_inv_new Hrun) as [[Hcap Hinv] Hq].
  cbn [fst]. specialize (Hq s). destruct (Hinv s) as [Hl Hf]. rewrite Hcap in Hl.
  split_and!; [|done|done]. by destruct s.
Qed.

(** Closing is orderly: once a side has closed, after any further
    operations every send of legal size to it fails with [PeerClosed] and
    changes nothing, while the other side still receives what was queued, and
    gets [PeerClosed] instead of blocking when nothing is left. *)
Theorem channel_close (ops : list ChanOp) (sh : ChannelShared R) (ms : mailboxes) (s : Side)
    (st : state) (evs : list event) :
  chan_run (close sh ms s).1 ops = (st, evs) →
  is_peer_closed st.1 (other s) = true ∧ would_block_recv st.1 (other s) = false ∧
  (∀ msg att, len msg <= MAX_MESSAGE_SIZE →
     send_with_attachment st.1 st.2 (other s) msg att = (st, [], inr ChPeerClosed)) ∧
  (∀ buf, match queue (half st.1 s) with
          | [] => recv_with_attachment st.1 st.2 (other s) buf = (st, [], inr ChPeerClosed)
          | msg :: _ => len (msg_data msg) <= len buf →
              ∃ st' woken, recv_with_attachment st.1 st.2 (other s) buf =
                (st', woken, inl (msg_data msg ++ drop (length (msg_data msg)) buf,
                                  len (msg_data msg), attachment msg))
          end).
Proof.
  destruct (close_cases sh ms s) as (peer' & ms1 & w & -> & _ & _ & _). cbn [fst].
  destruct st as [sh' ms']. intros Hrun.
  assert (closed (half sh' s) = true) as Hc by (eapply closed_run; [exact Hrun|]; by halves).
  unfold is_peer_closed, would_block_recv. cbn [fst snd]. rewrite other_other, Hc, andb_false_r.
  split_and!; [done|done| |].
  - intros msg att Hm. destruct (send_cases sh' ms' (other s) msg att)
      as [(e & -> & He)|(? & ? & ? & _ & _ & Hcl & _)]; rewrite other_other in *; [|congruence].
    destruct He as [[_ ?]|[(-> & _)|(_ & _ & ? & _)]]; [lia|done|congruence].
  - intros buf. destruct (recv_cases sh' ms' (other s) buf)
      as [(e & He & Hcase)|(msg & rest & peer1 & ms2 & w2 & Hq & Hl & -> & _)];
      rewrite other_other in *; [|rewrite Hq; by eauto].
    destruct Hcase as [(_ & msg & rest & Hq & Hlt)|[(-> & Hq & _)|(_ & _ & ?)]]; [|by rewrite Hq|congruence].
    rewrite Hq. lia.
Qed.


(** A waker remembers one process: when two processes hold the same
    endpoint (handle transfer duplicates it) and both block receiving on it,
    the next message wakes only the one that polled last, and the first is no
    longer registered anywhere on the channel. *)
Theorem shared_endpoint_wakes_last (ht : R → HandleType) (sh : ChannelShared R) (ms : mailboxes)
    (t1 t2 : HandleTable R) (s : Side) (p1 p2 flags1 flags2 : Z) (dst1 dst2 : UserSlice)
    (out1 out2 : Z) (st1 st2 : state) (t1' t2' : HandleTable R) (w1 w2 : list Z) (msg : list Z) :
  half_mailbox (half sh s) = None → 0 < capacity sh → queue (half sh (other s)) = [] →
  closed (half sh s) = false → len msg <= MAX_MESSAGE_SIZE →
  recv_poll ht sh ms t1 s p1 flags1 dst1 out1 = Ok (st1, t1', w1, None) →
  recv_poll ht st1.1 st1.2 t2 s p2 flags2 dst2 out2 = Ok (st2, t2', w2, None) →
  ∃ sh3 ms3, send_with_attachment st2.1 st2.2 (other s) msg None = (sh3, ms3, [p2], inl tt) ∧
    waiting (half_waker (half sh3 s)) = None ∧ would_block_recv sh3 s = false.
Proof.
  intros Hmb Hcap Hq Hopen Hmsg H1 H2.
  destruct (recv_poll_spec ht sh ms t1 s p1 flags1 dst1 out1) as (? & ? & ? & ? & ? & E1 & S1).
  rewrite H1 in E1. injection E1 as -> <- <- <-. destruct (S1 eq_refl) as (-> & -> & _).
  cbn [fst snd] in *.
  destruct (recv_poll_spec ht (channel_set_waiting sh s p1) ms t2 s p2 flags2 dst2 out2)
    as (? & ? & ? & ? & ? & E2 & S2).
  rewrite H2 in E2. injection E2 as -> <- <- <-. destruct (S2 eq_refl) as (-> & -> & _).
  cbn [fst snd]. unfold send_with_attachment, notify, wake, channel_set_waiting, would_block_recv.
  rewrite decide_False by lia. rewrite !other_other.
  destruct s; cbn in *; rewrite Hopen, Hq, Hmb; rewrite decide_False by len_lia; cbn;
    (do 2 eexists; split; [done|]); split; done.
Qed.

End channel.

Lemma channel_fifo_witness :
  let ops : list (ChanOp (R:=Z)) :=
    [CSend SideA [1; 2] (Some 7); CSend SideA [3] None; CRecv SideB (replicate 8 0)] in
  let r := chan_run (shared_new, ∅) ops in
  sent_by SideA r.2 = received_by SideB r.2 ++ queue (half r.1.1 SideA) ∧
  len (queue (half r.1.1 SideA)) <= DEFAULT_QUEUE_CAPACITY ∧
  Forall (λ m, len (msg_data m) <= MAX_MESSAGE_SIZE) (queue (half r.1.1 SideA)).
Proof. intros ops r. apply (channel_fifo ops ∅ r.1 r.2 (surjective_pairing _) SideA). Defined.

Lemma channel_close_witness :
  let sh : ChannelShared Z := set_half shared_new SideA (set_queue half_new [mkMsg [1; 2] None]) in
  let st := (chan_run (close sh ∅ SideA).1 [CRecv SideB (replicate 8 0)]).1 in
  is_peer_closed st.1 SideB = true ∧ would_block_recv st.1 SideB = false ∧
  ∀ msg att, len msg <= MAX_MESSAGE_SIZE →
    send_with_attachment st.1 st.2 SideB msg att = (st, [], inr ChPeerClosed).
Proof.
  intros sh st.
  destruct (channel_close [CRecv SideB (replicate 8 0)] sh ∅ SideA st _ (surjective_pairing _))
    as (H1 & H2 & H3 & _).
  exact (conj H1 (conj H2 H3)).
Defined.


Lemma shared_endpoint_wakes_last_witness :
  let st2 := (channel_set_waiting (channel_set_waiting (R:=Z) shared_new SideB 5) SideB 6, ∅ : mailboxes) in
  ∃ sh3 ms3, send_with_attachment st2.1 st2.2 (other SideB) [1] None = (sh3, ms3, [6], inl tt) ∧
    waiting (half_waker (half sh3 SideB)) = None ∧ would_block_recv sh3 SideB = false.
Proof.
  apply (shared_endpoint_wakes_last (R:=Z) (λ _, HTBuffer) shared_new ∅ HandleTable_new HandleTable_new
    SideB 5 6 0 0 (mkSlice 4096 64) (mkSlice 4096 64) 0 0
    (channel_set_waiting shared_new SideB 5, ∅) _ HandleTable_new HandleTable_new [] []); done.
Defined.
