(* ===== verification/BufferVaddr.v ===== *)
(** * The buffer address allocator of a process
      ([Process::alloc_buffer_vaddr] and [free_buffer_vaddr] in
      [panda-kernel/src/process/mod.rs])

    Each process hands out page ranges of its buffer region for shared
    buffers, first fit, from a [BTreeMap] of free ranges (start address to
    number of pages) that merges neighbours when a range comes back. *)

From S2P Require Import Prelude BTree.
From stdpp Require Import relations.
#[local] Open Scope Z_scope.

Definition BUFFER_BASE : Z := 0x0000010000000000.
Definition BUFFER_MAX_SIZE : Z := 0x100000000.
Definition PAGE : Z := 4096.

Abbreviation ranges := (btree Z).

(** The region of a new process. *)
Definition buffer_ranges_new : ranges := bt_insert BUFFER_BASE (BUFFER_MAX_SIZE / PAGE) [].

(** [.iter().find(|&(_, &pages)| pages >= num_pages)]. *)
Fixpoint find_fit (t : ranges) (num_pages : Z) : option (Z * Z) :=
  match t with
  | [] => None
  | (a, n) :: t => if decide (n >= num_pages) then Some (a, n) else find_fit t num_pages
  end.

Definition alloc_buffer_vaddr (t : ranges) (num_pages : Z) : ranges * option Z :=
  match find_fit t num_pages with
  | None => (t, None)
  | Some (free_addr, free_pages) =>
      let t := bt_remove free_addr t in
      let t := if decide (free_pages > num_pages)
               then bt_insert (free_addr + num_pages * PAGE) (free_pages - num_pages) t
               else t in
      (t, Some free_addr)
  end.

Definition free_buffer_vaddr (t : ranges) (vaddr num_pages : Z) : ranges :=
  let end_addr := vaddr + num_pages * PAGE in
  let prev_merge :=
    match bt_before vaddr t with
    | Some (prev_addr, prev_pages) =>
        if decide (prev_addr + prev_pages * PAGE = vaddr) then Some (prev_addr, prev_pages) else None
    | None => None
    end in
  let next_merge :=
    match bt_from vaddr t with
    | Some (next_addr, next_pages) =>
        if decide (next_addr = end_addr) then Some (next_addr, next_pages) else None
    | None => None
    end in
  match prev_merge, next_merge with
  | Some (prev_addr, prev_pages), Some (next_addr, next_pages) =>
      bt_insert prev_addr (prev_pages + num_pages + next_pages)
        (bt_remove next_addr (bt_remove prev_addr t))
  | Some (prev_addr, prev_pages), None =>
      bt_insert prev_addr (prev_pages + num_pages) (bt_remove prev_addr t)
  | None, Some (next_addr, next_pages) =>
      bt_insert vaddr (num_pages + next_pages) (bt_remove next_addr t)
  | None, None => bt_insert vaddr num_pages t
  end.

(** ** Invariant

    The ranges ascend with a gap before each one ([lo] is the end of the one
    before), are not empty, and end by [hi]. *)
Fixpoint chain (lo : Z) (t : ranges) (hi : Z) : Prop :=
  match t with
  | [] => True
  | (a, n) :: t => lo < a ∧ 0 < n ∧ a + n * PAGE <= hi ∧ chain (a + n * PAGE) t hi
  end.

Definition BUFFER_END : Z := BUFFER_BASE + BUFFER_MAX_SIZE.
Definition ranges_inv (t : ranges) : Prop := chain (BUFFER_BASE - 1) t BUFFER_END.

(** The addresses of a range, and the free addresses. *)
Definition in_range (a n x : Z) : Prop := a <= x < a + n * PAGE.
Definition free (t : ranges) (x : Z) : Prop := ∃ a n, (a, n) ∈ t ∧ in_range a n x.

(** ** Lemmas *)
Lemma chain_weaken t : ∀ lo lo' hi, lo' <= lo → chain lo t hi → chain lo' t hi.
Proof. destruct t as [|[a n] t]; cbn; [done|]. intros lo lo' hi Hle (? & ? & ? & ?). split_and!; [lia|done..]. Qed.

Lemma chain_app l : ∀ lo r hi,
  chain lo (l ++ r) hi ↔
    chain lo l hi ∧ chain (match last l with Some (a, n) => a + n * PAGE | None => lo end) r hi.
Proof.
  induction l as [|[a n] l IH]; intros lo r hi; [cbn; naive_solver|].
  cbn [app chain]. rewrite IH. destruct l as [|e l]; [cbn; naive_solver|].
  change (last ((a, n) :: e :: l)) with (last (e :: l)).
  destruct (last (e :: l)) as [[a' n']|] eqn:Hl; [naive_solver|]. by apply last_None in Hl.
Qed.

Lemma chain_bounds t : ∀ lo hi, chain lo t hi → Forall (λ e, lo < e.1 ∧ 0 < e.2 ∧ e.1 + e.2 * PAGE <= hi) t.
Proof.
  induction t as [|[a n] t IH]; intros lo hi; cbn; [constructor|]. intros (? & ? & ? & Hc).
  constructor; [done|]. eapply Forall_impl; [exact (IH _ _ Hc)|]. cbn. unfold PAGE in *. intros e ?. lia.
Qed.

Lemma chain_sorted t : ∀ lo hi, chain lo t hi → bt_sorted t.
Proof.
  induction t as [|[a n] t IH]; intros lo hi; cbn; [constructor|]. intros (? & ? & ? & Hc).
  apply bt_sorted_cons. split; [by eapply IH|].
  eapply Forall_impl; [exact (chain_bounds _ _ _ Hc)|]. cbn. unfold PAGE in *. intros e ?. lia.
Qed.

(** The ranges before an entry end below it, those after start above its end. *)
Lemma chain_mid l a n r lo hi :
  chain lo (l ++ (a, n) :: r) hi →
  Forall (λ e, e.1 + e.2 * PAGE < a) l ∧ Forall (λ e, a + n * PAGE < e.1) r ∧
  lo < a ∧ 0 < n ∧ a + n * PAGE <= hi.
Proof.
  revert lo. induction l as [|[a' n'] l IH]; intros lo; cbn.
  - intros (? & ? & ? & Hc). split_and!; [constructor| |done..].
    eapply Forall_impl; [exact (chain_bounds _ _ _ Hc)|]. cbn. naive_solver.
  - intros (? & ? & ? & Hc). destruct (IH _ Hc) as (Hl & Hr & ? & ? & ?).
    split_and!; [|done|unfold PAGE in *; lia|done|done]. by constructor.
Qed.

Lemma chain_keys l a n r lo hi :
  chain lo (l ++ (a, n) :: r) hi → Forall (λ e, e.1 < a) l ∧ Forall (λ e, a < e.1) r.
Proof.
  intros Hc. destruct (chain_mid _ _ _ _ _ _ Hc) as (Hl & Hr & _ & Hpos & _). split.
  - pose proof (chain_bounds _ _ _ (proj1 (proj1 (chain_app _ _ _ _) Hc))) as Hb.
    rewrite Forall_forall in *. intros e He. specialize (Hl e He). specialize (Hb e He).
    unfold PAGE in *. lia.
  - eapply Forall_impl; [exact Hr|]. cbn. unfold PAGE. lia.
Qed.

Lemma find_fit_Some t num a n :
  find_fit t num = Some (a, n) → n >= num ∧ ∃ l r, t = l ++ (a, n) :: r ∧ Forall (λ e, e.2 < num) l.
Proof.
  induction t as [|[a' n'] t IH]; cbn; [done|]. case_decide.
  - intros [= <- <-]. split; [done|]. by exists [], t.
  - intros Hf. destruct (IH Hf) as (? & l & r & -> & Hl). split; [done|].
    exists ((a', n') :: l), r. split; [done|]. constructor; [cbn; lia|done].
Qed.

Lemma find_fit_None t num : find_fit t num = None → Forall (λ e, e.2 < num) t.
Proof.
  induction t as [|[a' n'] t IH]; cbn; [constructor|]. case_decide; [done|].
  intros Hf. constructor; [cbn; lia|by apply IH].
Qed.

(** The end of the last range of [l]. *)
Definition pend (lo : Z) (l : ranges) : Z :=
  match last l with Some (a, n) => a + n * PAGE | None => lo end.

Lemma chain_mid_iff lo l a n r hi :
  chain lo (l ++ (a, n) :: r) hi ↔
    chain lo l hi ∧ pend lo l < a ∧ 0 < n ∧ a + n * PAGE <= hi ∧ chain (a + n * PAGE) r hi.
Proof. rewrite chain_app. unfold pend. destruct (last l) as [[]|]; cbn; naive_solver. Qed.

Lemma pend_app_nil lo l a n : pend lo (l ++ [(a, n)]) = a + n * PAGE.
Proof. unfold pend. by rewrite last_snoc. Qed.

(** Both neighbours of a cut: the entry that was there is replaced. *)
Lemma alloc_shape t num a lo hi t' :
  chain lo t hi → 0 < num → alloc_buffer_vaddr t num = (t', Some a) →
  ∃ l n r, t = l ++ (a, n) :: r ∧ num <= n ∧
    t' = l ++ (if decide (n > num) then [(a + num * PAGE, n - num)] else []) ++ r.
Proof.
  intros Hc Hnum. unfold alloc_buffer_vaddr. destruct (find_fit t num) as [[a' n]|] eqn:Hf; [|done].
  apply find_fit_Some in Hf as (Hn & l & r & -> & _). intros [= <- ->].
  destruct (chain_mid _ _ _ _ _ _ Hc) as (_ & Hr & _ & Hpos & _).
  destruct (chain_keys _ _ _ _ _ _ Hc) as [Hl' Hr'].
  exists l, n, r. split_and!; [done|lia|]. rewrite (bt_remove_at a n l r) by done.
  case_decide; [|done]. cbn. apply bt_insert_at.
  - eapply Forall_impl; [exact Hl'|]. cbn. unfold PAGE in *. lia.
  - eapply Forall_impl; [exact Hr|]. cbn. unfold PAGE in *. nia.
Qed.

Lemma alloc_chain l a n r num lo hi :
  chain lo (l ++ (a, n) :: r) hi → 0 < num <= n →
  chain lo (l ++ (if decide (n > num) then [(a + num * PAGE, n - num)] else []) ++ r) hi.
Proof.
  intros (Hl & Ha & Hn & Hhi & Hr)%chain_mid_iff Hnum. case_decide; cbn [app].
  - apply chain_mid_iff. unfold PAGE in *. split_and!; [done|lia|lia|lia|].
    by replace (a + num * 4096 + (n - num) * 4096) with (a + n * 4096) by lia.
  - apply chain_app. split; [done|]. fold (pend lo l). eapply chain_weaken; [|exact Hr].
    unfold PAGE in *. lia.
Qed.

Lemma alloc_free l a n r num lo hi x :
  chain lo (l ++ (a, n) :: r) hi → 0 < num <= n →
  free (l ++ (a, n) :: r) x ↔
    in_range a num x ∨ free (l ++ (if decide (n > num) then [(a + num * PAGE, n - num)] else []) ++ r) x.
Proof.
  intros Hc Hnum. unfold free, in_range, PAGE. split.
  - intros (a' & n' & Hin & Hx). apply elem_of_app in Hin as [Hin|Hin]; [right; set_solver|].
    apply elem_of_cons in Hin as [[= -> ->]|Hin]; [|right; set_solver].
    destruct (decide (x < a + num * 4096)); [left; lia|]. right.
    exists (a + num * 4096), (n - num). split; [|lia]. rewrite decide_True by lia. set_solver.
  - intros [Hx|(a' & n' & Hin & Hx)].
    + exists a, n. split; [set_solver|lia].
    + apply elem_of_app in Hin as [Hin|Hin]; [set_solver|].
      apply elem_of_app in Hin as [Hin|Hin]; [|set_solver].
      revert Hin. case_decide; [|by intros ?%elem_of_nil].
      intros [= -> ->]%list_elem_of_singleton. exists a, n. split; [set_solver|lia].
Qed.

(** An allocated range is no longer free. *)
Lemma alloc_excl l a n r num lo hi x :
  chain lo (l ++ (a, n) :: r) hi → 0 < num <= n → in_range a num x →
  ¬ free (l ++ (if decide (n > num) then [(a + num * PAGE, n - num)] else []) ++ r) x.
Proof.
  intros Hc Hnum Hx (a' & n' & Hin & Hx'). unfold in_range in *.
  destruct (chain_mid _ _ _ _ _ _ Hc) as (Hl & Hr & _). rewrite Forall_forall in Hl, Hr.
  apply elem_of_app in Hin as [Hin|Hin]; [specialize (Hl _ Hin); cbn in Hl; lia|].
  apply elem_of_app in Hin as [Hin|Hin].
  - revert Hin. case_decide; [|by intros ?%elem_of_nil]. intros [= -> ->]%list_elem_of_singleton. lia.
  - specialize (Hr _ Hin). cbn in Hr. unfold PAGE in *. lia.
Qed.

(** A range that is not free lies in a gap of the list. *)
Lemma gap_cut t v n lo hi :
  chain lo t hi → lo < v → 0 < n → (∀ x, in_range v n x → ¬ free t x) →
  ∃ l r, t = l ++ r ∧ bt_before v t = last l ∧ bt_from v t = head r ∧
    pend lo l <= v ∧ Forall (λ e, e.1 < v) l ∧ Forall (λ e, v + n * PAGE <= e.1) r.
Proof.
  intros Hc Hlo Hn Hnf. destruct (bt_cut v t (chain_sorted _ _ _ Hc)) as (l & r & -> & Hl & Hr & Hb & Hf).
  exists l, r. split_and!; [done|done|done| |done|].
  - unfold pend. destruct (last l) as [[a m]|] eqn:Hlast; [|lia].
    apply last_Some in Hlast as [l' ->]. destruct (decide (a + m * PAGE <= v)) as [|Hgt]; [done|].
    exfalso. apply (Hnf v); [unfold in_range, PAGE; lia|]. exists a, m.
    apply Forall_app in Hl as [_ Hl%Forall_cons]. destruct Hl as [Ha _]. cbn in Ha.
    split; [set_solver|unfold in_range; lia].
  - pose proof (chain_bounds _ _ _ Hc) as Hbd. apply Forall_app in Hbd as [_ Hbd].
    rewrite Forall_forall in *. intros [a m] He. specialize (Hr _ He). specialize (Hbd _ He). cbn in *.
    destruct (decide (v + n * PAGE <= a)) as [|Hgt]; [done|].
    exfalso. apply (Hnf a); [unfold in_range; lia|]. exists a, m.
    split; [set_solver|unfold in_range, PAGE in *; lia].
Qed.

Lemma chain_after x b r hi :
  chain x r hi → Forall (λ e, b <= e.1) r → (∀ e, head r = Some e → e.1 ≠ b) → chain b r hi.
Proof.
  destruct r as [|[a n] r]; [done|]. cbn. intros (_ & ? & ? & ?) Hr%Forall_cons Hne.
  destruct Hr as [Ha _]. cbn in Ha. specialize (Hne (a, n) eq_refl). cbn in Hne.
  split_and!; [lia|done..].
Qed.

(** What the search for the previous range finds at the cut [l | r]: the last
    range of [l] if it ends at [v]. *)
Definition merge_prev (o : option (Z * Z)) (v : Z) : option (Z * Z) :=
  match o with
  | Some (a, n) => if decide (a + n * PAGE = v) then Some (a, n) else None
  | None => None
  end.
Definition merge_next (o : option (Z * Z)) (stop : Z) : option (Z * Z) :=
  match o with
  | Some (a, n) => if decide (a = stop) then Some (a, n) else None
  | None => None
  end.

Lemma merge_prev_cases lo l v :
  pend lo l <= v → lo < v →
  (merge_prev (last l) v = None ∧ pend lo l < v) ∨
  (∃ l1 a n, l = l1 ++ [(a, n)] ∧ merge_prev (last l) v = Some (a, n) ∧ a + n * PAGE = v).
Proof.
  unfold pend, merge_prev. destruct (last l) as [[a n]|] eqn:Hl; [|auto]. intros Hle _.
  case_decide; [right|left; split; [done|lia]].
  apply last_Some in Hl as [l1 ->]. by exists l1, a, n.
Qed.

Lemma merge_next_cases r stop :
  (merge_next (head r) stop = None ∧ ∀ e, head r = Some e → e.1 ≠ stop) ∨
  (∃ n r1, r = (stop, n) :: r1 ∧ merge_next (head r) stop = Some (stop, n)).
Proof.
  destruct r as [|[a n] r]; cbn; [by left|]. case_decide as Ha; [right|left].
  - subst a. by exists n, r.
  - split; [done|]. by intros e [= <-].
Qed.

(** The list after a range comes back, by whether it touches a range before
    and a range after. *)
Definition grown (l r : ranges) (v n : Z) (t' : ranges) : Prop :=
  (∃ l1 a pn qn r1, l = l1 ++ [(a, pn)] ∧ r = (v + n * PAGE, qn) :: r1 ∧ a + pn * PAGE = v ∧
     t' = l1 ++ (a, pn + n + qn) :: r1) ∨
  (∃ l1 a pn, l = l1 ++ [(a, pn)] ∧ a + pn * PAGE = v ∧ (∀ e, head r = Some e → e.1 ≠ v + n * PAGE) ∧
     t' = l1 ++ (a, pn + n) :: r) ∨
  (∃ qn r1, r = (v + n * PAGE, qn) :: r1 ∧ pend (BUFFER_BASE - 1) l < v ∧ t' = l ++ (v, n + qn) :: r1) ∨
  ((∀ e, head r = Some e → e.1 ≠ v + n * PAGE) ∧ pend (BUFFER_BASE - 1) l < v ∧ t' = l ++ (v, n) :: r).

Lemma free_grown l r v n :
  ranges_inv (l ++ r) → BUFFER_BASE <= v → 0 < n →
  pend (BUFFER_BASE - 1) l <= v → Forall (λ e, e.1 < v) l → Forall (λ e, v + n * PAGE <= e.1) r →
  bt_before v (l ++ r) = last l → bt_from v (l ++ r) = head r →
  grown l r v n (free_buffer_vaddr (l ++ r) v n).
Proof.
  intros Hc Hv Hn Hpend Hl Hr Hb Hf. unfold grown, free_buffer_vaddr. rewrite Hb, Hf.
  fold (merge_prev (last l) v). fold (merge_next (head r) (v + n * PAGE)).
  assert (Forall (λ e, v < e.1) r) as Hr' by (eapply Forall_impl; [exact Hr|]; cbn; unfold PAGE; lia).
  destruct (merge_prev_cases (BUFFER_BASE - 1) l v Hpend ltac:(lia)) as [[-> Hlt]|(l1 & a & pn & -> & -> & Ha)];
  destruct (merge_next_cases r (v + n * PAGE)) as [[-> Hne]|(qn & r1 & -> & ->)];
    rewrite <- ?app_assoc in *; cbn [app] in *.
  - do 3 right. split_and!; [done|done|]. by apply bt_insert_at.
  - right. right. left. exists qn, r1. split_and!; [done|done|].
    destruct (chain_keys _ _ _ _ _ _ Hc) as [Hl1 Hr1]. rewrite bt_remove_at by done.
    apply bt_insert_at; [done|]. eapply Forall_impl; [exact Hr1|]. cbn. unfold PAGE in *. lia.
  - right. left. exists l1, a, pn. split_and!; [done|done|done|].
    destruct (chain_keys _ _ _ _ _ _ Hc) as [Hl1 Hr1]. rewrite bt_remove_at by done.
    by apply bt_insert_at.
  - left. exists l1, a, pn, qn, r1. split_and!; [done|done|done|].
    destruct (chain_keys _ _ _ _ _ _ Hc) as [Hl1 Hr1]. rewrite (bt_remove_at a pn) by done.
    apply Forall_cons in Hr1 as [_ Hr1]. apply Forall_cons in Hr' as [_ Hr'].
    replace (l1 ++ (a, pn) :: (v + n * PAGE, qn) :: r1) with ((l1 ++ [(a, pn)]) ++ (v + n * PAGE, qn) :: r1)
      in Hc by (by rewrite <- app_assoc).
    destruct (chain_keys _ _ _ _ _ _ Hc) as [Hl2 Hr2]. apply Forall_app in Hl2 as [Hl2 _].
    rewrite bt_remove_at by done. by apply bt_insert_at.
Qed.

Lemma elem_free_app l r x : free (l ++ r) x ↔ free l x ∨ free r x.
Proof. unfold free. setoid_rewrite elem_of_app. naive_solver. Qed.
Lemma elem_free_cons a n r x : free ((a, n) :: r) x ↔ in_range a n x ∨ free r x.
Proof. unfold free. setoid_rewrite elem_of_cons. naive_solver. Qed.
Lemma elem_free_nil x : free [] x ↔ False.
Proof. unfold free. setoid_rewrite elem_of_nil. naive_solver. Qed.

(** The list after a range comes back is again a list of separate ranges and
    has the range's addresses in addition. *)
Lemma grown_ok l r v n t' :
  ranges_inv (l ++ r) → 0 < n → v + n * PAGE <= BUFFER_END →
  Forall (λ e, v + n * PAGE <= e.1) r → grown l r v n t' →
  ranges_inv t' ∧ ∀ x, free t' x ↔ free (l ++ r) x ∨ in_range v n x.
Proof.
  unfold ranges_inv, grown. intros Hc Hn Hend Hr [H|[H|[H|H]]].
  - destruct H as (l1 & a & pn & qn & r1 & -> & -> & Ha & ->). rewrite <- app_assoc in Hc. cbn [app] in Hc.
    apply chain_mid_iff in Hc as (Hl & Hp & Hpn & _ & Hc). cbn [chain] in Hc.
    destruct Hc as (_ & Hqn & Hq & Hc). split.
    + apply chain_mid_iff. unfold PAGE in *. split_and!; [done|lia|lia|lia|].
      by replace (a + (pn + n + qn) * 4096) with (v + n * 4096 + qn * 4096) by lia.
    + intros x. rewrite !elem_free_app, !elem_free_cons, elem_free_nil. unfold in_range, PAGE in *.
      destruct (decide (x < v)), (decide (x < v + n * 4096)); intuition lia.
  - destruct H as (l1 & a & pn & -> & Ha & Hne & ->). rewrite <- app_assoc in Hc. cbn [app] in Hc.
    apply chain_mid_iff in Hc as (Hl & Hp & Hpn & _ & Hc). split.
    + apply chain_mid_iff. replace (a + (pn + n) * PAGE) with (v + n * PAGE) by lia.
      split_and!; [done|done|lia|done|]. by eapply chain_after.
    + intros x. rewrite !elem_free_app, !elem_free_cons, elem_free_nil. unfold in_range, PAGE in *.
      destruct (decide (x < v)); intuition lia.
  - destruct H as (qn & r1 & -> & Hlt & ->). apply chain_mid_iff in Hc as (Hl & Hp & Hqn & Hq & Hc). split.
    + apply chain_mid_iff. replace (v + (n + qn) * PAGE) with (v + n * PAGE + qn * PAGE) by lia.
      split_and!; [done|done|lia|done|done].
    + intros x. rewrite !elem_free_app, !elem_free_cons. unfold in_range, PAGE in *.
      destruct (decide (x < v + n * 4096)); intuition lia.
  - destruct H as (Hne & Hlt & ->). pose proof (proj1 (chain_app _ _ _ _) Hc) as [Hl Hc']. split.
    + apply chain_mid_iff. split_and!; [done|done|done|done|]. by eapply chain_after.
    + intros x. rewrite !elem_free_app, !elem_free_cons. intuition.
Qed.

(** Freeing what was just allocated gives the list back. *)
Lemma free_alloc l a n r num :
  ranges_inv (l ++ (a, n) :: r) → 0 < num <= n →
  free_buffer_vaddr (l ++ (if decide (n > num) then [(a + num * PAGE, n - num)] else []) ++ r) a num =
    l ++ (a, n) :: r.
Proof.
  intros Hc Hnum. pose proof (alloc_chain _ _ _ _ num _ _ Hc Hnum) as Hc'.
  destruct (chain_keys _ _ _ _ _ _ Hc) as [Hl _].
  pose proof (chain_mid _ _ _ _ _ _ Hc) as (_ & Hr & Ha & _ & _).
  apply chain_mid_iff in Hc as (_ & Hp & _ & _ & Hcr).
  set (rest := if decide (n > num) then [(a + num * PAGE, n - num)] else []) in *.
  assert (Forall (λ e, a + num * PAGE <= e.1) (rest ++ r)) as Hrest.
  { apply Forall_app. split; [subst rest; case_decide; repeat constructor; cbn; lia|].
    eapply Forall_impl; [exact Hr|]. cbn. unfold PAGE in *. lia. }
  destruct (bt_cut_at a l (rest ++ r)) as [Hb Hf];
    [done|eapply Forall_impl; [exact Hrest|]; cbn; unfold PAGE; lia|].
  pose proof (free_grown l (rest ++ r) a num Hc' ltac:(lia) ltac:(lia) ltac:(lia) Hl Hrest Hb Hf) as Hg.
  unfold grown in Hg. destruct Hg as [H|[H|[H|H]]].
  - destruct H as (l1 & a' & pn & _ & _ & -> & _ & He & _). rewrite pend_app_nil in Hp. lia.
  - destruct H as (l1 & a' & pn & -> & He & _). rewrite pend_app_nil in Hp. lia.
  - destruct H as (qn & r1 & Hq & _ & ->). subst rest. case_decide; cbn [app] in Hq.
    + injection Hq as <- <-. do 3 f_equal. lia.
    + subst r. cbn in Hcr. unfold PAGE in *. lia.
  - destruct H as (Hne & _ & ->). subst rest. case_decide; cbn [app] in *.
    + specialize (Hne _ eq_refl). cbn in Hne. lia.
    + do 3 f_equal. lia.
Qed.

(** ** Histories

    The free list with the ranges handed out and not yet returned. *)
Abbreviation vstate := (ranges * list (Z * Z))%type.

Inductive vaddr_step : vstate → vstate → Prop :=
| vaddr_alloc t live num t' a :
    0 < num → alloc_buffer_vaddr t num = (t', Some a) →
    vaddr_step (t, live) (t', (a, num) :: live)
| vaddr_free t l1 a num l2 :
    vaddr_step (t, l1 ++ (a, num) :: l2) (free_buffer_vaddr t a num, l1 ++ l2).

(** Every address of the region is free or in exactly one live range. *)
Definition accounted (s : vstate) : Prop :=
  ranges_inv s.1 ∧
  Forall (λ e, BUFFER_BASE <= e.1 ∧ 0 < e.2 ∧ e.1 + e.2 * PAGE <= BUFFER_END) s.2 ∧
  (∀ x, BUFFER_BASE <= x < BUFFER_END → free s.1 x ∨ free s.2 x) ∧
  (∀ x, free s.1 x → ¬ free s.2 x) ∧
  (∀ l1 a n l2 x, s.2 = l1 ++ (a, n) :: l2 → in_range a n x → ¬ free (l1 ++ l2) x).

Lemma accounted_new : accounted (buffer_ranges_new, []).
Proof.
  unfold accounted. cbn [fst snd]. split_and!.
  - unfold ranges_inv, buffer_ranges_new. cbn [bt_insert chain].
    split_and!; [lia|by vm_compute|by vm_compute|done].
  - constructor.
  - intros x Hx. left. exists BUFFER_BASE, (BUFFER_MAX_SIZE / PAGE).
    split; [cbn [buffer_ranges_new bt_insert]; apply list_elem_of_singleton; done|].
    unfold in_range. replace (BUFFER_MAX_SIZE / PAGE * PAGE) with BUFFER_MAX_SIZE by (by vm_compute).
    exact Hx.
  - intros x _ Hx. by apply elem_free_nil in Hx.
  - intros l1 a n l2 x Hl. by destruct l1.
Qed.

Lemma accounted_alloc t live num t' a :
  accounted (t, live) → 0 < num → alloc_buffer_vaddr t num = (t', Some a) →
  accounted (t', (a, num) :: live).
Proof.
  intros (Hc & Hlive & Hall & Hdis & Hpair) Hnum Halloc. cbn [fst snd] in *.
  destruct (alloc_shape _ _ _ _ _ _ Hc Hnum Halloc) as (l & n & r & -> & Hn & ->).
  pose proof (λ x, alloc_free l a n r num (BUFFER_BASE - 1) BUFFER_END x) as Hfree.
  pose proof (λ x, alloc_excl l a n r num (BUFFER_BASE - 1) BUFFER_END x) as Hexcl.
  pose proof (chain_mid _ _ _ _ _ _ Hc) as (_ & _ & Ha & _ & Hhi).
  assert (∀ x, in_range a num x → ¬ free live x) as Hnew.
  { intros x Hx. apply Hdis. apply (Hfree x Hc ltac:(lia)). by left. }
  unfold accounted. cbn [fst snd]. split_and!.
  - apply alloc_chain; [done|lia].
  - constructor; [cbn; unfold PAGE in *; lia|done].
  - intros x Hx. rewrite elem_free_cons. destruct (Hall x Hx) as [Hf|Hf]; [|tauto].
    apply (Hfree x Hc ltac:(lia)) in Hf. tauto.
  - intros x Hf. rewrite elem_free_cons. intros [Hx|Hx].
    + by eapply (Hexcl x Hc ltac:(lia)).
    + apply (Hdis x); [|done]. apply (Hfree x Hc ltac:(lia)). by right.
  - intros [|e l1] a' n' l2 x Heq Hx; cbn in Heq.
    + injection Heq as <- <- <-. by apply Hnew.
    + injection Heq as <- ->. rewrite <- app_comm_cons, elem_free_cons. intros [Hx'|Hx'].
      * apply (Hnew x Hx'). rewrite elem_free_app, elem_free_cons. tauto.
      * by eapply Hpair.
Qed.

Lemma accounted_free t l1 a num l2 :
  accounted (t, l1 ++ (a, num) :: l2) → accounted (free_buffer_vaddr t a num, l1 ++ l2).
Proof.
  intros (Hc & Hlive & Hall & Hdis & Hpair). cbn [fst snd] in *.
  pose proof Hlive as [_ [Hr _]%Forall_cons]%Forall_app. cbn in Hr. destruct Hr as (Hlo & Hn & Hhi).
  assert (∀ x, in_range a num x → ¬ free t x) as Hnf.
  { intros x Hx Hf. apply (Hdis x Hf). rewrite elem_free_app, elem_free_cons. tauto. }
  destruct (gap_cut t a num _ _ Hc ltac:(lia) Hn Hnf) as (l & r & -> & Hb & Hf & Hp & Hl & Hr).
  pose proof (free_grown l r a num Hc Hlo Hn Hp Hl Hr Hb Hf) as Hg.
  destruct (grown_ok l r a num _ Hc Hn Hhi Hr Hg) as [Hinv Hfree].
  unfold accounted. cbn [fst snd]. split_and!; [done|..].
  - apply Forall_app in Hlive as [? [_ ?]%Forall_cons]. by apply Forall_app.
  - intros x Hx. rewrite Hfree. specialize (Hall x Hx).
    rewrite (elem_free_app l1 (_ :: _)), elem_free_cons in Hall. rewrite (elem_free_app l1 l2). tauto.
  - intros x. rewrite Hfree. intros [Hx|Hx].
    + intros Hx'. apply (Hdis x Hx). rewrite elem_free_app in Hx'.
      rewrite elem_free_app, elem_free_cons. tauto.
    + by eapply Hpair.
  - intros k1 a' n' k2 x Heq Hx Hx'.
    assert (∃ k1' k2', l1 ++ (a, num) :: l2 = k1' ++ (a', n') :: k2' ∧
      ∀ y, free (k1 ++ k2) y → free (k1' ++ k2') y) as (k1' & k2' & Heq' & Hsub).
    { apply app_eq_inv in Heq as [(k & -> & Hk)|(k & -> & Hk)].
      - destruct k as [|e k]; [cbn in Hk|].
        + subst l2. exists (k1 ++ [(a, num)]), k2. rewrite app_nil_r. split; [by rewrite <- app_assoc|].
          intros y. rewrite !elem_free_app. tauto.
        + injection Hk as <- ->. exists k1, (k ++ (a, num) :: l2). split; [by rewrite <- app_assoc|].
          intros y. rewrite !elem_free_app, elem_free_cons. tauto.
      - exists (l1 ++ (a, num) :: k), k2. rewrite Hk. split; [by rewrite <- app_assoc|].
        intros y. rewrite !elem_free_app, elem_free_cons. tauto. }
    by eapply (Hpair _ _ _ _ x Heq' Hx), Hsub.
Qed.

(** ** Properties *)

(** Over any history of a process's buffer region, every address is
    either free or in exactly one range handed out and not yet returned: live
    ranges never overlap each other or the free list, stay inside the region,
    nothing is lost, and the free list stays a list of separated, non-empty
    ranges. *)
Theorem buffer_vaddr_accounted (s : vstate) :
  rtc vaddr_step (buffer_ranges_new, []) s → accounted s.
Proof.
  intros Hsteps. pose proof accounted_new as H0. revert H0 Hsteps.
  generalize ((buffer_ranges_new, []) : vstate). intros s0 H0 Hsteps.
  induction Hsteps as [|s0 s1 s2 Hstep _ IH]; [done|]. apply IH.
  destruct Hstep as [t live num t' a Hnum Ha|t l1 a num l2].
  - by eapply accounted_alloc.
  - by apply accounted_free.
Qed.

Lemma buffer_vaddr_accounted_witness :
  accounted ([(BUFFER_BASE + 3 * PAGE, BUFFER_MAX_SIZE / PAGE - 3)], [(BUFFER_BASE, 3)]).
Proof.
  apply buffer_vaddr_accounted. apply rtc_once. by apply vaddr_alloc.
Defined.

(** Allocation is first fit and exact, and freeing undoes it: a range is
    found unless every free range is too short; it consists of free addresses
    and exactly those stop being free; giving it back at once restores the
    free list as it was, neighbours merged. *)
Theorem buffer_alloc_free (t : ranges) (num : Z) :
  ranges_inv t → 0 < num →
  match alloc_buffer_vaddr t num with
  | (t', Some a) =>
      ranges_inv t' ∧ (∀ x, in_range a num x → BUFFER_BASE <= x < BUFFER_END) ∧
      (∀ x, free t x ↔ in_range a num x ∨ free t' x) ∧
      (∀ x, in_range a num x → ¬ free t' x) ∧
      free_buffer_vaddr t' a num = t
  | (t', None) => t' = t ∧ Forall (λ e, e.2 < num) t
  end.
Proof.
  intros Hc Hnum. destruct (alloc_buffer_vaddr t num) as [t' [a|]] eqn:Ha.
  - destruct (alloc_shape _ _ _ _ _ _ Hc Hnum Ha) as (l & n & r & -> & Hn & ->).
    pose proof (chain_mid _ _ _ _ _ _ Hc) as (_ & _ & Hlo & _ & Hhi). split_and!.
    + apply alloc_chain; [done|lia].
    + unfold in_range, PAGE in *. lia.
    + intros x. eapply alloc_free; [exact Hc|lia].
    + intros x. eapply alloc_excl; [exact Hc|lia].
    + apply free_alloc; [done|lia].
  - revert Ha. unfold alloc_buffer_vaddr. destruct (find_fit t num) as [[]|] eqn:Hf; [done|].
    intros [= <-]. split; [done|]. by apply find_fit_None.
Qed.

Lemma buffer_alloc_free_witness :
  match alloc_buffer_vaddr buffer_ranges_new 3 with
  | (t', Some a) =>
      ranges_inv t' ∧ (∀ x, in_range a 3 x → BUFFER_BASE <= x < BUFFER_END) ∧
      (∀ x, free buffer_ranges_new x ↔ in_range a 3 x ∨ free t' x) ∧
      (∀ x, in_range a 3 x → ¬ free t' x) ∧
      free_buffer_vaddr t' a 3 = buffer_ranges_new
  | (t', None) => t' = buffer_ranges_new ∧ Forall (λ e, e.2 < 3) buffer_ranges_new
  end.
Proof. apply buffer_alloc_free; [apply accounted_new|done]. Defined.
