(* ===== verification/Scheduler.v ===== *)
(** * The scheduler ([panda-kernel/src/scheduler/mod.rs], [deadline.rs])

    The scheduler keeps every process and kernel task in one of three queues,
    each a [BinaryHeap] ordered by the time the entity was last scheduled, and
    runs the least recently scheduled one.  A heap is modelled by the bag of
    its entries; [heap_pop] takes the maximum, which is the only way the code
    reads it.  The time stamp counter ([RTC::now()]) is an argument. *)

From S2P Require Import Prelude BTree.
From stdpp Require Import relations.
#[local] Open Scope Z_scope.

Inductive ProcessState := Runnable | Running | Blocked.

#[export] Instance ProcessState_eq_dec : EqDecision ProcessState.
Proof. solve_decision. Defined.

Inductive SchedulableEntity := EProcess (pid : Z) | EKernelTask (tid : Z).

#[export] Instance SchedulableEntity_eq_dec : EqDecision SchedulableEntity.
Proof. solve_decision. Defined.

(** The part of a process the scheduler reads and writes. *)
Record Process := mkProcess { p_state : ProcessState; p_last_scheduled : Z }.

Definition set_state (p : Process) (st : ProcessState) : Process := mkProcess st (p_last_scheduled p).
Definition reset_last_scheduled (p : Process) (now : Z) : Process := mkProcess (p_state p) now.

(** ** Heaps of [(Reverse<RTC>, SchedulableEntity)] *)
Abbreviation entry := (Z * SchedulableEntity)%type.
Abbreviation heap := (list entry).

(** The derived [Ord] of entities: processes before kernel tasks. *)
Definition entity_lt (x y : SchedulableEntity) : Prop :=
  match x, y with
  | EProcess a, EProcess b => a < b
  | EProcess _, EKernelTask _ => True
  | EKernelTask a, EKernelTask b => a < b
  | EKernelTask _, EProcess _ => False
  end.

#[export] Instance entity_lt_dec x y : Decision (entity_lt x y).
Proof. destruct x, y; cbn; apply _. Defined.

(** [x] is greater than [y]: scheduled longer ago, or at the same time and
    greater as an entity. *)
Definition entry_gt (x y : entry) : Prop :=
  x.1 < y.1 ∨ x.1 = y.1 ∧ entity_lt y.2 x.2.

#[export] Instance entry_gt_dec x y : Decision (entry_gt x y).
Proof. unfold entry_gt. apply _. Defined.

(** [pop]: the maximum and the other entries. *)
Fixpoint heap_pop (h : heap) : option (entry * heap) :=
  match h with
  | [] => None
  | x :: h =>
      match heap_pop h with
      | None => Some (x, [])
      | Some (m, rest) => if decide (entry_gt m x) then Some (m, x :: rest) else Some (x, h)
      end
  end.

(** [retain(|(_, other)| *other != entity)]. *)
Definition heap_without (h : heap) (e : SchedulableEntity) : heap := filter (λ x, x.2 ≠ e) h.
#[global] Arguments heap_without : simpl never.

(** ** [DeadlineTracker] *)
Abbreviation deadlines := (btree (list SchedulableEntity)).

Definition deadline_register (d : deadlines) (e : SchedulableEntity) (deadline_ms : Z) : deadlines :=
  bt_insert deadline_ms (default [] (bt_get deadline_ms d) ++ [e]) d.

(** The entries up to the first one still in the future. *)
Fixpoint expired (d : deadlines) (now_ms : Z) : deadlines :=
  match d with
  | (k, es) :: d => if decide (k <= now_ms) then (k, es) :: expired d now_ms else []
  | [] => []
  end.

Definition collect_expired (d : deadlines) (now_ms : Z) : deadlines * list SchedulableEntity :=
  let ex := expired d now_ms in
  (foldl (λ d k, bt_remove k d) d ex.*1, concat ex.*2).

Definition deadline_next (d : deadlines) : option Z := head d.*1.

(** ** [Scheduler] *)
Record Scheduler := mkSched {
  processes : gmap Z Process;
  h_runnable : heap;
  h_running : heap;
  h_blocked : heap;
  current : SchedulableEntity;
  current_process : Z;
  kernel_task_rtc : gmap Z Z;
  deadline_tracker : deadlines;
}.

Definition state_map (sc : Scheduler) (st : ProcessState) : heap :=
  match st with Runnable => h_runnable sc | Running => h_running sc | Blocked => h_blocked sc end.

Definition set_map (sc : Scheduler) (st : ProcessState) (h : heap) : Scheduler :=
  match st with
  | Runnable => mkSched (processes sc) h (h_running sc) (h_blocked sc) (current sc)
                  (current_process sc) (kernel_task_rtc sc) (deadline_tracker sc)
  | Running => mkSched (processes sc) (h_runnable sc) h (h_blocked sc) (current sc)
                 (current_process sc) (kernel_task_rtc sc) (deadline_tracker sc)
  | Blocked => mkSched (processes sc) (h_runnable sc) (h_running sc) h (current sc)
                 (current_process sc) (kernel_task_rtc sc) (deadline_tracker sc)
  end.

Definition set_processes (sc : Scheduler) (ps : gmap Z Process) : Scheduler :=
  mkSched ps (h_runnable sc) (h_running sc) (h_blocked sc) (current sc) (current_process sc)
    (kernel_task_rtc sc) (deadline_tracker sc).
Definition set_current (sc : Scheduler) (e : SchedulableEntity) : Scheduler :=
  mkSched (processes sc) (h_runnable sc) (h_running sc) (h_blocked sc) e (current_process sc)
    (kernel_task_rtc sc) (deadline_tracker sc).
Definition set_rtc (sc : Scheduler) (m : gmap Z Z) : Scheduler :=
  mkSched (processes sc) (h_runnable sc) (h_running sc) (h_blocked sc) (current sc)
    (current_process sc) m (deadline_tracker sc).
Definition set_deadlines (sc : Scheduler) (d : deadlines) : Scheduler :=
  mkSched (processes sc) (h_runnable sc) (h_running sc) (h_blocked sc) (current sc)
    (current_process sc) (kernel_task_rtc sc) d.

Definition remove_from_state (sc : Scheduler) (st : ProcessState) (e : SchedulableEntity) : Scheduler :=
  set_map sc st (heap_without (state_map sc st) e).
Definition add_to_state (sc : Scheduler) (st : ProcessState) (e : SchedulableEntity) (t : Z) : Scheduler :=
  set_map sc st ((t, e) :: state_map sc st).

Definition change_state (sc : Scheduler) (pid : Z) (st : ProcessState) : Scheduler * bool :=
  match processes sc !! pid with
  | None => (sc, false)
  | Some p =>
      let e := EProcess pid in
      let sc := set_processes sc (<[pid := set_state p st]> (processes sc)) in
      let sc := remove_from_state sc (p_state p) e in
      (add_to_state sc st e (p_last_scheduled p), true)
  end.

Definition update_process (sc : Scheduler) (pid : Z) : Scheduler :=
  match processes sc !! pid with
  | None => sc
  | Some p =>
      let e := EProcess pid in
      foldl (λ sc st,
        if decide (p_state p = st) then add_to_state sc st e (p_last_scheduled p)
        else remove_from_state sc st e) sc [Runnable; Running; Blocked]
  end.

Definition sched_add (sc : Scheduler) (pid : Z) (p : Process) : Scheduler :=
  update_process (set_processes sc (<[pid := p]> (processes sc))) pid.

Definition sched_new (pid : Z) (p : Process) : Scheduler :=
  sched_add (mkSched ∅ [] [] [] (EProcess pid) pid ∅ []) pid p.

(** The loop of [prepare_next_runnable]; each round pops one entry, so the
    size of the heap bounds the rounds.  [now] and [now'] are the counter's
    first and second reading (a kernel task takes two). *)
Fixpoint next_loop (fuel : nat) (sc : Scheduler) (now now' : Z) :
    outcome Empty_set (Scheduler * option SchedulableEntity) :=
  match fuel with
  | O => OutOfFuel
  | S fuel =>
      match heap_pop (state_map sc Runnable) with
      | None => Ok (sc, None)
      | Some ((_, next), rest) =>
          let sc := set_map sc Runnable rest in
          match next with
          | EProcess pid =>
              match processes sc !! pid with
              | None => next_loop fuel sc now now'
              | Some p =>
                  let sc := set_processes sc (<[pid := reset_last_scheduled p now]> (processes sc)) in
                  let '(sc, _) := change_state sc pid Running in
                  Ok (set_current sc next, Some next)
              end
          | EKernelTask tid =>
              let sc := set_rtc sc (<[tid := now]> (kernel_task_rtc sc)) in
              let sc := remove_from_state sc Runnable next in
              let sc := add_to_state sc Running next now' in
              Ok (set_current sc next, Some next)
          end
      end
  end.

(** The [assert!] that nothing is running comes first. *)
Definition prepare_next_runnable (sc : Scheduler) (now now' : Z) :
    outcome Empty_set (Scheduler * option SchedulableEntity) :=
  if decide (state_map sc Running = []) then next_loop (S (length (state_map sc Runnable))) sc now now'
  else Panic.

Definition sched_remove_process (sc : Scheduler) (pid : Z) : Scheduler * option Process :=
  let e := EProcess pid in
  let sc := foldl (λ sc st, remove_from_state sc st e) sc [Runnable; Running; Blocked] in
  (set_processes sc (delete pid (processes sc)), processes sc !! pid).

Definition has_other_runnable (sc : Scheduler) : bool := bool_decide (state_map sc Runnable ≠ []).

Definition add_kernel_task (sc : Scheduler) (tid now : Z) : Scheduler :=
  add_to_state (set_rtc sc (<[tid := now]> (kernel_task_rtc sc))) Runnable (EKernelTask tid) now.

Definition change_kernel_task_state (sc : Scheduler) (tid : Z) (st : ProcessState) (now : Z) : Scheduler :=
  let e := EKernelTask tid in
  let rtc := default now (kernel_task_rtc sc !! tid) in
  let sc := foldl (λ sc st, remove_from_state sc st e) sc [Runnable; Running; Blocked] in
  add_to_state sc st e rtc.

Definition remove_kernel_task (sc : Scheduler) (tid : Z) : Scheduler :=
  let e := EKernelTask tid in
  let sc := foldl (λ sc st, remove_from_state sc st e) sc [Runnable; Running; Blocked] in
  set_rtc sc (delete tid (kernel_task_rtc sc)).

Definition register_deadline (sc : Scheduler) (e : SchedulableEntity) (deadline_ms : Z) : Scheduler :=
  set_deadlines sc (deadline_register (deadline_tracker sc) e deadline_ms).

(** [scheduler::wake_process]. *)
Definition wake_process (sc : Scheduler) (pid : Z) : Scheduler :=
  match processes sc !! pid with
  | Some p => if decide (p_state p = Blocked) then (change_state sc pid Runnable).1 else sc
  | None => sc
  end.

(** The body of the loop of [wake_deadline_tasks]; [now tid] is the counter's
    reading when the task [tid] has no recorded time. *)
Definition wake_entity (now : Z → Z) (sc : Scheduler) (e : SchedulableEntity) : Scheduler :=
  match e with
  | EKernelTask tid => change_kernel_task_state sc tid Runnable (now tid)
  | EProcess pid =>
      match processes sc !! pid with
      | Some p => if decide (p_state p = Blocked) then (change_state sc pid Runnable).1 else sc
      | None => sc
      end
  end.

Definition wake_deadline_tasks (sc : Scheduler) (now_ms : Z) (now : Z → Z) : Scheduler * Z :=
  let '(d, es) := collect_expired (deadline_tracker sc) now_ms in
  (foldl (wake_entity now) (set_deadlines sc d) es, len es).

Definition next_deadline (sc : Scheduler) : option Z := deadline_next (deadline_tracker sc).

(** [dispatch_kernel_task], by the result of the poll. *)
Inductive PollResult := PollCompleted | PollPending | PollNotFound.

Definition dispatch_kernel_task (sc : Scheduler) (tid : Z) (r : PollResult) (now : Z) : Scheduler :=
  match r with
  | PollCompleted => remove_kernel_task sc tid
  | PollPending => change_kernel_task_state sc tid Blocked now
  | PollNotFound => sc
  end.

(** ** Invariant

    A queue never holds an entity twice; a process is in the queue of its
    state, with the time it was last scheduled, and in no other; a kernel task
    is in at most one queue, has a recorded time, and waits under that time. *)
Definition sched_inv (sc : Scheduler) : Prop :=
  (∀ st, NoDup (state_map sc st).*2) ∧
  (∀ st t pid, (t, EProcess pid) ∈ state_map sc st ↔
     processes sc !! pid = Some (mkProcess st t)) ∧
  (∀ st st' t t' tid, (t, EKernelTask tid) ∈ state_map sc st →
     (t', EKernelTask tid) ∈ state_map sc st' → st = st') ∧
  (∀ st t tid, (t, EKernelTask tid) ∈ state_map sc st →
     ∃ r, kernel_task_rtc sc !! tid = Some r ∧ (st ≠ Running → t = r)).

(** ** Queues after an operation

    Every operation takes an entity out of all queues and puts it into at
    most one. *)
Definition placed (sc sc' : Scheduler) (e : SchedulableEntity) (target : option (ProcessState * Z)) : Prop :=
  ∀ st, state_map sc' st =
    (match target with
     | Some (s, t) => if decide (s = st) then [(t, e)] else []
     | None => []
     end) ++ heap_without (state_map sc st) e.

Lemma state_map_set sc st h st' :
  state_map (set_map sc st h) st' = if decide (st = st') then h else state_map sc st'.
Proof. by destruct st, st'. Qed.
Lemma state_map_processes sc ps st : state_map (set_processes sc ps) st = state_map sc st.
Proof. by destruct st. Qed.
Lemma state_map_current sc e st : state_map (set_current sc e) st = state_map sc st.
Proof. by destruct st. Qed.
Lemma state_map_rtc sc m st : state_map (set_rtc sc m) st = state_map sc st.
Proof. by destruct st. Qed.
Lemma state_map_deadlines sc d st : state_map (set_deadlines sc d) st = state_map sc st.
Proof. by destruct st. Qed.
Lemma processes_set_map sc st h : processes (set_map sc st h) = processes sc.
Proof. by destruct st. Qed.
Lemma processes_processes sc ps : processes (set_processes sc ps) = ps.
Proof. done. Qed.
Lemma rtc_processes sc ps : kernel_task_rtc (set_processes sc ps) = kernel_task_rtc sc.
Proof. done. Qed.
Lemma rtc_set_map sc st h : kernel_task_rtc (set_map sc st h) = kernel_task_rtc sc.
Proof. by destruct st. Qed.

Create Rewrite HintDb sched.
#[local] Hint Rewrite state_map_set state_map_processes state_map_current state_map_rtc
  state_map_deadlines processes_set_map processes_processes rtc_processes rtc_set_map : sched.

Lemma elem_of_without h e x : x ∈ heap_without h e ↔ x ∈ h ∧ x.2 ≠ e.
Proof. unfold heap_without. rewrite list_elem_of_filter. tauto. Qed.

Lemma without_id h e : e ∉ h.*2 → heap_without h e = h.
Proof.
  intros He. induction h as [|x h IH]; [done|]. cbn in He. apply not_elem_of_cons in He as [Hx He].
  unfold heap_without in *. rewrite filter_cons, decide_True by done. by rewrite IH.
Qed.

Lemma without_without h e : heap_without (heap_without h e) e = heap_without h e.
Proof.
  apply without_id. intros (x & Hx & Hin)%list_elem_of_fmap. apply elem_of_without in Hin as [_ ?]. congruence.
Qed.

Lemma without_snd h e : (heap_without h e).*2 = filter (.≠ e) h.*2.
Proof.
  induction h as [|[t x] h IH]; [done|]. unfold heap_without in *. cbn [fmap list_fmap snd].
  rewrite !filter_cons. cbn [snd]. case_decide; cbn; by rewrite IH.
Qed.

Lemma NoDup_without h e : NoDup h.*2 → NoDup (heap_without h e).*2 ∧ (e ∉ (heap_without h e).*2).
Proof.
  intros Hnd. split.
  - rewrite without_snd. by apply NoDup_filter.
  - intros (x & Hx & Hin)%list_elem_of_fmap. apply elem_of_without in Hin as [_ ?]. congruence.
Qed.

(** Placing an entity consistently with the process table and the recorded
    times keeps the invariant. *)
Lemma inv_placed sc sc' e target :
  sched_inv sc → placed sc sc' e target →
  (∀ pid, EProcess pid ≠ e → processes sc' !! pid = processes sc !! pid) →
  (∀ pid, EProcess pid = e →
     processes sc' !! pid = match target with Some (s, t) => Some (mkProcess s t) | None => None end) →
  (∀ tid, EKernelTask tid ≠ e → kernel_task_rtc sc' !! tid = kernel_task_rtc sc !! tid) →
  (∀ tid s t, EKernelTask tid = e → target = Some (s, t) →
     ∃ r, kernel_task_rtc sc' !! tid = Some r ∧ (s ≠ Running → t = r)) →
  sched_inv sc'.
Proof.
  intros (Hnd & Hp & Hk & Hr) Hpl Hother Hself Hrother Hrself.
  assert (∀ st x, x ∈ state_map sc' st ↔
    (x.2 = e ∧ target = Some (st, x.1)) ∨ (x.2 ≠ e ∧ x ∈ state_map sc st)) as Hin.
  { intros st [t x]. rewrite (Hpl st), elem_of_app, elem_of_without. cbn.
    destruct target as [[s t0]|]; [case_decide|]; rewrite ?list_elem_of_singleton, ?elem_of_nil; naive_solver. }
  split_and!.
  - intros st. rewrite (Hpl st), fmap_app. destruct (NoDup_without _ e (Hnd st)) as [Hnd' Hne].
    destruct target as [[s t]|]; [case_decide|]; [|done|done]. cbn. by constructor.
  - intros st t pid. rewrite Hin. cbn. destruct (decide (EProcess pid = e)) as [He|He].
    + rewrite (Hself pid He). destruct target as [[s t0]|]; naive_solver.
    + rewrite (Hother pid He), <- Hp. naive_solver.
  - intros st st' t t' tid. rewrite !Hin. cbn. intros [[He ->]|[He H1]] [[He' Ht]|[He' H2]]; try congruence.
    by eapply Hk.
  - intros st t tid. rewrite Hin. cbn. intros [[He ->]|[He H1]]; [by eapply Hrself|].
    rewrite (Hrother tid He). by apply Hr.
Qed.

Lemma removed_placed sc e :
  placed sc (foldl (λ sc st, remove_from_state sc st e) sc [Runnable; Running; Blocked]) e None.
Proof. by intros []. Qed.

Lemma process_elsewhere sc pid p st :
  sched_inv sc → processes sc !! pid = Some p → st ≠ p_state p → EProcess pid ∉ (state_map sc st).*2.
Proof.
  intros (_ & Hp & _ & _) Hl Hst ([t x] & Heq & Hin)%list_elem_of_fmap. cbn in Heq. subst x.
  apply Hp in Hin. rewrite Hl in Hin. injection Hin as ->. done.
Qed.

Lemma change_state_placed sc pid p st :
  sched_inv sc → processes sc !! pid = Some p →
  let sc' := (change_state sc pid st).1 in
  placed sc sc' (EProcess pid) (Some (st, p_last_scheduled p)) ∧
  processes sc' = <[pid := set_state p st]> (processes sc) ∧
  kernel_task_rtc sc' = kernel_task_rtc sc.
Proof.
  intros Hinv Hl. unfold change_state. rewrite Hl. cbn [fst].
  unfold add_to_state, remove_from_state. split_and!.
  - intros st'. autorewrite with sched. destruct (decide (st = st')) as [<-|Hst]; cbn [app].
    + f_equal. case_decide as Hps; [by rewrite Hps|].
      symmetry. apply without_id. by eapply process_elsewhere.
    + case_decide as Hps; [by rewrite <- Hps|].
      symmetry. apply without_id. by eapply process_elsewhere.
  - by autorewrite with sched.
  - by autorewrite with sched.
Qed.

Lemma inv_process_placed sc sc' pid target :
  sched_inv sc → placed sc sc' (EProcess pid) (Some target) →
  processes sc' = <[pid := mkProcess target.1 target.2]> (processes sc) →
  kernel_task_rtc sc' = kernel_task_rtc sc → sched_inv sc'.
Proof.
  intros Hinv Hpl Hps Hr. eapply inv_placed; [done|exact Hpl| | |by rewrite Hr|done].
  - intros pid' Hne. rewrite Hps. apply lookup_insert_ne. congruence.
  - intros pid' [= ->]. rewrite Hps, lookup_insert_eq. by destruct target.
Qed.

Lemma inv_task_placed sc sc' tid st t :
  sched_inv sc → placed sc sc' (EKernelTask tid) (Some (st, t)) →
  processes sc' = processes sc →
  (∀ tid', tid' ≠ tid → kernel_task_rtc sc' !! tid' = kernel_task_rtc sc !! tid') →
  (∃ r, kernel_task_rtc sc' !! tid = Some r ∧ (st ≠ Running → t = r)) → sched_inv sc'.
Proof.
  intros Hinv Hpl Hps Hr Ht. eapply inv_placed; [done|exact Hpl|by rewrite Hps|done| |].
  - intros tid' Hne. apply Hr. congruence.
  - by intros tid' s t' [= ->] [= <- <-].
Qed.

Lemma inv_change_state sc pid st : sched_inv sc → sched_inv (change_state sc pid st).1.
Proof.
  intros Hinv. destruct (processes sc !! pid) as [p|] eqn:Hl.
  - destruct (change_state_placed sc pid p st Hinv Hl) as (Hpl & Hps & Hr).
    by eapply inv_process_placed.
  - unfold change_state. by rewrite Hl.
Qed.

Lemma sched_add_placed sc pid p :
  sched_inv sc → processes sc !! pid = None →
  let sc' := sched_add sc pid p in
  placed sc sc' (EProcess pid) (Some (p_state p, p_last_scheduled p)) ∧
  processes sc' = <[pid := p]> (processes sc) ∧ kernel_task_rtc sc' = kernel_task_rtc sc.
Proof.
  intros Hinv Hnew. assert (∀ st, EProcess pid ∉ (state_map sc st).*2) as Hout.
  { intros st ([t e] & Heq & Hin)%list_elem_of_fmap. cbn in Heq. subst e.
    apply Hinv in Hin. congruence. }
  unfold sched_add, update_process. rewrite processes_processes, lookup_insert_eq. split_and!.
  - intros st. pose proof (without_id _ _ (Hout st)) as Hid. rewrite Hid. revert Hid.
    by destruct (p_state p), st.
  - destruct p as [[] t]; cbn; by autorewrite with sched.
  - by destruct p as [[] t].
Qed.

Lemma inv_sched_add sc pid p :
  sched_inv sc → processes sc !! pid = None → sched_inv (sched_add sc pid p).
Proof.
  intros Hinv Hnew. destruct (sched_add_placed sc pid p Hinv Hnew) as (Hpl & Hps & Hr).
  eapply inv_process_placed; [done|exact Hpl| |done]. rewrite Hps. by destruct p.
Qed.

Lemma inv_remove_process sc pid : sched_inv sc → sched_inv (sched_remove_process sc pid).1.
Proof.
  intros Hinv. eapply (inv_placed sc _ (EProcess pid) None); [done|by intros []|..]; [|..|done|done].
  - intros pid' Hne. apply lookup_delete_ne. congruence.
  - intros pid' [= ->]. apply lookup_delete_eq.
Qed.

Lemma inv_remove_task sc tid : sched_inv sc → sched_inv (remove_kernel_task sc tid).
Proof.
  intros Hinv. eapply (inv_placed sc _ (EKernelTask tid) None); [done|by intros []|done|done|..]; [|done].
  intros tid' Hne. apply lookup_delete_ne. congruence.
Qed.

Lemma change_task_placed sc tid st now :
  placed sc (change_kernel_task_state sc tid st now) (EKernelTask tid)
    (Some (st, default now (kernel_task_rtc sc !! tid))).
Proof. by destruct st; intros []. Qed.

Lemma change_task_rtc sc tid st now :
  kernel_task_rtc (change_kernel_task_state sc tid st now) = kernel_task_rtc sc.
Proof. by destruct st. Qed.

Lemma change_task_processes sc tid st now :
  processes (change_kernel_task_state sc tid st now) = processes sc.
Proof. by destruct st. Qed.

Lemma inv_change_task sc tid st now :
  sched_inv sc → is_Some (kernel_task_rtc sc !! tid) → sched_inv (change_kernel_task_state sc tid st now).
Proof.
  intros Hinv [r Hr]. pose proof (change_task_placed sc tid st now) as Hpl. rewrite Hr in Hpl.
  eapply inv_task_placed; [done|exact Hpl|apply change_task_processes|by rewrite change_task_rtc|].
  exists r. by rewrite change_task_rtc.
Qed.

Lemma add_task_placed sc tid now :
  sched_inv sc → kernel_task_rtc sc !! tid = None →
  placed sc (add_kernel_task sc tid now) (EKernelTask tid) (Some (Runnable, now)).
Proof.
  intros Hinv Hnew. assert (∀ st, heap_without (state_map sc st) (EKernelTask tid) = state_map sc st) as Hout.
  { intros st. apply without_id. intros ([t e] & Heq & Hin)%list_elem_of_fmap. cbn in Heq. subst e.
    apply Hinv in Hin as (r & Hr & _). congruence. }
  intros []; rewrite Hout; done.
Qed.

Lemma inv_add_task sc tid now :
  sched_inv sc → kernel_task_rtc sc !! tid = None → sched_inv (add_kernel_task sc tid now).
Proof.
  intros Hinv Hnew. eapply inv_task_placed; [done|by apply add_task_placed|done|..].
  - intros tid' Hne. cbn. by apply lookup_insert_ne.
  - exists now. cbn. by rewrite lookup_insert_eq.
Qed.

Lemma inv_wake_process sc pid : sched_inv sc → sched_inv (wake_process sc pid).
Proof.
  intros Hinv. unfold wake_process. destruct (processes sc !! pid) as [p|]; [|done].
  case_decide; [by apply inv_change_state|done].
Qed.

(** ** Popping the heap *)
Lemma entry_gt_asym x y : entry_gt x y → ¬ entry_gt y x.
Proof. destruct x as [t [a|a]], y as [t' [b|b]]; unfold entry_gt; cbn; lia. Qed.

Lemma entry_gt_negtrans x y z : entry_gt x z → ¬ entry_gt y z → entry_gt x y.
Proof.
  destruct x as [t [a|a]], y as [t' [b|b]], z as [t'' [c|c]]; unfold entry_gt; cbn; lia.
Qed.

Lemma heap_pop_nonempty h : h ≠ [] → ∃ m rest, heap_pop h = Some (m, rest).
Proof.
  destruct h as [|x h]; [done|]. intros _. cbn. destruct (heap_pop h) as [[m rest]|]; [|by eauto].
  case_decide; by eauto.
Qed.

Lemma heap_pop_Some h m rest :
  NoDup h.*2 → heap_pop h = Some (m, rest) →
  m ∈ h ∧ rest = heap_without h m.2 ∧ ∀ x, x ∈ h → ¬ entry_gt x m.
Proof.
  revert m rest. induction h as [|x h IH]; [done|]. intros m rest Hnd. cbn in Hnd.
  apply NoDup_cons in Hnd as [Hx Hnd]. cbn [heap_pop]. destruct (heap_pop h) as [[m' rest']|] eqn:Hpop.
  - destruct (IH m' rest' Hnd eq_refl) as (Hm & -> & Hmax). unfold heap_without.
    rewrite filter_cons. case_decide as Hgt; intros [= <- <-].
    + split_and!; [by right| |].
      * rewrite decide_True; [done|]. intros Heq. apply Hx. rewrite Heq. by apply list_elem_of_fmap_2.
      * intros y [->|Hy]%elem_of_cons; [by apply entry_gt_asym|by apply Hmax].
    + split_and!; [by left| |].
      * rewrite decide_False by tauto. symmetry. by apply without_id.
      * intros y [->|Hy]%elem_of_cons; [intros Hxx; by apply (entry_gt_asym x x)|].
        intros Hyx. apply (Hmax y Hy). by eapply entry_gt_negtrans.
  - destruct h as [|z h]; [|by destruct (heap_pop_nonempty (z :: h)) as (? & ? & ?); [done|congruence]].
    intros [= <- <-]. split_and!; [by left| |].
    + unfold heap_without. by rewrite filter_cons, decide_False by tauto.
    + intros y ->%list_elem_of_singleton Hyy. by apply (entry_gt_asym x x).
Qed.

(** ** Picking the next entity *)
Definition picked (sc sc' : Scheduler) (e : SchedulableEntity) (now now' : Z) : Prop :=
  current sc' = e ∧ current_process sc' = current_process sc ∧
  deadline_tracker sc' = deadline_tracker sc ∧
  match e with
  | EProcess pid =>
      placed sc sc' e (Some (Running, now)) ∧
      processes sc' = <[pid := mkProcess Running now]> (processes sc) ∧
      kernel_task_rtc sc' = kernel_task_rtc sc
  | EKernelTask tid =>
      placed sc sc' e (Some (Running, now')) ∧ processes sc' = processes sc ∧
      kernel_task_rtc sc' = <[tid := now]> (kernel_task_rtc sc)
  end.

(** An entry no other runnable entity was scheduled before. *)
Definition oldest_runnable (sc : Scheduler) (t : Z) (e : SchedulableEntity) : Prop :=
  (t, e) ∈ state_map sc Runnable ∧ ∀ x, x ∈ state_map sc Runnable → ¬ entry_gt x (t, e).

Lemma running_without sc e : state_map sc Running = [] → heap_without (state_map sc Running) e = [].
Proof. by intros ->. Qed.

Lemma next_pick sc now now' m rest :
  sched_inv sc → heap_pop (state_map sc Runnable) = Some (m, rest) →
  ∃ sc', next_loop (S (length (state_map sc Runnable))) sc now now' = Ok (sc', Some m.2) ∧
    oldest_runnable sc m.1 m.2 ∧ picked sc sc' m.2 now now'.
Proof.
  intros Hinv Hpop. pose proof (proj1 Hinv Runnable) as Hnd.
  destruct (heap_pop_Some _ _ _ Hnd Hpop) as (Hm & Hrest & Hmax). cbn [next_loop]. rewrite Hpop.
  destruct m as [t [pid|tid]]; cbn [fst snd] in *.
  - pose proof (proj1 (proj1 (proj2 Hinv) _ _ _) Hm) as Hl. autorewrite with sched. rewrite Hl.
    unfold change_state. autorewrite with sched. rewrite lookup_insert_eq, insert_insert_eq.
    cbn [reset_last_scheduled set_state p_state p_last_scheduled].
    eexists. split_and!; [done|done|]. unfold picked. split_and!; try done.
    intros []; cbn; rewrite ?Hrest, ?without_without; try done.
    + f_equal. symmetry. apply without_id. by eapply (process_elsewhere sc pid _ Running).
    + symmetry. apply without_id. by eapply (process_elsewhere sc pid _ Blocked).
  - eexists. split_and!; [done|done|]. unfold picked. split_and!; try done.
    assert (∀ st, st ≠ Runnable → EKernelTask tid ∉ (state_map sc st).*2) as Hout.
    { intros st Hst ([t' e] & Heq & Hin)%list_elem_of_fmap. cbn in Heq. subst e.
      apply Hst. by eapply Hinv. }
    intros []; cbn; rewrite ?Hrest, ?without_without; try done.
    + f_equal. symmetry. by apply (without_id (state_map sc Running)), Hout.
    + symmetry. by apply (without_id (state_map sc Blocked)), Hout.
Qed.

Lemma inv_picked sc sc' e now now' : sched_inv sc → picked sc sc' e now now' → sched_inv sc'.
Proof.
  intros Hinv (_ & _ & _ & Hp). destruct e as [pid|tid]; destruct Hp as (Hpl & Hps & Hr).
  - by eapply (inv_process_placed sc sc' pid (Running, now)).
  - eapply (inv_task_placed sc sc' tid Running now'); [done|done|done|..].
    + intros tid' Hne. rewrite Hr. by apply lookup_insert_ne.
    + exists now. by rewrite Hr, lookup_insert_eq.
Qed.

(** ** Histories *)
Inductive SchedOp :=
  | OAdd (pid : Z) (p : Process)
  | ORemove (pid : Z)
  | OChange (pid : Z) (st : ProcessState)
  | OWake (pid : Z)
  | OAddTask (tid now : Z)
  | OChangeTask (tid : Z) (st : ProcessState) (now : Z)
  | ORemoveTask (tid : Z)
  | ODeadline (e : SchedulableEntity) (ms : Z)
  | OExpire (now_ms : Z) (now : Z → Z)
  | OPick (now now' : Z).

Definition sched_step (sc : Scheduler) (op : SchedOp) : Scheduler :=
  match op with
  | OAdd pid p => sched_add sc pid p
  | ORemove pid => (sched_remove_process sc pid).1
  | OChange pid st => (change_state sc pid st).1
  | OWake pid => wake_process sc pid
  | OAddTask tid now => add_kernel_task sc tid now
  | OChangeTask tid st now => change_kernel_task_state sc tid st now
  | ORemoveTask tid => remove_kernel_task sc tid
  | ODeadline e ms => register_deadline sc e ms
  | OExpire now_ms now => (wake_deadline_tasks sc now_ms now).1
  | OPick now now' => match prepare_next_runnable sc now now' with Ok (sc', _) => sc' | _ => sc end
  end.

(** A kernel task the deadline tracker names. *)
Definition deadline_of (sc : Scheduler) (e : SchedulableEntity) : Prop :=
  ∃ k es, (k, es) ∈ deadline_tracker sc ∧ e ∈ es.

(** Ids come from counters, so they are new; a task's state changes while the
    task is known; a pick finds nothing running. *)
Definition sched_op_ok (sc : Scheduler) (op : SchedOp) : Prop :=
  match op with
  | OAdd pid _ => processes sc !! pid = None
  | OAddTask tid _ => kernel_task_rtc sc !! tid = None
  | OChangeTask tid _ _ => is_Some (kernel_task_rtc sc !! tid)
  | OExpire _ _ => ∀ tid, deadline_of sc (EKernelTask tid) → is_Some (kernel_task_rtc sc !! tid)
  | OPick _ _ => state_map sc Running = []
  | _ => True
  end.

Fixpoint sched_ops_ok (sc : Scheduler) (ops : list SchedOp) : Prop :=
  match ops with
  | [] => True
  | op :: ops => sched_op_ok sc op ∧ sched_ops_ok (sched_step sc op) ops
  end.

Lemma sched_inv_new pid p : sched_inv (sched_new pid p).
Proof.
  apply inv_sched_add; [|done]. split_and!.
  - intros []; constructor.
  - intros [] t q; cbn; rewrite lookup_empty; (split; [by intros ?%elem_of_nil|done]).
  - by intros [] st' t t' tid ?%elem_of_nil.
  - by intros [] t tid ?%elem_of_nil.
Qed.

Lemma inv_same_queues sc sc' :
  sched_inv sc → (∀ st, state_map sc' st = state_map sc st) → processes sc' = processes sc →
  kernel_task_rtc sc' = kernel_task_rtc sc → sched_inv sc'.
Proof.
  intros (Hnd & Hp & Hk & Hr) Hq Hps Hrt. unfold sched_inv. rewrite Hps, Hrt.
  split_and!; intros *; rewrite ?Hq; by eauto.
Qed.

Lemma expired_sub d n e : e ∈ concat (expired d n).*2 → ∃ k es, (k, es) ∈ d ∧ e ∈ es.
Proof.
  induction d as [|[k es] d IH]; cbn; [by intros ?%elem_of_nil|]. case_decide; cbn; [|by intros ?%elem_of_nil].
  rewrite elem_of_app. intros [He|He].
  - exists k, es. split; [by left|done].
  - destruct (IH He) as (k' & es' & Hin & He'). exists k', es'. split; [by right|done].
Qed.

Lemma bt_remove_sub {V} k (d : btree V) x : x ∈ bt_remove k d → x ∈ d.
Proof.
  induction d as [|[k' v] d IH]; [done|]. cbn. case_decide; [intros; right; by apply IH|].
  intros [->|Hx]%elem_of_cons; [by left|right; by apply IH].
Qed.

Lemma collect_sub d n x : x ∈ (collect_expired d n).1 → x ∈ d.
Proof.
  unfold collect_expired. cbn [fst]. generalize (expired d n).*1. intros ks. revert d.
  induction ks as [|k ks IH]; [done|]. cbn. intros d Hx%IH. by eapply bt_remove_sub.
Qed.

(** What holds after the expired entities were woken, if waking one keeps it. *)
Lemma wake_deadline_ind (P : Scheduler → Prop) sc now_ms now :
  P (set_deadlines sc (collect_expired (deadline_tracker sc) now_ms).1) →
  (∀ sc' e, P sc' → deadline_of sc e → P (wake_entity now sc' e)) →
  P (wake_deadline_tasks sc now_ms now).1.
Proof.
  unfold wake_deadline_tasks, collect_expired. cbn [fst]. intros HP Hstep. revert HP.
  pose proof (expired_sub (deadline_tracker sc) now_ms) as Hsub. revert Hsub.
  generalize (set_deadlines sc (foldl (λ d k, bt_remove k d) (deadline_tracker sc)
    (expired (deadline_tracker sc) now_ms).*1)).
  induction (concat (expired (deadline_tracker sc) now_ms).*2) as [|e es IH]; intros sc' Hsub HP; [done|]. cbn.
  apply IH; [intros e' He'; apply Hsub; by right|]. apply Hstep; [done|]. apply Hsub. by left.
Qed.

Lemma wake_entity_process now sc pid : wake_entity now sc (EProcess pid) = wake_process sc pid.
Proof. done. Qed.

Lemma wake_process_rtc sc pid : kernel_task_rtc (wake_process sc pid) = kernel_task_rtc sc.
Proof.
  unfold wake_process, change_state. destruct (processes sc !! pid) as [p|]; [|done].
  case_decide; [|done]. cbn [fst]. unfold add_to_state, remove_from_state. by autorewrite with sched.
Qed.

Lemma wake_entity_rtc now sc e : kernel_task_rtc (wake_entity now sc e) = kernel_task_rtc sc.
Proof. destruct e; [apply wake_process_rtc|apply change_task_rtc]. Qed.

Lemma prepare_idle sc now now' :
  state_map sc Running = [] → state_map sc Runnable = [] → prepare_next_runnable sc now now' = Ok (sc, None).
Proof. intros Hr Hq. unfold prepare_next_runnable. rewrite decide_True by done. cbn [next_loop]. by rewrite Hq. Qed.

Lemma prepare_pick sc now now' :
  sched_inv sc → state_map sc Running = [] → state_map sc Runnable ≠ [] →
  ∃ t e sc', prepare_next_runnable sc now now' = Ok (sc', Some e) ∧
    oldest_runnable sc t e ∧ picked sc sc' e now now'.
Proof.
  intros Hinv Hr Hq. destruct (heap_pop_nonempty _ Hq) as (m & rest & Hpop).
  destruct (next_pick sc now now' m rest Hinv Hpop) as (sc' & Hn & Hold & Hpk).
  exists m.1, m.2, sc'. unfold prepare_next_runnable. by rewrite decide_True.
Qed.

Lemma inv_expire sc now_ms now :
  sched_op_ok sc (OExpire now_ms now) → sched_inv sc → sched_inv (wake_deadline_tasks sc now_ms now).1.
Proof.
  intros Hok Hinv.
  apply (wake_deadline_ind (λ sc', sched_inv sc' ∧ kernel_task_rtc sc' = kernel_task_rtc sc)).
  - split; [|done]. eapply inv_same_queues; [done|intros; by autorewrite with sched|done|done].
  - intros sc' e [Hi Hr] He. rewrite wake_entity_rtc. split; [|done].
    destruct e as [pid|tid]; [by apply inv_wake_process|].
    apply inv_change_task; [done|]. rewrite Hr. by apply Hok.
Qed.

Lemma inv_sched_step sc op : sched_inv sc → sched_op_ok sc op → sched_inv (sched_step sc op).
Proof.
  intros Hinv Hok. destruct op; cbn [sched_step].
  - by apply inv_sched_add.
  - by apply inv_remove_process.
  - by apply inv_change_state.
  - by apply inv_wake_process.
  - by apply inv_add_task.
  - by apply inv_change_task.
  - by apply inv_remove_task.
  - eapply inv_same_queues; [done|intros; apply state_map_deadlines|done|done].
  - by apply inv_expire.
  - destruct (decide (state_map sc Runnable = [])) as [Hq|Hq]; [by rewrite prepare_idle|].
    destruct (prepare_pick sc now now' Hinv Hok Hq) as (t & e & sc' & -> & _ & Hpk). by eapply inv_picked.
Qed.

(** from boot on, whatever the order of process creation and exit, state
    changes, wake-ups, kernel tasks, deadlines and scheduling decisions, each
    process is queued exactly once, in the queue of its state and under the
    time it last ran; no queue holds an entity twice, and a kernel task is in
    at most one queue and has a recorded time. *)
Theorem sched_history pid p ops :
  sched_ops_ok (sched_new pid p) ops → sched_inv (foldl sched_step (sched_new pid p) ops).
Proof.
  pose proof (sched_inv_new pid p) as Hinv. revert Hinv. generalize (sched_new pid p).
  induction ops as [|op ops IH]; intros sc Hinv; cbn; [done|].
  intros [Hok Hops]. apply IH; [by apply inv_sched_step|done].
Qed.

Lemma sched_history_witness :
  sched_inv (foldl sched_step (sched_new 1 (mkProcess Runnable 0))
    [OAdd 2 (mkProcess Runnable 0); OAddTask 0 5; OPick 7 8; OChange 2 Blocked; OPick 9 10;
     ODeadline (EProcess 2) 30; OExpire 40 (λ _, 0)]).
Proof.
  apply (sched_history 1 (mkProcess Runnable 0)). cbn [sched_ops_ok]. split_and!; try done.
  intros tid (k & es & Hin & He). vm_compute in Hin. apply list_elem_of_singleton in Hin.
  injection Hin as -> ->. by apply list_elem_of_singleton in He.
Defined.

(** the scheduling decision.  It refuses (the [assert!]) exactly when
    something is still running; with nothing runnable it changes nothing;
    otherwise it picks an entity that no other runnable one was scheduled
    before, moves that entity alone to [Running], stamps it with the current
    time and keeps the queues well formed. *)
Theorem prepare_next_exact sc now now' :
  sched_inv sc →
  (prepare_next_runnable sc now now' = Panic ↔ state_map sc Running ≠ []) ∧
  (state_map sc Running = [] → state_map sc Runnable = [] →
     prepare_next_runnable sc now now' = Ok (sc, None)) ∧
  (state_map sc Running = [] → state_map sc Runnable ≠ [] →
     ∃ t e sc', prepare_next_runnable sc now now' = Ok (sc', Some e) ∧ oldest_runnable sc t e ∧
       picked sc sc' e now now' ∧ sched_inv sc').
Proof.
  intros Hinv. split_and!; [|by apply prepare_idle|].
  - destruct (decide (state_map sc Running = [])) as [Hr|Hr];
      [|unfold prepare_next_runnable; by rewrite decide_False].
    destruct (decide (state_map sc Runnable = [])) as [Hq|Hq]; [by rewrite prepare_idle|].
    by destruct (prepare_pick sc now now' Hinv Hr Hq) as (t & e & sc' & -> & _).
  - intros Hr Hq. destruct (prepare_pick sc now now' Hinv Hr Hq) as (t & e & sc' & Hp & Ho & Hpk).
    exists t, e, sc'. split_and!; try done. by eapply inv_picked.
Qed.

Lemma prepare_next_exact_witness :
  ∃ t e sc', prepare_next_runnable (sched_new 1 (mkProcess Runnable 0)) 7 8 = Ok (sc', Some e) ∧
    oldest_runnable (sched_new 1 (mkProcess Runnable 0)) t e ∧
    picked (sched_new 1 (mkProcess Runnable 0)) sc' e 7 8 ∧ sched_inv sc'.
Proof. apply (prepare_next_exact _ 7 8 (sched_inv_new 1 (mkProcess Runnable 0))); done. Defined.

(** ** Fairness

    The entities other than [e] that were last scheduled no later than [t]. *)
Definition older_than (t : Z) (skip : option Z) (x : Z * Z) : Prop := x.2 <= t ∧ Some x.1 ≠ skip.
#[export] Instance older_than_dec t skip x : Decision (older_than t skip x).
Proof. unfold older_than. apply _. Defined.

Definition count_older (m : gmap Z Z) (t : Z) (skip : option Z) : nat := size (filter (older_than t skip) m).

Definition stamps (sc : Scheduler) : gmap Z Z := p_last_scheduled <$> processes sc.

Definition older (sc : Scheduler) (t : Z) (e : SchedulableEntity) : nat :=
  (count_older (stamps sc) t (match e with EProcess pid => Some pid | _ => None end) +
   count_older (kernel_task_rtc sc) t (match e with EKernelTask tid => Some tid | _ => None end))%nat.

Lemma count_delete m t skip k : (count_older (delete k m) t skip <= count_older m t skip)%nat.
Proof. apply map_subseteq_size, map_filter_subseteq_mono, delete_subseteq. Qed.

Lemma count_insert m t skip k v : (count_older (<[k := v]> m) t skip <= S (count_older m t skip))%nat.
Proof.
  unfold count_older. rewrite map_filter_insert. case_decide.
  - rewrite map_size_insert. by destruct (filter _ m !! k) as [?|]; cbn; lia.
  - etrans; [apply (count_delete m t skip k)|unfold count_older; lia].
Qed.

Lemma count_renew m t skip k v :
  t < v → (count_older (<[k := v]> m) t skip <= count_older m t skip)%nat.
Proof.
  intros Hv. unfold count_older. rewrite map_filter_insert, decide_False by (unfold older_than; cbn; lia).
  apply (count_delete m t skip k).
Qed.

Lemma count_renew_older m t skip k v v' :
  t < v → m !! k = Some v' → v' <= t → Some k ≠ skip →
  S (count_older (<[k := v]> m) t skip) = count_older m t skip.
Proof.
  intros Hv Hk Hv' Hs. unfold count_older.
  rewrite map_filter_insert, decide_False by (unfold older_than; cbn; lia).
  assert (filter (older_than t skip) m !! k = Some v') as Hf by (by apply map_lookup_filter_Some).
  rewrite map_filter_delete, (map_size_delete_Some k _ (ex_intro _ _ Hf)).
  assert (size (filter (older_than t skip) m) ≠ 0%nat); [|lia].
  intros Hz%map_size_empty_iff. by rewrite Hz in Hf.
Qed.

Definition arrival (op : SchedOp) : nat := match op with OAdd _ _ | OAddTask _ _ => 1 | _ => 0 end.
Definition decision (op : SchedOp) : nat := match op with OPick _ _ => 1 | _ => 0 end.

(** The entities picked during a history. *)
Fixpoint picks (sc : Scheduler) (ops : list SchedOp) : list SchedulableEntity :=
  match ops with
  | [] => []
  | op :: ops =>
      (match op with
       | OPick now now' => match prepare_next_runnable sc now now' with Ok (_, Some e) => [e] | _ => [] end
       | _ => []
       end) ++ picks (sched_step sc op) ops
  end.

(** The operation does not take the waiting [e] out of its queue, and a
    decision happens after the time [t] that [e] waits under. *)
Definition keeps_waiting (t : Z) (e : SchedulableEntity) (op : SchedOp) : Prop :=
  match op with
  | OChange pid _ | ORemove pid => EProcess pid ≠ e
  | OChangeTask tid st _ => EKernelTask tid = e → st = Runnable
  | ORemoveTask tid => EKernelTask tid ≠ e
  | OPick now _ => t < now
  | _ => True
  end.

Lemma placed_other sc sc' e tgt x st :
  placed sc sc' e tgt → x.2 ≠ e → x ∈ state_map sc st → x ∈ state_map sc' st.
Proof. intros Hpl Hne Hx. rewrite (Hpl st). apply elem_of_app. right. by apply elem_of_without. Qed.

Lemma stamps_change sc pid st : stamps (change_state sc pid st).1 = stamps sc.
Proof.
  unfold change_state, stamps. destruct (processes sc !! pid) as [p|] eqn:Hl; [|done].
  cbn [fst]. unfold add_to_state, remove_from_state. autorewrite with sched.
  rewrite fmap_insert. cbn. apply insert_id. by rewrite lookup_fmap, Hl.
Qed.

Lemma change_waiting sc pid st t e :
  sched_inv sc → EProcess pid ≠ e → (t, e) ∈ state_map sc Runnable →
  (t, e) ∈ state_map (change_state sc pid st).1 Runnable.
Proof.
  intros Hinv Hne He. destruct (processes sc !! pid) as [p|] eqn:Hl.
  - destruct (change_state_placed sc pid p st Hinv Hl) as [Hpl _].
    by eapply placed_other; [exact Hpl|cbn; congruence|].
  - unfold change_state. by rewrite Hl.
Qed.

Lemma wake_waiting now sc e' t e :
  sched_inv sc → (t, e) ∈ state_map sc Runnable → (t, e) ∈ state_map (wake_entity now sc e') Runnable.
Proof.
  intros Hinv He. destruct e' as [pid|tid]; cbn [wake_entity].
  - destruct (processes sc !! pid) as [p|] eqn:Hl; [|done]. case_decide as Hb; [|done].
    apply change_waiting; [done| |done]. intros <-. apply Hinv in He. rewrite Hl in He.
    injection He as ->. done.
  - destruct (decide (e = EKernelTask tid)) as [->|Hne].
    + destruct (proj2 (proj2 (proj2 Hinv)) _ _ _ He) as (r & Hr & Ht).
      rewrite (change_task_placed sc tid Runnable (now tid) Runnable), Hr, <- Ht by done. by left.
    + by eapply placed_other; [apply change_task_placed|cbn|].
Qed.

Lemma stamps_wake now sc e : stamps (wake_entity now sc e) = stamps sc.
Proof.
  destruct e as [pid|tid]; cbn [wake_entity].
  - destruct (processes sc !! pid) as [p|]; [|done]. case_decide; [apply stamps_change|done].
  - unfold stamps. by rewrite change_task_processes.
Qed.

Lemma older_eq sc sc' t e :
  stamps sc' = stamps sc → kernel_task_rtc sc' = kernel_task_rtc sc → older sc' t e = older sc t e.
Proof. unfold older. by intros -> ->. Qed.

Lemma expire_waiting sc now_ms now t e :
  sched_inv sc → sched_op_ok sc (OExpire now_ms now) → (t, e) ∈ state_map sc Runnable →
  let sc' := (wake_deadline_tasks sc now_ms now).1 in
  (t, e) ∈ state_map sc' Runnable ∧ older sc' t e = older sc t e.
Proof.
  intros Hinv Hok He sc'.
  enough (sched_inv sc' ∧ (t, e) ∈ state_map sc' Runnable ∧
    stamps sc' = stamps sc ∧ kernel_task_rtc sc' = kernel_task_rtc sc) as (_ & ? & ? & ?).
  { split; [done|by apply older_eq]. }
  apply (wake_deadline_ind (λ sc', sched_inv sc' ∧ (t, e) ∈ state_map sc' Runnable ∧
    stamps sc' = stamps sc ∧ kernel_task_rtc sc' = kernel_task_rtc sc)).
  - done.
  - intros sc1 e' (Hi & Hin & Hs & Hr) He'. rewrite stamps_wake, wake_entity_rtc.
    split_and!; try done; [|by apply wake_waiting].
    destruct e' as [pid|tid]; [by apply inv_wake_process|].
    apply inv_change_task; [done|]. rewrite Hr. by apply Hok.
Qed.

Lemma pick_waiting sc now now' t e :
  sched_inv sc → state_map sc Running = [] → t < now → (t, e) ∈ state_map sc Runnable →
  ∃ e' sc', prepare_next_runnable sc now now' = Ok (sc', Some e') ∧
    (e' ≠ e → (t, e) ∈ state_map sc' Runnable ∧ S (older sc' t e) = older sc t e).
Proof.
  intros Hinv Hrun Hnow He.
  destruct (prepare_pick sc now now' Hinv Hrun) as (t' & e' & sc' & Hprep & [Hin Hmax] & Hpk).
  { intros Hq. rewrite Hq in He. by apply elem_of_nil in He. }
  exists e', sc'. split; [done|]. intros Hne. destruct Hpk as (_ & _ & _ & Hpk).
  assert (t' <= t) as Ht.
  { destruct (decide (t' <= t)); [done|]. exfalso. apply (Hmax _ He). left. cbn. lia. }
  unfold older. destruct e' as [pid|tid]; destruct Hpk as (Hpl & Hps & Hr); split;
    try (by eapply placed_other; [exact Hpl|cbn; congruence|]).
  - rewrite Hr. unfold stamps at 1. rewrite Hps, fmap_insert. cbn [p_last_scheduled].
    assert (stamps sc !! pid = Some t') as Hs.
    { unfold stamps. apply Hinv in Hin. by rewrite lookup_fmap, Hin. }
    rewrite <- (count_renew_older (stamps sc) t _ pid now t'); [done|done|done|done|].
    destruct e; congruence.
  - rewrite Hr. unfold stamps. rewrite Hps. destruct (proj2 (proj2 (proj2 Hinv)) _ _ _ Hin) as (r & Hk & Hr').
    rewrite <- (count_renew_older (kernel_task_rtc sc) t _ tid now r); [lia|done|done| |].
    + rewrite <- Hr'; [done|done].
    + destruct e; congruence.
Qed.

Lemma older_stamps sc sc' t e k :
  kernel_task_rtc sc' = kernel_task_rtc sc →
  (stamps sc' = delete k (stamps sc) → (older sc' t e <= older sc t e)%nat) ∧
  (∀ v, stamps sc' = <[k := v]> (stamps sc) → (older sc' t e <= S (older sc t e))%nat).
Proof.
  intros Hr. unfold older. rewrite Hr. split; [intros ->|intros v ->].
  - apply Nat.add_le_mono_r, count_delete.
  - rewrite <- Nat.add_succ_l. apply Nat.add_le_mono_r, count_insert.
Qed.

Lemma older_rtc sc sc' t e k :
  stamps sc' = stamps sc →
  (kernel_task_rtc sc' = delete k (kernel_task_rtc sc) → (older sc' t e <= older sc t e)%nat) ∧
  (∀ v, kernel_task_rtc sc' = <[k := v]> (kernel_task_rtc sc) → (older sc' t e <= S (older sc t e))%nat).
Proof.
  intros Hs. unfold older. rewrite Hs. split; [intros ->|intros v ->].
  - apply Nat.add_le_mono_l, count_delete.
  - rewrite <- Nat.add_succ_r. apply Nat.add_le_mono_l, count_insert.
Qed.

Lemma change_state_rtc sc pid st : kernel_task_rtc (change_state sc pid st).1 = kernel_task_rtc sc.
Proof.
  unfold change_state. destruct (processes sc !! pid); [|done]. cbn [fst].
  unfold add_to_state, remove_from_state. by autorewrite with sched.
Qed.

(** Any operation but a decision leaves [e] waiting, and lets at most a new
    arrival go ahead of it. *)
Lemma step_waiting sc op t e :
  sched_inv sc → sched_op_ok sc op → keeps_waiting t e op → (t, e) ∈ state_map sc Runnable → decision op = 0%nat →
  (t, e) ∈ state_map (sched_step sc op) Runnable ∧
  (older (sched_step sc op) t e <= arrival op + older sc t e)%nat.
Proof.
  intros Hinv Hok Hkeep He Hdec.
  destruct op as [pid p|pid|pid st|pid|tid now|tid st now|tid|e' ms|now_ms now|now now'];
    cbn [sched_step sched_op_ok keeps_waiting arrival Nat.add] in *; [..|done].
  - destruct (sched_add_placed sc pid p Hinv Hok) as (Hpl & Hps & Hr). split.
    + eapply placed_other; [exact Hpl| |done]. cbn. intros ->. apply Hinv in He. congruence.
    + eapply older_stamps; [done|]. unfold stamps. by rewrite Hps, fmap_insert.
  - split; [by eapply (placed_other sc _ (EProcess pid) None); [intros []|cbn; congruence|]|].
    eapply (older_stamps sc _ t e pid); [done|]. apply fmap_delete.
  - split; [by apply change_waiting|]. by rewrite (older_eq sc) by auto using stamps_change, change_state_rtc.
  - rewrite <- (wake_entity_process (λ _, 0)). split; [by apply wake_waiting|].
    by rewrite (older_eq sc) by auto using stamps_wake, wake_entity_rtc.
  - split; [|by eapply (older_rtc sc _ t e tid)].
    eapply placed_other; [by apply add_task_placed| |done]. cbn. intros ->.
    apply Hinv in He as (r & Hr & _). congruence.
  - rewrite (older_eq sc); [|unfold stamps; by rewrite change_task_processes|apply change_task_rtc].
    split; [|done]. destruct (decide (EKernelTask tid = e)) as [Heq|Hne].
    + rewrite (Hkeep Heq). by apply (wake_waiting (λ _, now) sc (EKernelTask tid)).
    + eapply placed_other; [apply change_task_placed|cbn; congruence|done].
  - split; [by eapply (placed_other sc _ (EKernelTask tid) None); [intros []|cbn; congruence|]|].
    by eapply (older_rtc sc _ t e tid).
  - done.
  - by destruct (expire_waiting sc now_ms now t e Hinv Hok He) as [? ->].
Qed.

(** C11.  fair scheduling.  Let an entity be runnable under the time [t] it
    last ran.  While nothing takes it out of the queue, it is picked at the
    latest when as many decisions were made as there were entities scheduled
    no later than it, plus the ones that arrived meanwhile, plus one. *)
Theorem sched_fair sc t e ops :
  sched_inv sc → (t, e) ∈ state_map sc Runnable → sched_ops_ok sc ops → Forall (keeps_waiting t e) ops →
  (older sc t e + sum_list_with arrival ops < sum_list_with decision ops)%nat → e ∈ picks sc ops.
Proof.
  revert sc. induction ops as [|op ops IH]; intros sc Hinv He Hops Hkeep Hlt; [cbn in Hlt; lia|].
  destruct Hops as [Hok Hops]. apply Forall_cons in Hkeep as [Hk Hkeep]. cbn [picks sum_list_with] in *.
  pose proof (inv_sched_step sc op Hinv Hok) as Hinv'. apply elem_of_app.
  destruct (decide (decision op = 0%nat)) as [Hd|Hd].
  - right. destruct (step_waiting sc op t e Hinv Hok Hk He Hd) as [He' Hold].
    apply IH; [done|done|done|done|lia].
  - destruct op as [| | | | | | | | |now now']; try done. cbn [sched_op_ok keeps_waiting] in *.
    destruct (pick_waiting sc now now' t e Hinv Hok Hk He) as (e' & sc' & Hprep & Hother).
    cbn [sched_step arrival decision] in *. rewrite Hprep in *.
    destruct (decide (e' = e)) as [->|Hne]; [left; by apply list_elem_of_singleton|right].
    destruct (Hother Hne) as [He' Hold]. apply IH; [done|done|done|done|lia].
Qed.

Lemma sched_fair_witness :
  EProcess 1 ∈ picks (sched_add (sched_new 1 (mkProcess Runnable 0)) 2 (mkProcess Runnable 0))
    [OPick 7 8; OChange 2 Blocked; OWake 2; OPick 9 10].
Proof.
  apply (sched_fair _ 0); [|by right; left|..].
  - apply inv_sched_add; [apply sched_inv_new|done].
  - cbn [sched_ops_ok]. by split_and!.
  - by repeat constructor.
  - vm_compute. lia.
Defined.
