(* ===== verification/Dispatch.v ===== *)
(** * The scheduling loop and the kernel task executor
    ([panda-kernel/src/scheduler/mod.rs], [scheduler/context_switch.rs],
    [executor/mod.rs], the exits of [syscall/mod.rs])

    One CPU: kernel code runs with interrupts disabled, so a step of the
    machine is a round of [exec_next_runnable], or what the process in user
    mode does next (a system call, a fault, an interrupt).  The futures that
    are polled are not part of the model; what their code does to the
    scheduler and the executor is an argument of the step, a list of effects,
    and so is whether the future is ready. *)

From S2P Require Import Prelude BTree Scheduler.

(** ** [Executor] *)
Record Executor := mkExecutor { ex_tasks : gset Z; ex_next_id : Z }.

Definition executor_new : Executor := mkExecutor ∅ 0.
Definition executor_spawn (x : Executor) : Executor * Z :=
  (mkExecutor ({[ex_next_id x]} ∪ ex_tasks x) (ex_next_id x + 1), ex_next_id x).
Definition task_exists (x : Executor) (tid : Z) : bool := bool_decide (tid ∈ ex_tasks x).

(** ** The machine *)
Inductive Mode := InLoop | InUser | Halted.

Record Kernel := mkKernel {
  k_sched : Scheduler;
  k_exec : Executor;
  (** processes whose [pending_syscall] is set *)
  k_pending : gset Z;
  (** [NEXT_PROCESS_ID] *)
  k_next_pid : Z;
  k_mode : Mode;
}.

Definition set_sched (k : Kernel) (sc : Scheduler) : Kernel :=
  mkKernel sc (k_exec k) (k_pending k) (k_next_pid k) (k_mode k).
Definition set_pending (k : Kernel) (s : gset Z) : Kernel :=
  mkKernel (k_sched k) (k_exec k) s (k_next_pid k) (k_mode k).
Definition set_mode (k : Kernel) (m : Mode) : Kernel :=
  mkKernel (k_sched k) (k_exec k) (k_pending k) (k_next_pid k) m.
Definition set_exec (k : Kernel) (x : Executor) : Kernel :=
  mkKernel (k_sched k) x (k_pending k) (k_next_pid k) (k_mode k).
Definition set_current_process (k : Kernel) (pid : Z) : Kernel :=
  let sc := k_sched k in
  set_sched k (mkSched (processes sc) (h_runnable sc) (h_running sc) (h_blocked sc) (current sc) pid
    (kernel_task_rtc sc) (deadline_tracker sc)).

(** A process as [Process::from_elf_data] makes it, the first one at boot. *)
Definition fresh_process : Process := mkProcess Runnable 0.
Definition boot (pid : Z) : Kernel := mkKernel (sched_new pid fresh_process) executor_new ∅ (pid + 1) InLoop.

(** ** What kernel code does to the scheduler and the executor *)
Inductive Effect :=
  | FWake (pid : Z)                                  (** [scheduler::wake_process] *)
  | FAdd                                             (** a new process, [scheduler::add_process] *)
  | FSpawn (now : Z)                                 (** [executor::spawn] *)
  | FWakeTask (tid now : Z)                          (** [executor::wake_task] *)
  | FDeadline (e : SchedulableEntity) (ms : Z)       (** [scheduler::register_deadline] *)
  | FExpire (now_ms : Z) (now : Z → Z).              (** a timer interrupt outside user mode *)

(** The spin lock around the executor is not re-entrant: taking it while
    [poll_single_task] holds it never returns. *)
Inductive Fault := Deadlock.

Definition spawn (k : Kernel) (now : Z) : Kernel :=
  let '(x, tid) := executor_spawn (k_exec k) in
  set_sched (set_exec k x) (add_kernel_task (k_sched k) tid now).

Definition wake_task (k : Kernel) (tid now : Z) : Kernel :=
  if task_exists (k_exec k) tid
  then set_sched k (change_kernel_task_state (k_sched k) tid Runnable now) else k.

Definition apply_effect (locked : bool) (k : Kernel) (f : Effect) : outcome Fault Kernel :=
  match f with
  | FWake pid => Ok (set_sched k (wake_process (k_sched k) pid))
  | FAdd => Ok (mkKernel (sched_add (k_sched k) (k_next_pid k) fresh_process) (k_exec k)
                  (k_pending k) (k_next_pid k + 1) (k_mode k))
  | FSpawn now => if locked then Err Deadlock else Ok (spawn k now)
  | FWakeTask tid now => if locked then Err Deadlock else Ok (wake_task k tid now)
  | FDeadline e ms => Ok (set_sched k (register_deadline (k_sched k) e ms))
  | FExpire now_ms now => Ok (set_sched k (wake_deadline_tasks (k_sched k) now_ms now).1)
  end.

Fixpoint run_effects (locked : bool) (k : Kernel) (fs : list Effect) : outcome Fault Kernel :=
  match fs with
  | [] => Ok k
  | f :: fs => k ← apply_effect locked k f; run_effects locked k fs
  end.

(** [Executor::poll_task], the lock held throughout. *)
Definition poll_task (k : Kernel) (tid : Z) (fs : list Effect) (ready : bool) :
    outcome Fault (Kernel * PollResult) :=
  if task_exists (k_exec k) tid then
    k ← run_effects true k fs;
    if ready
    then Ok (set_exec k (mkExecutor (ex_tasks (k_exec k) ∖ {[tid]}) (ex_next_id (k_exec k))), PollCompleted)
    else Ok (k, PollPending)
  else Ok (k, PollNotFound).

Inductive PendingSyscallOutcome := SyscallCompleted | SyscallBlocked | NoPending.

Definition poll_pending_syscall (k : Kernel) (pid : Z) (fs : list Effect) (ready : bool) :
    outcome Fault (Kernel * option PendingSyscallOutcome) :=
  match processes (k_sched k) !! pid with
  | None => Ok (k, None)
  | Some _ =>
      let k := set_current_process k pid in
      if decide (pid ∈ k_pending k) then
        k ← run_effects false (set_pending k (k_pending k ∖ {[pid]})) fs;
        if ready then Ok (k, Some SyscallCompleted)
        else match processes (k_sched k) !! pid with
             | Some _ => Ok (set_pending k ({[pid]} ∪ k_pending k), Some SyscallBlocked)
             | None => Ok (k, Some SyscallBlocked)
             end
      else Ok (k, Some NoPending)
  end.

(** [dispatch_completed_syscall] and [dispatch_normal_process] jump to user
    mode, unless the process is gone. *)
Definition dispatch_user (k : Kernel) (pid : Z) : Kernel :=
  match processes (k_sched k) !! pid with
  | Some _ => set_mode (set_current_process k pid) InUser
  | None => k
  end.

(** [prepare_next_runnable] returns no error. *)
Definition lift_pick {A} (m : outcome Empty_set A) : outcome Fault A :=
  match m with Ok a => Ok a | Err e => match e with end | Panic => Panic | OutOfFuel => OutOfFuel end.

(** One round of [exec_next_runnable]; when nothing is runnable, [fs] are the
    effects of the interrupt that ends the [hlt].  [now'] also stands for the
    counter's reading after a kernel task's poll, which is used only if the
    task has no recorded time. *)
Definition exec_next_round (k : Kernel) (now now' : Z) (fs : list Effect) (ready : bool) :
    outcome Fault Kernel :=
  '(sc, next) ← lift_pick (prepare_next_runnable (k_sched k) now now');
  let k := set_sched k sc in
  match next with
  | Some (EProcess pid) =>
      '(k, r) ← poll_pending_syscall k pid fs ready;
      match r with
      | None => Ok k
      | Some SyscallBlocked => Ok (set_sched k (change_state (k_sched k) pid Blocked).1)
      | Some _ => Ok (dispatch_user k pid)
      end
  | Some (EKernelTask tid) =>
      '(k, r) ← poll_task k tid fs ready;
      Ok (set_sched k (dispatch_kernel_task (k_sched k) tid r now'))
  | None =>
      if decide (processes sc = ∅) then Ok (set_mode k Halted) else run_effects false k fs
  end.

(** [suspend_current] and [preempt_current]: the process that ran becomes
    runnable; its absence from the table is a panic. *)
Definition suspend_current (k : Kernel) (st : ProcessState) : outcome Fault Kernel :=
  let pid := current_process (k_sched k) in
  match processes (k_sched k) !! pid with
  | None => Panic
  | Some _ => Ok (set_mode (set_sched k (change_state (k_sched k) pid st).1) InLoop)
  end.

(** [poll_and_dispatch]: a pending future is stored in the process, which
    yields. *)
Definition poll_and_dispatch (k : Kernel) (fs : list Effect) (ready : bool) : outcome Fault Kernel :=
  k ← run_effects false k fs;
  if ready then Ok k
  else
    let pid := current_process (k_sched k) in
    match processes (k_sched k) !! pid with
    | None => Panic
    | Some _ => suspend_current (set_pending k ({[pid]} ∪ k_pending k)) Runnable
    end.

(** [OP_PROCESS_EXIT] and a fatal page fault; [fs] are the effects of
    releasing the devices, [fs'] those of dropping the process and of setting
    the exit code. *)
Definition process_exit (k : Kernel) (fs fs' : list Effect) : outcome Fault Kernel :=
  let pid := current_process (k_sched k) in
  match processes (k_sched k) !! pid with
  | None => Panic
  | Some _ =>
      k ← run_effects false k fs;
      let k := set_sched k (sched_remove_process (k_sched k) pid).1 in
      k ← run_effects false (set_pending k (k_pending k ∖ {[pid]})) fs';
      Ok (set_mode k InLoop)
  end.

(** [timer_interrupt_handler] in user mode. *)
Definition timer_interrupt (k : Kernel) (now_ms : Z) (now : Z → Z) : outcome Fault Kernel :=
  let '(sc, woken) := wake_deadline_tasks (k_sched k) now_ms now in
  let k := set_sched k sc in
  if (0 <? woken) || has_other_runnable sc then suspend_current k Runnable else Ok k.

Inductive MachineEvent :=
  | EvRound (now now' : Z) (fs : list Effect) (ready : bool)
  | EvSyscall (fs : list Effect) (ready : bool)
  | EvYield
  | EvExit (fs fs' : list Effect)
  | EvTimer (now_ms : Z) (now : Z → Z)
  | EvDevice (fs : list Effect).

(** What happens next; an event that does not belong to the mode is none. *)
Definition kernel_step (k : Kernel) (ev : MachineEvent) : outcome Fault Kernel :=
  match k_mode k, ev with
  | InLoop, EvRound now now' fs ready => exec_next_round k now now' fs ready
  | InUser, EvSyscall fs ready => poll_and_dispatch k fs ready
  | InUser, EvYield => suspend_current k Runnable
  | InUser, EvExit fs fs' => process_exit k fs fs'
  | InUser, EvTimer now_ms now => timer_interrupt k now_ms now
  | InUser, EvDevice fs => run_effects false k fs
  | _, _ => Ok k
  end.

Fixpoint kernel_run (k : Kernel) (evs : list MachineEvent) : outcome Fault Kernel :=
  match evs with
  | [] => Ok k
  | ev :: evs => k ← kernel_step k ev; kernel_run k evs
  end.

(** ** Invariant *)

(** Kernel tasks do not sleep: no deadline names one. *)
Definition no_task_deadlines (sc : Scheduler) : Prop := ∀ tid, ¬ deadline_of sc (EKernelTask tid).

Definition kernel_core (k : Kernel) : Prop :=
  sched_inv (k_sched k) ∧
  (∀ tid, is_Some (kernel_task_rtc (k_sched k) !! tid) ↔ tid ∈ ex_tasks (k_exec k)) ∧
  (∀ tid, tid ∈ ex_tasks (k_exec k) → tid < ex_next_id (k_exec k)) ∧
  (∀ pid, is_Some (processes (k_sched k) !! pid) → pid < k_next_pid k) ∧
  no_task_deadlines (k_sched k).

(** In user mode the current process, and nothing else, is running; inside
    the loop nothing is; the machine halts when no process is left. *)
Definition mode_inv (k : Kernel) : Prop :=
  match k_mode k with
  | InLoop => state_map (k_sched k) Running = []
  | InUser => ∃ t, state_map (k_sched k) Running = [(t, EProcess (current_process (k_sched k)))]
  | Halted => processes (k_sched k) = ∅
  end.

(** A deadline for a kernel task is what the theorem excludes. *)
Definition effect_ok (f : Effect) : Prop :=
  match f with FDeadline (EKernelTask _) _ => False | _ => True end.

(** Effects leave the running entity and the process table's keys alone. *)
Definition kept (k k' : Kernel) : Prop :=
  state_map (k_sched k') Running = state_map (k_sched k) Running ∧
  current_process (k_sched k') = current_process (k_sched k) ∧
  k_mode k' = k_mode k ∧
  (∀ pid, is_Some (processes (k_sched k) !! pid) → is_Some (processes (k_sched k') !! pid)).

Definition no_task_running (k : Kernel) : Prop :=
  ∀ tid, EKernelTask tid ∉ (state_map (k_sched k) Running).*2.

Lemma wake_process_running sc pid : state_map (wake_process sc pid) Running = state_map sc Running.
Proof.
  unfold wake_process, change_state. destruct (processes sc !! pid) as [p|]; [|done].
  case_decide as Hb; [|done]. cbn [fst]. by rewrite Hb.
Qed.

Lemma wake_process_current sc pid : current_process (wake_process sc pid) = current_process sc.
Proof.
  unfold wake_process, change_state. destruct (processes sc !! pid) as [p|]; [|done].
  case_decide as Hb; [|done]. cbn [fst]. by rewrite Hb.
Qed.

Lemma wake_process_deadlines sc pid : deadline_tracker (wake_process sc pid) = deadline_tracker sc.
Proof.
  unfold wake_process, change_state. destruct (processes sc !! pid) as [p|]; [|done].
  case_decide as Hb; [|done]. cbn [fst]. by rewrite Hb.
Qed.

Lemma wake_process_table sc pid q :
  is_Some (processes (wake_process sc pid) !! q) ↔ is_Some (processes sc !! q).
Proof.
  unfold wake_process, change_state. destruct (processes sc !! pid) as [p|] eqn:Hl; [|done].
  case_decide as Hb; [|done]. cbn [fst]. rewrite Hb. cbn.
  destruct (decide (pid = q)) as [<-|Hne]; [rewrite lookup_insert_eq, Hl; split; by eauto|].
  by rewrite lookup_insert_ne.
Qed.

(** What waking processes keeps. *)
Definition same_frame (sc sc' : Scheduler) : Prop :=
  sched_inv sc' ∧ state_map sc' Running = state_map sc Running ∧
  current_process sc' = current_process sc ∧ kernel_task_rtc sc' = kernel_task_rtc sc ∧
  (∀ q, is_Some (processes sc' !! q) ↔ is_Some (processes sc !! q)) ∧
  (∀ tid, deadline_of sc' (EKernelTask tid) → deadline_of sc (EKernelTask tid)).

Lemma wake_process_frame sc sc' pid : same_frame sc sc' → same_frame sc (wake_process sc' pid).
Proof.
  intros (Hi & Hr & Hc & Ht & Hp & Hd). unfold same_frame, deadline_of.
  rewrite wake_process_running, wake_process_current, wake_process_rtc, wake_process_deadlines.
  split_and!; [by apply inv_wake_process|done|done|done| |done]. intros q. by rewrite wake_process_table.
Qed.

Lemma same_frame_refl sc : sched_inv sc → same_frame sc sc.
Proof. intros ?. by split_and!. Qed.

Lemma expire_frame sc now_ms now :
  sched_inv sc → no_task_deadlines sc → same_frame sc (wake_deadline_tasks sc now_ms now).1.
Proof.
  intros Hinv Hno. apply wake_deadline_ind.
  - split_and!; try done; try apply Hinv. intros tid (k & es & Hin & He).
    exists k, es. split; [by apply collect_sub in Hin|done].
  - intros sc' [pid|tid] Hf He; [by apply wake_process_frame|by destruct (Hno tid)].
Qed.

Lemma bt_insert_elem {V} k (v : V) d x : x ∈ bt_insert k v d → x = (k, v) ∨ x ∈ d.
Proof.
  induction d as [|[k' v'] d IH]; cbn; [by intros ->%list_elem_of_singleton; left|].
  repeat case_decide; rewrite !elem_of_cons; naive_solver.
Qed.

Lemma bt_get_elem_of {V} k (v : V) d : bt_get k d = Some v → (k, v) ∈ d.
Proof.
  induction d as [|[k' v'] d IH]; [done|]. cbn. case_decide as Hk.
  - intros [= ->]. subst. by left.
  - intros ?. right. by apply IH.
Qed.

Lemma register_frame sc e ms :
  sched_inv sc → (∀ tid, e ≠ EKernelTask tid) → same_frame sc (register_deadline sc e ms).
Proof.
  intros Hinv He. split_and!; try done; try apply Hinv.
  intros tid (k & es & Hin & Hes). apply bt_insert_elem in Hin as [[= -> ->]|Hin]; [|by exists k, es].
  apply elem_of_app in Hes as [Hes|Hes%list_elem_of_singleton]; [|by destruct (He tid)].
  destruct (bt_get ms (deadline_tracker sc)) as [l|] eqn:Hg; cbn in Hes; [|by apply elem_of_nil in Hes].
  exists ms, l. split; [by apply bt_get_elem_of|done].
Qed.

Lemma core_frame k sc' :
  kernel_core k → same_frame (k_sched k) sc' → kernel_core (set_sched k sc') ∧ kept k (set_sched k sc').
Proof.
  intros (Hi & Hx & Hn & Hp & Hd) (Hi' & Hr & Hc & Ht & Htab & Hdl). split.
  - split_and!; cbn [k_sched k_exec k_next_pid set_sched]; [done|by rewrite Ht|done| |].
    + intros pid ?%Htab. by apply Hp.
    + intros tid ?%Hdl. by eapply Hd.
  - split_and!; cbn; [done|done|done|]. intros pid. apply Htab.
Qed.

Lemma fresh_pid k : kernel_core k → processes (k_sched k) !! k_next_pid k = None.
Proof.
  intros (_ & _ & _ & Hp & _). apply eq_None_not_Some. intros Hs. apply Hp in Hs. lia.
Qed.

Lemma fresh_tid k : kernel_core k → kernel_task_rtc (k_sched k) !! ex_next_id (k_exec k) = None.
Proof.
  intros (_ & Hx & Hn & _ & _). apply eq_None_not_Some. intros Hs. apply Hx, Hn in Hs. lia.
Qed.

Lemma process_not_running sc pid :
  sched_inv sc → processes sc !! pid = None → EProcess pid ∉ (state_map sc Running).*2.
Proof.
  intros Hi Hn ([t e] & Heq & Hin)%list_elem_of_fmap. cbn in Heq. subst e. apply Hi in Hin. congruence.
Qed.

Lemma placed_running sc sc' e tgt :
  placed sc sc' e tgt → (∀ t, tgt ≠ Some (Running, t)) → e ∉ (state_map sc Running).*2 →
  state_map sc' Running = state_map sc Running.
Proof.
  intros Hpl Ht He. rewrite (Hpl Running), without_id by done.
  destruct tgt as [[st t]|]; [|done]. case_decide; [|done]. subst. by destruct (Ht t).
Qed.

Lemma sched_add_frame sc pid p :
  deadline_tracker (sched_add sc pid p) = deadline_tracker sc ∧
  current_process (sched_add sc pid p) = current_process sc.
Proof.
  unfold sched_add, update_process. rewrite processes_processes, lookup_insert_eq.
  by destruct p as [[] t].
Qed.

Lemma core_add k :
  kernel_core k → ensures (apply_effect false k FAdd) (λ k', kernel_core k' ∧ kept k k').
Proof.
  intros Hcore. pose proof (fresh_pid k Hcore) as Hnew. destruct Hcore as (Hi & Hx & Hn & Hp & Hd).
  destruct (sched_add_placed (k_sched k) (k_next_pid k) fresh_process Hi Hnew) as (Hpl & Hps & Hr).
  destruct (sched_add_frame (k_sched k) (k_next_pid k) fresh_process) as [Hdl Hcp]. cbn. split.
  - split_and!; cbn [k_sched k_exec k_next_pid].
    + by apply inv_sched_add.
    + by rewrite Hr.
    + done.
    + intros pid. rewrite Hps. destruct (decide (pid = k_next_pid k)) as [->|Hne]; [lia|].
      rewrite lookup_insert_ne by done. intros ?%Hp. lia.
    + intros tid. unfold deadline_of. rewrite Hdl. apply Hd.
  - split_and!; cbn [k_sched k_mode]; [|done|done|].
    + eapply placed_running; [exact Hpl|done|]. by apply process_not_running.
    + intros pid [p Hl]. rewrite Hps. exists p. rewrite lookup_insert_ne by congruence. done.
Qed.

Lemma core_spawn k now : kernel_core k → kernel_core (spawn k now) ∧ kept k (spawn k now).
Proof.
  intros Hcore. pose proof (fresh_tid k Hcore) as Hnew. destruct Hcore as (Hi & Hx & Hn & Hp & Hd). split.
  - split_and!; cbn [spawn executor_spawn k_sched k_exec k_next_pid set_sched set_exec ex_tasks ex_next_id].
    + by apply inv_add_task.
    + intros tid. change (kernel_task_rtc (add_kernel_task (k_sched k) (ex_next_id (k_exec k)) now))
        with (<[ex_next_id (k_exec k) := now]> (kernel_task_rtc (k_sched k))).
      rewrite elem_of_union, elem_of_singleton, <- Hx.
      destruct (decide (tid = ex_next_id (k_exec k))) as [->|Hne]; [rewrite lookup_insert_eq; split; by eauto|].
      rewrite lookup_insert_ne by done. naive_solver.
    + intros tid. rewrite elem_of_union, elem_of_singleton. intros [->|?%Hn]; lia.
    + done.
    + intros tid. apply Hd.
  - by split_and!.
Qed.

Lemma core_wake_task k tid now :
  kernel_core k → no_task_running k → kernel_core (wake_task k tid now) ∧ kept k (wake_task k tid now).
Proof.
  intros Hcore Hno. unfold wake_task, task_exists. case_bool_decide as Hin; [|by split].
  destruct Hcore as (Hi & Hx & Hn & Hp & Hd).
  pose proof (change_task_placed (k_sched k) tid Runnable now) as Hpl.
  pose proof (change_task_rtc (k_sched k) tid Runnable now) as Hr.
  pose proof (change_task_processes (k_sched k) tid Runnable now) as Hps. split.
  - split_and!; cbn [k_sched k_exec k_next_pid set_sched]; [|by rewrite Hr|done|by rewrite Hps|].
    + apply inv_change_task; [done|]. by apply Hx.
    + intros tid'. apply Hd.
  - split_and!; cbn [k_sched k_mode set_sched]; [|done|done|by rewrite Hps].
    by eapply placed_running; [exact Hpl|done|apply Hno].
Qed.

Lemma effect_safe locked k f :
  kernel_core k → (locked = false → no_task_running k) → effect_ok f →
  ensures (apply_effect locked k f) (λ k', kernel_core k' ∧ kept k k').
Proof.
  intros Hcore Hno Hok. destruct f as [pid| |now|tid now|e ms|now_ms now]; cbn.
  - apply core_frame; [done|]. apply wake_process_frame, same_frame_refl, Hcore.
  - by apply core_add.
  - destruct locked; [done|]. by apply core_spawn.
  - destruct locked; [done|]. apply core_wake_task; [done|by apply Hno].
  - apply core_frame; [done|]. apply register_frame; [apply Hcore|]. by destruct e.
  - apply core_frame; [done|]. apply expire_frame; apply Hcore.
Qed.

Lemma kept_trans k1 k2 k3 : kept k1 k2 → kept k2 k3 → kept k1 k3.
Proof.
  intros (R1 & C1 & M1 & P1) (R2 & C2 & M2 & P2). split_and!; [congruence|congruence|congruence|].
  intros pid Hp. by apply P2, P1.
Qed.

Lemma kept_no_task k k' : kept k k' → no_task_running k → no_task_running k'.
Proof. intros (R & _) Hno tid. rewrite R. apply Hno. Qed.

Lemma effects_safe locked k fs :
  kernel_core k → (locked = false → no_task_running k) → Forall effect_ok fs →
  ensures (run_effects locked k fs) (λ k', kernel_core k' ∧ kept k k').
Proof.
  intros Hcore Hno Hfs. revert k Hcore Hno. induction Hfs as [|f fs Hf Hfs IH]; intros k Hcore Hno; cbn [run_effects].
  { split; [done|by split_and!]. }
  eapply ensures_bind; [by apply effect_safe|]. intros k1 [Hc1 Hk1].
  eapply ensures_weaken; [apply IH; [done|]|].
  - intros Hl. eapply kept_no_task; [done|by apply Hno].
  - intros k2 [Hc2 Hk2]. split; [done|by eapply kept_trans].
Qed.

(** ** Steps *)
Definition kernel_inv (k : Kernel) : Prop := kernel_core k ∧ mode_inv k.

Definition runs (k : Kernel) (e : SchedulableEntity) : Prop :=
  ∃ t, state_map (k_sched k) Running = [(t, e)].

Lemma runs_process k pid : kernel_core k → runs k (EProcess pid) → is_Some (processes (k_sched k) !! pid).
Proof.
  intros (Hi & _) [t Ht]. assert ((t, EProcess pid) ∈ state_map (k_sched k) Running) as Hin by (rewrite Ht; by left).
  apply Hi in Hin. by eauto.
Qed.

Lemma runs_no_task k pid : runs k (EProcess pid) → no_task_running k.
Proof. intros [t Ht] tid. rewrite Ht. cbn. by intros ?%list_elem_of_singleton. Qed.

Lemma kept_runs k k' e : kept k k' → runs k e → runs k' e.
Proof. intros (R & _) [t Ht]. exists t. congruence. Qed.

Lemma running_nothing k : state_map (k_sched k) Running = [] → no_task_running k.
Proof. intros Hr tid. rewrite Hr. cbn. by intros ?%elem_of_nil. Qed.

Lemma change_state_frame sc pid st :
  current_process (change_state sc pid st).1 = current_process sc ∧
  deadline_tracker (change_state sc pid st).1 = deadline_tracker sc ∧
  (∀ q, is_Some (processes (change_state sc pid st).1 !! q) ↔ is_Some (processes sc !! q)).
Proof.
  unfold change_state. destruct (processes sc !! pid) as [p|] eqn:Hl; [|done]. cbn [fst].
  split_and!; [by destruct st, (p_state p)|by destruct st, (p_state p)|]. intros q.
  unfold add_to_state, remove_from_state. rewrite !processes_set_map, processes_processes.
  destruct (decide (pid = q)) as [<-|Hne]; [rewrite lookup_insert_eq, Hl; split; by eauto|].
  by rewrite lookup_insert_ne.
Qed.

(** The running process stops running, and then nothing is. *)
Lemma stop_running k pid st :
  kernel_core k → runs k (EProcess pid) → st ≠ Running →
  let k' := set_sched k (change_state (k_sched k) pid st).1 in
  kernel_core k' ∧ state_map (k_sched k') Running = [].
Proof.
  intros Hcore Hrun Hst. destruct (runs_process k pid Hcore Hrun) as [p Hl]. destruct Hrun as [t Ht].
  destruct Hcore as (Hi & Hx & Hn & Hp & Hd).
  destruct (change_state_placed (k_sched k) pid p st Hi Hl) as (Hpl & _ & Hr).
  destruct (change_state_frame (k_sched k) pid st) as (_ & Hdl & Htab). cbn zeta. split.
  - split_and!; cbn [k_sched k_exec k_next_pid set_sched]; [by apply inv_change_state|by rewrite Hr|done| |].
    + intros q ?%Htab. by apply Hp.
    + intros tid. unfold deadline_of. rewrite Hdl. apply Hd.
  - cbn [k_sched set_sched]. rewrite (Hpl Running), Ht, decide_False by done. unfold heap_without.
    by rewrite filter_cons, decide_False by (cbn; tauto).
Qed.

Lemma suspend_safe k st :
  kernel_core k → runs k (EProcess (current_process (k_sched k))) → st ≠ Running →
  ensures (suspend_current k st) kernel_inv.
Proof.
  intros Hcore Hrun Hst. unfold suspend_current. destruct (runs_process k _ Hcore Hrun) as [p ->].
  by destruct (stop_running k _ st Hcore Hrun Hst).
Qed.

Lemma core_current k pid : kernel_core k → kernel_core (set_current_process k pid).
Proof. intros (Hi & Hx & Hn & Hp & Hd). split_and!; try done; apply Hi. Qed.

Lemma core_pending k s : kernel_core k → kernel_core (set_pending k s).
Proof. done. Qed.

Lemma core_picked k sc' t e now now' :
  kernel_core k → state_map (k_sched k) Running = [] → oldest_runnable (k_sched k) t e →
  picked (k_sched k) sc' e now now' →
  kernel_core (set_sched k sc') ∧ runs (set_sched k sc') e.
Proof.
  intros (Hi & Hx & Hn & Hp & Hd) Hr [Hin _] Hpk. pose proof (inv_picked _ _ _ _ _ Hi Hpk) as Hi'.
  destruct Hpk as (_ & _ & Hdl & Hpk). assert (∀ tid, ¬ deadline_of sc' (EKernelTask tid)) as Hd'.
  { intros tid. unfold deadline_of. rewrite Hdl. apply Hd. }
  destruct e as [pid|tid]; destruct Hpk as (Hpl & Hps & Hrt); split.
  - split_and!; cbn [k_sched k_exec k_next_pid set_sched]; [done|by rewrite Hrt|done| |done].
    intros q. rewrite Hps. destruct (decide (q = pid)) as [->|Hne]; [|by rewrite lookup_insert_ne; auto].
    intros _. apply Hp. apply Hi in Hin. by eauto.
  - exists now. cbn [k_sched set_sched]. by rewrite (Hpl Running), Hr.
  - split_and!; cbn [k_sched k_exec k_next_pid set_sched]; [done| |done|by rewrite Hps|done].
    intros tid'. rewrite <- Hx, Hrt. destruct (decide (tid' = tid)) as [->|Hne]; [|by rewrite lookup_insert_ne].
    rewrite lookup_insert_eq. apply Hi in Hin as (r & Hk & _). rewrite Hk. split; by eauto.
  - exists now'. cbn [k_sched set_sched]. by rewrite (Hpl Running), Hr.
Qed.

Lemma poll_pending_safe k pid fs ready :
  kernel_core k → runs k (EProcess pid) → Forall effect_ok fs →
  ensures (poll_pending_syscall k pid fs ready)
    (λ '(k', r), kernel_core k' ∧ runs k' (EProcess pid) ∧ k_mode k' = k_mode k ∧ is_Some r).
Proof.
  intros Hcore Hrun Hfs. unfold poll_pending_syscall. destruct (runs_process k pid Hcore Hrun) as [p ->].
  pose proof (core_current k pid Hcore) as Hcore1. assert (runs (set_current_process k pid) (EProcess pid)) as Hrun1 by done.
  assert (k_mode (set_current_process k pid) = k_mode k) as Hm1 by done. revert Hcore1 Hrun1 Hm1.
  generalize (set_current_process k pid). intros k1 Hcore1 Hrun1 Hm1.
  case_decide; [|cbn; split_and!; try done; apply Hcore1].
  eapply ensures_bind; [apply effects_safe; [by apply core_pending|intros _; by apply (runs_no_task _ pid)|done]|].
  intros k2 [Hcore2 Hkept]. assert (runs k2 (EProcess pid)) as Hrun2 by (by eapply kept_runs).
  assert (k_mode k2 = k_mode k) as Hm2 by (destruct Hkept as (_ & _ & -> & _); done).
  destruct ready; [by cbn; split_and!; try apply Hcore2|].
  destruct (runs_process k2 pid Hcore2 Hrun2) as [p2 ->]. cbn. by split_and!; try apply Hcore2.
Qed.

Lemma round_process_safe k pid fs ready :
  kernel_core k → runs k (EProcess pid) → k_mode k = InLoop → Forall effect_ok fs →
  ensures ('(k, r) ← poll_pending_syscall k pid fs ready;
           match r with
           | None => Ok k
           | Some SyscallBlocked => Ok (set_sched k (change_state (k_sched k) pid Blocked).1)
           | Some _ => Ok (dispatch_user k pid)
           end) kernel_inv.
Proof.
  intros Hcore Hrun Hm Hfs. eapply ensures_bind; [by apply poll_pending_safe|].
  intros [k' r] (Hcore' & Hrun' & Hm' & [o ->]). rewrite Hm in Hm'.
  assert (kernel_inv (dispatch_user k' pid)) as Huser.
  { unfold dispatch_user. destruct (runs_process k' pid Hcore' Hrun') as [p ->].
    split; [by apply (core_current k' pid)|done]. }
  destruct o; [done| |done]. destruct (stop_running k' pid Blocked) as [Hc Hr]; [done..|].
  split; [done|]. unfold mode_inv. cbn [k_mode set_sched]. by rewrite Hm'.
Qed.

Lemma dispatch_task_running sc t tid r now :
  state_map sc Running = [(t, EKernelTask tid)] → r ≠ PollNotFound →
  state_map (dispatch_kernel_task sc tid r now) Running = [].
Proof.
  intros Ht Hr. destruct r; [..|done]; cbn [dispatch_kernel_task].
  - change (state_map (remove_kernel_task sc tid) Running) with (heap_without (state_map sc Running) (EKernelTask tid)).
    rewrite Ht. unfold heap_without. by rewrite filter_cons, decide_False by (cbn; tauto).
  - rewrite (change_task_placed sc tid Blocked now Running), Ht, decide_False by done. unfold heap_without.
    by rewrite filter_cons, decide_False by (cbn; tauto).
Qed.

Lemma core_task_blocked k tid now :
  kernel_core k → tid ∈ ex_tasks (k_exec k) →
  kernel_core (set_sched k (change_kernel_task_state (k_sched k) tid Blocked now)).
Proof.
  intros (Hi & Hx & Hn & Hp & Hd) Hin. split_and!; cbn [k_sched k_exec k_next_pid set_sched].
  - apply inv_change_task; [done|]. by apply Hx.
  - by rewrite change_task_rtc.
  - done.
  - by rewrite change_task_processes.
  - intros tid'. apply Hd.
Qed.

Lemma core_task_done k tid :
  kernel_core k →
  kernel_core (set_sched (set_exec k (mkExecutor (ex_tasks (k_exec k) ∖ {[tid]}) (ex_next_id (k_exec k))))
    (remove_kernel_task (k_sched k) tid)).
Proof.
  intros (Hi & Hx & Hn & Hp & Hd).
  split_and!; cbn [k_sched k_exec k_next_pid set_sched set_exec ex_tasks ex_next_id].
  - by apply inv_remove_task.
  - intros tid'. change (kernel_task_rtc (remove_kernel_task (k_sched k) tid))
      with (delete tid (kernel_task_rtc (k_sched k))). rewrite elem_of_difference, elem_of_singleton, <- Hx.
    destruct (decide (tid' = tid)) as [->|Hne].
    + rewrite lookup_delete_eq. split; [by intros [? ?]|naive_solver].
    + rewrite lookup_delete_ne by done. naive_solver.
  - intros tid' [? _]%elem_of_difference. by apply Hn.
  - done.
  - intros tid'. apply Hd.
Qed.

Lemma runs_task k tid : kernel_core k → runs k (EKernelTask tid) → tid ∈ ex_tasks (k_exec k).
Proof.
  intros (Hi & Hx & _) [t Ht]. apply Hx.
  destruct (proj2 (proj2 (proj2 Hi)) Running t tid) as (r & Hr & _); [rewrite Ht; by left|by eauto].
Qed.

Lemma round_task_safe k tid fs ready now :
  kernel_core k → runs k (EKernelTask tid) → k_mode k = InLoop → Forall effect_ok fs →
  ensures ('(k, r) ← poll_task k tid fs ready;
           Ok (set_sched k (dispatch_kernel_task (k_sched k) tid r now))) kernel_inv.
Proof.
  intros Hcore Hrun Hm Hfs.
  eapply (ensures_bind _ _ (λ '(k', r), kernel_inv (set_sched k' (dispatch_kernel_task (k_sched k') tid r now))));
    [|by intros [k' r]].
  unfold poll_task, task_exists. rewrite bool_decide_true by (by apply runs_task).
  eapply ensures_bind; [by apply effects_safe|]. intros k' [Hcore' Hkept].
  assert (runs k' (EKernelTask tid)) as Hrun' by (by eapply kept_runs).
  assert (k_mode k' = InLoop) as Hm' by (destruct Hkept as (_ & _ & -> & _); done).
  pose proof (runs_task k' tid Hcore' Hrun') as Hin. destruct Hrun' as [t Ht].
  destruct ready; split; try (unfold mode_inv; cbn [k_mode k_sched set_sched set_exec]; rewrite Hm';
    by eapply dispatch_task_running).
  - by apply core_task_done.
  - by apply core_task_blocked.
Qed.

Lemma round_safe k now now' fs ready :
  kernel_inv k → k_mode k = InLoop → Forall effect_ok fs →
  ensures (exec_next_round k now now' fs ready) kernel_inv.
Proof.
  intros [Hcore Hmode] Hm Hfs. unfold mode_inv in Hmode. rewrite Hm in Hmode. unfold exec_next_round.
  destruct (decide (state_map (k_sched k) Runnable = [])) as [Hq|Hq].
  - rewrite prepare_idle by done. cbn [lift_pick mbind outcome_bind].
    assert (set_sched k (k_sched k) = k) as -> by (by destruct k). case_decide as He.
    + by split.
    + eapply ensures_weaken; [apply effects_safe; [done|intros _; by apply running_nothing|done]|].
      intros k' [Hc (Hr & _ & Hm' & _)]. split; [done|]. unfold mode_inv. rewrite Hm', Hm. congruence.
  - destruct (prepare_pick (k_sched k) now now' (proj1 Hcore) Hmode Hq) as (t & e & sc' & -> & Hold & Hpk).
    cbn [lift_pick mbind outcome_bind]. destruct (core_picked k sc' t e now now' Hcore Hmode Hold Hpk) as [Hc Hr].
    destruct e as [pid|tid]; [by apply round_process_safe|by apply round_task_safe].
Qed.

Lemma exit_safe k fs fs' :
  kernel_inv k → k_mode k = InUser → Forall effect_ok fs → Forall effect_ok fs' →
  ensures (process_exit k fs fs') kernel_inv.
Proof.
  intros [Hcore Hmode] Hm Hfs Hfs'. unfold mode_inv in Hmode. rewrite Hm in Hmode.
  unfold process_exit. set (pid := current_process (k_sched k)) in *.
  destruct (runs_process k pid Hcore Hmode) as [p ->].
  eapply ensures_bind; [apply effects_safe; [done|intros _; by eapply runs_no_task|done]|].
  intros k1 [Hcore1 Hkept]. assert (runs k1 (EProcess pid)) as [t Ht] by (by eapply kept_runs).
  set (k2 := set_pending _ _). assert (kernel_core k2 ∧ state_map (k_sched k2) Running = []) as [Hcore2 Hr2].
  { destruct Hcore1 as (Hi & Hx & Hn & Hp & Hd). split.
    - split_and!; [by apply inv_remove_process|done|done| |intros tid; apply Hd].
      intros q Hq. apply Hp. cbn in Hq. destruct (decide (q = pid)) as [->|Hne].
      + by rewrite lookup_delete_eq in Hq; destruct Hq.
      + by rewrite lookup_delete_ne in Hq by done.
    - change (state_map (k_sched k2) Running) with (heap_without (state_map (k_sched k1) Running) (EProcess pid)).
      rewrite Ht. unfold heap_without. by rewrite filter_cons, decide_False by (cbn; tauto). }
  eapply ensures_bind; [apply effects_safe; [done|intros _; by apply running_nothing|done]|].
  intros k3 [Hcore3 (Hr3 & _)]. split; [done|]. unfold mode_inv. cbn. by rewrite <- Hr2, <- Hr3.
Qed.

Lemma timer_safe k now_ms now :
  kernel_inv k → k_mode k = InUser → ensures (timer_interrupt k now_ms now) kernel_inv.
Proof.
  intros [Hcore Hmode] Hm. unfold mode_inv in Hmode. rewrite Hm in Hmode. unfold timer_interrupt.
  pose proof (expire_frame (k_sched k) now_ms now (proj1 Hcore)) as Hf.
  destruct (wake_deadline_tasks (k_sched k) now_ms now) as [sc woken]. cbn [fst] in Hf.
  destruct (core_frame k sc Hcore) as [Hcore' Hkept]; [apply Hf, Hcore|].
  destruct Hkept as (Hr & Hc & Hm' & _). cbn [k_sched set_sched] in Hr, Hc.
  assert (runs (set_sched k sc) (EProcess (current_process sc))) as Hrun.
  { destruct Hmode as [t Ht]. exists t. cbn [k_sched set_sched]. by rewrite Hr, Hc. }
  case_match; [by apply suspend_safe|]. split; [done|]. unfold mode_inv. by rewrite Hm', Hm.
Qed.

Definition event_ok (ev : MachineEvent) : Prop :=
  match ev with
  | EvRound _ _ fs _ | EvSyscall fs _ | EvDevice fs => Forall effect_ok fs
  | EvExit fs fs' => Forall effect_ok fs ∧ Forall effect_ok fs'
  | _ => True
  end.

Lemma step_safe k ev : kernel_inv k → event_ok ev → ensures (kernel_step k ev) kernel_inv.
Proof.
  intros Hinv Hok. pose proof Hinv as [Hcore Hmode]. unfold mode_inv in Hmode. unfold kernel_step.
  destruct (k_mode k) eqn:Hm, ev; cbn [event_ok] in Hok; try done; try (by split; [|unfold mode_inv; rewrite Hm]).
  - by apply round_safe.
  - unfold poll_and_dispatch.
    eapply ensures_bind; [apply effects_safe; [done|intros _; by eapply runs_no_task|done]|].
    intros k' [Hcore' (Hr & Hc & Hm' & _)]. rewrite <- Hr, <- Hc in Hmode. destruct ready.
    + split; [done|]. unfold mode_inv. by rewrite Hm', Hm.
    + destruct (runs_process k' _ Hcore' Hmode) as [p ->]. by apply suspend_safe.
  - by apply suspend_safe.
  - destruct Hok. by apply exit_safe.
  - by apply timer_safe.
  - eapply ensures_weaken; [apply effects_safe; [done|intros _; by eapply runs_no_task|done]|].
    intros k' [Hcore' (Hr & Hc & Hm' & _)]. split; [done|]. unfold mode_inv. by rewrite Hm', Hm, Hr, Hc.
Qed.

Lemma sched_new_fields pid :
  let sc := sched_new pid fresh_process in
  processes sc = {[pid := fresh_process]} ∧ state_map sc Running = [] ∧ kernel_task_rtc sc = ∅ ∧
  deadline_tracker sc = [].
Proof. unfold sched_new, sched_add, update_process. by rewrite processes_processes, lookup_insert_eq. Qed.

Lemma boot_inv pid : kernel_inv (boot pid).
Proof.
  destruct (sched_new_fields pid) as (Hps & Hr & Ht & Hd). split; [|exact Hr].
  split_and!; cbn [boot k_sched k_exec k_next_pid executor_new ex_tasks ex_next_id].
  - apply sched_inv_new.
  - intros tid. rewrite Ht, lookup_empty. split; [by intros [? ?]|set_solver].
  - set_solver.
  - intros q. rewrite Hps. intros [p [<- _]%lookup_singleton_Some]. lia.
  - intros tid (k & es & Hin & _). rewrite Hd in Hin. by apply elem_of_nil in Hin.
Qed.

(** C1.  the scheduling loop is safe from boot on.  As long as no kernel task
    registers a deadline, the kernel never panics in the scheduler, whatever
    the processes, the polled futures and the interrupts do: the assertion of
    [prepare_next_runnable] and the lookups of the current process always
    succeed.  In user mode exactly the current process is running, inside the
    loop nothing is, and every process and task is queued once. *)
Theorem scheduler_never_panics pid evs :
  Forall event_ok evs →
  ensures (kernel_run (boot pid) evs) (λ k, sched_inv (k_sched k) ∧ mode_inv k).
Proof.
  intros Hevs. pose proof (boot_inv pid) as Hinv. revert Hinv. generalize (boot pid).
  induction Hevs as [|ev evs Hev Hevs IH]; intros k Hinv; cbn [kernel_run].
  { split; [apply Hinv|apply Hinv]. }
  eapply ensures_bind; [by apply step_safe|]. intros k' Hinv'. by apply IH.
Qed.

(** Init runs, starts a second process and sleeps; the second one exits. *)
Definition demo_events : list MachineEvent :=
  [EvRound 10 11 [] true; EvSyscall [FAdd; FSpawn 12] true; EvSyscall [FDeadline (EProcess 0) 50] false;
   EvRound 13 14 [] true; EvTimer 20 (λ _, 0); EvRound 15 16 [] true; EvRound 17 18 [] false;
   EvRound 19 20 [] true; EvExit [] []; EvRound 21 22 [FExpire 60 (λ _, 0)] true; EvRound 23 24 [] true;
   EvExit [] []; EvRound 25 26 [] true].

Lemma scheduler_never_panics_witness :
  ensures (kernel_run (boot 0) demo_events) (λ k, sched_inv (k_sched k) ∧ mode_inv k).
Proof. apply (scheduler_never_panics 0). repeat constructor. Defined.

(** ** Outside the hypothesis *)

(** A kernel task registers a deadline and completes before it expires. *)
Definition stale_deadline_events : list MachineEvent :=
  [EvRound 10 11 [] true; EvSyscall [FSpawn 12] true; EvYield;
   EvRound 13 14 [] true; EvYield; EvRound 15 16 [FDeadline (EKernelTask 0) 50] true;
   EvRound 17 18 [] true; EvTimer 60 (λ _, 5); EvRound 19 20 [] true].

(** why kernel tasks must not sleep.  [wake_deadline_tasks] queues a kernel
    task again without asking whether it still exists.  If a task registers a
    deadline and completes before it expires, the executor no longer knows the
    task when it is picked, [dispatch_kernel_task] leaves it in [Running], and
    the assertion at the next decision panics; up to there nothing fails. *)
Theorem stale_deadline_panics :
  (∃ k, kernel_run (boot 0) stale_deadline_events = Ok k ∧ k_mode k = InLoop ∧
     (state_map (k_sched k) Running).*2 = [EKernelTask 0] ∧ 0 ∉ ex_tasks (k_exec k)) ∧
  ∀ now now' fs ready,
    kernel_run (boot 0) (stale_deadline_events ++ [EvRound now now' fs ready]) = Panic.
Proof.
  split; [|done].
  destruct (kernel_run (boot 0) stale_deadline_events) as [k| | |] eqn:Hrun; try (by vm_compute in Hrun).
  exists k. vm_compute in Hrun. injection Hrun as <-. by split_and!.
Qed.

(** A kernel task that wakes another one from its own poll (as releasing a
    contended [AsyncMutex] does) waits for the executor's lock it holds. *)
Lemma task_wakes_task_hangs :
  kernel_run (boot 0)
    [EvRound 10 11 [] true; EvSyscall [FSpawn 12; FSpawn 13] true; EvYield; EvRound 14 15 [] true; EvYield;
     EvRound 16 17 [] false; EvRound 18 19 [FWakeTask 0 20] true] = Err Deadlock.
Proof. vm_compute. reflexivity. Qed.
