(* ===== verification/Effects.v ===== *)
(** * Stateful fallible code

    Most of the storage and graphics code mutates a shared object and returns
    [Result].  [ST S E A] is such a computation: it threads the state through
    and a failure keeps the changes made before it, as [?] does in the source.
    [spec m s Q R] is its specification at one state: the computation neither
    panics nor runs out of fuel, a value it returns satisfies [Q] together with
    the state it leaves, and so does an error [R]. *)

From S2P Require Import Prelude.

(** ** The monad *)
Definition ST (S E A : Type) : Type := S → S * outcome E A.

#[export] Instance ST_ret {S E} : MRet (ST S E) := λ A a s, (s, Ok a).
#[export] Instance ST_bind {S E} : MBind (ST S E) := λ A B f m s,
  match m s with
  | (s', Ok a) => f a s'
  | (s', Err e) => (s', Err e)
  | (s', Panic) => (s', Panic)
  | (s', OutOfFuel) => (s', OutOfFuel)
  end.

(** [return Err(e)]. *)
Definition fail {S E A} (e : E) : ST S E A := λ s, (s, Err e).
(** A read of the state. *)
Definition gets {S E A} (f : S → A) : ST S E A := λ s, (s, Ok (f s)).
(** An assignment to a part of the state. *)
Definition modify {S E} (f : S → S) : ST S E () := λ s, (f s, Ok tt).
(** A computation that does not touch the state. *)
Definition liftO {S E A} (m : outcome E A) : ST S E A := λ s, (s, m).
(** [match m { Ok(..) => .., Err(..) => .. }]: the error as a value. *)
Definition try_ {S E A} (m : ST S E A) : ST S E (E + A) := λ s,
  match m s with
  | (s', Ok a) => (s', Ok (inr a))
  | (s', Err e) => (s', Ok (inl e))
  | (s', Panic) => (s', Panic)
  | (s', OutOfFuel) => (s', OutOfFuel)
  end.

(** The error conversion of [?] and [map_err]. *)
Definition map_err {E F A} (f : E → F) (m : outcome E A) : outcome F A :=
  match m with
  | Ok a => Ok a
  | Err e => Err (f e)
  | Panic => Panic
  | OutOfFuel => OutOfFuel
  end.

(** A computation on a part of the state, its errors converted by [f]. *)
Definition zoom {S D E F A} (get : S → D) (put : D → S → S) (f : E → F) (m : ST D E A) :
    ST S F A := λ s,
  let '(d, r) := m (get s) in (put d s, map_err f r).

(** An arithmetic operation on [w]-bit integers: overflow panics. *)
Definition chk {E} (w z : Z) : outcome E Z := if decide (in_u w z) then Ok z else Panic.

(** [for x in l { body }] where the body may [return] early: it gives
    [Some b] for [return b] and [None] to go on. *)
Fixpoint for_return {S E A B} (l : list A) (body : A → ST S E (option B)) : ST S E (option B) :=
  match l with
  | [] => mret None
  | x :: l =>
      r ← body x;
      match r with Some b => mret (Some b) | None => for_return l body end
  end.

(** [for x in l { body }]. *)
Fixpoint for_each {S E A} (l : list A) (body : A → ST S E ()) : ST S E () :=
  match l with
  | [] => mret tt
  | x :: l => body x;; for_each l body
  end.

(** The range [0..n] of a loop. *)
Definition upto (n : Z) : list Z := Z.of_nat <$> seq 0 (Z.to_nat n).

(** ** Running *)
Lemma bind_run {S E A B} (m : ST S E A) (k : A → ST S E B) s s' a :
  m s = (s', Ok a) → (m ≫= k) s = k a s'.
Proof. unfold mbind, ST_bind. by intros ->. Qed.

Lemma bind_assoc {S E A B C} (m : ST S E A) (k : A → ST S E B) (h : B → ST S E C) s :
  ((m ≫= k) ≫= h) s = (m ≫= λ a, k a ≫= h) s.
Proof. unfold mbind, ST_bind. by destruct (m s) as [s' []]. Qed.

Lemma bind_ext {S E A B} (m : ST S E A) (k k' : A → ST S E B) s :
  (∀ a s', k a s' = k' a s') → (m ≫= k) s = (m ≫= k') s.
Proof. intros Hk. unfold mbind, ST_bind. destruct (m s) as [s' []]; auto. Qed.

(** ** Specifications *)
Definition spec {S E A} (m : ST S E A) (s : S) (Q : A → S → Prop) (R : E → S → Prop) : Prop :=
  match m s with
  | (s', Ok a) => Q a s'
  | (s', Err e) => R e s'
  | (_, Panic) | (_, OutOfFuel) => False
  end.

Section rules.
Context {S E : Type}.
Implicit Types s : S.

Lemma spec_ret {A} (a : A) s Q (R : E → S → Prop) : Q a s → spec (mret a) s Q R.
Proof. done. Qed.

Lemma spec_fail {A} (e : E) s (Q : A → S → Prop) (R : E → S → Prop) :
  R e s → spec (fail e) s Q R.
Proof. done. Qed.

Lemma spec_gets {A} (f : S → A) s Q (R : E → S → Prop) : Q (f s) s → spec (gets f) s Q R.
Proof. done. Qed.

Lemma spec_modify f s Q (R : E → S → Prop) : Q tt (f s) → spec (modify f) s Q R.
Proof. done. Qed.

Lemma spec_liftO {A} (m : outcome E A) s (Q : A → S → Prop) (R : E → S → Prop) P :
  ensures m P → (∀ a, P a → Q a s) → (∀ e, R e s) → spec (liftO m) s Q R.
Proof. unfold spec, liftO. destruct m; cbn; auto. Qed.

Lemma spec_bind {A B} (m : ST S E A) (k : A → ST S E B) s Q P R :
  spec m s Q R → (∀ a s', Q a s' → spec (k a) s' P R) → spec (m ≫= k) s P R.
Proof.
  unfold spec, mbind, ST_bind. destruct (m s) as [s' []]; cbn; try done.
  intros HQ Hk. by apply Hk.
Qed.

(** Steps that cannot fail. *)
Lemma spec_bind_gets {A B} (f : S → A) (k : A → ST S E B) s P R :
  spec (k (f s)) s P R → spec (gets f ≫= k) s P R.
Proof. done. Qed.

Lemma spec_bind_modify {B} (f : S → S) (k : () → ST S E B) s P R :
  spec (k tt) (f s) P R → spec (modify f ≫= k) s P R.
Proof. done. Qed.

Lemma spec_bind_ret {A B} (a : A) (k : A → ST S E B) s P R :
  spec (k a) s P R → spec (mret a ≫= k) s P R.
Proof. done. Qed.

Lemma spec_bind_Ok {A B} (m : outcome E A) a (k : A → ST S E B) s P R :
  m = Ok a → spec (k a) s P R → spec (liftO m ≫= k) s P R.
Proof. by intros ->. Qed.

Lemma spec_weaken {A} (m : ST S E A) s (Q Q' : A → S → Prop) (R R' : E → S → Prop) :
  spec m s Q R → (∀ a s', Q a s' → Q' a s') → (∀ e s', R e s' → R' e s') → spec m s Q' R'.
Proof. unfold spec. destruct (m s) as [s' []]; cbn; auto. Qed.

Lemma spec_and {A} (m : ST S E A) s (Q Q' : A → S → Prop) (R R' : E → S → Prop) :
  spec m s Q R → spec m s Q' R' →
  spec m s (λ a s', Q a s' ∧ Q' a s') (λ e s', R e s' ∧ R' e s').
Proof. unfold spec. destruct (m s) as [s' []]; cbn; auto. Qed.

Lemma spec_try {A} (m : ST S E A) s (Q : E + A → S → Prop) R :
  spec m s (λ a, Q (inr a)) (λ e, Q (inl e)) → spec (try_ m) s Q R.
Proof. unfold spec, try_. destruct (m s) as [s' []]; cbn; auto. Qed.

Lemma spec_zoom {D F A} (get : S → D) put (f : F → E) (m : ST D F A) s Q R Q' R' :
  spec m (get s) Q R →
  (∀ a d, Q a d → Q' a (put d s)) → (∀ e d, R e d → R' (f e) (put d s)) →
  spec (zoom get put f m) s Q' R'.
Proof. unfold spec, zoom. destruct (m (get s)) as [d []]; cbn; auto. Qed.

Lemma spec_bind_chk {B} w z (k : Z → ST S E B) s P R :
  in_u w z → spec (k z) s P R → spec (liftO (chk w z) ≫= k) s P R.
Proof. intros Hz. apply spec_bind_Ok. unfold chk. by rewrite decide_True. Qed.

(** A loop keeps an invariant of the state and of what is left to visit. *)
Lemma spec_for_return {A B} (body : A → ST S E (option B)) (Inv : list A → S → Prop) P R l s :
  Inv l s →
  (∀ x l s, Inv (x :: l) s →
     spec (body x) s (λ r s', match r with Some b => P (Some b) s' | None => Inv l s' end) R) →
  (∀ s, Inv [] s → P None s) →
  spec (for_return l body) s P R.
Proof.
  intros Hl Hb Hn. revert s Hl. induction l as [|x l IH]; intros s Hl; cbn [for_return].
  { apply spec_ret. auto. }
  eapply spec_bind; [by apply Hb|]. intros [b|] s' Hs; [by apply spec_ret|auto].
Qed.

Lemma spec_for_each {A} (body : A → ST S E ()) (Inv : list A → S → Prop) R l s :
  Inv l s →
  (∀ x l s, Inv (x :: l) s → spec (body x) s (λ _ s', Inv l s') R) →
  spec (for_each l body) s (λ _ s', Inv [] s') R.
Proof.
  intros Hl Hb. revert s Hl. induction l as [|x l IH]; intros s Hl; cbn [for_each].
  { by apply spec_ret. }
  eapply spec_bind; [by apply Hb|]. auto.
Qed.
End rules.

(** The two readings of a specification. *)
Lemma spec_run {S E A} (m : ST S E A) s Q R :
  spec m s Q R →
  (∃ a s', m s = (s', Ok a) ∧ Q a s') ∨ (∃ e s', m s = (s', Err e) ∧ R e s').
Proof. unfold spec. destruct (m s) as [s' []]; cbn; intros; try done; eauto 10. Qed.

Lemma spec_Ok {S E A} (m : ST S E A) s s' a Q R :
  spec m s Q R → m s = (s', Ok a) → Q a s'.
Proof. unfold spec. intros Hs Hm. by rewrite Hm in Hs. Qed.

Lemma spec_no_panic {S E A} (m : ST S E A) s Q R : spec m s Q R → no_panic (m s).2.
Proof. unfold spec. by destruct (m s) as [s' []]. Qed.

(** Splits a specification of a [bind] at its first computation. *)
Ltac sbind := eapply spec_bind.
(** Runs the steps at the head that only read or assign the state. *)
Ltac sstep := first [apply spec_bind_gets | apply spec_bind_modify | apply spec_bind_ret]; cbv beta.

(** ** Simulation

    [m] simulates [m'] through an abstraction of the state: it keeps the
    well-formed states, and if nothing has failed at its end ([ok]), then
    nothing had at its start and [m'] gives the same result and the same
    abstract state. *)
Definition simulates {S S' E A} (wf ok : S → Prop) (view : S → S')
    (m : ST S E A) (m' : ST S' E A) : Prop :=
  ∀ s, wf s → let '(s', r) := m s in
    wf s' ∧ (ok s' → ok s ∧ m' (view s) = (view s', r)).

Section simulation.
Context {S S' E : Type} (wf ok : S → Prop) (view : S → S').
Abbreviation sim := (simulates (E:=E) wf ok view).

Lemma sim_ret {A} (a : A) : sim (mret a) (mret a).
Proof. by intros s Hs. Qed.

Lemma sim_fail {A} (e : E) : sim (fail (A:=A) e) (fail e).
Proof. by intros s Hs. Qed.

Lemma sim_liftO {A} (m : outcome E A) : sim (liftO m) (liftO m).
Proof. by intros s Hs. Qed.

Lemma sim_gets {A} (f : S → A) (f' : S' → A) :
  (∀ s, f s = f' (view s)) → sim (gets f) (gets f').
Proof. intros Hf s Hs. cbn. unfold gets. by rewrite Hf. Qed.

Lemma sim_modify (f : S → S) (f' : S' → S') :
  (∀ s, wf s → wf (f s) ∧ view (f s) = f' (view s) ∧ (ok (f s) → ok s)) →
  sim (modify f) (modify f').
Proof. intros Hf s Hs. cbn. unfold modify. destruct (Hf s Hs) as (? & -> & ?). auto. Qed.

Lemma sim_bind {A B} (m : ST S E A) (m' : ST S' E A) (k : A → ST S E B) (k' : A → ST S' E B) :
  sim m m' → (∀ a, sim (k a) (k' a)) → sim (m ≫= k) (m' ≫= k').
Proof.
  intros Hm Hk s Hs. specialize (Hm s Hs). unfold mbind, ST_bind.
  destruct (m s) as [s1 [a|e| |]]; destruct Hm as [Hs1 Hm].
  - specialize (Hk a s1 Hs1). destruct (k a s1) as [s2 r]. destruct Hk as [? Hk].
    split; [done|]. intros Hok. destruct (Hk Hok) as [Hok1 Hk'].
    destruct (Hm Hok1) as [? Hm']. by rewrite Hm'.
  - split; [done|]. intros Hok. destruct (Hm Hok) as [? Hm']. by rewrite Hm'.
  - split; [done|]. intros Hok. destruct (Hm Hok) as [? Hm']. by rewrite Hm'.
  - split; [done|]. intros Hok. destruct (Hm Hok) as [? Hm']. by rewrite Hm'.
Qed.

Lemma sim_bind_chk {B} w z (k : Z → ST S E B) (k' : Z → ST S' E B) :
  (in_u w z → sim (k z) (k' z)) → sim (liftO (chk w z) ≫= k) (liftO (chk w z) ≫= k').
Proof. intros Hk s Hs. unfold chk. case_decide; [by apply Hk|done]. Qed.

Lemma sim_try {A} (m : ST S E A) m' : sim m m' → sim (try_ m) (try_ m').
Proof.
  intros Hm s Hs. specialize (Hm s Hs). unfold try_.
  destruct (m s) as [s1 [a|e| |]]; destruct Hm as [Hs1 Hm]; (split; [done|]);
    intros Hok; destruct (Hm Hok) as [? Hm']; by rewrite Hm'.
Qed.

Lemma sim_for_return {A B} (l : list A) (body : A → ST S E (option B)) body' :
  (∀ x, sim (body x) (body' x)) → sim (for_return l body) (for_return l body').
Proof.
  intros Hb. induction l as [|x l IH]; cbn; [apply sim_ret|].
  apply sim_bind; [done|]. intros [b|]; [apply sim_ret|done].
Qed.

Lemma sim_for_each {A} (l : list A) (body : A → ST S E ()) body' :
  (∀ x, sim (body x) (body' x)) → sim (for_each l body) (for_each l body').
Proof.
  intros Hb. induction l as [|x l IH]; cbn; [apply sim_ret|]. by apply sim_bind.
Qed.
End simulation.

(** Simulations of the operations of a component. *)
Create HintDb sim.
#[export] Hint Resolve sim_ret sim_fail sim_liftO : sim.

(** One step of a simulation between two instances of the same program. *)
Ltac sim_struct :=
  lazymatch goal with
  | |- simulates _ _ _ (mbind _ _) _ => apply sim_bind; [|intros ?]
  | |- simulates _ _ _ (if decide ?P then _ else _) _ => destruct (decide P)
  | |- simulates _ _ _ (match ?x with _ => _ end) _ => destruct x
  | |- simulates _ _ _ (mret _) _ => apply sim_ret
  | |- simulates _ _ _ (fail _) _ => apply sim_fail
  | |- simulates _ _ _ (liftO _) _ => apply sim_liftO
  | |- simulates _ _ _ (try_ _) _ => apply sim_try
  | |- simulates _ _ _ (for_return _ _) _ => apply sim_for_return; intros ?
  | |- simulates _ _ _ (for_each _ _) _ => apply sim_for_each; intros ?
  | |- simulates _ _ _ (gets _) _ => apply sim_gets; by intros
  end.
Ltac sim_auto := repeat first [solve [auto with sim nocore] | sim_struct].

(** ** Ranges *)
Lemma elem_of_upto n i : i ∈ upto n ↔ 0 <= i < n.
Proof.
  unfold upto. rewrite list_elem_of_fmap. split.
  - intros (k & -> & Hk%elem_of_seq). lia.
  - intros Hi. exists (Z.to_nat i). rewrite elem_of_seq. lia.
Qed.

Lemma lookup_upto n k : 0 <= n → (k < Z.to_nat n)%nat → upto n !! k = Some (Z.of_nat k).
Proof. intros Hn Hk. unfold upto. rewrite list_lookup_fmap, lookup_seq_lt; done. Qed.

Lemma len_upto n : 0 <= n → len (upto n) = n.
Proof. intros Hn. unfold upto, len. rewrite length_fmap, length_seq. lia. Qed.

Lemma upto_succ n : 0 <= n → upto (n + 1) = upto n ++ [n].
Proof.
  intros Hn. unfold upto. replace (Z.to_nat (n + 1)) with (S (Z.to_nat n)) by lia.
  rewrite seq_S, fmap_app. cbn. by rewrite Z2Nat.id by lia.
Qed.

(** ** Loops that refine folds and ranges *)
Lemma chk_ok {E} w z : in_u w z → chk (E:=E) w z = Ok z.
Proof. intros Hz. unfold chk. by rewrite decide_True. Qed.

(** A step whose result is known. *)
Lemma spec_bind_run {T E B C} (m : ST T E B) (k : B → ST T E C) s s' b P R :
  m s = (s', Ok b) → spec (k b) s' P R → spec (m ≫= k) s P R.
Proof. intros Hm. unfold spec. by rewrite (bind_run m k s s' b Hm). Qed.

(** A loop refines a fold. *)
Lemma spec_for_each_foldl {T E B X Y} (f : X → Y) (body : Y → ST T E ()) (I : T → B → Prop) (g : B → X → B) R l : ∀ s b,
  I s b → (∀ x s b, x ∈ l → I s b → spec (body (f x)) s (λ _ s', I s' (g b x)) R) →
  spec (for_each (f <$> l) body) s (λ _ s', I s' (foldl g b l)) R.
Proof.
  induction l as [|x l IH]; intros s b Hs Hb; [by apply spec_ret|]. cbn [fmap list_fmap for_each foldl].
  eapply spec_bind; [apply Hb; [by left|done]|]. intros [] s' Hs'. apply IH; [done|]. intros. apply Hb; [by right|done].
Qed.

(** A loop over a range keeps an invariant of the index. *)
Lemma spec_for_upto {T E Y} (f : Z → Y) (body : Y → ST T E ()) (I : Z → T → Prop) R n s : 0 <= n →
  I 0 s → (∀ k s, 0 <= k < n → I k s → spec (body (f k)) s (λ _ s', I (k + 1) s') R) →
  spec (for_each (f <$> upto n) body) s (λ _ s', I n s') R.
Proof.
  intros Hn Hs Hb. unfold upto. rewrite <-list_fmap_compose.
  assert (∀ m j s, (j + m = Z.to_nat n)%nat → I (Z.of_nat j) s →
    spec (for_each ((f ∘ Z.of_nat) <$> seq j m) body) s (λ _ s', I n s') R) as Hgen.
  { induction m as [|m IH]; intros j s' Hj Hs'; cbn [seq fmap list_fmap for_each].
    - apply spec_ret. by replace n with (Z.of_nat j) by lia.
    - eapply spec_bind; [apply (Hb (Z.of_nat j)); [lia|done]|]. intros [] s'' Hs''. apply IH; [lia|].
      by replace (Z.of_nat (S j)) with (Z.of_nat j + 1) by lia. }
  by apply Hgen.
Qed.
