(* ===== verification/BlockDevice.v ===== *)
(** * Block devices ([resource/block.rs])

    The trait [BlockDevice] gives random access to the bytes of a device.
    [RamDisk], an array of bytes, is its reading: a read returns the bytes
    there are, a write replaces them, and writing past the end is an error.
    [ByteDevice D] is what clients rely on: as long as the device has not
    failed ([bd_ok]), its operations do what the array does.  The file systems
    are verified over the array and transferred to every device by simulation
    ([simulates], closed under the constructs of [Effects.v]). *)

From S2P Require Import Prelude Effects.

(** ** Parts of a byte array *)

(** The [n] bytes at [off], fewer at the end of the array. *)
Definition sub (l : list Z) (off n : Z) : list Z := take (Z.to_nat n) (drop (Z.to_nat off) l).
(** The array with [src] stored at [off]. *)
Definition splice (l : list Z) (off : Z) (src : list Z) : list Z :=
  take (Z.to_nat off) l ++ src ++ drop (Z.to_nat (off + len src)) l.

Section bytes.
Implicit Types l src : list Z.

Lemma len_splice l off src :
  0 <= off → off + len src <= len l → len (splice l off src) = len l.
Proof. intros. unfold splice. len_lia. Qed.

Lemma len_sub l off n : 0 <= off → 0 <= n → off + n <= len l → len (sub l off n) = n.
Proof. intros. unfold sub. len_lia. Qed.

Lemma lookup_sub l off n i :
  0 <= off → 0 <= n →
  sub l off n !! i = if decide (Z.of_nat i < n) then l !! Z.to_nat (off + Z.of_nat i) else None.
Proof.
  intros. unfold sub. case_decide.
  - rewrite lookup_take_lt, lookup_drop by lia. f_equal. lia.
  - apply lookup_take_ge. lia.
Qed.

Lemma lookup_splice l off src i :
  0 <= off → off + len src <= len l →
  splice l off src !! i =
    if decide (off <= Z.of_nat i < off + len src) then src !! Z.to_nat (Z.of_nat i - off)
    else l !! i.
Proof.
  intros Hoff Hle. unfold splice, len in *.
  assert (length (take (Z.to_nat off) l) = Z.to_nat off) as Ht by (rewrite length_take; lia).
  destruct (decide (Z.of_nat i < off)).
  - rewrite lookup_app_l, lookup_take_lt by lia. by rewrite decide_False by lia.
  - rewrite lookup_app_r, Ht by lia. case_decide.
    + rewrite lookup_app_l by lia. f_equal. lia.
    + rewrite lookup_app_r, lookup_drop by lia. f_equal. lia.
Qed.

Lemma sub_ext l l' off n :
  0 <= off → 0 <= n → (∀ i, off <= Z.of_nat i < off + n → l !! i = l' !! i) →
  sub l off n = sub l' off n.
Proof.
  intros Hoff Hn Hl. apply list_eq. intros i. rewrite !lookup_sub by done.
  case_decide; [|done]. apply Hl. lia.
Qed.

(** A write does not change what lies elsewhere. *)
Lemma sub_splice_other l off src o n :
  0 <= off → off + len src <= len l → 0 <= o → 0 <= n →
  o + n <= off ∨ off + len src <= o → sub (splice l off src) o n = sub l o n.
Proof.
  intros ? ? ? ? Hd. apply sub_ext; [done..|]. intros i Hi.
  rewrite lookup_splice by done. by rewrite decide_False by lia.
Qed.

(** A read inside what was written. *)
Lemma sub_splice_inside l off src o n :
  0 <= off → off + len src <= len l → off <= o → 0 <= n → o + n <= off + len src →
  sub (splice l off src) o n = sub src (o - off) n.
Proof.
  intros. apply list_eq. intros i. rewrite !lookup_sub by lia. case_decide; [|done].
  rewrite lookup_splice, decide_True by lia. f_equal. lia.
Qed.

Lemma sub_splice_same l off src :
  0 <= off → off + len src <= len l → sub (splice l off src) off (len src) = src.
Proof.
  intros. pose proof (len_nonneg src). rewrite sub_splice_inside by lia.
  rewrite Z.sub_diag. unfold sub, len. by rewrite Nat2Z.id, drop_0, firstn_all.
Qed.

(** A write inside a part of the array. *)
Lemma sub_splice_around l off src o n :
  0 <= o → 0 <= n → o + n <= len l → o <= off → off + len src <= o + n →
  sub (splice l off src) o n = splice (sub l o n) (off - o) src.
Proof.
  intros. apply list_eq. intros i. rewrite lookup_sub, lookup_splice, lookup_splice, lookup_sub;
    try lia; [|by rewrite len_sub by lia; lia].
  repeat case_decide; try lia; try done; f_equal; try lia.
  all: rewrite lookup_ge_None_2; [done|]. all: unfold len in *; lia.
Qed.

Lemma splice_sub l off n : 0 <= off → 0 <= n → off + n <= len l → splice l off (sub l off n) = l.
Proof.
  intros. apply list_eq. intros i. rewrite lookup_splice, len_sub by (rewrite ?len_sub; lia).
  case_decide; [|done]. rewrite lookup_sub, decide_True by lia. f_equal. lia.
Qed.

Lemma splice_splice l off a b :
  0 <= off → off + len a <= len l → len a = len b →
  splice (splice l off a) off b = splice l off b.
Proof.
  intros ? ? Hab. apply list_eq. intros i.
  rewrite !lookup_splice by (rewrite ?len_splice; lia).
  repeat case_decide; done || lia.
Qed.

(** Parts of parts. *)
Lemma sub_sub l a n b m :
  0 <= a → 0 <= n → 0 <= b → 0 <= m → b + m <= n → sub (sub l a n) b m = sub l (a + b) m.
Proof.
  intros. apply list_eq. intros i. rewrite !lookup_sub by lia.
  case_decide; [|done]. rewrite decide_True by lia. f_equal. lia.
Qed.

Lemma sub_min l off n : 0 <= off <= len l → 0 <= n → sub l off n = sub l off (Z.min n (len l - off)).
Proof.
  intros Ho Hn. apply list_eq. intros i. rewrite !lookup_sub by lia.
  repeat case_decide; try done; try lia. apply lookup_ge_None_2. unfold len in *. lia.
Qed.

Lemma splice_around l a n b src :
  0 <= a → 0 <= n → a + n <= len l → 0 <= b → b + len src <= n →
  splice l a (splice (sub l a n) b src) = splice l (a + b) src.
Proof.
  intros. assert (len (sub l a n) = n) as Hn by (apply len_sub; lia).
  assert (len (splice (sub l a n) b src) = n) as Hs by (rewrite len_splice; lia).
  apply list_eq. intros i. rewrite (lookup_splice l a), (lookup_splice l (a + b)) by lia.
  rewrite Hs. destruct (decide (a <= Z.of_nat i < a + n)) as [Hin|Hout].
  - rewrite lookup_splice by lia.
    destruct (decide (a + b <= Z.of_nat i < a + b + len src)).
    + rewrite decide_True by lia. f_equal. lia.
    + rewrite decide_False by lia. rewrite lookup_sub by lia. rewrite decide_True by lia. f_equal. lia.
  - by rewrite decide_False by lia.
Qed.

Lemma copy_at_splice {E} l a src :
  0 <= a → a + len src <= len l → copy_at (E:=E) l a src = Ok (splice l a src).
Proof. intros. unfold copy_at. by rewrite decide_True by lia. Qed.

Lemma slice_sub {E} l a b :
  0 <= a <= b → b <= len l → slice (E:=E) l a b = Ok (sub l a (b - a)).
Proof. intros. unfold slice, get_range. by rewrite decide_True by lia. Qed.

Lemma set_index_splice {E} l i x :
  0 <= i < len l → set_index (E:=E) l i x = Ok (splice l i [x]).
Proof.
  intros Hi. unfold set_index, splice. rewrite decide_True by done. f_equal.
  rewrite insert_take_drop by (unfold len in *; lia). do 3 f_equal.
  change (len [x]) with 1. lia.
Qed.

(** Adjacent writes are one write. *)
Lemma splice_app l a x y b :
  0 <= a → b = a + len x → a + len x + len y <= len l →
  splice (splice l a x) b y = splice l a (x ++ y).
Proof.
  intros Ha -> Hle. pose proof (len_nonneg x). pose proof (len_nonneg y).
  apply list_eq. intros i. rewrite !lookup_splice by (rewrite ?len_splice, ?len_app; lia).
  rewrite len_app. unfold len in *. repeat case_decide; try lia; try done.
  - rewrite lookup_app_r by lia. f_equal. lia.
  - rewrite lookup_app_l by lia. done.
Qed.

Lemma Forall_sub P l off n : Forall P l → Forall P (sub l off n).
Proof. intros. by apply Forall_take, Forall_drop. Qed.

Lemma Forall_splice P l off src : Forall P l → Forall P src → Forall P (splice l off src).
Proof. intros. unfold splice. rewrite !Forall_app. auto using Forall_take, Forall_drop. Qed.
End bytes.
#[export] Hint Resolve Forall_sub Forall_splice : panda.

(** ** The trait and its contract *)
Inductive BlockError : Type := BlkInvalidOffset | BlkNotWritable | BlkNotReadable | BlkIoError.
#[export] Instance BlockError_eq_dec : EqDecision BlockError.
Proof. solve_decision. Defined.

(** [read_at] is given the length of the caller's buffer and returns the bytes
    it stores at the buffer's start; [write_at] returns how many it took. *)
Class BlockDevice (D : Type) : Type := {
  bd_read_at : Z → Z → ST D BlockError (list Z);
  bd_write_at : Z → list Z → ST D BlockError Z;
  bd_size : D → Z;
}.

(** ** The array as a device *)
Definition RamDisk : Type := list Z.

Definition ram_read_at (off n : Z) : ST RamDisk BlockError (list Z) := gets (λ d, sub d off n).
Definition ram_write_at (off : Z) (src : list Z) : ST RamDisk BlockError Z := λ d,
  if decide (src = []) then (d, Ok 0)
  else if decide (len d <= off) then (d, Err BlkInvalidOffset)
  else let k := Z.min (len src) (len d - off) in
       (splice d off (take (Z.to_nat k) src), Ok k).

#[export] Instance RamDisk_dev : BlockDevice RamDisk :=
  {| bd_read_at := ram_read_at; bd_write_at := ram_write_at; bd_size := len |}.

(** ** The contract *)

Class ByteDevice (D : Type) `{!BlockDevice D} : Type := {
  bd_wf : D → Prop;
  bd_ok : D → Prop;
  bd_bytes : D → list Z;
  bd_size_bytes d : bd_wf d → bd_size d = len (bd_bytes d);
  bd_read_refines off n : 0 <= off → 0 <= n →
    simulates bd_wf bd_ok bd_bytes (bd_read_at off n) (ram_read_at off n);
  bd_write_refines off src : 0 <= off →
    simulates bd_wf bd_ok bd_bytes (bd_write_at off src) (ram_write_at off src);
}.

Lemma ram_read_u8 (d : RamDisk) off n bs : Forall is_u8 d → bs = sub d off n → Forall is_u8 bs.
Proof. intros ? ->. by apply Forall_sub. Qed.

Lemma ram_write_u8 (d : RamDisk) off src :
  Forall is_u8 d → Forall is_u8 src → Forall is_u8 (ram_write_at off src d).1.
Proof.
  intros. unfold ram_write_at. repeat case_decide; cbn; try done.
  by apply Forall_splice, Forall_take.
Qed.

(** A write that lies inside the array. *)
Lemma ram_write_inside (d : RamDisk) off src :
  0 <= off → off + len src <= len d → ram_write_at off src d = (splice d off src, Ok (len src)).
Proof.
  intros Ho Hle. unfold ram_write_at. case_decide as Hs.
  - subst src. unfold splice. change (len (@nil Z)) with 0. rewrite Z.add_0_r. cbn [app].
    by rewrite take_drop.
  - assert (0 < len src) by (destruct src; [done|len_lia]). rewrite decide_False by lia.
    rewrite Z.min_l by lia. replace (Z.to_nat (len src)) with (length src) by len_lia.
    by rewrite firstn_all.
Qed.

#[export, refine] Instance RamDisk_bytes : ByteDevice RamDisk :=
  {| bd_wf := λ _, True; bd_ok := λ _, True; bd_bytes := λ d, d |}.
Proof.
  - done.
  - intros off n Ho Hn d Hd. by split.
  - intros off src Ho d Hd. cbn. by destruct (ram_write_at off src d).
Defined.
