(* ===== verification/VirtioBlock.v ===== *)
(** * Byte access over sectors ([devices/virtio_block/mod.rs])

    [VirtioBlockDevice] implements the block device trait over transfers of
    whole sectors: aligned requests go straight to the device, others read the
    sectors around them and, for a write, put the changed sectors back.  The
    transfers are the device's: [SectorDevice] states what they do.  The main
    result is an instance: the driver keeps the contract [ByteDevice] that the
    file system relies on. *)

From S2P Require Import Prelude Effects BlockDevice.

(** [sector_size] of [init_from_pci_device]. *)
Definition SECTOR_SIZE : Z := 512.

(** ** The driver *)

(** [sec_read s n] awaits the read of [n] bytes from sector [s] on and
    [sec_write s data] the write of [data]. *)
Class SectorTransfer (T : Type) : Type := {
  sec_capacity : T → Z;
  sec_read : Z → Z → ST T BlockError (list Z);
  sec_write : Z → list Z → ST T BlockError ();
}.

Section driver.
Context {T : Type} `{!SectorTransfer T}.

(** [dev.capacity_sectors * dev.sector_size as u64]. *)
Definition total_size : ST T BlockError Z :=
  cap ← gets sec_capacity; liftO (chk 64 (cap * SECTOR_SIZE)).

(** [(end_offset + sector_size - 1) / sector_size - start_sector]. *)
Definition sectors_spanned (offset to_do : Z) : outcome BlockError Z :=
  e ← chk 64 (offset + to_do + SECTOR_SIZE);
  Ok ((e - 1) / SECTOR_SIZE - offset / SECTOR_SIZE).

Definition VirtioBlockDevice_read_at (offset n : Z) : ST T BlockError (list Z) :=
  if decide (n = 0) then mret []
  else
    total ← total_size;
    if decide (total <= offset) then mret []
    else
      let to_read := Z.min n (total - offset) in
      let start_sector := offset / SECTOR_SIZE in
      let offset_in_sector := offset mod SECTOR_SIZE in
      num_sectors ← liftO (sectors_spanned offset to_read);
      if decide (offset_in_sector = 0 ∧ to_read mod SECTOR_SIZE = 0)
      then sec_read start_sector to_read
      else
        sector_buf ← sec_read start_sector (num_sectors * SECTOR_SIZE);
        liftO (slice sector_buf offset_in_sector (offset_in_sector + to_read)).

Definition VirtioBlockDevice_write_at (offset : Z) (buf : list Z) : ST T BlockError Z :=
  if decide (buf = []) then mret 0
  else
    total ← total_size;
    if decide (total <= offset) then fail BlkInvalidOffset
    else
      let to_write := Z.min (len buf) (total - offset) in
      let start_sector := offset / SECTOR_SIZE in
      let offset_in_sector := offset mod SECTOR_SIZE in
      num_sectors ← liftO (sectors_spanned offset to_write);
      let data := take (Z.to_nat to_write) buf in
      if decide (offset_in_sector = 0 ∧ to_write mod SECTOR_SIZE = 0)
      then sec_write start_sector data;; mret to_write
      else
        sector_buf ← sec_read start_sector (num_sectors * SECTOR_SIZE);
        sector_buf ← liftO (copy_at sector_buf offset_in_sector data);
        sec_write start_sector sector_buf;;
        mret to_write.

#[export] Instance VirtioBlock_dev : BlockDevice T := {|
  bd_read_at := VirtioBlockDevice_read_at;
  bd_write_at := VirtioBlockDevice_write_at;
  bd_size := λ d, sec_capacity d * SECTOR_SIZE;
|}.
End driver.

(** ** What the device does

    Transfers of whole sectors inside the capacity read and replace the bytes
    of the disk, unless the device fails. *)
Class SectorDevice (T : Type) `{!SectorTransfer T} : Type := {
  sd_wf : T → Prop;
  sd_ok : T → Prop;
  sd_bytes : T → list Z;
  sd_size d : sd_wf d →
    len (sd_bytes d) = sec_capacity d * SECTOR_SIZE ∧ sec_capacity d * SECTOR_SIZE + SECTOR_SIZE < 2 ^ 64;
  sd_read d s n : sd_wf d → 0 <= s → 0 <= n → n mod SECTOR_SIZE = 0 →
    s * SECTOR_SIZE + n <= len (sd_bytes d) →
    let '(d', r) := sec_read s n d in
    sd_wf d' ∧ sec_capacity d' = sec_capacity d ∧ (∀ buf, r = Ok buf → len buf = n) ∧
    (sd_ok d' → sd_ok d ∧ sd_bytes d' = sd_bytes d ∧ r = Ok (sub (sd_bytes d) (s * SECTOR_SIZE) n));
  sd_write d s data : sd_wf d → 0 <= s → len data mod SECTOR_SIZE = 0 →
    s * SECTOR_SIZE + len data <= len (sd_bytes d) →
    let '(d', r) := sec_write s data d in
    sd_wf d' ∧ sec_capacity d' = sec_capacity d ∧
    (sd_ok d' → sd_ok d ∧ sd_bytes d' = splice (sd_bytes d) (s * SECTOR_SIZE) data ∧ r = Ok tt);
}.

(** ** The sectors around a request *)
Lemma span_bounds off n size cap :
  0 <= off → 0 < n → off + n <= size → size = cap * SECTOR_SIZE → size + SECTOR_SIZE < 2 ^ 64 →
  ∃ k, sectors_spanned off n = Ok k ∧
    off mod SECTOR_SIZE + n <= k * SECTOR_SIZE ∧
    off / SECTOR_SIZE * SECTOR_SIZE + k * SECTOR_SIZE <= size.
Proof.
  intros Ho Hn Hle Hs H64. unfold sectors_spanned, SECTOR_SIZE in *.
  unfold chk. rewrite decide_True by (unfold in_u; lia). eexists. split; [done|].
  pose proof (Z.div_mod off 512). pose proof (Z.mod_pos_bound off 512).
  pose proof (Z.div_mod (off + n + 512 - 1) 512). pose proof (Z.mod_pos_bound (off + n + 512 - 1) 512).
  assert ((off + n + 512 - 1) / 512 <= cap) by (apply Z.lt_succ_r, Z.div_lt_upper_bound; lia).
  lia.
Qed.

Section contract.
Context {T : Type} `{SectorDevice T}.

Lemma total_size_run d : sd_wf d → total_size d = (d, Ok (len (sd_bytes d))).
Proof.
  intros Hd. destruct (sd_size d Hd) as [Hl Hlt]. pose proof (len_nonneg (sd_bytes d)).
  unfold total_size, gets, mbind, ST_bind, liftO, chk. rewrite <- Hl in *.
  rewrite decide_True; [done|]. unfold in_u, SECTOR_SIZE in *. lia.
Qed.

Lemma virtio_read_refines off n :
  0 <= off → 0 <= n →
  simulates sd_wf sd_ok sd_bytes (VirtioBlockDevice_read_at off n) (ram_read_at off n).
Proof.
  intros Ho Hn d Hd. unfold VirtioBlockDevice_read_at, ram_read_at, gets.
  destruct (sd_size d Hd) as [Hsz H64]. case_decide as Hz.
  { subst n. cbn. by unfold sub. }
  unfold mbind at 1, ST_bind at 1. rewrite (total_size_run d Hd).
  destruct (decide (len (sd_bytes d) <= off)) as [Hpast|Hin].
  { cbn. split; [done|]. unfold sub. by rewrite drop_ge, take_nil by (unfold len in *; lia). }
  set (m := Z.min n (len (sd_bytes d) - off)).
  assert (sub (sd_bytes d) off n = sub (sd_bytes d) off m) as ->.
  { apply sub_min; lia. }
  destruct (span_bounds off m (len (sd_bytes d)) (sec_capacity d)) as (k & Hk & Hb1 & Hb2); [lia..|].
  unfold mbind, ST_bind, liftO. rewrite Hk.
  pose proof (Z.div_mod off SECTOR_SIZE). pose proof (Z.mod_pos_bound off SECTOR_SIZE).
  pose proof (Z.div_pos off SECTOR_SIZE). unfold SECTOR_SIZE in *.
  case_decide as Hfast.
  - pose proof (sd_read d (off / 512) m Hd) as Hr. unfold SECTOR_SIZE in Hr.
    destruct (sec_read _ _ d) as [d' r]. destruct Hr as (? & _ & _ & Hr); [lia..|].
    split; [done|]. intros Hok. destruct (Hr Hok) as (? & -> & ->). split; [done|]. do 3 f_equal. lia.
  - pose proof (sd_read d (off / 512) (k * 512) Hd) as Hr. unfold SECTOR_SIZE in Hr.
    destruct (sec_read _ _ d) as [d' r].
    destruct Hr as (? & _ & _ & Hr); [lia|lia|by rewrite Z.mod_mul by lia|lia|].
    assert (sd_ok d' → r = Ok (sub (sd_bytes d) (off / 512 * 512) (k * 512))) as Hr' by (intros; by apply Hr).
    destruct r as [buf|e| |]; (split; [done|]); intros Hok;
      specialize (Hr' Hok); simplify_eq; destruct (Hr Hok) as (? & -> & _); split; try done.
    rewrite slice_sub by (rewrite ?len_sub; lia). rewrite sub_sub by lia. do 3 f_equal; lia.
Qed.
Lemma virtio_write_refines off src :
  0 <= off →
  simulates sd_wf sd_ok sd_bytes (VirtioBlockDevice_write_at off src) (ram_write_at off src).
Proof.
  intros Ho d Hd. unfold VirtioBlockDevice_write_at, ram_write_at.
  destruct (sd_size d Hd) as [Hsz H64]. case_decide as Hz; [done|].
  assert (0 < len src) by (destruct src; [done|len_lia]).
  unfold mbind at 1, ST_bind at 1. rewrite (total_size_run d Hd).
  destruct (decide (len (sd_bytes d) <= off)) as [Hpast|Hin]; [done|].
  set (m := Z.min (len src) (len (sd_bytes d) - off)).
  assert (len (take (Z.to_nat m) src) = m) as Hlm by (unfold m; len_lia).
  set (data := take (Z.to_nat m) src) in *.
  destruct (span_bounds off m (len (sd_bytes d)) (sec_capacity d)) as (k & Hk & Hb1 & Hb2); [lia..|].
  unfold mbind, ST_bind, liftO. rewrite Hk.
  pose proof (Z.div_mod off SECTOR_SIZE). pose proof (Z.mod_pos_bound off SECTOR_SIZE).
  pose proof (Z.div_pos off SECTOR_SIZE). unfold SECTOR_SIZE in *.
  case_decide as Hfast.
  - pose proof (sd_write d (off / 512) data Hd) as Hw. unfold SECTOR_SIZE in Hw.
    destruct (sec_write _ _ d) as [d' r]. destruct Hw as (? & _ & Hw); [lia|rewrite Hlm; apply Hfast|lia|].
    destruct r as [[]|e| |]; (split; [done|]); intros Hok; destruct (Hw Hok) as (? & Hb & ?); try done.
    split; [done|]. rewrite Hb. by replace (off / 512 * 512) with off by lia.
  - pose proof (sd_read d (off / 512) (k * 512) Hd) as Hr. unfold SECTOR_SIZE in Hr.
    destruct (sec_read _ _ d) as [d1 r].
    destruct Hr as (Hd1 & Hc1 & Hlen & Hr); [lia|lia|by rewrite Z.mod_mul by lia|lia|].
    destruct (sd_size d1 Hd1) as [Hsz1 _]. rewrite Hc1 in Hsz1. unfold SECTOR_SIZE in Hsz1.
    destruct r as [buf|e| |].
    2-4: split; [done|]; intros Hok; destruct (Hr Hok) as (? & ? & ?); done.
    specialize (Hlen buf eq_refl). rewrite copy_at_splice by lia.
    assert (len (splice buf (off mod 512) data) = k * 512) as Hls by (rewrite len_splice; lia).
    pose proof (sd_write d1 (off / 512) (splice buf (off mod 512) data) Hd1) as Hw.
    unfold SECTOR_SIZE in Hw. destruct (sec_write _ _ d1) as [d2 r].
    destruct Hw as (? & _ & Hw); [lia|rewrite Hls; by apply Z.mod_mul|lia|].
    destruct r as [[]|e| |]; (split; [done|]); intros Hok;
      destruct (Hw Hok) as (Hok1 & Hb2' & Hr2); try done.
    destruct (Hr Hok1) as (? & Hb1' & Hbuf). simplify_eq. split; [done|].
    rewrite Hb2', Hb1', splice_around by lia. by replace (off / 512 * 512 + off mod 512) with off by lia.
Qed.

(** The driver over sectors is a byte device. *)
#[export, refine] Instance VirtioBlock_bytes : ByteDevice T :=
  {| bd_wf := sd_wf; bd_ok := sd_ok; bd_bytes := sd_bytes |}.
Proof.
  - intros d Hd. cbn. symmetry. apply sd_size, Hd.
  - apply virtio_read_refines.
  - apply virtio_write_refines.
Defined.
End contract.

(** ** A disk whose transfers fail on demand *)
Record FaultyDisk : Type := { fd_data : list Z; fd_faults : list bool; fd_failed : bool }.

(** The next transfer fails if the script says so. *)
Definition fd_transfer {A} (f : list Z → list Z * A) : ST FaultyDisk BlockError A := λ d,
  match fd_faults d with
  | true :: rest =>
      ({| fd_data := fd_data d; fd_faults := rest; fd_failed := true |}, Err BlkIoError)
  | rest =>
      let '(data, a) := f (fd_data d) in
      ({| fd_data := data; fd_faults := tail rest; fd_failed := fd_failed d |}, Ok a)
  end.

#[export] Instance FaultyDisk_transfer : SectorTransfer FaultyDisk := {|
  sec_capacity := λ d, len (fd_data d) / SECTOR_SIZE;
  sec_read := λ s n, fd_transfer (λ data, (data, sub data (s * SECTOR_SIZE) n));
  sec_write := λ s src, fd_transfer (λ data, (splice data (s * SECTOR_SIZE) src, tt));
|}.

Definition fd_wf (d : FaultyDisk) : Prop :=
  len (fd_data d) mod SECTOR_SIZE = 0 ∧ len (fd_data d) + SECTOR_SIZE < 2 ^ 64.

Lemma fd_capacity d : fd_wf d → len (fd_data d) = len (fd_data d) / SECTOR_SIZE * SECTOR_SIZE.
Proof. intros [Hm _]. pose proof (Z.div_mod (len (fd_data d)) SECTOR_SIZE). unfold SECTOR_SIZE in *. lia. Qed.

#[export, refine] Instance FaultyDisk_sectors : SectorDevice FaultyDisk :=
  {| sd_wf := fd_wf; sd_ok := λ d, fd_failed d = false; sd_bytes := fd_data |}.
Proof.
  - intros d Hd. cbn. rewrite <- fd_capacity by done. split; [done|apply Hd].
  - intros d s n Hd Hs Hn Hm Hle. cbn. unfold fd_transfer. unfold SECTOR_SIZE in *.
    destruct (fd_faults d) as [|[] rest]; cbn; split_and!; try done;
      intros buf Hb; simplify_eq; apply len_sub; lia.
  - intros d s data Hd Hs Hm Hle. cbn. unfold fd_transfer.
    assert (len (splice (fd_data d) (s * SECTOR_SIZE) data) = len (fd_data d)) as Hl
      by (apply len_splice; unfold SECTOR_SIZE in *; lia).
    destruct (fd_faults d) as [|[] rest]; cbn; rewrite ?Hl; split_and!; try done;
      unfold fd_wf; cbn; rewrite Hl; apply Hd.
Defined.

(** C15.  Byte access over sectors is byte access: for every disk of sectors
    that has not failed, [read_at] returns the bytes there are from any offset,
    aligned or not, shortened at the end of the device, and [write_at] replaces
    exactly the bytes it was given, leaving the rest of the sectors it had to
    rewrite as they were.  The aligned path and the read-modify-write path
    agree with the same array. *)
Theorem virtio_block_refines_array {T} `{SectorDevice T} off n src :
  0 <= off → 0 <= n →
  simulates sd_wf sd_ok sd_bytes (VirtioBlockDevice_read_at off n) (ram_read_at off n) ∧
  simulates sd_wf sd_ok sd_bytes (VirtioBlockDevice_write_at off src) (ram_write_at off src).
Proof.
  intros Ho Hn. split; [by apply virtio_read_refines|by apply virtio_write_refines].
Qed.

(** Two sectors: an unaligned write over the border, read back unaligned. *)
Lemma virtio_block_refines_array_witness :
  let d := {| fd_data := replicate 1024 7; fd_faults := []; fd_failed := false |} in
  simulates sd_wf sd_ok sd_bytes (VirtioBlockDevice_read_at 511 2) (ram_read_at 511 2) ∧
  (VirtioBlockDevice_write_at 511 [1; 2] d).2 = Ok 2 ∧
  (VirtioBlockDevice_read_at 510 4 (VirtioBlockDevice_write_at 511 [1; 2] d).1).2 = Ok [7; 1; 2; 7].
Proof.
  split; [apply (virtio_block_refines_array 511 2 []); lia|]. split; by vm_compute.
Defined.
