(* ===== verification/FsTypes.v ===== *)
(** * Types of the file system interface ([vfs/mod.rs])

    Errors, metadata, directory entries and seek positions, shared by the file
    systems and the mount table, and the file over a raw block device. *)

From S2P Require Import Prelude Effects BlockDevice.

Inductive FsError : Type :=
| FsNotFound | FsInvalidOffset | FsNotReadable | FsNotWritable | FsNotSeekable | FsNoSpace
| FsAlreadyExists | FsNotEmpty | FsIsDirectory | FsNotDirectory | FsReadOnlyFs | FsIoError.
#[export] Instance FsError_eq_dec : EqDecision FsError.
Proof. solve_decision. Defined.

(** [impl From<BlockError> for FsError]. *)
Definition FsError_from (e : BlockError) : FsError :=
  match e with
  | BlkInvalidOffset => FsInvalidOffset
  | BlkNotWritable => FsNotWritable
  | BlkNotReadable => FsNotReadable
  | BlkIoError => FsIoError
  end.

Record FileStat : Type := {
  st_size : Z; st_is_dir : bool; st_mode : Z; st_inode : Z; st_nlinks : Z;
  st_mtime : Z; st_ctime : Z; st_atime : Z;
}.

Record FsDirEntry : Type := { fde_name : list Z; fde_is_dir : bool }.

Inductive VfsSeekFrom : Type :=
| SeekStart (n : Z)
| SeekCurrent (n : Z)
| SeekEnd (n : Z).

(** [let new_pos = match pos { .. }] of the files: the casts of [u64] to [i64]
    wrap, the additions are checked. *)
Definition seek_target {E} (pos size : Z) (whence : VfsSeekFrom) : outcome E Z :=
  let add a n := if decide (in_i 64 (a + n)) then Ok (a + n) else Panic in
  match whence with
  | SeekStart n => Ok (wrap_i 64 n)
  | SeekCurrent n => add (wrap_i 64 pos) n
  | SeekEnd n => add (wrap_i 64 size) n
  end.

(** ** A block device as a file ([BlockDeviceFile]) *)
Section block_device_file.
Context {D : Type} `{!BlockDevice D}.

Record BlockDeviceFile : Type := { bdf_device : D; bdf_pos : Z }.

(** A device operation from inside a computation on the file. *)
Definition bdf_device_op {A} (m : ST D BlockError A) : ST BlockDeviceFile FsError A :=
  zoom bdf_device (λ d f, {| bdf_device := d; bdf_pos := bdf_pos f |}) FsError_from m.

(** [self.pos += n]. *)
Definition bdf_advance (n : Z) : ST BlockDeviceFile FsError () :=
  pos ← gets bdf_pos;
  pos ← liftO (chk 64 (pos + n));
  modify (λ f, {| bdf_device := bdf_device f; bdf_pos := pos |}).

Definition BlockDeviceFile_read (n : Z) : ST BlockDeviceFile FsError (list Z) :=
  pos ← gets bdf_pos;
  bs ← bdf_device_op (bd_read_at pos n);
  bdf_advance (len bs);; mret bs.

Definition BlockDeviceFile_write (buf : list Z) : ST BlockDeviceFile FsError Z :=
  pos ← gets bdf_pos;
  n ← bdf_device_op (bd_write_at pos buf);
  bdf_advance n;; mret n.

Definition BlockDeviceFile_seek (whence : VfsSeekFrom) : ST BlockDeviceFile FsError Z :=
  pos ← gets bdf_pos;
  size ← gets (λ f, bd_size (bdf_device f));
  new_pos ← liftO (seek_target pos size whence);
  if decide (new_pos < 0) then fail FsInvalidOffset
  else modify (λ f, {| bdf_device := bdf_device f; bdf_pos := new_pos |});; mret new_pos.

Definition BlockDeviceFile_stat (f : BlockDeviceFile) : FileStat :=
  {| st_size := bd_size (bdf_device f); st_is_dir := false; st_mode := 0x1B0; st_inode := 0;
     st_nlinks := 1; st_mtime := 0; st_ctime := 0; st_atime := 0 |}.
End block_device_file.
