(* ===== verification/Devices.v ===== *)
(** * Devices by path, and who owns them
    ([panda-kernel/src/device_address.rs], [device_path.rs], [pci.rs] the class
    registry and the enumeration, [devices/claims.rs]) *)

From Stdlib Require Import Ascii String.
From S2P Require Import Prelude Utf8 Text BTree FsTypes.
#[local] Open Scope Z_scope.
#[local] Open Scope list_scope.

(** ** Addresses *)
Inductive DeviceAddress := Pci (bus device function : Z).

#[export] Instance DeviceAddress_eq_dec : EqDecision DeviceAddress.
Proof. solve_decision. Defined.
#[export] Instance DeviceAddress_countable : Countable DeviceAddress.
Proof. refine (inj_countable' (λ a, match a with Pci b d f => (b, d, f) end) (λ t, match t with (b, d, f) => Pci b d f end) _). by intros []. Qed.

Definition COLON : Z := 58.
Definition PERIOD : Z := 46.
Definition SEP : Z := 47.

Definition parse_bdf (addr : str) : option DeviceAddress :=
  '(bus_str, rest) ← split_once COLON addr;
  '(device_str, function_str) ← split_once PERIOD rest;
  bus ← parse_uint 16 255 bus_str;
  device ← parse_uint 16 255 device_str;
  function ← parse_uint 16 255 function_str;
  Some (Pci bus device function).

(** [impl Display for DeviceAddress]. *)
Definition fmt_address (a : DeviceAddress) : str :=
  match a with Pci bus device function => lit "pci/" ++ hex2 bus ++ [COLON] ++ hex2 device ++ [PERIOD] ++ hex function end.

(** ** Classes *)
Inductive DeviceClass :=
  Storage | Network | Display | Multimedia | Memory | Bridge | Serial | System | Input | Usb | Wireless.

#[export] Instance DeviceClass_eq_dec : EqDecision DeviceClass.
Proof. solve_decision. Defined.

Definition DeviceClass_ALL : list DeviceClass :=
  [Storage; Network; Display; Multimedia; Memory; Bridge; Serial; System; Input; Usb; Wireless].

Definition DeviceClass_code (c : DeviceClass) : Z :=
  match c with
  | Storage => 0x01 | Network => 0x02 | Display => 0x03 | Multimedia => 0x04 | Memory => 0x05 | Bridge => 0x06
  | Serial => 0x07 | System => 0x08 | Input => 0x09 | Usb => 0x0C | Wireless => 0x0D
  end.

Definition DeviceClass_name (c : DeviceClass) : str :=
  match c with
  | Storage => lit "storage" | Network => lit "network" | Display => lit "display" | Multimedia => lit "multimedia"
  | Memory => lit "memory" | Bridge => lit "bridge" | Serial => lit "serial" | System => lit "system"
  | Input => lit "input" | Usb => lit "usb" | Wireless => lit "wireless"
  end.

(** [from_name] and [from_code]: the class of that name and code. *)
Definition DeviceClass_from_name (name : str) : option DeviceClass :=
  if decide (name = lit "storage") then Some Storage
  else if decide (name = lit "network") then Some Network
  else if decide (name = lit "display") then Some Display
  else if decide (name = lit "multimedia") then Some Multimedia
  else if decide (name = lit "memory") then Some Memory
  else if decide (name = lit "bridge") then Some Bridge
  else if decide (name = lit "serial") then Some Serial
  else if decide (name = lit "system") then Some System
  else if decide (name = lit "input") then Some Input
  else if decide (name = lit "usb") then Some Usb
  else if decide (name = lit "wireless") then Some Wireless
  else None.

Definition DeviceClass_from_code (code : Z) : option DeviceClass :=
  if decide (code = 0x01) then Some Storage
  else if decide (code = 0x02) then Some Network
  else if decide (code = 0x03) then Some Display
  else if decide (code = 0x04) then Some Multimedia
  else if decide (code = 0x05) then Some Memory
  else if decide (code = 0x06) then Some Bridge
  else if decide (code = 0x07) then Some Serial
  else if decide (code = 0x08) then Some System
  else if decide (code = 0x09) then Some Input
  else if decide (code = 0x0C) then Some Usb
  else if decide (code = 0x0D) then Some Wireless
  else None.

(** ** The registry by class *)
Abbreviation ClassRegistry := (btree (list DeviceAddress)).
Implicit Types reg : ClassRegistry.

Definition register_device_class (class_code : Z) (address : DeviceAddress) reg : ClassRegistry :=
  bt_insert class_code (default [] (bt_get class_code reg) ++ [address]) reg.
Definition get_device_by_class (class_code index : Z) reg : option DeviceAddress :=
  devices ← bt_get class_code reg; devices !! Z.to_nat index.
Definition list_device_classes reg : list Z := reg.*1.
Definition count_devices_in_class (class_code : Z) reg : Z := match bt_get class_code reg with Some v => len v | None => 0 end.

(** ** The enumeration of the bus *)
Record PciSegmentGroup := mkGroup { group_id : Z; base_address : Z; bus_number_start : Z; bus_number_end : Z }.
Record PciDevice := mkPci { pd_base : Z; pd_segment : Z; pd_bus : Z; pd_slot : Z; pd_function : Z }.

Definition PciDevice_new (g : PciSegmentGroup) (bus slot function : Z) : PciDevice :=
  mkPci (base_address g + (bus * 256 + slot * 8 + function) * 4096) (group_id g) bus slot function.

Section enumeration.
(** The bytes of the configuration space, by address. *)
Context (ecam : Z → Z).

Definition pci_read8 (d : PciDevice) (offset : Z) : Z := ecam (pd_base d + offset).
Definition pci_read16 (d : PciDevice) (offset : Z) : Z := pci_read8 d offset + 256 * pci_read8 d (offset + 1).
Definition vendor_id (d : PciDevice) : Z := pci_read16 d 0x00.
Definition class_code (d : PciDevice) : Z := pci_read8 d 0x0B.
Definition header_type (d : PciDevice) : Z := pci_read8 d 0x0E.
Definition is_multifunction (d : PciDevice) : bool := negb (bool_decide (Z.land (header_type d) 0x80 = 0)).

(** [PciSegmentGroup::device]. *)
Definition group_device (g : PciSegmentGroup) (bus slot function : Z) : option PciDevice :=
  let device := PciDevice_new g bus slot 0 in
  if decide (vendor_id device = 0xffff) then None
  else if decide (0 < function) then
    if negb (is_multifunction device) then None
    else
      let device := PciDevice_new g bus slot function in
      if decide (vendor_id device = 0xffff) then None else Some device
  else Some device.

Fixpoint get_pci_segment_group (groups : list PciSegmentGroup) (num : Z) : option PciSegmentGroup :=
  match groups with
  | [] => None
  | g :: groups => if decide (group_id g = num) then Some g else get_pci_segment_group groups num
  end.

Definition pci_device (groups : list PciSegmentGroup) (group bus slot function : Z) : option PciDevice :=
  g ← get_pci_segment_group groups group; group_device g bus slot function.

(** The slots of one bus: the loop stops at the first without a device. *)
Fixpoint enumerate_slots (groups : list PciSegmentGroup) (group bus : Z) (slots : list Z) reg : ClassRegistry :=
  match slots with
  | [] => reg
  | slot :: slots =>
      match pci_device groups group bus slot 0 with
      | None => reg
      | Some d => enumerate_slots groups group bus slots (register_device_class (class_code d) (Pci (pd_bus d) (pd_slot d) (pd_function d)) reg)
      end
  end.

(** [lo..hi]. *)
Definition range_between (lo hi : Z) : list Z := (λ i, lo + Z.of_nat i) <$> seq 0 (Z.to_nat (hi - lo)).

Definition enumerate_pci_devices (groups : list PciSegmentGroup) reg : ClassRegistry :=
  foldl (λ reg g,
    foldl (λ reg bus, enumerate_slots groups (group_id g) bus (range_between 0 31) reg) reg (range_between (bus_number_start g) (bus_number_end g)))
    reg groups.
End enumeration.

(** ** Paths *)
Definition strip_slash (path : str) : str := match strip_prefix [SEP] path with Some p => p | None => path end.

Definition resolve_pci (path : str) reg : option DeviceAddress :=
  match split_once SEP path with
  | Some (class_name, index_str) =>
      class ← DeviceClass_from_name class_name;
      index ← parse_uint 10 (2 ^ 64 - 1) index_str;
      get_device_by_class (DeviceClass_code class) index reg
  | None => parse_bdf path
  end.

Definition resolve_device (path : str) reg : option DeviceAddress :=
  match strip_prefix (lit "pci/") (strip_slash path) with
  | Some rest => resolve_pci rest reg
  | None => None
  end.

Definition list_devices_at (path : str) reg : option (list FsDirEntry) :=
  let path := strip_slash path in
  if decide (path = []) then Some [{| fde_name := lit "pci"; fde_is_dir := true |}]
  else if decide (path = lit "pci") then
    Some (omap (λ code, (λ class, {| fde_name := DeviceClass_name class; fde_is_dir := true |}) <$> DeviceClass_from_code code) (list_device_classes reg))
  else
    match strip_prefix (lit "pci/") path with
    | Some class_name =>
        if decide (SEP ∈ class_name) then None
        else
          class ← DeviceClass_from_name class_name;
          Some ((λ i, {| fde_name := decimal (Z.of_nat i); fde_is_dir := false |}) <$> seq 0 (Z.to_nat (count_devices_in_class (DeviceClass_code class) reg)))
    | None => None
    end.

(** ** Claims *)
Inductive ClaimOwner := OwnerMount | OwnerRawOpen | OwnerDisplay.
Abbreviation Claims := (gmap DeviceAddress ClaimOwner).
Record ClaimGuard := mkGuard { guard_address : DeviceAddress; guard_owner : ClaimOwner }.

(** [None] is [ClaimError::Busy]. *)
Definition claim (address : DeviceAddress) (owner : ClaimOwner) (claims : Claims) : Claims * option ClaimGuard :=
  match claims !! address with
  | Some _ => (claims, None)
  | None => (<[address := owner]> claims, Some (mkGuard address owner))
  end.
Definition drop_guard (g : ClaimGuard) (claims : Claims) : Claims := delete (guard_address g) claims.
Definition list_devices_in_class (class_code : Z) reg : list DeviceAddress := default [] (bt_get class_code reg).

(** ** Addresses and their text *)
Definition address_ok (a : DeviceAddress) : Prop := match a with Pci b d f => is_u8 b ∧ is_u8 d ∧ is_u8 f end.

Lemma hex_chars n c : 0 <= n < 256 → c ∈ hex n ∨ c ∈ hex2 n → 48 <= c <= 57 ∨ 97 <= c <= 102.
Proof.
  intros Hn Hc. assert (c ∈ hex n ∨ c = 48) as [H| ->]; [|by eapply (digits_no_plus 16 2 n); [lia..|]|lia].
  destruct Hc as [?|Hc]; [by left|]. unfold hex2 in Hc. destruct (decide _); [|by left]. apply elem_of_cons in Hc as [->|?]; auto.
Qed.

Lemma split_hex c n s : c = COLON ∨ c = PERIOD ∨ c = SEP → 0 <= n < 256 → split_once c (hex2 n ++ c :: s) = Some (hex2 n, s).
Proof.
  intros Hc Hn. apply split_once_app. intros Hin. destruct (hex_chars n c Hn (or_intror Hin)); unfold COLON, PERIOD, SEP in Hc; lia.
Qed.

Lemma parse_bdf_fmt b d f : is_u8 b → is_u8 d → is_u8 f →
  parse_bdf (hex2 b ++ [COLON] ++ hex2 d ++ [PERIOD] ++ hex f) = Some (Pci b d f).
Proof.
  unfold in_u. pow2. intros Hb Hd Hf. unfold parse_bdf. cbn [app]. rewrite split_hex by auto. cbn [mbind option_bind]. rewrite split_hex by auto. cbn [mbind option_bind].
  destruct (parse_hex2 b Hb) as [-> _], (parse_hex2 d Hd) as [-> _], (parse_hex2 f Hf) as [_ ->]. done.
Qed.

Lemma class_name_code c : DeviceClass_from_name (DeviceClass_name c) = Some c ∧ DeviceClass_from_code (DeviceClass_code c) = Some c.
Proof. by destruct c. Qed.

Lemma from_code_code n c : DeviceClass_from_code n = Some c → n = DeviceClass_code c.
Proof. unfold DeviceClass_from_code. intros H. repeat (destruct (decide _); [by simplify_eq|]). done. Qed.

Lemma from_name_name n c : DeviceClass_from_name n = Some c → n = DeviceClass_name c.
Proof. unfold DeviceClass_from_name. intros H. repeat (destruct (decide _); [by simplify_eq|]). done. Qed.

Lemma class_name_no_sep c : SEP ∉ DeviceClass_name c.
Proof. by destruct c; vm_compute; intros H; repeat (apply elem_of_cons in H as [H|H]; [done|]); apply elem_of_nil in H. Qed.

Definition device_text (c : DeviceClass) (i : Z) : str := lit "pci/" ++ DeviceClass_name c ++ SEP :: decimal i.

Lemma resolve_text c i reg : 0 <= i < 2 ^ 64 → resolve_device (device_text c i) reg = get_device_by_class (DeviceClass_code c) i reg.
Proof.
  intros Hi. unfold resolve_device, device_text, strip_slash. change (strip_prefix [SEP] _) with (@None str). cbn match.
  rewrite strip_prefix_app. unfold resolve_pci. rewrite split_once_app by apply class_name_no_sep. destruct (class_name_code c) as [-> _]. cbn.
  rewrite parse_decimal by lia. done.
Qed.

Lemma resolve_fmt a reg : address_ok a → resolve_device (fmt_address a) reg = Some a.
Proof.
  destruct a as [b d f]. intros (Hb & Hd & Hf). unfold resolve_device, fmt_address, strip_slash. change (strip_prefix [SEP] _) with (@None str). cbn match.
  rewrite strip_prefix_app. unfold resolve_pci. rewrite split_once_None; [by apply parse_bdf_fmt|]. unfold in_u in *. pow2.
  intros Hc. repeat (apply elem_of_app in Hc as [Hc|Hc]); try (apply list_elem_of_singleton in Hc; done);
    [destruct (hex_chars b SEP Hb (or_intror Hc))|destruct (hex_chars d SEP Hd (or_intror Hc))|destruct (hex_chars f SEP Hf (or_introl Hc))]; unfold SEP in *; lia.
Qed.

(** ** What the enumeration registers *)
Fixpoint present_slots (ecam : Z → Z) (groups : list PciSegmentGroup) (group bus : Z) (slots : list Z) : list (Z * DeviceAddress) :=
  match slots with
  | [] => []
  | slot :: slots =>
      match pci_device ecam groups group bus slot 0 with
      | None => []
      | Some d => (class_code ecam d, Pci (pd_bus d) (pd_slot d) (pd_function d)) :: present_slots ecam groups group bus slots
      end
  end.
Definition found_devices (ecam : Z → Z) (groups : list PciSegmentGroup) : list (Z * DeviceAddress) :=
  g ← groups; bus ← range_between (bus_number_start g) (bus_number_end g); present_slots ecam groups (group_id g) bus (range_between 0 31).

Definition of_class (c : Z) (found : list (Z * DeviceAddress)) : list DeviceAddress := (filter (λ e, e.1 = c) found).*2.

(** The registry holds, for each class, the devices of that class in the
    order they were found, and no class without a device. *)
Definition registry_of reg (found : list (Z * DeviceAddress)) : Prop :=
  bt_sorted reg ∧ ∀ c, bt_get c reg = if decide (of_class c found = []) then None else Some (of_class c found).

Lemma registry_of_nil : registry_of [] [].
Proof. split; [constructor|]. intros c. by rewrite decide_True. Qed.

Lemma of_class_snoc c c' a found : of_class c' (found ++ [(c, a)]) = of_class c' found ++ (if decide (c = c') then [a] else []).
Proof.
  unfold of_class. rewrite filter_app, fmap_app. f_equal. rewrite filter_cons. cbn [fst]. by destruct (decide (c = c')).
Qed.

Lemma register_step reg found c a : registry_of reg found → registry_of (register_device_class c a reg) (found ++ [(c, a)]).
Proof.
  intros [Hs Hg]. split; [by apply bt_insert_sorted|]. intros c'. unfold register_device_class. rewrite bt_get_insert by done.
  rewrite !Hg, of_class_snoc. destruct (decide (c' = c)) as [->|Hne].
  - rewrite (decide_True (P := c = c)) by done. rewrite (decide_False (P := _ ++ [a] = [])) by (intros [_ ?]%app_nil; done).
    by destruct (decide _) as [->|].
  - rewrite (decide_False (P := c = c')) by done. by rewrite app_nil_r.
Qed.

Lemma enumerate_slots_found ecam groups group bus slots reg found : registry_of reg found →
  registry_of (enumerate_slots ecam groups group bus slots reg) (found ++ present_slots ecam groups group bus slots).
Proof.
  revert reg found. induction slots as [|slot slots IH]; intros reg found Hr; cbn [enumerate_slots present_slots]; [by rewrite app_nil_r|].
  destruct (pci_device _ _ _ _ _ _) as [d|]; [|by rewrite app_nil_r]. rewrite cons_middle, app_assoc. by apply IH, register_step.
Qed.

Lemma foldl_found {A} (f : ClassRegistry → A → ClassRegistry) (g : A → list (Z * DeviceAddress)) xs :
  (∀ reg found x, registry_of reg found → registry_of (f reg x) (found ++ g x)) →
  ∀ reg found, registry_of reg found → registry_of (foldl f reg xs) (found ++ (xs ≫= g)).
Proof.
  intros Hf. induction xs as [|x xs IH]; intros reg found Hr; cbn; [by rewrite app_nil_r|]. rewrite app_assoc. by apply IH, Hf.
Qed.

Lemma enumerate_found ecam groups : registry_of (enumerate_pci_devices ecam groups []) (found_devices ecam groups).
Proof.
  unfold enumerate_pci_devices, found_devices. rewrite <-(app_nil_l (groups ≫= _)). apply foldl_found; [|apply registry_of_nil]. intros reg found g Hr. apply foldl_found; [|done].
  intros reg' found' bus Hr'. by apply enumerate_slots_found.
Qed.

Lemma strip_slash_pci s : strip_slash (lit "/pci" ++ s) = lit "pci" ++ s.
Proof. done. Qed.

(** The directory of a class lists its devices by their positions. *)
Lemma list_class c reg found : registry_of reg found →
  list_devices_at (lit "/pci/" ++ DeviceClass_name c) reg =
    Some ((λ i, {| fde_name := decimal (Z.of_nat i); fde_is_dir := false |}) <$> seq 0 (length (of_class (DeviceClass_code c) found))).
Proof.
  intros [_ Hg]. unfold list_devices_at. replace (strip_slash _) with (lit "pci/" ++ DeviceClass_name c) by done.
  rewrite decide_False by done. rewrite decide_False by (by destruct c). rewrite strip_prefix_app, decide_False by apply class_name_no_sep.
  destruct (class_name_code c) as [-> _]. cbn [mbind option_bind]. unfold count_devices_in_class. rewrite Hg.
  destruct (decide _) as [->|]; [done|]. unfold len. by rewrite Nat2Z.id.
Qed.

Lemma get_class c i reg found : registry_of reg found → get_device_by_class c i reg = of_class c found !! Z.to_nat i.
Proof. intros [_ Hg]. unfold get_device_by_class. rewrite Hg. by destruct (decide _) as [->|]. Qed.

Lemma elem_of_reg_keys c reg found : registry_of reg found → c ∈ list_device_classes reg ↔ ∃ a, (c, a) ∈ found.
Proof.
  intros [Hs Hg]. unfold list_device_classes. rewrite list_elem_of_fmap. transitivity (is_Some (bt_get c reg)).
  - split; [intros ([c' v] & -> & Hin%bt_get_elem); [by eexists|done]|]. intros [v Hv]. exists (c, v). split; [done|]. by apply bt_get_elem.
  - rewrite Hg. destruct (decide _) as [He|Hne]; split.
    + by intros [].
    + intros [a Ha]. exfalso. assert (a ∈ of_class c found) as Hin; [|rewrite He in Hin; by apply elem_of_nil in Hin].
      apply list_elem_of_fmap. exists (c, a). split; [done|]. by apply list_elem_of_filter.
    + intros _. destruct (of_class c found) as [|a l] eqn:E; [done|]. exists a. assert (a ∈ of_class c found) as Hin by (rewrite E; apply list_elem_of_here).
      apply list_elem_of_fmap in Hin as ([c' a'] & -> & [Hc Hin]%list_elem_of_filter). cbn in *. by subst.
    + by intros _.
Qed.

(** C29.  Device paths name exactly what the enumeration found: after the bus
    has been scanned, [/pci/<class>/<i>] resolves to the [i]-th device found of
    that class and to nothing past the last; the class's directory lists just
    those positions; [/pci] lists a class when a device of it was found; and
    the printed address of any device resolves to that device. *)
Theorem device_paths_exact ecam groups c i a :
  is_u64 i → address_ok a →
  let reg := enumerate_pci_devices ecam groups [] in
  let devices := of_class (DeviceClass_code c) (found_devices ecam groups) in
  resolve_device (device_text c i) reg = devices !! Z.to_nat i ∧
  resolve_device (SEP :: device_text c i) reg = devices !! Z.to_nat i ∧
  list_devices_at (lit "/pci/" ++ DeviceClass_name c) reg =
    Some ((λ i, {| fde_name := decimal (Z.of_nat i); fde_is_dir := false |}) <$> seq 0 (length devices)) ∧
  (∃ entries, list_devices_at (lit "/pci") reg = Some entries ∧
    ∀ e, e ∈ entries ↔ fde_is_dir e = true ∧ ∃ k b, (DeviceClass_code k, b) ∈ found_devices ecam groups ∧ fde_name e = DeviceClass_name k) ∧
  resolve_device (fmt_address a) reg = Some a.
Proof.
  intros Hi Ha reg devices. pose proof (enumerate_found ecam groups) as Hr. fold reg in Hr. unfold in_u in Hi.
  assert (resolve_device (device_text c i) reg = devices !! Z.to_nat i) as Hres by (rewrite resolve_text by lia; by apply get_class).
  split_and!; [done|by rewrite <-Hres|by apply list_class| |by apply resolve_fmt].
  eexists. split; [reflexivity|]. intros e. rewrite list_elem_of_omap. split.
  - intros (n & Hn & Hc). destruct (DeviceClass_from_code n) as [k|] eqn:Ek; [|done]. injection Hc as <-. apply from_code_code in Ek as ->.
    apply (elem_of_reg_keys _ _ _ Hr) in Hn as [b Hb]. split; [done|]. by exists k, b.
  - intros (Hd & k & b & Hb & Hk). exists (DeviceClass_code k). split; [apply (elem_of_reg_keys _ _ _ Hr); by exists b|].
    destruct (class_name_code k) as [_ ->]. destruct e. cbn in *. by subst.
Qed.

(** A configuration space with functions at the given positions
    ([bus * 256 + slot * 8 + function]), each of the given class and, at
    function 0, marked multifunction. *)
Definition ecam_of (devices : list (Z * Z)) (addr : Z) : Z :=
  match list_find (λ e, e.1 = addr / 4096) devices with
  | None => 0xff
  | Some (_, (_, class)) =>
      let offset := addr mod 4096 in
      if decide (offset = 0) then 0xf4 else if decide (offset = 1) then 0x1a
      else if decide (offset = 0x0B) then class else if decide (offset = 0x0E) then 0x80 else 0
  end.
Definition one_group : list PciSegmentGroup := [mkGroup 0 0 0 2].
(** Slots 0 to 2 of bus 0, and slot 0 of bus 1. *)
Definition machine_ecam : Z → Z := ecam_of [(0, 6); (8, 1); (16, 1); (256, 3)].

Lemma device_paths_exact_witness :
  resolve_device (device_text Storage 1) (enumerate_pci_devices machine_ecam one_group []) = Some (Pci 0 2 0) ∧
  resolve_device (fmt_address (Pci 0 2 0)) (enumerate_pci_devices machine_ecam one_group []) = Some (Pci 0 2 0).
Proof.
  assert (is_u64 1) as H1 by rng. assert (address_ok (Pci 0 2 0)) as H2 by (split_and!; rng).
  destruct (device_paths_exact machine_ecam one_group Storage 1 (Pci 0 2 0) H1 H2) as (Hr & _ & _ & _ & Hf).
  split; [|exact Hf]. rewrite Hr. vm_compute. reflexivity.
Defined.

(** A device that answers in configuration space and is never registered: the
    last slot of a bus, the last bus of a group, a slot behind an empty one, a
    further function of a device. *)
Definition missed (devices : list (Z * Z)) (groups : list PciSegmentGroup) (bus slot function : Z) : Prop :=
  is_Some (pci_device (ecam_of devices) groups 0 bus slot function) ∧
  ∀ c, Pci bus slot function ∉ of_class c (found_devices (ecam_of devices) groups).

Lemma missed_by devices groups bus slot function :
  bool_decide (is_Some (pci_device (ecam_of devices) groups 0 bus slot function)) = true →
  bool_decide (Pci bus slot function ∈ (found_devices (ecam_of devices) groups).*2) = false →
  missed devices groups bus slot function.
Proof.
  intros Hp%bool_decide_eq_true Hf%bool_decide_eq_false. split; [done|]. intros c (e & He & [_ Hin]%list_elem_of_filter)%list_elem_of_fmap.
  apply Hf, list_elem_of_fmap. by exists e.
Qed.

(** The device in slot 31 of a full bus is missed. *)
Lemma misses_last_slot : missed ((λ i, (8 * Z.of_nat i, 1)) <$> seq 0 32) one_group 0 31 0.
Proof. by apply missed_by; vm_compute. Qed.
Lemma misses_last_bus : missed [(512, 1)] one_group 2 0 0.
Proof. by apply missed_by; vm_compute. Qed.
Lemma misses_after_gap : missed [(0, 6); (16, 1)] one_group 0 2 0.
Proof. by apply missed_by; vm_compute. Qed.
Lemma misses_functions : missed [(0, 6); (1, 1)] one_group 0 0 1.
Proof. by apply missed_by; vm_compute. Qed.

(** ** Exclusive ownership *)
(** The table and the guards that are alive.  Dropping consumes a guard. *)
Inductive ClaimStep := DoClaim (a : DeviceAddress) (owner : ClaimOwner) | DoDrop (i : nat).
Definition claim_step (st : Claims * list ClaimGuard) (s : ClaimStep) : Claims * list ClaimGuard :=
  let '(claims, live) := st in
  match s with
  | DoClaim a owner =>
      match claim a owner claims with
      | (claims, Some g) => (claims, live ++ [g])
      | (claims, None) => (claims, live)
      end
  | DoDrop i => match live !! i with Some g => (drop_guard g claims, delete i live) | None => (claims, live) end
  end.

Definition claims_inv (st : Claims * list ClaimGuard) : Prop :=
  NoDup (guard_address <$> st.2) ∧ ∀ a o, st.1 !! a = Some o ↔ mkGuard a o ∈ st.2.

Lemma claims_inv_new : claims_inv (∅, []).
Proof. split; [constructor|]. intros a o. cbn [fst snd]. rewrite lookup_empty, elem_of_nil. by split. Qed.

Lemma claims_inv_claim claims live a owner : claims_inv (claims, live) → claims_inv (claim_step (claims, live) (DoClaim a owner)).
Proof.
  intros [Hnd Hiff]. cbn in *. unfold claim. destruct (claims !! a) as [o|] eqn:E; [done|]. split; cbn.
  - rewrite fmap_app. apply NoDup_app. split; [done|]. split; [|apply NoDup_singleton].
    intros a' ([b o] & -> & Hin)%list_elem_of_fmap Ha%list_elem_of_singleton. cbn in Ha. subst b. apply Hiff in Hin. congruence.
  - intros b o. rewrite lookup_insert_Some, elem_of_app, list_elem_of_singleton, Hiff. split.
    + intros [[-> ->]|[_ ?]]; auto.
    + intros [Hin|[= -> ->]]; [|by left]. right. split; [|done]. intros ->. apply Hiff in Hin. congruence.
Qed.

Lemma claims_inv_drop claims live i : claims_inv (claims, live) → claims_inv (claim_step (claims, live) (DoDrop i)).
Proof.
  intros [Hnd Hiff]. cbn in *. destruct (live !! i) as [[a o]|] eqn:E; [|done].
  apply list_elem_of_split_length in E as (l1 & l2 & -> & ->). rewrite delete_middle. unfold drop_guard. cbn.
  rewrite fmap_app, fmap_cons in Hnd. cbn in Hnd. apply NoDup_app in Hnd as (H1 & H12 & [Ha H2]%NoDup_cons).
  split; cbn.
  - rewrite fmap_app. apply NoDup_app. split; [done|]. split; [|done]. intros b Hb Hb2. apply (H12 b Hb). by apply list_elem_of_further.
  - intros b p. rewrite lookup_delete_Some, Hiff, !elem_of_app, elem_of_cons. split; [intros [Hne [?|[[= ? ?]|?]]]; [by left|done|by right]|].
    intros Hin. split; [|tauto]. intros ->. destruct Hin as [Hin|Hin]; apply (list_elem_of_fmap_2 guard_address) in Hin.
    + apply (H12 _ Hin), list_elem_of_here.
    + by apply Ha.
Qed.

Lemma claims_inv_run steps st : claims_inv st → claims_inv (foldl claim_step st steps).
Proof.
  revert st. induction steps as [|s steps IH]; intros [claims live] H; [done|]. cbn [foldl]. apply IH.
  destruct s; [by apply claims_inv_claim|by apply claims_inv_drop].
Qed.

(** A claim is exclusive and lasts exactly as long as its guard: over any
    sequence of claims and drops no two live guards are for one device, and a
    claim is granted just when no live guard holds the device; a refused claim
    changes nothing, and once a guard is dropped its device can be claimed. *)
Theorem claims_exclusive steps a owner :
  let '(claims, live) := foldl claim_step (∅, []) steps in
  NoDup (guard_address <$> live) ∧
  (is_Some (claim a owner claims).2 ↔ a ∉ guard_address <$> live) ∧
  ((claim a owner claims).2 = None → (claim a owner claims).1 = claims) ∧
  (∀ i g, live !! i = Some g → is_Some (claim (guard_address g) owner (claim_step (claims, live) (DoDrop i)).1).2).
Proof.
  destruct (foldl claim_step (∅, []) steps) as [claims live] eqn:E.
  assert (claims_inv (claims, live)) as [Hnd Hiff] by (rewrite <-E; apply claims_inv_run, claims_inv_new). cbn in Hnd, Hiff.
  split_and!; [done| | |].
  - unfold claim. destruct (claims !! a) as [o|] eqn:Ea; cbn.
    + split; [by intros []|]. intros Hn. exfalso. apply Hiff in Ea. by apply (list_elem_of_fmap_2 guard_address), Hn in Ea.
    + split; [|by eexists]. intros _ ([b o] & -> & Hin)%list_elem_of_fmap. apply Hiff in Hin. cbn in Ea. congruence.
  - unfold claim. by destruct (claims !! a).
  - intros i g Hg. unfold claim_step, drop_guard, claim. rewrite Hg. cbn [fst]. rewrite lookup_delete_eq. cbn. by eexists.
Qed.
