(* ===== verification/Vfs.v ===== *)
(** * The virtual file system ([panda-kernel/src/vfs/mod.rs])

    The mount table: paths are made canonical, matched against the mount
    points, and the call goes to the file system found with the path below its
    mount point.  A file system is the record of its methods. *)

From Stdlib Require Import Ascii String.
From S2P Require Import Prelude Utf8 Text Buffers Path Effects FsTypes Devices.
#[local] Open Scope Z_scope.
#[local] Open Scope list_scope.

Section vfs.
(** The state the file systems work on, and their open files. *)
Context {W H : Type}.

(** [dyn Filesystem]. *)
Record Filesystem := mkFilesystem {
  fs_open : str → ST W FsError H;
  fs_stat : str → ST W FsError FileStat;
  fs_readdir : str → ST W FsError (list FsDirEntry);
  fs_create : str → Z → ST W FsError H;
  fs_unlink : str → ST W FsError ();
  fs_mkdir : str → Z → ST W FsError ();
  fs_rmdir : str → ST W FsError ();
  fs_truncate : str → Z → ST W FsError ();
  fs_sync : ST W FsError ();
}.

(** A file system with the default methods of the trait. *)
Definition read_only_fs (open_ : str → ST W FsError H) (stat_ : str → ST W FsError FileStat)
    (readdir_ : str → ST W FsError (list FsDirEntry)) : Filesystem := {|
  fs_open := open_; fs_stat := stat_; fs_readdir := readdir_;
  fs_create := λ _ _, fail FsReadOnlyFs; fs_unlink := λ _, fail FsReadOnlyFs; fs_mkdir := λ _ _, fail FsReadOnlyFs;
  fs_rmdir := λ _, fail FsReadOnlyFs; fs_truncate := λ _ _, fail FsReadOnlyFs; fs_sync := fail FsReadOnlyFs;
|}.

Record Mount := mkMount { mount_path : str; mount_fs : Filesystem; mount_claim : option ClaimGuard }.

(** The functions of the path library have no errors of their own. *)
Definition path_outcome {A} (m : outcome Empty_set A) : outcome FsError A :=
  match m with Ok a => Ok a | Err e => match e with end | Panic => Panic | OutOfFuel => OutOfFuel end.

Definition vfs_canonicalize (input : str) : outcome FsError str :=
  canonical ← path_outcome (is_canonical input);
  if (canonical : bool) then Ok input
  else
    r ← path_outcome (canonicalize_path_to_buf input (replicate 4096 0));
    Ok (match r.2 with Some s => s | None => [SEP] end).

Definition mount_with_claim (path : str) (fs : Filesystem) (claim : option ClaimGuard) (mounts : list Mount) : list Mount :=
  mounts ++ [mkMount path fs claim].
Definition mount (path : str) (fs : Filesystem) (mounts : list Mount) : list Mount := mount_with_claim path fs None mounts.

(** The condition of the loop: the mount point, then the end or a slash. *)
Definition mount_matches (path : str) (m : Mount) : bool :=
  starts_with path (mount_path m) && (bool_decide (len path = len (mount_path m)) || bool_decide (path !! length (mount_path m) = Some SEP)).

(** The loop, with its best match so far as length and index. *)
Fixpoint best_mount (path : str) (mounts : list Mount) (index : nat) (best : option (Z * nat)) : option (Z * nat) :=
  match mounts with
  | [] => best
  | m :: mounts =>
      let best :=
        if mount_matches path m then
          match best with
          | None => Some (len (mount_path m), index)
          | Some (best_len, i) => if decide (len (mount_path m) > best_len) then Some (len (mount_path m), index) else Some (best_len, i)
          end
        else best in
      best_mount path mounts (S index) best
  end.

Definition resolve_path (mounts : list Mount) (path : str) : outcome FsError (option (nat * str)) :=
  match best_mount path mounts 0 None with
  | None => Ok None
  | Some (mount_len, index) =>
      relative ← (if decide (len path > mount_len) then slice path (mount_len + 1) (len path) else Ok []);
      Ok (Some (index, relative))
  end.

Definition resolve_mount (mounts : list Mount) (path : str) : outcome FsError (Filesystem * str) :=
  canonical ← vfs_canonicalize path;
  found ← resolve_path mounts canonical;
  match found with
  | None => Err FsNotFound
  | Some (i, relative) => m ← index mounts (Z.of_nat i); Ok (mount_fs m, relative)
  end.

(** [open], [stat], ... of an absolute path. *)
Definition on_mount {A} (mounts : list Mount) (path : str) (op : Filesystem → str → ST W FsError A) : ST W FsError A :=
  r ← liftO (resolve_mount mounts path); op r.1 r.2.
Definition vfs_open mounts path := on_mount mounts path fs_open.
Definition vfs_stat mounts path := on_mount mounts path fs_stat.
Definition vfs_readdir mounts path := on_mount mounts path fs_readdir.
Definition vfs_create mounts path (mode : Z) := on_mount mounts path (λ fs relative, fs_create fs relative mode).
Definition vfs_unlink mounts path := on_mount mounts path fs_unlink.
Definition vfs_mkdir mounts path (mode : Z) := on_mount mounts path (λ fs relative, fs_mkdir fs relative mode).
Definition vfs_rmdir mounts path := on_mount mounts path fs_rmdir.
Definition vfs_truncate mounts path (size : Z) := on_mount mounts path (λ fs relative, fs_truncate fs relative size).
Definition vfs_sync mounts path := on_mount mounts path (λ fs _, fs_sync fs).

(** ** Mounting ext2 *)
Section mount_ext2.
(** The registered block devices by address, and the mount of one. *)
Context {D : Type} (devices : list DeviceAddress) (get_device : DeviceAddress → option D) (ext2_mount : D → ST W str Filesystem).

Record VfsState := mkVfs { v_world : W; v_claims : Claims; v_mounts : list Mount }.

Definition set_claims (c : Claims) (v : VfsState) : VfsState := mkVfs (v_world v) c (v_mounts v).
Definition set_mounts (m : list Mount) (v : VfsState) : VfsState := mkVfs (v_world v) (v_claims v) m.

(** A guard is a local of the function until it moves into the table: every
    early return drops it. *)
Definition mount_ext2 (mountpoint : str) : ST VfsState str () := λ v,
  match devices with
  | [] => (v, Err (lit "No block devices found"))
  | address :: _ =>
      match claim address OwnerMount (v_claims v) with
      | (_, None) => (v, Err (lit "Device already claimed (in use elsewhere)"))
      | (claims, Some guard) =>
          let v := set_claims claims v in
          match get_device address with
          | None => (set_claims (drop_guard guard (v_claims v)) v, Err (lit "Failed to get block device"))
          | Some device =>
              match ext2_mount device (v_world v) with
              | (w, Ok fs) => (mkVfs w (v_claims v) (mount_with_claim mountpoint fs (Some guard) (v_mounts v)), Ok tt)
              | (w, Err e) => (mkVfs w (drop_guard guard (v_claims v)) (v_mounts v), Err e)
              | (w, Panic) => (mkVfs w (v_claims v) (v_mounts v), Panic)
              | (w, OutOfFuel) => (mkVfs w (v_claims v) (v_mounts v), OutOfFuel)
              end
          end
      end
  end.
End mount_ext2.
End vfs.
Arguments Filesystem : clear implicits.
Arguments Mount : clear implicits.
Arguments VfsState : clear implicits.

(** ** Prefixes of paths and of component lists *)
Definition starts_component (s : str) : Prop := s = [] ∨ head s = Some SEP.

Lemma join_starts cs : starts_component (join cs).
Proof. destruct cs; [by left|by right]. Qed.

(** What follows a component is determined by the first slash. *)
Lemma component_eq (c m s t : str) :
  SEP ∉ c → SEP ∉ m → starts_component s → starts_component t → c ++ s = m ++ t → c = m ∧ s = t.
Proof.
  revert m. induction c as [|x c IH]; intros [|y m] Hc Hm Hs Ht Heq; cbn in *.
  - done.
  - exfalso. destruct Hs as [->|Hs]; [done|]. subst s. injection Hs as ->. apply Hm, list_elem_of_here.
  - exfalso. destruct Ht as [->|Ht]; [done|]. subst t. injection Ht as ->. apply Hc, list_elem_of_here.
  - injection Heq as -> Heq. apply not_elem_of_cons in Hc as [_ Hc], Hm as [_ Hm]. by destruct (IH m Hc Hm Hs Ht Heq) as [-> ->].
Qed.

Lemma join_prefix ms cs s : Forall good ms → Forall good cs → starts_component s → join cs = join ms ++ s → ∃ rest, cs = ms ++ rest ∧ s = join rest.
Proof.
  revert cs. induction ms as [|m ms IH]; intros cs Hm Hc Hs Heq; [by exists cs|].
  destruct cs as [|c cs]; [done|]. rewrite !join_cons in Heq. cbn in Heq. injection Heq as Heq. rewrite <-app_assoc in Heq.
  apply Forall_cons in Hm as [(_ & Hsm & _) Hm], Hc as [(_ & Hsc & _) Hc].
  destruct (component_eq c m (join cs) (join ms ++ s)) as [-> Heq2]; [done|done|apply join_starts| |done|].
  { destruct ms; [by rewrite app_nil_l|by right]. }
  destruct (IH cs Hm Hc Hs Heq2) as (rest & -> & ->). by exists rest.
Qed.

(** The mount point of components [ms]. *)
Definition mounted_at {W H} (m : Mount W H) (ms : list str) : Prop := ms ≠ [] ∧ Forall good ms ∧ mount_path m = render ms.

Lemma render_join cs : cs ≠ [] → render cs = join cs.
Proof. by destruct cs. Qed.

Lemma starts_with_iff s p : starts_with s p = true ↔ ∃ r, s = p ++ r.
Proof.
  unfold starts_with. rewrite bool_decide_eq_true. split; [intros [r Hr%strip_prefix_Some]; by exists r|].
  intros [r ->]. rewrite strip_prefix_app. by eexists.
Qed.

Lemma mount_matches_iff {W H} cs (m : Mount W H) ms : Forall good cs → mounted_at m ms →
  mount_matches (render cs) m = true ↔ ms `prefix_of` cs.
Proof.
  intros Hc (Hne & Hm & Hp). unfold mount_matches. rewrite andb_true_iff, starts_with_iff, orb_true_iff, !bool_decide_eq_true, Hp, (render_join ms Hne).
  assert (join ms ≠ [SEP]) as Hsep. { destruct ms as [|m0 ms]; [done|]. rewrite join_cons. intros Heq. injection Heq as Heq. apply app_nil in Heq as [-> _]. by apply Forall_cons in Hm as [(? & _) _]. }
  split.
  - intros [[r Hr] Hend]. assert (starts_component r) as Hs.
    { rewrite Hr in Hend. destruct Hend as [Hl|Hl]; [left; rewrite len_app in Hl; destruct r; [done|len_lia]|right].
      rewrite lookup_app_r, Nat.sub_diag in Hl by lia. by destruct r. }
    assert (cs ≠ []) as Hcne.
    { intros ->. cbn [render] in Hr. destruct ms as [|m0 ms]; [done|]. rewrite join_cons in Hr. injection Hr as Hr. symmetry in Hr. apply app_nil in Hr as [Hr ->].
      rewrite join_cons, Hr in Hsep. done. }
    rewrite render_join in Hr by done. destruct (join_prefix ms cs r Hm Hc Hs Hr) as (rest & -> & _). by exists rest.
  - intros [rest ->]. rewrite render_join by (by destruct ms). rewrite join_app. split; [by eexists|].
    destruct rest as [|r rest]; [left; unfold join at 2; cbn; by rewrite app_nil_r|right].
    rewrite lookup_app_r, Nat.sub_diag by lia. done.
Qed.

(** ** The mount a path goes to *)
Section best.
Context {W H : Type}.
Implicit Types mounts : list (Mount W H).

(** The longest matching mount point; of equal ones, the first mounted. *)
Definition is_best (path : str) mounts (best : option (Z * nat)) : Prop :=
  match best with
  | None => ∀ j m, mounts !! j = Some m → mount_matches path m = false
  | Some (n, i) =>
      (∃ m, mounts !! i = Some m ∧ mount_matches path m = true ∧ n = len (mount_path m)) ∧
      ∀ j m, mounts !! j = Some m → mount_matches path m = true → len (mount_path m) < n ∨ len (mount_path m) = n ∧ (i <= j)%nat
  end.

Lemma is_best_snoc path mounts m best : is_best path mounts best →
  is_best path (mounts ++ [m])
    (if mount_matches path m then
       match best with
       | None => Some (len (mount_path m), length mounts)
       | Some (best_len, i) => if decide (len (mount_path m) > best_len) then Some (len (mount_path m), length mounts) else Some (best_len, i)
       end
     else best).
Proof.
  intros Hb. destruct (mount_matches path m) eqn:Em; destruct best as [[n i]|]; cbn in *.
  - destruct Hb as [(m0 & Hm0 & H0 & Hn) Hall]. destruct (decide _); split.
    + exists m. by rewrite lookup_app_r, Nat.sub_diag by lia.
    + intros j m' [Hj|[-> ->]]%lookup_snoc_Some ?; [|lia]. destruct (Hall j m' (proj2 Hj)) as [?|[? ?]]; [done|lia|lia].
    + exists m0. by rewrite lookup_app_l by (by eapply lookup_lt_Some).
    + apply lookup_lt_Some in Hm0. intros j m' [Hj|[-> ->]]%lookup_snoc_Some ?; [by apply Hall; [apply Hj|]|lia].
  - split; [exists m; by rewrite lookup_app_r, Nat.sub_diag by lia|].
    intros j m' [Hj|[-> ->]]%lookup_snoc_Some ?; [|lia]. rewrite (Hb j m' (proj2 Hj)) in *. done.
  - destruct Hb as [(m0 & Hm0 & H0 & Hn) Hall]. split; [exists m0; by rewrite lookup_app_l by (by eapply lookup_lt_Some)|].
    intros j m' [Hj|[-> ->]]%lookup_snoc_Some ?; [by apply Hall; [apply Hj|]|congruence].
  - intros j m' [Hj|[-> ->]]%lookup_snoc_Some; [by apply (Hb j), Hj|done].
Qed.

Lemma best_mount_from path mounts : ∀ pre best, is_best path pre best → is_best path (pre ++ mounts) (best_mount path mounts (length pre) best).
Proof.
  induction mounts as [|m mounts IH]; intros pre best Hb; cbn [best_mount]; [by rewrite app_nil_r|].
  rewrite cons_middle, app_assoc. replace (S (length pre)) with (length (pre ++ [m])) by (rewrite length_app; cbn; lia). by apply IH, is_best_snoc.
Qed.

Lemma best_mount_best path mounts : is_best path mounts (best_mount path mounts 0 None).
Proof. by apply (best_mount_from path mounts [] None). Qed.
End best.

(** ** Canonical paths *)
(** What the path means: itself when it is canonical, its canonical form when
    that has at most 64 components and 4096 bytes, and else the root. *)
Definition meaning (path : str) (cs : list str) : Prop :=
  (path = render cs) ∨
  (¬ (∃ ds, Forall good ds ∧ path = render ds) ∧
   match canonical_form path with
   | Some r => if decide (len r <= 4096) then r = render cs else cs = []
   | None => cs = []
   end).

Lemma vfs_canonicalize_meaning path : ∃ cs, Forall good cs ∧ vfs_canonicalize path = Ok (render cs) ∧ meaning path cs.
Proof.
  unfold vfs_canonicalize, meaning. assert (len (replicate 4096 0) = 4096) as Hl by (unfold len; by rewrite length_replicate).
  revert Hl. generalize (replicate 4096 0). intros buf Hl. destruct (is_canonical_spec path) as (b & -> & Hb). cbn. destruct b.
  - destruct (proj1 Hb eq_refl) as (cs & Hg & ->). exists cs. auto.
  - rewrite canonicalize_spec, Hl. assert (¬ ∃ ds, Forall good ds ∧ path = render ds) as Hn by (intros Hd; by apply Hb in Hd).
    destruct (canonical_form path) as [r|] eqn:Er; cbn; [|by exists []; auto].
    apply canonical_form_inv in Er as (cs & -> & Hg & _).
    destruct (decide _) as [Hd|Hd]; cbn; [exists cs|exists []]; split_and!; try done; right; split; try done.
Qed.

Lemma relative_rest {E} ms rest : ms ≠ [] →
  (if decide (len (render (ms ++ rest)) > len (render ms)) then slice (E := E) (render (ms ++ rest)) (len (render ms) + 1) (len (render (ms ++ rest))) else Ok [])
  = Ok (tail (join rest)).
Proof.
  intros Hne. rewrite !render_join by (by destruct ms). rewrite join_app. destruct rest as [|r rest].
  - rewrite decide_False; [done|]. rewrite len_app. change (len (join [])) with 0. lia.
  - rewrite join_cons, decide_True by len_lia. cbn [tail]. rewrite cons_middle, app_assoc. unfold slice.
    rewrite <-(app_nil_r (r ++ join rest)) at 1.
    replace (len (join ms) + 1) with (len (join ms ++ [SLASH])) by len_lia.
    replace (len ((join ms ++ [SLASH]) ++ r ++ join rest)) with (len (join ms ++ [SLASH]) + len (r ++ join rest)) by len_lia.
    by rewrite get_range_app.
Qed.

Lemma prefixes_len ms ms' cs : Forall good ms → Forall good ms' → ms ≠ [] → ms' ≠ [] → ms `prefix_of` cs → ms' `prefix_of` cs →
  len (render ms') <= len (render ms) → ms' `prefix_of` ms ∧ (len (render ms') < len (render ms) → ms' ≠ ms).
Proof.
  intros Hg Hg' Hne Hne' [k ->] [k' Hk] Hlen. split; [|by intros ? ->; lia].
  destruct (decide (length ms' <= length ms)%nat) as [Hl|Hl].
  - apply (f_equal (take (length ms'))) in Hk. rewrite take_app_length, take_app_le in Hk by lia. rewrite <-Hk. exists (drop (length ms') ms). by rewrite take_drop.
  - exfalso. apply (f_equal (take (length ms'))) in Hk. rewrite take_app_length, take_app_ge in Hk by lia.
    rewrite !render_join in Hlen by done. rewrite <-Hk, join_app in Hlen. rewrite len_app in Hlen.
    destruct (take (length ms' - length ms) k) as [|x l] eqn:E; [rewrite app_nil_r in Hk; subst; lia|]. rewrite join_cons in Hlen. len_lia.
Qed.

(** A mount point found, and the components below it. *)
Definition goes_to {W H} (mounts : list (Mount W H)) (points : list (list str)) (cs : list str) (i : nat) (m : Mount W H) (ms rest : list str) : Prop :=
  mounts !! i = Some m ∧ points !! i = Some ms ∧ cs = ms ++ rest ∧
  ∀ j ms', points !! j = Some ms' → ms' `prefix_of` cs → ms' `prefix_of` ms ∧ (ms' = ms → (i <= j)%nat).

Lemma resolve_best {W H} (mounts : list (Mount W H)) points cs :
  Forall2 mounted_at mounts points → Forall good cs →
  (∃ i m ms rest, goes_to mounts points cs i m ms rest ∧ resolve_path mounts (render cs) = Ok (Some (i, tail (join rest)))) ∨
  ((∀ ms, ms ∈ points → ¬ ms `prefix_of` cs) ∧ resolve_path mounts (render cs) = Ok None).
Proof.
  intros Hall Hg. unfold resolve_path. pose proof (best_mount_best (render cs) mounts) as Hb.
  destruct (best_mount (render cs) mounts 0 None) as [[n i]|]; cbn in Hb.
  - left. destruct Hb as [(m & Hm & Hmatch & ->) Hbest]. destruct (Forall2_lookup_l _ _ _ _ _ Hall Hm) as (ms & Hms & Hat).
    pose proof (proj1 (mount_matches_iff cs m ms Hg Hat) Hmatch) as [rest ->]. exists i, m, ms, rest. destruct Hat as (Hne & Hgm & Hp). split.
    + split_and!; try done. intros j ms' Hj Hpre. destruct (Forall2_lookup_r _ _ _ _ _ Hall Hj) as (m' & Hm' & Hat').
      pose proof (Hbest j m' Hm' (proj2 (mount_matches_iff _ m' ms' Hg Hat') Hpre)) as Hlt. destruct Hat' as (Hne' & Hgm' & Hp').
      rewrite Hp, Hp' in Hlt. destruct (prefixes_len ms ms' (ms ++ rest) Hgm Hgm' Hne Hne') as [Hpp Hneq]; [by exists rest|done|lia|].
      split; [done|]. intros ->. destruct Hlt as [?|[_ ?]]; [lia|done].
    + rewrite Hp, relative_rest by done. done.
  - right. split; [|done]. intros ms (j & Hj)%list_elem_of_lookup Hpre. destruct (Forall2_lookup_r _ _ _ _ _ Hall Hj) as (m & Hm & Hat).
    apply (mount_matches_iff cs m ms Hg Hat) in Hpre. rewrite (Hb j m Hm) in Hpre. done.
Qed.

(** A call on a path that canonicalizes to good components. *)
Lemma on_mount_canonical {W H A} (mounts : list (Mount W H)) points path cs (op : Filesystem W H → str → ST W FsError A) w :
  Forall2 mounted_at mounts points → Forall good cs → vfs_canonicalize path = Ok (render cs) →
  (∃ i m ms rest, goes_to mounts points cs i m ms rest ∧ Forall good rest ∧
     on_mount mounts path op w = op (mount_fs m) (tail (join rest)) w) ∨
  ((∀ ms, ms ∈ points → ¬ ms `prefix_of` cs) ∧ on_mount mounts path op w = (w, Err FsNotFound)).
Proof.
  intros Hall Hg Hc.
  unfold on_mount, resolve_mount. rewrite Hc. cbn. destruct (resolve_best mounts points cs Hall Hg) as [(i & m & ms & rest & Hgo & Hr)|[Hno Hr]].
  - left. exists i, m, ms, rest. pose proof Hgo as (Hi & _ & -> & _). apply Forall_app in Hg as [_ Hrest]. split_and!; [done..|].
    rewrite Hr. cbn. unfold index. pose proof (lookup_lt_Some _ _ _ Hi). rewrite decide_True by (unfold len; lia). rewrite Nat2Z.id, Hi. done.
  - right. split; [done|]. by rewrite Hr.
Qed.

Lemma vfs_canonicalize_render cs : Forall good cs → vfs_canonicalize (render cs) = Ok (render cs).
Proof.
  intros Hg. unfold vfs_canonicalize. destruct (is_canonical_spec (render cs)) as (b & -> & Hb).
  assert (b = true) as -> by (apply Hb; eauto). done.
Qed.

(** C17.  A path goes to the right file system: it is read as its canonical
    components, none of which is [.], [..] or empty; the call is made on the
    mount whose components are the longest prefix of them, the first mounted
    among equals, with exactly the components below the mount point; and it
    fails with [NotFound], touching no file system, when no mount point is a
    prefix. *)
Theorem vfs_resolve_exact {W H A} (mounts : list (Mount W H)) points path (op : Filesystem W H → str → ST W FsError A) w :
  Forall2 mounted_at mounts points →
  ∃ cs, Forall good cs ∧ meaning path cs ∧
  ((∃ i m ms rest, goes_to mounts points cs i m ms rest ∧ Forall good rest ∧
      on_mount mounts path op w = op (mount_fs m) (tail (join rest)) w) ∨
   ((∀ ms, ms ∈ points → ¬ ms `prefix_of` cs) ∧ on_mount mounts path op w = (w, Err FsNotFound))).
Proof.
  intros Hall. destruct (vfs_canonicalize_meaning path) as (cs & Hg & Hc & Hmean). exists cs. split_and!; [done..|].
  by apply on_mount_canonical.
Qed.

(** File systems that answer with their number and the path they were given. *)
Definition echo_fs (n : Z) : Filesystem () str :=
  read_only_fs (λ p, mret (n :: p)) (λ _, fail FsNotFound) (λ _, fail FsNotFound).
Definition echo_mounts : list (Mount () str) :=
  mount (lit "/mnt") (echo_fs 3) (mount (lit "/mnt/deep") (echo_fs 2) (mount (lit "/mnt") (echo_fs 1) [])).

Lemma vfs_resolve_exact_witness :
  let path := lit "/other/..//mnt/deep/./a/b" in
  on_mount echo_mounts path fs_open () = ((), Ok (2 :: lit "a/b")) ∧
  ∃ cs, Forall good cs ∧ meaning path cs ∧
  ((∃ i m ms rest, goes_to echo_mounts [[lit "mnt"]; [lit "mnt"; lit "deep"]; [lit "mnt"]] cs i m ms rest ∧ Forall good rest ∧
      on_mount echo_mounts path fs_open () = fs_open (mount_fs m) (tail (join rest)) ()) ∨
   ((∀ ms, ms ∈ [[lit "mnt"]; [lit "mnt"; lit "deep"]; [lit "mnt"]] → ¬ ms `prefix_of` cs) ∧ on_mount echo_mounts path fs_open () = ((), Err FsNotFound))).
Proof.
  split; [by vm_compute|]. apply vfs_resolve_exact.
  assert (∀ c, bool_decide (good c) = true → good c) as Hgood by (intros c; by rewrite bool_decide_eq_true).
  repeat constructor; try done; try (repeat constructor; by apply Hgood); by apply Hgood.
Defined.

Lemma join_no_double cs p r : Forall good cs → join cs ≠ p ++ SEP :: SEP :: r.
Proof.
  intros Hg. revert p. induction Hg as [|c cs (Hc & Hs & _) Hg IH]; intros p Heq; [by destruct p|]. rewrite join_cons in Heq.
  destruct p as [|x p]; cbn in Heq; injection Heq.
  - intros Heq'. destruct c as [|y c]; [done|]. injection Heq' as -> _. apply Hs, list_elem_of_here.
  - intros Heq' _. apply app_eq_inv in Heq' as [(k & -> & Hk)|(k & -> & Hk)]; [|by eapply IH].
    destruct k as [|y k]; [by eapply (IH [])|]. injection Hk as <- _. apply Hs, elem_of_app. right. apply list_elem_of_here.
Qed.

(** A file system mounted at [/], or at a path with a slash at its end, is out
    of reach of every path below its mount point: only [/] itself can match. *)
Theorem root_mount_unreachable {W H} (m : Mount W H) cs : cs ≠ [] → Forall good cs → last (mount_path m) = Some SEP →
  mount_matches (render cs) m = false.
Proof.
  intros Hne Hg Hl. apply not_true_iff_false. unfold mount_matches. rewrite andb_true_iff, starts_with_iff, orb_true_iff, !bool_decide_eq_true.
  intros [[r Hr] Hend]. rewrite render_join in * by done. apply last_Some in Hl as [p Hp]. rewrite Hp in *. destruct Hend as [Hlen|Hnext].
  - destruct r; [|rewrite Hr in Hlen; len_lia]. rewrite app_nil_r in Hr. pose proof (last_join cs Hg) as Hl. rewrite Hr, last_snoc in Hl. done.
  - rewrite Hr, lookup_app_r, Nat.sub_diag in Hnext by lia. destruct r as [|x r]; [done|]. cbn in Hnext. injection Hnext as ->.
    rewrite <-app_assoc in Hr. by apply (join_no_double cs p r Hg).
Qed.

(** ** Mounting ext2 *)
(** What a mount does to the claims and the table. *)
Lemma mount_effect {W H D} (devices : list DeviceAddress) (get_device : DeviceAddress → option D)
    (ext2_mount : D → ST W str (Filesystem W H)) (mountpoint : str) (v : VfsState W H) :
  match mount_ext2 devices get_device ext2_mount mountpoint v with
  | (v', Ok _) => ∃ address fs, v_claims v !! address = None ∧ v_claims v' = <[address := OwnerMount]> (v_claims v) ∧
      v_mounts v' = v_mounts v ++ [mkMount mountpoint fs (Some (mkGuard address OwnerMount))]
  | (v', Err _) => v_claims v' = v_claims v ∧ v_mounts v' = v_mounts v
  | _ => True
  end.
Proof.
  unfold mount_ext2, claim. destruct devices as [|address devices]; [done|]. destruct (v_claims v !! address) as [o|] eqn:Ec; [done|].
  destruct (get_device address) as [device|]; cbn; [|unfold drop_guard; cbn; by rewrite delete_insert_id].
  destruct (ext2_mount device (v_world v)) as [w [fs|e| |]]; cbn; [by exists address, fs| |done..]. unfold drop_guard. cbn. by rewrite delete_insert_id.
Qed.

(** [mount_ext2] either adds the mount with the claim on the first block
    device, or leaves the mount table and the claims as they were: a device
    that is claimed is never mounted, one that fails to mount can be claimed
    again, and a mounted one cannot. *)
Theorem mount_ext2_exact {W H D} (devices : list DeviceAddress) (get_device : DeviceAddress → option D)
    (ext2_mount : D → ST W str (Filesystem W H)) (mountpoint : str) (v : VfsState W H) :
  match mount_ext2 devices get_device ext2_mount mountpoint v with
  | (v', Ok _) => ∃ address device fs, head devices = Some address ∧ get_device address = Some device ∧ (ext2_mount device (v_world v)).2 = Ok fs ∧
      v_claims v !! address = None ∧ v_claims v' = <[address := OwnerMount]> (v_claims v) ∧
      v_mounts v' = v_mounts v ++ [mkMount mountpoint fs (Some (mkGuard address OwnerMount))] ∧
      ∀ owner, (claim address owner (v_claims v')).2 = None
  | (v', Err _) => v_claims v' = v_claims v ∧ v_mounts v' = v_mounts v ∧
      ∀ address device fs, head devices = Some address → get_device address = Some device → (ext2_mount device (v_world v)).2 = Ok fs →
        is_Some (v_claims v !! address)
  | (v', _) => ∃ device, (ext2_mount device (v_world v)).2 = Panic ∨ (ext2_mount device (v_world v)).2 = OutOfFuel
  end.
Proof.
  unfold mount_ext2, claim. destruct devices as [|address devices]; [done|]. destruct (v_claims v !! address) as [o|] eqn:Ec.
  { split_and!; [done..|]. intros a d fs [= <-]. by eexists. }
  destruct (get_device address) as [device|] eqn:Ed; cbn.
  - destruct (ext2_mount device (v_world v)) as [w [fs|e| |]] eqn:Em; cbn.
    + exists address, device, fs. rewrite Em. split_and!; try done. intros owner. by rewrite lookup_insert_eq.
    + unfold drop_guard. cbn. rewrite delete_insert_id by done. split_and!; [done..|]. intros a d fs [= <-]. rewrite Ed. intros [= <-]. by rewrite Em.
    + exists device. rewrite Em. auto.
    + exists device. rewrite Em. auto.
  - unfold drop_guard. cbn. rewrite delete_insert_id by done. split_and!; [done..|]. intros a d fs [= <-]. by rewrite Ed.
Qed.
