(* ===== verification/TarFs.v ===== *)
(** * The archive file system ([panda-kernel/src/vfs/tarfs.rs])

    A read-only file system over the entries of a TAR archive.  The archive
    reader is not part of the sources: the entries it yields are an argument. *)

From Stdlib Require Import Sorted Ascii String.
From S2P Require Import Prelude Utf8 Value StrMap Text Path Effects FsTypes Devices Vfs.
#[local] Open Scope Z_scope.
#[local] Open Scope list_scope.

Inductive TarFsError := InvalidArchive | InvalidFilename.

(** An entry: its name, [None] when it is not UTF-8, and its bytes. *)
Record TarEntry := mkEntry { entry_name : option str; entry_data : list Z }.

Abbreviation TarFs := (list (str * list Z)).
Implicit Types files : TarFs.

(** [trim_start_matches("./")]. *)
Fixpoint trim_dot_slash (s : str) : str :=
  match s with
  | a :: b :: r => if decide (a = DOT ∧ b = SLASH) then trim_dot_slash r else s
  | _ => s
  end.

(** The body of the loop for a name that is not empty. *)
Definition add_entry (name : str) (data : list Z) files : TarFs :=
  let normalized := trim_dot_slash name in
  if existsb (λ c, bool_decide (c = [DOT; DOT]) || bool_decide (c = [DOT])) (pieces normalized) then files
  else btree_insert normalized data files.

Fixpoint add_entries (entries : list TarEntry) files : outcome TarFsError TarFs :=
  match entries with
  | [] => Ok files
  | e :: entries =>
      match entry_name e with
      | None => Err InvalidFilename
      | Some [] => add_entries entries files
      | Some name => add_entries entries (add_entry name (entry_data e) files)
      end
  end.

(** [None] is an archive the reader rejects. *)
Definition from_tar_data (archive : option (list TarEntry)) : outcome TarFsError TarFs :=
  match archive with None => Err InvalidArchive | Some entries => add_entries entries [] end.

Definition strip_dir_prefix (key path : str) : option str :=
  match path with [] => Some key | _ => rest ← strip_prefix path key; strip_prefix [SLASH] rest end.

(** ** Open files *)
Record TarFile := mkTarFile { tf_data : list Z; tf_pos : Z }.

Definition TarFile_read (n : Z) : ST TarFile FsError (list Z) := λ f,
  let remaining := Z.max 0 (len (tf_data f) - tf_pos f) in
  let to_read := Z.min n remaining in
  if decide (to_read > 0) then
    match slice (tf_data f) (tf_pos f) (tf_pos f + to_read) with
    | Ok bs => (mkTarFile (tf_data f) (tf_pos f + to_read), Ok bs)
    | o => (f, o)
    end
  else (f, Ok []).

Definition TarFile_seek (whence : VfsSeekFrom) : ST TarFile FsError Z :=
  f ← gets id;
  new_pos ← liftO (seek_target (tf_pos f) (len (tf_data f)) whence);
  if decide (new_pos < 0 ∨ len (tf_data f) < wrap_u 64 new_pos) then fail FsInvalidOffset
  else modify (λ f, mkTarFile (tf_data f) (wrap_u 64 new_pos));; mret (wrap_u 64 new_pos).

Definition tar_stat (size : Z) (is_dir : bool) (mode : Z) : FileStat :=
  {| st_size := size; st_is_dir := is_dir; st_mode := mode; st_inode := 0; st_nlinks := 1; st_mtime := 0; st_ctime := 0; st_atime := 0 |}.
Definition TarFile_stat (f : TarFile) : FileStat := tar_stat (len (tf_data f)) false 0x1A4.

(** ** The file system *)
Definition TarFs_open files (path : str) : outcome FsError TarFile :=
  match sm_get path files with Some data => Ok (mkTarFile data 0) | None => Err FsNotFound end.

Definition TarFs_stat files (path : str) : outcome FsError FileStat :=
  match sm_get path files with
  | Some data => Ok (tar_stat (len data) false 0x1A4)
  | None =>
      if existsb (λ key, bool_decide (is_Some (strip_dir_prefix key path))) files.*1 then Ok (tar_stat 0 true 0x1ED)
      else Err FsNotFound
  end.

(** The loop over the keys, with the directories seen and the entries pushed. *)
Fixpoint readdir_keys (path : str) (keys seen : list str) (entries : list FsDirEntry) : list FsDirEntry :=
  match keys with
  | [] => entries
  | key :: keys =>
      match strip_dir_prefix key path with
      | None => readdir_keys path keys seen entries
      | Some relative =>
          let name := match split_once SLASH relative with Some (first, _) => first | None => relative end in
          let is_dir := bool_decide (SLASH ∈ relative) in
          if decide (name = []) then readdir_keys path keys seen entries
          else if is_dir then
            if decide (name ∈ seen) then readdir_keys path keys seen entries
            else readdir_keys path keys (name :: seen) (entries ++ [{| fde_name := name; fde_is_dir := is_dir |}])
          else readdir_keys path keys seen (entries ++ [{| fde_name := name; fde_is_dir := is_dir |}])
      end
  end.

Definition TarFs_readdir files (path : str) : outcome FsError (list FsDirEntry) :=
  match readdir_keys path files.*1 [] [] with
  | [] => if decide (path = []) then Ok [] else Err FsNotFound
  | entries => Ok entries
  end.

(** [impl Filesystem for TarFs]: nothing changes, the rest is read-only. *)
Definition tar_filesystem {W} files : Filesystem W TarFile :=
  read_only_fs (λ path, liftO (TarFs_open files path)) (λ path, liftO (TarFs_stat files path)) (λ path, liftO (TarFs_readdir files path)).

(** ** What is stored *)
Definition clean (k : str) : bool := negb (existsb (λ c, bool_decide (c = [DOT; DOT]) || bool_decide (c = [DOT])) (pieces k)).

(** The bytes an entry stores under a key. *)
Definition stored (k : str) (e : TarEntry) : option (list Z) :=
  match entry_name e with
  | Some ((_ :: _) as name) => if decide (trim_dot_slash name = k ∧ clean k = true) then Some (entry_data e) else None
  | _ => None
  end.

Lemma add_entry_get name data files k : sm_sorted files →
  sm_sorted (add_entry name data files) ∧
  sm_get k (add_entry name data files) = if decide (trim_dot_slash name = k ∧ clean k = true) then Some data else sm_get k files.
Proof.
  intros Hs. unfold add_entry. destruct (existsb _ _) eqn:Ex.
  - split; [done|]. rewrite decide_False; [done|]. intros [<- Hc]. unfold clean in Hc. by rewrite Ex in Hc.
  - split; [by apply btree_insert_sorted|]. rewrite sm_get_insert by done. destruct (decide (k = _)) as [->|Hne].
    + rewrite decide_True; [done|]. split; [done|]. unfold clean. by rewrite Ex.
    + rewrite decide_False; [done|]. by intros [? _].
Qed.

Lemma add_entries_get entries : ∀ files files', sm_sorted files → add_entries entries files = Ok files' →
  sm_sorted files' ∧ Forall (λ e, is_Some (entry_name e)) entries ∧
  ∀ k, sm_get k files' = match last (omap (stored k) entries) with Some d => Some d | None => sm_get k files end.
Proof.
  induction entries as [|[name data] entries IH]; intros files files' Hs; cbn [add_entries entry_name entry_data].
  { intros [= <-]. split; [done|]. split; [constructor|done]. }
  destruct name as [[|c name]|]; [| |done]; intros Ha.
  - destruct (IH _ _ Hs Ha) as (Hs' & Hn & Hg). split_and!; [done|by constructor|]. intros k. by rewrite Hg.
  - destruct (add_entry_get (c :: name) data files [] Hs) as [Hs1 _]. destruct (IH _ _ Hs1 Ha) as (Hs' & Hn & Hg). split_and!; [done|by constructor|].
    intros k. rewrite Hg. destruct (add_entry_get (c :: name) data files k Hs) as [_ ->]. 
    change (omap _ (mkEntry _ _ :: _)) with (match stored k (mkEntry (Some (c :: name)) data) with Some d => d :: omap (stored k) entries | None => omap (stored k) entries end).
    change (stored k (mkEntry _ _)) with (if decide (trim_dot_slash (c :: name) = k ∧ clean k = true) then Some data else None).
    destruct (decide _); [|done]. rewrite last_cons. by destruct (last _).
Qed.

(** ** Directories *)
(** The key of [name] in the directory [path]. *)
Definition under (path name : str) : str := match path with [] => name | _ => path ++ SLASH :: name end.

Lemma strip_dir_prefix_Some key path r : strip_dir_prefix key path = Some r ↔ key = under path r.
Proof.
  unfold strip_dir_prefix, under. destruct path as [|c path]; [split; [by intros [= ->]|by intros ->]|].
  rewrite option.bind_Some. split.
  - intros (rest & Hrest%strip_prefix_Some & ->%strip_prefix_Some). done.
  - intros ->. exists (SLASH :: r). rewrite !strip_prefix_Some. done.
Qed.

Lemma under_inj path a b : under path a = under path b → a = b.
Proof. unfold under. destruct path; [done|]. intros H%app_inv_head. by injection H. Qed.

(** The entry a key gives the directory [path]. *)
Definition child (path key : str) : option FsDirEntry :=
  relative ← strip_dir_prefix key path;
  let name := match split_once SLASH relative with Some (first, _) => first | None => relative end in
  if decide (name = []) then None else Some {| fde_name := name; fde_is_dir := bool_decide (SLASH ∈ relative) |}.

(** The name of an entry, and where its key comes from. *)
Definition child_of (path key : str) (e : FsDirEntry) : Prop :=
  fde_name e ≠ [] ∧ (SLASH ∉ fde_name e) ∧
  if fde_is_dir e then ∃ r, key = under path (fde_name e ++ SLASH :: r) else key = under path (fde_name e).

Lemma child_iff path key e : child path key = Some e ↔ child_of path key e.
Proof.
  unfold child, child_of. destruct (strip_dir_prefix key path) as [relative|] eqn:Er; cbn [mbind option_bind].
  - apply strip_dir_prefix_Some in Er as ->. destruct (split_once SLASH relative) as [[a b]|] eqn:Es.
    + apply split_once_Some in Es as [-> Ha]. rewrite bool_decide_eq_true_2 by (apply elem_of_app; right; apply list_elem_of_here). split.
      * destruct (decide _); [done|]. intros [= <-]. cbn. split_and!; [done..|]. by exists b.
      * intros (Hne & Hns & Hk). destruct e as [n d]; cbn in *. destruct d.
        -- destruct Hk as [r Hk%under_inj]. destruct (component_eq a n (SLASH :: b) (SLASH :: r)) as [<- _]; [done..|by right|by right|done|].
           by rewrite decide_False.
        -- apply under_inj in Hk. subst n. exfalso. apply Hns, elem_of_app. right. apply list_elem_of_here.
    + assert (SLASH ∉ relative) as Hns. { intros (l & r & -> & Hl)%list_elem_of_split_l. by rewrite split_once_app in Es. }
      rewrite bool_decide_eq_false_2 by done. split.
      * destruct (decide _); [done|]. by intros [= <-].
      * intros (Hne & Hns' & Hk). destruct e as [n d]; cbn in *. destruct d.
        -- destruct Hk as [r Hk%under_inj]. subst relative. exfalso. apply Hns, elem_of_app. right. apply list_elem_of_here.
        -- apply under_inj in Hk. subst n. by rewrite decide_False.
  - split; [done|]. intros (_ & _ & Hk). exfalso. destruct (fde_is_dir e); [destruct Hk as [r Hk]|];
      apply strip_dir_prefix_Some in Hk; congruence.
Qed.

(** One round of the loop, by the entry its key gives. *)
Lemma readdir_keys_cons path key keys seen entries :
  readdir_keys path (key :: keys) seen entries =
    match child path key with
    | None => readdir_keys path keys seen entries
    | Some e =>
        if fde_is_dir e then
          if decide (fde_name e ∈ seen) then readdir_keys path keys seen entries else readdir_keys path keys (fde_name e :: seen) (entries ++ [e])
        else readdir_keys path keys seen (entries ++ [e])
    end.
Proof.
  cbn [readdir_keys]. unfold child. destruct (strip_dir_prefix key path) as [r|]; [|done]. cbn [mbind option_bind].
  by destruct (decide (_ = [])).
Qed.

(** The directories pushed are the ones seen; no two entries are equal. *)
Definition listed (entries : list FsDirEntry) (seen keys : list str) (path : str) : Prop :=
  NoDup entries ∧ (∀ n, n ∈ seen ↔ {| fde_name := n; fde_is_dir := true |} ∈ entries) ∧
  ∀ e key, e ∈ entries → fde_is_dir e = false → key ∈ keys → child path key ≠ Some e.

Lemma readdir_keys_listed path keys : ∀ seen entries, NoDup keys → listed entries seen keys path →
  NoDup (readdir_keys path keys seen entries) ∧
  ∀ e, e ∈ readdir_keys path keys seen entries ↔ e ∈ entries ∨ ∃ key, key ∈ keys ∧ child path key = Some e.
Proof.
  induction keys as [|key keys IH]; intros seen entries Hnd (He & Hseen & Hfiles).
  { cbn [readdir_keys]. split; [done|]. intros e. split; [by left|]. by intros [?|(? & ?%elem_of_nil & _)]. }
  apply NoDup_cons in Hnd as [Hkey Hnd]. rewrite readdir_keys_cons.
  assert (∀ e', (∃ k, k ∈ key :: keys ∧ child path k = Some e') ↔ child path key = Some e' ∨ ∃ k, k ∈ keys ∧ child path k = Some e') as Hsplit.
  { intros e'. setoid_rewrite elem_of_cons. naive_solver. }
  assert (listed entries seen keys path) as Hsame.
  { split_and!; [done..|]. intros e k H1 H2 H3. apply Hfiles; [done..|]. by apply list_elem_of_further. }
  setoid_rewrite Hsplit. destruct (child path key) as [e|] eqn:Ec; [|destruct (IH seen entries Hnd Hsame) as [? Hiff]; split; [done|intros e'; rewrite Hiff; naive_solver]].
  assert (∀ seen', (∀ n, n ∈ seen' ↔ {| fde_name := n; fde_is_dir := true |} ∈ entries ++ [e]) → e ∉ entries → listed (entries ++ [e]) seen' keys path) as Hpush.
  { intros seen' Hs' Hnew. split_and!; [apply NoDup_app; split_and!; [done| |apply NoDup_singleton]; by intros x ? ->%list_elem_of_singleton|done|].
    intros e' k [He'| ->%list_elem_of_singleton]%elem_of_app Hf Hk; [apply Hfiles; [done..|by apply list_elem_of_further]|].
    intros Hk'. apply child_iff in Ec as (_ & _ & Hk1), Hk' as (_ & _ & Hk2). rewrite Hf in *. congruence. }
  assert (∀ l, (NoDup l ∧ ∀ e', e' ∈ l ↔ e' ∈ entries ++ [e] ∨ ∃ k, k ∈ keys ∧ child path k = Some e') →
    NoDup l ∧ ∀ e', e' ∈ l ↔ e' ∈ entries ∨ Some e = Some e' ∨ ∃ k, k ∈ keys ∧ child path k = Some e') as Hdone.
  { intros l [? Hl]. split; [done|]. intros e'. rewrite Hl, elem_of_app, list_elem_of_singleton. naive_solver. }
  destruct e as [n [|]]; cbn [fde_is_dir fde_name].
  - destruct (decide (n ∈ seen)) as [Hin|Hnin].
    + destruct (IH seen entries Hnd Hsame) as [? Hiff]. split; [done|]. intros e'. rewrite Hiff. apply Hseen in Hin. naive_solver.
    + apply Hdone, IH; [done|]. apply Hpush; [|by rewrite <-Hseen]. intros n'. rewrite elem_of_cons, elem_of_app, list_elem_of_singleton, Hseen. naive_solver.
  - apply Hdone, IH; [done|]. apply Hpush.
    + intros n'. rewrite Hseen, elem_of_app, list_elem_of_singleton. naive_solver.
    + intros Hin. by apply (Hfiles _ key Hin); [|apply list_elem_of_here|].
Qed.

Lemma sm_sorted_NoDup {V} (m : list (str * V)) : sm_sorted m → NoDup m.*1.
Proof.
  induction m as [|[k v] m IH]; intros Hs; [constructor|]. apply sm_sorted_cons in Hs as [Hs Hn]. constructor; [done|by apply IH].
Qed.

(** What the directory [path] of an archive holds. *)
Definition in_dir files (path : str) (e : FsDirEntry) : Prop :=
  fde_name e ≠ [] ∧ (SLASH ∉ fde_name e) ∧
  if fde_is_dir e then ∃ r, is_Some (sm_get (under path (fde_name e ++ SLASH :: r)) files) else is_Some (sm_get (under path (fde_name e)) files).

Lemma in_dir_child files path e : in_dir files path e ↔ ∃ key, key ∈ files.*1 ∧ child path key = Some e.
Proof.
  unfold in_dir. setoid_rewrite child_iff. unfold child_of. destruct (fde_is_dir e); [setoid_rewrite sm_get_is_Some|rewrite sm_get_is_Some]; naive_solver.
Qed.

Lemma readdir_exact files path : sm_sorted files →
  match TarFs_readdir files path with
  | Ok entries => NoDup entries ∧ ∀ e, e ∈ entries ↔ in_dir files path e
  | Err e => e = FsNotFound ∧ path ≠ [] ∧ ∀ e, ¬ in_dir files path e
  | _ => False
  end.
Proof.
  intros Hs. unfold TarFs_readdir. destruct (readdir_keys_listed path files.*1 [] []) as [Hnd Hiff].
  { by apply sm_sorted_NoDup. }
  { split_and!; [constructor| |]; [intros n; by rewrite !elem_of_nil|by intros ? ? ?%elem_of_nil]. }
  assert (∀ e, e ∈ readdir_keys path files.*1 [] [] ↔ in_dir files path e) as Hall.
  { intros e. rewrite Hiff, in_dir_child, elem_of_nil. tauto. }
  destruct (readdir_keys path files.*1 [] []) as [|e0 es]; [|done]. case_decide; [done|]. split_and!; [done..|].
  intros e He%Hall. by apply elem_of_nil in He.
Qed.

(** C27.  An archive is served as it was packed.  The bytes of a path are those
    of the last entry stored under it, leading [./] removed, and no entry with
    a [.] or [..] component is stored.  A directory lists, once each, exactly
    the files and directories below it, and [stat] knows every entry listed,
    as a directory when it is not also a file. *)
Theorem tar_archive_exact entries files path :
  from_tar_data (Some entries) = Ok files →
  TarFs_open files path = match last (omap (stored path) entries) with Some d => Ok (mkTarFile d 0) | None => Err FsNotFound end ∧
  (clean path = false → TarFs_open files path = Err FsNotFound) ∧
  match TarFs_readdir files path with
  | Ok es => NoDup es ∧ (∀ e, e ∈ es ↔ in_dir files path e) ∧
      ∀ e, e ∈ es → ∃ st, TarFs_stat files (under path (fde_name e)) = Ok st ∧
        (fde_is_dir e = false ∨ sm_get (under path (fde_name e)) files = None → st_is_dir st = fde_is_dir e)
  | Err e => e = FsNotFound ∧ path ≠ [] ∧ ∀ e, ¬ in_dir files path e
  | _ => False
  end.
Proof.
  intros Hf. destruct (add_entries_get entries [] files sm_sorted_nil Hf) as (Hs & _ & Hg).
  assert (TarFs_open files path = match last (omap (stored path) entries) with Some d => Ok (mkTarFile d 0) | None => Err FsNotFound end) as Ho.
  { unfold TarFs_open. rewrite Hg. by destruct (last _). }
  split_and!; [done| |].
  - intros Hc. rewrite Ho. destruct (last _) as [d|] eqn:Hl; [|done]. apply last_Some_elem_of in Hl. apply list_elem_of_omap in Hl as (e & _ & He).
    unfold stored in He. destruct (entry_name e) as [[|]|]; [done| |done]. case_decide as H1; [|done]. destruct H1. congruence.
  - pose proof (readdir_exact files path Hs) as Hr. destruct (TarFs_readdir files path) as [es|e| |]; [|done..].
    destruct Hr as [Hnd Hiff]. split_and!; [done..|]. intros e He. pose proof (proj1 (Hiff e) He) as (Hn & Hsl & Hk). unfold TarFs_stat.
    destruct (sm_get (under path (fde_name e)) files) as [d|] eqn:Ed.
    + eexists. split; [done|]. cbn. intros [->|?]; done.
    + destruct (fde_is_dir e); [|by destruct Hk]. destruct Hk as [r Hr%sm_get_is_Some]. rewrite (proj2 (existsb_exists _ _)); [by eexists|].
      eexists. split; [by apply list_elem_of_In|]. apply bool_decide_eq_true. exists r. apply strip_dir_prefix_Some.
      unfold under. destruct path; [by destruct (fde_name e)|]. rewrite <-app_assoc. done.
Qed.

Definition small_archive : list TarEntry :=
  [mkEntry (Some (lit "./drivers/block")) [1]; mkEntry (Some (lit "init")) [2; 3]; mkEntry (Some (lit "drivers/../init")) [9];
   mkEntry (Some (lit "drivers/block")) [4; 5]; mkEntry (Some (lit "drivers/net/a")) []].
Definition small_files : TarFs :=
  [(lit "drivers/block", [4; 5]); (lit "drivers/net/a", []); (lit "init", [2; 3])].

Lemma tar_archive_exact_witness :
  TarFs_readdir small_files (lit "drivers") = Ok [{| fde_name := lit "block"; fde_is_dir := false |}; {| fde_name := lit "net"; fde_is_dir := true |}] ∧
  TarFs_open small_files (lit "drivers/block") = Ok (mkTarFile [4; 5] 0).
Proof.
  assert (from_tar_data (Some small_archive) = Ok small_files) as Hf by (by vm_compute). split; [by vm_compute|].
  destruct (tar_archive_exact small_archive small_files (lit "drivers/block") Hf) as (-> & _). by vm_compute.
Defined.

(** ** Reading and seeking *)
Definition tf_ok (f : TarFile) : Prop := 0 <= tf_pos f <= len (tf_data f) ∧ len (tf_data f) < 2 ^ 63.

Lemma TarFile_read_exact n f : 0 <= n → tf_ok f →
  TarFile_read n f = (mkTarFile (tf_data f) (Z.min (tf_pos f + n) (len (tf_data f))), Ok (take (Z.to_nat n) (drop (Z.to_nat (tf_pos f)) (tf_data f)))).
Proof.
  intros Hn [Hp _]. unfold TarFile_read. destruct f as [data pos]. cbn in *. rewrite Z.max_r by lia. case_decide as Hd.
  - unfold slice, get_range. rewrite decide_True by lia. replace (pos + _ - pos) with (Z.min n (len data - pos)) by lia. f_equal; [f_equal; lia|].
    f_equal. destruct (decide (n <= len data - pos)); [by rewrite Z.min_l by lia|]. rewrite Z.min_r by lia.
    rewrite !take_ge; [done|rewrite length_drop; unfold len in *; lia..].
  - destruct (decide (n = 0)) as [->|]; [rewrite Z.add_0_r, Z.min_l by lia; done|].
    rewrite Z.min_r by lia. rewrite drop_ge by (unfold len in *; lia). rewrite take_nil. f_equal. f_equal. lia.
Qed.

(** Where a seek goes to, before it is checked. *)
Definition target (f : TarFile) (whence : VfsSeekFrom) : Z :=
  match whence with SeekStart n => n | SeekCurrent n => tf_pos f + n | SeekEnd n => len (tf_data f) + n end.
Definition whence_ok (whence : VfsSeekFrom) : Prop :=
  match whence with SeekStart n => is_u64 n | SeekCurrent n | SeekEnd n => in_i 64 n end.

(** The upper half of the [u64]s is negative as [i64]. *)
Lemma wrap_i_high n : 2 ^ 63 <= n < 2 ^ 64 → wrap_i 64 n = n - 2 ^ 64.
Proof.
  intros Hn. rewrite <-(wrap_i_small 64 (n - 2 ^ 64)) by rng. unfold wrap_i. f_equal.
  replace (n - 2 ^ 64 + 2 ^ (64 - 1)) with (n + 2 ^ (64 - 1) + (-1) * 2 ^ 64) by lia. by rewrite Z_mod_plus_full.
Qed.

(** The addition of [i64]s that the seek makes is out of range. *)
Definition seek_overflows (f : TarFile) (whence : VfsSeekFrom) : bool :=
  match whence with SeekStart _ => false | _ => bool_decide (2 ^ 63 <= target f whence) end.

Definition seek_result (f : TarFile) (whence : VfsSeekFrom) : TarFile * outcome FsError Z :=
  if seek_overflows f whence then (f, Panic)
  else if decide (0 <= target f whence <= len (tf_data f)) then (mkTarFile (tf_data f) (target f whence), Ok (target f whence))
  else (f, Err FsInvalidOffset).

(** The check on the new position, once it is computed. *)
Lemma seek_checked f (z : Z) : tf_ok f → in_i 64 z →
  (if decide (z < 0 ∨ len (tf_data f) < wrap_u 64 z) then fail FsInvalidOffset
   else modify (λ f, mkTarFile (tf_data f) (wrap_u 64 z));; mret (wrap_u 64 z)) f =
  if decide (0 <= z <= len (tf_data f)) then (mkTarFile (tf_data f) z, Ok z) else (f, Err (A := Z) FsInvalidOffset).
Proof.
  intros [Hp Hl] Hz. destruct (decide (0 <= z <= _)) as [Hin|Hout].
  - rewrite wrap_u_small by rng. rewrite decide_False by lia. done.
  - rewrite decide_True; [done|]. destruct (decide (z < 0)); [by left|]. right. rewrite wrap_u_small by rng. lia.
Qed.

Lemma TarFile_seek_exact whence f : whence_ok whence → tf_ok f → TarFile_seek whence f = seek_result f whence.
Proof.
  intros Hw Hok. pose proof Hok as [Hp Hl]. unfold TarFile_seek, seek_result, seek_overflows, gets, liftO, mbind, ST_bind, seek_target, target. cbn [id].
  destruct whence as [n|n|n]; cbn in Hw.
  - rewrite seek_checked by (done || by apply wrap_i_range). destruct (decide (n < 2 ^ 63)).
    + by rewrite wrap_i_small by rng.
    + rewrite (decide_False (P := 0 <= n <= _)) by lia. rewrite decide_False; [done|].
      rewrite wrap_i_high by rng. rng.
  - rewrite wrap_i_small by rng. destruct (decide (in_i 64 _)) as [Hi|Hi].
    + rewrite bool_decide_eq_false_2 by rng. by apply seek_checked.
    + rewrite bool_decide_eq_true_2 by rng. done.
  - rewrite wrap_i_small by rng. destruct (decide (in_i 64 _)) as [Hi|Hi].
    + rewrite bool_decide_eq_false_2 by rng. by apply seek_checked.
    + rewrite bool_decide_eq_true_2 by rng. done.
Qed.

(** A file of the archive reads like the array of its bytes: a read
    returns the bytes from the position on, as many as are left, and moves
    past them; a seek goes to the position it names when that is in the file,
    is refused when it is not, and panics when the 64-bit addition overflows;
    the position stays in the file, and one read after another is one read. *)
Theorem tar_file_exact f n k whence :
  tf_ok f → 0 <= n → 0 <= k → whence_ok whence →
  let '(g, r) := TarFile_read n f in
  r = Ok (take (Z.to_nat n) (drop (Z.to_nat (tf_pos f)) (tf_data f))) ∧
  tf_data g = tf_data f ∧ tf_ok g ∧
  (TarFile_read n f).2 ≫= (λ a, (TarFile_read k g).2 ≫= λ b, Ok (a ++ b)) = (TarFile_read (n + k) f).2 ∧
  TarFile_seek whence f = seek_result f whence ∧ tf_ok (TarFile_seek whence f).1.
Proof.
  intros Hok Hn Hk Hw. rewrite (TarFile_read_exact n f Hn Hok). pose proof Hok as [Hp Hl].
  assert (tf_ok (mkTarFile (tf_data f) (Z.min (tf_pos f + n) (len (tf_data f))))) as Hg by (unfold tf_ok; cbn; lia).
  split_and!; [done..| | |].
  - rewrite (TarFile_read_exact k _ Hk Hg), (TarFile_read_exact (n + k) f) by (done || lia). cbn. f_equal. rewrite Z2Nat.inj_add, <-take_take_drop by lia. f_equal. f_equal.
    rewrite drop_drop. destruct (decide (tf_pos f + n <= len (tf_data f))).
    + rewrite Z.min_l by lia. f_equal. lia.
    + rewrite Z.min_r by lia. rewrite !drop_ge; [done|unfold len in *; lia..].
  - by apply TarFile_seek_exact.
  - rewrite TarFile_seek_exact by done. unfold seek_result. destruct (seek_overflows _ _); [done|]. destruct (decide _); [|done]. unfold tf_ok. cbn. lia.
Qed.

Lemma tar_file_exact_witness :
  let f := mkTarFile [5; 6; 7] 1 in
  TarFile_read 8 f = (mkTarFile [5; 6; 7] 3, Ok [6; 7]) ∧ TarFile_seek (SeekEnd (-2)) f = seek_result f (SeekEnd (-2)).
Proof.
  intros f. assert (tf_ok f) as Hok by (unfold tf_ok; vm_compute; by split; [split|]). split; [by vm_compute|].
  pose proof (tar_file_exact f 8 0 (SeekEnd (-2)) Hok ltac:(lia) ltac:(lia) ltac:(cbn; rng)) as H.
  destruct (TarFile_read 8 f) as [g r]. apply H.
Defined.
