(* ===== verification/VirtioQueue.v ===== *)
(** * Requests in flight ([devices/virtio_block/futures.rs], the request
    bookkeeping of [mod.rs], [request.rs])

    A block request is a future: polled first it submits to the virtqueue and
    registers its waker under the token the queue gives it; the interrupt
    handler looks at the head of the used ring, marks the token complete and
    wakes the future; polled again the future takes its request off the ring.
    A future dropped in flight leaves its DMA buffer with the device.

    The virtqueue itself is the crate [virtio_drivers]: [VirtioBlk] has the four
    calls the driver makes and [VirtioBlkLaws] what the crate documents of them.
    The steps of the system are the polls and drops of the executor, the
    completions of the device, and the interrupts, in any order. *)

From S2P Require Import Prelude FsTypes BlockDevice.

(** ** The virtqueue *)
Inductive VirtioError : Type := QueueFull | VirtioFailure.

Class VirtioBlk (Q : Type) : Type := {
  (** [read_blocks_nb] and [write_blocks_nb]: the request is on the ring, or not. *)
  vq_blocks_nb : bool → Z → Z → Q → Q * (VirtioError + Z);
  (** [peek_used]: the head of the used ring. *)
  vq_peek_used : Q → option Z;
  (** [complete_read_blocks] and [complete_write_blocks]: [true] for success. *)
  vq_complete : bool → Z → Q → Q * bool;
}.

(** The tokens the device has, and those it has given back and that have not
    been taken off the used ring, oldest first. *)
Class VirtioBlkLaws (Q : Type) `{!VirtioBlk Q} : Type := {
  vq_flight : Q → gset Z;
  vq_used : Q → list Z;
  vq_peek_head q : vq_peek_used q = head (vq_used q);
  vq_submit_new r s n q q' t : vq_blocks_nb r s n q = (q', inr t) →
    (t ∉ vq_flight q) ∧ (t ∉ vq_used q) ∧
    (vq_flight q' = {[t]} ∪ vq_flight q ∧ vq_used q' = vq_used q ∨
     vq_flight q' = vq_flight q ∧ vq_used q' = vq_used q ++ [t]);
  vq_submit_fail r s n q q' e : vq_blocks_nb r s n q = (q', inl e) →
    vq_flight q' = vq_flight q ∧ vq_used q' = vq_used q;
  vq_complete_pop r t q used : vq_used q = t :: used →
    vq_flight (vq_complete r t q).1 = vq_flight q ∧ vq_used (vq_complete r t q).1 = used;
  (** One step of the device: it gives back a token. *)
  vq_device : Z → Q → Q → Prop;
  vq_device_gives t q q' : vq_device t q q' →
    (t ∈ vq_flight q) ∧ vq_flight q' = vq_flight q ∖ {[t]} ∧ vq_used q' = vq_used q ++ [t];
}.

(** ** State *)

(** [AsyncIoState]: [Completed] lasts only inside one poll, which is [finalize]. *)
Inductive AsyncIoState : Type :=
| NotSubmitted
| Submitted (token : Z).

(** A DMA buffer is named by the future that allocated it. *)
Record BlockFuture : Type := {
  fu_read : bool;
  fu_sector : Z;
  fu_buf_len : Z;
  fu_dma : option Z;
  fu_state : AsyncIoState;
}.

Record CancelledRequest : Type := { cr_dma : Z; cr_read : bool }.

(** [VirtioBlockDeviceInner]: the maps keyed by process ([pending_requests],
    [queued_requests]) have no code that fills them and are left out. *)
Record VbInner (Q : Type) : Type := mkVb {
  vb_device : Q;
  vb_async_wakers : gmap Z Z;
  vb_completed_tokens : gset Z;
  vb_cancelled_requests : gmap Z CancelledRequest;
  vb_queue_full_wakers : list Z;
}.
Arguments mkVb {Q}.
Arguments vb_device {Q}.
Arguments vb_async_wakers {Q}.
Arguments vb_completed_tokens {Q}.
Arguments vb_cancelled_requests {Q}.
Arguments vb_queue_full_wakers {Q}.

(** [new_read], [new_write]: a write has copied its data already. *)
Definition new_read (sector buf_len : Z) : BlockFuture :=
  {| fu_read := true; fu_sector := sector; fu_buf_len := buf_len; fu_dma := None; fu_state := NotSubmitted |}.
Definition new_write (fid sector buf_len : Z) : BlockFuture :=
  {| fu_read := false; fu_sector := sector; fu_buf_len := buf_len; fu_dma := Some fid; fu_state := NotSubmitted |}.

Section driver.
Context {Q : Type} `{!VirtioBlk Q}.
Implicit Types dev : VbInner Q.

(** The result of a poll. *)
Inductive Poll : Type :=
| Pending (fut : BlockFuture)
| Ready (r : outcome BlockError Z).

(** The arm [Completed]. *)
Definition finalize (fut : BlockFuture) (token : Z) dev : VbInner Q * Poll :=
  let '(q, ok) := vq_complete (fu_read fut) token (vb_device dev) in
  (mkVb q (vb_async_wakers dev) (vb_completed_tokens dev) (vb_cancelled_requests dev) (vb_queue_full_wakers dev),
   Ready (if (ok : bool) then Ok (fu_buf_len fut) else Err BlkIoError)).

(** [if Op::IS_READ && this.dma_buffer.is_none() { .. }]. *)
Definition with_dma (fid : Z) (fut : BlockFuture) : BlockFuture :=
  if fu_read fut && bool_decide (fu_dma fut = None)
  then {| fu_read := true; fu_sector := fu_sector fut; fu_buf_len := fu_buf_len fut;
          fu_dma := Some fid; fu_state := fu_state fut |}
  else fut.

Definition poll (fid waker : Z) (fut : BlockFuture) dev : VbInner Q * Poll :=
  match fu_state fut with
  | NotSubmitted =>
      let fut := with_dma fid fut in
      match vq_blocks_nb (fu_read fut) (fu_sector fut) (fu_buf_len fut) (vb_device dev) with
      | (q, inl QueueFull) =>
          (mkVb q (vb_async_wakers dev) (vb_completed_tokens dev) (vb_cancelled_requests dev)
             (vb_queue_full_wakers dev ++ [waker]), Pending fut)
      | (q, inl VirtioFailure) =>
          (mkVb q (vb_async_wakers dev) (vb_completed_tokens dev) (vb_cancelled_requests dev)
             (vb_queue_full_wakers dev), Ready (Err BlkIoError))
      | (q, inr token) =>
          if decide (vq_peek_used q = Some token) then
            finalize fut token (mkVb q (vb_async_wakers dev) (vb_completed_tokens dev)
                                  (vb_cancelled_requests dev) (vb_queue_full_wakers dev))
          else
            (mkVb q (<[token := waker]> (vb_async_wakers dev)) (vb_completed_tokens dev)
               (vb_cancelled_requests dev) (vb_queue_full_wakers dev),
             Pending {| fu_read := fu_read fut; fu_sector := fu_sector fut; fu_buf_len := fu_buf_len fut;
                        fu_dma := fu_dma fut; fu_state := Submitted token |})
      end
  | Submitted token =>
      if decide (token ∈ vb_completed_tokens dev) then
        finalize fut token (mkVb (vb_device dev) (vb_async_wakers dev) (vb_completed_tokens dev ∖ {[token]})
                              (vb_cancelled_requests dev) (vb_queue_full_wakers dev))
      else
        (mkVb (vb_device dev) (<[token := waker]> (vb_async_wakers dev)) (vb_completed_tokens dev)
           (vb_cancelled_requests dev) (vb_queue_full_wakers dev), Pending fut)
  end.

Definition register_cancelled (token dma : Z) (is_read : bool) dev : VbInner Q :=
  mkVb (vb_device dev) (delete token (vb_async_wakers dev)) (vb_completed_tokens dev ∖ {[token]})
    (<[token := {| cr_dma := dma; cr_read := is_read |}]> (vb_cancelled_requests dev)) (vb_queue_full_wakers dev).

(** [impl Drop]. *)
Definition drop_future (fut : BlockFuture) dev : VbInner Q :=
  match fu_state fut, fu_dma fut with
  | Submitted token, Some dma => register_cancelled token dma (fu_read fut) dev
  | _, _ => dev
  end.

(** The body of the loop of [process_completions], every path of which leaves
    the loop: the device and the wakers it calls. *)
Definition complete_head dev : VbInner Q * list Z :=
  match vq_peek_used (vb_device dev) with
  | None => (dev, [])
  | Some token =>
      match vb_async_wakers dev !! token with
      | Some w =>
          (mkVb (vb_device dev) (delete token (vb_async_wakers dev)) ({[token]} ∪ vb_completed_tokens dev)
             (vb_cancelled_requests dev) (vb_queue_full_wakers dev), [w])
      | None =>
          match vb_cancelled_requests dev !! token with
          | Some c =>
              (mkVb (vq_complete (cr_read c) token (vb_device dev)).1 (vb_async_wakers dev)
                 (vb_completed_tokens dev) (delete token (vb_cancelled_requests dev)) (vb_queue_full_wakers dev), [])
          | None => (dev, [])
          end
      end
  end.

(** [process_completions]: then everything that waits for space is woken. *)
Definition process_completions dev : VbInner Q * list Z :=
  let '(dev, woken) := complete_head dev in
  (mkVb (vb_device dev) (vb_async_wakers dev) (vb_completed_tokens dev) (vb_cancelled_requests dev) [],
   woken ++ vb_queue_full_wakers dev).
End driver.

(** ** The system *)
Record Sys (Q : Type) : Type := mkSys {
  sy_dev : VbInner Q;
  sy_futs : gmap Z BlockFuture;
  (** The future whose field [response_status] the device was told to fill for
      a token. *)
  sy_status : gmap Z Z;
  (** Interrupts raised and not delivered. *)
  sy_irqs : nat;
  (** Futures to poll. *)
  sy_woken : gset Z;
}.
Arguments mkSys {Q}.
Arguments sy_dev {Q}.
Arguments sy_futs {Q}.
Arguments sy_status {Q}.
Arguments sy_irqs {Q}.
Arguments sy_woken {Q}.

(** The status byte of a request is a field of the future that submits it. *)
Definition note_status (fid : Z) (fut fut' : BlockFuture) (m : gmap Z Z) : gmap Z Z :=
  match fu_state fut, fu_state fut' with
  | NotSubmitted, Submitted t => <[t := fid]> m
  | _, _ => m
  end.

Inductive step {Q} `{VirtioBlkLaws Q} : Sys Q → Sys Q → Prop :=
| step_new dev futs st irqs woken fid sector n fut :
    futs !! fid = None → fut = new_read sector n ∨ fut = new_write fid sector n →
    step (mkSys dev futs st irqs woken) (mkSys dev (<[fid := fut]> futs) st irqs ({[fid]} ∪ woken))
| step_pending dev dev' futs st irqs woken fid fut fut' :
    futs !! fid = Some fut → poll fid fid fut dev = (dev', Pending fut') →
    step (mkSys dev futs st irqs woken)
      (mkSys dev' (<[fid := fut']> futs) (note_status fid fut fut' st) irqs (woken ∖ {[fid]}))
| step_ready dev dev' futs st irqs woken fid fut r :
    futs !! fid = Some fut → poll fid fid fut dev = (dev', Ready r) →
    step (mkSys dev futs st irqs woken) (mkSys dev' (delete fid futs) st irqs (woken ∖ {[fid]}))
| step_drop dev futs st irqs woken fid fut :
    futs !! fid = Some fut →
    step (mkSys dev futs st irqs woken)
      (mkSys (drop_future fut dev) (delete fid futs) st irqs (woken ∖ {[fid]}))
| step_device dev futs st irqs woken q t :
    vq_device t (vb_device dev) q →
    step (mkSys dev futs st irqs woken)
      (mkSys (mkVb q (vb_async_wakers dev) (vb_completed_tokens dev) (vb_cancelled_requests dev)
                (vb_queue_full_wakers dev)) futs st (S irqs) woken)
| step_irq dev futs st irqs woken :
    step (mkSys dev futs st (S irqs) woken)
      (mkSys (process_completions dev).1 futs st irqs (woken ∪ list_to_set (process_completions dev).2)).

(** [try_lock] fails: the interrupt came while the device was locked. *)
Inductive step_missed {Q} : Sys Q → Sys Q → Prop :=
| step_irq_missed dev futs st irqs woken :
    step_missed (mkSys dev futs st (S irqs) woken) (mkSys dev futs st irqs woken).

(** A device at rest. *)
Definition initial {Q} `{VirtioBlkLaws Q} (s : Sys Q) : Prop :=
  ∃ q, vq_flight q = ∅ ∧ vq_used q = [] ∧ s = mkSys (mkVb q ∅ ∅ ∅ []) ∅ ∅ 0 ∅.

Definition reachable {Q} `{VirtioBlkLaws Q} (s : Sys Q) : Prop := 
  ∃ s0, initial s0 ∧ rtc (λ s s', step s s' ∨ step_missed s s') s0 s.

(** ** Ownership *)
Section ownership.
Context {Q : Type} `{VirtioBlkLaws Q}.
Implicit Types s : Sys Q.

(** The tokens the device knows of. *)
Definition on_ring (q : Q) (t : Z) : Prop := t ∈ vq_flight q ∨ t ∈ vq_used q.
Definition holds (futs : gmap Z BlockFuture) (fid t : Z) : Prop :=
  ∃ fut, futs !! fid = Some fut ∧ fu_state fut = Submitted t.

Record owned (dev : VbInner Q) (futs : gmap Z BlockFuture) : Prop := {
  ow_owner t : on_ring (vb_device dev) t ↔
    (∃ fid, holds futs fid t) ∨ is_Some (vb_cancelled_requests dev !! t);
  ow_one t fid fid' : holds futs fid t → holds futs fid' t → fid = fid';
  ow_live t fid : holds futs fid t → vb_cancelled_requests dev !! t = None;
  ow_dma fid fut : futs !! fid = Some fut →
    (fu_dma fut = Some fid ∨ fu_dma fut = None ∧ fu_read fut = true ∧ fu_state fut = NotSubmitted);
  ow_ring : NoDup (vq_used (vb_device dev)) ∧ ∀ t, t ∈ vq_flight (vb_device dev) → t ∉ vq_used (vb_device dev);
  ow_completed t : t ∈ vb_completed_tokens dev →
    head (vq_used (vb_device dev)) = Some t ∧ vb_async_wakers dev !! t = None;
  ow_waits t fid : holds futs fid t →
    (t ∈ vb_completed_tokens dev) ∨ vb_async_wakers dev !! t = Some fid;
  ow_waker t w : vb_async_wakers dev !! t = Some w → holds futs w t;
  ow_completed_live t : t ∈ vb_completed_tokens dev → ∃ fid, holds futs fid t;
}.

Lemma holds_insert futs fid fut f t :
  holds (<[fid := fut]> futs) f t ↔ f = fid ∧ fu_state fut = Submitted t ∨ f ≠ fid ∧ holds futs f t.
Proof.
  unfold holds. destruct (decide (f = fid)) as [->|Hne].
  - setoid_rewrite lookup_insert_eq. split; [intros (x & [= <-] & Hx); auto|].
    intros [[_ Hx]|[? _]]; [eauto|done].
  - setoid_rewrite lookup_insert_ne; [|done]. split; [auto|]. by intros [[? _]|[_ ?]].
Qed.
Lemma holds_delete futs fid f t : holds (delete fid futs) f t ↔ f ≠ fid ∧ holds futs f t.
Proof.
  unfold holds. split.
  - intros (x & Hx & Ht). apply lookup_delete_Some in Hx as [? ?]. eauto.
  - intros (Hne & x & Hx & Ht). exists x. by rewrite lookup_delete_ne.
Qed.
Lemma holds_not futs fid fut t : futs !! fid = Some fut → fu_state fut = NotSubmitted → ¬ holds futs fid t.
Proof. intros Hf Hs (x & Hx & Ht). congruence. Qed.

(** A future that is not on the ring comes, changes or goes. *)
Lemma owned_same_holds dev futs futs' :
  owned dev futs → (∀ f t, holds futs' f t ↔ holds futs f t) →
  (∀ fid fut, futs' !! fid = Some fut →
    fu_dma fut = Some fid ∨ fu_dma fut = None ∧ fu_read fut = true ∧ fu_state fut = NotSubmitted) →
  owned dev futs'.
Proof.
  intros [Ho H1 Hl Hd Hr Hc Hw Hk Hcl] Hh Hd'. split; try done; setoid_rewrite Hh; eauto.
Qed.

(** The device is replaced by one with the same rings. *)
Lemma owned_same_ring dev dev' futs :
  owned dev futs →
  vq_flight (vb_device dev') = vq_flight (vb_device dev) → vq_used (vb_device dev') = vq_used (vb_device dev) →
  vb_async_wakers dev' = vb_async_wakers dev → vb_completed_tokens dev' = vb_completed_tokens dev →
  vb_cancelled_requests dev' = vb_cancelled_requests dev → owned dev' futs.
Proof.
  intros [Ho H1 Hl Hd Hr Hc Hw Hk Hcl] E1 E2 E3 E4 E5. unfold on_ring in *.
  split; unfold on_ring; rewrite ?E1, ?E2, ?E3, ?E4, ?E5; auto.
Qed.

(** A request is submitted and stays with the device. *)
Lemma owned_submit dev futs fid fut q t :
  owned dev futs → futs !! fid = Some fut → fu_state fut = NotSubmitted →
  t ∉ vq_flight (vb_device dev) → t ∉ vq_used (vb_device dev) →
  (vq_flight q = {[t]} ∪ vq_flight (vb_device dev) ∧ vq_used q = vq_used (vb_device dev) ∨
   vq_flight q = vq_flight (vb_device dev) ∧ vq_used q = vq_used (vb_device dev) ++ [t]) →
  owned (mkVb q (<[t := fid]> (vb_async_wakers dev)) (vb_completed_tokens dev) (vb_cancelled_requests dev)
           (vb_queue_full_wakers dev))
    (<[fid := {| fu_read := fu_read fut; fu_sector := fu_sector fut; fu_buf_len := fu_buf_len fut;
                 fu_dma := Some fid; fu_state := Submitted t |}]> futs).
Proof.
  intros [Ho H1 Hl Hd Hr Hc Hw Hk Hcl] Hf Hs Hnf Hnu Hq.
  assert (∀ f, ¬ holds futs f t) as Hnt.
  { intros f Hh. destruct (proj2 (Ho t)) as [?|?]; eauto. }
  assert (vb_cancelled_requests dev !! t = None) as Hct.
  { apply eq_None_not_Some. intros Hsome. destruct (proj2 (Ho t)) as [?|?]; eauto. }
  assert (t ∉ vb_completed_tokens dev) as Hcomp.
  { intros Hin. by destruct (Hcl t Hin) as [f ?%Hnt]. }
  assert (∀ u, on_ring q u ↔ u = t ∨ on_ring (vb_device dev) u) as Hring.
  { intros u. unfold on_ring. destruct Hq as [[-> ->]|[-> ->]]; set_solver. }
  pose proof (holds_not futs fid fut) as Hns. specialize (λ t, Hns t Hf Hs).
  split; cbn [vb_device vb_async_wakers vb_completed_tokens vb_cancelled_requests];
    try setoid_rewrite holds_insert; cbn [fu_state].
  - intros u. rewrite Hring, Ho. split.
    + intros [->|[[f Hh]|?]]; [by left; exists fid; left| |by right].
      left. exists f. right. split; [|done]. by intros ->; apply (Hns u).
    + intros [[f [[-> [= ->]]|[_ Hh]]]|?]; [by left|by right; left; exists f|by right; right].
  - intros u f f' [[-> [= ->]]|[Hne Hh]] [[-> Heq]|[Hne' Hh']]; try done.
    + by destruct (Hnt f').
    + injection Heq as ->. by destruct (Hnt f).
    + eauto.
  - intros u f [[-> [= ->]]|[_ Hh]]; eauto.
  - intros f x Hx. apply lookup_insert_Some in Hx as [[<- <-]|[_ Hx]]; [by left|eauto].
  - destruct Hr as [Hnd Hdis]. destruct Hq as [[-> ->]|[-> ->]].
    + split; [done|]. set_solver.
    + split; [|set_solver]. apply NoDup_app. split_and!; [done|set_solver|apply NoDup_singleton].
  - intros u Hu. destruct (Hc u Hu) as [Hhead Hnone]. split.
    + destruct Hq as [[_ ->]|[_ ->]]; [done|]. by destruct (vq_used (vb_device dev)).
    + rewrite lookup_insert_ne; [done|]. by intros ->.
  - intros u f [[-> [= ->]]|[_ Hh]]; [right; apply lookup_insert_eq|].
    destruct (Hw u f Hh) as [?|Hwk]; [by left|right]. rewrite lookup_insert_ne; [done|]. intros ->. by destruct (Hnt f).
  - intros u w Hu. apply lookup_insert_Some in Hu as [[<- <-]|[_ Hu]]; [by left|].
    right. split; [|eauto]. intros ->. apply (Hns u). eauto.
  - intros u Hu. destruct (Hcl u Hu) as [f Hh]. exists f. right. split; [|done]. intros ->. by apply (Hns u).
Qed.

(** A completed request is taken off the ring by its future. *)
Lemma owned_finish dev futs fid fut q t used :
  owned dev futs → futs !! fid = Some fut → fu_state fut = Submitted t → t ∈ vb_completed_tokens dev →
  vq_used (vb_device dev) = t :: used → vq_flight q = vq_flight (vb_device dev) → vq_used q = used →
  owned (mkVb q (vb_async_wakers dev) (vb_completed_tokens dev ∖ {[t]}) (vb_cancelled_requests dev)
           (vb_queue_full_wakers dev)) (delete fid futs).
Proof.
  intros [Ho H1 Hl Hd Hr Hc Hw Hk Hcl] Hf Hs Hin Hu Eq Eu.
  assert (holds futs fid t) as Ht by (by exists fut).
  destruct Hr as [Hnd Hdis]. rewrite Hu in Hnd, Hdis. apply NoDup_cons in Hnd as [Hnt Hnd].
  assert (∀ u, u ∈ vb_completed_tokens dev → u = t) as Honly.
  { intros u Hcu. destruct (Hc u Hcu) as [Hh _]. rewrite Hu in Hh. by injection Hh. }
  assert (∀ u, on_ring q u ↔ u ≠ t ∧ on_ring (vb_device dev) u) as Hring.
  { intros u. unfold on_ring. rewrite Eq, Eu, Hu. destruct (decide (u = t)) as [->|Hne]; [|set_solver].
    split; [|by intros []]. intros [Hfl|?]; [|done]. destruct (Hdis t Hfl). set_solver. }
  split; cbn [vb_device vb_async_wakers vb_completed_tokens vb_cancelled_requests];
    try setoid_rewrite holds_delete.
  - intros u. rewrite Hring, Ho. split.
    + intros (Hne & [[f Hh]|?]); [|by right]. left. exists f. split; [|done]. intros ->.
      destruct Hh as (x & Hx & Hsx). congruence.
    + intros [(f & Hne & Hh)|Hsome].
      * split; [|eauto]. intros ->. apply Hne. eauto.
      * split; [|eauto]. intros ->. rewrite (Hl t fid Ht) in Hsome. by destruct Hsome.
  - intros u f f' [_ ?] [_ ?]. eauto.
  - intros u f [_ ?]. eauto.
  - intros f x [_ Hx]%lookup_delete_Some. eauto.
  - rewrite Eq, Eu. split; [done|]. intros u Hfl. pose proof (Hdis u Hfl). set_solver.
  - intros u [Hcu Hne]%elem_of_difference. destruct Hne. by apply elem_of_singleton, Honly.
  - intros u f [Hne Hh]. destruct (Hw u f Hh) as [Hcu|?]; [|by right].
    pose proof (Honly u Hcu) as ->. destruct Hne. eauto.
  - intros u w Hu'. pose proof (Hk u w Hu') as Hh. split; [|done]. intros ->.
    destruct Hh as (x & Hx & Hsx). assert (u = t) as -> by congruence.
    destruct (Hc t Hin) as [_ Hnone]. congruence.
  - intros u [Hcu Hne]%elem_of_difference. destruct Hne. by apply elem_of_singleton, Honly.
Qed.

(** A future is dropped in flight: the device keeps its buffer. *)
Lemma owned_cancel dev futs fid fut t dma r :
  owned dev futs → futs !! fid = Some fut → fu_state fut = Submitted t →
  owned (register_cancelled t dma r dev) (delete fid futs).
Proof.
  intros [Ho H1 Hl Hd Hr Hc Hw Hk Hcl] Hf Hs. assert (holds futs fid t) as Ht by (by exists fut).
  assert (∀ f, holds futs f t → f = fid) as Hone by eauto.
  assert (∀ u, holds futs fid u → u = t) as Honly.
  { intros u (x & Hx & Hsx). congruence. }
  split; cbn [register_cancelled vb_device vb_async_wakers vb_completed_tokens vb_cancelled_requests];
    try setoid_rewrite holds_delete.
  - intros u. rewrite Ho, lookup_insert_is_Some. split.
    + intros [[f Hh]|?]; [|destruct (decide (t = u)); auto].
      destruct (decide (f = fid)) as [->|]; [right; left; symmetry; auto|eauto].
    + intros [(f & _ & Hh)|[<-|[_ ?]]]; eauto.
  - intros u f f' [_ ?] [_ ?]. eauto.
  - intros u f [Hne Hh]. rewrite lookup_insert_ne; [eauto|]. intros <-. eauto.
  - intros f x [_ Hx]%lookup_delete_Some. eauto.
  - done.
  - intros u [Hcu Hne]%elem_of_difference. destruct (Hc u Hcu). split; [done|].
    rewrite lookup_delete_ne; [done|]. set_solver.
  - intros u f [Hne Hh]. assert (u ≠ t) by (intros ->; eauto).
    destruct (Hw u f Hh); [left; set_solver|right]. by rewrite lookup_delete_ne.
  - intros u w [Hne Hu]%lookup_delete_Some. split; [|eauto]. intros ->. apply Hne. symmetry. eauto.
  - intros u [Hcu Hne]%elem_of_difference. destruct (Hcl u Hcu) as [f Hh]. exists f. split; [|done].
    intros ->. apply Hne. apply elem_of_singleton. auto.
Qed.

(** The device gives a token back. *)
Lemma owned_device dev futs q t :
  owned dev futs → vq_device t (vb_device dev) q →
  owned (mkVb q (vb_async_wakers dev) (vb_completed_tokens dev) (vb_cancelled_requests dev)
           (vb_queue_full_wakers dev)) futs.
Proof.
  intros [Ho H1 Hl Hd Hr Hc Hw Hk Hcl] Hdev. apply vq_device_gives in Hdev as (Hin & Ef & Eu).
  destruct Hr as [Hnd Hdis].
  split; cbn [vb_device vb_async_wakers vb_completed_tokens vb_cancelled_requests]; try done.
  - intros u. rewrite <- Ho. unfold on_ring. rewrite Ef, Eu. destruct (decide (u = t)) as [->|]; set_solver.
  - rewrite Ef, Eu. split; [|set_solver]. apply NoDup_app. split_and!; [done| |apply NoDup_singleton].
    intros u Hu ->%list_elem_of_singleton. by destruct (Hdis t).
  - intros u Hu. rewrite Eu. destruct (Hc u Hu) as [Hh Hn]. split; [|done].
    by destruct (vq_used (vb_device dev)).
Qed.

(** The interrupt handler. *)
Lemma owned_complete_head dev futs : owned dev futs → owned (complete_head dev).1 futs.
Proof.
  intros Hown. unfold complete_head. rewrite vq_peek_head.
  destruct (vq_used (vb_device dev)) as [|t used] eqn:Hu; cbn [head]; [done|].
  pose proof Hown as [Ho H1 Hl Hd Hr Hc Hw Hk Hcl].
  destruct (vb_async_wakers dev !! t) as [w|] eqn:Hwt.
  - split; cbn [fst vb_device vb_async_wakers vb_completed_tokens vb_cancelled_requests]; try done.
    + intros u [->%elem_of_singleton|Hcu]%elem_of_union.
      * rewrite Hu. by rewrite lookup_delete_eq.
      * destruct (Hc u Hcu). split; [done|]. rewrite lookup_delete_ne; [done|]. intros <-. congruence.
    + intros u f Hh. destruct (Hw u f Hh); [left; set_solver|].
      destruct (decide (u = t)) as [->|]; [left; set_solver|right]. by rewrite lookup_delete_ne.
    + intros u x [_ Hx]%lookup_delete_Some. eauto.
    + intros u [->%elem_of_singleton|Hcu]%elem_of_union; [|eauto]. exists w. eauto.
  - destruct (vb_cancelled_requests dev !! t) as [c|] eqn:Hct; [|done].
    destruct (vq_complete_pop (cr_read c) t (vb_device dev) used Hu) as [Ef Eu].
    destruct Hr as [Hnd Hdis]. rewrite Hu in Hnd. apply NoDup_cons in Hnd as [Hnt Hnd].
    assert (∀ f, ¬ holds futs f t) as Hnh by (intros f Hh; rewrite (Hl t f Hh) in Hct; done).
    split; cbn [fst vb_device vb_async_wakers vb_completed_tokens vb_cancelled_requests]; try done.
    + intros u. unfold on_ring. rewrite Ef, Eu. specialize (Ho u). unfold on_ring in Ho. rewrite Hu in Ho.
      destruct (decide (u = t)) as [->|Hne].
      * rewrite lookup_delete_eq. split; [|intros [[f Hh]|[? ?]]; [by destruct (Hnh f)|done]].
        intros [Hfl|?]; [|done]. destruct (Hdis t Hfl). rewrite Hu. set_solver.
      * rewrite lookup_delete_ne by done. rewrite <- Ho. set_solver.
    + intros u f Hh. rewrite lookup_delete_None. eauto.
    + rewrite Ef, Eu. split; [done|]. intros u Hfl. specialize (Hdis u Hfl). rewrite Hu in Hdis. set_solver.
    + intros u Hcu. destruct (Hc u Hcu) as [Hh _]. rewrite Hu in Hh. injection Hh as ->.
      destruct (Hcl u Hcu) as [f Hf]. by destruct (Hnh f).
Qed.

(** A poll that finalises takes its own request, the oldest on the used ring. *)
Lemma finalize_head dev futs fid fut t :
  owned dev futs → futs !! fid = Some fut → fu_state fut = Submitted t → t ∈ vb_completed_tokens dev →
  ∃ used, vq_used (vb_device dev) = t :: used ∧
    vq_flight (vq_complete (fu_read fut) t (vb_device dev)).1 = vq_flight (vb_device dev) ∧
    vq_used (vq_complete (fu_read fut) t (vb_device dev)).1 = used.
Proof.
  intros Hown Hf Hs Hin. destruct (ow_completed _ _ Hown t Hin) as [Hh _].
  destruct (vq_used (vb_device dev)) as [|t' used] eqn:Hu; [done|]. injection Hh as ->.
  exists used. split; [done|]. by apply vq_complete_pop.
Qed.

Definition polled (dev : VbInner Q) (futs : gmap Z BlockFuture) (fid : Z) (r : VbInner Q * Poll) : Prop :=
  match r with
  | (dev', Pending fut') => owned dev' (<[fid := fut']> futs)
  | (dev', Ready _) => owned dev' (delete fid futs)
  end.

Lemma owned_poll_first dev futs fid fut :
  owned dev futs → futs !! fid = Some fut → fu_state fut = NotSubmitted →
  polled dev futs fid (poll fid fid fut dev).
Proof.
  intros Hown Hf Hs. unfold poll. rewrite Hs. set (fut1 := with_dma fid fut).
  assert (fu_state fut1 = NotSubmitted ∧ fu_dma fut1 = Some fid) as [Hs1 Hd1].
  { unfold fut1, with_dma. destruct (ow_dma _ _ Hown fid fut Hf) as [Hdma|(Hdma & Hrd & _)]; rewrite Hdma.
    - rewrite bool_decide_false by done. by rewrite andb_false_r.
    - rewrite Hrd. by rewrite bool_decide_true. }
  assert (owned dev (<[fid := fut1]> futs)) as Hown1.
  { apply (owned_same_holds dev futs); [done| |].
    - intros f t. rewrite holds_insert. split; [intros [[_ ?]|[_ ?]]; [congruence|done]|].
      intros Hh. right. split; [|done]. intros ->. by apply (holds_not futs fid fut t Hf Hs).
    - intros f x [[<- <-]|[_ Hx]]%lookup_insert_Some; [by left|by apply (ow_dma _ _ Hown)]. }
  assert (owned dev (delete fid futs)) as Hown2.
  { apply (owned_same_holds dev futs); [done| |].
    - intros f t. rewrite holds_delete. split; [by intros []|]. intros Hh. split; [|done].
      intros ->. by apply (holds_not futs fid fut t Hf Hs).
    - intros f x [_ Hx]%lookup_delete_Some. by apply (ow_dma _ _ Hown). }
  destruct (vq_blocks_nb _ _ _ _) as [q [[]|t]] eqn:Hnb.
  - apply vq_submit_fail in Hnb as [Ef Eu]. by apply (owned_same_ring dev).
  - apply vq_submit_fail in Hnb as [Ef Eu]. by apply (owned_same_ring dev).
  - apply vq_submit_new in Hnb as (Hnf & Hnu & Hq). destruct (decide _) as [Hpeek|Hpeek].
    + rewrite vq_peek_head in Hpeek. destruct Hq as [[_ Eu]|[Ef Eu]]; rewrite Eu in Hpeek.
      { destruct (vq_used (vb_device dev)); [done|]. injection Hpeek as ->. set_solver. }
      destruct (vq_used (vb_device dev)) as [|t' used] eqn:Hu.
      2:{ injection Hpeek as ->. set_solver. }
      unfold finalize. cbn [vb_device]. destruct (vq_complete_pop (fu_read fut1) t q [] Eu) as [Ef' Eu'].
      destruct (vq_complete _ t q) as [q' ok]. cbn [fst] in Ef', Eu'.
      apply (owned_same_ring dev); cbn; try done; [by rewrite Ef'|by rewrite Eu', Hu].
    + pose proof (owned_submit dev (<[fid := fut1]> futs) fid fut1 q t Hown1) as Hsub.
      rewrite lookup_insert_eq, insert_insert_eq in Hsub. cbn [polled]. rewrite Hd1. by apply Hsub.
Qed.

Lemma owned_poll dev futs fid fut :
  owned dev futs → futs !! fid = Some fut → polled dev futs fid (poll fid fid fut dev).
Proof.
  intros Hown Hf. destruct (fu_state fut) as [|t] eqn:Hs; [by apply (owned_poll_first _ _ _ fut)|].
  unfold poll. rewrite Hs. destruct (decide _) as [Hin|Hin].
  - destruct (finalize_head dev futs fid fut t) as (used & Hu & Ef & Eu); try done.
    unfold finalize. cbn [vb_device]. destruct (vq_complete _ t _) as [q' ok]. cbn [fst] in Ef, Eu.
    by apply (owned_finish dev futs fid fut q' t used).
  - cbn [polled]. rewrite (insert_id futs fid fut) by done.
    pose proof Hown as [Ho H1 Hl Hd Hr Hc Hw Hk Hcl]. assert (holds futs fid t) as Ht by (by exists fut).
    split; cbn [vb_device vb_async_wakers vb_completed_tokens vb_cancelled_requests]; try done.
    + intros u Hu. destruct (Hc u Hu). split; [done|]. rewrite lookup_insert_ne; [done|]. by intros ->.
    + intros u f Hh. destruct (Hw u f Hh); [by left|right]. destruct (decide (u = t)) as [->|].
      * rewrite lookup_insert_eq. f_equal. eauto.
      * by rewrite lookup_insert_ne.
    + intros u w [[<- <-]|[_ Hu]]%lookup_insert_Some; eauto.
Qed.

Lemma owned_step s s' : step s s' → owned (sy_dev s) (sy_futs s) → owned (sy_dev s') (sy_futs s').
Proof.
  intros Hst Hown. destruct Hst as [? ? ? ? ? ? ? ? fut Hf Hnew|? ? ? ? ? ? ? ? ? Hf Hp|? ? ? ? ? ? ? ? ? Hf Hp|? ? ? ? ? ? fut Hf|? ? ? ? ? ? ? Hd|? ? ? ? ?];
    cbn [sy_dev sy_futs] in *.
  - assert (fu_state fut = NotSubmitted) as Hs by (by destruct Hnew as [-> | ->]).
    apply (owned_same_holds dev futs); [done| |].
    + intros f t. rewrite holds_insert. split; [intros [[_ ?]|[_ ?]]; [congruence|done]|].
      intros Hh. right. split; [|done]. intros ->. destruct Hh as (x & Hx & _). congruence.
    + intros f x [[<- <-]|[_ Hx]]%lookup_insert_Some; [|by apply (ow_dma _ _ Hown)].
      destruct Hnew as [-> | ->]; [by right|by left].
  - pose proof (owned_poll dev futs fid fut Hown Hf) as Hpo. by rewrite Hp in Hpo.
  - pose proof (owned_poll dev futs fid fut Hown Hf) as Hpo. by rewrite Hp in Hpo.
  - unfold drop_future. destruct (fu_state fut) as [|t] eqn:Hs.
    + apply (owned_same_holds dev futs); [done| |].
      * intros f t. rewrite holds_delete. split; [by intros []|]. intros Hh. split; [|done].
        intros ->. by apply (holds_not futs fid fut t Hf Hs).
      * intros f x [_ Hx]%lookup_delete_Some. by apply (ow_dma _ _ Hown).
    + destruct (ow_dma _ _ Hown fid fut Hf) as [Hdma|(_ & _ & ?)]; [|congruence].
      rewrite Hdma. by apply (owned_cancel _ _ _ fut).
  - by apply (owned_device _ _ _ t).
  - unfold process_completions. pose proof (owned_complete_head dev futs Hown) as Hh.
    destruct (complete_head dev) as [dev' w]. cbn [fst] in *. by apply (owned_same_ring dev').
Qed.

Lemma owned_reachable s : reachable s → owned (sy_dev s) (sy_futs s).
Proof.
  intros (s0 & (q & Hf & Hu & ->) & Hst).
  assert (owned (mkVb q ∅ ∅ ∅ []) ∅) as H0.
  { split; cbn [vb_device vb_async_wakers vb_completed_tokens vb_cancelled_requests]; unfold on_ring, holds;
      rewrite ?Hf, ?Hu; try (intros; set_solver).
    - intros t. split; [set_solver|]. intros [(f & x & ? & _)|[? ?]]; set_solver.
    - split; [constructor|set_solver]. }
  remember (mkSys (mkVb q ∅ ∅ ∅ []) ∅ ∅ 0 ∅) as s0 eqn:Hs0.
  assert (owned (sy_dev s0) (sy_futs s0)) as H1 by (by rewrite Hs0). clear Hs0 H0.
  induction Hst as [|s0 s1 s2 Hst _ IH]; [done|]. apply IH.
  revert H1. destruct Hst as [Hst|[]]; [by apply owned_step|done].
Qed.
End ownership.


(** ** A queue *)
Record SimQueue : Type := { sq_flight : gset Z; sq_used : list Z; sq_next : Z }.

#[export] Instance SimQueue_blk : VirtioBlk SimQueue := {|
  vq_blocks_nb := λ _ _ _ q,
    if decide (sq_next q ∈ sq_flight q ∪ list_to_set (sq_used q)) then (q, inl QueueFull)
    else ({| sq_flight := {[sq_next q]} ∪ sq_flight q; sq_used := sq_used q; sq_next := (sq_next q + 1) mod 8 |},
          inr (sq_next q));
  vq_peek_used := λ q, head (sq_used q);
  vq_complete := λ _ t q,
    match sq_used q with
    | t' :: used => if decide (t' = t)
                    then ({| sq_flight := sq_flight q; sq_used := used; sq_next := sq_next q |}, true)
                    else (q, false)
    | [] => (q, false)
    end;
|}.

#[export, refine] Instance SimQueue_laws : VirtioBlkLaws SimQueue := {|
  vq_flight := sq_flight;
  vq_used := sq_used;
  vq_device := λ t q q', t ∈ sq_flight q ∧
    q' = {| sq_flight := sq_flight q ∖ {[t]}; sq_used := sq_used q ++ [t]; sq_next := sq_next q |};
|}.
Proof.
  - done.
  - cbn. intros r s n q q' t Hs. case_decide as Hd; [done|]. injection Hs as <- <-. cbn. set_solver.
  - cbn. intros r s n q q' e Hs. case_decide; [|done]. by injection Hs as <- <-.
  - cbn. intros r t q used Hu. rewrite Hu. by rewrite decide_True.
  - by intros t q q' [Hin ->].
Defined.

Definition idle_queue : SimQueue := {| sq_flight := ∅; sq_used := []; sq_next := 0 |}.
Definition idle : Sys SimQueue := mkSys (mkVb idle_queue ∅ ∅ ∅ []) ∅ ∅ 0 ∅.
Lemma idle_initial : initial idle.
Proof. by exists idle_queue. Qed.

(** Schedules, for concrete runs. *)
Inductive cmd : Type := NewRead (fid sector n : Z) | PollF (fid : Z) | DropF (fid : Z) | Complete (t : Z) | Irq.

Definition exec1 (c : cmd) (s : Sys SimQueue) : option (Sys SimQueue) :=
  let '(mkSys dev futs st irqs woken) := s in
  match c with
  | NewRead fid sector n =>
      match futs !! fid with
      | None => Some (mkSys dev (<[fid := new_read sector n]> futs) st irqs ({[fid]} ∪ woken))
      | Some _ => None
      end
  | PollF fid =>
      match futs !! fid with
      | Some fut =>
          match poll fid fid fut dev with
          | (dev', Pending fut') =>
              Some (mkSys dev' (<[fid := fut']> futs) (note_status fid fut fut' st) irqs (woken ∖ {[fid]}))
          | (dev', Ready _) => Some (mkSys dev' (delete fid futs) st irqs (woken ∖ {[fid]}))
          end
      | None => None
      end
  | DropF fid =>
      match futs !! fid with
      | Some fut => Some (mkSys (drop_future fut dev) (delete fid futs) st irqs (woken ∖ {[fid]}))
      | None => None
      end
  | Complete t =>
      let q := vb_device dev in
      if decide (t ∈ sq_flight q)
      then Some (mkSys (mkVb {| sq_flight := sq_flight q ∖ {[t]}; sq_used := sq_used q ++ [t]; sq_next := sq_next q |}
                          (vb_async_wakers dev) (vb_completed_tokens dev) (vb_cancelled_requests dev)
                          (vb_queue_full_wakers dev)) futs st (S irqs) woken)
      else None
  | Irq =>
      match irqs with
      | S irqs => Some (mkSys (process_completions dev).1 futs st irqs (woken ∪ list_to_set (process_completions dev).2))
      | O => None
      end
  end.

Lemma exec1_step c s s' : exec1 c s = Some s' → step s s'.
Proof.
  destruct s as [dev futs st irqs woken], c as [fid sector n|fid|fid|t|]; cbn [exec1].
  - destruct (futs !! fid) eqn:Hf; [done|]. intros [= <-]. apply (step_new _ _ _ _ _ fid sector n); auto.
  - destruct (futs !! fid) as [fut|] eqn:Hf; [|done].
    destruct (poll fid fid fut dev) as [dev' [fut'|r]] eqn:Hp; intros [= <-].
    + by apply (step_pending _ _ _ _ _ _ fid fut fut').
    + by apply (step_ready _ _ _ _ _ _ fid fut r).
  - destruct (futs !! fid) as [fut|] eqn:Hf; [|done]. intros [= <-]. by apply step_drop.
  - case_decide; [|done]. intros [= <-]. by apply (step_device _ _ _ _ _ _ t).
  - destruct irqs; [done|]. intros [= <-]. apply step_irq.
Qed.

Fixpoint exec (cs : list cmd) (s : Sys SimQueue) : option (Sys SimQueue) :=
  match cs with
  | [] => Some s
  | c :: cs => match exec1 c s with Some s => exec cs s | None => None end
  end.

(** A run that goes through ends in a state with what it computes. *)
Lemma exec_run cs (P : Sys SimQueue → Prop) `{!∀ s, Decision (P s)} :
  (match exec cs idle with Some s => bool_decide (P s) | None => false end) = true →
  ∃ s, rtc step idle s ∧ P s.
Proof.
  destruct (exec cs idle) as [s|] eqn:He; [|done]. intros HP%bool_decide_eq_true. exists s. split; [|done].
  clear HP. revert He. generalize idle. induction cs as [|c cs IH]; intros s0; cbn [exec].
  { intros [= <-]. apply rtc_refl. }
  destruct (exec1 c s0) as [s1|] eqn:H1; [|done]. intros He. eapply rtc_l; [by eapply exec1_step|auto].
Qed.

#[export] Instance AsyncIoState_eq_dec : EqDecision AsyncIoState.
Proof. solve_decision. Defined.

#[export] Instance BlockFuture_eq_dec : EqDecision BlockFuture.
Proof. solve_decision. Defined.

(** The request a future waits for. *)
Definition waits_for (futs : gmap Z BlockFuture) (fid : Z) : option AsyncIoState := fu_state <$> futs !! fid.


