(* ===== verification/Ext2Structs.v ===== *)
(** * The on-disk structures of ext2 ([vfs/ext2/structs.rs])

    The superblock, block group descriptors, inodes and directory entry headers
    are [repr(C)] structures that the driver transmutes from and to the bytes
    of the disk.  A structure's layout is the list of the widths of its fields
    ([repr(C)] inserts no padding: each field is aligned at its offset), and
    reading and writing go through one generic codec of such layouts. *)

From S2P Require Import Prelude Effects BlockDevice.

(** ** Little-endian structures *)
Fixpoint fields_to_bytes (ws : list nat) (zs : list Z) : list Z :=
  match ws, zs with
  | w :: ws, z :: zs => to_le_bytes w z ++ fields_to_bytes ws zs
  | _, _ => []
  end.

Fixpoint fields_of_bytes (ws : list nat) (bs : list Z) : list Z :=
  match ws with
  | [] => []
  | w :: ws => from_le_bytes (take w bs) :: fields_of_bytes ws (drop w bs)
  end.

(** Each field is in the range of its width. *)
Definition fits (ws : list nat) (zs : list Z) : Prop :=
  Forall2 (λ w z, in_u (8 * Z.of_nat w) z) ws zs.

Lemma length_fields_to_bytes ws zs :
  length zs = length ws → length (fields_to_bytes ws zs) = sum_list ws.
Proof.
  revert zs. induction ws as [|w ws IH]; intros [|z zs]; cbn; try done.
  intros. rewrite length_app, length_to_le_bytes, IH by lia. done.
Qed.

Lemma length_fields_of_bytes ws bs : length (fields_of_bytes ws bs) = length ws.
Proof. revert bs. induction ws as [|w ws IH]; intros bs; cbn; [done|by rewrite IH]. Qed.

Lemma fields_to_bytes_u8 ws zs : Forall is_u8 (fields_to_bytes ws zs).
Proof.
  revert zs. induction ws as [|w ws IH]; intros [|z zs]; cbn; try constructor.
  apply Forall_app. auto using to_le_bytes_u8.
Qed.

Lemma fields_of_to ws zs : fits ws zs → fields_of_bytes ws (fields_to_bytes ws zs) = zs.
Proof.
  induction 1 as [|w z ws zs Hz Hzs IH]; cbn; [done|].
  rewrite take_app_length', drop_app_length' by (by rewrite length_to_le_bytes).
  by rewrite from_to_le_bytes, wrap_u_small, IH.
Qed.

Lemma fields_to_of ws bs :
  Forall is_u8 bs → length bs = sum_list ws → fields_to_bytes ws (fields_of_bytes ws bs) = bs.
Proof.
  revert bs. induction ws as [|w ws IH]; intros bs Hbs Hlen; cbn in *.
  { by destruct bs. }
  rewrite IH; [|by apply Forall_drop|rewrite length_drop; lia].
  rewrite <- (take_drop w bs) at 3. f_equal.
  assert (length (take w bs) = w) as Hw by (rewrite length_take; lia).
  rewrite <- Hw at 1. apply to_from_le_bytes. by apply Forall_take.
Qed.

Lemma fields_of_bytes_fit ws bs :
  Forall is_u8 bs → (sum_list ws <= length bs)%nat → fits ws (fields_of_bytes ws bs).
Proof.
  revert bs. induction ws as [|w ws IH]; intros bs Hbs Hlen; cbn in *; [constructor|].
  constructor; [|apply IH; [by apply Forall_drop|rewrite length_drop; lia]].
  pose proof (from_le_bytes_bound (take w bs)) as Hb.
  rewrite len_take in Hb. replace (Z.min _ _) with (Z.of_nat w) in Hb by (unfold len; lia).
  apply Hb. by apply Forall_take.
Qed.

(** ** Constants *)
Definition EXT2_SUPER_MAGIC : Z := 0xEF53.
Definition EXT2_ROOT_INO : Z := 2.
Definition SUPERBLOCK_OFFSET : Z := 1024.
Definition INCOMPAT_FILETYPE : Z := 0x0002.
Definition SUPPORTED_INCOMPAT : Z := INCOMPAT_FILETYPE.
Definition S_IFMT : Z := 0xF000.
Definition S_IFREG : Z := 0x8000.
Definition S_IFDIR : Z := 0x4000.
Definition S_IFLNK : Z := 0xA000.
Definition FT_REG_FILE : Z := 1.
Definition FT_DIR : Z := 2.
Definition FT_SYMLINK : Z := 7.

(** ** The superblock *)
Record Superblock : Type := {
  s_inodes_count : Z; s_blocks_count : Z; s_reserved_blocks_count : Z;
  s_free_blocks_count : Z; s_free_inodes_count : Z; s_first_data_block : Z;
  s_log_block_size : Z; s_log_frag_size : Z; s_blocks_per_group : Z;
  s_frags_per_group : Z; s_inodes_per_group : Z; s_mtime : Z; s_wtime : Z;
  s_mnt_count : Z; s_max_mnt_count : Z; s_magic : Z; s_state : Z; s_errors : Z;
  s_minor_rev_level : Z; s_lastcheck : Z; s_checkinterval : Z; s_creator_os : Z;
  s_rev_level : Z; s_def_resuid : Z; s_def_resgid : Z; s_first_ino : Z;
  s_inode_size : Z; s_block_group_nr : Z; s_feature_compat : Z;
  s_feature_incompat : Z; s_feature_ro_compat : Z;
  s_uuid : list Z; s_volume_name : list Z; s_last_mounted : list Z;
  s_algo_bitmap : Z; s_padding : list Z;
}.

Definition MAX_LOG_BLOCK_SIZE : Z := 6.
Definition MAX_BLOCK_GROUPS : Z := 1000000.

Definition Superblock_block_size (sb : Superblock) : option Z :=
  if decide (s_log_block_size sb > MAX_LOG_BLOCK_SIZE) then None
  else Some (Z.shiftl 1024 (s_log_block_size sb)).

Definition Superblock_inode_size (sb : Superblock) : Z :=
  if decide (s_rev_level sb >= 1) then s_inode_size sb else 128.

(** [u32::div_ceil]. *)
Definition div_ceil (a b : Z) : Z := a / b + (if decide (a mod b = 0) then 0 else 1).

Definition Superblock_block_group_count (sb : Superblock) : option Z :=
  if decide (s_blocks_per_group sb = 0) then None
  else Some (div_ceil (s_blocks_count sb) (s_blocks_per_group sb)).

(** The error of a [Result<_, &'static str>], by its message. *)
Inductive MountError : Type :=
| ReadSuperblock | BadMagic | LogBlockSizeRange | BlocksCountZero | InodesCountZero
| BlocksPerGroupZero | InodesPerGroupZero | InodeSizeRange | TooManyGroups
| UnsupportedFeatures | ReadDescriptors.

Definition Superblock_validate (sb : Superblock) : outcome MountError () :=
  if decide (s_log_block_size sb > MAX_LOG_BLOCK_SIZE) then Err LogBlockSizeRange
  else if decide (s_blocks_count sb = 0) then Err BlocksCountZero
  else if decide (s_inodes_count sb = 0) then Err InodesCountZero
  else if decide (s_blocks_per_group sb = 0) then Err BlocksPerGroupZero
  else if decide (s_inodes_per_group sb = 0) then Err InodesPerGroupZero
  else if decide (s_rev_level sb >= 1 ∧ (s_inode_size sb < 128 ∨ s_inode_size sb > 1024))
  then Err InodeSizeRange
  else if decide (div_ceil (s_blocks_count sb) (s_blocks_per_group sb) > MAX_BLOCK_GROUPS)
  then Err TooManyGroups
  else Ok tt.

(** [self.feature_incompat & !SUPPORTED_INCOMPAT]. *)
Definition Superblock_unsupported_incompat_features (sb : Superblock) : Z :=
  Z.land (s_feature_incompat sb) (2 ^ 32 - 1 - SUPPORTED_INCOMPAT).

(** Widths: thirteen words, six halves, four words, two halves, one word, two
    halves, three words, three byte arrays, one word, one byte array. *)
Definition Superblock_layout : list nat :=
  replicate 13 4%nat ++ replicate 6 2%nat ++ replicate 4 4%nat ++ replicate 2 2%nat ++
  [4%nat] ++ replicate 2 2%nat ++ replicate 3 4%nat ++ replicate 96 1%nat ++
  [4%nat] ++ replicate 820 1%nat.

Definition Superblock_fields (sb : Superblock) : list Z :=
  [s_inodes_count sb; s_blocks_count sb; s_reserved_blocks_count sb;
   s_free_blocks_count sb; s_free_inodes_count sb; s_first_data_block sb;
   s_log_block_size sb; s_log_frag_size sb; s_blocks_per_group sb;
   s_frags_per_group sb; s_inodes_per_group sb; s_mtime sb; s_wtime sb;
   s_mnt_count sb; s_max_mnt_count sb; s_magic sb; s_state sb; s_errors sb;
   s_minor_rev_level sb; s_lastcheck sb; s_checkinterval sb; s_creator_os sb;
   s_rev_level sb; s_def_resuid sb; s_def_resgid sb; s_first_ino sb;
   s_inode_size sb; s_block_group_nr sb; s_feature_compat sb;
   s_feature_incompat sb; s_feature_ro_compat sb] ++ s_uuid sb ++ s_volume_name sb ++ s_last_mounted sb ++
  [s_algo_bitmap sb] ++ s_padding sb.

Definition Superblock_of_fields (zs : list Z) : option Superblock :=
  match zs with
  | a1 :: a2 :: a3 :: a4 :: a5 :: a6 :: a7 :: a8 :: a9 :: a10 :: a11 :: a12 :: a13 ::
    b1 :: b2 :: b3 :: b4 :: b5 :: b6 :: c1 :: c2 :: c3 :: c4 :: d1 :: d2 :: e1 ::
    f1 :: f2 :: g1 :: g2 :: g3 :: tail =>
      match drop 96 tail with
      | h1 :: pad =>
          Some (Build_Superblock a1 a2 a3 a4 a5 a6 a7 a8 a9 a10 a11 a12 a13 b1 b2 b3 b4 b5 b6
                  c1 c2 c3 c4 d1 d2 e1 f1 f2 g1 g2 g3
                  (take 16 tail) (take 16 (drop 16 tail)) (take 64 (drop 32 tail)) h1 pad)
      | [] => None
      end
  | _ => None
  end.

(** [Superblock::to_bytes] and the [ptr::read] of a 1024-byte buffer, which a
    shorter one would make undefined. *)
Definition Superblock_to_bytes (sb : Superblock) : list Z :=
  fields_to_bytes Superblock_layout (Superblock_fields sb).
Definition Superblock_of_bytes (bs : list Z) : option Superblock :=
  Superblock_of_fields (fields_of_bytes Superblock_layout bs).

(** Every field is in the range of its type. *)
Definition Superblock_wf (sb : Superblock) : Prop :=
  length (s_uuid sb) = 16%nat ∧ length (s_volume_name sb) = 16%nat ∧
  length (s_last_mounted sb) = 64%nat ∧ fits Superblock_layout (Superblock_fields sb).

(** ** Block group descriptors *)
Record BlockGroupDescriptor : Type := {
  bg_block_bitmap : Z; bg_inode_bitmap : Z; bg_inode_table : Z;
  bg_free_blocks_count : Z; bg_free_inodes_count : Z; bg_used_dirs_count : Z;
  bg_pad : Z; bg_reserved : list Z;
}.

Definition Bgd_layout : list nat := replicate 3 4%nat ++ replicate 4 2%nat ++ replicate 3 4%nat.

Definition Bgd_fields (g : BlockGroupDescriptor) : list Z :=
  [bg_block_bitmap g; bg_inode_bitmap g; bg_inode_table g; bg_free_blocks_count g;
   bg_free_inodes_count g; bg_used_dirs_count g; bg_pad g] ++ bg_reserved g.

Definition Bgd_of_fields (zs : list Z) : option BlockGroupDescriptor :=
  match zs with
  | a :: b :: c :: d :: e :: f :: g :: r => Some (Build_BlockGroupDescriptor a b c d e f g r)
  | _ => None
  end.

Definition Bgd_to_bytes (g : BlockGroupDescriptor) : list Z :=
  fields_to_bytes Bgd_layout (Bgd_fields g).
Definition Bgd_of_bytes (bs : list Z) : option BlockGroupDescriptor :=
  Bgd_of_fields (fields_of_bytes Bgd_layout bs).
Definition Bgd_wf (g : BlockGroupDescriptor) : Prop := fits Bgd_layout (Bgd_fields g).

(** ** Inodes *)
Record Inode : Type := {
  i_mode : Z; i_uid : Z; i_size_lo : Z; i_atime : Z; i_ctime : Z; i_mtime : Z; i_dtime : Z;
  i_gid : Z; i_links_count : Z; i_blocks : Z; i_flags : Z; i_osd1 : Z;
  i_block : list Z;
  i_generation : Z; i_file_acl : Z; i_size_high : Z; i_faddr : Z;
  i_osd2 : list Z;
}.

Definition Inode_layout : list nat :=
  replicate 2 2%nat ++ replicate 5 4%nat ++ replicate 2 2%nat ++ replicate 3 4%nat ++
  replicate 15 4%nat ++ replicate 4 4%nat ++ replicate 12 1%nat.

Definition Inode_fields (i : Inode) : list Z :=
  [i_mode i; i_uid i; i_size_lo i; i_atime i; i_ctime i; i_mtime i; i_dtime i; i_gid i;
   i_links_count i; i_blocks i; i_flags i; i_osd1 i] ++ i_block i ++
  [i_generation i; i_file_acl i; i_size_high i; i_faddr i] ++ i_osd2 i.

Definition Inode_of_fields (zs : list Z) : option Inode :=
  match zs with
  | a :: b :: c :: d :: e :: f :: g :: h :: i :: j :: k :: l :: rest =>
      match drop 15 rest with
      | m :: n :: o :: p :: osd2 =>
          Some (Build_Inode a b c d e f g h i j k l (take 15 rest) m n o p osd2)
      | _ => None
      end
  | _ => None
  end.

Definition Inode_to_bytes (i : Inode) : list Z := fields_to_bytes Inode_layout (Inode_fields i).
Definition Inode_of_bytes (bs : list Z) : option Inode :=
  Inode_of_fields (fields_of_bytes Inode_layout bs).
Definition Inode_wf (i : Inode) : Prop :=
  length (i_block i) = 15%nat ∧ fits Inode_layout (Inode_fields i).

Definition Inode_size (i : Inode) : Z := Z.lor (i_size_lo i) (Z.shiftl (i_size_high i) 32).

Definition with_size (i : Inode) (lo hi : Z) : Inode :=
  Build_Inode (i_mode i) (i_uid i) lo (i_atime i) (i_ctime i) (i_mtime i) (i_dtime i) (i_gid i)
    (i_links_count i) (i_blocks i) (i_flags i) (i_osd1 i) (i_block i) (i_generation i)
    (i_file_acl i) hi (i_faddr i) (i_osd2 i).

Definition Inode_set_size (i : Inode) (new_size : Z) : Inode :=
  with_size i (wrap_u 32 new_size) (wrap_u 32 (Z.shiftr new_size 32)).

Definition Inode_is_dir (i : Inode) : bool := bool_decide (Z.land (i_mode i) S_IFMT = S_IFDIR).
Definition Inode_is_file (i : Inode) : bool := bool_decide (Z.land (i_mode i) S_IFMT = S_IFREG).
Definition Inode_is_symlink (i : Inode) : bool :=
  bool_decide (Z.land (i_mode i) S_IFMT = S_IFLNK).

(** The assignments of the driver to single fields of an inode. *)
Definition with_block (i : Inode) (b : list Z) : Inode :=
  Build_Inode (i_mode i) (i_uid i) (i_size_lo i) (i_atime i) (i_ctime i) (i_mtime i) (i_dtime i)
    (i_gid i) (i_links_count i) (i_blocks i) (i_flags i) (i_osd1 i) b (i_generation i)
    (i_file_acl i) (i_size_high i) (i_faddr i) (i_osd2 i).
Definition with_blocks (i : Inode) (n : Z) : Inode :=
  Build_Inode (i_mode i) (i_uid i) (i_size_lo i) (i_atime i) (i_ctime i) (i_mtime i) (i_dtime i)
    (i_gid i) (i_links_count i) n (i_flags i) (i_osd1 i) (i_block i) (i_generation i)
    (i_file_acl i) (i_size_high i) (i_faddr i) (i_osd2 i).
Definition with_links_count (i : Inode) (n : Z) : Inode :=
  Build_Inode (i_mode i) (i_uid i) (i_size_lo i) (i_atime i) (i_ctime i) (i_mtime i) (i_dtime i)
    (i_gid i) n (i_blocks i) (i_flags i) (i_osd1 i) (i_block i) (i_generation i)
    (i_file_acl i) (i_size_high i) (i_faddr i) (i_osd2 i).
Definition with_dtime (i : Inode) (t : Z) : Inode :=
  Build_Inode (i_mode i) (i_uid i) (i_size_lo i) (i_atime i) (i_ctime i) (i_mtime i) t
    (i_gid i) (i_links_count i) (i_blocks i) (i_flags i) (i_osd1 i) (i_block i) (i_generation i)
    (i_file_acl i) (i_size_high i) (i_faddr i) (i_osd2 i).

(** ** Directory entry headers *)
Record DirEntryRaw : Type := {
  de_inode : Z; de_rec_len : Z; de_name_len : Z; de_file_type : Z;
}.
Definition DirEntryRaw_layout : list nat := [4; 2; 1; 1]%nat.
Definition DirEntryRaw_of_bytes (bs : list Z) : option DirEntryRaw :=
  match fields_of_bytes DirEntryRaw_layout bs with
  | [a; b; c; d] => Some (Build_DirEntryRaw a b c d)
  | _ => None
  end.

(** ** Round trips *)

Lemma Superblock_of_fields_length zs :
  length zs = length Superblock_layout →
  ∃ sb, Superblock_of_fields zs = Some sb ∧ Superblock_fields sb = zs ∧
        length (s_uuid sb) = 16%nat ∧ length (s_volume_name sb) = 16%nat ∧
        length (s_last_mounted sb) = 64%nat.
Proof.
  intros Hl. change (length Superblock_layout) with (31 + 917)%nat in Hl.
  do 31 (destruct zs as [|? zs]; [discriminate Hl|cbn [length] in Hl; apply Nat.succ_inj in Hl]).
  cbn [Superblock_of_fields].
  destruct (drop 96 zs) as [|h1 pad] eqn:Hd.
  { apply (f_equal length) in Hd. rewrite length_drop, Hl in Hd. done. }
  eexists. split; [done|]. cbn [s_uuid s_volume_name s_last_mounted].
  rewrite !length_take, !length_drop, Hl. split; [|done].
  unfold Superblock_fields. cbn. do 31 f_equal.
  trans (take 16 zs ++ drop 16 zs); [f_equal|apply take_drop].
  trans (take 16 (drop 16 zs) ++ drop 32 zs); [f_equal|].
  { change (drop 96 zs) with (drop (32 + 64) zs) in Hd. rewrite <- Hd, <- drop_drop. apply take_drop. }
  change (drop 32 zs) with (drop (16 + 16) zs). rewrite <- drop_drop. apply take_drop.
Qed.

Lemma Superblock_of_fields_of sb :
  length (s_uuid sb) = 16%nat → length (s_volume_name sb) = 16%nat →
  length (s_last_mounted sb) = 64%nat → Superblock_of_fields (Superblock_fields sb) = Some sb.
Proof.
  intros Hu Hv Hm. unfold Superblock_fields. cbn [app Superblock_of_fields].
  rewrite (app_assoc (s_uuid sb)), (app_assoc (_ ++ s_volume_name sb)).
  rewrite drop_app_length' by (rewrite !length_app; lia). cbn [app].
  rewrite <- !app_assoc, take_app_length' by done.
  rewrite drop_app_length' by done. rewrite take_app_length' by done.
  rewrite (app_assoc (s_uuid sb)), drop_app_length' by (rewrite length_app; lia).
  rewrite take_app_length' by done. by destruct sb.
Qed.

Lemma Superblock_of_to sb : Superblock_wf sb → Superblock_of_bytes (Superblock_to_bytes sb) = Some sb.
Proof.
  intros (? & ? & ? & Hf). unfold Superblock_of_bytes, Superblock_to_bytes.
  rewrite fields_of_to by done. by apply Superblock_of_fields_of.
Qed.

Lemma Superblock_to_of bs :
  Forall is_u8 bs → len bs = 1024 →
  ∃ sb, Superblock_of_bytes bs = Some sb ∧ Superblock_wf sb ∧ Superblock_to_bytes sb = bs.
Proof.
  intros Hu Hl. assert (length bs = sum_list Superblock_layout) as Hs.
  { apply Nat2Z.inj. rewrite len_fold, Hl. by vm_compute. }
  destruct (Superblock_of_fields_length (fields_of_bytes Superblock_layout bs))
    as (sb & Hsb & Hf & Hls); [apply length_fields_of_bytes|].
  exists sb. split_and!; [done| |].
  - destruct Hls as (? & ? & ?). split_and!; [done..|]. rewrite Hf.
    apply fields_of_bytes_fit; [done|lia].
  - unfold Superblock_to_bytes. rewrite Hf. by apply fields_to_of.
Qed.

Lemma len_Superblock_to_bytes sb : Superblock_wf sb → len (Superblock_to_bytes sb) = 1024.
Proof.
  intros (_ & _ & _ & Hf). unfold len, Superblock_to_bytes.
  rewrite length_fields_to_bytes by (symmetry; eapply Forall2_length, Hf). by vm_compute.
Qed.

Lemma Bgd_of_to g : Bgd_wf g → Bgd_of_bytes (Bgd_to_bytes g) = Some g.
Proof.
  intros Hf. unfold Bgd_of_bytes, Bgd_to_bytes. rewrite fields_of_to by done. by destruct g.
Qed.

Lemma Bgd_to_of bs :
  Forall is_u8 bs → len bs = 32 →
  ∃ g, Bgd_of_bytes bs = Some g ∧ Bgd_wf g ∧ Bgd_to_bytes g = bs.
Proof.
  intros Hu Hl. assert (length bs = sum_list Bgd_layout) as Hs.
  { apply Nat2Z.inj. rewrite len_fold, Hl. by vm_compute. }
  assert (∃ g, Bgd_of_bytes bs = Some g ∧ Bgd_fields g = fields_of_bytes Bgd_layout bs)
    as (g & Hg & Hf) by (eexists; split; reflexivity).
  exists g. unfold Bgd_wf, Bgd_to_bytes. rewrite Hf. split_and!; [done| |by apply fields_to_of].
  apply fields_of_bytes_fit; [done|lia].
Qed.

Lemma len_Bgd_to_bytes g : Bgd_wf g → len (Bgd_to_bytes g) = 32.
Proof.
  intros Hf. unfold len, Bgd_to_bytes.
  rewrite length_fields_to_bytes by (symmetry; eapply Forall2_length, Hf). by vm_compute.
Qed.

Lemma Inode_of_to i : Inode_wf i → Inode_of_bytes (Inode_to_bytes i) = Some i.
Proof.
  intros [Hb Hf]. unfold Inode_of_bytes, Inode_to_bytes. rewrite fields_of_to by done.
  unfold Inode_fields. cbn [app Inode_of_fields].
  rewrite drop_app_length', take_app_length' by done. cbn. by destruct i.
Qed.

Lemma Inode_to_of bs :
  Forall is_u8 bs → len bs = 128 →
  ∃ i, Inode_of_bytes bs = Some i ∧ Inode_wf i ∧ Inode_to_bytes i = bs.
Proof.
  intros Hu Hl. assert (length bs = sum_list Inode_layout) as Hs.
  { apply Nat2Z.inj. rewrite len_fold, Hl. by vm_compute. }
  assert (∃ i, Inode_of_bytes bs = Some i ∧ Inode_fields i = fields_of_bytes Inode_layout bs ∧
               length (i_block i) = 15%nat)
    as (i & Hi & Hf & Hb) by (eexists; repeat split; reflexivity).
  exists i. unfold Inode_wf, Inode_to_bytes. rewrite Hf. split_and!; [done|done| |by apply fields_to_of].
  apply fields_of_bytes_fit; [done|lia].
Qed.

Lemma len_Inode_to_bytes i : Inode_wf i → len (Inode_to_bytes i) = 128.
Proof.
  intros [_ Hf]. unfold len, Inode_to_bytes.
  rewrite length_fields_to_bytes by (symmetry; eapply Forall2_length, Hf). by vm_compute.
Qed.

Lemma Inode_size_set i n : is_u64 n → Inode_size (Inode_set_size i n) = n.
Proof.
  intros Hn. unfold Inode_size, Inode_set_size. cbn [i_size_lo i_size_high with_size].
  rewrite Z.lor_comm, lor_shiftl_add by (try apply wrap_u_range; lia).
  rewrite Z.shiftr_div_pow2 by lia. unfold wrap_u.
  rewrite (Z.mod_small (n / _)).
  - rewrite Z.mul_comm. symmetry. by apply Z.div_mod.
  - split; [apply Z.div_pos|apply Z.div_lt_upper_bound]; rng.
Qed.

(** A superblock that passes [validate] has a block size between 1 and 64 KiB,
    a positive number of groups and no divisor that is zero: the [unwrap]s of
    [mount] cannot fail. *)
Lemma validate_ok sb :
  Superblock_wf sb → Superblock_validate sb = Ok tt →
  ∃ bs n, Superblock_block_size sb = Some bs ∧ Superblock_block_group_count sb = Some n ∧
    bs ∈ [1024; 2048; 4096; 8192; 16384; 32768; 65536] ∧ 1 <= n <= MAX_BLOCK_GROUPS ∧
    128 <= Superblock_inode_size sb <= 1024 ∧
    0 < s_blocks_per_group sb ∧ 0 < s_inodes_per_group sb ∧ 0 < s_blocks_count sb.
Proof.
  intros (_ & _ & _ & Hf) Hv. unfold fits, Superblock_fields, Superblock_layout in Hf.
  cbn [app replicate] in Hf.
  repeat match type of Hf with
  | Forall2 _ (_ :: _) (_ :: _) => apply Forall2_cons in Hf as [? Hf]
  end. clear Hf.
  unfold Superblock_validate in Hv. repeat case_decide; try done.
  unfold Superblock_block_size, Superblock_block_group_count, Superblock_inode_size, div_ceil in *.
  unfold in_u, MAX_LOG_BLOCK_SIZE in *.
  rewrite !decide_False by lia. eexists _, _. split_and!; [done..| | | | | | | |]; try lia.
  - assert (s_log_block_size sb ∈ [0; 1; 2; 3; 4; 5; 6]) as Hin.
    { rewrite !elem_of_cons. lia. }
    clear -Hin. revert Hin. generalize (s_log_block_size sb). intros x Hin.
    repeat (apply elem_of_cons in Hin as [->|Hin]; [vm_compute; set_solver|]).
    by apply not_elem_of_nil in Hin.
  - case_decide; [|pose proof (Z.div_pos (s_blocks_count sb) (s_blocks_per_group sb)); lia].
    assert (0 < s_blocks_count sb / s_blocks_per_group sb); [|lia].
    apply Z.div_str_pos. split; [lia|]. by apply Z.divide_pos_le, Z.mod_divide; lia.
  - destruct (decide (s_rev_level sb >= 1)); lia.
  - destruct (decide (s_rev_level sb >= 1)); lia.
Qed.
