(* ===== verification/Bitmap.v ===== *)
(** * Allocation bitmaps ([vfs/ext2/bitmap.rs], bit manipulation helpers)

    A bitmap is a block of bytes; bit [i] is bit [i % 8] of byte [i / 8].  The
    search for a free bit skips full bytes; [find_first_clear_bit_ref] shows
    that it is the search over single bits. *)

From S2P Require Import Prelude Effects.

(** ** The helpers *)

(** [for bit in 0..8]: [Some r] is [return r]. *)
Fixpoint scan_bits (byte byte_idx max_bits : Z) (bits : list Z) : option (option Z) :=
  match bits with
  | [] => None
  | bit :: bits =>
      let index := byte_idx * 8 + bit in
      if decide (max_bits <= index) then Some None
      else if decide (Z.land byte (Z.shiftl 1 bit) = 0) then Some (Some index)
      else scan_bits byte byte_idx max_bits bits
  end.

(** [for (byte_idx, &byte) in bitmap.iter().enumerate()]. *)
Fixpoint scan_bytes (byte_idx : Z) (bitmap : list Z) (max_bits : Z) : option Z :=
  match bitmap with
  | [] => None
  | byte :: rest =>
      if decide (byte = 0xFF) then scan_bytes (byte_idx + 1) rest max_bits
      else match scan_bits byte byte_idx max_bits (upto 8) with
           | Some r => r
           | None => scan_bytes (byte_idx + 1) rest max_bits
           end
  end.

Definition find_first_clear_bit (bitmap : list Z) (max_bits : Z) : option Z :=
  scan_bytes 0 bitmap max_bits.

Definition get_bit {E} (bitmap : list Z) (idx : Z) : outcome E bool :=
  byte ← index bitmap (idx / 8);
  Ok (negb (bool_decide (Z.land byte (Z.shiftl 1 (idx mod 8)) = 0))).

Definition set_bit {E} (bitmap : list Z) (idx : Z) : outcome E (list Z) :=
  byte ← index bitmap (idx / 8);
  set_index bitmap (idx / 8) (Z.lor byte (Z.shiftl 1 (idx mod 8))).

(** [!(1 << k)] on a byte. *)
Definition clear_bit {E} (bitmap : list Z) (idx : Z) : outcome E (list Z) :=
  byte ← index bitmap (idx / 8);
  set_index bitmap (idx / 8) (Z.land byte (255 - Z.shiftl 1 (idx mod 8))).

(** ** A bitmap as a set of bits *)
Definition bit_at (bitmap : list Z) (i : Z) : bool :=
  match bitmap !! Z.to_nat (i / 8) with
  | Some byte => Z.testbit byte (i mod 8)
  | None => false
  end.

(** The bits of a bitmap below a bound. *)
Definition bits_below (bitmap : list Z) (n : Z) : list Z := upto (Z.min n (8 * len bitmap)).

(** The search bit by bit. *)
Definition first_clear (bitmap : list Z) (max_bits : Z) : option Z :=
  snd <$> list_find (λ i, bit_at bitmap i = false) (bits_below bitmap max_bits).

(** How many bits below [n] are clear. *)
Definition count_clear (bitmap : list Z) (n : Z) : Z :=
  len (filter (λ i, bit_at bitmap i = false) (upto n)).

(** ** The helpers on sets of bits *)
Lemma land_bit b k : 0 <= k → Z.land b (Z.shiftl 1 k) = 0 ↔ Z.testbit b k = false.
Proof.
  intros Hk. rewrite Z.shiftl_1_l. split.
  - intros H. apply (f_equal (λ z, Z.testbit z k)) in H.
    by rewrite Z.land_spec, Z.pow2_bits_true, andb_true_r, Z.bits_0 in H.
  - intros H. apply Z.bits_inj'. intros i Hi. rewrite Z.land_spec, Z.bits_0.
    destruct (decide (i = k)) as [->|]; [by rewrite H|].
    by rewrite Z.pow2_bits_false, andb_false_r by lia.
Qed.

Lemma bit_at_byte bm i b :
  bm !! Z.to_nat (i / 8) = Some b → bit_at bm i = Z.testbit b (i mod 8).
Proof. unfold bit_at. by intros ->. Qed.

Lemma bit_at_cons b bm i : 0 <= i → bit_at (b :: bm) (i + 8) = bit_at bm i.
Proof.
  intros Hi. unfold bit_at. replace (i + 8) with (i + 1 * 8) by lia.
  rewrite Z.div_add, Z_mod_plus_full by lia.
  replace (Z.to_nat (i / 8 + 1)) with (S (Z.to_nat (i / 8))); [done|].
  pose proof (Z.div_pos i 8). lia.
Qed.

Lemma bit_at_head b bm i : 0 <= i < 8 → bit_at (b :: bm) i = Z.testbit b i.
Proof. intros Hi. unfold bit_at. by rewrite Z.div_small, Z.mod_small by lia. Qed.

Lemma div8_bound i n : 0 <= i < 8 * n → 0 <= i / 8 < n.
Proof. intros. split; [apply Z.div_pos|apply Z.div_lt_upper_bound]; lia. Qed.

Lemma get_bit_spec {E} bm i :
  0 <= i < 8 * len bm → get_bit (E:=E) bm i = Ok (bit_at bm i).
Proof.
  intros Hi. unfold get_bit.
  destruct (index_lookup (E:=E) bm (i / 8)) as (b & Hb & ->); [by apply div8_bound|].
  cbn. rewrite (bit_at_byte _ _ _ Hb). f_equal.
  pose proof (Z.mod_pos_bound i 8). destruct (Z.testbit b (i mod 8)) eqn:Ht.
  - rewrite bool_decide_eq_false_2; [done|]. rewrite land_bit by lia. congruence.
  - rewrite bool_decide_eq_true_2; [done|]. by apply land_bit; [lia|].
Qed.

(** Replacing one bit of one byte. *)
Lemma bit_at_update bm i b b' v :
  0 <= i < 8 * len bm → bm !! Z.to_nat (i / 8) = Some b →
  (∀ k, 0 <= k < 8 → Z.testbit b' k = if decide (k = i mod 8) then v else Z.testbit b k) →
  ∀ j, 0 <= j →
  bit_at (<[Z.to_nat (i / 8) := b']> bm) j = if decide (j = i) then v else bit_at bm j.
Proof.
  intros Hi Hb Hb' j Hj. unfold bit_at at 1.
  pose proof (div8_bound _ _ Hi). pose proof (Z.div_pos j 8).
  destruct (decide (j / 8 = i / 8)) as [Hq|Hq].
  - rewrite Hq, list_lookup_insert_eq by (unfold len in *; lia).
    rewrite Hb' by (apply Z.mod_pos_bound; lia).
    destruct (decide (j = i)) as [->|Hne]; [by rewrite decide_True|].
    rewrite decide_False; [unfold bit_at; by rewrite Hq, Hb|].
    intros Hm. apply Hne. rewrite (Z.div_mod j 8), (Z.div_mod i 8), Hq, Hm by lia. done.
  - rewrite list_lookup_insert_ne by lia. rewrite decide_False by (intros ->; done). done.
Qed.

Lemma lor_bit_u8 b k : is_u8 b → 0 <= k < 8 → is_u8 (Z.lor b (Z.shiftl 1 k)).
Proof.
  intros Hb Hk. unfold in_u in *. split.
  - apply Z.lor_nonneg. split; [lia|]. rewrite Z.shiftl_1_l. lia.
  - apply (Z.bounded_iff_bits_nonneg' 8); [lia|apply Z.lor_nonneg; rewrite Z.shiftl_1_l; lia|].
    intros i Hi. rewrite Z.lor_spec, (testbit_small b 8), Z.shiftl_1_l by (done || lia).
    by rewrite Z.pow2_bits_false by lia.
Qed.

Lemma land_u8 b m : is_u8 b → is_u8 (Z.land b m).
Proof.
  intros Hb. unfold in_u in *. assert (0 <= Z.land b m) by (apply Z.land_nonneg; lia).
  split; [done|]. apply (Z.bounded_iff_bits_nonneg' 8); [lia..|]. intros i Hi.
  by rewrite Z.land_spec, (testbit_small b 8) by (done || lia).
Qed.

Lemma testbit_clear_mask k i :
  0 <= k < 8 → 0 <= i < 8 → Z.testbit (255 - Z.shiftl 1 k) i = negb (bool_decide (i = k)).
Proof.
  intros Hk%elem_of_upto Hi%elem_of_upto. revert i Hi. apply Forall_forall.
  revert k Hk. apply Forall_forall. vm_compute. repeat constructor.
Qed.

Lemma set_bit_spec {E} bm i :
  Forall is_u8 bm → 0 <= i < 8 * len bm →
  ∃ bm', set_bit (E:=E) bm i = Ok bm' ∧ Forall is_u8 bm' ∧ len bm' = len bm ∧
    ∀ j, 0 <= j → bit_at bm' j = if decide (j = i) then true else bit_at bm j.
Proof.
  intros Hu Hi. unfold set_bit.
  destruct (index_lookup (E:=E) bm (i / 8)) as (b & Hb & ->); [by apply div8_bound|].
  cbn. unfold set_index. rewrite decide_True by (by apply div8_bound). eexists. split; [done|].
  pose proof (Z.mod_pos_bound i 8). split_and!.
  - apply Forall_insert; [done|]. apply lor_bit_u8; [|lia]. by eapply Forall_lookup_1.
  - unfold len. by rewrite length_insert.
  - eapply bit_at_update; [done..|]. intros k Hk.
    rewrite Z.lor_spec, Z.shiftl_1_l, Z.pow2_bits_eqb by lia. case_decide as Heq.
    + by rewrite Heq, Z.eqb_refl, orb_true_r.
    + by rewrite (proj2 (Z.eqb_neq _ _)), orb_false_r by lia.
Qed.

Lemma clear_bit_spec {E} bm i :
  Forall is_u8 bm → 0 <= i < 8 * len bm →
  ∃ bm', clear_bit (E:=E) bm i = Ok bm' ∧ Forall is_u8 bm' ∧ len bm' = len bm ∧
    ∀ j, 0 <= j → bit_at bm' j = if decide (j = i) then false else bit_at bm j.
Proof.
  intros Hu Hi. unfold clear_bit.
  destruct (index_lookup (E:=E) bm (i / 8)) as (b & Hb & ->); [by apply div8_bound|].
  cbn. unfold set_index. rewrite decide_True by (by apply div8_bound). eexists. split; [done|].
  pose proof (Z.mod_pos_bound i 8). split_and!.
  - apply Forall_insert; [done|]. apply land_u8. by eapply Forall_lookup_1.
  - unfold len. by rewrite length_insert.
  - eapply bit_at_update; [done..|]. intros k Hk.
    rewrite Z.land_spec, testbit_clear_mask by lia.
    case_decide; case_bool_decide; try done; cbn; by rewrite ?andb_false_r, ?andb_true_r.
Qed.

(** Two bitmaps of the same length with the same bits are the same bytes. *)
Lemma bitmap_ext bm bm' :
  Forall is_u8 bm → Forall is_u8 bm' → len bm = len bm' →
  (∀ j, 0 <= j → bit_at bm j = bit_at bm' j) → bm = bm'.
Proof.
  intros Hu Hu' Hl Hb. apply list_eq. intros n.
  destruct (bm !! n) as [b|] eqn:Hn.
  2:{ symmetry. apply lookup_ge_None in Hn. apply lookup_ge_None. unfold len in Hl. lia. }
  destruct (lookup_lt_is_Some_2 bm' n) as [b' Hn'].
  { apply lookup_lt_Some in Hn. unfold len in Hl. lia. }
  rewrite Hn'. f_equal.
  assert (is_u8 b ∧ is_u8 b') as [Ub Ub'].
  { split; [exact (Forall_lookup_1 _ _ _ _ Hu Hn)|exact (Forall_lookup_1 _ _ _ _ Hu' Hn')]. }
  unfold in_u in Ub, Ub'. apply Z.bits_inj'. intros k Hk. destruct (decide (k < 8)).
  2:{ by rewrite (testbit_small b 8), (testbit_small b' 8) by (done || lia). }
  specialize (Hb (8 * Z.of_nat n + k)). unfold bit_at in Hb.
  replace ((8 * Z.of_nat n + k) / 8) with (Z.of_nat n) in Hb
    by (rewrite Z.mul_comm, Z.div_add_l, Z.div_small; lia).
  replace ((8 * Z.of_nat n + k) mod 8) with k in Hb
    by (rewrite Z.add_comm, Z.mul_comm, Z_mod_plus_full, Z.mod_small; lia).
  rewrite Nat2Z.id, Hn, Hn' in Hb. apply Hb. lia.
Qed.

(** ** The search *)
Lemma upto_split n pre x post : 0 <= n → upto n = pre ++ x :: post → pre = upto x ∧ 0 <= x < n.
Proof.
  intros Hn Hu.
  assert (upto n !! length pre = Some x) as Hx by (by rewrite Hu, list_lookup_middle).
  assert (0 <= x < n) as Hb by (apply elem_of_upto; by eapply list_elem_of_lookup_2).
  pose proof (lookup_lt_Some _ _ _ Hx) as Hlt. rewrite <- (Nat2Z.id (length (upto n))) in Hlt.
  rewrite len_fold, len_upto in Hlt by done.
  rewrite lookup_upto in Hx by lia. simplify_eq. split; [|done].
  apply (f_equal (take (length pre))) in Hu. rewrite take_app_length in Hu.
  trans (take (length pre) (upto n)); [done|].
  unfold upto. by rewrite <- fmap_take, take_seq, Nat.min_l, Nat2Z.id by lia.
Qed.

Lemma scan_bits_spec byte k max bits :
  Forall (λ b, 0 <= b) bits →
  match scan_bits byte k max bits with
  | Some (Some i) => ∃ pre bit post, bits = pre ++ bit :: post ∧ i = k * 8 + bit ∧ i < max ∧
      Z.testbit byte bit = false ∧ ∀ b, b ∈ pre → Z.testbit byte b = true
  | Some None => ∃ pre bit post, bits = pre ++ bit :: post ∧ max <= k * 8 + bit ∧
      ∀ b, b ∈ pre → Z.testbit byte b = true
  | None => ∀ b, b ∈ bits → Z.testbit byte b = true
  end.
Proof.
  induction 1 as [|b bits Hb Hbits IH]; cbn [scan_bits]; [set_solver|].
  destruct (decide (max <= k * 8 + b)).
  { exists [], b, bits. set_solver. }
  destruct (decide (Z.land byte (Z.shiftl 1 b) = 0)) as [Hz|Hz].
  { exists [], b, bits. rewrite land_bit in Hz by done. split_and!; try done; [lia|set_solver]. }
  assert (Z.testbit byte b = true) as Ht.
  { destruct (Z.testbit byte b) eqn:?; [done|]. by destruct Hz; apply land_bit. }
  destruct (scan_bits byte k max bits) as [[i|]|].
  - destruct IH as (pre & bit & post & -> & ? & ? & ? & IH). exists (b :: pre), bit, post.
    split_and!; try done. intros b' [->|?]%elem_of_cons; auto.
  - destruct IH as (pre & bit & post & -> & ? & IH). exists (b :: pre), bit, post.
    split_and!; try done. intros b' [->|?]%elem_of_cons; auto.
  - intros b' [->|?]%elem_of_cons; auto.
Qed.

Lemma upto_nonneg n : Forall (λ b, 0 <= b) (upto n).
Proof. apply Forall_forall. intros b Hb%elem_of_upto. lia. Qed.

(** What the search finds, from byte [k] on. *)
Lemma scan_bytes_spec k bm max :
  match scan_bytes k bm max with
  | Some i => ∃ j, i = 8 * k + j ∧ 0 <= j < 8 * len bm ∧ i < max ∧ bit_at bm j = false ∧
      ∀ j', 0 <= j' < j → bit_at bm j' = true
  | None => ∀ j, 0 <= j < 8 * len bm → 8 * k + j < max → bit_at bm j = true
  end.
Proof.
  revert k. induction bm as [|byte bm IH]; intros k; cbn [scan_bytes].
  { intros j Hj. len_lia. }
  assert ((∀ b, 0 <= b < 8 → Z.testbit byte b = true) →
    match scan_bytes (k + 1) bm max with
    | Some i => ∃ j, i = 8 * k + j ∧ 0 <= j < 8 * len (byte :: bm) ∧ i < max ∧
        bit_at (byte :: bm) j = false ∧ ∀ j', 0 <= j' < j → bit_at (byte :: bm) j' = true
    | None => ∀ j, 0 <= j < 8 * len (byte :: bm) → 8 * k + j < max → bit_at (byte :: bm) j = true
    end) as Hskip.
  { intros Hall. specialize (IH (k + 1)).
    assert (∀ j, 0 <= j → bit_at (byte :: bm) j =
              if decide (j < 8) then true else bit_at bm (j - 8)) as Hbits.
    { intros j Hj. case_decide; [by rewrite bit_at_head, Hall by lia|].
      rewrite <- (bit_at_cons byte bm (j - 8)) by lia. by replace (j - 8 + 8) with j by lia. }
    destruct (scan_bytes (k + 1) bm max) as [i|].
    - destruct IH as (j & -> & ? & ? & ? & Hlt). exists (j + 8). rewrite len_cons.
      split_and!; try lia; [by rewrite bit_at_cons by lia|].
      intros j' Hj'. rewrite Hbits by lia. case_decide; [done|]. apply Hlt. lia.
    - intros j Hj Hm. rewrite len_cons in Hj. rewrite Hbits by lia. case_decide; [done|].
      apply IH; lia. }
  destruct (decide (byte = 255)) as [->|Hff].
  { apply Hskip. intros b Hb. change 255 with (Z.ones 8). apply Z.ones_spec_low. lia. }
  pose proof (scan_bits_spec byte k max (upto 8) (upto_nonneg 8)) as Hs.
  destruct (scan_bits byte k max (upto 8)) as [[i|]|].
  - destruct Hs as (pre & bit & post & Hu & -> & ? & Hbit & Hpre).
    apply upto_split in Hu as [-> ?]; [|lia]. exists bit. rewrite len_cons.
    split_and!; try len_lia; [by rewrite bit_at_head by lia|].
    intros j' Hj'. rewrite bit_at_head by lia. apply Hpre, elem_of_upto. lia.
  - destruct Hs as (pre & bit & post & Hu & ? & Hpre).
    apply upto_split in Hu as [-> ?]; [|lia]. intros j Hj Hm.
    rewrite bit_at_head by lia. apply Hpre, elem_of_upto. lia.
  - apply Hskip. intros b Hb. apply Hs, elem_of_upto. lia.
Qed.

Lemma find_clear_Some bm max i :
  find_first_clear_bit bm max = Some i →
  0 <= i < 8 * len bm ∧ i < max ∧ bit_at bm i = false ∧ ∀ j, 0 <= j < i → bit_at bm j = true.
Proof.
  intros Hf. pose proof (scan_bytes_spec 0 bm max) as Hs.
  unfold find_first_clear_bit in Hf. rewrite Hf in Hs. destruct Hs as (j & -> & ? & ? & ? & Hlt).
  split_and!; try lia; [done|]. intros j' ?. apply Hlt. lia.
Qed.

Lemma find_clear_None bm max :
  find_first_clear_bit bm max = None →
  ∀ i, 0 <= i < 8 * len bm → i < max → bit_at bm i = true.
Proof.
  intros Hf i ? ?. pose proof (scan_bytes_spec 0 bm max) as Hs.
  unfold find_first_clear_bit in Hf. rewrite Hf in Hs. by apply Hs.
Qed.

(** The search by bytes is the search by bits. *)
Lemma find_first_clear_bit_ref bm max : find_first_clear_bit bm max = first_clear bm max.
Proof.
  unfold first_clear, bits_below. pose proof (len_nonneg bm).
  destruct (list_find _ _) as [[n i]|] eqn:Hl; cbn.
  - apply list_find_Some in Hl as (Hn & Hi & Hlt).
    assert (0 <= i < Z.min max (8 * len bm)) as Hr by (apply elem_of_upto; by eapply list_elem_of_lookup_2).
    destruct (find_first_clear_bit bm max) as [j|] eqn:Hf.
    + apply find_clear_Some in Hf as (? & ? & Hj & Hbelow). f_equal.
      destruct (decide (i < j)); [rewrite Hbelow in Hi by lia; done|].
      destruct (decide (j < i)); [|lia]. exfalso.
      assert (Z.of_nat n = i) as <-.
      { pose proof (lookup_lt_Some _ _ _ Hn) as Hk.
        rewrite <- (Nat2Z.id (length _)), len_fold, len_upto in Hk by lia.
        rewrite lookup_upto in Hn by lia. by simplify_eq. }
      apply (Hlt (Z.to_nat j) j); [|lia|done]. rewrite lookup_upto by lia. f_equal. lia.
    + rewrite (find_clear_None _ _ Hf) in Hi by lia. done.
  - apply list_find_None in Hl. rewrite Forall_forall in Hl.
    destruct (find_first_clear_bit bm max) as [j|] eqn:Hf; [|done].
    apply find_clear_Some in Hf as (? & ? & Hj & _). exfalso.
    apply (Hl j); [|done]. apply elem_of_upto. lia.
Qed.

(** ** Counting clear bits *)
Lemma count_clear_update bm bm' i n :
  0 <= i < n → bit_at bm i = false → bit_at bm' i = true →
  (∀ j, 0 <= j → j ≠ i → bit_at bm' j = bit_at bm j) →
  count_clear bm' n = count_clear bm n - 1.
Proof.
  intros Hi Hb Hb' Ho. unfold count_clear.
  assert (∀ k, 0 <= k → len (filter (λ j, bit_at bm' j = false) (upto k)) =
    len (filter (λ j, bit_at bm j = false) (upto k)) - (if decide (i < k) then 1 else 0)) as Hk.
  { apply natlike_ind; [by rewrite decide_False by lia|]. intros k Hk IH. unfold Z.succ. rewrite upto_succ, !filter_app, !len_app by done.
    rewrite IH. rewrite !filter_cons, !filter_nil.
    destruct (decide (k = i)) as [->|Hne].
    - rewrite (decide_False (P:=i < i)), (decide_True (P:=i < i + 1)) by lia.
      rewrite decide_False, decide_True by congruence. len_lia.
    - rewrite Ho by lia. repeat case_decide; len_lia. }
  rewrite Hk, decide_True by lia. done.
Qed.

Lemma count_clear_pos bm n i : 0 <= i < n → bit_at bm i = false → 0 < count_clear bm n.
Proof.
  intros Hi Hb. unfold count_clear.
  assert (i ∈ filter (λ j, bit_at bm j = false) (upto n)) as Hin.
  { apply list_elem_of_filter. by rewrite elem_of_upto. }
  destruct (filter _ _); [by apply not_elem_of_nil in Hin|len_lia].
Qed.

Lemma count_clear_zero bm n : (∀ i, 0 <= i < n → bit_at bm i = true) → count_clear bm n = 0.
Proof.
  intros Hall. unfold count_clear.
  destruct (filter _ _) as [|i l] eqn:Hf; [done|].
  assert (i ∈ filter (λ j, bit_at bm j = false) (upto n)) as [Hi Hin]%list_elem_of_filter
    by (rewrite Hf; constructor).
  apply elem_of_upto in Hin. by rewrite Hall in Hi.
Qed.
