(* ===== verification/Ext2Fs.v ===== *)
(** * The ext2 driver: state and block access ([vfs/ext2/mod.rs])

    The state of a mounted file system is the device, the immutable geometry
    and, under one lock in the source, the in-memory superblock and block group
    descriptors.  Operations run one after the other here: the source holds
    [alloc_lock] across the bitmap updates and each open file is used by one
    task at a time.  A dropped [InodeGuard] or [BlockGuard] spawns a task that
    frees what it guarded; [fs_spawned] is the list of these tasks. *)

From S2P Require Import Prelude Effects BlockDevice FsTypes Ext2Structs.

(** ** The file system *)
Inductive Cleanup : Type :=
| FreeInode (ino : Z)
| FreeBlock (block : Z).

Record Ext2Fs (D : Type) : Type := mkFs {
  fs_device : D;
  fs_block_size : Z;
  fs_inode_size : Z;
  fs_blocks_count : Z;
  fs_inodes_per_group : Z;
  fs_superblock : Superblock;
  fs_block_groups : list BlockGroupDescriptor;
  fs_spawned : list Cleanup;
}.
Arguments mkFs {D}.
Arguments fs_device {D}.
Arguments fs_block_size {D}.
Arguments fs_inode_size {D}.
Arguments fs_blocks_count {D}.
Arguments fs_inodes_per_group {D}.
Arguments fs_superblock {D}.
Arguments fs_block_groups {D}.
Arguments fs_spawned {D}.

Definition with_device {D} (d : D) (fs : Ext2Fs D) : Ext2Fs D :=
  mkFs d (fs_block_size fs) (fs_inode_size fs) (fs_blocks_count fs) (fs_inodes_per_group fs)
    (fs_superblock fs) (fs_block_groups fs) (fs_spawned fs).
Definition with_superblock {D} (sb : Superblock) (fs : Ext2Fs D) : Ext2Fs D :=
  mkFs (fs_device fs) (fs_block_size fs) (fs_inode_size fs) (fs_blocks_count fs)
    (fs_inodes_per_group fs) sb (fs_block_groups fs) (fs_spawned fs).
Definition with_groups {D} (gs : list BlockGroupDescriptor) (fs : Ext2Fs D) : Ext2Fs D :=
  mkFs (fs_device fs) (fs_block_size fs) (fs_inode_size fs) (fs_blocks_count fs)
    (fs_inodes_per_group fs) (fs_superblock fs) gs (fs_spawned fs).
Definition spawn_cleanup {D} (c : Cleanup) (fs : Ext2Fs D) : Ext2Fs D :=
  mkFs (fs_device fs) (fs_block_size fs) (fs_inode_size fs) (fs_blocks_count fs)
    (fs_inodes_per_group fs) (fs_superblock fs) (fs_block_groups fs) (fs_spawned fs ++ [c]).

(** [core::mem::size_of::<BlockGroupDescriptor>()]. *)
Definition DESC_SIZE : Z := 32.

(** Block 2 for 1 KiB blocks, block 1 for larger ones. *)
Definition bgdt_offset (block_size : Z) : Z :=
  if decide (block_size = 1024) then 2048 else block_size.

(** [a / b] and [a % b]: division by zero panics. *)
Definition div_rem {E} (a b : Z) : outcome E (Z * Z) :=
  if decide (b = 0) then Panic else Ok (a / b, a mod b).

(** [ptr::read] of a structure from a buffer large enough for it. *)
Definition from_buf {E A} (o : option A) : outcome E A :=
  match o with Some a => Ok a | None => Panic end.

(** [vec![0u8; n]]. *)
Definition zeroes (n : Z) : list Z := replicate (Z.to_nat n) 0.

(** A computation of the driver. *)
Abbreviation FsM D := (ST (Ext2Fs D) FsError).

Section ext2.
Context {D : Type} `{!BlockDevice D}.
Implicit Types fs : Ext2Fs D.


(** [self.device.read_at(off, buf).await?] on a caller's buffer: what the device
    does not fill keeps its contents.  Offsets are [u64] expressions. *)
Definition device_read (off : Z) (buf : list Z) : FsM D (list Z) :=
  off ← liftO (chk 64 off);
  bs ← zoom fs_device with_device FsError_from (bd_read_at off (len buf));
  mret (bs ++ drop (length bs) buf).

(** [self.device.write_at(off, data).await?]. *)
Definition device_write (off : Z) (data : list Z) : FsM D () :=
  off ← liftO (chk 64 off);
  zoom fs_device with_device FsError_from (bd_write_at off data);; mret tt.

(** [m.block_groups[group]]. *)
Definition block_group (group : Z) : FsM D BlockGroupDescriptor :=
  gs ← gets fs_block_groups; liftO (index gs group).

(** [m.block_groups[group] = g]. *)
Definition set_block_group (group : Z) (g : BlockGroupDescriptor) : FsM D () :=
  gs ← gets fs_block_groups;
  gs ← liftO (set_index gs group g);
  modify (with_groups gs).

Definition read_block (block : Z) (buf : list Z) : FsM D (list Z) :=
  count ← gets fs_blocks_count;
  if decide (count <= block) then fail FsNotReadable
  else bs ← gets fs_block_size; device_read (block * bs) buf.

Definition write_block (block : Z) (data : list Z) : FsM D () :=
  count ← gets fs_blocks_count;
  bs ← gets fs_block_size;
  if decide (count <= block) then fail FsIoError
  else if decide (len data ≠ bs) then fail FsIoError
  else device_write (block * bs) data.

(** Where inode [ino] lives: the source computes this in [read_inode] and in
    [write_inode]. *)
Definition inode_offset (ino : Z) : FsM D Z :=
  if decide (ino = 0) then fail FsNotFound
  else
    ipg ← gets fs_inodes_per_group;
    '(group, idx) ← liftO (div_rem (ino - 1) ipg);
    gs ← gets fs_block_groups;
    if decide (len gs <= group) then fail FsNotFound
    else
      g ← block_group group;
      bs ← gets fs_block_size;
      isz ← gets fs_inode_size;
      mret (bg_inode_table g * bs + idx * isz).

Definition read_inode (ino : Z) : FsM D Inode :=
  off ← inode_offset ino;
  buf ← device_read off (zeroes 128);
  liftO (from_buf (Inode_of_bytes buf)).

Definition write_inode (ino : Z) (inode : Inode) : FsM D () :=
  off ← inode_offset ino;
  device_write off (Inode_to_bytes inode).

Definition write_superblock : FsM D () :=
  sb ← gets fs_superblock;
  device_write SUPERBLOCK_OFFSET (Superblock_to_bytes sb).

Definition write_block_group_descriptor (group_num : Z) : FsM D () :=
  gs ← gets fs_block_groups;
  if decide (len gs <= group_num) then fail FsIoError
  else
    g ← block_group group_num;
    bs ← gets fs_block_size;
    device_write (bgdt_offset bs + group_num * DESC_SIZE) (Bgd_to_bytes g).

(** ** Mounting *)

(** The descriptors of a table, [(0..n).map(..)]. *)
Fixpoint read_descriptors {E} (n : nat) (buf : list Z) : outcome E (list BlockGroupDescriptor) :=
  match n with
  | O => Ok []
  | S n =>
      g ← from_buf (Bgd_of_bytes (take 32 buf));
      gs ← read_descriptors n (drop 32 buf);
      Ok (g :: gs)
  end.

(** [device.read_at(off, &mut [0u8; n])], any failure giving [e]. *)
Definition read_at_zeroed (off n : Z) (e : MountError) : ST D MountError (list Z) :=
  off ← liftO (chk 64 off);
  bs ← zoom id (λ d _, d) (λ _, e) (bd_read_at off (len (zeroes n)));
  mret (bs ++ drop (length bs) (zeroes n)).

Definition Ext2_mount : ST D MountError (Ext2Fs D) :=
  sb_buf ← read_at_zeroed SUPERBLOCK_OFFSET 1024 ReadSuperblock;
  sb ← liftO (from_buf (Superblock_of_bytes sb_buf));
  if decide (s_magic sb ≠ EXT2_SUPER_MAGIC) then fail BadMagic
  else
    liftO (Superblock_validate sb);;
    if decide (Superblock_unsupported_incompat_features sb ≠ 0) then fail UnsupportedFeatures
    else
      block_size ← liftO (from_buf (Superblock_block_size sb));
      block_group_count ← liftO (from_buf (Superblock_block_group_count sb));
      let bgdt_size := block_group_count * DESC_SIZE in
      bgdt_buf ← read_at_zeroed (bgdt_offset block_size) bgdt_size ReadDescriptors;
      block_groups ← liftO (read_descriptors (Z.to_nat block_group_count) bgdt_buf);
      gets (λ d, mkFs d block_size (Superblock_inode_size sb) (s_blocks_count sb)
                   (s_inodes_per_group sb) sb block_groups []).
End ext2.
(** ** The same driver over an array

    [fs_view] replaces the device by its bytes.  Every operation of the driver
    simulates itself over the array. *)
Definition fs_view {D} `{ByteDevice D} (fs : Ext2Fs D) : Ext2Fs RamDisk :=
  mkFs (bd_bytes (fs_device fs)) (fs_block_size fs) (fs_inode_size fs) (fs_blocks_count fs)
    (fs_inodes_per_group fs) (fs_superblock fs) (fs_block_groups fs) (fs_spawned fs).

Section sim.
Context {D : Type} `{ByteDevice D}.
Abbreviation fsim := (simulates (E:=FsError) (λ fs : Ext2Fs D, bd_wf (fs_device fs))
                       (λ fs, bd_ok (fs_device fs)) fs_view).

Lemma sim_zoom_device {A} (m : ST D BlockError A) (m' : ST RamDisk BlockError A) :
  simulates bd_wf bd_ok bd_bytes m m' →
  fsim (zoom fs_device with_device FsError_from m) (zoom fs_device with_device FsError_from m').
Proof.
  intros Hm fs Hfs. specialize (Hm _ Hfs). unfold zoom.
  destruct (m (fs_device fs)) as [d r]. destruct Hm as [? Hm]. split; [done|].
  intros Hok. destruct (Hm Hok) as [? Hm']. split; [done|]. cbn. by rewrite Hm'.
Qed.

Lemma device_read_sim off buf : fsim (device_read off buf) (device_read off buf).
Proof.
  apply sim_bind_chk. intros Ho. repeat sim_struct.
  apply sim_zoom_device, bd_read_refines; [apply Ho|apply len_nonneg].
Qed.

Lemma device_write_sim off data : fsim (device_write off data) (device_write off data).
Proof.
  apply sim_bind_chk. intros Ho. repeat sim_struct.
  apply sim_zoom_device, bd_write_refines. apply Ho.
Qed.

Lemma with_groups_sim gs : fsim (modify (with_groups gs)) (modify (with_groups gs)).
Proof. by apply sim_modify. Qed.
Lemma with_superblock_sim sb : fsim (modify (with_superblock sb)) (modify (with_superblock sb)).
Proof. by apply sim_modify. Qed.
Lemma spawn_cleanup_sim c : fsim (modify (spawn_cleanup c)) (modify (spawn_cleanup c)).
Proof. by apply sim_modify. Qed.
#[local] Hint Resolve device_read_sim device_write_sim with_groups_sim with_superblock_sim : sim.

Lemma block_group_sim group : fsim (block_group group) (block_group group).
Proof. unfold block_group. sim_auto. Qed.
Lemma set_block_group_sim group g : fsim (set_block_group group g) (set_block_group group g).
Proof. unfold set_block_group. sim_auto. Qed.
Lemma read_block_sim b buf : fsim (read_block b buf) (read_block b buf).
Proof. unfold read_block. sim_auto. Qed.
Lemma write_block_sim b data : fsim (write_block b data) (write_block b data).
Proof. unfold write_block. sim_auto. Qed.
#[local] Hint Resolve block_group_sim : sim.
Lemma inode_offset_sim ino : fsim (inode_offset ino) (inode_offset ino).
Proof. unfold inode_offset. sim_auto. Qed.
#[local] Hint Resolve inode_offset_sim : sim.
Lemma read_inode_sim ino : fsim (read_inode ino) (read_inode ino).
Proof. unfold read_inode. sim_auto. Qed.
Lemma write_inode_sim ino i : fsim (write_inode ino i) (write_inode ino i).
Proof. unfold write_inode. sim_auto. Qed.
Lemma write_superblock_sim : fsim write_superblock write_superblock.
Proof. unfold write_superblock. sim_auto. Qed.
Lemma write_bgd_sim g : fsim (write_block_group_descriptor g) (write_block_group_descriptor g).
Proof. unfold write_block_group_descriptor. sim_auto. Qed.
End sim.
#[export] Hint Resolve device_read_sim device_write_sim with_groups_sim with_superblock_sim
  spawn_cleanup_sim block_group_sim set_block_group_sim read_block_sim write_block_sim
  read_inode_sim write_inode_sim write_superblock_sim write_bgd_sim : sim.
