(* ===== verification/Ext2Alloc.v ===== *)
(** * Block and inode allocation ([vfs/ext2/bitmap.rs])

    First-fit allocation from the bitmaps of the block groups, with the free
    counts of the group and of the superblock written back. *)

From S2P Require Import Prelude Effects BlockDevice FsTypes Ext2Structs Bitmap Ext2Fs.

(** ** The counters the allocator assigns *)
Definition with_free_blocks (g : BlockGroupDescriptor) (n : Z) : BlockGroupDescriptor :=
  Build_BlockGroupDescriptor (bg_block_bitmap g) (bg_inode_bitmap g) (bg_inode_table g) n
    (bg_free_inodes_count g) (bg_used_dirs_count g) (bg_pad g) (bg_reserved g).
Definition with_free_inodes (g : BlockGroupDescriptor) (n : Z) : BlockGroupDescriptor :=
  Build_BlockGroupDescriptor (bg_block_bitmap g) (bg_inode_bitmap g) (bg_inode_table g)
    (bg_free_blocks_count g) n (bg_used_dirs_count g) (bg_pad g) (bg_reserved g).
Definition with_used_dirs (g : BlockGroupDescriptor) (n : Z) : BlockGroupDescriptor :=
  Build_BlockGroupDescriptor (bg_block_bitmap g) (bg_inode_bitmap g) (bg_inode_table g)
    (bg_free_blocks_count g) (bg_free_inodes_count g) n (bg_pad g) (bg_reserved g).

Definition sb_with_free (sb : Superblock) (free_blocks free_inodes : Z) : Superblock :=
  Build_Superblock (s_inodes_count sb) (s_blocks_count sb) (s_reserved_blocks_count sb)
    free_blocks free_inodes (s_first_data_block sb) (s_log_block_size sb) (s_log_frag_size sb)
    (s_blocks_per_group sb) (s_frags_per_group sb) (s_inodes_per_group sb) (s_mtime sb)
    (s_wtime sb) (s_mnt_count sb) (s_max_mnt_count sb) (s_magic sb) (s_state sb) (s_errors sb)
    (s_minor_rev_level sb) (s_lastcheck sb) (s_checkinterval sb) (s_creator_os sb)
    (s_rev_level sb) (s_def_resuid sb) (s_def_resgid sb) (s_first_ino sb) (s_inode_size sb)
    (s_block_group_nr sb) (s_feature_compat sb) (s_feature_incompat sb)
    (s_feature_ro_compat sb) (s_uuid sb) (s_volume_name sb) (s_last_mounted sb)
    (s_algo_bitmap sb) (s_padding sb).

Section alloc.
Context {D : Type} `{!BlockDevice D}.
Implicit Types fs : Ext2Fs D.

(** [m.block_groups[group].free_blocks_count += d;
     m.superblock.free_blocks_count += d]. *)
Definition add_free_blocks (group d : Z) : FsM D () :=
  g ← block_group group;
  n ← liftO (chk 16 (bg_free_blocks_count g + d));
  set_block_group group (with_free_blocks g n);;
  sb ← gets fs_superblock;
  n ← liftO (chk 32 (s_free_blocks_count sb + d));
  modify (with_superblock (sb_with_free sb n (s_free_inodes_count sb))).

(** The same for [free_inodes_count]. *)
Definition add_free_inodes (group d : Z) : FsM D () :=
  g ← block_group group;
  n ← liftO (chk 16 (bg_free_inodes_count g + d));
  set_block_group group (with_free_inodes g n);;
  sb ← gets fs_superblock;
  n ← liftO (chk 32 (s_free_inodes_count sb + d));
  modify (with_superblock (sb_with_free sb (s_free_blocks_count sb) n)).

(** How many bits of the group's bitmap are scanned. *)
Definition blocks_in_group (group num_groups : Z) : FsM D Z :=
  bpg ← gets (λ fs, s_blocks_per_group (fs_superblock fs));
  if decide (group = num_groups - 1) then
    total ← gets fs_blocks_count;
    before ← liftO (chk 32 (group * bpg));
    liftO (chk 32 (total - before))
  else mret bpg.

(** [first_data_block + group * blocks_per_group + bit_index]. *)
Definition block_number (group bit_index : Z) : FsM D Z :=
  sb ← gets fs_superblock;
  a ← liftO (chk 32 (group * s_blocks_per_group sb));
  b ← liftO (chk 32 (s_first_data_block sb + a));
  liftO (chk 32 (b + bit_index)).

(** One iteration of the loop of [alloc_block] over the groups. *)
Definition alloc_block_in (num_groups group : Z) : FsM D (option Z) :=
  block_size ← gets fs_block_size;
  bgd ← block_group group;
  if decide (bg_free_blocks_count bgd = 0) then mret None
  else
    n ← blocks_in_group group num_groups;
    bitmap ← read_block (bg_block_bitmap bgd) (zeroes block_size);
    match find_first_clear_bit bitmap n with
    | None => mret None
    | Some bit_index =>
        bitmap ← liftO (set_bit bitmap bit_index);
        write_block (bg_block_bitmap bgd) bitmap;;
        add_free_blocks group (-1);;
        write_block_group_descriptor group;;
        write_superblock;;
        block_num ← block_number group bit_index;
        mret (Some block_num)
    end.

Definition alloc_block : FsM D Z :=
  num_groups ← gets (λ fs, len (fs_block_groups fs));
  r ← for_return (upto num_groups) (alloc_block_in num_groups);
  match r with Some block_num => mret block_num | None => fail FsNoSpace end.

Definition free_block (block_num : Z) : FsM D () :=
  total ← gets fs_blocks_count;
  if decide (total <= block_num) then fail FsIoError
  else
    sb ← gets fs_superblock;
    adjusted ← liftO (chk 32 (block_num - s_first_data_block sb));
    '(group, bit_index) ← liftO (div_rem adjusted (s_blocks_per_group sb));
    block_size ← gets fs_block_size;
    gs ← gets fs_block_groups;
    if decide (len gs <= group) then fail FsIoError
    else
      bgd ← block_group group;
      bitmap ← read_block (bg_block_bitmap bgd) (zeroes block_size);
      used ← liftO (get_bit bitmap bit_index);
      if negb used then fail FsIoError
      else
        bitmap ← liftO (clear_bit bitmap bit_index);
        write_block (bg_block_bitmap bgd) bitmap;;
        add_free_blocks group 1;;
        write_block_group_descriptor group;;
        write_superblock.

(** One iteration of the loop of [alloc_inode] over the groups. *)
Definition alloc_inode_in (group : Z) : FsM D (option Z) :=
  block_size ← gets fs_block_size;
  ipg ← gets fs_inodes_per_group;
  bgd ← block_group group;
  if decide (bg_free_inodes_count bgd = 0) then mret None
  else
    bitmap ← read_block (bg_inode_bitmap bgd) (zeroes block_size);
    match find_first_clear_bit bitmap ipg with
    | None => mret None
    | Some bit_index =>
        bitmap ← liftO (set_bit bitmap bit_index);
        write_block (bg_inode_bitmap bgd) bitmap;;
        add_free_inodes group (-1);;
        write_block_group_descriptor group;;
        write_superblock;;
        a ← liftO (chk 32 (group * ipg));
        ino ← liftO (chk 32 (a + bit_index + 1));
        mret (Some ino)
    end.

(** Returns the inode number the [InodeGuard] wraps. *)
Definition alloc_inode : FsM D Z :=
  num_groups ← gets (λ fs, len (fs_block_groups fs));
  r ← for_return (upto num_groups) alloc_inode_in;
  match r with Some ino => mret ino | None => fail FsNoSpace end.

Definition free_inode (ino : Z) : FsM D () :=
  if decide (ino = 0) then fail FsIoError
  else
    ipg ← gets fs_inodes_per_group;
    '(group, bit_index) ← liftO (div_rem (ino - 1) ipg);
    block_size ← gets fs_block_size;
    gs ← gets fs_block_groups;
    if decide (len gs <= group) then fail FsIoError
    else
      bgd ← block_group group;
      bitmap ← read_block (bg_inode_bitmap bgd) (zeroes block_size);
      used ← liftO (get_bit bitmap bit_index);
      if negb used then fail FsIoError
      else
        bitmap ← liftO (clear_bit bitmap bit_index);
        write_block (bg_inode_bitmap bgd) bitmap;;
        add_free_inodes group 1;;
        write_block_group_descriptor group;;
        write_superblock.

(** [used_dirs_count.saturating_add(d)] of the group of [ino]. *)
Definition adjust_used_dirs_count (ino d : Z) : FsM D () :=
  i ← liftO (chk 32 (ino - 1));
  ipg ← gets fs_inodes_per_group;
  '(group, _) ← liftO (div_rem i ipg);
  gs ← gets fs_block_groups;
  if decide (len gs <= group) then fail FsIoError
  else
    g ← block_group group;
    set_block_group group
      (with_used_dirs g (Z.max 0 (Z.min (2 ^ 16 - 1) (bg_used_dirs_count g + d))));;
    write_block_group_descriptor group.

Definition inc_used_dirs_count (ino : Z) : FsM D () := adjust_used_dirs_count ino 1.
Definition dec_used_dirs_count (ino : Z) : FsM D () := adjust_used_dirs_count ino (-1).
End alloc.

(** ** Simulation *)
Section alloc_sim.
Context {D : Type} `{ByteDevice D}.
Abbreviation fsim := (simulates (E:=FsError) (λ fs : Ext2Fs D, bd_wf (fs_device fs))
                       (λ fs, bd_ok (fs_device fs)) fs_view).

Lemma add_free_blocks_sim g d : fsim (add_free_blocks g d) (add_free_blocks g d).
Proof. unfold add_free_blocks. sim_auto. Qed.
Lemma add_free_inodes_sim g d : fsim (add_free_inodes g d) (add_free_inodes g d).
Proof. unfold add_free_inodes. sim_auto. Qed.
Lemma blocks_in_group_sim g n : fsim (blocks_in_group g n) (blocks_in_group g n).
Proof. unfold blocks_in_group. sim_auto. Qed.
Lemma block_number_sim g n : fsim (block_number g n) (block_number g n).
Proof. unfold block_number. sim_auto. Qed.
#[local] Hint Resolve add_free_blocks_sim add_free_inodes_sim blocks_in_group_sim
  block_number_sim : sim.

Lemma alloc_block_sim : fsim alloc_block alloc_block.
Proof. unfold alloc_block, alloc_block_in. sim_auto. Qed.
Lemma free_block_sim b : fsim (free_block b) (free_block b).
Proof. unfold free_block. sim_auto. Qed.
Lemma alloc_inode_sim : fsim alloc_inode alloc_inode.
Proof. unfold alloc_inode, alloc_inode_in. sim_auto. Qed.
Lemma free_inode_sim ino : fsim (free_inode ino) (free_inode ino).
Proof. unfold free_inode. sim_auto. Qed.
Lemma inc_used_dirs_count_sim ino : fsim (inc_used_dirs_count ino) (inc_used_dirs_count ino).
Proof. unfold inc_used_dirs_count, adjust_used_dirs_count. sim_auto. Qed.
Lemma dec_used_dirs_count_sim ino : fsim (dec_used_dirs_count ino) (dec_used_dirs_count ino).
Proof. unfold dec_used_dirs_count, adjust_used_dirs_count. sim_auto. Qed.
End alloc_sim.
#[export] Hint Resolve alloc_block_sim free_block_sim alloc_inode_sim free_inode_sim
  inc_used_dirs_count_sim dec_used_dirs_count_sim : sim.
