(* ===== verification/Ext2Layout.v ===== *)
(** * The layout of an ext2 image

    What the driver relies on and keeps: the geometry fits the device, the
    bitmaps are blocks of their own, the free counts are the numbers of clear
    bits, and superblock and descriptors in memory are those on the disk.  The
    disk is the array of bytes (the other devices follow by simulation). *)

From S2P Require Import Prelude Effects BlockDevice FsTypes Ext2Structs Bitmap Ext2Fs Ext2Alloc.

Implicit Types fs : Ext2Fs RamDisk.

(** ** Blocks and regions *)
Definition blk fs (b : Z) : list Z :=
  sub (fs_device fs) (b * fs_block_size fs) (fs_block_size fs).
Definition num_groups fs : Z := len (fs_block_groups fs).
Definition bpg fs : Z := s_blocks_per_group (fs_superblock fs).
Definition fdb fs : Z := s_first_data_block (fs_superblock fs).
(** The end of the descriptor table: the superblock and the table lie below. *)
Definition bgdt_end fs : Z := bgdt_offset (fs_block_size fs) + num_groups fs * DESC_SIZE.

Definition bitmaps_of (gs : list BlockGroupDescriptor) : list Z :=
  gs ≫= λ g, [bg_block_bitmap g; bg_inode_bitmap g].

Record geometry fs : Prop := {
  ge_bytes : Forall is_u8 (fs_device fs);
  ge_size : fs_blocks_count fs * fs_block_size fs <= len (fs_device fs) < 2 ^ 64;
  ge_bs : fs_block_size fs = 1024 ∨ 2048 <= fs_block_size fs <= 65536;
  ge_sb : Superblock_wf (fs_superblock fs);
  ge_groups : Forall Bgd_wf (fs_block_groups fs);
  ge_bpg : 0 < bpg fs <= 8 * fs_block_size fs ∧ bpg fs < 2 ^ 16;
  ge_ipg : 0 < fs_inodes_per_group fs <= 8 * fs_block_size fs ∧ fs_inodes_per_group fs < 2 ^ 16;
  ge_cover : (num_groups fs - 1) * bpg fs < fs_blocks_count fs <= num_groups fs * bpg fs;
  ge_number : 0 <= fdb fs ∧ fdb fs + num_groups fs * bpg fs < 2 ^ 32;
  ge_inodes : num_groups fs * fs_inodes_per_group fs < 2 ^ 32;
  ge_table : bgdt_end fs <= fs_blocks_count fs * fs_block_size fs;
}.

Record layout fs : Prop := {
  la_distinct : NoDup (bitmaps_of (fs_block_groups fs));
  la_place m : m ∈ bitmaps_of (fs_block_groups fs) →
    bgdt_end fs <= m * fs_block_size fs ∧ m < fs_blocks_count fs;
}.

(** The two kinds of numbered objects, with their bitmap, counters and numbers. *)
Inductive kind : Type := KBlock | KInode.
#[export] Instance kind_eq_dec : EqDecision kind.
Proof. solve_decision. Defined.

Definition bitmap_of (k : kind) (d : BlockGroupDescriptor) : Z :=
  match k with KBlock => bg_block_bitmap d | KInode => bg_inode_bitmap d end.
Definition count_of (k : kind) (d : BlockGroupDescriptor) : Z :=
  match k with KBlock => bg_free_blocks_count d | KInode => bg_free_inodes_count d end.
Definition with_count (k : kind) (d : BlockGroupDescriptor) (n : Z) : BlockGroupDescriptor :=
  match k with KBlock => with_free_blocks d n | KInode => with_free_inodes d n end.
Definition sb_count (k : kind) (sb : Superblock) : Z :=
  match k with KBlock => s_free_blocks_count sb | KInode => s_free_inodes_count sb end.
Definition sb_with (k : kind) (sb : Superblock) (n : Z) : Superblock :=
  match k with
  | KBlock => sb_with_free sb n (s_free_inodes_count sb)
  | KInode => sb_with_free sb (s_free_blocks_count sb) n
  end.
(** Objects per group, bits of group [g] that are scanned, number of bit [i]. *)
Definition per_group (k : kind) fs : Z :=
  match k with KBlock => bpg fs | KInode => fs_inodes_per_group fs end.
Definition bits (k : kind) fs (g : Z) : Z :=
  match k with
  | KBlock => if decide (g = num_groups fs - 1) then fs_blocks_count fs - g * bpg fs else bpg fs
  | KInode => fs_inodes_per_group fs
  end.
Definition base (k : kind) fs : Z := match k with KBlock => fdb fs | KInode => 1 end.
Definition number (k : kind) fs (g i : Z) : Z := base k fs + g * per_group k fs + i.

Definition sumZ (l : list Z) : Z := foldr Z.add 0 l.

Record counted fs : Prop := {
  co_group k g d : fs_block_groups fs !! g = Some d →
    count_of k d = count_clear (blk fs (bitmap_of k d)) (bits k fs (Z.of_nat g));
  co_sb k : sb_count k (fs_superblock fs) = sumZ (count_of k <$> fs_block_groups fs);
}.

Record synced fs : Prop := {
  sy_sb : sub (fs_device fs) SUPERBLOCK_OFFSET 1024 = Superblock_to_bytes (fs_superblock fs);
  sy_bgd g d : fs_block_groups fs !! g = Some d →
    sub (fs_device fs) (bgdt_offset (fs_block_size fs) + Z.of_nat g * DESC_SIZE) 32 =
      Bgd_to_bytes d;
}.

Record fs_inv fs : Prop := {
  inv_geometry : geometry fs;
  inv_layout : layout fs;
  inv_counted : counted fs;
  inv_synced : synced fs;
}.
#[export] Hint Resolve inv_geometry inv_layout inv_counted inv_synced : panda.

(** ** Running the driver's primitives *)
Lemma with_device_id fs : with_device (fs_device fs) fs = fs.
Proof. by destruct fs. Qed.

Lemma len_zeroes n : 0 <= n → len (zeroes n) = n.
Proof. intros. unfold len, zeroes. rewrite length_replicate. lia. Qed.

Lemma device_read_run fs off buf :
  0 <= off → off + len buf <= len (fs_device fs) → len (fs_device fs) < 2 ^ 64 →
  device_read off buf fs = (fs, Ok (sub (fs_device fs) off (len buf))).
Proof.
  intros Ho Hle Hlt. pose proof (len_nonneg buf).
  unfold device_read, chk. rewrite decide_True by (unfold in_u; lia).
  unfold mbind, ST_bind, liftO, zoom. cbn. rewrite with_device_id. do 2 f_equal.
  rewrite drop_ge, app_nil_r; [done|]. pose proof (len_sub (fs_device fs) off (len buf)).
  unfold len in *. lia.
Qed.

Lemma device_write_run fs off data :
  0 <= off → off + len data <= len (fs_device fs) → len (fs_device fs) < 2 ^ 64 →
  device_write off data fs = (with_device (splice (fs_device fs) off data) fs, Ok tt).
Proof.
  intros Ho Hle Hlt. pose proof (len_nonneg data).
  unfold device_write, chk. rewrite decide_True by (unfold in_u; lia).
  unfold mbind, ST_bind, liftO, zoom. cbn. by rewrite ram_write_inside.
Qed.

Section runs.
Context fs (Hg : geometry fs).

Lemma bs_pos : 1024 <= fs_block_size fs.
Proof. destruct Hg. lia. Qed.

Lemma block_in_disk b : 0 <= b < fs_blocks_count fs →
  0 <= b * fs_block_size fs ∧ b * fs_block_size fs + fs_block_size fs <= len (fs_device fs).
Proof. intros. pose proof bs_pos. destruct (ge_size _ Hg). nia. Qed.

Lemma len_blk b : 0 <= b < fs_blocks_count fs → len (blk fs b) = fs_block_size fs.
Proof.
  intros Hb%block_in_disk. pose proof bs_pos. unfold blk. apply len_sub; lia.
Qed.

Lemma blk_u8 b : Forall is_u8 (blk fs b).
Proof. apply Forall_sub. by destruct Hg. Qed.

Lemma read_block_run b buf :
  0 <= b < fs_blocks_count fs → len buf = fs_block_size fs →
  read_block b buf fs = (fs, Ok (blk fs b)).
Proof.
  intros Hb Hl. pose proof (block_in_disk b Hb) as [? ?]. destruct (ge_size _ Hg).
  unfold read_block. rewrite (bind_run _ _ _ fs (fs_blocks_count fs)) by done.
  rewrite decide_False by lia. rewrite (bind_run _ _ _ fs (fs_block_size fs)) by done.
  rewrite device_read_run by lia. by rewrite Hl.
Qed.

Lemma write_block_run b data :
  0 <= b < fs_blocks_count fs → len data = fs_block_size fs →
  write_block b data fs =
    (with_device (splice (fs_device fs) (b * fs_block_size fs) data) fs, Ok tt).
Proof.
  intros Hb Hl. pose proof (block_in_disk b Hb) as [? ?]. destruct (ge_size _ Hg).
  unfold write_block. rewrite (bind_run _ _ _ fs (fs_blocks_count fs)) by done.
  rewrite (bind_run _ _ _ fs (fs_block_size fs)) by done.
  rewrite !decide_False by (rewrite ?Hl; lia || auto). apply device_write_run; lia.
Qed.

Lemma block_group_run g d :
  fs_block_groups fs !! g = Some d → block_group (Z.of_nat g) fs = (fs, Ok d).
Proof.
  intros Hd. unfold block_group. rewrite (bind_run _ _ _ fs (fs_block_groups fs)) by done.
  unfold liftO, index. rewrite Nat2Z.id, Hd, decide_True; [done|].
  apply lookup_lt_Some in Hd. unfold len. lia.
Qed.
End runs.

(** ** Writing back metadata *)

(** The state keeps its geometry. *)
Record same_frame fs fs' : Prop := {
  sf_bs : fs_block_size fs' = fs_block_size fs;
  sf_isz : fs_inode_size fs' = fs_inode_size fs;
  sf_count : fs_blocks_count fs' = fs_blocks_count fs;
  sf_ipg : fs_inodes_per_group fs' = fs_inodes_per_group fs;
  sf_bpg : bpg fs' = bpg fs;
  sf_fdb : fdb fs' = fdb fs;
  sf_groups : num_groups fs' = num_groups fs;
  sf_size : len (fs_device fs') = len (fs_device fs);
}.

Lemma geometry_frame fs fs' :
  geometry fs → same_frame fs fs' → Forall is_u8 (fs_device fs') →
  Superblock_wf (fs_superblock fs') → Forall Bgd_wf (fs_block_groups fs') → geometry fs'.
Proof.
  intros [] [] ? ? ?. unfold bgdt_end in *.
  split; try done; unfold bgdt_end; congruence || (rewrite ?sf_bs0, ?sf_count0, ?sf_ipg0,
    ?sf_bpg0, ?sf_fdb0, ?sf_groups0, ?sf_size0; done).
Qed.

Section metadata.
Context fs (Hg : geometry fs).

Lemma bgdt_offset_pos : 2048 <= bgdt_offset (fs_block_size fs).
Proof. unfold bgdt_offset. destruct (ge_bs _ Hg); case_decide; lia. Qed.

Lemma desc_in_table (g : nat) d :
  fs_block_groups fs !! g = Some d →
  2048 <= bgdt_offset (fs_block_size fs) + Z.of_nat g * DESC_SIZE ∧
  bgdt_offset (fs_block_size fs) + Z.of_nat g * DESC_SIZE + 32 <= bgdt_end fs.
Proof.
  intros Hd%lookup_lt_Some. pose proof bgdt_offset_pos.
  unfold bgdt_end, num_groups, len, DESC_SIZE. lia.
Qed.

Lemma table_in_disk : bgdt_end fs <= len (fs_device fs).
Proof. destruct Hg. lia. Qed.

Lemma write_bgd_run g d :
  fs_block_groups fs !! g = Some d →
  write_block_group_descriptor (Z.of_nat g) fs =
    (with_device (splice (fs_device fs)
       (bgdt_offset (fs_block_size fs) + Z.of_nat g * DESC_SIZE) (Bgd_to_bytes d)) fs, Ok tt).
Proof.
  intros Hd. pose proof (desc_in_table _ _ Hd). pose proof table_in_disk.
  pose proof (lookup_lt_Some _ _ _ Hd). destruct (ge_size _ Hg).
  assert (Bgd_wf d) by (eapply Forall_lookup_1; [apply Hg|done]).
  unfold write_block_group_descriptor.
  rewrite (bind_run _ _ _ fs (fs_block_groups fs)) by done.
  rewrite decide_False by (unfold len; lia).
  rewrite (bind_run _ _ _ fs d) by (by apply block_group_run).
  rewrite (bind_run _ _ _ fs (fs_block_size fs)) by done.
  apply device_write_run; rewrite ?len_Bgd_to_bytes by done; lia.
Qed.

Lemma write_superblock_run :
  write_superblock fs = (with_device (splice (fs_device fs) SUPERBLOCK_OFFSET
    (Superblock_to_bytes (fs_superblock fs))) fs, Ok tt).
Proof.
  pose proof table_in_disk. pose proof bgdt_offset_pos. destruct (ge_size _ Hg).
  unfold bgdt_end, num_groups, DESC_SIZE in *. pose proof (len_nonneg (fs_block_groups fs)).
  unfold write_superblock. rewrite (bind_run _ _ _ fs (fs_superblock fs)) by done.
  apply device_write_run; rewrite ?len_Superblock_to_bytes by apply Hg;
    unfold SUPERBLOCK_OFFSET; lia.
Qed.
End metadata.

(** The state after a bitmap [m] of group [g] is replaced by [bm], the group's
    descriptor by [d] and the superblock by [sb], all three on disk. *)
Definition committed fs (m : Z) (bm : list Z) (g : nat) (d : BlockGroupDescriptor)
    (sb : Superblock) : Ext2Fs RamDisk :=
  with_device
    (splice (splice (splice (fs_device fs) (m * fs_block_size fs) bm)
       (bgdt_offset (fs_block_size fs) + Z.of_nat g * DESC_SIZE) (Bgd_to_bytes d))
       SUPERBLOCK_OFFSET (Superblock_to_bytes sb))
    (with_superblock sb (with_groups (<[g := d]> (fs_block_groups fs)) fs)).

(** [d'] and [sb'] differ from the old ones in counters only. *)
Definition same_place (d d' : BlockGroupDescriptor) : Prop :=
  bg_block_bitmap d' = bg_block_bitmap d ∧ bg_inode_bitmap d' = bg_inode_bitmap d ∧
  bg_inode_table d' = bg_inode_table d ∧ Bgd_wf d'.
Definition same_static (sb sb' : Superblock) : Prop :=
  s_blocks_per_group sb' = s_blocks_per_group sb ∧
  s_first_data_block sb' = s_first_data_block sb ∧ Superblock_wf sb'.

Lemma bitmaps_insert gs g d d' :
  gs !! g = Some d → same_place d d' → bitmaps_of (<[g := d']> gs) = bitmaps_of gs.
Proof.
  intros Hd (Hb & Hi & _). unfold bitmaps_of. revert g Hd.
  induction gs as [|d0 gs IH]; intros [|g] Hd; cbn in *; simplify_eq; [by rewrite Hb, Hi|].
  by rewrite IH.
Qed.

Lemma bitmap_elem k gs g d : gs !! g = Some d → bitmap_of k d ∈ bitmaps_of gs.
Proof.
  intros Hd%list_elem_of_lookup_2. unfold bitmaps_of.
  apply list_elem_of_bind; exists d; destruct k; set_solver.
Qed.

Lemma bitmaps_lookup gs g d :
  gs !! g = Some d →
  bitmaps_of gs !! (2 * g)%nat = Some (bg_block_bitmap d) ∧
  bitmaps_of gs !! S (2 * g) = Some (bg_inode_bitmap d).
Proof.
  unfold bitmaps_of. revert g. induction gs as [|d0 gs IH]; intros [|g] Hd; cbn in *; simplify_eq.
  { done. }
  destruct (IH _ Hd) as [IHb IHi]. replace (g + S (g + 0))%nat with (S (2 * g)) by lia. done.
Qed.

Lemma bitmaps_distinct k1 k2 gs g1 g2 d1 d2 :
  NoDup (bitmaps_of gs) → gs !! g1 = Some d1 → gs !! g2 = Some d2 →
  bitmap_of k1 d1 = bitmap_of k2 d2 → k1 = k2 ∧ g1 = g2.
Proof.
  intros Hn [Hb1 Hi1]%bitmaps_lookup [Hb2 Hi2]%bitmaps_lookup.
  destruct k1, k2; cbn; intros He;
    [rewrite He in Hb1|rewrite He in Hb1|rewrite He in Hi1|rewrite He in Hi1].
  - pose proof (NoDup_lookup _ _ _ _ Hn Hb1 Hb2). split; [done|lia].
  - pose proof (NoDup_lookup _ _ _ _ Hn Hb1 Hi2). lia.
  - pose proof (NoDup_lookup _ _ _ _ Hn Hi1 Hb2). lia.
  - pose proof (NoDup_lookup _ _ _ _ Hn Hi1 Hi2). split; [done|lia].
Qed.

(** Reduces the projections of a state. *)
Ltac fs_cbn := cbn [fs_device with_device fs_block_groups with_superblock with_groups
  fs_block_size fs_superblock fs_blocks_count fs_inodes_per_group].

Section commit.
Context fs (m : Z) (bm : list Z) (g : nat) (d d' : BlockGroupDescriptor) (sb' : Superblock).
Context (Hg : geometry fs) (Hl : layout fs).
Context (Hd : fs_block_groups fs !! g = Some d) (Hm : m ∈ bitmaps_of (fs_block_groups fs)).
Context (Hlen : len bm = fs_block_size fs) (Hu8 : Forall is_u8 bm).
Context (Hd' : same_place d d') (Hsb : same_static (fs_superblock fs) sb').
Let fs' := committed fs m bm g d' sb'.

Lemma bitmap_place : bgdt_end fs <= m * fs_block_size fs ∧ 0 <= m < fs_blocks_count fs.
Proof.
  destruct (la_place _ Hl m Hm). split; [done|]. split; [|done].
  pose proof (bs_pos _ Hg). pose proof (desc_in_table _ Hg _ _ Hd). nia.
Qed.

Lemma len_desc : len (Bgd_to_bytes d') = 32.
Proof. by apply len_Bgd_to_bytes; destruct Hd' as (_ & _ & _ & ?). Qed.
Lemma len_sb : len (Superblock_to_bytes sb') = 1024.
Proof. by apply len_Superblock_to_bytes; destruct Hsb as (_ & _ & ?). Qed.

(** The three writes do not overlap and lie on the disk. *)
Lemma commit_regions :
  let off := bgdt_offset (fs_block_size fs) + Z.of_nat g * DESC_SIZE in
  2048 <= off ∧ off + 32 <= m * fs_block_size fs ∧
  m * fs_block_size fs + fs_block_size fs <= len (fs_device fs).
Proof.
  destruct bitmap_place as [? Hb]. pose proof (desc_in_table _ Hg _ _ Hd).
  destruct (block_in_disk _ Hg m Hb). cbn. lia.
Qed.

(** The sizes of the disk after the first and the second write. *)
Lemma commit_lens :
  let d1 := splice (fs_device fs) (m * fs_block_size fs) bm in
  len d1 = len (fs_device fs) ∧
  len (splice d1 (bgdt_offset (fs_block_size fs) + Z.of_nat g * DESC_SIZE) (Bgd_to_bytes d')) =
    len (fs_device fs).
Proof.
  pose proof commit_regions as Hr. cbv zeta in Hr. pose proof len_desc. pose proof (bs_pos _ Hg).
  assert (len (splice (fs_device fs) (m * fs_block_size fs) bm) = len (fs_device fs)) as H1
    by (apply len_splice; lia).
  split; [done|]. cbv zeta. rewrite <- H1. apply len_splice; rewrite ?H1; lia.
Qed.

Lemma committed_device : len (fs_device fs') = len (fs_device fs) ∧ Forall is_u8 (fs_device fs').
Proof.
  pose proof commit_regions as Hr. cbv zeta in Hr. pose proof len_desc. pose proof len_sb.
  pose proof (bs_pos _ Hg). destruct commit_lens as [_ H2].
  unfold fs', committed, SUPERBLOCK_OFFSET. fs_cbn. split.
  - cbv zeta in H2. rewrite len_splice; lia.
  - repeat apply Forall_splice; try done; try apply fields_to_bytes_u8. apply Hg.
Qed.

Lemma committed_frame : same_frame fs fs'.
Proof.
  destruct committed_device as [Hs _]. destruct Hsb as (Hp & Hf & _).
  split; try done. unfold fs', num_groups, len. cbn. by rewrite length_insert.
Qed.

Lemma committed_geometry : geometry fs'.
Proof.
  apply (geometry_frame fs); [done|apply committed_frame|apply committed_device|apply Hsb|].
  apply Forall_insert; [apply Hg|]. by destruct Hd' as (_ & _ & _ & ?).
Qed.

Lemma committed_layout : layout fs'.
Proof.
  pose proof committed_frame as [Hbs _ Hc _ _ _ Hn _]. unfold fs' in *.
  assert (bitmaps_of (fs_block_groups (committed fs m bm g d' sb')) =
          bitmaps_of (fs_block_groups fs)) as Hb by (by apply bitmaps_insert with d).
  split; unfold bgdt_end; rewrite ?Hb, ?Hbs, ?Hc, ?Hn; apply Hl.
Qed.

Lemma committed_same : blk fs' m = bm.
Proof.
  pose proof commit_regions as Hr. cbv zeta in Hr. pose proof len_desc. pose proof len_sb.
  pose proof (bs_pos _ Hg). destruct commit_lens as [L1 L2]. cbv zeta in L1, L2.
  unfold blk, fs', committed, SUPERBLOCK_OFFSET. fs_cbn. rewrite !sub_splice_other by lia.
  pose proof (sub_splice_same (fs_device fs) (m * fs_block_size fs) bm) as Hs.
  rewrite Hlen in Hs. apply Hs; lia.
Qed.

Lemma committed_other m' :
  0 <= m' → bgdt_end fs <= m' * fs_block_size fs → m' ≠ m → blk fs' m' = blk fs m'.
Proof.
  intros H0 Hend Hne. pose proof commit_regions as Hr. cbv zeta in Hr.
  pose proof len_desc. pose proof len_sb. pose proof (bs_pos _ Hg).
  pose proof (desc_in_table _ Hg _ _ Hd).
  assert (m' * fs_block_size fs + fs_block_size fs <= m * fs_block_size fs ∨
          m * fs_block_size fs + fs_block_size fs <= m' * fs_block_size fs) by nia.
  destruct commit_lens as [L1 L2]. cbv zeta in L1, L2.
  unfold blk, fs', committed, SUPERBLOCK_OFFSET. fs_cbn. by rewrite !sub_splice_other by lia.
Qed.

Lemma committed_synced : synced fs → synced fs'.
Proof.
  intros [Hs1 Hs2]. pose proof commit_regions as Hr. cbv zeta in Hr.
  pose proof len_desc. pose proof len_sb. pose proof (bs_pos _ Hg).
  destruct commit_lens as [L1 L2]. cbv zeta in L1, L2. unfold SUPERBLOCK_OFFSET in *. split.
  - unfold fs', committed, SUPERBLOCK_OFFSET. fs_cbn. rewrite <- len_sb.
    apply sub_splice_same; lia.
  - intros g1 d1. unfold fs', committed, SUPERBLOCK_OFFSET. fs_cbn. intros Hd1.
    destruct (decide (g1 = g)) as [->|Hne].
    + rewrite list_lookup_insert_eq in Hd1 by (by eapply lookup_lt_Some).
      injection Hd1 as <-. rewrite sub_splice_other by lia.
      rewrite <- len_desc. apply sub_splice_same; lia.
    + rewrite list_lookup_insert_ne in Hd1 by done.
      pose proof (desc_in_table _ Hg _ _ Hd1). destruct bitmap_place.
      unfold DESC_SIZE in *.
      rewrite !sub_splice_other by lia.
      by apply Hs2.
Qed.
End commit.
