(* ===== verification/Ext2Image.v ===== *)
(** * A small ext2 image

    Sixteen blocks of 1 KiB with one group: the superblock, the descriptor
    table, the two bitmaps, a table of eight inodes and an empty root
    directory; nine blocks and six inodes are free.  The theorems about the
    driver are applied to it. *)

From S2P Require Import Prelude Effects BlockDevice FsTypes Ext2Structs Bitmap Ext2Fs Ext2Alloc Ext2Layout.

(** Bytes followed by zeroes up to a block. *)
Definition block_of (bs : list Z) : list Z := bs ++ zeroes (1024 - len bs).

Definition tiny_sb : Superblock :=
  Build_Superblock 8 16 0 9 6 1 0 0 8192 8192 8 0 0 0 0 EXT2_SUPER_MAGIC 1 1 0 0 0 0 0 0 0 11 128 0
    0 INCOMPAT_FILETYPE 0 (zeroes 16) (zeroes 16) (zeroes 64) 0 (zeroes 820).

Definition tiny_bgd : BlockGroupDescriptor :=
  Build_BlockGroupDescriptor 3 4 5 9 6 1 0 [0; 0; 0].

Definition root_inode : Inode :=
  Build_Inode (Z.lor S_IFDIR 0x1ED) 0 1024 0 0 0 0 0 2 2 0 0 (6 :: zeroes 14) 0 0 0 0 (zeroes 12).

(** The entries [.] and [..] of the root, the second up to the block's end. *)
Definition root_dir : list Z :=
  to_le_bytes 4 2 ++ to_le_bytes 2 12 ++ [1; FT_DIR] ++ [46; 0; 0; 0] ++
  to_le_bytes 4 2 ++ to_le_bytes 2 1012 ++ [2; FT_DIR] ++ [46; 46; 0; 0].

(** Bit 15 belongs to block 16, past the end, and is marked used. *)
Definition tiny_disk : RamDisk :=
  zeroes 1024 ++ Superblock_to_bytes tiny_sb ++ block_of (Bgd_to_bytes tiny_bgd) ++
  block_of [63; 128] ++ block_of [3] ++
  block_of (zeroes 128 ++ Inode_to_bytes root_inode) ++ block_of root_dir ++ zeroes (9 * 1024).

Definition tiny_fs : Ext2Fs RamDisk := mkFs tiny_disk 1024 128 16 8 tiny_sb [tiny_bgd] [].

(** Mounting the image gives this state. *)
Lemma tiny_mount : Ext2_mount tiny_disk = (tiny_disk, Ok tiny_fs).
Proof. by vm_compute. Qed.

Lemma in_u_list w (l : list Z) : forallb (λ z, (0 <=? z) && (z <? 2 ^ w)) l = true → Forall (in_u w) l.
Proof.
  intros Hl. apply Forall_forall. intros z Hz. rewrite forallb_forall in Hl.
  specialize (Hl z). rewrite <- list_elem_of_In in Hl. specialize (Hl Hz). unfold in_u. lia.
Qed.

#[export] Instance fits_dec ws zs : Decision (fits ws zs).
Proof. unfold fits. apply _. Defined.

Lemma tiny_inv : fs_inv tiny_fs.
Proof.
  split.
  - split; try (vm_compute; intuition congruence).
    + apply in_u_list. by vm_compute.
    + split_and!; try done. apply (bool_decide_unpack (fits _ _)). by vm_compute.
    + apply Forall_singleton. apply (bool_decide_unpack (fits _ _)). by vm_compute.
  - split.
    + apply (bool_decide_unpack (NoDup _)). by vm_compute.
    + intros m Hm. change (m ∈ [3; 4]) in Hm.
      rewrite !elem_of_cons, elem_of_nil in Hm.
      destruct Hm as [->|[->|[]]]; vm_compute; intuition congruence.
  - split.
    + intros k [|g] d Hd; [|done]. injection Hd as <-. destruct k; by vm_compute.
    + intros []; by vm_compute.
  - split; [by vm_compute|].
    intros [|g] d Hd; [|done]. injection Hd as <-. by vm_compute.
Qed.
