(* ===== verification/Ext2AllocProof.v ===== *)
(** * The allocator refines a pool of free numbers

    Over the array of bytes, [alloc_block] and [alloc_inode] take the least
    free number out of a pool and [free_block] and [free_inode] put one back;
    the layout invariant is kept and nothing panics. *)

From S2P Require Import Prelude Effects BlockDevice FsTypes Ext2Structs Bitmap Ext2Fs Ext2Alloc Ext2Layout Ext2Image.

Implicit Types fs : Ext2Fs RamDisk.

(** ** Running a commit *)
Lemma set_block_group_run fs g d d' :
  fs_block_groups fs !! g = Some d →
  set_block_group (Z.of_nat g) d' fs = (with_groups (<[g := d']> (fs_block_groups fs)) fs, Ok tt).
Proof.
  intros Hd%lookup_lt_Some. unfold set_block_group.
  rewrite (bind_run _ _ _ fs (fs_block_groups fs)) by done.
  unfold liftO, set_index, mbind, ST_bind. rewrite decide_True by (unfold len; lia).
  by rewrite Nat2Z.id.
Qed.

Lemma add_free_blocks_run fs g d δ :
  fs_block_groups fs !! g = Some d →
  is_u16 (bg_free_blocks_count d + δ) → is_u32 (s_free_blocks_count (fs_superblock fs) + δ) →
  add_free_blocks (Z.of_nat g) δ fs =
    (with_superblock (sb_with_free (fs_superblock fs)
        (s_free_blocks_count (fs_superblock fs) + δ) (s_free_inodes_count (fs_superblock fs)))
      (with_groups (<[g := with_free_blocks d (bg_free_blocks_count d + δ)]> (fs_block_groups fs)) fs),
     Ok tt).
Proof.
  intros Hd H16 H32. unfold add_free_blocks.
  rewrite (bind_run _ _ _ fs d) by (by apply block_group_run).
  rewrite (bind_run _ _ _ fs (bg_free_blocks_count d + δ))
    by (unfold liftO, chk; by rewrite decide_True).
  erewrite bind_run by (by apply (set_block_group_run _ _ d)).
  rewrite (bind_run _ _ _ _ (fs_superblock fs)) by done.
  rewrite (bind_run _ _ _ (with_groups _ fs) (s_free_blocks_count (fs_superblock fs) + δ))
    by (unfold liftO, chk; by rewrite decide_True).
  done.
Qed.

Lemma add_free_inodes_run fs g d δ :
  fs_block_groups fs !! g = Some d →
  is_u16 (bg_free_inodes_count d + δ) → is_u32 (s_free_inodes_count (fs_superblock fs) + δ) →
  add_free_inodes (Z.of_nat g) δ fs =
    (with_superblock (sb_with_free (fs_superblock fs) (s_free_blocks_count (fs_superblock fs))
        (s_free_inodes_count (fs_superblock fs) + δ))
      (with_groups (<[g := with_free_inodes d (bg_free_inodes_count d + δ)]> (fs_block_groups fs)) fs),
     Ok tt).
Proof.
  intros Hd H16 H32. unfold add_free_inodes.
  rewrite (bind_run _ _ _ fs d) by (by apply block_group_run).
  rewrite (bind_run _ _ _ fs (bg_free_inodes_count d + δ))
    by (unfold liftO, chk; by rewrite decide_True).
  erewrite bind_run by (by apply (set_block_group_run _ _ d)).
  rewrite (bind_run _ _ _ _ (fs_superblock fs)) by done.
  rewrite (bind_run _ _ _ (with_groups _ fs) (s_free_inodes_count (fs_superblock fs) + δ))
    by (unfold liftO, chk; by rewrite decide_True).
  done.
Qed.

(** The bitmap, the counters and the descriptor are written, in this order;
    then the rest [k] runs before the superblock is written. *)
Definition precommitted fs (m : Z) (bm : list Z) (g : nat) (d : BlockGroupDescriptor)
    (sb : Superblock) : Ext2Fs RamDisk :=
  with_device
    (splice (splice (fs_device fs) (m * fs_block_size fs) bm)
       (bgdt_offset (fs_block_size fs) + Z.of_nat g * DESC_SIZE) (Bgd_to_bytes d))
    (with_superblock sb (with_groups (<[g := d]> (fs_block_groups fs)) fs)).

Section run.
Context fs (m : Z) (bm : list Z) (g : nat) (d d' : BlockGroupDescriptor) (sb' : Superblock).
Context (Hg : geometry fs) (Hl : layout fs).
Context (Hd : fs_block_groups fs !! g = Some d) (Hm : m ∈ bitmaps_of (fs_block_groups fs)).
Context (Hlen : len bm = fs_block_size fs) (Hu8 : Forall is_u8 bm).
Context (Hd' : same_place d d') (Hsb : same_static (fs_superblock fs) sb').

Lemma precommit_run {B} (add : FsM RamDisk ()) (k : FsM RamDisk B) :
  (∀ fs1, fs_block_groups fs1 = fs_block_groups fs → fs_superblock fs1 = fs_superblock fs →
     add fs1 = (with_superblock sb' (with_groups (<[g := d']> (fs_block_groups fs)) fs1), Ok tt)) →
  (write_block m bm;; add;; write_block_group_descriptor (Z.of_nat g);; k) fs =
    k (precommitted fs m bm g d' sb').
Proof.
  intros Hadd. destruct (bitmap_place fs m g d Hg Hl Hd Hm) as [? Hr].
  erewrite bind_run by (by apply write_block_run). erewrite bind_run by (by apply Hadd).
  erewrite bind_run; [done|]. fs_cbn.
  pose proof (commit_regions fs m g d Hg Hl Hd Hm) as Hreg. cbv zeta in Hreg.
  pose proof (bs_pos _ Hg). pose proof (table_in_disk _ Hg).
  rewrite write_bgd_run with (d := d').
  - fs_cbn. done.
  - apply (geometry_frame fs); try done; fs_cbn.
    + split; try done; try apply Hsb; [|].
      * unfold num_groups, len. fs_cbn. by rewrite length_insert.
      * fs_cbn. apply len_splice; lia.
    + apply Forall_splice; [apply Hg|done].
    + apply Hsb.
    + apply Forall_insert; [apply Hg|apply Hd'].
  - fs_cbn. apply list_lookup_insert_eq. by eapply lookup_lt_Some.
Qed.

Lemma commit_superblock_run :
  write_superblock (precommitted fs m bm g d' sb') = (committed fs m bm g d' sb', Ok tt).
Proof.
  rewrite write_superblock_run; [done|].
  pose proof (commit_lens fs m bm g d d' Hg Hl Hd Hm Hlen Hd') as [L1 L2]. cbv zeta in L2.
  apply (geometry_frame fs); try done.
  - split; try done; try apply Hsb. unfold num_groups, len, precommitted. fs_cbn.
    by rewrite length_insert.
  - unfold precommitted. fs_cbn. repeat apply Forall_splice; [apply Hg|done|].
    apply fields_to_bytes_u8.
  - apply Hsb.
  - apply Forall_insert; [apply Hg|apply Hd'].
Qed.
End run.

(** ** Sums and counts *)
Lemma sumZ_insert l (g : nat) x y :
  l !! g = Some x → sumZ (<[g := y]> l) = sumZ l - x + y.
Proof.
  revert g. induction l as [|z l IH]; intros [|g] Hx; simplify_eq/=.
  - unfold sumZ. cbn. lia.
  - change (sumZ (z :: <[g:=y]> l)) with (z + sumZ (<[g:=y]> l)).
    change (sumZ (z :: l)) with (z + sumZ l). rewrite (IH _ Hx). lia.
Qed.

Lemma sumZ_nonneg l : Forall (λ x, 0 <= x) l → 0 <= sumZ l.
Proof. induction 1; cbn; [done|unfold sumZ in *; lia]. Qed.

Lemma sumZ_le l x : Forall (λ x, 0 <= x) l → x ∈ l → x <= sumZ l.
Proof.
  induction 1 as [|y l Hy Hl IH]; [set_solver|].
  change (sumZ (y :: l)) with (y + sumZ l). pose proof (sumZ_nonneg l Hl).
  intros [->|Hx]%elem_of_cons; [lia|]. specialize (IH Hx). lia.
Qed.

Lemma sumZ_bound l c : Forall (λ x, x <= c) l → sumZ l <= len l * c.
Proof.
  induction 1 as [|y l Hy Hl IH]; [change (0 <= 0 * c); lia|].
  change (sumZ (y :: l)) with (y + sumZ l). rewrite len_cons. lia.
Qed.

Lemma count_clear_bound bm n : 0 <= n → 0 <= count_clear bm n <= n.
Proof.
  intros Hn. unfold count_clear. pose proof (len_nonneg (filter (λ i, bit_at bm i = false) (upto n))).
  split; [done|]. rewrite <- (len_upto n) at 2 by done. unfold len.
  apply inj_le. apply length_filter.
Qed.

(** ** Flipping one bit of a bitmap *)

(** Bit [i] of [bm'] is [v], the others are those of [bm]. *)
Definition flipped (bm bm' : list Z) (i : Z) (v : bool) : Prop :=
  Forall is_u8 bm' ∧ len bm' = len bm ∧ bit_at bm i = negb v ∧
  ∀ j, 0 <= j → bit_at bm' j = if decide (j = i) then v else bit_at bm j.

Definition delta (v : bool) : Z := if v then -1 else 1.

Lemma flipped_count bm bm' i v n :
  0 <= i < n → flipped bm bm' i v → count_clear bm' n = count_clear bm n + delta v.
Proof.
  intros Hi (_ & _ & Hb & Hj). destruct v; cbn in *.
  - rewrite (count_clear_update bm bm' i); [lia|done|done|by rewrite Hj, decide_True by lia|].
    intros j ? ?. by rewrite Hj, decide_False by done.
  - rewrite (count_clear_update bm' bm i); [lia|done|by rewrite Hj, decide_True by lia|done|].
    intros j ? ?. by rewrite Hj, decide_False by done.
Qed.

(** The object [x] is free. *)
Definition is_free (k : kind) fs (x : Z) : Prop :=
  ∃ (g : nat) d i, fs_block_groups fs !! g = Some d ∧ 0 <= i < bits k fs (Z.of_nat g) ∧
    x = number k fs (Z.of_nat g) i ∧ bit_at (blk fs (bitmap_of k d)) i = false.

Lemma bits_bound k fs (g : nat) d :
  geometry fs → fs_block_groups fs !! g = Some d →
  0 < bits k fs (Z.of_nat g) <= per_group k fs ∧ per_group k fs <= 8 * fs_block_size fs ∧
  per_group k fs < 2 ^ 16.
Proof.
  intros Hg Hd%lookup_lt_Some. destruct Hg. unfold bits, per_group.
  assert (Z.of_nat g < num_groups fs) by (unfold num_groups, len; lia).
  destruct k; [|lia]. case_decide as Hl; [|lia]. rewrite Hl. lia.
Qed.

Lemma group_room k fs (g : nat) d :
  geometry fs → fs_block_groups fs !! g = Some d →
  0 <= Z.of_nat g * per_group k fs ∧
  Z.of_nat g * per_group k fs + per_group k fs <= num_groups fs * per_group k fs.
Proof.
  intros Hg Hd. pose proof (bits_bound k fs g d Hg Hd).
  assert (Z.of_nat g + 1 <= num_groups fs) by (apply lookup_lt_Some in Hd; unfold num_groups, len; lia).
  nia.
Qed.

(** Numbers determine group and bit. *)
Lemma number_inj k fs g g' i i' :
  0 <= i < per_group k fs → 0 <= i' < per_group k fs →
  number k fs g i = number k fs g' i' → g = g' ∧ i = i'.
Proof. unfold number. intros. assert (g = g') as ->; [nia|lia]. Qed.

(** ** Counters in range *)
Lemma Bgd_wf_count k d n : Bgd_wf d → is_u16 n → Bgd_wf (with_count k d n).
Proof.
  unfold Bgd_wf, fits, Bgd_layout, Bgd_fields. intros Hd Hn.
  destruct k; cbn in *; repeat match goal with
    | H : Forall2 _ (_ :: _) (_ :: _) |- _ => apply Forall2_cons in H as [? ?]
    end; repeat (constructor; [done|]); done.
Qed.

Lemma Superblock_wf_count k sb n : Superblock_wf sb → is_u32 n → Superblock_wf (sb_with k sb n).
Proof.
  intros (? & ? & ? & Hf) Hn. destruct k; (split_and!; [done..|]).
  all: unfold fits, Superblock_layout, Superblock_fields in *; cbn [app replicate] in *.
  all: repeat match goal with
    | H : Forall2 _ (_ :: _) (_ :: _) |- _ => apply Forall2_cons in H as [? ?]
    end.
  all: repeat (constructor; [done|]); done.
Qed.

Lemma bitmap_of_with k k' d n : bitmap_of k (with_count k' d n) = bitmap_of k d.
Proof. by destruct k, k'. Qed.
Lemma count_of_with k k' d n :
  count_of k (with_count k' d n) = if decide (k = k') then n else count_of k d.
Proof. by destruct k, k'. Qed.
Lemma sb_count_with k k' sb n :
  sb_count k (sb_with k' sb n) = if decide (k = k') then n else sb_count k sb.
Proof. by destruct k, k'. Qed.

Section flip.
Context (k : kind) fs (g : nat) (d : BlockGroupDescriptor) (bm' : list Z) (i : Z) (v : bool).
Context (Hinv : fs_inv fs) (Hd : fs_block_groups fs !! g = Some d).
Context (Hi : 0 <= i < bits k fs (Z.of_nat g)).
Context (Hflip : flipped (blk fs (bitmap_of k d)) bm' i v).
Let d' := with_count k d (count_of k d + delta v).
Let sb' := sb_with k (fs_superblock fs) (sb_count k (fs_superblock fs) + delta v).
Let fs' := committed fs (bitmap_of k d) bm' g d' sb'.

Lemma flip_bitmap : bitmap_of k d ∈ bitmaps_of (fs_block_groups fs).
Proof. by eapply bitmap_elem. Qed.

Lemma flip_len : len bm' = fs_block_size fs.
Proof.
  destruct Hflip as (_ & -> & _). apply len_blk; [apply Hinv|].
  eapply bitmap_place; [apply Hinv..|done|apply flip_bitmap].
Qed.

Lemma flip_count_eq :
  count_of k d + delta v = count_clear bm' (bits k fs (Z.of_nat g)).
Proof.
  rewrite (co_group _ (inv_counted _ Hinv) k g d Hd). symmetry.
  by apply (flipped_count _ bm' i v).
Qed.

(** Every counter is at most the size of a group. *)
Lemma counts_bounded : Forall (λ x, 0 <= x <= per_group k fs) (count_of k <$> fs_block_groups fs).
Proof.
  apply Forall_fmap, Forall_lookup. intros g1 d1 Hd1. cbn.
  rewrite (co_group _ (inv_counted _ Hinv) k g1 d1 Hd1).
  pose proof (bits_bound k fs g1 d1 (inv_geometry _ Hinv) Hd1).
  pose proof (count_clear_bound (blk fs (bitmap_of k d1)) (bits k fs (Z.of_nat g1))). lia.
Qed.

Lemma flip_ranges :
  is_u16 (count_of k d + delta v) ∧ is_u32 (sb_count k (fs_superblock fs) + delta v).
Proof.
  pose proof (bits_bound k fs g d (inv_geometry _ Hinv) Hd) as Hb.
  pose proof (count_clear_bound bm' (bits k fs (Z.of_nat g))) as Hc.
  rewrite <- flip_count_eq in Hc. split; [unfold in_u; lia|].
  rewrite (co_sb _ (inv_counted _ Hinv) k).
  assert ((count_of k <$> fs_block_groups fs) !! g = Some (count_of k d)) as Hl
    by (by rewrite list_lookup_fmap, Hd).
  pose proof (sumZ_insert _ g _ (count_of k d + delta v) Hl) as Hs.
  assert (Forall (λ x, 0 <= x <= per_group k fs)
    (<[g := count_of k d + delta v]> (count_of k <$> fs_block_groups fs))) as Hf.
  { apply Forall_insert; [apply counts_bounded|lia]. }
  pose proof (sumZ_nonneg _ (Forall_impl _ _ _ Hf (λ x H, proj1 H))).
  pose proof (sumZ_bound _ (per_group k fs) (Forall_impl _ _ _ Hf (λ x H, proj2 H))) as Hle.
  unfold len in Hle. rewrite length_insert, length_fmap, len_fold in Hle.
  fold (num_groups fs) in Hle. destruct (inv_geometry _ Hinv).
  unfold in_u. destruct k; cbn [per_group] in *; lia.
Qed.

Lemma flip_place : same_place d d'.
Proof.
  unfold same_place, d'. split_and!; try (by destruct k).
  apply Bgd_wf_count; [|apply flip_ranges]. eapply Forall_lookup_1; [apply Hinv|done].
Qed.

Lemma flip_static : same_static (fs_superblock fs) sb'.
Proof.
  unfold same_static, sb'. split_and!; try (by destruct k).
  apply Superblock_wf_count; [apply Hinv|apply flip_ranges].
Qed.

(** The blocks of the bitmaps after the change. *)
Lemma flip_blk k1 g1 d1 :
  fs_block_groups fs !! g1 = Some d1 →
  blk fs' (bitmap_of k1 d1) =
    if decide (k1 = k ∧ g1 = g) then bm' else blk fs (bitmap_of k1 d1).
Proof.
  intros Hd1. case_decide as Hk.
  - destruct Hk as [-> ->]. simplify_eq.
    apply committed_same with d; try done; try apply Hinv; [apply flip_bitmap|apply flip_len| |];
      [apply flip_place|apply flip_static].
  - pose proof (bitmap_place fs (bitmap_of k1 d1) g1 d1) as [? ?];
      [apply Hinv..|done|by eapply bitmap_elem|].
    apply committed_other with d; try done; try apply Hinv;
      [apply flip_bitmap|apply flip_len|apply flip_place|apply flip_static|lia|].
    intros He. apply Hk. by eapply bitmaps_distinct; [apply Hinv|..].
Qed.
(** The descriptor of a group after the change. *)
Lemma flip_group g1 d1 :
  fs_block_groups fs' !! g1 = Some d1 ↔
  ∃ d0, fs_block_groups fs !! g1 = Some d0 ∧ d1 = if decide (g1 = g) then d' else d0.
Proof.
  unfold fs', committed. fs_cbn. case_decide as Hg1.
  - subst g1. rewrite list_lookup_insert_eq by (by eapply lookup_lt_Some). naive_solver.
  - rewrite list_lookup_insert_ne by done. naive_solver.
Qed.

Lemma flip_frame : same_frame fs fs'.
Proof.
  apply committed_frame with d; try done; try apply Hinv;
    [apply flip_bitmap|apply flip_len|apply Hflip|apply flip_place|apply flip_static].
Qed.

Lemma flip_bits k1 g1 : bits k1 fs' g1 = bits k1 fs g1.
Proof.
  pose proof flip_frame as [_ _ Hc Hi' Hb _ Hn _]. unfold bits.
  by destruct k1; rewrite ?Hc, ?Hi', ?Hb, ?Hn.
Qed.

Lemma flip_counted : counted fs'.
Proof.
  destruct (inv_counted _ Hinv) as [Hc Hs]. split.
  - intros k1 g1 d1 Hd1%flip_group. destruct Hd1 as (d0 & Hd0 & ->). rewrite flip_bits.
    pose proof (flip_blk k1 g1 d0 Hd0) as Hb. destruct (decide (g1 = g)) as [->|Hg1].
    + assert (d0 = d) as -> by congruence. unfold d'.
      rewrite bitmap_of_with, count_of_with, Hb.
      destruct (decide (k1 = k)) as [->|Hk]; [|rewrite decide_False by naive_solver; auto].
      rewrite decide_True by done. apply flip_count_eq.
    + rewrite Hb, decide_False by naive_solver. auto.
  - intros k1. unfold fs', committed. fs_cbn. unfold sb'. rewrite sb_count_with.
    rewrite list_fmap_insert. unfold d'. rewrite count_of_with.
    assert ((count_of k1 <$> fs_block_groups fs) !! g = Some (count_of k1 d)) as Hl
      by (by rewrite list_lookup_fmap, Hd).
    rewrite (sumZ_insert _ _ _ _ Hl), <- Hs. case_decide; subst; lia.
Qed.

(** One change of one bit keeps the invariant... *)
Lemma flip_inv : fs_inv fs'.
Proof.
  split.
  - apply committed_geometry with d; try done; try apply Hinv;
      [apply flip_bitmap|apply flip_len|apply Hflip|apply flip_place|apply flip_static].
  - apply committed_layout with d; try done; try apply Hinv;
      [apply flip_bitmap|apply flip_len|apply Hflip|apply flip_place|apply flip_static].
  - apply flip_counted.
  - apply committed_synced with d; try done; try apply Hinv;
      [apply flip_bitmap|apply flip_len|apply flip_place|apply flip_static].
Qed.

Lemma flip_number k1 g1 j : number k1 fs' g1 j = number k1 fs g1 j.
Proof.
  pose proof flip_frame as [_ _ Hc Hi' Hb Hf Hn _]. unfold number, base, per_group.
  by destruct k1; rewrite ?Hi', ?Hb, ?Hf.
Qed.

Lemma flip_bit k1 g1 d0 j :
  fs_block_groups fs !! g1 = Some d0 → 0 <= j →
  bit_at (blk fs' (bitmap_of k1 d0)) j =
    if decide (k1 = k ∧ g1 = g ∧ j = i) then v else bit_at (blk fs (bitmap_of k1 d0)) j.
Proof.
  intros Hd0 Hj. rewrite (flip_blk k1 g1 d0 Hd0).
  destruct Hflip as (_ & _ & _ & Hf). destruct (decide (k1 = k ∧ g1 = g)) as [[-> ->]|Hne].
  - rewrite Hf by done. simplify_eq. repeat case_decide; naive_solver.
  - by rewrite decide_False by naive_solver.
Qed.

(** The free objects, read with the old descriptors. *)
Lemma flip_free_old k1 x :
  is_free k1 fs' x ↔ ∃ (g1 : nat) d0 j, fs_block_groups fs !! g1 = Some d0 ∧
    0 <= j < bits k1 fs (Z.of_nat g1) ∧ x = number k1 fs (Z.of_nat g1) j ∧
    (if decide (k1 = k ∧ g1 = g ∧ j = i) then v else bit_at (blk fs (bitmap_of k1 d0)) j) = false.
Proof.
  assert (∀ g1 d0, fs_block_groups fs !! g1 = Some d0 →
    bitmap_of k1 (if decide (g1 = g) then d' else d0) = bitmap_of k1 d0) as Hbm.
  { intros g1 d0 Hd0. case_decide; [|done]. unfold d'. rewrite bitmap_of_with. by simplify_eq. }
  unfold is_free. setoid_rewrite flip_group. setoid_rewrite flip_bits. setoid_rewrite flip_number.
  split.
  - intros (g1 & d1 & j & (d0 & Hd0 & ->) & ? & ? & Hb). exists g1, d0, j.
    rewrite Hbm, (flip_bit _ _ _ _ Hd0) in Hb by (done || lia). done.
  - intros (g1 & d0 & j & Hd0 & ? & ? & Hb). eexists g1, _, j.
    split_and!; [by exists d0|lia..|done|]. rewrite Hbm by done. by rewrite (flip_bit _ _ _ _ Hd0) by lia.
Qed.

(** ... and frees or takes exactly the object of that bit. *)
Lemma flip_free k1 x :
  is_free k1 fs' x ↔
    if decide (k1 = k ∧ x = number k fs (Z.of_nat g) i) then v = false else is_free k1 fs x.
Proof.
  rewrite flip_free_old. split.
  - intros (g1 & d0 & j & Hd0 & Hj & Hx & Hb).
    destruct (decide (k1 = k ∧ x = number k fs (Z.of_nat g) i)) as [[-> Hx']|He].
    + rewrite Hx in Hx'. apply number_inj in Hx' as [Hgg ->].
      * by rewrite decide_True in Hb by (split_and!; [done|lia|done]).
      * pose proof (bits_bound k fs g1 d0 (inv_geometry _ Hinv) Hd0). lia.
      * pose proof (bits_bound k fs g d (inv_geometry _ Hinv) Hd). lia.
    + exists g1, d0, j. split_and!; try done; try lia.
      rewrite decide_False in Hb; [done|]. naive_solver.
  - case_decide as He.
    + destruct He as [-> ->]. intros ->. exists g, d, i. split_and!; try done; try lia.
      by rewrite decide_True.
    + intros (g1 & d0 & j & Hd0 & Hj & Hx & Hb). exists g1, d0, j. split_and!; try done; try lia.
      rewrite decide_False; [done|]. naive_solver.
Qed.
End flip.

(** ** One allocation or release *)
Definition add_free (k : kind) (group δ : Z) : FsM RamDisk () :=
  match k with KBlock => add_free_blocks group δ | KInode => add_free_inodes group δ end.

(** The state after bit [i] of the bitmap of kind [k] in group [g] became [v]. *)
Definition after (k : kind) fs (g : nat) (d : BlockGroupDescriptor) (bm : list Z) (v : bool) :
    Ext2Fs RamDisk :=
  committed fs (bitmap_of k d) bm g (with_count k d (count_of k d + delta v))
    (sb_with k (fs_superblock fs) (sb_count k (fs_superblock fs) + delta v)).

Lemma flip_run {B} k fs (g : nat) d bm i v (rest : FsM RamDisk B) :
  fs_inv fs → fs_block_groups fs !! g = Some d → 0 <= i < bits k fs (Z.of_nat g) →
  flipped (blk fs (bitmap_of k d)) bm i v →
  ∃ fs1, write_superblock fs1 = (after k fs g d bm v, Ok tt) ∧
    (write_block (bitmap_of k d) bm;; add_free k (Z.of_nat g) (delta v);;
     write_block_group_descriptor (Z.of_nat g);; rest) fs = rest fs1.
Proof.
  intros Hinv Hd Hi Hf.
  pose proof (flip_ranges k fs g d bm i v Hinv Hd Hi Hf) as [H16 H32].
  pose proof (flip_bitmap k fs g d Hd) as Hm.
  pose proof (flip_len k fs g d bm i v Hinv Hd Hf) as Hlen.
  pose proof (flip_place k fs g d bm i v Hinv Hd Hi Hf) as Hpl.
  pose proof (flip_static k fs g d bm i v Hinv Hd Hi Hf) as Hst.
  eexists. split.
  - apply (commit_superblock_run fs (bitmap_of k d) bm g d); auto with panda. apply Hf.
  - apply (precommit_run fs (bitmap_of k d) bm g d); auto with panda; [apply Hf|].
    intros fs1 Hg1 Hs1. destruct k; cbn [add_free].
    + rewrite (add_free_blocks_run fs1 g d); rewrite ?Hg1, ?Hs1; done.
    + rewrite (add_free_inodes_run fs1 g d); rewrite ?Hg1, ?Hs1; done.
Qed.

(** What an attempt to allocate in one group does. *)
Definition attempt (k : kind) fs (g : nat) (d : BlockGroupDescriptor)
    (r : Ext2Fs RamDisk * outcome FsError (option Z)) : Prop :=
  (r = (fs, Ok None) ∧
   ∀ i, 0 <= i < bits k fs (Z.of_nat g) → bit_at (blk fs (bitmap_of k d)) i = true) ∨
  (∃ i bm, r = (after k fs g d bm true, Ok (Some (number k fs (Z.of_nat g) i))) ∧
     0 <= i < bits k fs (Z.of_nat g) ∧ flipped (blk fs (bitmap_of k d)) bm i true ∧
     ∀ j, 0 <= j < i → bit_at (blk fs (bitmap_of k d)) j = true).

(** The common part of the two loop bodies. *)
Lemma attempt_search k fs (g : nat) d num :
  fs_inv fs → fs_block_groups fs !! g = Some d →
  (∀ i fs1, 0 <= i < bits k fs (Z.of_nat g) → fs_superblock fs1 = sb_with k (fs_superblock fs) (sb_count k (fs_superblock fs) - 1) →
     fs_inodes_per_group fs1 = fs_inodes_per_group fs →
     num i fs1 = (fs1, Ok (Some (number k fs (Z.of_nat g) i)))) →
  attempt k fs g d
    ((match find_first_clear_bit (blk fs (bitmap_of k d)) (bits k fs (Z.of_nat g)) with
      | None => mret None
      | Some i =>
          bitmap ← liftO (set_bit (blk fs (bitmap_of k d)) i);
          write_block (bitmap_of k d) bitmap;;
          add_free k (Z.of_nat g) (-1);;
          write_block_group_descriptor (Z.of_nat g);;
          write_superblock;;
          num i
      end : FsM RamDisk (option Z)) fs).
Proof.
  intros Hinv Hd Hnum. pose proof (bits_bound k fs g d (inv_geometry _ Hinv) Hd) as Hb.
  assert (len (blk fs (bitmap_of k d)) = fs_block_size fs) as Hlen.
  { apply len_blk; [apply Hinv|].
    eapply bitmap_place; [apply Hinv..|done|by eapply bitmap_elem]. }
  destruct (find_first_clear_bit _ _) as [i|] eqn:Hf.
  - right. apply find_clear_Some in Hf as (? & ? & Hc & Hbelow).
    destruct (set_bit_spec (E:=FsError) (blk fs (bitmap_of k d)) i) as (bm & Hs & Hu & Hl & Hj);
      [apply blk_u8, Hinv|lia|].
    assert (flipped (blk fs (bitmap_of k d)) bm i true) as Hflip by done.
    exists i, bm. split_and!; try done; try lia.
    rewrite (bind_run _ _ _ fs bm) by (unfold liftO; by rewrite Hs).
    destruct (flip_run k fs g d bm i true (write_superblock;; num i)) as (fs1 & Hw & Hr);
      [done|done|lia|done|].
    cbn [delta] in Hr. rewrite Hr. rewrite (bind_run _ _ _ _ _ Hw). apply Hnum; [lia|done..].
  - left. split; [done|]. intros i Hi. eapply find_clear_None; [done|lia..].
Qed.

Lemma blocks_in_group_run fs (g : nat) d :
  geometry fs → fs_block_groups fs !! g = Some d →
  blocks_in_group (Z.of_nat g) (num_groups fs) fs = (fs, Ok (bits KBlock fs (Z.of_nat g))).
Proof.
  intros Hg Hd. pose proof (bits_bound KBlock fs g d Hg Hd) as Hb. destruct Hg.
  assert (Z.of_nat g < num_groups fs) by (apply lookup_lt_Some in Hd; unfold num_groups, len; lia).
  unfold blocks_in_group. rewrite (bind_run _ _ _ fs (bpg fs)) by done.
  cbn [bits] in *. case_decide as Hl; [|done].
  rewrite (bind_run _ _ _ fs (fs_blocks_count fs)) by done.
  rewrite (bind_run _ _ _ fs (Z.of_nat g * bpg fs)).
  - unfold liftO, chk. rewrite decide_True; [done|]. unfold in_u. nia.
  - unfold liftO, chk. rewrite decide_True; [done|]. unfold in_u. nia.
Qed.

Lemma block_number_run fs fs1 (g : nat) d i :
  geometry fs → fs_block_groups fs !! g = Some d → 0 <= i < bits KBlock fs (Z.of_nat g) →
  s_blocks_per_group (fs_superblock fs1) = bpg fs → s_first_data_block (fs_superblock fs1) = fdb fs →
  block_number (Z.of_nat g) i fs1 = (fs1, Ok (number KBlock fs (Z.of_nat g) i)).
Proof.
  intros Hg Hd Hi Hb Hf. pose proof (bits_bound KBlock fs g d Hg Hd).
  pose proof (group_room KBlock fs g d Hg Hd) as Hr. destruct Hg. cbn [per_group] in *. unfold block_number.
  rewrite (bind_run _ _ _ fs1 (fs_superblock fs1)) by done. rewrite Hb, Hf.
  unfold mbind, ST_bind, liftO, chk. repeat (rewrite decide_True by (unfold in_u; lia)).
  unfold number. cbn [base per_group]. do 2 f_equal.
Qed.

Lemma alloc_block_attempt fs (g : nat) d :
  fs_inv fs → fs_block_groups fs !! g = Some d →
  attempt KBlock fs g d (alloc_block_in (num_groups fs) (Z.of_nat g) fs).
Proof.
  intros Hinv Hd. pose proof (inv_geometry _ Hinv) as Hg. unfold alloc_block_in.
  rewrite (bind_run _ _ _ fs (fs_block_size fs)) by done.
  rewrite (bind_run _ _ _ fs d) by (by apply block_group_run).
  pose proof (bits_bound KBlock fs g d Hg Hd) as Hb. case_decide as Hz.
  { left. split; [done|]. intros i Hi. destruct (bit_at _ i) eqn:Hbit; [done|]. exfalso.
    pose proof (co_group _ (inv_counted _ Hinv) KBlock g d Hd) as Hc.
    pose proof (count_clear_pos _ (bits KBlock fs (Z.of_nat g)) i Hi Hbit).
    cbn [count_of] in Hc. lia. }
  rewrite (bind_run _ _ _ _ _ (blocks_in_group_run fs g d Hg Hd)).
  destruct (bitmap_place fs (bitmap_of KBlock d) g d) as [? Hpl];
    [apply Hinv..|done|by eapply bitmap_elem|].
  rewrite (bind_run _ _ _ fs (blk fs (bitmap_of KBlock d)))
    by (apply read_block_run; [done|done|apply len_zeroes; pose proof (bs_pos _ Hg); lia]).
  apply (attempt_search KBlock fs g d (λ i, n ← block_number (Z.of_nat g) i; mret (Some n)));
    [done|done|].
  intros i fs1 Hi Hs _. erewrite bind_run; [done|].
  apply (block_number_run fs fs1 g d i); try done; by rewrite Hs.
Qed.

Lemma alloc_inode_attempt fs (g : nat) d :
  fs_inv fs → fs_block_groups fs !! g = Some d →
  attempt KInode fs g d (alloc_inode_in (Z.of_nat g) fs).
Proof.
  intros Hinv Hd. pose proof (inv_geometry _ Hinv) as Hg. unfold alloc_inode_in.
  rewrite (bind_run _ _ _ fs (fs_block_size fs)) by done.
  rewrite (bind_run _ _ _ fs (fs_inodes_per_group fs)) by done.
  rewrite (bind_run _ _ _ fs d) by (by apply block_group_run).
  pose proof (bits_bound KInode fs g d Hg Hd) as Hb. case_decide as Hz.
  { left. split; [done|]. intros i Hi. destruct (bit_at _ i) eqn:Hbit; [done|]. exfalso.
    pose proof (co_group _ (inv_counted _ Hinv) KInode g d Hd) as Hc.
    pose proof (count_clear_pos _ (bits KInode fs (Z.of_nat g)) i Hi Hbit).
    cbn [count_of] in Hc. lia. }
  destruct (bitmap_place fs (bitmap_of KInode d) g d) as [? Hpl];
    [apply Hinv..|done|by eapply bitmap_elem|].
  rewrite (bind_run _ _ _ fs (blk fs (bitmap_of KInode d)))
    by (apply read_block_run; [done|done|apply len_zeroes; pose proof (bs_pos _ Hg); lia]).
  apply (attempt_search KInode fs g d (λ i, a ← liftO (chk 32 (Z.of_nat g * fs_inodes_per_group fs));
    ino ← liftO (chk 32 (a + i + 1)); mret (Some ino))); [done|done|].
  intros i fs1 Hi Hs Hipg. pose proof (group_room KInode fs g d Hg Hd) as Hr. destruct Hg.
  cbn [bits per_group] in *.
  unfold mbind, ST_bind, liftO, chk. repeat (rewrite decide_True by (unfold in_u; lia)).
  replace (number KInode fs (Z.of_nat g) i) with (Z.of_nat g * fs_inodes_per_group fs + i + 1);
    [done|]. unfold number. cbn [base per_group]. lia.
Qed.

(** ** Searching the groups *)

(** What an allocation of kind [k] does. *)
Definition allocated (k : kind) fs (r : Ext2Fs RamDisk * outcome FsError Z) : Prop :=
  (r = (fs, Err FsNoSpace) ∧ ∀ x, ¬ is_free k fs x) ∨
  (∃ x fs', r = (fs', Ok x) ∧ fs_inv fs' ∧ same_frame fs fs' ∧ is_free k fs x ∧
     (∀ y, is_free k fs y → x <= y) ∧
     ∀ k1 y, is_free k1 fs' y ↔ is_free k1 fs y ∧ ¬ (k1 = k ∧ y = x)).

Lemma after_allocated k fs (g : nat) d i bm :
  fs_inv fs → fs_block_groups fs !! g = Some d → 0 <= i < bits k fs (Z.of_nat g) →
  flipped (blk fs (bitmap_of k d)) bm i true →
  (∀ j, 0 <= j < i → bit_at (blk fs (bitmap_of k d)) j = true) →
  (∀ (g1 : nat) d1 j, (g1 < g)%nat → fs_block_groups fs !! g1 = Some d1 →
     0 <= j < bits k fs (Z.of_nat g1) → bit_at (blk fs (bitmap_of k d1)) j = true) →
  allocated k fs (after k fs g d bm true, Ok (number k fs (Z.of_nat g) i)).
Proof.
  intros Hinv Hd Hi Hf Hj Hbefore. right. eexists _, _. split; [done|].
  assert (is_free k fs (number k fs (Z.of_nat g) i)) as Hfree.
  { exists g, d, i. split_and!; try done; try lia. by destruct Hf as (_ & _ & ? & _). }
  split_and!.
  - by apply (flip_inv k fs g d bm i true).
  - by apply (flip_frame k fs g d bm i true).
  - done.
  - intros y (g1 & d1 & j & Hd1 & Hjb & -> & Hb).
    destruct (decide (g1 < g)%nat) as [Hlt|Hge].
    { by rewrite (Hbefore g1 d1 j) in Hb. }
    pose proof (bits_bound k fs g d (inv_geometry _ Hinv) Hd). unfold number.
    destruct (decide (g1 = g)) as [->|]; [|nia].
    assert (d1 = d) as -> by congruence.
    destruct (decide (j < i)); [by rewrite Hj in Hb by lia|lia].
  - intros k1 y. rewrite (flip_free k fs g d bm i true) by done. case_decide; naive_solver.
Qed.

Lemma alloc_loop k fs (body : Z → FsM RamDisk (option Z)) :
  fs_inv fs →
  (∀ g d, fs_block_groups fs !! g = Some d → attempt k fs g d (body (Z.of_nat g) fs)) →
  allocated k fs ((r ← for_return (upto (num_groups fs)) body;
    match r with Some x => mret x | None => fail FsNoSpace end) fs).
Proof.
  intros Hinv Hbody. unfold upto, num_groups, len. rewrite Nat2Z.id.
  assert (∀ n g0, (g0 + n = length (fs_block_groups fs))%nat →
    (∀ (g1 : nat) d1 j, (g1 < g0)%nat → fs_block_groups fs !! g1 = Some d1 →
       0 <= j < bits k fs (Z.of_nat g1) → bit_at (blk fs (bitmap_of k d1)) j = true) →
    allocated k fs ((r ← for_return (Z.of_nat <$> seq g0 n) body;
      match r with Some x => mret x | None => fail FsNoSpace end) fs)) as Hloop.
  2:{ apply (Hloop _ 0%nat); [done|lia]. }
  induction n as [|n IH]; intros g0 Hn Hbefore; cbn [seq fmap list_fmap for_return].
  { left. split; [done|]. intros x (g & d & i & Hd & Hi & _ & Hb).
    rewrite (Hbefore g d i) in Hb; try done. apply lookup_lt_Some in Hd. lia. }
  destruct (lookup_lt_is_Some_2 (fs_block_groups fs) g0) as [d Hd]; [lia|].
  destruct (Hbody g0 d Hd) as [[Hr Hfull]|(i & bm & Hr & Hi & Hf & Hj)].
  - specialize (IH (S g0)). unfold mbind, ST_bind in *. rewrite Hr. apply IH; [lia|].
    intros g1 d1 j Hlt Hd1 Hj. destruct (decide (g1 = g0)) as [->|].
    + assert (d1 = d) as -> by congruence. by apply Hfull.
    + apply (Hbefore g1); [lia|done|done].
  - unfold mbind, ST_bind. rewrite Hr. by apply after_allocated.
Qed.

Lemma alloc_block_allocated fs : fs_inv fs → allocated KBlock fs (alloc_block fs).
Proof. intros Hinv. apply (alloc_loop KBlock fs); [done|]. intros. by apply alloc_block_attempt. Qed.

Lemma alloc_inode_allocated fs : fs_inv fs → allocated KInode fs (alloc_inode fs).
Proof. intros Hinv. apply (alloc_loop KInode fs); [done|]. intros. by apply alloc_inode_attempt. Qed.

(** ** Releasing *)

(** What releasing an object of kind [k] does. *)
Definition released (k : kind) fs (x : Z) (r : Ext2Fs RamDisk * outcome FsError ()) : Prop :=
  (r = (fs, Err FsIoError) ∧ is_free k fs x) ∨
  (∃ fs', r = (fs', Ok tt) ∧ fs_inv fs' ∧ same_frame fs fs' ∧ ¬ is_free k fs x ∧
     ∀ k1 y, is_free k1 fs' y ↔ is_free k1 fs y ∨ (k1 = k ∧ y = x)).

(** Only the bit of [x] decides whether it is free. *)
Lemma is_free_bit k fs (g : nat) d i :
  geometry fs → fs_block_groups fs !! g = Some d → 0 <= i < bits k fs (Z.of_nat g) →
  is_free k fs (number k fs (Z.of_nat g) i) ↔ bit_at (blk fs (bitmap_of k d)) i = false.
Proof.
  intros Hg Hd Hi. pose proof (bits_bound k fs g d Hg Hd). split.
  - intros (g1 & d1 & j & Hd1 & Hj & Hx & Hb).
    pose proof (bits_bound k fs g1 d1 Hg Hd1).
    apply number_inj in Hx as [Hgg ->]; [|lia..].
    assert (g1 = g) as -> by lia. by assert (d1 = d) as -> by congruence.
  - intros Hb. by exists g, d, i.
Qed.

Lemma release_run k fs (g : nat) d i :
  fs_inv fs → fs_block_groups fs !! g = Some d → 0 <= i < bits k fs (Z.of_nat g) →
  released k fs (number k fs (Z.of_nat g) i)
    ((bitmap ← read_block (bitmap_of k d) (zeroes (fs_block_size fs));
      used ← liftO (get_bit bitmap i);
      if negb used then fail FsIoError
      else
        bitmap ← liftO (clear_bit bitmap i);
        write_block (bitmap_of k d) bitmap;;
        add_free k (Z.of_nat g) 1;;
        write_block_group_descriptor (Z.of_nat g);;
        write_superblock) fs).
Proof.
  intros Hinv Hd Hi. pose proof (inv_geometry _ Hinv) as Hg.
  pose proof (bits_bound k fs g d Hg Hd) as Hb. pose proof (is_free_bit k fs g d i Hg Hd Hi) as Hfr.
  destruct (bitmap_place fs (bitmap_of k d) g d) as [? Hpl];
    [apply Hinv..|done|by eapply bitmap_elem|].
  pose proof (len_blk _ Hg _ Hpl) as Hlen.
  rewrite (bind_run _ _ _ fs (blk fs (bitmap_of k d)))
    by (apply read_block_run; [done|done|apply len_zeroes; pose proof (bs_pos _ Hg); lia]).
  rewrite (bind_run _ _ _ fs (bit_at (blk fs (bitmap_of k d)) i))
    by (unfold liftO; rewrite get_bit_spec by lia; done).
  destruct (bit_at (blk fs (bitmap_of k d)) i) eqn:Hbit; cbn [negb].
  2:{ left. split; [done|]. by apply Hfr. }
  right. destruct (clear_bit_spec (E:=FsError) (blk fs (bitmap_of k d)) i) as (bm & Hs & Hu & Hl & Hj);
    [apply blk_u8, Hg|lia|].
  assert (flipped (blk fs (bitmap_of k d)) bm i false) as Hflip by done.
  rewrite (bind_run _ _ _ fs bm) by (unfold liftO; by rewrite Hs).
  destruct (flip_run k fs g d bm i false write_superblock) as (fs1 & Hw & Hr); [done..|].
  cbn [delta] in Hr. rewrite Hr, Hw. eexists. split; [done|]. split_and!.
  - by apply (flip_inv k fs g d bm i false).
  - by apply (flip_frame k fs g d bm i false).
  - rewrite Hfr. done.
  - intros k1 y. rewrite (flip_free k fs g d bm i false) by done. case_decide; naive_solver.
Qed.

Lemma free_block_released fs x :
  fs_inv fs → fdb fs <= x < fs_blocks_count fs → released KBlock fs x (free_block x fs).
Proof.
  intros Hinv Hx. pose proof (inv_geometry _ Hinv) as Hg. destruct Hg.
  set (g := Z.to_nat ((x - fdb fs) / bpg fs)). set (i := (x - fdb fs) mod bpg fs).
  assert (0 <= i < bpg fs) by (apply Z.mod_pos_bound; lia).
  assert (x - fdb fs = bpg fs * ((x - fdb fs) / bpg fs) + i) as Hdm by (apply Z.div_mod; lia).
  assert (0 <= (x - fdb fs) / bpg fs) by (apply Z.div_pos; lia).
  assert (Z.of_nat g = (x - fdb fs) / bpg fs) as Hgz by (unfold g; lia).
  assert ((x - fdb fs) / bpg fs < num_groups fs) by (apply Z.div_lt_upper_bound; lia).
  destruct (lookup_lt_is_Some_2 (fs_block_groups fs) g) as [d Hd]; [unfold num_groups, len in *; lia|].
  assert (x = number KBlock fs (Z.of_nat g) i) as Hnum by (unfold number; cbn; lia).
  assert (0 <= i < bits KBlock fs (Z.of_nat g)).
  { cbn [bits]. case_decide; [|lia]. nia. }
  unfold free_block. rewrite (bind_run _ _ _ fs (fs_blocks_count fs)) by done.
  rewrite decide_False by lia. rewrite (bind_run _ _ _ fs (fs_superblock fs)) by done.
  change (s_first_data_block (fs_superblock fs)) with (fdb fs).
  change (s_blocks_per_group (fs_superblock fs)) with (bpg fs).
  rewrite (bind_run _ _ _ fs (x - fdb fs))
    by (unfold liftO, chk; rewrite decide_True by (unfold in_u; nia); done).
  rewrite (bind_run _ _ _ fs (Z.of_nat g, i))
    by (unfold liftO, div_rem; rewrite decide_False by lia; by rewrite Hgz).
  rewrite (bind_run _ _ _ fs (fs_block_size fs)) by done.
  rewrite (bind_run _ _ _ fs (fs_block_groups fs)) by done.
  rewrite decide_False by (unfold num_groups in *; lia).
  rewrite (bind_run _ _ _ fs d) by (by apply block_group_run).
  rewrite Hnum. by apply (release_run KBlock).
Qed.

Lemma free_inode_released fs x :
  fs_inv fs → 1 <= x <= num_groups fs * fs_inodes_per_group fs →
  released KInode fs x (free_inode x fs).
Proof.
  intros Hinv Hx. pose proof (inv_geometry _ Hinv) as Hg. destruct Hg.
  set (g := Z.to_nat ((x - 1) / fs_inodes_per_group fs)).
  set (i := (x - 1) mod fs_inodes_per_group fs).
  assert (0 <= i < fs_inodes_per_group fs) by (apply Z.mod_pos_bound; lia).
  assert (x - 1 = fs_inodes_per_group fs * ((x - 1) / fs_inodes_per_group fs) + i) as Hdm
    by (apply Z.div_mod; lia).
  assert (0 <= (x - 1) / fs_inodes_per_group fs) by (apply Z.div_pos; lia).
  assert (Z.of_nat g = (x - 1) / fs_inodes_per_group fs) as Hgz by (unfold g; lia).
  assert ((x - 1) / fs_inodes_per_group fs < num_groups fs) by (apply Z.div_lt_upper_bound; lia).
  destruct (lookup_lt_is_Some_2 (fs_block_groups fs) g) as [d Hd]; [unfold num_groups, len in *; lia|].
  assert (x = number KInode fs (Z.of_nat g) i) as Hnum by (unfold number; cbn; lia).
  unfold free_inode. rewrite decide_False by lia.
  rewrite (bind_run _ _ _ fs (fs_inodes_per_group fs)) by done.
  rewrite (bind_run _ _ _ fs (Z.of_nat g, i))
    by (unfold liftO, div_rem; rewrite decide_False by lia; by rewrite Hgz).
  rewrite (bind_run _ _ _ fs (fs_block_size fs)) by done.
  rewrite (bind_run _ _ _ fs (fs_block_groups fs)) by done.
  rewrite decide_False by (unfold num_groups in *; lia).
  rewrite (bind_run _ _ _ fs d) by (by apply block_group_run).
  rewrite Hnum. by apply (release_run KInode).
Qed.

(** Numbers outside the file system are refused. *)
Definition in_range (k : kind) fs (x : Z) : Prop :=
  match k with
  | KBlock => fdb fs <= x < fs_blocks_count fs
  | KInode => 1 <= x <= num_groups fs * fs_inodes_per_group fs
  end.

Definition release {D} `{!BlockDevice D} (k : kind) (x : Z) : FsM D () :=
  match k with KBlock => free_block x | KInode => free_inode x end.

Lemma release_out_of_range k fs x :
  geometry fs → is_u32 x → (k = KBlock → fdb fs <= x) → ¬ in_range k fs x →
  release k x fs = (fs, Err FsIoError).
Proof.
  intros Hg [Hx _] Hlow Hr. destruct k; cbn [release in_range] in *.
  - unfold free_block. rewrite (bind_run _ _ _ fs (fs_blocks_count fs)) by done.
    rewrite decide_True; [done|]. specialize (Hlow eq_refl). lia.
  - unfold free_inode. case_decide as Hz; [done|].
    rewrite (bind_run _ _ _ fs (fs_inodes_per_group fs)) by done. destruct Hg.
    rewrite (bind_run _ _ _ fs ((x - 1) / fs_inodes_per_group fs, (x - 1) mod fs_inodes_per_group fs))
      by (unfold liftO, div_rem; by rewrite decide_False by lia).
    rewrite (bind_run _ _ _ fs (fs_block_size fs)) by done.
    rewrite (bind_run _ _ _ fs (fs_block_groups fs)) by done.
    rewrite decide_True; [done|]. fold (num_groups fs). apply Z.div_le_lower_bound; lia.
Qed.

Lemma release_released k fs x :
  fs_inv fs → in_range k fs x → released k fs x (release k x fs).
Proof. destruct k; intros; [by apply free_block_released|by apply free_inode_released]. Qed.

(** ** Histories *)
Inductive pool_op : Type :=
| PAlloc (k : kind)
| PFree (k : kind) (x : Z).

Definition pool_run {D} `{!BlockDevice D} (op : pool_op) : FsM D Z :=
  match op with
  | PAlloc KBlock => alloc_block
  | PAlloc KInode => alloc_inode
  | PFree k x => release k x;; mret x
  end.

Fixpoint run_pool {D} `{!BlockDevice D} (ops : list pool_op) : FsM D (list (FsError + Z)) :=
  match ops with
  | [] => mret []
  | op :: ops => r ← try_ (pool_run op); rs ← run_pool ops; mret (r :: rs)
  end.

(** The abstract pool: the free numbers of each kind. *)
Definition pool : Type := kind → gset Z.
Definition pool_set (P : pool) (k : kind) (X : gset Z) : pool :=
  λ k1, if decide (k1 = k) then X else P k1.

(** [rng] are the numbers that can be released. *)
Inductive pool_step (rng : kind → Z → Prop) (P : pool) : pool_op → FsError + Z → pool → Prop :=
| pool_alloc k x :
    x ∈ P k → (∀ y, y ∈ P k → x <= y) →
    pool_step rng P (PAlloc k) (inr x) (pool_set P k (P k ∖ {[x]}))
| pool_full k : P k = ∅ → pool_step rng P (PAlloc k) (inl FsNoSpace) P
| pool_free k x :
    rng k x → x ∉ P k → pool_step rng P (PFree k x) (inr x) (pool_set P k (P k ∪ {[x]}))
| pool_free_error k x :
    ¬ rng k x ∨ x ∈ P k → pool_step rng P (PFree k x) (inl FsIoError) P.

Inductive pool_steps (rng : kind → Z → Prop) : pool → list pool_op → list (FsError + Z) → pool → Prop :=
| pool_steps_nil P : pool_steps rng P [] [] P
| pool_steps_cons P P1 P2 op ops r rs :
    pool_step rng P op r P1 → pool_steps rng P1 ops rs P2 →
    pool_steps rng P (op :: ops) (r :: rs) P2.

Definition pool_of fs (P : pool) : Prop := ∀ k x, x ∈ P k ↔ is_free k fs x.

(** Operations that stay clear of the reserved blocks before the first data
    block (releasing one of them underflows). *)
Definition pool_op_ok fs (op : pool_op) : Prop :=
  match op with
  | PAlloc _ => True
  | PFree k x => is_u32 x ∧ (k = KBlock → fdb fs <= x)
  end.

Lemma same_frame_rfl fs : same_frame fs fs.
Proof. by split. Qed.
Lemma same_frame_trans fs1 fs2 fs3 : same_frame fs1 fs2 → same_frame fs2 fs3 → same_frame fs1 fs3.
Proof. intros [] []. split; congruence. Qed.

Lemma frame_in_range fs fs' k x : same_frame fs fs' → in_range k fs' x ↔ in_range k fs x.
Proof.
  intros [_ _ Hc Hi _ Hf Hn _]. unfold in_range. by destruct k; rewrite ?Hc, ?Hi, ?Hf, ?Hn.
Qed.

Lemma frame_op_ok fs fs' op : same_frame fs fs' → pool_op_ok fs op → pool_op_ok fs' op.
Proof. intros [_ _ _ _ _ Hf _ _]. unfold pool_op_ok. by destruct op; rewrite ?Hf. Qed.

(** One operation is one step of the pool. *)
Lemma pool_run_step fs P op :
  fs_inv fs → pool_of fs P → pool_op_ok fs op →
  ∃ fs' r P', try_ (pool_run op) fs = (fs', Ok r) ∧ fs_inv fs' ∧ same_frame fs fs' ∧
    pool_of fs' P' ∧ pool_step (λ k, in_range k fs) P op r P'.
Proof.
  intros Hinv HP Hok. unfold pool_of in *. destruct op as [k|k x].
  - assert (allocated k fs (pool_run (PAlloc k) fs)) as Ha.
    { destruct k; [by apply alloc_block_allocated|by apply alloc_inode_allocated]. }
    unfold try_. destruct Ha as [[-> Hnone]|(x & fs' & -> & Hinv' & Hfr & Hx & Hmin & Hfree)].
    + exists fs, (inl FsNoSpace), P. split_and!; try done. constructor.
      apply set_eq. intros x. rewrite HP. set_solver.
    + exists fs', (inr x), (pool_set P k (P k ∖ {[x]})). split_and!; try done.
      * intros k1 y. rewrite Hfree. unfold pool_set. case_decide as Hk.
        -- subst k1. rewrite elem_of_difference, elem_of_singleton, HP. naive_solver.
        -- rewrite HP. naive_solver.
      * constructor; [by apply HP|]. intros y Hy%HP. auto.
  - destruct Hok as [Hx Hlow].
    assert (∀ (r : FsError), release k x fs = (fs, Err r) →
              try_ (pool_run (PFree k x)) fs = (fs, Ok (inl r))) as Herr.
    { intros r Hr. unfold try_, pool_run, mbind, ST_bind. by rewrite Hr. }
    assert (in_range k fs x ∨ ¬ in_range k fs x) as [Hr|Hr].
    { unfold in_range. destruct k; lia. }
    + destruct (release_released k fs x Hinv Hr) as [[He Hf]|(fs' & He & Hinv' & Hfr & Hnf & Hfree)].
      * exists fs, (inl FsIoError), P. split_and!; try done; [by apply Herr|].
        constructor. right. by apply HP.
      * exists fs', (inr x), (pool_set P k (P k ∪ {[x]})). split_and!; try done.
        -- unfold try_, pool_run, mbind, ST_bind. by rewrite He.
        -- intros k1 y. rewrite Hfree. unfold pool_set. case_decide as Hk.
           ++ subst k1. rewrite elem_of_union, elem_of_singleton, HP. naive_solver.
           ++ rewrite HP. naive_solver.
        -- constructor; [done|]. by rewrite HP.
    + exists fs, (inl FsIoError), P. split_and!; try done; [|by constructor; left].
      apply Herr, release_out_of_range; [apply Hinv|done..].
Qed.

Lemma run_pool_steps fs P ops :
  fs_inv fs → pool_of fs P → Forall (pool_op_ok fs) ops →
  ∃ fs' rs P', run_pool ops fs = (fs', Ok rs) ∧ fs_inv fs' ∧ same_frame fs fs' ∧
    pool_of fs' P' ∧ pool_steps (λ k, in_range k fs) P ops rs P'.
Proof.
  intros Hinv HP Hops. revert fs P Hinv HP Hops.
  induction ops as [|op ops IH]; intros fs P Hinv HP Hops.
  { exists fs, [], P. split_and!; try done. constructor. }
  apply Forall_cons in Hops as [Hop Hops].
  destruct (pool_run_step fs P op) as (fs1 & r & P1 & Hr & Hinv1 & Hfr1 & HP1 & Hs1); [done..|].
  destruct (IH fs1 P1) as (fs2 & rs & P2 & Hrs & Hinv2 & Hfr2 & HP2 & Hs2); [done|done| |].
  { eapply Forall_impl; [done|]. intros. by eapply frame_op_ok. }
  exists fs2, (r :: rs), P2. split_and!; [|done|by eapply same_frame_trans|done|].
  - cbn [run_pool]. rewrite (bind_run _ _ _ _ _ Hr), (bind_run _ _ _ _ _ Hrs). done.
  - econstructor; [done|].
    assert (∀ P ops rs P', pool_steps (λ k, in_range k fs1) P ops rs P' →
                           pool_steps (λ k, in_range k fs) P ops rs P') as Hmono; [|auto].
    clear -Hfr1. intros P ops rs P'. induction 1 as [|P P1 P2 op ops r rs Hs Hss IH]; econstructor;
      [|done]. destruct Hs; constructor; try done; by rewrite <- (frame_in_range fs fs1).
Qed.

Lemma run_pool_sim {D} `{ByteDevice D} ops :
  simulates (λ f : Ext2Fs D, bd_wf (fs_device f)) (λ f, bd_ok (fs_device f)) fs_view
    (run_pool ops) (run_pool ops).
Proof.
  induction ops as [|op ops IH]; cbn [run_pool]; [apply sim_ret|].
  apply sim_bind; [apply sim_try|intros r; apply sim_bind; [done|intros; apply sim_ret]].
  destruct op as [[]|[]]; cbn; sim_auto.
Qed.

(** The free numbers of a file system, listed. *)
Definition free_list (k : kind) fs : list Z :=
  mjoin (imap (λ g d, number k fs (Z.of_nat g) <$>
    filter (λ i, bit_at (blk fs (bitmap_of k d)) i = false) (upto (bits k fs (Z.of_nat g))))
    (fs_block_groups fs)).
Definition free_pool fs : pool := λ k, list_to_set (free_list k fs).

Lemma free_pool_of fs : pool_of fs (free_pool fs).
Proof.
  intros k x. unfold free_pool, free_list, is_free. rewrite elem_of_list_to_set, list_elem_of_join.
  split.
  - intros (l & Hx & Hl). apply elem_of_lookup_imap in Hl as (g & d & -> & Hd).
    apply list_elem_of_fmap in Hx as (i & -> & Hi).
    apply list_elem_of_filter in Hi as [Hb Hi%elem_of_upto]. by exists g, d, i.
  - intros (g & d & i & Hd & Hi & -> & Hb). eexists. split; [|apply elem_of_lookup_imap; by exists g, d].
    apply list_elem_of_fmap. exists i. split; [done|]. apply list_elem_of_filter.
    split; [exact Hb|]. by apply elem_of_upto.
Qed.


(** On the small image: two blocks and an inode are taken, one block is given
    back and taken again, a double release is refused. *)
Definition tiny_ops : list pool_op :=
  [PAlloc KBlock; PAlloc KBlock; PAlloc KInode; PFree KBlock 7; PFree KBlock 7; PAlloc KBlock].

