(* ===== verification/Ext2Blocks.v ===== *)
(** * The block map of an inode ([vfs/ext2/mod.rs])

    Twelve direct pointers and three trees of index blocks map the blocks of a
    file to blocks of the disk: lookup, insertion with allocation of the
    missing index blocks, and release of everything an inode owns. *)

From S2P Require Import Prelude Effects BlockDevice FsTypes Ext2Structs Bitmap Ext2Fs Ext2Alloc.

(** [read_block_ptr_from_buf]. *)
Definition read_block_ptr_from_buf {E} (buf : list Z) (idx : Z) : outcome E Z :=
  b0 ← index buf (idx * 4);
  b1 ← index buf (idx * 4 + 1);
  b2 ← index buf (idx * 4 + 2);
  b3 ← index buf (idx * 4 + 3);
  Ok (from_le_bytes [b0; b1; b2; b3]).

Section blocks.
Context {D : Type} `{!BlockDevice D}.

(** ** Lookup *)
Definition read_block_ptr (block idx block_size : Z) : FsM D Z :=
  if decide (block = 0) then mret 0
  else
    buf ← device_read (block * block_size + idx * 4) (zeroes 4);
    mret (from_le_bytes buf).

Definition write_block_ptr (block idx block_size value : Z) : FsM D () :=
  if decide (block = 0) then fail FsIoError
  else device_write (block * block_size + idx * 4) (to_le_bytes 4 value).

Definition get_block_number (block_pointers : list Z) (block_size file_block : Z) : FsM D Z :=
  let ptrs_per_block := block_size / 4 in
  if decide (file_block < 12) then liftO (index block_pointers file_block)
  else
    let fb := file_block - 12 in
    if decide (fb < ptrs_per_block) then
      root ← liftO (index block_pointers 12);
      read_block_ptr root fb block_size
    else
      let fb := fb - ptrs_per_block in
      if decide (fb < ptrs_per_block * ptrs_per_block) then
        root ← liftO (index block_pointers 13);
        ind ← read_block_ptr root (fb / ptrs_per_block) block_size;
        read_block_ptr ind (fb mod ptrs_per_block) block_size
      else
        let fb := fb - ptrs_per_block * ptrs_per_block in
        let pp := ptrs_per_block * ptrs_per_block in
        root ← liftO (index block_pointers 14);
        dbl ← read_block_ptr root (fb / pp) block_size;
        ind ← read_block_ptr dbl (fb mod pp / ptrs_per_block) block_size;
        read_block_ptr ind (fb mod ptrs_per_block) block_size.

Definition get_block (inode : Inode) (file_block : Z) : FsM D Z :=
  bs ← gets fs_block_size;
  get_block_number (i_block inode) bs file_block.

(** ** Insertion

    [set_block_number] works on the file system and on the caller's inode,
    which keeps the pointers set before a failure. *)
Definition on_fs {A} (m : FsM D A) : ST (Ext2Fs D * Inode) FsError A :=
  zoom fst (λ fs s, (fs, s.2)) id m.

(** [inode.block[i]] and [inode.block[i] = v]. *)
Definition inode_block (i : Z) : ST (Ext2Fs D * Inode) FsError Z :=
  b ← gets (λ s, i_block s.2); liftO (index b i).
Definition set_inode_block (i v : Z) : ST (Ext2Fs D * Inode) FsError () :=
  b ← gets (λ s, i_block s.2);
  b ← liftO (set_index b i v);
  modify (λ s, (s.1, with_block s.2 b)).

(** A fresh index block, zeroed. *)
Definition alloc_zeroed : FsM D Z :=
  b ← alloc_block;
  bs ← gets fs_block_size;
  write_block b (zeroes bs);;
  mret b.

(** [if inode.block[slot] == 0 { .. }]: how many blocks were allocated. *)
Definition ensure_root (slot : Z) : ST (Ext2Fs D * Inode) FsError Z :=
  root ← inode_block slot;
  if decide (root = 0) then
    b ← on_fs alloc_zeroed;
    set_inode_block slot b;;
    mret 1
  else mret 0.

(** The index block at [idx] of [parent], allocated if there is none. *)
Definition ensure_child (parent idx block_size : Z) : FsM D (Z * Z) :=
  child ← read_block_ptr parent idx block_size;
  if decide (child = 0) then
    b ← alloc_zeroed;
    write_block_ptr parent idx block_size b;;
    mret (b, 1)
  else mret (child, 0).

(** Returns the number of index blocks allocated. *)
Definition set_block_number (file_block value : Z) : ST (Ext2Fs D * Inode) FsError Z :=
  bs ← on_fs (gets fs_block_size);
  let ptrs_per_block := bs / 4 in
  if decide (file_block < 12) then set_inode_block file_block value;; mret 0
  else
    let fb := file_block - 12 in
    if decide (fb < ptrs_per_block) then
      m ← ensure_root 12;
      root ← inode_block 12;
      on_fs (write_block_ptr root fb bs value);;
      mret m
    else
      let fb := fb - ptrs_per_block in
      if decide (fb < ptrs_per_block * ptrs_per_block) then
        m1 ← ensure_root 13;
        root ← inode_block 13;
        '(ind, m2) ← on_fs (ensure_child root (fb / ptrs_per_block) bs);
        on_fs (write_block_ptr ind (fb mod ptrs_per_block) bs value);;
        mret (m1 + m2)
      else
        let fb := fb - ptrs_per_block * ptrs_per_block in
        let pp := ptrs_per_block * ptrs_per_block in
        m1 ← ensure_root 14;
        root ← inode_block 14;
        '(dbl, m2) ← on_fs (ensure_child root (fb / pp) bs);
        '(ind, m3) ← on_fs (ensure_child dbl (fb mod pp / ptrs_per_block) bs);
        on_fs (write_block_ptr ind (fb mod ptrs_per_block) bs value);;
        mret (m1 + m2 + m3).

(** ** Release *)

(** [depth] is at most 3 where the source calls it; recursion is on it. *)
Fixpoint free_indirect_block (depth : nat) (block_num block_size ptrs_per_block : Z) : FsM D () :=
  buf ← read_block block_num (zeroes block_size);
  for_each (upto ptrs_per_block) (λ i,
    ptr ← liftO (read_block_ptr_from_buf buf i);
    if decide (ptr = 0) then mret tt
    else match depth with
         | S (S _ as d) => free_indirect_block d ptr block_size ptrs_per_block
         | _ => free_block ptr
         end);;
  free_block block_num.

Lemma free_indirect_block_unfold depth b bs p :
  free_indirect_block depth b bs p =
    (buf ← read_block b (zeroes bs);
     for_each (upto p) (λ i,
       ptr ← liftO (read_block_ptr_from_buf buf i);
       if decide (ptr = 0) then mret tt
       else match depth with
            | S (S _ as d) => free_indirect_block d ptr bs p
            | _ => free_block ptr
            end);;
     free_block b).
Proof. by destruct depth. Qed.

Definition free_inode_blocks (inode : Inode) : FsM D () :=
  bs ← gets fs_block_size;
  let ptrs_per_block := bs / 4 in
  for_each (upto 12) (λ i,
    b ← liftO (index (i_block inode) i);
    if decide (b = 0) then mret tt else free_block b);;
  for_each [(12, 1%nat); (13, 2%nat); (14, 3%nat)] (λ '(slot, depth),
    b ← liftO (index (i_block inode) slot);
    if decide (b = 0) then mret tt else free_indirect_block depth b bs ptrs_per_block).
End blocks.

(** ** Simulation *)
Section blocks_sim.
Context {D : Type} `{ByteDevice D}.
Abbreviation fsim := (simulates (E:=FsError) (λ fs : Ext2Fs D, bd_wf (fs_device fs))
                       (λ fs, bd_ok (fs_device fs)) fs_view).
Abbreviation isim := (simulates (E:=FsError) (λ s : Ext2Fs D * Inode, bd_wf (fs_device s.1))
                       (λ s, bd_ok (fs_device s.1)) (λ s, (fs_view s.1, s.2))).

Lemma on_fs_sim {A} (m : FsM D A) m' : fsim m m' → isim (on_fs m) (on_fs m').
Proof.
  intros Hm [fs i] Hs. specialize (Hm fs Hs). unfold on_fs, zoom. cbn.
  destruct (m fs) as [fs1 r]. destruct Hm as [? Hm]. split; [done|].
  intros Hok. destruct (Hm Hok) as [? ->]. done.
Qed.

Lemma read_block_ptr_sim b i bs : fsim (read_block_ptr b i bs) (read_block_ptr b i bs).
Proof. unfold read_block_ptr. sim_auto. Qed.
Lemma write_block_ptr_sim b i bs v : fsim (write_block_ptr b i bs v) (write_block_ptr b i bs v).
Proof. unfold write_block_ptr. sim_auto. Qed.
#[local] Hint Resolve read_block_ptr_sim write_block_ptr_sim : sim.

Lemma get_block_number_sim bp bs fb : fsim (get_block_number bp bs fb) (get_block_number bp bs fb).
Proof. unfold get_block_number. sim_auto. Qed.
#[local] Hint Resolve get_block_number_sim : sim.
Lemma get_block_sim i fb : fsim (get_block i fb) (get_block i fb).
Proof. unfold get_block. sim_auto. Qed.
Lemma alloc_zeroed_sim : fsim alloc_zeroed alloc_zeroed.
Proof. unfold alloc_zeroed. sim_auto. Qed.
#[local] Hint Resolve alloc_zeroed_sim : sim.
Lemma ensure_child_sim p i bs : fsim (ensure_child p i bs) (ensure_child p i bs).
Proof. unfold ensure_child. sim_auto. Qed.
Lemma inode_block_sim i : isim (inode_block i) (inode_block i).
Proof. unfold inode_block. sim_auto. Qed.
Lemma set_inode_block_sim i v : isim (set_inode_block i v) (set_inode_block i v).
Proof. unfold set_inode_block. sim_auto. by apply sim_modify. Qed.
#[local] Hint Resolve on_fs_sim ensure_child_sim inode_block_sim set_inode_block_sim : sim.
Lemma ensure_root_sim slot : isim (ensure_root slot) (ensure_root slot).
Proof. unfold ensure_root. sim_auto. Qed.
Lemma gets_bs_sim : fsim (gets fs_block_size) (gets fs_block_size).
Proof. by apply sim_gets. Qed.
#[local] Hint Resolve ensure_root_sim gets_bs_sim : sim.
Lemma set_block_number_sim fb v : isim (set_block_number fb v) (set_block_number fb v).
Proof. unfold set_block_number. sim_auto. Qed.

Lemma free_indirect_block_sim d b bs p :
  fsim (free_indirect_block d b bs p) (free_indirect_block d b bs p).
Proof.
  revert b. induction d as [|[|d] IH]; intros b; rewrite !free_indirect_block_unfold; sim_auto.
Qed.
#[local] Hint Resolve free_indirect_block_sim : sim.
Lemma free_inode_blocks_sim i : fsim (free_inode_blocks i) (free_inode_blocks i).
Proof. unfold free_inode_blocks. sim_auto. Qed.
End blocks_sim.
#[export] Hint Resolve on_fs_sim read_block_ptr_sim write_block_ptr_sim get_block_number_sim
  get_block_sim set_block_number_sim free_inode_blocks_sim : sim.
