(* ===== verification/Ext2Dir.v ===== *)
(** * Directories ([vfs/ext2/dir.rs], the directory walk of [mod.rs])

    A directory block is a chain of variable-length records.  The scans of a
    block are functions on its bytes; each walks the chain with the block
    length as fuel, which suffices because a record it follows is at least
    eight bytes long. *)

From S2P Require Import Prelude Utf8 Effects BlockDevice FsTypes Ext2Structs Ext2Fs Ext2Alloc Ext2Blocks.

Definition DIR_ENTRY_HEADER_SIZE : Z := 8.

Definition align4 (val : Z) : Z := Z.land (val + 3) (2 ^ 64 - 1 - 3).
Definition entry_size (name_len : Z) : Z := align4 (DIR_ENTRY_HEADER_SIZE + name_len).

(** [ptr::read(block_buf[pos..].as_ptr() as *const DirEntryRaw)]. *)
Definition read_entry {E} (buf : list Z) (pos : Z) : outcome E DirEntryRaw :=
  from_buf (DirEntryRaw_of_bytes (sub buf pos 8)).

(** ** Walking the records of a block

    [f] is the callback with the state it captures: [Some] is
    [ControlFlow::Break]. *)
Fixpoint walk_block {E A T} (fuel : nat) (block_len : Z) (buf : list Z) (pos : Z)
    (f : A → DirEntryRaw → list Z → A * option T) (acc : A) : outcome E (A * option T) :=
  match fuel with
  | O => OutOfFuel
  | S fuel =>
      if decide (block_len <= pos) then Ok (acc, None)
      else if decide (block_len < pos + 8) then Ok (acc, None)
      else
        entry ← read_entry buf pos;
        if decide (de_rec_len entry < 8 ∨ block_len < pos + de_rec_len entry) then Ok (acc, None)
        else
          '(acc, r) ← (if decide (de_inode entry = 0) then Ok (acc, None)
                       else if decide (de_rec_len entry - 8 < de_name_len entry) then Ok (acc, None)
                       else
                         name ← slice buf (pos + 8) (pos + 8 + de_name_len entry);
                         Ok (f acc entry name));
          match r with
          | Some t => Ok (acc, Some t)
          | None => walk_block fuel block_len buf (pos + de_rec_len entry) f acc
          end
  end.

(** Enough rounds for a block of [n] bytes. *)
Definition walk_fuel (n : Z) : nat := S (Z.to_nat n).

(** ** Writing records *)
Definition write_dir_entry {E} (buf : list Z) (pos inode rec_len : Z) (name : list Z)
    (file_type : Z) : outcome E (list Z) :=
  buf ← copy_at buf pos (to_le_bytes 4 inode);
  buf ← copy_at buf (pos + 4) (to_le_bytes 2 rec_len);
  buf ← set_index buf (pos + 6) (wrap_u 8 (len name));
  buf ← set_index buf (pos + 7) file_type;
  let name_start := pos + DIR_ENTRY_HEADER_SIZE in
  buf ← copy_at buf name_start name;
  let padded_end := pos + align4 (DIR_ENTRY_HEADER_SIZE + len name) in
  let name_end := name_start + len name in
  if decide (name_end < padded_end ∧ padded_end <= pos + rec_len)
  then copy_at buf name_end (zeroes (padded_end - name_end))
  else Ok buf.

(** [buf[pos + 4] = n as u8; buf[pos + 5] = (n >> 8) as u8]. *)
Definition set_rec_len {E} (buf : list Z) (pos n : Z) : outcome E (list Z) :=
  buf ← set_index buf (pos + 4) (wrap_u 8 n);
  set_index buf (pos + 5) (wrap_u 8 (Z.shiftr n 8)).

(** ** Insertion into a block *)
Inductive AddResult : Type :=
| AddExists                       (* [return Err(AlreadyExists)] *)
| AddWritten (buf : list Z)       (* the entry is in the buffer, to be written *)
| AddNoRoom.                      (* the block has no room *)

Fixpoint add_in_block {E} (fuel : nat) (block_size : Z) (buf : list Z) (pos : Z) (name : list Z)
    (needed target_ino file_type : Z) : outcome E AddResult :=
  match fuel with
  | O => OutOfFuel
  | S fuel =>
      if decide (block_size <= pos) then Ok AddNoRoom
      else if decide (block_size < pos + DIR_ENTRY_HEADER_SIZE) then Ok AddNoRoom
      else
        entry ← read_entry buf pos;
        if decide (de_rec_len entry < 8 ∨ block_size < pos + de_rec_len entry) then Ok AddNoRoom
        else
          let next := add_in_block fuel block_size buf (pos + de_rec_len entry) name needed
                        target_ino file_type in
          if decide (de_inode entry ≠ 0) then
            dup ← (if decide (de_name_len entry = len name ∧ de_name_len entry <= de_rec_len entry - 8)
                   then ename ← slice buf (pos + 8) (pos + 8 + de_name_len entry);
                        Ok (bool_decide (ename = name))
                   else Ok false);
            if (dup : bool) then Ok AddExists
            else
              let actual := entry_size (de_name_len entry) in
              slack ← chk 64 (de_rec_len entry - actual);
              if decide (needed <= slack) then
                buf ← set_rec_len buf pos actual;
                buf ← write_dir_entry buf (pos + actual) target_ino
                        (wrap_u 16 (de_rec_len entry - actual)) name file_type;
                Ok (AddWritten buf)
              else next
          else if decide (needed <= de_rec_len entry) then
            buf ← write_dir_entry buf pos target_ino (de_rec_len entry) name file_type;
            Ok (AddWritten buf)
          else next
  end.

(** ** Removal from a block: the inode removed and the new bytes *)
Fixpoint remove_in_block {E} (fuel : nat) (block_size : Z) (buf : list Z) (pos : Z)
    (prev_pos : option Z) (name : list Z) : outcome E (option (Z * list Z)) :=
  match fuel with
  | O => OutOfFuel
  | S fuel =>
      if decide (block_size <= pos) then Ok None
      else if decide (block_size < pos + DIR_ENTRY_HEADER_SIZE) then Ok None
      else
        entry ← read_entry buf pos;
        if decide (de_rec_len entry < 8 ∨ block_size < pos + de_rec_len entry) then Ok None
        else
          hit ← (if decide (de_inode entry ≠ 0 ∧ de_name_len entry = len name ∧
                            de_name_len entry <= de_rec_len entry - 8)
                 then ename ← slice buf (pos + 8) (pos + 8 + de_name_len entry);
                      Ok (bool_decide (ename = name))
                 else Ok false);
          if (hit : bool) then
            buf ← match prev_pos with
                  | Some pp =>
                      prev ← read_entry buf pp;
                      set_rec_len buf pp (de_rec_len prev + de_rec_len entry)
                  | None => copy_at buf pos [0; 0; 0; 0]
                  end;
            Ok (Some (de_inode entry, buf))
          else remove_in_block fuel block_size buf (pos + de_rec_len entry) (Some pos) name
  end.

(** [init_dir_block]: the names are [.] and [..]. *)
Definition init_dir_block {E} (block_size self_ino parent_ino : Z) : outcome E (list Z) :=
  buf ← write_dir_entry (zeroes block_size) 0 self_ino 12 [46] FT_DIR;
  write_dir_entry buf 12 parent_ino (wrap_u 16 (block_size - 12)) [46; 46] FT_DIR.

(** ** Directories as files *)
Section dirs.
Context {D : Type} `{!BlockDevice D}.

(** The loop of [for_each_dir_entry] over the blocks of the directory; the
    buffer is reused from one block to the next. *)
Fixpoint walk_blocks {A T} (dir : Inode) (f : A → DirEntryRaw → list Z → A * option T)
    (file_blocks : list Z) (block_buf : list Z) (acc : A) : FsM D (A * option T) :=
  match file_blocks with
  | [] => mret (acc, None)
  | file_block :: rest =>
      block_num ← get_block dir file_block;
      if decide (block_num = 0) then walk_blocks dir f rest block_buf acc
      else
        block_len ← gets fs_block_size;
        block_buf ← read_block block_num block_buf;
        '(acc, r) ← liftO (walk_block (walk_fuel block_len) block_len block_buf 0 f acc);
        match r with
        | Some t => mret (acc, Some t)
        | None => walk_blocks dir f rest block_buf acc
        end
  end.

Definition for_each_dir_entry {A T} (dir : Inode) (f : A → DirEntryRaw → list Z → A * option T)
    (acc : A) : FsM D (A * option T) :=
  bs ← gets fs_block_size;
  let num_blocks := wrap_u 32 (div_ceil (Inode_size dir) bs) in
  walk_blocks dir f (upto num_blocks) (zeroes bs) acc.

Definition find_entry (dir : Inode) (name : list Z) : FsM D Z :=
  '(_, found) ← for_each_dir_entry dir
    (λ _ entry entry_name,
       (tt, if decide (entry_name = name) then Some (de_inode entry) else None)) tt;
  liftO (ok_or found FsNotFound).

(** Names that are not UTF-8 are left out, as are [.] and [..]. *)
Definition list_dir (dir : Inode) : FsM D (list FsDirEntry) :=
  '(entries, _) ← for_each_dir_entry (T:=Empty_set) dir
    (λ entries entry name,
       (if utf8_valid name then
          if decide (name ≠ [46] ∧ name ≠ [46; 46])
          then entries ++ [{| fde_name := name; fde_is_dir := bool_decide (de_file_type entry = FT_DIR) |}]
          else entries
        else entries, None)) [];
  mret entries.

Definition is_dir_empty (dir : Inode) : FsM D bool :=
  '(_, found) ← for_each_dir_entry dir
    (λ _ _ name, (tt, if decide (name ≠ [46] ∧ name ≠ [46; 46]) then Some tt else None)) tt;
  mret (bool_decide (found = None)).

(** A computation during which a guard is alive: an early return drops it,
    which spawns the clean-up. *)
Definition guarded {A} (c : Cleanup) (m : FsM D A) : FsM D A := λ fs,
  match m fs with
  | (fs', Err e) => (spawn_cleanup c fs', Err e)
  | r => r
  end.

(** [set_block_number] on a local copy of the inode. *)
Definition set_block_local (inode : Inode) (file_block value : Z) : FsM D (Inode * Z) := λ fs,
  let '((fs', inode'), r) := set_block_number file_block value (fs, inode) in
  (fs', m ← r; Ok (inode', m)).

(** The loop of [add_dir_entry] over the existing blocks: [Some tt] once the
    entry is written.  Up to the commit the guard of [ino] is alive. *)
Fixpoint add_to_blocks (dir : Inode) (name : list Z) (ino file_type : Z) (file_blocks : list Z)
    (block_buf : list Z) : FsM D (option ()) :=
  match file_blocks with
  | [] => mret None
  | file_block :: rest =>
      block_num ← guarded (FreeInode ino) (get_block dir file_block);
      if decide (block_num = 0) then add_to_blocks dir name ino file_type rest block_buf
      else
        bs ← gets fs_block_size;
        block_buf ← guarded (FreeInode ino) (read_block block_num block_buf);
        r ← liftO (add_in_block (walk_fuel bs) bs block_buf 0 name (entry_size (len name)) ino file_type);
        match r with
        | AddExists => guarded (FreeInode ino) (fail FsAlreadyExists)
        | AddWritten buf => write_block block_num buf;; mret (Some tt)
        | AddNoRoom => add_to_blocks dir name ino file_type rest block_buf
        end
  end.

Definition add_dir_entry (dir_inode : Inode) (name : list Z) (ino file_type : Z) :
    FsM D (Z * Inode) :=
  if decide (name = [] ∨ 255 < len name) then guarded (FreeInode ino) (fail FsIoError)
  else
    bs ← gets fs_block_size;
    rounded ← liftO (chk 64 (Inode_size dir_inode + bs - 1));
    let num_blocks := wrap_u 32 (rounded / bs) in
    done ← add_to_blocks dir_inode name ino file_type (upto num_blocks) (zeroes bs);
    match done with
    | Some _ => mret (ino, dir_inode)
    | None =>
        new_block ← guarded (FreeInode ino) alloc_block;
        new_buf ← liftO (write_dir_entry (zeroes bs) 0 ino (wrap_u 16 bs) name file_type);
        write_block new_block new_buf;;
        '(dir_inode, meta_blocks) ← set_block_local dir_inode num_blocks new_block;
        blocks ← liftO (chk 32 (i_blocks dir_inode + (1 + meta_blocks) * (bs / 512)));
        new_size ← liftO (chk 64 (Inode_size dir_inode + bs));
        mret (ino, Inode_set_size (with_blocks dir_inode blocks) new_size)
    end.

(** The loop of [remove_dir_entry] over the blocks. *)
Fixpoint remove_from_blocks (dir : Inode) (name : list Z) (file_blocks : list Z)
    (block_buf : list Z) : FsM D Z :=
  match file_blocks with
  | [] => fail FsNotFound
  | file_block :: rest =>
      block_num ← get_block dir file_block;
      if decide (block_num = 0) then remove_from_blocks dir name rest block_buf
      else
        bs ← gets fs_block_size;
        block_buf ← read_block block_num block_buf;
        r ← liftO (remove_in_block (walk_fuel bs) bs block_buf 0 None name);
        match r with
        | Some (removed_ino, buf) => write_block block_num buf;; mret removed_ino
        | None => remove_from_blocks dir name rest block_buf
        end
  end.

Definition remove_dir_entry (dir_inode : Inode) (name : list Z) : FsM D (Z * Inode) :=
  bs ← gets fs_block_size;
  rounded ← liftO (chk 64 (Inode_size dir_inode + bs - 1));
  let num_blocks := wrap_u 32 (rounded / bs) in
  removed ← remove_from_blocks dir_inode name (upto num_blocks) (zeroes bs);
  mret (removed, dir_inode).
End dirs.

(** ** Simulation *)
Section dirs_sim.
Context {D : Type} `{ByteDevice D}.
Abbreviation fsim := (simulates (E:=FsError) (λ fs : Ext2Fs D, bd_wf (fs_device fs))
                       (λ fs, bd_ok (fs_device fs)) fs_view).

Lemma guarded_sim {A} c (m : FsM D A) m' : fsim m m' → fsim (guarded c m) (guarded c m').
Proof.
  intros Hm fs Hs. specialize (Hm fs Hs). unfold guarded.
  destruct (m fs) as [fs1 [a|e| |]]; destruct Hm as [? Hm]; (split; [done|]);
    intros Hok; destruct (Hm Hok) as [? ->]; done.
Qed.

Lemma set_block_local_sim i fb v : fsim (set_block_local i fb v) (set_block_local i fb v).
Proof.
  intros fs Hs. pose proof (set_block_number_sim fb v (fs, i) Hs) as Hm. unfold set_block_local.
  destruct (set_block_number fb v (fs, i)) as [[fs1 i1] r]. destruct Hm as [? Hm].
  split; [done|]. intros Hok. destruct (Hm Hok) as [? Hr]. split; [done|]. cbn in Hr. by rewrite Hr.
Qed.
#[local] Hint Resolve guarded_sim set_block_local_sim : sim.

Lemma walk_blocks_sim {A T} dir (f : A → DirEntryRaw → list Z → A * option T) l buf acc :
  fsim (walk_blocks dir f l buf acc) (walk_blocks dir f l buf acc).
Proof. revert buf acc. induction l; intros; cbn [walk_blocks]; sim_auto. Qed.
#[local] Hint Resolve walk_blocks_sim : sim.
Lemma for_each_dir_entry_sim {A T} dir (f : A → DirEntryRaw → list Z → A * option T) acc :
  fsim (for_each_dir_entry dir f acc) (for_each_dir_entry dir f acc).
Proof. unfold for_each_dir_entry. sim_auto. Qed.
#[local] Hint Resolve for_each_dir_entry_sim : sim.
Lemma find_entry_sim dir name : fsim (find_entry dir name) (find_entry dir name).
Proof. unfold find_entry. sim_auto. Qed.
Lemma list_dir_sim dir : fsim (list_dir dir) (list_dir dir).
Proof. unfold list_dir. sim_auto. Qed.
Lemma is_dir_empty_sim dir : fsim (is_dir_empty dir) (is_dir_empty dir).
Proof. unfold is_dir_empty. sim_auto. Qed.
Lemma add_to_blocks_sim dir name ino ft l buf :
  fsim (add_to_blocks dir name ino ft l buf) (add_to_blocks dir name ino ft l buf).
Proof. revert buf. induction l; intros; cbn [add_to_blocks]; sim_auto. Qed.
#[local] Hint Resolve add_to_blocks_sim : sim.
Lemma add_dir_entry_sim dir name ino ft :
  fsim (add_dir_entry dir name ino ft) (add_dir_entry dir name ino ft).
Proof. unfold add_dir_entry. sim_auto. Qed.
Lemma remove_from_blocks_sim dir name l buf :
  fsim (remove_from_blocks dir name l buf) (remove_from_blocks dir name l buf).
Proof. revert buf. induction l; intros; cbn [remove_from_blocks]; sim_auto. Qed.
#[local] Hint Resolve remove_from_blocks_sim : sim.
Lemma remove_dir_entry_sim dir name : fsim (remove_dir_entry dir name) (remove_dir_entry dir name).
Proof. unfold remove_dir_entry. sim_auto. Qed.
End dirs_sim.
#[export] Hint Resolve guarded_sim find_entry_sim list_dir_sim is_dir_empty_sim add_dir_entry_sim
  remove_dir_entry_sim : sim.
