(* ===== verification/Ext2File.v ===== *)
(** * Open files ([vfs/ext2/file.rs])

    An open file holds the file system, a copy of its inode, a position and a
    cache of the last index block it read.  The copy loops of [read] and
    [write] move at least one byte per round, so the number of bytes is enough
    fuel. *)

From S2P Require Import Prelude Effects BlockDevice FsTypes Ext2Structs Ext2Fs Ext2Alloc Ext2Blocks.

Record Ext2File (D : Type) : Type := mkFile {
  ef_fs : Ext2Fs D;
  ef_inode : Inode;
  ef_ino : Z;
  ef_size : Z;
  ef_pos : Z;
  ef_cache : option (Z * list Z);
}.
Arguments mkFile {D}.
Arguments ef_fs {D}.
Arguments ef_inode {D}.
Arguments ef_ino {D}.
Arguments ef_size {D}.
Arguments ef_pos {D}.
Arguments ef_cache {D}.

Definition ef_with_fs {D} (fs : Ext2Fs D) (f : Ext2File D) : Ext2File D :=
  mkFile fs (ef_inode f) (ef_ino f) (ef_size f) (ef_pos f) (ef_cache f).
Definition ef_with_inode {D} (i : Inode) (f : Ext2File D) : Ext2File D :=
  mkFile (ef_fs f) i (ef_ino f) (ef_size f) (ef_pos f) (ef_cache f).
Definition ef_with_size {D} (n : Z) (f : Ext2File D) : Ext2File D :=
  mkFile (ef_fs f) (ef_inode f) (ef_ino f) n (ef_pos f) (ef_cache f).
Definition ef_with_pos {D} (n : Z) (f : Ext2File D) : Ext2File D :=
  mkFile (ef_fs f) (ef_inode f) (ef_ino f) (ef_size f) n (ef_cache f).
Definition ef_with_cache {D} (c : option (Z * list Z)) (f : Ext2File D) : Ext2File D :=
  mkFile (ef_fs f) (ef_inode f) (ef_ino f) (ef_size f) (ef_pos f) c.

Definition Ext2File_new {D} (fs : Ext2Fs D) (inode : Inode) (ino : Z) : Ext2File D :=
  mkFile fs inode ino (Inode_size inode) 0 None.

(** [(0..n).map(|i| u32::from_le_bytes(..)).collect()] of an index block. *)
Fixpoint parse_pointers {E} (buf : list Z) (idxs : list Z) : outcome E (list Z) :=
  match idxs with
  | [] => Ok []
  | i :: idxs =>
      p ← read_block_ptr_from_buf buf i;
      ps ← parse_pointers buf idxs;
      Ok (p :: ps)
  end.

(** [pointers.get(index as usize).copied().unwrap_or(0)]. *)
Definition get_or_zero (ps : list Z) (idx : Z) : Z := default 0 (ps !! Z.to_nat idx).

Section file.
Context {D : Type} `{!BlockDevice D}.
Implicit Types f : Ext2File D.

(** A computation of the file system from inside the file. *)
Definition in_fs {A} (m : FsM D A) : ST (Ext2File D) FsError A := zoom ef_fs ef_with_fs id m.
(** A computation on the file system and the file's inode. *)
Definition in_inode {A} (m : ST (Ext2Fs D * Inode) FsError A) : ST (Ext2File D) FsError A :=
  zoom (λ f, (ef_fs f, ef_inode f)) (λ s f, ef_with_inode s.2 (ef_with_fs s.1 f)) id m.

(** ** Lookup with the cache *)
Definition read_cached_ptr (block idx : Z) : ST (Ext2File D) FsError Z :=
  if decide (block = 0) then mret 0
  else
    bs ← in_fs (gets fs_block_size);
    cache ← gets ef_cache;
    let miss :=
      buf ← in_fs (device_read (block * bs) (zeroes bs));
      pointers ← liftO (parse_pointers buf (upto (bs / 4)));
      modify (ef_with_cache (Some (block, pointers)));;
      mret (get_or_zero pointers idx) in
    match cache with
    | Some (cached_block, pointers) =>
        if decide (cached_block = block) then mret (get_or_zero pointers idx) else miss
    | None => miss
    end.

Definition get_block_indirect (file_block ptrs_per_block : Z) : ST (Ext2File D) FsError Z :=
  blocks ← gets (λ f, i_block (ef_inode f));
  let fb := file_block - 12 in
  if decide (fb < ptrs_per_block) then
    root ← liftO (index blocks 12);
    read_cached_ptr root fb
  else
    let fb := fb - ptrs_per_block in
    if decide (fb < ptrs_per_block * ptrs_per_block) then
      root ← liftO (index blocks 13);
      ind ← read_cached_ptr root (fb / ptrs_per_block);
      read_cached_ptr ind (fb mod ptrs_per_block)
    else
      let fb := fb - ptrs_per_block * ptrs_per_block in
      let pp := ptrs_per_block * ptrs_per_block in
      root ← liftO (index blocks 14);
      dbl ← read_cached_ptr root (fb / pp);
      ind ← read_cached_ptr dbl (fb mod pp / ptrs_per_block);
      read_cached_ptr ind (fb mod ptrs_per_block).

Definition Ext2File_get_block (file_block : Z) : ST (Ext2File D) FsError Z :=
  bs ← in_fs (gets fs_block_size);
  if decide (file_block < 12) then
    blocks ← gets (λ f, i_block (ef_inode f));
    liftO (index blocks file_block)
  else get_block_indirect file_block (bs / 4).

(** ** Reading *)

(** [self.pos += chunk]. *)
Definition ef_advance (chunk : Z) : ST (Ext2File D) FsError () :=
  pos ← gets ef_pos;
  pos ← liftO (chk 64 (pos + chunk));
  modify (ef_with_pos pos).

(** [while done < to_read]. *)
Fixpoint read_loop (fuel : nat) (to_read done : Z) (buf : list Z) :
    ST (Ext2File D) FsError (list Z * Z) :=
  match fuel with
  | O => liftO OutOfFuel
  | S fuel =>
      if decide (to_read <= done) then mret (buf, done)
      else
        bs ← in_fs (gets fs_block_size);
        pos ← gets ef_pos;
        let file_block := wrap_u 32 (pos / bs) in
        let block_off := pos mod bs in
        let chunk := Z.min (bs - block_off) (to_read - done) in
        block_num ← Ext2File_get_block file_block;
        part ← (if decide (block_num = 0) then mret (zeroes chunk)
                else old ← liftO (slice buf done (done + chunk));
                     in_fs (device_read (block_num * bs + block_off) old));
        buf ← liftO (copy_at buf done part);
        ef_advance chunk;;
        read_loop fuel to_read (done + chunk) buf
  end.

(** Gives the buffer and the number of bytes read. *)
Definition Ext2File_read (buf : list Z) : ST (Ext2File D) FsError (list Z * Z) :=
  pos ← gets ef_pos;
  size ← gets ef_size;
  if decide (size <= pos) then mret (buf, 0)
  else
    let to_read := Z.min (len buf) (size - pos) in
    read_loop (S (Z.to_nat to_read)) to_read 0 buf.

(** ** Writing *)

(** [if block_num == 0 { .. }]: the block to write to, and whether the inode
    changed. *)
Definition ensure_block (file_block : Z) : ST (Ext2File D) FsError (Z * bool) :=
  block_num ← Ext2File_get_block file_block;
  if decide (block_num = 0) then
    bs ← in_fs (gets fs_block_size);
    b ← in_fs alloc_block;
    in_fs (write_block b (zeroes bs));;
    meta_blocks ← in_inode (set_block_number file_block b);
    inode ← gets ef_inode;
    blocks ← liftO (chk 32 (i_blocks inode + (1 + meta_blocks) * (bs / 512)));
    modify (ef_with_inode (with_blocks inode blocks));;
    (if decide (12 <= file_block) then modify (ef_with_cache None) else mret tt);;
    mret (b, true)
  else mret (block_num, false).

(** [while done < buf.len()]. *)
Fixpoint write_loop (fuel : nat) (buf : list Z) (done : Z) (inode_dirty : bool) :
    ST (Ext2File D) FsError (Z * bool) :=
  match fuel with
  | O => liftO OutOfFuel
  | S fuel =>
      if decide (len buf <= done) then mret (done, inode_dirty)
      else
        bs ← in_fs (gets fs_block_size);
        pos ← gets ef_pos;
        let file_block := wrap_u 32 (pos / bs) in
        let block_off := pos mod bs in
        let chunk := Z.min (bs - block_off) (len buf - done) in
        '(block_num, dirty) ← ensure_block file_block;
        data ← liftO (slice buf done (done + chunk));
        (if decide (chunk = bs) then in_fs (write_block block_num data)
         else
           block_buf ← in_fs (read_block block_num (zeroes bs));
           block_buf ← liftO (copy_at block_buf block_off data);
           in_fs (write_block block_num block_buf));;
        ef_advance chunk;;
        pos ← gets ef_pos;
        size ← gets ef_size;
        extended ← (if decide (size < pos) then
                      modify (ef_with_size pos);;
                      inode ← gets ef_inode;
                      modify (ef_with_inode (Inode_set_size inode pos));;
                      mret true
                    else mret false);
        write_loop fuel buf (done + chunk) (inode_dirty || dirty || extended)
  end.

Definition Ext2File_write (buf : list Z) : ST (Ext2File D) FsError Z :=
  if decide (buf = []) then mret 0
  else
    '(done, inode_dirty) ← write_loop (S (length buf)) buf 0 false;
    (if (inode_dirty : bool) then
       ino ← gets ef_ino;
       inode ← gets ef_inode;
       in_fs (write_inode ino inode)
     else mret tt);;
    mret done.

(** ** Seeking and metadata *)
Definition Ext2File_seek (whence : VfsSeekFrom) : ST (Ext2File D) FsError Z :=
  pos ← gets ef_pos;
  size ← gets ef_size;
  new_pos ← liftO (seek_target pos size whence);
  if decide (new_pos < 0) then fail FsInvalidOffset
  else modify (ef_with_pos new_pos);; mret new_pos.

Definition Ext2File_stat f : FileStat := {|
  st_size := ef_size f; st_is_dir := false; st_mode := i_mode (ef_inode f); st_inode := ef_ino f;
  st_nlinks := i_links_count (ef_inode f); st_mtime := i_mtime (ef_inode f);
  st_ctime := i_ctime (ef_inode f); st_atime := i_atime (ef_inode f);
|}.
End file.

(** ** Simulation *)
Definition ef_view {D} `{ByteDevice D} (f : Ext2File D) : Ext2File RamDisk :=
  mkFile (fs_view (ef_fs f)) (ef_inode f) (ef_ino f) (ef_size f) (ef_pos f) (ef_cache f).

Section file_sim.
Context {D : Type} `{ByteDevice D}.
Abbreviation fsim := (simulates (E:=FsError) (λ fs : Ext2Fs D, bd_wf (fs_device fs))
                       (λ fs, bd_ok (fs_device fs)) fs_view).
Abbreviation isim := (simulates (E:=FsError) (λ s : Ext2Fs D * Inode, bd_wf (fs_device s.1))
                       (λ s, bd_ok (fs_device s.1)) (λ s, (fs_view s.1, s.2))).
Abbreviation efsim := (simulates (E:=FsError) (λ f : Ext2File D, bd_wf (fs_device (ef_fs f)))
                        (λ f, bd_ok (fs_device (ef_fs f))) ef_view).

Lemma in_fs_sim {A} (m : FsM D A) m' : fsim m m' → efsim (in_fs m) (in_fs m').
Proof.
  intros Hm f Hs. specialize (Hm (ef_fs f) Hs). unfold in_fs, zoom.
  destruct (m (ef_fs f)) as [fs1 r]. destruct Hm as [? Hm]. split; [done|].
  intros Hok. destruct (Hm Hok) as [? Hr]. cbn. by rewrite Hr.
Qed.
Lemma in_inode_sim {A} (m : ST (Ext2Fs D * Inode) FsError A) m' : isim m m' → efsim (in_inode m) (in_inode m').
Proof.
  intros Hm f Hs. specialize (Hm (ef_fs f, ef_inode f) Hs). unfold in_inode, zoom.
  destruct (m (ef_fs f, ef_inode f)) as [[fs1 i1] r]. destruct Hm as [? Hm]. split; [done|].
  intros Hok. destruct (Hm Hok) as [? Hr]. cbn in *. by rewrite Hr.
Qed.
Lemma block_size_sim : fsim (gets fs_block_size) (gets fs_block_size).
Proof. by apply sim_gets. Qed.
Lemma ef_cache_sim c : efsim (modify (ef_with_cache c)) (modify (ef_with_cache c)).
Proof. by apply sim_modify. Qed.
Lemma ef_pos_sim n : efsim (modify (ef_with_pos n)) (modify (ef_with_pos n)).
Proof. by apply sim_modify. Qed.
Lemma ef_size_sim n : efsim (modify (ef_with_size n)) (modify (ef_with_size n)).
Proof. by apply sim_modify. Qed.
Lemma ef_inode_sim i : efsim (modify (ef_with_inode i)) (modify (ef_with_inode i)).
Proof. by apply sim_modify. Qed.
#[local] Hint Resolve in_fs_sim in_inode_sim block_size_sim ef_cache_sim ef_pos_sim ef_size_sim ef_inode_sim : sim.

Lemma read_cached_ptr_sim b i : efsim (read_cached_ptr b i) (read_cached_ptr b i).
Proof. unfold read_cached_ptr. sim_auto. Qed.
#[local] Hint Resolve read_cached_ptr_sim : sim.
Lemma get_block_indirect_sim fb p : efsim (get_block_indirect fb p) (get_block_indirect fb p).
Proof. unfold get_block_indirect. sim_auto. Qed.
#[local] Hint Resolve get_block_indirect_sim : sim.
Lemma Ext2File_get_block_sim fb : efsim (Ext2File_get_block fb) (Ext2File_get_block fb).
Proof. unfold Ext2File_get_block. sim_auto. Qed.
Lemma ef_advance_sim n : efsim (ef_advance n) (ef_advance n).
Proof. unfold ef_advance. sim_auto. Qed.
#[local] Hint Resolve Ext2File_get_block_sim ef_advance_sim : sim.
Lemma read_loop_sim fuel n k buf : efsim (read_loop fuel n k buf) (read_loop fuel n k buf).
Proof. revert k buf. induction fuel; intros; cbn [read_loop]; sim_auto. Qed.
#[local] Hint Resolve read_loop_sim : sim.
Lemma Ext2File_read_sim buf : efsim (Ext2File_read buf) (Ext2File_read buf).
Proof. unfold Ext2File_read. sim_auto. Qed.
Lemma ensure_block_sim fb : efsim (ensure_block fb) (ensure_block fb).
Proof. unfold ensure_block. sim_auto. Qed.
#[local] Hint Resolve ensure_block_sim : sim.
Lemma write_loop_sim fuel buf k d : efsim (write_loop fuel buf k d) (write_loop fuel buf k d).
Proof. revert k d. induction fuel; intros; cbn [write_loop]; sim_auto. Qed.
#[local] Hint Resolve write_loop_sim : sim.
Lemma Ext2File_write_sim buf : efsim (Ext2File_write buf) (Ext2File_write buf).
Proof. unfold Ext2File_write. sim_auto. Qed.
Lemma Ext2File_seek_sim w : efsim (Ext2File_seek w) (Ext2File_seek w).
Proof. unfold Ext2File_seek. sim_auto. Qed.
End file_sim.
#[export] Hint Resolve Ext2File_read_sim Ext2File_write_sim Ext2File_seek_sim : sim.
