(* ===== verification/Ext2Ops.v ===== *)
(** * The file system operations ([impl Filesystem for Ext2Fs], [vfs/ext2/mod.rs])

    Path lookup, and the operations that create and remove files and
    directories.  A path is a byte string relative to the mount point. *)

From S2P Require Import Prelude Utf8 Buffers Path Effects BlockDevice FsTypes Ext2Structs Ext2Fs Ext2Alloc Ext2Blocks Ext2Dir Ext2File.

(** ** Paths *)

(** [trim_start_matches('/')]. *)
Fixpoint trim_start (s : list Z) : list Z :=
  match s with
  | b :: rest => if decide (b = SLASH) then trim_start rest else s
  | [] => []
  end.
(** [trim_matches('/')]. *)
Definition trim_slashes (s : list Z) : list Z := rev (trim_start (rev (trim_start s))).

(** [path.split('/').filter(|s| !s.is_empty())]. *)
Definition path_components (s : list Z) : list (list Z) := filter (.≠ []) (pieces s).

(** [path.rfind('/')]. *)
Fixpoint rfind_slash (s : list Z) (i : Z) (last : option Z) : option Z :=
  match s with
  | [] => last
  | b :: rest => rfind_slash rest (i + 1) (if decide (b = SLASH) then Some i else last)
  end.

Definition split_parent_name (path : list Z) : outcome FsError (list Z * list Z) :=
  let path := trim_slashes path in
  if decide (path = []) then Err FsNotFound
  else match rfind_slash path 0 None with
       | Some idx =>
           parent ← slice path 0 idx;
           name ← slice path (idx + 1) (len path);
           Ok (parent, name)
       | None => Ok ([], path)
       end.

Definition MODE_MASK : Z := 0xFFF.

(** The inode [create] and [mkdir] write. *)
Definition new_inode (mode size links blocks first_block : Z) : Inode :=
  Build_Inode mode 0 size 0 0 0 0 0 links blocks 0 0 (first_block :: zeroes 14) 0 0 0 0 (zeroes 12).

Section ops.
Context {D : Type} `{!BlockDevice D}.

(** The loop of [lookup] over the components. *)
Fixpoint lookup_from (current : Z) (components : list (list Z)) : FsM D Z :=
  match components with
  | [] => mret current
  | c :: rest =>
      if decide (c = [DOT] ∨ c = [DOT; DOT]) then fail FsNotFound
      else
        inode ← read_inode current;
        if negb (Inode_is_dir inode) then fail FsNotFound
        else
          next ← find_entry inode c;
          lookup_from next rest
  end.

Definition Ext2_lookup (path : list Z) : FsM D Z :=
  let path := trim_slashes path in
  if decide (path = []) then mret EXT2_ROOT_INO
  else lookup_from EXT2_ROOT_INO (path_components path).

(** The inode and inode number of the [Ext2File] that [open] builds. *)
Definition Ext2_open (path : list Z) : FsM D (Inode * Z) :=
  ino ← Ext2_lookup path;
  inode ← read_inode ino;
  if negb (Inode_is_file inode) then fail FsNotFound
  else mret (inode, ino).

Definition Ext2_stat (path : list Z) : FsM D FileStat :=
  ino ← Ext2_lookup path;
  inode ← read_inode ino;
  mret {| st_size := Inode_size inode; st_is_dir := Inode_is_dir inode; st_mode := i_mode inode;
          st_inode := ino; st_nlinks := i_links_count inode; st_mtime := i_mtime inode;
          st_ctime := i_ctime inode; st_atime := i_atime inode |}.

Definition Ext2_readdir (path : list Z) : FsM D (list FsDirEntry) :=
  ino ← Ext2_lookup path;
  inode ← read_inode ino;
  if negb (Inode_is_dir inode) then fail FsNotFound
  else list_dir inode.

(** The parent directory of a path and the last name: the start of the four
    operations that change a directory. *)
Definition resolve_parent (path : list Z) : FsM D (Z * Inode * list Z) :=
  '(parent_path, name) ← liftO (split_parent_name path);
  parent_ino ← Ext2_lookup parent_path;
  parent_inode ← read_inode parent_ino;
  if negb (Inode_is_dir parent_inode) then fail FsNotFound
  else mret (parent_ino, parent_inode, name).

Definition Ext2_create (path : list Z) (mode : Z) : FsM D (Inode * Z) :=
  '(parent_ino, parent_inode, file_name) ← resolve_parent path;
  existing ← try_ (find_entry parent_inode file_name);
  match existing with
  | inr _ => fail FsAlreadyExists
  | inl _ =>
      ino ← alloc_inode;
      let inode := new_inode (Z.lor S_IFREG (Z.land mode MODE_MASK)) 0 1 0 0 in
      '(new_ino, updated_parent) ← add_dir_entry parent_inode file_name ino FT_REG_FILE;
      write_inode new_ino inode;;
      write_inode parent_ino updated_parent;;
      mret (inode, new_ino)
  end.

Definition Ext2_unlink (path : list Z) : FsM D () :=
  '(parent_ino, parent_inode, file_name) ← resolve_parent path;
  '(target_ino, updated_parent) ← remove_dir_entry parent_inode file_name;
  write_inode parent_ino updated_parent;;
  target_inode ← read_inode target_ino;
  let target_inode := with_links_count target_inode (Z.max 0 (i_links_count target_inode - 1)) in
  if decide (i_links_count target_inode = 0) then
    free_inode_blocks target_inode;;
    let target_inode := with_blocks (Inode_set_size (with_dtime target_inode 1) 0) 0 in
    write_inode target_ino target_inode;;
    free_inode target_ino
  else write_inode target_ino target_inode.

Definition Ext2_mkdir (path : list Z) (mode : Z) : FsM D () :=
  '(parent_ino, parent_inode, dir_name) ← resolve_parent path;
  existing ← try_ (find_entry parent_inode dir_name);
  match existing with
  | inr _ => fail FsAlreadyExists
  | inl _ =>
      bs ← gets fs_block_size;
      ino ← alloc_inode;
      initial_block ← guarded (FreeInode ino) alloc_block;
      '(new_ino, updated_parent) ←
        guarded (FreeBlock initial_block) (add_dir_entry parent_inode dir_name ino FT_DIR);
      let inode := new_inode (Z.lor S_IFDIR (Z.land mode MODE_MASK)) bs 2 (bs / 512) initial_block in
      init_buf ← liftO (init_dir_block bs new_ino parent_ino);
      guarded (FreeBlock initial_block) (write_block initial_block init_buf);;
      guarded (FreeBlock initial_block) (write_inode new_ino inode);;
      links ← liftO (chk 16 (i_links_count updated_parent + 1));
      write_inode parent_ino (with_links_count updated_parent links);;
      inc_used_dirs_count new_ino
  end.

Definition Ext2_rmdir (path : list Z) : FsM D () :=
  '(parent_path, dir_name) ← liftO (split_parent_name path);
  if decide (dir_name = [] ∨ trim_slashes path = []) then fail FsIoError
  else
    parent_ino ← Ext2_lookup parent_path;
    parent_inode ← read_inode parent_ino;
    if negb (Inode_is_dir parent_inode) then fail FsNotFound
    else
      target_ino ← find_entry parent_inode dir_name;
      target_inode ← read_inode target_ino;
      if negb (Inode_is_dir target_inode) then fail FsNotDirectory
      else
        empty ← is_dir_empty target_inode;
        if negb empty then fail FsNotEmpty
        else
          '(_, updated_parent) ← remove_dir_entry parent_inode dir_name;
          free_inode_blocks target_inode;;
          let deleted := with_links_count (with_blocks (Inode_set_size (with_dtime target_inode 1) 0) 0) 0 in
          write_inode target_ino deleted;;
          free_inode target_ino;;
          write_inode parent_ino
            (with_links_count updated_parent (Z.max 0 (i_links_count updated_parent - 1)));;
          dec_used_dirs_count target_ino.

(** The tasks spawned by dropped guards, run in order; their results are
    ignored. *)
Definition run_cleanups : FsM D () :=
  cs ← gets fs_spawned;
  modify (λ fs, mkFs (fs_device fs) (fs_block_size fs) (fs_inode_size fs) (fs_blocks_count fs)
                  (fs_inodes_per_group fs) (fs_superblock fs) (fs_block_groups fs) []);;
  for_each cs (λ c,
    try_ (match c with FreeInode ino => free_inode ino | FreeBlock b => free_block b end);; mret tt).
End ops.

(** ** Simulation *)
Section ops_sim.
Context {D : Type} `{ByteDevice D}.
Abbreviation fsim := (simulates (E:=FsError) (λ fs : Ext2Fs D, bd_wf (fs_device fs))
                       (λ fs, bd_ok (fs_device fs)) fs_view).

Lemma lookup_from_sim i l : fsim (lookup_from i l) (lookup_from i l).
Proof. revert i. induction l; intros; cbn [lookup_from]; sim_auto. Qed.
#[local] Hint Resolve lookup_from_sim : sim.
Lemma Ext2_lookup_sim p : fsim (Ext2_lookup p) (Ext2_lookup p).
Proof. unfold Ext2_lookup. sim_auto. Qed.
#[local] Hint Resolve Ext2_lookup_sim : sim.
Lemma Ext2_open_sim p : fsim (Ext2_open p) (Ext2_open p).
Proof. unfold Ext2_open. sim_auto. Qed.
Lemma Ext2_stat_sim p : fsim (Ext2_stat p) (Ext2_stat p).
Proof. unfold Ext2_stat. sim_auto. Qed.
Lemma Ext2_readdir_sim p : fsim (Ext2_readdir p) (Ext2_readdir p).
Proof. unfold Ext2_readdir. sim_auto. Qed.
Lemma resolve_parent_sim p : fsim (resolve_parent p) (resolve_parent p).
Proof. unfold resolve_parent. sim_auto. Qed.
#[local] Hint Resolve resolve_parent_sim : sim.
Lemma Ext2_create_sim p m : fsim (Ext2_create p m) (Ext2_create p m).
Proof. unfold Ext2_create. sim_auto. Qed.
Lemma Ext2_unlink_sim p : fsim (Ext2_unlink p) (Ext2_unlink p).
Proof. unfold Ext2_unlink. sim_auto. Qed.
Lemma Ext2_mkdir_sim p m : fsim (Ext2_mkdir p m) (Ext2_mkdir p m).
Proof. unfold Ext2_mkdir. sim_auto. Qed.
Lemma Ext2_rmdir_sim p : fsim (Ext2_rmdir p) (Ext2_rmdir p).
Proof. unfold Ext2_rmdir. sim_auto. Qed.
Lemma run_cleanups_sim : fsim run_cleanups run_cleanups.
Proof. unfold run_cleanups. sim_auto. by apply sim_modify. Qed.
End ops_sim.
#[export] Hint Resolve Ext2_open_sim Ext2_stat_sim Ext2_readdir_sim Ext2_create_sim Ext2_unlink_sim
  Ext2_mkdir_sim Ext2_rmdir_sim run_cleanups_sim : sim.
