(* ===== verification/Ext2Session.v ===== *)
(** * Sessions with a mounted file system

    A client mounts a device and makes calls: the operations of [Filesystem],
    and those of [File] on the files it has open.  The open files share the
    file system; each keeps its own copy of the inode, its position and its
    index cache from one call to the next.  A call that fails leaves the
    session running; the tasks spawned by dropped guards run when the client
    yields to the executor. *)

From S2P Require Import Prelude Utf8 Effects BlockDevice VirtioBlock FsTypes Ext2Structs Ext2Fs Ext2Alloc Ext2Layout Ext2Image Ext2Blocks Ext2Dir Ext2File Ext2Ops.

(** ** Open files *)
Record OpenFile : Type := mkOpen {
  of_inode : Inode;
  of_ino : Z;
  of_size : Z;
  of_pos : Z;
  of_cache : option (Z * list Z);
}.

Definition file_of {D} (fs : Ext2Fs D) (o : OpenFile) : Ext2File D :=
  mkFile fs (of_inode o) (of_ino o) (of_size o) (of_pos o) (of_cache o).
Definition open_of {D} (f : Ext2File D) : OpenFile :=
  mkOpen (ef_inode f) (ef_ino f) (ef_size f) (ef_pos f) (ef_cache f).

(** ** Calls *)
Inductive call : Type :=
| COpen (path : list Z)
| CCreate (path : list Z) (mode : Z)
| CRead (file : nat) (n : Z)
| CWrite (file : nat) (data : list Z)
| CSeek (file : nat) (whence : VfsSeekFrom)
| CFstat (file : nat)
| CStat (path : list Z)
| CReaddir (path : list Z)
| CUnlink (path : list Z)
| CMkdir (path : list Z) (mode : Z)
| CRmdir (path : list Z)
| CYield.

Inductive reply : Type :=
| RUnit
| RFile (file : nat)
| RBytes (bs : list Z)
| RCount (n : Z)
| RStat (st : FileStat)
| REntries (es : list FsDirEntry).

Record Session (D : Type) : Type := mkSession { se_fs : Ext2Fs D; se_files : list OpenFile }.
Arguments mkSession {D}.
Arguments se_fs {D}.
Arguments se_files {D}.

Section session.
Context {D : Type} `{!BlockDevice D}.

Definition on_se_fs {A} (m : FsM D A) : ST (Session D) FsError A :=
  zoom se_fs (λ fs s, mkSession fs (se_files s)) id m.

(** An operation on an open file; a client has no others. *)
Definition on_file {A} (file : nat) (m : ST (Ext2File D) FsError A) : ST (Session D) FsError A := λ s,
  match se_files s !! file with
  | None => (s, Err FsNotFound)
  | Some o =>
      let '(f, r) := m (file_of (se_fs s) o) in
      (mkSession (ef_fs f) (<[file := open_of f]> (se_files s)), r)
  end.

(** [Box::new(Ext2File::new(..))]. *)
Definition add_file (inode : Inode) (ino : Z) : ST (Session D) FsError nat := λ s,
  (mkSession (se_fs s) (se_files s ++ [open_of (Ext2File_new (se_fs s) inode ino)]),
   Ok (length (se_files s))).

Definition run_call (c : call) : ST (Session D) FsError reply :=
  match c with
  | COpen path => '(inode, ino) ← on_se_fs (Ext2_open path); h ← add_file inode ino; mret (RFile h)
  | CCreate path mode =>
      '(inode, ino) ← on_se_fs (Ext2_create path mode); h ← add_file inode ino; mret (RFile h)
  | CRead h n =>
      '(buf, k) ← on_file h (Ext2File_read (zeroes n)); mret (RBytes (take (Z.to_nat k) buf))
  | CWrite h data => n ← on_file h (Ext2File_write data); mret (RCount n)
  | CSeek h whence => n ← on_file h (Ext2File_seek whence); mret (RCount n)
  | CFstat h => st ← on_file h (gets Ext2File_stat); mret (RStat st)
  | CStat path => st ← on_se_fs (Ext2_stat path); mret (RStat st)
  | CReaddir path => es ← on_se_fs (Ext2_readdir path); mret (REntries es)
  | CUnlink path => on_se_fs (Ext2_unlink path);; mret RUnit
  | CMkdir path mode => on_se_fs (Ext2_mkdir path mode);; mret RUnit
  | CRmdir path => on_se_fs (Ext2_rmdir path);; mret RUnit
  | CYield => on_se_fs run_cleanups;; mret RUnit
  end.

(** The calls in turn, each error a reply. *)
Fixpoint run_calls (cs : list call) : ST (Session D) FsError (list (FsError + reply)) :=
  match cs with
  | [] => mret []
  | c :: cs => r ← try_ (run_call c); rs ← run_calls cs; mret (r :: rs)
  end.
End session.

(** A device is mounted and used. *)
Definition session {D} `{!BlockDevice D} (cs : list call) (d : D) :
    D * outcome MountError (list (FsError + reply)) :=
  match Ext2_mount d with
  | (d', Ok fs) =>
      match run_calls cs (mkSession fs []) with
      | (s, Ok rs) => (fs_device (se_fs s), Ok rs)
      | (s, _) => (fs_device (se_fs s), Panic)
      end
  | (d', Err e) => (d', Err e)
  | (d', Panic) => (d', Panic)
  | (d', OutOfFuel) => (d', OutOfFuel)
  end.

(** ** Sessions over a device are sessions over its bytes *)
Section session_sim.
Context {D : Type} `{ByteDevice D}.
Abbreviation fsim := (simulates (E:=FsError) (λ fs : Ext2Fs D, bd_wf (fs_device fs))
                       (λ fs, bd_ok (fs_device fs)) fs_view).
Abbreviation efsim := (simulates (E:=FsError) (λ f : Ext2File D, bd_wf (fs_device (ef_fs f)))
                        (λ f, bd_ok (fs_device (ef_fs f))) ef_view).
Definition se_view (s : Session D) : Session RamDisk := mkSession (fs_view (se_fs s)) (se_files s).
Abbreviation ssim := (simulates (E:=FsError) (λ s : Session D, bd_wf (fs_device (se_fs s)))
                       (λ s, bd_ok (fs_device (se_fs s))) se_view).

Lemma on_se_fs_sim {A} (m : FsM D A) m' : fsim m m' → ssim (on_se_fs m) (on_se_fs m').
Proof.
  intros Hm s Hs. specialize (Hm (se_fs s) Hs). unfold on_se_fs, zoom.
  destruct (m (se_fs s)) as [fs1 r]. destruct Hm as [? Hm]. split; [done|].
  intros Hok. destruct (Hm Hok) as [? Hr]. cbn. by rewrite Hr.
Qed.
Lemma on_file_sim {A} h (m : ST (Ext2File D) FsError A) m' : efsim m m' → ssim (on_file h m) (on_file h m').
Proof.
  intros Hm s Hs. unfold on_file. cbn [se_view se_files].
  destruct (se_files s !! h) as [o|]; [|done]. specialize (Hm (file_of (se_fs s) o) Hs).
  destruct (m _) as [f r]. destruct Hm as [? Hm]. split; [done|].
  intros Hok. destruct (Hm Hok) as [? Hr]. split; [done|]. cbn in *.
  change (file_of (fs_view (se_fs s)) o) with (ef_view (file_of (se_fs s) o)). by rewrite Hr.
Qed.
Lemma add_file_sim i n : ssim (add_file i n) (add_file i n).
Proof. by intros s Hs. Qed.
Lemma file_stat_sim : efsim (gets Ext2File_stat) (gets Ext2File_stat).
Proof. by apply sim_gets. Qed.
#[local] Hint Resolve on_se_fs_sim on_file_sim add_file_sim file_stat_sim : sim.

Lemma run_call_sim c : ssim (run_call c) (run_call c).
Proof. destruct c; cbn [run_call]; sim_auto. Qed.
#[local] Hint Resolve run_call_sim : sim.
Lemma run_calls_sim cs : ssim (run_calls cs) (run_calls cs).
Proof. induction cs; cbn [run_calls]; sim_auto. Qed.

(** Mounting gives a file system, which the array sees through [fs_view]. *)
Definition mounts (m : ST D MountError (Ext2Fs D)) (m' : ST RamDisk MountError (Ext2Fs RamDisk)) : Prop :=
  ∀ d, bd_wf d → let '(d', r) := m d in
    bd_wf d' ∧ (∀ fs, r = Ok fs → fs_device fs = d') ∧
    (bd_ok d' → bd_ok d ∧ m' (bd_bytes d) = (bd_bytes d', fs_view <$> r)).

Lemma mounts_fail e : mounts (fail e) (fail e).
Proof. by intros d Hd. Qed.

Lemma mounts_bind {A} (m : ST D MountError A) m' k k' :
  simulates bd_wf bd_ok bd_bytes m m' → (∀ a, mounts (k a) (k' a)) → mounts (m ≫= k) (m' ≫= k').
Proof.
  intros Hm Hk d Hd. specialize (Hm d Hd). unfold mbind, ST_bind.
  destruct (m d) as [d1 [a|e| |]]; destruct Hm as [Hd1 Hm].
  2-4: split_and!; [done..|]; intros Hok; destruct (Hm Hok) as [? ->]; done.
  specialize (Hk a d1 Hd1). destruct (k a d1) as [d2 r]. destruct Hk as (? & ? & Hk).
  split_and!; [done..|]. intros Hok. destruct (Hk Hok) as [Hok1 Hk']. destruct (Hm Hok1) as [? ->]. done.
Qed.

Lemma read_at_zeroed_sim off n e :
  simulates bd_wf bd_ok bd_bytes (read_at_zeroed (D:=D) off n e) (read_at_zeroed off n e).
Proof.
  apply sim_bind_chk. intros Ho. apply sim_bind; [|intros; apply sim_ret].
  intros d Hd. unfold zoom. pose proof (bd_read_refines off (len (zeroes n)) (proj1 Ho) (len_nonneg _) d Hd) as Hr.
  cbn [id] in *. destruct (bd_read_at off _ d) as [d1 r]. destruct Hr as [? Hr]. split; [done|].
  intros Hok. destruct (Hr Hok) as [? Hr']. split; [done|].
  cbn [bd_read_at RamDisk_dev id]. by rewrite Hr'.
Qed.

Lemma mount_sim : mounts Ext2_mount Ext2_mount.
Proof.
  unfold Ext2_mount.
  repeat first [apply mounts_fail | apply mounts_bind; [apply read_at_zeroed_sim || apply sim_liftO|intros ?] | case_decide].
  intros d Hd. split_and!; [done| |done]. by intros fs [= <-].
Qed.
End session_sim.


(** ** A session on the small image: a directory, a file with a hole, errors,
    and removal of both. *)
Definition demo_calls : list call :=
  [ CMkdir [100] 0x1ED; CCreate [100; 47; 102] 0x1A4; CWrite 0 [1; 2; 3];
    CSeek 0 (SeekStart 2047); CWrite 0 [4; 5; 6]; CSeek 0 (SeekStart 1); CRead 0 4;
    CSeek 0 (SeekEnd (-4)); CRead 0 100; CReaddir [100]; CMkdir [100] 0; CRmdir [100];
    COpen [120]; CUnlink [100; 47; 102]; CRmdir [100]; CReaddir []; CYield ].
Definition demo_replies : list (FsError + reply) :=
  [ inr RUnit; inr (RFile 0); inr (RCount 3); inr (RCount 2047); inr (RCount 3); inr (RCount 1);
    inr (RBytes [2; 3; 0; 0]); inr (RCount 2046); inr (RBytes [0; 4; 5; 6]);
    inr (REntries [{| fde_name := [102]; fde_is_dir := false |}]); inl FsAlreadyExists; inl FsNotEmpty;
    inl FsNotFound; inr RUnit; inr RUnit; inr (REntries []); inr RUnit ].

Definition demo_disk : FaultyDisk := {| fd_data := tiny_disk; fd_faults := []; fd_failed := false |}.

