(* ===== verification/Ext2DirProof.v ===== *)
(** * Directory blocks as lists of entries

    [chain] reads a block as the list of its live entries: it is total on any
    bytes and every scan of the driver is a computation on this list. *)

From S2P Require Import Prelude Utf8 Effects BlockDevice FsTypes Ext2Structs Ext2Fs Ext2Alloc Ext2Layout Ext2Image Ext2Blocks Ext2Dir.

(** ** Entries *)
Record entry : Type := { en_name : list Z; en_ino : Z; en_type : Z }.

(** The header at [pos], and the name after it. *)
Definition header (buf : list Z) (pos : Z) : DirEntryRaw :=
  match fields_of_bytes DirEntryRaw_layout (sub buf pos 8) with
  | [a; b; c; d] => Build_DirEntryRaw a b c d
  | _ => Build_DirEntryRaw 0 0 0 0
  end.
Definition name_at (buf : list Z) (pos : Z) : list Z :=
  sub buf (pos + 8) (de_name_len (header buf pos)).

(** A record that a scan of a block of [n] bytes follows. *)
Definition valid_rec (n : Z) (buf : list Z) (pos : Z) : Prop :=
  pos + 8 <= n ∧ 8 <= de_rec_len (header buf pos) ∧ pos + de_rec_len (header buf pos) <= n.
#[export] Instance valid_rec_dec n buf pos : Decision (valid_rec n buf pos).
Proof. unfold valid_rec. apply _. Defined.

(** A record that carries an entry. *)
Definition live (buf : list Z) (pos : Z) : Prop :=
  de_inode (header buf pos) ≠ 0 ∧ de_name_len (header buf pos) <= de_rec_len (header buf pos) - 8.
#[export] Instance live_dec buf pos : Decision (live buf pos).
Proof. unfold live. apply _. Defined.

Definition entry_at (buf : list Z) (pos : Z) : list entry :=
  if decide (live buf pos)
  then [{| en_name := name_at buf pos; en_ino := de_inode (header buf pos);
           en_type := de_file_type (header buf pos) |}]
  else [].

Lemma entry_at_live buf pos :
  live buf pos →
  entry_at buf pos = [{| en_name := name_at buf pos; en_ino := de_inode (header buf pos);
                         en_type := de_file_type (header buf pos) |}].
Proof. intros Hl. unfold entry_at. by rewrite decide_True. Qed.
Lemma entry_at_dead buf pos : de_inode (header buf pos) = 0 → entry_at buf pos = [].
Proof. intros Hi. unfold entry_at. rewrite decide_False; [done|]. intros [? _]. done. Qed.

(** The entries of a block of [n] bytes from [pos] on. *)
Inductive chain (n : Z) (buf : list Z) : Z → list entry → Prop :=
| chain_end pos : ¬ valid_rec n buf pos → chain n buf pos []
| chain_rec pos es :
    valid_rec n buf pos → chain n buf (pos + de_rec_len (header buf pos)) es →
    chain n buf pos (entry_at buf pos ++ es).

(** The same as a function, for evaluation. *)
Fixpoint entries_from (fuel : nat) (n : Z) (buf : list Z) (pos : Z) : list entry :=
  match fuel with
  | O => []
  | S fuel =>
      if decide (valid_rec n buf pos)
      then entry_at buf pos ++ entries_from fuel n buf (pos + de_rec_len (header buf pos))
      else []
  end.
Definition dir_entries (buf : list Z) : list entry :=
  entries_from (walk_fuel (len buf)) (len buf) buf 0.

Lemma chain_det n buf pos es es' : chain n buf pos es → chain n buf pos es' → es = es'.
Proof.
  intros Hc. revert es'. induction Hc as [pos Hv|pos es Hv Hc IH]; intros es' Hc';
    inversion Hc'; subst; try done. f_equal. auto.
Qed.

Lemma chain_entries_from fuel n buf pos :
  0 <= pos → n - pos < Z.of_nat fuel → chain n buf pos (entries_from fuel n buf pos).
Proof.
  revert pos. induction fuel as [|fuel IH]; intros pos Hp Hf.
  { apply chain_end. unfold valid_rec. lia. }
  cbn [entries_from]. case_decide as Hv; [|by apply chain_end].
  apply chain_rec; [done|]. destruct Hv as (? & ? & ?). apply IH; lia.
Qed.

(** Every block is the chain of its entries. *)
Lemma chain_dir_entries buf : chain (len buf) buf 0 (dir_entries buf).
Proof.
  pose proof (len_nonneg buf). apply chain_entries_from; unfold walk_fuel; lia.
Qed.

(** The chain depends on the bytes from [pos] on. *)
Definition agree_from (a : Z) (buf buf' : list Z) : Prop :=
  ∀ i : nat, a <= Z.of_nat i → buf !! i = buf' !! i.
Definition agree_below (a : Z) (buf buf' : list Z) : Prop :=
  ∀ i : nat, Z.of_nat i < a → buf !! i = buf' !! i.

Lemma header_ext buf buf' pos :
  0 <= pos → (∀ i : nat, pos <= Z.of_nat i < pos + 8 → buf !! i = buf' !! i) →
  header buf pos = header buf' pos.
Proof. intros Hp Hi. unfold header. rewrite (sub_ext buf buf' pos 8) by (lia || done). done. Qed.

Lemma name_len_range buf pos : Forall is_u8 buf → 0 <= de_name_len (header buf pos).
Proof.
  intros Hu. unfold header. cbn.
  pose proof (from_le_bytes_bound (take 1 (drop 2 (drop 4 (sub buf pos 8))))) as Hb.
  unfold in_u in Hb. apply Hb. by apply Forall_take, Forall_drop, Forall_drop, Forall_sub.
Qed.

Lemma entry_at_ext buf buf' pos :
  0 <= pos → Forall is_u8 buf →
  (∀ i : nat, pos <= Z.of_nat i < pos + de_rec_len (header buf pos) → buf !! i = buf' !! i) →
  8 <= de_rec_len (header buf pos) →
  entry_at buf pos = entry_at buf' pos.
Proof.
  intros Hp Hu Hi H8. pose proof (name_len_range buf pos Hu).
  assert (header buf pos = header buf' pos) as Hh by (apply header_ext; [done|]; intros; apply Hi; lia).
  assert (live buf pos ↔ live buf' pos) as Hl by (unfold live; by rewrite Hh).
  unfold entry_at. destruct (decide (live buf pos)) as [Hlv|Hlv], (decide (live buf' pos));
    try done; try tauto.
  destruct Hlv as [_ Hn]. unfold name_at. rewrite <- Hh. do 2 f_equal. apply sub_ext; [lia..|]. intros i Hr. apply Hi. lia.
Qed.

Lemma chain_ext n buf buf' pos es :
  0 <= pos → Forall is_u8 buf → agree_from pos buf buf' → chain n buf pos es → chain n buf' pos es.
Proof.
  intros Hp Hu Ha Hc. induction Hc as [pos Hv|pos es Hv Hc IH].
  - apply chain_end. unfold valid_rec in *.
    rewrite <- (header_ext buf buf' pos); [done|done|]. intros i Hi. apply Ha. lia.
  - destruct Hv as (H8 & Hr & Hn).
    assert (header buf pos = header buf' pos) as Hh.
    { apply header_ext; [done|]. intros i Hi. apply Ha. lia. }
    rewrite (entry_at_ext buf buf') by (done || intros; apply Ha; lia).
    apply chain_rec; [unfold valid_rec; by rewrite <- Hh|]. rewrite <- Hh. apply IH; [lia|].
    intros i Hi. apply Ha. lia.
Qed.

(** ** Well-formed blocks

    The records tile the block and every entry's name fits its record. *)
Inductive tiled (n : Z) (buf : list Z) : Z → Prop :=
| tiled_end : tiled n buf n
| tiled_rec pos :
    valid_rec n buf pos →
    (de_inode (header buf pos) ≠ 0 →
     entry_size (de_name_len (header buf pos)) <= de_rec_len (header buf pos)) →
    tiled n buf (pos + de_rec_len (header buf pos)) → tiled n buf pos.

Lemma tiled_ext n buf buf' pos :
  0 <= pos → agree_from pos buf buf' → tiled n buf pos → tiled n buf' pos.
Proof.
  intros Hp Ha Ht. induction Ht as [|pos Hv Hf Ht IH]; [constructor|].
  pose proof Hv as (H8 & Hr & Hle).
  assert (header buf pos = header buf' pos) as Hh by (apply header_ext; [done|]; intros; apply Ha; lia).
  apply tiled_rec; unfold valid_rec; rewrite <- Hh; try done. apply IH; [lia|]. intros i Hi. apply Ha. lia.
Qed.

Lemma tiled_step n buf pos :
  valid_rec n buf pos → tiled n buf pos → 0 <= pos →
  (de_inode (header buf pos) ≠ 0 →
   entry_size (de_name_len (header buf pos)) <= de_rec_len (header buf pos)) ∧
  tiled n buf (pos + de_rec_len (header buf pos)).
Proof. intros Hv Ht Hp. inversion Ht; [|done]. subst. unfold valid_rec in Hv. lia. Qed.

(** A change after the record at [pos] keeps that record. *)
Lemma below_header n buf buf' pos :
  0 <= pos → valid_rec n buf pos → agree_below (pos + de_rec_len (header buf pos)) buf buf' →
  header buf' pos = header buf pos.
Proof.
  intros Hp (H8 & Hr & Hle) Ha. symmetry. apply header_ext; [done|]. intros i Hi. apply Ha. lia.
Qed.
Lemma chain_below n buf buf' pos es :
  0 <= pos → Forall is_u8 buf → valid_rec n buf pos →
  agree_below (pos + de_rec_len (header buf pos)) buf buf' →
  chain n buf' (pos + de_rec_len (header buf pos)) es → chain n buf' pos (entry_at buf pos ++ es).
Proof.
  intros Hp Hu Hv Ha Hc. pose proof (below_header n buf buf' pos Hp Hv Ha) as Hh.
  rewrite (entry_at_ext buf buf') by (apply Hv || done || intros; apply Ha; lia).
  apply chain_rec; [unfold valid_rec|]; by rewrite Hh.
Qed.
Lemma tiled_below n buf buf' pos :
  0 <= pos → valid_rec n buf pos → tiled n buf pos →
  agree_below (pos + de_rec_len (header buf pos)) buf buf' →
  tiled n buf' (pos + de_rec_len (header buf pos)) → tiled n buf' pos.
Proof.
  intros Hp Hv Ht Ha Hc. pose proof (below_header n buf buf' pos Hp Hv Ha) as Hh.
  destruct (tiled_step n buf pos Hv Ht Hp) as [Hf _].
  apply tiled_rec; [unfold valid_rec|..]; by rewrite Hh.
Qed.

(** ** The walk *)
Lemma read_entry_header {E} buf pos : read_entry (E:=E) buf pos = Ok (header buf pos).
Proof. done. Qed.

(** A callback that looks at the entry only. *)
Definition on_entry {A T} (g : A → entry → A * option T) (acc : A) (e : DirEntryRaw) (nm : list Z) :=
  g acc {| en_name := nm; en_ino := de_inode e; en_type := de_file_type e |}.

(** Visits the entries until the callback breaks. *)
Fixpoint visit {A T} (g : A → entry → A * option T) (acc : A) (es : list entry) : A * option T :=
  match es with
  | [] => (acc, None)
  | e :: es =>
      match g acc e with
      | (acc, Some t) => (acc, Some t)
      | (acc, None) => visit g acc es
      end
  end.

Lemma slice_name {E} n buf pos :
  len buf = n → Forall is_u8 buf → 0 <= pos → valid_rec n buf pos →
  de_name_len (header buf pos) <= de_rec_len (header buf pos) - 8 →
  slice (E:=E) buf (pos + 8) (pos + 8 + de_name_len (header buf pos)) = Ok (name_at buf pos).
Proof.
  intros Hn Hu Hp (H8 & Hr & Hle) Hname. pose proof (name_len_range buf pos Hu).
  unfold slice, get_range. rewrite decide_True by lia. unfold name_at, sub.
  by replace (pos + 8 + de_name_len (header buf pos) - (pos + 8))
    with (de_name_len (header buf pos)) by lia.
Qed.

Lemma walk_block_chain {E A T} (g : A → entry → A * option T) n buf pos es fuel acc :
  len buf = n → Forall is_u8 buf → 0 <= pos <= n → n - pos < Z.of_nat fuel → chain n buf pos es →
  walk_block (E:=E) fuel n buf pos (on_entry g) acc = Ok (visit g acc es).
Proof.
  intros Hn Hu. revert pos es acc. induction fuel as [|fuel IH]; intros pos es acc Hp Hf Hc.
  { lia. }
  cbn [walk_block]. inversion Hc as [? Hv|? es' Hv Hc']; subst.
  - destruct (decide (len buf <= pos)); [done|]. destruct (decide (len buf < pos + 8)); [done|].
    rewrite read_entry_header. cbn [mbind outcome_bind]. rewrite decide_True; [done|].
    unfold valid_rec in Hv. lia.
  - pose proof Hv as (H8 & Hr & Hle). rewrite !decide_False by lia.
    rewrite read_entry_header. cbn [mbind outcome_bind]. rewrite decide_False by lia.
    unfold entry_at. destruct (decide (live buf pos)) as [[Hi Hname]|Hl].
    + rewrite (decide_False (P:=de_inode _ = 0)) by done. rewrite decide_False by lia.
      rewrite (slice_name (len buf)) by (done || lia). cbn [mbind outcome_bind].
      unfold on_entry at 1. cbn [app visit].
      destruct (g acc _) as [acc' [t|]]; [done|]. apply IH; [lia..|done].
    + assert ((if decide (de_inode (header buf pos) = 0) then Ok (acc, None)
               else if decide (de_rec_len (header buf pos) - 8 < de_name_len (header buf pos))
               then Ok (acc, None)
               else name ← slice (E:=E) buf (pos + 8) (pos + 8 + de_name_len (header buf pos));
                    Ok (on_entry g acc (header buf pos) name)) = Ok (acc, None)) as ->.
      { unfold live in Hl. repeat case_decide; try done. exfalso. apply Hl. split; [done|lia]. }
      cbn [mbind outcome_bind]. apply IH; [lia..|done].
Qed.

(** The walk of a whole block visits its entries. *)
Lemma walk_block_entries {E A T} (g : A → entry → A * option T) buf acc :
  Forall is_u8 buf →
  walk_block (E:=E) (walk_fuel (len buf)) (len buf) buf 0 (on_entry g) acc =
    Ok (visit g acc (dir_entries buf)).
Proof.
  intros Hu. pose proof (len_nonneg buf).
  apply walk_block_chain; [done|done|lia|unfold walk_fuel; lia|apply chain_dir_entries].
Qed.

(** ** Records as bytes *)
Lemma align4_eq v : 0 <= v < 2 ^ 63 → align4 v = (v + 3) / 4 * 4.
Proof.
  intros Hv. unfold align4. change (2 ^ 64 - 1 - 3) with (Z.shiftl (Z.ones 62) 2).
  rewrite <- (Z.shiftl_mul_pow2 _ 2) by lia. change 4 with (2 ^ 2) at 1.
  rewrite <- Z.shiftr_div_pow2 by lia.
  apply Z.bits_inj'. intros i Hi. rewrite Z.land_spec, !Z.shiftl_spec by done.
  destruct (decide (i < 2)); [rewrite !(Z.testbit_neg_r _ (i - 2)) by lia; apply andb_false_r|].
  rewrite Z.shiftr_spec by lia. replace (i - 2 + 2) with i by lia.
  destruct (decide (i - 2 < 62)); [by rewrite Z.ones_spec_low, andb_true_r by lia|].
  rewrite Z.ones_spec_high, andb_false_r by lia. symmetry. apply (testbit_small _ 64); lia.
Qed.

Lemma entry_size_bounds k :
  0 <= k <= 255 → 8 + k <= entry_size k <= 8 + k + 3 ∧ entry_size k mod 4 = 0 ∧ entry_size k <= 264.
Proof.
  intros Hk. unfold entry_size, DIR_ENTRY_HEADER_SIZE. rewrite align4_eq by lia.
  pose proof (Z.div_mod (8 + k + 3) 4). pose proof (Z.mod_pos_bound (8 + k + 3) 4).
  rewrite Z.mod_mul by lia. lia.
Qed.

Lemma copy_at_extend {E} l pos x y a :
  0 <= pos → a = pos + len x → pos + len x + len y <= len l →
  copy_at (E:=E) (splice l pos x) a y = Ok (splice l pos (x ++ y)).
Proof.
  intros Hp -> Hle. pose proof (len_nonneg x). pose proof (len_nonneg y).
  rewrite copy_at_splice by (rewrite ?len_splice; lia). by rewrite splice_app.
Qed.

Lemma set_index_extend {E} l pos x b a :
  0 <= pos → a = pos + len x → pos + len x + 1 <= len l →
  set_index (E:=E) (splice l pos x) a b = Ok (splice l pos (x ++ [b])).
Proof.
  intros Hp -> Hle. pose proof (len_nonneg x).
  rewrite set_index_splice by (rewrite ?len_splice; lia). by rewrite splice_app.
Qed.

(** The bytes [write_dir_entry] stores. *)
Definition record_bytes (ino rec_len : Z) (name : list Z) (file_type : Z) : list Z :=
  ((((to_le_bytes 4 ino ++ to_le_bytes 2 rec_len) ++ [wrap_u 8 (len name)]) ++ [file_type]) ++ name) ++
  zeroes (entry_size (len name) - 8 - len name).

Lemma len_record_bytes ino rl name ft :
  len name <= 255 → len (record_bytes ino rl name ft) = entry_size (len name).
Proof.
  intros Hn. pose proof (len_nonneg name). pose proof (entry_size_bounds (len name)) as (? & _ & _); [lia|].
  unfold record_bytes. rewrite !len_app, len_zeroes, !len_to_le_bytes by lia.
  change (len [wrap_u 8 (len name)]) with 1. change (len [ft]) with 1. lia.
Qed.

Lemma write_dir_entry_run {E} buf pos ino rl name ft :
  0 <= pos → len name <= 255 → entry_size (len name) <= rl → pos + entry_size (len name) <= len buf →
  write_dir_entry (E:=E) buf pos ino rl name ft = Ok (splice buf pos (record_bytes ino rl name ft)).
Proof.
  intros Hp Hn Hrl Hle. pose proof (len_nonneg name).
  pose proof (entry_size_bounds (len name)) as (Hs & _ & _); [lia|].
  pose proof (len_to_le_bytes 4 ino) as L4. pose proof (len_to_le_bytes 2 rl) as L2.
  unfold write_dir_entry, record_bytes. fold (entry_size (len name)).
  unfold DIR_ENTRY_HEADER_SIZE. rewrite copy_at_splice by lia. cbn [mbind outcome_bind].
  rewrite copy_at_extend by lia. cbn [mbind outcome_bind].
  rewrite set_index_extend by (rewrite ?len_app; lia). cbn [mbind outcome_bind].
  assert (len ((to_le_bytes 4 ino ++ to_le_bytes 2 rl) ++ [wrap_u 8 (len name)]) = 7) as L7
    by (rewrite !len_app, L4, L2; done).
  rewrite set_index_extend by lia. cbn [mbind outcome_bind].
  assert (len (((to_le_bytes 4 ino ++ to_le_bytes 2 rl) ++ [wrap_u 8 (len name)]) ++ [ft]) = 8) as L8
    by (rewrite len_app, L7; done).
  rewrite copy_at_extend by lia. cbn [mbind outcome_bind].
  assert (∀ l : list Z, len l = 8 → len (l ++ name) = 8 + len name) as L9 by (intros; rewrite len_app; lia).
  case_decide as Hpad.
  - replace (pos + entry_size (len name) - (pos + 8 + len name)) with (entry_size (len name) - 8 - len name) by lia.
    apply copy_at_extend; rewrite ?L9 by done; rewrite ?len_zeroes; lia.
  - replace (entry_size (len name) - 8 - len name) with 0 by lia. cbn [zeroes]. by rewrite app_nil_r.
Qed.

(** ** Headers after a write *)
Lemma header_fields buf pos :
  0 <= pos →
  header buf pos = Build_DirEntryRaw (from_le_bytes (sub buf pos 4)) (from_le_bytes (sub buf (pos + 4) 2))
    (from_le_bytes (sub buf (pos + 6) 1)) (from_le_bytes (sub buf (pos + 7) 1)).
Proof.
  intros Hp.
  assert (∀ a n, 0 <= a → 0 <= n → a + n <= 8 →
    take (Z.to_nat n) (drop (Z.to_nat a) (sub buf pos 8)) = sub buf (pos + a) n) as Hs.
  { intros. by rewrite <- (sub_sub buf pos 8 a n) by lia. }
  unfold header. cbn [fields_of_bytes DirEntryRaw_layout]. rewrite !drop_drop.
  change (4 + 2 + 1)%nat with (Z.to_nat 7). change (4 + 2)%nat with (Z.to_nat 6).
  change 4%nat with (Z.to_nat 4). change 2%nat with (Z.to_nat 2). change 1%nat with (Z.to_nat 1).
  rewrite !Hs by lia. f_equal. f_equal. specialize (Hs 0 4). cbn [Z.to_nat] in Hs. rewrite drop_0 in Hs.
  rewrite Hs by lia. by rewrite Z.add_0_r.
Qed.

Lemma from_le_one b : from_le_bytes [b] = b.
Proof. unfold from_le_bytes. lia. Qed.

Lemma rec_len_range buf pos : Forall is_u8 buf → 0 <= pos → 0 <= de_rec_len (header buf pos) < 65536.
Proof.
  intros Hu Hp. rewrite header_fields by done. cbn [de_rec_len].
  pose proof (from_le_bytes_bound (sub buf (pos + 4) 2)) as Hb. unfold in_u in Hb.
  assert (2 ^ (8 * len (sub buf (pos + 4) 2)) <= 2 ^ 16).
  { apply Z.pow_le_mono_r; [lia|]. unfold sub. rewrite len_take. lia. }
  specialize (Hb (Forall_sub _ _ _ _ Hu)). change (2 ^ 16) with 65536 in *. lia.
Qed.

Lemma name_len_u8 buf pos : Forall is_u8 buf → 0 <= pos → 0 <= de_name_len (header buf pos) <= 255.
Proof.
  intros Hu Hp. rewrite header_fields by done. cbn [de_name_len].
  pose proof (from_le_bytes_bound (sub buf (pos + 6) 1)) as Hb. unfold in_u in Hb.
  assert (2 ^ (8 * len (sub buf (pos + 6) 1)) <= 2 ^ 8).
  { apply Z.pow_le_mono_r; [lia|]. unfold sub. rewrite len_take. lia. }
  specialize (Hb (Forall_sub _ _ _ _ Hu)). change (2 ^ 8) with 256 in *. lia.
Qed.

Section record.
Context (buf : list Z) (pos ino rl : Z) (name : list Z) (ft : Z).
Context (Hpos : 0 <= pos) (Hfit : pos + entry_size (len name) <= len buf).
Context (Hino : is_u32 ino) (Hrl : is_u16 rl) (Hft : is_u8 ft).
Context (Hname : len name <= 255) (Hu8 : Forall is_u8 name).
Let buf' := splice buf pos (record_bytes ino rl name ft).

Lemma record_inside a n :
  0 <= a → 0 <= n → a + n <= entry_size (len name) →
  sub buf' (pos + a) n = sub (record_bytes ino rl name ft) a n.
Proof.
  intros. unfold buf'. rewrite sub_splice_inside; rewrite ?len_record_bytes by done; try lia.
  f_equal. lia.
Qed.

Lemma record_header : header buf' pos = Build_DirEntryRaw ino rl (len name) ft.
Proof.
  pose proof (len_nonneg name). pose proof (entry_size_bounds (len name)) as (Hs & _ & _); [lia|].
  unfold header. replace (sub buf' pos 8) with (fields_to_bytes DirEntryRaw_layout [ino; rl; len name; ft]).
  - rewrite fields_of_to; [done|]. repeat constructor; try done; unfold in_u in *; cbn; lia.
  - replace (sub buf' pos 8) with (sub buf' (pos + 0) 8) by (f_equal; lia).
    rewrite record_inside by lia.
    unfold record_bytes. rewrite wrap_u_small by (unfold in_u; lia).
    rewrite <- !app_assoc. cbn [fields_to_bytes DirEntryRaw_layout]. unfold sub. rewrite drop_0.
    assert (∀ z, is_u8 z → to_le_bytes 1 z = [z]) as H1.
    { intros z Hz. unfold to_le_bytes. f_equal. apply Z.mod_small. unfold in_u in Hz. lia. }
    by rewrite !H1 by (done || unfold in_u; lia).
Qed.

Lemma record_name : sub buf' (pos + 8) (len name) = name.
Proof.
  pose proof (len_nonneg name). pose proof (entry_size_bounds (len name)) as (Hs & _ & _); [lia|].
  rewrite record_inside by lia. unfold record_bytes, sub.
  pose proof (length_to_le_bytes 4 ino). pose proof (length_to_le_bytes 2 rl).
  rewrite <- app_assoc. rewrite drop_app_length' by (rewrite !length_app; cbn; lia).
  apply take_app_length'. unfold len. lia.
Qed.
End record.

Lemma to_le_bytes_2 n : to_le_bytes 2 n = [wrap_u 8 n; wrap_u 8 (Z.shiftr n 8)].
Proof.
  unfold to_le_bytes, wrap_u. change (2 ^ 8) with 256. by rewrite Z.shiftr_div_pow2 by lia.
Qed.

Lemma set_rec_len_run {E} buf pos n :
  0 <= pos → pos + 6 <= len buf →
  set_rec_len (E:=E) buf pos n = Ok (splice buf (pos + 4) (to_le_bytes 2 n)).
Proof.
  intros Hp Hle. unfold set_rec_len. rewrite to_le_bytes_2.
  rewrite set_index_splice by lia. cbn [mbind outcome_bind].
  by rewrite set_index_extend by (change (len [wrap_u 8 n]) with 1; lia).
Qed.

(** Only the record length changes. *)
Lemma set_rec_len_header buf pos n :
  0 <= pos → pos + 8 <= len buf → is_u16 n →
  header (splice buf (pos + 4) (to_le_bytes 2 n)) pos =
    Build_DirEntryRaw (de_inode (header buf pos)) n (de_name_len (header buf pos))
      (de_file_type (header buf pos)).
Proof.
  intros Hp Hle Hn. pose proof (len_to_le_bytes 2 n).
  rewrite !header_fields by done. cbn [de_inode de_name_len de_file_type].
  assert (sub (splice buf (pos + 4) (to_le_bytes 2 n)) (pos + 4) 2 = to_le_bytes 2 n) as ->
    by (apply sub_splice_same; lia).
  rewrite from_to_le_bytes, wrap_u_small by done.
  by rewrite !sub_splice_other by lia.
Qed.

(** ** The search for a name *)
Lemma len_name_at n buf pos :
  len buf = n → Forall is_u8 buf → 0 <= pos → valid_rec n buf pos → live buf pos →
  len (name_at buf pos) = de_name_len (header buf pos).
Proof.
  intros Hn Hu Hp (H8 & Hr & Hle) [_ Hl]. pose proof (name_len_range buf pos Hu).
  unfold name_at. apply len_sub; lia.
Qed.

(** The comparison both scans make. *)
Lemma name_test {E} n buf pos name :
  len buf = n → Forall is_u8 buf → 0 <= pos → valid_rec n buf pos → de_inode (header buf pos) ≠ 0 →
  (if decide (de_name_len (header buf pos) = len name ∧
              de_name_len (header buf pos) <= de_rec_len (header buf pos) - 8)
   then ename ← slice (E:=E) buf (pos + 8) (pos + 8 + de_name_len (header buf pos));
        Ok (bool_decide (ename = name))
   else Ok false) = Ok (bool_decide (name ∈ en_name <$> entry_at buf pos)).
Proof.
  intros Hn Hu Hp Hv Hi. unfold entry_at. destruct (decide (live buf pos)) as [Hl|Hl].
  - pose proof (len_name_at n buf pos Hn Hu Hp Hv Hl) as Hlen. cbn [fmap list_fmap].
    assert (∀ b, bool_decide (name ∈ [name_at buf pos]) = b ↔ bool_decide (name_at buf pos = name) = b) as Hb.
    { intros b. rewrite (bool_decide_ext _ (name_at buf pos = name)); [done|]. set_solver. }
    destruct (decide (de_name_len (header buf pos) = len name ∧
      de_name_len (header buf pos) <= de_rec_len (header buf pos) - 8)) as [Hd|Hd].
    + rewrite (slice_name n) by (done || apply Hl). cbn [mbind outcome_bind]. f_equal. symmetry. by apply Hb.
    + f_equal. symmetry. apply Hb. apply bool_decide_eq_false. intros <-. destruct Hl. lia.
  - rewrite decide_False; [done|]. intros [_ ?]. apply Hl. split; done.
Qed.

(** A record that is shrunk or grown keeps its entry. *)
Lemma resized_entry buf pos m :
  0 <= pos → pos + 8 <= len buf → is_u16 m → 0 <= de_name_len (header buf pos) →
  (de_inode (header buf pos) ≠ 0 →
   de_name_len (header buf pos) <= de_rec_len (header buf pos) - 8 ∧ de_name_len (header buf pos) <= m - 8) →
  entry_at (splice buf (pos + 4) (to_le_bytes 2 m)) pos = entry_at buf pos.
Proof.
  intros Hp Hle Hm Hnn Hfit. pose proof (set_rec_len_header buf pos m Hp Hle Hm) as Hh.
  pose proof (len_to_le_bytes 2 m). set (buf' := splice _ _ _) in *.
  destruct (decide (de_inode (header buf pos) = 0)) as [Hi|Hi].
  { rewrite !entry_at_dead; [done|done|by rewrite Hh]. }
  rewrite !entry_at_live by (unfold live; rewrite ?Hh; cbn [de_inode de_name_len de_rec_len]; tauto).
  unfold name_at. rewrite Hh. cbn [de_inode de_name_len de_file_type]. do 2 f_equal.
  unfold buf'. by rewrite sub_splice_other by lia.
Qed.

(** ** Insertion *)

Section insertion.
Context (n ino ft : Z) (name : list Z).
Context (Hn : n < 2 ^ 63) (Hino : is_u32 ino) (Hino0 : ino ≠ 0) (Hft : is_u8 ft).
Context (Hname : len name <= 255) (Hu8 : Forall is_u8 name).
Let new : entry := {| en_name := name; en_ino := ino; en_type := ft |}.

Definition added (buf : list Z) (pos : Z) (es : list entry) (r : outcome FsError AddResult) : Prop :=
  match r with
  | Ok AddExists => name ∈ (en_name <$> es)
  | Ok AddNoRoom => name ∉ (en_name <$> es)
  | Ok (AddWritten buf') =>
      len buf' = n ∧ Forall is_u8 buf' ∧ agree_below pos buf buf' ∧
      ∃ l1 l2, es = l1 ++ l2 ∧ (name ∉ en_name <$> l1) ∧ chain n buf' pos (l1 ++ new :: l2) ∧
        (tiled n buf pos → tiled n buf' pos)
  | Panic => ¬ tiled n buf pos
  | Err _ | OutOfFuel => False
  end.

Lemma Forall_record rl : Forall is_u8 (record_bytes ino rl name ft).
Proof.
  unfold record_bytes.
  rewrite !Forall_app, !Forall_singleton. split_and!; auto using to_le_bytes_u8.
  - apply wrap_u_range. lia.
  - unfold zeroes. apply Forall_replicate. unfold in_u. lia.
Qed.

Lemma agree_splice_below buf p src pos :
  0 <= p → pos <= p → p + len src <= len buf → agree_below pos buf (splice buf p src).
Proof. intros. intros i Hi. rewrite lookup_splice by done. rewrite decide_False by lia. done. Qed.
Lemma agree_splice_from buf p src pos :
  0 <= p → p + len src <= pos → p + len src <= len buf → agree_from pos buf (splice buf p src).
Proof. intros. intros i Hi. rewrite lookup_splice by done. rewrite decide_False by lia. done. Qed.

(** The new record, followed by what followed its place. *)
Lemma chain_record buf pos rl es :
  len buf = n → Forall is_u8 buf → 0 <= pos → is_u16 rl → entry_size (len name) <= rl → pos + rl <= n →
  chain n buf (pos + rl) es →
  let buf' := splice buf pos (record_bytes ino rl name ft) in
  chain n buf' pos (new :: es) ∧ (tiled n buf (pos + rl) → tiled n buf' pos).
Proof.
  intros Hlen Hu Hp Hrl Hfit Hle Hc buf'. pose proof (len_nonneg name).
  pose proof (entry_size_bounds (len name)) as (Hs & _ & _); [lia|].
  assert (pos + entry_size (len name) <= len buf) as Hfit' by lia.
  pose proof (record_header buf pos ino rl name ft Hp Hfit' Hino Hrl Hft Hname) as Hh.
  pose proof (record_name buf pos ino rl name ft Hp Hfit' Hname) as Hnm.
  fold buf' in Hh, Hnm.
  assert (agree_from (pos + rl) buf buf') as Ha by (apply agree_splice_from; rewrite ?len_record_bytes by done; lia).
  assert (valid_rec n buf' pos) as Hv by (unfold valid_rec; rewrite Hh; cbn [de_rec_len]; lia).
  split; [replace (new :: es) with (entry_at buf' pos ++ es)|].
  - apply chain_rec; [done|]. rewrite Hh. cbn [de_rec_len]. apply (chain_ext n buf); done || lia.
  - rewrite entry_at_live by (unfold live; rewrite Hh; cbn; lia).
    unfold name_at. rewrite Hh. cbn [de_inode de_name_len de_rec_len de_file_type]. by rewrite Hnm.
  - intros Ht. apply tiled_rec; [done|..]; rewrite Hh; cbn [de_inode de_name_len de_rec_len]; [done|].
    apply (tiled_ext n buf); done || lia.
Qed.

(** Splitting the record at [pos]: its entry keeps what it needs and the new
    one takes the rest. *)
Lemma chain_split buf pos es :
  len buf = n → Forall is_u8 buf → 0 <= pos → valid_rec n buf pos → de_inode (header buf pos) ≠ 0 →
  entry_size (de_name_len (header buf pos)) + entry_size (len name) <= de_rec_len (header buf pos) →
  chain n buf (pos + de_rec_len (header buf pos)) es →
  let actual := entry_size (de_name_len (header buf pos)) in
  let buf1 := splice buf (pos + 4) (to_le_bytes 2 actual) in
  let buf2 := splice buf1 (pos + actual) (record_bytes ino (de_rec_len (header buf pos) - actual) name ft) in
  chain n buf2 pos (entry_at buf pos ++ new :: es) ∧ (tiled n buf pos → tiled n buf2 pos).
Proof.
  intros Hlen Hu Hp Hv Hi Hfit Hc actual buf1 buf2. pose proof Hv as (H8 & Hr & Hle).
  pose proof (len_nonneg name). pose proof (rec_len_range buf pos Hu Hp).
  pose proof (name_len_u8 buf pos Hu Hp). pose proof (len_to_le_bytes 2 actual) as L2.
  pose proof (entry_size_bounds (len name)) as (Hs & _ & _); [lia|].
  pose proof (entry_size_bounds (de_name_len (header buf pos))) as (Hs' & _ & _); [lia|].
  fold actual in Hfit, Hs'.
  assert (is_u16 actual) as Hact by (unfold in_u; lia).
  pose proof (set_rec_len_header buf pos actual Hp ltac:(lia) Hact) as Hh.
  pose proof (resized_entry buf pos actual Hp ltac:(lia) Hact ltac:(lia) ltac:(lia)) as He.
  fold buf1 in Hh, He. set (rec := de_rec_len (header buf pos)) in *.
  assert (len buf1 = n) as Hlen1 by (unfold buf1; rewrite len_splice; lia).
  assert (Forall is_u8 buf1) as Hu1 by (apply Forall_splice; [done|apply to_le_bytes_u8]).
  assert (valid_rec n buf1 pos) as Hv1 by (unfold valid_rec; rewrite Hh; cbn [de_rec_len]; lia).
  assert (agree_from (pos + rec) buf buf1) as Ha by (apply agree_splice_from; lia).
  assert (pos + actual + (rec - actual) = pos + rec) as Hsum by lia.
  destruct (chain_record buf1 (pos + actual) (rec - actual) es) as [Hc2 Ht2]; try done; try (unfold in_u; lia).
  { rewrite Hsum. apply (chain_ext n buf); done || lia. }
  rewrite Hsum in Ht2. fold buf2 in Hc2, Ht2.
  assert (agree_below (pos + actual) buf1 buf2) as Hb
    by (apply agree_splice_below; rewrite ?len_record_bytes; lia).
  rewrite <- He. split; [apply chain_below; rewrite ?Hh; done|].
  intros Ht. destruct (tiled_step n buf pos Hv Ht Hp) as [Hf Ht'].
  assert (tiled n buf2 (pos + actual)) as Ht3 by (apply Ht2, (tiled_ext n buf); done || lia).
  pose proof (below_header n buf1 buf2 pos Hp Hv1 ltac:(by rewrite Hh)) as Hh2.
  apply tiled_rec; [unfold valid_rec|..]; rewrite Hh2, Hh; cbn [de_rec_len de_name_len]; try done. lia.
Qed.

(** The rest of the scan leaves the record at [pos] alone. *)
Lemma added_next buf pos es r :
  Forall is_u8 buf → 0 <= pos → valid_rec n buf pos → name ∉ en_name <$> entry_at buf pos →
  added buf (pos + de_rec_len (header buf pos)) es r → added buf pos (entry_at buf pos ++ es) r.
Proof.
  intros Hu Hp Hv Hno. pose proof Hv as (H8 & Hr & Hle). unfold added.
  destruct r as [[|buf'|]|e| |]; try done; rewrite ?fmap_app.
  - set_solver.
  - intros (Hl & Hu' & Ha & l1 & l2 & -> & Hn1 & Hc & Ht). split_and!; try done.
    { intros i Hi. apply Ha. lia. }
    exists (entry_at buf pos ++ l1), l2. rewrite fmap_app.
    split_and!; [by rewrite app_assoc|set_solver|rewrite <- app_assoc; by apply chain_below|].
    intros Ht'. apply (tiled_below n buf); try done. apply Ht. by apply tiled_step.
  - set_solver.
  - intros Hnt Ht. apply Hnt. by apply tiled_step.
Qed.

Lemma add_in_block_added fuel buf pos es :
  len buf = n → Forall is_u8 buf → 0 <= pos <= n → n - pos < Z.of_nat fuel → chain n buf pos es →
  added buf pos es (add_in_block fuel n buf pos name (entry_size (len name)) ino ft).
Proof.
  intros Hlen Hu. revert pos es. induction fuel as [|fuel IH]; intros pos es Hp Hf Hc; [lia|].
  cbn [add_in_block]. unfold DIR_ENTRY_HEADER_SIZE.
  pose proof (rec_len_range buf pos Hu ltac:(lia)). pose proof (name_len_u8 buf pos Hu ltac:(lia)).
  pose proof (len_nonneg name). pose proof (entry_size_bounds (len name)) as (Hs & _ & _); [lia|].
  pose proof (entry_size_bounds (de_name_len (header buf pos))) as (Hs' & _ & _); [lia|].
  inversion Hc as [? Hv|? es' Hv Hc']; subst pos0 es.
  { unfold valid_rec in Hv. destruct (decide (n <= pos)); [set_solver|].
    destruct (decide (n < pos + 8)); [set_solver|]. rewrite read_entry_header. cbn [mbind outcome_bind].
    rewrite decide_True by lia. set_solver. }
  pose proof Hv as (H8 & Hr & Hle). rewrite !decide_False by lia.
  rewrite read_entry_header. cbn [mbind outcome_bind]. rewrite decide_False by lia.
  destruct (decide (de_inode (header buf pos) ≠ 0)) as [Hi|Hi].
  - rewrite (name_test n) by (done || lia). cbn [mbind outcome_bind].
    destruct (bool_decide _) eqn:Hdup.
    { apply bool_decide_eq_true in Hdup. cbn [added]. rewrite fmap_app. set_solver. }
    apply bool_decide_eq_false in Hdup.
    unfold chk. destruct (decide _) as [Hok|Hov]; cbn [mbind outcome_bind].
    2:{ intros Ht. destruct (tiled_step n buf pos Hv Ht ltac:(lia)) as [Hfit _].
        apply Hov. unfold in_u. specialize (Hfit Hi). lia. }
    destruct (decide _) as [Hroom|_]; [|apply added_next; auto; try lia; apply IH; lia || done].
    unfold in_u in Hok. rewrite set_rec_len_run by lia. cbn [mbind outcome_bind].
    pose proof (len_to_le_bytes 2 (entry_size (de_name_len (header buf pos)))).
    rewrite wrap_u_small by (unfold in_u; pow2; lia).
    rewrite write_dir_entry_run by (rewrite ?len_splice; lia). cbn [mbind outcome_bind].
    split_and!.
    + rewrite !len_splice; rewrite ?len_record_bytes, ?len_splice; lia.
    + apply Forall_splice; [|apply Forall_record]. apply Forall_splice; [done|apply to_le_bytes_u8].
    + intros i Hb. rewrite !lookup_splice by (rewrite ?len_record_bytes, ?len_splice; lia).
      rewrite !decide_False by (rewrite ?len_record_bytes; lia). done.
    + destruct (chain_split buf pos es') as [Hc2 Ht2]; try done; [lia..|].
      by exists (entry_at buf pos), es'.
  - destruct (decide _) as [Hroom|_].
    2:{ apply added_next; auto; try lia; [|apply IH; lia || done].
        rewrite entry_at_dead by lia. set_solver. }
    rewrite write_dir_entry_run by lia. cbn [mbind outcome_bind]. split_and!.
    + rewrite len_splice; rewrite ?len_record_bytes; lia.
    + apply Forall_splice; [done|apply Forall_record].
    + apply agree_splice_below; rewrite ?len_record_bytes; lia.
    + exists [], es'. rewrite entry_at_dead by lia.
      destruct (chain_record buf pos (de_rec_len (header buf pos)) es') as [Hc2 Ht2]; try done; try lia.
      split_and!; [done|set_solver|done|]. intros Ht. apply Ht2. apply tiled_step; done || lia.
Qed.
End insertion.

(** ** Removal *)
Section removal.
Context (n : Z) (name : list Z).

(** What the scan has passed: the record before [pos], or nothing. *)
Definition prev_start (prev : option Z) (pos : Z) : Z :=
  match prev with Some pp => pp | None => pos end.
Definition prev_entries (buf : list Z) (prev : option Z) : list entry :=
  match prev with Some pp => entry_at buf pp | None => [] end.
Definition prev_ok (buf : list Z) (prev : option Z) (pos : Z) : Prop :=
  match prev with
  | Some pp => 0 <= pp ∧ valid_rec n buf pp ∧ pos = pp + de_rec_len (header buf pp)
  | None => True
  end.

Definition removed (buf : list Z) (prev : option Z) (pos : Z) (es : list entry)
    (r : outcome FsError (option (Z * list Z))) : Prop :=
  match r with
  | Ok None => name ∉ (en_name <$> es)
  | Ok (Some (i, buf')) =>
      len buf' = n ∧ Forall is_u8 buf' ∧
      ∃ l1 e l2, es = l1 ++ e :: l2 ∧ (name ∉ en_name <$> l1) ∧ en_name e = name ∧ en_ino e = i ∧
        (n < 65536 → tiled n buf (prev_start prev pos) →
         agree_below (prev_start prev pos) buf buf' ∧ tiled n buf' (prev_start prev pos) ∧
         chain n buf' (prev_start prev pos) (prev_entries buf prev ++ l1 ++ l2))
  | _ => False
  end.

(** The first record of the block is marked unused. *)
Lemma remove_first buf pos es :
  len buf = n → Forall is_u8 buf → 0 <= pos → valid_rec n buf pos →
  chain n buf (pos + de_rec_len (header buf pos)) es →
  let buf' := splice buf pos [0; 0; 0; 0] in
  chain n buf' pos es ∧ (tiled n buf pos → tiled n buf' pos).
Proof.
  intros Hlen Hu Hp Hv Hc buf'. pose proof Hv as (H8 & Hr & Hle).
  assert (len [0; 0; 0; 0] = 4) as L4 by done.
  assert (header buf' pos = Build_DirEntryRaw 0 (de_rec_len (header buf pos))
            (de_name_len (header buf pos)) (de_file_type (header buf pos))) as Hh.
  { rewrite !header_fields by done. cbn [de_rec_len de_name_len de_file_type]. unfold buf'.
    assert (sub (splice buf pos [0; 0; 0; 0]) pos 4 = [0; 0; 0; 0]) as -> by (apply sub_splice_same; lia).
    by rewrite !sub_splice_other by lia. }
  assert (agree_from (pos + de_rec_len (header buf pos)) buf buf') as Ha by (apply agree_splice_from; lia).
  assert (valid_rec n buf' pos) as Hv' by (unfold valid_rec; by rewrite Hh).
  split.
  - replace es with (entry_at buf' pos ++ es) by (by rewrite entry_at_dead by (by rewrite Hh)).
    apply chain_rec; [done|]. rewrite Hh. cbn [de_rec_len]. apply (chain_ext n buf); done || lia.
  - intros Ht. destruct (tiled_step n buf pos Hv Ht Hp) as [_ Ht'].
    apply tiled_rec; [done|..]; rewrite Hh; cbn [de_rec_len de_inode]; [done|].
    apply (tiled_ext n buf); done || lia.
Qed.

(** The record at [pos] is merged into the one before it. *)
Lemma remove_merge buf pp pos es :
  len buf = n → n < 65536 → Forall is_u8 buf → 0 <= pp → valid_rec n buf pp →
  pos = pp + de_rec_len (header buf pp) → valid_rec n buf pos → tiled n buf pp →
  chain n buf (pos + de_rec_len (header buf pos)) es →
  let buf' := splice buf (pp + 4) (to_le_bytes 2 (de_rec_len (header buf pp) + de_rec_len (header buf pos))) in
  chain n buf' pp (entry_at buf pp ++ es) ∧ tiled n buf' pp.
Proof.
  intros Hlen Hn Hu Hpp Hvp -> Hv Ht Hc. pose proof Hvp as (H8 & Hr & Hle). pose proof Hv as (H8' & Hr' & Hle').
  destruct (tiled_step n buf pp Hvp Ht Hpp) as [Hf Ht1].
  apply tiled_step in Ht1 as [_ Ht2]; [|done|lia]. pose proof (name_len_u8 buf pp Hu Hpp).
  pose proof (entry_size_bounds (de_name_len (header buf pp))) as (Hs & _ & _); [lia|].
  set (rec := de_rec_len (header buf pp)) in *. set (rec' := de_rec_len (header buf (pp + rec))) in *.
  intros buf'. assert (is_u16 (rec + rec')) as Hm by (unfold in_u; lia).
  pose proof (set_rec_len_header buf pp _ Hpp ltac:(lia) Hm) as Hh.
  pose proof (resized_entry buf pp _ Hpp ltac:(lia) Hm ltac:(lia)) as He.
  pose proof (len_to_le_bytes 2 (rec + rec')). fold buf' in Hh, He.
  assert (agree_from (pp + rec + rec') buf buf') as Ha by (apply agree_splice_from; lia).
  assert (valid_rec n buf' pp) as Hv' by (unfold valid_rec; rewrite Hh; cbn [de_rec_len]; lia).
  split; [rewrite <- He by (intros Hi; specialize (Hf Hi); fold rec; lia); apply chain_rec; [done|]
         |apply tiled_rec; [done|..]]; rewrite Hh; cbn [de_rec_len de_inode de_name_len]; rewrite ?Z.add_assoc.
  - apply (chain_ext n buf); done || lia.
  - intros Hi. specialize (Hf Hi). lia.
  - apply (tiled_ext n buf); done || lia.
Qed.

Lemma removed_next buf prev pos es r :
  Forall is_u8 buf → 0 <= pos → valid_rec n buf pos → prev_ok buf prev pos →
  name ∉ en_name <$> entry_at buf pos →
  removed buf (Some pos) (pos + de_rec_len (header buf pos)) es r → removed buf prev pos (entry_at buf pos ++ es) r.
Proof.
  intros Hu Hp Hv Hprev Hno. unfold removed. destruct r as [[[i buf']|]|e| |]; try done; rewrite ?fmap_app.
  2:{ set_solver. }
  intros (Hl & Hu' & l1 & e & l2 & -> & Hn1 & He & Hi & Hk). split_and!; try done.
  exists (entry_at buf pos ++ l1), e, l2. rewrite fmap_app.
  split_and!; [by rewrite app_assoc|set_solver|done|done|]. intros Hn Ht. cbn [prev_start prev_entries] in Hk.
  destruct prev as [pp|]; cbn [prev_start prev_entries prev_ok] in *.
  - destruct Hprev as (Hpp & Hvp & ->). destruct (tiled_step n buf pp Hvp Ht Hpp) as [_ Ht'].
    destruct (Hk Hn Ht') as (Ha & Htb & Hc). split_and!.
    + intros j Hj. apply Ha. unfold valid_rec in Hvp. lia.
    + by apply (tiled_below n buf).
    + rewrite <- app_assoc. by apply chain_below.
  - destruct (Hk Hn Ht) as (Ha & Htb & Hc). by rewrite <- app_assoc.
Qed.

(** The step that removes. *)
Lemma remove_hit buf prev pos es :
  len buf = n → Forall is_u8 buf → 0 <= pos <= n → prev_ok buf prev pos → valid_rec n buf pos →
  name ∈ en_name <$> entry_at buf pos → chain n buf (pos + de_rec_len (header buf pos)) es →
  removed buf prev pos (entry_at buf pos ++ es)
    (buf' ← match prev with
            | Some pp => p ← read_entry buf pp; set_rec_len buf pp (de_rec_len p + de_rec_len (header buf pos))
            | None => copy_at buf pos [0; 0; 0; 0]
            end; Ok (Some (de_inode (header buf pos), buf'))).
Proof.
  intros Hlen Hu Hp Hpo Hv Hname Hc. pose proof Hv as (H8 & Hr & Hle).
  assert (∃ e, entry_at buf pos = [e] ∧ en_name e = name ∧ en_ino e = de_inode (header buf pos)) as (e & -> & He1 & He2).
  { unfold entry_at in *. destruct (decide (live buf pos)); [|set_solver].
    eexists. split_and!; [done| |done]. cbn. set_solver. }
  destruct prev as [pp|].
  - destruct Hpo as (Hpp & Hvp & Hpos). pose proof Hvp as (H8' & Hr' & Hle'). rewrite read_entry_header.
    cbn [mbind outcome_bind]. rewrite set_rec_len_run by lia. cbn [mbind outcome_bind].
    pose proof (len_to_le_bytes 2 (de_rec_len (header buf pp) + de_rec_len (header buf pos))).
    split_and!; [rewrite len_splice; lia|apply Forall_splice; [done|apply to_le_bytes_u8]|].
    exists [], e, es. split_and!; [done|set_solver|done|done|]. intros Hn Ht.
    destruct (remove_merge buf pp pos es) as [Hc' Ht']; try done.
    split_and!; [apply agree_splice_below; cbn [prev_start]; lia|done|done].
  - assert (len [0; 0; 0; 0] = 4) as L4 by done.
    rewrite copy_at_splice by lia. cbn [mbind outcome_bind].
    destruct (remove_first buf pos es) as [Hc' Ht']; try done; [lia|].
    split_and!; [rewrite len_splice; lia|apply Forall_splice; [done|by repeat constructor]|].
    exists [], e, es. split_and!; [done|set_solver|done|done|]. intros Hn Ht.
    split_and!; [apply agree_splice_below; cbn [prev_start]; lia|auto|done].
Qed.

Lemma remove_in_block_removed fuel buf prev pos es :
  len buf = n → Forall is_u8 buf → 0 <= pos <= n → n - pos < Z.of_nat fuel → prev_ok buf prev pos →
  chain n buf pos es → removed buf prev pos es (remove_in_block fuel n buf pos prev name).
Proof.
  intros Hlen Hu. revert prev pos es. induction fuel as [|fuel IH]; intros prev pos es Hp Hf Hpo Hc; [lia|].
  cbn [remove_in_block]. unfold DIR_ENTRY_HEADER_SIZE.
  inversion Hc as [? Hv|? es' Hv Hc']; subst pos0 es.
  { unfold valid_rec in Hv. destruct (decide (n <= pos)); [set_solver|].
    destruct (decide (n < pos + 8)); [set_solver|]. rewrite read_entry_header. cbn [mbind outcome_bind].
    rewrite decide_True by lia. set_solver. }
  pose proof Hv as (H8 & Hr & Hle). rewrite !decide_False by lia.
  rewrite read_entry_header. cbn [mbind outcome_bind]. rewrite decide_False by lia.
  assert (name ∉ en_name <$> entry_at buf pos →
    removed buf prev pos (entry_at buf pos ++ es')
      (remove_in_block fuel n buf (pos + de_rec_len (header buf pos)) (Some pos) name)) as Hnext.
  { intros Hno. apply removed_next; try done; [lia|]. apply IH; try done; [lia..|].
    split_and!; [lia|done|done]. }
  destruct (decide (de_inode (header buf pos) = 0)) as [Hi|Hi].
  { rewrite decide_False by tauto. cbn [mbind outcome_bind]. apply Hnext.
    rewrite entry_at_dead by done. set_solver. }
  assert (∀ b : outcome FsError bool, (if decide (de_inode (header buf pos) ≠ 0 ∧
      de_name_len (header buf pos) = len name ∧ de_name_len (header buf pos) <= de_rec_len (header buf pos) - 8)
    then b else Ok false) = if decide (de_name_len (header buf pos) = len name ∧
      de_name_len (header buf pos) <= de_rec_len (header buf pos) - 8) then b else Ok false) as Hd.
  { intros b. repeat case_decide; tauto. }
  rewrite Hd, (name_test n) by (done || lia). cbn [mbind outcome_bind]. clear Hd.
  destruct (bool_decide _) eqn:Hdup; [|apply bool_decide_eq_false in Hdup; by apply Hnext].
  apply bool_decide_eq_true in Hdup. clear Hnext. by apply remove_hit.
Qed.
End removal.

(** ** Blocks as wholes *)
Lemma chain_whole buf es : chain (len buf) buf 0 es → es = dir_entries buf.
Proof. intros Hc. exact (chain_det _ _ _ _ _ Hc (chain_dir_entries buf)). Qed.

(** A block the driver may write: bytes, with a length a record length can
    hold, and tiled by records. *)
Definition dir_block (buf : list Z) : Prop :=
  Forall is_u8 buf ∧ len buf < 65536 ∧ tiled (len buf) buf 0.

(** A name and what it is linked to. *)
Definition entry_ok (e : entry) : Prop :=
  Forall is_u8 (en_name e) ∧ 0 < len (en_name e) <= 255 ∧ is_u32 (en_ino e) ∧ en_ino e ≠ 0 ∧ is_u8 (en_type e).

(** The two edits of a whole block, as [add_dir_entry] and [remove_dir_entry]
    call them. *)
Definition block_add (buf : list Z) (e : entry) : outcome FsError AddResult :=
  add_in_block (walk_fuel (len buf)) (len buf) buf 0 (en_name e) (entry_size (len (en_name e)))
    (en_ino e) (en_type e).
Definition block_remove (buf name : list Z) : outcome FsError (option (Z * list Z)) :=
  remove_in_block (walk_fuel (len buf)) (len buf) buf 0 None name.

Lemma block_add_added buf e :
  Forall is_u8 buf → len buf < 2 ^ 63 → entry_ok e →
  added (len buf) (en_ino e) (en_type e) (en_name e) buf 0 (dir_entries buf) (block_add buf e).
Proof.
  intros Hu Hn (Hname & Hlen & Hino & H0 & Hft). pose proof (len_nonneg buf).
  apply add_in_block_added; try done; try lia; [unfold walk_fuel; lia|apply chain_dir_entries].
Qed.

Lemma block_remove_removed buf name :
  Forall is_u8 buf → removed (len buf) name buf None 0 (dir_entries buf) (block_remove buf name).
Proof.
  intros Hu. pose proof (len_nonneg buf).
  apply remove_in_block_removed; try done; try lia; [unfold walk_fuel; lia|apply chain_dir_entries].
Qed.

(** The well-formedness test, for evaluation. *)
Fixpoint tiledb (fuel : nat) (n : Z) (buf : list Z) (pos : Z) : bool :=
  match fuel with
  | O => false
  | S fuel =>
      bool_decide (pos = n) ||
      (bool_decide (valid_rec n buf pos) &&
       (bool_decide (de_inode (header buf pos) = 0) ||
        bool_decide (entry_size (de_name_len (header buf pos)) <= de_rec_len (header buf pos))) &&
       tiledb fuel n buf (pos + de_rec_len (header buf pos)))
  end.
Lemma tiledb_sound fuel n buf pos : tiledb fuel n buf pos = true → tiled n buf pos.
Proof.
  revert pos. induction fuel as [|fuel IH]; intros pos; cbn [tiledb]; [done|].
  rewrite orb_true_iff, !andb_true_iff, orb_true_iff, !bool_decide_eq_true.
  intros [->|[[Hv Hf] Ht]]; [constructor|]. apply tiled_rec; [done| |auto]. intros Hi. by destruct Hf.
Qed.

Lemma dir_block_dec buf :
  forallb (λ z, (0 <=? z) && (z <? 2 ^ 8)) buf && (len buf <? 65536) &&
  tiledb (walk_fuel (len buf)) (len buf) buf 0 = true → dir_block buf.
Proof.
  rewrite !andb_true_iff. intros [[Hu Hn] Ht].
  split_and!; [by apply in_u_list|lia|by eapply tiledb_sound].
Qed.


Definition foo_entry : entry := {| en_name := [102; 111; 111]; en_ino := 3; en_type := FT_REG_FILE |}.
Lemma foo_entry_ok : entry_ok foo_entry.
Proof. split_and!; try done. apply in_u_list. by vm_compute. Qed.


(** The scans of a directory block terminate on any bytes: with the
    length of the block as bound, the walk visits exactly the entries the
    block holds until the callback breaks, a removal returns, and an insertion
    returns or stops at the overflow check of a record too short for its name. *)
Theorem ext2_dir_scans_terminate {A T} (g : A → entry → A * option T) acc buf e :
  Forall is_u8 buf → len buf < 2 ^ 63 → entry_ok e →
  walk_block (E:=FsError) (walk_fuel (len buf)) (len buf) buf 0 (on_entry g) acc =
    Ok (visit g acc (dir_entries buf)) ∧
  (∃ r, block_remove buf (en_name e) = Ok r) ∧
  ((∃ r, block_add buf e = Ok r) ∨ block_add buf e = Panic ∧ ¬ tiled (len buf) buf 0).
Proof.
  intros Hu Hn He. split_and!; [by apply walk_block_entries|..].
  - pose proof (block_remove_removed buf (en_name e) Hu) as Hr.
    destruct (block_remove _ _) as [r| | |]; try done. by exists r.
  - pose proof (block_add_added buf e Hu Hn He) as Ha.
    destruct (block_add _ _) as [r| | |]; try done; [left; by exists r|by right].
Qed.

Lemma ext2_dir_scans_terminate_witness :
  Forall is_u8 (zeroes 64) ∧ entry_ok foo_entry ∧
  ∃ r, block_remove (zeroes 64) [102; 111; 111] = Ok r.
Proof.
  assert (Forall is_u8 (zeroes 64)) as Hu by (apply in_u_list; by vm_compute).
  split_and!; [done|apply foo_entry_ok|].
  refine (proj1 (proj2 (ext2_dir_scans_terminate (T:=Empty_set) (λ a _, (a, None)) tt (zeroes 64) foo_entry Hu _ foo_entry_ok))).
  by vm_compute.
Defined.

(** A new directory holds [.] and [..]. *)
Lemma init_dir_block_entries bs self parent :
  24 <= bs < 65536 → is_u32 self → self ≠ 0 → is_u32 parent → parent ≠ 0 →
  ∃ buf, init_dir_block (E:=FsError) bs self parent = Ok buf ∧ dir_block buf ∧ len buf = bs ∧
    dir_entries buf = [{| en_name := [46]; en_ino := self; en_type := FT_DIR |};
                       {| en_name := [46; 46]; en_ino := parent; en_type := FT_DIR |}].
Proof.
  intros Hbs Hs Hs0 Hp Hp0. assert (len (zeroes bs) = bs) as Hz by (apply len_zeroes; lia).
  assert (entry_size (len [46]) = 12 ∧ entry_size (len [46; 46]) = 12) as [E1 E2] by done.
  assert (Forall is_u8 (zeroes bs)) as Hzu by (unfold zeroes; apply Forall_replicate; done).
  assert (Forall is_u8 [46] ∧ Forall is_u8 [46; 46]) as [U1 U2] by (split; apply in_u_list; done).
  unfold init_dir_block. rewrite write_dir_entry_run by (rewrite ?E1, ?Hz; lia || done).
  cbn [mbind outcome_bind]. rewrite wrap_u_small by (unfold in_u; lia).
  pose proof (record_header (zeroes bs) 0 self 12 [46] FT_DIR) as Hh.
  pose proof (record_name (zeroes bs) 0 self 12 [46] FT_DIR) as Hnm.
  assert (len (splice (zeroes bs) 0 (record_bytes self 12 [46] FT_DIR)) = bs) as Hl1.
  { rewrite len_splice; rewrite ?len_record_bytes, ?E1; done || lia. }
  assert (Forall is_u8 (splice (zeroes bs) 0 (record_bytes self 12 [46] FT_DIR))) as Hu1.
  { apply Forall_splice; [done|]. by apply Forall_record. }
  set (buf1 := splice (zeroes bs) 0 _) in *.
  rewrite write_dir_entry_run by (rewrite ?E2, ?Hl1; lia || done). cbn [mbind outcome_bind].
  destruct (chain_record bs parent FT_DIR [46; 46] Hp Hp0 ltac:(done) ltac:(done) buf1 12 (bs - 12) [])
    as [Hc Ht]; try done; try (unfold in_u; lia).
  { apply chain_end. unfold valid_rec. lia. }
  replace (12 + (bs - 12)) with bs in Ht by lia. specialize (Ht (tiled_end _ _)).
  set (buf2 := splice buf1 12 _) in *. rewrite E1 in Hh, Hnm.
  specialize (Hh ltac:(lia) ltac:(lia) Hs ltac:(done) ltac:(done) ltac:(done)).
  specialize (Hnm ltac:(lia) ltac:(lia) ltac:(done)).
  assert (agree_below 12 buf1 buf2) as Hb by (apply agree_splice_below; rewrite ?len_record_bytes, ?E2; done || lia).
  assert (valid_rec bs buf1 0) as Hv by (unfold valid_rec; rewrite Hh; cbn [de_rec_len]; lia).
  pose proof (below_header bs buf1 buf2 0 ltac:(lia) Hv ltac:(by rewrite Hh)) as Hh2.
  assert (len buf2 = bs) as Hl2 by (unfold buf2; rewrite len_splice; rewrite ?len_record_bytes, ?E2; done || lia).
  assert (chain bs buf2 0 (entry_at buf1 0 ++ [{| en_name := [46; 46]; en_ino := parent; en_type := FT_DIR |}])) as Hch.
  { apply chain_below; rewrite ?Hh; done || lia. }
  exists buf2. split_and!; [done|split_and!|done|].
  - apply Forall_splice; [done|]. by apply Forall_record.
  - lia.
  - rewrite Hl2. apply tiled_rec; [unfold valid_rec|..]; rewrite Hh2, Hh; cbn; [lia|done|done].
  - rewrite <- Hl2 in Hch. rewrite <- (chain_whole _ _ Hch), entry_at_live by (unfold live; rewrite Hh; cbn [de_inode de_name_len de_rec_len]; change (len [46]) with 1; lia).
    unfold name_at. rewrite Hh. cbn [de_inode de_name_len de_file_type]. by rewrite Hnm.
Qed.

(** A block whose first record has room and whose second has the name. *)
Definition shadowed_block : list Z :=
  to_le_bytes 4 2 ++ to_le_bytes 2 32 ++ [1; FT_DIR] ++ [46; 0; 0; 0] ++ zeroes 20 ++
  to_le_bytes 4 5 ++ to_le_bytes 2 32 ++ [3; FT_REG_FILE] ++ [102; 111; 111; 0] ++ zeroes 20.
(** A live record of twelve bytes with a name of twenty. *)
Definition short_block : list Z :=
  to_le_bytes 4 2 ++ to_le_bytes 2 12 ++ [20; FT_DIR] ++ [46; 0; 0; 0].
(** A block of 64 KiB with two entries. *)
Definition huge_block : list Z :=
  to_le_bytes 4 2 ++ to_le_bytes 2 12 ++ [1; FT_DIR] ++ [46; 0; 0; 0] ++
  to_le_bytes 4 3 ++ to_le_bytes 2 65524 ++ [3; FT_REG_FILE] ++ [102; 111; 111; 0] ++ zeroes 65512.

(** Where directory edits go wrong.  A name that stands after the first
    record with room is not seen, and a second entry with it is inserted.  A
    live record shorter than its own name makes an insertion panic.  In a
    block of 64 KiB, removing the last entry wraps the merged record length to
    zero, and the entries that remain are lost with it. *)
Theorem ext2_dir_block_edge_cases :
  (dir_block shadowed_block ∧ [102; 111; 111] ∈ (en_name <$> dir_entries shadowed_block) ∧
   match block_add shadowed_block foo_entry with
   | Ok (AddWritten buf') => en_name <$> dir_entries buf' = [[46]; [102; 111; 111]; [102; 111; 111]]
   | _ => False
   end) ∧
  block_add short_block foo_entry = Panic ∧
  (len huge_block = 65536 ∧ tiled 65536 huge_block 0 ∧
   en_name <$> dir_entries huge_block = [[46]; [102; 111; 111]] ∧
   match block_remove huge_block [102; 111; 111] with
   | Ok (Some (_, buf')) => dir_entries buf' = []
   | _ => False
   end).
Proof.
  split_and!.
  - apply dir_block_dec. by vm_compute.
  - apply (bool_decide_unpack (_ ∈ _)). by vm_compute.
  - by vm_compute.
  - by vm_compute.
  - by vm_compute.
  - apply (tiledb_sound 5). by vm_compute.
  - by vm_compute.
  - by vm_compute.
Qed.
