(* ===== verification/Ext2FileProof.v ===== *)
(** * Reading files

    The cached lookup of an open file finds the blocks the uncached one finds,
    and [read] returns the bytes of the file, holes as zeroes. *)

From S2P Require Import Prelude Effects BlockDevice FsTypes Ext2Structs Ext2Fs Ext2Alloc Ext2Layout Ext2Image Ext2Blocks Ext2File Ext2Session.

Implicit Types fs : Ext2Fs RamDisk.
Implicit Types f : Ext2File RamDisk.
Implicit Types d : list Z.

(** ** Reads that are zero-extended *)
Definition zread d (off n : Z) : list Z := sub d off n ++ drop (length (sub d off n)) (zeroes n).

Lemma lookup_zread d off n i :
  0 <= off → 0 <= n →
  zread d off n !! i = if decide (Z.of_nat i < n) then Some (default 0 (d !! Z.to_nat (off + Z.of_nat i))) else None.
Proof.
  intros Ho Hn. unfold zread. pose proof (lookup_sub d off n i Ho Hn) as Hs.
  destruct (decide (i < length (sub d off n))%nat) as [Hi|Hi].
  - rewrite lookup_app_l by done. apply lookup_lt_is_Some_2 in Hi as [x Hx].
    rewrite Hx in Hs |- *. destruct (decide _); [by rewrite <- Hs|done].
  - rewrite lookup_app_r by lia. rewrite lookup_drop.
    rewrite lookup_ge_None_2 in Hs by lia. replace (_ + _)%nat with i by lia.
    unfold zeroes. destruct (decide _).
    + rewrite <- Hs. apply lookup_replicate_2. lia.
    + apply lookup_ge_None_2. rewrite length_replicate. lia.
Qed.

Lemma len_zread d off n : 0 <= off → 0 <= n → len (zread d off n) = n.
Proof.
  intros Ho Hn. unfold zread, zeroes, len. rewrite length_app, length_drop, length_replicate.
  unfold sub. rewrite length_take. lia.
Qed.

Lemma sub_zread d off n a m :
  0 <= off → 0 <= n → 0 <= a → 0 <= m → a + m <= n → sub (zread d off n) a m = zread d (off + a) m.
Proof.
  intros. apply list_eq. intros i. rewrite lookup_sub, !lookup_zread by lia.
  case_decide; [|done]. rewrite decide_True by lia. do 3 f_equal. lia.
Qed.

Lemma Forall_zread d off n : Forall is_u8 d → Forall is_u8 (zread d off n).
Proof.
  intros. unfold zread. apply Forall_app. split; [by apply Forall_sub|].
  apply Forall_drop. unfold zeroes. by apply Forall_replicate.
Qed.

Lemma device_read_zeroes fs off n :
  is_u64 off → 0 <= n → device_read off (zeroes n) fs = (fs, Ok (zread (fs_device fs) off n)).
Proof.
  intros Ho Hn. unfold device_read, chk. rewrite decide_True by done.
  unfold mbind, ST_bind, liftO, zoom. cbn. rewrite with_device_id, len_zeroes by done. done.
Qed.

(** ** Block pointers as a function of the disk *)
Definition ptr_at (d : list Z) (bs block idx : Z) : Z :=
  if decide (block = 0) then 0 else from_le_bytes (zread d (block * bs + idx * 4) 4).

Definition block_at (d : list Z) (bp : list Z) (bs file_block : Z) : Z :=
  let p := bs / 4 in
  if decide (file_block < 12) then default 0 (bp !! Z.to_nat file_block)
  else
    let fb := file_block - 12 in
    if decide (fb < p) then ptr_at d bs (default 0 (bp !! 12%nat)) fb
    else
      let fb := fb - p in
      if decide (fb < p * p) then
        ptr_at d bs (ptr_at d bs (default 0 (bp !! 13%nat)) (fb / p)) (fb mod p)
      else
        let fb := fb - p * p in
        ptr_at d bs (ptr_at d bs (ptr_at d bs (default 0 (bp !! 14%nat)) (fb / (p * p)))
                       (fb mod (p * p) / p)) (fb mod p).

(** The file blocks the index trees can address. *)
Definition max_blocks (bs : Z) : Z :=
  let p := bs / 4 in 12 + p + p * p + p * p * p.

Definition bs_ok (bs : Z) : Prop := 1024 <= bs <= 65536 ∧ bs mod 4 = 0.
Definition bp_ok (bp : list Z) : Prop := len bp = 15 ∧ Forall is_u32 bp.

Lemma bp_lookup_u32 bp i : bp_ok bp → is_u32 (default 0 (bp !! i)).
Proof.
  intros [_ Hu]. destruct (bp !! i) as [b|] eqn:Hb; cbn; [|by unfold in_u].
  exact (Forall_lookup_1 _ _ _ _ Hu Hb).
Qed.

Lemma index_bp {E} bp i : bp_ok bp → 0 <= i < 15 → index (E:=E) bp i = Ok (default 0 (bp !! Z.to_nat i)).
Proof.
  intros [Hl _] Hi. unfold index. rewrite decide_True by lia.
  destruct (lookup_lt_is_Some_2 bp (Z.to_nat i)) as [b ->]; [unfold len in Hl; lia|done].
Qed.

Section pointers.
Context (fs : Ext2Fs RamDisk) (bp : list Z).
Context (Hbs : bs_ok (fs_block_size fs)) (Hbp : bp_ok bp) (Hu8 : Forall is_u8 (fs_device fs)).
Let bs := fs_block_size fs.
Let d := fs_device fs.

Lemma ptr_at_u32 block idx : is_u32 (ptr_at d bs block idx).
Proof.
  unfold ptr_at. case_decide; [by unfold in_u|].
  set (l := zread d (block * bs + idx * 4) 4).
  assert (length l = 4%nat) as Hl.
  { unfold l, zread, zeroes. rewrite length_app, length_drop, length_replicate.
    unfold sub. rewrite length_take. lia. }
  pose proof (from_le_bytes_bound l (Forall_zread _ _ _ Hu8)) as Hb.
  unfold len in Hb. rewrite Hl in Hb. done.
Qed.

Lemma ptr_off_u64 block idx : is_u32 block → 0 <= idx < 2 ^ 32 → is_u64 (block * bs + idx * 4).
Proof. intros Hb Hi. unfold in_u in *. destruct Hbs as [[? ?] _]. fold bs in H, H0. nia. Qed.

Lemma read_block_ptr_run block idx :
  is_u32 block → 0 <= idx < 2 ^ 32 → read_block_ptr block idx bs fs = (fs, Ok (ptr_at d bs block idx)).
Proof.
  intros Hb Hi. unfold read_block_ptr, ptr_at. case_decide; [done|].
  unfold mbind, ST_bind. rewrite device_read_zeroes by (lia || by apply ptr_off_u64). done.
Qed.

(** The uncached lookup computes [block_at]. *)
Lemma get_block_number_run file_block :
  is_u32 file_block → get_block_number bp bs file_block fs = (fs, Ok (block_at d bp bs file_block)).
Proof.
  intros Hfb. unfold get_block_number, block_at. unfold in_u in Hfb.
  assert (256 <= bs / 4) as Hp.
  { apply Z.div_le_lower_bound; [lia|]. destruct Hbs as [[? ?] _]. fold bs in H. lia. }
  set (p := bs / 4) in *. change (bs / 4) with p.
  assert (∀ a b, 0 <= a < 2 ^ 32 → 0 < b → 0 <= a / b < 2 ^ 32) as Hdiv.
  { intros a b Ha Hb. split; [apply Z.div_pos; lia|]. apply Z.div_lt_upper_bound; nia. }
  assert (∀ a b, 0 <= a < 2 ^ 32 → 0 < b → 0 <= a mod b < 2 ^ 32) as Hmod.
  { intros a b Ha Hb. pose proof (Z.mod_pos_bound a b Hb). pose proof (Z.mod_le a b). lia. }
  destruct (decide (file_block < 12)); [unfold liftO; by rewrite index_bp by (done || lia)|].
  destruct (decide (file_block - 12 < p)).
  { unfold mbind, ST_bind, liftO. rewrite index_bp by (done || lia).
    apply read_block_ptr_run; [by apply bp_lookup_u32|lia]. }
  destruct (decide (file_block - 12 - p < p * p)).
  { unfold mbind, ST_bind, liftO. rewrite index_bp by (done || lia).
    rewrite read_block_ptr_run by ((by apply bp_lookup_u32) || apply Hdiv; lia).
    apply read_block_ptr_run; [apply ptr_at_u32|apply Hmod; lia]. }
  unfold mbind, ST_bind, liftO. rewrite index_bp by (done || lia).
  rewrite read_block_ptr_run by ((by apply bp_lookup_u32) || apply Hdiv; nia).
  rewrite read_block_ptr_run by first [apply ptr_at_u32 | apply Hdiv; [apply Hmod; nia|lia]].
  apply read_block_ptr_run; [apply ptr_at_u32|apply Hmod; nia].
Qed.
End pointers.

(** ** The cached lookup *)
Lemma read_block_ptr_from_buf_sub {E} buf i :
  0 <= i → i * 4 + 4 <= len buf →
  read_block_ptr_from_buf (E:=E) buf i = Ok (from_le_bytes (sub buf (i * 4) 4)).
Proof.
  intros Hi Hle.
  assert (∀ j, 0 <= j < len buf → ∃ b, buf !! Z.to_nat j = Some b) as Hl.
  { intros j Hj. apply lookup_lt_is_Some_2. unfold len in Hj. lia. }
  destruct (Hl (i * 4)) as [b0 H0]; [lia|]. destruct (Hl (i * 4 + 1)) as [b1 H1]; [lia|].
  destruct (Hl (i * 4 + 2)) as [b2 H2]; [lia|]. destruct (Hl (i * 4 + 3)) as [b3 H3]; [lia|].
  unfold read_block_ptr_from_buf, index. rewrite !decide_True by lia. rewrite H0, H1, H2, H3.
  cbn [mbind outcome_bind]. do 2 f_equal. apply list_eq. intros k. rewrite lookup_sub by lia.
  destruct k as [|[|[|[|k]]]]; cbn [lookup list_lookup].
  1-4: rewrite decide_True by lia; symmetry; etrans; [|eassumption]; f_equal; lia.
  by rewrite decide_False by lia.
Qed.

(** The pointers of an index block. *)
Definition pointers_of (buf : list Z) (n : Z) : list Z := (λ i, from_le_bytes (sub buf (i * 4) 4)) <$> upto n.

Lemma parse_pointers_run {E} buf n :
  n * 4 <= len buf → parse_pointers (E:=E) buf (upto n) = Ok (pointers_of buf n).
Proof.
  intros Hn. unfold pointers_of.
  assert (Forall (λ i, 0 <= i < n) (upto n)) as Hr.
  { apply Forall_forall. intros i Hi. by apply elem_of_upto. }
  induction (upto n) as [|i l IH]; [done|]. apply Forall_cons in Hr as [Hi Hr].
  cbn [parse_pointers fmap list_fmap]. rewrite read_block_ptr_from_buf_sub by lia.
  cbn [mbind outcome_bind]. unfold fmap in IH. by rewrite IH by done.
Qed.

(** The cache, if there is one, holds the pointers of a block. *)
Definition cache_ok f : Prop :=
  match ef_cache f with
  | Some (b, ps) =>
      ps = pointers_of (zread (fs_device (ef_fs f)) (b * fs_block_size (ef_fs f)) (fs_block_size (ef_fs f)))
             (fs_block_size (ef_fs f) / 4)
  | None => True
  end.

Record file_ok f : Prop := {
  fo_bs : bs_ok (fs_block_size (ef_fs f));
  fo_bp : bp_ok (i_block (ef_inode f));
  fo_u8 : Forall is_u8 (fs_device (ef_fs f));
  fo_cache : cache_ok f;
}.

Lemma with_cache_ok f c : file_ok f → cache_ok (ef_with_cache c f) → file_ok (ef_with_cache c f).
Proof. intros [] ?. by split. Qed.

(** What the cached lookup of a block gives: only the cache changes. *)
Definition looks_up f (m : ST (Ext2File RamDisk) FsError Z) (v : Z) : Prop :=
  ∃ c, m f = (ef_with_cache c f, Ok v) ∧ file_ok (ef_with_cache c f).

Abbreviation fbs f := (fs_block_size (ef_fs f)).
Abbreviation fdev f := (fs_device (ef_fs f)).

(** Steps that leave the file alone. *)
Lemma looks_up_gets {A} f (g : Ext2File RamDisk → A) k v : looks_up f (k (g f)) v → looks_up f (gets g ≫= k) v.
Proof. done. Qed.
Lemma looks_up_in_fs_gets {A} f (g : Ext2Fs RamDisk → A) k v :
  looks_up f (k (g (ef_fs f))) v → looks_up f (in_fs (gets g) ≫= k) v.
Proof. by destruct f. Qed.
Lemma looks_up_Ok {A} f (a : A) k v : looks_up f (k a) v → looks_up f (liftO (Ok a) ≫= k) v.
Proof. done. Qed.

Lemma get_or_zero_pointers d bs block idx :
  bs_ok bs → block ≠ 0 → 0 <= block → 0 <= idx < bs / 4 →
  get_or_zero (pointers_of (zread d (block * bs) bs) (bs / 4)) idx = ptr_at d bs block idx.
Proof.
  intros [Hbs Hm] Hb0 Hb Hi. unfold get_or_zero, pointers_of, ptr_at. rewrite decide_False by done.
  rewrite list_lookup_fmap, lookup_upto by lia. cbn. rewrite Z2Nat.id by lia. f_equal.
  pose proof (Z.div_mod bs 4). apply sub_zread; nia.
Qed.

Lemma read_cached_ptr_run f block idx :
  file_ok f → is_u32 block → 0 <= idx < fbs f / 4 →
  looks_up f (read_cached_ptr block idx) (ptr_at (fdev f) (fbs f) block idx).
Proof.
  intros Hf Hb Hi. destruct Hf as [Hbs Hbp Hu Hc] eqn:Hfe. clear Hfe. pose proof Hbs as [Hr Hm].
  unfold read_cached_ptr. destruct (decide (block = 0)) as [->|H0].
  { exists (ef_cache f). unfold ptr_at. rewrite decide_True by done. by destruct f. }
  pose proof (get_or_zero_pointers (fdev f) (fbs f) block idx Hbs H0 (proj1 Hb) Hi) as Hg.
  set (ps := pointers_of _ _) in Hg.
  assert (looks_up f (buf ← in_fs (device_read (block * fbs f) (zeroes (fbs f)));
      pointers ← liftO (parse_pointers buf (upto (fbs f / 4)));
      modify (ef_with_cache (Some (block, pointers)));; mret (get_or_zero pointers idx))
      (ptr_at (fdev f) (fbs f) block idx)) as Hmiss.
  { exists (Some (block, ps)). unfold mbind, ST_bind, in_fs, zoom, liftO, modify.
    rewrite device_read_zeroes by (lia || unfold in_u in *; nia). cbn [map_err id].
    rewrite parse_pointers_run by (rewrite len_zread by (unfold in_u in Hb; nia); pose proof (Z.div_mod (fbs f) 4); lia).
    fold ps. rewrite Hg. split; [by destruct f|by apply with_cache_ok]. }
  apply looks_up_in_fs_gets, looks_up_gets.
  destruct (ef_cache f) as [[cb cps]|] eqn:Hcache; [|exact Hmiss].
  case_decide as Hcb; [|exact Hmiss]. subst cb. unfold cache_ok in Hc. rewrite Hcache in Hc. fold ps in Hc. subst cps.
  exists (ef_cache f). rewrite Hg. by destruct f.
Qed.

Lemma with_cache_twice f c c' : ef_with_cache c' (ef_with_cache c f) = ef_with_cache c' f.
Proof. done. Qed.

Lemma looks_up_bind f (m : ST (Ext2File RamDisk) FsError Z) k v w :
  looks_up f m v → (∀ c, file_ok (ef_with_cache c f) → looks_up (ef_with_cache c f) (k v) w) →
  looks_up f (m ≫= k) w.
Proof.
  intros (c & Hm & Hc) Hk. destruct (Hk c Hc) as (c' & Hk' & Hc'). exists c'.
  unfold mbind, ST_bind. rewrite Hm. split; [by rewrite Hk'|done].
Qed.

(** The cached lookup computes [block_at] where the trees can address it. *)
Lemma get_block_run f file_block :
  file_ok f → 0 <= file_block < max_blocks (fbs f) →
  looks_up f (Ext2File_get_block file_block) (block_at (fdev f) (i_block (ef_inode f)) (fbs f) file_block).
Proof.
  intros Hf Hfb. pose proof Hf as [Hbs Hbp Hu _]. pose proof Hbs as [Hr _].
  assert (256 <= fbs f / 4) as Hp by (apply Z.div_le_lower_bound; lia).
  unfold Ext2File_get_block, get_block_indirect, block_at. unfold max_blocks in Hfb. cbv zeta in Hfb.
  apply looks_up_in_fs_gets. set (p := fbs f / 4) in *.
  assert (∀ a, 0 <= a mod p < p) as Hmod by (intros; apply Z.mod_pos_bound; lia).
  destruct (decide (file_block < 12)).
  { apply looks_up_gets. cbv beta; rewrite index_bp by (done || lia). exists (ef_cache f). by destruct f. }
  apply looks_up_gets. destruct (decide (file_block - 12 < p)).
  { cbv beta; rewrite index_bp by (done || lia). apply looks_up_Ok, read_cached_ptr_run; [done|by apply bp_lookup_u32|fold p; lia]. }
  destruct (decide (file_block - 12 - p < p * p)).
  { cbv beta; rewrite index_bp by (done || lia). apply looks_up_Ok. eapply looks_up_bind.
    - apply read_cached_ptr_run; [done|by apply bp_lookup_u32|]. fold p.
      split; [apply Z.div_pos; lia|apply Z.div_lt_upper_bound; lia].
    - intros c Hc. apply (read_cached_ptr_run (ef_with_cache c f)); [done|by apply ptr_at_u32|apply Hmod]. }
  cbv beta; rewrite index_bp by (done || lia). apply looks_up_Ok. eapply looks_up_bind.
  { apply read_cached_ptr_run; [done|by apply bp_lookup_u32|]. fold p.
    split; [apply Z.div_pos; nia|apply Z.div_lt_upper_bound; nia]. }
  intros c Hc. eapply looks_up_bind.
  { apply (read_cached_ptr_run (ef_with_cache c f)); [done|by apply ptr_at_u32|]. cbn [ef_fs ef_with_cache]. fold p.
    pose proof (Z.mod_pos_bound (file_block - 12 - p - p * p) (p * p)).
    split; [apply Z.div_pos; nia|apply Z.div_lt_upper_bound; nia]. }
  intros c' Hc'. apply (read_cached_ptr_run (ef_with_cache c' f)); [done|by apply ptr_at_u32|apply Hmod].
Qed.


(** ** Contents *)

(** The byte at [i]: zero in a hole. *)
Definition byte_at (d : list Z) (bp : list Z) (bs i : Z) : Z :=
  let b := block_at d bp bs (i / bs) in
  if decide (b = 0) then 0 else default 0 (d !! Z.to_nat (b * bs + i mod bs)).
Definition bytes_at (d : list Z) (bp : list Z) (bs off n : Z) : list Z :=
  (λ k, byte_at d bp bs (off + k)) <$> upto n.

(** The blocks of the first [size] bytes lie on the disk. *)
Definition mapped f (size : Z) : Prop :=
  ∀ i, 0 <= i < size → let b := block_at (fdev f) (i_block (ef_inode f)) (fbs f) (i / fbs f) in
    b ≠ 0 → 0 <= b ∧ (b + 1) * fbs f <= len (fdev f).

Lemma lookup_bytes_at d bp bs off n i :
  0 <= n → bytes_at d bp bs off n !! i = if decide (Z.of_nat i < n) then Some (byte_at d bp bs (off + Z.of_nat i)) else None.
Proof.
  intros Hn. unfold bytes_at. rewrite list_lookup_fmap. destruct (decide _).
  - by rewrite lookup_upto by lia.
  - rewrite lookup_ge_None_2; [done|]. unfold upto. rewrite length_fmap, length_seq. lia.
Qed.
Lemma len_bytes_at d bp bs off n : 0 <= n → len (bytes_at d bp bs off n) = n.
Proof. intros. unfold bytes_at, len. rewrite length_fmap. by apply len_upto. Qed.

Lemma bytes_at_split d bp bs off n m :
  0 <= n → 0 <= m → bytes_at d bp bs off (n + m) = bytes_at d bp bs off n ++ bytes_at d bp bs (off + n) m.
Proof.
  intros Hn Hm. pose proof (len_bytes_at d bp bs off n Hn) as Hl.
  apply list_eq. intros i. rewrite lookup_bytes_at by lia.
  destruct (decide (i < length (bytes_at d bp bs off n))%nat) as [Hi|Hi]; unfold len in Hl.
  - rewrite lookup_app_l, lookup_bytes_at by lia. by rewrite !decide_True by lia.
  - rewrite lookup_app_r, lookup_bytes_at by lia.
    destruct (decide _), (decide _); try lia; [|done]. do 2 f_equal. lia.
Qed.

(** One chunk: inside a block the bytes are contiguous on the disk. *)
Lemma chunk_bytes d bp bs pos n :
  0 < bs → 0 <= pos → 0 <= n → pos mod bs + n <= bs →
  let b := block_at d bp bs (pos / bs) in
  0 <= b → (b ≠ 0 → (b + 1) * bs <= len d) →
  bytes_at d bp bs pos n = if decide (b = 0) then zeroes n else sub d (b * bs + pos mod bs) n.
Proof.
  intros Hbs Hp Hn Hle b Hb0 Hb. pose proof (Z.mod_pos_bound pos bs Hbs). pose proof (Z.div_mod pos bs).
  apply list_eq. intros i. rewrite lookup_bytes_at by done.
  destruct (decide (Z.of_nat i < n)) as [Hi|Hi].
  - assert ((pos + Z.of_nat i) / bs = pos / bs ∧ (pos + Z.of_nat i) mod bs = pos mod bs + Z.of_nat i) as [Hq Hr].
    { assert (pos + Z.of_nat i = (pos mod bs + Z.of_nat i) + pos / bs * bs) as -> by lia.
      rewrite Z.div_add, Z.mod_add by lia. rewrite Z.div_small, Z.mod_small by lia. lia. }
    unfold byte_at. rewrite Hq, Hr. fold b. destruct (decide (b = 0)).
    + unfold zeroes. symmetry. apply lookup_replicate_2. lia.
    + rewrite lookup_sub, decide_True by lia.
      destruct (lookup_lt_is_Some_2 d (Z.to_nat (b * bs + pos mod bs + Z.of_nat i))) as [x Hx].
      { specialize (Hb n0). unfold len in Hb. nia. }
      rewrite Hx. replace (b * bs + (pos mod bs + Z.of_nat i)) with (b * bs + pos mod bs + Z.of_nat i) by lia.
      by rewrite Hx.
  - symmetry. apply lookup_ge_None_2. destruct (decide (b = 0)).
    + unfold zeroes. rewrite length_replicate. lia.
    + unfold sub. rewrite length_take. lia.
Qed.

(** The sizes a file can have: its blocks are addressable and numbered by
    [u32]. *)
Definition size_ok f (size : Z) : Prop :=
  size <= max_blocks (fbs f) * fbs f ∧ size <= 2 ^ 32 * fbs f ∧ len (fdev f) < 2 ^ 64.

(** The file after a read of [n] bytes. *)
Definition moved (f : Ext2File RamDisk) (n : Z) (c : option (Z * list Z)) : Ext2File RamDisk :=
  ef_with_pos (ef_pos f + n) (ef_with_cache c f).

(** What one round stores: the bytes of the file, up to the block's end. *)
Lemma read_chunk f to_read done buf :
  file_ok f → mapped f (ef_pos f + (to_read - done)) → size_ok f (ef_pos f + (to_read - done)) →
  0 <= ef_pos f → 0 <= done < to_read → to_read <= len buf →
  let pos := ef_pos f in
  let bs := fbs f in
  let chunk := Z.min (bs - pos mod bs) (to_read - done) in
  0 < chunk <= to_read - done ∧
  ∃ c, file_ok (moved f chunk c) ∧
    (block_num ← Ext2File_get_block (wrap_u 32 (pos / bs));
     part ← (if decide (block_num = 0) then mret (zeroes chunk)
             else old ← liftO (slice buf done (done + chunk));
                  in_fs (device_read (block_num * bs + pos mod bs) old));
     buf ← liftO (copy_at buf done part);
     ef_advance chunk;; mret buf) f =
    (moved f chunk c, Ok (splice buf done (bytes_at (fdev f) (i_block (ef_inode f)) bs pos chunk))).
Proof.
  intros Hf Hmap (Hs1 & Hs2 & Hs3) Hp Hd Hle pos bs chunk. pose proof Hf as [Hbs Hbp Hu8 _].
  pose proof Hbs as [Hr _]. fold bs in Hr. pose proof (Z.mod_pos_bound pos bs). pose proof (Z.div_mod pos bs).
  assert (0 < chunk <= to_read - done) as Hch by (unfold chunk; lia). split; [done|].
  fold pos bs in Hs1, Hs2, Hp.
  assert (0 <= pos / bs < max_blocks bs ∧ pos / bs < 2 ^ 32) as [Hfb Hfb32].
  { split; [split; [apply Z.div_pos; lia|]|]; apply Z.div_lt_upper_bound; lia. }
  rewrite wrap_u_small by (unfold in_u; lia).
  destruct (get_block_run f (pos / bs) Hf) as (c & Hc & Hok); [done|]. fold bs in Hc.
  exists c. set (b := block_at _ _ _ _) in Hc.
  assert (b ≠ 0 → 0 <= b ∧ (b + 1) * bs <= len (fdev f)) as Hb by (apply (Hmap pos); lia).
  assert (0 <= b) as Hb0 by lia.
  rewrite (chunk_bytes (fdev f) _ bs pos chunk) by (done || lia). fold b.
  split; [by destruct Hok|]. rewrite (bind_run _ _ _ _ _ Hc).
  assert (∀ part, len part = chunk → (buf ← liftO (copy_at buf done part); ef_advance chunk;; mret buf) (ef_with_cache c f) =
    (moved f chunk c, Ok (splice buf done part))) as Htail.
  { intros part Hpart. rewrite copy_at_splice by lia. unfold mbind, ST_bind, liftO, ef_advance, chk.
    unfold mbind, ST_bind, liftO, gets, modify. rewrite decide_True; [done|]. cbn [ef_pos ef_with_cache].
    fold pos. unfold in_u. nia. }
  destruct (decide (b = 0)) as [Hz|Hz].
  - rewrite (bind_run _ _ _ (ef_with_cache c f) (zeroes chunk)) by done. apply Htail, len_zeroes. lia.
  - destruct (Hb Hz) as [_ Hb']. rewrite slice_sub by lia.
    replace (done + chunk - done) with chunk by lia.
    assert (len (sub buf done chunk) = chunk) as Hl by (apply len_sub; lia).
    rewrite (bind_run _ _ _ (ef_with_cache c f) (sub (fdev f) (b * bs + pos mod bs) chunk)).
    { apply Htail, len_sub; unfold chunk in *; nia. }
    unfold mbind, ST_bind, liftO, in_fs, zoom. cbn [ef_fs ef_with_cache].
    rewrite device_read_run by (rewrite ?Hl; unfold chunk in *; nia). by rewrite Hl.
Qed.

(** The loop. *)
Lemma read_loop_run fuel to_read done buf f :
  file_ok f → mapped f (ef_pos f + (to_read - done)) → size_ok f (ef_pos f + (to_read - done)) →
  0 <= ef_pos f → 0 <= done <= to_read → to_read <= len buf → to_read - done < Z.of_nat fuel →
  ∃ c, file_ok (moved f (to_read - done) c) ∧
    read_loop fuel to_read done buf f =
    (moved f (to_read - done) c,
     Ok (splice buf done (bytes_at (fdev f) (i_block (ef_inode f)) (fbs f) (ef_pos f) (to_read - done)), to_read)).
Proof.
  revert done buf f. induction fuel as [|fuel IH]; intros done buf f Hf Hmap Hs Hp Hd Hle Hfu; [lia|].
  cbn [read_loop]. destruct (decide (to_read <= done)).
  { exists (ef_cache f). assert (to_read - done = 0) as Hz by lia. rewrite Hz. assert (done = to_read) as -> by lia.
    unfold moved. rewrite Z.add_0_r. split; [by destruct Hf|].
    assert (splice buf to_read [] = buf) as Hsp.
    { unfold splice. change (len (@nil Z)) with 0. by rewrite Z.add_0_r, app_nil_l, take_drop. }
    change (bytes_at _ _ _ _ 0) with (@nil Z). rewrite Hsp. by destruct f. }
  destruct (read_chunk f to_read done buf) as (Hch & c & Hok & Hrun); try done; [lia|].
  set (chunk := Z.min _ _) in *.
  destruct (IH (done + chunk) (splice buf done (bytes_at (fdev f) (i_block (ef_inode f)) (fbs f) (ef_pos f) chunk)) (moved f chunk c))
    as (c' & Hok' & Hrun'); try done.
  - intros i Hi. apply Hmap. cbn in Hi. lia.
  - destruct Hs as (? & ? & ?). split_and!; cbn [moved ef_pos ef_fs ef_with_pos ef_with_cache]; [lia..|done].
  - cbn [moved ef_pos ef_with_pos]. lia.
  - lia.
  - rewrite len_splice; rewrite ?len_bytes_at; lia.
  - lia.
  - exists c'. cbn [moved ef_pos ef_fs ef_inode ef_with_pos ef_with_cache] in Hok', Hrun'.
    assert (moved (moved f chunk c) (to_read - (done + chunk)) c' = moved f (to_read - done) c') as Hm.
    { unfold moved, ef_with_pos, ef_with_cache. cbn. f_equal. lia. }
    rewrite Hm in Hok', Hrun'. split; [done|].
    replace (to_read - done) with (chunk + (to_read - (done + chunk))) at 2 by lia.
    rewrite bytes_at_split by lia.
    rewrite <- (splice_app buf done _ _ (done + chunk)) by (rewrite ?len_bytes_at; lia).
    rewrite <- Hrun'. rewrite (bind_run _ _ _ f (fbs f)) by (by destruct f).
    rewrite (bind_run _ _ _ f (ef_pos f)) by done. fold chunk.
    rewrite <- (bind_run _ (λ buf, read_loop fuel to_read (done + chunk) buf) _ _ _ Hrun).
    repeat (rewrite bind_assoc; apply bind_ext; intros). done.
Qed.

(** C14.  [read] returns the file: from any position it stores the bytes of the
    file at that position, as many as fit the buffer and the file has left,
    holes as zeroes, leaves the rest of the buffer alone and moves the position
    by the count it returns.  Nothing else of the file system changes. *)
Theorem ext2_read_exact f buf :
  file_ok f → mapped f (ef_size f) → size_ok f (ef_size f) → 0 <= ef_pos f →
  let k := Z.max 0 (Z.min (len buf) (ef_size f - ef_pos f)) in
  ∃ c, file_ok (moved f k c) ∧
    Ext2File_read buf f =
    (moved f k c, Ok (splice buf 0 (bytes_at (fdev f) (i_block (ef_inode f)) (fbs f) (ef_pos f) k), k)).
Proof.
  intros Hf Hmap Hs Hp k. pose proof (len_nonneg buf). unfold Ext2File_read.
  rewrite (bind_run _ _ _ f (ef_pos f)) by done. rewrite (bind_run _ _ _ f (ef_size f)) by done.
  destruct (decide (ef_size f <= ef_pos f)).
  { exists (ef_cache f). assert (k = 0) as -> by lia. unfold moved. rewrite Z.add_0_r.
    split; [by destruct Hf|]. change (bytes_at _ _ _ _ 0) with (@nil Z). unfold splice. by destruct f. }
  replace k with (Z.min (len buf) (ef_size f - ef_pos f)) by lia. clear k. set (k := Z.min _ _).
  destruct (read_loop_run (S (Z.to_nat k)) k 0 buf f) as (c & Hok & Hrun); try done; try lia.
  - intros i Hi. apply Hmap. lia.
  - destruct Hs as (? & ? & ?). split_and!; [lia..|done].
  - rewrite Z.sub_0_r in Hok, Hrun. by exists c.
Qed.

(** The root directory of the small image, read as a file from byte 12. *)
Definition root_file : Ext2File RamDisk := ef_with_pos 12 (Ext2File_new tiny_fs root_inode 2).

Lemma root_file_ok : file_ok root_file.
Proof.
  split; [done| |apply in_u_list; by vm_compute|done]. split; [done|]. apply in_u_list. by vm_compute.
Qed.


Lemma ext2_read_exact_witness :
  file_ok root_file ∧ ∃ f', Ext2File_read (zeroes 8) root_file = (f', Ok ([2; 0; 0; 0; 244; 3; 2; 2], 8)).
Proof.
  split; [apply root_file_ok|].
  destruct (ext2_read_exact root_file (zeroes 8) root_file_ok) as (c & _ & Hrun).
  - intros i Hi. change (ef_size root_file) with 1024 in Hi. cbn zeta. change (fbs root_file) with 1024.
    rewrite (Z.div_small i 1024) by lia. by vm_compute.
  - split_and!; by vm_compute.
  - by vm_compute.
  - eexists. rewrite Hrun. f_equal.
Defined.

(** A file opened twice and written through both. *)
Definition two_writers : list call :=
  [ CCreate [102] 0x1A4; COpen [102]; CWrite 0 [1; 2; 3]; CWrite 1 [9]; COpen [102]; CRead 2 8;
    CSeek 0 (SeekStart 0); CRead 0 8; CUnlink [102]; CYield ].

