(* ===== verification/Ext2Mount.v ===== *)
(** * Mounting untrusted disks

    What [mount] makes of any bytes, and the on-disk structures as a codec. *)

From S2P Require Import Prelude Effects BlockDevice FsTypes Ext2Structs Ext2Fs Ext2Alloc Ext2Layout Ext2Image Ext2File Ext2Session Ext2FileProof.

(** The types and sizes of a freshly mounted file system. *)
Record mounted (d : RamDisk) (fs : Ext2Fs RamDisk) : Prop := {
  mo_device : fs_device fs = d;
  mo_bs : fs_block_size fs ∈ [1024; 2048; 4096; 8192; 16384; 32768; 65536];
  mo_bs_sb : Superblock_block_size (fs_superblock fs) = Some (fs_block_size fs);
  mo_sb : Superblock_wf (fs_superblock fs) ∧ s_magic (fs_superblock fs) = EXT2_SUPER_MAGIC;
  mo_groups : Forall Bgd_wf (fs_block_groups fs);
  mo_count : Superblock_block_group_count (fs_superblock fs) = Some (len (fs_block_groups fs)) ∧
             1 <= len (fs_block_groups fs) <= MAX_BLOCK_GROUPS;
  mo_inodes : 128 <= fs_inode_size fs <= 1024 ∧ 0 < fs_inodes_per_group fs;
  mo_blocks : 0 < fs_blocks_count fs ∧ fs_blocks_count fs = s_blocks_count (fs_superblock fs);
  mo_spawned : fs_spawned fs = [];
}.

Lemma read_at_zeroed_run (d : RamDisk) off n e :
  is_u64 off → 0 <= n → read_at_zeroed off n e d = (d, Ok (zread d off n)).
Proof.
  intros Ho Hn. unfold read_at_zeroed, chk. rewrite decide_True by done.
  unfold mbind, ST_bind, liftO, zoom. cbn. by rewrite len_zeroes by done.
Qed.

Lemma read_descriptors_ok {E} n buf :
  Forall is_u8 buf → Z.of_nat n * DESC_SIZE <= len buf →
  ∃ gs, read_descriptors (E:=E) n buf = Ok gs ∧ length gs = n ∧ Forall Bgd_wf gs.
Proof.
  revert buf. induction n as [|n IH]; intros buf Hu Hl; cbn [read_descriptors].
  { by exists []. }
  unfold DESC_SIZE in *.
  destruct (Bgd_to_of (take 32 buf)) as (g & Hg & Hwf & _); [by apply Forall_take|unfold len in *; rewrite length_take; lia|].
  destruct (IH (drop 32 buf)) as (gs & Hgs & Hlen & Hwfs); [by apply Forall_drop|unfold len in *; rewrite length_drop; lia|].
  rewrite Hg. cbn [from_buf mbind outcome_bind]. rewrite Hgs. exists (g :: gs). cbn. auto.
Qed.

(** C24.  Mounting is total on untrusted disks: on any bytes [mount] returns an
    error or a file system, never panics and never writes; a file system it
    returns is well-typed, with a block size that is a power of two from 1 KiB
    to 64 KiB, one descriptor per group of the superblock, and divisors that
    are not zero. *)
Theorem ext2_mount_untrusted (d : RamDisk) :
  Forall is_u8 d →
  ∃ r, Ext2_mount d = (d, r) ∧
    match r with Ok fs => mounted d fs | Err _ => True | Panic | OutOfFuel => False end.
Proof.
  intros Hu. unfold Ext2_mount.
  rewrite (bind_run _ _ _ d (zread d SUPERBLOCK_OFFSET 1024)) by (by apply read_at_zeroed_run).
  destruct (Superblock_to_of (zread d SUPERBLOCK_OFFSET 1024)) as (sb & -> & Hwf & _);
    [by apply Forall_zread|by apply len_zread|].
  rewrite (bind_run _ _ _ d sb) by done.
  case_decide as Hmagic; [by eexists|].
  destruct (Superblock_validate sb) as [[]|e| |] eqn:Hv.
  2: { by eexists. }
  2-3: exfalso; unfold Superblock_validate in Hv; repeat case_decide; done.
  rewrite (bind_run _ _ _ d tt) by done. case_decide as Hf; [by eexists|].
  destruct (validate_ok sb Hwf Hv) as (bs & n & Hbs & Hn & Hin & Hr & Hi & _ & Hipg & Hbc).
  rewrite Hbs, Hn. rewrite (bind_run _ _ _ d bs), (bind_run _ _ _ d n) by done.
  assert (is_u64 (bgdt_offset bs)) as Ho.
  { unfold bgdt_offset. case_decide; [by unfold in_u|]. unfold in_u.
    clear -Hin. repeat (apply elem_of_cons in Hin as [->|Hin]; [done|]). by apply not_elem_of_nil in Hin. }
  assert (0 <= n * DESC_SIZE) as Hd by (unfold DESC_SIZE; lia).
  rewrite (bind_run _ _ _ d (zread d (bgdt_offset bs) (n * DESC_SIZE))) by (by apply read_at_zeroed_run).
  destruct (read_descriptors_ok (E:=MountError) (Z.to_nat n) (zread d (bgdt_offset bs) (n * DESC_SIZE)))
    as (gs & Hgs & Hlen & Hwfs); [by apply Forall_zread|rewrite len_zread by (done || apply Ho); unfold DESC_SIZE; lia|].
  rewrite Hgs. rewrite (bind_run _ _ _ d gs) by done. eexists. split; [done|].
  assert (len gs = n) as Hl by (unfold len; lia).
  split; cbn; rewrite ?Hl; try done.
Qed.

Lemma ext2_mount_untrusted_witness :
  Forall is_u8 tiny_disk ∧ mounted tiny_disk tiny_fs.
Proof.
  assert (Forall is_u8 tiny_disk) as Hu by (apply in_u_list; by vm_compute).
  split; [done|]. destruct (ext2_mount_untrusted tiny_disk Hu) as (r & Hr & Hm).
  rewrite tiny_mount in Hr. injection Hr as <-. exact Hm.
Defined.

(** The structures of the disk are read back as they were written, and
    any bytes of the right length are some structure: superblocks, group
    descriptors and inodes are in bijection with their byte images. *)
Theorem ext2_structs_roundtrip :
  (∀ sb, Superblock_wf sb → len (Superblock_to_bytes sb) = 1024 ∧ Superblock_of_bytes (Superblock_to_bytes sb) = Some sb) ∧
  (∀ g, Bgd_wf g → len (Bgd_to_bytes g) = 32 ∧ Bgd_of_bytes (Bgd_to_bytes g) = Some g) ∧
  (∀ i, Inode_wf i → len (Inode_to_bytes i) = 128 ∧ Inode_of_bytes (Inode_to_bytes i) = Some i) ∧
  (∀ bs, Forall is_u8 bs → len bs = 1024 →
    ∃ sb, Superblock_of_bytes bs = Some sb ∧ Superblock_wf sb ∧ Superblock_to_bytes sb = bs) ∧
  (∀ bs, Forall is_u8 bs → len bs = 32 →
    ∃ g, Bgd_of_bytes bs = Some g ∧ Bgd_wf g ∧ Bgd_to_bytes g = bs) ∧
  (∀ bs, Forall is_u8 bs → len bs = 128 →
    ∃ i, Inode_of_bytes bs = Some i ∧ Inode_wf i ∧ Inode_to_bytes i = bs).
Proof.
  split_and!; auto using len_Superblock_to_bytes, Superblock_of_to, len_Bgd_to_bytes, Bgd_of_to,
    len_Inode_to_bytes, Inode_of_to, Superblock_to_of, Bgd_to_of, Inode_to_of.
Qed.
