(* ===== verification/CompositorProtocol.v ===== *)
(** * The compositor's wire protocol ([userspace/compositor-protocol])

    Requests and events are frames of fixed-width little-endian fields after a
    tag.  [encode] writes into a caller's buffer and returns the length, or
    [None] ([Err tt] here) if the buffer is too small; [decode] reads untrusted
    bytes. *)

From S2P Require Import Prelude Effects BlockDevice.

(** ** Rectangles *)
Record Rect : Type := mkRect { r_x : Z; r_y : Z; r_width : Z; r_height : Z }.
#[export] Instance Rect_eq_dec : EqDecision Rect.
Proof. solve_decision. Defined.

Definition FORMAT_BGRA8888 : Z := 1.

Definition TAG_CREATE_WINDOW : Z := 1.
Definition TAG_ATTACH_BUFFER : Z := 2.
Definition TAG_DAMAGE : Z := 3.
Definition TAG_COMMIT : Z := 4.
Definition TAG_FILL : Z := 5.
Definition TAG_SET_VISIBLE : Z := 6.
Definition TAG_MOVE : Z := 7.
Definition TAG_DESTROY_WINDOW : Z := 8.

Definition TAG_DISPLAY_FORMATS : Z := 1.
Definition TAG_WINDOW_CREATED : Z := 2.
Definition TAG_FRAME_DONE : Z := 3.
Definition TAG_BUFFER_RELEASED : Z := 4.
Definition TAG_CLOSED : Z := 5.

Definition MAX_FORMATS : Z := 16.
Definition LONGEST_FIXED_FRAME : Z := 1 + 8 + 16 + 4.
Definition LONGEST_VARIABLE_FRAME : Z := 1 + 4 + 4 + 1 + MAX_FORMATS.
Definition COMP_MAX_FRAME_SIZE : Z :=
  if decide (LONGEST_FIXED_FRAME > LONGEST_VARIABLE_FRAME) then LONGEST_FIXED_FRAME else LONGEST_VARIABLE_FRAME.

(** ** Fields *)
Definition u8_at (buf : list Z) (offset : Z) : option Z := buf !! Z.to_nat offset.
Definition u32_at (buf : list Z) (offset : Z) : option Z :=
  bs ← get_range buf offset (offset + 4); Some (from_le_bytes bs).
Definition u64_at (buf : list Z) (offset : Z) : option Z :=
  bs ← get_range buf offset (offset + 8); Some (from_le_bytes bs).
Definition rect_at (buf : list Z) (offset : Z) : option Rect :=
  x ← u32_at buf offset;
  y ← u32_at buf (offset + 4);
  width ← u32_at buf (offset + 8);
  height ← u32_at buf (offset + 12);
  Some (mkRect x y width height).

(** The assignments [buf[off..off + n].copy_from_slice(bytes)] of an encoder, in
    order. *)
Fixpoint put_at (buf : list Z) (fields : list (Z * list Z)) : outcome () (list Z) :=
  match fields with
  | [] => Ok buf
  | (off, bytes) :: fields => buf ← copy_at buf off bytes; put_at buf fields
  end.
Definition put_rect (offset : Z) (r : Rect) : list (Z * list Z) :=
  [(offset, to_le_bytes 4 (r_x r)); (offset + 4, to_le_bytes 4 (r_y r));
   (offset + 8, to_le_bytes 4 (r_width r)); (offset + 12, to_le_bytes 4 (r_height r))].

(** [if buf.len() < total { return None; }], the assignments, [Some(total)]. *)
Definition frame_into (buf : list Z) (total : Z) (fields : list (Z * list Z)) : outcome () (list Z * Z) :=
  if decide (len buf < total) then Err tt
  else buf ← put_at buf fields; Ok (buf, total).

(** ** Requests *)
Inductive CompRequest : Type :=
| CreateWindow
| AttachBuffer (window width height format : Z)
| Damage (window : Z) (rect : Rect)
| Commit (window : Z)
| CompFill (window : Z) (rect : Rect) (colour : Z)
| SetVisible (window : Z) (visible : bool)
| MoveWindow (window x y : Z)
| DestroyWindow (window : Z).

Definition CompRequest_encode (r : CompRequest) (buf : list Z) : outcome () (list Z * Z) :=
  match r with
  | CreateWindow => frame_into buf 1 [(0, [TAG_CREATE_WINDOW])]
  | AttachBuffer window width height format =>
      frame_into buf (1 + 8 + 4 + 4 + 1)
        [(0, [TAG_ATTACH_BUFFER]); (1, to_le_bytes 8 window); (9, to_le_bytes 4 width);
         (13, to_le_bytes 4 height); (17, [format])]
  | Damage window rect =>
      frame_into buf (1 + 8 + 16) ([(0, [TAG_DAMAGE]); (1, to_le_bytes 8 window)] ++ put_rect 9 rect)
  | Commit window => frame_into buf (1 + 8) [(0, [TAG_COMMIT]); (1, to_le_bytes 8 window)]
  | CompFill window rect colour =>
      frame_into buf (1 + 8 + 16 + 4)
        ([(0, [TAG_FILL]); (1, to_le_bytes 8 window)] ++ put_rect 9 rect ++ [(25, to_le_bytes 4 colour)])
  | SetVisible window visible =>
      frame_into buf (1 + 8 + 1)
        [(0, [TAG_SET_VISIBLE]); (1, to_le_bytes 8 window); (9, [if visible then 1 else 0])]
  | MoveWindow window x y =>
      frame_into buf (1 + 8 + 4 + 4)
        [(0, [TAG_MOVE]); (1, to_le_bytes 8 window); (9, to_le_bytes 4 x); (13, to_le_bytes 4 y)]
  | DestroyWindow window => frame_into buf (1 + 8) [(0, [TAG_DESTROY_WINDOW]); (1, to_le_bytes 8 window)]
  end.

Definition CompRequest_decode (buf : list Z) : option CompRequest :=
  tag ← head buf;
  if decide (tag = TAG_CREATE_WINDOW) then Some CreateWindow
  else if decide (tag = TAG_ATTACH_BUFFER) then
    window ← u64_at buf 1; width ← u32_at buf 9; height ← u32_at buf 13; format ← u8_at buf 17;
    Some (AttachBuffer window width height format)
  else if decide (tag = TAG_DAMAGE) then
    window ← u64_at buf 1; rect ← rect_at buf 9; Some (Damage window rect)
  else if decide (tag = TAG_COMMIT) then window ← u64_at buf 1; Some (Commit window)
  else if decide (tag = TAG_FILL) then
    window ← u64_at buf 1; rect ← rect_at buf 9; colour ← u32_at buf 25; Some (CompFill window rect colour)
  else if decide (tag = TAG_SET_VISIBLE) then
    window ← u64_at buf 1; v ← u8_at buf 9; Some (SetVisible window (bool_decide (v ≠ 0)))
  else if decide (tag = TAG_MOVE) then
    window ← u64_at buf 1; x ← u32_at buf 9; y ← u32_at buf 13; Some (MoveWindow window x y)
  else if decide (tag = TAG_DESTROY_WINDOW) then window ← u64_at buf 1; Some (DestroyWindow window)
  else None.

(** ** Events *)
Inductive CompEvent : Type :=
| DisplayFormats (width height : Z) (formats : list Z)
| WindowCreated (window : Z)
| FrameDone (window frame : Z)
| BufferReleased (window buffer : Z)
| CompClosed (window : Z).
#[export] Instance CompEvent_eq_dec : EqDecision CompEvent.
Proof. solve_decision. Defined.

Definition encode_one (buf : list Z) (tag value : Z) : outcome () (list Z * Z) :=
  frame_into buf (1 + 8) [(0, [tag]); (1, to_le_bytes 8 value)].
Definition encode_two (buf : list Z) (tag first second : Z) : outcome () (list Z * Z) :=
  frame_into buf (1 + 8 + 8) [(0, [tag]); (1, to_le_bytes 8 first); (9, to_le_bytes 8 second)].

Definition CompEvent_encode (e : CompEvent) (buf : list Z) : outcome () (list Z * Z) :=
  match e with
  | DisplayFormats width height formats =>
      if decide (len formats > MAX_FORMATS) then Err tt
      else frame_into buf (1 + 4 + 4 + 1 + len formats)
             [(0, [TAG_DISPLAY_FORMATS]); (1, to_le_bytes 4 width); (5, to_le_bytes 4 height);
              (9, [wrap_u 8 (len formats)]); (10, formats)]
  | WindowCreated window => encode_one buf TAG_WINDOW_CREATED window
  | FrameDone window frame => encode_two buf TAG_FRAME_DONE window frame
  | BufferReleased window buffer => encode_two buf TAG_BUFFER_RELEASED window buffer
  | CompClosed window => encode_one buf TAG_CLOSED window
  end.

Definition CompEvent_decode (buf : list Z) : option CompEvent :=
  tag ← head buf;
  if decide (tag = TAG_DISPLAY_FORMATS) then
    count ← u8_at buf 9;
    width ← u32_at buf 1; height ← u32_at buf 5; formats ← get_range buf 10 (10 + count);
    Some (DisplayFormats width height formats)
  else if decide (tag = TAG_WINDOW_CREATED) then window ← u64_at buf 1; Some (WindowCreated window)
  else if decide (tag = TAG_FRAME_DONE) then
    window ← u64_at buf 1; frame ← u64_at buf 9; Some (FrameDone window frame)
  else if decide (tag = TAG_BUFFER_RELEASED) then
    window ← u64_at buf 1; buffer ← u64_at buf 9; Some (BufferReleased window buffer)
  else if decide (tag = TAG_CLOSED) then window ← u64_at buf 1; Some (CompClosed window)
  else None.

(** ** Frames as bytes *)
Fixpoint field_bytes (fields : list (Z * list Z)) : list Z :=
  match fields with [] => [] | (_, bs) :: fields => bs ++ field_bytes fields end.

(** Each field starts where the one before ends. *)
Fixpoint contiguous (off : Z) (fields : list (Z * list Z)) : Prop :=
  match fields with [] => True | (o, bs) :: fields => o = off ∧ contiguous (off + len bs) fields end.

Lemma put_at_run buf done fields :
  contiguous (len done) fields → len done + len (field_bytes fields) <= len buf →
  put_at (splice buf 0 done) fields = Ok (splice buf 0 (done ++ field_bytes fields)).
Proof.
  revert done. induction fields as [|[o bs] fields IH]; intros done; cbn [contiguous field_bytes put_at].
  { by rewrite app_nil_r. }
  intros [-> Hc] Hl. rewrite len_app in Hl. pose proof (len_nonneg (field_bytes fields)).
  pose proof (len_nonneg done). pose proof (len_nonneg bs).
  rewrite copy_at_splice by (rewrite ?len_splice; lia). cbn [mbind outcome_bind].
  rewrite splice_app by lia. rewrite app_assoc. apply IH; rewrite len_app; [done|lia].
Qed.

Lemma frame_into_run buf total fields :
  contiguous 0 fields → len (field_bytes fields) = total → total <= len buf →
  frame_into buf total fields = Ok (splice buf 0 (field_bytes fields), total).
Proof.
  intros Hc Hl Hle. unfold frame_into. rewrite decide_False by lia.
  assert (buf = splice buf 0 []) as E by done.
  rewrite E at 1. rewrite (put_at_run buf []) by (done || change (len (@nil Z)) with 0; lia). done.
Qed.

(** A field is read back from its place in the frame. *)
Lemma field_at fields off bs :
  contiguous 0 fields → (off, bs) ∈ fields → get_range (field_bytes fields) off (off + len bs) = Some bs.
Proof.
  intros Hc (f1 & f2 & ->)%list_elem_of_split.
  assert (∀ o f1, contiguous o (f1 ++ (off, bs) :: f2) → off = o + len (field_bytes f1)) as Hoff.
  { intros o l. revert o. induction l as [|[o' b] l IH]; intros o; cbn.
    - intros [-> _]. change (len (@nil Z)) with 0. lia.
    - intros [-> Hl]. rewrite len_app. specialize (IH _ Hl). lia. }
  assert (field_bytes (f1 ++ (off, bs) :: f2) = field_bytes f1 ++ bs ++ field_bytes f2) as ->.
  { clear. induction f1 as [|[o b] f1 IH]; cbn; [done|]. by rewrite IH, app_assoc. }
  rewrite (Hoff 0 f1 Hc), Z.add_0_l. apply get_range_app.
Qed.

Lemma u64_at_field fields off v :
  contiguous 0 fields → (off, to_le_bytes 8 v) ∈ fields → is_u64 v → u64_at (field_bytes fields) off = Some v.
Proof.
  intros Hc Hin Hv. unfold u64_at. pose proof (field_at _ _ _ Hc Hin) as Hf.
  rewrite len_to_le_bytes in Hf. change (Z.of_nat 8) with 8 in Hf. rewrite Hf. cbn [mbind option_bind]. by rewrite from_to_le_bytes, wrap_u_small.
Qed.
Lemma u32_at_field fields off v :
  contiguous 0 fields → (off, to_le_bytes 4 v) ∈ fields → is_u32 v → u32_at (field_bytes fields) off = Some v.
Proof.
  intros Hc Hin Hv. unfold u32_at. pose proof (field_at _ _ _ Hc Hin) as Hf.
  rewrite len_to_le_bytes in Hf. change (Z.of_nat 4) with 4 in Hf. rewrite Hf. cbn [mbind option_bind]. by rewrite from_to_le_bytes, wrap_u_small.
Qed.
Lemma u8_at_field fields off v :
  contiguous 0 fields → (off, [v]) ∈ fields → u8_at (field_bytes fields) off = Some v.
Proof.
  intros Hc Hin. pose proof (field_at _ _ _ Hc Hin) as Hf. unfold get_range in Hf.
  case_decide as Hr; [|done]. injection Hf as Hf. unfold u8_at.
  replace (Z.to_nat off) with (Z.to_nat off + 0)%nat by lia. rewrite <- lookup_drop.
  replace (Z.to_nat (off + len [v] - off)) with 1%nat in Hf by (change (len [v]) with 1; lia).
  destruct (drop _ _); [done|]. by injection Hf as ->.
Qed.

(** ** Round trips *)
Definition Rect_wf (r : Rect) : Prop :=
  is_u32 (r_x r) ∧ is_u32 (r_y r) ∧ is_u32 (r_width r) ∧ is_u32 (r_height r).
Definition CompRequest_wf (r : CompRequest) : Prop :=
  match r with
  | CreateWindow => True
  | AttachBuffer window width height format => is_u64 window ∧ is_u32 width ∧ is_u32 height ∧ is_u8 format
  | Damage window rect => is_u64 window ∧ Rect_wf rect
  | Commit window | SetVisible window _ | DestroyWindow window => is_u64 window
  | CompFill window rect colour => is_u64 window ∧ Rect_wf rect ∧ is_u32 colour
  | MoveWindow window x y => is_u64 window ∧ is_u32 x ∧ is_u32 y
  end.
Definition CompEvent_wf (e : CompEvent) : Prop :=
  match e with
  | DisplayFormats width height formats => is_u32 width ∧ is_u32 height ∧ len formats <= MAX_FORMATS
  | WindowCreated window | CompClosed window => is_u64 window
  | FrameDone window n | BufferReleased window n => is_u64 window ∧ is_u64 n
  end.

(** Membership in a list that is written out. *)
Ltac in_list := repeat first [apply list_elem_of_here | apply list_elem_of_further].

(** Decodes a frame that is written out as its fields. *)
Ltac decode_frame :=
  repeat (rewrite decide_False by (intros ?; discriminate)); rewrite ?decide_True by done;
  repeat (first [erewrite u64_at_field | erewrite u32_at_field | erewrite u8_at_field];
          [|done|in_list|done..]; cbn [mbind option_bind]).

Definition request_fields (r : CompRequest) : list (Z * list Z) :=
  match r with
  | CreateWindow => [(0, [TAG_CREATE_WINDOW])]
  | AttachBuffer window width height format =>
      [(0, [TAG_ATTACH_BUFFER]); (1, to_le_bytes 8 window); (9, to_le_bytes 4 width);
       (13, to_le_bytes 4 height); (17, [format])]
  | Damage window rect => [(0, [TAG_DAMAGE]); (1, to_le_bytes 8 window)] ++ put_rect 9 rect
  | Commit window => [(0, [TAG_COMMIT]); (1, to_le_bytes 8 window)]
  | CompFill window rect colour =>
      [(0, [TAG_FILL]); (1, to_le_bytes 8 window)] ++ put_rect 9 rect ++ [(25, to_le_bytes 4 colour)]
  | SetVisible window visible =>
      [(0, [TAG_SET_VISIBLE]); (1, to_le_bytes 8 window); (9, [if visible then 1 else 0])]
  | MoveWindow window x y =>
      [(0, [TAG_MOVE]); (1, to_le_bytes 8 window); (9, to_le_bytes 4 x); (13, to_le_bytes 4 y)]
  | DestroyWindow window => [(0, [TAG_DESTROY_WINDOW]); (1, to_le_bytes 8 window)]
  end.

Lemma request_contiguous r : contiguous 0 (request_fields r).
Proof. by destruct r. Qed.
Lemma request_length r :
  len (field_bytes (request_fields r)) <= COMP_MAX_FRAME_SIZE ∧
  ∀ buf, CompRequest_encode r buf = frame_into buf (len (field_bytes (request_fields r))) (request_fields r).
Proof. by destruct r. Qed.

Definition request_tag (r : CompRequest) : Z :=
  match r with
  | CreateWindow => TAG_CREATE_WINDOW | AttachBuffer _ _ _ _ => TAG_ATTACH_BUFFER | Damage _ _ => TAG_DAMAGE
  | Commit _ => TAG_COMMIT | CompFill _ _ _ => TAG_FILL | SetVisible _ _ => TAG_SET_VISIBLE
  | MoveWindow _ _ _ => TAG_MOVE | DestroyWindow _ => TAG_DESTROY_WINDOW
  end.
Lemma request_head r : head (field_bytes (request_fields r)) = Some (request_tag r).
Proof. by destruct r. Qed.

Lemma request_decode r : CompRequest_wf r → CompRequest_decode (field_bytes (request_fields r)) = Some r.
Proof.
  intros Hw. pose proof (request_contiguous r) as Hc. unfold CompRequest_decode, rect_at.
  rewrite request_head. cbn [mbind option_bind].
  destruct r as [|w wd h fm|w [rx ry rw rh]|w|w [rx ry rw rh] c|w v|w x y|w];
    cbn [CompRequest_wf request_tag] in *; unfold Rect_wf in Hw; cbn [r_x r_y r_width r_height] in Hw;
    destruct_and?; [done|..]; decode_frame; try done. by destruct v.
Qed.

Definition event_fields (e : CompEvent) : list (Z * list Z) :=
  match e with
  | DisplayFormats width height formats =>
      [(0, [TAG_DISPLAY_FORMATS]); (1, to_le_bytes 4 width); (5, to_le_bytes 4 height);
       (9, [wrap_u 8 (len formats)]); (10, formats)]
  | WindowCreated window => [(0, [TAG_WINDOW_CREATED]); (1, to_le_bytes 8 window)]
  | FrameDone window frame => [(0, [TAG_FRAME_DONE]); (1, to_le_bytes 8 window); (9, to_le_bytes 8 frame)]
  | BufferReleased window buffer =>
      [(0, [TAG_BUFFER_RELEASED]); (1, to_le_bytes 8 window); (9, to_le_bytes 8 buffer)]
  | CompClosed window => [(0, [TAG_CLOSED]); (1, to_le_bytes 8 window)]
  end.
Definition event_tag (e : CompEvent) : Z :=
  match e with
  | DisplayFormats _ _ _ => TAG_DISPLAY_FORMATS | WindowCreated _ => TAG_WINDOW_CREATED
  | FrameDone _ _ => TAG_FRAME_DONE | BufferReleased _ _ => TAG_BUFFER_RELEASED | CompClosed _ => TAG_CLOSED
  end.

Lemma event_contiguous e : contiguous 0 (event_fields e).
Proof. by destruct e. Qed.
Lemma event_head e : head (field_bytes (event_fields e)) = Some (event_tag e).
Proof. by destruct e. Qed.
Lemma display_length w h fs : len (field_bytes (event_fields (DisplayFormats w h fs))) = 10 + len fs.
Proof.
  cbn [event_fields field_bytes]. rewrite app_nil_r, !len_app, !len_to_le_bytes.
  change (len [TAG_DISPLAY_FORMATS]) with 1. change (len [wrap_u 8 (len fs)]) with 1. lia.
Qed.
Lemma event_length e :
  CompEvent_wf e →
  len (field_bytes (event_fields e)) <= COMP_MAX_FRAME_SIZE ∧
  ∀ buf, CompEvent_encode e buf = frame_into buf (len (field_bytes (event_fields e))) (event_fields e).
Proof.
  destruct e as [w h fs|w|w n|w n|w]; cbn [CompEvent_wf]; [|done..]. intros (_ & _ & Hl).
  rewrite display_length. split; [unfold COMP_MAX_FRAME_SIZE; change (if decide _ then _ else _) with 29; unfold MAX_FORMATS in Hl; lia|].
  intros buf. cbn [CompEvent_encode]. by rewrite decide_False by lia.
Qed.

Lemma event_decode e : CompEvent_wf e → CompEvent_decode (field_bytes (event_fields e)) = Some e.
Proof.
  intros Hw. pose proof (event_contiguous e) as Hc. unfold CompEvent_decode.
  rewrite event_head. cbn [mbind option_bind].
  destruct e as [w h fs|w|w n|w n|w]; cbn [CompEvent_wf event_tag] in *; destruct_and?; decode_frame; try done.
  pose proof (len_nonneg fs). rewrite wrap_u_small by (unfold in_u, MAX_FORMATS in *; lia).
  rewrite (field_at _ 10 fs) by (done || in_list). done.
Qed.

(** ** Truncated frames *)
Lemma u32_at_len b o v : u32_at b o = Some v → o + 4 <= len b.
Proof. unfold u32_at, get_range. case_decide; [lia|done]. Qed.
Lemma u64_at_len b o v : u64_at b o = Some v → o + 8 <= len b.
Proof. unfold u64_at, get_range. case_decide; [lia|done]. Qed.
Lemma u8_at_len b o v : 0 <= o → u8_at b o = Some v → o + 1 <= len b.
Proof. intros Ho Hb. unfold u8_at in Hb. apply lookup_lt_Some in Hb. unfold len. lia. Qed.

(** Opens what a decoder has read. *)
Ltac read_inv H :=
  repeat match type of H with
  | (if decide ?P then _ else _) = Some _ => destruct (decide P)
  | (_ ≫= _) = Some _ => apply bind_Some in H as (? & ? & H)
  | None = Some _ => discriminate H
  | Some _ = Some _ => injection H as H
  end.

Lemma request_decode_len b r :
  CompRequest_decode b = Some r →
  len (field_bytes (request_fields r)) <= len b ∧ head b = Some (request_tag r).
Proof.
  intros Hd. unfold CompRequest_decode, rect_at in Hd. apply bind_Some in Hd as (tag & Htag & Hd).
  assert (1 <= len b) by (destruct b; [done|len_lia]).
  read_inv Hd; subst; (split; [|done]);
    repeat match goal with
    | H : u64_at _ _ = Some _ |- _ => apply u64_at_len in H
    | H : u32_at _ _ = Some _ |- _ => apply u32_at_len in H
    | H : u8_at _ _ = Some _ |- _ => apply u8_at_len in H; [|done]
    | H : (_ ≫= _) = Some _ |- _ => apply bind_Some in H as (? & ? & H)
    end; cbn [request_fields put_rect field_bytes app]; len_lia.
Qed.

Lemma request_length_tag r r' :
  request_tag r = request_tag r' → len (field_bytes (request_fields r)) = len (field_bytes (request_fields r')).
Proof. destruct r, r'; done. Qed.

Lemma head_take {A} (l : list A) k x : head (take k l) = Some x → head l = Some x.
Proof. by destruct l, k. Qed.

Lemma request_truncated r k :
  0 <= k < len (field_bytes (request_fields r)) →
  CompRequest_decode (take (Z.to_nat k) (field_bytes (request_fields r))) = None.
Proof.
  intros Hk. destruct (CompRequest_decode _) as [r'|] eqn:Hd; [|done].
  apply request_decode_len in Hd as [Hl Hh]. apply head_take in Hh. rewrite request_head in Hh.
  injection Hh as Ht. rewrite <- (request_length_tag _ _ Ht) in Hl.
  unfold len in *. rewrite length_take in Hl. lia.
Qed.

Lemma event_decode_len b e :
  CompEvent_decode b = Some e →
  head b = Some (event_tag e) ∧
  match e with
  | DisplayFormats _ _ _ => ∃ count, u8_at b 9 = Some count ∧ 10 + count <= len b
  | _ => len (field_bytes (event_fields e)) <= len b
  end.
Proof.
  intros Hd. unfold CompEvent_decode in Hd. apply bind_Some in Hd as (tag & Htag & Hd).
  read_inv Hd; subst; (split; [done|]).
  1: { eexists. split; [done|]. unfold get_range in *. case_decide; [lia|done]. }
  all: repeat match goal with H : u64_at _ _ = Some _ |- _ => apply u64_at_len in H end;
    cbn [event_fields field_bytes]; len_lia.
Qed.

Lemma event_truncated e k :
  CompEvent_wf e → 0 <= k < len (field_bytes (event_fields e)) →
  CompEvent_decode (take (Z.to_nat k) (field_bytes (event_fields e))) = None.
Proof.
  intros Hw Hk. destruct (CompEvent_decode _) as [e'|] eqn:Hd; [|done]. exfalso.
  apply event_decode_len in Hd as [Hh Hl]. apply head_take in Hh. rewrite event_head in Hh. injection Hh as Ht.
  assert (len (take (Z.to_nat k) (field_bytes (event_fields e))) = k) as Hlen
    by (unfold len in *; rewrite length_take; lia).
  rewrite Hlen in Hl. destruct e as [w h fs|w|w n|w n|w], e' as [w' h' fs'|w'|w' n'|w' n'|w'];
    try (by vm_compute in Ht); [|cbn [event_fields field_bytes] in *; rewrite ?len_app, ?len_to_le_bytes in *; lia..].
  destruct Hl as (count & Hc & Hl). rewrite display_length in Hk.
  assert (u8_at (field_bytes (event_fields (DisplayFormats w h fs))) 9 = Some count) as Hc'.
  { unfold u8_at in *. apply lookup_take_Some in Hc as [? _]. done. }
  rewrite (u8_at_field _ 9 (wrap_u 8 (len fs))) in Hc' by (apply event_contiguous || in_list).
  injection Hc' as <-. destruct Hw as (_ & _ & Hm). pose proof (len_nonneg fs).
  rewrite wrap_u_small in Hl by (unfold in_u, MAX_FORMATS in *; lia). lia.
Qed.

(** The compositor's messages survive the wire: a request or an event
    encoded into a buffer of [MAX_FRAME_SIZE] bytes succeeds, changes only the
    frame's bytes, decodes from the frame to what was encoded, and every
    shorter prefix of the frame is refused. *)
Theorem compositor_messages_roundtrip buf :
  COMP_MAX_FRAME_SIZE <= len buf →
  (∀ r, CompRequest_wf r → ∃ frame, len frame <= COMP_MAX_FRAME_SIZE ∧
    CompRequest_encode r buf = Ok (frame ++ drop (length frame) buf, len frame) ∧
    CompRequest_decode frame = Some r ∧
    ∀ k, 0 <= k < len frame → CompRequest_decode (take (Z.to_nat k) frame) = None) ∧
  (∀ e, CompEvent_wf e → ∃ frame, len frame <= COMP_MAX_FRAME_SIZE ∧
    CompEvent_encode e buf = Ok (frame ++ drop (length frame) buf, len frame) ∧
    CompEvent_decode frame = Some e ∧
    ∀ k, 0 <= k < len frame → CompEvent_decode (take (Z.to_nat k) frame) = None).
Proof.
  intros Hl. assert (∀ f, splice buf 0 f = f ++ drop (length f) buf) as Hs.
  { intros f. unfold splice, len. rewrite Z.add_0_l, Nat2Z.id. done. }
  split; [intros r Hw|intros e Hw].
  - destruct (request_length r) as [Hm He]. exists (field_bytes (request_fields r)). split_and!; [done| |by apply request_decode|].
    + rewrite He, frame_into_run by (done || apply request_contiguous || lia). by rewrite Hs.
    + intros k. apply request_truncated.
  - destruct (event_length e Hw) as [Hm He]. exists (field_bytes (event_fields e)). split_and!; [done| |by apply event_decode|].
    + rewrite He, frame_into_run by (done || apply event_contiguous || lia). by rewrite Hs.
    + intros k. by apply event_truncated.
Qed.

Lemma compositor_messages_roundtrip_witness :
  COMP_MAX_FRAME_SIZE <= len (replicate 32 0) ∧
  ∃ frame, CompRequest_decode frame = Some (CompFill 3 (mkRect 7 11 640 480) 0xFF2E3440).
Proof.
  split; [by vm_compute|].
  destruct (compositor_messages_roundtrip (replicate 32 0)) as [Hr _]; [by vm_compute|].
  destruct (Hr (CompFill 3 (mkRect 7 11 640 480) 0xFF2E3440)) as (frame & _ & _ & Hd & _);
    [split_and!; by unfold in_u|by exists frame].
Defined.
