(* ===== verification/Graphics.v ===== *)
(** * Rectangles, blending and targets
    ([compositor-protocol/src/rect.rs], [blend.rs], [compositor/src/target.rs],
    [display.rs])

    Coordinates are [u32] and their sums are checked: a sum that overflows
    panics.  [||] and [&&] evaluate their right side only when they need it, so
    the comparisons are written in the order of the source. *)

From S2P Require Import Prelude Effects BlockDevice CompositorProtocol.

(** ** Loops over a mutable value *)
Fixpoint for_range {E S} (l : list Z) (body : Z → S → outcome E S) (s : S) : outcome E S :=
  match l with
  | [] => Ok s
  | x :: l => s ← body x s; for_range l body s
  end.

(** The range [a..b]. *)
Definition range (a b : Z) : list Z := (Z.add a) <$> upto (b - a).

Section rects.
Context {E : Type}.
Implicit Types a b : Rect.

(** [a || b], [a && b] and [!a] on expressions that may panic. *)
Definition orM (a : outcome E bool) (b : outcome E bool) : outcome E bool :=
  x ← a; if (x : bool) then Ok true else b.
Definition andM (a : outcome E bool) (b : outcome E bool) : outcome E bool :=
  x ← a; if (x : bool) then b else Ok false.
Definition notM (a : outcome E bool) : outcome E bool := x ← a; Ok (negb x).

Definition add32 (x y : Z) : outcome E Z := chk 32 (x + y).
(** [x >= y + z], [x + y <= z] and [x + y == z]. *)
Definition ge_sum (x y z : Z) : outcome E bool := s ← add32 y z; Ok (bool_decide (s <= x)).
Definition sum_le (x y z : Z) : outcome E bool := s ← add32 x y; Ok (bool_decide (s <= z)).
Definition sum_eq (x y z : Z) : outcome E bool := s ← add32 x y; Ok (bool_decide (s = z)).

Definition Rect_intersects a b : outcome E bool :=
  notM (orM (ge_sum (r_x a) (r_x b) (r_width b))
       (orM (sum_le (r_x a) (r_width a) (r_x b))
       (orM (ge_sum (r_y a) (r_y b) (r_height b))
            (sum_le (r_y a) (r_height a) (r_y b))))).

Definition Rect_intersection a b : outcome E (option Rect) :=
  i ← Rect_intersects a b;
  if negb i then Ok None
  else
    let x := Z.max (r_x a) (r_x b) in
    let y := Z.max (r_y a) (r_y b) in
    ax2 ← add32 (r_x a) (r_width a);
    bx2 ← add32 (r_x b) (r_width b);
    ay2 ← add32 (r_y a) (r_height a);
    by2 ← add32 (r_y b) (r_height b);
    w ← chk 32 (Z.min ax2 bx2 - x);
    h ← chk 32 (Z.min ay2 by2 - y);
    Ok (Some (mkRect x y w h)).

Definition Rect_union a b : outcome E Rect :=
  let x := Z.min (r_x a) (r_x b) in
  let y := Z.min (r_y a) (r_y b) in
  ax2 ← add32 (r_x a) (r_width a);
  bx2 ← add32 (r_x b) (r_width b);
  ay2 ← add32 (r_y a) (r_height a);
  by2 ← add32 (r_y b) (r_height b);
  w ← chk 32 (Z.max ax2 bx2 - x);
  h ← chk 32 (Z.max ay2 by2 - y);
  Ok (mkRect x y w h).

Definition Rect_is_adjacent a b : outcome E bool :=
  h ← andM (orM (sum_eq (r_x a) (r_width a) (r_x b)) (sum_eq (r_x b) (r_width b) (r_x a)))
        (notM (orM (ge_sum (r_y a) (r_y b) (r_height b)) (ge_sum (r_y b) (r_y a) (r_height a))));
  v ← andM (orM (sum_eq (r_y a) (r_height a) (r_y b)) (sum_eq (r_y b) (r_height b) (r_y a)))
        (notM (orM (ge_sum (r_x a) (r_x b) (r_width b)) (ge_sum (r_x b) (r_x a) (r_width a))));
  Ok (h || v).

Definition Rect_contains a (x y : Z) : outcome E bool :=
  andM (Ok (bool_decide (r_x a <= x)))
  (andM (s ← add32 (r_x a) (r_width a); Ok (bool_decide (x < s)))
  (andM (Ok (bool_decide (r_y a <= y)))
        (s ← add32 (r_y a) (r_height a); Ok (bool_decide (y < s))))).

Definition Rect_is_empty a : bool := bool_decide (r_width a = 0 ∨ r_height a = 0).
End rects.

(** ** Pixels: blue, green, red, alpha *)
Record Pixel : Type := mkPx { px_b : Z; px_g : Z; px_r : Z; px_a : Z }.
#[export] Instance Pixel_eq_dec : EqDecision Pixel.
Proof. solve_decision. Defined.

Definition Pixel_of_bytes (bs : list Z) : Pixel :=
  match bs with [b; g; r; a] => mkPx b g r a | _ => mkPx 0 0 0 0 end.
Definition Pixel_bytes (p : Pixel) : list Z := [px_b p; px_g p; px_r p; px_a p].
(** [colour.to_le_bytes()]. *)
Definition Pixel_of_colour (colour : Z) : Pixel := Pixel_of_bytes (to_le_bytes 4 colour).

(** [(src * a + dst * (255 - a)) / 255]: the products fit in [u32]. *)
Definition mix (a s d : Z) : Z := wrap_u 8 ((s * a + d * (255 - a)) / 255).

Definition alpha_blend (src dst : Pixel) : Pixel :=
  let a := px_a src in
  if decide (a = 255) then src
  else if decide (a = 0) then dst
  else mkPx (mix a (px_b src) (px_b dst)) (mix a (px_g src) (px_g dst)) (mix a (px_r src) (px_r dst))
         (wrap_u 8 (a + px_a dst * (255 - a) / 255)).

(** The loops of [is_region_opaque]: [None] to go on, [Some] to return. *)
Fixpoint opaque_row (data : list Z) (row_start : Z) (cols : list Z) : bool :=
  match cols with
  | [] => true
  | col :: cols =>
      match data !! Z.to_nat (row_start + col * 4 + 3) with
      | Some 255 => opaque_row data row_start cols
      | _ => false
      end
  end.
Fixpoint opaque_rows {E} (data : list Z) (src_x src_y width stride : Z) (rows : list Z) : outcome E bool :=
  match rows with
  | [] => Ok true
  | row :: rows =>
      sy ← add32 src_y row;
      o ← chk 32 (sy * stride);
      o ← add32 o src_x;
      if opaque_row data (o * 4) (upto width) then opaque_rows data src_x src_y width stride rows
      else Ok false
  end.
Definition is_region_opaque {E} (data : list Z) (src_x src_y width height stride : Z) : outcome E bool :=
  opaque_rows data src_x src_y width stride (upto height).

(** ** Targets *)
Class Target (T : Type) : Type := {
  tg_width : T → Z;
  tg_height : T → Z;
  tg_fill : Rect → Z → T → outcome () T;
  tg_write_row : Z → Z → Z → list Z → T → outcome () T;
  tg_get_pixel : Z → Z → T → outcome () Pixel;
  tg_set_pixel : Z → Z → Pixel → T → outcome () T;
  tg_flush : Rect → T → T;
}.

(** The mapped framebuffer; the flushed rectangles are those the display was
    asked to present. *)
Record Framebuffer : Type := mkFb {
  fb_pixels : list Z;
  fb_width : Z;
  fb_height : Z;
  fb_stride : Z;
  fb_flushed : list Rect;
}.

Definition fb_with_pixels (fb : Framebuffer) (p : list Z) : Framebuffer :=
  mkFb p (fb_width fb) (fb_height fb) (fb_stride fb) (fb_flushed fb).

(** [(y * self.stride + x * 4) as isize]. *)
Definition fb_offset (fb : Framebuffer) (x y : Z) : outcome () Z :=
  a ← chk 32 (y * fb_stride fb);
  b ← chk 32 (x * 4);
  chk 32 (a + b).

(** [copy_nonoverlapping] into the mapping: a fault outside it. *)
Definition fb_store (fb : Framebuffer) (x y : Z) (bytes : list Z) : outcome () Framebuffer :=
  off ← fb_offset fb x y;
  p ← copy_at (fb_pixels fb) off bytes;
  Ok (fb_with_pixels fb p).

Definition Framebuffer_fill (rect : Rect) (colour : Z) (fb : Framebuffer) : outcome () Framebuffer :=
  y2 ← add32 (r_y rect) (r_height rect);
  for_range (range (r_y rect) (Z.min y2 (fb_height fb))) (λ y fb,
    x2 ← add32 (r_x rect) (r_width rect);
    for_range (range (r_x rect) (Z.min x2 (fb_width fb))) (λ x fb, fb_store fb x y (to_le_bytes 4 colour)) fb) fb.

Definition Framebuffer_write_row (x y width : Z) (src : list Z) (fb : Framebuffer) : outcome () Framebuffer :=
  if decide (fb_height fb <= y ∨ fb_width fb <= x) then Ok fb
  else
    let width := Z.min width (fb_width fb - x) in
    let bytes := width * 4 in
    if decide (len src < bytes) then Ok fb
    else fb_store fb x y (take (Z.to_nat bytes) src).

Definition Framebuffer_get_pixel (x y : Z) (fb : Framebuffer) : outcome () Pixel :=
  if decide (fb_width fb <= x ∨ fb_height fb <= y) then Ok (mkPx 0 0 0 0)
  else
    off ← fb_offset fb x y;
    bs ← slice (fb_pixels fb) off (off + 4);
    Ok (Pixel_of_bytes bs).

Definition Framebuffer_set_pixel (x y : Z) (p : Pixel) (fb : Framebuffer) : outcome () Framebuffer :=
  if decide (fb_width fb <= x ∨ fb_height fb <= y) then Ok fb
  else fb_store fb x y (Pixel_bytes p).

Definition Framebuffer_flush (rect : Rect) (fb : Framebuffer) : Framebuffer :=
  mkFb (fb_pixels fb) (fb_width fb) (fb_height fb) (fb_stride fb) (fb_flushed fb ++ [rect]).

#[export] Instance Framebuffer_target : Target Framebuffer := {|
  tg_width := fb_width;
  tg_height := fb_height;
  tg_fill := Framebuffer_fill;
  tg_write_row := Framebuffer_write_row;
  tg_get_pixel := Framebuffer_get_pixel;
  tg_set_pixel := Framebuffer_set_pixel;
  tg_flush := Framebuffer_flush;
|}.

(** ** Rectangles as sets of pixels *)
Definition in_rect (r : Rect) (x y : Z) : Prop :=
  r_x r <= x < r_x r + r_width r ∧ r_y r <= y < r_y r + r_height r.
#[export] Instance in_rect_dec r x y : Decision (in_rect r x y).
Proof. unfold in_rect. apply _. Defined.

(** The far corner is representable: no sum on the rectangle overflows. *)
Definition rect_ok (r : Rect) : Prop :=
  0 <= r_x r ∧ 0 <= r_y r ∧ 0 <= r_width r ∧ 0 <= r_height r
  ∧ r_x r + r_width r < 2 ^ 32 ∧ r_y r + r_height r < 2 ^ 32.
#[export] Instance rect_ok_dec r : Decision (rect_ok r).
Proof. unfold rect_ok. apply _. Defined.

Lemma chk_Ok {E} w z : in_u w z → chk (E:=E) w z = Ok z.
Proof. intros H. unfold chk. by rewrite decide_True. Qed.

Definition within (r a : Rect) : Prop :=
  r_x a <= r_x r ∧ r_y a <= r_y r
  ∧ r_x r + r_width r <= r_x a + r_width a ∧ r_y r + r_height r <= r_y a + r_height a.

Section rect_lemmas.
Context {E : Type}.
Implicit Types a b : Rect.

Lemma add32_Ok x y : 0 <= x + y < 2 ^ 32 → add32 (E:=E) x y = Ok (x + y).
Proof. intros. apply chk_Ok. done. Qed.

Lemma ge_sum_Ok x y z : 0 <= y + z < 2 ^ 32 → ge_sum (E:=E) x y z = Ok (bool_decide (y + z <= x)).
Proof. intros. unfold ge_sum. by rewrite add32_Ok. Qed.
Lemma sum_le_Ok x y z : 0 <= x + y < 2 ^ 32 → sum_le (E:=E) x y z = Ok (bool_decide (x + y <= z)).
Proof. intros. unfold sum_le. by rewrite add32_Ok. Qed.
Lemma sum_eq_Ok x y z : 0 <= x + y < 2 ^ 32 → sum_eq (E:=E) x y z = Ok (bool_decide (x + y = z)).
Proof. intros. unfold sum_eq. by rewrite add32_Ok. Qed.

Lemma orM_Ok (p q : bool) : orM (E:=E) (Ok p) (Ok q) = Ok (p || q).
Proof. by destruct p. Qed.
Lemma andM_Ok (p q : bool) : andM (E:=E) (Ok p) (Ok q) = Ok (p && q).
Proof. by destruct p. Qed.
Lemma notM_Ok (p : bool) : notM (E:=E) (Ok p) = Ok (negb p).
Proof. done. Qed.

Lemma intersects_exact a b : rect_ok a → rect_ok b → Rect_intersects (E:=E) a b =
  Ok (bool_decide (r_x a < r_x b + r_width b ∧ r_x b < r_x a + r_width a
                   ∧ r_y a < r_y b + r_height b ∧ r_y b < r_y a + r_height a)).
Proof.
  intros Ha Hb. unfold rect_ok in *. unfold Rect_intersects.
  rewrite !ge_sum_Ok, !sum_le_Ok, !orM_Ok, notM_Ok by lia. f_equal.
  repeat case_bool_decide; try done; exfalso; lia.
Qed.

Lemma adjacent_Ok a b : rect_ok a → rect_ok b → ∃ p, Rect_is_adjacent (E:=E) a b = Ok p.
Proof.
  intros Ha Hb. unfold rect_ok in *. unfold Rect_is_adjacent.
  rewrite !ge_sum_Ok, !sum_eq_Ok, !orM_Ok, !notM_Ok, !andM_Ok by lia. simpl. by eexists.
Qed.

Lemma intersection_exact a b : rect_ok a → rect_ok b →
  ∃ o, Rect_intersection (E:=E) a b = Ok o ∧
    match o with
    | None => ∀ x y, in_rect a x y → in_rect b x y → False
    | Some r => rect_ok r ∧ within r a ∧ within r b ∧ (∀ x y, in_rect r x y ↔ in_rect a x y ∧ in_rect b x y)
    end.
Proof.
  intros Ha Hb. unfold Rect_intersection. rewrite intersects_exact by done. simpl.
  case_bool_decide as Hi; simpl; last first.
  { eexists. split; [done|]. unfold in_rect. intros x y ??. apply Hi. lia. }
  unfold rect_ok in *. rewrite !add32_Ok by lia. simpl. rewrite !chk_Ok by rng. simpl.
  eexists. split; [done|]. unfold in_rect, rect_ok, within. simpl. split_and!; try lia; intros; lia.
Qed.

Lemma union_covers a b : rect_ok a → rect_ok b →
  ∃ u, Rect_union (E:=E) a b = Ok u ∧ rect_ok u ∧
    (∀ x y, in_rect a x y ∨ in_rect b x y → in_rect u x y).
Proof.
  intros Ha Hb. unfold rect_ok in *. unfold Rect_union.
  rewrite !add32_Ok by lia. simpl. rewrite !chk_Ok by rng. simpl.
  eexists. split; [done|]. unfold in_rect. simpl. split; [lia|]. intros. lia.
Qed.
End rect_lemmas.

(** ** Blending *)
Definition Pixel_ok (p : Pixel) : Prop := is_u8 (px_b p) ∧ is_u8 (px_g p) ∧ is_u8 (px_r p) ∧ is_u8 (px_a p).

Lemma mix_between a s d : 0 < a < 255 → is_u8 s → is_u8 d →
  mix a s d = (s * a + d * (255 - a)) / 255 ∧ Z.min s d <= mix a s d <= Z.max s d.
Proof.
  intros Ha Hs Hd. assert (Z.min s d <= (s * a + d * (255 - a)) / 255 <= Z.max s d) as Hb.
  { split; [apply Z.div_le_lower_bound; nia|].
    apply Z.div_le_upper_bound; [lia|]. nia. }
  unfold mix. rewrite wrap_u_small; [done|]. rng.
Qed.

Lemma over_alpha a d : 0 < a < 255 → is_u8 d →
  wrap_u 8 (a + d * (255 - a) / 255) = a + d * (255 - a) / 255 ∧ a <= a + d * (255 - a) / 255 <= 255.
Proof.
  intros Ha Hd. assert (0 <= d * (255 - a) / 255 <= 255 - a) as Hb.
  { split; [apply Z.div_pos; rng; nia|]. apply Z.div_le_upper_bound; rng; nia. }
  split; [|lia]. apply wrap_u_small. rng.
Qed.

(** Blending stays in range: on byte pixels no intermediate result is cut
    off, every colour channel lies between those of the source and of the
    destination, and an opaque destination stays opaque.  Blending twice is not
    blending with the blended pixel, though: over a translucent destination the
    two orders differ. *)
Theorem alpha_blend_bounds src dst :
  Pixel_ok src → Pixel_ok dst →
  Pixel_ok (alpha_blend src dst)
  ∧ (∀ f, f ∈ [px_b; px_g; px_r] →
       Z.min (f src) (f dst) <= f (alpha_blend src dst) <= Z.max (f src) (f dst))
  ∧ (px_a dst = 255 → px_a (alpha_blend src dst) = 255)
  ∧ (∃ a b c, Pixel_ok a ∧ Pixel_ok b ∧ Pixel_ok c ∧
       alpha_blend (alpha_blend a b) c ≠ alpha_blend a (alpha_blend b c)).
Proof.
  intros Hs Hd. split_and!.
  4: { exists (mkPx 0 0 0 128), (mkPx 255 255 255 128), (mkPx 0 0 0 255).
       split_and!; try (unfold Pixel_ok; simpl; rng; lia). by vm_compute. }
  all: destruct Hs as (Hb&Hg&Hr&Ha), Hd as (Hb'&Hg'&Hr'&Ha').
  all: unfold alpha_blend; destruct (decide (px_a src = 255)); [|destruct (decide (px_a src = 0))].
  all: try (assert (0 < px_a src < 255) as Hm by rng;
    destruct (mix_between _ _ _ Hm Hb Hb') as [_ ?], (mix_between _ _ _ Hm Hg Hg') as [_ ?],
      (mix_between _ _ _ Hm Hr Hr') as [_ ?], (over_alpha _ _ Hm Ha') as [Hw ?]).
  all: unfold Pixel_ok; simpl; try (intros f Hf; rewrite !elem_of_cons in Hf; destruct Hf as [->|[->|[->|Hf]]];
    [..|by apply not_elem_of_nil in Hf]; simpl); try done; try lia; rng.
  intros Hx. rewrite Hw, Hx, Z.mul_comm, Z.div_mul; lia.
Qed.

Lemma alpha_blend_bounds_witness :
  px_a (alpha_blend (mkPx 10 20 30 40) (mkPx 50 60 70 255)) = 255.
Proof.
  apply (alpha_blend_bounds (mkPx 10 20 30 40) (mkPx 50 60 70 255)); [..|done]; unfold Pixel_ok; simpl; rng.
Defined.

(** ** What a target promises: a grid of pixels *)
Class TargetLaws (T : Type) `{Target T} : Type := {
  tg_ok : T → Prop;
  tg_pixel : T → Z → Z → Pixel;
  tg_size_ok t : tg_ok t → 0 <= tg_width t < 2 ^ 32 ∧ 0 <= tg_height t < 2 ^ 32;
}.

Section renders.
Context `{TargetLaws T}.

Definition on_screen (t : T) (x y : Z) : Prop := 0 <= x < tg_width t ∧ 0 <= y < tg_height t.

(** The pixels of [t'] are those of [t] after [f]. *)
Definition renders (t t' : T) (f : Z → Z → Pixel → Pixel) : Prop :=
  tg_ok t' ∧ tg_width t' = tg_width t ∧ tg_height t' = tg_height t ∧
  ∀ x y, on_screen t x y → tg_pixel t' x y = f x y (tg_pixel t x y).

Lemma renders_refl t f : tg_ok t → (∀ x y p, on_screen t x y → f x y p = p) → renders t t f.
Proof. intros Ht Hf. split_and!; [done..|]. intros. by rewrite Hf. Qed.

Lemma renders_trans t1 t2 t3 f g :
  renders t1 t2 f → renders t2 t3 g → renders t1 t3 (λ x y p, g x y (f x y p)).
Proof.
  intros (?&Hw&Hh&Hp) (?&?&?&Hq). split_and!; [done|congruence..|].
  intros x y ?. rewrite Hq, Hp; [done..|]. unfold on_screen. by rewrite Hw, Hh.
Qed.

Lemma renders_ext t t' f g :
  renders t t' f → (∀ x y p, on_screen t x y → f x y p = g x y p) → renders t t' g.
Proof. intros (?&?&?&Hp) He. split_and!; [done..|]. intros. rewrite Hp by done. auto. Qed.

(** A loop whose turn [i] changes the cells that [sel] sends to [i]. *)
Lemma renders_loop (sel : Z → Z → Z) f (body : Z → T → outcome () T) (W Hh : Z) l :
  NoDup l →
  (∀ i t, i ∈ l → tg_ok t → tg_width t = W → tg_height t = Hh →
     ∃ t', body i t = Ok t' ∧ renders t t' (λ x y p, if decide (sel x y = i) then f x y p else p)) →
  ∀ t, tg_ok t → tg_width t = W → tg_height t = Hh →
  ∃ t', for_range l body t = Ok t' ∧ renders t t' (λ x y p, if decide (sel x y ∈ l) then f x y p else p).
Proof.
  induction 1 as [|i l Hi Hl IH]; intros Hb t Ht HW HH; cbn [for_range].
  { exists t. split; [done|]. apply renders_refl; [done|]. intros. cbv beta. by rewrite decide_False by set_solver. }
  destruct (Hb i t) as (t1&->&R1); [set_solver|done..|]. cbn [mbind outcome_bind].
  destruct (IH (λ i t H, Hb i t (list_elem_of_further _ _ _ H)) t1) as (t2&->&R2); [apply R1|..].
  { destruct R1 as (?&?&?&?). congruence. }
  { destruct R1 as (?&?&?&?). congruence. }
  exists t2. split; [done|]. eapply renders_ext; [by eapply renders_trans|].
  intros x y p _. cbv beta. destruct (decide (sel x y = i)) as [->|].
  - destruct (decide (i ∈ l)); [done|]. destruct (decide (i ∈ i :: l)); [done|set_solver].
  - destruct (decide (sel x y ∈ l)), (decide (sel x y ∈ i :: l)); set_solver.
Qed.
End renders.

(** The operations of a target, on its grid. *)
Class RasterLaws (T : Type) `{TargetLaws T} : Prop := {
  fill_law t r c : tg_ok t → rect_ok r → r_x r + r_width r <= tg_width t →
    r_y r + r_height r <= tg_height t →
    ∃ t', tg_fill r c t = Ok t' ∧
      renders t t' (λ x y p, if decide (in_rect r x y) then Pixel_of_colour c else p);
  write_row_law t x0 y0 w src : tg_ok t → 0 <= x0 → 0 <= w → x0 + w <= tg_width t →
    0 <= y0 < tg_height t → len src = w * 4 →
    ∃ t', tg_write_row x0 y0 w src t = Ok t' ∧
      renders t t' (λ x y p, if decide (y = y0 ∧ x0 <= x < x0 + w)
                             then Pixel_of_bytes (sub src ((x - x0) * 4) 4) else p);
  get_pixel_law t x y : tg_ok t → on_screen t x y → tg_get_pixel x y t = Ok (tg_pixel t x y);
  set_pixel_law t x0 y0 q : tg_ok t → on_screen t x0 y0 →
    ∃ t', tg_set_pixel x0 y0 q t = Ok t' ∧
      renders t t' (λ x y p, if decide (x = x0 ∧ y = y0) then q else p);
  flush_law t r : tg_ok t → renders t (tg_flush r t) (λ x y p, p);
}.

(** ** The framebuffer is such a grid *)
Definition fb_ok (fb : Framebuffer) : Prop :=
  0 <= fb_width fb ∧ 0 <= fb_height fb ∧ fb_width fb * 4 <= fb_stride fb
  ∧ fb_stride fb * fb_height fb <= len (fb_pixels fb) ∧ fb_stride fb * fb_height fb < 2 ^ 32
  ∧ fb_width fb < 2 ^ 30 ∧ fb_height fb < 2 ^ 32.
#[export] Instance fb_ok_dec fb : Decision (fb_ok fb).
Proof. unfold fb_ok. apply _. Defined.

Definition fb_pixel (fb : Framebuffer) (x y : Z) : Pixel :=
  Pixel_of_bytes (sub (fb_pixels fb) (y * fb_stride fb + x * 4) 4).

Program Definition Framebuffer_laws_def : TargetLaws Framebuffer :=
  {| tg_ok := fb_ok; tg_pixel := fb_pixel |}.
Next Obligation. unfold fb_ok. intros fb ?. simpl. lia. Qed.
#[export] Instance Framebuffer_laws : TargetLaws Framebuffer := Framebuffer_laws_def.

Lemma fb_offset_Ok fb x y : fb_ok fb → 0 <= x < fb_width fb → 0 <= y < fb_height fb →
  fb_offset fb x y = Ok (y * fb_stride fb + x * 4).
Proof.
  unfold fb_ok. intros Hfb Hx Hy. unfold fb_offset.
  assert (0 <= y * fb_stride fb) by nia.
  assert (y * fb_stride fb + fb_stride fb <= fb_stride fb * fb_height fb) by nia.
  rewrite chk_Ok by rng. simpl. rewrite chk_Ok by rng. simpl. apply chk_Ok. rng.
Qed.

Lemma fb_store_row fb x0 y0 w bytes : fb_ok fb → 0 <= x0 → 0 < w → x0 + w <= fb_width fb →
  0 <= y0 < fb_height fb → len bytes = w * 4 →
  ∃ fb', fb_store fb x0 y0 bytes = Ok fb' ∧
    renders fb fb' (λ x y p, if decide (y = y0 ∧ x0 <= x < x0 + w)
                             then Pixel_of_bytes (sub bytes ((x - x0) * 4) 4) else p).
Proof.
  intros Hfb Hx0 Hw Hxw Hy0 Hlen. unfold fb_store. rewrite fb_offset_Ok by (done || lia). simpl.
  unfold fb_ok in Hfb.
  assert (y0 * fb_stride fb + fb_stride fb <= fb_stride fb * fb_height fb) by nia.
  assert (0 <= y0 * fb_stride fb) by nia.
  rewrite copy_at_splice by lia. simpl. eexists. split; [done|].
  split_and!; [|done..|].
  { simpl. unfold fb_ok. simpl. rewrite len_splice by lia. lia. }
  intros x y [Hx Hy]. simpl in *. unfold fb_pixel. simpl.
  destruct (decide _) as [[-> ?]|Hn].
  - rewrite sub_splice_inside by lia. do 2 f_equal. lia.
  - assert (0 <= y * fb_stride fb) by nia. rewrite sub_splice_other; [done|lia..|].
    destruct (decide (y = y0)) as [->|]; [lia|].
    destruct (decide (y < y0)).
    + left. assert (y * fb_stride fb + fb_stride fb <= y0 * fb_stride fb) by nia. lia.
    + right. assert (y0 * fb_stride fb + fb_stride fb <= y * fb_stride fb) by nia. lia.
Qed.

Lemma elem_of_range a b i : i ∈ range a b ↔ a <= i < b.
Proof.
  unfold range. rewrite list_elem_of_fmap. setoid_rewrite elem_of_upto. split.
  - intros (j&->&?). lia.
  - intros. exists (i - a). lia.
Qed.

Lemma NoDup_upto n : NoDup (upto n).
Proof. unfold upto. apply NoDup_fmap_2; [apply _|apply NoDup_seq]. Qed.

Lemma NoDup_range a b : NoDup (range a b).
Proof. unfold range. apply NoDup_fmap_2; [intros ??; lia|apply NoDup_upto]. Qed.

Lemma Framebuffer_fill_law fb r c : fb_ok fb → rect_ok r → r_x r + r_width r <= fb_width fb →
  r_y r + r_height r <= fb_height fb →
  ∃ fb', Framebuffer_fill r c fb = Ok fb' ∧
    renders fb fb' (λ x y p, if decide (in_rect r x y) then Pixel_of_colour c else p).
Proof.
  intros Hfb Hr Hx Hy. unfold rect_ok in Hr. unfold Framebuffer_fill.
  rewrite !add32_Ok by lia. simpl. rewrite Z.min_l by done.
  edestruct (renders_loop (T:=Framebuffer) (λ x y, y)
    (λ x y p, if decide (x ∈ range (r_x r) (r_x r + r_width r)) then Pixel_of_colour c else p))
    as (t'&->&R); [apply NoDup_range| |done|done|done|].
  - intros j t Hj%elem_of_range Ht HW HH. simpl in *. rewrite Z.min_l by lia.
    edestruct (renders_loop (T:=Framebuffer) (λ x y, x) (λ x y p, if decide (y = j) then Pixel_of_colour c else p))
      as (t'&->&R); [apply NoDup_range| |done|done|done|].
    + intros i u Hi%elem_of_range Hu Hw Hh. simpl in *.
      destruct (fb_store_row u i j 1 (to_le_bytes 4 c)) as (u'&->&R); [done|lia..|by rewrite len_to_le_bytes|].
      eexists. split; [done|]. eapply renders_ext; [done|]. intros x y p _. simpl.
      destruct (decide (x = i)) as [->|].
      * destruct (decide (y = j)); [rewrite decide_True by lia|by rewrite decide_False by lia].
        by rewrite Z.sub_diag.
      * by rewrite decide_False by lia.
    + eexists. split; [done|]. eapply renders_ext; [done|]. intros x y p _. cbv beta.
      destruct (decide (y = j)), (decide (x ∈ range (r_x r) (r_x r + r_width r))); done.
  - eexists. split; [done|]. eapply renders_ext; [done|]. intros x y p _. cbv beta.
    unfold in_rect. destruct (decide (y ∈ _)) as [H1|H1]; rewrite elem_of_range in H1;
      [|by rewrite decide_False by lia].
    destruct (decide (x ∈ _)) as [H2|H2]; rewrite elem_of_range in H2;
      [by rewrite decide_True by lia|by rewrite decide_False by lia].
Qed.

#[export] Instance Framebuffer_raster : RasterLaws Framebuffer.
Proof.
  split.
  - apply Framebuffer_fill_law.
  - intros fb x0 y0 w src Hfb Hx Hw Hxw Hy Hl. simpl in *. unfold Framebuffer_write_row.
    destruct (decide (w = 0)) as [->|].
    + exists fb. split; [|apply renders_refl; [done|]; intros; cbv beta; by rewrite decide_False by lia].
      destruct (decide _); [done|]. rewrite (proj2 (Z.min_l_iff 0 _)) by lia.
      destruct (decide _); [done|]. destruct src; [|len_lia]. unfold fb_store.
      rewrite fb_offset_Ok by (done || lia). simpl.
      unfold fb_ok in Hfb.
      assert (y0 * fb_stride fb + fb_stride fb <= fb_stride fb * fb_height fb) by nia.
      assert (0 <= y0 * fb_stride fb) by nia.
      rewrite copy_at_splice by (len_lia). simpl. f_equal. destruct fb. unfold fb_with_pixels. simpl.
      f_equal. unfold splice. rewrite len_nil, Z.add_0_r. apply take_drop.
    + rewrite decide_False by lia. rewrite Z.min_l by lia. rewrite decide_False by lia.
      rewrite take_ge by (unfold len in *; lia). by apply fb_store_row; try lia.
  - intros fb x y Hfb [Hx Hy]. simpl in *. unfold Framebuffer_get_pixel.
    rewrite decide_False by lia. rewrite fb_offset_Ok by done. simpl. unfold fb_ok in Hfb.
    assert (y * fb_stride fb + fb_stride fb <= fb_stride fb * fb_height fb) by nia.
    assert (0 <= y * fb_stride fb) by nia. rewrite slice_sub by lia.
    rewrite Z.add_simpl_l. done.
  - intros fb x0 y0 q Hfb [Hx Hy]. simpl in *. unfold Framebuffer_set_pixel. rewrite decide_False by lia.
    destruct (fb_store_row fb x0 y0 1 (Pixel_bytes q)) as (u'&->&R); [done|lia..|done|].
    eexists. split; [done|]. eapply renders_ext; [done|]. intros x y p _. simpl.
    destruct (decide (x = x0 ∧ y = y0)) as [[-> ->]|]; [rewrite decide_True by lia|by rewrite decide_False by lia].
    rewrite Z.sub_diag. by destruct q.
  - intros fb r Hfb. done.
Qed.
