(* ===== verification/Compositor.v ===== *)
(** * The window manager and its server
    ([compositor/src/manager.rs], [server.rs])

    The pixels of a window live in a buffer the client shares, so a manager is
    modelled with the memory its attachments point into: two attachments of one
    buffer see each other's writes, and a client may write at any time.  A read
    past a mapping is a fault, shown as [Panic]. *)

From S2P Require Import Prelude Effects BlockDevice CompositorProtocol Graphics.

Definition BACKGROUND_COLOUR : Z := 0xFF2E3440.

(** Mapped buffers by address. *)
Abbreviation Memory := (gmap Z (list Z)).

Record Attachment : Type := mkAtt {
  at_id : Z;
  at_data : Z;
  at_len : Z;
  at_width : Z;
  at_height : Z;
}.

(** [usize::checked_mul]. *)
Definition checked_mul (a b : Z) : option Z :=
  if decide (a * b < 2 ^ 64) then Some (a * b) else None.

Definition Attachment_new (id data len width height format : Z) : option Attachment :=
  if decide (format ≠ FORMAT_BGRA8888) then None
  else
    pixels ← checked_mul width height;
    needed ← checked_mul pixels 4;
    if decide (needed = 0 ∨ len < needed) then None else Some (mkAtt id data len width height).

Definition as_slice (mem : Memory) (a : Attachment) : outcome () (list Z) :=
  match mem !! at_data a with
  | Some bytes => if decide (at_len a <= len bytes) then Ok (take (Z.to_nat (at_len a)) bytes) else Panic
  | None => Panic
  end.

(** What [as_mut_slice] leaves behind: the first [at_len] bytes replaced. *)
Definition put_slice (mem : Memory) (a : Attachment) (data : list Z) : Memory :=
  alter (λ bytes, data ++ drop (Z.to_nat (at_len a)) bytes) (at_data a) mem.

Record Window : Type := mkWin {
  w_id : Z;
  w_visible : bool;
  w_position : Z * Z;
  w_size : Z * Z;
  w_pending : option Attachment;
  w_latched : option Attachment;
  w_pending_damage : list Rect;
  w_awaiting_frame : bool;
}.

Definition Window_rect (w : Window) : Rect :=
  mkRect (w_position w).1 (w_position w).2 (w_size w).1 (w_size w).2.
Definition content_mut (w : Window) : option Attachment :=
  match w_pending w with Some a => Some a | None => w_latched w end.

Record WindowManager (T : Type) : Type := mkWm {
  wm_windows : list Window;
  wm_dirty_regions : list Rect;
  wm_target : option T;
  wm_next_window_id : Z;
  wm_frame : Z;
  wm_memory : Memory;
}.
Arguments mkWm {T} _ _ _ _ _ _.
Arguments wm_windows {T} _.
Arguments wm_dirty_regions {T} _.
Arguments wm_target {T} _.
Arguments wm_next_window_id {T} _.
Arguments wm_frame {T} _.
Arguments wm_memory {T} _.

(** [windows.iter_mut().find(|w| w.id == id)]. *)
Definition window_mut (ws : list Window) (id : Z) : option (nat * Window) :=
  list_find (λ w, w_id w = id) ws.

Fixpoint dirty_insert (rect : Rect) (ds : list Rect) : outcome () (list Rect) :=
  match ds with
  | [] => Ok [rect]
  | existing :: ds =>
      hit ← orM (Rect_intersects existing rect) (Rect_is_adjacent existing rect);
      if (hit : bool) then u ← Rect_union existing rect; Ok (u :: ds)
      else ds ← dirty_insert rect ds; Ok (existing :: ds)
  end.
Definition mark_dirty (rect : Rect) (ds : list Rect) : outcome () (list Rect) :=
  if Rect_is_empty rect then Ok ds else dirty_insert rect ds.

(** The damage of a commit, moved to the window's origin. *)
Fixpoint mark_damage (origin : Z * Z) (damage : list Rect) (ds : list Rect) : outcome () (list Rect) :=
  match damage with
  | [] => Ok ds
  | r :: damage =>
      x ← add32 origin.1 (r_x r);
      y ← add32 origin.2 (r_y r);
      ds ← mark_dirty (mkRect x y (r_width r) (r_height r)) ds;
      mark_damage origin damage ds
  end.

Definition fill_cell (stride : Z) (colour x y : Z) (data : list Z) : outcome () (list Z) :=
  o ← chk 32 (y * stride);
  o ← add32 o x;
  offset ← chk 32 (o * 4);
  if decide (offset + 4 > len data) then Ok data
  else copy_at data offset (to_le_bytes 4 colour).

Definition fill_buffer (mem : Memory) (a : Attachment) (rect : Rect) (colour : Z) : outcome () Memory :=
  i ← Rect_intersection rect (mkRect 0 0 (at_width a) (at_height a));
  match i with
  | None => Ok mem
  | Some rect =>
      data ← as_slice mem a;
      y2 ← add32 (r_y rect) (r_height rect);
      data ← for_range (range (r_y rect) y2) (λ y data,
        x2 ← add32 (r_x rect) (r_width rect);
        for_range (range (r_x rect) x2) (λ x data, fill_cell (at_width a) colour x y data) data) data;
      Ok (put_slice mem a data)
  end.

Section manager.
Context {T : Type} `{Target T}.
Implicit Types m : WindowManager T.

Definition set_windows m (ws : list Window) : WindowManager T :=
  mkWm ws (wm_dirty_regions m) (wm_target m) (wm_next_window_id m) (wm_frame m) (wm_memory m).
Definition set_dirty m (ds : list Rect) : WindowManager T :=
  mkWm (wm_windows m) ds (wm_target m) (wm_next_window_id m) (wm_frame m) (wm_memory m).
Definition set_target m (t : option T) : WindowManager T :=
  mkWm (wm_windows m) (wm_dirty_regions m) t (wm_next_window_id m) (wm_frame m) (wm_memory m).
Definition set_memory m (mem : Memory) : WindowManager T :=
  mkWm (wm_windows m) (wm_dirty_regions m) (wm_target m) (wm_next_window_id m) (wm_frame m) mem.

Definition WindowManager_new (target : option T) (mem : Memory) : outcome () (WindowManager T) :=
  t ← match target with
      | None => Ok None
      | Some t =>
          let screen := mkRect 0 0 (tg_width t) (tg_height t) in
          t ← tg_fill screen BACKGROUND_COLOUR t;
          Ok (Some (tg_flush screen t))
      end;
  Ok (mkWm [] [] t 1 0 mem).

Definition screen_size m : Z * Z :=
  match wm_target m with Some t => (tg_width t, tg_height t) | None => (0, 0) end.

Definition mark m (rect : Rect) : outcome () (WindowManager T) :=
  ds ← mark_dirty rect (wm_dirty_regions m); Ok (set_dirty m ds).

Definition do_create m : outcome () (WindowManager T * list CompEvent) :=
  let id := wm_next_window_id m in
  next ← chk 64 (id + 1);
  Ok (mkWm (wm_windows m ++ [mkWin id false (0, 0) (0, 0) None None [] false])
        (wm_dirty_regions m) (wm_target m) next (wm_frame m) (wm_memory m),
      [WindowCreated id]).

Definition do_attach m (window : Z) (attachment : option Attachment) : WindowManager T * list CompEvent :=
  match attachment with
  | None => (m, [])
  | Some a =>
      match window_mut (wm_windows m) window with
      | None => (m, [])
      | Some (i, w) =>
          let w' := mkWin (w_id w) (w_visible w) (w_position w) (w_size w) (Some a) (w_latched w)
                      (w_pending_damage w) (w_awaiting_frame w) in
          (set_windows m (<[i := w']> (wm_windows m)),
           match w_pending w with Some r => [BufferReleased window (at_id r)] | None => [] end)
      end
  end.

Definition push_damage (w : Window) (rect : Rect) : Window :=
  mkWin (w_id w) (w_visible w) (w_position w) (w_size w) (w_pending w) (w_latched w)
    (w_pending_damage w ++ [rect]) (w_awaiting_frame w).

Definition do_damage m (window : Z) (rect : Rect) : WindowManager T :=
  match window_mut (wm_windows m) window with
  | None => m
  | Some (i, w) => set_windows m (<[i := push_damage w rect]> (wm_windows m))
  end.

(** The window after a commit, and the buffer it lets go. *)
Definition latch (w : Window) : Window * option Attachment :=
  match w_pending w with
  | Some p => (mkWin (w_id w) (w_visible w) (w_position w) (at_width p, at_height p) None (Some p) [] true,
               w_latched w)
  | None => (mkWin (w_id w) (w_visible w) (w_position w) (w_size w) None (w_latched w) [] true, None)
  end.

Definition do_commit m (window : Z) : outcome () (WindowManager T * list CompEvent) :=
  match window_mut (wm_windows m) window with
  | None => Ok (m, [])
  | Some (i, w) =>
      if decide (w_pending w = None ∧ w_latched w = None) then Ok (m, [])
      else
        let (w', released) := latch w in
        let m' := set_windows m (<[i := w']> (wm_windows m)) in
        let damage := w_pending_damage w in
        ds ← if w_visible w then
               match damage with
               | [] => mark_dirty (Window_rect w') (wm_dirty_regions m)
               | _ => mark_damage (w_position w) damage (wm_dirty_regions m)
               end
             else Ok (wm_dirty_regions m);
        Ok (set_dirty m' ds,
            match released with Some r => [BufferReleased window (at_id r)] | None => [] end)
  end.

Definition do_fill m (window : Z) (rect : Rect) (colour : Z) : outcome () (WindowManager T) :=
  match window_mut (wm_windows m) window with
  | None => Ok m
  | Some (i, w) =>
      match content_mut w with
      | None => Ok m
      | Some a =>
          mem ← fill_buffer (wm_memory m) a rect colour;
          Ok (set_memory (set_windows m (<[i := push_damage w rect]> (wm_windows m))) mem)
      end
  end.

Definition do_visible m (window : Z) (visible : bool) : outcome () (WindowManager T) :=
  match window_mut (wm_windows m) window with
  | None => Ok m
  | Some (i, w) =>
      if decide (w_visible w ≠ visible) then
        let w' := mkWin (w_id w) visible (w_position w) (w_size w) (w_pending w) (w_latched w)
                    (w_pending_damage w) (w_awaiting_frame w) in
        mark (set_windows m (<[i := w']> (wm_windows m))) (Window_rect w')
      else Ok m
  end.

Definition do_move m (window x y : Z) : outcome () (WindowManager T) :=
  match window_mut (wm_windows m) window with
  | None => Ok m
  | Some (i, w) =>
      let w' := mkWin (w_id w) (w_visible w) (x, y) (w_size w) (w_pending w) (w_latched w)
                  (w_pending_damage w) (w_awaiting_frame w) in
      let m' := set_windows m (<[i := w']> (wm_windows m)) in
      if w_visible w then m' ← mark m' (Window_rect w); mark m' (Window_rect w') else Ok m'
  end.

Definition do_destroy m (window : Z) : outcome () (WindowManager T * list CompEvent) :=
  match window_mut (wm_windows m) window with
  | None => Ok (m, [])
  | Some (i, w) =>
      let m' := set_windows m (delete i (wm_windows m)) in
      let release (o : option Attachment) :=
        match o with Some a => [BufferReleased window (at_id a)] | None => [] end in
      let events := release (w_pending w) ++ release (w_latched w) ++ [CompClosed window] in
      if w_visible w && negb (Rect_is_empty (Window_rect w))
      then m' ← mark m' (Window_rect w); Ok (m', events) else Ok (m', events)
  end.

Definition handle_request m (request : CompRequest) (attachment : option Attachment) :
    outcome () (WindowManager T * list CompEvent) :=
  let quiet (r : outcome () (WindowManager T)) := m ← r; Ok (m, []) in
  match request with
  | CreateWindow => do_create m
  | AttachBuffer window _ _ _ => Ok (do_attach m window attachment)
  | Damage window rect => Ok (do_damage m window rect, [])
  | Commit window => do_commit m window
  | CompFill window rect colour => quiet (do_fill m window rect colour)
  | SetVisible window visible => quiet (do_visible m window visible)
  | MoveWindow window x y => quiet (do_move m window x y)
  | DestroyWindow window => do_destroy m window
  end.

(** ** Compositing *)
Definition copy_row (width : Z) (buffer : list Z) (clip : Rect) (src_x src_y y : Z) (t : T) :
    outcome () T :=
  sy ← add32 src_y y;
  o ← chk 32 (sy * width);
  o ← add32 o src_x;
  let src_row_start := o * 4 in
  let src_row_end := src_row_start + r_width clip * 4 in
  if decide (src_row_end > len buffer) then Ok t
  else
    dst_y ← add32 (r_y clip) y;
    row ← slice buffer src_row_start src_row_end;
    tg_write_row (r_x clip) dst_y (r_width clip) row t.

Definition blend_pixel (width : Z) (buffer : list Z) (clip : Rect) (src_x src_y y x : Z) (t : T) :
    outcome () T :=
  sy ← add32 src_y y;
  o ← chk 32 (sy * width);
  sx ← add32 src_x x;
  o ← add32 o sx;
  src_offset ← chk 32 (o * 4);
  if decide (src_offset + 4 > len buffer) then Ok t
  else
    b ← index buffer src_offset;
    g ← index buffer (src_offset + 1);
    r ← index buffer (src_offset + 2);
    a ← index buffer (src_offset + 3);
    if decide (a = 0) then Ok t
    else
      dst_x ← add32 (r_x clip) x;
      dst_y ← add32 (r_y clip) y;
      dst ← tg_get_pixel dst_x dst_y t;
      tg_set_pixel dst_x dst_y (alpha_blend (mkPx b g r a) dst) t.

Definition composite_window (position size : Z * Z) (buffer : list Z) (clip : Rect) (t : T) : outcome () T :=
  let src_x := Z.max 0 (r_x clip - position.1) in
  let src_y := Z.max 0 (r_y clip - position.2) in
  opaque ← is_region_opaque buffer src_x src_y (r_width clip) (r_height clip) size.1;
  if (opaque : bool) then
    for_range (upto (r_height clip)) (copy_row size.1 buffer clip src_x src_y) t
  else
    for_range (upto (r_height clip)) (λ y t,
      for_range (upto (r_width clip)) (blend_pixel size.1 buffer clip src_x src_y y) t) t.

Definition draw_window (mem : Memory) (dirty : Rect) (w : Window) (t : T) : outcome () T :=
  if negb (w_visible w) || bool_decide ((w_size w).1 = 0) || bool_decide ((w_size w).2 = 0) then Ok t
  else
    match w_latched w with
    | None => Ok t
    | Some buffer =>
        clip ← Rect_intersection (Window_rect w) dirty;
        match clip with
        | None => Ok t
        | Some clip =>
            data ← as_slice mem buffer;
            composite_window (w_position w) (w_size w) data clip t
        end
    end.

Fixpoint draw_windows (mem : Memory) (dirty : Rect) (ws : list Window) (t : T) : outcome () T :=
  match ws with
  | [] => Ok t
  | w :: ws => t ← draw_window mem dirty w t; draw_windows mem dirty ws t
  end.

Fixpoint composite_regions (mem : Memory) (ws : list Window) (ds : list Rect) (t : T) : outcome () T :=
  match ds with
  | [] => Ok t
  | d :: ds =>
      i ← Rect_intersection d (mkRect 0 0 (tg_width t) (tg_height t));
      match i with
      | None => composite_regions mem ws ds t
      | Some dirty =>
          t ← tg_fill dirty BACKGROUND_COLOUR t;
          t ← draw_windows mem dirty ws t;
          composite_regions mem ws ds (tg_flush dirty t)
      end
  end.

Definition composite m : outcome () (WindowManager T) :=
  match wm_dirty_regions m, wm_target m with
  | [], _ => Ok m
  | _, None => Ok (set_dirty m [])
  | ds, Some t =>
      t ← composite_regions (wm_memory m) (wm_windows m) ds t;
      Ok (set_dirty (set_target m (Some t)) [])
  end.

Definition seen (w : Window) : Window :=
  mkWin (w_id w) (w_visible w) (w_position w) (w_size w) (w_pending w) (w_latched w)
    (w_pending_damage w) false.

Definition tick m : outcome () (WindowManager T * list CompEvent) :=
  m ← composite m;
  frame ← chk 64 (wm_frame m + 1);
  Ok (mkWm (seen <$> wm_windows m) (wm_dirty_regions m) (wm_target m) (wm_next_window_id m) frame (wm_memory m),
      (λ w, FrameDone (w_id w) frame) <$> filter (λ w, w_awaiting_frame w = true) (wm_windows m)).
End manager.

(** ** The server *)
(** A connected client: the messages it has sent and not been read yet, each
    with the handle attached to it, and the events queued for it. *)
Record Client : Type := mkClient {
  cl_inbox : list (list Z * option Z);
  cl_outbox : list (list Z);
  cl_windows : list Z;
  cl_buffer_ids : list (Z * Z);
}.

Definition Client_new (inbox : list (list Z * option Z)) : Client := mkClient inbox [] [] [].

(** The first entry for [window] is bumped; a new entry starts at 1. *)
Fixpoint take_buffer_id (window : Z) (ids : list (Z * Z)) : outcome () (Z * list (Z * Z)) :=
  match ids with
  | [] => Ok (0, [(window, 1)])
  | (id, next) :: ids =>
      if decide (id = window) then n ← chk 64 (next + 1); Ok (next, (id, n) :: ids)
      else '(r, ids) ← take_buffer_id window ids; Ok (r, (id, next) :: ids)
  end.
Definition next_buffer_id (c : Client) (window : Z) : outcome () (Z * Client) :=
  '(id, ids) ← take_buffer_id window (cl_buffer_ids c);
  Ok (id, mkClient (cl_inbox c) (cl_outbox c) (cl_windows c) ids).

Section server.
Context {T : Type} `{Target T}.
(** [buffer::map]: the address a handle is mapped at, or an error; and whether
    the channel of a client with these queued events takes one more. *)
Variable map_buffer : Z → option Z.
Variable try_send_ok : list (list Z) → bool.

Definition Client_send (c : Client) (event : CompEvent) : outcome () Client :=
  match CompEvent_encode event (replicate (Z.to_nat COMP_MAX_FRAME_SIZE) 0) with
  | Ok (frame, n) =>
      out ← slice frame 0 n;
      Ok (if try_send_ok (cl_outbox c)
          then mkClient (cl_inbox c) (cl_outbox c ++ [out]) (cl_windows c) (cl_buffer_ids c) else c)
  | Err _ => Ok c
  | Panic => Panic
  | OutOfFuel => OutOfFuel
  end.

Definition map_attachment (c : Client) (window width height format : Z) (attached : option Z) :
    outcome () (option Attachment * Client) :=
  match attached ≫= map_buffer with
  | None => Ok (None, c)
  | Some address =>
      match (checked_mul width height ≫= λ p, checked_mul p 4) with
      | None => Ok (None, c)
      | Some len =>
          '(id, c) ← next_buffer_id c window;
          Ok (Attachment_new id address len width height format, c)
      end
  end.

(** The bookkeeping and the reply for one event. *)
Definition deliver (c : Client) (event : CompEvent) : outcome () Client :=
  let c := match event with
           | WindowCreated window =>
               mkClient (cl_inbox c) (cl_outbox c) (cl_windows c ++ [window]) (cl_buffer_ids c)
           | CompClosed window =>
               mkClient (cl_inbox c) (cl_outbox c) (filter (λ w, w ≠ window) (cl_windows c)) (cl_buffer_ids c)
           | _ => c
           end in
  Client_send c event.

Fixpoint deliver_all (c : Client) (events : list CompEvent) : outcome () Client :=
  match events with
  | [] => Ok c
  | e :: events => c ← deliver c e; deliver_all c events
  end.

(** One message of a client. *)
Definition serve_message (m : WindowManager T) (c : Client) (frame : list Z) (attached : option Z) :
    outcome () (WindowManager T * Client) :=
  match CompRequest_decode frame with
  | Some request =>
      '(attachment, c) ← match request with
                         | AttachBuffer window width height format =>
                             map_attachment c window width height format attached
                         | _ => Ok (None, c)
                         end;
      '(m, events) ← handle_request m request attachment;
      c ← deliver_all c events;
      Ok (m, c)
  | None => Ok (m, c)
  end.

(** A message longer than the frame is an error of the receive, which leaves it
    queued and ends the client's turn. *)
Fixpoint serve_inbox (inbox : list (list Z * option Z)) (m : WindowManager T) (c : Client) :
    outcome () (WindowManager T * Client) :=
  match inbox with
  | [] => Ok (m, mkClient [] (cl_outbox c) (cl_windows c) (cl_buffer_ids c))
  | (frame, attached) :: rest =>
      if decide (COMP_MAX_FRAME_SIZE < len frame) then
        Ok (m, mkClient inbox (cl_outbox c) (cl_windows c) (cl_buffer_ids c))
      else
        '(m, c) ← serve_message m c frame attached;
        serve_inbox rest m c
  end.

Fixpoint serve_clients (m : WindowManager T) (cs : list Client) : outcome () (WindowManager T * list Client) :=
  match cs with
  | [] => Ok (m, [])
  | c :: cs =>
      '(m, c) ← serve_inbox (cl_inbox c) m c;
      '(m, cs) ← serve_clients m cs;
      Ok (m, c :: cs)
  end.

(** [FrameDone] goes to the first client that owns the window. *)
Fixpoint send_to_owner (window : Z) (event : CompEvent) (cs : list Client) : outcome () (list Client) :=
  match cs with
  | [] => Ok []
  | c :: cs =>
      if decide (window ∈ cl_windows c) then c ← Client_send c event; Ok (c :: cs)
      else cs ← send_to_owner window event cs; Ok (c :: cs)
  end.
Fixpoint send_frames (events : list CompEvent) (cs : list Client) : outcome () (list Client) :=
  match events with
  | [] => Ok cs
  | FrameDone window frame :: events =>
      cs ← send_to_owner window (FrameDone window frame) cs; send_frames events cs
  | _ :: events => send_frames events cs
  end.

Record CompServer : Type := mkCs { cs_manager : WindowManager T; cs_clients : list Client }.

Definition add_client (s : CompServer) (inbox : list (list Z * option Z)) : outcome () CompServer :=
  let (width, height) := screen_size (cs_manager s) in
  c ← Client_send (Client_new inbox) (DisplayFormats width height [FORMAT_BGRA8888]);
  Ok (mkCs (cs_manager s) (cs_clients s ++ [c])).

Definition server_tick (s : CompServer) : outcome () CompServer :=
  '(m, events) ← tick (cs_manager s);
  cs ← send_frames events (cs_clients s);
  Ok (mkCs m cs).

(** One turn of the frame loop. *)
Definition server_frame (s : CompServer) : outcome () CompServer :=
  '(m, cs) ← serve_clients (cs_manager s) (cs_clients s);
  server_tick (mkCs m cs).
End server.
