(* ===== verification/CompositorProof.v ===== *)
(** * What the compositor draws
    The screen against a reference picture: the background, then each visible
    window's latched buffer blended over it, back to front. *)

From S2P Require Import Prelude Effects BlockDevice CompositorProtocol Graphics Compositor.

(** ** The reference picture *)
Definition covered (ds : list Rect) (x y : Z) : Prop := Exists (λ d, in_rect d x y) ds.
#[export] Instance covered_dec ds x y : Decision (covered ds x y).
Proof. unfold covered. apply _. Defined.

Lemma covered_nil x y : ¬ covered [] x y.
Proof. intros H. inversion H. Qed.
Lemma covered_cons d ds x y : covered (d :: ds) x y ↔ in_rect d x y ∨ covered ds x y.
Proof. apply Exists_cons. Qed.

Definition buffer_bytes (mem : Memory) (a : Attachment) : list Z := default [] (mem !! at_data a).

(** Pixel [(i, j)] of a buffer. *)
Definition buffer_pixel (mem : Memory) (a : Attachment) (i j : Z) : Pixel :=
  Pixel_of_bytes (sub (buffer_bytes mem a) ((j * at_width a + i) * 4) 4).

(** What a window shows at a screen pixel. *)
Definition layer (mem : Memory) (w : Window) (x y : Z) : option Pixel :=
  match w_latched w with
  | Some a =>
      if decide (w_visible w = true ∧ in_rect (Window_rect w) x y)
      then Some (buffer_pixel mem a (x - (w_position w).1) (y - (w_position w).2)) else None
  | None => None
  end.

Definition over (o : option Pixel) (dst : Pixel) : Pixel :=
  match o with Some s => alpha_blend s dst | None => dst end.

Fixpoint stack (mem : Memory) (ws : list Window) (x y : Z) (p : Pixel) : Pixel :=
  match ws with
  | [] => p
  | w :: ws => stack mem ws x y (over (layer mem w x y) p)
  end.

Definition scene (mem : Memory) (ws : list Window) (x y : Z) : Pixel :=
  stack mem ws x y (Pixel_of_colour BACKGROUND_COLOUR).

(** ** Well-formed managers *)
Definition att_ok (mem : Memory) (a : Attachment) : Prop :=
  0 < at_width a ∧ 0 < at_height a ∧ at_width a * at_height a * 4 < 2 ^ 32
  ∧ at_width a * at_height a * 4 <= at_len a <= len (buffer_bytes mem a).
#[export] Instance att_ok_dec mem a : Decision (att_ok mem a).
Proof. unfold att_ok. apply _. Defined.

Definition win_ok (mem : Memory) (w : Window) : Prop :=
  rect_ok (Window_rect w)
  ∧ from_option (λ a, att_ok mem a ∧ w_size w = (at_width a, at_height a)) True (w_latched w)
  ∧ from_option (att_ok mem) True (w_pending w).
#[export] Instance win_ok_dec mem w : Decision (win_ok mem w).
Proof. unfold win_ok. destruct (w_latched w), (w_pending w); apply _. Defined.

(** ** Pixels of a byte array *)
Lemma sub4 (data : list Z) off : 0 <= off → off + 4 <= len data →
  ∃ b g r a, sub data off 4 = [b; g; r; a]
    ∧ index (E:=()) data off = Ok b ∧ index (E:=()) data (off + 1) = Ok g
    ∧ index (E:=()) data (off + 2) = Ok r ∧ index (E:=()) data (off + 3) = Ok a
    ∧ data !! Z.to_nat (off + 3) = Some a.
Proof.
  intros H0 Hl.
  destruct (index_lookup (E:=()) data off) as (b&Hb&?), (index_lookup (E:=()) data (off + 1)) as (g&Hg&?),
    (index_lookup (E:=()) data (off + 2)) as (r&Hr&?), (index_lookup (E:=()) data (off + 3)) as (a&Ha&?); [lia..|].
  exists b, g, r, a. split_and!; [|done..].
  unfold sub. change (Z.to_nat 4) with 4%nat.
  rewrite (drop_S _ _ _ Hb).
  replace (Z.to_nat (off + 1)) with (S (Z.to_nat off)) in Hg by lia.
  replace (Z.to_nat (off + 2)) with (S (S (Z.to_nat off))) in Hr by lia.
  replace (Z.to_nat (off + 3)) with (S (S (S (Z.to_nat off)))) in Ha by lia.
  by rewrite (drop_S _ _ _ Hg), (drop_S _ _ _ Hr), (drop_S _ _ _ Ha).
Qed.

(** ** The opaque test *)
Section region.
Context (data : list Z) (src_x src_y width height stride rows : Z).
Hypothesis Hx : 0 <= src_x ∧ 0 <= width ∧ src_x + width <= stride.
Hypothesis Hy : 0 <= src_y ∧ 0 <= height ∧ src_y + height <= rows.

(** Where pixel [(col, row)] of the region starts. *)
Definition cell (col row : Z) : Z := ((src_y + row) * stride + (src_x + col)) * 4.

Lemma cell_inside col row : 0 <= col < width → 0 <= row < height →
  0 <= cell col row ∧ cell col row + 4 <= stride * rows * 4.
Proof using Hx Hy. unfold cell. intros. assert ((src_y + row + 1) * stride <= rows * stride) by nia. nia. Qed.

Hypothesis Hsize : 0 < stride ∧ stride * rows * 4 < 2 ^ 32 ∧ stride * rows * 4 <= len data.

Lemma row_start_Ok {E} row : 0 <= row < height →
  add32 (E:=E) src_y row = Ok (src_y + row)
  ∧ chk (E:=E) 32 ((src_y + row) * stride) = Ok ((src_y + row) * stride)
  ∧ add32 (E:=E) ((src_y + row) * stride) src_x = Ok ((src_y + row) * stride + src_x).
Proof using Hx Hy Hsize.
  intros Hr. assert (0 <= (src_y + row) * stride) by nia.
  assert ((src_y + row + 1) * stride <= rows * stride) by nia.
  assert (src_y + row < rows * stride) by nia.
  split_and!; [apply add32_Ok|apply chk_Ok|apply add32_Ok]; rng; nia.
Qed.

Lemma opaque_row_true row cols : 0 <= row < height → (∀ c, c ∈ cols → 0 <= c < width) →
  opaque_row data (((src_y + row) * stride + src_x) * 4) cols = true →
  ∀ c, c ∈ cols → px_a (Pixel_of_bytes (sub data (cell c row) 4)) = 255.
Proof using Hx Hy Hsize.
  intros Hr. induction cols as [|c cols IH]; intros Hc Ho c'; [set_solver|].
  destruct (cell_inside c row) as [Hl Hu]; [apply Hc; set_solver|done|].
  destruct (sub4 data (cell c row)) as (b&g&r&a&Hs&_&_&_&_&Ha); [lia..|].
  cbn [opaque_row] in Ho.
  replace (((src_y + row) * stride + src_x) * 4 + c * 4 + 3) with (cell c row + 3) in Ho by (unfold cell; lia).
  rewrite Ha in Ho.
  assert (a = 255 ∧ opaque_row data (((src_y + row) * stride + src_x) * 4) cols = true) as [-> Ho'].
  { revert Ho. clear. destruct a as [|p|p]; try done. do 8 (destruct p; try done). }
  rewrite elem_of_cons. intros [->|Hin]; [by rewrite Hs|].
  apply IH; [|done..]. intros. apply Hc. set_solver.
Qed.

Lemma opaque_rows_exact {E} l : (∀ r, r ∈ l → 0 <= r < height) →
  ∃ o, opaque_rows (E:=E) data src_x src_y width stride l = Ok o ∧
    (o = true → ∀ c r, r ∈ l → 0 <= c < width → px_a (Pixel_of_bytes (sub data (cell c r) 4)) = 255).
Proof using Hx Hy Hsize.
  induction l as [|r l IH]; intros Hl; simpl.
  { exists true. split; [done|]. intros _ c r Hr. set_solver. }
  destruct (row_start_Ok (E:=E) r) as (->&E2&E3); [apply Hl; set_solver|]. simpl.
  rewrite E2. simpl. rewrite E3. simpl.
  destruct (opaque_row _ _ _) eqn:Ho; [|by eexists].
  destruct IH as (o&->&Hop); [intros; apply Hl; set_solver|]. exists o. split; [done|].
  intros -> c r'. rewrite elem_of_cons. intros [->|Hin] Hc; [|by apply Hop].
  eapply opaque_row_true; [apply Hl; set_solver| |exact Ho|by apply elem_of_upto].
  by intros ? ?%elem_of_upto.
Qed.
End region.

(** ** One window *)
Section window.
Context `{RasterLaws T}.
Context (buffer : list Z) (position : Z * Z) (width height : Z) (clip : Rect).
Hypothesis Hclip : rect_ok clip.
Hypothesis Hpos : 0 <= position.1 <= r_x clip ∧ 0 <= position.2 <= r_y clip.
Hypothesis Hin : r_x clip + r_width clip <= position.1 + width ∧ r_y clip + r_height clip <= position.2 + height.
Hypothesis Hsize : 0 < width ∧ width * height * 4 < 2 ^ 32 ∧ width * height * 4 <= len buffer.

Let src_x : Z := r_x clip - position.1.
Let src_y : Z := r_y clip - position.2.

(** The source pixel of screen pixel [(x, y)]. *)
Definition source (x y : Z) : Pixel :=
  Pixel_of_bytes (sub buffer (((y - position.2) * width + (x - position.1)) * 4) 4).

Lemma source_cell col row :
  source (r_x clip + col) (r_y clip + row) = Pixel_of_bytes (sub buffer (cell src_x src_y width col row) 4).
Proof using. unfold source, cell, src_x, src_y. do 3 f_equal. lia. Qed.

Lemma copy_row_renders (t : T) j : tg_ok t → 0 <= j < r_height clip →
  r_x clip + r_width clip <= tg_width t → r_y clip + r_height clip <= tg_height t →
  ∃ t', copy_row width buffer clip src_x src_y j t = Ok t' ∧
    renders t t' (λ x y p, if decide (y - r_y clip = j)
      then (if decide (r_x clip <= x < r_x clip + r_width clip) then source x y else p) else p).
Proof using All.
  intros Ht Hj Hw Hh. unfold rect_ok in Hclip. unfold copy_row.
  destruct (row_start_Ok buffer src_x src_y (r_width clip) (r_height clip) width height
    ltac:(unfold src_x; lia) ltac:(unfold src_y; lia) ltac:(lia) (E:=()) j) as (->&E2&E3); [lia|].
  simpl. rewrite E2. simpl. rewrite E3. simpl.
  set (o := (src_y + j) * width + src_x).
  assert (0 <= o ∧ o * 4 + r_width clip * 4 <= width * height * 4) as [Ho1 Ho2].
  { unfold o, src_x, src_y. assert ((r_y clip - position.2 + j + 1) * width <= height * width) by nia. nia. }
  rewrite decide_False by lia. rewrite add32_Ok by lia. simpl. rewrite slice_sub by lia. simpl.
  replace (o * 4 + r_width clip * 4 - o * 4) with (r_width clip * 4) by lia.
  destruct (write_row_law t (r_x clip) (r_y clip + j) (r_width clip) (sub buffer (o * 4) (r_width clip * 4)))
    as (t'&->&R); [done|lia..|rewrite len_sub; lia|].
  eexists. split; [done|]. eapply renders_ext; [done|]. intros x y p _. cbv beta.
  destruct (decide (y - r_y clip = j)) as [Hy|]; [|by rewrite decide_False by lia].
  destruct (decide (r_x clip <= x < _)); [|by rewrite decide_False by lia].
  rewrite decide_True by lia. rewrite sub_sub by lia. unfold source. do 2 f_equal.
  unfold o, src_x, src_y. replace (y - position.2) with (r_y clip - position.2 + j) by lia. lia.
Qed.

Lemma blend_pixel_renders (t : T) i j : tg_ok t → 0 <= i < r_width clip → 0 <= j < r_height clip →
  r_x clip + r_width clip <= tg_width t → r_y clip + r_height clip <= tg_height t →
  ∃ t', blend_pixel width buffer clip src_x src_y j i t = Ok t' ∧
    renders t t' (λ x y p, if decide (x - r_x clip = i)
      then (if decide (y - r_y clip = j) then alpha_blend (source x y) p else p) else p).
Proof using All.
  intros Ht Hi Hj Hw Hh. unfold rect_ok in Hclip. unfold blend_pixel.
  destruct (row_start_Ok buffer src_x src_y (r_width clip) (r_height clip) width height
    ltac:(unfold src_x; lia) ltac:(unfold src_y; lia) ltac:(lia) (E:=()) j) as (->&E2&_); [lia|].
  destruct (cell_inside src_x src_y (r_width clip) (r_height clip) width height
    ltac:(unfold src_x; lia) ltac:(unfold src_y; lia) i j) as [Hc1 Hc2]; [lia..|].
  simpl. rewrite E2. simpl. unfold cell in Hc1, Hc2.
  assert (0 <= (src_y + j) * width) by (unfold src_y; nia).
  assert (0 <= src_x) by (unfold src_x; lia).
  rewrite (add32_Ok src_x i) by lia. simpl. rewrite (add32_Ok _ (src_x + i)) by lia. simpl.
  rewrite chk_Ok by rng. simpl. rewrite decide_False by lia.
  fold (cell src_x src_y width i j).
  destruct (sub4 buffer (cell src_x src_y width i j)) as (b&g&r&a&Hs&->&->&->&->&_); [unfold cell; lia..|]. simpl.
  assert (source (r_x clip + i) (r_y clip + j) = mkPx b g r a) as Hsrc by (by rewrite source_cell, Hs).
  destruct (decide (a = 0)) as [->|Ha].
  - exists t. split; [done|]. apply renders_refl; [done|]. intros x y p _. cbv beta.
    destruct (decide _) as [Hx|]; [|done]. destruct (decide _) as [Hy|]; [|done].
    replace x with (r_x clip + i) by lia. replace y with (r_y clip + j) by lia. by rewrite Hsrc.
  - rewrite !add32_Ok by lia. simpl.
    rewrite get_pixel_law by (done || (unfold on_screen; lia)). simpl.
    destruct (set_pixel_law t (r_x clip + i) (r_y clip + j) (alpha_blend (mkPx b g r a) (tg_pixel t (r_x clip + i) (r_y clip + j))))
      as (t'&->&R); [done|unfold on_screen; lia|].
    exists t'. split; [done|]. destruct R as (?&?&?&Hp). split_and!; [done..|]. intros x y Hxy.
    rewrite Hp by done. cbv beta. destruct (decide (x - r_x clip = i)); [|by rewrite decide_False by lia].
    destruct (decide (y - r_y clip = j)); [|by rewrite decide_False by lia]. rewrite decide_True by lia.
    replace x with (r_x clip + i) by lia. replace y with (r_y clip + j) by lia. by rewrite Hsrc.
Qed.

(** Both paths draw the window's pixels blended over what was there. *)
Lemma composite_window_renders (t : T) : tg_ok t →
  r_x clip + r_width clip <= tg_width t → r_y clip + r_height clip <= tg_height t →
  ∃ t', composite_window position (width, height) buffer clip t = Ok t' ∧
    renders t t' (λ x y p, if decide (in_rect clip x y) then alpha_blend (source x y) p else p).
Proof using All.
  intros Ht Hw Hh. unfold composite_window. simpl. rewrite !Z.max_r by lia. fold src_x src_y.
  destruct (opaque_rows_exact buffer src_x src_y (r_width clip) (r_height clip) width height
    ltac:(unfold src_x, rect_ok in *; lia) ltac:(unfold src_y, rect_ok in *; lia) ltac:(lia)
    (E:=()) (upto (r_height clip))) as (o&Ho&Hop); [by intros ? ?%elem_of_upto|].
  unfold is_region_opaque. rewrite Ho. simpl. destruct o.
  - edestruct (renders_loop (λ x y, y - r_y clip)
      (λ x y p, if decide (r_x clip <= x < r_x clip + r_width clip) then source x y else p))
      as (t'&->&R); [apply NoDup_upto| |done|done|done|].
    { intros j u Hj%elem_of_upto Hu HW HH. apply copy_row_renders; [done..|lia|lia]. }
    exists t'. split; [done|]. eapply renders_ext; [done|]. intros x y p _. cbv beta. unfold in_rect.
    destruct (decide (_ ∈ _)) as [Hy|Hy]; rewrite elem_of_upto in Hy; [|by rewrite decide_False by lia].
    destruct (decide _); [|by rewrite decide_False by lia]. rewrite decide_True by lia.
    unfold alpha_blend. rewrite decide_True; [done|].
    replace x with (r_x clip + (x - r_x clip)) by lia. replace y with (r_y clip + (y - r_y clip)) by lia.
    rewrite source_cell. apply Hop; [done|by apply elem_of_upto|lia].
  - edestruct (renders_loop (λ x y, y - r_y clip)
      (λ x y p, if decide (x - r_x clip ∈ upto (r_width clip)) then alpha_blend (source x y) p else p))
      as (t'&->&R); [apply NoDup_upto| |done|done|done|].
    { intros j u Hj%elem_of_upto Hu HW HH.
      edestruct (renders_loop (λ x y, x - r_x clip)
        (λ x y p, if decide (y - r_y clip = j) then alpha_blend (source x y) p else p))
        as (t'&->&R); [apply NoDup_upto| |done|done|done|].
      - intros i v Hi%elem_of_upto Hv HWv HHv. apply blend_pixel_renders; [done..|lia|lia].
      - exists t'. split; [done|]. eapply renders_ext; [done|]. intros x y p _. cbv beta.
        by destruct (decide (y - r_y clip = j)), (decide (x - r_x clip ∈ upto (r_width clip))). }
    exists t'. split; [done|]. eapply renders_ext; [done|]. intros x y p _. cbv beta. unfold in_rect.
    destruct (decide (y - r_y clip ∈ _)) as [Hy|Hy]; rewrite elem_of_upto in Hy; [|by rewrite decide_False by lia].
    destruct (decide (x - r_x clip ∈ _)) as [Hx|Hx]; rewrite elem_of_upto in Hx;
      [by rewrite decide_True by lia|by rewrite decide_False by lia].
Qed.
End window.

Lemma sub_take (l : list Z) n off k : 0 <= off → 0 <= k → off + k <= n → sub (take (Z.to_nat n) l) off k = sub l off k.
Proof.
  intros. unfold sub. rewrite skipn_firstn_comm, take_take. f_equal. lia.
Qed.

(** ** Damage *)
Lemma dirty_insert_covers rect ds : rect_ok rect → Forall rect_ok ds →
  ∃ ds', dirty_insert rect ds = Ok ds' ∧ Forall rect_ok ds' ∧
    (∀ x y, covered ds x y ∨ in_rect rect x y → covered ds' x y).
Proof.
  intros Hr. induction 1 as [|d ds Hd Hds IH]; simpl.
  { exists [rect]. split_and!; [done|by constructor|]. intros x y. rewrite covered_cons. tauto. }
  rewrite intersects_exact by done. destruct (adjacent_Ok (E:=()) d rect) as [adj ->]; [done..|].
  rewrite orM_Ok. simpl. destruct (_ || adj).
  - destruct (union_covers (E:=()) d rect) as (u&->&Hu&Hc); [done..|]. simpl.
    exists (u :: ds). split_and!; [done|by constructor|]. intros x y. rewrite !covered_cons. naive_solver.
  - destruct IH as (ds'&->&Hok&Hc). simpl. exists (d :: ds'). split_and!; [done|by constructor|].
    intros x y. rewrite !covered_cons. naive_solver.
Qed.

Lemma empty_rect r x y : Rect_is_empty r = true → rect_ok r → ¬ in_rect r x y.
Proof. unfold Rect_is_empty, in_rect, rect_ok. rewrite bool_decide_eq_true. lia. Qed.

Lemma mark_dirty_covers rect ds : rect_ok rect → Forall rect_ok ds →
  ∃ ds', mark_dirty rect ds = Ok ds' ∧ Forall rect_ok ds' ∧
    (∀ x y, covered ds x y ∨ in_rect rect x y → covered ds' x y).
Proof.
  intros Hr Hds. unfold mark_dirty. destruct (Rect_is_empty rect) eqn:He; [|by apply dirty_insert_covers].
  exists ds. split_and!; [done..|]. intros x y [?|?]; [done|]. exfalso. by eapply empty_rect.
Qed.

(** A damage rectangle on the screen. *)
Definition shifted (origin : Z * Z) (r : Rect) : Rect :=
  mkRect (origin.1 + r_x r) (origin.2 + r_y r) (r_width r) (r_height r).

Lemma mark_damage_covers origin damage ds : Forall (λ r, rect_ok (shifted origin r)) damage → Forall rect_ok ds →
  ∃ ds', mark_damage origin damage ds = Ok ds' ∧ Forall rect_ok ds' ∧
    (∀ x y, covered ds x y ∨ covered (shifted origin <$> damage) x y → covered ds' x y).
Proof.
  intros Hd. revert ds. induction Hd as [|r damage Hr Hd IH]; intros ds Hds; simpl.
  { exists ds. split_and!; [done..|]. intros x y [?|?%covered_nil]; done. }
  pose proof Hr as Hr'. unfold rect_ok in Hr'. simpl in Hr'.
  rewrite add32_Ok by lia. simpl. rewrite add32_Ok by lia. simpl.
  destruct (mark_dirty_covers (shifted origin r) ds Hr Hds) as (ds1&E1&Hok1&Hc1).
  unfold shifted in E1. rewrite E1. simpl.
  destruct (IH ds1 Hok1) as (ds2&->&Hok2&Hc2). exists ds2. split_and!; [done..|].
  intros x y. rewrite covered_cons. naive_solver.
Qed.

(** ** Filling a buffer *)
Lemma for_range_sim {E S S'} (f : S → S') (Inv : S → Prop) (body : Z → S → outcome E S) (body' : Z → S' → outcome E S') l :
  (∀ x s, x ∈ l → Inv s → ∃ s', body x s = Ok s' ∧ Inv s' ∧ body' x (f s) = Ok (f s')) →
  ∀ s, Inv s → ∃ s', for_range l body s = Ok s' ∧ Inv s' ∧ for_range l body' (f s) = Ok (f s').
Proof.
  induction l as [|x l IH]; intros Hb s Hs; simpl; [by eexists|].
  destruct (Hb x s) as (s1&->&Hs1&->); [set_solver|done|]. simpl.
  destruct (IH (λ x s Hx, Hb x s (list_elem_of_further _ _ _ Hx)) s1 Hs1) as (s2&->&?&->). by eexists.
Qed.

(** A buffer seen as a framebuffer without padding. *)
Definition as_grid (a : Attachment) (data : list Z) : Framebuffer :=
  mkFb data (at_width a) (at_height a) (at_width a * 4) [].

Lemma fill_cell_grid a colour x y data : fb_ok (as_grid a data) →
  0 <= x < at_width a → 0 <= y < at_height a →
  ∃ data', fill_cell (at_width a) colour x y data = Ok data' ∧ len data' = len data ∧
    fb_store (as_grid a data) x y (to_le_bytes 4 colour) = Ok (as_grid a data').
Proof.
  intros Hfb Hx Hy. unfold fb_store. rewrite fb_offset_Ok by done.
  unfold fb_ok in Hfb. simpl in *.
  assert (y * at_width a * 4 + at_width a * 4 <= at_width a * 4 * at_height a) by nia.
  assert (0 <= y * at_width a) by nia.
  unfold fill_cell. rewrite chk_Ok by rng. simpl. rewrite add32_Ok by lia. simpl. rewrite chk_Ok by rng. simpl.
  rewrite decide_False by lia.
  replace (y * (at_width a * 4) + x * 4) with ((y * at_width a + x) * 4) by lia.
  pose proof (len_to_le_bytes 4 colour) as Hl4. change (Z.of_nat 4) with 4 in Hl4.
  rewrite copy_at_splice by lia. eexists. split_and!; [done| |done]. rewrite len_splice by lia. done.
Qed.

Lemma fill_loops_grid a colour r data : fb_ok (as_grid a data) → rect_ok r →
  within r (mkRect 0 0 (at_width a) (at_height a)) →
  ∃ data', (y2 ← add32 (E:=()) (r_y r) (r_height r);
      for_range (range (r_y r) y2) (λ y data,
        x2 ← add32 (r_x r) (r_width r);
        for_range (range (r_x r) x2) (λ x data, fill_cell (at_width a) colour x y data) data) data) = Ok data'
    ∧ len data' = len data ∧ Framebuffer_fill r colour (as_grid a data) = Ok (as_grid a data').
Proof.
  intros Hfb Hr Hin. unfold rect_ok in Hr. unfold within in Hin. simpl in Hin. unfold Framebuffer_fill.
  rewrite !add32_Ok by lia. simpl. rewrite Z.min_l by lia.
  apply (for_range_sim (as_grid a) (λ d, len d = len data)); [|done].
  intros y d Hy%elem_of_range Hd. simpl. rewrite Z.min_l by lia.
  apply (for_range_sim (as_grid a) (λ d, len d = len data)); [|done].
  intros x d' Hx%elem_of_range Hd'.
  destruct (fill_cell_grid a colour x y d') as (d2&->&Hl&->); [|lia..|].
  { revert Hfb. unfold fb_ok. simpl. by rewrite Hd'. }
  exists d2. split_and!; [done|congruence|done].
Qed.

Lemma fill_buffer_exact mem a rect colour : att_ok mem a → rect_ok rect →
  ∃ mem', fill_buffer mem a rect colour = Ok mem'
    ∧ (∀ k, k ≠ at_data a → mem' !! k = mem !! k)
    ∧ len (buffer_bytes mem' a) = len (buffer_bytes mem a)
    ∧ ∀ i j, 0 <= i < at_width a → 0 <= j < at_height a →
        buffer_pixel mem' a i j = if decide (in_rect rect i j) then Pixel_of_colour colour else buffer_pixel mem a i j.
Proof.
  intros (Hw&Hh&Hsz&Hlen) Hr. unfold fill_buffer.
  assert (0 < at_width a * at_height a) as Hpos by nia.
  assert (at_width a <= at_width a * at_height a ∧ at_height a <= at_width a * at_height a) as [Hb1 Hb2] by nia.
  destruct (intersection_exact (E:=()) rect (mkRect 0 0 (at_width a) (at_height a))) as (o&->&Ho);
    [done|unfold rect_ok; simpl; lia|]. simpl.
  destruct o as [r|]; cycle 1.
  { exists mem. split_and!; [done..|]. intros i j Hi Hj. rewrite decide_False; [done|]. intros ?.
    apply (Ho i j); [done|]. unfold in_rect. simpl. lia. }
  destruct Ho as (Hrok&_&Hin&Hiff). unfold within in Hin. simpl in Hin.
  unfold as_slice. unfold buffer_pixel, buffer_bytes in *.
  destruct (mem !! at_data a) as [bytes|] eqn:Hm; simpl in Hlen; [|rewrite len_nil in Hlen; lia].
  rewrite decide_True by lia. simpl.
  set (data := take (Z.to_nat (at_len a)) bytes).
  assert (len data = at_len a) as Hld by (unfold data; len_lia).
  assert (∀ d, len d = at_len a → fb_ok (as_grid a d)) as Hgrid by (unfold fb_ok; simpl; intros; lia).
  destruct (fill_loops_grid a colour r data) as (data'&Hloop&Hl'&Hfill); [by apply Hgrid|done|done|].
  destruct (Framebuffer_fill_law (as_grid a data) r colour) as (fb'&Hfill'&R); [by apply Hgrid|done|simpl; lia..|].
  rewrite Hfill in Hfill'. injection Hfill' as <-.
  revert Hloop. destruct (add32 (r_y r) (r_height r)); try done. cbn [mbind outcome_bind]. intros ->. simpl.
  eexists. split_and!; [done|intros; unfold put_slice; by rewrite lookup_alter_ne|..].
  { unfold put_slice. rewrite lookup_alter_eq, Hm. simpl. len_lia. }
  intros i j Hi Hj. destruct R as (_&_&_&Hp). specialize (Hp i j (conj Hi Hj)). simpl in Hp. unfold fb_pixel in Hp.
  simpl in Hp. unfold put_slice. rewrite lookup_alter_eq, Hm. simpl.
  assert (0 <= (j * at_width a + i) * 4 ∧ (j * at_width a + i) * 4 + 4 <= at_len a) as [Hs1 Hs2] by nia.
  rewrite <-(sub_take (data' ++ _) (len data')) by lia. rewrite <-(sub_take bytes (at_len a)) by lia. fold data.
  unfold len at 1. rewrite Nat2Z.id, take_app_length.
  replace (j * (at_width a * 4) + i * 4) with ((j * at_width a + i) * 4) in Hp by lia. rewrite Hp.
  assert (in_rect r i j ↔ in_rect rect i j) as Hiff'.
  { rewrite Hiff. unfold in_rect. simpl. lia. }
  destruct (decide (in_rect r i j)); [by rewrite decide_True by tauto|by rewrite decide_False by tauto].
Qed.

(** ** The whole picture *)
Section picture.
Context `{RasterLaws T}.
Implicit Types m : WindowManager T.

Definition screen_rect (t : T) : Rect := mkRect 0 0 (tg_width t) (tg_height t).
Definition inside_screen (t : T) (r : Rect) : Prop :=
  rect_ok r ∧ r_x r + r_width r <= tg_width t ∧ r_y r + r_height r <= tg_height t.

Lemma inside_renders t t' f r : renders t t' f → inside_screen t r → inside_screen t' r.
Proof. intros (?&Hw&Hh&_). unfold inside_screen. by rewrite Hw, Hh. Qed.

Lemma draw_window_renders mem (t : T) d w : tg_ok t → inside_screen t d → win_ok mem w →
  ∃ t', draw_window mem d w t = Ok t' ∧
    renders t t' (λ x y p, if decide (in_rect d x y) then over (layer mem w x y) p else p).
Proof.
  intros Ht (Hd&Hdw&Hdh) (Hr&Hl&_). unfold draw_window.
  assert ((∀ x y, in_rect d x y → layer mem w x y = None) →
    renders t t (λ x y p, if decide (in_rect d x y) then over (layer mem w x y) p else p)) as Hskip.
  { intros Hn. apply renders_refl; [done|]. intros x y p _. cbv beta. destruct (decide _); [|done].
    by rewrite Hn. }
  destruct (w_latched w) as [a|] eqn:Hlat; cycle 1.
  { exists t. split; [by destruct (_ || _)|]. apply Hskip. intros. unfold layer. by rewrite Hlat. }
  simpl in Hl. destruct Hl as ((Hw0&Hh0&Hsz&Hlen)&Hsize).
  destruct (w_visible w) eqn:Hv; simpl; cycle 1.
  { exists t. split; [done|]. apply Hskip. intros. unfold layer. rewrite Hlat, Hv. by rewrite decide_False by naive_solver. }
  rewrite Hsize. simpl. rewrite !bool_decide_eq_false_2 by lia. simpl.
  destruct (intersection_exact (E:=()) (Window_rect w) d) as (o&->&Ho); [done..|]. simpl.
  destruct o as [clip|]; cycle 1.
  { exists t. split; [done|]. apply Hskip. intros x y Hxy. unfold layer. rewrite Hlat.
    rewrite decide_False; [done|]. intros [_ ?]. by eapply Ho. }
  destruct Ho as (Hclip&Hwin&Hwd&Hiff). unfold as_slice. unfold buffer_bytes in Hlen.
  destruct (mem !! at_data a) as [bytes|] eqn:Hmem; simpl in Hlen; [|rewrite len_nil in Hlen; lia].
  rewrite decide_True by lia. simpl.
  assert (within clip (mkRect (w_position w).1 (w_position w).2 (at_width a) (at_height a))) as Hwin'.
  { revert Hwin. unfold Window_rect. by rewrite Hsize. }
  clear Hwin. unfold within, rect_ok in Hr, Hd, Hclip, Hwin', Hwd. simpl in Hr, Hwin'.
  destruct (composite_window_renders (take (Z.to_nat (at_len a)) bytes) (w_position w) (at_width a) (at_height a) clip
    ltac:(unfold rect_ok; lia) ltac:(lia) ltac:(lia) ltac:(len_lia) t) as (t'&->&R); [done|lia..|].
  exists t'. split; [done|]. eapply renders_ext; [done|]. intros x y p _. cbv beta.
  destruct (decide (in_rect clip x y)) as [Hc|Hc].
  - pose proof (proj1 (Hiff x y) Hc) as [Hcw Hcd].
    rewrite decide_True by done. unfold layer. rewrite Hlat, Hv.
    rewrite decide_True by done. simpl. f_equal. unfold source, buffer_pixel, buffer_bytes. rewrite Hmem. simpl.
    unfold in_rect, Window_rect in Hcw. rewrite Hsize in Hcw. simpl in Hcw.
    rewrite sub_take; [done|nia|lia|nia].
  - destruct (decide (in_rect d x y)); [|done]. unfold layer. rewrite Hlat.
    rewrite decide_False; [done|]. intros [_ ?]. by apply Hc, Hiff.
Qed.

Lemma draw_windows_renders mem d ws : Forall (win_ok mem) ws → ∀ t : T, tg_ok t → inside_screen t d →
  ∃ t', draw_windows mem d ws t = Ok t' ∧
    renders t t' (λ x y p, if decide (in_rect d x y) then stack mem ws x y p else p).
Proof.
  induction 1 as [|w ws Hw Hws IH]; intros t Ht Hd; simpl.
  { exists t. split; [done|]. apply renders_refl; [done|]. intros. by destruct (decide _). }
  destruct (draw_window_renders mem t d w) as (t1&->&R1); [done..|]. simpl.
  destruct (IH t1) as (t2&->&R2); [apply R1|by eapply inside_renders|]. exists t2. split; [done|].
  eapply renders_ext; [by eapply renders_trans|]. intros. simpl. by destruct (decide _).
Qed.

Lemma composite_regions_renders mem ws ds : Forall (win_ok mem) ws → Forall rect_ok ds → ∀ t : T, tg_ok t →
  ∃ t', composite_regions mem ws ds t = Ok t' ∧
    renders t t' (λ x y p, if decide (covered ds x y) then scene mem ws x y else p).
Proof.
  intros Hws. induction 1 as [|d ds Hd Hds IH]; intros t Ht; cbn [composite_regions].
  { exists t. split; [done|]. apply renders_refl; [done|]. intros x y p _. cbv beta.
    by rewrite decide_False by apply covered_nil. }
  destruct (tg_size_ok t Ht) as [Hw Hh].
  destruct (intersection_exact (E:=()) d (screen_rect t)) as (o&Ho&Hint); [done|unfold rect_ok; simpl; lia|].
  unfold screen_rect in Ho. rewrite Ho. cbn [mbind outcome_bind]. destruct o as [r|].
  - destruct Hint as (Hr&_&Hin&Hiff). unfold within in Hin. simpl in Hin.
    destruct (fill_law t r BACKGROUND_COLOUR) as (t1&->&R1); [done|done|lia..|]. cbn [mbind outcome_bind].
    assert (inside_screen t r) as Hinside by (split; [done|lia]).
    destruct (draw_windows_renders mem r ws Hws t1) as (t2&->&R2); [apply R1|by eapply inside_renders|].
    cbn [mbind outcome_bind]. pose proof (flush_law t2 r (proj1 R2)) as R3.
    destruct (IH (tg_flush r t2)) as (t3&->&R4); [apply R3|]. exists t3. split; [done|].
    eapply renders_ext;
      [exact (renders_trans _ _ _ _ _ (renders_trans _ _ _ _ _ (renders_trans _ _ _ _ _ R1 R2) R3) R4)|].
    intros x y p Hxy. cbv beta.
    assert (in_rect r x y ↔ in_rect d x y) as Hrd.
    { rewrite Hiff. unfold on_screen in Hxy. unfold in_rect, screen_rect. simpl. lia. }
    pose proof (covered_cons d ds x y). unfold scene.
    destruct (decide (covered ds x y)); [by rewrite decide_True by tauto|].
    destruct (decide (in_rect r x y)); [by rewrite decide_True by tauto|by rewrite decide_False by tauto].
  - destruct (IH t Ht) as (t'&->&R). exists t'. split; [done|]. eapply renders_ext; [done|].
    intros x y p Hxy. cbv beta. pose proof (covered_cons d ds x y).
    assert (¬ in_rect d x y).
    { intros Hxd. apply (Hint x y Hxd). unfold on_screen in Hxy. unfold in_rect, screen_rect. simpl. lia. }
    destruct (decide (covered ds x y)); [by rewrite decide_True by tauto|by rewrite decide_False by tauto].
Qed.

(** The target of a manager. *)
Definition target_ok m : Prop := from_option tg_ok True (wm_target m).
Definition wm_ok m : Prop :=
  target_ok m ∧ Forall (win_ok (wm_memory m)) (wm_windows m) ∧ Forall rect_ok (wm_dirty_regions m).

Lemma composite_exact m : wm_ok m →
  ∃ m', composite m = Ok m' ∧ wm_ok m' ∧ wm_dirty_regions m' = []
    ∧ wm_windows m' = wm_windows m ∧ wm_memory m' = wm_memory m ∧ wm_frame m' = wm_frame m
    ∧ wm_next_window_id m' = wm_next_window_id m
    ∧ match wm_target m, wm_target m' with
      | Some t, Some t' =>
          renders t t' (λ x y p, if decide (covered (wm_dirty_regions m) x y)
                                 then scene (wm_memory m) (wm_windows m) x y else p)
      | None, None => True
      | _, _ => False
      end.
Proof.
  intros (Ht&Hws&Hds). unfold composite, target_ok in *. destruct (wm_dirty_regions m) as [|d ds] eqn:Hd.
  { exists m. unfold wm_ok, target_ok. rewrite Hd. split_and!; try done. destruct (wm_target m); [|done].
    apply renders_refl; [done|]. intros. cbv beta. by rewrite decide_False by apply covered_nil. }
  destruct (wm_target m) as [t|] eqn:Htm; cycle 1.
  { eexists. split; [done|]. unfold wm_ok, target_ok. simpl. by rewrite Htm. }
  destruct (composite_regions_renders (wm_memory m) (wm_windows m) (d :: ds) Hws Hds t Ht) as (t'&->&R). simpl.
  eexists. split; [done|]. unfold wm_ok, target_ok. simpl. split_and!; try done. apply R.
Qed.
End picture.
