(* ===== verification/CompositorScreen.v ===== *)
(** * The screen keeps up with the windows
    Sequences of requests, client writes and ticks: what is on the screen
    against the picture the windows call for. *)

From S2P Require Import Prelude Effects BlockDevice CompositorProtocol Graphics Compositor CompositorProof.

(** ** Layers and damage of one window *)
(** Declared damage of a visible window that no commit has passed on. *)
Definition damaged (w : Window) (x y : Z) : Prop :=
  w_visible w = true ∧ in_rect (Window_rect w) x y
  ∧ covered (shifted (w_position w) <$> w_pending_damage w) x y.
Definition undrawn (ws : list Window) (x y : Z) : Prop := Exists (λ w, damaged w x y) ws.
#[export] Instance undrawn_dec ws x y : Decision (undrawn ws x y).
Proof. unfold undrawn, damaged. apply _. Defined.

#[export] Instance damaged_dec w x y : Decision (damaged w x y).
Proof. unfold damaged. apply _. Defined.

Lemma layer_in_rect mem w x y : is_Some (layer mem w x y) → w_visible w = true ∧ in_rect (Window_rect w) x y.
Proof.
  unfold layer. destruct (w_latched w); [|by intros [? ?]]. destruct (decide _); [done|by intros [? ?]].
Qed.

Lemma layer_outside mem w x y : ¬ (w_visible w = true ∧ in_rect (Window_rect w) x y) → layer mem w x y = None.
Proof. intros Hn. destruct (layer mem w x y) eqn:E; [|done]. exfalso. apply Hn. by eapply layer_in_rect. Qed.

(** Layers that agree give the same picture. *)
Lemma stack_ext mem mem' ws ws' x y p :
  Forall2 (λ w w', layer mem w x y = layer mem' w' x y) ws ws' → stack mem ws x y p = stack mem' ws' x y p.
Proof. intros H. revert p. induction H as [|?????? IH]; intros p; simpl; [done|]. by rewrite IH; f_equal; f_equal. Qed.

Lemma stack_app mem ws ws' x y p : stack mem (ws ++ ws') x y p = stack mem ws' x y (stack mem ws x y p).
Proof. revert p. induction ws; intros; simpl; auto. Qed.

Lemma scene_insert mem ws i w w' x y : ws !! i = Some w → layer mem w x y = layer mem w' x y →
  scene mem (<[i := w']> ws) x y = scene mem ws x y.
Proof.
  intros Hi Hl. apply stack_ext, Forall2_same_length_lookup. rewrite length_insert. split; [done|].
  intros k a b Ha Hb. destruct (decide (k = i)) as [->|].
  - rewrite list_lookup_insert_eq in Ha by (by eapply lookup_lt_Some). naive_solver.
  - rewrite list_lookup_insert_ne in Ha by done. naive_solver.
Qed.

Lemma scene_delete mem ws i w x y : ws !! i = Some w → layer mem w x y = None →
  scene mem (delete i ws) x y = scene mem ws x y.
Proof.
  intros Hi Hl. unfold scene. rewrite <-(take_drop_middle ws i w Hi) at 2.
  rewrite delete_take_drop, !stack_app. simpl. by rewrite Hl.
Qed.

Lemma undrawn_insert ws i w w' x y : ws !! i = Some w → undrawn ws x y →
  damaged w x y ∨ undrawn (<[i := w']> ws) x y.
Proof.
  intros Hi (u&Hu&Hd)%Exists_exists. apply list_elem_of_lookup in Hu as [k Hk].
  destruct (decide (k = i)) as [->|Hne]; [left; naive_solver|]. right. apply Exists_exists.
  exists u. split; [|done]. apply list_elem_of_lookup. exists k. by rewrite list_lookup_insert_ne.
Qed.

Lemma undrawn_inserted ws i w w' x y : ws !! i = Some w → damaged w' x y → undrawn (<[i := w']> ws) x y.
Proof.
  intros Hi Hd. apply Exists_exists. exists w'. split; [|done]. apply list_elem_of_lookup. exists i.
  apply list_lookup_insert_eq. by eapply lookup_lt_Some.
Qed.

Lemma undrawn_delete ws i w x y : ws !! i = Some w → undrawn ws x y →
  damaged w x y ∨ undrawn (delete i ws) x y.
Proof.
  intros Hi. unfold undrawn. rewrite <-(take_drop_middle ws i w Hi) at 1.
  rewrite delete_take_drop, !Exists_app, Exists_cons. tauto.
Qed.

Lemma window_mut_lookup ws id i w : window_mut ws id = Some (i, w) → ws !! i = Some w.
Proof. intros H%list_find_Some. apply H. Qed.

(** ** Buffers keep their size *)
Definition same_sizes (mem mem' : Memory) : Prop :=
  ∀ a, len (buffer_bytes mem' a) = len (buffer_bytes mem a).

Lemma att_ok_sizes mem mem' a : same_sizes mem mem' → att_ok mem a → att_ok mem' a.
Proof. intros Hs. unfold att_ok. by rewrite Hs. Qed.

Lemma win_ok_sizes mem mem' w : same_sizes mem mem' → win_ok mem w → win_ok mem' w.
Proof.
  intros Hs (?&Hl&Hp). split_and!; [done|..].
  - destruct (w_latched w); [|done]. simpl in *. destruct Hl. split; [by eapply att_ok_sizes|done].
  - destruct (w_pending w); [|done]. by eapply att_ok_sizes.
Qed.

(** No window shows the buffer at [k]. *)
Definition unshown (ws : list Window) (k : Z) : Prop :=
  Forall (λ w, from_option (λ a, at_data a ≠ k) True (w_latched w)) ws.

Lemma layer_other mem mem' k w x y : (∀ j, j ≠ k → mem' !! j = mem !! j) →
  from_option (λ a, at_data a ≠ k) True (w_latched w) → layer mem' w x y = layer mem w x y.
Proof.
  intros Hm Hl. unfold layer. destruct (w_latched w) as [a|]; [|done]. simpl in Hl.
  unfold buffer_pixel, buffer_bytes. by rewrite Hm.
Qed.

(** ** Steps *)
Section screen.
Context `{RasterLaws T}.
Implicit Types m : WindowManager T.

(** A client message (with the buffer mapped for it), a frame, or a client's
    write into its buffer. *)
Inductive comp_step : Type :=
| CReq (r : CompRequest) (att : option Attachment)
| CTick
| CWrite (data : Z) (bytes : list Z).

Definition run_step m (e : comp_step) : outcome () (WindowManager T) :=
  match e with
  | CReq r att => '(m, _) ← handle_request m r att; Ok m
  | CTick => '(m, _) ← tick m; Ok m
  | CWrite k bytes => Ok (set_memory m (<[k := bytes]> (wm_memory m)))
  end.

Fixpoint run_steps m (es : list comp_step) : outcome () (WindowManager T) :=
  match es with
  | [] => Ok m
  | e :: es => m ← run_step m e; run_steps m es
  end.

(** Every pixel on the screen is up to date, or due to be redrawn, or in
    damage its client has not committed. *)
Definition synced m : Prop :=
  match wm_target m with
  | None => True
  | Some t => ∀ x y, on_screen t x y →
      covered (wm_dirty_regions m) x y ∨ undrawn (wm_windows m) x y
      ∨ tg_pixel t x y = scene (wm_memory m) (wm_windows m) x y
  end.

(** A commit declares what it changes: with no damage listed the whole new
    window is redrawn, so it must not shrink; with damage listed nothing else
    may differ. *)
Definition discloses (mem : Memory) (w w' : Window) : Prop :=
  match w_pending_damage w with
  | [] => (w_size w).1 <= (w_size w').1 ∧ (w_size w).2 <= (w_size w').2
  | damage => ∀ x y, ¬ covered (shifted (w_position w) <$> damage) x y → layer mem w x y = layer mem w' x y
  end.

(** What a client that follows the protocol does. *)
Definition well_behaved m (e : comp_step) : Prop :=
  match e with
  | CReq CreateWindow _ => 0 <= wm_next_window_id m < 2 ^ 64 - 1
  | CReq (AttachBuffer _ _ _ _) att => from_option (att_ok (wm_memory m)) True att
  | CReq (Commit id) _ =>
      match window_mut (wm_windows m) id with
      | Some (_, w) =>
          rect_ok (Window_rect (latch w).1)
          ∧ Forall (λ r, rect_ok (shifted (w_position w) r)) (w_pending_damage w)
          ∧ (w_visible w = true → discloses (wm_memory m) w (latch w).1)
      | None => True
      end
  | CReq (CompFill id rect _) _ =>
      rect_ok rect ∧
      match window_mut (wm_windows m) id with
      | Some (i, w) =>
          match w_pending w, w_latched w with
          | Some a, _ => unshown (wm_windows m) (at_data a)
          | None, Some a => unshown (delete i (wm_windows m)) (at_data a)
          | None, None => True
          end
      | None => True
      end
  | CReq (MoveWindow id x y) _ =>
      match window_mut (wm_windows m) id with
      | Some (_, w) => rect_ok (mkRect x y (w_size w).1 (w_size w).2)
      | None => True
      end
  | CReq _ _ => True
  | CTick => 0 <= wm_frame m < 2 ^ 64 - 1
  | CWrite k bytes =>
      unshown (wm_windows m) k ∧ from_option (λ old, len old = len bytes) False (wm_memory m !! k)
  end.

Fixpoint well_behaved_run m (es : list comp_step) : Prop :=
  match es with
  | [] => True
  | e :: es => well_behaved m e ∧ ∀ m', run_step m e = Ok m' → well_behaved_run m' es
  end.

(** A checker for concrete runs; it accepts commits without listed damage. *)
Definition disclosesb (w w' : Window) : bool :=
  bool_decide (w_pending_damage w = [] ∧ (w_size w).1 <= (w_size w').1 ∧ (w_size w).2 <= (w_size w').2).

Definition att_okb (mem : Memory) (att : option Attachment) : bool :=
  match att with Some a => bool_decide (att_ok mem a) | None => true end.
Definition unshownb (ws : list Window) (k : Z) : bool :=
  forallb (λ w, match w_latched w with Some a => bool_decide (at_data a ≠ k) | None => true end) ws.

Definition well_behavedb m (e : comp_step) : bool :=
  match e with
  | CReq CreateWindow _ => bool_decide (0 <= wm_next_window_id m < 2 ^ 64 - 1)
  | CReq (AttachBuffer _ _ _ _) att => att_okb (wm_memory m) att
  | CReq (Commit id) _ =>
      match window_mut (wm_windows m) id with
      | Some (_, w) => bool_decide (rect_ok (Window_rect (latch w).1)) && disclosesb w (latch w).1
      | None => true
      end
  | CReq (CompFill id rect _) _ =>
      bool_decide (rect_ok rect) &&
      match window_mut (wm_windows m) id with
      | Some (i, w) =>
          match w_pending w, w_latched w with
          | Some a, _ => unshownb (wm_windows m) (at_data a)
          | None, Some a => unshownb (delete i (wm_windows m)) (at_data a)
          | None, None => true
          end
      | None => true
      end
  | CReq (MoveWindow id x y) _ =>
      match window_mut (wm_windows m) id with
      | Some (_, w) => bool_decide (rect_ok (mkRect x y (w_size w).1 (w_size w).2))
      | None => true
      end
  | CReq _ _ => true
  | CTick => bool_decide (0 <= wm_frame m < 2 ^ 64 - 1)
  | CWrite k bytes =>
      unshownb (wm_windows m) k
      && match wm_memory m !! k with Some old => bool_decide (len old = len bytes) | None => false end
  end.

Fixpoint well_behaved_runb m (es : list comp_step) : bool :=
  match es with
  | [] => true
  | e :: es => well_behavedb m e && match run_step m e with Ok m' => well_behaved_runb m' es | _ => true end
  end.

Lemma unshownb_sound ws k : unshownb ws k = true → unshown ws k.
Proof.
  intros Hb. apply Forall_forall. intros w Hw. unfold unshownb in Hb. rewrite forallb_forall in Hb.
  specialize (Hb w). rewrite <-list_elem_of_In in Hb. specialize (Hb Hw).
  destruct (w_latched w); [|done]. by apply bool_decide_eq_true in Hb.
Qed.

Lemma well_behavedb_sound m e : well_behavedb m e = true → well_behaved m e.
Proof.
  destruct e as [r att| |k bytes]; [destruct r| |]; simpl; try done;
    repeat case_match; simplify_eq/=; rewrite ?andb_true_iff, ?bool_decide_eq_true; try done;
    try (by intros [? ?]); try (by intros [? ?%unshownb_sound]); try (by intros [?%unshownb_sound ?]).
  - destruct att; [|done]. simpl. by rewrite bool_decide_eq_true.
  - unfold disclosesb. rewrite bool_decide_eq_true. intros [? (Hd&?)].
    split_and!; [done|by rewrite Hd|]. intros _. unfold discloses. by rewrite Hd.
Qed.

Lemma well_behaved_runb_sound es : ∀ m, well_behaved_runb m es = true → well_behaved_run m es.
Proof.
  induction es as [|e es IH]; intros m; simpl; [done|]. rewrite andb_true_iff. intros [He Hes].
  split; [by apply well_behavedb_sound|]. intros m' Hm. rewrite Hm in Hes. auto.
Qed.

(** ** One window changes *)
Lemma synced_update m m' :
  wm_target m' = wm_target m →
  (∀ x y, covered (wm_dirty_regions m) x y → covered (wm_dirty_regions m') x y) →
  (∀ x y, undrawn (wm_windows m) x y →
     covered (wm_dirty_regions m') x y ∨ undrawn (wm_windows m') x y) →
  (∀ x y, covered (wm_dirty_regions m') x y ∨ undrawn (wm_windows m') x y
     ∨ scene (wm_memory m') (wm_windows m') x y = scene (wm_memory m) (wm_windows m) x y) →
  synced m → synced m'.
Proof.
  unfold synced. intros -> Hc Hu Hs Hm. destruct (wm_target m) as [t|]; [|done]. intros x y Hxy.
  destruct (Hm x y Hxy) as [?|[?|Hp]]; [by eauto|..].
  - destruct (Hu x y); eauto.
  - destruct (Hs x y) as [?|[?|Hs']]; eauto. right; right. congruence.
Qed.

Lemma synced_window m m' i w w' :
  wm_windows m !! i = Some w → wm_windows m' = <[i := w']> (wm_windows m) →
  wm_target m' = wm_target m → wm_memory m' = wm_memory m →
  (∀ x y, covered (wm_dirty_regions m) x y → covered (wm_dirty_regions m') x y) →
  (∀ x y, damaged w x y → covered (wm_dirty_regions m') x y ∨ damaged w' x y) →
  (∀ x y, covered (wm_dirty_regions m') x y ∨ layer (wm_memory m) w x y = layer (wm_memory m) w' x y) →
  synced m → synced m'.
Proof.
  intros Hi Hws Ht Hm Hc Hd Hl. apply synced_update; [done..| |]; rewrite Hws.
  - intros x y [Hw|?]%(undrawn_insert _ i w w'); [|by right|done].
    destruct (Hd x y Hw); [by left|right]. by eapply undrawn_inserted.
  - intros x y. destruct (Hl x y); [by left|]. right; right. rewrite Hm. by eapply scene_insert.
Qed.

Definition good m : Prop := wm_ok m ∧ synced m.

Lemma good_window m i w : good m → wm_windows m !! i = Some w → win_ok (wm_memory m) w.
Proof. intros ((_&Hws&_)&_) Hi. by eapply Forall_lookup_1. Qed.

(** A new state with one window replaced and a larger damage. *)
Lemma good_insert m i w w' ds' :
  good m → wm_windows m !! i = Some w → win_ok (wm_memory m) w' → Forall rect_ok ds' →
  (∀ x y, covered (wm_dirty_regions m) x y → covered ds' x y) →
  (∀ x y, damaged w x y → covered ds' x y ∨ damaged w' x y) →
  (∀ x y, covered ds' x y ∨ layer (wm_memory m) w x y = layer (wm_memory m) w' x y) →
  good (set_dirty (set_windows m (<[i := w']> (wm_windows m))) ds').
Proof.
  intros [(Ht&Hws&Hds) Hs] Hi Hw' Hds' Hc Hd Hl. split.
  - split_and!; [done| |done]. by apply Forall_insert.
  - by eapply (synced_window m); [done..|].
Qed.

Lemma attach_good m id att : good m → from_option (att_ok (wm_memory m)) True att →
  good (do_attach m id att).1.
Proof.
  intros Hg Ha. unfold do_attach. destruct att as [a|]; [|done].
  destruct (window_mut _ _) as [[i w]|] eqn:Hf; [|done]. apply window_mut_lookup in Hf.
  destruct (good_window m i w Hg Hf) as (?&?&_).
  apply (good_insert m i w _ (wm_dirty_regions m)); [done|done|by split_and!|apply Hg|by auto..].
Qed.

Lemma damaged_push w rect x y : damaged w x y → damaged (push_damage w rect) x y.
Proof.
  intros (?&?&?). split_and!; [done..|]. simpl. unfold covered in *. rewrite fmap_app, Exists_app. by left.
Qed.

Lemma damage_good m id rect : good m → good (do_damage m id rect).
Proof.
  intros Hg. unfold do_damage. destruct (window_mut _ _) as [[i w]|] eqn:Hf; [|done].
  apply window_mut_lookup in Hf. pose proof (good_window m i w Hg Hf) as Hw.
  apply (good_insert m i w _ (wm_dirty_regions m)); [done|done|done|apply Hg|by auto using damaged_push..].
Qed.

Lemma create_good m : good m → 0 <= wm_next_window_id m < 2 ^ 64 - 1 →
  ∃ m' ev, do_create m = Ok (m', ev) ∧ good m'.
Proof.
  intros [(Ht&Hws&Hds) Hs] Hn. unfold do_create. rewrite chk_Ok by rng. simpl. do 2 eexists. split; [done|]. split.
  - split_and!; [done| |done]. apply Forall_app. split; [done|]. constructor; [|done]. by split_and!.
  - eapply (synced_update m); [done|by auto|..|done].
    + intros x y ?. right. unfold undrawn. simpl. apply Exists_app. by left.
    + intros x y. right; right. simpl. unfold scene. by rewrite stack_app.
Qed.

Lemma latch_ok mem w : win_ok mem w → rect_ok (Window_rect (latch w).1) → win_ok mem (latch w).1.
Proof.
  intros (Hr&Hl&Hp) Hr'. unfold latch in *. destruct (w_pending w) as [p|]; simpl in *; by split_and!.
Qed.

Lemma latch_window w : w_visible (latch w).1 = w_visible w ∧ w_position (latch w).1 = w_position w.
Proof. unfold latch. by destruct (w_pending w). Qed.

Lemma commit_damage mem w w' ds : Forall rect_ok ds → rect_ok (Window_rect w') →
  w_visible w' = w_visible w → w_position w' = w_position w →
  Forall (λ r, rect_ok (shifted (w_position w) r)) (w_pending_damage w) →
  (w_visible w = true → discloses mem w w') →
  ∃ ds', (if w_visible w then match w_pending_damage w with
            | [] => mark_dirty (Window_rect w') ds
            | _ => mark_damage (w_position w) (w_pending_damage w) ds end
          else Ok ds) = Ok ds'
    ∧ Forall rect_ok ds' ∧ (∀ x y, covered ds x y → covered ds' x y)
    ∧ (∀ x y, damaged w x y → covered ds' x y)
    ∧ (∀ x y, covered ds' x y ∨ layer mem w x y = layer mem w' x y).
Proof.
  intros Hds Hr Hv Hp Hdr Hdis. unfold damaged. destruct (w_visible w) eqn:Hvis; cycle 1.
  { exists ds. split_and!; [done..|by intros ?? (?&_)|]. intros x y. right.
    rewrite !layer_outside; [done|by intros [? _]; congruence..]. }
  specialize (Hdis eq_refl). unfold discloses in Hdis. destruct (w_pending_damage w) as [|r damage].
  - destruct (mark_dirty_covers (Window_rect w') ds Hr Hds) as (ds'&->&Hok&Hc).
    exists ds'. split_and!; [done|done|by auto|by intros ?? (_&_&?%covered_nil)|].
    intros x y. destruct (decide (in_rect (Window_rect w') x y)) as [|Hn]; [auto|]. right.
    rewrite !layer_outside; [done|naive_solver|]. intros [_ Hw]. apply Hn. revert Hw.
    unfold in_rect, Window_rect. simpl. rewrite Hp. lia.
  - destruct (mark_damage_covers (w_position w) (r :: damage) ds Hdr Hds) as (ds'&->&Hok&Hc).
    exists ds'. split_and!; [done|done|by auto|by intros ?? (_&_&?); auto|].
    intros x y. destruct (decide (covered (shifted (w_position w) <$> r :: damage) x y)); [by auto|].
    right. by apply Hdis.
Qed.

Lemma commit_good m id : good m → well_behaved m (CReq (Commit id) None) →
  ∃ m' ev, do_commit m id = Ok (m', ev) ∧ good m'.
Proof.
  intros Hg Hb. unfold do_commit. simpl in Hb. destruct (window_mut _ _) as [[i w]|] eqn:Hf; [|by do 2 eexists].
  apply window_mut_lookup in Hf. pose proof (good_window m i w Hg Hf) as Hw.
  destruct Hb as (Hr'&Hdr&Hdis). destruct (decide _); [by do 2 eexists|].
  pose proof (latch_ok _ w Hw Hr') as Hw'. destruct (latch_window w) as [Hv' Hp'].
  destruct (latch w) as [w' rel]. simpl in Hr', Hdis, Hw', Hv', Hp'.
  destruct (commit_damage (wm_memory m) w w' (wm_dirty_regions m)) as (ds'&->&?&?&?&?); [apply Hg|done..|].
  simpl. do 2 eexists. split; [done|]. by apply (good_insert m i w); auto.
Qed.

(** Marking a window's rectangle. *)
Lemma mark_good m rect : rect_ok rect → wm_ok m →
  ∃ ds', mark m rect = Ok (set_dirty m ds') ∧ Forall rect_ok ds' ∧
    (∀ x y, covered (wm_dirty_regions m) x y ∨ in_rect rect x y → covered ds' x y).
Proof.
  intros Hr (_&_&Hds). unfold mark. destruct (mark_dirty_covers rect _ Hr Hds) as (ds'&->&?&?). by exists ds'.
Qed.

Lemma visible_good m id v : good m → ∃ m', do_visible m id v = Ok m' ∧ good m'.
Proof.
  intros Hg. unfold do_visible. destruct (window_mut _ _) as [[i w]|] eqn:Hf; [|by eexists].
  apply window_mut_lookup in Hf. pose proof (good_window m i w Hg Hf) as Hw.
  destruct (decide _); [|by eexists].
  set (w' := mkWin (w_id w) v _ _ _ _ _ _). assert (win_ok (wm_memory m) w') as Hw' by done.
  unfold mark. simpl. destruct (mark_dirty_covers (Window_rect w') (wm_dirty_regions m)) as (ds'&->&?&Hc);
    [apply Hw|apply Hg|]. simpl. eexists. split; [done|].
  apply (good_insert m i w w'); auto.
  - intros x y (_&?&_). auto.
  - intros x y. destruct (decide (in_rect (Window_rect w) x y)); [auto|]. right.
    by rewrite !layer_outside by (intros [_ ?]; done).
Qed.

Lemma move_good m id x y : good m → well_behaved m (CReq (MoveWindow id x y) None) →
  ∃ m', do_move m id x y = Ok m' ∧ good m'.
Proof.
  intros Hg Hb. unfold do_move. simpl in Hb. destruct (window_mut _ _) as [[i w]|] eqn:Hf; [|by eexists].
  apply window_mut_lookup in Hf. pose proof (good_window m i w Hg Hf) as Hw.
  set (w' := mkWin (w_id w) _ (x, y) _ _ _ _ _).
  assert (win_ok (wm_memory m) w') as Hw' by (split; [done|apply Hw]).
  destruct (w_visible w) eqn:Hv; cycle 1.
  - eexists. split; [done|]. apply (good_insert m i w w' (wm_dirty_regions m)); auto; [apply Hg|..].
    + intros x' y' (?&_). congruence.
    + intros x' y'. right. rewrite !layer_outside; [done|simpl; intros [? _]; congruence..].
  - unfold mark. simpl.
    destruct (mark_dirty_covers (Window_rect w) (wm_dirty_regions m)) as (ds1&->&Hok1&Hc1); [apply Hw|apply Hg|].
    simpl. destruct (mark_dirty_covers (Window_rect w') ds1) as (ds2&->&Hok2&Hc2); [apply Hw'|done|].
    simpl. eexists. split; [done|]. apply (good_insert m i w w' ds2); auto.
    + intros x' y' (_&?&_). auto 6.
    + intros x' y'. destruct (decide (in_rect (Window_rect w) x' y')); [auto 6|].
      destruct (decide (in_rect (Window_rect w') x' y')); [auto|]. right.
      by rewrite !layer_outside by (intros [_ ?]; done).
Qed.

Lemma destroy_good m id : good m → ∃ m' ev, do_destroy m id = Ok (m', ev) ∧ good m'.
Proof.
  intros Hg. unfold do_destroy. destruct (window_mut _ _) as [[i w]|] eqn:Hf; [|by do 2 eexists].
  apply window_mut_lookup in Hf. pose proof (good_window m i w Hg Hf) as Hw.
  assert (∀ ds', Forall rect_ok ds' → (∀ x y, covered (wm_dirty_regions m) x y → covered ds' x y) →
    (∀ x y, w_visible w = true ∧ in_rect (Window_rect w) x y → covered ds' x y) →
    good (set_dirty (set_windows m (delete i (wm_windows m))) ds')) as Hgood.
  { intros ds' Hds' Hc Hr. destruct Hg as [(Ht&Hws&Hds) Hs]. split.
    - split_and!; [done| |done]. by apply Forall_delete.
    - apply (synced_update m); [done|done|..|done]; simpl.
      + intros x y [(?&?&_)|?]%(undrawn_delete _ i w); [by left; auto|by right|done].
      + intros x y. destruct (decide (w_visible w = true ∧ in_rect (Window_rect w) x y)); [by auto|].
        right; right. eapply scene_delete; [done|]. by apply layer_outside. }
  destruct (w_visible w) eqn:Hv; simpl; cycle 1.
  { do 2 eexists. split; [done|]. apply (Hgood (wm_dirty_regions m)); [apply Hg|done|by intros ?? [? _]]. }
  destruct (Rect_is_empty (Window_rect w)) eqn:He; simpl.
  { do 2 eexists. split; [done|]. apply (Hgood (wm_dirty_regions m)); [apply Hg|done|].
    intros x y [_ ?]. exfalso. by eapply empty_rect; [|apply Hw|]. }
  unfold mark. simpl.
  destruct (mark_dirty_covers (Window_rect w) (wm_dirty_regions m)) as (ds'&->&?&?); [apply Hw|apply Hg|].
  simpl. do 2 eexists. split; [done|]. apply Hgood; [done|by auto|intros x y [_ ?]; auto].
Qed.

(** ** The memory changes *)
Lemma scene_memory mem mem' ws ws' x y : length ws' = length ws →
  (∀ k w w', ws !! k = Some w → ws' !! k = Some w' → layer mem' w' x y = layer mem w x y) →
  scene mem' ws' x y = scene mem ws x y.
Proof.
  intros Hlen Hl. apply stack_ext, Forall2_same_length_lookup. split; [done|]. intros k a b Ha Hb. by eapply Hl.
Qed.

Lemma sizes_other mem mem' a : (∀ k, k ≠ at_data a → mem' !! k = mem !! k) →
  len (buffer_bytes mem' a) = len (buffer_bytes mem a) → same_sizes mem mem'.
Proof.
  intros Ho Hl b. unfold buffer_bytes in *. destruct (decide (at_data b = at_data a)) as [->|]; [done|by rewrite Ho].
Qed.

(** A fill changes the window's picture only inside its rectangle. *)
Lemma fill_layer mem mem' a w rect colour x y :
  win_ok mem w → w_latched w = Some a →
  (∀ i j, 0 <= i < at_width a → 0 <= j < at_height a →
     buffer_pixel mem' a i j = if decide (in_rect rect i j) then Pixel_of_colour colour else buffer_pixel mem a i j) →
  damaged (push_damage w rect) x y ∨ layer mem' (push_damage w rect) x y = layer mem w x y.
Proof.
  intros (_&Hl&_) Hlat Hpix. rewrite Hlat in Hl. destruct Hl as [_ Hs].
  unfold layer. simpl. rewrite Hlat. change (Window_rect (push_damage w rect)) with (Window_rect w).
  destruct (decide (w_visible w = true ∧ in_rect (Window_rect w) x y)) as [[Hv Hin]|]; [|by right].
  pose proof Hin as Hin'. unfold in_rect, Window_rect in Hin'. rewrite Hs in Hin'. simpl in Hin'.
  rewrite Hpix by lia. destruct (decide (in_rect rect _ _)) as [Hr|]; [|by right]. left.
  split_and!; [done..|]. simpl. unfold covered. rewrite fmap_app, Exists_app. right. simpl. constructor.
  unfold in_rect, shifted in *. simpl. lia.
Qed.

Lemma unshown_lookup ws k j w : unshown ws k → ws !! j = Some w → from_option (λ a, at_data a ≠ k) True (w_latched w).
Proof. intros Hu Hj. by apply (Forall_lookup_1 _ _ _ _ Hu Hj). Qed.

Lemma unshown_delete ws k i j w : unshown (delete i ws) k → ws !! j = Some w → j ≠ i →
  from_option (λ a, at_data a ≠ k) True (w_latched w).
Proof.
  intros Hu Hj Hne. destruct (decide (j < i)%nat).
  - eapply (unshown_lookup _ _ j); [done|]. by rewrite list_lookup_delete_lt.
  - eapply (unshown_lookup _ _ (pred j)); [done|]. rewrite list_lookup_delete_ge by lia. by replace (S (pred j)) with j by lia.
Qed.

Lemma fill_good m id rect colour : good m → well_behaved m (CReq (CompFill id rect colour) None) →
  ∃ m', do_fill m id rect colour = Ok m' ∧ good m'.
Proof.
  intros Hg [Hr Hb]. unfold do_fill. destruct (window_mut _ _) as [[i w]|] eqn:Hf; [|by eexists].
  apply window_mut_lookup in Hf. pose proof (good_window m i w Hg Hf) as Hw.
  destruct (content_mut w) as [a|] eqn:Hc; [|by eexists].
  assert (att_ok (wm_memory m) a) as Ha.
  { unfold content_mut in Hc. destruct Hw as (_&Hl&Hp). destruct (w_pending w); simplify_eq; [done|].
    rewrite Hc in Hl. by destruct Hl. }
  destruct (fill_buffer_exact _ a rect colour Ha Hr) as (mem'&->&Hother&Hlen&Hpix). simpl.
  eexists. split; [done|]. destruct Hg as [(Ht&Hws&Hds) Hs].
  pose proof (sizes_other _ _ a Hother Hlen) as Hsz. split.
  - split_and!; [done| |done]. apply Forall_insert; [|by apply (win_ok_sizes (wm_memory m))].
    eapply Forall_impl; [done|]. intros ?. by apply win_ok_sizes.
  - apply (synced_update m); [done|done|..|done]; simpl.
    { intros x y [?|?]%(undrawn_insert _ i w (push_damage w rect)); [|by right|done].
      right. eapply undrawn_inserted; [done|]. by apply damaged_push. }
    intros x y. right. destruct (decide (damaged (push_damage w rect) x y)); [left; by eapply undrawn_inserted|].
    right. apply scene_memory; [by rewrite length_insert|]. intros k u u' Hk. destruct (decide (k = i)) as [->|Hne].
    + rewrite list_lookup_insert_eq by (by eapply lookup_lt_Some). intros [= <-]. simplify_eq.
      unfold content_mut in Hc. destruct (w_pending w) as [p|] eqn:Hp; simplify_eq.
      * apply (layer_other _ _ (at_data a) (push_damage w rect)); [done|]. simpl. by apply (unshown_lookup _ _ i w Hb).
      * by destruct (fill_layer (wm_memory m) mem' a w rect colour x y).
    + rewrite list_lookup_insert_ne by done. intros. simplify_eq. apply (layer_other _ _ (at_data a)); [done|].
      unfold content_mut in Hc. destruct (w_pending w); simplify_eq; [by eapply unshown_lookup|].
      rewrite Hc in Hb. by eapply unshown_delete.
Qed.

Lemma write_good m k bytes : good m → well_behaved m (CWrite k bytes) →
  good (set_memory m (<[k := bytes]> (wm_memory m))).
Proof.
  intros [(Ht&Hws&Hds) Hs] [Hu Hl]. destruct (wm_memory m !! k) as [old|] eqn:Hk; [|done]. simpl in Hl.
  assert (same_sizes (wm_memory m) (<[k := bytes]> (wm_memory m))) as Hsz.
  { intros a. unfold buffer_bytes. destruct (decide (at_data a = k)) as [->|].
    - by rewrite lookup_insert_eq, Hk.
    - by rewrite lookup_insert_ne. }
  split.
  - split_and!; [done| |done]. eapply Forall_impl; [exact Hws|]. intros ?. by apply win_ok_sizes.
  - apply (synced_update m); [done|done|by auto| |done]. intros x y. right; right. simpl.
    apply scene_memory; [done|]. intros j w w' Hj Hj'. simplify_eq. eapply (layer_other _ _ k).
    + intros. by rewrite lookup_insert_ne.
    + by eapply unshown_lookup.
Qed.

(** ** Frames *)
Lemma scene_seen mem ws x y : scene mem (seen <$> ws) x y = scene mem ws x y.
Proof.
  apply scene_memory; [by rewrite length_fmap|]. intros k w w' Hk. rewrite list_lookup_fmap, Hk. by intros [= <-].
Qed.

Lemma undrawn_seen ws x y : undrawn (seen <$> ws) x y ↔ undrawn ws x y.
Proof. unfold undrawn. by rewrite Exists_fmap. Qed.

(** What a frame does: the screen shows the picture wherever it was synced. *)
Lemma tick_good m : good m → 0 <= wm_frame m < 2 ^ 64 - 1 →
  ∃ m' ev, tick m = Ok (m', ev) ∧ good m' ∧ wm_dirty_regions m' = []
    ∧ wm_windows m' = seen <$> wm_windows m ∧ wm_memory m' = wm_memory m.
Proof.
  intros [Hok Hs] Hf. unfold tick.
  destruct (composite_exact m Hok) as (m1&->&(Ht1&Hws1&Hds1)&Hd1&Hw1&Hm1&Hf1&_&Htt). simpl. rewrite Hf1.
  rewrite chk_Ok by rng. simpl. do 2 eexists. split; [done|]. rewrite Hw1, Hm1 in *. split; [|done]. split.
  { split_and!; [done| |done]. simpl. apply Forall_fmap. eapply Forall_impl; [exact Hws1|]. done. }
  unfold synced in *. simpl. rewrite Hd1. destruct (wm_target m) as [t|], (wm_target m1) as [t1|]; try done.
  intros x y Hxy. destruct Htt as (_&HW&HH&Hp). unfold on_screen in Hxy. rewrite HW, HH in Hxy.
  right. rewrite undrawn_seen, scene_seen, Hp by done. destruct (decide _); [by right|].
  by destruct (Hs x y Hxy) as [?|[?|?]]; [done|left|right].
Qed.

Lemma new_good (t : T) mem : tg_ok t →
  ∃ m, WindowManager_new (Some t) mem = Ok m ∧ good m ∧ is_Some (wm_target m).
Proof.
  intros Ht. unfold WindowManager_new. destruct (tg_size_ok t Ht).
  destruct (fill_law t (screen_rect t) BACKGROUND_COLOUR) as (t1&E&R); [done|unfold rect_ok; simpl; lia|simpl; lia..|].
  unfold screen_rect in E. rewrite E. simpl. pose proof (flush_law t1 (screen_rect t) (proj1 R)) as R2.
  pose proof (renders_trans _ _ _ _ _ R R2) as R'. eexists. split; [done|]. split_and!; try done.
  split; [split_and!; [apply R2|done..]|]. unfold synced. simpl.
  destruct R' as (_&HW&HH&Hp). intros x y Hxy. right; right.
  unfold on_screen, screen_rect in *. rewrite HW, HH in Hxy. rewrite Hp by done.
  rewrite decide_True; [done|]. unfold in_rect. simpl. lia.
Qed.

Lemma step_good m e : good m → well_behaved m e → ∃ m', run_step m e = Ok m' ∧ good m'.
Proof.
  intros Hg Hb. destruct e as [r att| |k bytes]; cbn [run_step].
  - destruct r; cbn [handle_request].
    + destruct (create_good m) as (m'&ev&->&?); [done..|]. by exists m'.
    + pose proof (attach_good m window att Hg Hb). destruct (do_attach _ _ _) as [m' ev]. by exists m'.
    + eexists. split; [done|by apply damage_good].
    + destruct (commit_good m window) as (m'&ev&->&?); [done..|]. by exists m'.
    + destruct (fill_good m window rect colour) as (m'&->&?); [done..|]. by exists m'.
    + destruct (visible_good m window visible) as (m'&->&?); [done..|]. by exists m'.
    + destruct (move_good m window x y) as (m'&->&?); [done..|]. by exists m'.
    + destruct (destroy_good m window) as (m'&ev&->&?); [done..|]. by exists m'.
  - destruct (tick_good m) as (m'&ev&->&?&_); [done..|]. by exists m'.
  - eexists. split; [done|by apply write_good].
Qed.

Lemma steps_good es : ∀ m, good m → well_behaved_run m es → ∃ m', run_steps m es = Ok m' ∧ good m'.
Proof.
  induction es as [|e es IH]; intros m Hg Hb; simpl; [by eexists|].
  destruct Hb as [He Hes]. destruct (step_good m e Hg He) as (m1&E&?). rewrite E. simpl. apply IH; auto.
Qed.

(** Steps keep the display. *)
Lemma request_target m r att m' ev : handle_request m r att = Ok (m', ev) → wm_target m' = wm_target m.
Proof.
  destruct r; unfold handle_request, do_create, do_attach, do_damage, do_commit, do_fill, do_visible, do_move,
    do_destroy, mark; intros Hr;
    repeat (case_match || (progress simplify_eq/=) ||
      match goal with Hr : mbind _ ?o = Ok _ |- _ => destruct o eqn:? end); done.
Qed.

Lemma tick_target m m' ev : is_Some (wm_target m) → tick m = Ok (m', ev) → is_Some (wm_target m').
Proof.
  unfold tick, composite. intros [t Ht] Htick. rewrite Ht in Htick.
  destruct (wm_dirty_regions m); [|destruct (composite_regions _ _ _ _)]; simplify_eq/=; try done;
    destruct (chk _ _); simplify_eq/=; by eauto.
Qed.

Lemma steps_target es : ∀ m m', run_steps m es = Ok m' → is_Some (wm_target m) → is_Some (wm_target m').
Proof.
  induction es as [|e es IH]; intros m m' Hr Ht; simpl in Hr; [by simplify_eq|].
  destruct (run_step m e) as [m1| | |] eqn:He; try done. simpl in Hr. eapply IH; [done|].
  destruct e as [r att| |k bytes]; simpl in He; [..|by simplify_eq].
  - destruct (handle_request m r att) as [[m2 ev]| | |] eqn:Hh; simplify_eq/=. by rewrite (request_target _ _ _ _ _ Hh).
  - destruct (tick m) as [[m2 ev]| | |] eqn:Hh; simplify_eq/=. by eapply tick_target.
Qed.

(** C5.  The screen shows the windows.  Start a compositor on any display,
    run any sequence of client requests, client writes and frames in which the
    clients keep to the protocol (rectangles stay within 32 bits, a commit
    declares what it changes, nobody writes a buffer being shown): no step
    panics, and after the next frame every pixel of the screen, except inside
    damage declared and not committed, is the background with the latched
    buffers of the visible windows blended over it in order. *)
Theorem compositor_screen_exact (t : T) mem es m0 :
  tg_ok t → WindowManager_new (Some t) mem = Ok m0 → well_behaved_run m0 es →
  ∃ m, run_steps m0 es = Ok m ∧
    (0 <= wm_frame m < 2 ^ 64 - 1 →
     ∃ m' events t', tick m = Ok (m', events) ∧ wm_target m' = Some t'
       ∧ wm_dirty_regions m' = [] ∧ wm_windows m' = seen <$> wm_windows m
       ∧ ∀ x y, on_screen t' x y → ¬ undrawn (wm_windows m) x y →
           tg_pixel t' x y = scene (wm_memory m) (wm_windows m) x y).
Proof.
  intros Ht Hnew Hb. destruct (new_good t mem Ht) as (m0'&E&Hg&Hdisp). rewrite E in Hnew. injection Hnew as ->.
  destruct (steps_good es m0 Hg Hb) as (m&Hrun&Hgm). exists m. split; [done|]. intros Hf.
  destruct (tick_good m Hgm Hf) as (m'&ev&Htick&[_ Hs]&Hd&Hw&Hm).
  assert (is_Some (wm_target m')) as [t' Ht'].
  { eapply (tick_target m), Htick. by eapply steps_target. }
  exists m', ev, t'. split_and!; [done..|]. intros x y Hxy Hu. unfold synced in Hs. rewrite Ht', Hd, Hw, Hm in Hs.
  destruct (Hs x y Hxy) as [Hc|[Hn|Hp]]; [by apply covered_nil in Hc|by rewrite undrawn_seen in Hn|].
  by rewrite Hp, scene_seen.
Qed.
End screen.

(** ** A small display *)
Definition demo_fb : Framebuffer := mkFb (replicate 64 0) 4 4 16 [].
Definition white4 : list Z := replicate 16 255.
Definition demo_mem : Memory := {[ 100 := white4; 200 := white4 ]}.
Definition demo_att (id data : Z) : Attachment := mkAtt id data 16 2 2.
Definition demo_new : WindowManager Framebuffer :=
  match WindowManager_new (Some demo_fb) demo_mem with Ok m => m | _ => mkWm [] [] None 0 0 ∅ end.

(** Show a window, move it, draw the next frame into a second buffer and flip. *)
Definition demo_steps : list comp_step :=
  [CReq CreateWindow None; CReq (AttachBuffer 1 2 2 1) (Some (demo_att 0 100)); CReq (Commit 1) None;
   CReq (SetVisible 1 true) None; CTick; CReq (MoveWindow 1 1 1) None; CWrite 200 (replicate 16 128);
   CReq (AttachBuffer 1 2 2 1) (Some (demo_att 1 200)); CReq (CompFill 1 (mkRect 0 0 1 1) 0xFF000000) None;
   CReq (Damage 1 (mkRect 0 0 2 2)) None].

Lemma compositor_screen_exact_witness :
  ∃ m, run_steps demo_new demo_steps = Ok m ∧
    (0 <= wm_frame m < 2 ^ 64 - 1 →
     ∃ m' events t', tick m = Ok (m', events) ∧ wm_target m' = Some t'
       ∧ wm_dirty_regions m' = [] ∧ wm_windows m' = seen <$> wm_windows m
       ∧ ∀ x y, on_screen t' x y → ¬ undrawn (wm_windows m) x y →
           tg_pixel t' x y = scene (wm_memory m) (wm_windows m) x y).
Proof.
  apply (compositor_screen_exact demo_fb demo_mem demo_steps demo_new).
  - apply (bool_decide_unpack (fb_ok demo_fb)). by vm_compute.
  - by vm_compute.
  - apply well_behaved_runb_sound. by vm_compute.
Defined.
