(* ===== verification/CompositorClients.v ===== *)
(** * What the compositor leaves to its clients
    Requests the server does not check, each run to its effect on a small
    display. *)

From S2P Require Import Prelude Effects BlockDevice CompositorProtocol Graphics Compositor CompositorProof CompositorScreen.

(** ** Every buffer is released once *)
Definition held (w : Window) : list (Z * Z) :=
  (λ a, (w_id w, at_id a)) <$> option_list (w_pending w) ++ option_list (w_latched w).
Definition all_held (ws : list Window) : list (Z * Z) := ws ≫= held.

Definition released (events : list CompEvent) : list (Z * Z) :=
  omap (λ e, match e with BufferReleased w b => Some (w, b) | _ => None end) events.

(** The buffer a request hands over: an attachment to a window that exists. *)
Definition handed_over (ws : list Window) (r : CompRequest) (att : option Attachment) : list (Z * Z) :=
  match r, att with
  | AttachBuffer window _ _ _, Some a =>
      match window_mut ws window with Some _ => [(window, at_id a)] | None => [] end
  | _, _ => []
  end.

Lemma held_insert ws i w w' : ws !! i = Some w →
  held w ++ all_held (<[i := w']> ws) ≡ₚ held w' ++ all_held ws.
Proof.
  intros Hi. unfold all_held. rewrite <-(take_drop_middle ws i w Hi) at 2.
  rewrite insert_take_drop by (by eapply lookup_lt_Some). rewrite !bind_app, !bind_cons. solve_Permutation.
Qed.

Lemma held_delete ws i w : ws !! i = Some w → held w ++ all_held (delete i ws) ≡ₚ all_held ws.
Proof.
  intros Hi. unfold all_held. rewrite <-(take_drop_middle ws i w Hi) at 2.
  rewrite delete_take_drop, !bind_app, bind_cons. solve_Permutation.
Qed.

Lemma held_same ws i w w' : ws !! i = Some w → held w' = held w → all_held (<[i := w']> ws) ≡ₚ all_held ws.
Proof. intros Hi He. apply (Permutation_app_inv_l (held w)). rewrite (held_insert _ _ _ _ Hi). by rewrite He. Qed.

Lemma window_mut_id ws id i w : window_mut ws id = Some (i, w) → w_id w = id.
Proof. intros H%list_find_Some. apply H. Qed.

Lemma bind_inv_Ok {E A B} (o : outcome E A) (f : A → outcome E B) b :
  o ≫= f = Ok b → ∃ a, o = Ok a ∧ f a = Ok b.
Proof. destruct o; simpl; try done. eauto. Qed.

Section accounts.
Context {T : Type} `{Target T}.
Implicit Types m : WindowManager T.

Lemma mark_windows m r m' : mark m r = Ok m' → wm_windows m' = wm_windows m.
Proof. unfold mark. destruct (mark_dirty _ _); simpl; intros; by simplify_eq. Qed.

Lemma attach_held m window att m' ev : do_attach m window att = (m', ev) →
  all_held (wm_windows m') ++ released ev
    ≡ₚ all_held (wm_windows m) ++ handed_over (wm_windows m) (AttachBuffer window 0 0 0) att.
Proof.
  unfold do_attach, handed_over. destruct att as [a|]; [|intros; by simplify_eq].
  destruct (window_mut _ _) as [[i w]|] eqn:Hf; [|intros; by simplify_eq]. intros [= <- <-]. simpl.
  pose proof (window_mut_id _ _ _ _ Hf) as Hid. apply window_mut_lookup in Hf.
  apply (Permutation_app_inv_l (held w)). rewrite app_assoc, (held_insert _ _ _ _ Hf).
  unfold held. simpl. rewrite Hid. destruct (w_pending w); simpl; solve_Permutation.
Qed.

Lemma commit_held m window m' ev : do_commit m window = Ok (m', ev) →
  all_held (wm_windows m') ++ released ev ≡ₚ all_held (wm_windows m).
Proof.
  unfold do_commit. destruct (window_mut _ _) as [[i w]|] eqn:Hf; [|by intros [= <- <-]; rewrite app_nil_r].
  destruct (decide _); [by intros [= <- <-]; rewrite app_nil_r|].
  destruct (latch w) as [w' rel] eqn:Hl. destruct (if w_visible w then _ else _); try done.
  intros [= <- <-]. simpl. pose proof (window_mut_id _ _ _ _ Hf) as Hid. apply window_mut_lookup in Hf.
  apply (Permutation_app_inv_l (held w)). rewrite app_assoc, (held_insert _ _ _ _ Hf).
  unfold latch in Hl. unfold held. destruct (w_pending w) eqn:Hp; simplify_eq/=; [|solve_Permutation].
  destruct (w_latched w); simpl; solve_Permutation.
Qed.

Lemma destroy_held m window m' ev : do_destroy m window = Ok (m', ev) →
  all_held (wm_windows m') ++ released ev ≡ₚ all_held (wm_windows m).
Proof.
  unfold do_destroy. destruct (window_mut _ _) as [[i w]|] eqn:Hf; [|by intros [= <- <-]; rewrite app_nil_r].
  pose proof (window_mut_id _ _ _ _ Hf) as Hid. apply window_mut_lookup in Hf. intros Hd.
  assert (wm_windows m' = delete i (wm_windows m) ∧ released ev = held w) as [-> ->].
  { revert Hd. unfold held. rewrite Hid. destruct (_ && _);
      [destruct (mark _ _) eqn:Hm; simpl; try done; apply mark_windows in Hm|];
      intros [= <- <-]; (split; [done|]); by destruct (w_pending w), (w_latched w). }
  rewrite Permutation_app_comm. by apply held_delete.
Qed.

Lemma request_held m r att m' ev : handle_request m r att = Ok (m', ev) →
  all_held (wm_windows m') ++ released ev ≡ₚ all_held (wm_windows m) ++ handed_over (wm_windows m) r att.
Proof.
  destruct r; cbn [handle_request handed_over]; rewrite ?app_nil_r.
  - unfold do_create. destruct (chk _ _); simpl; try done. intros [= <- <-]. simpl.
    unfold all_held. rewrite bind_app. simpl. by rewrite !app_nil_r.
  - intros [= Ha]. exact (attach_held _ _ _ _ _ Ha).
  - unfold do_damage. destruct (window_mut _ _) as [[i w]|] eqn:Hf; intros [= <- <-]; rewrite app_nil_r; [|done].
    simpl. by eapply held_same; [by eapply window_mut_lookup|].
  - apply commit_held.
  - unfold do_fill. destruct (window_mut _ _) as [[i w]|] eqn:Hf; [|intros [= <- <-]; by rewrite app_nil_r].
    destruct (content_mut w); [|intros [= <- <-]; by rewrite app_nil_r].
    destruct (fill_buffer _ _ _ _); simpl; try done. intros [= <- <-]. rewrite app_nil_r. simpl.
    by eapply held_same; [by eapply window_mut_lookup|].
  - unfold do_visible. destruct (window_mut _ _) as [[i w]|] eqn:Hf; [|intros [= <- <-]; by rewrite app_nil_r].
    destruct (decide _); [|intros [= <- <-]; by rewrite app_nil_r].
    destruct (mark _ _) eqn:Hm; simpl; try done. apply mark_windows in Hm. intros [= <- <-]. rewrite app_nil_r, Hm.
    simpl. by eapply held_same; [by eapply window_mut_lookup|].
  - unfold do_move. destruct (window_mut _ _) as [[i w]|] eqn:Hf; [|intros [= <- <-]; by rewrite app_nil_r].
    intros Hm. assert (ev = [] ∧ ∃ w', held w' = held w ∧ wm_windows m' = <[i := w']> (wm_windows m)) as (->&w'&He&->).
    { apply bind_inv_Ok in Hm as (m2&Hm&[= <- <-]). split; [done|].
      exists (mkWin (w_id w) (w_visible w) (x, y) (w_size w) (w_pending w) (w_latched w)
        (w_pending_damage w) (w_awaiting_frame w)). split; [done|].
      destruct (w_visible w); [|by injection Hm as <-].
      apply bind_inv_Ok in Hm as (m1&H1%mark_windows&H2%mark_windows). by rewrite H2, H1. }
    rewrite app_nil_r. by eapply held_same; [by eapply window_mut_lookup|].
  - apply destroy_held.
Qed.

(** ** Runs with what the clients see *)
Record account : Type := mkAcc { ac_attached : list (Z * Z); ac_events : list CompEvent }.

Definition run_account (e : comp_step) (s : WindowManager T * account) : outcome () (WindowManager T * account) :=
  let (m, ac) := s in
  match e with
  | CReq r att =>
      '(m', ev) ← handle_request m r att;
      Ok (m', mkAcc (ac_attached ac ++ handed_over (wm_windows m) r att) (ac_events ac ++ ev))
  | CTick => '(m', ev) ← tick m; Ok (m', mkAcc (ac_attached ac) (ac_events ac ++ ev))
  | CWrite k bytes => Ok (set_memory m (<[k := bytes]> (wm_memory m)), ac)
  end.
Fixpoint run_accounts (es : list comp_step) (s : WindowManager T * account) : outcome () (WindowManager T * account) :=
  match es with
  | [] => Ok s
  | e :: es => s ← run_account e s; run_accounts es s
  end.

Lemma tick_events m m' ev : tick m = Ok (m', ev) →
  all_held (wm_windows m') = all_held (wm_windows m)
  ∧ ev = (λ w, FrameDone (w_id w) (wm_frame m')) <$> filter (λ w, w_awaiting_frame w = true) (wm_windows m)
  ∧ Forall (λ w, w_awaiting_frame w = false) (wm_windows m').
Proof.
  unfold tick. intros (m1&Hc&(f&_&[= <- <-])%bind_inv_Ok)%bind_inv_Ok. simpl.
  assert (wm_windows m1 = wm_windows m) as ->.
  { revert Hc. unfold composite. destruct (wm_dirty_regions m), (wm_target m); try (intros; by simplify_eq).
    by intros (t'&_&[= <-])%bind_inv_Ok. }
  split_and!; [|done|by apply Forall_fmap, Forall_true].
  unfold all_held. induction (wm_windows m) as [|w ws IH]; [done|]. rewrite fmap_cons, !bind_cons, IH. done.
Qed.

Lemma released_frames (ws : list Window) f : released ((λ w, FrameDone (w_id w) f) <$> ws) = [].
Proof. by induction ws. Qed.

Lemma released_app e1 e2 : released (e1 ++ e2) = released e1 ++ released e2.
Proof. apply omap_app. Qed.

Lemma accounts_balance es : ∀ m ac m' ac',
  all_held (wm_windows m) ++ released (ac_events ac) ≡ₚ ac_attached ac →
  run_accounts es (m, ac) = Ok (m', ac') →
  all_held (wm_windows m') ++ released (ac_events ac') ≡ₚ ac_attached ac'.
Proof.
  induction es as [|e es IH]; intros m ac m' ac' Hb; [by intros [= <- <-]|].
  cbn [run_accounts]. intros ([m1 ac1]&Hs&Hrun)%bind_inv_Ok. eapply IH, Hrun. clear IH Hrun.
  destruct e as [r att| |k bytes]; cbn [run_account] in Hs.
  - apply bind_inv_Ok in Hs as ([m2 ev]&Hr%request_held&[= <- <-]). simpl. rewrite released_app, <-Hb.
    revert Hr. generalize (released (ac_events ac)). intros l Hr. rewrite <-app_assoc in *.
    rewrite (Permutation_app_comm l), app_assoc, Hr. solve_Permutation.
  - apply bind_inv_Ok in Hs as ([m2 ev]&(Hh&->&_)%tick_events&[= <- <-]). simpl.
    by rewrite released_app, released_frames, app_nil_r, Hh.
  - by injection Hs as <- <-.
Qed.

End accounts.

(** A window of four white pixels, shown. *)
Definition show_window : list comp_step :=
  [CReq CreateWindow None; CReq (AttachBuffer 1 2 2 1) (Some (demo_att 0 100)); CReq (Commit 1) None;
   CReq (SetVisible 1 true) None].

(** Every pixel of the display that does not show the picture. *)
Definition stale_pixels (m : WindowManager Framebuffer) : list (Z * Z) :=
  match wm_target m with
  | Some t =>
      filter (λ p, ¬ covered (wm_dirty_regions m) p.1 p.2 ∧ ¬ undrawn (wm_windows m) p.1 p.2
                   ∧ fb_pixel t p.1 p.2 ≠ scene (wm_memory m) (wm_windows m) p.1 p.2)
        (y ← upto (fb_height t); x ← upto (fb_width t); [(x, y)])
  | None => []
  end.

(** The messages of a client, as frames. *)
Definition request_frame (r : CompRequest) : list Z :=
  match CompRequest_encode r (replicate (Z.to_nat COMP_MAX_FRAME_SIZE) 0) with
  | Ok (buf, n) => take (Z.to_nat n) buf
  | _ => []
  end.
Definition client_of (rs : list (CompRequest * option Z)) : Client :=
  Client_new ((λ r, (request_frame r.1, r.2)) <$> rs).

(** Handle [7] is a buffer of one pixel, mapped at [300]. *)
Definition small_map (h : Z) : option Z := if decide (h = 7) then Some 300 else None.
Definition small_server : CompServer (T:=Framebuffer) :=
  mkCs (set_memory demo_new (<[300 := replicate 4 255]> (wm_memory demo_new)))
    [client_of [(CreateWindow, None); (AttachBuffer 1 2 2 1, Some 7); (Commit 1, None); (SetVisible 1 true, None)]].

Definition demo_account : WindowManager Framebuffer * account :=
  match run_accounts demo_steps (demo_new, mkAcc [] []) with Ok s => s | _ => (demo_new, mkAcc [] []) end.


