(* ===== verification/PageTable.v ===== *)
(** * Page tables
    ([panda-kernel/src/memory/paging.rs], [recursive.rs], [address.rs],
    [demand_paging.rs], [mod.rs])

    Physical frames hold tables of 512 entries; the root of the current address
    space has an entry that points back to the root, and the kernel reaches
    every table through it: [table_for_addr] is an access at the virtual
    address [table_addr], translated by the walk of the processor.  An access
    that does not reach a table is a fault, shown as [Panic].  The frame
    allocator is the heap of a crate, an interface with laws; where it has no
    memory left the kernel stops, shown as [Err] to tell it from a fault. *)

From S2P Require Import Prelude Effects BlockDevice.

(** ** Entries *)
Record Flags : Type := mkFl { fl_present : bool; fl_writable : bool; fl_user : bool; fl_huge : bool; fl_nx : bool }.
#[export] Instance Flags_eq_dec : EqDecision Flags.
Proof. solve_decision. Defined.

Definition fl_none : Flags := mkFl false false false false false.
(** [a | b]. *)
Definition fl_or (a b : Flags) : Flags :=
  mkFl (fl_present a || fl_present b) (fl_writable a || fl_writable b) (fl_user a || fl_user b)
    (fl_huge a || fl_huge b) (fl_nx a || fl_nx b).
(** [a & !NO_EXECUTE]. *)
Definition fl_no_nx (a : Flags) : Flags :=
  mkFl (fl_present a) (fl_writable a) (fl_user a) (fl_huge a) false.
(** [a.contains(b)]. *)
Definition fl_contains (a b : Flags) : bool :=
  (fl_present a || negb (fl_present b)) && (fl_writable a || negb (fl_writable b)) &&
  (fl_user a || negb (fl_user b)) && (fl_huge a || negb (fl_huge b)) && (fl_nx a || negb (fl_nx b)).
Definition PRESENT : Flags := mkFl true false false false false.
Definition HUGE_PAGE : Flags := mkFl false false false true false.

Record MemoryMappingOptions : Type := mkOpt { mo_user : bool; mo_executable : bool; mo_writable : bool }.
Definition to_flags (o : MemoryMappingOptions) : Flags :=
  mkFl true (mo_writable o) (mo_user o) false (negb (mo_executable o)).

Record PTE : Type := mkPte { e_addr : Z; e_flags : Flags }.
#[export] Instance PTE_eq_dec : EqDecision PTE.
Proof. solve_decision. Defined.
Definition pte_unused : PTE := mkPte 0 fl_none.

Abbreviation Table := (gmap Z PTE).
Definition entry_of (t : Table) (i : Z) : PTE := default pte_unused (t !! i).

(** ** Levels and indices *)
Inductive PageTableLevel : Type := LOne | LTwo | LThree | LFour.
#[export] Instance PageTableLevel_eq_dec : EqDecision PageTableLevel.
Proof. solve_decision. Defined.

Definition level_num (l : PageTableLevel) : nat :=
  match l with LOne => 0 | LTwo => 1 | LThree => 2 | LFour => 3 end.
Definition next_lower_level (l : PageTableLevel) : option PageTableLevel :=
  match l with LFour => Some LThree | LThree => Some LTwo | LTwo => Some LOne | LOne => None end.

(** The index into the table at height [n] (0 for level one), of 9 bits. *)
Definition index_at (va : Z) (n : nat) : Z := Z.land (Z.shiftr va (12 + 9 * Z.of_nat n)) 0x1ff.
Definition page_table_index (va : Z) (l : PageTableLevel) : Z := index_at va (level_num l).

Definition RECURSIVE_INDEX : Z := 510.

Definition table_addr (virt : Z) (l : PageTableLevel) : Z :=
  let pml4_idx := Z.land (Z.shiftr virt 39) 0x1ff in
  let pdpt_idx := Z.land (Z.shiftr virt 30) 0x1ff in
  let pd_idx := Z.land (Z.shiftr virt 21) 0x1ff in
  let r := RECURSIVE_INDEX in
  let at_ a b c d := Z.lor (Z.lor (Z.lor (Z.shiftl a 39) (Z.shiftl b 30)) (Z.shiftl c 21)) (Z.shiftl d 12) in
  let result := match l with
                | LFour => at_ r r r r
                | LThree => at_ r r r pml4_idx
                | LTwo => at_ r r pml4_idx pdpt_idx
                | LOne => at_ r pml4_idx pdpt_idx pd_idx
                end in
  Z.lor 0xffff000000000000 result.

(** ** The processor's walk
    The frame and the offset an address leads to, with the rights that all
    levels grant. *)
Definition restrict (acc f : Flags) : Flags :=
  mkFl true (fl_writable acc && fl_writable f) (fl_user acc && fl_user f) false (fl_nx acc || fl_nx f).

Fixpoint mmu_walk (tables : gmap Z Table) (n : nat) (f va : Z) (acc : Flags) : option (Z * Z * Flags) :=
  t ← tables !! f;
  let e := entry_of t (index_at va n) in
  if negb (fl_present (e_flags e)) then None
  else
    let acc := restrict acc (e_flags e) in
    match n with
    | O => Some (e_addr e, va mod 2 ^ 12, acc)
    | S n' =>
        if fl_huge (e_flags e)
        then if decide (n = 3%nat) then None else Some (e_addr e, va mod 2 ^ (12 + 9 * Z.of_nat n), acc)
        else mmu_walk tables n' (e_addr e) va acc
    end.

Definition full_rights : Flags := mkFl true true true false false.

(** ** The frame allocator *)
Class FrameAllocator (A : Type) : Type := {
  fa_alloc : A → option (Z * A);
  fa_dealloc : Z → A → A;
  fa_alloc_huge : A → option (Z * A);
  fa_dealloc_huge : Z → A → A;
}.

(** The 512 frames of a block of 2 MiB. *)
Definition block_frames (f : Z) : list Z := (λ k, f + k * 4096) <$> upto 512.
Definition block (f : Z) : gset Z := list_to_set (block_frames f).

(** The frames handed out: a new one is none of them, and whole and not the
    frame at address zero. *)
Class FrameAllocatorLaws (A : Type) `{FrameAllocator A} : Type := {
  fa_used : A → gset Z;
  fa_alloc_used a f a' : fa_alloc a = Some (f, a') →
    (f ∉ fa_used a) ∧ fa_used a' = {[f]} ∪ fa_used a ∧ 0 < f ∧ f mod 4096 = 0;
  fa_dealloc_used a f : fa_used (fa_dealloc f a) = fa_used a ∖ {[f]};
  fa_alloc_huge_used a f a' : fa_alloc_huge a = Some (f, a') →
    block f ## fa_used a ∧ fa_used a' = block f ∪ fa_used a ∧ 0 < f ∧ f mod 2 ^ 21 = 0;
  fa_dealloc_huge_used a f : fa_used (fa_dealloc_huge f a) = fa_used a ∖ block f;
}.

(** Page tables, the bytes of the other frames, and the allocator. *)
Record VM (A : Type) : Type := mkVm {
  vm_tables : gmap Z Table;
  vm_root : Z;
  vm_data : gmap Z (list Z);
  vm_alloc : A;
}.
Arguments mkVm {A} _ _ _ _.
Arguments vm_tables {A} _.
Arguments vm_root {A} _.
Arguments vm_data {A} _.
Arguments vm_alloc {A} _.

Section paging.
Context {A : Type} `{FrameAllocator A}.
Abbreviation M := (ST (VM A) ()).
Implicit Types vm : VM A.

Definition mmu vm (va : Z) : option (Z * Z * Flags) :=
  mmu_walk (vm_tables vm) 3 (vm_root vm) va full_rights.

Definition set_tables vm (ts : gmap Z Table) : VM A := mkVm ts (vm_root vm) (vm_data vm) (vm_alloc vm).
Definition set_data vm (d : gmap Z (list Z)) : VM A := mkVm (vm_tables vm) (vm_root vm) d (vm_alloc vm).

(** The frame of the table at a pointer, and of the table that serves [va] at a
    level, reached through the recursive entry. *)
Definition deref_table (ptr : Z) : M Z := λ vm,
  match mmu vm ptr with
  | Some (f, off, _) => match vm_tables vm !! (f + off) with Some _ => (vm, Ok (f + off)) | None => (vm, Panic) end
  | None => (vm, Panic)
  end.
Definition table_for_addr (va : Z) (l : PageTableLevel) : M Z := deref_table (table_addr va l).

Definition read_entry_at (f i : Z) : M PTE :=
  gets (λ vm, entry_of (default ∅ (vm_tables vm !! f)) i).
Definition write_entry_at (f i : Z) (e : PTE) : M () :=
  modify (λ vm, set_tables vm (alter (<[i := e]>) f (vm_tables vm))).

(** [allocate_frame_raw]: a zeroed frame for a table. *)
Definition allocate_frame_raw : M Z := λ vm,
  match fa_alloc (vm_alloc vm) with
  | Some (f, a) => (mkVm (<[f := ∅]> (vm_tables vm)) (vm_root vm) (vm_data vm) a, Ok f)
  | None => (vm, Err tt)
  end.
Definition deallocate_frame_raw (f : Z) : M () :=
  modify (λ vm, mkVm (delete f (vm_tables vm)) (vm_root vm) (delete f (vm_data vm)) (fa_dealloc f (vm_alloc vm))).

(** [allocate_frame]: a zeroed frame of 4 KiB for data. *)
Definition allocate_frame : M Z := λ vm,
  match fa_alloc (vm_alloc vm) with
  | Some (f, a) => (mkVm (vm_tables vm) (vm_root vm) (<[f := replicate 4096 0]> (vm_data vm)) a, Ok f)
  | None => (vm, Err tt)
  end.

(** [allocate_physical] of 2 MiB. *)
Definition zero_block (f : Z) : gmap Z (list Z) := list_to_map ((λ g, (g, replicate 4096 0)) <$> block_frames f).
Definition allocate_huge : M Z := λ vm,
  match fa_alloc_huge (vm_alloc vm) with
  | Some (f, a) => (mkVm (vm_tables vm) (vm_root vm) (zero_block f ∪ vm_data vm) a, Ok f)
  | None => (vm, Err tt)
  end.

(** ** Walks of the kernel *)
Fixpoint is_mapped_from (n : nat) (addr : Z) (l : PageTableLevel) : M bool :=
  match n with
  | O => liftO OutOfFuel
  | S n =>
      t ← table_for_addr addr l;
      e ← read_entry_at t (page_table_index addr l);
      if negb (fl_present (e_flags e)) then mret false
      else if (bool_decide (l = LTwo) || bool_decide (l = LThree)) && fl_huge (e_flags e) then mret true
      else match next_lower_level l with
           | None => mret true
           | Some l' => is_mapped_from n addr l'
           end
  end.
Definition is_mapped (addr : Z) : M bool := is_mapped_from 4 addr LFour.

(** The entry a walk stops at: its table, its index and its level. *)
Fixpoint leaf_from (n : nat) (addr : Z) (flags : Flags) (l : PageTableLevel) : M (Z * Z * PageTableLevel) :=
  match n with
  | O => liftO OutOfFuel
  | S n =>
      t ← table_for_addr addr l;
      let i := page_table_index addr l in
      e ← read_entry_at t i;
      if decide (e_addr e = 0) then mret (t, i, l)
      else match next_lower_level l with
           | None => mret (t, i, l)
           | Some l' =>
               if bool_decide (l = LTwo) && fl_huge (e_flags e) then mret (t, i, l)
               else if negb (fl_contains (e_flags e) (fl_no_nx flags)) then mret (t, i, l)
               else leaf_from n addr flags l'
           end
  end.
Definition leaf_page_table_entry (addr : Z) (flags : Flags) : M (Z * Z * PageTableLevel) :=
  leaf_from 4 addr flags LFour.

Fixpoint page_table_entry (fuel : nat) (target : PageTableLevel) (addr : Z) (flags : Flags) :
    M (Z * Z * PageTableLevel) :=
  match fuel with
  | O => liftO OutOfFuel
  | S fuel =>
      '(t, i, l) ← leaf_page_table_entry addr flags;
      if decide (l = target) then mret (t, i, l)
      else
        e ← read_entry_at t i;
        let entry_flags := fl_no_nx (fl_or (fl_or (e_flags e) flags) PRESENT) in
        (if decide (e_addr e = 0) then
           frame ← allocate_frame_raw;
           write_entry_at t i (mkPte frame entry_flags)
         else write_entry_at t i (mkPte (e_addr e) entry_flags));;
        page_table_entry fuel target addr flags
  end.

(** At most one turn per level above the target, and one to return. *)
Definition pte_fuel : nat := 4.

(** ** Mapping *)
(** One page of [map_inner]. *)
Definition map_page (phys_addr virt_addr : Z) (options : MemoryMappingOptions) : M () :=
  mapped ← is_mapped virt_addr;
  if (mapped : bool) then mret tt
  else
    let flags := to_flags options in
    '(t, i, _) ← page_table_entry pte_fuel LOne virt_addr flags;
    write_entry_at t i (mkPte phys_addr flags).

(** The offsets [(0..size).step_by(4096)]. *)
Definition page_offsets (size : Z) : list Z := (λ k, k * 4096) <$> upto ((size + 4095) / 4096).

Definition map_inner (base_phys base_virt size : Z) (options : MemoryMappingOptions) : M () :=
  if decide (base_phys mod 4096 ≠ 0 ∨ base_virt mod 4096 ≠ 0) then liftO Panic
  else for_each (page_offsets size) (λ i, map_page (base_phys + i) (base_virt + i) options).

Definition update_page_permissions (virt_addr : Z) (flags : Flags) : M () :=
  '(t, i, _) ← page_table_entry pte_fuel LOne virt_addr flags;
  e ← read_entry_at t i;
  write_entry_at t i (mkPte (e_addr e) flags).

Definition update_permissions (base_virt size : Z) (options : MemoryMappingOptions) : M () :=
  if decide (base_virt mod 4096 ≠ 0) then liftO Panic
  else for_each (page_offsets size) (λ i, update_page_permissions (base_virt + i) (to_flags options)).

(** ** Unmapping *)
(** Down the levels: [Some] of the leaf frame when the loop ended at level
    one, [None] when the function returned. *)
Fixpoint unmap_down (virt_addr : Z) (levels : list PageTableLevel) : M (option Z) :=
  match levels with
  | [] => mret None
  | l :: levels =>
      t ← table_for_addr virt_addr l;
      let i := page_table_index virt_addr l in
      e ← read_entry_at t i;
      if negb (fl_present (e_flags e)) then mret None
      else if decide (l = LOne) then
        write_entry_at t i pte_unused;; mret (Some (e_addr e))
      else if bool_decide (l = LTwo) && fl_huge (e_flags e) then
        write_entry_at t i pte_unused;; mret None
      else unmap_down virt_addr levels
  end.

Definition table_is_empty (t : Table) : bool := forallb (λ i, negb (fl_present (e_flags (entry_of t i)))) (upto 512).

(** Up again: each table that has become empty goes back. *)
Fixpoint gc_up (virt_addr : Z) (levels : list (PageTableLevel * PageTableLevel)) : M () :=
  match levels with
  | [] => mret tt
  | (l, parent_level) :: levels =>
      child ← table_for_addr virt_addr l;
      empty ← gets (λ vm, table_is_empty (default ∅ (vm_tables vm !! child)));
      if negb empty then mret tt
      else
        parent ← table_for_addr virt_addr parent_level;
        let i := page_table_index virt_addr parent_level in
        e ← read_entry_at parent i;
        write_entry_at parent i pte_unused;;
        deallocate_frame_raw (e_addr e);;
        gc_up virt_addr levels
  end.

Definition unmap_and_gc (virt_addr : Z) (free_leaf : bool) : M () :=
  leaf ← unmap_down virt_addr [LFour; LThree; LTwo; LOne];
  match leaf with
  | None => mret tt
  | Some frame =>
      (if free_leaf then deallocate_frame_raw frame else mret tt);;
      gc_up virt_addr [(LOne, LTwo); (LTwo, LThree); (LThree, LFour)]
  end.

Definition unmap_page (virt_addr : Z) : M () := unmap_and_gc virt_addr false.
Definition free_page (virt_addr : Z) : M () := unmap_and_gc virt_addr true.

Definition unmap_region (base_virt size : Z) : M () :=
  if decide (base_virt mod 4096 ≠ 0) then liftO Panic
  else for_each (page_offsets size) (λ offset, unmap_page (base_virt + offset)).
Definition free_region (base_virt size : Z) : M () :=
  for_each (page_offsets size) (λ offset, free_page (base_virt + offset)).

(** ** Allocated regions *)
Inductive MappingBacking : Type :=
  | Frames (frames : list (Z * Z))
  | Mmio
  | DemandPaged
  | ExternalFrames.

Record Mapping : Type := mkMapping { base_virt : Z; size_bytes : Z; backing : MappingBacking }.

Definition HUGE_PAGE_SIZE : Z := 2 * 1024 * 1024.

(** [z & !(a - 1)] for a power of two [a]. *)
Definition align_to (a z : Z) : Z := z - z mod a.

(** The sizes of the head, of the huge pages and of the tail of a region, and
    the boundaries of the huge pages. *)
Definition split_region (start aligned_size : Z) : outcome () (Z * Z * Z * Z * Z) :=
  end_ ← chk 64 (start + aligned_size);
  up ← chk 64 (start + HUGE_PAGE_SIZE - 1);
  let first_huge_boundary := align_to HUGE_PAGE_SIZE up in
  let last_huge_boundary := align_to HUGE_PAGE_SIZE end_ in
  let head_size := if decide (first_huge_boundary <= end_ ∧ last_huge_boundary > first_huge_boundary)
                   then first_huge_boundary - start else aligned_size in
  let huge_size := if decide (head_size < aligned_size) then last_huge_boundary - first_huge_boundary else 0 in
  Ok (head_size, huge_size, aligned_size - head_size - huge_size, first_huge_boundary, last_huge_boundary).

(** [n] frames. *)
Fixpoint alloc_n (n : nat) (alloc : M Z) : M (list Z) :=
  match n with
  | O => mret []
  | S n => f ← alloc; fs ← alloc_n n alloc; mret (f :: fs)
  end.

(** The loop over 4 KiB pages: the pointer to the level-one table is kept for
    the addresses of one region of 2 MiB. *)
Fixpoint map_small (flags : Flags) (pages : list (Z * Z)) (cached_l1_table : option (Z * Z)) : M () :=
  match pages with
  | [] => mret tt
  | (phys_addr, virt_addr) :: pages =>
      let region_2mb := align_to 0x200000 virt_addr in
      let look := page_table_entry pte_fuel LOne virt_addr flags;; mret (table_addr virt_addr LOne) in
      l1_table ← match cached_l1_table with
                 | Some (table_ptr, cached_region) => if decide (cached_region = region_2mb) then mret table_ptr else look
                 | None => look
                 end;
      t ← deref_table l1_table;
      write_entry_at t (page_table_index virt_addr LOne) (mkPte phys_addr flags);;
      map_small flags pages (Some (l1_table, region_2mb))
  end.

(** One huge page. *)
Definition map_huge_page (phys_addr virt_addr : Z) (flags : Flags) : M () :=
  '(t, i, _) ← page_table_entry pte_fuel LTwo virt_addr flags;
  write_entry_at t i (mkPte phys_addr (fl_or flags HUGE_PAGE)).

(** Frames with the addresses from [base] on, [step] apart. *)
Definition spread (base step : Z) (frames : list Z) : list (Z * Z) :=
  zip frames ((λ i, base + i * step) <$> upto (len frames)).

Definition allocate_and_map (base_virt_addr size : Z) (options : MemoryMappingOptions) : M Mapping :=
  if decide (base_virt_addr mod 4096 ≠ 0) then liftO Panic
  else
    up ← liftO (chk 64 (size + 4095));
    let aligned_size := align_to 4096 up in
    let flags := to_flags options in
    '(head_size, huge_size, tail_size, first_huge_boundary, last_huge_boundary) ←
      liftO (split_region base_virt_addr aligned_size);
    head ← alloc_n (Z.to_nat (head_size / 4096)) allocate_frame;
    huge ← alloc_n (Z.to_nat (huge_size / HUGE_PAGE_SIZE)) allocate_huge;
    tail ← alloc_n (Z.to_nat (tail_size / 4096)) allocate_frame;
    map_small flags (spread base_virt_addr 4096 head) None;;
    for_each (spread first_huge_boundary HUGE_PAGE_SIZE huge) (λ '(phys, virt), map_huge_page phys virt flags);;
    map_small flags (spread last_huge_boundary 4096 tail) None;;
    mret (mkMapping base_virt_addr aligned_size
            (Frames (((λ f, (f, 4096)) <$> head) ++ ((λ f, (f, HUGE_PAGE_SIZE)) <$> huge) ++ ((λ f, (f, 4096)) <$> tail)))).

Definition map_external (base_phys base_virt_addr size : Z) (options : MemoryMappingOptions) : M Mapping :=
  map_inner base_phys base_virt_addr size options;;
  mret (mkMapping base_virt_addr size Mmio).

(** A frame guard goes: its memory returns to the heap. *)
Definition drop_frame (f size : Z) : M () :=
  if decide (size = 4096) then deallocate_frame_raw f
  else modify (λ vm, mkVm (vm_tables vm) (vm_root vm) (foldr delete (vm_data vm) (block_frames f))
                       (fa_dealloc_huge f (vm_alloc vm))).

(** The last guard of a mapping goes. *)
Definition drop_mapping (mp : Mapping) : M () :=
  match backing mp with
  | Frames frames =>
      unmap_region (base_virt mp) (size_bytes mp);;
      for_each frames (λ '(f, size), drop_frame f size)
  | Mmio | ExternalFrames => unmap_region (base_virt mp) (size_bytes mp)
  | DemandPaged => free_region (base_virt mp) (size_bytes mp)
  end.

(** [Mapping::resize]: the mapping and the size it reports. *)
Definition resize (mp : Mapping) (new_size : Z) : M (Mapping * Z) :=
  match backing mp with
  | DemandPaged =>
      (if decide (new_size < size_bytes mp)
       then free_region (base_virt mp + new_size) (size_bytes mp - new_size)
       else mret tt);;
      mret (mkMapping (base_virt mp) new_size DemandPaged, new_size)
  | _ => mret (mp, size_bytes mp)
  end.

(** [virtual_address_to_physical]. *)
Fixpoint to_physical_from (n : nat) (virt : Z) : M Z :=
  let l := match n with 3 => LFour | 2 => LThree | 1 => LTwo | _ => LOne end%nat in
  t ← table_for_addr virt l;
  e ← read_entry_at t (page_table_index virt l);
  if negb (fl_present (e_flags e)) then liftO Panic
  else
    let size := 2 ^ (12 + 9 * Z.of_nat n) in
    match n with
    | O => mret (e_addr e + virt mod size)
    | S n' => if (n <? 3)%nat && fl_huge (e_flags e) then mret (align_to size (e_addr e) + virt mod size)
              else to_physical_from n' virt
    end.
Definition virtual_address_to_physical (virt : Z) : M Z := to_physical_from 3 virt.

(** [create_user_page_table]: a root with the upper half of the current one
    and its own recursive entry. *)
Definition HIGHER_HALF_START : Z := 256.
Definition create_user_page_table : M Z :=
  frame ← allocate_frame_raw;
  cur ← table_for_addr 0 LFour;
  pml4 ← gets (λ vm, default ∅ (vm_tables vm !! cur));
  let copied := filter (λ '(i, _), HIGHER_HALF_START <= i < 512 ∧ i ≠ RECURSIVE_INDEX) pml4 in
  modify (λ vm, set_tables vm (<[frame := <[RECURSIVE_INDEX := mkPte frame (mkFl true true false false true)]> copied]>
                                  (vm_tables vm)));;
  mret frame.

(** [switch_page_table]. *)
Definition switch_page_table (root : Z) : M () :=
  modify (λ vm, mkVm (vm_tables vm) root (vm_data vm) (vm_alloc vm)).
End paging.
