(* ===== verification/PageTableProof.v ===== *)
(** * The page tables are a map of pages
    The recursive entry reaches every table, the walks of the kernel agree with
    the walk of the processor, and mapping, unmapping and changing rights of a
    page are updates of a flat map. *)

From S2P Require Import Prelude Effects BlockDevice PageTable.

(** ** Indices *)
Lemma index_at_spec va n : index_at va n = (va / 2 ^ (12 + 9 * Z.of_nat n)) mod 512.
Proof. unfold index_at. rewrite Z.shiftr_div_pow2 by lia. apply (land_mask _ 9). lia. Qed.

Lemma index_at_range va n : 0 <= index_at va n < 512.
Proof. rewrite index_at_spec. apply Z.mod_pos_bound. lia. Qed.

Lemma lor_add x y m : 0 <= m → 0 <= y < 2 ^ m → x mod 2 ^ m = 0 → Z.lor x y = x + y.
Proof.
  intros Hm Hy Hx. rewrite <-Z.lxor_lor; [rewrite <-Z.add_nocarry_lxor; [done|]|].
  all: apply Z.bits_inj'; intros k Hk; rewrite Z.land_spec, Z.bits_0.
  all: destruct (decide (k < m)) as [Hkm|Hkm]; [|by rewrite (testbit_small y m k), andb_false_r by lia].
  all: rewrite <-(Z.mod_pow2_bits_low x m k), Hx, Z.bits_0 by lia; done.
Qed.

(** The address with four given indices. *)
Definition at_indices (a b c d : Z) : Z :=
  0xffff000000000000 + a * 2 ^ 39 + b * 2 ^ 30 + c * 2 ^ 21 + d * 2 ^ 12.

Lemma at_indices_lor a b c d :
  0 <= a < 512 → 0 <= b < 512 → 0 <= c < 512 → 0 <= d < 512 →
  Z.lor 0xffff000000000000
    (Z.lor (Z.lor (Z.lor (Z.shiftl a 39) (Z.shiftl b 30)) (Z.shiftl c 21)) (Z.shiftl d 12)) = at_indices a b c d.
Proof.
  intros. rewrite !Z.shiftl_mul_pow2 by lia. unfold at_indices.
  rewrite (lor_add (a * 2 ^ 39) (b * 2 ^ 30) 39); [|lia|lia|apply Z.mod_mul; lia].
  rewrite (lor_add _ (c * 2 ^ 21) 30); [|lia|lia|].
  2: { replace (a * 2 ^ 39 + b * 2 ^ 30) with ((a * 2 ^ 9 + b) * 2 ^ 30) by lia. apply Z.mod_mul. lia. }
  rewrite (lor_add _ (d * 2 ^ 12) 21); [|lia|lia|].
  2: { replace (a * 2 ^ 39 + b * 2 ^ 30 + c * 2 ^ 21) with ((a * 2 ^ 18 + b * 2 ^ 9 + c) * 2 ^ 21) by lia.
       apply Z.mod_mul. lia. }
  rewrite (lor_add _ _ 48); [lia|lia|lia|done].
Qed.

Lemma digit hi x rest k v : 0 <= k → 0 <= rest < 2 ^ k → 0 <= x < 512 →
  v = (hi * 512 + x) * 2 ^ k + rest → (v / 2 ^ k) mod 512 = x.
Proof.
  intros Hk Hr Hx ->. rewrite Z.div_add_l by lia. rewrite (Z.div_small rest) by lia.
  rewrite Z.add_0_r, Z.add_comm, Z.mod_add by lia. by apply Z.mod_small.
Qed.

Lemma at_indices_index a b c d :
  0 <= a < 512 → 0 <= b < 512 → 0 <= c < 512 → 0 <= d < 512 →
  index_at (at_indices a b c d) 3 = a ∧ index_at (at_indices a b c d) 2 = b ∧
  index_at (at_indices a b c d) 1 = c ∧ index_at (at_indices a b c d) 0 = d ∧
  at_indices a b c d mod 2 ^ 12 = 0.
Proof.
  intros. rewrite !index_at_spec. unfold at_indices.
  change (12 + 9 * Z.of_nat 3) with 39. change (12 + 9 * Z.of_nat 2) with 30.
  change (12 + 9 * Z.of_nat 1) with 21. change (12 + 9 * Z.of_nat 0) with 12. split_and!.
  - apply (digit 65535 a (b * 2 ^ 30 + c * 2 ^ 21 + d * 2 ^ 12)); lia.
  - apply (digit (65535 * 512 + a) b (c * 2 ^ 21 + d * 2 ^ 12)); lia.
  - apply (digit ((65535 * 512 + a) * 512 + b) c (d * 2 ^ 12)); lia.
  - apply (digit (((65535 * 512 + a) * 512 + b) * 512 + c) d 0); lia.
  - replace (_ + _) with ((((65535 * 512 + a) * 512 + b) * 512 + c) * 512 * 2 ^ 12 + d * 2 ^ 12) by lia.
    rewrite <-Z.mul_add_distr_r. apply Z.mod_mul. lia.
Qed.

Lemma table_addr_indices va l : table_addr va l =
  match l with
  | LFour => at_indices RECURSIVE_INDEX RECURSIVE_INDEX RECURSIVE_INDEX RECURSIVE_INDEX
  | LThree => at_indices RECURSIVE_INDEX RECURSIVE_INDEX RECURSIVE_INDEX (index_at va 3)
  | LTwo => at_indices RECURSIVE_INDEX RECURSIVE_INDEX (index_at va 3) (index_at va 2)
  | LOne => at_indices RECURSIVE_INDEX (index_at va 3) (index_at va 2) (index_at va 1)
  end.
Proof.
  pose proof (index_at_range va). assert (0 <= RECURSIVE_INDEX < 512) by (unfold RECURSIVE_INDEX; lia).
  unfold table_addr. change (Z.land (Z.shiftr va 39) 511) with (index_at va 3).
  change (Z.land (Z.shiftr va 30) 511) with (index_at va 2). change (Z.land (Z.shiftr va 21) 511) with (index_at va 1).
  destruct l; by apply at_indices_lor.
Qed.

(** ** The recursive entry *)
Definition vpath (va : Z) : list Z := [index_at va 3; index_at va 2; index_at va 1; index_at va 0].

(** The table at the end of a path of intermediate entries. *)
Fixpoint follow (tables : gmap Z Table) (f : Z) (path : list Z) : option Z :=
  match path with
  | [] => Some f
  | i :: path =>
      t ← tables !! f;
      let e := entry_of t i in
      if fl_present (e_flags e) && negb (fl_huge (e_flags e)) then follow tables (e_addr e) path else None
  end.

Definition prefix_len (l : PageTableLevel) : nat := (3 - level_num l)%nat.

Lemma mmu_walk_step tables n f t va acc :
  tables !! f = Some t →
  fl_present (e_flags (entry_of t (index_at va (S n)))) = true →
  fl_huge (e_flags (entry_of t (index_at va (S n)))) = false →
  mmu_walk tables (S n) f va acc =
    mmu_walk tables n (e_addr (entry_of t (index_at va (S n)))) va
      (restrict acc (e_flags (entry_of t (index_at va (S n))))).
Proof. intros Ht Hp Hh. cbn [mmu_walk]. rewrite Ht. simpl. by rewrite Hp, Hh. Qed.

Lemma mmu_walk_last tables f t va acc :
  tables !! f = Some t → fl_present (e_flags (entry_of t (index_at va 0))) = true →
  mmu_walk tables 0 f va acc =
    Some (e_addr (entry_of t (index_at va 0)), va mod 2 ^ 12, restrict acc (e_flags (entry_of t (index_at va 0)))).
Proof. intros Ht Hp. cbn [mmu_walk]. rewrite Ht. simpl. by rewrite Hp. Qed.

Section recursive.
Context {A : Type} `{FrameAllocator A}.
Implicit Types vm : VM A.

(** The root has an entry that leads back to it. *)
Definition rec_ok vm : Prop :=
  ∃ t, vm_tables vm !! vm_root vm = Some t ∧ e_addr (entry_of t RECURSIVE_INDEX) = vm_root vm
    ∧ fl_present (e_flags (entry_of t RECURSIVE_INDEX)) = true
    ∧ fl_huge (e_flags (entry_of t RECURSIVE_INDEX)) = false.

Lemma mmu_recursive vm n va acc : rec_ok vm → index_at va (S n) = RECURSIVE_INDEX →
  ∃ acc', mmu_walk (vm_tables vm) (S n) (vm_root vm) va acc = mmu_walk (vm_tables vm) n (vm_root vm) va acc'.
Proof.
  intros (t&Ht&Ha&Hp&Hh) Hi. eexists. erewrite mmu_walk_step; rewrite ?Hi; try done. by rewrite Ha.
Qed.

(** One intermediate entry of a path. *)
Lemma follow_cons (tables : gmap Z Table) f i path g : follow tables f (i :: path) = Some g →
  ∃ t, tables !! f = Some t ∧ fl_present (e_flags (entry_of t i)) = true
    ∧ fl_huge (e_flags (entry_of t i)) = false ∧ follow tables (e_addr (entry_of t i)) path = Some g.
Proof.
  simpl. destruct (tables !! f) as [t|]; [|done]. simpl. intros Hf. exists t. split; [done|].
  destruct (fl_present _), (fl_huge _); simpl in Hf; try done.
Qed.

Lemma table_for_addr_ok vm va l f : rec_ok vm →
  follow (vm_tables vm) (vm_root vm) (take (prefix_len l) (vpath va)) = Some f → is_Some (vm_tables vm !! f) →
  table_for_addr va l vm = (vm, Ok f).
Proof.
  intros Hrec Hf [tf Htf]. unfold table_for_addr, deref_table, mmu.
  assert (∃ fl, mmu_walk (vm_tables vm) 3 (vm_root vm) (table_addr va l) full_rights = Some (f, 0, fl)) as [fl E];
    [|by rewrite E, Z.add_0_r, Htf].
  rewrite table_addr_indices. pose proof (index_at_range va) as Hr.
  assert (0 <= RECURSIVE_INDEX < 512) as Hrr by (unfold RECURSIVE_INDEX; lia).
  unfold prefix_len, vpath in Hf. destruct l; simpl take in Hf;
    match goal with |- context [at_indices ?a ?b ?c ?d] =>
      destruct (at_indices_index a b c d) as (I3&I2&I1&I0&Hm); auto; set (x := at_indices a b c d) in * end;
    destruct (mmu_recursive vm 2 x full_rights Hrec I3) as [acc1 ->].
  - apply follow_cons in Hf as (t4&Ht4&P4&H4&Hf). apply follow_cons in Hf as (t3&Ht3&P3&H3&Hf).
    apply follow_cons in Hf as (t2&Ht2&P2&H2&[= <-]). rewrite <-I2 in *. rewrite <-I1 in *. rewrite <-I0 in *.
    rewrite (mmu_walk_step _ _ _ t4) by done. rewrite (mmu_walk_step _ _ _ t3) by done.
    rewrite (mmu_walk_last _ _ t2), Hm by done. by eexists.
  - destruct (mmu_recursive vm 1 x acc1 Hrec I2) as [acc2 ->].
    apply follow_cons in Hf as (t4&Ht4&P4&H4&Hf). apply follow_cons in Hf as (t3&Ht3&P3&H3&[= <-]).
    rewrite <-I1 in *. rewrite <-I0 in *.
    rewrite (mmu_walk_step _ _ _ t4) by done. rewrite (mmu_walk_last _ _ t3), Hm by done. by eexists.
  - destruct (mmu_recursive vm 1 x acc1 Hrec I2) as [acc2 ->].
    destruct (mmu_recursive vm 0 x acc2 Hrec I1) as [acc3 ->].
    apply follow_cons in Hf as (t4&Ht4&P4&H4&[= <-]). rewrite <-I0 in *.
    rewrite (mmu_walk_last _ _ t4), Hm by done. by eexists.
  - destruct (mmu_recursive vm 1 x acc1 Hrec I2) as [acc2 ->].
    destruct (mmu_recursive vm 0 x acc2 Hrec I1) as [acc3 ->]. injection Hf as <-.
    destruct Hrec as (t4&Ht4&Ha&P4&H4). rewrite (mmu_walk_last _ _ t4), I0, Hm, Ha by (by rewrite ?I0). by eexists.
Qed.
End recursive.

(** ** Well-formed address spaces *)
(** An entry that is not an intermediate one: at level one, or a huge page at
    level two. *)
Definition is_leaf (p : list Z) (e : PTE) : bool :=
  bool_decide (length p = 3%nat) || (bool_decide (length p = 2%nat) && fl_huge (e_flags e)).

Definition grants (parent child : Flags) : Prop :=
  (fl_writable child = true → fl_writable parent = true) ∧ (fl_user child = true → fl_user parent = true).

(** An entry of a table whose path from the root is [p]. *)
Definition entry_ok (own : gmap Z (list Z)) (p : list Z) (i : Z) (e : PTE) : Prop :=
  e = pte_unused ∨
  (fl_present (e_flags e) = true ∧ e_addr e ≠ 0 ∧
   (is_leaf p e = false →
      own !! e_addr e = Some (p ++ [i]) ∧ fl_huge (e_flags e) = false ∧ fl_nx (e_flags e) = false)).

(** The tables [own]ed by an address space, each with the one path that leads
    to it; the table at the path [hole] need not be linked. *)
Record tree_but (hole : option (list Z)) (own : gmap Z (list Z)) (root : Z) (tables : gmap Z Table) : Prop := {
  tr_root : own !! root = Some [];
  tr_dom f : is_Some (tables !! f) ↔ is_Some (own !! f);
  tr_inj f g p : own !! f = Some p → own !! g = Some p → f = g;
  tr_len f p : own !! f = Some p → (length p <= 3)%nat;
  tr_nonzero f p : own !! f = Some p → f ≠ 0;
  tr_head f i p : own !! f = Some (i :: p) → i ≠ RECURSIVE_INDEX;
  tr_idx f p t i : own !! f = Some p → tables !! f = Some t → ¬ 0 <= i < 512 → entry_of t i = pte_unused;
  tr_entry f p t i : own !! f = Some p → tables !! f = Some t → (p = [] → i ≠ RECURSIVE_INDEX) →
    entry_ok own p i (entry_of t i);
  tr_rights f p t i c tc j : own !! f = Some p → tables !! f = Some t → (p = [] → i ≠ RECURSIVE_INDEX) →
    own !! c = Some (p ++ [i]) → tables !! c = Some tc → entry_of tc j ≠ pte_unused →
    grants (e_flags (entry_of t i)) (e_flags (entry_of tc j));
  tr_back c p i : own !! c = Some (p ++ [i]) → hole ≠ Some (p ++ [i]) →
    ∃ f t, own !! f = Some p ∧ tables !! f = Some t ∧ e_addr (entry_of t i) = c ∧ entry_of t i ≠ pte_unused
      ∧ is_leaf p (entry_of t i) = false;
}.

Abbreviation tree := (tree_but None).

(** The leaf an address leads to and its height, read off the tables. *)
Fixpoint leaf_walk (tables : gmap Z Table) (n : nat) (f va : Z) : option (PTE * nat) :=
  t ← tables !! f;
  let e := entry_of t (index_at va n) in
  if negb (fl_present (e_flags e)) then None
  else match n with
       | O => Some (e, O)
       | S n' => if fl_huge (e_flags e) then Some (e, n) else leaf_walk tables n' (e_addr e) va
       end.

Definition leaf_rights (f : Flags) : Flags := mkFl true (fl_writable f) (fl_user f) false (fl_nx f).

Lemma restrict_leaf acc f : grants acc f → fl_nx acc = false → restrict acc f = leaf_rights f.
Proof.
  intros [Hw Hu] Hn. unfold restrict, leaf_rights. rewrite Hn. f_equal.
  - destruct (fl_writable f); [by rewrite Hw|apply andb_false_r].
  - destruct (fl_user f); [by rewrite Hu|apply andb_false_r].
Qed.

(** The first indices of an address down to height [n]. *)
Definition path_to (va : Z) (n : nat) : list Z := take (3 - n) (vpath va).

Lemma path_to_step va n : (n < 3)%nat → path_to va n = path_to va (S n) ++ [index_at va (S n)].
Proof. intros. unfold path_to, vpath. destruct n as [|[|[|]]]; try lia; done. Qed.
Lemma path_to_length va n : (n <= 3)%nat → length (path_to va n) = (3 - n)%nat.
Proof. intros. unfold path_to, vpath. rewrite length_take. simpl. lia. Qed.
Lemma path_to_3 va : path_to va 3 = [].
Proof. done. Qed.

(** Addresses outside the region of the tables themselves. *)
Definition ordinary (va : Z) : Prop := index_at va 3 ≠ RECURSIVE_INDEX.

Lemma not_recursive va n : (n <= 3)%nat → ordinary va → path_to va n = [] → index_at va n ≠ RECURSIVE_INDEX.
Proof.
  intros Hn Ho Hp. assert (length (path_to va n) = 0%nat) as Hl by (by rewrite Hp).
  rewrite path_to_length in Hl by done. by replace n with 3%nat by lia.
Qed.

Section tree_lemmas.
Context (hole : option (list Z)) (own : gmap Z (list Z)) (root : Z) (tables : gmap Z Table).
Hypothesis Htree : tree_but hole own root tables.

Lemma own_table f p : own !! f = Some p → ∃ t, tables !! f = Some t.
Proof. intros Hf. apply (tr_dom _ _ _ _ Htree). by eexists. Qed.

Lemma ordinary_entry va f n t : (n <= 3)%nat → ordinary va → own !! f = Some (path_to va n) → tables !! f = Some t →
  entry_ok own (path_to va n) (index_at va n) (entry_of t (index_at va n)).
Proof.
  intros Hn Ho Hf Ht. eapply (tr_entry _ _ _ _ Htree); [done..|]. by apply not_recursive.
Qed.

(** The child an intermediate entry leads to. *)
Lemma child_owned va f n t : (S n <= 3)%nat → ordinary va → own !! f = Some (path_to va (S n)) → tables !! f = Some t →
  fl_present (e_flags (entry_of t (index_at va (S n)))) = true →
  fl_huge (e_flags (entry_of t (index_at va (S n)))) = false →
  own !! e_addr (entry_of t (index_at va (S n))) = Some (path_to va n).
Proof.
  intros Hn Ho Hf Ht Hp Hh. destruct (ordinary_entry va f (S n) t Hn Ho Hf Ht) as [E|(_&_&Hc)]; [by rewrite E in Hp|].
  rewrite path_to_step by lia. apply Hc. unfold is_leaf. rewrite path_to_length, Hh, andb_false_r by done.
  rewrite orb_false_r. apply bool_decide_eq_false. lia.
Qed.

(** The rights the processor grants are those of the leaf. *)
Lemma mmu_leaf_walk n : ∀ va f acc, (n <= 3)%nat → ordinary va → own !! f = Some (path_to va n) →
  (∀ t, tables !! f = Some t → entry_of t (index_at va n) ≠ pte_unused →
     grants acc (e_flags (entry_of t (index_at va n)))) → fl_nx acc = false →
  mmu_walk tables n f va acc =
    (λ '(e, k), (e_addr e, va mod 2 ^ (12 + 9 * Z.of_nat k), leaf_rights (e_flags e))) <$> leaf_walk tables n f va.
Proof using Htree.
  induction n as [|n IH]; intros va f acc Hn Ho Hf Hg Hnx; cbn [mmu_walk leaf_walk];
    destruct (own_table f _ Hf) as [t Ht]; rewrite Ht; cbn [mbind option_bind]; specialize (Hg t Ht);
    set (e := entry_of t (index_at va _)) in *;
    destruct (fl_present (e_flags e)) eqn:Hp; simpl; try done;
    assert (e ≠ pte_unused) as Hne by (intros E; by rewrite E in Hp); specialize (Hg Hne) as [Hgw Hgu].
  - rewrite restrict_leaf by done. done.
  - pose proof (ordinary_entry va f (S n) t Hn Ho Hf Ht) as [E|(_&_&Hc)]; [done|]. fold e in Hc.
    destruct (fl_huge (e_flags e)) eqn:Hh.
    + assert (S n = 1%nat) as Hn1.
      { unfold is_leaf in Hc. rewrite path_to_length, Hh, andb_true_r in Hc by done.
        destruct (decide (S n = 1%nat)); [done|]. destruct Hc as (_&?&_); [|done].
        rewrite !bool_decide_eq_false_2 by lia. done. }
      rewrite decide_False by lia. by rewrite restrict_leaf.
    + pose proof (child_owned va f n t Hn Ho Hf Ht Hp Hh) as Hchild. fold e in Hchild.
      assert (fl_nx (e_flags e) = false) as Hnxe.
      { apply Hc. unfold is_leaf. rewrite path_to_length, Hh, andb_false_r, orb_false_r by done.
        apply bool_decide_eq_false. lia. }
      apply IH; [lia|done|done| |by simpl; rewrite Hnx, Hnxe].
      intros tc Htc Hne'. rewrite (path_to_step va n) in Hchild by lia.
      destruct (tr_rights _ _ _ _ Htree f _ t (index_at va (S n)) (e_addr e) tc (index_at va n) Hf Ht) as [Hw Hu];
        [by apply not_recursive|done..|].
      fold e in Hw, Hu. split; simpl; intros X; rewrite andb_true_iff; auto.
Qed.
End tree_lemmas.

(** ** Changing one entry *)
Lemma entry_of_insert (t : Table) i e j : entry_of (<[i := e]> t) j = if decide (j = i) then e else entry_of t j.
Proof.
  unfold entry_of. destruct (decide (j = i)) as [->|]; [by rewrite lookup_insert_eq|by rewrite lookup_insert_ne].
Qed.

Lemma lookup_set_entry (ts : gmap Z Table) f t i e g : ts !! f = Some t →
  alter (<[i := e]>) f ts !! g = if decide (g = f) then Some (<[i := e]> t) else ts !! g.
Proof.
  intros Ht. destruct (decide (g = f)) as [->|]; [by rewrite lookup_alter_eq, Ht|by rewrite lookup_alter_ne].
Qed.

Lemma path_prefix va n : (n <= 3)%nat → path_to va n ++ [index_at va n] `prefix_of` vpath va.
Proof. intros. unfold path_to, vpath. destruct n as [|[|[|[|]]]]; try lia; simpl; by eexists. Qed.

Lemma leaf_walk_other hole own root ts f p t i e n : ∀ va g,
  tree_but hole own root ts → own !! f = Some p → ts !! f = Some t → (n <= 3)%nat → ordinary va →
  own !! g = Some (path_to va n) → ¬ p ++ [i] `prefix_of` vpath va →
  leaf_walk (alter (<[i := e]>) f ts) n g va = leaf_walk ts n g va.
Proof.
  induction n as [|n IH]; intros va g Htr Hf Ht Hn Ho Hg Hpre; cbn [leaf_walk];
    rewrite (lookup_set_entry ts f t) by done; destruct (decide (g = f)) as [->|Hne]; simpl.
  1, 3: rewrite Ht; simpl; rewrite Hf in Hg; injection Hg as ->; rewrite entry_of_insert, decide_False;
    [|intros <-; apply Hpre, path_prefix; lia].
  all: try done.
  - destruct (fl_present _) eqn:Hp; [|done]. simpl. destruct (fl_huge _) eqn:Hh; [done|]. apply IH; try done; [lia|].
    by eapply child_owned.
  - destruct (ts !! g) as [tg|] eqn:Htg; [|done]. simpl.
    destruct (fl_present _) eqn:Hp; [|done]. simpl. destruct (fl_huge _) eqn:Hh; [done|]. apply IH; try done; [lia|].
    by eapply child_owned.
Qed.

(** What an entry must satisfy to be stored at index [i] of the table [f] at
    path [p]. *)
Definition may_store hole (own : gmap Z (list Z)) (ts : gmap Z Table) (p : list Z) (i : Z) (e : PTE) : Prop :=
  entry_ok own p i e
  ∧ (∀ p0 i0 f0 t0, p = p0 ++ [i0] → own !! f0 = Some p0 → ts !! f0 = Some t0 → e ≠ pte_unused →
       grants (e_flags (entry_of t0 i0)) (e_flags e))
  ∧ (∀ c tc j, own !! c = Some (p ++ [i]) → ts !! c = Some tc → entry_of tc j ≠ pte_unused →
       grants (e_flags e) (e_flags (entry_of tc j)))
  ∧ (∀ c, own !! c = Some (p ++ [i]) → hole ≠ Some (p ++ [i]) →
       e_addr e = c ∧ e ≠ pte_unused ∧ is_leaf p e = false).

Lemma app_last_ne (p : list Z) i : p ≠ p ++ [i].
Proof. intros E%(f_equal length). rewrite length_app in E. simpl in E. lia. Qed.

Lemma tree_set_entry hole own root ts f p t i e :
  tree_but hole own root ts → own !! f = Some p → ts !! f = Some t → (p = [] → i ≠ RECURSIVE_INDEX) →
  0 <= i < 512 → may_store hole own ts p i e → tree_but hole own root (alter (<[i := e]>) f ts).
Proof.
  intros [Hr Hdom Hinj Hlen Hnz Hhd Hidx Hent Hrig Hback] Hf Ht Hi Hir (He&Hpar&Hch&Hbk).
  assert (∀ g tg, alter (<[i := e]>) f ts !! g = Some tg →
    ∃ tg0, ts !! g = Some tg0 ∧ ∀ j, entry_of tg j = if decide (g = f ∧ j = i) then e else entry_of tg0 j) as Hg.
  { intros g tg. rewrite (lookup_set_entry ts f t) by done. destruct (decide (g = f)) as [->|Hne].
    - intros [= <-]. exists t. split; [done|]. intros j. rewrite entry_of_insert.
      destruct (decide (j = i)); [by rewrite decide_True by done|by rewrite decide_False by naive_solver].
    - intros Htg. exists tg. split; [done|]. intros j. by rewrite decide_False by naive_solver. }
  split; try done.
  - intros g. rewrite (lookup_set_entry ts f t) by done. rewrite <-Hdom. destruct (decide (g = f)) as [->|]; [|done].
    rewrite Ht. split; by eexists.
  - intros g q tg j Hgo Htg Hj. apply Hg in Htg as (tg0&Htg&->). rewrite decide_False by naive_solver. by eapply Hidx.
  - intros g q tg j Hgo Htg Hj. apply Hg in Htg as (tg0&Htg&->). destruct (decide _) as [[-> ->]|]; [|by eapply Hent].
    by simplify_eq.
  - intros g q tg j c tc k Hgo Htg Hj Hc Htc. apply Hg in Htg as (tg0&Htg&->). apply Hg in Htc as (tc0&Htc&->).
    destruct (decide (g = f ∧ j = i)) as [[-> ->]|]; destruct (decide (c = f ∧ k = i)) as [[-> ->]|]; simplify_eq.
    + exfalso. by eapply app_last_ne.
    + by eapply Hch.
    + intros Hne. by eapply Hpar.
    + by apply (Hrig g q tg0 j c tc0 k).
  - intros c q j Hc Hh. destruct (Hback c q j Hc Hh) as (g&tg&Hgo&Htg&Ha&Hne&Hlf).
    exists g. rewrite (lookup_set_entry ts f t) by done. destruct (decide (g = f)) as [->|].
    + simplify_eq. eexists. split_and!; [done..| | |]; rewrite entry_of_insert;
        destruct (decide (j = i)) as [->|]; try done; by destruct (Hbk _ Hc Hh) as (?&?&?).
    + by exists tg.
Qed.

(** A fresh table for a path nobody owns. *)
Lemma tree_new_table own root ts g p i f :
  tree own root ts → own !! g = None → g ≠ 0 → own !! f = Some p → (length p < 3)%nat →
  (p = [] → i ≠ RECURSIVE_INDEX) → (∀ t, ts !! f = Some t → entry_of t i = pte_unused) →
  tree_but (Some (p ++ [i])) (<[g := p ++ [i]]> own) root (<[g := ∅]> ts).
Proof.
  intros [Hr Hdom Hinj Hlen Hnz Hhd Hidx Hent Hrig Hback] Hg Hg0 Hf Hp Hi Hun.
  assert (∀ c, own !! c ≠ Some (p ++ [i])) as Hfree.
  { intros c Hc. destruct (Hback c p i Hc) as (f'&t'&Hf'&Ht'&_&Hne&_); [done|].
    rewrite (Hinj f' f p Hf' Hf) in Ht'. by apply Hne, Hun. }
  assert (∀ h, ts !! h ≠ None → h ≠ g) as Hts.
  { intros h Hh ->. destruct (ts !! g) eqn:E; [|done]. destruct (proj1 (Hdom g)) as [? ?]; [by eexists|congruence]. }
  assert (∀ h q, own !! h = Some q → h ≠ g) as Hown by (intros h q Hh ->; congruence).
  split.
  - rewrite lookup_insert_ne by (intros ->; congruence). done.
  - intros h. destruct (decide (h = g)) as [->|]; [rewrite !lookup_insert_eq; split; by eexists|].
    by rewrite !lookup_insert_ne.
  - intros h h' q. destruct (decide (h = g)) as [->|], (decide (h' = g)) as [->|];
      rewrite ?lookup_insert_eq, ?lookup_insert_ne by done; try done; [..|by apply Hinj]; intros; simplify_eq; exfalso; by eapply Hfree.
  - intros h q. destruct (decide (h = g)) as [->|]; [rewrite lookup_insert_eq|rewrite lookup_insert_ne by done; by apply Hlen].
    intros [= <-]. rewrite length_app. simpl. lia.
  - intros h q. destruct (decide (h = g)) as [->|]; [done|]. rewrite lookup_insert_ne by done. by apply Hnz.
  - intros h j q. destruct (decide (h = g)) as [->|]; [rewrite lookup_insert_eq|rewrite lookup_insert_ne by done; by apply Hhd].
    intros [= E]. destruct p as [|k p]; simplify_eq/=; [by apply Hi|by eapply Hhd].
  - intros h q t j. destruct (decide (h = g)) as [->|]; [|rewrite !lookup_insert_ne by done; apply Hidx].
    rewrite !lookup_insert_eq. by intros _ [= <-] _.
  - intros h q t j. destruct (decide (h = g)) as [->|].
    + rewrite !lookup_insert_eq. intros [= <-] [= <-] _. by left.
    + rewrite !lookup_insert_ne by done. intros Hh Ht Hj. destruct (Hent h q t j Hh Ht Hj) as [->|(?&?&Hc)]; [by left|].
      right. split_and!; [done..|]. intros Hl. destruct (Hc Hl) as (Ho&?&?). split_and!; [|done..].
      rewrite lookup_insert_ne; [done|]. intros E. rewrite <-E in Ho. congruence.
  - intros h q t j c tc k. destruct (decide (c = g)) as [->|].
    { rewrite !lookup_insert_eq. intros _ _ _ _ [= <-] Hne. done. }
    rewrite (lookup_insert_ne own g c), (lookup_insert_ne ts g c) by done.
    destruct (decide (h = g)) as [->|]; [|rewrite !lookup_insert_ne by done; apply Hrig].
    rewrite !lookup_insert_eq. intros [= <-] [= <-] _ Hc Htc Hne.
    destruct (Hback c (p ++ [i]) j Hc) as (f'&_&Hf'&_); [done|]. by eapply Hfree in Hf'.
  - intros c q j. destruct (decide (c = g)) as [->|]; [rewrite lookup_insert_eq|rewrite lookup_insert_ne by done].
    { intros [= E] Hh. by rewrite E in Hh. }
    intros Hc Hh. destruct (Hback c q j Hc) as (f'&t'&Hf'&Ht'&?&?&?); [done|].
    exists f', t'. rewrite !lookup_insert_ne by (intros ->; congruence). done.
Qed.

(** ** The pages of an address space
    The leaf of an address, found among the owned tables. *)
Definition leaf_at (own : gmap Z (list Z)) (ts : gmap Z Table) (va : Z) (e : PTE) (k : nat) : Prop :=
  ∃ f t, own !! f = Some (path_to va k) ∧ ts !! f = Some t ∧ entry_of t (index_at va k) = e ∧ e ≠ pte_unused
    ∧ is_leaf (path_to va k) e = true ∧ (k <= 3)%nat.

Lemma is_leaf_height va k e : (k <= 3)%nat →
  is_leaf (path_to va k) e = bool_decide (k = 0%nat) || (bool_decide (k = 1%nat) && fl_huge (e_flags e)).
Proof.
  intros Hk. unfold is_leaf. rewrite path_to_length by done.
  f_equal; [|f_equal]; apply bool_decide_ext; lia.
Qed.

Section views.
Context (own : gmap Z (list Z)) (root : Z) (ts : gmap Z Table).
Hypothesis Htree : tree own root ts.

Lemma entry_present va f k t : (k <= 3)%nat → ordinary va → own !! f = Some (path_to va k) → ts !! f = Some t →
  entry_of t (index_at va k) ≠ pte_unused →
  fl_present (e_flags (entry_of t (index_at va k))) = true ∧ e_addr (entry_of t (index_at va k)) ≠ 0
  ∧ (is_leaf (path_to va k) (entry_of t (index_at va k)) = false → ∃ k', k = S k'
     ∧ own !! e_addr (entry_of t (index_at va k)) = Some (path_to va k')
     ∧ fl_huge (e_flags (entry_of t (index_at va k))) = false).
Proof using Htree.
  intros Hk Ho Hf Ht Hne. destruct (ordinary_entry None own root ts Htree va f k t Hk Ho Hf Ht) as [E|(Hp&Ha&Hc)]; [done|].
  split_and!; [done..|]. intros Hl. destruct (Hc Hl) as (Hown&Hh&_). rewrite is_leaf_height in Hl by done.
  destruct k as [|k]; [done|]. exists k. split_and!; [done| |done]. by rewrite path_to_step by lia.
Qed.

Lemma leaf_walk_leaf_at n : ∀ va f e k, (n <= 3)%nat → ordinary va → own !! f = Some (path_to va n) →
  leaf_walk ts n f va = Some (e, k) → leaf_at own ts va e k.
Proof using Htree.
  induction n as [|n IH]; intros va f e k Hn Ho Hf; cbn [leaf_walk];
    destruct (own_table None own root ts Htree f _ Hf) as [t Ht]; rewrite Ht; cbn [mbind option_bind];
    destruct (fl_present _) eqn:Hp; try done; cbn [negb].
  - intros [= <- <-]. exists f, t. split_and!; try done. intros E. by rewrite E in Hp.
  - assert (entry_of t (index_at va (S n)) ≠ pte_unused) as Hne by (intros E; by rewrite E in Hp).
    destruct (entry_present va f (S n) t Hn Ho Hf Ht Hne) as (_&_&Hc). destruct (fl_huge _) eqn:Hh.
    + intros [= <- <-]. exists f, t. split_and!; try done.
      destruct (is_leaf _ _) eqn:Hl; [done|]. destruct (Hc eq_refl) as (?&_&_&?). congruence.
    + intros Hw. eapply (IH va _ e k); [lia|done| |done]. by eapply child_owned.
Qed.

(** Every owned table on the way of an address is reached by the walk. *)
Lemma leaf_walk_at va k : ∀ f, (k <= 3)%nat → ordinary va → own !! f = Some (path_to va k) →
  leaf_walk ts 3 root va = leaf_walk ts k f va.
Proof using Htree.
  intros f Hk Ho. replace k with (3 - (3 - k))%nat by lia. assert (3 - k <= 3)%nat as Hd by lia. revert f Hd.
  induction (3 - k)%nat as [|d IH]; intros f Hd Hf.
  - rewrite path_to_3 in Hf. by rewrite (tr_inj _ _ _ _ Htree _ _ _ Hf (tr_root _ _ _ _ Htree)).
  - assert (path_to va (3 - S d) = path_to va (3 - d) ++ [index_at va (3 - d)]) as Hpath.
    { replace (3 - d)%nat with (S (3 - S d)) by lia. apply path_to_step. lia. }
    pose proof Hf as Hf'. rewrite Hpath in Hf'.
    destruct (tr_back _ _ _ _ Htree f _ _ Hf') as (g&t&Hg&Ht&Ha&Hne&Hl); [done|].
    rewrite (IH g) by (done || lia). replace (3 - d)%nat with (S (3 - S d)) in * by lia. cbn [leaf_walk].
    rewrite Ht. cbn [mbind option_bind].
    destruct (entry_present va g (S (3 - S d)) t) as (Hp&_&Hc); try done; [lia|].
    destruct (Hc Hl) as (_&_&_&Hh). by rewrite Hp, Hh, Ha.
Qed.

Lemma leaf_walk_iff va e k : ordinary va → leaf_walk ts 3 root va = Some (e, k) ↔ leaf_at own ts va e k.
Proof using Htree.
  intros Ho. split.
  - apply leaf_walk_leaf_at; [done..|]. rewrite path_to_3. apply (tr_root _ _ _ _ Htree).
  - intros (f&t&Hf&Ht&He&Hne&Hl&Hk). rewrite (leaf_walk_at va k f) by done. rewrite <-He in Hne.
    destruct (entry_present va f k t) as (Hp&_&_); try done. rewrite is_leaf_height in Hl by done.
    destruct k as [|k]; cbn [leaf_walk]; rewrite Ht; cbn [mbind option_bind]; rewrite Hp; simpl; [by rewrite He|].
    rewrite He in *. rewrite bool_decide_eq_false_2 in Hl by lia. apply orb_prop in Hl as [|Hl]; [done|].
    apply andb_prop in Hl as [_ Hh]. by rewrite Hh.
Qed.
End views.

(** An empty table leaves once nothing points to it. *)
Lemma tree_remove_table own root ts g tg p i f t :
  tree_but (Some (p ++ [i])) own root ts → own !! g = Some (p ++ [i]) → ts !! g = Some tg →
  (∀ j, entry_of tg j = pte_unused) → own !! f = Some p → ts !! f = Some t → (p = [] → i ≠ RECURSIVE_INDEX) →
  entry_of t i = pte_unused → tree (delete g own) root (delete g ts).
Proof.
  intros [Hr Hdom Hinj Hlen Hnz Hhd Hidx Hent Hrig Hback] Hg Htg Hun Hf Ht Hi Hte.
  assert (∀ h q, delete g own !! h = Some q → h ≠ g ∧ own !! h = Some q) as Hdo.
  { intros h q. rewrite lookup_delete_Some. naive_solver. }
  assert (∀ h q, delete g ts !! h = Some q → h ≠ g ∧ ts !! h = Some q) as Hdt.
  { intros h q. rewrite lookup_delete_Some. naive_solver. }
  split.
  - rewrite lookup_delete_ne; [done|]. intros <-. rewrite Hg in Hr. by destruct p.
  - intros h. destruct (decide (h = g)) as [->|]; [rewrite !lookup_delete_eq; done|by rewrite !lookup_delete_ne].
  - intros h h' q [_ ?]%Hdo [_ ?]%Hdo. by eapply Hinj.
  - intros h q [_ ?]%Hdo. by eapply Hlen.
  - intros h q [_ ?]%Hdo. by eapply Hnz.
  - intros h j q [_ ?]%Hdo. by eapply Hhd.
  - intros h q th j [_ ?]%Hdo [_ ?]%Hdt. by eapply Hidx.
  - intros h q th j [? Ho]%Hdo [_ Hth]%Hdt Hj. destruct (Hent h q th j Ho Hth Hj) as [->|(?&?&Hc)]; [by left|].
    destruct (decide (entry_of th j = pte_unused)) as [->|Hne]; [by left|].
    right. split_and!; [done..|]. intros Hl. destruct (Hc Hl) as (Hco&?&?). split_and!; [|done..].
    rewrite lookup_delete_ne; [done|]. intros Eg. rewrite <-Eg, Hg in Hco. injection Hco as [-> ->]%app_inj_tail.
    rewrite (Hinj h f q Ho Hf) in Hth. congruence.
  - intros h q th j c tc k [_ ?]%Hdo [_ ?]%Hdt ? [_ ?]%Hdo [_ ?]%Hdt. by apply (Hrig h q th j c tc k).
  - intros c q j [Hcg Hc]%Hdo _. destruct (Hback c q j Hc) as (f'&t'&Hf'&Ht'&?&Hne&?).
    { intros [= E]. rewrite <-E in Hc. by apply Hcg, (Hinj c g (p ++ [i])). }
    exists f', t'. rewrite !lookup_delete_ne; [done|intros <-..]; rewrite Htg in Ht'; injection Ht' as <-; by apply Hne.
Qed.

(** ** How the pages change *)
Lemma leaf_at_set own (ts : gmap Z Table) f p t i e va e' k : (∀ g, own !! g = Some p → g = f) →
  own !! f = Some p → ts !! f = Some t →
  leaf_at own (alter (<[i := e]>) f ts) va e' k ↔
    if decide (path_to va k = p ∧ index_at va k = i)
    then e' = e ∧ e ≠ pte_unused ∧ is_leaf p e = true ∧ (k <= 3)%nat
    else leaf_at own ts va e' k.
Proof.
  intros Hinj Hf Ht. unfold leaf_at. destruct (decide _) as [[Hp Hi]|Hn].
  - split.
    + intros (g&tg&Hg&Htg&He&Hne&Hl&Hk). rewrite Hp in Hg, Hl. apply Hinj in Hg as ->.
      rewrite (lookup_set_entry ts f t), decide_True in Htg by done. injection Htg as <-.
      rewrite entry_of_insert, decide_True in He by done. by subst.
    + intros (->&Hne&Hl&Hk). exists f, (<[i := e]> t). rewrite (lookup_set_entry ts f t), decide_True by done.
      rewrite Hp, entry_of_insert, decide_True by done. done.
  - split; intros (g&tg&Hg&Htg&He&Hne&Hl&Hk).
    + rewrite (lookup_set_entry ts f t) in Htg by done. destruct (decide (g = f)) as [->|]; [|by exists g, tg].
      injection Htg as <-. exists f, t. rewrite entry_of_insert, decide_False in He; [done|]. intros Hi. apply Hn. split; congruence.
    + destruct (decide (g = f)) as [->|]; [|exists g, tg; by rewrite (lookup_set_entry ts f t), decide_False by done].
      exists f, (<[i := e]> t). rewrite (lookup_set_entry ts f t), decide_True by done.
      rewrite entry_of_insert, decide_False; [by simplify_eq|]. intros Hi. apply Hn. split; congruence.
Qed.

Lemma leaf_at_new own (ts : gmap Z Table) g q va e k : own !! g = None → ts !! g = None →
  leaf_at (<[g := q]> own) (<[g := ∅]> ts) va e k ↔ leaf_at own ts va e k.
Proof.
  intros Ho Ht. split; intros (f&t&Hf&Htf&He&Hne&Hl&Hk).
  - destruct (decide (f = g)) as [->|].
    + rewrite lookup_insert_eq in Htf. injection Htf as <-. by subst e.
    + rewrite lookup_insert_ne in Hf by done. rewrite lookup_insert_ne in Htf by done. by exists f, t.
  - exists f, t. rewrite !lookup_insert_ne by (intros ->; congruence). done.
Qed.

Lemma leaf_at_remove own (ts : gmap Z Table) g tg va e k : ts !! g = Some tg → (∀ j, entry_of tg j = pte_unused) →
  leaf_at (delete g own) (delete g ts) va e k ↔ leaf_at own ts va e k.
Proof.
  intros Ht Hun. split; intros (f&t&Hf&Htf&He&Hne&Hl&Hk).
  - apply lookup_delete_Some in Hf as [_ Hf]. apply lookup_delete_Some in Htf as [_ Htf]. by exists f, t.
  - exists f, t. rewrite !lookup_delete_ne; [done|intros <-..]; rewrite Ht in Htf; injection Htf as <-; by rewrite Hun in He.
Qed.
