(* ===== verification/Paging.v ===== *)
(** * Mapping and unmapping as updates of a map
    ([panda-kernel/src/memory/paging.rs])

    An address space is a tree of tables the allocator has handed out.  Each
    operation of the kernel on it keeps the tree, and changes what the
    processor sees at the pages it names and nowhere else. *)

From S2P Require Import Prelude Effects BlockDevice PageTable PageTableProof.

Definition level_at (n : nat) : PageTableLevel :=
  match n with 0 => LOne | 1 => LTwo | 2 => LThree | _ => LFour end%nat.

Lemma level_at_num n : (n <= 3)%nat → level_num (level_at n) = n.
Proof. destruct n as [|[|[|[|]]]]; simpl; lia. Qed.
Lemma level_at_next n : (S n <= 3)%nat → next_lower_level (level_at (S n)) = Some (level_at n).
Proof. destruct n as [|[|[|]]]; simpl; intros; try lia; done. Qed.
Lemma level_at_inj n m : (n <= 3)%nat → (m <= 3)%nat → level_at n = level_at m ↔ n = m.
Proof. intros Hn Hm. split; [|by intros ->]. intros E%(f_equal level_num). by rewrite !level_at_num in E. Qed.

Lemma fl_contains_grants a b : fl_contains a (fl_no_nx b) = true → grants a b.
Proof. destruct a as [[] [] [] [] []], b as [[] [] [] [] []]; by unfold grants. Qed.

Lemma grants_or a b c : grants a b → grants a c → grants a (fl_no_nx (fl_or (fl_or b c) PRESENT)).
Proof. intros [? ?] [? ?]. split; simpl; rewrite !orb_true_iff; intuition done. Qed.

Lemma or_grants a b c : grants a c → grants (fl_no_nx (fl_or (fl_or a b) PRESENT)) c.
Proof. intros [? ?]. split; simpl; intros; rewrite !orb_true_iff; auto. Qed.

Lemma or_contains a b : fl_contains (fl_no_nx (fl_or (fl_or a b) PRESENT)) (fl_no_nx b) = true.
Proof. by destruct a as [[] [] [] [] []], b as [[] [] [] [] []]. Qed.

Lemma follow_snoc ts f p i : follow ts f (p ++ [i]) = follow ts f p ≫= λ g, follow ts g [i].
Proof.
  revert f. induction p as [|j p IH]; intros f; [done|]. cbn [app follow]. destruct (ts !! f) as [t|]; [|done]. simpl.
  destruct (_ && _); [apply IH|done].
Qed.

(** Every owned table is at the end of its path. *)
Lemma follow_owned own root ts va n : ∀ f, tree own root ts → ordinary va → (n <= 3)%nat →
  own !! f = Some (path_to va n) → follow ts root (path_to va n) = Some f.
Proof.
  intros f Htr Ho Hn. replace n with (3 - (3 - n))%nat by lia. assert (3 - n <= 3)%nat as Hd by lia. revert f Hd.
  induction (3 - n)%nat as [|d IH]; intros f Hd Hf.
  - rewrite path_to_3 in *. by rewrite (tr_inj _ _ _ _ Htr _ _ _ Hf (tr_root _ _ _ _ Htr)).
  - assert (path_to va (3 - S d) = path_to va (3 - d) ++ [index_at va (3 - d)]) as Hpath.
    { replace (3 - d)%nat with (S (3 - S d)) by lia. apply path_to_step. lia. }
    rewrite Hpath in Hf |- *. destruct (tr_back _ _ _ _ Htr f _ _ Hf) as (g&t&Hg&Ht&Ha&Hne&Hl); [done|].
    rewrite follow_snoc, (IH g) by (done || lia). simpl. rewrite Ht. simpl.
    destruct (entry_present own root ts Htr va g (3 - d) t) as (Hp&_&Hc); try done; [lia|].
    destruct (Hc Hl) as (_&_&_&Hh). by rewrite Hp, Hh, Ha.
Qed.

(** A path is owned with every shorter one. *)
Lemma owned_above own root ts va n k : ∀ f, tree own root ts → (n <= k <= 3)%nat →
  own !! f = Some (path_to va n) → ∃ g t, own !! g = Some (path_to va k) ∧ ts !! g = Some t.
Proof.
  intros f Htr Hnk. replace k with (n + (k - n))%nat by lia. assert (n + (k - n) <= 3)%nat as Hd by lia. revert Hd.
  induction (k - n)%nat as [|d IH]; intros Hd Hf.
  - rewrite Nat.add_0_r. destruct (own_table None own root ts Htr f _ Hf) as [t Ht]. by exists f, t.
  - destruct IH as (g&t&Hg&Ht); [lia|done|]. rewrite path_to_step in Hg by lia.
    destruct (tr_back _ _ _ _ Htr g _ _ Hg) as (h&th&Hh&Hth&_); [done|].
    replace (n + S d)%nat with (S (n + d)) by lia. by exists h, th.
Qed.

(** The entry that leads to an owned table is set and not a leaf. *)
Lemma owned_link own root ts va n f g t : tree own root ts → ordinary va → (S n <= 3)%nat →
  own !! f = Some (path_to va n) → own !! g = Some (path_to va (S n)) → ts !! g = Some t →
  let e := entry_of t (index_at va (S n)) in
  e_addr e = f ∧ e ≠ pte_unused ∧ fl_present (e_flags e) = true ∧ fl_huge (e_flags e) = false.
Proof.
  intros Htr Ho Hn Hf Hg Ht e. rewrite path_to_step in Hf by lia.
  destruct (tr_back _ _ _ _ Htr f _ _ Hf) as (h&th&Hh&Hth&Ha&Hne&Hl); [done|].
  rewrite (tr_inj _ _ _ _ Htr _ _ _ Hh Hg) in Hth. rewrite Ht in Hth. injection Hth as <-.
  destruct (entry_present own root ts Htr va g (S n) t) as (Hp&_&Hc); try done. destruct (Hc Hl) as (_&_&_&?). done.
Qed.

Lemma tree_close own root ts p i f t c : tree_but (Some (p ++ [i])) own root ts → own !! f = Some p → ts !! f = Some t →
  own !! c = Some (p ++ [i]) → e_addr (entry_of t i) = c → entry_of t i ≠ pte_unused → is_leaf p (entry_of t i) = false →
  tree own root ts.
Proof.
  intros [Hr Hdom Hinj Hlen Hnz Hhd Hidx Hent Hrig Hback] Hf Ht Hc Ha Hne Hl. split; try done.
  intros c' q j Hc' _. destruct (decide (q ++ [j] = p ++ [i])) as [E|]; [|by apply Hback; [|congruence]].
  apply app_inj_tail in E as [-> ->]. exists f, t. split_and!; try done. rewrite Ha. by eapply Hinj.
Qed.

(** ** Address spaces *)
Section spaces.
Context {A : Type} `{FrameAllocatorLaws A}.
Implicit Types vm : VM A.
Implicit Types own : gmap Z (list Z).

(** [own] are the frames of its tables; the frames of data and the frames
    [rest] of others are the remaining frames in use. *)
Record space own (rest : gset Z) vm : Prop := {
  sp_tree : tree own (vm_root vm) (vm_tables vm);
  sp_rec : rec_ok vm;
  sp_used : fa_used (vm_alloc vm) = dom own ∪ dom (vm_data vm) ∪ rest;
  sp_data : dom own ## dom (vm_data vm);
  sp_rest : rest ## dom own ∪ dom (vm_data vm);
}.

(** The only way an operation does not return: the heap has no frame left. *)
Definition out_of_memory (_ : ()) vm : Prop := fa_alloc (vm_alloc vm) = None.

(** The leaf an address leads to. *)
Definition leaf vm (va : Z) : option (PTE * nat) := leaf_walk (vm_tables vm) 3 (vm_root vm) va.

Section ops.
Context (own : gmap Z (list Z)) (rest : gset Z) (vm : VM A).
Hypothesis Hsp : space own rest vm.

Lemma space_tree : tree own (vm_root vm) (vm_tables vm).
Proof using Hsp. apply Hsp. Qed.

(** The processor grants an access exactly the rights of the leaf. *)
Lemma mmu_leaf va : ordinary va →
  mmu vm va = (λ '(e, k), (e_addr e, va mod 2 ^ (12 + 9 * Z.of_nat k), leaf_rights (e_flags e))) <$> leaf vm va.
Proof using Hsp.
  intros Ho. unfold mmu, leaf. eapply mmu_leaf_walk; [apply space_tree|done..| | |done].
  - rewrite path_to_3. apply (tr_root _ _ _ _ space_tree).
  - by intros.
Qed.

Lemma leaf_iff va e k : ordinary va → leaf vm va = Some (e, k) ↔ leaf_at own (vm_tables vm) va e k.
Proof using Hsp. apply leaf_walk_iff, space_tree. Qed.

Lemma table_ok va n f : ordinary va → (n <= 3)%nat → own !! f = Some (path_to va n) →
  table_for_addr va (level_at n) vm = (vm, Ok f).
Proof using Hsp.
  intros Ho Hn Hf. apply table_for_addr_ok; [apply Hsp| |].
  - unfold prefix_len. rewrite level_at_num by done. by eapply follow_owned, Hf; [apply space_tree|..].
  - apply (tr_dom _ _ _ _ space_tree). by eexists.
Qed.

Lemma read_ok f t i : vm_tables vm !! f = Some t → read_entry_at f i vm = (vm, Ok (entry_of t i)).
Proof. intros Ht. unfold read_entry_at, gets. by rewrite Ht. Qed.

Lemma index_level va n : (n <= 3)%nat → page_table_index va (level_at n) = index_at va n.
Proof. intros Hn. unfold page_table_index. by rewrite level_at_num. Qed.

Lemma space_table va n f : own !! f = Some (path_to va n) → ∃ t, vm_tables vm !! f = Some t.
Proof using Hsp. intros Hf. eapply own_table; [apply space_tree|done]. Qed.

Lemma huge_level va n f t : ordinary va → (S n <= 3)%nat → own !! f = Some (path_to va (S n)) → vm_tables vm !! f = Some t →
  fl_huge (e_flags (entry_of t (index_at va (S n)))) = true →
  fl_present (e_flags (entry_of t (index_at va (S n)))) = true → n = 0%nat.
Proof using Hsp.
  intros Ho Hn Hf Ht Hh Hp.
  destruct (entry_present _ _ _ space_tree va f (S n) t) as (_&_&Hc); try done; [intros E; by rewrite E in Hp|].
  destruct (decide (n = 0%nat)); [done|]. destruct Hc as (_&_&_&?); [|congruence].
  rewrite is_leaf_height by done. rewrite !bool_decide_eq_false_2 by lia. done.
Qed.

Lemma is_mapped_from_ok va n : ∀ f, ordinary va → (n <= 3)%nat → own !! f = Some (path_to va n) →
  is_mapped_from (S n) va (level_at n) vm = (vm, Ok (bool_decide (is_Some (leaf_walk (vm_tables vm) n f va)))).
Proof using Hsp.
  induction n as [|n IH]; intros f Ho Hn Hf; destruct (space_table va _ f Hf) as [t Ht]; cbn [is_mapped_from];
    rewrite (bind_run _ _ vm vm f) by (by apply table_ok); rewrite index_level by done;
    rewrite (bind_run _ _ vm vm _ (read_ok f t _ Ht)); cbn [leaf_walk]; rewrite Ht; cbn [mbind option_bind];
    destruct (fl_present _) eqn:Hp; try done; cbn [negb].
  rewrite level_at_next by lia. destruct (fl_huge _) eqn:Hh.
  - rewrite (huge_level va n f t Ho Hn Hf Ht Hh Hp). done.
  - rewrite andb_false_r. apply IH; [done|lia|]. eapply child_owned; [apply space_tree|done..].
Qed.

Lemma root_path va : own !! vm_root vm = Some (path_to va 3).
Proof using Hsp. rewrite path_to_3. apply (tr_root _ _ _ _ space_tree). Qed.

Lemma is_mapped_ok va : ordinary va → is_mapped va vm = (vm, Ok (bool_decide (is_Some (leaf vm va)))).
Proof using Hsp. intros Ho. apply (is_mapped_from_ok va 3); [done..|apply root_path]. Qed.

(** The tables of [va] exist down to height [n], and the entries on the way
    allow [flags]. *)
Definition ready va (flags : Flags) (n : nat) : Prop :=
  (∃ f, own !! f = Some (path_to va n)) ∧
  ∀ k g t, (n < k <= 3)%nat → own !! g = Some (path_to va k) → vm_tables vm !! g = Some t →
    fl_contains (e_flags (entry_of t (index_at va k))) (fl_no_nx flags) = true.

(** Why [leaf_page_table_entry] stops at the entry [e] of height [n]. *)
Definition stops (flags : Flags) (n : nat) (e : PTE) : Prop :=
  n = 0%nat ∨ e = pte_unused ∨ (n = 1%nat ∧ fl_huge (e_flags e) = true) ∨
  fl_contains (e_flags e) (fl_no_nx flags) = false.

Lemma entry_zero va f n t : ordinary va → (n <= 3)%nat → own !! f = Some (path_to va n) → vm_tables vm !! f = Some t →
  e_addr (entry_of t (index_at va n)) = 0 → entry_of t (index_at va n) = pte_unused.
Proof using Hsp.
  intros Ho Hn Hf Ht Ha. destruct (decide (entry_of t (index_at va n) = pte_unused)) as [|Hne]; [done|].
  by destruct (entry_present _ _ _ space_tree va f n t) as (_&?&_).
Qed.

(** One turn of the loop of [leaf_page_table_entry]. *)
Lemma leaf_from_turn va flags k f t : ordinary va → (k <= 3)%nat → own !! f = Some (path_to va k) →
  vm_tables vm !! f = Some t → let e := entry_of t (index_at va k) in
  (stops flags k e ∧ leaf_from (S k) va flags (level_at k) vm = (vm, Ok (f, index_at va k, level_at k))) ∨
  (∃ k', k = S k' ∧ own !! e_addr e = Some (path_to va k') ∧ fl_contains (e_flags e) (fl_no_nx flags) = true
     ∧ leaf_from (S k) va flags (level_at k) vm = leaf_from k va flags (level_at k') vm).
Proof using Hsp.
  intros Ho Hk Hf Ht e. unfold stops. cbn [leaf_from]. rewrite (bind_run _ _ vm vm f) by (by apply table_ok).
  rewrite index_level by done. rewrite (bind_run _ _ vm vm _ (read_ok f t _ Ht)). fold e.
  destruct (decide (e_addr e = 0)) as [Ha|Ha]; [left; split; [|done]; right; left; by eapply entry_zero|].
  destruct k as [|k]; [by auto|]. rewrite level_at_next by lia.
  assert (bool_decide (level_at (S k) = LTwo) = bool_decide (S k = 1%nat)) as ->.
  { apply bool_decide_ext. apply (level_at_inj (S k) 1); lia. }
  destruct (_ && _) eqn:Hh.
  { apply andb_prop in Hh as [?%bool_decide_eq_true Hh]. left. split; [|done]. right. right. by left. }
  destruct (fl_contains _ _) eqn:Hfl; [|left; split; [|done]; auto]. right. exists k. split_and!; [done| |done..].
  destruct (entry_present _ _ _ space_tree va f (S k) t) as (_&_&Hc); try done; [intros E; by unfold e in Ha; rewrite E in Ha|].
  destruct Hc as (k'&[= <-]&?&_); [|done]. rewrite is_leaf_height by done. fold e. rewrite Hh. done.
Qed.

Lemma leaf_from_ok va flags k : ∀ n f, ordinary va → (n <= k)%nat → (k <= 3)%nat → own !! f = Some (path_to va k) →
  ready va flags n → ∃ m g t, (m <= n)%nat ∧ own !! g = Some (path_to va m) ∧ vm_tables vm !! g = Some t
    ∧ ready va flags m ∧ stops flags m (entry_of t (index_at va m))
    ∧ leaf_from (S k) va flags (level_at k) vm = (vm, Ok (g, index_at va m, level_at m)).
Proof using Hsp.
  induction k as [|k IH]; intros n f Ho Hnk Hk Hf Hr; destruct (space_table va _ f Hf) as [t Ht];
    destruct (leaf_from_turn va flags _ f t Ho Hk Hf Ht) as [[Hs E]|(k'&[= <-]&Hc&Hfl&E)]; rewrite E.
  - exists 0%nat, f, t. split_and!; try done; [lia|]. by replace 0%nat with n by lia.
  - destruct (decide (n = S k)) as [->|Hne]; [by exists (S k), f, t|]. exfalso. destruct Hr as [[h Hh] Hr].
    destruct (owned_above _ _ _ va n k h space_tree) as (c&tc&Hc&_); [lia|done|].
    destruct (owned_link _ _ _ va k c f t space_tree Ho Hk Hc Hf Ht) as (_&Hu&_&Hhu).
    specialize (Hr (S k) f t). unfold stops in Hs. rewrite Hr in Hs by (done || lia). destruct Hs as [?|[?|[[_ ?]|?]]]; congruence.
  - assert (ready va flags (min n k)) as Hr'.
    { destruct (decide (n = S k)) as [->|]; [|by replace (min n k) with n by lia]. replace (min (S k) k) with k by lia.
      split; [by eexists|]. intros j g tg Hj Hg Htg. destruct (decide (j = S k)) as [->|]; [|apply (proj2 Hr j g tg); (done || lia)].
      rewrite (tr_inj _ _ _ _ space_tree _ _ _ Hg Hf), Ht in Htg. by injection Htg as <-. }
    destruct (IH (min n k) _ Ho ltac:(lia) ltac:(lia) Hc Hr') as (m&g&tg&Hm&Hrest). exists m, g, tg. split; [lia|done].
Qed.
End ops.

(** *** Changing an entry *)
Definition with_entry vm (f i : Z) (e : PTE) : VM A := set_tables vm (alter (<[i := e]>) f (vm_tables vm)).

Lemma rec_ok_set vm f i e : rec_ok vm → (f = vm_root vm → i ≠ RECURSIVE_INDEX) → rec_ok (with_entry vm f i e).
Proof.
  intros (t&Ht&Hrec) Hi. unfold rec_ok, with_entry. simpl. destruct (decide (f = vm_root vm)) as [->|Hne].
  - exists (<[i := e]> t). rewrite lookup_alter_eq, Ht, entry_of_insert, decide_False; [done|]. intros E. by apply Hi.
  - exists t. by rewrite lookup_alter_ne.
Qed.

Lemma space_set own rest vm va n f t e : space own rest vm → ordinary va → (n <= 3)%nat →
  own !! f = Some (path_to va n) → vm_tables vm !! f = Some t →
  may_store None own (vm_tables vm) (path_to va n) (index_at va n) e →
  space own rest (with_entry vm f (index_at va n) e).
Proof.
  intros [Htr Hrec Hu Hd Hr] Ho Hn Hf Ht Hms. pose proof (not_recursive va n Hn Ho) as Hi. split; try done.
  - eapply tree_set_entry; [done..|apply index_at_range|done].
  - apply rec_ok_set; [done|]. intros ->. apply Hi. pose proof (tr_root _ _ _ _ Htr). congruence.
Qed.

Lemma leaf_at_with own rest vm va n f t e va' e' k : space own rest vm → (n <= 3)%nat →
  own !! f = Some (path_to va n) → vm_tables vm !! f = Some t →
  leaf_at own (vm_tables (with_entry vm f (index_at va n) e)) va' e' k ↔
    if decide (path_to va' k = path_to va n ∧ index_at va' k = index_at va n)
    then e' = e ∧ e ≠ pte_unused ∧ is_leaf (path_to va n) e = true ∧ (k <= 3)%nat
    else leaf_at own (vm_tables vm) va' e' k.
Proof.
  intros Hsp Hn Hf Ht. apply leaf_at_set with t; [|done..]. intros g Hg.
  by apply (tr_inj _ _ _ _ (sp_tree _ _ _ Hsp) g f (path_to va n)).
Qed.

(** Entries that are no leaves do not show. *)
Lemma leaf_at_inner own rest vm va n f t e va' e' k : space own rest vm → (n <= 3)%nat →
  own !! f = Some (path_to va n) → vm_tables vm !! f = Some t →
  (entry_of t (index_at va n) = pte_unused ∨ is_leaf (path_to va n) (entry_of t (index_at va n)) = false) →
  is_leaf (path_to va n) e = false →
  leaf_at own (vm_tables (with_entry vm f (index_at va n) e)) va' e' k ↔ leaf_at own (vm_tables vm) va' e' k.
Proof.
  intros Hsp Hn Hf Ht Hold Hnew. rewrite (leaf_at_with own rest vm va n f t) by done.
  destruct (decide _) as [[Hp Hi]|]; [|done]. rewrite Hnew. split; [by intros (_&_&?&_)|].
  intros (g&tg&Hg&Htg&He&Hne&Hl&_). rewrite Hp in Hg, Hl.
  rewrite (tr_inj _ _ _ _ (sp_tree _ _ _ Hsp) _ _ _ Hg Hf), Ht in Htg. injection Htg as <-.
  rewrite Hi in He. destruct Hold as [?|Hold]; [congruence|]. rewrite He in Hold. congruence.
Qed.

Lemma path_to_snoc va n p0 i0 : (n <= 3)%nat → path_to va n = p0 ++ [i0] →
  (n < 3)%nat ∧ p0 = path_to va (S n) ∧ i0 = index_at va (S n).
Proof.
  intros Hn E. destruct (decide (n = 3%nat)) as [->|].
  - rewrite path_to_3 in E. by destruct p0.
  - rewrite path_to_step in E by lia. apply app_inj_tail in E as [<- <-]. split; [lia|done].
Qed.

(** The entry above height [n] allows [flags]. *)
Definition above own vm va (flags : Flags) (n : nat) : Prop := ∀ g t, (n < 3)%nat →
  own !! g = Some (path_to va (S n)) → vm_tables vm !! g = Some t →
  grants (e_flags (entry_of t (index_at va (S n)))) flags.

Lemma ready_above own vm va flags n : (n <= 3)%nat → ready own vm va flags n → above own vm va flags n.
Proof. intros Hn [_ Hr] g t Hn3 Hg Ht. eapply fl_contains_grants, Hr; [|done..]. lia. Qed.

(** An intermediate entry gains rights. *)
Lemma space_upgrade own rest vm va n f t flags : space own rest vm → ordinary va → (S n <= 3)%nat →
  own !! f = Some (path_to va (S n)) → vm_tables vm !! f = Some t → above own vm va flags (S n) → fl_huge flags = false →
  let e := entry_of t (index_at va (S n)) in let e' := mkPte (e_addr e) (fl_no_nx (fl_or (fl_or (e_flags e) flags) PRESENT)) in
  e ≠ pte_unused → is_leaf (path_to va (S n)) e = false →
  space own rest (with_entry vm f (index_at va (S n)) e') ∧ is_leaf (path_to va (S n)) e' = false
  ∧ own !! e_addr e = Some (path_to va n).
Proof.
  intros Hsp Ho Hn Hf Ht Hab Hfh e e' Hne Hl. pose proof (sp_tree _ _ _ Hsp) as Htr.
  destruct (entry_present _ _ _ Htr va f (S n) t) as (Hp&Ha&Hc); try done.
  destruct (Hc Hl) as (?&[= <-]&Hown&Hh). fold e in Hp, Ha, Hown, Hh.
  assert (is_leaf (path_to va (S n)) e' = false) as Hl'.
  { rewrite is_leaf_height by done. simpl. by rewrite Hh, Hfh, andb_false_r. }
  split; [|done]. apply space_set with t; try done. rewrite (path_to_step va n) in Hown by lia.
  assert (e' ≠ pte_unused) as Hne' by (intros E; apply (f_equal e_addr) in E; done). split_and!.
  - right. split_and!; [by simpl; rewrite orb_true_r|done|]. intros _. by simpl; rewrite Hh, Hfh.
  - intros p0 i0 f0 t0 Hpp Hf0 Ht0 _. apply path_to_snoc in Hpp as (Hn3&->&->); [|done].
    apply grants_or; [|by eapply Hab]. eapply (tr_rights _ _ _ _ Htr f0 _ t0 _ f t); try done; [by apply not_recursive|].
    by rewrite <-path_to_step by lia.
  - intros c tc j Hco Htc Hj. apply or_grants.
    eapply (tr_rights _ _ _ _ Htr f _ t _ c tc j); try done. by apply not_recursive.
  - intros c Hco _. split; [|done]. by apply (tr_inj _ _ _ _ Htr _ _ _ Hown).
Qed.

(** A new table below an unused entry. *)
Definition table_entry (g : Z) (flags : Flags) : PTE := mkPte g (fl_no_nx (fl_or (fl_or fl_none flags) PRESENT)).

Lemma tree_linked own root ts va n f t flags g : tree own root ts → ordinary va → (S n <= 3)%nat →
  own !! f = Some (path_to va (S n)) → ts !! f = Some t → fl_huge flags = false → 0 < g → f ≠ g →
  tree_but (Some (path_to va n)) (<[g := path_to va n]> own) root (<[g := ∅]> ts) →
  (∀ f0 t0, (S n < 3)%nat → own !! f0 = Some (path_to va (S (S n))) → ts !! f0 = Some t0 →
     grants (e_flags (entry_of t0 (index_at va (S (S n))))) flags) →
  may_store (Some (path_to va n)) (<[g := path_to va n]> own) (<[g := ∅]> ts) (path_to va (S n)) (index_at va (S n))
    (table_entry g flags).
Proof.
  intros Htr Ho Hn Hf Ht Hfh Hpos Hfg Htb Hab. unfold may_store. rewrite <-path_to_step by lia. split_and!.
  - right. split_and!; [by simpl; rewrite orb_true_r|simpl; lia|]. intros _.
    simpl. by rewrite lookup_insert_eq, Hfh, <-path_to_step by lia.
  - intros p0 i0 f0 t0 Hpp Hf0 Ht0 _. apply path_to_snoc in Hpp as (Hn3&->&->); [|done].
    assert (f0 ≠ g) as Hf0g.
    { intros ->. rewrite lookup_insert_eq in Hf0. injection Hf0 as E%(f_equal length). rewrite !path_to_length in E by lia. lia. }
    rewrite lookup_insert_ne in Hf0 by done. rewrite lookup_insert_ne in Ht0 by done.
    specialize (Hab f0 t0 Hn3 Hf0 Ht0). by apply (grants_or _ fl_none flags); [|done].
  - intros c tc j Hc Htc. assert (c = g) as ->; [|rewrite lookup_insert_eq in Htc; by injection Htc as <-].
    eapply (tr_inj _ _ _ _ Htb); [done|]. by rewrite lookup_insert_eq.
  - by intros c Hc.
Qed.

Lemma tree_grow own root ts va n f t flags g : tree own root ts → ordinary va → (S n <= 3)%nat →
  own !! f = Some (path_to va (S n)) → ts !! f = Some t → entry_of t (index_at va (S n)) = pte_unused →
  fl_huge flags = false → 0 < g → own !! g = None →
  (∀ f0 t0, (S n < 3)%nat → own !! f0 = Some (path_to va (S (S n))) → ts !! f0 = Some t0 →
     grants (e_flags (entry_of t0 (index_at va (S (S n))))) flags) →
  tree (<[g := path_to va n]> own) root (alter (<[index_at va (S n) := table_entry g flags]>) f (<[g := ∅]> ts)).
Proof.
  intros Htr Ho Hn Hf Ht Hun Hfh Hpos Hg Hab. assert (f ≠ g) as Hfg by congruence.
  pose proof (not_recursive va (S n) Hn Ho) as Hi.
  assert (tree_but (Some (path_to va n)) (<[g := path_to va n]> own) root (<[g := ∅]> ts)) as Htb.
  { rewrite (path_to_step va n) by lia. apply tree_new_table with f; try done; [lia|rewrite path_to_length; lia|].
    intros t' Ht'. congruence. }
  pose proof (tree_linked own root ts va n f t flags g Htr Ho Hn Hf Ht Hfh Hpos Hfg Htb Hab) as Hms.
  eapply (tree_close _ _ _ (path_to va (S n)) (index_at va (S n)) f (<[index_at va (S n) := table_entry g flags]> t) g);
    rewrite ?entry_of_insert, ?decide_True, <-?path_to_step, ?lookup_insert_eq by (done || lia).
  - eapply tree_set_entry; [done| | |done|apply index_at_range|done]; by rewrite lookup_insert_ne.
  - by rewrite lookup_insert_ne.
  - by rewrite lookup_alter_eq, lookup_insert_ne, Ht by done.
  - done.
  - done.
  - intros E%(f_equal e_addr). simpl in E. lia.
  - rewrite is_leaf_height by done. simpl. by rewrite Hfh, andb_false_r.
Qed.

Definition with_frame vm (g : Z) (a : A) : VM A := mkVm (<[g := ∅]> (vm_tables vm)) (vm_root vm) (vm_data vm) a.

Lemma space_grow own rest vm va n f t flags g a : space own rest vm → ordinary va → (S n <= 3)%nat →
  own !! f = Some (path_to va (S n)) → vm_tables vm !! f = Some t → above own vm va flags (S n) → fl_huge flags = false →
  entry_of t (index_at va (S n)) = pte_unused → fa_alloc (vm_alloc vm) = Some (g, a) →
  own !! g = None ∧ vm_tables vm !! g = None ∧
  space (<[g := path_to va n]> own) rest (with_entry (with_frame vm g a) f (index_at va (S n)) (table_entry g flags)).
Proof.
  intros Hsp Ho Hn Hf Ht Hab Hfh Hun Hal. pose proof Hsp as [Htr Hrec Hu Hd Hr].
  destruct (fa_alloc_used _ _ _ Hal) as (Hnew&Hu'&Hpos&_).
  assert (own !! g = None) as Hg by (apply not_elem_of_dom; set_solver).
  assert (vm_tables vm !! g = None) as Htg.
  { apply eq_None_not_Some. rewrite (tr_dom _ _ _ _ Htr), Hg. by intros [??]. }
  split_and!; [done..|]. split; simpl.
  - by eapply tree_grow.
  - apply (rec_ok_set (with_frame vm g a)).
    + destruct Hrec as (t4&Ht4&Hrest). exists t4. simpl. rewrite lookup_insert_ne by congruence. done.
    + simpl. intros ->. apply (not_recursive va (S n)); [done..|]. pose proof (tr_root _ _ _ _ Htr). congruence.
  - rewrite Hu', Hu, dom_insert_L. set_solver.
  - rewrite dom_insert_L. set_solver.
  - rewrite dom_insert_L. set_solver.
Qed.

(** *** [page_table_entry] *)
Lemma path_to_inj va va' k k' : (k <= 3)%nat → (k' <= 3)%nat → path_to va k = path_to va' k' → k = k'.
Proof. intros Hk Hk' E%(f_equal length). rewrite !path_to_length in E by done. lia. Qed.

(** Nobody owns a table of [va] below height [n]. *)
Definition below own va (n : nat) : Prop := ∀ m f, (m < n)%nat → own !! f ≠ Some (path_to va m).

(** Both spaces have the same pages. *)
Definition same_pages own vm own' vm' : Prop :=
  ∀ va e k, leaf_at own' (vm_tables vm') va e k ↔ leaf_at own (vm_tables vm) va e k.

(** [vm'] has all tables of [vm], and perhaps more. *)
Record extends own rest vm own' vm' : Prop := {
  ex_space : space own' rest vm';
  ex_own : own ⊆ own';
  ex_root : vm_root vm' = vm_root vm;
  ex_data : vm_data vm' = vm_data vm;
  ex_pages : same_pages own vm own' vm';
}.

Lemma extends_trans own rest vm own1 vm1 own2 vm2 :
  extends own rest vm own1 vm1 → extends own1 rest vm1 own2 vm2 → extends own rest vm own2 vm2.
Proof.
  intros [? ? Hr1 Hd1 Hp1] [? ? Hr2 Hd2 Hp2]. split; [done|by etrans|by rewrite Hr2|by rewrite Hd2|].
  intros va e k. etrans; [apply Hp2|apply Hp1].
Qed.

(** After the entry of height [S m] allows [flags] and leads to a table. *)
Lemma ready_step own own1 rest vm vm1 va flags m f c : space own1 rest vm1 → (S m <= 3)%nat →
  ready own vm va flags (S m) → own !! f = Some (path_to va (S m)) → own1 !! f = Some (path_to va (S m)) →
  own1 !! c = Some (path_to va m) →
  (∀ t, vm_tables vm1 !! f = Some t → fl_contains (e_flags (entry_of t (index_at va (S m)))) (fl_no_nx flags) = true) →
  (∀ g k, (m < k <= 3)%nat → own1 !! g = Some (path_to va k) → g ≠ f →
     own !! g = Some (path_to va k) ∧ vm_tables vm1 !! g = vm_tables vm !! g) →
  ready own1 vm1 va flags m.
Proof.
  intros Hsp Hm [_ Hr] Hf Hf1 Hc Ht Hsame. split; [by exists c|]. intros k g t Hk Hg Htg.
  destruct (decide (g = f)) as [->|Hne].
  - rewrite Hf1 in Hg. injection Hg as Hg. apply path_to_inj in Hg as <-; [|lia..]. by apply Ht.
  - destruct (Hsame g k) as [Hg0 Et]; [lia|done..|]. rewrite Et in Htg. apply (Hr k g); try done.
    destruct (decide (k = S m)) as [->|]; [|lia]. exfalso. apply Hne.
    by apply (tr_inj _ _ _ _ (sp_tree _ _ _ Hsp) g f (path_to va (S m))).
Qed.

(** What one turn of [page_table_entry] above the target leaves. *)
Definition turned own rest vm va flags (m : nat) vm' : Prop :=
  ∃ own', extends own rest vm own' vm' ∧ ready own' vm' va flags m
    ∧ (∀ g q, own' !! g = Some q → own !! g = Some q ∨ q = path_to va m).

Lemma grow_pages own rest vm va m f t flags g a : space own rest vm → (S m <= 3)%nat →
  own !! f = Some (path_to va (S m)) → vm_tables vm !! f = Some t → entry_of t (index_at va (S m)) = pte_unused →
  own !! g = None → vm_tables vm !! g = None → fl_huge flags = false →
  same_pages own vm (<[g := path_to va m]> own)
    (with_entry (with_frame vm g a) f (index_at va (S m)) (table_entry g flags)).
Proof.
  intros Hsp Hm Hf Ht He Hg Htg Hfh va' e' k. pose proof (sp_tree _ _ _ Hsp) as Htr. assert (f ≠ g) as Hfg by congruence.
  etrans; [|by apply (leaf_at_new own (vm_tables vm) g (path_to va m))].
  etrans; [apply (leaf_at_set _ (<[g := ∅]> (vm_tables vm)) f (path_to va (S m)) t)|].
  - intros h. destruct (decide (h = g)) as [->|]; [rewrite lookup_insert_eq; intros [= E%path_to_inj]; lia|].
    rewrite lookup_insert_ne by done. intros Hh. by apply (tr_inj _ _ _ _ Htr h f (path_to va (S m))).
  - by rewrite lookup_insert_ne.
  - by rewrite lookup_insert_ne.
  - destruct (decide _) as [[Hp Hi]|]; [|done]. split.
    { intros (_&_&Hlf&_). rewrite is_leaf_height in Hlf by done. simpl in Hlf. by rewrite Hfh, andb_false_r in Hlf. }
    intros Hlf%(leaf_at_new own (vm_tables vm) g (path_to va m)); try done. destruct Hlf as (h&th&Hh&Hth&He'&Hne&_).
    rewrite Hp in Hh. rewrite (tr_inj _ _ _ _ Htr h f _ Hh Hf), Ht in Hth. injection Hth as <-.
    rewrite Hi in He'. congruence.
Qed.

Lemma turn_grow own rest vm va flags m f t g a : space own rest vm → ordinary va → (S m <= 3)%nat →
  own !! f = Some (path_to va (S m)) → vm_tables vm !! f = Some t → ready own vm va flags (S m) → fl_huge flags = false →
  entry_of t (index_at va (S m)) = pte_unused → fa_alloc (vm_alloc vm) = Some (g, a) →
  turned own rest vm va flags m (with_entry (with_frame vm g a) f (index_at va (S m)) (table_entry g flags)).
Proof.
  intros Hsp Ho Hm Hf Ht Hr Hfh He Hal. pose proof (ready_above own vm va flags (S m) Hm Hr) as Hab.
  destruct (space_grow own rest vm va m f t flags g a) as (Hg&Htg&Hsp'); try done. assert (f ≠ g) as Hfg by congruence.
  assert (∀ k h, (k <= 3)%nat → k ≠ m → <[g := path_to va m]> own !! h = Some (path_to va k) →
    h ≠ g ∧ own !! h = Some (path_to va k)) as Hsame.
  { intros k h Hk Hkm. destruct (decide (h = g)) as [->|]; [|by rewrite lookup_insert_ne].
    rewrite lookup_insert_eq. intros [= E%path_to_inj]; lia. }
  exists (<[g := path_to va m]> own). split_and!.
  - split; try done; [by apply insert_subseteq|by eapply grow_pages].
  - eapply (ready_step own _ rest vm _ va flags m f g); try done.
    + by rewrite lookup_insert_ne.
    + by rewrite lookup_insert_eq.
    + simpl. rewrite lookup_alter_eq, lookup_insert_ne, Ht by done. intros ? [= <-].
      rewrite entry_of_insert, decide_True by done. apply or_contains.
    + intros h k Hk Hh Hhf. destruct (Hsame k h) as [? ?]; [lia..|done|]. simpl. by rewrite lookup_alter_ne, lookup_insert_ne.
  - intros h q [[_ <-]|[_ ?]]%lookup_insert_Some; auto.
Qed.

Lemma turn_upgrade own rest vm va flags m f t : space own rest vm → ordinary va → (S m <= 3)%nat →
  own !! f = Some (path_to va (S m)) → vm_tables vm !! f = Some t → ready own vm va flags (S m) → fl_huge flags = false →
  let e := entry_of t (index_at va (S m)) in is_leaf (path_to va (S m)) e = false → e ≠ pte_unused →
  turned own rest vm va flags m
    (with_entry vm f (index_at va (S m)) (mkPte (e_addr e) (fl_no_nx (fl_or (fl_or (e_flags e) flags) PRESENT)))).
Proof.
  intros Hsp Ho Hm Hf Ht Hr Hfh e Hl Hne. pose proof (ready_above own vm va flags (S m) Hm Hr) as Hab.
  destruct (space_upgrade own rest vm va m f t flags) as (Hsp'&Hl'&Hc); try done. fold e in Hsp', Hl', Hc.
  exists own. split_and!; [|eapply (ready_step own own rest vm _ va flags m f); try done|by left].
  - split; try done. intros va' e' k. eapply (leaf_at_inner own rest vm va (S m) f t); try done. by right.
  - simpl. rewrite lookup_alter_eq, Ht. intros ? [= <-]. rewrite entry_of_insert, decide_True by done. apply or_contains.
  - intros h k Hk Hh Hhf. simpl. by rewrite lookup_alter_ne.
Qed.

Lemma entry_turn own rest vm va flags m f t : space own rest vm → ordinary va → (S m <= 3)%nat →
  own !! f = Some (path_to va (S m)) → vm_tables vm !! f = Some t → ready own vm va flags (S m) → fl_huge flags = false →
  let e := entry_of t (index_at va (S m)) in is_leaf (path_to va (S m)) e = false →
  let ef := fl_no_nx (fl_or (fl_or (e_flags e) flags) PRESENT) in
  spec (if decide (e_addr e = 0)
        then g ← allocate_frame_raw; write_entry_at f (index_at va (S m)) (mkPte g ef)
        else write_entry_at f (index_at va (S m)) (mkPte (e_addr e) ef)) vm
    (λ _ vm', turned own rest vm va flags m vm') out_of_memory.
Proof.
  intros Hsp Ho Hm Hf Ht Hr Hfh e Hl ef. destruct (decide (e_addr e = 0)) as [Ha|Ha].
  - assert (e = pte_unused) as He by (by apply (entry_zero own rest vm Hsp va f (S m) t)).
    unfold spec, mbind, ST_bind, allocate_frame_raw. destruct (fa_alloc _) as [[g a]|] eqn:Hal; [|done]. simpl.
    assert (mkPte g ef = table_entry g flags) as -> by (unfold ef; by rewrite He). by eapply turn_grow.
  - assert (e ≠ pte_unused) as Hne by (intros E; by rewrite E in Ha). by eapply turn_upgrade.
Qed.

(** The entry of the target level, with all tables above it. *)
Definition entry_post own rest vm va flags (n : nat) (r : Z * Z * PageTableLevel) vm' : Prop :=
  ∃ own' f, extends own rest vm own' vm' ∧ r = (f, index_at va n, level_at n) ∧ own' !! f = Some (path_to va n)
    ∧ ready own' vm' va flags n ∧ below own' va n
    ∧ (∀ g q, own' !! g = Some q → own !! g = Some q ∨ ∃ k, (n <= k < 3)%nat ∧ q = path_to va k).

Lemma entry_post_trans own rest vm own1 vm1 va flags n r vm2 :
  extends own rest vm own1 vm1 → (∀ g q, own1 !! g = Some q → own !! g = Some q ∨ ∃ k, (n <= k < 3)%nat ∧ q = path_to va k) →
  entry_post own1 rest vm1 va flags n r vm2 → entry_post own rest vm va flags n r vm2.
Proof.
  intros Hex Hn (own2&f&Hex2&?&?&?&?&Hn2). exists own2, f. split_and!; try done; [by eapply extends_trans|].
  intros g q [?|?]%Hn2; auto.
Qed.

Lemma page_table_entry_ok fuel : ∀ own rest vm va flags n0 n, space own rest vm → ordinary va →
  (n0 <= n <= 3)%nat → (n - n0 < fuel)%nat → ready own vm va flags n → fl_huge flags = false → below own va n0 →
  (n0 = 0%nat → ∀ e, ¬ leaf_at own (vm_tables vm) va e 1) →
  spec (page_table_entry fuel (level_at n0) va flags) vm (entry_post own rest vm va flags n0) out_of_memory.
Proof.
  induction fuel as [|fuel IH]; intros own rest vm va flags n0 n Hsp Ho Hn Hfuel Hr Hfh Hb Hhuge; [lia|].
  cbn [page_table_entry].
  destruct (leaf_from_ok own rest vm Hsp va flags 3 n (vm_root vm)) as (m&f&t&Hm&Hf&Ht&Hrm&Hs&E);
    [done|lia|lia|by eapply root_path|done|].
  eapply spec_bind_run; [apply E|]. cbv beta iota.
  assert (n0 <= m)%nat as Hn0 by (destruct (decide (n0 <= m)%nat); [done|exfalso; by eapply (Hb m f); [lia|]]).
  destruct (decide (level_at m = level_at n0)) as [Em|Em].
  { apply level_at_inj in Em as ->; [|lia..]. apply spec_ret. exists own, f. split_and!; try done. by left. }
  assert (m ≠ n0) as Hmn by (intros ->; done). destruct m as [|m]; [lia|].
  eapply spec_bind_run; [by apply read_ok|]. cbv zeta.
  assert (is_leaf (path_to va (S m)) (entry_of t (index_at va (S m))) = false) as Hl.
  { apply not_true_iff_false. intros Hl. pose proof Hl as Hl1. rewrite is_leaf_height in Hl1 by lia.
    rewrite bool_decide_eq_false_2 in Hl1 by lia. apply andb_prop in Hl1 as [Hm1%bool_decide_eq_true _].
    eapply Hhuge; [lia|]. injection Hm1 as ->. exists f, t. split_and!; try done; [|lia]. intros E0. by rewrite E0 in Hl. }
  eapply spec_bind; [eapply entry_turn; try done; lia|]. intros _ vm1 (own1&Hex&Hr1&Hsame).
  eapply spec_weaken; [eapply (IH own1 rest vm1 va flags n0 m); try done; try lia|..]; try done.
  - apply Hex.
  - intros k g Hk Hg. destruct (Hsame g _ Hg) as [?|E0%path_to_inj]; [by eapply (Hb k g Hk)|lia..].
  - intros Hz e He. by eapply Hhuge, (ex_pages _ _ _ _ _ Hex).
  - intros r vm2 Hpost. eapply entry_post_trans; try done. intros g q [?| ->]%Hsame; [by left|]. right. exists m. split; [lia|done].
Qed.

(** *** Leaves *)
(** [va'] lies in the page or huge page of height [n] of [va]. *)
Definition in_page (n : nat) (va va' : Z) : Prop := path_to va' n = path_to va n ∧ index_at va' n = index_at va n.
#[export] Instance in_page_dec n va va' : Decision (in_page n va va').
Proof. unfold in_page. apply _. Defined.

Lemma leaf_height own ts va e k : leaf_at own ts va e k → (k <= 1)%nat.
Proof.
  intros (f&t&_&_&_&_&Hl&Hk). rewrite is_leaf_height in Hl by done. apply orb_prop in Hl as [?%bool_decide_eq_true|Hl]; [lia|].
  apply andb_prop in Hl as [?%bool_decide_eq_true _]. lia.
Qed.

Lemma leaf_eq own rest vm own' rest' vm' va : space own rest vm → space own' rest' vm' → ordinary va →
  (∀ e k, leaf_at own' (vm_tables vm') va e k ↔ leaf_at own (vm_tables vm) va e k) → leaf vm' va = leaf vm va.
Proof.
  intros Hsp Hsp' Ho Hiff. apply option_eq. intros [e k]. rewrite (leaf_iff own' rest' vm'), (leaf_iff own rest vm) by done.
  apply Hiff.
Qed.

(** An entry [e], a leaf or unused, is stored. *)
Lemma leaf_with own rest vm va n f t e va' : space own rest vm → space own rest (with_entry vm f (index_at va n) e) →
  (n <= 3)%nat → ordinary va' → own !! f = Some (path_to va n) → vm_tables vm !! f = Some t →
  is_leaf (path_to va n) e = true ∨ e = pte_unused →
  leaf (with_entry vm f (index_at va n) e) va' =
    if decide (in_page n va va') then (if decide (e = pte_unused) then None else Some (e, n)) else leaf vm va'.
Proof.
  intros Hsp Hsp' Hn Ho Hf Ht He. pose proof (leaf_at_with own rest vm va n f t e va') as Hw.
  destruct (decide (in_page n va va')) as [[Hp Hi]|Hne]; [destruct (decide (e = pte_unused)) as [->|Hu]|].
  - unfold leaf. rewrite (leaf_walk_at own _ _ (space_tree own rest _ Hsp') va' n f) by (by rewrite ?Hp).
    destruct n; cbn [leaf_walk]; simpl; rewrite lookup_alter_eq, Ht; simpl;
      by rewrite entry_of_insert, decide_True by done.
  - apply (leaf_iff own rest _ Hsp'); [done|]. rewrite Hw, decide_True by done. split_and!; [done..| |done].
    by destruct He.
  - apply (leaf_eq own rest vm own rest); try done. intros e' k. rewrite Hw by done.
    destruct (decide _) as [[Hp Hi]|]; [|done]. destruct (decide (k <= 3)%nat) as [Hk|Hk].
    + exfalso. apply Hne. pose proof (path_to_inj _ _ _ _ Hk Hn Hp) as ->. done.
    + split; [by intros (_&_&_&?)|]. intros Hl%leaf_height. lia.
Qed.

Lemma no_children own rest vm va n c : space own rest vm → (n <= 3)%nat → below own va n →
  own !! c ≠ Some (path_to va n ++ [index_at va n]).
Proof.
  intros Hsp Hn Hb Hc. destruct n as [|n].
  - apply (tr_len _ _ _ _ (sp_tree _ _ _ Hsp)) in Hc. rewrite length_app, path_to_length in Hc by done. simpl in Hc. lia.
  - rewrite <-path_to_step in Hc by lia. by eapply (Hb n); [lia|].
Qed.

(** A leaf may be stored where the entry above allows it. *)
Lemma space_leaf own rest vm va n f t e : space own rest vm → ordinary va → (n <= 3)%nat →
  own !! f = Some (path_to va n) → vm_tables vm !! f = Some t → below own va n →
  e = pte_unused ∨ (fl_present (e_flags e) = true ∧ e_addr e ≠ 0 ∧ is_leaf (path_to va n) e = true
                    ∧ above own vm va (e_flags e) n) →
  space own rest (with_entry vm f (index_at va n) e).
Proof.
  intros Hsp Ho Hn Hf Ht Hb He. apply space_set with t; try done. split_and!.
  - destruct He as [->|(?&?&Hl&_)]; [by left|]. right. split_and!; [done..|]. congruence.
  - intros p0 i0 f0 t0 Hp Hf0 Ht0 Hne. destruct He as [->|(_&_&_&Hab)]; [done|].
    apply path_to_snoc in Hp as (Hn3&->&->); [|done]. by apply (Hab f0 t0).
  - intros c tc j Hc. by destruct (no_children own rest vm va n c Hsp Hn Hb).
  - intros c Hc. by destruct (no_children own rest vm va n c Hsp Hn Hb).
Qed.

(** *** Mapping *)
Lemma ready_root own rest vm va flags : space own rest vm → ready own vm va flags 3.
Proof. intros Hsp. split; [eexists; by eapply root_path|]. intros; lia. Qed.

Lemma to_flags_huge o : fl_huge (to_flags o) = false.
Proof. done. Qed.

Lemma extends_leaf own rest vm own' vm' va : space own rest vm → extends own rest vm own' vm' → ordinary va →
  leaf vm' va = leaf vm va.
Proof. intros Hsp [Hsp' ? ? ? Hp] Ho. by apply (leaf_eq own rest vm own' rest). Qed.

Lemma leaf_no_huge own rest vm va : space own rest vm → ordinary va → (∀ e, leaf vm va ≠ Some (e, 1%nat)) →
  ∀ e, ¬ leaf_at own (vm_tables vm) va e 1.
Proof. intros Hsp Ho Hl e He. eapply Hl, (leaf_iff own rest vm Hsp va e 1); done. Qed.

Lemma entry_one own rest vm va flags : space own rest vm → ordinary va → fl_huge flags = false →
  (∀ e, leaf vm va ≠ Some (e, 1%nat)) →
  spec (page_table_entry pte_fuel LOne va flags) vm (entry_post own rest vm va flags 0) out_of_memory.
Proof.
  intros Hsp Ho Hfh Hl. apply (page_table_entry_ok _ _ _ _ _ _ 0 3); try done; [lia|unfold pte_fuel; lia| |..].
  - by eapply ready_root.
  - intros m f Hm. lia.
  - intros _. by eapply leaf_no_huge.
Qed.

(** An address space after an operation, seen through its leaves. *)
Definition becomes (rest : gset Z) (root : Z) (data : gmap Z (list Z)) (view : Z → option (PTE * nat)) vm' : Prop :=
  ∃ own', space own' rest vm' ∧ vm_root vm' = root ∧ vm_data vm' = data ∧ ∀ va, ordinary va → leaf vm' va = view va.

Lemma set_leaf_post own rest vm va flags r vm1 e : space own rest vm → ordinary va →
  entry_post own rest vm va flags 0 r vm1 → fl_present (e_flags e) = true → e_addr e ≠ 0 → e_flags e = flags →
  let '(t, i, _) := r in
  becomes rest (vm_root vm) (vm_data vm) (λ va', if decide (in_page 0 va va') then Some (e, 0%nat) else leaf vm va') (with_entry vm1 t i e).
Proof.
  intros Hsp Ho (own1&f&Hex&->&Hf&Hr&Hb&_) Hp Ha Hfl. destruct (own_table _ _ _ _ (sp_tree _ _ _ (ex_space _ _ _ _ _ Hex)) f _ Hf) as [t Ht].
  pose proof (ex_space _ _ _ _ _ Hex) as Hsp1.
  assert (space own1 rest (with_entry vm1 f (index_at va 0) e)) as Hsp2.
  { apply space_leaf with t; try done; [lia|]. right. split_and!; try done. rewrite Hfl. by apply ready_above; [lia|]. }
  exists own1. split_and!; [done|apply Hex|apply Hex|]. intros va' Ho'.
  rewrite (leaf_with own1 rest vm1 va 0 f t) by (done || lia || by left). destruct (decide (in_page _ _ _)) as [|].
  - rewrite decide_False; [done|]. intros ->. done.
  - by eapply extends_leaf.
Qed.

Lemma map_page_ok own rest vm phys va o : space own rest vm → ordinary va → phys ≠ 0 →
  spec (map_page phys va o) vm
    (λ _, becomes rest (vm_root vm) (vm_data vm) (λ va', if decide (leaf vm va = None ∧ in_page 0 va va')
                                  then Some (mkPte phys (to_flags o), 0%nat) else leaf vm va'))
    out_of_memory.
Proof.
  intros Hsp Ho Hph. unfold map_page. eapply spec_bind_run; [by eapply is_mapped_ok|].
  destruct (leaf vm va) as [[e k]|] eqn:Hl; [rewrite bool_decide_eq_true_2 by done|rewrite bool_decide_eq_false_2 by (by intros [??])].
  - apply spec_ret. by exists own.
  - eapply spec_bind; [eapply entry_one; try done; congruence|]. intros [[t i] l] vm1 Hpost. unfold write_entry_at.
    apply spec_modify. pose proof (set_leaf_post own rest vm va _ _ vm1 (mkPte phys (to_flags o)) Hsp Ho Hpost) as Hb.
    destruct Hb as (own'&?&?&?&Hv); [done..|]. exists own'. split_and!; try done. intros va' Ho'. rewrite Hv by done.
    apply decide_ext. split; [done|by intros [_ ?]].
Qed.

(** Changing the rights of a mapped page. *)
Lemma update_page_ok own rest vm va flags e : space own rest vm → ordinary va → fl_huge flags = false →
  fl_present flags = true → leaf vm va = Some (e, 0%nat) →
  spec (update_page_permissions va flags) vm
    (λ _, becomes rest (vm_root vm) (vm_data vm) (λ va', if decide (in_page 0 va va') then Some (mkPte (e_addr e) flags, 0%nat) else leaf vm va'))
    out_of_memory.
Proof.
  intros Hsp Ho Hfh Hfp Hl. unfold update_page_permissions.
  eapply spec_bind; [eapply entry_one; try done; congruence|]. intros [[t i] l] vm1 Hpost.
  pose proof Hpost as (own1&f&Hex&[= -> -> ->]&Hf&_). pose proof (ex_space _ _ _ _ _ Hex) as Hsp1.
  assert (leaf_at own1 (vm_tables vm1) va e 0) as (g&tg&Hg&Htg&He&Hne&_&_).
  { apply (leaf_iff own1 rest vm1 Hsp1); [done|]. by rewrite (extends_leaf own rest vm own1). }
  rewrite (tr_inj _ _ _ _ (sp_tree _ _ _ Hsp1) g f _ Hg Hf) in Htg.
  eapply spec_bind_run; [by apply read_ok|]. unfold write_entry_at. apply spec_modify. rewrite He.
  eapply (set_leaf_post own rest vm va flags _ vm1 (mkPte (e_addr e) flags) Hsp Ho Hpost); try done. simpl.
  apply (leaf_iff own rest vm) in Hl; [|done..]. destruct Hl as (h&th&Hh&Hth&<-&Hne'&_).
  by apply (entry_present _ _ _ (sp_tree _ _ _ Hsp) va h 0 th); [lia|..].
Qed.

(** *** Unmapping *)
Fixpoint levels_from (n : nat) : list PageTableLevel :=
  level_at n :: match n with O => [] | S n => levels_from n end.

(** What [unmap_down] does at the leaf the walk finds. *)
Definition unmapped own vm va (w : option (PTE * nat)) (r : option Z) vm' : Prop :=
  match w with
  | None => r = None ∧ vm' = vm
  | Some (e, k) =>
      ∃ f t, own !! f = Some (path_to va k) ∧ vm_tables vm !! f = Some t ∧ entry_of t (index_at va k) = e
        ∧ vm' = with_entry vm f (index_at va k) pte_unused
        ∧ r = match k with O => Some (e_addr e) | _ => None end
  end.

Lemma unmap_down_ok own rest vm va n : ∀ f, space own rest vm → ordinary va → (n <= 3)%nat → own !! f = Some (path_to va n) →
  spec (unmap_down va (levels_from n)) vm (unmapped own vm va (leaf_walk (vm_tables vm) n f va)) (λ _ _, False).
Proof.
  induction n as [|n IH]; intros f Hsp Ho Hn Hf; destruct (space_table own rest vm Hsp va _ f Hf) as [t Ht];
    cbn [levels_from unmap_down]; (eapply spec_bind_run; [by eapply table_ok|]); rewrite index_level by done;
    (eapply spec_bind_run; [by apply read_ok|]); cbn [leaf_walk]; rewrite Ht; cbn [mbind option_bind];
    destruct (fl_present _) eqn:Hp; cbn [negb]; try by apply spec_ret.
  - unfold write_entry_at. apply spec_bind_modify, spec_ret. by exists f, t.
  - rewrite decide_False by (intros E; apply (level_at_inj (S n) 0) in E; lia). destruct (fl_huge _) eqn:Hh.
    + pose proof (huge_level own rest vm Hsp va n f t Ho Hn Hf Ht Hh Hp) as ->. unfold write_entry_at. simpl.
      apply spec_bind_modify, spec_ret. by exists f, t.
    + rewrite andb_false_r. apply IH; [done|done|lia|]. eapply child_owned; [by eapply sp_tree|done..].
Qed.

Lemma below_leaf own rest vm va e k : space own rest vm → ordinary va → leaf_at own (vm_tables vm) va e k → below own va k.
Proof.
  intros Hsp Ho Hl m c Hm Hc. pose proof (leaf_height _ _ _ _ _ Hl) as Hk. assert (k = 1%nat ∧ m = 0%nat) as [-> ->] by lia.
  destruct Hl as (f&t&Hf&Ht&He&Hne&Hlf&_). rewrite is_leaf_height in Hlf by lia. simpl in Hlf.
  destruct (owned_link _ _ _ va 0 c f t (sp_tree _ _ _ Hsp)) as (_&_&_&Hh); try done; [lia|]. congruence.
Qed.

(** The leaf is gone, and only it. *)
Lemma unmapped_ok own rest vm va e k f t : space own rest vm → ordinary va → leaf vm va = Some (e, k) →
  own !! f = Some (path_to va k) → vm_tables vm !! f = Some t →
  space own rest (with_entry vm f (index_at va k) pte_unused) ∧
  ∀ va', ordinary va' → leaf (with_entry vm f (index_at va k) pte_unused) va' =
    if decide (in_page k va va') then None else leaf vm va'.
Proof.
  intros Hsp Ho Hl Hf Ht. apply (leaf_iff own rest vm) in Hl; [|done..]. pose proof (leaf_height _ _ _ _ _ Hl) as Hk.
  assert (space own rest (with_entry vm f (index_at va k) pte_unused)) as Hsp'.
  { apply space_leaf with t; try done; [lia|by eapply below_leaf|by left]. }
  split; [done|]. intros va' Ho'. rewrite (leaf_with own rest vm va k f t) by (done || lia || by right).
  by rewrite (decide_True (P := pte_unused = pte_unused)).
Qed.

Lemma tree_any own root ts hole : tree own root ts → tree_but hole own root ts.
Proof. intros [Hr Hdom Hinj Hlen Hnz Hhd Hidx Hent Hrig Hback]. split; try done. intros c p i Hc _. by apply Hback. Qed.

Lemma empty_table own rest vm va n f t : space own rest vm → (n < 3)%nat → own !! f = Some (path_to va n) →
  vm_tables vm !! f = Some t → table_is_empty t = true → ∀ j, entry_of t j = pte_unused.
Proof.
  intros Hsp Hn Hf Ht He j. destruct (decide (0 <= j < 512)) as [Hj|Hj].
  - destruct (tr_entry _ _ _ _ (sp_tree _ _ _ Hsp) f _ t j Hf Ht) as [|(Hp&_)]; [|done|].
    + intros E%(f_equal length). rewrite path_to_length in E by lia. simpl in E. lia.
    + unfold table_is_empty in He. rewrite forallb_forall in He. specialize (He j).
      rewrite Hp in He. exfalso. discriminate He. by apply list_elem_of_In, elem_of_upto.
  - by eapply (tr_idx _ _ _ _ (sp_tree _ _ _ Hsp)).
Qed.

Lemma tree_shrink own root ts va n c tc f t : tree own root ts → ordinary va → (S n <= 3)%nat →
  own !! c = Some (path_to va n) → ts !! c = Some tc → (∀ j, entry_of tc j = pte_unused) →
  own !! f = Some (path_to va (S n)) → ts !! f = Some t → c ≠ f →
  tree (delete c own) root (delete c (alter (<[index_at va (S n) := pte_unused]>) f ts)).
Proof.
  intros Htr Ho Hn Hc Htc Hun Hf Ht Hcf. pose proof (not_recursive va (S n) Hn Ho) as Hi.
  pose proof (path_to_step va n ltac:(lia)) as Hpath.
  eapply (tree_remove_table own _ _ c tc (path_to va (S n)) (index_at va (S n)) f (<[index_at va (S n) := pte_unused]> t));
    rewrite <-?Hpath, ?lookup_alter_eq, ?entry_of_insert, ?decide_True, ?Ht by done; try done; [|by rewrite lookup_alter_ne].
  eapply tree_set_entry; [by apply tree_any|done..|apply index_at_range|]. split_and!; [by left|done| |].
  - rewrite <-Hpath. intros c' tc' j Hc' Htc' Hj. rewrite (tr_inj _ _ _ _ Htr c' c _ Hc' Hc), Htc in Htc'. injection Htc' as <-.
    by destruct (Hj (Hun j)).
  - rewrite <-Hpath. by intros c' _ [].
Qed.

(** The table at height [n] goes back to the allocator. *)
Definition without_table vm (c : Z) : VM A :=
  mkVm (delete c (vm_tables vm)) (vm_root vm) (delete c (vm_data vm)) (fa_dealloc c (vm_alloc vm)).

Lemma space_shrink own rest vm va n c tc f t : space own rest vm → ordinary va → (S n <= 3)%nat →
  own !! c = Some (path_to va n) → vm_tables vm !! c = Some tc → (∀ j, entry_of tc j = pte_unused) →
  own !! f = Some (path_to va (S n)) → vm_tables vm !! f = Some t →
  let vm' := without_table (with_entry vm f (index_at va (S n)) pte_unused) c in
  space (delete c own) rest vm' ∧ vm_data vm' = vm_data vm ∧ same_pages own vm (delete c own) vm'.
Proof.
  intros Hsp Ho Hn Hc Htc Hun Hf Ht vm'. pose proof Hsp as [Htr Hrec Hu Hd Hr]. pose proof (not_recursive va (S n) Hn Ho) as Hi.
  destruct (owned_link _ _ _ va n c f t Htr) as (Ha&Hne&Hp&Hh); try done.
  assert (c ≠ f) as Hcf by (intros ->; rewrite Hc in Hf; injection Hf as Hf%path_to_inj; lia).
  assert (vm_data vm !! c = None) as Hdc.
  { apply not_elem_of_dom. intros Hin. apply (Hd c); [|done]. apply elem_of_dom. by eexists. }
  assert (vm_data vm' = vm_data vm) as Hdata by (by apply delete_id).
  split_and!; [|done|].
  - split; [| |rewrite Hdata; simpl..].
    + by eapply tree_shrink.
    + destruct (rec_ok_set vm f (index_at va (S n)) pte_unused Hrec) as (t4&Ht4&Hrec4).
      { intros ->. apply Hi. pose proof (tr_root _ _ _ _ Htr). congruence. }
      exists t4. split; [|done]. simpl in *. rewrite lookup_delete_ne; [done|]. intros ->.
      pose proof (tr_root _ _ _ _ Htr) as Hroot. rewrite Hc in Hroot. injection Hroot as E%(f_equal length).
      rewrite path_to_length in E by lia. simpl in E. lia.
    + rewrite fa_dealloc_used, Hu, dom_delete_L. assert (c ∈ dom own) by (apply elem_of_dom; by eexists).
      assert (c ∉ dom (vm_data vm)) by (by apply not_elem_of_dom). set_solver.
    + rewrite dom_delete_L. set_solver.
    + rewrite dom_delete_L. set_solver.
  - intros va' e k. etrans; [|eapply (leaf_at_inner own rest vm va (S n) f t); try done].
    + simpl. eapply leaf_at_remove; [|done]. by rewrite lookup_alter_ne.
    + right. rewrite is_leaf_height, Hh by done. by rewrite andb_false_r.
    + rewrite is_leaf_height by done. by rewrite andb_false_r.
Qed.

Definition gc_levels (n : nat) : list (PageTableLevel * PageTableLevel) :=
  drop n [(LOne, LTwo); (LTwo, LThree); (LThree, LFour)].

Lemma gc_levels_step n : (S n <= 3)%nat → gc_levels n = (level_at n, level_at (S n)) :: gc_levels (S n).
Proof. destruct n as [|[|[|]]]; simpl; intros; try lia; done. Qed.

(** The same pages with fewer tables. *)
Definition shrinks own rest vm own' vm' : Prop :=
  space own' rest vm' ∧ own' ⊆ own ∧ vm_root vm' = vm_root vm ∧ vm_data vm' = vm_data vm ∧ same_pages own vm own' vm'.

Lemma gc_up_ok d : ∀ own rest vm va n c, (d = 3 - n)%nat → (n <= 3)%nat → space own rest vm → ordinary va →
  own !! c = Some (path_to va n) →
  spec (gc_up va (gc_levels n)) vm (λ _ vm', ∃ own', shrinks own rest vm own' vm') (λ _ _, False).
Proof.
  induction d as [|d IH]; intros own rest vm va n c Hd Hn Hsp Ho Hc.
  { replace n with 3%nat by lia. apply spec_ret. exists own. by split_and!. }
  rewrite gc_levels_step by lia. cbn [gc_up]. eapply spec_bind_run; [eapply table_ok; (done || lia)|].
  destruct (space_table own rest vm Hsp va n c Hc) as [tc Htc]. apply spec_bind_gets. rewrite Htc. cbn [default id].
  destruct (table_is_empty tc) eqn:He; cbn [negb]; [|apply spec_ret; exists own; by split_and!].
  pose proof (empty_table own rest vm va n c tc Hsp ltac:(lia) Hc Htc He) as Hun.
  destruct (owned_above _ _ _ va n (S n) c (sp_tree _ _ _ Hsp)) as (f&t&Hf&Ht); [lia|done|].
  eapply spec_bind_run; [eapply (table_ok own rest vm Hsp va (S n) f); (done || lia)|]. rewrite index_level by lia.
  eapply spec_bind_run; [by apply read_ok|].
  destruct (owned_link _ _ _ va n c f t (sp_tree _ _ _ Hsp)) as (Ha&_); try done; [lia|]. rewrite Ha.
  unfold write_entry_at, deallocate_frame_raw. apply spec_bind_modify, spec_bind_modify.
  destruct (space_shrink own rest vm va n c tc f t) as (Hsp'&Hdata&Hsame); try done; [lia|].
  assert (delete c own !! f = Some (path_to va (S n))) as Hf'.
  { rewrite lookup_delete_ne; [done|]. intros ->. rewrite Hc in Hf. injection Hf as Hf%path_to_inj; lia. }
  eapply spec_weaken; [eapply (IH (delete c own) rest _ va (S n) f); try done; lia| |done].
  intros _ vm2 (own2&?&?&Hr2&Hd2&Hs2). exists own2. split_and!; [done| |by rewrite Hr2|by rewrite Hd2|].
  - etrans; [done|]. apply delete_subseteq.
  - intros va' e k. etrans; [apply Hs2|apply Hsame].
Qed.

(** The view without the page or huge page of [va]. *)
Definition cleared vm va (va' : Z) : option (PTE * nat) :=
  match leaf vm va with
  | Some (_, k) => if decide (in_page k va va') then None else leaf vm va'
  | None => leaf vm va'
  end.

Lemma gc_becomes own rest vm va n c view : space own rest vm → ordinary va → (n <= 3)%nat → own !! c = Some (path_to va n) →
  (∀ va', ordinary va' → leaf vm va' = view va') →
  spec (gc_up va (gc_levels n)) vm (λ _, becomes rest (vm_root vm) (vm_data vm) view) (λ _ _, False).
Proof.
  intros Hsp Ho Hn Hc Hv. eapply spec_weaken; [by eapply gc_up_ok| |done].
  intros _ vm' (own'&Hsp'&_&Hroot&Hdata&Hsame). exists own'. split_and!; try done. intros va' Ho'. rewrite <-Hv by done.
  by apply (leaf_eq own rest vm own' rest).
Qed.

Lemma unmap_page_ok own rest vm va : space own rest vm → ordinary va →
  spec (unmap_page va) vm (λ _, becomes rest (vm_root vm) (vm_data vm) (cleared vm va)) (λ _ _, False).
Proof.
  intros Hsp Ho. unfold unmap_page, unmap_and_gc, cleared. eapply spec_bind.
  { eapply (unmap_down_ok own rest vm va 3); [done..|by eapply root_path]. }
  intros r vm1. unfold unmapped. fold (leaf vm va). destruct (leaf vm va) as [[e k]|] eqn:Hl.
  - intros (f&t&Hf&Ht&He&->&->). destruct (unmapped_ok own rest vm va e k f t) as [Hsp1 Hv]; try done.
    pose proof Hl as Hlf. apply (leaf_iff own rest vm) in Hlf; [|done..]. apply leaf_height in Hlf.
    destruct k as [|k]; [apply spec_bind_ret|apply spec_ret; by exists own].
    eapply (gc_becomes own rest (with_entry vm f (index_at va 0) pte_unused) va 0 f); try done; lia.
  - intros [-> ->]. apply spec_ret. by exists own.
Qed.

(** A frame of data goes back to the allocator. *)
Lemma free_tables own rest vm g : space own rest vm → g ∈ dom (vm_data vm) →
  (g ∉ dom own) ∧ vm_tables (without_table vm g) = vm_tables vm.
Proof.
  intros Hsp Hg. assert (g ∉ dom own) as Hn by (intros Hin; by apply (sp_data _ _ _ Hsp g)). split; [done|].
  apply delete_id, eq_None_not_Some. rewrite (tr_dom _ _ _ _ (sp_tree _ _ _ Hsp)). by rewrite elem_of_dom in Hn.
Qed.

Lemma space_free own rest vm g : space own rest vm → g ∈ dom (vm_data vm) → space own rest (without_table vm g).
Proof.
  intros Hsp Hg. destruct (free_tables own rest vm g Hsp Hg) as [Hn Ht]. pose proof Hsp as [Htr Hrec Hu Hdj Hr]. split.
  - by rewrite Ht.
  - unfold rec_ok. by rewrite Ht.
  - cbn [without_table vm_alloc vm_data]. rewrite fa_dealloc_used, Hu, dom_delete_L. set_solver.
  - cbn [without_table vm_data]. rewrite dom_delete_L. set_solver.
  - cbn [without_table vm_data]. rewrite dom_delete_L. set_solver.
Qed.

Lemma leaf_free own rest vm g va : space own rest vm → g ∈ dom (vm_data vm) → leaf (without_table vm g) va = leaf vm va.
Proof. intros Hsp Hg. unfold leaf. by rewrite (proj2 (free_tables own rest vm g Hsp Hg)). Qed.

(** A page that owns its frame goes with it. *)
Lemma free_page_ok own rest vm va : space own rest vm → ordinary va →
  (∀ e k, leaf vm va = Some (e, k) → k = 0%nat ∧ e_addr e ∈ dom (vm_data vm)) →
  spec (free_page va) vm
    (λ _, becomes rest (vm_root vm)
            (match leaf vm va with Some (e, _) => delete (e_addr e) (vm_data vm) | None => vm_data vm end)
            (cleared vm va)) (λ _ _, False).
Proof.
  intros Hsp Ho Hk. unfold free_page, unmap_and_gc, cleared. eapply spec_bind.
  { eapply (unmap_down_ok own rest vm va 3); [done..|by eapply root_path]. }
  intros r vm1. unfold unmapped. fold (leaf vm va). destruct (leaf vm va) as [[e k]|] eqn:Hl.
  - destruct (Hk e k eq_refl) as [-> Hd]. intros (f&t&Hf&Ht&He&->&->).
    destruct (unmapped_ok own rest vm va e 0 f t) as [Hsp1 Hv]; try done.
    unfold deallocate_frame_raw. apply spec_bind_modify.
    pose proof (space_free own rest _ (e_addr e) Hsp1 Hd) as Hsp2.
    eapply (gc_becomes own rest (without_table (with_entry vm f (index_at va 0) pte_unused) (e_addr e)) va 0 f); try done; [lia|].
    intros va' Ho'. rewrite <-Hv by done. by apply (leaf_free own rest).
  - intros [-> ->]. apply spec_ret. by exists own.
Qed.
End spaces.
