(* ===== verification/PagingMap.v ===== *)
(** * An address space refines a map of pages
    ([panda-kernel/src/memory/paging.rs])

    The reference is a finite map from page numbers to page frames and rights.
    [map_inner], [unmap_region] and [update_permissions], run on the tree of
    tables through the recursive entry, are the obvious updates of that map. *)

From S2P Require Import Prelude Effects BlockDevice PageTable PageTableProof Paging.

(** ** Page numbers *)
(** The 36 bits of a canonical address that select its page. *)
Definition page (va : Z) : Z := (va / 4096) mod 2 ^ 36.

Lemma index_page va n : (n <= 3)%nat → index_at va n = (page va / 2 ^ (9 * Z.of_nat n)) mod 512.
Proof.
  intros Hn. rewrite index_at_spec. unfold page. rewrite Z.pow_add_r, <-Z.div_div by lia. change (2 ^ 12) with 4096.
  generalize (va / 4096) as q. intros q. destruct n as [|[|[|[|]]]]; [..|lia].
  all: match goal with |- context [2 ^ (9 * ?x)] => let y := eval compute in (2 ^ (9 * x)) in change (2 ^ (9 * x)) with y end.
  all: change (2 ^ 36) with 68719476736; Z.to_euclidean_division_equations; lia.
Qed.

Lemma page_indices va : page va =
  index_at va 3 * 2 ^ 27 + index_at va 2 * 2 ^ 18 + index_at va 1 * 2 ^ 9 + index_at va 0.
Proof.
  rewrite !index_page by lia. assert (0 <= page va < 2 ^ 36) by (apply Z.mod_pos_bound; lia).
  generalize dependent (page va). intros q Hq. change (2 ^ (9 * Z.of_nat 3)) with 134217728.
  change (2 ^ (9 * Z.of_nat 2)) with 262144. change (2 ^ (9 * Z.of_nat 1)) with 512. change (2 ^ (9 * Z.of_nat 0)) with 1.
  Z.to_euclidean_division_equations; lia.
Qed.

Lemma in_page_page va va' : in_page 0 va va' ↔ page va' = page va.
Proof.
  unfold in_page, path_to, vpath. simpl. split.
  - intros [[= E3 E2 E1] E0]. by rewrite !page_indices, E3, E2, E1, E0.
  - intros E. rewrite !index_page by lia. by rewrite E.
Qed.

Lemma in_huge_page va va' : in_page 1 va va' → page va' / 512 = page va / 512.
Proof.
  unfold in_page, path_to, vpath. simpl. intros [[= E3 E2] E1]. rewrite !page_indices, E3, E2, E1.
  pose proof (index_at_range va 0). pose proof (index_at_range va' 0). Z.to_euclidean_division_equations; lia.
Qed.

(** Pages outside the region of the tables. *)
Definition ordinary_page (p : Z) : Prop := p / 2 ^ 27 ≠ RECURSIVE_INDEX.
#[export] Instance ordinary_page_dec p : Decision (ordinary_page p).
Proof. unfold ordinary_page. apply _. Defined.

Lemma ordinary_iff va : ordinary va ↔ ordinary_page (page va).
Proof.
  unfold ordinary, ordinary_page. rewrite index_page by lia. assert (0 <= page va < 2 ^ 36) as Hp by (apply Z.mod_pos_bound; lia).
  change (2 ^ (9 * Z.of_nat 3)) with (2 ^ 27). rewrite Z.mod_small; [done|].
  split; [apply Z.div_pos; lia|apply Z.div_lt_upper_bound; lia].
Qed.

Lemma page_add va k : va mod 4096 = 0 → 0 <= k → page va + k < 2 ^ 36 → page (va + k * 4096) = page va + k.
Proof.
  intros Hva Hk Hp. unfold page in *. rewrite Z.div_add by lia.
  rewrite <-(Z.mod_small ((va / 4096) mod 2 ^ 36 + k) (2 ^ 36)).
  - by rewrite Zplus_mod_idemp_l.
  - split; [|done]. pose proof (Z.mod_pos_bound (va / 4096) (2 ^ 36)). lia.
Qed.

(** ** Regions *)
Definition npages (size : Z) : Z := (size + 4095) / 4096.

(** A whole number of pages of the ordinary part of the address space. *)
Record region_ok (va size : Z) : Prop := {
  rg_aligned : va mod 4096 = 0;
  rg_size : 0 <= size;
  rg_end : page va + npages size <= 2 ^ 36;
  rg_ordinary k : 0 <= k < npages size → ordinary_page (page va + k);
}.

Lemma region_page va size k : region_ok va size → 0 <= k < npages size →
  page (va + k * 4096) = page va + k ∧ ordinary (va + k * 4096).
Proof.
  intros [Ha Hs He Ho] Hk. assert (page (va + k * 4096) = page va + k) as E by (apply page_add; [done|lia..]).
  split; [done|]. rewrite ordinary_iff, E. by apply Ho.
Qed.

(** ** The reference *)
(** The start of the page frame of each mapped page, and its rights. *)
Abbreviation PageMap := (gmap Z (Z * Flags)).

Definition map_one (p : Z) (b : Z * Flags) (m : PageMap) : PageMap :=
  match m !! p with Some _ => m | None => <[p := b]> m end.
Definition map_pages (p phys n : Z) (fl : Flags) (m : PageMap) : PageMap :=
  foldl (λ m k, map_one (p + k) (phys + k * 4096, fl) m) m (upto n).
Definition unmap_pages (p n : Z) (m : PageMap) : PageMap := foldl (λ m k, delete (p + k) m) m (upto n).
Definition protect_pages (p n : Z) (fl : Flags) (m : PageMap) : PageMap :=
  foldl (λ m k, alter (λ '(b, _), (b, fl)) (p + k) m) m (upto n).

Section refinement.
Context {A : Type} `{FrameAllocatorLaws A}.
Implicit Types vm : VM A.

(** The page frame and the rights of an address under its leaf. *)
Definition flat (va : Z) (w : option (PTE * nat)) : option (Z * Flags) :=
  (λ '(e, k), (e_addr e + 4096 * (page va mod 2 ^ (9 * Z.of_nat k)), leaf_rights (e_flags e))) <$> w.

(** The address space has the pages [m]; those of huge pages lie in the groups
    [huge] of 512 pages. *)
Definition shows (rest : gset Z) (root : Z) (data : gmap Z (list Z)) (huge : gset Z) vm (m : PageMap) : Prop :=
  ∃ own, space own rest vm ∧ vm_root vm = root ∧ vm_data vm = data
    ∧ (∀ va, ordinary va → flat va (leaf vm va) = m !! page va)
    ∧ (∀ va e, ordinary va → leaf vm va = Some (e, 1%nat) → page va / 512 ∈ huge).

(** What the processor does with an address: its physical address and its
    rights. *)
Definition translate vm (va : Z) : option (Z * Flags) := (λ '(f, off, fl), (f + off, fl)) <$> mmu vm va.

Lemma leaf_translate own rest vm va : space own rest vm → ordinary va →
  translate vm va = (λ '(b, fl), (b + va mod 4096, fl)) <$> flat va (leaf vm va).
Proof.
  intros Hsp Ho. unfold translate. rewrite (mmu_leaf own rest vm Hsp va Ho). unfold flat.
  destruct (leaf vm va) as [[e k]|] eqn:Hl; [|done]. simpl. f_equal. f_equal. rewrite <-Z.add_assoc. f_equal.
  apply (leaf_iff own rest vm Hsp) in Hl; [|done]. apply leaf_height in Hl. unfold page.
  destruct k as [|[|]]; [..|lia].
  - rewrite Z.mod_1_r. change (2 ^ (12 + 9 * Z.of_nat 0)) with 4096. lia.
  - change (2 ^ (9 * Z.of_nat 1)) with 512. change (2 ^ (12 + 9 * Z.of_nat 1)) with 2097152. change (2 ^ 36) with 68719476736.
    Z.to_euclidean_division_equations; lia.
Qed.

Lemma shows_translate rest root data huge vm m va : shows rest root data huge vm m → ordinary va →
  translate vm va = (λ '(b, fl), (b + va mod 4096, fl)) <$> m !! page va.
Proof. intros (own&Hsp&_&_&Hf&_) Ho. by rewrite (leaf_translate own rest vm va Hsp Ho), (Hf va Ho). Qed.

Section ops.
Context (rest : gset Z) (root : Z) (data : gmap Z (list Z)) (huge : gset Z).
Abbreviation shows := (shows rest root data huge).

Lemma leaf_rights_flags o : leaf_rights (to_flags o) = to_flags o.
Proof. done. Qed.

Lemma shows_leaf vm m va : shows vm m → ordinary va → leaf vm va = None ↔ m !! page va = None.
Proof. intros (own&_&_&_&Hf&_) Ho. rewrite <-Hf by done. unfold flat. by destruct (leaf vm va). Qed.

Lemma flat_0 va b fl : flat va (Some (mkPte b fl, 0%nat)) = Some (b, leaf_rights fl).
Proof. unfold flat. simpl. by rewrite Z.mod_1_r, Z.mul_0_r, Z.add_0_r. Qed.

Lemma map_page_shows vm m phys va o : shows vm m → ordinary va → phys ≠ 0 →
  spec (map_page phys va o) vm (λ _ vm', shows vm' (map_one (page va) (phys, to_flags o) m)) out_of_memory.
Proof.
  intros Hs Ho Hph. pose proof (shows_leaf vm m va Hs Ho) as Hnone. destruct Hs as (own&Hsp&<-&<-&Hf&Hh).
  eapply spec_weaken; [by eapply map_page_ok| |done]. intros _ vm' (own'&Hsp'&Hr&Hd&Hv).
  exists own'. split_and!; [done..| |]; intros va'.
  - intros Ho'. rewrite Hv by done. unfold map_one. destruct (decide _) as [[Hl Hin]|Hn].
    + rewrite Hnone in Hl. rewrite Hl. apply in_page_page in Hin. rewrite Hin, lookup_insert_eq. apply flat_0.
    + rewrite Hf by done. destruct (m !! page va) eqn:Hm; [done|]. rewrite lookup_insert_ne; [done|].
      intros E. apply Hn. split; [by apply Hnone|]. by apply in_page_page.
  - intros e Ho'. rewrite Hv by done. destruct (decide _); [done|]. by apply Hh.
Qed.

Lemma unmap_page_shows vm m va : shows vm m → ordinary va → page va / 512 ∉ huge →
  spec (unmap_page va) vm (λ _ vm', shows vm' (delete (page va) m)) out_of_memory.
Proof.
  intros Hs Ho Hnh. pose proof (shows_leaf vm m va Hs Ho) as Hnone. destruct Hs as (own&Hsp&<-&<-&Hf&Hh).
  eapply spec_weaken; [by eapply unmap_page_ok| |done]. intros _ vm' (own'&Hsp'&Hr&Hd&Hv).
  assert (∀ va', ordinary va' → leaf vm' va' = if decide (in_page 0 va va') then None else leaf vm va') as Hv'.
  { intros va' Ho'. rewrite Hv by done. unfold cleared. destruct (leaf vm va) as [[e k]|] eqn:Hl.
    - pose proof Hl as Hk. apply (leaf_iff own rest vm Hsp) in Hk; [|done]. apply leaf_height in Hk.
      destruct k as [|[|]]; [done| |lia]. by destruct (Hnh (Hh va e Ho Hl)).
    - destruct (decide _) as [Hin|]; [|done]. apply in_page_page in Hin.
      pose proof (Hf va' Ho') as E. rewrite Hin, (proj1 Hnone eq_refl) in E. by destruct (leaf vm va'). }
  exists own'. split_and!; [done..| |]; intros va'.
  - intros Ho'. rewrite Hv' by done. destruct (decide (in_page 0 va va')) as [Hin|Hin]; rewrite in_page_page in Hin.
    + by rewrite Hin, lookup_delete_eq.
    + rewrite lookup_delete_ne by done. by apply Hf.
  - intros e Ho'. rewrite Hv' by done. destruct (decide _); [done|]. by apply Hh.
Qed.

Lemma update_page_shows vm m va o : shows vm m → ordinary va → page va / 512 ∉ huge → is_Some (m !! page va) →
  spec (update_page_permissions va (to_flags o)) vm
    (λ _ vm', shows vm' (alter (λ '(b, _), (b, to_flags o)) (page va) m)) out_of_memory.
Proof.
  intros Hs Ho Hnh Hsome. pose proof (shows_leaf vm m va Hs Ho) as Hnone. destruct Hs as (own&Hsp&<-&<-&Hf&Hh).
  destruct (leaf vm va) as [[e k]|] eqn:Hl; [|by rewrite (proj1 Hnone eq_refl) in Hsome; destruct Hsome].
  assert (k = 0%nat) as ->.
  { pose proof Hl as Hk. apply (leaf_iff own rest vm Hsp) in Hk; [|done]. apply leaf_height in Hk.
    destruct k as [|[|]]; [done| |lia]. by destruct (Hnh (Hh va e Ho Hl)). }
  eapply spec_weaken; [by eapply update_page_ok| |done]. intros _ vm' (own'&Hsp'&Hr&Hd&Hv).
  exists own'. split_and!; [done..| |]; intros va'.
  - intros Ho'. rewrite Hv by done. destruct (decide (in_page 0 va va')) as [Hin|Hin]; rewrite in_page_page in Hin.
    + rewrite Hin, lookup_alter_eq, <-(Hf va Ho), Hl. destruct e as [b fl]. by rewrite !flat_0.
    + rewrite lookup_alter_ne by done. by apply Hf.
  - intros e' Ho'. rewrite Hv by done. destruct (decide _); [done|]. by apply Hh.
Qed.

(** Pages of a region that are in no huge page. *)
Definition small (va size : Z) : Prop := ∀ k, 0 <= k < npages size → (page va + k) / 512 ∉ huge.

Lemma map_inner_shows vm m phys va size o : shows vm m → region_ok va size → 0 < phys → phys mod 4096 = 0 →
  spec (map_inner phys va size o) vm (λ _ vm', shows vm' (map_pages (page va) phys (npages size) (to_flags o) m)) out_of_memory.
Proof.
  intros Hs Hrg Hph Hpa. unfold map_inner. rewrite decide_False by (destruct Hrg; lia).
  unfold page_offsets. fold (npages size). apply (spec_for_each_foldl _ _ shows); [done|].
  intros k vm' m' Hk%elem_of_upto Hs'. destruct (region_page va size k Hrg Hk) as [<- Ho]. apply map_page_shows; [done..|lia].
Qed.

Lemma unmap_region_shows vm m va size : shows vm m → region_ok va size → small va size →
  spec (unmap_region va size) vm (λ _ vm', shows vm' (unmap_pages (page va) (npages size) m)) out_of_memory.
Proof.
  intros Hs Hrg Hsm. unfold unmap_region. rewrite decide_False by (destruct Hrg; lia).
  unfold page_offsets. fold (npages size). apply (spec_for_each_foldl _ _ shows); [done|].
  intros k vm' m' Hk%elem_of_upto Hs'. destruct (region_page va size k Hrg Hk) as [E Ho]. rewrite <-E.
  apply unmap_page_shows; [done..|]. rewrite E. by apply Hsm.
Qed.

Lemma update_permissions_shows vm m va size o : shows vm m → region_ok va size → small va size →
  (∀ k, 0 <= k < npages size → is_Some (m !! (page va + k))) →
  spec (update_permissions va size o) vm
    (λ _ vm', shows vm' (protect_pages (page va) (npages size) (to_flags o) m)) out_of_memory.
Proof.
  intros Hs Hrg Hsm Hmap. unfold update_permissions. rewrite decide_False by (destruct Hrg; lia).
  unfold page_offsets. fold (npages size). eapply spec_weaken;
    [apply (spec_for_each_foldl _ _ (λ vm m, shows vm m ∧ ∀ k, 0 <= k < npages size → is_Some (m !! (page va + k))))| |done];
    [done| |by intros _ ? [? _]].
  intros k vm' m' Hk%elem_of_upto [Hs' Hm']. destruct (region_page va size k Hrg Hk) as [E Ho].
  eapply spec_weaken; [apply (update_page_shows vm' m' (va + k * 4096) o); [done..| |]| |done]; rewrite E.
  - by apply Hsm.
  - by apply Hm'.
  - intros [] vm'' Hs''. split; [done|]. intros j Hj. rewrite lookup_alter_is_Some. by apply Hm'.
Qed.
End ops.

(** ** Sequences of operations *)
Inductive SpaceOp : Type :=
  | OpMap (phys va size : Z) (o : MemoryMappingOptions)
  | OpUnmap (va size : Z)
  | OpProtect (va size : Z) (o : MemoryMappingOptions).

Definition run_op (op : SpaceOp) : ST (VM A) () () :=
  match op with
  | OpMap phys va size o => map_inner phys va size o
  | OpUnmap va size => unmap_region va size
  | OpProtect va size o => update_permissions va size o
  end.

Definition abs_op (m : PageMap) (op : SpaceOp) : PageMap :=
  match op with
  | OpMap phys va size o => map_pages (page va) phys (npages size) (to_flags o) m
  | OpUnmap va size => unmap_pages (page va) (npages size) m
  | OpProtect va size o => protect_pages (page va) (npages size) (to_flags o) m
  end.

(** Regions are whole ordinary pages; what is unmapped or changed lies in no
    huge page, and what is changed is mapped. *)
Definition op_ok (huge : gset Z) (m : PageMap) (op : SpaceOp) : Prop :=
  match op with
  | OpMap phys va size _ => region_ok va size ∧ 0 < phys ∧ phys mod 4096 = 0
  | OpUnmap va size => region_ok va size ∧ small huge va size
  | OpProtect va size _ => region_ok va size ∧ small huge va size ∧
                           ∀ k, 0 <= k < npages size → is_Some (m !! (page va + k))
  end.

Fixpoint ops_ok (huge : gset Z) (m : PageMap) (ops : list SpaceOp) : Prop :=
  match ops with
  | [] => True
  | op :: ops => op_ok huge m op ∧ ops_ok huge (abs_op m op) ops
  end.

Lemma run_op_shows rest root data huge vm m op : shows rest root data huge vm m → op_ok huge m op →
  spec (run_op op) vm (λ _ vm', shows rest root data huge vm' (abs_op m op)) out_of_memory.
Proof.
  intros Hs. destruct op; simpl.
  - intros (?&?&?). by apply map_inner_shows.
  - intros (?&?). by apply unmap_region_shows.
  - intros (?&?&?). by apply update_permissions_shows.
Qed.

Lemma run_ops_shows rest root data huge ops : ∀ vm m, shows rest root data huge vm m → ops_ok huge m ops →
  spec (for_each ops run_op) vm (λ _ vm', shows rest root data huge vm' (foldl abs_op m ops)) out_of_memory.
Proof.
  induction ops as [|op ops IH]; intros vm m Hs Hok; [by apply spec_ret|]. destruct Hok as [Hop Hok].
  cbn [for_each foldl]. eapply spec_bind; [by apply run_op_shows|]. intros [] vm' Hs'. by apply IH.
Qed.

End refinement.

(** ** A heap and a new address space *)
(** Frames still free, and those handed out. *)
Record FramePool : Type := mkPool { pl_free : list Z; pl_huge : list Z; pl_used : gset Z }.

#[export] Instance FramePool_alloc : FrameAllocator FramePool := {
  fa_alloc a :=
    match pl_free a with
    | f :: fs => if decide ((f ∉ pl_used a) ∧ 0 < f ∧ f mod 4096 = 0)
                 then Some (f, mkPool fs (pl_huge a) ({[f]} ∪ pl_used a)) else None
    | [] => None
    end;
  fa_dealloc f a := mkPool (f :: pl_free a) (pl_huge a) (pl_used a ∖ {[f]});
  fa_alloc_huge a :=
    match pl_huge a with
    | f :: fs => if decide (block f ## pl_used a ∧ 0 < f ∧ f mod 2 ^ 21 = 0)
                 then Some (f, mkPool (pl_free a) fs (block f ∪ pl_used a)) else None
    | [] => None
    end;
  fa_dealloc_huge f a := mkPool (pl_free a) (f :: pl_huge a) (pl_used a ∖ block f);
}.

#[export, refine] Instance FramePool_laws : FrameAllocatorLaws FramePool := {| fa_used := pl_used |}.
Proof.
  - intros [[|f fs] h u] f' a'; simpl; [done|]. destruct (decide _) as [(?&?&?)|?]; [|done]. intros [= <- <-]. by split_and!.
  - done.
  - intros [fr [|f fs] u] f' a'; cbn -[block]; [done|]. destruct (decide _) as [(?&?&?)|?]; [|done]. intros [= <- <-]. by split_and!.
  - done.
Defined.

(** A root with the recursive entry and nothing else. *)
Definition recursive_flags : Flags := mkFl true true false false true.
Definition empty_vm {A} (root : Z) (data : gmap Z (list Z)) (a : A) : VM A :=
  mkVm {[root := {[RECURSIVE_INDEX := mkPte root recursive_flags]}]} root data a.

Lemma empty_entry root i : entry_of {[RECURSIVE_INDEX := mkPte root recursive_flags]} i =
  if decide (i = RECURSIVE_INDEX) then mkPte root recursive_flags else pte_unused.
Proof. unfold entry_of. destruct (decide _) as [->|]; [by rewrite lookup_singleton_eq|by rewrite lookup_singleton_ne]. Qed.

Lemma empty_tree root : root ≠ 0 →
  tree {[root := []]} root {[root := {[RECURSIVE_INDEX := mkPte root recursive_flags]}]}.
Proof.
  intros Hr. split.
  - by rewrite lookup_singleton_eq.
  - intros f. rewrite !lookup_singleton. by destruct (decide _).
  - intros f g p [<- _]%lookup_singleton_Some [<- _]%lookup_singleton_Some. done.
  - intros f p [_ <-]%lookup_singleton_Some. simpl. lia.
  - intros f p [<- _]%lookup_singleton_Some. done.
  - intros f i p [_ ?]%lookup_singleton_Some. done.
  - intros f p t i _ [_ <-]%lookup_singleton_Some Hi. rewrite empty_entry, decide_False; [done|]. unfold RECURSIVE_INDEX. lia.
  - intros f p t i [_ <-]%lookup_singleton_Some [_ <-]%lookup_singleton_Some Hi. left.
    rewrite empty_entry, decide_False by auto. done.
  - intros f p t i c tc j _ _ _ [_ E]%lookup_singleton_Some. by destruct p.
  - intros c p i [_ E]%lookup_singleton_Some. by destruct p.
Qed.

Lemma empty_space {A} `{FrameAllocatorLaws A} root data (a : A) rest : root ≠ 0 →
  fa_used a = {[root]} ∪ dom data ∪ rest → root ∉ dom data → rest ## {[root]} ∪ dom data →
  space {[root := []]} rest (empty_vm root data a).
Proof.
  intros Hr Hu Hd Hrest. split; cbn [empty_vm vm_tables vm_root vm_data vm_alloc]; rewrite ?dom_singleton_L.
  - by apply empty_tree.
  - eexists. cbn [empty_vm vm_tables vm_root]. rewrite lookup_singleton_eq. split; [done|]. rewrite empty_entry. done.
  - done.
  - set_solver.
  - done.
Qed.

Lemma empty_leaf {A} root data (a : A) va : ordinary va → leaf (empty_vm root data a) va = None.
Proof.
  intros Ho. unfold leaf. cbn [leaf_walk empty_vm vm_tables vm_root]. rewrite lookup_singleton_eq. cbn [mbind option_bind].
  rewrite empty_entry, decide_False by done. done.
Qed.

Lemma empty_shows {A} `{FrameAllocatorLaws A} root data (a : A) rest : root ≠ 0 →
  fa_used a = {[root]} ∪ dom data ∪ rest → root ∉ dom data → rest ## {[root]} ∪ dom data →
  shows rest root data ∅ (empty_vm root data a) ∅.
Proof.
  intros Hr Hu Hd Hrest. exists {[root := []]}. split_and!; [by apply empty_space|done..| |];
    intros va; [intros Ho|intros e Ho]; rewrite empty_leaf by done; done.
Qed.

(** Regions below the tables. *)
Lemma region_below va size : va mod 4096 = 0 → 0 <= size → page va + npages size <= RECURSIVE_INDEX * 2 ^ 27 → region_ok va size.
Proof.
  intros Ha Hs He. unfold RECURSIVE_INDEX in He. split; [done|done|lia|]. intros k Hk E. unfold RECURSIVE_INDEX in E.
  assert (0 <= page va) by (apply Z.mod_pos_bound; lia).
  assert ((page va + k) / 2 ^ 27 < 510) by (apply Z.div_lt_upper_bound; lia). lia.
Qed.

Definition demo_pool : FramePool := mkPool ((λ k, (k + 2) * 4096) <$> upto 20) [] {[4096]}.
Definition demo_ops : list SpaceOp :=
  [OpMap 0x100000 0x400000 12000 (mkOpt true true false); OpMap 0x200000 0xffff900000000000 4096 (mkOpt false false true);
   OpProtect 0x401000 4096 (mkOpt true false true); OpUnmap 0x400000 4096; OpMap 0x300000 0x400000 8192 (mkOpt true false false)].


(** ** Outside the contract *)
(** A walk that comes back to the same entry with the same tables never ends. *)
Lemma entry_stuck {A} `{FrameAllocator A} target va fl (vm : VM A) t i l fuel :
  leaf_page_table_entry va fl vm = (vm, Ok (t, i, l)) → l ≠ target →
  let e := entry_of (default ∅ (vm_tables vm !! t)) i in
  e_addr e ≠ 0 → with_entry vm t i (mkPte (e_addr e) (fl_no_nx (fl_or (fl_or (e_flags e) fl) PRESENT))) = vm →
  (page_table_entry fuel target va fl vm).2 = OutOfFuel.
Proof.
  intros Hl Ht e Ha Hsame. induction fuel as [|fuel IH]; [done|]. cbn [page_table_entry].
  rewrite (bind_run _ _ _ _ _ Hl). cbv beta iota. rewrite decide_False by done.
  rewrite (bind_run _ _ vm vm e) by done. cbv zeta. rewrite decide_False by done.
  rewrite (bind_run _ _ vm vm tt); [done|]. exact (f_equal (λ v, (v, Ok tt)) Hsame).
Qed.

Definition user_rw : MemoryMappingOptions := mkOpt true false true.
Definition trap_pool : FramePool := mkPool ((λ k, (k + 2) * 4096) <$> upto 30) [0x40000000] {[4096]}.
Definition trap_vm : VM FramePool := empty_vm 4096 ∅ trap_pool.
(** A huge page, and one page in a region of 2 MiB. *)
Definition huge_vm : VM FramePool := (map_huge_page 0x40000000 0x600000 (to_flags user_rw) trap_vm).1.
Definition page_vm : VM FramePool := (map_inner 0x100000 0x600000 4096 user_rw trap_vm).1.
Definition huge_vm' : VM FramePool := (page_table_entry 1 LOne 0x601000 (to_flags user_rw) huge_vm).1.
Definition page_vm' : VM FramePool := (page_table_entry 1 LTwo 0x600000 (to_flags user_rw) page_vm).1.

(** The first turn, which may change the entry, and the turns after it. *)
Lemma entry_loops {A} `{FrameAllocator A} target va fl (vm vm' : VM A) t i l e fuel :
  leaf_page_table_entry va fl vm = (vm, Ok (t, i, l)) → l ≠ target → read_entry_at t i vm = (vm, Ok e) → e_addr e ≠ 0 →
  write_entry_at t i (mkPte (e_addr e) (fl_no_nx (fl_or (fl_or (e_flags e) fl) PRESENT))) vm = (vm', Ok tt) →
  (page_table_entry fuel target va fl vm').2 = OutOfFuel → (page_table_entry (S fuel) target va fl vm).2 = OutOfFuel.
Proof.
  intros Hl Ht He Ha Hw Hr. cbn [page_table_entry]. rewrite (bind_run _ _ _ _ _ Hl). cbv beta iota. rewrite decide_False by done.
  rewrite (bind_run _ _ _ _ _ He). cbv zeta. rewrite decide_False by done. by rewrite (bind_run _ _ _ _ _ Hw).
Qed.

Lemma huge_vm_loops fuel : (page_table_entry fuel LOne 0x601000 (to_flags user_rw) huge_vm).2 = OutOfFuel.
Proof.
  destruct fuel as [|fuel]; [done|]. apply (entry_loops _ _ _ huge_vm huge_vm' 0x3000 3 LTwo (mkPte 0x40000000 (mkFl true true true true true)));
    [by vm_compute|done|by vm_compute|done|by vm_compute|].
  apply (entry_stuck _ _ _ huge_vm' 0x3000 3 LTwo); [by vm_compute|done|by vm_compute|by vm_compute].
Qed.

Lemma page_vm_loops fuel : (page_table_entry fuel LTwo 0x600000 (to_flags user_rw) page_vm).2 = OutOfFuel.
Proof.
  destruct fuel as [|fuel]; [done|]. apply (entry_loops _ _ _ page_vm page_vm' 0x4000 0 LOne (mkPte 0x100000 (to_flags user_rw)));
    [by vm_compute|done|by vm_compute|done|by vm_compute|].
  apply (entry_stuck _ _ _ page_vm' 0x4000 0 LOne); [by vm_compute|done|by vm_compute|by vm_compute].
Qed.

(** A second address space made from the first, which then unmaps the only
    page the two share. *)
Definition shared_vm : VM FramePool :=
  fst ((map_inner 0x100000 0xffff900000000000 4096 (mkOpt false false true);;
        root ← create_user_page_table;
        switch_page_table root;;
        unmap_region 0xffff900000000000 4096;;
        switch_page_table 4096) trap_vm).

(** C34.  Outside that contract the code does what its callers cannot want:
    changing the rights of an unmapped page maps the page at physical address
    zero there, writable for the user; the entry of a page below a huge page,
    and the entry for a huge page over a table, are searched for ever; taking
    one page of a huge page away takes all 512 of them; and when one address
    space frees the last table of the kernel half, the root of the others
    still points to the frame that went back to the heap. *)
Theorem paging_traps :
  (let '(vm, r) := update_permissions 0x400000 4096 user_rw trap_vm in
   r = Ok tt ∧ translate trap_vm 0x400010 = None ∧ translate vm 0x400010 = Some (0x10, to_flags user_rw)) ∧
  (∀ fuel, (page_table_entry fuel LOne 0x601000 (to_flags user_rw) huge_vm).2 = OutOfFuel) ∧
  (∀ fuel, (page_table_entry fuel LTwo 0x600000 (to_flags user_rw) page_vm).2 = OutOfFuel) ∧
  (let '(vm, r) := unmap_page 0x600000 huge_vm in
   r = Ok tt ∧ is_Some (translate huge_vm 0x7ff000) ∧ translate vm 0x7ff000 = None) ∧
  (∃ t, vm_tables shared_vm !! vm_root shared_vm = Some t ∧ fl_present (e_flags (entry_of t 288)) = true
     ∧ e_addr (entry_of t 288) ∉ fa_used (vm_alloc shared_vm)).
Proof.
  split_and!.
  - by vm_compute.
  - apply huge_vm_loops.
  - apply page_vm_loops.
  - vm_compute. split_and!; [done|by eexists|done].
  - eexists. split; [by vm_compute|]. split; [by vm_compute|]. by apply (bool_decide_unpack _); vm_compute.
Qed.
