(* ===== verification/ProcessMemory.v ===== *)
(** * The memory of a process
    ([panda-kernel/src/memory/demand_paging.rs], [mapping.rs],
    [process/mod.rs], [syscall/process.rs], [interrupts.rs])

    Heap and stack of a process are regions whose pages come when they are
    first touched: an access without a page is a fault, and the handler of the
    fault maps a zeroed frame.  The program moves the end of its heap with
    [brk].  What a program sees is a plain memory of bytes. *)

From S2P Require Import Prelude Effects BlockDevice PageTable PageTableProof Paging PagingMap BufferVaddr.

Definition STACK_BASE : Z := 0x00007ffffef00000.
Definition STACK_MAX_SIZE : Z := 0x1000000.
Definition HEAP_BASE : Z := 0x0000000100000000.
Definition HEAP_MAX_SIZE : Z := 0x10000000000.

(** [VirtAddr::new], of a crate: it panics unless bits 47 to 63 agree. *)
Definition canonical (z : Z) : Prop := 0 <= z < 2 ^ 47 ∨ 2 ^ 64 - 2 ^ 47 <= z < 2 ^ 64.
#[export] Instance canonical_dec z : Decision (canonical z).
Proof. unfold canonical. apply _. Defined.
Definition VirtAddr_new {E} (z : Z) : outcome E Z := if decide (canonical z) then Ok z else Panic.

(** An address space with the two demand-paged mappings of a process. *)
Record Proc (A : Type) : Type := mkProc { pr_vm : VM A; pr_heap : Mapping; pr_stack : Mapping }.
Arguments mkProc {A} _ _ _.
Arguments pr_vm {A} _.
Arguments pr_heap {A} _.
Arguments pr_stack {A} _.

Section process.
Context {A : Type} `{FrameAllocator A}.
Abbreviation M := (ST (VM A) ()).
Abbreviation P := (ST (Proc A) ()).

Definition on_vm {B} (m : M B) : P B :=
  zoom pr_vm (λ vm p, mkProc vm (pr_heap p) (pr_stack p)) id m.

(** ** Page faults *)
Definition demand_options : MemoryMappingOptions := mkOpt true false true.

(** The page of a fault gets a zeroed frame. *)
Definition fault_in (fault_addr : Z) : M () :=
  let page_addr := align_to 0x1000 fault_addr in
  phys_addr ← allocate_frame;
  map_external phys_addr page_addr 4096 demand_options;;
  mret tt.

Definition try_handle_heap_page_fault (fault_addr brk : Z) : M bool :=
  if decide (fault_addr < HEAP_BASE ∨ fault_addr >= brk) then mret false
  else fault_in fault_addr;; mret true.

Definition try_handle_stack_page_fault (fault_addr : Z) : M bool :=
  if decide (fault_addr < STACK_BASE ∨ fault_addr >= STACK_BASE + STACK_MAX_SIZE) then mret false
  else fault_in fault_addr;; mret true.

(** [Process::brk]. *)
Definition brk (p : Proc A) : Z := HEAP_BASE + size_bytes (pr_heap p).

(** The user-mode part of the fault handler: [true] to run the instruction
    again, [false] when the process is removed. *)
Definition user_page_fault (protection_violation : bool) (fault_addr : Z) : P bool :=
  if protection_violation then mret false
  else
    stack ← on_vm (try_handle_stack_page_fault fault_addr);
    if (stack : bool) then mret true
    else
      b ← gets brk;
      on_vm (try_handle_heap_page_fault fault_addr b).

(** ** The break *)
Definition set_brk (new_brk : Z) : P Z :=
  let heap_end := HEAP_BASE + HEAP_MAX_SIZE in
  if decide (new_brk < HEAP_BASE ∨ new_brk > heap_end) then gets brk
  else
    p ← gets id;
    '(heap, _) ← on_vm (resize (pr_heap p) (new_brk - HEAP_BASE));
    modify (λ p, mkProc (pr_vm p) heap (pr_stack p));;
    gets brk.

Definition handle_brk (new_brk : Z) : P Z :=
  if decide (new_brk = 0) then gets brk
  else va ← liftO (VirtAddr_new new_brk); set_brk va.

(** ** A process begins and ends *)
Definition new_process (vm : VM A) : Proc A :=
  mkProc vm (mkMapping HEAP_BASE 0 DemandPaged) (mkMapping STACK_BASE STACK_MAX_SIZE DemandPaged).

(** The fields [stack] and [heap] go in the order of their declaration. *)
Definition drop_process : P () :=
  p ← gets id;
  on_vm (drop_mapping (pr_stack p));; on_vm (drop_mapping (pr_heap p)).

(** ** What a program does
    One byte at a time: the processor translates the address, and a fault
    that is handled runs the access again. *)
Inductive UserOp : Type := Load (va : Z) | Store (va b : Z) | Brk (new_brk : Z).
Inductive UserRes : Type := Byte (b : Z) | Stored | Killed | BrkIs (z : Z).

(** The byte at a physical address. *)
Definition phys_frame (pa : Z) : Z := align_to 4096 pa.
Definition load_phys (vm : VM A) (pa : Z) : Z := default 0 (default [] (vm_data vm !! phys_frame pa) !! Z.to_nat (pa mod 4096)).
Definition store_phys (pa b : Z) (vm : VM A) : VM A :=
  set_data vm (alter (<[Z.to_nat (pa mod 4096) := b]>) (phys_frame pa) (vm_data vm)).

Definition permits (op : UserOp) (fl : Flags) : bool :=
  fl_user fl && match op with Store _ _ => fl_writable fl | _ => true end.

Definition access (op : UserOp) (pa : Z) : P UserRes :=
  match op with
  | Store _ b => modify (λ p, mkProc (store_phys pa b (pr_vm p)) (pr_heap p) (pr_stack p));; mret Stored
  | _ => b ← gets (λ p, load_phys (pr_vm p) pa); mret (Byte b)
  end.

Fixpoint user_access (fuel : nat) (op : UserOp) (va : Z) : P UserRes :=
  match fuel with
  | O => liftO OutOfFuel
  | S fuel =>
      t ← gets (λ p, translate (pr_vm p) va);
      match t with
      | Some (pa, fl) =>
          if permits op fl then access op pa
          else handled ← user_page_fault true va;
               if (handled : bool) then user_access fuel op va else mret Killed
      | None =>
          handled ← user_page_fault false va;
          if (handled : bool) then user_access fuel op va else mret Killed
      end
  end.

Definition user_op (op : UserOp) : P UserRes :=
  match op with
  | Load va | Store va _ => user_access 2 op va
  | Brk new_brk => z ← handle_brk new_brk; mret (BrkIs z)
  end.

(** A program runs until it ends or is killed. *)
Fixpoint run_user (ops : list UserOp) : P (list UserRes) :=
  match ops with
  | [] => mret []
  | op :: ops =>
      r ← user_op op;
      match r with Killed => mret [Killed] | _ => rs ← run_user ops; mret (r :: rs) end
  end.
End process.

(** ** The reference: a memory of bytes *)
Record UMem : Type := mkUMem { um_brk : Z; um_mem : Z → Z }.

Definition in_stack (va : Z) : Prop := STACK_BASE <= va < STACK_BASE + STACK_MAX_SIZE.
(** The part of the heap below the buffers. *)
Definition in_heap (va : Z) : Prop := HEAP_BASE <= va < BUFFER_BASE.
Definition live (u : UMem) (va : Z) : Prop := in_stack va ∨ HEAP_BASE <= va < um_brk u.
#[export] Instance live_dec u va : Decision (live u va).
Proof. unfold live, in_stack. apply _. Defined.

Definition zero_between (lo hi : Z) (mem : Z → Z) (va : Z) : Z := if decide (lo <= va < hi) then 0 else mem va.

Definition abs_user_op (u : UMem) (op : UserOp) : UMem * UserRes :=
  match op with
  | Load va => (u, if decide (live u va) then Byte (um_mem u va) else Killed)
  | Store va b =>
      if decide (live u va)
      then (mkUMem (um_brk u) (λ a, if decide (a = va) then b else um_mem u a), Stored) else (u, Killed)
  | Brk z =>
      if decide (z = 0 ∨ z < HEAP_BASE ∨ z > HEAP_BASE + HEAP_MAX_SIZE) then (u, BrkIs (um_brk u))
      else (mkUMem z (zero_between z (um_brk u) (um_mem u)), BrkIs z)
  end.

Fixpoint abs_run_user (u : UMem) (ops : list UserOp) : UMem * list UserRes :=
  match ops with
  | [] => (u, [])
  | op :: ops =>
      match abs_user_op u op with
      | (u', Killed) => (u', [Killed])
      | (u', r) => let '(u'', rs) := abs_run_user u' ops in (u'', r :: rs)
      end
  end.

(** Addresses of the two regions, bytes, and breaks at page boundaries below
    the buffers. *)
Definition user_op_ok (op : UserOp) : Prop :=
  match op with
  | Load va => in_stack va ∨ in_heap va
  | Store va b => (in_stack va ∨ in_heap va) ∧ is_u8 b
  | Brk z => canonical z ∧ (HEAP_BASE <= z <= HEAP_BASE + HEAP_MAX_SIZE → z mod 4096 = 0 ∧ z <= BUFFER_BASE)
  end.

Definition demand_page (pg : Z) : Prop := in_stack (pg * 4096) ∨ in_heap (pg * 4096).
#[export] Instance demand_page_dec pg : Decision (demand_page pg).
Proof. unfold demand_page, in_stack, in_heap. apply _. Defined.

(** ** What the frames hold *)
Section memory.
Context {A : Type} `{FrameAllocatorLaws A}.
Implicit Types vm : VM A.

Definition demand_flags : Flags := to_flags demand_options.

(** The pages [fr] of heap and stack are mapped to frames of their own with
    the bytes [mem]; the other pages of the two regions are not mapped and
    hold zeros; all else is as in [other] and [od]. *)
Record mem_inv (rest : gset Z) (od : gmap Z (list Z)) (other : Z → option (PTE * nat)) (bk : Z) (mem : Z → Z)
    (fr : gmap Z Z) vm : Prop := {
  mi_space : ∃ own, space own rest vm;
  mi_leaf va : ordinary va → demand_page (page va) →
    leaf vm va = (λ f, (mkPte f demand_flags, 0%nat)) <$> fr !! page va;
  mi_other va : ordinary va → ¬ demand_page (page va) → leaf vm va = other va;
  mi_dom pg f : fr !! pg = Some f → in_stack (pg * 4096) ∨ HEAP_BASE <= pg * 4096 < bk;
  mi_inj pg pg' f : fr !! pg = Some f → fr !! pg' = Some f → pg = pg';
  mi_frame pg f : fr !! pg = Some f → f ≠ 0 ∧ f mod 4096 = 0 ∧ od !! f = None;
  mi_data pg f : fr !! pg = Some f → ∃ bs, vm_data vm !! f = Some bs ∧ length bs = 4096%nat ∧
    ∀ i, (i < 4096)%nat → bs !! i = Some (mem (pg * 4096 + Z.of_nat i));
  mi_zero pg : demand_page pg → fr !! pg = None → ∀ i, 0 <= i < 4096 → mem (pg * 4096 + i) = 0;
  mi_rest g : (∀ pg, fr !! pg ≠ Some g) → vm_data vm !! g = od !! g;
}.

Lemma page_small va : 0 <= va < 2 ^ 48 → page va = va / 4096.
Proof.
  intros Hva. unfold page. apply Z.mod_small. split; [apply Z.div_pos; lia|]. apply Z.div_lt_upper_bound; lia.
Qed.

Ltac consts := unfold in_stack, in_heap, demand_page, in_stack, in_heap, STACK_BASE, STACK_MAX_SIZE, HEAP_BASE, BUFFER_BASE in *.

Lemma demand_va va : in_stack va ∨ in_heap va →
  0 <= va < 2 ^ 47 ∧ page va = va / 4096 ∧ ordinary va ∧ demand_page (page va) ∧ va = page va * 4096 + va mod 4096.
Proof.
  intros Hva. assert (0 <= va < 2 ^ 47) as Hr by (consts; lia). rewrite ordinary_iff, page_small by lia.
  split_and!; [lia..|done| | |].
  - unfold ordinary_page, RECURSIVE_INDEX. intros E. assert (va / 4096 / 2 ^ 27 < 256) as Hlt; [|by rewrite E in Hlt].
    rewrite Z.div_div by lia. apply Z.div_lt_upper_bound; lia.
  - consts. Z.to_euclidean_division_equations. lia.
  - pose proof (Z.div_mod va 4096). lia.
Qed.

Lemma align_page va : in_stack va ∨ in_heap va → align_to 4096 va = page va * 4096 ∧ page (align_to 4096 va) = page va
  ∧ (in_stack (align_to 4096 va) ∨ in_heap (align_to 4096 va)) ∧ align_to 4096 va mod 4096 = 0.
Proof.
  intros Hva. destruct (demand_va va Hva) as (Hr&Hp&_&_&Hd). assert (align_to 4096 va = page va * 4096) as E.
  { unfold align_to. lia. }
  rewrite E. split_and!; [done| | |apply Z.mod_mul; lia].
  - rewrite (page_small (page va * 4096)) by (rewrite Hp; Z.to_euclidean_division_equations; lia). by rewrite Z.div_mul by lia.
  - rewrite Hp. consts. Z.to_euclidean_division_equations. lia.
Qed.

(** *** A page comes *)
Definition with_data vm (f : Z) (a : A) : VM A :=
  mkVm (vm_tables vm) (vm_root vm) (<[f := replicate 4096 0]> (vm_data vm)) a.

Lemma space_with_data own rest vm f a : space own rest vm → fa_alloc (vm_alloc vm) = Some (f, a) →
  space own rest (with_data vm f a) ∧ vm_data vm !! f = None ∧ 0 < f ∧ f mod 4096 = 0.
Proof.
  intros [Htr Hrec Hu Hd Hr] Hal. destruct (fa_alloc_used _ _ _ Hal) as (Hnew&Hu'&Hpos&Hf). rewrite Hu in Hnew.
  split; [|split_and!; [apply not_elem_of_dom; set_solver|done..]].
  split; cbn [with_data vm_tables vm_root vm_data vm_alloc]; rewrite ?dom_insert_L; [done..|rewrite Hu', Hu| |]; set_solver.
Qed.

Lemma map_external_page own rest vm phys va o : space own rest vm → ordinary va → va mod 4096 = 0 → 0 < phys →
  phys mod 4096 = 0 →
  spec (map_external phys va 4096 o) vm
    (λ _, becomes rest (vm_root vm) (vm_data vm)
            (λ va', if decide (leaf vm va = None ∧ in_page 0 va va') then Some (mkPte phys (to_flags o), 0%nat) else leaf vm va'))
    out_of_memory.
Proof.
  intros Hsp Ho Hva Hph Hpa. unfold map_external, map_inner. rewrite decide_False by lia.
  change (page_offsets 4096) with [0]. cbn [for_each]. rewrite !Z.add_0_r.
  pose proof (map_page_ok own rest vm phys va o Hsp Ho ltac:(lia)) as Hm. revert Hm.
  unfold spec, mbind, ST_bind. destruct (map_page _ _ _ vm) as [vm1 [[]|[]| |]]; simpl; done.
Qed.

Section regions.
Context (rest : gset Z) (od : gmap Z (list Z)) (other : Z → option (PTE * nat)).
Abbreviation mem_inv := (mem_inv rest od other).

(** The frame is mapped at the page of [va]. *)
Lemma mem_inv_insert bk mem fr vm va f a vm' : mem_inv bk mem fr vm → fa_alloc (vm_alloc vm) = Some (f, a) →
  in_stack va ∨ HEAP_BASE <= va < bk → bk <= BUFFER_BASE → bk mod 4096 = 0 → fr !! page va = None →
  becomes rest (vm_root vm) (vm_data (with_data vm f a))
    (λ va', if decide (in_page 0 va va') then Some (mkPte f demand_flags, 0%nat) else leaf vm va') vm' →
  mem_inv bk mem (<[page va := f]> fr) vm'.
Proof.
  intros Hmi Hal Hva Hbk Hba Hnone (own'&Hsp'&_&Hdata&Hv). pose proof Hmi as [[own Hsp] Hlf Hoth Hdom Hinj Hfr Hda Hz Hre].
  assert (in_stack va ∨ in_heap va) as Hva' by (consts; lia). destruct (demand_va va Hva') as (Hr&Hp&Ho&Hdp&Hdec).
  destruct (space_with_data own rest vm f a Hsp Hal) as (_&Hfd&Hpos&Hfa).
  assert (∀ pg, fr !! pg ≠ Some f) as Hnew.
  { intros pg Hpg. destruct (Hda pg f Hpg) as (bs&Hbs&_). congruence. }
  split.
  - by exists own'.
  - intros va' Ho' Hd'. rewrite Hv by done. destruct (decide (in_page 0 va va')) as [Hin|Hin]; rewrite in_page_page in Hin.
    + by rewrite Hin, lookup_insert_eq.
    + rewrite lookup_insert_ne by done. by apply Hlf.
  - intros va' Ho' Hd'. rewrite Hv by done. destruct (decide (in_page 0 va va')) as [Hin|Hin]; [|by apply Hoth].
    rewrite in_page_page in Hin. by rewrite Hin in Hd'.
  - intros pg g [[<- <-]|[_ Hg]]%lookup_insert_Some; [|by eapply Hdom]. destruct (align_page va Hva') as (E&_).
    unfold align_to in E. rewrite Hp. clear -Hva Hba. consts. Z.to_euclidean_division_equations. lia.
  - intros pg pg' g [[<- <-]|[? Hg]]%lookup_insert_Some [[<- ?]|[? Hg']]%lookup_insert_Some; [done|by destruct (Hnew pg')| |by eapply Hinj].
    subst g. by destruct (Hnew pg).
  - intros pg g [[<- <-]|[_ Hg]]%lookup_insert_Some; [|by eapply Hfr]. split_and!; [lia|done|]. by rewrite <-Hre.
  - rewrite Hdata. cbn [with_data vm_data]. intros pg g [[<- <-]|[_ Hg]]%lookup_insert_Some.
    + rewrite lookup_insert_eq. eexists. split_and!; [done|by rewrite length_replicate|]. intros i Hi.
      rewrite lookup_replicate_2 by done. rewrite Hz by (done || lia). done.
    + rewrite lookup_insert_ne by (intros <-; by destruct (Hnew pg)). by apply Hda.
  - intros pg Hd' [Hg _]%lookup_insert_None. by apply Hz.
  - rewrite Hdata. cbn [with_data vm_data]. intros g Hg. rewrite lookup_insert_ne.
    + apply Hre. intros pg Hpg. apply (Hg pg). rewrite lookup_insert_ne; [done|]. intros <-. congruence.
    + intros <-. apply (Hg (page va)). by rewrite lookup_insert_eq.
Qed.

Lemma fault_in_ok bk mem fr vm va : mem_inv bk mem fr vm → in_stack va ∨ HEAP_BASE <= va < bk → bk <= BUFFER_BASE →
  bk mod 4096 = 0 → fr !! page va = None →
  spec (fault_in va) vm (λ _ vm', ∃ f, mem_inv bk mem (<[page va := f]> fr) vm') out_of_memory.
Proof.
  intros Hmi Hva Hbk Hba Hnone. assert (in_stack va ∨ in_heap va) as Hva' by (consts; lia).
  destruct (align_page va Hva') as (E&Hpa&Hda&Hal). destruct (demand_va _ Hda) as (_&_&Ho&_).
  pose proof (mi_space _ _ _ _ _ _ _ Hmi) as [own Hsp]. pose proof (mi_leaf _ _ _ _ _ _ _ Hmi (align_to 4096 va)) as Hlf.
  unfold fault_in. change 0x1000 with 4096. unfold spec at 1, mbind at 1, ST_bind at 1, allocate_frame.
  destruct (fa_alloc (vm_alloc vm)) as [[f a]|] eqn:Hfa; [|done]. fold (with_data vm f a).
  destruct (space_with_data own rest vm f a Hsp Hfa) as (Hsp1&_&Hpos&Hf).
  fold (spec (map_external f (align_to 4096 va) 4096 demand_options ≫= λ _, mret tt) (with_data vm f a)
    (λ _ vm', ∃ f, mem_inv bk mem (<[page va := f]> fr) vm') out_of_memory).
  eapply spec_bind; [eapply (map_external_page own rest (with_data vm f a)); (done || lia)|].
  intros mp vm2 (own'&?&?&?&Hv). apply spec_ret. exists f. eapply mem_inv_insert; try done.
  exists own'. split_and!; try done. intros va' Ho'. rewrite Hv by done.
  change (leaf (with_data vm f a)) with (leaf vm). rewrite Hlf, Hpa, Hnone by (done || by eapply demand_va).
  apply decide_ext. rewrite !in_page_page, Hpa. split; [by intros [_ ?]|done].
Qed.

(** *** Loads and stores *)
Lemma frame_split f va : f mod 4096 = 0 → phys_frame (f + va mod 4096) = f ∧ (f + va mod 4096) mod 4096 = va mod 4096.
Proof.
  intros Hf. assert ((f + va mod 4096) mod 4096 = va mod 4096) as E.
  { rewrite <-Zplus_mod_idemp_l, Hf, Z.add_0_l. apply Z.mod_mod. lia. }
  split; [|done]. unfold phys_frame, align_to. lia.
Qed.

Lemma translate_mem bk mem fr vm va : mem_inv bk mem fr vm → in_stack va ∨ in_heap va →
  translate vm va = (λ f, (f + va mod 4096, demand_flags)) <$> fr !! page va.
Proof.
  intros Hmi Hva. destruct (demand_va va Hva) as (_&_&Ho&Hd&_). pose proof (mi_space _ _ _ _ _ _ _ Hmi) as [own Hsp].
  unfold translate. rewrite (mmu_leaf own rest vm Hsp va Ho), (mi_leaf _ _ _ _ _ _ _ Hmi va Ho Hd).
  by destruct (fr !! page va).
Qed.

Lemma load_mem bk mem fr vm va f : mem_inv bk mem fr vm → in_stack va ∨ in_heap va → fr !! page va = Some f →
  load_phys vm (f + va mod 4096) = mem va.
Proof.
  intros Hmi Hva Hf. destruct (demand_va va Hva) as (_&_&_&_&E). destruct (mi_frame _ _ _ _ _ _ _ Hmi _ _ Hf) as (_&Ha&_).
  destruct (mi_data _ _ _ _ _ _ _ Hmi _ _ Hf) as (bs&Hbs&Hl&Hc). destruct (frame_split f va Ha) as [E1 E2].
  unfold load_phys. rewrite E1, E2, Hbs. cbn [default id]. pose proof (Z.mod_pos_bound va 4096).
  rewrite Hc by lia. simpl. f_equal. lia.
Qed.

Lemma store_mem bk mem fr vm va f b : mem_inv bk mem fr vm → in_stack va ∨ in_heap va → fr !! page va = Some f →
  mem_inv bk (λ a, if decide (a = va) then b else mem a) fr (store_phys (f + va mod 4096) b vm).
Proof.
  intros Hmi Hva Hf. destruct (demand_va va Hva) as (_&_&_&_&E). destruct (mi_frame _ _ _ _ _ _ _ Hmi _ _ Hf) as (_&Ha&_).
  destruct (frame_split f va Ha) as [E1 E2]. pose proof (Z.mod_pos_bound va 4096 ltac:(lia)) as Hm.
  destruct Hmi as [[own Hsp] Hlf Hoth Hdom Hinj Hfr Hda Hz Hre]. unfold store_phys. rewrite E1, E2. split; try done.
  - exists own. destruct Hsp as [Htr Hrec Hu Hdj Hr]. split; cbn [set_data vm_tables vm_root vm_data vm_alloc]; rewrite ?dom_alter_L; done.
  - intros pg g Hg. cbn [set_data vm_data]. destruct (Hda pg g Hg) as (bs&Hbs&Hl&Hc). destruct (decide (g = f)) as [->|Hne].
    + rewrite lookup_alter_eq, Hbs. pose proof (Hinj _ _ _ Hg Hf) as ->. eexists. split_and!; [done|by rewrite length_insert|].
      intros i Hi. destruct (decide (i = Z.to_nat (va mod 4096))) as [->|Hi'].
      * rewrite list_lookup_insert_eq by lia. rewrite decide_True by lia. done.
      * rewrite list_lookup_insert_ne by done. rewrite decide_False by lia. by apply Hc.
    + rewrite lookup_alter_ne by done. exists bs. split_and!; [done..|]. intros i Hi. rewrite decide_False; [by apply Hc|].
      intros E'. apply Hne. assert (pg = page va) as -> by lia. congruence.
  - intros pg Hd Hn i Hi. rewrite decide_False; [by apply Hz|]. intros E'. assert (pg = page va) as -> by lia. congruence.
  - intros g Hg. cbn [set_data vm_data]. rewrite lookup_alter_ne; [by apply Hre|]. intros <-. by apply (Hg (page va)).
Qed.

(** *** Pages go *)
Lemma mem_inv_ext bk mem mem' fr vm : (∀ a, mem a = mem' a) → mem_inv bk mem fr vm → mem_inv bk mem' fr vm.
Proof.
  intros E [Hsp Hlf Hoth Hdom Hinj Hfr Hda Hz Hre]. split; try done.
  - intros pg f Hf. destruct (Hda pg f Hf) as (bs&?&?&Hc). exists bs. split_and!; [done..|]. intros i Hi. by rewrite <-E, Hc.
  - intros pg Hd Hn i Hi. rewrite <-E. by apply Hz.
Qed.

Lemma mem_inv_delete bk mem fr vm va f vm' : mem_inv bk mem fr vm → in_stack va ∨ in_heap va → fr !! page va = Some f →
  becomes rest (vm_root vm) (delete f (vm_data vm)) (λ va', if decide (in_page 0 va va') then None else leaf vm va') vm' →
  mem_inv bk (zero_between (page va * 4096) (page va * 4096 + 4096) mem) (delete (page va) fr) vm'.
Proof.
  intros [_ Hlf Hoth Hdom Hinj Hfr Hda Hz Hre] Hva Hf (own'&Hsp'&_&Hdata&Hv).
  destruct (demand_va va Hva) as (_&_&_&Hdp&_). split.
  - by exists own'.
  - intros va' Ho' Hd'. rewrite Hv by done. destruct (decide (in_page 0 va va')) as [Hin|Hin]; rewrite in_page_page in Hin.
    + by rewrite Hin, lookup_delete_eq.
    + rewrite lookup_delete_ne by done. by apply Hlf.
  - intros va' Ho' Hd'. rewrite Hv by done. destruct (decide (in_page 0 va va')) as [Hin|Hin]; [|by apply Hoth].
    rewrite in_page_page in Hin. by rewrite Hin in Hd'.
  - intros pg g [_ Hg]%lookup_delete_Some. by eapply Hdom.
  - intros pg pg' g [_ Hg]%lookup_delete_Some [_ Hg']%lookup_delete_Some. by eapply Hinj.
  - intros pg g [_ Hg]%lookup_delete_Some. by eapply Hfr.
  - rewrite Hdata. intros pg g [Hne Hg]%lookup_delete_Some. rewrite lookup_delete_ne by (intros <-; apply Hne; by eapply Hinj).
    destruct (Hda pg g Hg) as (bs&?&?&Hc). exists bs. split_and!; [done..|]. intros i Hi. unfold zero_between.
    rewrite decide_False by lia. by apply Hc.
  - intros pg Hd' Hn i Hi. unfold zero_between. destruct (decide _) as [|Hnb]; [done|]. apply Hz; [done| |done].
    rewrite lookup_delete_ne in Hn; [done|]. intros <-. lia.
  - rewrite Hdata. intros g Hg. destruct (decide (g = f)) as [->|Hne].
    + rewrite lookup_delete_eq. by destruct (Hfr _ _ Hf) as (_&_&->).
    + rewrite lookup_delete_ne by done. apply Hre. intros pg Hpg. apply (Hg pg). rewrite lookup_delete_ne; [done|].
      intros <-. congruence.
Qed.

Lemma free_page_mem bk mem fr vm va : mem_inv bk mem fr vm → in_stack va ∨ in_heap va →
  spec (free_page va) vm
    (λ _, mem_inv bk (zero_between (page va * 4096) (page va * 4096 + 4096) mem) (delete (page va) fr)) (λ _ _, False).
Proof.
  intros Hmi Hva. destruct (demand_va va Hva) as (_&_&Ho&Hd&_). pose proof (mi_space _ _ _ _ _ _ _ Hmi) as [own Hsp].
  pose proof (mi_leaf _ _ _ _ _ _ _ Hmi va Ho Hd) as Hlf.
  eapply spec_weaken; [eapply (free_page_ok own rest vm va Hsp Ho)| |done]; rewrite Hlf.
  - intros e k. destruct (fr !! page va) as [f|] eqn:Hf; [|done]. intros [= <- <-]. split; [done|].
    destruct (mi_data _ _ _ _ _ _ _ Hmi _ _ Hf) as (bs&Hbs&_). apply elem_of_dom. by eexists.
  - intros [] vm' Hb. destruct (fr !! page va) as [f|] eqn:Hf.
    + eapply mem_inv_delete; try done. destruct Hb as (own'&?&?&?&Hv). exists own'. split_and!; try done.
      intros va' Ho'. rewrite Hv by done. unfold cleared. by rewrite Hlf.
    + rewrite delete_id by done. destruct Hb as (own'&?&?&Hdata&Hv).
      eapply (mem_inv_ext bk mem).
      { intros a. unfold zero_between. destruct (decide _) as [Hin|]; [|done].
        replace a with (page va * 4096 + (a - page va * 4096)) by lia.
        by apply (mi_zero _ _ _ _ _ _ _ Hmi); [done..|lia]. }
      destruct Hmi as [_ Hlf' Hoth Hdom Hinj Hfr Hda Hz Hre]. unfold cleared in Hv. rewrite Hlf in Hv.
      split; [by exists own'|..]; try done; rewrite ?Hdata; try done.
      * intros va' Ho' Hd'. rewrite Hv by done. by apply Hlf'.
      * intros va' Ho' Hd'. rewrite Hv by done. by apply Hoth.
Qed.

(** [fr'] is [fr] without the pages of [n] pages from [base] on. *)
Definition without (base n : Z) (fr fr' : gmap Z Z) : Prop :=
  ∀ pg, fr' !! pg = if decide (base <= pg * 4096 < base + n * 4096) then None else fr !! pg.

Lemma free_region_mem bk mem fr vm base size : mem_inv bk mem fr vm → 0 <= size → base mod 4096 = 0 →
  (∀ k, 0 <= k < npages size → in_stack (base + k * 4096) ∨ in_heap (base + k * 4096)) →
  spec (free_region base size) vm
    (λ _ vm', ∃ fr', mem_inv bk (zero_between base (base + npages size * 4096) mem) fr' vm' ∧ without base (npages size) fr fr')
    (λ _ _, False).
Proof.
  intros Hmi Hs Hb Hrg. unfold free_region, page_offsets. fold (npages size).
  apply (spec_for_upto _ _ (λ k vm', ∃ fr', mem_inv bk (zero_between base (base + k * 4096) mem) fr' vm' ∧ without base k fr fr')).
  - apply Z.div_pos; lia.
  - exists fr. split.
    + apply (mem_inv_ext bk mem); [|done]. intros a. unfold zero_between. by rewrite decide_False by lia.
    + intros pg. by rewrite decide_False by lia.
  - intros k vm' Hk (fr'&Hmi'&Hfr'). pose proof (Hrg k Hk) as Hd. destruct (demand_va _ Hd) as (_&_&_&_&E).
    assert ((base + k * 4096) mod 4096 = 0) as Hm by (rewrite Z.mod_add by lia; done).
    eapply spec_weaken; [by apply free_page_mem| |done]. intros [] vm2 Hmi2. exists (delete (page (base + k * 4096)) fr'). split.
    + eapply mem_inv_ext, Hmi2. intros a. unfold zero_between. repeat case_decide; try done; lia.
    + intros pg. destruct (decide (pg = page (base + k * 4096))) as [->|Hne].
      * rewrite lookup_delete_eq. by rewrite decide_True by lia.
      * rewrite lookup_delete_ne, Hfr' by done. repeat case_decide; try done; lia.
Qed.

(** A smaller heap, when the pages above are gone. *)
Lemma mem_inv_lower bk bk' mem fr vm : mem_inv bk mem fr vm →
  (∀ pg f, fr !! pg = Some f → HEAP_BASE <= pg * 4096 < bk → pg * 4096 < bk') → mem_inv bk' mem fr vm.
Proof.
  intros [Hsp Hlf Hoth Hdom Hinj Hfr Hda Hz Hre] Hlow. split; try done. intros pg f Hf.
  destruct (Hdom pg f Hf) as [|Hh]; [by left|]. right. split; [lia|]. by eapply Hlow.
Qed.

(** ** Processes *)
Implicit Types p : Proc A.
Implicit Types u : UMem.

Definition proc_inv u p : Prop :=
  (∃ fr, mem_inv (um_brk u) (um_mem u) fr (pr_vm p))
  ∧ pr_heap p = mkMapping HEAP_BASE (um_brk u - HEAP_BASE) DemandPaged
  ∧ pr_stack p = mkMapping STACK_BASE STACK_MAX_SIZE DemandPaged
  ∧ HEAP_BASE <= um_brk u <= BUFFER_BASE ∧ um_brk u mod 4096 = 0.

Definition proc_oom (_ : ()) p : Prop := out_of_memory tt (pr_vm p).

Lemma spec_on_vm {B} (m : ST (VM A) () B) p Q R : spec m (pr_vm p) Q R →
  spec (on_vm m) p (λ b p', Q b (pr_vm p') ∧ pr_heap p' = pr_heap p ∧ pr_stack p' = pr_stack p) (λ e p', R e (pr_vm p')).
Proof. intros Hm. eapply spec_zoom; [done|..]; simpl; auto. Qed.

Lemma spec_on_vm_total {B} (m : ST (VM A) () B) p Q : spec m (pr_vm p) Q (λ _ _, False) →
  spec (on_vm m) p (λ b p', Q b (pr_vm p') ∧ pr_heap p' = pr_heap p ∧ pr_stack p' = pr_stack p) (λ _ _, False).
Proof. intros Hm. by apply (spec_on_vm m p Q (λ _ _, False)). Qed.

Lemma brk_inv u p : proc_inv u p → brk p = um_brk u.
Proof. intros (_&Hh&_). unfold brk. rewrite Hh. simpl. lia. Qed.

(** An access outside the live part. *)
Lemma access_dead u p op va : proc_inv u p → in_stack va ∨ in_heap va → ¬ live u va →
  user_access 2 op va p = (p, Ok Killed).
Proof.
  intros Hpi Hva Hl. pose proof Hpi as ([fr Hmi]&Hh&Hs&Hb&Hba). destruct (demand_va va Hva) as (_&_&_&_&E).
  pose proof (Z.mod_pos_bound va 4096 ltac:(lia)) as Hm. unfold live in Hl.
  assert (fr !! page va = None) as Hnone.
  { destruct (fr !! page va) as [f|] eqn:Hf; [|done]. exfalso. apply Hl. pose proof (mi_dom _ _ _ _ _ _ _ Hmi _ _ Hf) as Hd.
    rewrite E. clear -Hd Hm Hba Hva E. consts. Z.to_euclidean_division_equations. lia. }
  assert (user_page_fault false va p = (p, Ok false)) as Hfault.
  { destruct p as [vm heap stack]. cbn in Hh, Hs. subst heap stack.
    unfold user_page_fault, on_vm, zoom, mbind, ST_bind, gets, try_handle_stack_page_fault, try_handle_heap_page_fault.
    unfold in_stack in Hl. rewrite decide_True by lia. cbn -[HEAP_BASE]. unfold brk. cbn -[HEAP_BASE]. by rewrite decide_True by lia. }
  cbn [user_access]. rewrite (bind_run _ _ p p None).
  - by rewrite (bind_run _ _ p p false).
  - unfold gets. by rewrite (translate_mem _ _ _ _ va Hmi Hva), Hnone.
Qed.

(** A fault in the live part brings the page. *)
Lemma fault_live u p va fr : proc_inv u p → mem_inv (um_brk u) (um_mem u) fr (pr_vm p) → live u va → fr !! page va = None →
  spec (user_page_fault false va) p
    (λ r p', r = true ∧ proc_inv u p' ∧ ∃ fr' f, mem_inv (um_brk u) (um_mem u) fr' (pr_vm p') ∧ fr' !! page va = Some f) proc_oom.
Proof.
  intros Hpi Hmi Hl Hnone. pose proof Hpi as (_&Hh&Hs&Hb&Hba).
  pose proof (fault_in_ok _ _ _ _ va Hmi Hl ltac:(lia) Hba Hnone) as Hf.
  assert (∀ p', (∃ f, mem_inv (um_brk u) (um_mem u) (<[page va := f]> fr) (pr_vm p')) ∧ pr_heap p' = pr_heap p ∧ pr_stack p' = pr_stack p →
    proc_inv u p' ∧ ∃ fr' f, mem_inv (um_brk u) (um_mem u) fr' (pr_vm p') ∧ fr' !! page va = Some f) as Hdone.
  { intros p' ([f Hf']&E1&E2). split.
    - split_and!; try done; [by eexists|congruence..|lia|lia].
    - exists (<[page va := f]> fr), f. by rewrite lookup_insert_eq. }
  unfold user_page_fault. eapply spec_bind.
  { eapply (spec_on_vm _ _ (λ r vm', if decide (in_stack va) then r = true ∧ ∃ f, mem_inv (um_brk u) (um_mem u) (<[page va := f]> fr) vm'
                                   else r = false ∧ vm' = pr_vm p) out_of_memory).
    unfold try_handle_stack_page_fault, in_stack. destruct (decide (_ ∨ _)) as [Hn|Hn].
    - apply spec_ret. by rewrite decide_False by lia.
    - eapply spec_bind; [done|]. intros [] vm' Hvm'. apply spec_ret. by rewrite decide_True by lia. }
  intros r p1 (Hr&E1&E2). destruct (decide (in_stack va)) as [Hst|Hst]; destruct Hr as [-> Hr].
  { apply spec_ret. split; [done|]. by apply Hdone. }
  apply spec_bind_gets. eapply spec_weaken;
    [eapply (spec_on_vm _ _ (λ r vm', r = true ∧ ∃ f, mem_inv (um_brk u) (um_mem u) (<[page va := f]> fr) vm') out_of_memory)| |].
  - unfold try_handle_heap_page_fault, brk. rewrite E1, Hh. cbn [size_bytes]. destruct Hl as [|Hl]; [done|].
    rewrite decide_False by lia. rewrite Hr. eapply spec_bind; [done|]. intros [] vm' Hvm'. by apply spec_ret.
  - intros r p2 ((->&Hm)&E1'&E2'). split; [done|]. apply Hdone. split_and!; [done|congruence..].
  - by intros [] p2.
Qed.

(** An access to a mapped page. *)
Lemma access_mapped u p op va fr f fuel : mem_inv (um_brk u) (um_mem u) fr (pr_vm p) → in_stack va ∨ in_heap va →
  fr !! page va = Some f → user_access (S fuel) op va p = access op (f + va mod 4096) p.
Proof.
  intros Hmi Hva Hf. cbn [user_access]. rewrite (bind_run _ _ p p (Some (f + va mod 4096, demand_flags))).
  - by destruct op.
  - unfold gets. by rewrite (translate_mem _ _ _ _ va Hmi Hva), Hf.
Qed.

Lemma user_access_ok u p op va : proc_inv u p → in_stack va ∨ in_heap va → live u va →
  spec (user_access 2 op va) p
    (λ r p', ∃ p1 fr f, proc_inv u p1 ∧ mem_inv (um_brk u) (um_mem u) fr (pr_vm p1) ∧ fr !! page va = Some f
       ∧ access op (f + va mod 4096) p1 = (p', Ok r)) proc_oom.
Proof.
  intros Hpi Hva Hl. pose proof Hpi as ([fr Hmi]&_).
  assert (∀ p1 fr f fuel, proc_inv u p1 → mem_inv (um_brk u) (um_mem u) fr (pr_vm p1) → fr !! page va = Some f →
    spec (user_access (S fuel) op va) p1
      (λ r p', ∃ p1 fr f, proc_inv u p1 ∧ mem_inv (um_brk u) (um_mem u) fr (pr_vm p1) ∧ fr !! page va = Some f
         ∧ access op (f + va mod 4096) p1 = (p', Ok r)) proc_oom) as Hmapped.
  { intros p1 fr1 f fuel Hpi1 Hmi1 Hf. unfold spec. rewrite (access_mapped u p1 op va fr1 f) by done.
    destruct (access op (f + va mod 4096) p1) as [p' [r|[]| |]] eqn:E; [by exists p1, fr1, f|by destruct op..]. }
  destruct (fr !! page va) as [f|] eqn:Hf; [by eapply Hmapped|].
  cbn [user_access]. eapply (spec_bind_run _ _ p p None).
  { unfold gets. by rewrite (translate_mem _ _ _ _ va Hmi Hva), Hf. }
  eapply spec_bind; [by eapply fault_live|]. intros r p1 (->&Hpi1&fr1&f&Hmi1&Hf1). by eapply (Hmapped p1 fr1 f 0%nat).
Qed.

(** *** Every operation of a program *)
Definition agrees u op (r : UserRes) p' : Prop := r = (abs_user_op u op).2 ∧ proc_inv (abs_user_op u op).1 p'.

Lemma load_ok u p va : proc_inv u p → user_op_ok (Load va) → spec (user_op (Load va)) p (agrees u (Load va)) proc_oom.
Proof.
  intros Hpi Hva. cbn [user_op user_op_ok] in *. unfold agrees. cbn [abs_user_op fst snd].
  destruct (decide (live u va)) as [Hl|Hl]; [|unfold spec; by rewrite (access_dead u)].
  eapply spec_weaken; [by apply user_access_ok| |done]. intros r p' (p1&fr&f&Hpi1&Hmi1&Hf&E).
  cbn in E. injection E as <- <-. by erewrite load_mem.
Qed.

Lemma store_ok u p va b : proc_inv u p → user_op_ok (Store va b) → spec (user_op (Store va b)) p (agrees u (Store va b)) proc_oom.
Proof.
  intros Hpi [Hva Hb]. cbn [user_op] in *. unfold agrees. cbn [abs_user_op].
  destruct (decide (live u va)) as [Hl|Hl]; [|unfold spec; by rewrite (access_dead u)].
  eapply spec_weaken; [by apply user_access_ok| |done]. intros r p' (p1&fr&f&Hpi1&Hmi1&Hf&E).
  cbn in E. injection E as <- <-. split; [done|]. destruct Hpi1 as (_&?&?&?&?). unfold proc_inv. cbn [fst um_brk um_mem].
  split; [exists fr; by apply store_mem|done].
Qed.

Lemma resize_ok u p z : proc_inv u p → HEAP_BASE <= z <= BUFFER_BASE → z mod 4096 = 0 →
  spec (resize (pr_heap p) (z - HEAP_BASE)) (pr_vm p)
    (λ r vm', r.1 = mkMapping HEAP_BASE (z - HEAP_BASE) DemandPaged ∧
       ∃ fr, mem_inv z (zero_between z (um_brk u) (um_mem u)) fr vm') (λ _ _, False).
Proof.
  intros ([fr Hmi]&Hh&_&Hb&Hba) Hz Hza. unfold resize. rewrite Hh. cbn [backing size_bytes base_virt].
  replace (HEAP_BASE + (z - HEAP_BASE)) with z by lia. replace (um_brk u - HEAP_BASE - (z - HEAP_BASE)) with (um_brk u - z) by lia.
  destruct (decide (z - HEAP_BASE < um_brk u - HEAP_BASE)) as [Hlt|Hge].
  - assert (z + npages (um_brk u - z) * 4096 = um_brk u) as En.
    { unfold npages. clear -Hba Hza Hlt. Z.to_euclidean_division_equations. lia. }
    eapply spec_bind; [eapply (free_region_mem _ _ _ _ z (um_brk u - z) Hmi); [lia|done|consts; lia]|].
    rewrite En. intros [] vm' (fr'&Hmi'&Hfr'). apply spec_ret. split; [done|]. exists fr'. apply (mem_inv_lower _ _ _ _ _ Hmi').
    intros pg f Hf Hpg. rewrite Hfr', En in Hf. destruct (decide _) as [|Hn]; [done|]. lia.
  - apply spec_bind_ret, spec_ret. split; [done|]. exists fr. eapply mem_inv_ext, mem_inv_lower; [|done|].
    + intros a. unfold zero_between. by rewrite decide_False by lia.
    + intros. lia.
Qed.

Lemma brk_ok u p z : proc_inv u p → user_op_ok (Brk z) → spec (user_op (Brk z)) p (agrees u (Brk z)) proc_oom.
Proof.
  intros Hpi [Hc Hz]. cbn [user_op]. unfold agrees. cbn [abs_user_op]. pose proof (brk_inv u p Hpi) as Hbrk.
  unfold handle_brk, VirtAddr_new. destruct (decide (z = 0)) as [->|Hz0].
  { rewrite decide_True by (by left). unfold spec, mbind, ST_bind, gets. by rewrite Hbrk. }
  rewrite decide_True by done. unfold set_brk. destruct (decide (z < HEAP_BASE ∨ z > HEAP_BASE + HEAP_MAX_SIZE)) as [Hout|Hin].
  { rewrite decide_True by tauto. unfold spec, mbind, ST_bind, gets, liftO. cbv beta iota. rewrite decide_True by done. by rewrite Hbrk. }
  rewrite decide_False by tauto. destruct Hz as [Hza Hzb]; [lia|].
  eapply (spec_bind _ _ _ (λ r p', r = z ∧ proc_inv (mkUMem z (zero_between z (um_brk u) (um_mem u))) p')).
  - eapply spec_bind_Ok; [done|]. rewrite decide_False by done. apply spec_bind_gets.
    eapply spec_bind; [eapply spec_weaken; [eapply spec_on_vm_total, resize_ok; [done|lia|done]|intros r p1 Hr; exact Hr|done]|].
    intros [heap n] p1 ((Hheap&fr&Hmi)&_&Hs). cbn in Hheap. subst heap.
    apply spec_bind_modify, spec_gets. destruct Hpi as (_&_&Hs0&_). unfold brk. cbn [pr_heap size_bytes].
    split; [lia|]. split_and!; cbn [pr_vm pr_heap pr_stack um_brk um_mem]; [by exists fr|done|congruence|lia..|done].
  - intros r p' [-> Hp']. by apply spec_ret.
Qed.

Lemma user_op_agrees u p op : proc_inv u p → user_op_ok op → spec (user_op op) p (agrees u op) proc_oom.
Proof. destruct op; [apply load_ok|apply store_ok|apply brk_ok]. Qed.

Lemma run_user_ok ops : ∀ u p, proc_inv u p → Forall user_op_ok ops →
  spec (run_user ops) p (λ rs p', rs = (abs_run_user u ops).2 ∧ proc_inv (abs_run_user u ops).1 p') proc_oom.
Proof.
  induction ops as [|op ops IH]; intros u p Hpi Hok; [by apply spec_ret|]. apply Forall_cons in Hok as [Hop Hok].
  cbn [run_user abs_run_user]. eapply spec_bind; [by apply user_op_agrees|]. intros r p1 [-> Hpi1].
  destruct (abs_user_op u op) as [u1 r1]. cbn [fst snd] in *.
  destruct r1; [| |by apply spec_ret|]; (eapply spec_bind; [by apply IH|]); intros rs p2 [-> Hpi2]; apply spec_ret;
    by destruct (abs_run_user u1 ops).
Qed.

(** *** The end of a process *)
Lemma drop_stack u p fr : mem_inv (um_brk u) (um_mem u) fr (pr_vm p) →
  spec (free_region STACK_BASE STACK_MAX_SIZE) (pr_vm p)
    (λ _ vm', ∃ mem' fr', mem_inv (um_brk u) mem' fr' vm' ∧ without STACK_BASE 4096 fr fr') (λ _ _, False).
Proof.
  intros Hmi. eapply spec_weaken; [eapply (free_region_mem _ _ _ _ STACK_BASE STACK_MAX_SIZE Hmi)| |done]; [done|done|..].
  - intros k Hk. left. change (npages STACK_MAX_SIZE) with 4096 in Hk. consts. lia.
  - intros [] vm' (fr'&?&?). eauto.
Qed.

Lemma drop_process_ok u p : proc_inv u p →
  spec drop_process p (λ _ p', vm_data (pr_vm p') = od ∧ ∃ own, space own rest (pr_vm p')
    ∧ ∀ va, ordinary va → leaf (pr_vm p') va = if decide (demand_page (page va)) then None else other va)
    (λ _ _, False).
Proof.
  intros ([fr Hmi]&Hh&Hs&Hb&Hba). unfold drop_process. apply spec_bind_gets. cbn [id]. rewrite Hh, Hs.
  unfold drop_mapping. cbn [backing base_virt size_bytes].
  eapply spec_bind; [eapply spec_on_vm_total, drop_stack, Hmi|]. intros [] p1 ((mem1&fr1&Hmi1&Hfr1)&_&_).
  assert (HEAP_BASE + npages (um_brk u - HEAP_BASE) * 4096 = um_brk u) as En.
  { unfold npages, HEAP_BASE in *. clear -Hb Hba. Z.to_euclidean_division_equations. lia. }
  eapply spec_weaken; [eapply spec_on_vm_total, (free_region_mem _ _ _ _ HEAP_BASE (um_brk u - HEAP_BASE) Hmi1); [lia|done|]| |done].
  { intros k Hk. right. consts. lia. }
  intros [] p2 ((fr2&Hmi2&Hfr2)&_&_).
  assert (∀ pg, fr2 !! pg = None) as Hnone.
  { intros pg. rewrite Hfr2. destruct (decide _) as [|Hn]; [done|]. rewrite Hfr1. destruct (decide _) as [|Hn']; [done|].
    destruct (fr !! pg) as [f|] eqn:Hf; [|done]. exfalso. destruct (mi_dom _ _ _ _ _ _ _ Hmi _ _ Hf); consts; lia. }
  pose proof (mi_space _ _ _ _ _ _ _ Hmi2) as [own Hsp]. split.
  - apply map_eq. intros g. apply (mi_rest _ _ _ _ _ _ _ Hmi2). intros pg. by rewrite Hnone.
  - exists own. split; [done|]. intros va Ho. destruct (decide _) as [Hd|Hd].
    + by rewrite (mi_leaf _ _ _ _ _ _ _ Hmi2), Hnone.
    + by apply (mi_other _ _ _ _ _ _ _ Hmi2).
Qed.

(** A new process on an address space with nothing mapped in the two regions. *)
Lemma new_process_inv own vm : space own rest vm → vm_data vm = od → (∀ va, ordinary va → leaf vm va = other va) →
  (∀ va, ordinary va → demand_page (page va) → leaf vm va = None) →
  proc_inv (mkUMem HEAP_BASE (λ _, 0)) (new_process vm).
Proof.
  intros Hsp Hd Hoth Hnone. split_and!; try done. exists ∅. split; try done.
  - by exists own.
  - intros va Ho _. by apply Hoth.
  - intros g _. cbn [new_process pr_vm]. by rewrite Hd.
Qed.
End regions.

End memory.

(** ** A program *)
Definition demo_space : VM FramePool := empty_vm 4096 ∅ (mkPool ((λ k, (k + 2) * 4096) <$> upto 60) [] {[4096]}).
Definition demo_program : list UserOp :=
  [Brk (HEAP_BASE + 0x3000); Store (HEAP_BASE + 0x1005) 7; Store (HEAP_BASE + 0x2005) 8; Load (HEAP_BASE + 0x1005);
   Load (HEAP_BASE + 5); Store (STACK_BASE + 0xfffff8) 9; Brk (HEAP_BASE + 0x2000); Brk (HEAP_BASE + 0x3000);
   Load (HEAP_BASE + 0x2005); Load (HEAP_BASE + 0x1005); Load (STACK_BASE + 0xfffff8); Brk 0; Load (HEAP_BASE + 0x3000)].


(** ** Outside the contract *)
(** A break that is not at a page boundary. *)
Definition unaligned_program : list UserOp :=
  [Brk (HEAP_BASE + 0x2100); Store (HEAP_BASE + 0x1000) 7; Store (HEAP_BASE + 0x2000) 9; Brk (HEAP_BASE + 0x1800);
   Load (HEAP_BASE + 0x1000); Load (HEAP_BASE + 0x2000)].

(** C36.  What [brk] does with the other values: an address that is not
    canonical stops the kernel; a break inside a page takes away the page that
    holds it, so that bytes below the break are lost, and leaves a page above
    the break, whose frame is not free even after the process has ended; and
    because the range of breaks reaches over the buffers, moving the break
    into the buffers and back frees the frame of a mapped buffer while its
    owner still has it. *)
Theorem brk_traps :
  (∀ (p : Proc FramePool) z, ¬ canonical z → (handle_brk z p).2 = Panic) ∧
  (run_user unaligned_program (new_process demo_space)).2 =
    Ok [BrkIs (HEAP_BASE + 0x2100); Stored; Stored; BrkIs (HEAP_BASE + 0x1800); Byte 0; Byte 9] ∧
  (∃ p, (run_user unaligned_program;; drop_process) (new_process demo_space) = (p, Ok tt) ∧ vm_data (pr_vm p) ≠ ∅) ∧
  HEAP_BASE + HEAP_MAX_SIZE = BUFFER_END ∧
  (∃ f vm p, allocate_and_map BUFFER_BASE 4096 demand_options demo_space = (vm, Ok (mkMapping BUFFER_BASE 4096 (Frames [(f, 4096)])))
     ∧ f ∈ fa_used (vm_alloc vm)
     ∧ (handle_brk (BUFFER_BASE + 4096);; handle_brk BUFFER_BASE) (new_process vm) = (p, Ok BUFFER_BASE)
     ∧ f ∉ fa_used (vm_alloc (pr_vm p))).
Proof.
  split_and!.
  - intros p z Hz. unfold handle_brk, VirtAddr_new. destruct (decide (z = 0)) as [->|].
    + destruct Hz. unfold canonical. lia.
    + unfold mbind, ST_bind, liftO. cbv beta iota. by rewrite decide_False.
  - by vm_compute.
  - eexists. split; [by vm_compute|]. by apply (bool_decide_unpack _); vm_compute.
  - done.
  - eexists _, _, _. split; [by vm_compute|]. split; [by apply (bool_decide_unpack _); vm_compute|].
    split; [by vm_compute|]. by apply (bool_decide_unpack _); vm_compute.
Qed.
