(* ===== verification/MapRegion.v ===== *)
(** * Regions of fresh memory
    ([panda-kernel/src/memory/paging.rs], [allocate_and_map])

    [allocate_and_map] takes frames of 4 KiB for the ends of a region and
    blocks of 2 MiB for its middle, and maps them with a cache of the
    level-one table.  Seen page by page it gives a region of zeroed frames of
    its own, whatever the mixture. *)

From S2P Require Import Prelude Effects BlockDevice PageTable PageTableProof Paging PagingMap.

(** ** Pages and tables *)
Lemma path0_page va va' : path_to va' 0 = path_to va 0 ↔ page va' / 512 = page va / 512.
Proof.
  unfold path_to, vpath. simpl. rewrite !page_indices.
  pose proof (index_at_range va). pose proof (index_at_range va').
  split.
  - intros [= E3 E2 E1]. rewrite E3, E2, E1. pose proof (index_at_range va 0). pose proof (index_at_range va' 0).
    Z.to_euclidean_division_equations; lia.
  - intros E. pose proof (index_at_range va 0). pose proof (index_at_range va 1). pose proof (index_at_range va 2).
    pose proof (index_at_range va' 0). pose proof (index_at_range va' 1). pose proof (index_at_range va' 2).
    assert (index_at va' 3 * 2 ^ 18 + index_at va' 2 * 2 ^ 9 + index_at va' 1
            = index_at va 3 * 2 ^ 18 + index_at va 2 * 2 ^ 9 + index_at va 1) as E'.
    { Z.to_euclidean_division_equations; lia. }
    assert (index_at va' 3 = index_at va 3) as -> by lia. assert (index_at va' 2 = index_at va 2) as -> by lia.
    by assert (index_at va' 1 = index_at va 1) as -> by lia.
Qed.

Lemma in_page_1 va va' : in_page 1 va va' ↔ path_to va' 0 = path_to va 0.
Proof.
  unfold in_page. rewrite !(path_to_step _ 0) by lia. split; [by intros [-> ->]|]. by intros [-> ->]%app_inj_tail.
Qed.

Lemma table_addr_path va va' : path_to va' 0 = path_to va 0 → table_addr va' LOne = table_addr va LOne.
Proof. rewrite !table_addr_indices. unfold path_to, vpath. simpl. by intros [= -> -> ->]. Qed.

Lemma path_above va va' k : path_to va' 0 = path_to va 0 → (0 < k <= 3)%nat →
  path_to va' k = path_to va k ∧ index_at va' k = index_at va k.
Proof.
  unfold path_to, vpath. simpl. intros [= E3 E2 E1] Hk. destruct k as [|[|[|[|]]]]; try lia; simpl; by rewrite ?E3, ?E2, ?E1.
Qed.

(** ** Views by page *)
Abbreviation PageView := (Z → option (Z * Flags)).

(** The frames [pf] at the pages from [p0] on. *)
Definition put (p0 : Z) (pf : list Z) (fl : Flags) (m : PageView) : PageView := λ p,
  match (if decide (p0 <= p) then pf !! Z.to_nat (p - p0) else None) with
  | Some f => Some (f, fl)
  | None => m p
  end.

Lemma put_nil p0 fl m p : put p0 [] fl m p = m p.
Proof. unfold put. destruct (decide _); by rewrite ?lookup_nil. Qed.

Lemma put_app p0 l1 l2 fl m p : put p0 (l1 ++ l2) fl m p = put (p0 + len l1) l2 fl (put p0 l1 fl m) p.
Proof.
  unfold put. destruct (decide (p0 <= p)) as [H1|H1].
  - destruct (decide (p0 + len l1 <= p)) as [H2|H2].
    + rewrite lookup_app_r by (unfold len in H2; lia).
      replace (Z.to_nat (p - p0) - length l1)%nat with (Z.to_nat (p - (p0 + len l1))) by (unfold len in *; lia).
      rewrite (lookup_ge_None_2 l1) by (unfold len in H2; lia). done.
    + rewrite lookup_app_l by (unfold len in H2; lia). done.
  - by rewrite decide_False by (pose proof (len_nonneg l1); lia).
Qed.

Lemma put_out p0 l fl m p : ¬ p0 <= p < p0 + len l → put p0 l fl m p = m p.
Proof.
  intros Hp. unfold put. destruct (decide _); [|done]. rewrite lookup_ge_None_2; [done|]. unfold len in Hp. lia.
Qed.

Lemma put_in p0 l fl m p f : p0 <= p → l !! Z.to_nat (p - p0) = Some f → put p0 l fl m p = Some (f, fl).
Proof. intros Hp Hl. unfold put. by rewrite decide_True, Hl. Qed.

Lemma put_ext p0 l fl m m' p : (∀ p, m p = m' p) → put p0 l fl m p = put p0 l fl m' p.
Proof. intros E. unfold put. by rewrite E. Qed.

(** A later part does not change an earlier one. *)
Lemma put_free p0 l fl m n : (∀ i, 0 <= i < len l + n → m (p0 + i) = None) →
  ∀ i, 0 <= i < n → put p0 l fl m (p0 + len l + i) = None.
Proof.
  intros Hm i Hi. rewrite put_out by lia. replace (p0 + len l + i) with (p0 + (len l + i)) by lia. apply Hm.
  pose proof (len_nonneg l). lia.
Qed.

Lemma lookup_block f i : 0 <= i < 512 → block_frames f !! Z.to_nat i = Some (f + i * 4096).
Proof.
  intros Hi. unfold block_frames. rewrite list_lookup_fmap, lookup_upto by lia. simpl. by rewrite Z2Nat.id by lia.
Qed.

Lemma length_block f : length (block_frames f) = 512%nat.
Proof. unfold block_frames, upto. by rewrite !length_fmap, length_seq. Qed.

Lemma spread_nil b s : spread b s [] = [].
Proof. done. Qed.

Lemma spread_cons b s f fs : spread b s (f :: fs) = (f, b) :: spread (b + s) s fs.
Proof.
  unfold spread, upto. rewrite len_cons. replace (Z.to_nat (1 + len fs)) with (S (Z.to_nat (len fs))) by len_lia.
  cbn [seq fmap list_fmap zip zip_with]. f_equal; [f_equal; lia|]. f_equal. rewrite <-fmap_S_seq, <-!list_fmap_compose.
  apply list_fmap_ext. intros j x _. simpl. lia.
Qed.

Section regions.
Context {A : Type} `{FrameAllocatorLaws A}.
Context (rest : gset Z).
Implicit Types vm : VM A.
Implicit Types own : gmap Z (list Z).

Definition no_memory (_ : ()) vm : Prop := fa_alloc (vm_alloc vm) = None ∨ fa_alloc_huge (vm_alloc vm) = None.

(** ** Fresh frames *)
(** [vm'] is [vm] with the zeroed frames [fs]. *)
Record grown vm (fs : list Z) vm' : Prop := {
  gr_tables : vm_tables vm' = vm_tables vm;
  gr_root : vm_root vm' = vm_root vm;
  gr_data g : vm_data vm' !! g = if decide (g ∈ fs) then Some (replicate 4096 0) else vm_data vm !! g;
  gr_nodup : NoDup fs;
  gr_fresh f : f ∈ fs → vm_data vm !! f = None ∧ 0 < f ∧ f mod 4096 = 0;
  gr_space own : space own rest vm → space own rest vm';
}.

Lemma grown_nil vm : grown vm [] vm.
Proof. split; try done; [by apply NoDup_nil_2|]. by intros f ?%not_elem_of_nil. Qed.

Lemma grown_app vm fs1 vm1 fs2 vm2 : grown vm fs1 vm1 → grown vm1 fs2 vm2 → grown vm (fs1 ++ fs2) vm2.
Proof.
  intros [T1 R1 D1 N1 F1 S1] [T2 R2 D2 N2 F2 S2]. assert (∀ f, f ∈ fs2 → f ∉ fs1) as Hdis.
  { intros f Hf Hf1. destruct (F2 f Hf) as [Hn _]. rewrite D1, decide_True in Hn; done. }
  split; [by rewrite T2|by rewrite R2| | | |eauto].
  - intros g. rewrite D2, D1. destruct (decide (g ∈ fs1 ++ fs2)) as [Hin|Hin]; rewrite elem_of_app in Hin.
    + destruct (decide (g ∈ fs2)); [done|]. by rewrite decide_True by tauto.
    + by rewrite !decide_False by tauto.
  - apply NoDup_app. split_and!; [done| |done]. intros f Hf1 Hf2. by eapply Hdis.
  - intros f [Hf|Hf]%elem_of_app; [by apply F1|]. destruct (F2 f Hf) as (Hn&?&?). split_and!; [|done..].
    rewrite D1, decide_False in Hn; [done|by apply Hdis].
Qed.

Lemma space_more own vm vm' (fs : gset Z) : space own rest vm → vm_tables vm' = vm_tables vm → vm_root vm' = vm_root vm →
  dom (vm_data vm') = fs ∪ dom (vm_data vm) → fa_used (vm_alloc vm') = fs ∪ fa_used (vm_alloc vm) →
  fs ## fa_used (vm_alloc vm) → space own rest vm'.
Proof.
  intros [Htr Hrec Hu Hd Hr] Ht Hro Hda Hus Hdj. rewrite Hu in *. split.
  - by rewrite Ht, Hro.
  - unfold rec_ok. by rewrite Ht, Hro.
  - rewrite Hus, Hda. set_solver.
  - rewrite Hda. set_solver.
  - rewrite Hda. set_solver.
Qed.

Lemma allocate_frame_ok own vm : space own rest vm →
  spec allocate_frame vm (λ f vm', grown vm [f] vm' ∧ 0 < f) no_memory.
Proof.
  intros Hsp. unfold spec, allocate_frame. destruct (fa_alloc (vm_alloc vm)) as [[f a]|] eqn:Hal; [|by left].
  destruct (fa_alloc_used _ _ _ Hal) as (Hnew&Hu'&Hpos&Hf).
  assert (∀ own, space own rest vm → f ∉ dom (vm_data vm)) as Hnd by (intros own' [_ _ Hu _ _]; rewrite Hu in Hnew; set_solver).
  split; [|done]. split; try done; cbn [vm_data].
  - intros g. rewrite lookup_insert. destruct (decide (f = g)) as [->|]; [by rewrite decide_True by set_solver|].
    by rewrite decide_False by set_solver.
  - apply NoDup_singleton.
  - intros g ->%list_elem_of_singleton. split; [|done]. apply not_elem_of_dom. by eapply Hnd.
  - intros own' Hsp'. eapply (space_more own' vm _ {[f]}); try done; [cbn [vm_data]; by rewrite dom_insert_L|set_solver].
Qed.

Lemma elem_of_block f g : g ∈ block_frames f ↔ ∃ i, 0 <= i < 512 ∧ g = f + i * 4096.
Proof.
  unfold block_frames. rewrite list_elem_of_fmap. split.
  - intros (i&->&Hi%elem_of_upto). eauto.
  - intros (i&Hi&->). exists i. by rewrite elem_of_upto.
Qed.

Lemma NoDup_block f : NoDup (block_frames f).
Proof.
  unfold block_frames, upto. rewrite <-list_fmap_compose. apply NoDup_fmap_2; [|apply NoDup_seq].
  intros i j E. simpl in E. lia.
Qed.

Lemma lookup_zero_block f g : zero_block f !! g = if decide (g ∈ block_frames f) then Some (replicate 4096 0) else None.
Proof.
  unfold zero_block. destruct (decide _) as [Hin|Hin].
  - apply elem_of_list_to_map_1; [rewrite <-list_fmap_compose; by rewrite list_fmap_id; apply NoDup_block|].
    apply list_elem_of_fmap. eauto.
  - apply not_elem_of_list_to_map_1. rewrite <-list_fmap_compose. by rewrite list_fmap_id.
Qed.

#[local] Opaque block_frames.

Lemma allocate_huge_ok own vm : space own rest vm →
  spec allocate_huge vm (λ f vm', grown vm (block_frames f) vm' ∧ 0 < f ∧ f mod 2 ^ 21 = 0) no_memory.
Proof.
  intros Hsp. unfold spec, allocate_huge. destruct (fa_alloc_huge (vm_alloc vm)) as [[f a]|] eqn:Hal; [|by right].
  destruct (fa_alloc_huge_used _ _ _ Hal) as (Hnew&Hu'&Hpos&Hf). split; [|done].
  assert (∀ own g, space own rest vm → g ∈ block_frames f → g ∉ dom (vm_data vm)) as Hnd.
  { intros own' g [_ _ Hu _ _] Hg. rewrite Hu in Hnew. assert (g ∈ block f) as Hb by (by apply elem_of_list_to_set).
    intros Hin. apply (Hnew g Hb). apply elem_of_union_l, elem_of_union_r, Hin. }
  assert (dom (zero_block f) = block f) as Hdom.
  { apply set_eq. intros g. rewrite elem_of_dom, lookup_zero_block. unfold block. rewrite elem_of_list_to_set.
    destruct (decide _); split; done. }
  split; [done|done|cbn [vm_data]..].
  - intros g. rewrite lookup_union, lookup_zero_block. destruct (decide _) as [|]; destruct (vm_data vm !! g); done.
  - apply NoDup_block.
  - intros g Hg. split; [apply not_elem_of_dom; by eapply Hnd|]. apply elem_of_block in Hg as (i&Hi&->).
    split; [lia|]. rewrite Z.mod_add by lia. clear -Hf. Z.to_euclidean_division_equations. lia.
  - intros own' Hsp'. eapply (space_more own' vm _ (block f)); [done|done|done|cbn [vm_data]; by rewrite dom_union_L, Hdom|done|done].
Qed.

Lemma alloc_n_ok (alloc : ST (VM A) () Z) (ex : Z → list Z) (P : Z → Prop) :
  (∀ own vm, space own rest vm → spec alloc vm (λ f vm', grown vm (ex f) vm' ∧ P f) no_memory) →
  ∀ n own vm, space own rest vm →
  spec (alloc_n n alloc) vm (λ fs vm', length fs = n ∧ grown vm (fs ≫= ex) vm' ∧ Forall P fs) no_memory.
Proof.
  intros Ha n. induction n as [|n IH]; intros own vm Hsp; cbn [alloc_n].
  { apply spec_ret. split_and!; [done|apply grown_nil|by apply Forall_nil]. }
  eapply spec_bind; [by eapply Ha|]. intros f vm1 [Hg1 Hf].
  eapply spec_bind; [eapply IH, (gr_space _ _ _ Hg1), Hsp|]. intros fs vm2 (Hl&Hg2&HP). apply spec_ret.
  split_and!; [simpl; lia| |by apply Forall_cons]. cbn. by eapply grown_app.
Qed.

(** ** Mapping the frames *)
(** Every level-one table serves a mapped page. *)
Definition tidy own vm : Prop := ∀ va f, ordinary va → own !! f = Some (path_to va 0) →
  ∃ va', ordinary va' ∧ path_to va' 0 = path_to va 0 ∧ leaf vm va' ≠ None.

Record mapped own (root : Z) (data : gmap Z (list Z)) (m : PageView) vm : Prop := {
  mp_space : space own rest vm;
  mp_tidy : tidy own vm;
  mp_root : vm_root vm = root;
  mp_data : vm_data vm = data;
  mp_view va : ordinary va → flat va (leaf vm va) = m (page va);
}.

Lemma mapped_ext own root data m m' vm : (∀ p, m p = m' p) → mapped own root data m vm → mapped own root data m' vm.
Proof. intros E [? ? ? ? Hv]. split; try done. intros va Ho. by rewrite <-E, Hv. Qed.

Lemma mapped_none own root data m vm va : mapped own root data m vm → ordinary va → leaf vm va = None ↔ m (page va) = None.
Proof. intros Hm Ho. rewrite <-(mp_view _ _ _ _ _ Hm va Ho). unfold flat. by destruct (leaf vm va). Qed.

Lemma grown_mapped own root data m vm fs vm' : mapped own root data m vm → grown vm fs vm' → mapped own root (vm_data vm') m vm'.
Proof.
  intros [Hsp Ht Hr Hd Hv] [T R D N F S]. assert (∀ va, leaf vm' va = leaf vm va) as Hl by (intros va; unfold leaf; by rewrite T, R).
  split; try done; [auto| |by rewrite R|].
  - intros va f Ho Hf. destruct (Ht va f Ho Hf) as (va'&?&?&?). exists va'. by rewrite Hl.
  - intros va Ho. rewrite Hl. by apply Hv.
Qed.

(** The leaf of height [n] set by the kernel, over an entry found at [vm1]. *)
Lemma set_mapped own root data m vm va flags n f own1 vm1 t e phys : mapped own root data m vm → ordinary va → (n <= 1)%nat →
  extends own rest vm own1 vm1 → own1 !! f = Some (path_to va n) → vm_tables vm1 !! f = Some t → ready own1 vm1 va flags n →
  below own1 va n → (∀ g q, own1 !! g = Some q → own !! g = Some q ∨ ∃ k, (n <= k < 3)%nat ∧ q = path_to va k) →
  e_addr e = phys → phys ≠ 0 → fl_present (e_flags e) = true → is_leaf (path_to va n) e = true → grants flags (e_flags e) →
  grants (e_flags e) flags →
  space own1 rest (with_entry vm1 f (index_at va n) e) ∧ tidy own1 (with_entry vm1 f (index_at va n) e) ∧
  ∀ va', ordinary va' → leaf (with_entry vm1 f (index_at va n) e) va' = if decide (in_page n va va') then Some (e, n) else leaf vm va'.
Proof.
  intros Hmp Ho Hn Hex Hf Ht Hr Hb Hpaths Ha Hph Hp Hl Hg1 Hg2. pose proof (ex_space _ _ _ _ _ Hex) as Hsp1.
  pose proof (mp_space _ _ _ _ _ Hmp) as Hsp.
  assert (e ≠ pte_unused) as Hne by (intros ->; done).
  assert (space own1 rest (with_entry vm1 f (index_at va n) e)) as Hsp2.
  { apply space_leaf with t; try done; [lia|]. right. split_and!; [done|congruence|done|].
    intros g tg Hn3 Hg Htg. pose proof (ready_above own1 vm1 va flags n ltac:(lia) Hr g tg Hn3 Hg Htg) as [? ?].
    destruct Hg1, Hg2. split; auto. }
  assert (∀ va', ordinary va' → leaf (with_entry vm1 f (index_at va n) e) va' =
    if decide (in_page n va va') then Some (e, n) else leaf vm va') as Hv.
  { intros va' Ho'. rewrite (leaf_with own1 rest vm1 va n f t) by (done || lia || by left).
    destruct (decide (in_page _ _ _)); [by rewrite decide_False|]. by eapply extends_leaf. }
  split_and!; [done| |done]. intros va' g Ho' Hg'. destruct (Hpaths g _ Hg') as [Hg0|(k&Hk&E)].
  - destruct (mp_tidy _ _ _ _ _ Hmp va' g Ho' Hg0) as (va2&Ho2&E2&Hl2). exists va2. split_and!; [done..|].
    rewrite Hv by done. by destruct (decide _).
  - apply path_to_inj in E as E0; [|lia..]. assert (k = 0%nat ∧ n = 0%nat) as [-> ->] by lia.
    exists va. split_and!; [done..|]. rewrite Hv by done. by rewrite decide_True.
Qed.

(** *** Pages of 4 KiB *)
Definition page_flags (flags : Flags) : Prop := fl_present flags = true ∧ fl_huge flags = false ∧ leaf_rights flags = flags.

Lemma to_flags_page o : page_flags (to_flags o).
Proof. done. Qed.

(** The cached pointer leads to a table with the right to hold [flags]. *)
Definition cache_ok own vm flags (cached : option (Z * Z)) : Prop :=
  ∀ ptr r, cached = Some (ptr, r) → ∃ va f, ordinary va ∧ 0 <= va < 2 ^ 47 ∧ r = align_to 0x200000 va ∧ ptr = table_addr va LOne
    ∧ own !! f = Some (path_to va 0) ∧ ready own vm va flags 0.

Lemma align_path va va' : 0 <= va < 2 ^ 47 → 0 <= va' < 2 ^ 47 → align_to 0x200000 va = align_to 0x200000 va' →
  path_to va 0 = path_to va' 0.
Proof.
  intros Hva Hva' E. apply path0_page. unfold page, align_to in *. rewrite !Z.mod_small.
  - clear -E. Z.to_euclidean_division_equations. lia.
  - split; [apply Z.div_pos; lia|apply Z.div_lt_upper_bound; lia].
  - split; [apply Z.div_pos; lia|apply Z.div_lt_upper_bound; lia].
Qed.

Lemma ready_path own vm va va' flags : path_to va' 0 = path_to va 0 → ready own vm va flags 0 → ready own vm va' flags 0.
Proof.
  intros E [[f Hf] Hr]. split; [exists f; by rewrite E|]. intros k g t Hk Hg Ht.
  destruct (path_above va va' k E) as [Ep Ei]; [lia|]. rewrite Ei. apply (Hr k g t); [lia| |done]. by rewrite <-Ep.
Qed.

(** What the search for the table leaves. *)
Definition l1_found own vm va flags (ptr : Z) vm1 : Prop :=
  ptr = table_addr va LOne ∧ ∃ own1 f, extends own rest vm own1 vm1 ∧ own1 !! f = Some (path_to va 0)
    ∧ ready own1 vm1 va flags 0 ∧ (∀ g q, own1 !! g = Some q → own !! g = Some q ∨ ∃ k, (0 <= k < 3)%nat ∧ q = path_to va k).

Lemma l1_look own vm va flags : space own rest vm → ordinary va → fl_huge flags = false → leaf vm va = None →
  spec (page_table_entry pte_fuel LOne va flags;; mret (table_addr va LOne)) vm (l1_found own vm va flags) no_memory.
Proof.
  intros Hsp Ho Hfh Hl. eapply spec_bind.
  { eapply spec_weaken; [eapply (entry_one own rest vm va flags); try done; congruence|intros r vm1 Hr; exact Hr|by left]. }
  intros r vm1 (own1&f&Hex&->&Hf&Hr&_&Hp). apply spec_ret. split; [done|]. by exists own1, f.
Qed.

Lemma l1_cached own vm va flags cached : space own rest vm → ordinary va → 0 <= va < 2 ^ 47 → fl_huge flags = false →
  leaf vm va = None → cache_ok own vm flags cached →
  spec (match cached with
        | Some (table_ptr, cached_region) =>
            if decide (cached_region = align_to 0x200000 va) then mret table_ptr
            else page_table_entry pte_fuel LOne va flags;; mret (table_addr va LOne)
        | None => page_table_entry pte_fuel LOne va flags;; mret (table_addr va LOne)
        end) vm (l1_found own vm va flags) no_memory.
Proof.
  intros Hsp Ho Hva Hfh Hl Hc. destruct cached as [[ptr r]|]; [|by apply l1_look].
  destruct (decide (r = align_to 0x200000 va)) as [Hr|]; [|by apply l1_look].
  destruct (Hc ptr r eq_refl) as (va0&f&Ho0&Hva0&Hr0&Hptr&Hf&Hrd).
  assert (path_to va 0 = path_to va0 0) as E by (apply align_path; [done..|congruence]).
  apply spec_ret. split; [subst ptr; symmetry; by apply table_addr_path|]. exists own, f. split_and!.
  - by split.
  - by rewrite E.
  - by eapply ready_path.
  - by left.
Qed.

Lemma ready_write own rest' vm va flags f i e : space own rest' vm → own !! f = Some (path_to va 0) → ready own vm va flags 0 →
  ready own (with_entry vm f i e) va flags 0.
Proof.
  intros Hsp Hf [Ho Hr]. split; [done|]. intros k g t Hk Hg. cbn [with_entry set_tables vm_tables]. rewrite lookup_alter_ne.
  - by apply Hr.
  - intros <-. rewrite Hf in Hg. injection Hg as Hg%path_to_inj; lia.
Qed.

(** Addresses of whole pages of the lower half. *)
Definition user_range (b n : Z) : Prop := b mod 4096 = 0 ∧ 0 <= b ∧ b + n * 4096 <= 2 ^ 47.

Lemma user_page va : 0 <= va < 2 ^ 47 → page va = va / 4096 ∧ ordinary va.
Proof.
  intros Hva. assert (page va = va / 4096) as Hp.
  { unfold page. apply Z.mod_small. split; [apply Z.div_pos; lia|apply Z.div_lt_upper_bound; lia]. }
  split; [done|]. rewrite ordinary_iff, Hp. unfold ordinary_page, RECURSIVE_INDEX. intros E.
  assert (va / 4096 / 2 ^ 27 < 256) as Hlt by (rewrite Z.div_div by lia; apply Z.div_lt_upper_bound; lia). by rewrite E in Hlt.
Qed.

Lemma user_next b n : user_range b (1 + n) → 0 <= n → page (b + 4096) = page b + 1 ∧ user_range (b + 4096) n ∧ 0 <= b < 2 ^ 47
  ∧ (0 < n → 0 <= b + 4096 < 2 ^ 47).
Proof.
  intros (Hm&Hb&He) Hn. unfold user_range. split_and!; try lia.
  - unfold page. rewrite (Z.mod_small ((b + 4096) / 4096)), (Z.mod_small (b / 4096)).
    + replace (b + 4096) with (b + 1 * 4096) by lia. by rewrite Z.div_add by lia.
    + split; [apply Z.div_pos; lia|apply Z.div_lt_upper_bound; lia].
    + split; [apply Z.div_pos; lia|apply Z.div_lt_upper_bound; lia].
  - replace (b + 4096) with (b + 1 * 4096) by lia. by rewrite Z.mod_add by lia.
Qed.

Lemma flat_leaf0 va phys flags : page_flags flags → flat va (Some (mkPte phys flags, 0%nat)) = Some (phys, flags).
Proof. intros (_&_&Hl). unfold flat. simpl. by rewrite Z.mod_1_r, Z.mul_0_r, Z.add_0_r, Hl. Qed.

(** One page of the loop. *)
Lemma small_step own root data m vm va flags phys own1 vm1 f : mapped own root data m vm → 0 <= va < 2 ^ 47 → page_flags flags →
  phys ≠ 0 → extends own rest vm own1 vm1 → own1 !! f = Some (path_to va 0) → ready own1 vm1 va flags 0 →
  (∀ g q, own1 !! g = Some q → own !! g = Some q ∨ ∃ k, (0 <= k < 3)%nat ∧ q = path_to va k) →
  mapped own1 root data (put (page va) [phys] flags m) (with_entry vm1 f (index_at va 0) (mkPte phys flags))
  ∧ cache_ok own1 (with_entry vm1 f (index_at va 0) (mkPte phys flags)) flags (Some (table_addr va LOne, align_to 0x200000 va)).
Proof.
  intros Hm Hva Hfl Hph Hex Hf Hr Hpaths. destruct (user_page va Hva) as [Hp Ho]. pose proof (ex_space _ _ _ _ _ Hex) as Hsp1.
  destruct (own_table _ _ _ _ (sp_tree _ _ _ Hsp1) f _ Hf) as [t Ht].
  destruct (set_mapped own root data m vm va flags 0 f own1 vm1 t (mkPte phys flags) phys) as (Hsp2&Htidy&Hv); try done; [lia| |apply Hfl|].
  { intros k g Hk. lia. }
  split.
  - split; [done|done|by rewrite <-(mp_root _ _ _ _ _ Hm), <-(ex_root _ _ _ _ _ Hex)
      |by rewrite <-(mp_data _ _ _ _ _ Hm), <-(ex_data _ _ _ _ _ Hex)|]. intros va' Ho'. rewrite Hv by done.
    destruct (decide (in_page 0 va va')) as [Hin|Hin]; rewrite in_page_page in Hin.
    + rewrite flat_leaf0 by done. symmetry. apply put_in; [lia|]. by rewrite Hin, Z.sub_diag.
    + rewrite put_out by (rewrite len_cons, len_nil; lia). by apply Hm.
  - intros ptr r [= <- <-]. exists va, f. split_and!; try done; [lia..|]. by eapply ready_write.
Qed.

Lemma put_cons p0 f fs fl m p : put p0 (f :: fs) fl m p = put (p0 + 1) fs fl (put p0 [f] fl m) p.
Proof. change (f :: fs) with ([f] ++ fs). rewrite put_app. by rewrite len_cons, len_nil. Qed.

Lemma map_small_ok flags fs : ∀ own root data m vm b cached, mapped own root data m vm → page_flags flags →
  user_range b (len fs) → Forall (λ f, 0 < f) fs → (∀ i, 0 <= i < len fs → m (page b + i) = None) → cache_ok own vm flags cached →
  spec (map_small flags (spread b 4096 fs) cached) vm (λ _ vm', ∃ own', mapped own' root data (put (page b) fs flags m) vm') no_memory.
Proof.
  induction fs as [|phys fs IH]; intros own root data m vm b cached Hm Hfl Hu Hpos Hfree Hc.
  { apply spec_ret. exists own. eapply mapped_ext; [|done]. intros p. by rewrite put_nil. }
  rewrite len_cons in Hu, Hfree. apply Forall_cons in Hpos as [Hph Hpos]. pose proof (len_nonneg fs) as Hn.
  destruct (user_next b (len fs) Hu Hn) as (Hpg&Hu'&Hb&_). destruct (user_page b Hb) as [_ Ho].
  rewrite spread_cons. cbn [map_small]. cbv zeta.
  assert (leaf vm b = None) as Hl by (eapply mapped_none; [done..|]; replace (page b) with (page b + 0) by lia; apply Hfree; lia).
  eapply spec_bind; [eapply l1_cached; try done; [apply Hm|apply Hfl]|].
  intros ptr vm1 (->&own1&f&Hex&Hf&Hr&Hpaths). pose proof (ex_space _ _ _ _ _ Hex) as Hsp1.
  eapply spec_bind_run; [apply (table_ok own1 rest vm1 Hsp1 b 0 f Ho ltac:(lia) Hf)|].
  unfold write_entry_at. apply spec_bind_modify. change (page_table_index b LOne) with (index_at b 0).
  destruct (small_step own root data m vm b flags phys own1 vm1 f) as [Hm2 Hc2]; try done; [lia|].
  eapply spec_weaken; [eapply (IH own1 root data _ _ (b + 4096) _ Hm2); try done| |done].
  - intros i Hi. rewrite Hpg. rewrite put_out by (rewrite len_cons, len_nil; lia).
    replace (page b + 1 + i) with (page b + (1 + i)) by lia. apply Hfree. lia.
  - intros [] vm' (own'&Hm'). exists own'. eapply mapped_ext; [|done]. intros p. by rewrite put_cons, Hpg.
Qed.

(** *** Pages of 2 MiB *)
Lemma huge_base va : 0 <= va < 2 ^ 47 → va mod HUGE_PAGE_SIZE = 0 → page va mod 512 = 0.
Proof.
  unfold HUGE_PAGE_SIZE. intros Hva Hm. destruct (user_page va Hva) as [-> _]. clear -Hm Hva. Z.to_euclidean_division_equations. lia.
Qed.

Lemma huge_leaf_view va va' phys flags m : page_flags flags → page va mod 512 = 0 → in_page 1 va va' →
  flat va' (Some (mkPte phys (fl_or flags HUGE_PAGE), 1%nat)) = put (page va) (block_frames phys) flags m (page va').
Proof.
  intros (Hp&Hh&Hl) Hm Hin. apply in_page_1, path0_page in Hin. unfold flat. simpl fmap.
  change (2 ^ (9 * Z.of_nat 1)) with 512. assert (page va' = page va + page va' mod 512) as E by (clear -Hm Hin; Z.to_euclidean_division_equations; lia).
  pose proof (Z.mod_pos_bound (page va') 512 ltac:(lia)) as Hb. symmetry.
  rewrite (put_in _ _ _ _ _ (phys + (page va' mod 512) * 4096)); [|lia|].
  - f_equal. f_equal; [simpl; lia|]. rewrite <-Hl. unfold leaf_rights, fl_or, HUGE_PAGE. simpl. by rewrite !orb_false_r.
  - replace (page va' - page va) with (page va' mod 512) by lia. by apply lookup_block.
Qed.

Lemma map_huge_ok own root data m vm va flags phys : mapped own root data m vm → page_flags flags → 0 <= va < 2 ^ 47 →
  va mod HUGE_PAGE_SIZE = 0 → 0 < phys → (∀ i, 0 <= i < 512 → m (page va + i) = None) →
  spec (map_huge_page phys va flags) vm
    (λ _ vm', ∃ own', mapped own' root data (put (page va) (block_frames phys) flags m) vm') no_memory.
Proof.
  intros Hm Hfl Hva Hal Hph Hfree. destruct (user_page va Hva) as [_ Ho]. pose proof (huge_base va Hva Hal) as Hpm.
  pose proof (mp_space _ _ _ _ _ Hm) as Hsp.
  assert (∀ va', ordinary va' → path_to va' 0 = path_to va 0 → leaf vm va' = None) as Hnone.
  { intros va' Ho' E. apply (mapped_none _ _ _ _ _ _ Hm Ho'). apply path0_page in E.
    replace (page va') with (page va + page va' mod 512) by (clear -Hpm E; Z.to_euclidean_division_equations; lia).
    apply Hfree, Z.mod_pos_bound. lia. }
  assert (below own va 1) as Hb.
  { intros k f Hk Hf. assert (k = 0%nat) as -> by lia.
    destruct (mp_tidy _ _ _ _ _ Hm va f Ho Hf) as (va'&Ho'&E&Hl). by apply Hl, Hnone. }
  unfold map_huge_page. eapply spec_bind.
  { eapply spec_weaken; [eapply (page_table_entry_ok pte_fuel own rest vm va flags 1 3); try done;
      [lia|unfold pte_fuel; lia|by eapply ready_root|apply Hfl]|intros r vm1 Hr; exact Hr|by left]. }
  intros [[t i] l] vm1 (own1&f&Hex&[= -> -> ->]&Hf&Hr&Hb1&Hpaths). unfold write_entry_at. apply spec_modify.
  destruct (own_table _ _ _ _ (sp_tree _ _ _ (ex_space _ _ _ _ _ Hex)) f _ Hf) as [tf Htf]. destruct Hfl as (Hp&Hh&Hl).
  assert (grants flags (fl_or flags HUGE_PAGE) ∧ grants (fl_or flags HUGE_PAGE) flags) as [G1 G2].
  { unfold grants, fl_or, HUGE_PAGE. simpl. rewrite !orb_false_r. auto. }
  destruct (set_mapped own root data m vm va flags 1 f own1 vm1 tf (mkPte phys (fl_or flags HUGE_PAGE)) phys)
    as (Hsp2&Htidy&Hv); try done; [lia|simpl; by rewrite Hp|rewrite is_leaf_height by lia; simpl; by rewrite orb_true_r|].
  exists own1. split; [done|done|by rewrite <-(mp_root _ _ _ _ _ Hm), <-(ex_root _ _ _ _ _ Hex)
      |by rewrite <-(mp_data _ _ _ _ _ Hm), <-(ex_data _ _ _ _ _ Hex)|]. intros va' Ho'.
  pose proof (Hv va' Ho') as E. unfold with_entry in E. rewrite E. destruct (decide (in_page 1 va va')) as [Hin|Hin].
  - by apply huge_leaf_view.
  - rewrite put_out; [by apply Hm|]. unfold len. rewrite length_block. intros Hin'. apply Hin, in_page_1, path0_page.
    clear -Hin' Hpm. Z.to_euclidean_division_equations. lia.
Qed.

Definition huge_range (b n : Z) : Prop := b mod HUGE_PAGE_SIZE = 0 ∧ 0 <= b ∧ b + n * HUGE_PAGE_SIZE <= 2 ^ 47.

Lemma len_blocks fs : len (fs ≫= block_frames) = 512 * len fs.
Proof.
  induction fs as [|f fs IH]; [done|]. cbn [mbind list_bind]. change (list_bind _ _ block_frames fs) with (fs ≫= block_frames).
  rewrite len_app, len_cons, IH. unfold len at 1. rewrite length_block. lia.
Qed.

Lemma map_huges_ok flags fs : ∀ own root data m vm b, mapped own root data m vm → page_flags flags →
  huge_range b (len fs) → Forall (λ f, 0 < f) fs → (∀ i, 0 <= i < 512 * len fs → m (page b + i) = None) →
  spec (for_each (spread b HUGE_PAGE_SIZE fs) (λ '(phys, virt), map_huge_page phys virt flags)) vm
    (λ _ vm', ∃ own', mapped own' root data (put (page b) (fs ≫= block_frames) flags m) vm') no_memory.
Proof.
  induction fs as [|phys fs IH]; intros own root data m vm b Hm Hfl Hu Hpos Hfree.
  { apply spec_ret. exists own. eapply mapped_ext; [|done]. intros p. by rewrite put_nil. }
  rewrite len_cons in Hu, Hfree. apply Forall_cons in Hpos as [Hph Hpos]. pose proof (len_nonneg fs) as Hn.
  destruct Hu as (Ha&Hb&He). unfold HUGE_PAGE_SIZE in Ha, He.
  assert (0 <= b < 2 ^ 47) as Hbr by lia. rewrite spread_cons. cbn [for_each]. cbv beta iota.
  eapply spec_bind; [apply (map_huge_ok own root data m vm b flags phys); try done; intros i Hi; apply Hfree; lia|].
  intros [] vm1 (own1&Hm1).
  destruct fs as [|phys2 fs].
  { apply spec_ret. exists own1. eapply mapped_ext; [|done]. intros p. cbn [mbind list_bind]. by rewrite app_nil_r. }
  rewrite len_cons in He, Hfree. pose proof (len_nonneg fs).
  assert (page (b + HUGE_PAGE_SIZE) = page b + 512) as Hpg.
  { unfold HUGE_PAGE_SIZE. destruct (user_page b Hbr) as [-> _]. destruct (user_page (b + 2 * 1024 * 1024)) as [-> _]; [lia|].
    replace (b + 2 * 1024 * 1024) with (b + 512 * 4096) by lia. by rewrite Z.div_add by lia. }
  eapply spec_weaken; [apply (IH own1 root data _ vm1 (b + HUGE_PAGE_SIZE) Hm1 Hfl)| |done].
  - unfold huge_range, HUGE_PAGE_SIZE. rewrite len_cons. split_and!; [|lia..].
    clear -Ha. Z.to_euclidean_division_equations. lia.
  - done.
  - rewrite len_cons, Hpg. intros i Hi. rewrite put_out by (unfold len; rewrite length_block; lia).
    replace (page b + 512 + i) with (page b + (512 + i)) by lia. apply Hfree. lia.
  - intros [] vm' (own'&Hm'). exists own'. eapply mapped_ext; [|done]. intros p. rewrite Hpg.
    change ((phys :: phys2 :: fs) ≫= block_frames) with (block_frames phys ++ ((phys2 :: fs) ≫= block_frames)).
    rewrite put_app. unfold len. by rewrite length_block.
Qed.

(** ** [allocate_and_map] *)
(** The 4 KiB frames of a list of frames of both sizes. *)
Definition frames_of (frs : list (Z * Z)) : list Z :=
  frs ≫= λ '(f, size), if decide (size = 4096) then [f] else block_frames f.
Definition frames_ok (frs : list (Z * Z)) : Prop := Forall (λ '(f, size), size = 4096 ∨ size = HUGE_PAGE_SIZE) frs.

Lemma align_to_pages size : align_to 4096 (size + 4095) = npages size * 4096.
Proof. unfold align_to, npages. Z.to_euclidean_division_equations. lia. Qed.

(** Either all pages are small, or the three parts follow each other. *)
Lemma split_region_ok base n : base mod 4096 = 0 → 0 <= base → 0 <= n → base + n * 4096 <= 2 ^ 47 →
  ∃ h g t first last, split_region base (n * 4096) = Ok (h * 4096, g * HUGE_PAGE_SIZE, t * 4096, first, last)
    ∧ 0 <= h ∧ 0 <= g ∧ 0 <= t ∧ h + 512 * g + t = n
    ∧ ((g = 0 ∧ t = 0) ∨ (first mod HUGE_PAGE_SIZE = 0 ∧ first = base + h * 4096 ∧ last = first + g * HUGE_PAGE_SIZE)).
Proof.
  intros Hb Hb0 Hn He. unfold split_region, align_to, HUGE_PAGE_SIZE. change (2 * 1024 * 1024) with 2097152.
  rewrite !chk_ok by (unfold in_u; lia). cbn [mbind outcome_bind].
  set (en := base + n * 4096) in *. set (up := base + 2097152 - 1).
  set (first := up - up mod 2097152). set (last := en - en mod 2097152).
  assert (first mod 2097152 = 0 ∧ base <= first < base + 2097152) as [Hf1 Hf2].
  { unfold first, up. clear. Z.to_euclidean_division_equations. lia. }
  assert (last mod 2097152 = 0 ∧ last <= en < last + 2097152) as [Hl1 Hl2].
  { unfold last. clear. Z.to_euclidean_division_equations. lia. }
  destruct (decide (first <= en ∧ last > first)) as [[Hfe Hlf]|Hno].
  - rewrite decide_True by lia. exists ((first - base) / 4096), ((last - first) / 2097152), ((en - last) / 4096), first, last.
    assert (first - base = (first - base) / 4096 * 4096) as E1 by (clear -Hf1 Hb; Z.to_euclidean_division_equations; lia).
    assert (last - first = (last - first) / 2097152 * 2097152) as E2 by (clear -Hf1 Hl1; Z.to_euclidean_division_equations; lia).
    assert (en - last = (en - last) / 4096 * 4096) as E3.
    { assert (en mod 4096 = 0) as Hen by (unfold en; clear -Hb; Z.to_euclidean_division_equations; lia).
      clear -Hl1 Hen. clearbody en last. Z.to_euclidean_division_equations. lia. }
    rewrite <-E1, <-E2, <-E3. split; [by replace (n * 4096 - (first - base) - (last - first)) with (en - last) by (unfold en; lia)|].
    split_and!; [apply Z.div_pos; lia..|unfold en in *; lia|right; split_and!; [done|lia|lia]].
  - rewrite decide_False by lia. exists n, 0, 0, first, last. split_and!; [repeat f_equal; lia|lia..|by left].
Qed.

Lemma bind_single (fs : list Z) : fs ≫= (λ f, [f]) = fs.
Proof. induction fs as [|f fs IH]; [done|]. cbn [mbind list_bind app]. f_equal. exact IH. Qed.

Lemma frames_of_parts head huge tail :
  frames_of (((λ f, (f, 4096)) <$> head) ++ ((λ f, (f, HUGE_PAGE_SIZE)) <$> huge) ++ ((λ f, (f, 4096)) <$> tail))
  = head ++ (huge ≫= block_frames) ++ tail.
Proof.
  unfold frames_of. rewrite !bind_app. f_equal; [|f_equal].
  - induction head as [|f fs IH]; [done|]. cbn. f_equal. exact IH.
  - induction huge as [|f fs IH]; [done|]. cbn [fmap list_fmap mbind list_bind]. rewrite decide_False by done. f_equal. exact IH.
  - induction tail as [|f fs IH]; [done|]. cbn. f_equal. exact IH.
Qed.

Lemma frames_ok_parts head huge tail :
  frames_ok (((λ f, (f, 4096)) <$> head) ++ ((λ f, (f, HUGE_PAGE_SIZE)) <$> huge) ++ ((λ f, (f, 4096)) <$> tail)).
Proof.
  unfold frames_ok. rewrite !Forall_app, !Forall_fmap. split_and!; apply Forall_forall; intros f _; simpl; auto.
Qed.

(** The frames of a new region: zeroed, distinct and used by nobody else. *)
Record fresh_region (data : gmap Z (list Z)) (n : Z) (mp : Mapping) (pf : list Z) vm' : Prop := {
  fr_frames : ∃ frs, backing mp = Frames frs ∧ frames_ok frs ∧ pf = frames_of frs;
  fr_len : len pf = n;
  fr_nodup : NoDup pf;
  fr_new f : f ∈ pf → data !! f = None ∧ 0 < f ∧ f mod 4096 = 0;
  fr_data g : vm_data vm' !! g = if decide (g ∈ pf) then Some (replicate 4096 0) else data !! g;
}.

Lemma alloc_parts {B} own vm nh ng nt (k : list Z → list Z → list Z → ST (VM A) () B) Q : space own rest vm →
  (∀ head huge tail vm', length head = nh → length huge = ng → length tail = nt →
     Forall (λ f, 0 < f) head → Forall (λ f, 0 < f) huge → Forall (λ f, 0 < f) tail →
     grown vm (head ++ (huge ≫= block_frames) ++ tail) vm' → spec (k head huge tail) vm' Q no_memory) →
  spec (head ← alloc_n nh allocate_frame; huge ← alloc_n ng allocate_huge; tail ← alloc_n nt allocate_frame; k head huge tail)
    vm Q no_memory.
Proof.
  intros Hsp Hk. eapply spec_bind; [apply (alloc_n_ok allocate_frame (λ f, [f]) (λ f, 0 < f)) with own; [apply allocate_frame_ok|done]|].
  intros head vm1 (Hl1&G1&P1). rewrite bind_single in G1. pose proof (gr_space _ _ _ G1 own Hsp) as Hsp1.
  eapply spec_bind; [apply (alloc_n_ok allocate_huge block_frames (λ f, 0 < f ∧ f mod 2 ^ 21 = 0)) with own; [apply allocate_huge_ok|done]|].
  intros huge vm2 (Hl2&G2&P2). pose proof (gr_space _ _ _ G2 own Hsp1) as Hsp2.
  eapply spec_bind; [apply (alloc_n_ok allocate_frame (λ f, [f]) (λ f, 0 < f)) with own; [apply allocate_frame_ok|done]|].
  intros tail vm3 (Hl3&G3&P3). rewrite bind_single in G3. apply Hk; try done.
  - eapply Forall_impl; [done|]. by intros f [? _].
  - eapply grown_app; [done|]. by eapply grown_app.
Qed.

(** The three loops over a free region. *)
Lemma map_parts own root data m vm base h g t first last flags head huge tail :
  mapped own root data m vm → page_flags flags → base mod 4096 = 0 → 0 <= base →
  len head = h → len huge = g → len tail = t → base + (h + 512 * g + t) * 4096 <= 2 ^ 47 →
  Forall (λ f, 0 < f) head → Forall (λ f, 0 < f) huge → Forall (λ f, 0 < f) tail →
  (∀ i, 0 <= i < h + 512 * g + t → m (page base + i) = None) →
  ((g = 0 ∧ t = 0) ∨ (first mod HUGE_PAGE_SIZE = 0 ∧ first = base + h * 4096 ∧ last = first + g * HUGE_PAGE_SIZE)) →
  spec (map_small flags (spread base 4096 head) None;;
        for_each (spread first HUGE_PAGE_SIZE huge) (λ '(phys, virt), map_huge_page phys virt flags);;
        map_small flags (spread last 4096 tail) None) vm
    (λ _ vm', ∃ own', mapped own' root data (put (page base) (head ++ (huge ≫= block_frames) ++ tail) flags m) vm') no_memory.
Proof.
  intros Hm Hfl Hb Hb0 Lh Lg Lt He Ph Pg Pt Hfree Hparts.
  pose proof (len_nonneg head). pose proof (len_nonneg huge). pose proof (len_nonneg tail).
  eapply spec_bind; [apply (map_small_ok flags head own root data m vm base None); try done; [unfold user_range; split_and!; [done|lia..]|intros; apply Hfree; lia]|].
  intros [] vm1 (own1&Hm1). destruct Hparts as [[-> ->]|(Hf1&Hf2&Hl)].
  { assert (huge = []) as -> by (destruct huge; [done|rewrite len_cons in Lg; pose proof (len_nonneg huge); lia]).
    assert (tail = []) as -> by (destruct tail; [done|rewrite len_cons in Lt; pose proof (len_nonneg tail); lia]).
    apply spec_bind_ret, spec_ret. exists own1. by rewrite !app_nil_r. }
  unfold HUGE_PAGE_SIZE in Hl. destruct (decide (g = 0 ∧ t = 0)) as [[-> ->]|Hgt].
  { assert (huge = []) as -> by (destruct huge; [done|rewrite len_cons in Lg; pose proof (len_nonneg huge); lia]).
    assert (tail = []) as -> by (destruct tail; [done|rewrite len_cons in Lt; pose proof (len_nonneg tail); lia]).
    apply spec_bind_ret, spec_ret. exists own1. by rewrite !app_nil_r. }
  destruct (user_page base) as [Epb _]; [lia|]. destruct (user_page first) as [Epf _]; [lia|].
  assert (page first = page base + h) as Hpf.
  { rewrite Epb, Epf, Hf2. by rewrite Z.div_add by lia. }
  eapply spec_bind; [apply (map_huges_ok flags huge own1 root data _ vm1 first Hm1 Hfl); try done|].
  { unfold huge_range, HUGE_PAGE_SIZE. rewrite Lg. split_and!; [done|lia..]. }
  { rewrite Hpf, Lg, <-Lh. apply (put_free (page base) head flags m). rewrite Lh. intros i Hi. apply Hfree. lia. }
  intros [] vm2 (own2&Hm2). destruct (decide (t = 0)) as [->|Ht].
  { assert (tail = []) as -> by (destruct tail; [done|rewrite len_cons in Lt; pose proof (len_nonneg tail); lia]).
    apply spec_ret. exists own2. eapply mapped_ext; [|done]. intros p. by rewrite app_nil_r, put_app, Lh, Hpf. }
  assert (page last = page base + h + 512 * g) as Hpl.
  { destruct (user_page last) as [-> _]; [lia|]. rewrite Epb, Hl, Hf2.
    replace (base + h * 4096 + g * (2 * 1024 * 1024)) with (base + (h + 512 * g) * 4096) by lia. rewrite Z.div_add by lia. lia. }
  eapply spec_weaken; [apply (map_small_ok flags tail own2 root data _ vm2 last None Hm2 Hfl); try done| |done].
  - unfold user_range. rewrite Lt, Hl, Hf2. split_and!; [|lia..]. clear -Hb. Z.to_euclidean_division_equations. lia.
  - rewrite Lt, Hpl. intros i Hi. rewrite put_out by (rewrite len_blocks, Lg, Hpf; lia). rewrite put_out by lia.
    replace (page base + h + 512 * g + i) with (page base + (h + 512 * g + i)) by lia. apply Hfree. lia.
  - intros [] vm3 (own3&Hm3). exists own3. eapply mapped_ext; [|done]. intros p. rewrite app_assoc, put_app, len_app, len_blocks, Lh, Lg.
    rewrite Hpl. replace (page base + (h + 512 * g)) with (page base + h + 512 * g) by lia. apply put_ext. intros q.
    by rewrite put_app, Lh, Hpf.
Qed.

Lemma allocate_and_map_ok own root data m vm base size o : mapped own root data m vm → base mod 4096 = 0 → 0 <= base → 0 <= size →
  base + npages size * 4096 <= 2 ^ 47 → (∀ i, 0 <= i < npages size → m (page base + i) = None) →
  spec (allocate_and_map base size o) vm
    (λ mp vm', ∃ own' pf, base_virt mp = base ∧ size_bytes mp = npages size * 4096 ∧ fresh_region data (npages size) mp pf vm'
       ∧ mapped own' root (vm_data vm') (put (page base) pf (to_flags o) m) vm') no_memory.
Proof.
  intros Hm Hb Hb0 Hs He Hfree. unfold allocate_and_map. rewrite decide_False by lia.
  assert (0 <= npages size ∧ size <= npages size * 4096 < size + 4096) as [Hn Hsz].
  { unfold npages. split; [apply Z.div_pos; lia|]. clear. Z.to_euclidean_division_equations. lia. }
  eapply spec_bind_Ok; [apply chk_ok; unfold in_u; lia|]. cbv zeta. rewrite align_to_pages.
  destruct (split_region_ok base (npages size) Hb Hb0 Hn He) as (h&g&t&first&last&E&Hh&Hg&Ht&Hsum&Hparts).
  eapply spec_bind_Ok; [exact E|]. cbv beta iota. rewrite !Z.div_mul by (unfold HUGE_PAGE_SIZE; lia).
  apply (alloc_parts own); [apply Hm|]. intros head huge tail vm1 Lh Lg Lt Ph Pg Pt Hgr.
  pose proof (grown_mapped _ _ _ _ _ _ _ Hm Hgr) as Hm1.
  assert (len head = h ∧ len huge = g ∧ len tail = t) as (Lh'&Lg'&Lt') by (unfold len; lia).
  pose proof (map_parts own root (vm_data vm1) m vm1 base h g t first last (to_flags o) head huge tail Hm1 (to_flags_page o)
    Hb Hb0 Lh' Lg' Lt' ltac:(lia) Ph Pg Pt ltac:(intros; apply Hfree; lia) Hparts) as Hmp.
  revert Hmp. unfold spec, mbind, ST_bind. destruct (map_small _ _ None vm1) as [vm2 [[]|[]| |]]; try done.
  destruct (for_each _ _ vm2) as [vm3 [[]|[]| |]]; try done. destruct (map_small _ _ None vm3) as [vm4 [[]|[]| |]]; try done.
  intros (own'&Hm4). exists own', (head ++ (huge ≫= block_frames) ++ tail). cbn [base_virt size_bytes].
  pose proof (mp_data _ _ _ _ _ Hm4) as Hd4. pose proof (mp_data _ _ _ _ _ Hm) as Hd0. split_and!; [done|done| |by rewrite Hd4].
  destruct Hgr as [_ _ D N F _]. rewrite Hd0 in D, F. split; cbn [backing].
  - eexists. split_and!; [done|apply frames_ok_parts|by rewrite frames_of_parts].
  - rewrite !len_app, len_blocks. lia.
  - done.
  - done.
  - intros g'. rewrite Hd4. apply D.
Qed.
End regions.
