(* ===== verification/Elf.v ===== *)
(** * ELF files
    ([crates/panda-elf/src/lib.rs])

    The parser of the header, of the program headers and of the sections of an
    ELF64 file.  A file is untrusted: every read is an index into its bytes,
    which panics out of range. *)

From S2P Require Import Prelude Effects BlockDevice.

Definition ELF_MAGIC : list Z := [0x7f; 0x45; 0x4c; 0x46].
Definition ELFCLASS64 : Z := 2.
Definition ELFDATA2LSB : Z := 1.
Definition PT_LOAD : Z := 1.
Definition PF_X : Z := 1.
Definition PF_W : Z := 2.
Definition PF_R : Z := 4.
Definition SIZEOF_EHDR : Z := 64.
Definition SIZEOF_PHDR : Z := 56.

(** The errors, with the message of each place that raises one. *)
Inductive OverflowMsg : Type := TableSizeOverflows | TableEndOverflows.
Inductive BoundsMsg : Type := TableBeyondFile | BufferTooSmall | HeaderBeyondFile.
Inductive ElfError : Type :=
  | FileTooSmall
  | InvalidMagic
  | Not64Bit
  | UnsupportedEndianness
  | Overflow (msg : OverflowMsg)
  | OutOfBounds (msg : BoundsMsg).

Record Elf64Header : Type := mkEhdr { eh_entry : Z; eh_phoff : Z; eh_phentsize : Z; eh_phnum : Z }.
Record Elf64Phdr : Type := mkPhdr {
  p_type : Z; p_flags : Z; p_offset : Z; p_vaddr : Z; p_filesz : Z; p_memsz : Z;
}.
#[export] Instance Elf64Phdr_eq_dec : EqDecision Elf64Phdr.
Proof. solve_decision. Defined.

Definition is_read (h : Elf64Phdr) : bool := bool_decide (Z.land (p_flags h) PF_R ≠ 0).
Definition is_write (h : Elf64Phdr) : bool := bool_decide (Z.land (p_flags h) PF_W ≠ 0).
Definition is_executable (h : Elf64Phdr) : bool := bool_decide (Z.land (p_flags h) PF_X ≠ 0).

Record ParsedElf : Type := mkElf { pe_header : Elf64Header; pe_headers : list Elf64Phdr }.

(** [read_u16_le], [read_u32_le] and [read_u64_le]: [n] bytes, each an index. *)
Definition read_le {E} (n : nat) (data : list Z) (offset : Z) : outcome E Z :=
  bs ← slice data offset (offset + Z.of_nat n);
  Ok (from_le_bytes bs).

Definition parse_phdr {E} (data : list Z) : outcome E Elf64Phdr :=
  ty ← read_le 4 data 0;
  flags ← read_le 4 data 4;
  offset ← read_le 8 data 8;
  vaddr ← read_le 8 data 16;
  filesz ← read_le 8 data 32;
  memsz ← read_le 8 data 40;
  Ok (mkPhdr ty flags offset vaddr filesz memsz).

Definition checked_mul (a b : Z) : option Z := if decide (a * b < 2 ^ 64) then Some (a * b) else None.

(** The loop that fills the buffer. *)
Fixpoint parse_phdrs (n : nat) (i : Z) (data : list Z) (phoff phentsize : Z) : outcome ElfError (list Elf64Phdr) :=
  match n with
  | O => Ok []
  | S n =>
      step ← chk 64 (i * phentsize);
      base ← chk 64 (phoff + step);
      end_ ← chk 64 (base + SIZEOF_PHDR);
      if decide (end_ > len data) then Err (OutOfBounds HeaderBeyondFile)
      else
        rest ← slice data base (len data);
        h ← parse_phdr rest;
        hs ← parse_phdrs n (i + 1) data phoff phentsize;
        Ok (h :: hs)
  end.

(** [parse_elf] with a buffer for [buf_len] program headers. *)
Definition parse_elf (data : list Z) (buf_len : Z) : outcome ElfError ParsedElf :=
  if decide (len data < SIZEOF_EHDR) then Err FileTooSmall
  else
    magic ← slice data 0 4;
    if decide (magic ≠ ELF_MAGIC) then Err InvalidMagic
    else
      class ← index data 4;
      if decide (class ≠ ELFCLASS64) then Err Not64Bit
      else
        endian ← index data 5;
        if decide (endian ≠ ELFDATA2LSB) then Err UnsupportedEndianness
        else
          entry ← read_le 8 data 24;
          phoff ← read_le 8 data 32;
          phentsize ← read_le 2 data 54;
          phnum ← read_le 2 data 56;
          size ← ok_or (checked_mul phentsize phnum) (Overflow TableSizeOverflows);
          phdr_end ← ok_or (checked_add phoff size) (Overflow TableEndOverflows);
          if decide (phdr_end > len data) then Err (OutOfBounds TableBeyondFile)
          else if decide (buf_len < phnum) then Err (OutOfBounds BufferTooSmall)
          else
            hs ← parse_phdrs (Z.to_nat phnum) 0 data phoff phentsize;
            Ok (mkElf (mkEhdr entry phoff phentsize phnum) hs).

Definition program_headers_count {E} (data : list Z) : outcome E (option Z) :=
  if decide (len data < SIZEOF_EHDR) then Ok None
  else
    magic ← slice data 0 4;
    if decide (magic ≠ ELF_MAGIC) then Ok None
    else n ← read_le 2 data 56; Ok (Some n).

(** ** Sections
    [None] is an [Err] here, so that [?] is the bind of the monad. *)
Definition SIZEOF_SHDR : Z := 64.

Definition read_shdr_fields (data : list Z) (base : Z) : outcome () (Z * Z * Z) :=
  end_ ← chk 64 (base + SIZEOF_SHDR);
  if decide (end_ > len data) then Err tt
  else
    name_off ← read_le 4 data (base + 0);
    offset ← read_le 8 data (base + 24);
    size ← read_le 8 data (base + 32);
    Ok (name_off, offset, size).

Definition slice_at (data : list Z) (start n : Z) : outcome () (list Z) :=
  end_ ← ok_or (checked_add start n) tt;
  if decide (end_ > len data) then Err tt else slice data start end_.

(** Up to the first zero, or all. *)
Fixpoint until_zero (bs : list Z) : list Z :=
  match bs with
  | [] => []
  | b :: bs => if decide (b = 0) then [] else b :: until_zero bs
  end.

Definition strtab_str_at (strtab : list Z) (offset : Z) : outcome () (list Z) :=
  if decide (offset > len strtab) then Err tt
  else rest ← slice strtab offset (len strtab); Ok (until_zero rest).

Fixpoint find_section (n : nat) (i : Z) (data strtab name : list Z) (shoff shentsize : Z) : outcome () (list Z) :=
  match n with
  | O => Err tt
  | S n =>
      step ← ok_or (checked_mul i shentsize) tt;
      base ← ok_or (checked_add shoff step) tt;
      '(name_off, sh_offset, sh_size) ← read_shdr_fields data base;
      sh_name ← strtab_str_at strtab name_off;
      if decide (sh_name = name) then slice_at data sh_offset sh_size
      else find_section n (i + 1) data strtab name shoff shentsize
  end.

Definition read_section (data name : list Z) : outcome () (list Z) :=
  if decide (len data < SIZEOF_EHDR) then Err tt
  else
    magic ← slice data 0 4;
    class ← index data 4;
    endian ← index data 5;
    if decide (magic ≠ ELF_MAGIC ∨ class ≠ ELFCLASS64 ∨ endian ≠ ELFDATA2LSB) then Err tt
    else
      shoff ← read_le 8 data 40;
      shentsize ← read_le 2 data 58;
      shnum ← read_le 2 data 60;
      shstrndx ← read_le 2 data 62;
      if decide (shnum = 0 ∨ shentsize < SIZEOF_SHDR) then Err tt
      else
        step ← ok_or (checked_mul shstrndx shentsize) tt;
        base ← ok_or (checked_add shoff step) tt;
        '(_, strtab_off, strtab_size) ← read_shdr_fields data base;
        strtab ← slice_at data strtab_off strtab_size;
        find_section (Z.to_nat shnum) 0 data strtab name shoff shentsize.

(** ** What a file says *)
(** The little-endian number of [n] bytes at an offset. *)
Definition le_at (n : nat) (data : list Z) (off : Z) : Z := from_le_bytes (take n (drop (Z.to_nat off) data)).

Definition phdr_at (data : list Z) (base : Z) : Elf64Phdr :=
  mkPhdr (le_at 4 data (base + 0)) (le_at 4 data (base + 4)) (le_at 8 data (base + 8)) (le_at 8 data (base + 16))
    (le_at 8 data (base + 32)) (le_at 8 data (base + 40)).

Definition ehdr_of (data : list Z) : Elf64Header :=
  mkEhdr (le_at 8 data 24) (le_at 8 data 32) (le_at 2 data 54) (le_at 2 data 56).

Definition phdr_base (data : list Z) (i : Z) : Z := le_at 8 data 32 + i * le_at 2 data 54.

Definition elf_of (data : list Z) : ParsedElf :=
  mkElf (ehdr_of data) ((λ i, phdr_at data (phdr_base data i)) <$> upto (le_at 2 data 56)).

(** A little-endian ELF64 file whose program headers lie in the file and fit
    the buffer. *)
Definition elf_ok (data : list Z) (buf_len : Z) : Prop :=
  SIZEOF_EHDR <= len data ∧ take 4 data = ELF_MAGIC ∧ data !! 4%nat = Some ELFCLASS64 ∧ data !! 5%nat = Some ELFDATA2LSB
  ∧ le_at 8 data 32 + le_at 2 data 54 * le_at 2 data 56 <= len data ∧ le_at 2 data 56 <= buf_len
  ∧ Forall (λ i, phdr_base data i + SIZEOF_PHDR <= len data) (upto (le_at 2 data 56)).
#[export] Instance elf_ok_dec data buf_len : Decision (elf_ok data buf_len).
Proof. unfold elf_ok. apply _. Defined.

Lemma read_le_ok {E} n data off : 0 <= off → off + Z.of_nat n <= len data → read_le (E:=E) n data off = Ok (le_at n data off).
Proof.
  intros Ho Hn. unfold read_le, slice, get_range, le_at. rewrite decide_True by lia. simpl.
  by replace (Z.to_nat (off + Z.of_nat n - off)) with n by lia.
Qed.

Lemma le_at_bound n data off : Forall is_u8 data → 0 <= off → off + Z.of_nat n <= len data →
  0 <= le_at n data off < 2 ^ (8 * Z.of_nat n).
Proof.
  intros Hu Ho Hn. unfold le_at. pose proof (from_le_bytes_bound (take n (drop (Z.to_nat off) data))) as Hb.
  assert (length (take n (drop (Z.to_nat off) data)) = n) as El by (rewrite length_take, length_drop; unfold len in Hn; lia).
  unfold len in Hb. rewrite El in Hb. apply Hb. by apply Forall_take, Forall_drop.
Qed.

Lemma le_at_drop n data base off : 0 <= base → 0 <= off → le_at n (drop (Z.to_nat base) data) off = le_at n data (base + off).
Proof. intros. unfold le_at. rewrite drop_drop. do 3 f_equal. lia. Qed.

Lemma parse_phdr_ok {E} data base : 0 <= base → base + SIZEOF_PHDR <= len data →
  parse_phdr (E:=E) (drop (Z.to_nat base) data) = Ok (phdr_at data base).
Proof.
  intros Hb Hl. unfold SIZEOF_PHDR in Hl. assert (len (drop (Z.to_nat base) data) = len data - base) as El by (rewrite len_drop; lia).
  unfold parse_phdr. rewrite !read_le_ok by lia. simpl. by rewrite !le_at_drop by lia.
Qed.

Lemma slice_drop {E} (data : list Z) base : 0 <= base <= len data → slice (E:=E) data base (len data) = Ok (drop (Z.to_nat base) data).
Proof.
  intros Hb. unfold slice, get_range. rewrite decide_True by lia. f_equal. apply take_ge. rewrite length_drop. unfold len. lia.
Qed.

Lemma upto_from i n : 0 <= i → (λ k, i + Z.of_nat k) <$> seq 0 (S n) = i :: ((λ k, i + 1 + Z.of_nat k) <$> seq 0 n).
Proof.
  intros Hi. cbn [seq fmap list_fmap]. f_equal; [lia|]. rewrite <-fmap_S_seq, <-list_fmap_compose.
  apply list_fmap_ext. intros j x _. simpl. lia.
Qed.

Section parse.
Context (data : list Z).
Hypothesis Hu8 : Forall is_u8 data.
Hypothesis Hlen : len data < 2 ^ 63.
Context (phoff phentsize phnum : Z).
Hypothesis Hoff : 0 <= phoff.
Hypothesis Hent : 0 <= phentsize.
Hypothesis Hend : phoff + phentsize * phnum <= len data.

Lemma parse_phdrs_ok n : ∀ i, 0 <= i → i + Z.of_nat n <= phnum →
  let js := (λ k, i + Z.of_nat k) <$> seq 0 n in
  if decide (Forall (λ j, phoff + j * phentsize + SIZEOF_PHDR <= len data) js)
  then parse_phdrs n i data phoff phentsize = Ok ((λ j, phdr_at data (phoff + j * phentsize)) <$> js)
  else parse_phdrs n i data phoff phentsize = Err (OutOfBounds HeaderBeyondFile).
Proof using Hlen Hoff Hent Hend.
  induction n as [|n IH]; intros i Hi Hin; cbv zeta; [by rewrite decide_True by apply Forall_nil_2|].
  assert (phoff + i * phentsize <= len data) as Hbase by nia. pose proof (len_nonneg data).
  assert (0 <= i * phentsize) as Hstep by nia.
  rewrite upto_from by done. specialize (IH (i + 1) ltac:(lia) ltac:(lia)). cbv zeta in IH.
  cbn [parse_phdrs]. rewrite (chk_ok 64 (i * phentsize)) by (unfold in_u; lia). cbn [mbind outcome_bind].
  rewrite (chk_ok 64 (phoff + i * phentsize)) by (unfold in_u; lia). cbn [mbind outcome_bind].
  rewrite (chk_ok 64 (phoff + i * phentsize + SIZEOF_PHDR)) by (unfold in_u, SIZEOF_PHDR; lia). cbn [mbind outcome_bind].
  destruct (decide (phoff + i * phentsize + SIZEOF_PHDR > len data)) as [Hgt|Hle].
  - rewrite decide_False; [done|]. rewrite Forall_cons. lia.
  - rewrite slice_drop by lia. cbn [mbind outcome_bind]. rewrite parse_phdr_ok by lia. cbn [mbind outcome_bind].
    destruct (decide (Forall _ ((λ k, i + 1 + Z.of_nat k) <$> seq 0 n))) as [Hf|Hf]; rewrite IH; cbn [mbind outcome_bind].
    + rewrite decide_True; [done|]. rewrite Forall_cons. split; [lia|done].
    + rewrite decide_False; [done|]. rewrite Forall_cons. by intros [_ ?].
Qed.
End parse.

Lemma upto_zero n : upto n = (λ k, 0 + Z.of_nat k) <$> seq 0 (Z.to_nat n).
Proof. done. Qed.

Lemma lookup_index {E} (data : list Z) i : (i < length data)%nat →
  ∃ x, data !! i = Some x ∧ index (E:=E) data (Z.of_nat i) = Ok x.
Proof.
  intros Hi. destruct (lookup_lt_is_Some_2 data i Hi) as [x Hx]. exists x. split; [done|].
  unfold index. rewrite decide_True by (unfold len; lia). by rewrite Nat2Z.id, Hx.
Qed.

Lemma slice_take {E} (data : list Z) n : 0 <= n <= len data → slice (E:=E) data 0 n = Ok (take (Z.to_nat n) data).
Proof. intros Hn. unfold slice, get_range. rewrite decide_True by lia. by rewrite Z.sub_0_r. Qed.

(** The part of [parse_elf] after the identification. *)
Lemma parse_body data buf_len : Forall is_u8 data → len data < 2 ^ 63 → SIZEOF_EHDR <= len data →
  take 4 data = ELF_MAGIC → data !! 4%nat = Some ELFCLASS64 → data !! 5%nat = Some ELFDATA2LSB →
  parse_elf data buf_len =
    if decide (le_at 8 data 32 + le_at 2 data 54 * le_at 2 data 56 >= 2 ^ 64) then Err (Overflow TableEndOverflows)
    else if decide (le_at 8 data 32 + le_at 2 data 54 * le_at 2 data 56 > len data) then Err (OutOfBounds TableBeyondFile)
    else if decide (buf_len < le_at 2 data 56) then Err (OutOfBounds BufferTooSmall)
    else hs ← parse_phdrs (Z.to_nat (le_at 2 data 56)) 0 data (le_at 8 data 32) (le_at 2 data 54); Ok (mkElf (ehdr_of data) hs).
Proof.
  unfold SIZEOF_EHDR. intros Hu Hl Hs Hm Hc He. unfold parse_elf, SIZEOF_EHDR. rewrite decide_False by lia.
  rewrite slice_take by lia. cbn [mbind outcome_bind]. change (Z.to_nat 4) with 4%nat. rewrite Hm, decide_False by auto.
  destruct (lookup_index (E:=ElfError) data 4) as (c&Hc'&E4); [unfold len in Hs; lia|]. change 4 with (Z.of_nat 4) at 1. rewrite E4.
  rewrite Hc in Hc'. injection Hc' as <-. cbn [mbind outcome_bind]. rewrite decide_False by auto.
  destruct (lookup_index (E:=ElfError) data 5) as (d&Hd'&E5); [unfold len in Hs; lia|]. change 5 with (Z.of_nat 5). rewrite E5.
  rewrite He in Hd'. injection Hd' as <-. cbn [mbind outcome_bind]. rewrite decide_False by auto.
  rewrite !read_le_ok by lia. cbn [mbind outcome_bind].
  pose proof (le_at_bound 2 data 54 Hu ltac:(lia) ltac:(lia)) as B1. pose proof (le_at_bound 2 data 56 Hu ltac:(lia) ltac:(lia)) as B2.
  change (2 ^ (8 * Z.of_nat 2)) with 65536 in *.
  assert (le_at 2 data 54 * le_at 2 data 56 <= 65536 * 65536) by (apply Z.mul_le_mono_nonneg; lia).
  unfold checked_mul. rewrite (decide_True (P := _ * _ < _)) by lia. cbn [ok_or mbind outcome_bind]. unfold checked_add.
  destruct (decide (_ < 2 ^ 64)) as [Hlt|Hge].
  - rewrite (decide_False (P := _ >= 2 ^ 64)) by lia. cbn [ok_or mbind outcome_bind]. done.
  - rewrite (decide_True (P := _ >= 2 ^ 64)) by lia. done.
Qed.

Lemma parse_ident data buf_len : SIZEOF_EHDR > len data ∨ take 4 data ≠ ELF_MAGIC ∨ data !! 4%nat ≠ Some ELFCLASS64 ∨ data !! 5%nat ≠ Some ELFDATA2LSB →
  ∃ e, parse_elf data buf_len = Err e.
Proof.
  unfold SIZEOF_EHDR. intros Hbad. unfold parse_elf, SIZEOF_EHDR. destruct (decide (len data < 64)) as [|Hs]; [by eexists|].
  rewrite slice_take by lia. cbn [mbind outcome_bind]. change (Z.to_nat 4) with 4%nat.
  destruct (decide (take 4 data ≠ ELF_MAGIC)) as [|Hm%dec_stable]; [by eexists|].
  destruct (lookup_index (E:=ElfError) data 4) as (c&Hc&E4); [unfold len in Hs; lia|]. change 4 with (Z.of_nat 4) at 1. rewrite E4.
  cbn [mbind outcome_bind]. destruct (decide (c ≠ ELFCLASS64)) as [|Hc'%dec_stable]; [by eexists|].
  destruct (lookup_index (E:=ElfError) data 5) as (d&Hd&E5); [unfold len in Hs; lia|]. change 5 with (Z.of_nat 5). rewrite E5.
  cbn [mbind outcome_bind]. destruct (decide (d ≠ ELFDATA2LSB)) as [|Hd'%dec_stable]; [by eexists|].
  exfalso. destruct Hbad as [?|[?|[Hn|Hn]]]; [lia|done|apply Hn; by rewrite Hc, Hc'|apply Hn; by rewrite Hd, Hd'].
Qed.

Lemma parse_elf_cases data buf_len : Forall is_u8 data → len data < 2 ^ 63 →
  if decide (elf_ok data buf_len) then parse_elf data buf_len = Ok (elf_of data)
  else ∃ e, parse_elf data buf_len = Err e.
Proof.
  intros Hu Hl. destruct (decide (SIZEOF_EHDR <= len data ∧ take 4 data = ELF_MAGIC ∧ data !! 4%nat = Some ELFCLASS64
    ∧ data !! 5%nat = Some ELFDATA2LSB)) as [(Hs&Hm&Hc&He)|Hbad].
  2: { rewrite decide_False by (unfold elf_ok; tauto). apply parse_ident. unfold SIZEOF_EHDR in *.
       destruct (decide (64 <= len data)); [|lia]. destruct (decide (take 4 data = ELF_MAGIC)); [|tauto].
       destruct (decide (data !! 4%nat = Some ELFCLASS64)); tauto. }
  rewrite parse_body by done. unfold SIZEOF_EHDR in Hs.
  pose proof (le_at_bound 2 data 54 Hu ltac:(lia) ltac:(lia)) as B1. pose proof (le_at_bound 2 data 56 Hu ltac:(lia) ltac:(lia)) as B2.
  pose proof (le_at_bound 8 data 32 Hu ltac:(lia) ltac:(lia)) as B3.
  destruct (decide (_ >= 2 ^ 64)); [rewrite decide_False by (unfold elf_ok; lia); by eexists|].
  destruct (decide (_ > len data)); [rewrite decide_False by (unfold elf_ok; lia); by eexists|].
  destruct (decide (buf_len < _)); [rewrite decide_False by (unfold elf_ok; lia); by eexists|].
  pose proof (parse_phdrs_ok data Hl (le_at 8 data 32) (le_at 2 data 54) (le_at 2 data 56) ltac:(lia) ltac:(lia) ltac:(lia)
    (Z.to_nat (le_at 2 data 56)) 0 ltac:(lia) ltac:(lia)) as Hp. cbv zeta in Hp. rewrite <-upto_zero in Hp.
  fold (phdr_base data) in Hp.
  destruct (decide (Forall _ _)) as [Hf|Hf]; rewrite Hp; cbn [mbind outcome_bind].
  - rewrite decide_True; [done|]. unfold elf_ok, SIZEOF_EHDR. split_and!; try done; lia.
  - rewrite decide_False by (unfold elf_ok; tauto). by eexists.
Qed.

(** C32.  The parser never panics: a file that is a little-endian ELF64 file
    with all program headers inside it is parsed to exactly the fields its
    bytes hold, the headers at [phoff + i * phentsize] in order, and every
    other sequence of bytes is an error. *)
Theorem parse_elf_exact data buf_len : Forall is_u8 data → len data < 2 ^ 63 →
  if decide (elf_ok data buf_len) then parse_elf data buf_len = Ok (elf_of data)
  else ∃ e, parse_elf data buf_len = Err e.
Proof. apply parse_elf_cases. Qed.

(** ** Writing files *)
Definition phdr_bytes (h : Elf64Phdr) : list Z :=
  to_le_bytes 4 (p_type h) ++ to_le_bytes 4 (p_flags h) ++ to_le_bytes 8 (p_offset h) ++ to_le_bytes 8 (p_vaddr h) ++
  to_le_bytes 8 (p_vaddr h) ++ to_le_bytes 8 (p_filesz h) ++ to_le_bytes 8 (p_memsz h) ++ to_le_bytes 8 4096.

(** A file of a header, the program headers and the bytes they name. *)
Definition elf_image (entry : Z) (hs : list Elf64Phdr) (payload : list Z) : list Z :=
  ELF_MAGIC ++ [ELFCLASS64; ELFDATA2LSB; 1; 0] ++ to_le_bytes 8 0 ++ to_le_bytes 2 2 ++ to_le_bytes 2 62 ++ to_le_bytes 4 1 ++
  to_le_bytes 8 entry ++ to_le_bytes 8 SIZEOF_EHDR ++ to_le_bytes 8 0 ++ to_le_bytes 4 0 ++ to_le_bytes 2 SIZEOF_EHDR ++
  to_le_bytes 2 SIZEOF_PHDR ++ to_le_bytes 2 (len hs) ++ to_le_bytes 2 0 ++ to_le_bytes 2 0 ++ to_le_bytes 2 0 ++
  concat (phdr_bytes <$> hs) ++ payload.

Definition demo_file : list Z :=
  elf_image 0x401000 [mkPhdr PT_LOAD 5 120 0x401000 4 8] [1; 2; 3; 4].

Lemma parse_elf_exact_witness :
  (if decide (elf_ok demo_file 1) then parse_elf demo_file 1 = Ok (elf_of demo_file) else ∃ e, parse_elf demo_file 1 = Err e)
  ∧ parse_elf demo_file 1 = Ok (mkElf (mkEhdr 0x401000 64 56 1) [mkPhdr PT_LOAD 5 120 0x401000 4 8])
  ∧ parse_elf demo_file 0 = Err (OutOfBounds BufferTooSmall).
Proof.
  split; [|split; by vm_compute]. apply (parse_elf_exact demo_file 1).
  - apply (bool_decide_unpack _). by vm_compute.
  - by vm_compute.
Defined.

(** ** Sections *)
Lemma read_shdr_safe data base : Forall is_u8 data → 0 <= base → base + SIZEOF_SHDR < 2 ^ 64 →
  ensures (read_shdr_fields data base) (λ r, 0 <= r.1.1 ∧ 0 <= r.1.2 ∧ 0 <= r.2).
Proof.
  unfold SIZEOF_SHDR. intros Hu Hb Hm. unfold read_shdr_fields, SIZEOF_SHDR. rewrite chk_ok by (unfold in_u; lia).
  cbn [mbind outcome_bind]. destruct (decide _) as [|Hle]; [done|]. rewrite !read_le_ok by lia. cbn [mbind outcome_bind].
  pose proof (le_at_bound 4 data (base + 0) Hu ltac:(lia) ltac:(lia)). pose proof (le_at_bound 8 data (base + 24) Hu ltac:(lia) ltac:(lia)).
  pose proof (le_at_bound 8 data (base + 32) Hu ltac:(lia) ltac:(lia)). cbn [ensures fst snd]. lia.
Qed.

Lemma slice_at_safe data start n : 0 <= start → 0 <= n →
  ensures (slice_at data start n) (λ s, s = take (Z.to_nat n) (drop (Z.to_nat start) data) ∧ start + n <= len data).
Proof.
  intros Hs Hn. unfold slice_at, checked_add. destruct (decide _); [|done]. cbn [ok_or mbind outcome_bind].
  destruct (decide _) as [|Hle]; [done|]. unfold slice, get_range. rewrite decide_True by lia. cbn [ensures].
  by replace (start + n - start) with n by lia.
Qed.

Lemma strtab_safe strtab off : 0 <= off → no_panic (strtab_str_at strtab off).
Proof. intros Ho. unfold strtab_str_at. destruct (decide _); [done|]. by rewrite slice_drop by lia. Qed.

Definition max_table : Z := 65536 * 65536.

Lemma find_section_safe data strtab name shoff shentsize n : ∀ i, Forall is_u8 data → 0 <= shoff → 0 <= shentsize < 65536 →
  0 <= i → i + Z.of_nat n <= 65536 → shoff + max_table + SIZEOF_SHDR < 2 ^ 64 →
  ensures (find_section n i data strtab name shoff shentsize)
    (λ s, ∃ off size, 0 <= off ∧ 0 <= size ∧ off + size <= len data ∧ s = take (Z.to_nat size) (drop (Z.to_nat off) data)).
Proof.
  unfold max_table. induction n as [|n IH]; intros i Hu Ho He Hi Hn Hm; [done|]. cbn [find_section].
  assert (0 <= i * shentsize <= 65536 * 65536) as Hs by (split; [nia|apply Z.mul_le_mono_nonneg; lia]).
  unfold checked_mul. rewrite (decide_True (P := _ * _ < _)) by (unfold SIZEOF_SHDR in Hm; lia). cbn [ok_or mbind outcome_bind].
  unfold checked_add. rewrite decide_True by (unfold SIZEOF_SHDR in Hm; lia). cbn [ok_or mbind outcome_bind].
  pose proof (read_shdr_safe data (shoff + i * shentsize) Hu ltac:(lia) ltac:(lia)) as Hr.
  destruct (read_shdr_fields _ _) as [[[no so] ss]| | |]; cbn [mbind outcome_bind ensures] in *; try done.
  destruct Hr as (Hno&Hso&Hss). cbn [fst snd] in *. pose proof (strtab_safe strtab no Hno) as Hst.
  destruct (strtab_str_at _ _) as [nm| | |]; cbn [mbind outcome_bind no_panic ensures] in *; try done.
  destruct (decide _); [|apply IH; (done || lia)].
  eapply ensures_weaken; [by apply slice_at_safe|]. intros s [-> Hle]. by exists so, ss.
Qed.

(** A file whose section table starts after the end of the address range. *)
Definition bad_sections : list Z :=
  ELF_MAGIC ++ [ELFCLASS64; ELFDATA2LSB; 1; 0] ++ to_le_bytes 32 0 ++ to_le_bytes 8 (2 ^ 64 - 1) ++ to_le_bytes 10 0 ++
  to_le_bytes 2 64 ++ to_le_bytes 2 1 ++ to_le_bytes 2 0.

(** Reading a section of a file whose section table does not lie at the
    very end of the 64-bit range never panics, and what it returns is a part
    of the file; a 64-byte file with a section table at the last address stops
    the reader with an overflow, although it promises never to panic. *)
Theorem read_section_untrusted :
  (∀ data name, Forall is_u8 data → le_at 8 data 40 + max_table + SIZEOF_SHDR < 2 ^ 64 →
     ensures (read_section data name)
       (λ s, ∃ off size, 0 <= off ∧ 0 <= size ∧ off + size <= len data ∧ s = take (Z.to_nat size) (drop (Z.to_nat off) data)))
  ∧ ∀ name, read_section bad_sections name = Panic.
Proof.
  split.
  - intros data name Hu Hm. unfold read_section, SIZEOF_EHDR. destruct (decide (len data < 64)) as [|Hl]; [done|].
    rewrite slice_take by lia. cbn [mbind outcome_bind].
    destruct (lookup_index (E:=()) data 4) as (c&_&E4); [unfold len in Hl; lia|]. change (index data 4) with (index (E:=()) data (Z.of_nat 4)).
    rewrite E4. destruct (lookup_index (E:=()) data 5) as (d&_&E5); [unfold len in Hl; lia|].
    change (index data 5) with (index (E:=()) data (Z.of_nat 5)). rewrite E5. cbn [mbind outcome_bind].
    destruct (decide (_ ∨ _)); [done|]. rewrite !read_le_ok by lia. cbn [mbind outcome_bind]. destruct (decide (_ ∨ _)) as [|Hn]; [done|].
    pose proof (le_at_bound 8 data 40 Hu ltac:(lia) ltac:(lia)) as B0. pose proof (le_at_bound 2 data 58 Hu ltac:(lia) ltac:(lia)) as B1.
    pose proof (le_at_bound 2 data 60 Hu ltac:(lia) ltac:(lia)) as B2. pose proof (le_at_bound 2 data 62 Hu ltac:(lia) ltac:(lia)) as B3.
    change (2 ^ (8 * Z.of_nat 2)) with 65536 in *.
    assert (0 <= le_at 2 data 62 * le_at 2 data 58 <= max_table) as Hs by (split; [nia|apply Z.mul_le_mono_nonneg; lia]).
    unfold checked_mul. rewrite (decide_True (P := _ * _ < _)) by (unfold SIZEOF_SHDR in Hm; lia). cbn [ok_or mbind outcome_bind].
    unfold checked_add. rewrite decide_True by (unfold SIZEOF_SHDR in Hm; lia). cbn [ok_or mbind outcome_bind].
    eapply ensures_bind; [apply read_shdr_safe; [done|lia..]|]. intros [[no so] ss] (_&Hso&Hss). cbn [fst snd] in *.
    eapply ensures_bind; [by apply slice_at_safe|]. intros strtab _. apply find_section_safe; (done || lia).
  - intros name. by vm_compute.
Qed.
