(* ===== verification/ElfLoad.v ===== *)
(** * Loading an ELF file
    ([panda-kernel/src/process/elf.rs], [memory/mapping.rs] [write_at],
    [process/mod.rs] [from_elf_data])

    The loader maps a region of fresh frames for every loadable segment and
    copies the bytes of the file into the frames.  The bytes are copied through
    the kernel's own address of a frame, which the state shows as the contents
    of the physical frame. *)

From S2P Require Import Prelude Effects BlockDevice UserPtr PageTable PageTableProof Paging PagingMap MapRegion ProcessMemory Elf.

(** ** Errors *)
(** The message of each place that raises [InvalidElf]. *)
Inductive InvalidMsg : Type :=
  | ParseError (e : ElfError)
  | VaddrInKernelSpace
  | AddressSizeOverflows
  | ExtendsIntoKernelSpace
  | OffsetSizeOverflows
  | OffsetExceedsFile.
Inductive ElfLoadError : Type := InvalidElf (msg : InvalidMsg) | ElfNot64Bit.

Definition ElfLoadError_from (e : ElfError) : ElfLoadError :=
  match e with Not64Bit => ElfNot64Bit | e => InvalidElf (ParseError e) end.

(** What stops a load: its own error, or a heap without a frame, which stops
    the kernel. *)
Inductive LoadError : Type := LoadElf (e : ElfLoadError) | NoMemory.

Definition validate_segment_security (h : Elf64Phdr) (file_size : Z) : outcome ElfLoadError Z :=
  if decide (p_vaddr h > USER_ADDR_MAX) then Err (InvalidElf VaddrInKernelSpace)
  else
    segment_end ← ok_or (checked_add (p_vaddr h) (p_memsz h)) (InvalidElf AddressSizeOverflows);
    if decide (segment_end > USER_ADDR_MAX) then Err (InvalidElf ExtendsIntoKernelSpace)
    else
      file_end ← ok_or (checked_add (p_offset h) (p_filesz h)) (InvalidElf OffsetSizeOverflows);
      if decide (file_end > file_size) then Err (InvalidElf OffsetExceedsFile)
      else Ok segment_end.

(** The loop over the program headers keeps the mappings made so far, the end
    of the last one and whether its segment was executable, which only a
    warning reads. *)
Record LoadState : Type := mkLoad { ld_mappings : list Mapping; ld_end : Z }.

Section load.
Context {A : Type} `{FrameAllocator A}.
Abbreviation M := (ST (VM A) ()).
Abbreviation L := (ST (VM A) LoadError).

Definition on_memory {B} (m : M B) : L B := zoom id (λ vm _, vm) (λ _, NoMemory) m.

(** ** [Mapping::write_at] *)
(** [copy_nonoverlapping] to a frame, byte by byte. *)
Fixpoint store_bytes (pa : Z) (bs : list Z) (vm : VM A) : VM A :=
  match bs with
  | [] => vm
  | b :: bs => store_bytes (pa + 1) bs (store_phys pa b vm)
  end.

(** The frames from the one that holds the offset, with its own offset. *)
Fixpoint skip_frames (frames : list (Z * Z)) (frame_base_offset current_offset : Z) : outcome () (list (Z * Z) * Z) :=
  match frames with
  | [] => Ok ([], frame_base_offset)
  | (f, frame_size) :: rest =>
      end_ ← chk 64 (frame_base_offset + frame_size);
      if decide (end_ > current_offset) then Ok (frames, frame_base_offset)
      else skip_frames rest end_ current_offset
  end.

Fixpoint copy_frames (frames : list (Z * Z)) (frame_base_offset current_offset : Z) (remaining : list Z) : M () :=
  match frames, remaining with
  | [], _ | _, [] => mret tt
  | (f, frame_size) :: rest, _ =>
      offset_in_frame ← liftO (chk 64 (current_offset - frame_base_offset));
      left_ ← liftO (chk 64 (frame_size - offset_in_frame));
      let bytes_in_frame := left_ `min` len remaining in
      modify (store_bytes (f + offset_in_frame) (take (Z.to_nat bytes_in_frame) remaining));;
      copy_frames rest (frame_base_offset + frame_size) (current_offset + bytes_in_frame) (drop (Z.to_nat bytes_in_frame) remaining)
  end.

Definition write_at (mp : Mapping) (offset : Z) (data : list Z) : M () :=
  match backing mp with
  | Frames frames =>
      '(frames, frame_base_offset) ← liftO (skip_frames frames 0 offset);
      copy_frames frames frame_base_offset offset data
  | _ => liftO Panic
  end.

(** ** [load_elf] *)
Definition segment_options (h : Elf64Phdr) : MemoryMappingOptions := mkOpt true (is_executable h) (is_write h).

(** A segment that starts below the end of the last one: the mapping begins
    where the last one ends, and a writable segment makes the pages below
    writable. *)
Definition overlap_segment (h : Elf64Phdr) (last_segment_end aligned_virt_addr aligned_size : Z) : L (Z * Z) :=
  if decide (aligned_virt_addr < last_segment_end) then
    let overlap := last_segment_end - aligned_virt_addr in
    addr ← liftO (VirtAddr_new last_segment_end);
    let size := if decide (aligned_size > overlap) then aligned_size - overlap else 0 in
    (if is_write h then on_memory (update_permissions aligned_virt_addr (addr - aligned_virt_addr) (mkOpt true false true))
     else mret tt);;
    mret (addr, size)
  else mret (aligned_virt_addr, aligned_size).

(** A valid segment. *)
Definition load_segment (data : list Z) (st : LoadState) (h : Elf64Phdr) : L LoadState :=
  virt_addr ← liftO (VirtAddr_new (p_vaddr h));
  let page_offset := virt_addr mod 4096 in
  aligned_size ← liftO (chk 64 (p_memsz h + page_offset));
  '(aligned_virt_addr, aligned_size) ← overlap_segment h (ld_end st) (align_to 4096 virt_addr) aligned_size;
  if decide (aligned_size > 0) then
    mapping ← on_memory (allocate_and_map aligned_virt_addr aligned_size (segment_options h));
    src_data ← liftO (slice data (p_offset h) (p_offset h + p_filesz h));
    offset_in_mapping ← liftO (chk 64 (virt_addr - aligned_virt_addr));
    on_memory (write_at mapping offset_in_mapping src_data);;
    mret (mkLoad (ld_mappings st ++ [mapping]) (aligned_virt_addr + align_to 4096 (aligned_size + 4095)))
  else mret st.

(** An invalid segment returns, and the mappings made so far go. *)
Fixpoint load_segments (data : list Z) (hs : list Elf64Phdr) (st : LoadState) : L LoadState :=
  match hs with
  | [] => mret st
  | h :: hs =>
      if decide (p_type h = PT_LOAD) then
        match validate_segment_security h (len data) with
        | Ok _ => st ← load_segment data st h; load_segments data hs st
        | Err e => on_memory (for_each (ld_mappings st) drop_mapping);; fail (LoadElf e)
        | Panic => liftO Panic
        | OutOfFuel => liftO OutOfFuel
        end
      else load_segments data hs st
  end.

Definition load_elf (data : list Z) : L (Z * list Mapping) :=
  count ← liftO (program_headers_count data);
  elf ← liftO (map_err (λ e, LoadElf (ElfLoadError_from e)) (parse_elf data (default 0 count)));
  st ← load_segments data (pe_headers elf) (mkLoad [] 0);
  mret (eh_entry (pe_header elf), ld_mappings st).

(** The part of [from_elf_data] that touches memory, with the instruction
    pointer and the stack pointer of the process: an error of the load returns
    before the page table of the caller is back. *)
Definition from_elf_data (context_root : Z) (data : list Z) : L (Z * Z * list Mapping) :=
  saved_page_table ← gets vm_root;
  on_memory (switch_page_table context_root);;
  '(entry_point, mappings) ← load_elf data;
  on_memory (switch_page_table saved_page_table);;
  sp ← liftO (VirtAddr_new (STACK_BASE + STACK_MAX_SIZE - 8));
  ip ← liftO (VirtAddr_new entry_point);
  mret (ip, sp, mappings).
End load.

(** ** Bytes of physical memory *)
Section bytes.
Context {A : Type} `{FrameAllocatorLaws A}.
Implicit Types vm : VM A.

(** The frames of [pf] hold whole pages. *)
Definition pages_in (pf : list Z) vm : Prop := ∀ f, f ∈ pf → f mod 4096 = 0 ∧ ∃ bs, vm_data vm !! f = Some bs ∧ length bs = 4096%nat.

Lemma pages_in_app l pf vm : pages_in (l ++ pf) vm ↔ pages_in l vm ∧ pages_in pf vm.
Proof.
  unfold pages_in. setoid_rewrite elem_of_app. split; [intros Hp; split; intros f Hf; apply Hp; tauto|].
  intros [H1 H2] f [Hf|Hf]; auto.
Qed.

(** The physical address of an offset in the region of frames [pf]. *)
Definition pa_at (pf : list Z) (o : Z) : Z := default 0 (pf !! Z.to_nat (o / 4096)) + o mod 4096.

Lemma phys_frame_at f k : f mod 4096 = 0 → 0 <= k < 4096 → phys_frame (f + k) = f ∧ (f + k) mod 4096 = k.
Proof. intros Hf Hk. unfold phys_frame, align_to. Z.to_euclidean_division_equations; lia. Qed.

Lemma store_frame vm pa b g : vm_data (store_phys pa b vm) !! g =
  if decide (g = phys_frame pa) then <[Z.to_nat (pa mod 4096) := b]> <$> vm_data vm !! g else vm_data vm !! g.
Proof.
  unfold store_phys, set_data. cbn [vm_data]. destruct (decide _) as [->|]; [by rewrite lookup_alter_eq|by rewrite lookup_alter_ne].
Qed.

Lemma store_pages vm pf pa b : pages_in pf vm → pages_in pf (store_phys pa b vm).
Proof.
  intros Hp f Hf. destruct (Hp f Hf) as (Ha&bs&Hb&Hl). split; [done|]. rewrite store_frame, Hb.
  destruct (decide _); [|by eexists]. eexists. split; [done|]. by rewrite length_insert.
Qed.

Lemma load_store vm pa b pa' bs : vm_data vm !! phys_frame pa = Some bs → length bs = 4096%nat →
  load_phys (store_phys pa b vm) pa' = if decide (pa' = pa) then b else load_phys vm pa'.
Proof.
  intros Hb Hl. unfold load_phys. rewrite store_frame. destruct (decide (phys_frame pa' = phys_frame pa)) as [E|NE].
  - rewrite E, Hb. simpl. destruct (decide (pa' = pa)) as [->|NE].
    + rewrite list_lookup_insert_eq; [done|]. rewrite Hl. Z.to_euclidean_division_equations; lia.
    + rewrite list_lookup_insert_ne; [done|]. unfold phys_frame, align_to in E. Z.to_euclidean_division_equations; lia.
  - destruct (decide (pa' = pa)) as [->|]; done.
Qed.

(** [bs] at [pa] of the bytes [old]. *)
Definition over (pa : Z) (bs : list Z) (old : Z → Z) (pa' : Z) : Z :=
  if decide (pa <= pa' < pa + len bs) then default 0 (bs !! Z.to_nat (pa' - pa)) else old pa'.

Definition present vm (pa : Z) : Prop := ∃ bs, vm_data vm !! phys_frame pa = Some bs ∧ length bs = 4096%nat.

Lemma store_present vm pa b pa' : present vm pa' → present (store_phys pa b vm) pa'.
Proof.
  intros (bs&Hb&Hl). unfold present. rewrite store_frame, Hb. destruct (decide _); [|by eexists].
  eexists. split; [done|]. by rewrite length_insert.
Qed.

Lemma load_stored bs : ∀ vm pa pa', (∀ k, 0 <= k < len bs → present vm (pa + k)) →
  load_phys (store_bytes pa bs vm) pa' = over pa bs (load_phys vm) pa'.
Proof.
  induction bs as [|b bs IH]; intros vm pa pa' Hp; cbn [store_bytes].
  { unfold over. rewrite len_nil, decide_False by lia. done. }
  rewrite len_cons in Hp. pose proof (len_nonneg bs). rewrite IH by (intros k Hk; apply store_present; replace (pa + 1 + k) with (pa + (1 + k)) by lia; apply Hp; lia).
  destruct (Hp 0) as (p&Hb&Hl); [lia|]. rewrite Z.add_0_r in Hb. unfold over. rewrite len_cons, (load_store _ _ _ _ _ Hb Hl).
  destruct (decide (pa' = pa)) as [->|NE].
  - rewrite decide_False by lia. rewrite decide_True by lia. by replace (Z.to_nat (pa - pa)) with 0%nat by lia.
  - destruct (decide (pa + 1 <= pa' < pa + 1 + len bs)).
    + rewrite decide_True by lia. by replace (Z.to_nat (pa' - pa)) with (S (Z.to_nat (pa' - (pa + 1)))) by lia.
    + by rewrite decide_False by lia.
Qed.

(** Only the contents of the frames change, and only those of [pf]. *)
Record rewrites (pf : list Z) vm vm' : Prop := {
  rw_tables : vm_tables vm' = vm_tables vm;
  rw_root : vm_root vm' = vm_root vm;
  rw_alloc : vm_alloc vm' = vm_alloc vm;
  rw_dom : dom (vm_data vm') = dom (vm_data vm);
  rw_other g : g ∉ pf → vm_data vm' !! g = vm_data vm !! g;
  rw_pages pf' : pages_in pf' vm → pages_in pf' vm';
}.

Lemma rewrites_refl pf vm : rewrites pf vm vm.
Proof. by split. Qed.

Lemma rewrites_trans pf vm1 vm2 vm3 : rewrites pf vm1 vm2 → rewrites pf vm2 vm3 → rewrites pf vm1 vm3.
Proof. intros [] []. split; try congruence; [|by auto]. intros g Hg. rewrite rw_other1, rw_other0; done. Qed.

Lemma rewrites_mono pf pf' vm vm' : (∀ g, g ∈ pf → g ∈ pf') → rewrites pf vm vm' → rewrites pf' vm vm'.
Proof. intros Hs []. split; try done. intros g Hg. apply rw_other0. auto. Qed.

Lemma store_rewrites pf vm pa b : phys_frame pa ∈ pf → rewrites pf vm (store_phys pa b vm).
Proof.
  intros Hp. split; try done.
  - unfold store_phys, set_data. cbn [vm_data]. by rewrite dom_alter_L.
  - intros g Hg. rewrite store_frame. rewrite decide_False; [done|]. by intros ->.
  - intros pf'. apply store_pages.
Qed.

Lemma store_bytes_rewrites pf bs : ∀ vm pa, (∀ k, 0 <= k < len bs → phys_frame (pa + k) ∈ pf) → rewrites pf vm (store_bytes pa bs vm).
Proof.
  induction bs as [|b bs IH]; intros vm pa Hp; cbn [store_bytes]; [apply rewrites_refl|].
  rewrite len_cons in Hp. pose proof (len_nonneg bs). eapply rewrites_trans; [apply store_rewrites; specialize (Hp 0); rewrite Z.add_0_r in Hp; apply Hp; lia|].
  apply IH. intros k Hk. replace (pa + 1 + k) with (pa + (1 + k)) by lia. apply Hp. lia.
Qed.

(** ** The frames of a mapping *)
Definition frame_pages (f size : Z) : list Z := if decide (size = 4096) then [f] else block_frames f.

Lemma frames_of_cons f size frs : frames_of ((f, size) :: frs) = frame_pages f size ++ frames_of frs.
Proof. done. Qed.

Lemma len_frame_pages f size : size = 4096 ∨ size = HUGE_PAGE_SIZE → len (frame_pages f size) * 4096 = size ∧ 0 < size.
Proof.
  unfold frame_pages, HUGE_PAGE_SIZE. intros [-> | ->]; [done|]. rewrite decide_False by done. unfold len. rewrite length_block. done.
Qed.

Lemma frame_at f size pf k : size = 4096 ∨ size = HUGE_PAGE_SIZE → 0 <= k < size → pa_at (frame_pages f size ++ pf) k = f + k.
Proof.
  intros Hs Hk. unfold pa_at, frame_pages. destruct Hs as [-> | ->].
  - rewrite decide_True by done. rewrite Z.div_small, Z.mod_small by lia. done.
  - unfold HUGE_PAGE_SIZE in *. rewrite decide_False by done.
    assert (0 <= k / 4096 < 512) by (Z.to_euclidean_division_equations; lia).
    rewrite lookup_app_l by (rewrite length_block; lia). rewrite lookup_block by lia. simpl. Z.to_euclidean_division_equations; lia.
Qed.

Lemma pa_after l pf o : len l * 4096 <= o → pa_at (l ++ pf) o = pa_at pf (o - len l * 4096).
Proof.
  intros Ho. unfold pa_at. assert ((o - len l * 4096) / 4096 = o / 4096 - len l) as -> by (Z.to_euclidean_division_equations; lia).
  assert (len l <= o / 4096) by (Z.to_euclidean_division_equations; lia). unfold len in *.
  rewrite lookup_app_r by lia. replace (Z.to_nat (o / 4096) - length l)%nat with (Z.to_nat (o / 4096 - Z.of_nat (length l))) by lia.
  f_equal. Z.to_euclidean_division_equations; lia.
Qed.

Lemma pa_frame pf vm o : pages_in pf vm → 0 <= o < len pf * 4096 →
  ∃ f, pf !! Z.to_nat (o / 4096) = Some f ∧ phys_frame (pa_at pf o) = f ∧ f ∈ pf ∧ present vm (pa_at pf o).
Proof.
  intros Hp Ho. destruct (lookup_lt_is_Some_2 pf (Z.to_nat (o / 4096))) as [f Hf].
  { unfold len in Ho. Z.to_euclidean_division_equations; lia. }
  exists f. assert (f ∈ pf) as Hin by by eapply list_elem_of_lookup_2. destruct (Hp f Hin) as (Ha&Hpg).
  assert (phys_frame (pa_at pf o) = f) as E.
  { unfold pa_at. rewrite Hf. simpl. apply phys_frame_at; [done|]. Z.to_euclidean_division_equations; lia. }
  split_and!; try done. unfold present. by rewrite E.
Qed.

Lemma load_other pf vm vm' pa : rewrites pf vm vm' → phys_frame pa ∉ pf → load_phys vm' pa = load_phys vm pa.
Proof. intros Hr Hn. unfold load_phys. by rewrite (rw_other _ _ _ Hr). Qed.

(** The bytes of a region after a write to it. *)
Definition written (pf : list Z) vm (base off : Z) (bs : list Z) vm' : Prop := rewrites pf vm vm' ∧
  ∀ o, 0 <= o < len pf * 4096 → load_phys vm' (pa_at pf o) = over off bs (λ x, load_phys vm (pa_at pf (x - base))) (base + o).

Lemma rewrites_r l pf vm vm' : rewrites pf vm vm' → rewrites (l ++ pf) vm vm'.
Proof. apply rewrites_mono. intros g Hg. apply elem_of_app. by right. Qed.
Lemma rewrites_l l pf vm vm' : rewrites l vm vm' → rewrites (l ++ pf) vm vm'.
Proof. apply rewrites_mono. intros g Hg. apply elem_of_app. by left. Qed.

Lemma pa_before l pf o : 0 <= o < len l * 4096 → pa_at (l ++ pf) o = pa_at l o.
Proof. intros Ho. unfold pa_at. rewrite lookup_app_l; [done|]. unfold len in *. Z.to_euclidean_division_equations; lia. Qed.

Lemma written_app l pf vm vm' base off bs : pages_in (l ++ pf) vm → NoDup (l ++ pf) → 0 <= base → base + len l * 4096 <= off →
  written pf vm (base + len l * 4096) off bs vm' → written (l ++ pf) vm base off bs vm'.
Proof.
  intros [Hpl _]%pages_in_app Hnd Hb Ho [Hrw Hl]. split; [by apply rewrites_r|]. intros o Hor. pose proof (len_nonneg l).
  destruct (decide (o < len l * 4096)) as [Hlt|Hge].
  - unfold over. rewrite decide_False by lia. replace (base + o - base) with o by lia. apply (load_other pf); [done|].
    destruct (pa_frame l vm o Hpl) as (f&_&E&Hin&_); [lia|]. rewrite pa_before, E by lia.
    apply NoDup_app in Hnd as (_&Hd&_). by apply Hd.
  - rewrite len_app in Hor. rewrite pa_after by lia. rewrite Hl by lia. unfold over.
    replace (base + len l * 4096 + (o - len l * 4096)) with (base + o) by lia. destruct (decide _); [done|].
    rewrite pa_after by lia. do 2 f_equal. lia.
Qed.

(** A part written to the first frame, and the rest to the others. *)
Lemma written_first f size pf vm vm1 vm' base off n bs : size = 4096 ∨ size = HUGE_PAGE_SIZE →
  pages_in (frame_pages f size ++ pf) vm → NoDup (frame_pages f size ++ pf) → base <= off → 0 < n <= len bs →
  off + n <= base + size → (n < len bs → off + n = base + size) →
  vm1 = store_bytes (f + (off - base)) (take (Z.to_nat n) bs) vm →
  rewrites (frame_pages f size) vm vm1 ∧
  (written pf vm1 (base + size) (off + n) (drop (Z.to_nat n) bs) vm' → written (frame_pages f size ++ pf) vm base off bs vm').
Proof.
  intros Hsz [Hpl Hpr]%pages_in_app (_&Hd&_)%NoDup_app Hoff Hn Hfit Hmore Evm.
  destruct (len_frame_pages f size Hsz) as [Hlp Hs0].
  assert (len (take (Z.to_nat n) bs) = n) as Hlt by (unfold len; rewrite length_take; unfold len in Hn; lia).
  assert (∀ k, 0 <= k < size → phys_frame (f + k) ∈ frame_pages f size ∧ present vm (f + k)) as Hfr.
  { intros k Hk. rewrite <-(frame_at f size [] k Hsz Hk), app_nil_r.
    destruct (pa_frame (frame_pages f size) vm k Hpl) as (g&_&E&Hg&Hpres); [lia|]. by rewrite E. }
  assert (rewrites (frame_pages f size) vm vm1) as Hrw1.
  { rewrite Evm. apply store_bytes_rewrites. rewrite Hlt. intros k Hk. rewrite <-Z.add_assoc. apply Hfr. lia. }
  split; [done|]. intros [Hrw Hl]. split; [eapply rewrites_trans; [by apply rewrites_l|by apply rewrites_r]|].
  intros o Ho. rewrite len_app in Ho. destruct (decide (o < size)) as [Ho1|Ho1].
  - rewrite frame_at by (done || lia). rewrite (load_other pf vm1 vm') by (done || (intros Hin; by apply (Hd _ (proj1 (Hfr o ltac:(lia)))))).
    rewrite Evm, load_stored by (rewrite Hlt; intros k Hk; rewrite <-Z.add_assoc; apply Hfr; lia). unfold over. rewrite Hlt.
    destruct (decide (f + (off - base) <= f + o < f + (off - base) + n)).
    + rewrite decide_True by lia. rewrite lookup_take_lt by lia. do 2 f_equal. lia.
    + rewrite decide_False by lia. replace (base + o - base) with o by lia. by rewrite frame_at by (done || lia).
  - rewrite pa_after by lia. rewrite Hlp, Hl by lia. unfold over. rewrite len_drop by lia.
    replace (base + size + (o - size)) with (base + o) by lia.
    destruct (decide (off + n <= base + o < off + n + (len bs - n))).
    + rewrite !decide_True by lia. rewrite lookup_drop. do 2 f_equal. lia.
    + rewrite !decide_False by lia. rewrite pa_after by lia. rewrite Hlp. replace (base + o - base - size) with (base + o - (base + size)) by lia.
      destruct (pa_frame pf vm (o - size) Hpr) as (g&_&E&Hg&_); [lia|]. apply (load_other (frame_pages f size)); [done|].
      replace (base + o - (base + size)) with (o - size) by lia. rewrite E. intros Hin. by apply (Hd g).
Qed.

Lemma copy_frames_ok frs : ∀ base off bs vm, frames_ok frs → NoDup (frames_of frs) → pages_in (frames_of frs) vm →
  (∀ f size frs', frs = (f, size) :: frs' → bs ≠ [] → base <= off < base + size) → 0 <= base → base + len (frames_of frs) * 4096 <= 2 ^ 47 →
  spec (copy_frames frs base off bs) vm (λ _ vm', written (frames_of frs) vm base off bs vm') (λ _ _, False).
Proof.
  induction frs as [|[f size] frs IH]; intros base off bs vm Hok Hnd Hp Hoff Hb He.
  { apply spec_ret. split; [apply rewrites_refl|]. cbn. unfold len. simpl. lia. }
  destruct bs as [|b bs'].
  { apply spec_ret. split; [apply rewrites_refl|]. intros o Ho. unfold over. rewrite len_nil, decide_False by lia. do 2 f_equal. lia. }
  set (bs := b :: bs') in *. assert (0 < len bs) as Hbs by (unfold bs; rewrite len_cons; pose proof (len_nonneg bs'); lia).
  apply Forall_cons in Hok as [Hsz Hok]. destruct (len_frame_pages f size Hsz) as [Hlp Hs0]. specialize (Hoff _ _ _ eq_refl ltac:(done)).
  rewrite frames_of_cons in *. rewrite len_app in He. pose proof (len_nonneg (frames_of frs)).
  cbn [copy_frames]. eapply spec_bind_Ok; [apply chk_ok; unfold in_u; lia|]. eapply spec_bind_Ok; [apply chk_ok; unfold in_u; lia|].
  cbv zeta. fold bs. set (n := (size - (off - base)) `min` len bs). apply spec_bind_modify.
  destruct (written_first f size (frames_of frs) vm (store_bytes (f + (off - base)) (take (Z.to_nat n) bs) vm) vm base off n bs)
    as [Hrw _]; try done; [lia..|].
  eapply spec_weaken; [apply (IH (base + size) (off + n) (drop (Z.to_nat n) bs)); try done| |done].
  - by apply NoDup_app in Hnd as (_&_&?).
  - apply (rw_pages _ _ _ Hrw). by apply pages_in_app in Hp as [_ ?].
  - intros f' size' frs' -> Hne. apply Forall_cons in Hok as [Hsz' _]. destruct (len_frame_pages f' size' Hsz') as [_ ?].
    assert (len (drop (Z.to_nat n) bs) ≠ 0) as Hne'. { destruct (drop _ bs); [done|]. rewrite len_cons. pose proof (len_nonneg l). lia. }
    rewrite len_drop in Hne' by lia. lia.
  - lia.
  - lia.
  - intros [] vm' Hw. cbv beta in *. by eapply written_first; [..|exact Hw]; try done; lia.
Qed.

Lemma skip_frames_ok frs : ∀ base off, frames_ok frs → 0 <= base <= off → base + len (frames_of frs) * 4096 <= 2 ^ 47 →
  ∃ pre post, frs = pre ++ post ∧ skip_frames frs base off = Ok (post, base + len (frames_of pre) * 4096)
    ∧ base + len (frames_of pre) * 4096 <= off
    ∧ ∀ f size r, post = (f, size) :: r → off < base + len (frames_of pre) * 4096 + size.
Proof.
  induction frs as [|[f size] frs IH]; intros base off Hok Hb He.
  { exists [], []. cbn [skip_frames frames_of]. change (len (@frames_of [])) with 0. rewrite Z.add_0_r. split_and!; [done..|lia|done]. }
  apply Forall_cons in Hok as [Hsz Hok]. destruct (len_frame_pages f size Hsz) as [Hlp Hs0].
  rewrite frames_of_cons, len_app in He. pose proof (len_nonneg (frames_of frs)).
  cbn [skip_frames]. rewrite chk_ok by (unfold in_u; lia). cbn [mbind outcome_bind]. destruct (decide _) as [Hgt|Hle].
  - exists [], ((f, size) :: frs). change (len (@frames_of [])) with 0. rewrite Z.add_0_r. split_and!; [done..|lia|]. intros ??? [= <- <- <-]. lia.
  - destruct (IH (base + size) off Hok) as (pre&post&->&E&Hle'&Hpost); [lia..|].
    exists ((f, size) :: pre), post. rewrite frames_of_cons, len_app, Z.mul_add_distr_r, Hlp, Z.add_assoc. by split_and!.
Qed.

Lemma frames_of_app l1 l2 : frames_of (l1 ++ l2) = frames_of l1 ++ frames_of l2.
Proof. unfold frames_of. by rewrite bind_app. Qed.

Lemma write_at_ok mp frs off bs vm : backing mp = Frames frs → frames_ok frs → NoDup (frames_of frs) → pages_in (frames_of frs) vm →
  0 <= off → len (frames_of frs) * 4096 <= 2 ^ 47 →
  spec (write_at mp off bs) vm (λ _ vm', written (frames_of frs) vm 0 off bs vm') (λ _ _, False).
Proof.
  intros Hbk Hok Hnd Hp Hoff Hl. unfold write_at. rewrite Hbk.
  destruct (skip_frames_ok frs 0 off Hok) as (pre&post&->&E&Hle&Hpost); [lia..|].
  eapply spec_bind_Ok; [exact E|]. cbv beta iota. rewrite frames_of_app in *. rewrite len_app in Hl. pose proof (len_nonneg (frames_of pre)).
  eapply spec_weaken; [apply copy_frames_ok| |done].
  - by apply Forall_app in Hok as [_ ?].
  - by apply NoDup_app in Hnd as (_&_&?).
  - by apply pages_in_app in Hp as [_ ?].
  - intros f size r Er _. split; [done|]. by eapply Hpost.
  - lia.
  - lia.
  - intros [] vm' Hw. apply written_app; [done..|lia|done].
Qed.
End bytes.

(** ** What a file asks for *)
Definition seg_lo (h : Elf64Phdr) : Z := align_to 4096 (p_vaddr h).
Definition seg_size (h : Elf64Phdr) : Z := p_memsz h + p_vaddr h mod 4096.
Definition seg_hi (h : Elf64Phdr) : Z := seg_lo h + npages (seg_size h) * 4096.

(** The bytes of the file from the address of the segment on, zero elsewhere
    in its pages. *)
Definition seg_byte (data : list Z) (h : Elf64Phdr) (va : Z) : Z :=
  if decide (p_vaddr h <= va < p_vaddr h + p_filesz h) then default 0 (data !! Z.to_nat (p_offset h + (va - p_vaddr h))) else 0.

Fixpoint image (data : list Z) (hs : list Elf64Phdr) (va : Z) : option (Z * Flags) :=
  match hs with
  | [] => None
  | h :: hs => if decide (seg_lo h <= va < seg_hi h) then Some (seg_byte data h va, to_flags (segment_options h)) else image data hs va
  end.

(** A segment in user space and in the file. *)
Definition seg_ok (data : list Z) (h : Elf64Phdr) : Prop :=
  p_vaddr h + p_memsz h <= USER_ADDR_MAX ∧ p_offset h + p_filesz h <= len data.
Definition unsigned_phdr (h : Elf64Phdr) : Prop := 0 <= p_vaddr h ∧ 0 <= p_memsz h ∧ 0 <= p_offset h ∧ 0 <= p_filesz h.

(** Segments in the order of their addresses, no two in one page. *)
Fixpoint seg_sorted (last : Z) (hs : list Elf64Phdr) : Prop :=
  match hs with
  | [] => True
  | h :: hs => last <= seg_lo h ∧ seg_sorted (if decide (seg_size h > 0) then seg_hi h else last) hs
  end.
#[export] Instance seg_sorted_dec last hs : Decision (seg_sorted last hs).
Proof. revert last. induction hs as [|h hs IH]; intros last; cbn; apply _. Defined.

Definition loadable (hs : list Elf64Phdr) : list Elf64Phdr := filter (λ h, p_type h = PT_LOAD) hs.

Lemma validate_iff data h : unsigned_phdr h → len data < 2 ^ 63 →
  validate_segment_security h (len data) = Ok (p_vaddr h + p_memsz h) ↔ seg_ok data h.
Proof.
  intros (?&?&?&?) Hl. unfold validate_segment_security, seg_ok, USER_ADDR_MAX, checked_add, ok_or.
  repeat (case_decide; cbn [mbind outcome_bind]); (split; [try done; lia|try done; intros; try lia]).
Qed.

(** ** Loading *)
Section loader.
Context {A : Type} `{FrameAllocatorLaws A}.
Implicit Types vm : VM A.
Implicit Types own : gmap Z (list Z).

(** What an access to an address finds: the byte and the rights. *)
Definition sees vm (va : Z) : option (Z * Flags) := (λ '(pa, fl), (load_phys vm pa, fl)) <$> translate vm va.

Definition view_sees (m : PageView) vm (va : Z) : option (Z * Flags) :=
  (λ '(f, fl), (load_phys vm (f + va mod 4096), fl)) <$> m (page va).

Lemma mapped_sees rest own root data m vm va : mapped rest own root data m vm → ordinary va → sees vm va = view_sees m vm va.
Proof.
  intros Hm Ho. unfold sees, view_sees. rewrite (leaf_translate own rest vm va (mp_space _ _ _ _ _ _ Hm) Ho), (mp_view _ _ _ _ _ _ Hm va Ho).
  by destruct (m (page va)) as [[]|].
Qed.

Lemma rewrites_mapped rest own root data m pf vm vm' : mapped rest own root data m vm → rewrites pf vm vm' → mapped rest own root (vm_data vm') m vm'.
Proof.
  intros [[] Ht Hr Hd Hv] [Et Er Ea Ed _ _]. assert (∀ va, leaf vm' va = leaf vm va) as El by (intros; unfold leaf; by rewrite Et, Er).
  split; [split| |congruence|done|].
  - by rewrite Et, Er.
  - unfold rec_ok in *. by rewrite Et, Er.
  - by rewrite Ea, Ed.
  - by rewrite Ed.
  - by rewrite Ed.
  - intros va f Ho Hf. setoid_rewrite El. by apply (Ht va f).
  - intros va Ho. rewrite El. by apply Hv.
Qed.

(** The state between two segments: [hs] are loaded, [m0] and [d0] are the
    pages and the frames from before. *)
Record loaded (rest : gset Z) (root : Z) (m0 : PageView) (d0 : gmap Z (list Z)) (data : list Z) (hs : list Elf64Phdr)
    (last : Z) vm own (m : PageView) : Prop := {
  lo_mapped : mapped rest own root (vm_data vm) m vm;
  lo_kernel p : 2 ^ 35 <= p → m p = m0 p;
  lo_free p : 0 <= p < 2 ^ 35 → last <= p * 4096 → m p = None;
  lo_frames p f fl : 0 <= p < 2 ^ 35 → m p = Some (f, fl) → f mod 4096 = 0 ∧ is_Some (vm_data vm !! f);
  lo_image va : 0 <= va < 2 ^ 47 → view_sees m vm va = image data hs va;
  lo_old g bs : d0 !! g = Some bs → vm_data vm !! g = Some bs;
}.

Lemma image_app data hs1 hs2 va : image data (hs1 ++ hs2) va = match image data hs1 va with Some x => Some x | None => image data hs2 va end.
Proof. induction hs1 as [|h hs1 IH]; cbn; [done|]. by destruct (decide _). Qed.

Lemma seg_bounds data h : unsigned_phdr h → seg_ok data h →
  0 <= seg_lo h ∧ seg_lo h mod 4096 = 0 ∧ seg_lo h <= p_vaddr h < seg_lo h + 4096 ∧ p_vaddr h - seg_lo h = p_vaddr h mod 4096
  ∧ 0 <= seg_size h < 2 ^ 48 ∧ 0 <= npages (seg_size h) ∧ seg_hi h <= 2 ^ 47.
Proof.
  unfold unsigned_phdr, seg_ok, seg_hi, seg_lo, seg_size, align_to, npages, USER_ADDR_MAX.
  intros (?&?&?&?) (?&?). split_and!; Z.to_euclidean_division_equations; lia.
Qed.

Lemma fresh_pages data n mp pf vm : fresh_region (A:=A) data n mp pf vm → pages_in pf vm.
Proof.
  intros Hf f Hin. destruct (fr_new _ _ _ _ _ Hf f Hin) as (_&_&?). split; [done|]. rewrite (fr_data _ _ _ _ _ Hf), decide_True by done.
  eexists. split; [done|]. apply length_replicate.
Qed.

Lemma fresh_zero data n mp pf vm o : fresh_region (A:=A) data n mp pf vm → 0 <= o < len pf * 4096 → load_phys vm (pa_at pf o) = 0.
Proof.
  intros Hf Ho. destruct (pa_frame pf vm o (fresh_pages _ _ _ _ _ Hf) Ho) as (f&_&E&Hin&_).
  unfold load_phys. rewrite E, (fr_data _ _ _ _ _ Hf), decide_True by done. cbv beta iota delta [default from_option id].
  rewrite lookup_replicate_2; [done|]. Z.to_euclidean_division_equations; lia.
Qed.

(** The bytes of a segment in the region made for it. *)
Lemma segment_bytes data n mp pf vm1 vm2 fdata h va : fresh_region (A:=A) fdata n mp pf vm1 → n = npages (seg_size h) →
  unsigned_phdr h → seg_ok data h → written pf vm1 0 (p_vaddr h - seg_lo h) (take (Z.to_nat (p_filesz h)) (drop (Z.to_nat (p_offset h)) data)) vm2 →
  seg_lo h <= va < seg_hi h → load_phys vm2 (pa_at pf (va - seg_lo h)) = seg_byte data h va.
Proof.
  intros Hf -> Hu Hok [Hrw Hl] Hva. pose proof (fr_len _ _ _ _ _ Hf) as Hlen. unfold seg_hi in Hva.
  destruct Hu as (?&?&?&?). destruct Hok as (_&Hfile).
  rewrite Hl by lia. unfold over, seg_byte.
  assert (len (take (Z.to_nat (p_filesz h)) (drop (Z.to_nat (p_offset h)) data)) = p_filesz h) as ->.
  { unfold len in *. rewrite length_take, length_drop. lia. }
  destruct (decide (p_vaddr h <= va < p_vaddr h + p_filesz h)).
  - rewrite decide_True by lia. rewrite lookup_take_lt, lookup_drop by lia. do 2 f_equal. lia.
  - rewrite decide_False by lia. replace (0 + (va - seg_lo h) - 0) with (va - seg_lo h) by lia. eapply fresh_zero; [done|lia].
Qed.

Section segments.
Context (rest : gset Z) (root : Z) (m0 : PageView) (d0 : gmap Z (list Z)) (data : list Z).
Abbreviation loaded := (loaded rest root m0 d0 data).

Lemma fresh_keeps n mp pf vm vm1 vm2 g bs : fresh_region (vm_data vm) n mp pf vm1 → rewrites pf vm1 vm2 →
  vm_data vm !! g = Some bs → (g ∉ pf) ∧ vm_data vm2 !! g = Some bs.
Proof.
  intros Hf Hrw Hg. assert (g ∉ pf) as Hn. { intros Hin. destruct (fr_new _ _ _ _ _ Hf g Hin) as [? _]. congruence. }
  split; [done|]. by rewrite (rw_other _ _ _ Hrw), (fr_data _ _ _ _ _ Hf), decide_False.
Qed.

Lemma put_cases p0 pf fl m p : (p0 <= p < p0 + len pf ∧ ∃ f, pf !! Z.to_nat (p - p0) = Some f ∧ put p0 pf fl m p = Some (f, fl))
  ∨ (¬ p0 <= p < p0 + len pf ∧ put p0 pf fl m p = m p).
Proof.
  destruct (decide (p0 <= p < p0 + len pf)) as [Hin|Hout]; [left|right; by rewrite put_out].
  split; [done|]. destruct (lookup_lt_is_Some_2 pf (Z.to_nat (p - p0))) as [f Hf]; [unfold len in Hin; lia|].
  exists f. split; [done|]. apply put_in; [lia|done].
Qed.

Lemma loaded_region hs last h vm own m vm1 vm2 own1 mp pf : loaded hs last vm own m → unsigned_phdr h → seg_ok data h →
  last <= seg_lo h → seg_size h > 0 → fresh_region (vm_data vm) (npages (seg_size h)) mp pf vm1 →
  mapped rest own1 root (vm_data vm1) (put (page (seg_lo h)) pf (to_flags (segment_options h)) m) vm1 →
  written pf vm1 0 (p_vaddr h - seg_lo h) (take (Z.to_nat (p_filesz h)) (drop (Z.to_nat (p_offset h)) data)) vm2 →
  loaded (hs ++ [h]) (seg_hi h) vm2 own1 (put (page (seg_lo h)) pf (to_flags (segment_options h)) m).
Proof.
  intros [Hm Hk Hfree Hfr Him Hold] Hu Hok Hlast Hsz Hf Hm1 Hw.
  destruct (seg_bounds data h Hu Hok) as (Hlo0&Hlo1&_&_&_&_&Hhi). pose proof (fr_len _ _ _ _ _ Hf) as Hlen.
  assert (0 < npages (seg_size h)) as Hn by (unfold npages; apply Z.div_str_pos; lia).
  unfold seg_hi in Hhi. destruct (user_page (seg_lo h)) as [Ep _]; [lia|]. rewrite Ep in *. pose proof (proj1 Hw) as Hrw.
  assert (seg_lo h = seg_lo h / 4096 * 4096) as Elo by (clear -Hlo1; Z.to_euclidean_division_equations; lia).
  split.
  - by eapply rewrites_mapped.
  - intros p Hp. rewrite put_out by lia. by apply Hk.
  - intros p Hp Hl. unfold seg_hi in Hl. rewrite put_out by lia. apply Hfree; lia.
  - intros p f fl Hp. destruct (put_cases (seg_lo h / 4096) pf (to_flags (segment_options h)) m p) as [(_&f'&Hf'&->)|[_ ->]].
    + intros [= <- <-]. apply list_elem_of_lookup_2 in Hf'.
      destruct (rw_pages _ _ _ Hrw pf (fresh_pages _ _ _ _ _ Hf) f' Hf') as (?&bs&?&_). split; [done|by eexists].
    + intros E. destruct (Hfr p f fl Hp E) as (?&bs&Hb). split; [done|]. exists bs. by apply (fresh_keeps _ _ _ _ _ _ _ _ Hf Hrw Hb).
  - intros va Hva. rewrite image_app, <-(Him va Hva). cbn [image]. unfold view_sees. destruct (user_page va Hva) as [-> _].
    destruct (put_cases (seg_lo h / 4096) pf (to_flags (segment_options h)) m (va / 4096)) as [(Hin&f&Hpf&->)|[Hout ->]].
    + rewrite Hfree by (try lia; clear -Hva Hin Hlast Elo; Z.to_euclidean_division_equations; lia).
      assert (seg_lo h <= va < seg_hi h) as Hseg by (unfold seg_hi; clear -Elo Hin Hlen; Z.to_euclidean_division_equations; lia).
      rewrite decide_True by done. cbn [fmap option_fmap option_map]. do 2 f_equal.
      rewrite <-(segment_bytes data _ mp pf vm1 vm2 _ h va Hf eq_refl Hu Hok Hw Hseg). f_equal. unfold pa_at.
      replace ((va - seg_lo h) / 4096) with (va / 4096 - seg_lo h / 4096) by (clear -Elo; Z.to_euclidean_division_equations; lia).
      rewrite Hpf. simpl. f_equal. clear -Elo. Z.to_euclidean_division_equations; lia.
    + rewrite decide_False by (unfold seg_hi; clear -Elo Hout Hlen; Z.to_euclidean_division_equations; lia).
      destruct (m (va / 4096)) as [[f fl]|] eqn:Em; [|done]. cbn [fmap option_fmap option_map]. do 2 f_equal.
      destruct (Hfr (va / 4096) f fl) as (Ha&bs&Hb); [clear -Hva; Z.to_euclidean_division_equations; lia|done|].
      destruct (fresh_keeps _ _ _ _ _ _ _ _ Hf Hrw Hb) as [_ Hb2].
      unfold load_phys. destruct (phys_frame_at f (va mod 4096) Ha) as [-> _]; [by apply Z.mod_pos_bound|]. by rewrite Hb, Hb2.
  - intros g bs Hg. by apply (fresh_keeps _ _ _ _ _ _ _ _ Hf Hrw (Hold g bs Hg)).
Qed.

Definition load_oom (e : LoadError) vm : Prop := e = NoMemory ∧ no_memory tt vm.

Lemma spec_on_memory {B} (m : ST (VM A) () B) vm Q : spec m vm Q no_memory → spec (on_memory m) vm Q load_oom.
Proof. intros Hm. unfold on_memory. eapply spec_zoom; [exact Hm|done|]. by intros []. Qed.

Lemma spec_on_memory_total {B} (m : ST (VM A) () B) vm Q : spec m vm Q (λ _ _, False) → spec (on_memory m) vm Q load_oom.
Proof. intros Hm. unfold on_memory. by eapply spec_zoom; [exact Hm|done|]. Qed.

Lemma load_segment_ok hs st h vm own m : loaded hs (ld_end st) vm own m → unsigned_phdr h → seg_ok data h →
  ld_end st <= seg_lo h → len data < 2 ^ 63 →
  spec (load_segment data st h) vm
    (λ st' vm', ∃ own' m', loaded (hs ++ [h]) (ld_end st') vm' own' m' ∧ ld_end st' = if decide (seg_size h > 0) then seg_hi h else ld_end st)
    load_oom.
Proof.
  intros Hl Hu Hok Hlast Hdata. destruct (seg_bounds data h Hu Hok) as (Hlo0&Hlo1&Hlo2&Hoff&Hsz&Hn&Hhi).
  pose proof Hu as (?&?&?&?). pose proof Hok as (?&?). unfold USER_ADDR_MAX in *.
  unfold load_segment. eapply spec_bind_Ok; [unfold VirtAddr_new; rewrite decide_True by (left; lia); done|]. cbv zeta.
  eapply spec_bind_Ok; [apply chk_ok; unfold in_u; unfold seg_size in Hsz; lia|]. fold (seg_size h) (seg_lo h).
  unfold overlap_segment. rewrite (decide_False (P := seg_lo h < ld_end st)) by lia. apply spec_bind_ret. cbv beta iota.
  destruct (decide (seg_size h > 0)) as [Hpos|Hz].
  2: { apply spec_ret. exists own, m. split; [|done]. destruct Hl as [? ? ? ? Him ?]. split; try done. intros va Hva.
       rewrite image_app, Him by done. destruct (image data hs va); [done|]. cbn. rewrite decide_False; [done|].
       unfold seg_hi. replace (seg_size h) with 0 by lia. change (npages 0) with 0. lia. }
  assert (0 < npages (seg_size h)) as Hn0 by (unfold npages; apply Z.div_str_pos; lia). unfold seg_hi in Hhi.
  destruct (user_page (seg_lo h)) as [Ep _]; [lia|].
  eapply spec_bind; [apply spec_on_memory, (allocate_and_map_ok rest own root (vm_data vm) m vm (seg_lo h) (seg_size h) (segment_options h)); try done; try lia|].
  { apply Hl. }
  { intros i Hi. apply (lo_free _ _ _ _ _ _ _ _ _ _ Hl); rewrite Ep; clear -Hhi Hi Hlast Hlo0 Hlo1; Z.to_euclidean_division_equations; lia. }
  intros mp vm1 (own1&pf&Eb&Esz&Hf&Hm1). pose proof (fr_len _ _ _ _ _ Hf) as Hlen.
  destruct (fr_frames _ _ _ _ _ Hf) as (frs&Hbk&Hfo&Epf). subst pf.
  eapply spec_bind_Ok; [unfold slice, get_range; rewrite decide_True by lia; cbn [ok_or]; done|].
  eapply spec_bind_Ok; [apply chk_ok; unfold in_u; lia|].
  eapply spec_bind; [apply spec_on_memory_total, (write_at_ok mp frs)|]; try done.
  { apply Hf. } { by eapply fresh_pages. } { lia. } { lia. }
  intros [] vm2 Hw. apply spec_ret. cbn [ld_end]. rewrite align_to_pages. fold (seg_hi h).
  replace (p_offset h + p_filesz h - p_offset h) with (p_filesz h) in Hw by lia.
  eexists own1, _. split; [|done]. by eapply loaded_region.
Qed.

Lemma load_segments_ok hs : ∀ done st vm own m, loaded done (ld_end st) vm own m → Forall unsigned_phdr hs →
  Forall (seg_ok data) (loadable hs) → seg_sorted (ld_end st) (loadable hs) → len data < 2 ^ 63 →
  spec (load_segments data hs st) vm
    (λ st' vm', ∃ own' m', loaded (done ++ loadable hs) (ld_end st') vm' own' m') load_oom.
Proof.
  induction hs as [|h hs IH]; intros dn st vm own m Hl Hu Hok Hs Hd.
  { apply spec_ret. exists own, m. by rewrite app_nil_r. }
  apply Forall_cons in Hu as [Hu0 Hu]. cbn [load_segments]. unfold loadable in *. rewrite filter_cons in *.
  destruct (decide (p_type h = PT_LOAD)) as [Et|Et]; [|by eapply IH].
  apply Forall_cons in Hok as [Hok0 Hok]. destruct Hs as [Hs0 Hs]. rewrite (proj2 (validate_iff data h Hu0 Hd) Hok0).
  eapply spec_bind; [by eapply load_segment_ok|]. intros st' vm' (own'&m'&Hl'&E). rewrite <-E in Hs.
  eapply spec_weaken; [by eapply IH| |done]. intros st'' vm'' (own''&m''&Hl''). exists own'', m''. by rewrite <-app_assoc in Hl''.
Qed.
End segments.

Lemma headers_unsigned file n : Forall is_u8 file → elf_ok file n → Forall unsigned_phdr (pe_headers (elf_of file)).
Proof.
  intros Hu (Hs&_&_&_&_&_&Hf). unfold SIZEOF_EHDR, SIZEOF_PHDR in *. cbn [elf_of pe_headers]. apply Forall_fmap, Forall_forall.
  intros i Hin. rewrite Forall_forall in Hf. pose proof (Hf i Hin) as Hi. apply elem_of_upto in Hin as [Hi0 _]. pose proof (le_at_bound 8 file 32 Hu ltac:(lia) ltac:(lia)). pose proof (le_at_bound 2 file 54 Hu ltac:(lia) ltac:(lia)).
  assert (0 <= phdr_base file i) by (unfold phdr_base; nia).
  unfold unsigned_phdr, phdr_at. cbn. split_and!; apply le_at_bound; (done || lia).
Qed.

Lemma count_ok {E} file n : Forall is_u8 file → elf_ok file n → program_headers_count (E:=E) file = Ok (Some (le_at 2 file 56)).
Proof.
  intros Hu (Hs&Hm&_). unfold program_headers_count, SIZEOF_EHDR in *. rewrite decide_False by lia. rewrite slice_take by lia.
  cbn [mbind outcome_bind]. change (Z.to_nat 4) with 4%nat. rewrite Hm, decide_False by auto. by rewrite read_le_ok by lia.
Qed.

Definition segments (file : list Z) : list Elf64Phdr := loadable (pe_headers (elf_of file)).

Lemma fresh_loaded rest own root data m file vm : mapped rest own root data m vm → (∀ p, 0 <= p < 2 ^ 35 → m p = None) →
  loaded rest root m data file [] 0 vm own m.
Proof.
  intros Hm Hfree. pose proof (mp_data _ _ _ _ _ _ Hm) as Hd. split; try done.
  - by rewrite Hd.
  - auto.
  - intros p f fl Hp E. by rewrite Hfree in E.
  - intros va Hva. unfold view_sees. destruct (user_page va Hva) as [-> _].
    rewrite Hfree; [done|]. clear -Hva. Z.to_euclidean_division_equations; lia.
  - intros g bs Hg. by rewrite Hd.
Qed.

(** C3.  Loading a well-formed file whose segments lie in user space, in
    ascending order and in pages of their own, into an address space without
    user pages: the load panics nowhere and returns the entry point of the
    file, and then every user address reads exactly what the file says - the
    byte of the segment, zero after the bytes of the file, with the rights of
    the segment, and no page outside the segments - whatever mixture of 4 KiB
    and 2 MiB pages was used; the kernel half and all memory from before are
    as they were.  The only other outcome is a heap without frames. *)
Theorem load_elf_exact rest own root data m file vm : mapped rest own root data m vm → (∀ p, 0 <= p < 2 ^ 35 → m p = None) →
  Forall is_u8 file → len file < 2 ^ 63 → elf_ok file (le_at 2 file 56) →
  Forall (seg_ok file) (segments file) → seg_sorted 0 (segments file) →
  spec (load_elf file) vm
    (λ r vm', r.1 = le_at 8 file 24
       ∧ (∀ va, 0 <= va < 2 ^ 47 → sees vm' va = image file (segments file) va)
       ∧ (∀ va, ordinary va → 2 ^ 35 <= page va → translate vm' va = translate vm va)
       ∧ vm_root vm' = root ∧ ∀ g bs, data !! g = Some bs → vm_data vm' !! g = Some bs)
    load_oom.
Proof.
  intros Hm Hfree Hu Hl Hok Hseg Hsort. unfold load_elf. eapply spec_bind_Ok; [by eapply count_ok|]. cbn [default from_option id].
  pose proof (parse_elf_cases file (le_at 2 file 56) Hu Hl) as Hp. rewrite decide_True in Hp by done.
  eapply spec_bind_Ok; [rewrite Hp; done|].
  eapply spec_bind; [apply (load_segments_ok rest root m data file _ [] (mkLoad [] 0) vm own m); try done; [by apply fresh_loaded|by eapply headers_unsigned]|].
  intros st vm' (own'&m'&Hld). apply spec_ret. cbn [fst]. pose proof (lo_mapped _ _ _ _ _ _ _ _ _ _ Hld) as Hm'. split_and!.
  - done.
  - intros va Hva. destruct (user_page va Hva) as [_ Ho]. rewrite (mapped_sees _ _ _ _ _ _ _ Hm' Ho). by apply Hld.
  - intros va Ho Hva. rewrite (leaf_translate own' rest vm' va (mp_space _ _ _ _ _ _ Hm') Ho), (mp_view _ _ _ _ _ _ Hm' va Ho).
    rewrite (leaf_translate own rest vm va (mp_space _ _ _ _ _ _ Hm) Ho), (mp_view _ _ _ _ _ _ Hm va Ho).
    by rewrite (lo_kernel _ _ _ _ _ _ _ _ _ _ Hld).
  - apply Hm'.
  - apply Hld.
Qed.
End loader.

Lemma empty_mapped {A} `{FrameAllocatorLaws A} root data (a : A) rest : root ≠ 0 →
  fa_used a = {[root]} ∪ dom data ∪ rest → root ∉ dom data → rest ## {[root]} ∪ dom data →
  mapped rest {[root := []]} root data (λ _, None) (empty_vm root data a).
Proof.
  intros Hr Hu Hd Hrest. split; try done.
  - by apply empty_space.
  - intros va f Ho [_ E]%lookup_singleton_Some. by apply (f_equal length) in E.
  - intros va Ho. by rewrite empty_leaf.
Qed.

(** Code in a page of its own, and data that starts before a page boundary
    and has zeros after the bytes of the file. *)
Definition two_segments : list Z :=
  elf_image 0x401000 [mkPhdr PT_LOAD 5 176 0x401000 4 8; mkPhdr PT_LOAD 6 180 0x402ffe 4 0x10] [1; 2; 3; 4; 5; 6; 7; 8].

Lemma load_elf_exact_witness :
  spec (load_elf two_segments) demo_space
    (λ r vm', r.1 = le_at 8 two_segments 24
       ∧ (∀ va, 0 <= va < 2 ^ 47 → sees vm' va = image two_segments (segments two_segments) va)
       ∧ (∀ va, ordinary va → 2 ^ 35 <= page va → translate vm' va = translate demo_space va)
       ∧ vm_root vm' = 4096 ∧ ∀ g bs, (∅ : gmap Z (list Z)) !! g = Some bs → vm_data vm' !! g = Some bs)
    load_oom
  ∧ (match (load_elf two_segments demo_space).2 with Ok (entry, mps) => Some (entry, length mps) | _ => None end) = Some (0x401000, 2%nat)
  ∧ (let vm := (load_elf two_segments demo_space).1 in
     (λ va, fst <$> sees vm va) <$> [0x401003; 0x401004; 0x402000; 0x402ffd; 0x402fff; 0x403001; 0x403002; 0x404000]
     = [Some 4; Some 0; Some 0; Some 0; Some 6; Some 8; Some 0; None]).
Proof.
  split; [|split; by vm_compute].
  apply (load_elf_exact ∅ {[4096 := []]} 4096 ∅ (λ _, None)).
  - apply empty_mapped; [done| |set_solver|set_solver]. apply (bool_decide_unpack _). by vm_compute.
  - done.
  - apply (bool_decide_unpack _). by vm_compute.
  - by vm_compute.
  - apply (bool_decide_unpack _). by vm_compute.
  - unfold seg_ok. apply (bool_decide_unpack _). by vm_compute.
  - apply (bool_decide_unpack _). by vm_compute.
Defined.

(** ** Where the loader goes wrong *)
(** Read-only data that begins in the last page of the code. *)
Definition shared_page (memsz : Z) : list Z :=
  elf_image 0x401000 [mkPhdr PT_LOAD 5 176 0x401000 4 4; mkPhdr PT_LOAD 4 180 0x401004 4 memsz] [1; 2; 3; 4; 5; 6; 7; 8].
(** Writable data below the code. *)
Definition descending : list Z :=
  elf_image 0x403000 [mkPhdr PT_LOAD 5 176 0x403000 4 4; mkPhdr PT_LOAD 6 180 0x401000 4 4] [1; 2; 3; 4; 5; 6; 7; 8].
(** A second segment in kernel space. *)
Definition kernel_segment : list Z :=
  elf_image 0x401000 [mkPhdr PT_LOAD 5 176 0x401000 4 4; mkPhdr PT_LOAD 6 180 0xffff800000000000 4 4] [1; 2; 3; 4; 5; 6; 7; 8].
Definition far_entry : list Z := elf_image 0x8000000000000000 [mkPhdr PT_LOAD 5 120 0x401000 4 4] [1; 2; 3; 4].
(** The address space of the kernel and a new one at frame 8192. *)
Definition two_spaces : VM FramePool := (create_user_page_table demo_space).1.

