(* ===== verification/Pixels.v ===== *)
(** * Pixel buffers
    ([libpanda/src/graphics/pixels.rs], [graphics/mod.rs])

    The drawing operations of the client library on a buffer of its own.  The
    buffer is the pixels of a shared kernel buffer, zero at first; an access
    outside it is a panic through a slice and undefined through the raw
    pointer, and both are [Panic] here. *)

From S2P Require Import Prelude Effects BlockDevice CompositorProtocol Graphics.

Record PixelBuffer : Type := mkPb { pb_width : Z; pb_height : Z; pb_pixels : gmap Z Pixel }.
Definition px_zero : Pixel := mkPx 0 0 0 0.

Section pixels.
Context {E : Type}.

(** The pixel at an index of the buffer. *)
Definition pb_at (p : PixelBuffer) (i : Z) : Pixel := default px_zero (pb_pixels p !! i).
Definition pb_load (p : PixelBuffer) (i : Z) : outcome E Pixel :=
  if decide (0 <= i < pb_width p * pb_height p) then Ok (pb_at p i) else Panic.
Definition pb_store (i : Z) (c : Pixel) (p : PixelBuffer) : outcome E PixelBuffer :=
  if decide (0 <= i < pb_width p * pb_height p) then Ok (mkPb (pb_width p) (pb_height p) (<[i := c]> (pb_pixels p))) else Panic.

(** [y * self.width + x] on [u32]. *)
Definition pb_index (p : PixelBuffer) (x y : Z) : outcome E Z := r ← chk 32 (y * pb_width p); chk 32 (r + x).

Definition PixelBuffer_new (width height : Z) : PixelBuffer := mkPb width height ∅.

(** [pixels_mut]: its length is a product of [u32]. *)
Definition PixelBuffer_clear (c : Pixel) (p : PixelBuffer) : outcome E PixelBuffer :=
  n ← chk 32 (pb_width p * pb_height p);
  for_range (range 0 n) (λ i p, pb_store i c p) p.

Definition set_pixel (x y : Z) (c : Pixel) (p : PixelBuffer) : outcome E PixelBuffer :=
  if decide (x < pb_width p ∧ y < pb_height p) then i ← pb_index p x y; pb_store i c p
  else Ok p.

Definition get_pixel (x y : Z) (p : PixelBuffer) : outcome E Pixel :=
  if decide (x < pb_width p ∧ y < pb_height p) then i ← pb_index p x y; pb_load p i
  else Ok px_zero.

Definition fill_rect (r : Rect) (c : Pixel) (p : PixelBuffer) : outcome E PixelBuffer :=
  let x_start := r_x r `min` pb_width p in
  let y_start := r_y r `min` pb_height p in
  right ← add32 (r_x r) (r_width r);
  bottom ← add32 (r_y r) (r_height r);
  let x_end := right `min` pb_width p in
  let y_end := bottom `min` pb_height p in
  for_range (range y_start y_end) (λ y p,
    row_start ← pb_index p x_start y;
    row_end ← pb_index p x_end y;
    for_range (range row_start row_end) (λ i p, pb_store i c p) p) p.

Definition draw_hline (x y length : Z) (c : Pixel) (p : PixelBuffer) : outcome E PixelBuffer :=
  if decide (y >= pb_height p) then Ok p
  else
    right ← add32 x length;
    let x_end := right `min` pb_width p in
    let x_start := x `min` pb_width p in
    for_range (range x_start x_end) (λ xi p, i ← pb_index p xi y; pb_store i c p) p.

Definition draw_vline (x y length : Z) (c : Pixel) (p : PixelBuffer) : outcome E PixelBuffer :=
  if decide (x >= pb_width p) then Ok p
  else
    bottom ← add32 y length;
    let y_end := bottom `min` pb_height p in
    let y_start := y `min` pb_height p in
    for_range (range y_start y_end) (λ yi p, i ← pb_index p x yi; pb_store i c p) p.

Definition draw_rect (r : Rect) (c : Pixel) (p : PixelBuffer) : outcome E PixelBuffer :=
  p ← draw_hline (r_x r) (r_y r) (r_width r) c p;
  p ← (if decide (r_height r > 0) then
         bottom ← add32 (r_y r) (r_height r); last ← chk 32 (bottom - 1); draw_hline (r_x r) last (r_width r) c p
       else Ok p);
  p ← draw_vline (r_x r) (r_y r) (r_height r) c p;
  if decide (r_width r > 0) then
    right ← add32 (r_x r) (r_width r); last ← chk 32 (right - 1); draw_vline last (r_y r) (r_height r) c p
  else Ok p.

Definition blend_pixel (x y : Z) (c : Pixel) (p : PixelBuffer) : outcome E PixelBuffer :=
  if decide (x >= pb_width p ∨ y >= pb_height p) then Ok p
  else
    dst ← get_pixel x y p;
    set_pixel x y (alpha_blend c dst) p.

(** ** What an operation paints *)
Definition px_of (p : PixelBuffer) (x y : Z) : Pixel := pb_at p (y * pb_width p + x).
Definition in_buf (p : PixelBuffer) (x y : Z) : Prop := 0 <= x < pb_width p ∧ 0 <= y < pb_height p.
(** A buffer whose bytes have [u32] offsets. *)
Definition pb_ok (p : PixelBuffer) : Prop := 0 <= pb_width p ∧ 0 <= pb_height p ∧ pb_width p * pb_height p * 4 < 2 ^ 32.

#[export] Instance pb_ok_dec p : Decision (pb_ok p).
Proof. unfold pb_ok. apply _. Defined.

Record paints (p p' : PixelBuffer) (f : Z → Z → Pixel → Pixel) : Prop := {
  pa_width : pb_width p' = pb_width p;
  pa_height : pb_height p' = pb_height p;
  pa_px x y : in_buf p x y → px_of p' x y = f x y (px_of p x y);
}.

Lemma paints_ok p p' f : paints p p' f → pb_ok p → pb_ok p'.
Proof. intros [Hw Hh _]. unfold pb_ok. by rewrite Hw, Hh. Qed.

Lemma paints_in p p' f x y : paints p p' f → in_buf p' x y ↔ in_buf p x y.
Proof. intros [Hw Hh _]. unfold in_buf. by rewrite Hw, Hh. Qed.

Lemma paints_refl p f : (∀ x y c, in_buf p x y → f x y c = c) → paints p p f.
Proof. intros Hf. split; [done|done|]. intros. by rewrite Hf. Qed.

Lemma paints_trans p1 p2 p3 f g h : paints p1 p2 f → paints p2 p3 g →
  (∀ x y c, in_buf p1 x y → h x y c = g x y (f x y c)) → paints p1 p3 h.
Proof.
  intros H1 H2 Hh. pose proof H1 as [Hw1 Hh1 P1]. pose proof H2 as [Hw2 Hh2 P2]. split; [congruence|congruence|].
  intros x y Hin. rewrite P2 by (by apply (paints_in _ _ _ _ _ H1)). rewrite P1 by done. by rewrite Hh.
Qed.

Lemma paints_ext p p' f g : paints p p' f → (∀ x y c, in_buf p x y → g x y c = f x y c) → paints p p' g.
Proof. intros [Hw Hh P] Hg. split; [done|done|]. intros x y Hin. by rewrite Hg, P. Qed.

(** A loop paints what its turns paint, one after the other. *)
Lemma paints_loop l (body : Z → PixelBuffer → outcome E PixelBuffer) f p : pb_ok p →
  (∀ i q, i ∈ l → pb_ok q → pb_width q = pb_width p → pb_height q = pb_height p → ∃ q', body i q = Ok q' ∧ paints q q' (f i)) →
  ∃ p', for_range l body p = Ok p' ∧ paints p p' (λ x y c, foldl (λ c i, f i x y c) c l).
Proof.
  revert p. induction l as [|i l IH]; intros p Hok Hb; cbn [for_range foldl].
  { exists p. split; [done|]. by apply paints_refl. }
  destruct (Hb i p) as (q&E1&H1); [by apply list_elem_of_here|done..|]. rewrite E1. cbn [mbind outcome_bind].
  destruct (IH q) as (p'&E2&H2).
  { by eapply paints_ok. }
  { intros j r Hj Hr Hw Hh. apply Hb; [by apply list_elem_of_further|done|..]; [rewrite Hw|rewrite Hh]; apply H1. }
  exists p'. split; [done|]. eapply paints_trans; [done|done|]. done.
Qed.

(** Of the turns of a loop only one touches a pixel. *)
Lemma foldl_once {C} (f : C → Z → C) (l : list Z) k (c : C) : NoDup l → (∀ c i, i ≠ k → f c i = c) →
  foldl f c l = if decide (k ∈ l) then f c k else c.
Proof.
  intros Hnd Hf. revert c. induction l as [|i l IH]; intros c; cbn [foldl].
  { rewrite decide_False; [done|]. apply not_elem_of_nil. }
  apply NoDup_cons in Hnd as [Hi Hnd]. rewrite IH by done. destruct (decide (i = k)) as [->|NE].
  - rewrite decide_False by done. rewrite decide_True by apply list_elem_of_here. done.
  - rewrite (Hf c i NE). destruct (decide (k ∈ l)); [rewrite decide_True by (by apply list_elem_of_further)|rewrite decide_False]; try done.
    by intros [->|?]%elem_of_cons.
Qed.

Lemma index_inj p x y x' y' : in_buf p x y → in_buf p x' y' → y * pb_width p + x = y' * pb_width p + x' ↔ x = x' ∧ y = y'.
Proof. unfold in_buf. intros. split; [|lia]. intros Heq. assert (y = y') by nia. nia. Qed.

Lemma index_range p x y : in_buf p x y → 0 <= y * pb_width p + x < pb_width p * pb_height p.
Proof. unfold in_buf. nia. Qed.

Lemma pb_index_ok p x y : pb_ok p → 0 <= x <= pb_width p → 0 <= y < pb_height p → pb_index p x y = Ok (y * pb_width p + x).
Proof. unfold pb_ok, pb_index. intros. rewrite chk_Ok by (unfold in_u; nia). cbn [mbind outcome_bind]. apply chk_Ok. unfold in_u. nia. Qed.

Lemma store_at p x0 y0 c : in_buf p x0 y0 → ∃ p', pb_store (y0 * pb_width p + x0) c p = Ok p' ∧
  paints p p' (λ x y q, if decide (x = x0 ∧ y = y0) then c else q).
Proof.
  intros Hin. unfold pb_store. rewrite decide_True by by apply index_range. eexists. split; [done|]. split; [done|done|].
  intros x y Hxy. unfold px_of, pb_at. cbn [pb_pixels pb_width]. destruct (decide (x = x0 ∧ y = y0)) as [[-> ->]|NE].
  - by rewrite lookup_insert_eq.
  - rewrite lookup_insert_ne; [done|]. rewrite index_inj by done. intros [-> ->]. by apply NE.
Qed.

Lemma set_pixel_ok p x0 y0 c : pb_ok p → 0 <= x0 → 0 <= y0 → ∃ p', set_pixel x0 y0 c p = Ok p' ∧
  paints p p' (λ x y q, if decide (x = x0 ∧ y = y0) then c else q).
Proof.
  intros Hok Hx Hy. unfold set_pixel. destruct (decide (x0 < pb_width p ∧ y0 < pb_height p)) as [[Hw Hh]|Hout].
  - rewrite pb_index_ok by (done || lia). apply store_at. done.
  - exists p. split; [done|]. apply paints_refl. unfold in_buf. intros x y q Hin. rewrite decide_False; [done|]. lia.
Qed.

Lemma get_pixel_ok p x y : pb_ok p → in_buf p x y → get_pixel x y p = Ok (px_of p x y).
Proof.
  intros Hok Hin. pose proof Hin as [??]. unfold get_pixel. rewrite decide_True by lia. rewrite pb_index_ok by (done || lia).
  unfold pb_load. cbn [mbind outcome_bind]. rewrite decide_True by by apply index_range. done.
Qed.

(** A loop over disjoint parts in one colour. *)
Lemma paints_parts l (body : Z → PixelBuffer → outcome E PixelBuffer) (P : Z → Z → Z → Prop) (sel : Z → Z → Z) (c : Pixel) p
    `{!∀ i x y, Decision (P i x y)} : pb_ok p → NoDup l → (∀ i x y, in_buf p x y → P i x y → sel x y = i) →
  (∀ i q, i ∈ l → pb_ok q → pb_width q = pb_width p → pb_height q = pb_height p →
     ∃ q', body i q = Ok q' ∧ paints q q' (λ x y q, if decide (P i x y) then c else q)) →
  ∃ p', for_range l body p = Ok p' ∧
    paints p p' (λ x y q, if decide (sel x y ∈ l ∧ P (sel x y) x y) then c else q).
Proof.
  intros Hok Hnd Hsel Hb. destruct (paints_loop l body (λ i x y q, if decide (P i x y) then c else q) p Hok Hb) as (p'&E'&Hp).
  exists p'. split; [done|]. eapply paints_ext; [done|]. intros x y q Hin. cbv beta.
  rewrite (foldl_once _ l (sel x y)); [|done|intros q' i NE; rewrite decide_False; [done|]; intros HP; apply NE; symmetry; by apply Hsel].
  destruct (decide (sel x y ∈ l)); destruct (decide (P (sel x y) x y)); repeat case_decide; tauto || done.
Qed.

Lemma hline_ok p x0 y0 n c : pb_ok p → 0 <= x0 → 0 <= y0 → 0 <= n → x0 + n < 2 ^ 32 → ∃ p', draw_hline x0 y0 n c p = Ok p' ∧
  paints p p' (λ x y q, if decide (x0 <= x < x0 + n ∧ y = y0) then c else q).
Proof.
  intros Hok Hx Hy Hn Hs. unfold draw_hline. destruct (decide (y0 >= pb_height p)) as [Hge|Hlt].
  { exists p. split; [done|]. apply paints_refl. unfold in_buf. intros. by rewrite decide_False by lia. }
  rewrite add32_Ok by lia. cbn [mbind outcome_bind]. set (l := range _ _).
  destruct (paints_parts l (λ xi p, i ← pb_index p xi y0; pb_store i c p) (λ i x y, x = i ∧ y = y0) (λ x _, x) c p)
    as (p'&E'&Hp); [done|apply NoDup_range|by intros ? ? ? _ [-> _]| |].
  { intros i q Hi Hq Hw Hh. apply elem_of_range in Hi. rewrite pb_index_ok by (done || lia). cbn [mbind outcome_bind]. apply store_at. unfold in_buf. lia. }
  exists p'. split; [done|]. eapply paints_ext; [done|]. unfold in_buf, l. intros x y q Hin. apply decide_ext. rewrite elem_of_range. lia.
Qed.

Lemma vline_ok p x0 y0 n c : pb_ok p → 0 <= x0 → 0 <= y0 → 0 <= n → y0 + n < 2 ^ 32 → ∃ p', draw_vline x0 y0 n c p = Ok p' ∧
  paints p p' (λ x y q, if decide (x = x0 ∧ y0 <= y < y0 + n) then c else q).
Proof.
  intros Hok Hx Hy Hn Hs. unfold draw_vline. destruct (decide (x0 >= pb_width p)) as [Hge|Hlt].
  { exists p. split; [done|]. apply paints_refl. unfold in_buf. intros. by rewrite decide_False by lia. }
  rewrite add32_Ok by lia. cbn [mbind outcome_bind]. set (l := range _ _).
  destruct (paints_parts l (λ yi p, i ← pb_index p x0 yi; pb_store i c p) (λ i x y, x = x0 ∧ y = i) (λ _ y, y) c p)
    as (p'&E'&Hp); [done|apply NoDup_range|by intros ? ? ? _ [_ ->]| |].
  { intros i q Hi Hq Hw Hh. apply elem_of_range in Hi. rewrite pb_index_ok by (done || lia). cbn [mbind outcome_bind]. apply store_at. unfold in_buf. lia. }
  exists p'. split; [done|]. eapply paints_ext; [done|]. unfold in_buf, l. intros x y q Hin. apply decide_ext. rewrite elem_of_range. lia.
Qed.

Definition at_index (p : PixelBuffer) (i x y : Z) : Prop := y * pb_width p + x = i.
#[local] Instance at_index_dec p i x y : Decision (at_index p i x y).
Proof. unfold at_index. apply _. Defined.

Lemma row_unique w x y y0 : 0 <= x < w → y0 * w <= y * w + x < y0 * w + w → y = y0.
Proof. intros Hx Hr. destruct (Z.lt_trichotomy y y0) as [?|[?|?]]; [nia|done|nia]. Qed.

(** A run of indices is a run of pixels of one row. *)
Lemma row_ok p a b y0 c : pb_ok p → 0 <= a → b <= pb_width p → 0 <= y0 < pb_height p →
  ∃ p', for_range (range (y0 * pb_width p + a) (y0 * pb_width p + b)) (λ i p, pb_store i c p) p = Ok p' ∧
    paints p p' (λ x y q, if decide (a <= x < b ∧ y = y0) then c else q).
Proof.
  intros Hok Ha Hb Hy. set (l := range _ _).
  destruct (paints_parts l (λ i p, pb_store i c p) (at_index p) (λ x y, y * pb_width p + x) c p)
    as (p'&E'&Hp); [done|apply NoDup_range|done| |].
  { intros i q Hi Hq Hw Hh. apply elem_of_range in Hi.
    destruct (store_at q (i - y0 * pb_width p) y0 c) as (q'&Eq&Hp'); [unfold in_buf; lia|].
    replace (y0 * pb_width q + (i - y0 * pb_width p)) with i in Eq by (rewrite Hw; lia). exists q'. split; [done|].
    eapply paints_ext; [done|]. unfold in_buf, at_index. rewrite Hw, Hh. intros x y k Hin. apply decide_ext. split; [|nia]. intros <-. assert (y = y0) by (apply (row_unique (pb_width p) x); lia). nia. }
  exists p'. split; [done|]. eapply paints_ext; [done|]. unfold in_buf, l. intros x y q Hin. apply decide_ext. rewrite elem_of_range. split; [intros [? ->]; unfold at_index; lia|].
  intros ([??]&_). assert (y = y0) by (apply (row_unique (pb_width p) x); lia). nia.
Qed.

Lemma fill_rect_ok p r c : pb_ok p → rect_ok r → ∃ p', fill_rect r c p = Ok p' ∧
  paints p p' (λ x y q, if decide (in_rect r x y) then c else q).
Proof.
  intros Hok Hr. pose proof Hok as (?&?&_). unfold rect_ok in Hr. unfold fill_rect. rewrite !add32_Ok by lia. cbn [mbind outcome_bind].
  set (l := range _ _). set (a := r_x r `min` pb_width p). set (b := (r_x r + r_width r) `min` pb_width p).
  destruct (paints_parts l (λ y p0, row_start ← pb_index p0 a y; row_end ← pb_index p0 b y;
      for_range (range row_start row_end) (λ i p1, pb_store i c p1) p0) (λ i x y, a <= x < b ∧ y = i) (λ _ y, y) c p)
    as (p'&E'&Hp); [done|apply NoDup_range|by intros ? ? ? _ [_ ->]| |].
  { intros i q Hi Hq Hw Hh. apply elem_of_range in Hi. rewrite !pb_index_ok by (done || lia). cbn [mbind outcome_bind]. apply row_ok; (done || lia). }
  exists p'. split; [done|]. eapply paints_ext; [done|]. unfold in_buf, l, a, b, in_rect. intros x y q Hin. apply decide_ext. rewrite elem_of_range. lia.
Qed.

(** The four sides, as [draw_rect] draws them: the top and the left side also
    of a rectangle without height or width. *)
Definition on_outline (r : Rect) (x y : Z) : Prop :=
  r_x r <= x < r_x r + r_width r ∧ (y = r_y r ∨ r_height r > 0 ∧ y = r_y r + r_height r - 1)
  ∨ r_y r <= y < r_y r + r_height r ∧ (x = r_x r ∨ r_width r > 0 ∧ x = r_x r + r_width r - 1).
#[export] Instance on_outline_dec r x y : Decision (on_outline r x y).
Proof. unfold on_outline. apply _. Defined.

Lemma draw_rect_ok p r c : pb_ok p → rect_ok r → ∃ p', draw_rect r c p = Ok p' ∧
  paints p p' (λ x y q, if decide (on_outline r x y) then c else q).
Proof.
  intros Hok Hr. unfold rect_ok in Hr. unfold draw_rect, on_outline.
  destruct (hline_ok p (r_x r) (r_y r) (r_width r) c) as (p1&E1&P1); [done|lia..|]. rewrite E1. cbn [mbind outcome_bind].
  pose proof (paints_ok _ _ _ P1 Hok) as Hok1.
  assert (∃ p2, (if decide (r_height r > 0) then bottom ← add32 (r_y r) (r_height r); last ← chk 32 (bottom - 1);
      draw_hline (r_x r) last (r_width r) c p1 else Ok p1) = Ok p2
    ∧ paints p1 p2 (λ x y q, if decide (r_x r <= x < r_x r + r_width r ∧ r_height r > 0 ∧ y = r_y r + r_height r - 1) then c else q)) as (p2&E2&P2).
  { destruct (decide (r_height r > 0)).
    - rewrite add32_Ok by lia. cbn [mbind outcome_bind]. rewrite chk_Ok by (unfold in_u; lia). cbn [mbind outcome_bind].
      destruct (hline_ok p1 (r_x r) (r_y r + r_height r - 1) (r_width r) c) as (p2&E2&P2); [done|lia..|]. exists p2. split; [done|].
      eapply paints_ext; [done|]. intros. apply decide_ext. lia.
    - exists p1. split; [done|]. apply paints_refl. intros. by rewrite decide_False by lia. }
  rewrite E2. cbn [mbind outcome_bind]. pose proof (paints_ok _ _ _ P2 Hok1) as Hok2.
  destruct (vline_ok p2 (r_x r) (r_y r) (r_height r) c) as (p3&E3&P3); [done|lia..|]. rewrite E3. cbn [mbind outcome_bind].
  pose proof (paints_ok _ _ _ P3 Hok2) as Hok3.
  pose proof (paints_trans _ _ _ _ _ _ P1 P2 (λ x y c _, eq_refl)) as P12.
  pose proof (paints_trans _ _ _ _ _ _ P12 P3 (λ x y c _, eq_refl)) as P123.
  destruct (decide (r_width r > 0)).
  - rewrite add32_Ok by lia. cbn [mbind outcome_bind]. rewrite chk_Ok by (unfold in_u; lia). cbn [mbind outcome_bind].
    destruct (vline_ok p3 (r_x r + r_width r - 1) (r_y r) (r_height r) c) as (p4&E4&P4); [done|lia..|]. exists p4. split; [done|].
    eapply paints_trans; [exact P123|exact P4|]. intros x y q _. cbv beta. repeat case_decide; lia || done.
  - exists p3. split; [done|]. eapply paints_ext; [exact P123|]. intros x y q _. cbv beta. repeat case_decide; lia || done.
Qed.

Lemma blend_pixel_ok p x0 y0 c : pb_ok p → 0 <= x0 → 0 <= y0 → ∃ p', blend_pixel x0 y0 c p = Ok p' ∧
  paints p p' (λ x y q, if decide (x = x0 ∧ y = y0) then alpha_blend c q else q).
Proof.
  intros Hok Hx Hy. unfold blend_pixel. destruct (decide _) as [Hout|Hin].
  { exists p. split; [done|]. apply paints_refl. unfold in_buf. intros. by rewrite decide_False by lia. }
  rewrite get_pixel_ok by (done || unfold in_buf; lia). cbn [mbind outcome_bind].
  destruct (set_pixel_ok p x0 y0 (alpha_blend c (px_of p x0 y0)) Hok Hx Hy) as (p'&E'&[Hw Hh P]). exists p'. split; [done|].
  split; [done|done|]. intros x y Hxy. rewrite P by done. destruct (decide _) as [[-> ->]|]; done.
Qed.

Lemma clear_ok p c : pb_ok p → ∃ p', PixelBuffer_clear c p = Ok p' ∧ paints p p' (λ _ _ _, c).
Proof.
  intros Hok. pose proof Hok as (?&?&?). unfold PixelBuffer_clear. rewrite chk_Ok by (unfold in_u; lia). cbn [mbind outcome_bind].
  set (l := range _ _).
  destruct (paints_parts l (λ i p, pb_store i c p) (at_index p) (λ x y, y * pb_width p + x) c p)
    as (p'&E'&Hp); [done|apply NoDup_range|done| |].
  { intros i q Hi Hq Hw Hh. apply elem_of_range in Hi.
    assert (0 < pb_width p) by nia. pose proof (Z.div_mod i (pb_width p) ltac:(lia)). pose proof (Z.mod_pos_bound i (pb_width p) ltac:(lia)).
    destruct (store_at q (i mod pb_width p) (i / pb_width p) c) as (q'&Eq&Hp'); [unfold in_buf; rewrite Hw, Hh; nia|].
    replace (i / pb_width p * pb_width q + i mod pb_width p) with i in Eq by (rewrite Hw; lia). exists q'. split; [done|].
    eapply paints_ext; [done|]. unfold in_buf, at_index. rewrite Hw, Hh. intros x y k Hin. apply decide_ext. split; [|nia].
    intros <-. rewrite Z.div_add_l, Z.div_small by lia. rewrite Z.add_comm, Z.mod_add, Z.mod_small by lia. lia. }
  exists p'. split; [done|]. eapply paints_ext; [done|]. intros x y q Hin. cbv beta. rewrite decide_True; [done|].
  split; [|done]. unfold l. apply elem_of_range. by apply index_range.
Qed.
End pixels.

(** The drawing operations of the client library paint exactly what they
    name, clipped to the buffer, and never panic or leave the buffer: for a
    buffer with 32-bit offsets and shapes whose far corners are 32-bit numbers,
    clearing paints every pixel, a line its run, a filled rectangle its pixels,
    an outline its four sides, a single pixel or a blended one itself, and
    every other pixel keeps its value. *)
Theorem pixel_drawing_exact p r c x0 y0 n : pb_ok p → rect_ok r → 0 <= x0 → 0 <= y0 → 0 <= n → x0 + n < 2 ^ 32 → y0 + n < 2 ^ 32 →
  let draws (m : PixelBuffer → outcome () PixelBuffer) f := ∃ p', m p = Ok p' ∧ paints p p' f in
  draws (PixelBuffer_clear c) (λ _ _ _, c)
  ∧ draws (set_pixel x0 y0 c) (λ x y q, if decide (x = x0 ∧ y = y0) then c else q)
  ∧ draws (blend_pixel x0 y0 c) (λ x y q, if decide (x = x0 ∧ y = y0) then alpha_blend c q else q)
  ∧ draws (draw_hline x0 y0 n c) (λ x y q, if decide (x0 <= x < x0 + n ∧ y = y0) then c else q)
  ∧ draws (draw_vline x0 y0 n c) (λ x y q, if decide (x = x0 ∧ y0 <= y < y0 + n) then c else q)
  ∧ draws (fill_rect r c) (λ x y q, if decide (in_rect r x y) then c else q)
  ∧ draws (draw_rect r c) (λ x y q, if decide (on_outline r x y) then c else q)
  ∧ (∀ x y, in_buf p x y → get_pixel (E:=()) x y p = Ok (px_of p x y)).
Proof.
  intros Hok Hr Hx Hy Hn Hs1 Hs2. cbv zeta.
  split_and!; [by apply clear_ok|by apply set_pixel_ok|by apply blend_pixel_ok|by apply hline_ok|by apply vline_ok|by apply fill_rect_ok|
    by apply draw_rect_ok|intros; by apply get_pixel_ok].
Qed.

Lemma pixel_drawing_exact_witness :
  let p := PixelBuffer_new 6 5 in let r := mkRect 1 1 3 4 in let c := mkPx 1 2 3 255 in
  (∃ p', draw_rect (E:=()) r c p = Ok p' ∧ paints p p' (λ x y q, if decide (on_outline r x y) then c else q))
  ∧ (match draw_rect (E:=()) r c p with Ok p' => Some (px_of p' 2 1, px_of p' 2 2, px_of p' 3 3) | _ => None end
     = Some (c, px_zero, c)).
Proof.
  cbv zeta. split; [|by vm_compute].
  apply (pixel_drawing_exact (PixelBuffer_new 6 5) (mkRect 1 1 3 4) (mkPx 1 2 3 255) 0 0 0);
    [apply (bool_decide_unpack _); by vm_compute|apply (bool_decide_unpack _); by vm_compute|lia..].
Defined.
