(* ===== verification/TermText.v ===== *)
(** * Text of the terminal
    ([userspace/terminal/src/render.rs], [commands.rs] the parser,
    [libpanda/src/keyboard.rs])

    Words for line wrapping, colours, the parser of pipelines and the keyboard
    layout.  The terminal works on the characters of its strings; a string from
    outside is UTF-8 and [chars] gives its characters. *)

From S2P Require Import Prelude Utf8 Text Buffers BTree Encoding Style Value.

(** ** Characters *)
(** [char::len_utf8] from the first byte of a character. *)
Definition utf8_width (b0 : Z) : nat :=
  if b0 <? 0x80 then 1 else if b0 <? 0xE0 then 2 else if b0 <? 0xF0 then 3 else 4.

Fixpoint chars_from (fuel : nat) (s : str) : list Z :=
  match fuel, s with
  | S fuel, b0 :: _ => match chars_next s with Some c => c :: chars_from fuel (drop (utf8_width b0) s) | None => [] end
  | _, _ => []
  end.
(** [str::chars]. *)
Definition chars (s : str) : list Z := chars_from (length s) s.
(** The string of characters pushed one by one. *)
Definition string_of (cs : list Z) : str := cs ≫= encode_utf8.

(** [char::is_whitespace]: the Unicode property White_Space. *)
Definition is_whitespace (c : Z) : bool :=
  bool_decide (9 <= c <= 13 ∨ c = 0x20 ∨ c = 0x85 ∨ c = 0xA0 ∨ c = 0x1680 ∨ 0x2000 <= c <= 0x200A ∨ c = 0x2028 ∨ c = 0x2029
               ∨ c = 0x202F ∨ c = 0x205F ∨ c = 0x3000).

(** [str::find] of the first character with a property, as a split. *)
Fixpoint split_at (p : Z → bool) (s : list Z) : list Z * list Z :=
  match s with
  | [] => ([], [])
  | c :: r => if p c then ([], s) else let '(a, b) := split_at p r in (c :: a, b)
  end.

Definition trim_start (s : list Z) : list Z := (split_at (λ c, negb (is_whitespace c)) s).2.
Definition trim (s : list Z) : list Z := reverse (trim_start (reverse (trim_start s))).

(** ** Words for line wrapping *)
Inductive Word : Type :=
  | WNewline
  | WWhitespace (ws : list Z)
  | WText (text : list Z).

Definition NEWLINE : Z := 10.

(** [WordIter::next]: the word and what remains. *)
Definition WordIter_next (remaining : list Z) : option (Word * list Z) :=
  match remaining with
  | [] => None
  | c :: r =>
      if decide (c = NEWLINE) then Some (WNewline, r)
      else
        let '(ws, rest) := split_at (λ c, bool_decide (c = NEWLINE) || negb (is_whitespace c)) remaining in
        match ws with
        | _ :: _ => Some (WWhitespace ws, rest)
        | [] => let '(word, rest) := split_at is_whitespace remaining in Some (WText word, rest)
        end
  end.

(** The words of a string: each takes at least one character. *)
Fixpoint words_from (fuel : nat) (s : list Z) : list Word :=
  match fuel with
  | O => []
  | S fuel => match WordIter_next s with Some (w, rest) => w :: words_from fuel rest | None => [] end
  end.
Definition words (s : list Z) : list Word := words_from (length s) s.

(** ** Colours *)
Definition named_argb (c : NamedColour) : Z :=
  match c with
  | Black => 0xFF000000
  | Red => 0xFFCD3131
  | Green => 0xFF0DBC79
  | Yellow => 0xFFE5E510
  | Blue => 0xFF2472C8
  | Magenta => 0xFFBC3FBC
  | Cyan => 0xFF11A8CD
  | White => 0xFFE5E5E5
  | BrightBlack => 0xFF666666
  | BrightRed => 0xFFF14C4C
  | BrightGreen => 0xFF23D18B
  | BrightYellow => 0xFFF5F543
  | BrightBlue => 0xFF3B8EEA
  | BrightMagenta => 0xFFD670D6
  | BrightCyan => 0xFF29B8DB
  | BrightWhite => 0xFFFFFFFF
  end.

Definition argb (r g b : Z) : Z := Z.lor (Z.lor (Z.lor 0xFF000000 (Z.shiftl r 16)) (Z.shiftl g 8)) b.

Definition colour_to_argb (colour : Colour) : Z :=
  match colour with
  | Named c => named_argb c
  | Palette idx =>
      if decide (idx < 16) then
        named_argb (nth (Z.to_nat idx)
          [Black; Red; Green; Yellow; Blue; Magenta; Cyan; White; BrightBlack; BrightRed; BrightGreen; BrightYellow;
           BrightBlue; BrightMagenta; BrightCyan; BrightWhite] BrightWhite)
      else if decide (idx < 232) then
        let idx := idx - 16 in argb (idx / 36 * 51) (idx / 6 mod 6 * 51) (idx mod 6 * 51)
      else let grey := (idx - 232) * 10 + 8 in argb grey grey grey
  | Rgb r g b => argb r g b
  end.

(** ** Pipelines *)
Record PipelineStage : Type := mkStage { stage_cmd : list Z; stage_args : list (list Z) }.

#[export] Instance PipelineStage_eq_dec : EqDecision PipelineStage.
Proof. solve_decision. Defined.

(** [split('|')]: always at least one segment. *)
Fixpoint split_char (sep : Z) (s : list Z) : list (list Z) :=
  match s with
  | [] => [[]]
  | c :: r =>
      let segs := split_char sep r in
      if decide (c = sep) then [] :: segs
      else match segs with seg :: segs => (c :: seg) :: segs | [] => [[c]] end
  end.

Fixpoint split_ws_from (fuel : nat) (s : list Z) : list (list Z) :=
  match fuel with
  | O => []
  | S fuel =>
      match trim_start s with
      | [] => []
      | s' => let '(word, rest) := split_at is_whitespace s' in word :: split_ws_from fuel rest
      end
  end.
Definition split_whitespace (s : list Z) : list (list Z) := split_ws_from (length s) s.

Definition PIPE : Z := 124.

Definition parse_stage (segment : list Z) : option PipelineStage :=
  match trim segment with
  | [] => None
  | seg => match split_whitespace seg with [] => None | cmd :: args => Some (mkStage cmd (cmd :: args)) end
  end.

Definition parse_pipeline (line_buffer : list Z) : option (list PipelineStage) :=
  match trim line_buffer with
  | [] => None
  | trimmed =>
      match omap parse_stage (split_char PIPE trimmed) with
      | [] => None
      | stages => Some stages
      end
  end.

(** ** The keyboard *)
Inductive KeyValue : Type := KRelease | KPress | KRepeat.
Definition KeyValue_from_u32 (v : Z) : KeyValue := if decide (v = 1) then KPress else if decide (v = 2) then KRepeat else KRelease.

Definition KEY_ENTER : Z := 28.
Definition KEY_BACKSPACE : Z := 14.
Definition KEY_LEFTSHIFT : Z := 42.
Definition KEY_RIGHTSHIFT : Z := 54.
Definition is_shift_key (code : Z) : bool := bool_decide (code = KEY_LEFTSHIFT ∨ code = KEY_RIGHTSHIFT).

(** The characters of a key without and with shift, by code. *)
Definition key_chars : list (Z * (Z * Z)) :=
  [(30, (97, 65)); (48, (98, 66)); (46, (99, 67)); (32, (100, 68)); (18, (101, 69)); (33, (102, 70)); (34, (103, 71));
   (35, (104, 72)); (23, (105, 73)); (36, (106, 74)); (37, (107, 75)); (38, (108, 76)); (50, (109, 77)); (49, (110, 78));
   (24, (111, 79)); (25, (112, 80)); (16, (113, 81)); (19, (114, 82)); (31, (115, 83)); (20, (116, 84)); (22, (117, 85));
   (47, (118, 86)); (17, (119, 87)); (45, (120, 88)); (21, (121, 89)); (44, (122, 90));
   (2, (49, 33)); (3, (50, 64)); (4, (51, 35)); (5, (52, 36)); (6, (53, 37)); (7, (54, 94)); (8, (55, 38)); (9, (56, 42));
   (10, (57, 40)); (11, (48, 41));
   (57, (32, 32)); (12, (45, 95)); (13, (61, 43)); (26, (91, 123)); (27, (93, 125)); (39, (59, 58)); (40, (39, 34));
   (41, (96, 126)); (43, (92, 124)); (51, (44, 60)); (52, (46, 62)); (53, (47, 63))].

Fixpoint lookup_key (code : Z) (l : list (Z * (Z * Z))) : option (Z * Z) :=
  match l with
  | [] => None
  | (k, cs) :: l => if decide (code = k) then Some cs else lookup_key code l
  end.
Definition keycode_to_char (code : Z) (shift : bool) : option Z :=
  (λ '(plain, shifted), if shift then shifted else plain) <$> lookup_key code key_chars.
