(* ===== verification/Term.v ===== *)
(** * The terminal
    ([userspace/terminal/src/main.rs], [input.rs], [commands.rs])

    The terminal draws glyphs into a pixel buffer of its own, keeps the lines
    it has shown, edits the command line, runs commands and serves the requests
    of its child.  The font is a third-party rasteriser and an argument; the
    window, the channels and the processes are an interface. *)

From Stdlib Require Import Ascii String.
From S2P Require Import Prelude Utf8 Text Buffers BTree Encoding Style Value Terminal Effects BlockDevice CompositorProtocol Graphics Pixels TermText.

#[local] Open Scope list_scope.

Definition COLOUR_BACKGROUND : Z := 0xFF1E1E1E.
Definition COLOUR_DEFAULT_FG : Z := 0xFFD4D4D4.
Definition MARGIN : Z := 10.
Definition FONT_SIZE : Z := 16.
Definition LINE_HEIGHT : Z := 20.
Definition MAX_SCROLLBACK_LINES : Z := 1000.

(** A glyph: its bitmap with its size and place, and how far it moves the
    cursor ([advance_width as u32]). *)
Record Glyph : Type := mkGlyph {
  g_width : Z; g_height : Z; g_advance : Z; g_xmin : Z; g_ymin : Z; g_bitmap : list Z;
}.

#[export] Instance InputKind_eq_dec : EqDecision InputKind.
Proof. solve_decision. Defined.

Record Segment : Type := mkSeg { seg_text : list Z; seg_colour : Z }.
Definition Line : Type := list Segment.
Record DirtyRect : Type := mkDirty { d_x0 : Z; d_y0 : Z; d_x1 : Z; d_y1 : Z }.
Record PendingInput : Type := mkPending { pi_id : Z; pi_kind : InputKind; pi_handle : Z; pi_buffer : list Z }.

(** A child to start: path, arguments and redirected ends. *)
Record Spawn : Type := mkSpawn { sp_path : list Z; sp_args : list (list Z); sp_stdin : option Z; sp_stdout : option Z }.

(** What the terminal uses of its window and of the system.  Results it drops
    are not there; [fmt_f64] is the decimal form of a float. *)
Class TermWorld (W : Type) : Type := {
  w_blit : PixelBuffer → Z → Z → Rect → W → W;
  w_flush : W → W;
  w_send : Z → list Z → W → W;
  w_stat : list Z → W → W * bool;
  w_spawn : Spawn → W → W * option Z;
  w_wait : Z → W → W * Z;
  w_pair : W → W * option (Z * Z);
  fmt_f64 : Z → list Z;
}.

Record Term (W : Type) : Type := mkTerm {
  t_world : W;
  t_width : Z;
  t_height : Z;
  t_cx : Z;
  t_cy : Z;
  t_line : list Z;
  t_child : option Z;
  t_pipeline : list Z;
  t_pending : option PendingInput;
  t_fg : Z;
  t_avg : Z;
  t_fb : PixelBuffer;
  t_dirty : option DirtyRect;
  t_cache : gmap Z Glyph;
  t_lines : list Line;
}.
Arguments mkTerm {W} _ _ _ _ _ _ _ _ _ _ _ _ _ _ _.
Arguments t_world {W} _.
Arguments t_width {W} _.
Arguments t_height {W} _.
Arguments t_cx {W} _.
Arguments t_cy {W} _.
Arguments t_line {W} _.
Arguments t_child {W} _.
Arguments t_pipeline {W} _.
Arguments t_pending {W} _.
Arguments t_fg {W} _.
Arguments t_avg {W} _.
Arguments t_fb {W} _.
Arguments t_dirty {W} _.
Arguments t_cache {W} _.
Arguments t_lines {W} _.

(** [process::exit]: the terminal ends. *)
Inductive TermExit : Type := Exited (code : Z).

Section terminal.
Context {W : Type} `{TermWorld W} (font : Z → Glyph).
Implicit Types t : Term W.
Abbreviation M := (ST (Term W) TermExit).

(** Assignments to fields. *)
Definition set_world t (w : W) : Term W := mkTerm w (t_width t) (t_height t) (t_cx t) (t_cy t) (t_line t) (t_child t) (t_pipeline t) (t_pending t)
  (t_fg t) (t_avg t) (t_fb t) (t_dirty t) (t_cache t) (t_lines t).
Definition set_cursor t x y : Term W := mkTerm (t_world t) (t_width t) (t_height t) x y (t_line t) (t_child t) (t_pipeline t) (t_pending t)
  (t_fg t) (t_avg t) (t_fb t) (t_dirty t) (t_cache t) (t_lines t).
Definition set_line t l : Term W := mkTerm (t_world t) (t_width t) (t_height t) (t_cx t) (t_cy t) l (t_child t) (t_pipeline t) (t_pending t)
  (t_fg t) (t_avg t) (t_fb t) (t_dirty t) (t_cache t) (t_lines t).
Definition set_children t c p : Term W := mkTerm (t_world t) (t_width t) (t_height t) (t_cx t) (t_cy t) (t_line t) c p (t_pending t)
  (t_fg t) (t_avg t) (t_fb t) (t_dirty t) (t_cache t) (t_lines t).
Definition set_pending t p : Term W := mkTerm (t_world t) (t_width t) (t_height t) (t_cx t) (t_cy t) (t_line t) (t_child t) (t_pipeline t) p
  (t_fg t) (t_avg t) (t_fb t) (t_dirty t) (t_cache t) (t_lines t).
Definition set_fb t fb : Term W := mkTerm (t_world t) (t_width t) (t_height t) (t_cx t) (t_cy t) (t_line t) (t_child t) (t_pipeline t) (t_pending t)
  (t_fg t) (t_avg t) fb (t_dirty t) (t_cache t) (t_lines t).
Definition set_dirty t d : Term W := mkTerm (t_world t) (t_width t) (t_height t) (t_cx t) (t_cy t) (t_line t) (t_child t) (t_pipeline t) (t_pending t)
  (t_fg t) (t_avg t) (t_fb t) d (t_cache t) (t_lines t).
Definition set_cache t c : Term W := mkTerm (t_world t) (t_width t) (t_height t) (t_cx t) (t_cy t) (t_line t) (t_child t) (t_pipeline t) (t_pending t)
  (t_fg t) (t_avg t) (t_fb t) (t_dirty t) c (t_lines t).
Definition set_lines t l : Term W := mkTerm (t_world t) (t_width t) (t_height t) (t_cx t) (t_cy t) (t_line t) (t_child t) (t_pipeline t) (t_pending t)
  (t_fg t) (t_avg t) (t_fb t) (t_dirty t) (t_cache t) l.

(** A call of the system, with its result. *)
Definition call {B} (f : W → W * B) : M B := λ t, let '(w, b) := f (t_world t) in (set_world t w, Ok b).
(** Arithmetic on [u32]. *)
Definition u32 (z : Z) : M Z := liftO (chk 32 z).

Definition Terminal_new (w : W) (width height : Z) : Term W :=
  mkTerm w width height MARGIN MARGIN [] None [] None COLOUR_DEFAULT_FG (g_advance (font 77)) (PixelBuffer_new width height) None ∅ [[]].

Definition measure_char (ch : Z) : Z := g_advance (font ch).
Definition measure_text (text : list Z) : outcome TermExit Z :=
  foldl (λ width ch, width ← width; chk 32 (width + measure_char ch)) (Ok 0) text.

(** ** Drawing *)
Definition DirtyRect_expand (d : DirtyRect) (x y w h : Z) : outcome TermExit DirtyRect :=
  right ← chk 32 (x + w);
  bottom ← chk 32 (y + h);
  Ok (mkDirty (d_x0 d `min` x) (d_y0 d `min` y) (d_x1 d `max` right) (d_y1 d `max` bottom)).

Definition term_mark_dirty (x y w h : Z) : M () :=
  right ← u32 (x + w);
  bottom ← u32 (y + h);
  t ← gets id;
  let x1 := right `min` t_width t in
  let y1 := bottom `min` t_height t in
  match t_dirty t with
  | Some d =>
      dw ← u32 (x1 - x);
      dh ← u32 (y1 - y);
      d ← liftO (DirtyRect_expand d x y dw dh);
      modify (λ t, set_dirty t (Some d))
  | None => modify (λ t, set_dirty t (Some (mkDirty x y x1 y1)))
  end.

(** One pixel, by its offset in bytes. *)
Definition fill_at (stride x y : Z) (c : Pixel) (p : PixelBuffer) : outcome TermExit PixelBuffer :=
  r ← chk 32 (y * stride);
  i ← chk 32 (r + x);
  _ ← chk 32 (i * 4);
  pb_store i c p.

Definition fill_block (stride x x_end y y_end : Z) (c : Pixel) (p : PixelBuffer) : outcome TermExit PixelBuffer :=
  for_range (range y y_end) (λ row p, for_range (range x x_end) (λ col p, fill_at stride col row c p) p) p.

Definition fb_fill (x y w h colour : Z) : M () :=
  right ← u32 (x + w);
  bottom ← u32 (y + h);
  t ← gets id;
  let x_end := right `min` t_width t in
  let y_end := bottom `min` t_height t in
  fb ← liftO (fill_block (t_width t) x x_end y y_end (Pixel_of_colour colour) (t_fb t));
  modify (λ t, set_fb t fb);;
  dw ← u32 (x_end - x);
  dh ← u32 (y_end - y);
  term_mark_dirty x y dw dh.

(** The loops over the bitmap of a glyph, which end at the edge. *)
Fixpoint glyph_row (g : Glyph) (src : Pixel) (glyph_x dst_y width py : Z) (cols : list Z) (p : PixelBuffer) : outcome TermExit PixelBuffer :=
  match cols with
  | [] => Ok p
  | px :: cols =>
      dst_x ← chk 32 (glyph_x + px);
      if decide (dst_x >= width) then Ok p
      else
        coverage ← index (g_bitmap g) (py * g_width g + px);
        p ← (if decide (coverage = 0) then Ok p
             else
               r ← chk 32 (dst_y * width);
               i ← chk 32 (r + dst_x);
               _ ← chk 32 (i * 4);
               dst ← pb_load p i;
               pb_store i (alpha_blend (mkPx (px_b src) (px_g src) (px_r src) coverage) dst) p);
        glyph_row g src glyph_x dst_y width py cols p
  end.

Fixpoint glyph_rows (g : Glyph) (src : Pixel) (glyph_x glyph_y width height : Z) (rows : list Z) (p : PixelBuffer) : outcome TermExit PixelBuffer :=
  match rows with
  | [] => Ok p
  | py :: rows =>
      dst_y ← chk 32 (glyph_y + py);
      if decide (dst_y >= height) then Ok p
      else
        p ← glyph_row g src glyph_x dst_y width py (range 0 (g_width g)) p;
        glyph_rows g src glyph_x glyph_y width height rows p
  end.

Definition draw_char_coloured (ch fg : Z) : M () :=
  modify (λ t, match t_cache t !! ch with Some _ => t | None => set_cache t (<[ch := font ch]> (t_cache t)) end);;
  cached ← gets (λ t, t_cache t !! ch);
  g ← liftO (match cached with Some g => Ok g | None => Panic end);
  t ← gets id;
  if decide (g_width g = 0 ∨ g_height g = 0) then
    x ← u32 (t_cx t + g_advance g);
    modify (λ t, set_cursor t x (t_cy t))
  else
    glyph_x ← u32 (t_cx t + wrap_u 32 (g_xmin g));
    glyph_y ← u32 (t_cy t + wrap_u 32 (FONT_SIZE - g_height g - g_ymin g));
    fb ← liftO (glyph_rows g (Pixel_of_colour fg) glyph_x glyph_y (t_width t) (t_height t) (range 0 (g_height g)) (t_fb t));
    modify (λ t, set_fb t fb);;
    term_mark_dirty glyph_x glyph_y (g_width g) (g_height g);;
    x ← u32 (t_cx t + g_advance g);
    modify (λ t, set_cursor t x (t_cy t)).

(** The blit of the dirty region, and the flush of the window. *)
Definition flush : M () :=
  t ← gets id;
  match t_dirty t with
  | Some d =>
      w ← u32 (d_x1 d - d_x0 d);
      h ← u32 (d_y1 d - d_y0 d);
      modify (λ t, set_world t (w_blit (t_fb t) (d_x0 d) (d_y0 d) (mkRect (d_x0 d) (d_y0 d) w h) (t_world t)));;
      modify (λ t, set_dirty t None)
  | None => mret tt
  end;;
  modify (λ t, set_world t (w_flush (t_world t))).

(** ** The lines shown *)
Fixpoint push_char (ch colour : Z) (line : Line) : Line :=
  match line with
  | [] => [mkSeg [ch] colour]
  | [seg] => if decide (seg_colour seg = colour) then [mkSeg (seg_text seg ++ [ch]) colour] else [seg; mkSeg [ch] colour]
  | seg :: line => seg :: push_char ch colour line
  end.
Fixpoint pop_char (line : Line) : Line :=
  match line with
  | [] => []
  | [seg] => match removelast (seg_text seg) with [] => [] | text => [mkSeg text (seg_colour seg)] end
  | seg :: line => seg :: pop_char line
  end.
(** [display_lines.last_mut()]. *)
Fixpoint on_last {A} (f : A → A) (lines : list A) : list A :=
  match lines with
  | [] => []
  | [l] => [f l]
  | l :: lines => l :: on_last f lines
  end.

Definition record_char (ch colour : Z) : M () := modify (λ t, set_lines t (on_last (push_char ch colour) (t_lines t))).
Definition unrecord_char : M () := modify (λ t, set_lines t (on_last pop_char (t_lines t))).

Definition emit_char (ch colour : Z) : M () := record_char ch colour;; draw_char_coloured ch colour.

Definition line_chars (line : Line) : list (Z * Z) := line ≫= λ seg, (λ ch, (ch, seg_colour seg)) <$> seg_text seg.

Definition visible_line_count (height : Z) : outcome TermExit Z := h ← chk 32 (height - 2 * MARGIN); Ok (h / LINE_HEIGHT).

(** Where the characters of a line end, and in how many rows. *)
Fixpoint rows_from (max_x cx rows : Z) (cs : list (Z * Z)) : outcome TermExit (Z * Z) :=
  match cs with
  | [] => Ok (cx, rows)
  | (ch, _) :: cs =>
      let char_width := measure_char ch in
      x ← chk 32 (cx + char_width);
      let '(cx, rows) := if decide (x > max_x) then (MARGIN, rows + 1) else (cx, rows) in
      cx ← chk 32 (cx + char_width);
      rows_from max_x cx rows cs
  end.
Definition physical_rows_for_line (width : Z) (line : Line) : outcome TermExit Z :=
  max_x ← chk 32 (width - MARGIN);
  '(_, rows) ← rows_from max_x MARGIN 1 (line_chars line);
  Ok rows.

(** Backwards through the lines while they fit the rows that are left. *)
Fixpoint fitting (width budget : Z) (rev_lines : list Line) : outcome TermExit nat :=
  match rev_lines with
  | [] => Ok 0%nat
  | line :: rev_lines =>
      rows ← physical_rows_for_line width line;
      if decide (rows > budget) then Ok 0%nat
      else n ← fitting width (budget - rows) rev_lines; Ok (S n)
  end.

Fixpoint draw_line (max_x : Z) (cs : list (Z * Z)) : M () :=
  match cs with
  | [] => mret tt
  | (ch, colour) :: cs =>
      t ← gets id;
      x ← u32 (t_cx t + measure_char ch);
      (if decide (x > max_x) then y ← u32 (t_cy t + LINE_HEIGHT); modify (λ t, set_cursor t MARGIN y) else mret tt);;
      draw_char_coloured ch colour;;
      draw_line max_x cs
  end.

Fixpoint draw_lines (max_x y : Z) (lines : list Line) : M Z :=
  match lines with
  | [] => mret y
  | line :: lines =>
      modify (λ t, set_cursor t MARGIN y);;
      draw_line max_x (line_chars line);;
      t ← gets id;
      y ← u32 (t_cy t + LINE_HEIGHT);
      draw_lines max_x y lines
  end.

Definition render_visible_lines : M () :=
  t ← gets id;
  max_physical_rows ← liftO (visible_line_count (t_height t));
  n ← liftO (fitting (t_width t) max_physical_rows (reverse (t_lines t)));
  let lines_to_render := drop (length (t_lines t) - n) (t_lines t) in
  fb_fill 0 0 (t_width t) (t_height t) COLOUR_BACKGROUND;;
  max_x ← u32 (t_width t - MARGIN);
  y ← draw_lines max_x MARGIN lines_to_render;
  modify (λ t, set_cursor t MARGIN ((y - LINE_HEIGHT) `max` 0));;
  match last lines_to_render with
  | Some last_line =>
      '(cx, _) ← liftO (rows_from max_x MARGIN 1 (line_chars last_line));
      modify (λ t, set_cursor t cx (t_cy t))
  | None => mret tt
  end.

Definition newline : M () :=
  modify (λ t, let lines := t_lines t ++ [[]] in
               set_lines t (if decide (len lines > MAX_SCROLLBACK_LINES) then drop (Z.to_nat (len lines - MAX_SCROLLBACK_LINES)) lines else lines));;
  t ← gets id;
  y ← u32 (t_cy t + LINE_HEIGHT);
  modify (λ t, set_cursor t MARGIN y);;
  bottom ← u32 (y + LINE_HEIGHT);
  limit ← u32 (t_height t - MARGIN);
  if decide (bottom > limit) then render_visible_lines else mret tt.

(** ** Writing and clearing *)
Definition clear : M () :=
  modify (λ t, set_lines t [[]]);;
  t ← gets id;
  fb_fill 0 0 (t_width t) (t_height t) COLOUR_BACKGROUND;;
  flush;;
  modify (λ t, set_cursor t MARGIN MARGIN).

Definition clear_to_end_of_line : M () :=
  t ← gets id;
  w ← u32 (t_width t - t_cx t);
  w ← u32 (w - MARGIN);
  fb_fill (t_cx t) (t_cy t) w LINE_HEIGHT COLOUR_BACKGROUND.

Definition clear_region (region : ClearRegion) : M () :=
  match region with
  | CScreen => clear
  | CToEndOfScreen =>
      clear_to_end_of_line;;
      t ← gets id;
      y_start ← u32 (t_cy t + LINE_HEIGHT);
      limit ← u32 (t_height t - MARGIN);
      if decide (y_start < limit) then
        w ← u32 (t_width t - 2 * MARGIN);
        h ← u32 (t_height t - y_start);
        h ← u32 (h - MARGIN);
        fb_fill MARGIN y_start w h COLOUR_BACKGROUND
      else mret tt
  | CToEndOfLine => clear_to_end_of_line
  | CLine =>
      t ← gets id;
      w ← u32 (t_width t - 2 * MARGIN);
      fb_fill MARGIN (t_cy t) w LINE_HEIGHT COLOUR_BACKGROUND;;
      modify (λ t, set_cursor t MARGIN (t_cy t))
  end;;
  flush.

(** One character, after a line break when it does not fit. *)
Definition write_char (max_x ch colour : Z) : M () :=
  t ← gets id;
  x ← u32 (t_cx t + measure_char ch);
  (if decide (x > max_x) then newline else mret tt);;
  emit_char ch colour.

Definition write_word (max_x colour : Z) (w : Word) : M () :=
  match w with
  | WNewline => newline
  | WWhitespace ws => for_each ws (λ ch, write_char max_x ch colour)
  | WText text =>
      word_width ← liftO (measure_text text);
      t ← gets id;
      (if decide (t_cx t > MARGIN) then
         x ← u32 (t_cx t + word_width);
         if decide (x > max_x) then newline else mret tt
       else mret tt);;
      for_each text (λ ch, write_char max_x ch colour)
  end.

Definition write_str_coloured (s : list Z) (colour : Z) : M () :=
  t ← gets id;
  max_x ← u32 (t_width t - MARGIN);
  for_each (words s) (write_word max_x colour).
Definition write_str (s : list Z) : M () := write_str_coloured s COLOUR_DEFAULT_FG.
Definition write_line (s : list Z) : M () := write_str s;; newline.

Definition backspace_width (char_width : Z) : M () :=
  t ← gets id;
  if decide (t_cx t > MARGIN) then
    let x := (t_cx t - char_width) `max` 0 in
    modify (λ t, set_cursor t x (t_cy t));;
    fb_fill x (t_cy t) char_width LINE_HEIGHT COLOUR_BACKGROUND
  else mret tt.

(** ** Values *)
Fixpoint count_digits (fuel : nat) (v : Z) : Z :=
  match fuel with
  | O => 0
  | S fuel => if decide (v > 0) then 1 + count_digits fuel (v / 10) else 0
  end.
(** The [Int] case: [wrapping_neg] keeps the least value negative. *)
Definition int_width (n : Z) : Z :=
  if decide (n = 0) then 1
  else if decide (n < 0) then 1 + count_digits 20 (wrap_i 64 (- n)) else count_digits 20 n.

Definition bytes_text (n : Z) : list Z := lit "<" ++ decimal n ++ lit " bytes>".

Definition zsum (l : list Z) : Z := foldr Z.add 0 l.

Fixpoint measure_value_width (v : Value) : Z :=
  match v with
  | VNull => 4
  | VBool b => if b then 4 else 5
  | VInt n => int_width n
  | VFloat f => len (string_of (fmt_f64 f))
  | VString s => len s
  | VBytes data => len (bytes_text (len data))
  | VArray items =>
      match items with
      | [] => 2
      | _ => 2 + zsum (List.map measure_value_width items) + (len items - 1) * 2
      end
  | VMap fields =>
      match fields with
      | [] => 2
      | _ => 2 + zsum (List.map (λ kv, match kv with (k, v) => len k + 2 + measure_value_width v end) fields) + (len fields - 1) * 2
      end
  | VStyled _ inner => measure_value_width inner
  | VLink _ inner => measure_value_width inner
  | VTable _ => 7
  end.

(** The items of an array and of a map. *)
Fixpoint render_items (i : nat) (items : list (M ())) : M () :=
  match items with
  | [] => mret tt
  | item :: items =>
      (if decide (0 < i)%nat then newline else mret tt);;
      write_str (lit "  - ");;
      item;;
      render_items (S i) items
  end.
Fixpoint render_fields (i : nat) (fields : list (list Z * M ())) : M () :=
  match fields with
  | [] => mret tt
  | (k, item) :: fields =>
      (if decide (0 < i)%nat then newline else mret tt);;
      write_str k;;
      write_str (lit ": ");;
      item;;
      render_fields (S i) fields
  end.

(** Widths of columns: the cells of a row beyond them are not measured. *)
Fixpoint widen (col_widths row : list Z) : list Z :=
  match col_widths, row with
  | w :: ws, r :: rs => w `max` r :: widen ws rs
  | ws, _ => ws
  end.

Definition emit_n (n : Z) (ch : Z) : M () := for_each (upto n) (λ _, emit_char ch COLOUR_DEFAULT_FG).

(** The cells of a row, each with its width, padded but for the last. *)
Fixpoint render_row (col_widths : list Z) (i n : nat) (row : list (M () * Z)) : M () :=
  match row with
  | [] => mret tt
  | (cell, content_width) :: row =>
      (if decide (0 < i)%nat then write_str (lit "  ") else mret tt);;
      cell;;
      (if decide (i < n - 1)%nat then emit_n ((default 0 (col_widths !! i) - content_width) `max` 0) 32 else mret tt);;
      render_row col_widths (S i) n row
  end.

Definition render_table (num_cols : Z) (headers : option (list (M () * Z))) (cells : list (M () * Z)) : M () :=
  if decide (num_cols = 0) then mret tt
  else
    rows ← liftO (chunks num_cols cells);
    let widths := replicate (Z.to_nat num_cols) 0 in
    let widths := match headers with Some hs => widen widths (hs.*2) | None => widths end in
    let col_widths := foldl (λ ws row, widen ws (row.*2)) widths rows in
    match headers with
    | Some hs =>
        render_row col_widths 0 (length hs) hs;;
        newline;;
        emit_n (zsum col_widths + (num_cols - 1) * 2) 45;;
        newline
    | None => mret tt
    end;;
    for_each rows (λ row, render_row col_widths 0 (length row) row;; newline);;
    flush.

Fixpoint render_value (v : Value) : M () :=
  match v with
  | VNull => write_str (lit "null")
  | VBool b => write_str (if b then lit "true" else lit "false")
  | VInt i => write_str (decimal i)
  | VFloat f => write_str (fmt_f64 f)
  | VString s => write_str (chars s)
  | VBytes b => write_str (bytes_text (len b))
  | VArray arr => render_items 0 (List.map render_value arr)
  | VMap map => render_fields 0 (List.map (λ kv, match kv with (k, v) => (chars k, render_value v) end) map)
  | VStyled style inner =>
      let fg := match foreground style with Some c => colour_to_argb c | None => COLOUR_DEFAULT_FG end in
      match inner with
      | VString s => write_str_coloured (chars s) fg
      | _ => render_value inner
      end
  | VLink url inner =>
      render_value inner;;
      write_str (lit " (");;
      write_str (chars url);;
      write_str (lit ")")
  | VTable table =>
      render_table (cols table)
        (match headers table with Some hs => Some (List.map (λ c, (render_value c, measure_value_width c)) hs) | None => None end)
        (List.map (λ c, (render_value c, measure_value_width c)) (cells table))
  end.

(** ** Requests of the child *)
Definition send_event (handle : Z) (e : Event) : M () :=
  bytes ← liftO (match Event_to_bytes e with Ok b => Ok b | Err _ | Panic => Panic | OutOfFuel => OutOfFuel end);
  modify (λ t, set_world t (w_send handle bytes (t_world t))).

(** A division of [u32]. *)
Definition u32_div (a b : Z) : M Z := if decide (b = 0) then liftO Panic else mret (a / b).

Definition answer_query (q : TerminalQuery) : M QueryResponse :=
  t ← gets id;
  match q with
  | QSize =>
      w ← u32 (t_width t - 2 * MARGIN);
      cols ← u32_div w (t_avg t);
      h ← u32 (t_height t - 2 * MARGIN);
      mret (QRSize (wrap_u 16 cols) (wrap_u 16 (h / LINE_HEIGHT)))
  | QCapabilities => mret (QRCapabilities (mkTerminalCapabilities CSTrueColour false false true))
  | QCursorPosition =>
      x ← u32 (t_cx t - MARGIN);
      col ← u32_div x (t_avg t);
      y ← u32 (t_cy t - MARGIN);
      mret (QRCursorPosition (wrap_u 16 (y / LINE_HEIGHT)) (wrap_u 16 col))
  end.

Definition term_handle_request (msg : Request) (child_handle : Z) : M () :=
  match msg with
  | RError v => write_str_coloured (lit "[ERROR] ") 0xFFFF0000;; render_value v;; newline;; flush
  | RWarning v => write_str_coloured (lit "[WARN] ") 0xFFFFFF00;; render_value v;; newline;; flush
  | RWrite v => render_value v;; flush
  | RMoveCursor row col =>
      t ← gets id;
      dx ← u32 (col * t_avg t);
      x ← u32 (MARGIN + dx);
      dy ← u32 (row * LINE_HEIGHT);
      y ← u32 (MARGIN + dy);
      modify (λ t, set_cursor t x y)
  | RClear region => clear_region region
  | RRequestInput req =>
      match ireq_prompt req with Some prompt => render_value prompt | None => mret tt end;;
      modify (λ t, set_pending t (Some (mkPending (ireq_id req) (ireq_kind req) child_handle [])))
  | RSetTitle _ => mret tt
  | RProgress current total message =>
      percent ← (if decide (total > 0) then c ← u32 (current * 100); mret (c / total) else mret 0);
      write_str (lit "[" ++ decimal percent ++ lit "%] " ++ chars message);;
      newline;;
      flush
  | RQuery query => response ← answer_query query; send_event child_handle (EQueryResponse response)
  | RExit _ => mret tt
  end.

(** The messages one after the other, as the receiving calls return them; an
    empty one ends the loop like an error. *)
Fixpoint process_child_messages (handle : Z) (msgs : list (list Z)) : M () :=
  match msgs with
  | [] => mret tt
  | buf :: msgs =>
      if decide (buf = []) then mret tt
      else
        match Request_from_bytes buf with
        | Ok (msg, _) => term_handle_request msg handle
        | Err _ =>
            match Value_from_bytes buf with
            | Ok value => render_value value;; flush
            | Err _ => mret tt
            | Panic => liftO Panic
            | OutOfFuel => liftO OutOfFuel
            end
        | Panic => liftO Panic
        | OutOfFuel => liftO OutOfFuel
        end;;
        process_child_messages handle msgs
  end.

(** ** Commands *)
Definition resolve_command (cmd : list Z) : M (option (list Z)) :=
  if decide (47 ∈ cmd) then mret (Some (lit "file:" ++ cmd))
  else
    let mnt_path := lit "file:/mnt/" ++ cmd in
    ok ← call (w_stat mnt_path);
    if (ok : bool) then mret (Some mnt_path)
    else
      let initrd_path := lit "file:/initrd/" ++ cmd in
      ok ← call (w_stat initrd_path);
      if (ok : bool) then mret (Some initrd_path) else mret None.

Definition execute_single_command (stage : PipelineStage) : M () :=
  path ← resolve_command (stage_cmd stage);
  match path with
  | None => write_line (stage_cmd stage ++ lit ": command not found")
  | Some path =>
      child ← call (w_spawn (mkSpawn path (stage_args stage) None None));
      match child with
      | Some child => modify (λ t, set_children t (Some child) [])
      | None => write_line (stage_cmd stage ++ lit ": failed to execute")
      end
  end.

Definition wait_for (handle : Z) : M () := _ ← call (w_wait handle); mret tt.

(** A stage that cannot start: the ones before it are waited for. *)
Definition abandon_pipeline (message : list Z) : M () :=
  write_line message;;
  t ← gets id;
  for_each (t_pipeline t) wait_for;;
  modify (λ t, set_children t (t_child t) []).

(** The stages from the [i]-th on; [false] when one could not start. *)
Fixpoint spawn_stages (channels : list (Z * Z)) (n i : nat) (stages : list PipelineStage) : M bool :=
  match stages with
  | [] => mret true
  | stage :: stages =>
      path ← resolve_command (stage_cmd stage);
      match path with
      | None => abandon_pipeline (stage_cmd stage ++ lit ": command not found");; mret false
      | Some path =>
          stdin ← (if decide (0 < i)%nat then c ← liftO (index channels (Z.of_nat i - 1)); mret (Some c.1) else mret None);
          stdout ← (if decide (i < n - 1)%nat then c ← liftO (index channels (Z.of_nat i)); mret (Some c.2) else mret None);
          child ← call (w_spawn (mkSpawn path (stage_args stage) stdin stdout));
          match child with
          | Some child =>
              modify (λ t, set_children t (t_child t) (t_pipeline t ++ [child]));;
              spawn_stages channels n (S i) stages
          | None => abandon_pipeline (stage_cmd stage ++ lit ": failed to execute");; mret false
          end
      end
  end.

Fixpoint create_channels (n : nat) : M (option (list (Z * Z))) :=
  match n with
  | O => mret (Some [])
  | S n =>
      c ← call w_pair;
      match c with
      | None => write_line (lit "failed to create pipeline channel");; mret None
      | Some c => cs ← create_channels n; mret ((cons c) <$> cs)
      end
  end.

Definition execute_pipeline (stages : list PipelineStage) : M () :=
  modify (λ t, set_children t None []);;
  if decide (stages = []) then mret tt
  else
    channels ← create_channels (length stages - 1);
    match channels with
    | None => mret tt
    | Some channels =>
        ok ← spawn_stages channels (length stages) 0 stages;
        if (ok : bool) then modify (λ t, set_children t (last (t_pipeline t)) (t_pipeline t)) else mret tt
    end.

Definition execute_command : M () :=
  t ← gets id;
  match parse_pipeline (t_line t) with
  | None => mret tt
  | Some [stage] =>
      if decide (stage_cmd stage = lit "clear") then clear
      else if decide (stage_cmd stage = lit "exit") then fail (Exited 0)
      else execute_single_command stage
  | Some stages => execute_pipeline stages
  end.

Definition handle_child_exit (handle : Z) : M () :=
  t ← gets id;
  (if decide (t_child t = Some handle) then
     exit_code ← call (w_wait handle);
     (if decide (exit_code ≠ 0) then write_line (lit "(exited with code " ++ decimal exit_code ++ lit ")") else mret tt);;
     modify (λ t, set_pending (set_children t None (t_pipeline t)) None)
   else mret tt);;
  for_each (filter (λ h, h = handle) (t_pipeline t)) wait_for;;
  modify (λ t, set_children t (t_child t) (filter (λ h, h ≠ handle) (t_pipeline t))).

(** ** Input *)
Definition send_input_response (value : option InputValue) : M () :=
  t ← gets id;
  match t_pending t with
  | None => mret tt
  | Some pending =>
      modify (λ t, set_pending t None);;
      send_event (pi_handle pending) (EInput (mkInputResponse (pi_id pending) value))
  end.

Definition handle_input_char (ch : Z) : M () :=
  t ← gets id;
  match t_pending t with
  | None => mret tt
  | Some pending =>
      match pi_kind pending with
      | KChar => emit_char ch (t_fg t);; flush;; send_input_response (Some (IChar ch))
      | KLine | KPassword =>
          emit_char (if decide (pi_kind pending = KPassword) then 42 else ch) (t_fg t);;
          modify (λ t, set_pending t (Some (mkPending (pi_id pending) (pi_kind pending) (pi_handle pending) (pi_buffer pending ++ [ch]))));;
          flush
      | KConfirm =>
          match (if decide (ch = 121 ∨ ch = 89) then Some true else if decide (ch = 110 ∨ ch = 78) then Some false else None) with
          | Some b => emit_char ch (t_fg t);; newline;; flush;; send_input_response (Some (IBool b))
          | None => mret tt
          end
      | KChoice | KRawKeys => mret tt
      end
  end.

Definition handle_input_enter : M () :=
  t ← gets id;
  match t_pending t with
  | None => mret tt
  | Some pending =>
      match pi_kind pending with
      | KLine | KPassword => newline;; flush;; send_input_response (Some (IText (string_of (pi_buffer pending))))
      | _ => mret tt
      end
  end.

Definition handle_input_backspace : M () :=
  t ← gets id;
  match t_pending t with
  | None => mret tt
  | Some pending =>
      match pi_kind pending with
      | KLine | KPassword =>
          match last (pi_buffer pending) with
          | None => mret tt
          | Some removed =>
              modify (λ t, set_pending t (Some (mkPending (pi_id pending) (pi_kind pending) (pi_handle pending) (removelast (pi_buffer pending)))));;
              let display_char := if decide (pi_kind pending = KPassword) then 42 else removed in
              unrecord_char;;
              backspace_width (measure_char display_char);;
              flush
          end
      | _ => mret tt
      end
  end.

Definition handle_char (ch : Z) : M () :=
  t ← gets id;
  x ← u32 (t_cx t + measure_char ch);
  limit ← u32 (t_width t - MARGIN);
  (if decide (x > limit) then newline else mret tt);;
  t ← gets id;
  emit_char ch (t_fg t);;
  modify (λ t, set_line t (t_line t ++ [ch]));;
  flush.

Definition handle_enter : M () :=
  t ← gets id;
  match t_pending t with
  | Some _ => handle_input_enter
  | None =>
      newline;;
      (if decide (trim (t_line t) ≠ []) then execute_command else mret tt);;
      modify (λ t, set_line t []);;
      flush
  end.

Definition handle_backspace : M () :=
  t ← gets id;
  match t_pending t with
  | Some _ => handle_input_backspace
  | None =>
      match last (t_line t) with
      | None => mret tt
      | Some ch =>
          modify (λ t, set_line t (removelast (t_line t)));;
          unrecord_char;;
          backspace_width (measure_char ch);;
          flush
      end
  end.

(** A key event, with the state of the shift key. *)
Definition handle_key_event (code : Z) (value : KeyValue) (shift_pressed : bool) : M bool :=
  match value with
  | KPress | KRepeat =>
      if is_shift_key code then mret true
      else
        (if decide (code = KEY_ENTER) then handle_enter
         else if decide (code = KEY_BACKSPACE) then handle_backspace
         else
           match keycode_to_char code shift_pressed with
           | None => mret tt
           | Some ch =>
               t ← gets id;
               match t_pending t, t_child t with
               | Some _, _ => handle_input_char ch
               | None, None => handle_char ch
               | None, Some _ => mret tt
               end
           end);;
        mret shift_pressed
  | KRelease => mret (if is_shift_key code then false else shift_pressed)
  end.

(** The events read from the keyboard: type, code and value; reads of fewer
    than eight bytes are skipped. *)
Fixpoint process_keyboard_events (reads : list (list Z)) (shift_pressed : bool) : M bool :=
  match reads with
  | [] => mret shift_pressed
  | buf :: reads =>
      if decide (buf = []) then mret shift_pressed
      else
        shift ← (if decide (len buf >= 8) then
                   handle_key_event (from_le_bytes (take 2 (drop 2 buf))) (KeyValue_from_u32 (from_le_bytes (take 4 (drop 4 buf)))) shift_pressed
                 else mret shift_pressed);
        process_keyboard_events reads shift
  end.

(** ** The main loop *)
(** A new terminal on its window, with its greeting. *)
Definition start : M () :=
  clear;;
  write_line (lit "Panda OS Terminal");;
  write_line (lit "Type 'help' for available commands.");;
  write_str (lit "> ");;
  flush.

(** What one event of the mailbox carries. *)
Inductive TermEvent : Type :=
  | Keyboard (reads : list (list Z))
  | Readable (handle : Z) (msgs : list (list Z))
  | ChildExited (handle : Z).

Definition handle_event (e : TermEvent) (shift_pressed : bool) : M bool :=
  match e with
  | Keyboard reads => process_keyboard_events reads shift_pressed
  | Readable handle msgs => process_child_messages handle msgs;; mret shift_pressed
  | ChildExited handle => handle_child_exit handle;; write_str (lit "> ");; flush;; mret shift_pressed
  end.

Fixpoint run_events (es : list TermEvent) (shift_pressed : bool) : M bool :=
  match es with
  | [] => mret shift_pressed
  | e :: es => shift ← handle_event e shift_pressed; run_events es shift
  end.
End terminal.
