(* ===== verification/TermProof.v ===== *)
(** * What the terminal shows
    ([userspace/terminal/src/main.rs])

    With a monospaced font whose glyphs lie in their cells the window is a grid
    of characters.  The invariant says which: the last lines of the scrollback,
    pixel by pixel, in the terminal's own buffer and, after a flush, in the
    window. *)

From Stdlib Require Import Ascii String.
From S2P Require Import Prelude Utf8 Text Buffers BTree Encoding Style Value Terminal Effects BlockDevice CompositorProtocol Graphics Pixels TermText Term.

#[local] Open Scope list_scope.

(** ** The font and the window *)
(** Where the bitmap of a glyph begins below the top of its line. *)
Definition g_top (g : Glyph) : Z := FONT_SIZE - g_height g - g_ymin g.

(** A bitmap inside a cell of [cw] by [LINE_HEIGHT]. *)
Record in_cell (cw : Z) (g : Glyph) : Prop := {
  ic_advance : g_advance g = cw;
  ic_width : 0 <= g_width g;
  ic_height : 0 <= g_height g;
  ic_left : 0 <= g_xmin g;
  ic_right : g_xmin g + g_width g <= cw;
  ic_above : 0 <= g_top g;
  ic_below : g_top g + g_height g <= LINE_HEIGHT;
  ic_bitmap : len (g_bitmap g) = g_width g * g_height g;
}.

(** What the terminal relies on: a blit inside the window copies the pixels,
    nothing else it calls changes them, and the digits of a float are few. *)
Class TermWorldLaws (W : Type) `{TermWorld W} : Type := {
  w_dims : W → Z * Z;
  w_surf : W → Z → Z → Pixel;
  w_blit_ok fb x y r w : w_dims w = (pb_width fb, pb_height fb) → r_x r = x → r_y r = y → rect_ok r →
    r_x r + r_width r <= pb_width fb → r_y r + r_height r <= pb_height fb →
    w_dims (w_blit fb x y r w) = w_dims w ∧
    ∀ a b, in_buf fb a b → w_surf (w_blit fb x y r w) a b = if decide (in_rect r a b) then px_of fb a b else w_surf w a b;
  w_flush_ok w : w_dims (w_flush w) = w_dims w ∧ w_surf (w_flush w) = w_surf w;
  w_send_ok h b w : w_dims (w_send h b w) = w_dims w ∧ w_surf (w_send h b w) = w_surf w;
  w_stat_ok p w : w_dims (w_stat p w).1 = w_dims w ∧ w_surf (w_stat p w).1 = w_surf w;
  w_spawn_ok s w : w_dims (w_spawn s w).1 = w_dims w ∧ w_surf (w_spawn s w).1 = w_surf w;
  w_wait_ok h w : w_dims (w_wait h w).1 = w_dims w ∧ w_surf (w_wait h w).1 = w_surf w;
  w_pair_ok w : w_dims (w_pair w).1 = w_dims w ∧ w_surf (w_pair w).1 = w_surf w;
  fmt_short f : len (fmt_f64 (W:=W) f) < 2 ^ 16;
}.

(** ** The picture of a grid of characters *)
Definition BACKGROUND : Pixel := Pixel_of_colour COLOUR_BACKGROUND.
Abbreviation Grid := (list (list (Z * Z))).

Section picture.
Context (font : Z → Glyph) (cw : Z).

(** A pixel of a cell. *)
Definition glyph_pixel (ch fg dx dy : Z) (q : Pixel) : Pixel :=
  let g := font ch in
  let gx := dx - g_xmin g in
  let gy := dy - g_top g in
  if decide (0 <= gx < g_width g ∧ 0 <= gy < g_height g) then
    let coverage := default 0 (g_bitmap g !! Z.to_nat (gy * g_width g + gx)) in
    if decide (coverage = 0) then q
    else alpha_blend (mkPx (px_b (Pixel_of_colour fg)) (px_g (Pixel_of_colour fg)) (px_r (Pixel_of_colour fg)) coverage) q
  else q.

Definition cell_at (grid : Grid) (x y : Z) : option (Z * Z) :=
  if decide (MARGIN <= x ∧ MARGIN <= y) then
    row ← grid !! Z.to_nat ((y - MARGIN) / LINE_HEIGHT);
    row !! Z.to_nat ((x - MARGIN) / cw)
  else None.

Definition picture (grid : Grid) (x y : Z) : Pixel :=
  match cell_at grid x y with
  | Some (ch, fg) => glyph_pixel ch fg ((x - MARGIN) mod cw) ((y - MARGIN) mod LINE_HEIGHT) BACKGROUND
  | None => BACKGROUND
  end.

(** ** Painting *)
Lemma fill_block_ok (p : PixelBuffer) x x_end y y_end c : pb_ok p → 0 <= x → x_end <= pb_width p → 0 <= y → y_end <= pb_height p →
  ∃ p', fill_block (pb_width p) x x_end y y_end c p = Ok p' ∧
    paints p p' (λ a b q, if decide (x <= a < x_end ∧ y <= b < y_end) then c else q).
Proof.
  intros Hok Hx Hxe Hy Hye. unfold fill_block.
  destruct (paints_parts (range y y_end) (λ row p0, for_range (range x x_end) (λ col p1, fill_at (pb_width p) col row c p1) p0)
    (λ i a b, x <= a < x_end ∧ b = i) (λ _ b, b) c p) as (p'&E'&Hp); [done|apply NoDup_range|by intros ? ? ? _ [_ ->]| |].
  { intros i q Hi Hq Hw Hh. apply elem_of_range in Hi.
    destruct (paints_parts (range x x_end) (λ col p1, fill_at (pb_width p) col i c p1) (λ j a b, a = j ∧ b = i) (λ a _, a) c q)
      as (q'&Eq&Hpq); [done|apply NoDup_range|by intros ? ? ? _ [-> _]| |].
    { intros j r Hj Hr Hw' Hh'. apply elem_of_range in Hj. pose proof Hr as (?&?&?). unfold fill_at. rewrite <-Hw, <-Hw'.
      assert (0 <= i * pb_width r + j < pb_width r * pb_height r) by (apply index_range; unfold in_buf; lia).
      rewrite chk_Ok by (unfold in_u; nia). cbn [mbind outcome_bind]. rewrite !chk_Ok by (unfold in_u; lia). cbn [mbind outcome_bind].
      rewrite chk_Ok by (unfold in_u; lia). cbn [mbind outcome_bind]. apply store_at. unfold in_buf. lia. }
    exists q'. split; [done|]. eapply paints_ext; [done|]. intros a b k Hin. apply decide_ext. rewrite elem_of_range. lia. }
  exists p'. split; [done|]. eapply paints_ext; [done|]. intros a b k Hin. apply decide_ext. rewrite elem_of_range. lia.
Qed.

(** One pixel of a bitmap. *)
Definition cover (g : Glyph) (src : Pixel) (gx gy : Z) (q : Pixel) : Pixel :=
  let coverage := default 0 (g_bitmap g !! Z.to_nat (gy * g_width g + gx)) in
  if decide (coverage = 0) then q else alpha_blend (mkPx (px_b src) (px_g src) (px_r src) coverage) q.

Definition cover_step (g : Glyph) (src : Pixel) (glyph_x dst_y width py px : Z) (p : PixelBuffer) : outcome TermExit PixelBuffer :=
  coverage ← index (g_bitmap g) (py * g_width g + px);
  if decide (coverage = 0) then Ok p
  else
    r ← chk 32 (dst_y * width);
    i ← chk 32 (r + (glyph_x + px));
    _ ← chk 32 (i * 4);
    dst ← pb_load p i;
    pb_store i (alpha_blend (mkPx (px_b src) (px_g src) (px_r src) coverage) dst) p.

Lemma glyph_row_loop g src glyph_x dst_y width py cols p : 0 <= glyph_x → (∀ px, px ∈ cols → 0 <= px ∧ glyph_x + px < width) → width < 2 ^ 32 →
  glyph_row g src glyph_x dst_y width py cols p = for_range cols (cover_step g src glyph_x dst_y width py) p.
Proof.
  intros Hg Hc Hw. set (F := cover_step g src glyph_x dst_y width py). revert p. induction cols as [|px cols IH]; intros p; [done|]. cbn [glyph_row for_range].
  destruct (Hc px) as [H0 H1]; [apply list_elem_of_here|]. rewrite (chk_Ok 32 (glyph_x + px)) by (unfold in_u; lia).
  cbn [mbind outcome_bind]. rewrite decide_False by lia.
  change (F px p) with (cover_step g src glyph_x dst_y width py px p). unfold cover_step.
  assert (∀ px0, px0 ∈ cols → 0 <= px0 ∧ glyph_x + px0 < width) as Hc' by (intros; apply Hc; by apply list_elem_of_further).
  destruct (index _ _) as [cov| | |]; cbn [mbind outcome_bind]; try done.
  destruct (decide (cov = 0)); [by apply IH|]. destruct (chk 32 (dst_y * width)) as [r| | |]; cbn [mbind outcome_bind]; try done.
  destruct (chk 32 (r + (glyph_x + px))) as [i| | |]; cbn [mbind outcome_bind]; try done.
  destruct (chk 32 (i * 4)); cbn [mbind outcome_bind]; try done.
  destruct (pb_load p i) as [dst| | |]; cbn [mbind outcome_bind]; try done.
  destruct (pb_store i _ p); cbn [mbind outcome_bind]; try done. by apply IH.
Qed.

Lemma cover_step_ok g src glyph_x dst_y py px q : pb_ok q → in_buf q (glyph_x + px) dst_y → 0 <= py < g_height g → 0 <= px < g_width g →
  len (g_bitmap g) = g_width g * g_height g → 0 <= glyph_x + px →
  ∃ q', cover_step g src glyph_x dst_y (pb_width q) py px q = Ok q' ∧
    paints q q' (λ x y c, if decide (x = glyph_x + px ∧ y = dst_y) then cover g src px py c else c).
Proof.
  intros Hok Hin Hpy Hpx Hb H0. pose proof Hok as (?&?&?). pose proof Hin as [??]. pose proof (index_range q _ _ Hin) as Hi.
  unfold cover_step, cover. assert (0 <= py * g_width g + px < len (g_bitmap g)) as Hr by (rewrite Hb; nia).
  destruct (index_lookup (E:=TermExit) (g_bitmap g) _ Hr) as (cov&Hcov&Ei). rewrite Ei. cbn [mbind outcome_bind]. rewrite Hcov. cbn [default from_option id].
  destruct (decide (cov = 0)).
  { exists q. split; [done|]. apply paints_refl. intros. by destruct (decide _). }
  rewrite chk_Ok by (unfold in_u; nia). cbn [mbind outcome_bind]. rewrite chk_Ok by (unfold in_u; lia). cbn [mbind outcome_bind].
  rewrite chk_Ok by (unfold in_u; lia). cbn [mbind outcome_bind]. unfold pb_load. rewrite decide_True by done. cbn [mbind outcome_bind].
  destruct (store_at (E:=TermExit) q (glyph_x + px) dst_y (alpha_blend (mkPx (px_b src) (px_g src) (px_r src) cov)
    (pb_at q (dst_y * pb_width q + (glyph_x + px)))) Hin) as (q'&Eq&[Hw Hh P]).
  exists q'. split; [done|]. split; [done|done|]. intros x y Hxy. rewrite P by done. by destruct (decide _) as [[-> ->]|].
Qed.

Lemma glyph_row_ok g src glyph_x dst_y py q : pb_ok q → 0 <= glyph_x → glyph_x + g_width g <= pb_width q → 0 <= dst_y < pb_height q →
  0 <= py < g_height g → len (g_bitmap g) = g_width g * g_height g → pb_width q < 2 ^ 32 →
  ∃ q', glyph_row g src glyph_x dst_y (pb_width q) py (range 0 (g_width g)) q = Ok q' ∧
    paints q q' (λ x y c, if decide (0 <= x - glyph_x < g_width g ∧ y = dst_y) then cover g src (x - glyph_x) py c else c).
Proof.
  intros Hok Hx Hxe Hy Hpy Hb Hw. rewrite glyph_row_loop; [|done| |done].
  2: { intros px Hpx. apply elem_of_range in Hpx. lia. }
  destruct (paints_loop (range 0 (g_width g)) (cover_step g src glyph_x dst_y (pb_width q) py)
    (λ px x y c, if decide (x = glyph_x + px ∧ y = dst_y) then cover g src px py c else c) q Hok) as (q'&E'&Hp).
  { intros px r Hpx Hr Hwr Hhr. apply elem_of_range in Hpx. rewrite <-Hwr. apply cover_step_ok; try done; [unfold in_buf; lia|lia]. }
  exists q'. split; [done|]. eapply paints_ext; [done|]. intros x y c Hin. cbv beta.
  rewrite (foldl_once _ _ (x - glyph_x)); [|apply NoDup_range|intros; rewrite decide_False; [done|lia]].
  destruct (decide (x - glyph_x ∈ range 0 (g_width g))) as [Hr|Hr]; rewrite elem_of_range in Hr.
  - destruct (decide (y = dst_y)); [rewrite !decide_True by lia|rewrite !decide_False by lia]; done.
  - rewrite decide_False by lia. done.
Qed.

Definition row_step (g : Glyph) (src : Pixel) (glyph_x glyph_y width py : Z) (p : PixelBuffer) : outcome TermExit PixelBuffer :=
  glyph_row g src glyph_x (glyph_y + py) width py (range 0 (g_width g)) p.

Lemma glyph_rows_loop g src glyph_x glyph_y width height rows p : 0 <= glyph_y → (∀ py, py ∈ rows → 0 <= py ∧ glyph_y + py < height) → height < 2 ^ 32 →
  glyph_rows g src glyph_x glyph_y width height rows p = for_range rows (row_step g src glyph_x glyph_y width) p.
Proof.
  intros Hg Hc Hw. revert p. induction rows as [|py rows IH]; intros p; [done|]. cbn [glyph_rows for_range].
  destruct (Hc py) as [H0 H1]; [apply list_elem_of_here|]. rewrite (chk_Ok 32 (glyph_y + py)) by (unfold in_u; lia).
  cbn [mbind outcome_bind]. rewrite decide_False by lia.
  change (row_step g src glyph_x glyph_y width py p) with (glyph_row g src glyph_x (glyph_y + py) width py (range 0 (g_width g)) p).
  destruct (glyph_row _ _ _ _ _ _ _ p); cbn [mbind outcome_bind]; try done.
  apply IH. intros; apply Hc; by apply list_elem_of_further.
Qed.

Lemma glyph_ok g src glyph_x glyph_y p : pb_ok p → 0 <= glyph_x → glyph_x + g_width g <= pb_width p →
  0 <= glyph_y → glyph_y + g_height g <= pb_height p → len (g_bitmap g) = g_width g * g_height g →
  pb_width p < 2 ^ 32 → pb_height p < 2 ^ 32 →
  ∃ p', glyph_rows g src glyph_x glyph_y (pb_width p) (pb_height p) (range 0 (g_height g)) p = Ok p' ∧
    paints p p' (λ x y c, if decide (0 <= x - glyph_x < g_width g ∧ 0 <= y - glyph_y < g_height g)
                          then cover g src (x - glyph_x) (y - glyph_y) c else c).
Proof.
  intros Hok Hx Hxe Hy Hye Hb Hw Hh. rewrite glyph_rows_loop; [|done| |done].
  2: { intros py Hpy. apply elem_of_range in Hpy. lia. }
  destruct (paints_loop (range 0 (g_height g)) (row_step g src glyph_x glyph_y (pb_width p))
    (λ py x y c, if decide (0 <= x - glyph_x < g_width g ∧ y = glyph_y + py) then cover g src (x - glyph_x) py c else c) p Hok) as (p'&E'&Hp).
  { intros py r Hpy Hr Hwr Hhr. apply elem_of_range in Hpy. unfold row_step. rewrite <-Hwr. apply glyph_row_ok; (done || lia). }
  exists p'. split; [done|]. eapply paints_ext; [done|]. intros x y c Hin. cbv beta.
  rewrite (foldl_once _ _ (y - glyph_y)); [|apply NoDup_range|intros; rewrite decide_False; [done|lia]].
  destruct (decide (y - glyph_y ∈ range 0 (g_height g))) as [Hr|Hr]; rewrite elem_of_range in Hr.
  - destruct (decide (0 <= x - glyph_x < g_width g)); [rewrite !decide_True by lia|rewrite !decide_False by lia]; done.
  - rewrite decide_False by lia. done.
Qed.
End picture.

(** ** Lines *)
Lemma lookup_on_last {A} (f : A → A) l (i : nat) : on_last f l !! i = if decide (S i = length l) then f <$> l !! i else l !! i.
Proof.
  revert i. induction l as [|x l IH]; intros i; [by destruct i|]. destruct l as [|y l].
  - destruct i as [|i]; [done|]. rewrite decide_False by (simpl; lia). done.
  - change (on_last f (x :: y :: l)) with (x :: on_last f (y :: l)). destruct i as [|i]; [rewrite decide_False by (simpl; lia); done|].
    change ((x :: on_last f (y :: l)) !! S i) with (on_last f (y :: l) !! i). rewrite IH. change ((x :: y :: l) !! S i) with ((y :: l) !! i).
    destruct (decide (S i = length (y :: l))); [rewrite decide_True by (simpl in *; lia)|rewrite decide_False by (simpl in *; lia)]; done.
Qed.

Lemma length_on_last {A} (f : A → A) l : length (on_last f l) = length l.
Proof. induction l as [|x [|y l] IH]; [done|done|]. change (length (x :: on_last f (y :: l)) = length (x :: y :: l)). simpl in *. lia. Qed.

Lemma on_last_app {A} (f : A → A) pre l : l ≠ [] → on_last f (pre ++ l) = pre ++ on_last f l.
Proof.
  intros Hl. induction pre as [|x pre IH]; [done|]. cbn [app]. rewrite <-IH.
  destruct (pre ++ l) eqn:E; [by destruct pre, l|done].
Qed.

Lemma on_last_fmap {A B} (f : A → A) (g : B → B) (h : A → B) l : Forall (λ x, h (f x) = g (h x)) l → h <$> on_last f l = on_last g (h <$> l).
Proof.
  induction l as [|x [|y l] IH]; intros Hl; [done|apply Forall_cons in Hl as [E _]; cbn; by rewrite E|]. apply Forall_cons in Hl as [_ Hl].
  change (h x :: (h <$> on_last f (y :: l)) = h x :: on_last g (h <$> (y :: l))). by rewrite IH.
Qed.

Lemma on_last_Forall {A} (P : A → Prop) (f : A → A) l : Forall P l → (∀ x, P x → last l = Some x → P (f x)) → Forall P (on_last f l).
Proof.
  induction l as [|x [|y l] IH]; intros Hl Hf; [done|apply Forall_cons in Hl as [Hx _]; apply Forall_singleton; by apply Hf|].
  apply Forall_cons in Hl as [Hx Hl]. change (Forall P (x :: on_last f (y :: l))). apply Forall_cons. split; [done|]. by apply IH.
Qed.

Lemma line_chars_cons s l : line_chars (s :: l) = ((λ ch, (ch, seg_colour s)) <$> seg_text s) ++ line_chars l.
Proof. done. Qed.

Lemma push_char_chars ch c l : line_chars (push_char ch c l) = line_chars l ++ [(ch, c)].
Proof.
  induction l as [|s [|s' l] IH]; [done| |].
  - cbn [push_char]. destruct (decide _) as [<-|].
    + rewrite !line_chars_cons. cbn [seg_text seg_colour]. rewrite fmap_app, !app_nil_r. done.
    + rewrite !line_chars_cons. cbn. by rewrite app_nil_r.
  - change (push_char ch c (s :: s' :: l)) with (s :: push_char ch c (s' :: l)). rewrite !(line_chars_cons s), IH. by rewrite app_assoc.
Qed.

Definition segs_ok (l : Line) : Prop := Forall (λ s, seg_text s ≠ []) l.

Lemma push_char_ok ch c l : segs_ok l → segs_ok (push_char ch c l).
Proof.
  unfold segs_ok. induction l as [|s [|s' l] IH]; intros Hl; [by apply Forall_singleton| |].
  - cbn [push_char]. apply Forall_cons in Hl as [Hs _]. destruct (decide _); [apply Forall_singleton|]; cbn.
    + intros E. by destruct (seg_text s).
    + apply Forall_cons. split; [done|]. by apply Forall_singleton.
  - apply Forall_cons in Hl as [Hs Hl]. change (push_char ch c (s :: s' :: l)) with (s :: push_char ch c (s' :: l)). apply Forall_cons. auto.
Qed.

Lemma removelast_app_ne {A} (l1 l2 : list A) : l2 ≠ [] → removelast (l1 ++ l2) = l1 ++ removelast l2.
Proof. apply removelast_app. Qed.

Lemma removelast_fmap {A B} (f : A → B) l : removelast (f <$> l) = f <$> removelast l.
Proof. induction l as [|x [|y l] IH]; [done|done|]. change (f x :: removelast (f <$> (y :: l)) = f x :: (f <$> removelast (y :: l))). by rewrite IH. Qed.

Lemma pop_char_chars l : segs_ok l → line_chars (pop_char l) = removelast (line_chars l).
Proof.
  unfold segs_ok. induction l as [|s [|s' l] IH]; intros Hl; [done| |].
  - rewrite line_chars_cons. cbn [pop_char]. change (line_chars []) with (@nil (Z * Z)). rewrite app_nil_r, removelast_fmap.
    destruct (removelast (seg_text s)); [done|]. rewrite line_chars_cons. cbn [seg_text seg_colour]. by rewrite app_nil_r.
  - apply Forall_cons in Hl as [Hs Hl]. change (pop_char (s :: s' :: l)) with (s :: pop_char (s' :: l)).
    rewrite !(line_chars_cons s), IH by done. rewrite removelast_app_ne; [done|]. rewrite line_chars_cons.
    apply Forall_cons in Hl as [Hs' _]. by destruct (seg_text s').
Qed.

Lemma pop_char_ok l : segs_ok l → segs_ok (pop_char l).
Proof.
  unfold segs_ok. induction l as [|s [|s' l] IH]; intros Hl; [done| |].
  - cbn [pop_char]. destruct (removelast (seg_text s)); [done|]. by apply Forall_singleton.
  - apply Forall_cons in Hl as [Hs Hl]. change (pop_char (s :: s' :: l)) with (s :: pop_char (s' :: l)). apply Forall_cons. auto.
Qed.

Section screen.
Context {W : Type} `{TermWorldLaws W} (font : Z → Glyph) (cw w h : Z).
Implicit Types t : Term W.

Record geometry : Prop := {
  geo_cw : 0 < cw;
  geo_w : 2 * MARGIN + cw <= w < 2 ^ 15;
  geo_h : 2 * MARGIN + LINE_HEIGHT <= h < 2 ^ 15;
  geo_rows : (h - 2 * MARGIN) / LINE_HEIGHT <= MAX_SCROLLBACK_LINES;
  geo_font ch : in_cell cw (font ch);
}.
Context (Hgeo : geometry).

Definition on_canvas (x y : Z) : Prop := 0 <= x < w ∧ 0 <= y < h.

(** The window shows the buffer outside the dirty region and outside [R]. *)
Definition shown_but (R : Z → Z → Prop) t : Prop :=
  match t_dirty t with
  | None => ∀ x y, on_canvas x y → ¬ R x y → w_surf (t_world t) x y = px_of (t_fb t) x y
  | Some d => 0 <= d_x0 d <= d_x1 d ∧ d_x1 d <= w ∧ 0 <= d_y0 d <= d_y1 d ∧ d_y1 d <= h ∧
      ∀ x y, on_canvas x y → ¬ (d_x0 d <= x < d_x1 d ∧ d_y0 d <= y < d_y1 d) → ¬ R x y →
        w_surf (t_world t) x y = px_of (t_fb t) x y
  end.

(** The buffer is the picture [pic]. *)
Record canvas_but (R : Z → Z → Prop) t (pic : Z → Z → Pixel) : Prop := {
  cv_width : t_width t = w;
  cv_height : t_height t = h;
  cv_fbw : pb_width (t_fb t) = w;
  cv_fbh : pb_height (t_fb t) = h;
  cv_dims : w_dims (t_world t) = (w, h);
  cv_px x y : on_canvas x y → px_of (t_fb t) x y = pic x y;
  cv_shown : shown_but R t;
  cv_cache ch g : t_cache t !! ch = Some g → g = font ch;
}.
Definition canvas := canvas_but (λ _ _, False).

(** What drawing leaves alone. *)
Definition rest_of t := (t_line t, t_child t, t_pipeline t, t_pending t, t_fg t, t_avg t).

Lemma fb_is_ok R t pic : canvas_but R t pic → pb_ok (t_fb t).
Proof. intros [? ? Hw Hh _ _ _ _]. destruct Hgeo as [? [??] [??] _ _]. unfold pb_ok, MARGIN, LINE_HEIGHT in *. rewrite Hw, Hh. nia. Qed.

Lemma canvas_ext R t pic pic' : (∀ x y, on_canvas x y → pic x y = pic' x y) → canvas_but R t pic → canvas_but R t pic'.
Proof. intros E [? ? ? ? ? P ? ?]. split; try done. intros x y Hin. by rewrite <-E, P. Qed.

Definition drawn_of t := (t_width t, t_height t, t_fb t, t_world t, t_dirty t, t_cache t).
Lemma canvas_same R t t' pic : drawn_of t' = drawn_of t → canvas_but R t pic → canvas_but R t' pic.
Proof. intros [= Ew Eh Ef Ewo Ed Ec] [? ? ? ? ? ? Sh ?]. split; unfold shown_but in *; rewrite ?Ew, ?Eh, ?Ef, ?Ewo, ?Ed, ?Ec; done. Qed.

Lemma mark_dirty_ok R t pic x y ww hh : canvas_but R t pic → 0 <= x → 0 <= ww → x + ww <= w → 0 <= y → 0 <= hh → y + hh <= h →
  (∀ a b, on_canvas a b → R a b → x <= a < x + ww ∧ y <= b < y + hh) →
  spec (term_mark_dirty x y ww hh) t
    (λ _ t', canvas t' pic ∧ t_cx t' = t_cx t ∧ t_cy t' = t_cy t ∧ t_lines t' = t_lines t ∧ rest_of t' = rest_of t) (λ _ _, False).
Proof.
  intros Hcv Hx Hww Hxe Hy Hhh Hye HR. destruct Hgeo as [_ [_ Hw] [_ Hh] _ _]. unfold term_mark_dirty, u32.
  eapply spec_bind_Ok; [apply chk_ok; unfold in_u; lia|]. eapply spec_bind_Ok; [apply chk_ok; unfold in_u; lia|].
  apply spec_bind_gets. cbv zeta. unfold id. destruct Hcv as [E1 E2 E3 E4 E5 P Sh C]. rewrite E1, E2, !Z.min_l by lia.
  unfold shown_but in Sh. destruct (t_dirty t) as [d|] eqn:Ed.
  - eapply spec_bind_Ok; [apply chk_ok; unfold in_u; lia|]. eapply spec_bind_Ok; [apply chk_ok; unfold in_u; lia|].
    unfold DirtyRect_expand. eapply spec_bind_Ok.
    { rewrite chk_Ok by (unfold in_u; lia). cbn [mbind outcome_bind]. rewrite chk_Ok by (unfold in_u; lia). cbn [mbind outcome_bind]. done. }
    apply spec_modify. split; [|done]. split; try done. unfold shown_but. cbn [t_dirty set_dirty d_x0 d_x1 d_y0 d_y1 t_world t_fb].
    destruct Sh as (?&?&?&?&Sh). split_and!; try lia. intros a b Hin Hout _. apply Sh; [done|lia|]. intros Hr. apply HR in Hr; [|done]. lia.
  - apply spec_modify. split; [|done]. split; try done. unfold shown_but. cbn [t_dirty set_dirty d_x0 d_x1 d_y0 d_y1 t_world t_fb].
    split_and!; try lia. intros a b Hin Hout _. apply Sh; [done|]. intros Hr. apply HR in Hr; [|done]. lia.
Qed.

(** A picture with a rectangle of another. *)
Definition patch (x y ww hh : Z) (new old : Z → Z → Pixel) (a b : Z) : Pixel :=
  if decide (x <= a < x + ww ∧ y <= b < y + hh) then new a b else old a b.

(** New contents of the buffer, not yet marked. *)
Lemma paints_canvas R t pic fb f x y ww hh : canvas_but R t pic → paints (t_fb t) fb f →
  (∀ a b, on_canvas a b → R a b → x <= a < x + ww ∧ y <= b < y + hh) →
  (∀ a b c, on_canvas a b → ¬ (x <= a < x + ww ∧ y <= b < y + hh) → f a b c = c) →
  canvas_but (λ a b, x <= a < x + ww ∧ y <= b < y + hh) (set_fb t fb) (λ a b, f a b (pic a b)).
Proof.
  intros [E1 E2 E3 E4 E5 P Sh C] Hp HR Hf. pose proof Hp as [Hw Hh Hpx].
  assert (∀ a b, on_canvas a b → in_buf (t_fb t) a b) as Hin by (unfold on_canvas, in_buf; by rewrite E3, E4).
  split; cbn [set_fb t_width t_height t_fb t_world t_cache]; try done; try congruence.
  - intros a b Hab. rewrite Hpx by auto. by rewrite P.
  - unfold shown_but in *. cbn [set_fb t_dirty t_world t_fb]. destruct (t_dirty t) as [d|].
    + destruct Sh as (?&?&?&?&Sh). split_and!; try lia. intros a b Hab Hout Hr. rewrite Hpx by auto. rewrite Hf by done. apply Sh; [done..|]. intros HRab. by apply Hr, HR.
    + intros a b Hab Hr. rewrite Hpx by auto. rewrite Hf by done. apply Sh; [done|]. intros HRab. by apply Hr, HR.
Qed.

Lemma fb_fill_ok R t pic x y ww hh colour : canvas_but R t pic → 0 <= x → 0 <= ww → x + ww <= w → 0 <= y → 0 <= hh → y + hh <= h →
  (∀ a b, on_canvas a b → R a b → x <= a < x + ww ∧ y <= b < y + hh) →
  spec (fb_fill x y ww hh colour) t
    (λ _ t', canvas t' (patch x y ww hh (λ _ _, Pixel_of_colour colour) pic) ∧ t_cx t' = t_cx t ∧ t_cy t' = t_cy t ∧ t_lines t' = t_lines t
      ∧ rest_of t' = rest_of t) (λ _ _, False).
Proof.
  intros Hcv Hx Hww Hxe Hy Hhh Hye HR. pose proof Hgeo as [_ [_ Hw] [_ Hh] _ _]. pose proof (fb_is_ok _ _ _ Hcv) as Hok. unfold fb_fill, u32.
  eapply spec_bind_Ok; [apply chk_ok; unfold in_u; lia|]. eapply spec_bind_Ok; [apply chk_ok; unfold in_u; lia|].
  apply spec_bind_gets. cbv zeta. unfold id. pose proof Hcv as [E1 E2 E3 E4 _ _ _ _]. rewrite E1, E2, !Z.min_l by lia.
  destruct (fill_block_ok (t_fb t) x (x + ww) y (y + hh) (Pixel_of_colour colour)) as (fb&Ef&Hp); [done|lia..|]. rewrite E3 in Ef.
  eapply spec_bind_Ok; [exact Ef|]. apply spec_bind_modify.
  eapply spec_bind_Ok; [apply chk_ok; unfold in_u; lia|]. eapply spec_bind_Ok; [apply chk_ok; unfold in_u; lia|].
  replace (x + ww - x) with ww by lia. replace (y + hh - y) with hh by lia.
  eapply spec_weaken; [eapply mark_dirty_ok; [eapply (paints_canvas _ _ _ _ _ x y ww hh); [exact Hcv|exact Hp|exact HR|]|..]| |done]; try done.
  intros a b c _ Hout. cbv beta. by rewrite decide_False.
Qed.

Lemma flush_ok t pic : canvas t pic →
  spec flush t (λ _ t', canvas t' pic ∧ t_dirty t' = None ∧ t_cx t' = t_cx t ∧ t_cy t' = t_cy t ∧ t_lines t' = t_lines t
      ∧ rest_of t' = rest_of t) (λ _ _, False).
Proof.
  intros Hcv. pose proof Hgeo as [_ [_ Hw] [_ Hh] _ _]. unfold flush, u32. apply spec_bind_gets. unfold id.
  destruct Hcv as [E1 E2 E3 E4 E5 P Sh C]. unfold shown_but in Sh. destruct (t_dirty t) as [d|] eqn:Ed.
  - destruct Sh as (?&?&?&?&Sh).
    eapply (spec_bind _ _ _ (λ _ t', t' = set_dirty (set_world t (w_blit (t_fb t) (d_x0 d) (d_y0 d)
      (mkRect (d_x0 d) (d_y0 d) (d_x1 d - d_x0 d) (d_y1 d - d_y0 d)) (t_world t))) None)).
    { eapply spec_bind_Ok; [apply chk_ok; unfold in_u; lia|]. eapply spec_bind_Ok; [apply chk_ok; unfold in_u; lia|]. apply spec_bind_modify. by apply spec_modify. }
    intros [] t1 ->. apply spec_modify. set (r := mkRect _ _ _ _).
    destruct (w_blit_ok (t_fb t) (d_x0 d) (d_y0 d) r (t_world t)) as [Bd Bs];
      [by rewrite E5, E3, E4|done|done|unfold rect_ok, r; cbn; lia|rewrite E3; unfold r; cbn; lia|rewrite E4; unfold r; cbn; lia|].
    destruct (w_flush_ok (w_blit (t_fb t) (d_x0 d) (d_y0 d) r (t_world t))) as [Fd Fs].
    split; [|done]. split; cbn [set_world set_dirty t_width t_height t_fb t_world t_cache]; try done; try congruence.
    unfold shown_but. cbn [set_world set_dirty t_dirty t_fb t_world]. intros x y Hin _. rewrite Fs, Bs by (unfold in_buf; by rewrite E3, E4).
    destruct (decide (in_rect r x y)) as [|Hout]; [done|]. apply Sh; [done| |tauto]. unfold in_rect, r in Hout. cbn in Hout. lia.
  - apply spec_bind_ret, spec_modify. destruct (w_flush_ok (t_world t)) as [Fd Fs].
    split; [|done]. split; cbn [set_world t_width t_height t_fb t_world t_cache]; try done; try congruence.
    unfold shown_but. cbn [set_world t_dirty t_fb t_world]. rewrite Ed, Fs. done.
Qed.

(** A glyph at the cursor. *)
Lemma draw_char_ok t pic ch fg : canvas t pic → 0 <= t_cx t → t_cx t + cw <= w → 0 <= t_cy t → t_cy t + LINE_HEIGHT <= h →
  spec (draw_char_coloured font ch fg) t
    (λ _ t', canvas t' (patch (t_cx t) (t_cy t) cw LINE_HEIGHT (λ a b, glyph_pixel font ch fg (a - t_cx t) (b - t_cy t) (pic a b)) pic)
      ∧ t_cx t' = t_cx t + cw ∧ t_cy t' = t_cy t ∧ t_lines t' = t_lines t ∧ rest_of t' = rest_of t) (λ _ _, False).
Proof.
  intros Hcv Hx Hxe Hy Hye. pose proof Hgeo as [_ [_ Hw] [_ Hh] _ Hf]. unfold draw_char_coloured, u32. apply spec_bind_modify.
  set (t1 := match t_cache t !! ch with Some _ => t | None => set_cache t (<[ch := font ch]> (t_cache t)) end).
  assert (canvas t1 pic ∧ t_cache t1 !! ch = Some (font ch) ∧ t_cx t1 = t_cx t ∧ t_cy t1 = t_cy t ∧ t_lines t1 = t_lines t ∧ rest_of t1 = rest_of t)
    as (Hcv1&Hc1&Ex&Ey&El&Er).
  { unfold t1. destruct Hcv as [E1 E2 E3 E4 E5 P Sh C]. destruct (t_cache t !! ch) as [g|] eqn:Ec.
    - rewrite Ec. by rewrite (C ch g Ec).
    - split; [|by cbn [set_cache t_cache]; rewrite lookup_insert_eq]. split; try done. intros ch' g. cbn [set_cache t_cache].
      destruct (decide (ch = ch')) as [<-|]; [rewrite lookup_insert_eq; by intros [= <-]|rewrite lookup_insert_ne by done; apply C]. }
  clearbody t1. apply spec_bind_gets. rewrite Hc1. eapply spec_bind_Ok; [done|]. apply spec_bind_gets. unfold id. rewrite Ex, Ey.
  destruct (Hf ch) as [Ha Hgw Hgh Hl Hr Ht Hb Hbm]. unfold LINE_HEIGHT in *. pose proof (fb_is_ok _ _ _ Hcv1) as Hok.
  pose proof Hcv1 as [E1 E2 E3 E4 _ _ _ _]. destruct (decide _) as [Hz|Hnz].
  { eapply spec_bind_Ok; [apply chk_ok; unfold in_u; lia|]. apply spec_modify. cbn [set_cursor t_cx t_cy t_lines]. split_and!; try done; [|by rewrite Ha|..]; try done.
    eapply canvas_ext; [|by eapply canvas_same; [|exact Hcv1]]. intros a b Hin. unfold patch. destruct (decide _) as [|]; [|done].
    unfold glyph_pixel. rewrite decide_False; [done|]. lia. }
  unfold g_top in *.
  rewrite !wrap_u_small by (unfold in_u; unfold FONT_SIZE in *; lia).
  eapply spec_bind_Ok; [apply chk_ok; unfold in_u; lia|]. eapply spec_bind_Ok; [apply chk_ok; unfold in_u, FONT_SIZE in *; lia|].
  destruct (glyph_ok (font ch) (Pixel_of_colour fg) (t_cx t + g_xmin (font ch)) (t_cy t + (FONT_SIZE - g_height (font ch) - g_ymin (font ch))) (t_fb t1))
    as (fb&Efb&Hp); [done|lia..| |done|lia|lia|]; [unfold FONT_SIZE in *; lia|].
  rewrite E3, E4 in Efb. rewrite E1, E2. eapply spec_bind_Ok; [exact Efb|]. apply spec_bind_modify.
  eapply spec_bind; [eapply mark_dirty_ok; [eapply (paints_canvas _ _ _ _ _ (t_cx t + g_xmin (font ch)) (t_cy t + (FONT_SIZE - g_height (font ch) - g_ymin (font ch)))
    (g_width (font ch)) (g_height (font ch))); [exact Hcv1|exact Hp|done|]|..]|]; try (unfold FONT_SIZE in *; lia).
  { intros a b c _ Hout. cbv beta. rewrite decide_False; [done|]. lia. }
  intros [] t2 (Hcv2&X2&Y2&L2&R2). eapply spec_bind_Ok; [apply chk_ok; unfold in_u; lia|]. apply spec_modify.
  cbn [set_cursor t_cx t_cy t_lines]. cbn [set_fb t_cx t_cy t_lines] in X2, Y2, L2. split_and!; [|by rewrite Ha|congruence|congruence|].
  - eapply canvas_ext; [|by eapply canvas_same; [|exact Hcv2]]. intros a b Hin. cbv beta. unfold patch, glyph_pixel, cover, g_top.
    destruct (decide (t_cx t <= a < t_cx t + cw ∧ t_cy t <= b < t_cy t + 20)).
    + replace (a - (t_cx t + g_xmin (font ch))) with (a - t_cx t - g_xmin (font ch)) by lia.
      replace (b - (t_cy t + (FONT_SIZE - g_height (font ch) - g_ymin (font ch)))) with (b - t_cy t - (FONT_SIZE - g_height (font ch) - g_ymin (font ch))) by lia. done.
    + rewrite decide_False; [done|]. unfold FONT_SIZE in *. lia.
  - change (rest_of (set_cursor t2 (t_cx t + g_advance (font ch)) (t_cy t2))) with (rest_of t2). rewrite R2. exact Er.
Qed.

(** ** Grids *)
Definition ncols : Z := (w - 2 * MARGIN) / cw.
Definition nrows : Z := (h - 2 * MARGIN) / LINE_HEIGHT.
Abbreviation pic := (picture font cw).

(** The last line of a grid. *)
Definition last_row (grid : Grid) : list (Z * Z) := default [] (last grid).
Definition put_cell (c : Z * Z) (grid : Grid) : Grid := on_last (λ l, l ++ [c]) grid.
Definition pop_cell (grid : Grid) : Grid := on_last (λ l, removelast l) grid.

(** The place of a cell. *)
Definition cell_x (n : Z) : Z := MARGIN + cw * n.
Definition cell_y (r : Z) : Z := MARGIN + LINE_HEIGHT * r.

Lemma last_row_lookup grid : grid ≠ [] → grid !! (length grid - 1)%nat = Some (last_row grid).
Proof.
  intros Hg. unfold last_row. rewrite last_lookup, <-Nat.sub_1_r.
  destruct (lookup_lt_is_Some_2 grid (length grid - 1)) as [l Hl]; [destruct grid; simpl; [done|lia]|]. by rewrite Hl.
Qed.

Lemma in_cell_iff x y n r : 0 <= n → 0 <= r → cell_x n <= x < cell_x n + cw ∧ cell_y r <= y < cell_y r + LINE_HEIGHT ↔
  MARGIN <= x ∧ MARGIN <= y ∧ (x - MARGIN) / cw = n ∧ (y - MARGIN) / LINE_HEIGHT = r.
Proof.
  intros Hn Hr. pose proof (geo_cw Hgeo). unfold cell_x, cell_y, LINE_HEIGHT. split.
  - intros [Hx Hy]. split_and!; [nia|lia| |].
    + symmetry. apply (Z.div_unique _ _ _ (x - MARGIN - cw * n)); lia.
    + symmetry. apply (Z.div_unique _ _ _ (y - MARGIN - 20 * r)); lia.
  - intros (Hx&Hy&<-&<-). pose proof (Z.div_mod (x - MARGIN) cw ltac:(lia)). pose proof (Z.mod_pos_bound (x - MARGIN) cw ltac:(lia)).
    pose proof (Z.div_mod (y - MARGIN) 20 ltac:(lia)). pose proof (Z.mod_pos_bound (y - MARGIN) 20 ltac:(lia)). lia.
Qed.

Lemma cell_offsets x y n r : 0 <= n → 0 <= r → cell_x n <= x < cell_x n + cw ∧ cell_y r <= y < cell_y r + LINE_HEIGHT →
  (x - MARGIN) mod cw = x - cell_x n ∧ (y - MARGIN) mod LINE_HEIGHT = y - cell_y r.
Proof.
  intros Hn Hr Hin. pose proof (geo_cw Hgeo). apply in_cell_iff in Hin as (_&_&E1&E2); [|done|done]. unfold cell_x, cell_y.
  rewrite (Z.mod_eq _ cw), (Z.mod_eq _ LINE_HEIGHT), E1, E2 by (unfold LINE_HEIGHT; lia). lia.
Qed.

Lemma cell_put grid c x y : grid ≠ [] → cell_at cw (put_cell c grid) x y =
  if decide (MARGIN <= x ∧ MARGIN <= y ∧ (x - MARGIN) / cw = len (last_row grid) ∧ (y - MARGIN) / LINE_HEIGHT = len grid - 1)
  then Some c else cell_at cw grid x y.
Proof.
  intros Hg. pose proof (geo_cw Hgeo). unfold cell_at. destruct (decide (MARGIN <= x ∧ MARGIN <= y)) as [[Hx Hy]|Hout]; [|by rewrite decide_False by lia].
  assert (0 <= (x - MARGIN) / cw) as Hc by (apply Z.div_pos; lia). assert (0 <= (y - MARGIN) / LINE_HEIGHT) as Hr by (apply Z.div_pos; unfold LINE_HEIGHT; lia).
  revert Hc Hr. generalize ((x - MARGIN) / cw) as n, ((y - MARGIN) / LINE_HEIGHT) as r. intros n r Hn Hr.
  unfold put_cell. rewrite lookup_on_last. assert (0 < length grid)%nat by (destruct grid; [done|simpl; lia]). unfold len.
  destruct (decide (S (Z.to_nat r) = length grid)) as [E|NE]; [|by rewrite decide_False by lia].
  replace (Z.to_nat r) with (length grid - 1)%nat by lia. rewrite last_row_lookup by done. cbn [fmap option_fmap option_map mbind option_bind].
  destruct (decide (n = Z.of_nat (length (last_row grid)))) as [->|NE].
  - rewrite decide_True by lia. rewrite Nat2Z.id. by rewrite lookup_app_r, Nat.sub_diag by lia.
  - rewrite decide_False by lia. destruct (decide (n < Z.of_nat (length (last_row grid)))).
    + by rewrite lookup_app_l by lia.
    + rewrite (lookup_ge_None_2 (last_row grid)) by lia. apply lookup_ge_None_2. rewrite length_app. simpl. lia.
Qed.

Lemma cell_none grid n r x y : 0 <= n → 0 <= r → n >= len (default [] (grid !! Z.to_nat r)) →
  cell_x n <= x < cell_x n + cw ∧ cell_y r <= y < cell_y r + LINE_HEIGHT → cell_at cw grid x y = None.
Proof.
  intros Hn Hr Hlen Hin. apply in_cell_iff in Hin as (?&?&E1&E2); [|done|done]. unfold cell_at. rewrite decide_True by lia. rewrite E1, E2.
  destruct (grid !! Z.to_nat r) as [row|]; [|done]. cbn in *. apply lookup_ge_None_2. unfold len in Hlen. lia.
Qed.

(** A character more. *)
Lemma picture_put grid ch fg x y : grid ≠ [] → let n := len (last_row grid) in let r := len grid - 1 in
  patch (cell_x n) (cell_y r) cw LINE_HEIGHT (λ a b, glyph_pixel font ch fg (a - cell_x n) (b - cell_y r) (pic grid a b)) (pic grid) x y
  = pic (put_cell (ch, fg) grid) x y.
Proof.
  intros Hg n r. assert (0 <= n) as Hn by apply len_nonneg. assert (0 <= r) as Hr by (unfold r, len; destruct grid; [done|simpl; lia]).
  unfold patch. rewrite (decide_ext _ _ _ _ (in_cell_iff x y n r Hn Hr)). unfold picture at 3. rewrite cell_put by done. fold n. fold r.
  destruct (decide _) as [Hin|]; [|done]. apply in_cell_iff in Hin; [|done|done]. destruct (cell_offsets x y n r Hn Hr Hin) as [-> ->].
  unfold picture. rewrite (cell_none grid n r x y); [done|done|done| |done].
  unfold r, len. replace (Z.to_nat (Z.of_nat (length grid) - 1)) with (length grid - 1)%nat by lia. rewrite last_row_lookup by done.
  cbn. unfold n, len. lia.
Qed.

Lemma cell_pop grid x y : last_row grid ≠ [] → cell_at cw (pop_cell grid) x y =
  if decide (MARGIN <= x ∧ MARGIN <= y ∧ (x - MARGIN) / cw = len (last_row grid) - 1 ∧ (y - MARGIN) / LINE_HEIGHT = len grid - 1)
  then None else cell_at cw grid x y.
Proof.
  intros Hl. assert (grid ≠ []) as Hg by (intros ->; done). pose proof (geo_cw Hgeo). unfold cell_at.
  destruct (decide (MARGIN <= x ∧ MARGIN <= y)) as [[Hx Hy]|Hout]; [|by rewrite decide_False by lia].
  assert (0 <= (x - MARGIN) / cw) as Hc by (apply Z.div_pos; lia). assert (0 <= (y - MARGIN) / LINE_HEIGHT) as Hr by (apply Z.div_pos; unfold LINE_HEIGHT; lia).
  revert Hc Hr. generalize ((x - MARGIN) / cw) as n, ((y - MARGIN) / LINE_HEIGHT) as r. intros n r Hn Hr.
  unfold pop_cell. rewrite lookup_on_last. assert (0 < length grid)%nat by (destruct grid; [done|simpl; lia]). unfold len.
  destruct (decide (S (Z.to_nat r) = length grid)) as [E|NE]; [|by rewrite decide_False by lia].
  replace (Z.to_nat r) with (length grid - 1)%nat by lia. rewrite last_row_lookup by done. cbn [fmap option_fmap option_map mbind option_bind].
  destruct (exists_last Hl) as (l'&c&E'). rewrite E', removelast_last, length_app. cbn [length].
  destruct (decide (n = Z.of_nat (length l'))) as [->|NE].
  - rewrite decide_True by lia. apply lookup_ge_None_2. lia.
  - rewrite decide_False by lia. destruct (decide (n < Z.of_nat (length l'))).
    + by rewrite lookup_app_l by lia.
    + rewrite (lookup_ge_None_2 l') by lia. symmetry. apply lookup_ge_None_2. rewrite length_app. simpl. lia.
Qed.

(** The last character of the last line gone. *)
Lemma picture_pop grid x y : last_row grid ≠ [] → let n := len (last_row grid) - 1 in let r := len grid - 1 in
  patch (cell_x n) (cell_y r) cw LINE_HEIGHT (λ _ _, BACKGROUND) (pic grid) x y = pic (pop_cell grid) x y.
Proof.
  intros Hl n r. assert (grid ≠ []) as Hg by (intros ->; done).
  assert (0 <= n) as Hn by (unfold n, len; destruct (last_row grid); [done|simpl; lia]).
  assert (0 <= r) as Hr by (unfold r, len; destruct grid; [done|simpl; lia]).
  unfold patch. rewrite (decide_ext _ _ _ _ (in_cell_iff x y n r Hn Hr)). unfold picture. rewrite cell_pop by done. fold n. fold r.
  by destruct (decide _).
Qed.

Lemma picture_blank grid x y : pic (grid ++ [[]]) x y = pic grid x y.
Proof.
  unfold picture, cell_at. destruct (decide _); [|done]. set (r := Z.to_nat ((y - MARGIN) / LINE_HEIGHT)).
  destruct (decide (r < length grid)%nat); [by rewrite lookup_app_l by done|]. rewrite (lookup_ge_None_2 grid) by lia.
  rewrite lookup_app_r by lia. by destruct (r - length grid)%nat.
Qed.

Lemma picture_empty x y : pic [] x y = BACKGROUND.
Proof. unfold picture, cell_at. by destruct (decide _). Qed.

(** ** The terminal shows its lines *)
Definition line_ok (l : Line) : Prop := len (line_chars l) <= ncols ∧ segs_ok l.

(** The rows of the scrollback that fit the window. *)
Definition visible (rows : Grid) : Grid := drop (length rows - Z.to_nat nrows) rows.

(** The scrollback is [rows] and the buffer the picture of the visible ones,
    the cursor behind the last character. *)
Record shows t (rows : Grid) : Prop := {
  sh_canvas : canvas t (pic (visible rows));
  sh_lines : line_chars <$> t_lines t = rows;
  sh_ok : Forall line_ok (t_lines t);
  sh_count : 1 <= len rows <= MAX_SCROLLBACK_LINES;
  sh_cx : t_cx t = cell_x (len (last_row rows));
  sh_cy : t_cy t = cell_y (len (visible rows) - 1);
}.

Lemma cols_fit n : 0 <= n < ncols → 0 <= cell_x n ∧ cell_x n + cw <= w - MARGIN.
Proof.
  intros Hn. pose proof (geo_cw Hgeo). unfold ncols, cell_x, MARGIN in *. pose proof (Z.mul_div_le (w - 2 * 10) cw ltac:(lia)). nia.
Qed.

Lemma cols_full n : 0 <= n → cell_x n + cw > w - MARGIN ↔ n >= ncols.
Proof.
  intros Hn. pose proof (geo_cw Hgeo). unfold ncols, cell_x, MARGIN in *. pose proof (Z.mul_div_le (w - 2 * 10) cw ltac:(lia)).
  pose proof (Z.mul_succ_div_gt (w - 2 * 10) cw ltac:(lia)). nia.
Qed.

Lemma rows_fit r : 0 <= r < nrows → 0 <= cell_y r ∧ cell_y r + LINE_HEIGHT <= h - MARGIN.
Proof.
  intros Hr. unfold nrows, cell_y, MARGIN, LINE_HEIGHT in *. pose proof (Z.mul_div_le (h - 2 * 10) 20 ltac:(lia)). lia.
Qed.

Lemma rows_full r : 0 <= r → cell_y r + LINE_HEIGHT > h - MARGIN ↔ r >= nrows.
Proof.
  intros Hr. unfold nrows, cell_y, MARGIN, LINE_HEIGHT in *. pose proof (Z.mul_div_le (h - 2 * 10) 20 ltac:(lia)).
  pose proof (Z.mul_succ_div_gt (h - 2 * 10) 20 ltac:(lia)). lia.
Qed.

Lemma geo_sizes : 1 <= ncols ∧ 1 <= nrows <= MAX_SCROLLBACK_LINES ∧ w < 2 ^ 15 ∧ h < 2 ^ 15 ∧ 2 * MARGIN <= w ∧ 2 * MARGIN <= h ∧ cw < 2 ^ 15.
Proof.
  destruct Hgeo as [Hc Hw Hh Hr _]. unfold ncols, nrows, MARGIN, LINE_HEIGHT in *. split_and!; try lia.
  - apply Z.div_le_lower_bound; lia.
  - apply Z.div_le_lower_bound; lia.
Qed.

Lemma last_on_last {B} (f : B → B) (l : list B) : last (on_last f l) = f <$> last l.
Proof.
  rewrite !last_lookup, length_on_last, lookup_on_last. destruct l as [|x l]; [done|]. rewrite decide_True by done. done.
Qed.

Lemma last_put c grid : grid ≠ [] → last_row (put_cell c grid) = last_row grid ++ [c].
Proof. intros Hg. unfold last_row, put_cell. rewrite last_on_last. destruct (last grid) eqn:E; [done|]. by apply last_None in E. Qed.
Lemma last_pop grid : last_row (pop_cell grid) = removelast (last_row grid).
Proof. unfold last_row, pop_cell. rewrite last_on_last. by destruct (last grid). Qed.
Lemma len_put c grid : len (put_cell c grid) = len grid.
Proof. unfold len, put_cell. by rewrite length_on_last. Qed.
Lemma len_pop grid : len (pop_cell grid) = len grid.
Proof. unfold len, pop_cell. by rewrite length_on_last. Qed.

Lemma grid_ne (grid : Grid) : 1 <= len grid → grid ≠ [].
Proof. intros Hl ->. by vm_compute in Hl. Qed.


Lemma len_visible rows : len (visible rows) = len rows `min` nrows.
Proof. pose proof geo_sizes as (_&?&_). unfold visible, len. rewrite length_drop. lia. Qed.

Lemma drop_on_last {B} (f : B → B) (l : list B) n : (n < length l)%nat → drop n (on_last f l) = on_last f (drop n l).
Proof.
  intros Hn. rewrite <-(take_drop n l) at 1. rewrite on_last_app by (intros E; apply (f_equal length) in E; rewrite length_drop in E; simpl in E; lia).
  rewrite drop_app_length'; [done|]. rewrite length_take. lia.
Qed.

Lemma visible_on_last f rows : 1 <= len rows → visible (on_last f rows) = on_last f (visible rows).
Proof.
  intros Hr. pose proof geo_sizes as (_&?&_). unfold visible. rewrite length_on_last. apply drop_on_last. unfold len in Hr. lia.
Qed.

Lemma last_visible rows : 1 <= len rows → last_row (visible rows) = last_row rows.
Proof.
  intros Hr. pose proof geo_sizes as (_&?&_). unfold last_row, visible. rewrite !last_lookup, lookup_drop, length_drop.
  do 2 f_equal. unfold len in Hr. lia.
Qed.

Lemma visible_ne rows : 1 <= len rows → visible rows ≠ [].
Proof. intros Hr. pose proof geo_sizes as (_&?&_). apply grid_ne. rewrite len_visible. lia. Qed.

(** [shows] depends on the drawing, the lines and the cursor only. *)
Definition seen_of t := (drawn_of t, t_lines t, t_cx t, t_cy t).
Lemma shows_same t t' rows : seen_of t' = seen_of t → shows t rows → shows t' rows.
Proof.
  intros [= E1 E2 E3 E4 E5 E6 E7 E8 E9] [C L O N X Y]. split; try congruence.
  eapply canvas_same; [|exact C]. unfold drawn_of. congruence.
Qed.

(** The last line edited. *)
Lemma shows_edit t rows (f : Line → Line) (g : list (Z * Z) → list (Z * Z)) : shows t rows →
  (∀ l, segs_ok l → line_chars (f l) = g (line_chars l)) → (∀ l, segs_ok l → segs_ok (f l)) → len (g (last_row rows)) <= ncols →
  line_chars <$> on_last f (t_lines t) = on_last g rows ∧ Forall line_ok (on_last f (t_lines t)).
Proof.
  intros [_ E Hok _ _ _] Hf Hsegs Hlen. split.
  - rewrite <-E. apply on_last_fmap. eapply Forall_impl; [exact Hok|]. intros l' [_ Hl']. by apply Hf.
  - apply on_last_Forall; [done|]. intros l' [_ Hl'] El'. split; [|by apply Hsegs]. rewrite Hf by done.
    unfold last_row in Hlen. rewrite <-E, fmap_last, El' in Hlen. exact Hlen.
Qed.

Lemma emit_char_ok t rows ch fg : shows t rows → len (last_row rows) < ncols →
  spec (emit_char font ch fg) t (λ _ t', shows t' (put_cell (ch, fg) rows) ∧ rest_of t' = rest_of t) (λ _ _, False).
Proof.
  intros Hs Hn. pose proof geo_sizes as (_&Hnr&Hw&Hh&_).
  destruct (shows_edit t rows (push_char ch fg) (λ l, l ++ [(ch, fg)]) Hs) as [HL HO]; [intros; apply push_char_chars|by apply push_char_ok|rewrite len_app, len_cons, len_nil; lia|].
  pose proof Hs as [Hcv _ _ [Hr Hcnt] Hcx Hcy]. unfold emit_char, record_char. apply spec_bind_modify.
  destruct (cols_fit (len (last_row rows))) as [Hx0 Hx1]; [pose proof (len_nonneg (last_row rows)); lia|].
  destruct (rows_fit (len (visible rows) - 1)) as [Hy0 Hy1]; [rewrite len_visible; lia|]. unfold MARGIN in *.
  eapply spec_weaken; [apply (draw_char_ok (set_lines t (on_last (push_char ch fg) (t_lines t))) (pic (visible rows)) ch fg)| |done];
    cbn [set_lines t_cx t_cy t_lines]; rewrite ?Hcx, ?Hcy; try lia.
  - by eapply canvas_same; [|exact Hcv].
  - intros [] t' (Hcv'&X&Y&L&R). split; [|exact R]. split.
    + eapply canvas_ext; [|exact Hcv']. intros x y _. unfold put_cell. rewrite visible_on_last by done.
      rewrite <-(last_visible rows) by done. apply (picture_put (visible rows) ch fg x y). by apply visible_ne.
    + by rewrite L.
    + by rewrite L.
    + by rewrite len_put.
    + rewrite X, last_put, len_app, len_cons, len_nil by (by apply grid_ne). unfold cell_x. lia.
    + rewrite Y, !len_visible, len_put. done.
Qed.

(** ** Redrawing *)
Lemma measure_mono ch : measure_char font ch = cw.
Proof. apply (geo_font Hgeo ch). Qed.

Lemma draw_line_ok cs : ∀ dn drawn t, canvas t (pic (dn ++ [drawn])) → t_cx t = cell_x (len drawn) → t_cy t = cell_y (len dn) →
  len drawn + len cs <= ncols → len dn < nrows →
  spec (draw_line font (w - MARGIN) cs) t
    (λ _ t', canvas t' (pic (dn ++ [drawn ++ cs])) ∧ t_cy t' = cell_y (len dn) ∧ t_lines t' = t_lines t ∧ rest_of t' = rest_of t) (λ _ _, False).
Proof.
  pose proof geo_sizes as (_&_&Hw&Hh&_). pose proof (geo_cw Hgeo) as Hcw.
  induction cs as [|[ch fg] cs IH]; intros dn drawn t Hcv Hx Hy Hn Hr; cbn [draw_line].
  { apply spec_ret. by rewrite app_nil_r. }
  rewrite len_cons in Hn. pose proof (len_nonneg drawn). pose proof (len_nonneg cs). pose proof (len_nonneg dn).
  destruct (cols_fit (len drawn)) as [Hx0 Hx1]; [lia|]. destruct (rows_fit (len dn)) as [Hy0 Hy1]; [lia|].
  apply spec_bind_gets. unfold id, u32. rewrite measure_mono, Hx. eapply spec_bind_Ok; [apply chk_ok; unfold in_u, MARGIN in *; lia|].
  rewrite decide_False by lia. apply spec_bind_ret.
  eapply spec_bind; [apply (draw_char_ok t (pic (dn ++ [drawn])) ch fg Hcv); unfold MARGIN in *; lia|].
  intros [] t1 (Hcv1&X1&Y1&L1&R1). rewrite Hx, Hy in *.
  eapply spec_weaken; [apply (IH dn (drawn ++ [(ch, fg)]) t1)| |done].
  - eapply canvas_ext; [|exact Hcv1]. intros x y _. pose proof (picture_put (dn ++ [drawn]) ch fg x y) as Hp. cbv zeta in Hp.
    unfold last_row, put_cell in Hp. rewrite last_snoc, len_app, len_cons, len_nil, on_last_app in Hp by done. cbn [default from_option id on_last] in Hp.
    replace (len dn + (1 + 0) - 1) with (len dn) in Hp by lia. apply Hp. by destruct dn.
  - rewrite X1, len_app, len_cons, len_nil. unfold cell_x. lia.
  - done.
  - rewrite len_app, len_cons, len_nil. lia.
  - done.
  - intros [] t' (Hcv'&Y'&L'&R'). rewrite <-app_assoc in Hcv'. split_and!; [done|done|congruence|congruence].
Qed.

Lemma draw_lines_ok lines : ∀ dn t, canvas t (pic dn) → Forall line_ok lines → len dn + len lines <= nrows →
  spec (draw_lines font (w - MARGIN) (cell_y (len dn)) lines) t
    (λ y t', canvas t' (pic (dn ++ (line_chars <$> lines))) ∧ y = cell_y (len dn + len lines) ∧ t_lines t' = t_lines t ∧ rest_of t' = rest_of t) (λ _ _, False).
Proof.
  pose proof geo_sizes as (_&_&Hw&Hh&_). pose proof (geo_cw Hgeo) as Hcw.
  induction lines as [|line lines IH]; intros dn t Hcv Hok Hn; cbn [draw_lines].
  { apply spec_ret. by rewrite app_nil_r, len_nil, Z.add_0_r. }
  rewrite len_cons in Hn. pose proof (len_nonneg lines). pose proof (len_nonneg dn). apply Forall_cons in Hok as [[Hlen _] Hok].
  destruct (rows_fit (len dn)) as [Hy0 Hy1]; [lia|]. apply spec_bind_modify.
  eapply spec_bind; [apply (draw_line_ok (line_chars line) dn [] (set_cursor t MARGIN (cell_y (len dn)))); cbn [set_cursor t_cx t_cy]|].
  - eapply canvas_ext; [|by eapply canvas_same; [|exact Hcv]]. intros x y _. by rewrite picture_blank.
  - unfold cell_x. rewrite len_nil. lia.
  - done.
  - rewrite len_nil. lia.
  - lia.
  - intros [] t1 (Hcv1&Y1&L1&R1). cbn [app] in Hcv1. apply spec_bind_gets. unfold id, u32. rewrite Y1.
    eapply spec_bind_Ok; [apply chk_ok; unfold in_u, MARGIN, LINE_HEIGHT in *; lia|].
    replace (cell_y (len dn) + LINE_HEIGHT) with (cell_y (len (dn ++ [line_chars line]))) by (rewrite len_app, len_cons, len_nil; unfold cell_y; lia).
    eapply spec_weaken; [apply (IH (dn ++ [line_chars line]) t1 Hcv1 Hok); rewrite len_app, len_cons, len_nil; lia| |done].
    intros y t' (Hcv'&Y'&L'&R'). rewrite len_cons. rewrite <-app_assoc in Hcv'. split_and!; [done| |by rewrite L', L1|].
    + rewrite Y', len_app, len_cons, len_nil. f_equal. lia.
    + rewrite R', R1. done.
Qed.

Lemma rows_from_ok cs : ∀ n r, 0 <= n → n + len cs <= ncols → rows_from font (w - MARGIN) (cell_x n) r cs = Ok (cell_x (n + len cs), r).
Proof.
  pose proof geo_sizes as (_&_&Hw&Hh&_). pose proof (geo_cw Hgeo) as Hcw.
  induction cs as [|[ch fg] cs IH]; intros n r Hn Hc; cbn [rows_from]; [by rewrite len_nil, Z.add_0_r|].
  rewrite len_cons in *. pose proof (len_nonneg cs). destruct (cols_fit n) as [Hx0 Hx1]; [lia|]. rewrite measure_mono.
  rewrite chk_Ok by (unfold in_u, MARGIN in *; lia). cbn [mbind outcome_bind]. rewrite decide_False by lia.
  rewrite chk_Ok by (unfold in_u, MARGIN in *; lia). cbn [mbind outcome_bind]. replace (cell_x n + cw) with (cell_x (n + 1)) by (unfold cell_x; lia).
  rewrite IH by lia. do 3 f_equal. lia.
Qed.

Lemma rows_of_line l r : line_ok l → rows_from font (w - MARGIN) MARGIN r (line_chars l) = Ok (cell_x (len (line_chars l)), r).
Proof. intros [Hl _]. pose proof (rows_from_ok (line_chars l) 0 r ltac:(lia) ltac:(lia)) as Hr. unfold cell_x in *. by rewrite Z.mul_0_r, Z.add_0_r, Z.add_0_l in Hr. Qed.

Lemma fitting_ok rev : ∀ budget, Forall line_ok rev → 0 <= budget → fitting font w budget rev = Ok (Z.to_nat budget `min` length rev)%nat.
Proof.
  pose proof geo_sizes as (_&_&Hw&Hh&Hm&_). unfold MARGIN in Hm.
  induction rev as [|line rev IH]; intros budget Hok Hb; cbn [fitting]; [by rewrite Nat.min_0_r|].
  apply Forall_cons in Hok as [Hl Hok]. unfold physical_rows_for_line. rewrite (chk_Ok 32 (w - MARGIN)) by (unfold in_u, MARGIN; lia). cbn [mbind outcome_bind].
  rewrite rows_of_line by done. cbn [mbind outcome_bind]. destruct (decide (1 > budget)) as [Hz|Hp]; [f_equal; lia|].
  rewrite IH by (done || lia). cbn [mbind outcome_bind length]. f_equal. lia.
Qed.

Lemma whole_patch p old x y : on_canvas x y → patch 0 0 w h (λ _ _, p) old x y = p.
Proof. intros Hin. unfold patch. by rewrite decide_True by (unfold on_canvas in Hin; lia). Qed.

(** Every pixel filled. *)
Lemma fill_all_ok R t pic0 : canvas_but R t pic0 →
  spec (fb_fill 0 0 w h COLOUR_BACKGROUND) t
    (λ _ t', canvas t' (pic []) ∧ t_cx t' = t_cx t ∧ t_cy t' = t_cy t ∧ t_lines t' = t_lines t ∧ rest_of t' = rest_of t) (λ _ _, False).
Proof.
  intros Hcv. pose proof geo_sizes as (_&_&_&_&Hw&Hh&_). unfold MARGIN in *.
  eapply spec_weaken; [apply (fb_fill_ok R t pic0 0 0 w h COLOUR_BACKGROUND Hcv); try lia| |done].
  - unfold on_canvas. lia.
  - intros [] t' (Hcv'&Rest). split; [|exact Rest]. eapply canvas_ext; [|exact Hcv']. intros x y Hin. by rewrite whole_patch, picture_empty.
Qed.

Lemma fmap_visible lines : line_chars <$> drop (length lines - Z.to_nat nrows) lines = visible (line_chars <$> lines).
Proof. unfold visible. by rewrite fmap_drop, length_fmap. Qed.

Lemma render_ok t pic0 : canvas t pic0 → Forall line_ok (t_lines t) → 1 <= len (t_lines t) <= MAX_SCROLLBACK_LINES →
  spec (render_visible_lines font) t
    (λ _ t', shows t' (line_chars <$> t_lines t) ∧ t_lines t' = t_lines t ∧ rest_of t' = rest_of t) (λ _ _, False).
Proof.
  intros Hcv Hok Hcnt. pose proof geo_sizes as (_&Hnr&Hw&Hh&Hw0&Hh0&_). set (rows := line_chars <$> t_lines t).
  assert (1 <= len rows <= MAX_SCROLLBACK_LINES) as Hrows by (unfold rows, len; by rewrite length_fmap).
  unfold render_visible_lines, visible_line_count, u32. apply spec_bind_gets. unfold id.
  pose proof Hcv as [-> -> _ _ _ _ _ _]. unfold MARGIN in *.
  eapply spec_bind_Ok; [rewrite chk_Ok by (unfold in_u; lia); done|].
  eapply spec_bind_Ok; [apply fitting_ok; [by apply Forall_reverse|unfold LINE_HEIGHT; apply Z.div_pos; lia]|]. cbv zeta. rewrite length_reverse.
  change ((h - 2 * 10) / LINE_HEIGHT) with nrows.
  replace (length (t_lines t) - Z.to_nat nrows `min` length (t_lines t))%nat with (length (t_lines t) - Z.to_nat nrows)%nat by lia.
  set (vis := drop _ (t_lines t)). assert (line_chars <$> vis = visible rows) as Hvis by apply fmap_visible.
  assert (len vis = len (visible rows)) as Hlv by (rewrite <-Hvis; unfold len; by rewrite length_fmap).
  assert (Forall line_ok vis) as Hokv by (by apply Forall_drop).
  eapply spec_bind; [apply (fill_all_ok _ _ _ Hcv)|]. intros [] t1 (Hcv1&X1&Y1&L1&R1).
  eapply spec_bind_Ok; [apply chk_ok; unfold in_u; lia|].
  eapply spec_bind; [apply (draw_lines_ok vis [] t1 Hcv1 Hokv); rewrite Hlv, len_visible, len_nil; lia|].
  intros y t2 (Hcv2&->&L2&R2). cbn [app] in Hcv2. rewrite Hvis, len_nil, Hlv, Z.add_0_l in *. apply spec_bind_modify.
  destruct (rows_fit (len (visible rows) - 1)) as [Hy0 Hy1]; [rewrite len_visible; lia|].
  destruct (last vis) as [l|] eqn:El; [|apply last_None in El; rewrite El in Hvis; by destruct (visible_ne rows (proj1 Hrows))].
  assert (line_ok l) as Hl by (eapply Forall_forall; [exact Hokv|]; by apply last_Some_elem_of).
  eapply spec_bind_Ok; [apply (rows_of_line l 1 Hl)|]. apply spec_modify.
  split_and!; [|cbn [set_cursor t_lines]; by rewrite L2, L1|by transitivity (rest_of t1)]. split; cbn [set_cursor t_lines t_cx t_cy].
  - eapply canvas_same; [|exact Hcv2]. done.
  - by rewrite L2, L1.
  - by rewrite L2, L1.
  - done.
  - rewrite <-(last_visible rows) by lia. unfold last_row. by rewrite <-Hvis, fmap_last, El.
  - unfold cell_y, LINE_HEIGHT in *. lia.
Qed.

(** ** Line breaks *)
Definition v_newline (rows : Grid) : Grid :=
  let rows := rows ++ [[]] in drop (length rows - Z.to_nat MAX_SCROLLBACK_LINES) rows.

Lemma last_newline rows : last_row (v_newline rows) = [].
Proof.
  unfold last_row, v_newline. rewrite last_lookup, lookup_drop, length_drop, length_app. cbn [length].
  unfold MAX_SCROLLBACK_LINES. rewrite lookup_app_r by lia. replace (_ - _)%nat with 0%nat by lia. done.
Qed.

Lemma len_newline rows : len (v_newline rows) = (len rows + 1) `min` MAX_SCROLLBACK_LINES.
Proof. unfold v_newline, len, MAX_SCROLLBACK_LINES. rewrite length_drop, length_app. cbn [length]. lia. Qed.

Lemma drop_lines (lines : list Line) :
  (if decide (len (lines ++ [[]]) > MAX_SCROLLBACK_LINES) then drop (Z.to_nat (len (lines ++ [[]]) - MAX_SCROLLBACK_LINES)) (lines ++ [[]]) else lines ++ [[]])
  = drop (length (lines ++ [[]]) - Z.to_nat MAX_SCROLLBACK_LINES) (lines ++ [[]]).
Proof. unfold len, MAX_SCROLLBACK_LINES. destruct (decide _); [f_equal; lia|]. by replace (_ - _)%nat with 0%nat by lia. Qed.

Lemma newline_ok t rows : shows t rows →
  spec (newline font) t (λ _ t', shows t' (v_newline rows) ∧ rest_of t' = rest_of t) (λ _ _, False).
Proof.
  intros [Hcv Hl Hok [Hr Hcnt] Hcx Hcy]. pose proof geo_sizes as (_&Hnr&Hw&Hh&Hw0&Hh0&_). unfold newline, u32. apply spec_bind_modify.
  set (lines := drop (length (t_lines t ++ [[]]) - Z.to_nat MAX_SCROLLBACK_LINES) (t_lines t ++ [[]])).
  cbv zeta. rewrite drop_lines. fold lines. apply spec_bind_gets. unfold id. cbn [set_lines t_cy t_height].
  destruct (rows_fit (len (visible rows) - 1)) as [Hy0 Hy1]; [rewrite len_visible; lia|]. unfold MARGIN in *. rewrite Hcy.
  eapply spec_bind_Ok; [apply chk_ok; unfold in_u, cell_y, LINE_HEIGHT, MARGIN in *; lia|]. apply spec_bind_modify.
  replace (cell_y (len (visible rows) - 1) + LINE_HEIGHT) with (cell_y (len (visible rows))) in * by (unfold cell_y; lia).
  eapply spec_bind_Ok; [apply chk_ok; unfold in_u, cell_y, LINE_HEIGHT, MARGIN in *; lia|]. pose proof Hcv as [_ -> _ _ _ _ _ _].
  eapply spec_bind_Ok; [apply chk_ok; unfold in_u, cell_y, LINE_HEIGHT, MARGIN in *; lia|].
  assert (line_chars <$> lines = v_newline rows) as Hl'.
  { unfold lines, v_newline. by rewrite fmap_drop, fmap_app, Hl, <-Hl, !length_app, length_fmap. }
  assert (Forall line_ok lines) as Hok'.
  { unfold lines. apply Forall_drop, Forall_app. split; [done|]. apply Forall_singleton. split; [|by apply Forall_nil].
    change (line_chars []) with (@nil (Z * Z)). rewrite len_nil. pose proof geo_sizes. lia. }
  assert (len lines = len (v_newline rows)) as Hlen by (rewrite <-Hl'; unfold len; by rewrite length_fmap).
  rewrite len_newline in Hlen.
  pose proof (rows_full (len (visible rows)) (len_nonneg _)) as Hfull. unfold MARGIN in Hfull. destruct (decide _) as [Hbot|Hbot].
  - eapply spec_weaken; [eapply (render_ok _ (pic (visible rows)))| |done].
    + by eapply canvas_same; [|exact Hcv].
    + done.
    + cbn [set_cursor set_lines t_lines]. lia.
    + intros [] t' (Hs&L&R). cbn [set_cursor set_lines t_lines] in Hs. rewrite Hl' in Hs. split; [done|]. exact R.
  - apply spec_ret. split; [|done]. assert (len (visible rows) < nrows) as Hlt.
    { destruct (decide (len (visible rows) >= nrows)) as [Hge|]; [|lia]. apply Hfull in Hge. unfold MARGIN in *. lia. }
    rewrite len_visible in Hlt.
    assert (visible (v_newline rows) = visible rows ++ [[]]) as Hvis.
    { unfold visible, v_newline, MAX_SCROLLBACK_LINES in *. unfold len in *. rewrite length_drop, length_app. cbn [length].
      replace (length rows + 1 - Z.to_nat 1000)%nat with 0%nat by lia. replace (length rows - Z.to_nat nrows)%nat with 0%nat by lia.
      rewrite drop_0. replace (length rows + 1 - 0 - Z.to_nat nrows)%nat with 0%nat by lia. by rewrite !drop_0. }
    split; cbn [set_cursor set_lines t_lines t_cx t_cy]; try done.
    + rewrite Hvis. eapply canvas_ext; [|by eapply canvas_same; [|exact Hcv]]. intros x y _. by rewrite picture_blank.
    + rewrite len_newline. lia.
    + rewrite last_newline, len_nil. unfold cell_x, MARGIN. lia.
    + rewrite Hvis, len_app, len_cons, len_nil. f_equal. lia.
Qed.
End screen.
