(* ===== verification/TermScreen.v ===== *)
(** * What a run of the terminal shows
    ([userspace/terminal/src/main.rs], [commands.rs], [input.rs])

    Each operation of the terminal is an operation on the rows of its
    scrollback: text is wrapped at words, lines are broken, characters removed,
    the screen cleared.  The window shows the last rows after every event. *)

From Stdlib Require Import Ascii String.
From S2P Require Import Prelude Utf8 Text Buffers BTree Encoding Style Value Terminal Effects BlockDevice CompositorProtocol Graphics Pixels TermText Term TermProof.

#[local] Open Scope list_scope.

(** ** Text in rows *)
Section rows.
Context (ncols : Z).

(** A character, in a new row when the last one is full. *)
Definition v_char (ch colour : Z) (rows : Grid) : Grid :=
  put_cell (ch, colour) (if decide (len (last_row rows) >= ncols) then v_newline rows else rows).
Definition v_chars (text : list Z) (colour : Z) (rows : Grid) : Grid := foldl (λ rows ch, v_char ch colour rows) rows text.

(** A word, in a new row when it does not fit into the last one. *)
Definition v_word (colour : Z) (rows : Grid) (w : Word) : Grid :=
  match w with
  | WNewline => v_newline rows
  | WWhitespace ws => v_chars ws colour rows
  | WText text =>
      v_chars text colour
        (if decide (0 < len (last_row rows) ∧ len (last_row rows) + len text > ncols) then v_newline rows else rows)
  end.
Definition v_str (s : list Z) (colour : Z) (rows : Grid) : Grid := foldl (v_word colour) rows (words s).

(** [rows'] holds the text of [rows] and [added], but for what was scrolled
    out of the scrollback. *)
Definition extends (added : list (Z * Z)) (rows rows' : Grid) : Prop :=
  ∃ gone, gone ++ concat rows' = concat rows ++ added.

Lemma text_extends_trans a1 a2 r0 r1 r2 : extends a1 r0 r1 → extends a2 r1 r2 → extends (a1 ++ a2) r0 r2.
Proof. intros [g1 E1] [g2 E2]. exists (g1 ++ g2). by rewrite <-app_assoc, E2, app_assoc, E1, app_assoc. Qed.

Lemma newline_extends rows : extends [] rows (v_newline rows).
Proof.
  unfold v_newline. set (n := (_ - _)%nat). exists (concat (take n (rows ++ [[]]))).
  rewrite <-concat_app, take_drop, concat_app. cbn. by rewrite !app_nil_r.
Qed.

Lemma concat_put c rows : rows ≠ [] → concat (put_cell c rows) = concat rows ++ [c].
Proof.
  intros Hr. destruct (exists_last Hr) as (pre&l&->). unfold put_cell. rewrite on_last_app by done. cbn [on_last].
  rewrite !concat_app. cbn. by rewrite !app_nil_r, app_assoc.
Qed.

Lemma newline_ne rows : v_newline rows ≠ [].
Proof. apply grid_ne. rewrite len_newline. unfold MAX_SCROLLBACK_LINES. pose proof (len_nonneg rows). lia. Qed.

Lemma put_ne c (rows : Grid) : rows ≠ [] → put_cell c rows ≠ [].
Proof. intros Hr E. apply (f_equal length) in E. unfold put_cell in E. rewrite length_on_last in E. by destruct rows. Qed.

Lemma char_extends ch colour rows : rows ≠ [] → extends [(ch, colour)] rows (v_char ch colour rows) ∧ v_char ch colour rows ≠ [].
Proof.
  intros Hr. unfold v_char. destruct (decide _); (split; [|apply put_ne; first [done|apply newline_ne]]).
  - apply (text_extends_trans [] _ _ (v_newline rows)); [apply newline_extends|]. exists []. rewrite concat_put by apply newline_ne. done.
  - exists []. by rewrite concat_put.
Qed.

Lemma chars_extends text colour rows : rows ≠ [] →
  extends ((λ ch, (ch, colour)) <$> text) rows (v_chars text colour rows) ∧ v_chars text colour rows ≠ [].
Proof.
  revert rows. induction text as [|ch text IH]; intros rows Hr; cbn [v_chars foldl].
  { split; [|done]. exists []. by rewrite app_nil_r. }
  destruct (char_extends ch colour rows Hr) as [E1 N1]. destruct (IH _ N1) as [E2 N2]. split; [|done].
  apply (text_extends_trans [(ch, colour)] _ _ _ _ E1 E2).
Qed.

(** The characters of a word that are shown. *)
Definition word_text (w : Word) : list Z := match w with WNewline => [] | WWhitespace s | WText s => s end.
(** The characters a word is read from. *)
Definition word_source (w : Word) : list Z := match w with WNewline => [NEWLINE] | WWhitespace s | WText s => s end.

Lemma word_extends colour w rows : rows ≠ [] →
  extends ((λ ch, (ch, colour)) <$> word_text w) rows (v_word colour rows w) ∧ v_word colour rows w ≠ [].
Proof.
  intros Hr. destruct w as [|ws|text]; cbn [v_word word_text].
  - split; [apply newline_extends|apply newline_ne].
  - by apply chars_extends.
  - destruct (decide _); [|by apply chars_extends]. destruct (chars_extends text colour (v_newline rows)) as [E N]; [apply newline_ne|].
    split; [|done]. eapply (text_extends_trans []); [apply newline_extends|exact E].
Qed.
End rows.

(** ** Words *)
Lemma split_at_app p s : (split_at p s).1 ++ (split_at p s).2 = s.
Proof. induction s as [|c s IH]; [done|]. cbn. destruct (p c); [done|]. destruct (split_at p s). cbn in *. by f_equal. Qed.

Definition keep (s : list Z) : list Z := filter (λ c, c ≠ NEWLINE) s.

Lemma split_at_keep p s : (∀ c, c = NEWLINE → p c = true) → keep (split_at p s).1 = (split_at p s).1.
Proof.
  intros Hp. unfold keep. induction s as [|c s IH]; [done|]. cbn [split_at]. destruct (p c) eqn:E; [done|].
  destruct (split_at p s) as [a b]. cbn [fst snd] in *.
  rewrite filter_cons_True; [by f_equal|]. intros Hc. apply Hp in Hc. congruence.
Qed.

Lemma next_word s w rest : WordIter_next s = Some (w, rest) →
  s = word_source w ++ rest ∧ word_source w ≠ [] ∧ keep (word_source w) = word_text w.
Proof.
  unfold WordIter_next. destruct s as [|c r]; [done|]. destruct (decide (c = NEWLINE)) as [->|Hc]; [by intros [= <- <-]|].
  set (p := λ c, bool_decide (c = NEWLINE) || negb (is_whitespace c)).
  pose proof (split_at_app p (c :: r)) as Ea. pose proof (split_at_keep p (c :: r)) as Ek.
  pose proof (split_at_app is_whitespace (c :: r)) as Eb. pose proof (split_at_keep is_whitespace (c :: r)) as Ek'.
  destruct (split_at p (c :: r)) as [ws rest1] eqn:E1. cbn [fst snd] in *. destruct ws as [|x ws].
  - destruct (split_at is_whitespace (c :: r)) as [word rest2] eqn:E2. intros [= <- <-]. cbn [word_source word_text fst snd] in *.
    split; [done|]. split; [|apply Ek'; by intros ? ->]. intros ->. cbn in E1, E2. unfold p in E1.
    destruct (is_whitespace c) eqn:Ew; [|by destruct (split_at is_whitespace r)].
    rewrite bool_decide_eq_false_2 in E1 by done. cbn [negb orb] in E1. by destruct (split_at _ r).
  - intros [= <- <-]. cbn [word_source word_text]. split; [done|]. split; [done|]. apply Ek. intros ? ->. unfold p. by rewrite bool_decide_eq_true_2.
Qed.

(** The words hold the string, and their text all of it but the line breaks. *)
Lemma words_of s : (words s ≫= word_source) = s ∧ (words s ≫= word_text) = keep s.
Proof.
  unfold words. remember (length s) as n eqn:En. assert (length s <= n)%nat as Hn by lia. clear En. revert s Hn.
  induction n as [|n IH]; intros s Hn; [by destruct s; [|simpl in Hn; lia]|]. cbn [words_from]. destruct (WordIter_next s) as [[w rest]|] eqn:E.
  - destruct (next_word s w rest E) as (Es&Hw&Hk). destruct (IH rest) as [I1 I2].
    { apply (f_equal length) in Es. rewrite length_app in Es. destruct (word_source w); [done|]. simpl in Es. lia. }
    rewrite !bind_cons, I1, I2. split; [done|]. rewrite Es. unfold keep in *. by rewrite filter_app, Hk.
  - unfold WordIter_next in E. destruct s as [|c r]; [done|]. destruct (decide _); [done|]. destruct (split_at _ _) as [[|] ?]; [|done].
    by destruct (split_at _ _).
Qed.

Lemma words_short s w : w ∈ words s → len (word_text w) <= len s.
Proof.
  intros Hw. destruct (words_of s) as [E _]. apply list_elem_of_split in Hw as (l1&l2&El). rewrite El, bind_app, bind_cons in E.
  rewrite <-E, !len_app. pose proof (len_nonneg (l1 ≫= word_source)). pose proof (len_nonneg (l2 ≫= word_source)).
  assert (len (word_text w) <= len (word_source w)) by (destruct w; [vm_compute; done|simpl; lia..]). lia.
Qed.

(** What is written is there, in order. *)
Lemma str_extends ncols s colour rows : rows ≠ [] →
  extends ((λ ch, (ch, colour)) <$> keep s) rows (v_str ncols s colour rows) ∧ v_str ncols s colour rows ≠ [].
Proof.
  intros Hr. destruct (words_of s) as [_ <-]. unfold v_str. generalize (words s) as ws. intros ws. revert rows Hr.
  induction ws as [|w ws IH]; intros rows Hr; cbn [foldl].
  { split; [|done]. exists []. by rewrite app_nil_r. }
  destruct (word_extends ncols colour w rows Hr) as [E1 N1]. destruct (IH _ N1) as [E2 N2]. split; [|done].
  rewrite bind_cons, fmap_app. eapply text_extends_trans; [exact E1|exact E2].
Qed.

Lemma chars_fit ncols text colour rows : rows ≠ [] → len (last_row rows) + len text <= ncols →
  last_row (v_chars ncols text colour rows) = last_row rows ++ ((λ ch, (ch, colour)) <$> text).
Proof.
  revert rows. induction text as [|ch text IH]; intros rows Hr Hn; cbn [v_chars foldl]; [by rewrite app_nil_r|].
  rewrite len_cons in Hn. pose proof (len_nonneg text). assert (v_char ncols ch colour rows = put_cell (ch, colour) rows) as -> by (unfold v_char; by rewrite decide_False by lia).
  change (last_row (v_chars ncols text colour (put_cell (ch, colour) rows)) = last_row rows ++ ((λ ch, (ch, colour)) <$> ch :: text)).
  rewrite IH; [by rewrite last_put, <-app_assoc|by apply put_ne|]. rewrite last_put, len_app, len_cons, len_nil by done. lia.
Qed.

(** A word no longer than a row is not broken. *)
Lemma word_unbroken ncols colour text rows : rows ≠ [] → len text <= ncols →
  ∃ before, last_row (v_word ncols colour rows (WText text)) = before ++ ((λ ch, (ch, colour)) <$> text).
Proof.
  intros Hr Hn. cbn [v_word]. destruct (decide _) as [|Hf].
  - exists (last_row (v_newline rows)). apply chars_fit; [apply newline_ne|]. rewrite last_newline, len_nil. lia.
  - exists (last_row rows). apply chars_fit; [done|]. pose proof (len_nonneg (last_row rows)). lia.
Qed.

(** ** Lengths *)
Lemma chars_short s : len (chars s) <= len s.
Proof.
  unfold chars. assert (∀ n s, length (chars_from n s) <= n)%nat as Hg; [|unfold len; specialize (Hg (length s) s); lia].
  induction n as [|n IH]; intros s'; [done|]. destruct s' as [|b s']; cbn [chars_from]; [simpl; lia|].
  destruct (chars_next _); [|simpl; lia]. cbn [length]. specialize (IH (drop (utf8_width b) (b :: s'))). lia.
Qed.

Lemma decimal_short n : len (decimal n) <= 21.
Proof.
  assert (∀ k m, length (digits_from 10 k m) <= k)%nat as Hg.
  { induction k as [|k IH]; intros m; [done|]. cbn [digits_from]. destruct (decide _); [simpl; lia|]. rewrite length_app. specialize (IH (m / 10)). simpl. lia. }
  unfold decimal, len. pose proof (Hg 20%nat n). pose proof (Hg 20%nat (- n)). destruct (decide _); cbn [length]; lia.
Qed.

(** The names of commands are parts of the line. *)
Lemma split_at_short p s : len (split_at p s).1 <= len s ∧ len (split_at p s).2 <= len s.
Proof. pose proof (split_at_app p s) as E. apply (f_equal len) in E. rewrite len_app in E. pose proof (len_nonneg (split_at p s).1). pose proof (len_nonneg (split_at p s).2). lia. Qed.

Lemma trim_short s : len (trim s) <= len s.
Proof.
  unfold trim, trim_start. set (p := λ c, negb (is_whitespace c)). destruct (split_at_short p s) as [_ H1].
  destruct (split_at_short p (reverse (split_at p s).2)) as [_ H2]. unfold len in *. rewrite length_reverse in *. lia.
Qed.

Lemma split_ws_short s x : x ∈ split_whitespace s → len x <= len s.
Proof.
  unfold split_whitespace. generalize (length s) as n. intros n. revert s. induction n as [|n IH]; intros s; cbn [split_ws_from]; [by intros ?%elem_of_nil|].
  destruct (split_at_short (λ c, negb (is_whitespace c)) s) as [_ H1]. unfold trim_start. destruct (split_at _ s).2 as [|c s'] eqn:E; [by intros ?%elem_of_nil|].
  destruct (split_at_short is_whitespace (c :: s')) as [H2 H3]. destruct (split_at is_whitespace (c :: s')) as [word rest]. cbn [fst snd] in *.
  intros [->|Hx]%elem_of_cons; [lia|]. specialize (IH rest Hx). lia.
Qed.

Lemma split_char_short sep s x : x ∈ split_char sep s → len x <= len s.
Proof.
  revert x. induction s as [|c s IH]; intros x; cbn [split_char]; [by intros ->%list_elem_of_singleton|]. rewrite len_cons. pose proof (len_nonneg s).
  destruct (decide (c = sep)); [intros [->|Hx]%elem_of_cons; [change (0 <= 1 + len s); lia|specialize (IH x Hx); lia]|].
  destruct (split_char sep s) as [|seg segs]; [intros ->%list_elem_of_singleton; rewrite len_cons, len_nil; lia|].
  intros [->|Hx]%elem_of_cons; [rewrite len_cons; specialize (IH seg (list_elem_of_here _ _)); lia|].
  specialize (IH x (list_elem_of_further _ _ _ Hx)). lia.
Qed.

Lemma parse_stage_short seg st : parse_stage seg = Some st → len (stage_cmd st) <= len seg.
Proof.
  unfold parse_stage. pose proof (trim_short seg) as Ht. destruct (trim seg) as [|c s]; [done|]. pose proof (split_ws_short (c :: s)) as Hw.
  destruct (split_whitespace (c :: s)) as [|cmd args]; [done|]. intros [= <-]. specialize (Hw cmd (list_elem_of_here _ _)). cbn [stage_cmd]. lia.
Qed.

Lemma parse_pipeline_short line stages st : parse_pipeline line = Some stages → st ∈ stages → len (stage_cmd st) <= len line.
Proof.
  unfold parse_pipeline. pose proof (trim_short line) as Ht. destruct (trim line) as [|c s]; [done|]. intros E Hin.
  assert (st ∈ omap parse_stage (split_char PIPE (c :: s))) as Hst by (by destruct (omap parse_stage _); [|injection E as ->]).
  apply list_elem_of_omap in Hst as (seg&Hseg&Hp). apply parse_stage_short in Hp. apply split_char_short in Hseg. lia.
Qed.

(** Values without tables. *)
Fixpoint plain (v : Value) : bool :=
  match v with
  | VArray items => forallb plain items
  | VMap fields => forallb (λ kv, match kv with (_, v) => plain v end) fields
  | VStyled _ inner | VLink _ inner => plain inner
  | VTable _ => false
  | _ => true
  end.

Section screen.
Context {W : Type} `{TermWorldLaws W} (font : Z → Glyph) (cw w h : Z) (Hgeo : geometry font cw w h).
Implicit Types t : Term W.
Abbreviation M := (ST (Term W) TermExit).
Abbreviation shows := (TermProof.shows font cw w h).
Abbreviation canvas := (TermProof.canvas font w h).
Abbreviation ncols := (TermProof.ncols cw w).
Abbreviation nrows := (TermProof.nrows h).
Abbreviation visible := (TermProof.visible h).

(** An operation that changes the rows and what shows them, and succeeds. *)
Definition draws (m : M ()) (f : Grid → Grid) : Prop :=
  ∀ t rows, shows t rows → spec m t (λ _ t', shows t' (f rows) ∧ rest_of t' = rest_of t) (λ _ _, False).

Lemma draws_ret : draws (mret tt) id.
Proof. intros t rows Hs. by apply spec_ret. Qed.

Lemma draws_bind m m' f g : draws m f → draws m' g → draws (m;; m') (λ rows, g (f rows)).
Proof.
  intros Hm Hm' t rows Hs. eapply spec_bind; [by apply Hm|]. intros [] t1 [Hs1 R1].
  eapply spec_weaken; [by apply Hm'| |done]. intros [] t2 [Hs2 R2]. split; [done|congruence].
Qed.

Lemma draws_seq m m' f g k : draws m f → draws m' g → (∀ rows, k rows = g (f rows)) → draws (m;; m') k.
Proof. intros Hm Hm' E t rows Hs. rewrite E. by apply (draws_bind m m' f g). Qed.

(** A sequence of operations, each by [tac]. *)
Ltac dseq tac := first [solve [tac] | eapply draws_seq; [solve [tac]|dseq tac|intros; reflexivity]].

Lemma draws_for_each {A} (l : list A) body f : (∀ x, x ∈ l → draws (body x) (λ rows, f rows x)) → draws (for_each l body) (λ rows, foldl f rows l).
Proof.
  induction l as [|x l IH]; intros Hb; cbn [for_each foldl]; [apply draws_ret|].
  apply (draws_bind _ _ (λ rows, f rows x) (λ rows, foldl f rows l)); [apply Hb, list_elem_of_here|]. apply IH. intros; apply Hb. by apply list_elem_of_further.
Qed.

Lemma draws_ext m f g : (∀ rows, f rows = g rows) → draws m f → draws m g.
Proof. intros E Hm t rows Hs. rewrite <-E. by apply Hm. Qed.

Lemma newline_draws : draws (newline font) v_newline.
Proof. intros t rows Hs. by apply (newline_ok font cw w h Hgeo). Qed.

Lemma row_bound t rows : shows t rows → 0 <= len (last_row rows) <= ncols.
Proof.
  intros [_ E Hok Hr _ _]. split; [apply len_nonneg|]. pose proof (geo_sizes font cw w h Hgeo) as (?&_).
  unfold last_row. rewrite <-E, fmap_last. destruct (last (t_lines t)) as [l|] eqn:El; [|change (0 <= ncols); lia].
  apply last_Some_elem_of in El. rewrite Forall_forall in Hok. by apply Hok.
Qed.

(** The cursor is inside. *)
Lemma cursor_bounds t rows : shows t rows → MARGIN <= t_cx t <= w - MARGIN ∧ MARGIN <= t_cy t ∧ t_cy t + LINE_HEIGHT <= h - MARGIN
  ∧ t_width t = w ∧ t_height t = h.
Proof.
  intros Hs. pose proof (row_bound t rows Hs) as Hb. pose proof (geo_cw _ _ _ _ Hgeo). destruct Hs as [Hcv _ _ Hr -> ->].
  pose proof (geo_sizes font cw w h Hgeo) as (?&?&_). pose proof (len_visible font cw w h Hgeo rows) as Hv.
  destruct (rows_fit h (len (visible rows) - 1)) as [Hy0 Hy1]; [lia|]. destruct Hcv as [Ew Eh _ _ _ _ _ _].
  unfold cell_x, cell_y, TermProof.ncols in *. pose proof (Z.mul_div_le (w - 2 * MARGIN) cw ltac:(lia)). split_and!; try done; unfold LINE_HEIGHT in *; nia.
Qed.

Lemma write_char_draws ch colour : draws (write_char font (w - MARGIN) ch colour) (v_char ncols ch colour).
Proof.
  intros t rows Hs. pose proof (row_bound t rows Hs) as Hb. pose proof (cursor_bounds t rows Hs) as (Hx&_).
  pose proof (geo_sizes font cw w h Hgeo) as (Hnc&_&Hw&_&_&_&Hcw). pose proof (geo_cw _ _ _ _ Hgeo).
  unfold write_char, u32. apply spec_bind_gets. unfold id. rewrite (measure_mono font cw w h Hgeo).
  eapply spec_bind_Ok; [apply chk_ok; unfold in_u, MARGIN in *; lia|].
  pose proof (cols_full font cw w h Hgeo (len (last_row rows)) (proj1 Hb)) as Hfull. rewrite <-(sh_cx _ _ _ _ _ _ Hs) in Hfull.
  unfold v_char. rewrite <-(decide_ext _ _ (v_newline rows) rows Hfull). destruct (decide _) as [Hf|Hf].
  - eapply spec_bind; [by apply newline_draws|]. intros [] t1 [Hs1 R1].
    eapply spec_weaken; [apply (emit_char_ok font cw w h Hgeo t1 (v_newline rows) ch colour Hs1); rewrite last_newline, len_nil; lia| |done].
    intros [] t2 [Hs2 R2]. split; [done|congruence].
  - apply spec_bind_ret. apply (emit_char_ok font cw w h Hgeo t rows ch colour Hs). destruct (decide (len (last_row rows) >= ncols)); [tauto|lia].
Qed.

Lemma write_chars_draws text colour : draws (for_each text (λ ch, write_char font (w - MARGIN) ch colour)) (v_chars ncols text colour).
Proof. apply (draws_for_each _ _ (λ rows ch, v_char ncols ch colour rows)). intros ch _. apply write_char_draws. Qed.

Lemma measure_text_mono text : len text < 2 ^ 17 → measure_text font text = Ok (cw * len text).
Proof.
  pose proof (geo_sizes font cw w h Hgeo) as (_&_&_&_&_&_&Hcw). pose proof (geo_cw _ _ _ _ Hgeo).
  intros Hl. unfold measure_text. assert (∀ n, 0 <= n → n + len text < 2 ^ 17 →
    foldl (λ width ch, width ← width; chk 32 (width + measure_char font ch)) (Ok (cw * n)) text = Ok (E:=TermExit) (cw * (n + len text))) as Hg.
  { clear Hl. induction text as [|ch text IH]; intros n Hn Hl; cbn [foldl]; [by rewrite len_nil, Z.add_0_r|]. rewrite len_cons in *.
    pose proof (len_nonneg text). cbn [mbind outcome_bind]. rewrite (measure_mono font cw w h Hgeo), chk_Ok by (unfold in_u; nia).
    replace (cw * n + cw) with (cw * (n + 1)) by lia. rewrite IH by lia. do 2 f_equal. lia. }
  specialize (Hg 0 ltac:(lia) ltac:(lia)). by rewrite Z.mul_0_r, Z.add_0_l in Hg.
Qed.

Lemma write_word_draws colour wd : len (word_text wd) < 2 ^ 17 → draws (write_word font (w - MARGIN) colour wd) (λ rows, v_word ncols colour rows wd).
Proof.
  destruct wd as [|ws|text]; cbn [write_word v_word word_text]; intros Hl; [apply newline_draws|apply write_chars_draws|].
  intros t rows Hs. pose proof (row_bound t rows Hs) as Hb. pose proof (cursor_bounds t rows Hs) as (Hx&_).
  pose proof (geo_sizes font cw w h Hgeo) as (Hnc&_&Hw&_&_&_&Hcw). pose proof (geo_cw _ _ _ _ Hgeo). unfold u32.
  eapply spec_bind_Ok; [by apply measure_text_mono|]. apply spec_bind_gets. unfold id. pose proof (len_nonneg text).
  assert (t_cx t > MARGIN ↔ 0 < len (last_row rows)) as Hc by (rewrite (sh_cx _ _ _ _ _ _ Hs); unfold cell_x; nia).
  assert (t_cx t + cw * len text > w - MARGIN ↔ len (last_row rows) + len text > ncols) as Hf.
  { rewrite (sh_cx _ _ _ _ _ _ Hs). unfold cell_x, TermProof.ncols, MARGIN in *. pose proof (Z.mul_div_le (w - 2 * 10) cw ltac:(lia)).
    pose proof (Z.mul_succ_div_gt (w - 2 * 10) cw ltac:(lia)). nia. }
  rewrite <-(decide_ext (t_cx t > MARGIN ∧ t_cx t + cw * len text > w - MARGIN) _ (v_newline rows) rows) by tauto.
  set (rows' := if decide _ then v_newline rows else rows). eapply (spec_bind _ _ _ (λ _ t1, shows t1 rows' ∧ rest_of t1 = rest_of t)).
  - unfold rows'. destruct (decide (t_cx t > MARGIN)) as [Hm|Hm]; [|rewrite decide_False by tauto; by apply spec_ret].
    eapply spec_bind_Ok; [apply chk_ok; unfold in_u, MARGIN in *; nia|]. destruct (decide (t_cx t + cw * len text > w - MARGIN)).
    + rewrite decide_True by done. by apply newline_draws.
    + rewrite decide_False by tauto. by apply spec_ret.
  - intros [] t1 [Hs1 R1]. eapply spec_weaken; [by apply write_chars_draws| |done]. intros [] t2 [Hs2 R2]. split; [done|congruence].
Qed.

Lemma write_coloured_draws s colour : len s < 2 ^ 17 → draws (write_str_coloured font s colour) (v_str ncols s colour).
Proof.
  intros Hl t rows Hs. pose proof (cursor_bounds t rows Hs) as (_&_&_&Ew&_). unfold write_str_coloured, u32. apply spec_bind_gets. unfold id. rewrite Ew.
  pose proof (geo_sizes font cw w h Hgeo) as (_&_&Hw&_&Hw0&_). eapply spec_bind_Ok; [apply chk_ok; unfold in_u, MARGIN in *; lia|].
  apply (draws_for_each _ _ (v_word ncols colour)); [|done]. intros wd Hwd. apply write_word_draws. pose proof (words_short s wd Hwd). lia.
Qed.

(** ** Values *)
Definition v_text (s : list Z) : Grid → Grid := v_str ncols s COLOUR_DEFAULT_FG.

Definition v_break (i : nat) (rows : Grid) : Grid := if decide (0 < i)%nat then v_newline rows else rows.
Fixpoint v_items (i : nat) (items : list (Grid → Grid)) (rows : Grid) : Grid :=
  match items with
  | [] => rows
  | item :: items => v_items (S i) items (item (v_text (lit "  - ") (v_break i rows)))
  end.
Fixpoint v_fields (i : nat) (fields : list (list Z * (Grid → Grid))) (rows : Grid) : Grid :=
  match fields with
  | [] => rows
  | (k, item) :: fields => v_fields (S i) fields (item (v_text (lit ": ") (v_text k (v_break i rows))))
  end.

Fixpoint v_value (v : Value) : Grid → Grid :=
  match v with
  | VNull => v_text (lit "null")
  | VBool b => v_text (if b then lit "true" else lit "false")
  | VInt i => v_text (decimal i)
  | VFloat f => v_text (fmt_f64 (W:=W) f)
  | VString s => v_text (chars s)
  | VBytes b => v_text (bytes_text (len b))
  | VArray items => v_items 0 (List.map v_value items)
  | VMap fields => v_fields 0 (List.map (λ kv, match kv with (k, v) => (chars k, v_value v) end) fields)
  | VStyled style inner =>
      match inner with
      | VString s => v_str ncols (chars s) (match foreground style with Some c => colour_to_argb c | None => COLOUR_DEFAULT_FG end)
      | _ => v_value inner
      end
  | VLink url inner => λ rows, v_text (lit ")") (v_text (chars url) (v_text (lit " (") (v_value inner rows)))
  | VTable _ => id
  end.

Lemma write_str_draws s : len s < 2 ^ 17 → draws (write_str font s) (v_text s).
Proof. intros Hl. by apply write_coloured_draws. Qed.

Lemma break_draws i : draws (if decide (0 < i)%nat then newline font else mret tt) (v_break i).
Proof. unfold v_break. destruct (decide _); [apply newline_draws|apply draws_ret]. Qed.

Lemma items_draws items vs : Forall2 draws items vs → ∀ i, draws (render_items font i items) (v_items i vs).
Proof.
  induction 1 as [|m f items vs Hm _ IH]; intros i; cbn [render_items v_items]; [apply draws_ret|].
  dseq ltac:(first [apply IH|apply break_draws|by apply write_str_draws|exact Hm]).
Qed.

Lemma fields_draws fields vs : Forall2 (λ a b, a.1 = b.1 ∧ len a.1 < 2 ^ 17 ∧ draws a.2 b.2) fields vs → ∀ i, draws (render_fields font i fields) (v_fields i vs).
Proof.
  induction 1 as [|[k m] [k' f] fields vs Hm _ IH]; intros i; cbn [render_fields v_fields]; [apply draws_ret|]. destruct Hm as (Hk&Hl&Hm). cbn [fst snd] in *. subst k'.
  dseq ltac:(first [apply IH|apply break_draws|by apply write_str_draws|exact Hm]).
Qed.

Lemma chars_draws s colour : wf_str s → draws (write_str_coloured font (chars s) colour) (v_str ncols (chars s) colour).
Proof. intros [_ Hl]. apply write_coloured_draws. pose proof (chars_short s). lia. Qed.

Lemma value_draws v : plain v → wf_value v → draws (render_value font v) (v_value v).
Proof.
  induction v as [|b|i|f|s|b|l IH|m IH|s v IH|u v IH|tb IHh IHc] using value_ind; intros Hp Hwf; cbn [render_value v_value].
  - by apply write_str_draws.
  - by destruct b; apply write_str_draws.
  - apply write_str_draws. pose proof (decimal_short i). lia.
  - apply write_str_draws. pose proof (fmt_short f). lia.
  - by apply chars_draws.
  - apply write_str_draws. unfold bytes_text. rewrite !len_app. pose proof (decimal_short (len b)). change (len (lit "<")) with 1. change (len (lit " bytes>")) with 7. lia.
  - destruct Hwf as [Hl _]. rewrite all_Forall in Hl. apply items_draws. cbn [plain] in Hp.
    induction l as [|x l IHl]; cbn [List.map]; constructor.
    + apply (Forall_inv IH); [|by apply (Forall_inv Hl)]. cbn in Hp. by apply andb_prop_elim in Hp as [].
    + apply IHl; [by apply Forall_inv_tail in IH|by cbn in Hp; apply andb_prop_elim in Hp as []|by apply Forall_inv_tail in Hl].
  - destruct Hwf as (Hl&_). rewrite all_Forall in Hl. apply fields_draws. cbn [plain] in Hp.
    induction m as [|[k x] m IHm]; cbn [List.map]; constructor.
    + apply Forall_inv in Hl as [[_ Hk] Hx]. cbn in Hp. apply andb_prop_elim in Hp as [Hp _]. cbn [fst snd]. split_and!; [done|pose proof (chars_short k); lia|].
      by apply (Forall_inv IH).
    + apply IHm; [by apply Forall_inv_tail in IH|by cbn in Hp; apply andb_prop_elim in Hp as []|by apply Forall_inv_tail in Hl].
  - destruct Hwf as [_ Hv]. specialize (IH Hp Hv). by destruct v; try exact IH; apply chars_draws.
  - destruct Hwf as [Hu Hv]. dseq ltac:(first [by apply IH|by apply write_str_draws|by apply chars_draws]).
  - done.
Qed.

(** ** Showing and clearing *)
(** An operation after which the window shows everything. *)
Definition settles (m : M ()) (f : Grid → Grid) : Prop :=
  ∀ t rows, shows t rows → spec m t (λ _ t', shows t' (f rows) ∧ t_dirty t' = None ∧ rest_of t' = rest_of t) (λ _ _, False).

Lemma settles_seq m m' f g k : draws m f → settles m' g → (∀ rows, k rows = g (f rows)) → settles (m;; m') k.
Proof.
  intros Hm Hm' E t rows Hs. rewrite E. eapply spec_bind; [by apply Hm|]. intros [] t1 [Hs1 R1].
  eapply spec_weaken; [by apply Hm'| |done]. intros [] t2 (Hs2&D2&R2). split_and!; [done|done|congruence].
Qed.

Lemma flush_settles : settles flush id.
Proof.
  intros t rows [Hcv L O N X Y]. eapply spec_weaken; [by apply (flush_ok font cw w h Hgeo)| |done].
  intros [] t' (Hcv'&D&X'&Y'&L'&R). split; [|done]. split; rewrite ?L', ?X', ?Y'; done.
Qed.

Lemma screen_clear_ok R t pic0 : canvas_but font w h R t pic0 →
  spec clear t (λ _ t', shows t' [[]] ∧ t_dirty t' = None ∧ rest_of t' = rest_of t) (λ _ _, False).
Proof.
  intros Hcv. pose proof (geo_sizes font cw w h Hgeo) as (?&?&_). unfold clear. apply spec_bind_modify. apply spec_bind_gets. unfold id. cbn [set_lines t_width t_height].
  pose proof Hcv as [-> -> _ _ _ _ _ _].
  eapply spec_bind; [apply (fill_all_ok font cw w h Hgeo R _ pic0); by eapply canvas_same; [|exact Hcv]|]. intros [] t1 (Hcv1&X1&Y1&L1&R1).
  eapply spec_bind; [by apply (flush_ok font cw w h Hgeo)|]. intros [] t2 (Hcv2&D2&X2&Y2&L2&R2). apply spec_modify.
  assert (t_lines t2 = [[]]) as L by (by rewrite L2, L1). assert (visible [[]] = [[]]) as Ev by (unfold TermProof.visible; cbn [length]; by replace (1 - Z.to_nat nrows)%nat with 0%nat by lia).
  split_and!; [|done|by transitivity (rest_of t1)]. split; cbn [set_cursor t_lines t_cx t_cy]; rewrite ?L, ?Ev; try done.
  - eapply canvas_ext; [|by eapply canvas_same; [|exact Hcv2]]. intros x y _. by rewrite <-(picture_blank font cw []).
  - apply Forall_singleton. split; [|by apply Forall_nil]. change (0 <= ncols). lia.
  - change (MARGIN = cell_x cw 0). unfold cell_x. lia.
Qed.

(** Behind the cursor and below it nothing is shown. *)
Lemma blank_behind t rows x y : shows t rows → t_cy t <= y → t_cx t <= x ∨ t_cy t + LINE_HEIGHT <= y →
  picture font cw (visible rows) x y = BACKGROUND.
Proof.
  intros Hs Hy Hx. pose proof (row_bound t rows Hs) as Hb. pose proof (geo_cw _ _ _ _ Hgeo). pose proof (geo_sizes font cw w h Hgeo) as (?&?&_).
  destruct Hs as [_ _ _ Hr Ex Ey]. unfold picture, cell_at. destruct (decide _) as [[Mx My]|]; [|done].
  pose proof (len_visible font cw w h Hgeo rows) as Hv. rewrite Ex, Ey in *. unfold cell_x, cell_y, LINE_HEIGHT in *.
  assert (len (visible rows) - 1 <= (y - MARGIN) / 20) as Hrow by (apply Z.div_le_lower_bound; lia).
  destruct (decide (len (visible rows) <= (y - MARGIN) / 20)) as [Hlow|Hlow]; [rewrite lookup_ge_None_2; [done|unfold len in *; lia]|].
  assert (y < MARGIN + 20 * (len (visible rows) - 1) + 20) by (pose proof (Z.mul_succ_div_gt (y - MARGIN) 20 ltac:(lia)); lia).
  replace (Z.to_nat ((y - MARGIN) / 20)) with (length (visible rows) - 1)%nat by (unfold len in *; lia).
  rewrite last_row_lookup by (apply (visible_ne font cw w h Hgeo); lia). rewrite (last_visible font cw w h Hgeo) by lia. cbn [mbind option_bind].
  assert (len (last_row rows) <= (x - MARGIN) / cw) by (apply Z.div_le_lower_bound; lia).
  rewrite lookup_ge_None_2; [done|]. unfold len in *. lia.
Qed.

Lemma fill_blank_ok t rows x y ww hh : shows t rows → 0 <= x → 0 <= ww → x + ww <= w → 0 <= y → 0 <= hh → y + hh <= h →
  (∀ a b, x <= a < x + ww → y <= b < y + hh → picture font cw (visible rows) a b = BACKGROUND) →
  spec (fb_fill x y ww hh COLOUR_BACKGROUND) t (λ _ t', shows t' rows ∧ rest_of t' = rest_of t) (λ _ _, False).
Proof.
  intros [Hcv L O N X Y] Hx Hww Hxe Hy Hhh Hye Hb.
  eapply spec_weaken; [by apply (fb_fill_ok font cw w h Hgeo (λ _ _, False) t _ x y ww hh COLOUR_BACKGROUND Hcv)| |done].
  intros [] t' (Hcv'&X'&Y'&L'&R). split; [|done]. split; rewrite ?L', ?X', ?Y'; try done.
  eapply canvas_ext; [|exact Hcv']. intros a b _. unfold patch. destruct (decide _) as [[Ha Hb']|]; [|done]. by rewrite Hb.
Qed.

Lemma clear_eol_draws : draws clear_to_end_of_line id.
Proof.
  intros t rows Hs. pose proof (cursor_bounds t rows Hs) as (Hx&Hy&Hye&Ew&Eh). pose proof (geo_sizes font cw w h Hgeo) as (_&_&Hw&Hh&_).
  unfold clear_to_end_of_line, u32. apply spec_bind_gets. unfold id. rewrite Ew. unfold MARGIN, LINE_HEIGHT in *.
  eapply spec_bind_Ok; [apply chk_ok; unfold in_u; lia|]. eapply spec_bind_Ok; [apply chk_ok; unfold in_u; lia|].
  apply fill_blank_ok; try done; try lia. intros a b Ha Hb. apply (blank_behind t); [done|lia|left; lia].
Qed.

(** Clearing the screen forgets the rows; clearing what follows the cursor
    changes nothing. *)
Definition v_clear (region : ClearRegion) (rows : Grid) : Grid := match region with CScreen => [[]] | _ => rows end.

Lemma below_ok t rows : shows t rows →
  spec (y_start ← u32 (t_cy t + LINE_HEIGHT);
        limit ← u32 (t_height t - MARGIN);
        if decide (y_start < limit) then
          w ← u32 (t_width t - 2 * MARGIN);
          h ← u32 (t_height t - y_start);
          h ← u32 (h - MARGIN);
          fb_fill MARGIN y_start w h COLOUR_BACKGROUND
        else mret tt) t (λ _ t', shows t' rows ∧ rest_of t' = rest_of t) (λ _ _, False).
Proof.
  intros Hs. pose proof (cursor_bounds t rows Hs) as (Hx&Hy&Hye&Ew&Eh). pose proof (geo_sizes font cw w h Hgeo) as (_&_&Hw&Hh&Hw0&_).
  rewrite Ew, Eh. unfold u32, MARGIN, LINE_HEIGHT in *. do 2 (eapply spec_bind_Ok; [apply chk_ok; unfold in_u; lia|]).
  destruct (decide _); [|by apply spec_ret]. do 3 (eapply spec_bind_Ok; [apply chk_ok; unfold in_u; lia|]).
  apply fill_blank_ok; try done; try lia. intros a b Ha Hb. apply (blank_behind t); [done|lia|right; unfold LINE_HEIGHT; lia].
Qed.

Lemma clear_region_settles region : region ≠ CLine → settles (clear_region region) (v_clear region).
Proof.
  intros Hr t rows Hs. unfold clear_region. eapply (spec_bind _ _ _ (λ _ t', shows t' (v_clear region rows) ∧ rest_of t' = rest_of t)).
  - destruct region; [..|done].
    all: try first [by apply clear_eol_draws | eapply spec_weaken; [apply (screen_clear_ok _ t _ (sh_canvas _ _ _ _ _ _ Hs))|by intros [] t' (?&?&?)|done]].
    eapply spec_bind; [by apply clear_eol_draws|]. intros [] t1 [Hs1 R1]. apply spec_bind_gets.
    eapply spec_weaken; [by apply below_ok| |done]. intros [] t2 [Hs2 R2]. split; [done|congruence].
  - intros [] t1 [Hs1 R1]. eapply spec_weaken; [by apply flush_settles| |done]. intros [] t2 (Hs2&D2&R2). split_and!; [done|done|congruence].
Qed.

(** ** Requests *)
(** Requests that draw inside their lines: no tables, no moves of the cursor
    and no input, and a progress whose percentage does not overflow. *)
Definition request_ok (r : Request) : Prop :=
  match r with
  | RError v | RWarning v | RWrite v => plain v
  | RMoveCursor _ _ | RRequestInput _ => False
  | RClear region => region ≠ CLine
  | RProgress current total _ => total > 0 → current * 100 < 2 ^ 32
  | RSetTitle _ | RQuery _ | RExit _ => True
  end.

Definition v_request (r : Request) (rows : Grid) : Grid :=
  match r with
  | RError v => v_newline (v_value v (v_str ncols (lit "[ERROR] ") 0xFFFF0000 rows))
  | RWarning v => v_newline (v_value v (v_str ncols (lit "[WARN] ") 0xFFFFFF00 rows))
  | RWrite v => v_value v rows
  | RClear region => v_clear region rows
  | RProgress current total message =>
      let percent := if decide (total > 0) then current * 100 / total else 0 in
      v_newline (v_text (lit "[" ++ decimal percent ++ lit "%] " ++ chars message) rows)
  | _ => rows
  end.

Lemma shows_world t rows wd : w_dims wd = w_dims (t_world t) ∧ w_surf wd = w_surf (t_world t) → shows t rows → shows (set_world t wd) rows.
Proof.
  intros [Ed Es] [[? ? ? ? ? ? Sh ?] L O N X Y]. split; try done. split; try done; [cbn [set_world t_world]; by rewrite Ed|].
  unfold shown_but in *. cbn [set_world t_world t_dirty t_fb]. by rewrite Es.
Qed.

Definition shown t rows : Prop := shows t rows ∧ t_dirty t = None ∧ t_avg t = cw.
(** An operation between events: the window shows everything before and after. *)
Definition calm (m : M ()) (f : Grid → Grid) : Prop :=
  ∀ t rows, shown t rows → spec m t (λ _ t', shown t' (f rows) ∧ rest_of t' = rest_of t) (λ _ _, False).

Lemma avg_rest t t' : rest_of t' = rest_of t → t_avg t' = t_avg t.
Proof. by intros [=]. Qed.

Lemma settles_calm m f : settles m f → calm m f.
Proof.
  intros Hm t rows (Hs&_&Ha). eapply spec_weaken; [by apply Hm| |done]. intros [] t' (Hs'&D&R). split; [|done]. split_and!; [done|done|].
  by rewrite (avg_rest _ _ R).
Qed.

Lemma send_event_calm handle e : calm (send_event handle e) id.
Proof.
  intros t rows (Hs&D&A). unfold send_event. rewrite Event_to_bytes_frame. eapply spec_bind_Ok; [done|]. apply spec_modify.
  split; [|done]. split; [|done]. apply shows_world; [apply w_send_ok|done].
Qed.

Lemma answer_ok t rows q : shown t rows → spec (answer_query q) t (λ _ t', t' = t) (λ _ _, False).
Proof.
  intros (Hs&_&Ha). pose proof (cursor_bounds t rows Hs) as (Hx&Hy&Hye&Ew&Eh). pose proof (geo_sizes font cw w h Hgeo) as (_&_&Hw&Hh&Hw0&Hh0&_).
  pose proof (geo_cw _ _ _ _ Hgeo) as Hcw. unfold answer_query, u32, u32_div. apply spec_bind_gets. unfold id. rewrite Ew, Eh, Ha. unfold MARGIN, LINE_HEIGHT in *.
  destruct q; repeat first [eapply spec_bind_Ok; [apply chk_ok; unfold in_u; lia|] | rewrite decide_False by lia | apply spec_bind_ret]; by apply spec_ret.
Qed.

Lemma percent_ok t current total : (total > 0 → current * 100 < 2 ^ 32) → 0 <= current →
  spec (if decide (total > 0) then c ← u32 (current * 100); mret (c / total) else mret 0) t
    (λ p t', p = (if decide (total > 0) then current * 100 / total else 0) ∧ t' = t) (λ _ _, False).
Proof.
  intros Hp Hc. destruct (decide (total > 0)) as [Ht|]; [|by apply spec_ret]. specialize (Hp Ht). unfold u32.
  eapply spec_bind_Ok; [apply chk_ok; unfold in_u; lia|]. by apply spec_ret.
Qed.

Ltac sseq tac := first [apply flush_settles | eapply settles_seq; [solve [tac]|sseq tac|intros; reflexivity]].

Lemma progress_text_short percent message : wf_str message → len (lit "[" ++ decimal percent ++ lit "%] " ++ chars message) < 2 ^ 17.
Proof.
  intros [_ Hl]. rewrite !len_app. pose proof (decimal_short percent). pose proof (chars_short message).
  change (len (lit "[")) with 1. change (len (lit "%] ")) with 3. lia.
Qed.

Lemma request_calm r handle : request_ok r → wf_request r → calm (term_handle_request font r handle) (v_request r).
Proof.
  destruct r as [v|v|row col|region|req|title|current total message|q|code|v]; cbn [request_ok wf_request term_handle_request v_request]; intros Hr Hwf; try done.
  1, 2, 6: apply settles_calm; sseq ltac:(first [by apply write_coloured_draws|by apply value_draws|apply newline_draws]).
  - by apply settles_calm, clear_region_settles.
  - intros t rows Hs. destruct Hwf as ([Hc _]&_&Hm). eapply spec_bind; [by apply percent_ok|]. intros p t1 [-> ->].
    apply (settles_calm _ (λ rows, v_newline (v_text _ rows))); [|done]. sseq ltac:(first [by apply write_str_draws, progress_text_short|apply newline_draws]).
  - intros t rows Hs. eapply spec_bind; [by apply (answer_ok t rows)|]. intros a t1 ->. by apply send_event_calm.
Qed.

(** A message: a request, or a value of its own. *)
Definition msg_ok (buf : list Z) : Prop :=
  Forall is_u8 buf ∧
  match Request_from_bytes buf with
  | Ok (r, _) => request_ok r
  | _ => match Value_from_bytes buf with Ok v => plain v | _ => True end
  end.

Definition v_message (buf : list Z) : Grid → Grid :=
  match Request_from_bytes buf with
  | Ok (r, _) => v_request r
  | _ => match Value_from_bytes buf with Ok v => v_value v | _ => id end
  end.
Fixpoint v_messages (msgs : list (list Z)) (rows : Grid) : Grid :=
  match msgs with
  | [] => rows
  | buf :: msgs => if decide (buf = []) then rows else v_messages msgs (v_message buf rows)
  end.

Lemma calm_seq m m' f g k : calm m f → calm m' g → (∀ rows, k rows = g (f rows)) → calm (m;; m') k.
Proof.
  intros Hm Hm' E t rows Hs. rewrite E. eapply spec_bind; [by apply Hm|]. intros [] t1 [Hs1 R1].
  eapply spec_weaken; [by apply Hm'| |done]. intros [] t2 (Hs2&R2). split; [done|congruence].
Qed.

Lemma messages_calm handle msgs : Forall msg_ok msgs → calm (process_child_messages font handle msgs) (v_messages msgs).
Proof.
  induction msgs as [|buf msgs IH]; intros Hok; cbn [process_child_messages v_messages]; [intros t rows Hs; by apply spec_ret|].
  apply Forall_cons in Hok as [[Hb Hm] Hok]. destruct (decide (buf = [])); [intros t rows Hs; by apply spec_ret|].
  eapply calm_seq; [|by apply IH|done]. unfold v_message.
  pose proof (framed_safe Request_decode_with_header wf_request buf Hb) as Hr. fold (Request_from_bytes buf) in Hr.
  destruct (Request_from_bytes buf) as [[r k]|e| |]; [| |done|done]; [apply request_calm; tauto|].
  pose proof (safe_from_bytes Value_decode wf_value buf Hb) as Hv. fold (Value_from_bytes buf) in Hv.
  destruct (Value_from_bytes buf) as [v|e'| |]; [| |done|done]; [|intros t rows Hs; by apply spec_ret].
  apply settles_calm. eapply settles_seq; [by apply value_draws|apply flush_settles|done].
Qed.

(** ** Keys *)
(** What is left alone besides the command line. *)
Definition others_of t := (t_child t, t_pipeline t, t_pending t, t_fg t, t_avg t).

Lemma handle_char_ok t rows ch : shown t rows →
  spec (handle_char font ch) t
    (λ _ t', shown t' (v_char ncols ch (t_fg t) rows) ∧ t_line t' = t_line t ++ [ch] ∧ others_of t' = others_of t) (λ _ _, False).
Proof.
  intros (Hs&D&A). pose proof (cursor_bounds t rows Hs) as (Hx&_&_&Ew&_). pose proof (geo_sizes font cw w h Hgeo) as (Hnc&_&Hw&_&Hw0&_&Hcw).
  pose proof (row_bound t rows Hs) as Hb. pose proof (geo_cw _ _ _ _ Hgeo). unfold handle_char, u32. apply spec_bind_gets. unfold id.
  rewrite (measure_mono font cw w h Hgeo), Ew. do 2 (eapply spec_bind_Ok; [apply chk_ok; unfold in_u, MARGIN in *; lia|]).
  pose proof (cols_full font cw w h Hgeo (len (last_row rows)) (proj1 Hb)) as Hfull. rewrite <-(sh_cx _ _ _ _ _ _ Hs) in Hfull.
  set (rows' := if decide (len (last_row rows) >= ncols) then v_newline rows else rows).
  eapply (spec_bind _ _ _ (λ _ t1, shows t1 rows' ∧ len (last_row rows') < ncols ∧ rest_of t1 = rest_of t)).
  - unfold rows'. destruct (decide (t_cx t + cw > w - MARGIN)) as [Hf|Hf]; [rewrite (decide_True _ _ (proj1 Hfull Hf))|rewrite decide_False by tauto].
    + eapply spec_weaken; [by apply newline_draws| |done]. intros [] t1 [Hs1 R1]. split_and!; [done|rewrite last_newline, len_nil; lia|done].
    + apply spec_ret. split_and!; [done| |done]. destruct (decide (len (last_row rows) >= ncols)); [tauto|lia].
  - intros [] t1 (Hs1&Hl1&R1). apply spec_bind_gets. unfold id. replace (t_fg t1) with (t_fg t) by (by injection R1).
    eapply spec_bind; [by apply (emit_char_ok font cw w h Hgeo)|]. intros [] t2 [Hs2 R2]. apply spec_bind_modify.
    eapply spec_weaken; [apply flush_settles; eapply shows_same; [|exact Hs2]; done| |done]. intros [] t3 (Hs3&D3&R3).
    assert (rest_of t2 = rest_of t) as R by congruence. unfold rest_of, others_of in *. cbn [set_line t_line t_child t_pipeline t_pending t_fg t_avg] in R3.
    split_and!; [split_and!; [done|done|congruence]|congruence|congruence].
Qed.

(** The last character of the last line removed. *)
Lemma backspace_settles ch : settles (unrecord_char;; backspace_width (measure_char font ch);; flush) pop_cell.
Proof.
  intros t rows Hs. pose proof (cursor_bounds t rows Hs) as (Hx&Hy&Hye&Ew&_). pose proof (geo_sizes font cw w h Hgeo) as (Hnc&_&Hw&_&_&_&Hcw).
  pose proof (row_bound t rows Hs) as Hb. pose proof (geo_cw _ _ _ _ Hgeo).
  assert (len (removelast (last_row rows)) <= len (last_row rows)) as Hrl by (destruct (decide (last_row rows = [])) as [->|Hne]; [done|];
    destruct (exists_last Hne) as (l&c&->); rewrite removelast_last, len_app; pose proof (len_nonneg [c]); lia).
  destruct (shows_edit font cw w h t rows pop_char (λ l, removelast l) Hs) as [HL HO]; [apply pop_char_chars|apply pop_char_ok|lia|].
  destruct Hs as [Hcv L O N X Y]. unfold unrecord_char, backspace_width. apply spec_bind_modify.
  eapply (spec_bind _ _ _ (λ _ t', shows t' (pop_cell rows) ∧ rest_of t' = rest_of t)).
  2: { intros [] t1 [Hs1 R1]. eapply spec_weaken; [by apply flush_settles| |done]. intros [] t2 (Hs2&D2&R2). split_and!; [done|done|congruence]. }
  apply spec_bind_gets. unfold id. cbn [set_lines t_cx t_cy]. rewrite (measure_mono font cw w h Hgeo).
  assert (visible (pop_cell rows) = pop_cell (visible rows)) as Hv by (apply (visible_on_last font cw w h Hgeo); lia).
  assert (len (visible (pop_cell rows)) = len (visible rows)) as Hlv by (by rewrite Hv, len_pop).
  destruct (decide (t_cx t > MARGIN)) as [Hm|Hm].
  - assert (last_row rows ≠ []) as Hne by (intros E; rewrite X, E, len_nil in Hm; unfold cell_x in Hm; lia).
    assert (t_cx t - cw = cell_x cw (len (last_row rows) - 1)) as Ex by (rewrite X; unfold cell_x; lia).
    assert (0 < len (last_row rows)) by (destruct (last_row rows); [done|rewrite len_cons; pose proof (len_nonneg l); lia]).
    assert (MARGIN <= t_cx t - cw) as Hge by (rewrite Ex; unfold cell_x; nia). cbv zeta. rewrite Z.max_l by (unfold MARGIN in *; lia). apply spec_bind_modify.
    eapply spec_weaken; [apply (fb_fill_ok font cw w h Hgeo (λ _ _, False) _ (picture font cw (visible rows)));
      [by eapply canvas_same; [|exact Hcv]|unfold MARGIN, LINE_HEIGHT in *; (lia || done)..]| |done].
    intros [] t' (Hcv'&X'&Y'&L'&R'). cbn [set_cursor set_lines t_cx t_cy t_lines] in X', Y', L'. split; [|exact R']. split.
    + eapply canvas_ext; [|exact Hcv']. intros a b _. rewrite Hv, Ex, Y, <-(last_visible font cw w h Hgeo rows) by lia.
      apply (picture_pop font cw w h Hgeo (visible rows) a b). by rewrite (last_visible font cw w h Hgeo) by lia.
    + by rewrite L'.
    + by rewrite L'.
    + by rewrite len_pop.
    + rewrite X', Ex, last_pop. f_equal. destruct (exists_last Hne) as (l&c&->). rewrite removelast_last, len_app, len_cons, len_nil. lia.
    + rewrite Y', Y, Hlv. done.
  - assert (last_row rows = []) as E.
    { destruct (last_row rows) as [|c l] eqn:E; [done|]. rewrite X, len_cons in Hm. pose proof (len_nonneg l). unfold cell_x in Hm. nia. }
    assert (pop_cell rows = rows) as Ep.
    { unfold pop_cell. destruct (exists_last (grid_ne rows (proj1 N))) as (pre&l&->). rewrite on_last_app by done. cbn [on_last].
      unfold last_row in E. rewrite last_snoc in E. cbn in E. by rewrite E. }
    apply spec_ret. split; [|done]. rewrite Ep. split; cbn [set_lines t_lines t_cx t_cy]; try done.
    + by eapply canvas_same; [|exact Hcv].
    + rewrite HL. exact Ep.
Qed.

(** ** Commands *)
Definition okay t : Prop := (∃ rows, shows t rows) ∧ t_avg t = cw ∧ t_pending t = None.

(** An operation that keeps the screen and the command line, or ends the
    terminal. *)
Definition safe {A} (m : M A) : Prop :=
  ∀ t, okay t → spec m t (λ _ t', okay t' ∧ t_line t' = t_line t) (λ e _, e = Exited 0).

Lemma run_safe_ret {A} (a : A) : safe (mret a).
Proof. intros t Ht. by apply spec_ret. Qed.
Lemma run_safe_bind {A B} (m : M A) (k : A → M B) : safe m → (∀ a, safe (k a)) → safe (m ≫= k).
Proof.
  intros Hm Hk t Ht. eapply spec_bind; [by apply Hm|]. intros a t1 [Ht1 E1]. eapply spec_weaken; [by apply Hk| |done].
  intros b t2 [Ht2 E2]. split; [done|congruence].
Qed.
Lemma safe_for_each {A} (l : list A) body : (∀ x, safe (body x)) → safe (for_each l body).
Proof. intros Hb. induction l as [|x l IH]; cbn [for_each]; [apply run_safe_ret|]. by apply run_safe_bind; [apply Hb|]. Qed.
Lemma safe_gets {A B} (f : Term W → A) (k : A → M B) : (∀ a, safe (k a)) → safe (gets f ≫= k).
Proof. intros Hk t Ht. apply spec_bind_gets. by apply Hk. Qed.

Lemma draws_safe m f : draws m f → safe m.
Proof.
  intros Hm t ((rows&Hs)&A&P). eapply spec_weaken; [by apply Hm| |done]. intros [] t' [Hs' R]. injection R as ? ? ? ? ? ?.
  split; [|done]. split_and!; [by eexists|congruence|congruence].
Qed.
Lemma call_safe {B} (f : W → W * B) : (∀ wd, w_dims (f wd).1 = w_dims wd ∧ w_surf (f wd).1 = w_surf wd) → safe (call f).
Proof.
  intros Hf t ((rows&Hs)&A&P). unfold call, spec. specialize (Hf (t_world t)). destruct (f (t_world t)) as [wd b]. cbn [fst] in Hf.
  split; [|done]. split; [exists rows; by apply shows_world|done].
Qed.
Lemma children_safe (f : Term W → Term W) : (∀ t, ∃ c p, f t = set_children t c p) → safe (modify f).
Proof.
  intros Hf t ((rows&Hs)&A&P). apply spec_modify. destruct (Hf t) as (c&p&->). split; [|done]. split; [exists rows; by eapply shows_same; [|exact Hs]|done].
Qed.

Lemma write_line_safe s : len s < 2 ^ 17 → safe (write_line font s).
Proof. intros Hl. eapply draws_safe, draws_bind; [by apply write_str_draws|apply newline_draws]. Qed.

Lemma resolve_safe cmd : safe (resolve_command cmd).
Proof.
  unfold resolve_command. destruct (decide _); [apply run_safe_ret|]. apply run_safe_bind; [apply call_safe, w_stat_ok|]. intros [|]; [apply run_safe_ret|].
  apply run_safe_bind; [apply call_safe, w_stat_ok|]. intros [|]; apply run_safe_ret.
Qed.

Definition short_cmd (st : PipelineStage) : Prop := len (stage_cmd st) < 2 ^ 16.

Lemma not_found_safe st : short_cmd st → safe (write_line font (stage_cmd st ++ lit ": command not found")).
Proof. intros Hc. apply write_line_safe. unfold short_cmd in Hc. rewrite len_app. change (len (lit ": command not found")) with 19. lia. Qed.
Lemma not_run_safe st : short_cmd st → safe (write_line font (stage_cmd st ++ lit ": failed to execute")).
Proof. intros Hc. apply write_line_safe. unfold short_cmd in Hc. rewrite len_app. change (len (lit ": failed to execute")) with 19. lia. Qed.

Lemma single_safe st : short_cmd st → safe (execute_single_command font st).
Proof.
  intros Hc. unfold execute_single_command. apply run_safe_bind; [apply resolve_safe|]. intros [path|]; [|by apply not_found_safe].
  apply run_safe_bind; [apply call_safe, w_spawn_ok|]. intros [child|]; [|by apply not_run_safe]. apply children_safe. eauto.
Qed.

Lemma wait_safe hd : safe (wait_for hd).
Proof. apply run_safe_bind; [apply call_safe, w_wait_ok|]. intros ?. apply run_safe_ret. Qed.

Lemma abandon_safe msg : safe (write_line font msg) → safe (abandon_pipeline font msg).
Proof.
  intros Hm. apply run_safe_bind; [done|]. intros _. apply safe_gets. intros t0. apply run_safe_bind; [apply safe_for_each; intros; apply wait_safe|].
  intros _. apply children_safe. eauto.
Qed.

Lemma create_channels_ok n : ∀ t, okay t →
  spec (create_channels font n) t
    (λ cs t', (okay t' ∧ t_line t' = t_line t) ∧ match cs with Some cs => length cs = n | None => True end) (λ e _, e = Exited 0).
Proof.
  induction n as [|n IH]; intros t Ht; cbn [create_channels]; [by apply spec_ret|].
  eapply spec_bind; [by apply (call_safe w_pair w_pair_ok)|]. intros [c|] t1 [Ht1 E1].
  - eapply spec_bind; [by apply IH|]. intros cs t2 [[Ht2 E2] Hc]. apply spec_ret. split; [split; [done|congruence]|]. destruct cs; [|done]. cbn. by f_equal.
  - eapply spec_bind; [by apply (write_line_safe (lit "failed to create pipeline channel"))|]. intros [] t2 [Ht2 E2]. apply spec_ret. split; [split; [done|congruence]|done].
Qed.

Lemma stdin_ok (channels : list (Z * Z)) n i t : length channels = (n - 1)%nat → (i < n)%nat →
  spec (if decide (0 < i)%nat then c ← liftO (index channels (Z.of_nat i - 1)); mret (Some c.1) else mret None) t (λ _ t', t' = t) (λ e _, e = Exited 0).
Proof.
  intros Hc Hi. destruct (decide _); [|by apply spec_ret].
  destruct (index_lookup (E:=TermExit) channels (Z.of_nat i - 1)) as (c&_&Ei); [unfold len; lia|]. eapply spec_bind_Ok; [exact Ei|]. by apply spec_ret.
Qed.
Lemma stdout_ok (channels : list (Z * Z)) n i t : length channels = (n - 1)%nat → (i < n)%nat →
  spec (if decide (i < n - 1)%nat then c ← liftO (index channels (Z.of_nat i)); mret (Some c.2) else mret None) t (λ _ t', t' = t) (λ e _, e = Exited 0).
Proof.
  intros Hc Hi. destruct (decide _); [|by apply spec_ret].
  destruct (index_lookup (E:=TermExit) channels (Z.of_nat i)) as (c&_&Ei); [unfold len; lia|]. eapply spec_bind_Ok; [exact Ei|]. by apply spec_ret.
Qed.

Lemma pure_bind {A B} (m : M A) (k : A → M B) : (∀ t, spec m t (λ _ t', t' = t) (λ e _, e = Exited 0)) → (∀ a, safe (k a)) → safe (m ≫= k).
Proof. intros Hm Hk. apply run_safe_bind; [|done]. intros t Ht. eapply spec_weaken; [apply Hm| |done]. by intros a t' ->. Qed.

Lemma spawn_safe channels n stages : Forall short_cmd stages → length channels = (n - 1)%nat → ∀ i, (i + length stages = n)%nat →
  safe (spawn_stages font channels n i stages).
Proof.
  intros Hs Hc. induction Hs as [|st stages Hst _ IH]; intros i Hn; cbn [spawn_stages]; [apply run_safe_ret|]. cbn [length] in Hn.
  apply run_safe_bind; [apply resolve_safe|]. intros [path|].
  - apply pure_bind; [intros; apply (stdin_ok channels n); (done || lia)|]. intros stdin. apply pure_bind; [intros; apply stdout_ok; (done || lia)|]. intros stdout.
    apply run_safe_bind; [apply call_safe, w_spawn_ok|]. intros [child|].
    + apply run_safe_bind; [apply children_safe; eauto|]. intros _. apply IH. lia.
    + apply run_safe_bind; [by apply abandon_safe, not_run_safe|]. intros _. apply run_safe_ret.
  - apply run_safe_bind; [by apply abandon_safe, not_found_safe|]. intros _. apply run_safe_ret.
Qed.

Lemma pipeline_safe stages : Forall short_cmd stages → safe (execute_pipeline font stages).
Proof.
  intros Hs. unfold execute_pipeline. apply run_safe_bind; [apply children_safe; eauto|]. intros _. destruct (decide _) as [|Hne]; [apply run_safe_ret|].
  intros t Ht. eapply spec_bind; [by apply create_channels_ok|]. intros [cs|] t1 [[Ht1 E1] Hc]; [|by apply spec_ret].
  eapply spec_weaken; [eapply (run_safe_bind (spawn_stages font cs (length stages) 0 stages)); [by apply spawn_safe| |exact Ht1]| |done].
  - intros [|]; [apply children_safe; eauto|apply run_safe_ret].
  - intros [] t2 [Ht2 E2]. split; [done|congruence].
Qed.

Lemma clear_safe : safe clear.
Proof.
  intros t ((rows&Hs)&A&P). eapply spec_weaken; [apply (screen_clear_ok _ t _ (sh_canvas _ _ _ _ _ _ Hs))| |done]. intros [] t' (Hs'&_&R).
  injection R as ? ? ? ? ? ?. split; [|done]. split_and!; [by eexists|congruence|congruence].
Qed.

Lemma command_ok t : okay t → len (t_line t) < 2 ^ 16 →
  spec (execute_command font) t (λ _ t', okay t' ∧ t_line t' = t_line t) (λ e _, e = Exited 0).
Proof.
  intros Ht Hl. unfold execute_command. apply spec_bind_gets. unfold id.
  destruct (parse_pipeline (t_line t)) as [stages|] eqn:E; [|by apply spec_ret].
  assert (Forall short_cmd stages) as Hs.
  { apply Forall_forall. intros st Hst. pose proof (parse_pipeline_short _ _ _ E Hst). unfold short_cmd. lia. }
  destruct stages as [|st [|st' stages]]; [by apply pipeline_safe| |by apply pipeline_safe].
  destruct (decide _); [by apply clear_safe|]. destruct (decide _); [by apply spec_fail|]. apply single_safe; [|done]. by apply Forall_inv in Hs.
Qed.

(** ** Events *)
Definition ready t : Prop := okay t ∧ t_dirty t = None.

Lemma ready_shown t : ready t ↔ ∃ rows, shown t rows ∧ t_pending t = None.
Proof. unfold ready, okay, shown. split; [intros [((rows&?)&?&?) ?]|intros (rows&(?&?&?)&?)]; eauto 10. Qed.

Lemma flush_ready t : okay t → spec flush t (λ _ t', ready t' ∧ t_line t' = t_line t) (λ e _, e = Exited 0).
Proof.
  intros ((rows&Hs)&A&P). eapply spec_weaken; [by apply flush_settles| |done]. intros [] t' (Hs'&D&R). injection R as ? ? ? ? ? ?.
  split; [|done]. split; [|done]. split_and!; [by eexists|congruence|congruence].
Qed.

Lemma enter_ok t : ready t → len (t_line t) < 2 ^ 16 → spec (handle_enter font) t (λ _ t', ready t' ∧ t_line t' = []) (λ e _, e = Exited 0).
Proof.
  intros [Ht D] Hl. unfold handle_enter. apply spec_bind_gets. unfold id. pose proof Ht as (_&_&->).
  eapply spec_bind; [by apply (draws_safe _ _ newline_draws)|]. intros [] t1 [Ht1 E1].
  eapply (spec_bind _ _ _ (λ _ t', okay t')).
  - destruct (decide _); [|by apply spec_ret]. eapply spec_weaken; [apply command_ok; [done|by rewrite E1]|by intros [] t' [??]|done].
  - intros [] t2 ((rows&Hs)&A&P). apply spec_bind_modify. eapply spec_weaken; [apply flush_ready|by intros [] t' [??]|done].
    split; [exists rows; by eapply shows_same; [|exact Hs]|done].
Qed.

Lemma key_backspace_ok t : ready t → spec (handle_backspace font) t (λ _ t', ready t' ∧ t_line t' = removelast (t_line t)) (λ _ _, False).
Proof.
  intros [Ht D]. pose proof Ht as ((rows&Hs)&A&P). unfold handle_backspace. apply spec_bind_gets. unfold id. rewrite P.
  destruct (last (t_line t)) as [ch|] eqn:El; [|apply last_None in El; rewrite El; by apply spec_ret]. apply spec_bind_modify.
  eapply spec_weaken; [apply (backspace_settles ch _ rows); by eapply shows_same; [|exact Hs]| |done]. intros [] t' (Hs'&D'&R).
  unfold rest_of in R. cbn [set_line t_line t_child t_pipeline t_pending t_fg t_avg] in R. injection R as ? ? ? ? ? ?.
  split; [|done]. split; [|done]. split_and!; [by eexists|congruence|congruence].
Qed.

Lemma exit_text_short code : len (lit "(exited with code " ++ decimal code ++ lit ")") < 2 ^ 17.
Proof. rewrite !len_app. pose proof (decimal_short code). change (len (lit "(exited with code ")) with 18. change (len (lit ")")) with 1. lia. Qed.

Lemma reset_safe (f : Term W → Term W) : (∀ t, ∃ c p, f t = set_pending (set_children t c p) None) → safe (modify f).
Proof.
  intros Hf t ((rows&Hs)&A&P). apply spec_modify. destruct (Hf t) as (c&p&->). split; [|done]. split; [exists rows; by eapply shows_same; [|exact Hs]|done].
Qed.

Lemma child_exit_safe hd : safe (handle_child_exit font hd).
Proof.
  unfold handle_child_exit. apply safe_gets. intros t0. apply run_safe_bind.
  - destruct (decide _); [|apply run_safe_ret]. apply run_safe_bind; [apply call_safe, w_wait_ok|]. intros code.
    apply run_safe_bind; [destruct (decide _); [apply write_line_safe, exit_text_short|apply run_safe_ret]|]. intros _. apply reset_safe. eauto.
  - intros _. apply run_safe_bind; [apply safe_for_each; intros; apply wait_safe|]. intros _. apply children_safe. eauto.
Qed.

Lemma key_ok t code value shift : ready t → len (t_line t) < 2 ^ 16 →
  spec (handle_key_event font code value shift) t (λ _ t', ready t' ∧ len (t_line t') <= len (t_line t) + 1) (λ e _, e = Exited 0).
Proof.
  intros Ht Hl. pose proof (len_nonneg (t_line t)). assert (∀ s : bool, spec (mret s) t (λ _ t', ready t' ∧ len (t_line t') <= len (t_line t) + 1) (λ e _, e = Exited 0)) as Hret
    by (intros s; apply spec_ret; split; [done|lia]).
  assert (∀ m : M (), spec m t (λ _ t', ready t' ∧ len (t_line t') <= len (t_line t) + 1) (λ e _, e = Exited 0) →
    spec (m;; mret shift) t (λ _ t', ready t' ∧ len (t_line t') <= len (t_line t) + 1) (λ e _, e = Exited 0)) as Hseq
    by (intros m Hm; eapply spec_bind; [exact Hm|]; intros [] t' Ht'; by apply spec_ret).
  destruct value; cbn [handle_key_event]; [by apply Hret|..].
  all: destruct (is_shift_key code); [by apply Hret|]; apply Hseq; destruct (decide (code = KEY_ENTER)).
  1, 3: eapply spec_weaken; [by apply enter_ok| |done]; intros [] t' [Ht' ->]; split; [done|rewrite len_nil; lia].
  all: destruct (decide (code = KEY_BACKSPACE)).
  1, 3: eapply spec_weaken; [by apply key_backspace_ok| |done]; intros [] t' [Ht' ->]; split; [done|];
    unfold len; rewrite removelast_firstn_len, length_take; lia.
  all: destruct (keycode_to_char code shift) as [ch|]; [|apply spec_ret; split; [done|lia]].
  all: apply spec_bind_gets; unfold id; pose proof Ht as [(_&_&P) _]; rewrite P; destruct (t_child t); [apply spec_ret; split; [done|lia]|].
  all: pose proof Ht as (rows&Hs&_)%ready_shown; eapply spec_weaken; [by apply handle_char_ok| |done]; intros [] t' (Hs'&->&O); injection O as ? ? ? ? ?.
  all: split; [apply ready_shown; eexists; split; [done|congruence]|rewrite len_app, len_cons, len_nil; lia].
Qed.

Lemma keyboard_ok reads : ∀ t shift, ready t → len (t_line t) + len reads <= 2 ^ 16 →
  spec (process_keyboard_events font reads shift) t (λ _ t', ready t' ∧ len (t_line t') <= len (t_line t) + len reads) (λ e _, e = Exited 0).
Proof.
  induction reads as [|buf reads IH]; intros t shift Ht Hl; cbn [process_keyboard_events]; [apply spec_ret; split; [done|rewrite len_nil; lia]|].
  rewrite len_cons in *. pose proof (len_nonneg reads). destruct (decide (buf = [])); [apply spec_ret; split; [done|lia]|].
  eapply (spec_bind _ _ _ (λ _ t', ready t' ∧ len (t_line t') <= len (t_line t) + 1)).
  - destruct (decide (len buf >= 8)); [apply key_ok; [done|lia]|]. apply spec_ret. split; [done|lia].
  - intros b t1 [Ht1 L1]. eapply spec_weaken; [apply IH; [done|lia]| |done]. intros b' t2 [Ht2 L2]. split; [done|lia].
Qed.

(** Events whose messages are as above; keys and exits of any kind. *)
Definition event_ok (e : TermEvent) : Prop := match e with Readable _ msgs => Forall msg_ok msgs | _ => True end.
Definition event_keys (e : TermEvent) : Z := match e with Keyboard reads => len reads | _ => 0 end.
Definition keys (es : list TermEvent) : Z := foldr (λ e n, event_keys e + n) 0 es.

Lemma keys_nonneg es : 0 <= keys es.
Proof. induction es as [|e es IH]; cbn [keys foldr]; [done|]. fold (keys es). destruct e as [l| |]; cbn [event_keys]; [pose proof (len_nonneg l)|..]; lia. Qed.

Lemma event_run_ok e t shift : ready t → event_ok e → len (t_line t) + event_keys e <= 2 ^ 16 →
  spec (handle_event font e shift) t (λ _ t', ready t' ∧ len (t_line t') <= len (t_line t) + event_keys e) (λ e _, e = Exited 0).
Proof.
  intros Ht He Hl. destruct e as [reads|hd msgs|hd]; cbn [handle_event event_ok event_keys] in *.
  - by apply keyboard_ok.
  - pose proof Ht as (rows&Hs&P)%ready_shown. eapply spec_bind; [eapply spec_weaken; [by apply (messages_calm hd msgs He)|intros a s Q; exact Q|done]|].
    intros [] t1 [Hs1 R1]. injection R1 as ? ? ? ? ? ?. apply spec_ret. split; [apply ready_shown; eexists; split; [done|congruence]|]. replace (t_line t1) with (t_line t). lia.
  - destruct Ht as [Ht _]. eapply spec_bind; [by apply child_exit_safe|]. intros [] t1 [Ht1 E1].
    eapply spec_bind; [by apply (draws_safe _ _ (write_str_draws (lit "> ") ltac:(done)))|]. intros [] t2 [Ht2 E2].
    eapply spec_bind; [by apply flush_ready|]. intros [] t3 [Ht3 E3]. apply spec_ret. split; [done|]. rewrite E3, E2, E1. lia.
Qed.

Lemma events_run_ok es : ∀ t shift, ready t → Forall event_ok es → len (t_line t) + keys es <= 2 ^ 16 →
  spec (run_events font es shift) t (λ _ t', ready t') (λ e _, e = Exited 0).
Proof.
  induction es as [|e es IH]; intros t shift Ht He Hl; cbn [run_events]; [by apply spec_ret|]. apply Forall_cons in He as [He Hes].
  cbn [keys foldr] in Hl. fold (keys es) in Hl. pose proof (keys_nonneg es).
  eapply spec_bind; [apply event_run_ok; [done|done|lia]|]. intros b t1 [Ht1 L1]. apply IH; [done|done|lia].
Qed.

Lemma new_canvas wd : w_dims wd = (w, h) → canvas_but font w h (λ _ _, True) (Terminal_new font wd w h) (px_of (PixelBuffer_new w h)).
Proof. intros Hd. split; try done. by intros x y _ []. Qed.

Lemma start_ok wd : w_dims wd = (w, h) → spec (start font) (Terminal_new font wd w h) (λ _ t', ready t' ∧ t_line t' = []) (λ e _, e = Exited 0).
Proof.
  intros Hd. unfold start. eapply spec_bind; [eapply spec_weaken; [apply (screen_clear_ok _ _ _ (new_canvas wd Hd))|intros a s Q; exact Q|done]|].
  intros [] t1 (Hs1&_&R1). assert (okay t1 ∧ t_line t1 = []) as [Ht1 E1].
  { unfold rest_of in R1. cbn [Terminal_new t_line t_child t_pipeline t_pending t_fg t_avg] in R1. injection R1 as ? ? ? ? ? ?.
    split; [|done]. split_and!; [by eexists| |done]. pose proof (measure_mono font cw w h Hgeo 77). unfold measure_char in *. congruence. }
  do 2 (eapply spec_bind; [by apply write_line_safe|]; intros [] ? [? ?]).
  eapply spec_bind; [by apply (draws_safe _ _ (write_str_draws (lit "> ") ltac:(done)))|]. intros [] ? [? ?].
  eapply spec_weaken; [by apply flush_ready| |done]. intros [] t5 [Ht5 E5]. split; [done|congruence].
Qed.
End screen.

(** ** The terminal on its window *)
(** The window shows, pixel by pixel, the rows of the scrollback that fit it,
    none of them longer than the window is wide. *)
Definition rows_of {W} (t : Term W) : Grid := line_chars <$> t_lines t.
Definition screen_exact {W} `{TermWorldLaws W} (font : Z → Glyph) (cw w h : Z) (t : Term W) : Prop :=
  Forall (λ row, len row <= ncols cw w) (rows_of t) ∧ 1 <= len (rows_of t) <= MAX_SCROLLBACK_LINES ∧
  t_cx t = cell_x cw (len (last_row (rows_of t))) ∧ t_cy t = cell_y (len (visible h (rows_of t)) - 1) ∧
  ∀ x y, on_canvas w h x y → w_surf (t_world t) x y = picture font cw (visible h (rows_of t)) x y.

Section exact.
Context {W : Type} `{TermWorldLaws W} (font : Z → Glyph) (cw w h : Z) (Hgeo : geometry font cw w h).

Lemma shown_exact (t : Term W) rows : shown font cw w h t rows → screen_exact font cw w h t ∧ rows_of t = rows.
Proof.
  intros (Hs&D&_). pose proof Hs as [[_ _ _ _ _ Px Sh _] L O N X Y]. assert (rows_of t = rows) as E by exact L. split; [|done]. unfold screen_exact. rewrite E.
  split_and!; try done.
  - rewrite <-L. apply Forall_fmap. eapply Forall_impl; [exact O|]. by intros l [? _].
  - lia.
  - lia.
  - intros x y Hin. unfold shown_but in Sh. rewrite D in Sh. rewrite Sh by (done || tauto). by apply Px.
Qed.

(** A run from the start. *)
Lemma run_ready wd es : w_dims wd = (w, h) → Forall event_ok es → keys es <= 2 ^ 16 →
  spec (start font;; run_events font es false) (Terminal_new font wd w h) (λ _ t, ready font cw w h t) (λ e _, e = Exited 0).
Proof.
  intros Hd He Hk. eapply spec_bind; [by apply start_ok|]. intros [] t1 [Ht1 E1]. apply events_run_ok; [done|done|done|].
  rewrite E1, len_nil. lia.
Qed.
End exact.



(** ** A window in memory *)
Record Canvas : Type := mkCanvas { c_size : Z * Z; c_px : Z → Z → Pixel }.

#[export] Instance canvas_world : TermWorld Canvas := {
  w_blit fb x y r c := mkCanvas (c_size c) (λ a b, if decide (in_rect r a b) then px_of fb (a - r_x r + x) (b - r_y r + y) else c_px c a b);
  w_flush c := c;
  w_send _ _ c := c;
  w_stat _ c := (c, true);
  w_spawn _ c := (c, Some 5);
  w_wait _ c := (c, 0);
  w_pair c := (c, Some (6, 7));
  fmt_f64 _ := lit "0.5";
}.

#[export] Instance canvas_laws : TermWorldLaws Canvas.
Proof.
  refine {| w_dims := c_size; w_surf := c_px |}; try done.
  intros fb x y r c _ <- <- _ _ _. split; [done|]. intros a b _. cbn [w_blit canvas_world c_px]. destruct (decide _); [|done]. f_equal; lia.
Defined.

(** A font of blocks, with an empty space. *)
Definition blocks (ch : Z) : Glyph :=
  if decide (ch = 32) then mkGlyph 0 0 5 0 0 [] else mkGlyph 4 6 5 0 0 (replicate 24 200).
Definition blank_window : Canvas := mkCanvas (60, 60) (λ _ _, mkPx 0 0 0 0).

Lemma blocks_geometry : geometry blocks 5 60 60.
Proof.
  split; try (vm_compute; done). intros ch. unfold blocks. destruct (decide _); split; vm_compute; done.
Qed.

(** The bytes of a key pressed and of a request. *)
Definition press (code : Z) : list Z := [1; 0; code; 0; 1; 0; 0; 0].
Definition bytes_of (r : Request) : list Z := match Request_to_bytes r with Ok b => b | _ => [] end.

(** Keys, output that wraps and scrolls, a query, backspace and a command. *)
Definition session : list TermEvent :=
  [Keyboard [press 30; press 48; press 14]; Readable 5 [bytes_of (RWrite (VString (string_of (lit "a longer text to wrap")))); bytes_of (RQuery QSize)];
   Keyboard [press 28]; ChildExited 5].

Lemma session_ok : Forall event_ok session.
Proof.
  unfold session. repeat constructor; try done; unfold is_u8, in_u; vm_compute; done.
Qed.



(** The text of the rows. *)
Definition text_of (t : Term Canvas) : list (list Z) := (λ row, row.*1) <$> rows_of t.

(** The result of a run, and a test of its state. *)
Definition small_window : Canvas := mkCanvas (40, 40) (λ _ _, mkPx 0 0 0 0).
Definition run_of (es : list TermEvent) : Term Canvas * outcome TermExit bool :=
  (clear;; run_events blocks es false) (Terminal_new blocks small_window 40 40).
Definition panics (es : list TermEvent) : bool := match (run_of es).2 with Panic => true | _ => false end.
Definition ends_with (es : list TermEvent) (p : Term Canvas → bool) : bool := match run_of es with (t, Ok _) => p t | _ => false end.

Definition ask (kind : InputKind) (prompt : option Value) : list Z := bytes_of (RRequestInput (mkInputRequest 1 kind prompt [])).
Definition send (r : Request) : TermEvent := Readable 5 [bytes_of r].

