(* ===== verification/SchemeProvider.v ===== *)
(** * Userspace scheme providers
    ([panda-kernel/src/resource/scheme.rs], the second half)

    Clients reach a provider process over a channel whose kernel end the scheme
    registry holds (side A).  A call encodes its request, takes the provider's
    lock, sends, and receives until the response with its id arrives.  A future
    is its polls: each runs from where the last one stopped, to the next
    [Pending] or to the end. *)

From S2P Require Import Prelude Utf8 Buffers Abi SchemeProtocol Handle Mailbox UserPtr Waiting Channel.
#[local] Open Scope Z_scope.

Inductive OpenError := OENotFound | OEBusy.
Inductive ProviderError := PDisconnected | PProtocol.

#[export] Instance OpenError_eq_dec : EqDecision OpenError.
Proof. solve_decision. Defined.
#[export] Instance ProviderError_eq_dec : EqDecision ProviderError.
Proof. solve_decision. Defined.

Definition provider_error_to_error_code (e : ProviderError) : ErrorCode :=
  match e with PDisconnected => EIoError | PProtocol => EProtocol end.

Section provider.
Context {R : Type}.
Implicit Types (sh : ChannelShared R) (ms : mailboxes).

(** [ProviderState], with the [AsyncLock] inside. *)
Record ProviderState := mkProvider {
  p_chan : ChannelShared R;
  p_busy : bool;
  p_waiters : list Z;
  p_next : Z;
}.
Implicit Types p : ProviderState.

Definition ProviderState_new sh : ProviderState := mkProvider sh false [] 1.
Definition set_chan p sh : ProviderState := mkProvider sh (p_busy p) (p_waiters p) (p_next p).

(** [fetch_add] on the counter. *)
Definition next_request_id p : Z * ProviderState :=
  (p_next p, mkProvider (p_chan p) (p_busy p) (p_waiters p) (wrap_u 64 (p_next p + 1))).

(** A poll of [AsyncLock::acquire]: whether the lock was taken. *)
Definition acquire_poll p (pid : Z) : ProviderState * bool :=
  if p_busy p
  then (mkProvider (p_chan p) true (if decide (pid ∈ p_waiters p) then p_waiters p else p_waiters p ++ [pid]) (p_next p), false)
  else (mkProvider (p_chan p) true (p_waiters p) (p_next p), true).

(** Dropping the guard: every waiter is woken. *)
Definition release p : ProviderState * list Z := (mkProvider (p_chan p) false [] (p_next p), p_waiters p).

(** ** One round trip *)
Abbreviation reply := ((list Z * option R) + ProviderError)%type.

(** The [poll_fn] that receives one message into a buffer of
    [MAX_MESSAGE_SIZE]; [None] is [Pending]. *)
Fixpoint receive_loop (fuel : nat) sh ms (pid : Z) (registered : bool) :
    outcome Empty_set (ChannelShared R * mailboxes * list Z * option reply) :=
  match fuel with
  | O => OutOfFuel
  | S fuel =>
      match recv_with_attachment sh ms SideA (replicate (Z.to_nat MAX_MESSAGE_SIZE) 0) with
      | (sh, ms, woken, inl (buf, l, att)) => Ok (sh, ms, woken, Some (inl (take (Z.to_nat l) buf, att)))
      | (sh, ms, woken, inr ChQueueEmpty) =>
          if registered then Ok (sh, ms, woken, None)
          else receive_loop fuel (channel_set_waiting sh SideA pid) ms pid true
      | (sh, ms, woken, inr ChPeerClosed) => Ok (sh, ms, woken, Some (inr PDisconnected))
      | (sh, ms, woken, inr _) => Ok (sh, ms, woken, Some (inr PProtocol))
      end
  end.

(** Receiving until the response of this request: each turn takes a message
    from the queue. *)
Fixpoint match_loop (fuel : nat) sh ms (pid id : Z) (woken : list Z) :
    outcome Empty_set (ChannelShared R * mailboxes * list Z * option reply) :=
  match fuel with
  | O => OutOfFuel
  | S fuel =>
      '(sh, ms, w, r) ← receive_loop 2 sh ms pid false;
      let woken := woken ++ w in
      match r with
      | None => Ok (sh, ms, woken, None)
      | Some (inr e) => Ok (sh, ms, woken, Some (inr e))
      | Some (inl (buf, att)) =>
          if decide (len buf < 9) then Ok (sh, ms, woken, Some (inr PProtocol))
          else
            bytes ← slice buf 1 9;
            if decide (from_le_bytes bytes = id) then Ok (sh, ms, woken, Some (inl (buf, att)))
            else match_loop fuel sh ms pid id woken
      end
  end.

(** Where a call stands between two polls. *)
Inductive Phase := Acquiring | Receiving.
Record Call := mkCall { c_id : Z; c_frame : list Z; c_phase : Phase }.

(** The end of the round trip, or the call as it waits. *)
Definition receive_poll p ms (pid : Z) (c : Call) (woken : list Z) :
    outcome Empty_set (ProviderState * mailboxes * list Z * (Call + reply)) :=
  '(sh, ms, woken, r) ← match_loop (S (length (queue (half (p_chan p) SideB)))) (p_chan p) ms pid (c_id c) woken;
  let p := set_chan p sh in
  match r with
  | None => Ok (p, ms, woken, inl (mkCall (c_id c) (c_frame c) Receiving))
  | Some r => let '(p, w) := release p in Ok (p, ms, woken ++ w, inr r)
  end.

(** A poll of [round_trip_with_attachment]. *)
Definition round_trip_poll p ms (pid : Z) (c : Call) :
    outcome Empty_set (ProviderState * mailboxes * list Z * (Call + reply)) :=
  match c_phase c with
  | Acquiring =>
      let '(p, taken) := acquire_poll p pid in
      if taken then
        match send_with_attachment (p_chan p) ms SideA (c_frame c) None with
        | (sh, ms, woken, inl _) => receive_poll (set_chan p sh) ms pid c woken
        | (sh, ms, woken, inr _) => let '(p, w) := release (set_chan p sh) in Ok (p, ms, woken ++ w, inr (inr PDisconnected))
        end
      else Ok (p, ms, [], inl c)
  | Receiving => receive_poll p ms pid c []
  end.

(** ** What clients ask *)
Inductive Ask :=
| AOpen (path : str)
| AReaddir (path : str)
| AConnect (path : str)
| ARead (resource_id l : Z)
| AWrite (resource_id : Z) (data : list Z).

Definition request_of (a : Ask) (id : Z) : SchemeRequest :=
  match a with
  | AOpen path => SOpen id path
  | AReaddir path => SReaddir id path
  | AConnect path => SConnect id path
  | ARead resource_id l => SRead id resource_id (wrap_u 32 l)
  | AWrite resource_id data => SWrite id resource_id data
  end.

(** The call before its first poll; [None] when the request does not fit a
    message. *)
Definition begin_call p (a : Ask) : outcome Empty_set (ProviderState * option Call) :=
  let '(id, p) := next_request_id p in
  '(buf, n) ← SchemeRequest_encode (request_of a id) (replicate (Z.to_nat MAX_MESSAGE_SIZE) 0);
  Ok (p, match n with Some n => Some (mkCall id (take (Z.to_nat n) buf) Acquiring) | None => None end).

(** The answers of [open], [readdir], [connect], [read] and [write]. *)
Section answers.
Context (is_channel : R → bool).

Definition open_answer (r : reply) : outcome OpenError Z :=
  match r with
  | inr _ => Err OENotFound
  | inl (buf, _) =>
      match SchemeResponse_decode buf with
      | Ok (OpenOk _ resource_id) => Ok resource_id
      | Ok (OpenErr _ e) => Err (if decide (e = EBusy) then OEBusy else OENotFound)
      | Ok _ | Err _ => Err OENotFound
      | Panic => Panic
      | OutOfFuel => OutOfFuel
      end
  end.

Definition readdir_answer (r : reply) : outcome () (list ReaddirEntry) :=
  match r with
  | inr _ => Err tt
  | inl (buf, _) =>
      response ← SchemeResponse_decode buf;
      match response with ReaddirOk _ raw => readdir_entries raw | _ => Err tt end
  end.

Definition connect_answer (r : reply) : outcome OpenError R :=
  match r with
  | inr _ => Err OENotFound
  | inl (buf, att) =>
      match SchemeResponse_decode buf with
      | Ok (ConnectOk _) => match att with Some res => if is_channel res then Ok res else Err OENotFound | None => Err OENotFound end
      | Ok (ConnectErr _ e) => Err (if decide (e = EBusy) then OEBusy else OENotFound)
      | Ok _ | Err _ => Err OENotFound
      | Panic => Panic
      | OutOfFuel => OutOfFuel
      end
  end.

Definition read_answer (r : reply) : outcome ErrorCode (list Z) :=
  match r with
  | inr e => Err (provider_error_to_error_code e)
  | inl (buf, _) =>
      match SchemeResponse_decode buf with
      | Ok (ReadOk _ data) => Ok data
      | Ok (ReadErr _ e) => Err e
      | Ok _ | Err _ => Err EProtocol
      | Panic => Panic
      | OutOfFuel => OutOfFuel
      end
  end.

Definition write_answer (r : reply) : outcome ErrorCode Z :=
  match r with
  | inr e => Err (provider_error_to_error_code e)
  | inl (buf, _) =>
      match SchemeResponse_decode buf with
      | Ok (WriteOk _ written) => Ok written
      | Ok (WriteErr _ e) => Err e
      | Ok _ | Err _ => Err EProtocol
      | Panic => Panic
      | OutOfFuel => OutOfFuel
      end
  end.
End answers.

(** Dropping a proxy: a close that is sent and not waited for. *)
Definition drop_proxy p ms (resource_id : Z) : outcome Empty_set (ProviderState * mailboxes * list Z) :=
  let '(id, p) := next_request_id p in
  '(buf, n) ← SchemeRequest_encode (SClose id resource_id) (replicate 32 0);
  match n with
  | Some n =>
      let '(sh, ms, woken, _) := send_with_attachment (p_chan p) ms SideA (take (Z.to_nat n) buf) None in
      Ok (set_chan p sh, ms, woken)
  | None => Ok (p, ms, [])
  end.

(** Dropping the future of a call: its guard, when it holds one. *)
Definition cancel_call p (c : Call) : ProviderState * list Z :=
  match c_phase c with Acquiring => (p, []) | Receiving => release p end.
End provider.
Arguments ProviderState : clear implicits.
