(* ===== verification/SchemeCalls.v ===== *)
(** * Concurrent calls to a scheme provider
    ([panda-kernel/src/resource/scheme.rs])

    Client processes, one call in flight each, and an arbitrary provider.  A
    process that is not ready is not polled until something wakes it. *)

From S2P Require Import Prelude Utf8 Buffers Abi SchemeProtocol Handle Mailbox UserPtr Waiting Channel SchemeProvider.
#[local] Open Scope Z_scope.

Section calls.
Context {R : Type}.
Implicit Types (sh : ChannelShared R) (ms : mailboxes) (p : ProviderState R).
Abbreviation reply := ((list Z * option R) + ProviderError)%type.

(** ** The system *)
(** The calls in flight by process, the processes that will be polled, the
    calls that ended, and the messages the provider has sent. *)
Record Sys := mkSys {
  y_p : ProviderState R;
  y_ms : mailboxes;
  y_calls : gmap Z (Ask * Call);
  y_ready : gset Z;
  y_done : list (Z * Ask * Z * reply);
  y_sent : list (ChannelMessage R);
}.

Inductive Step :=
| Begin (pid : Z) (a : Ask)
| Poll (pid : Z)
| Provider (o : ChanOp (R:=R))
| DropProxy (resource_id : Z)
| Cancel (pid : Z).

Definition sys_step (y : Sys) (s : Step) : outcome Empty_set Sys :=
  match s with
  | Begin pid a =>
      match y_calls y !! pid with
      | Some _ => Ok y
      | None =>
          '(p, c) ← begin_call (y_p y) a;
          Ok (match c with
              | Some c => mkSys p (y_ms y) (<[pid := (a, c)]> (y_calls y)) ({[pid]} ∪ y_ready y) (y_done y) (y_sent y)
              | None => mkSys p (y_ms y) (y_calls y) (y_ready y) (y_done y) (y_sent y)
              end)
      end
  | Poll pid =>
      match y_calls y !! pid with
      | Some (a, c) =>
          if decide (pid ∈ y_ready y) then
            '(p, ms, woken, r) ← round_trip_poll (y_p y) (y_ms y) pid c;
            let ready := (y_ready y ∪ list_to_set woken) ∖ {[pid]} in
            Ok (match r with
                | inl c => mkSys p ms (<[pid := (a, c)]> (y_calls y)) ready (y_done y) (y_sent y)
                | inr r => mkSys p ms (delete pid (y_calls y)) ready (y_done y ++ [(pid, a, c_id c, r)]) (y_sent y)
                end)
          else Ok y
      | None => Ok y
      end
  | Provider o =>
      if decide (op_side o = SideB ∧ closed (half (p_chan (y_p y)) SideB) = false) then
        let '(sh, ms, woken, ev) := chan_step (p_chan (y_p y), y_ms y) o in
        Ok (mkSys (set_chan (y_p y) sh) ms (y_calls y) (y_ready y ∪ list_to_set woken) (y_done y)
          (y_sent y ++ match ev with Some (inl m) => [m] | _ => [] end))
      else Ok y
  | DropProxy resource_id =>
      '(p, ms, woken) ← drop_proxy (y_p y) (y_ms y) resource_id;
      Ok (mkSys p ms (y_calls y) (y_ready y ∪ list_to_set woken) (y_done y) (y_sent y))
  | Cancel pid =>
      match y_calls y !! pid with
      | Some (a, c) =>
          let '(p, woken) := cancel_call (y_p y) c in
          Ok (mkSys p (y_ms y) (delete pid (y_calls y)) (y_ready y ∪ list_to_set woken) (y_done y) (y_sent y))
      | None => Ok y
      end
  end.

Fixpoint sys_run (y : Sys) (steps : list Step) : outcome Empty_set Sys :=
  match steps with
  | [] => Ok y
  | s :: steps => y ← sys_step y s; sys_run y steps
  end.

Definition sys_new ms : Sys := mkSys (ProviderState_new shared_new) ms ∅ ∅ [] [].

(** ** The channel under a poll *)
(** What receiving leaves alone. *)
Record keeps sh sh' : Prop := {
  k_inv : chan_inv sh';
  k_queue : queue (half sh' SideA) = queue (half sh SideA);
  k_a : closed (half sh' SideA) = closed (half sh SideA);
  k_b : closed (half sh' SideB) = closed (half sh SideB);
}.

Lemma keeps_refl sh : chan_inv sh → keeps sh sh.
Proof. done. Qed.
Lemma keeps_trans sh sh1 sh2 : keeps sh sh1 → keeps sh1 sh2 → keeps sh sh2.
Proof. intros [? ? ? ?] [? ? ? ?]. split; congruence. Qed.

Lemma keeps_waiting sh pid : chan_inv sh → keeps sh (channel_set_waiting sh SideA pid).
Proof.
  intros Hi. destruct (chan_inv_same sh (channel_set_waiting sh SideA pid) Hi) as [Hi' _];
    [unfold channel_set_waiting; by rewrite capacity_set|intros s; apply set_waiting_queue|].
  split; [done|apply set_waiting_queue..].
Qed.

(** Receiving one message. *)
Lemma receive_loop_spec sh ms pid : chan_inv sh → ∃ sh' ms' woken r,
  receive_loop 2 sh ms pid false = Ok (sh', ms', woken, r) ∧ keeps sh sh' ∧
  match r with
  | None => queue (half sh SideB) = [] ∧ queue (half sh' SideB) = [] ∧ closed (half sh SideB) = false ∧ waiting (half_waker (half sh' SideA)) = Some pid
  | Some (inr e) => e = PDisconnected ∧ sh' = sh ∧ queue (half sh SideB) = [] ∧ closed (half sh SideB) = true
  | Some (inl (buf, att)) => queue (half sh SideB) = mkMsg buf att :: queue (half sh' SideB)
  end.
Proof.
  intros Hi. cbn [receive_loop]. set (buf0 := replicate _ _).
  assert (len buf0 = MAX_MESSAGE_SIZE) as Hl0 by (unfold buf0, len; rewrite length_replicate; vm_compute; done).
  destruct (recv_cases sh ms SideA buf0) as [(e&->&He)|(msg&rest&peer'&ms1&wk&Hq&Hlen&E&Hq'&Hc'&_)]; cbn [other] in *.
  - destruct He as [(->&msg&rest&Hq&Hl)|[(->&Hq&Hc)|(->&Hq&Hc)]].
    + exfalso. destruct Hi as [_ Hs]. destruct (Hs SideB) as [_ Hf]. rewrite Hq in Hf. apply Forall_inv in Hf. lia.
    + do 4 eexists. split; [done|]. split; [by apply keeps_refl|done].
    + pose proof (keeps_waiting sh pid Hi) as Hk. destruct (set_waiting_queue sh SideA pid SideB) as [Hqs Hcs].
      destruct (recv_cases (channel_set_waiting sh SideA pid) ms SideA buf0) as [(e&->&He)|(msg&rest&peer'&ms1&wk&Hq1&_)]; cbn [other] in *; [|congruence].
      destruct He as [(->&msg&rest&Hq1&_)|[(->&_&Hc1)|(->&_&_)]]; [congruence|congruence|].
      do 4 eexists. split; [done|]. split; [done|]. split_and!; [done|congruence|done|apply set_waiting_waiting].
  - rewrite E. do 4 eexists. split; [done|].
    pose proof (chan_step_fifo sh ms (CRecv SideA buf0)) as Hf. cbn [chan_step] in Hf. rewrite E in Hf. destruct (Hf _ _ _ _ Hi eq_refl) as [Hi' _].
    split; [split; [done|done|done|exact Hc']|].
    replace (Z.to_nat (len (msg_data msg))) with (length (msg_data msg)) by len_lia. rewrite take_app_length, Hq. change (msg :: rest = mkMsg (msg_data msg) (attachment msg) :: queue peer'). rewrite Hq'. by destruct msg.
Qed.

(** A response of another request. *)
Definition other_response (id : Z) (m : ChannelMessage R) : Prop :=
  9 <= len (msg_data m) ∧ from_le_bytes (take 8 (drop 1 (msg_data m))) ≠ id.

Lemma slice_id (buf : list Z) : 9 <= len buf → slice (E:=Empty_set) buf 1 9 = Ok (take 8 (drop 1 buf)).
Proof. intros Hl. unfold slice, get_range. by rewrite decide_True by lia. Qed.

(** Receiving until the response. *)
Lemma match_loop_spec fuel : ∀ sh ms pid id woken, chan_inv sh → (length (queue (half sh SideB)) < fuel)%nat → ∃ sh' ms' w r,
  match_loop fuel sh ms pid id woken = Ok (sh', ms', woken ++ w, r) ∧ keeps sh sh' ∧
  ∃ skipped, Forall (other_response id) skipped ∧
  match r with
  | None => queue (half sh SideB) = skipped ∧ queue (half sh' SideB) = [] ∧ closed (half sh SideB) = false ∧ waiting (half_waker (half sh' SideA)) = Some pid
  | Some (inr e) => (∃ used, queue (half sh SideB) = skipped ++ used ++ queue (half sh' SideB)) ∧ (e = PDisconnected → closed (half sh SideB) = true)
  | Some (inl (buf, att)) => queue (half sh SideB) = skipped ++ mkMsg buf att :: queue (half sh' SideB) ∧ 9 <= len buf ∧ from_le_bytes (take 8 (drop 1 buf)) = id
  end.
Proof.
  induction fuel as [|fuel IH]; intros sh ms pid id woken Hi Hf; [lia|]. cbn [match_loop].
  destruct (receive_loop_spec sh ms pid Hi) as (sh1&ms1&w1&r&->&Hk&Hr). cbn [mbind outcome_bind]. destruct r as [[[buf att]|e]|].
  - destruct (decide (len buf < 9)) as [Hs|Hs].
    + do 4 eexists. split; [done|]. split; [done|]. exists []. split; [by apply Forall_nil|]. split; [by exists [mkMsg buf att]|done].
    + rewrite slice_id by lia. cbn [mbind outcome_bind]. destruct (decide _) as [Hid|Hid].
      * do 4 eexists. split; [done|]. split; [done|]. exists []. split; [by apply Forall_nil|]. split_and!; [done|lia|done].
      * destruct (IH sh1 ms1 pid id (woken ++ w1)) as (sh2&ms2&w2&r&->&Hk2&skipped&Hsk&Hr2); [apply Hk|rewrite Hr in Hf; cbn [length] in Hf; lia|].
        do 4 eexists. split; [by rewrite <-app_assoc|]. split; [by eapply keeps_trans|]. exists (mkMsg buf att :: skipped).
        split; [apply Forall_cons; split; [split; [cbn [msg_data]; lia|done]|done]|]. pose proof (k_b _ _ Hk) as Hb. rewrite Hr. destruct r as [[[buf' att']|e]|].
        -- destruct Hr2 as (->&?&?). done.
        -- destruct Hr2 as [[used ->] He]. split; [by exists used|]. intros Ee. rewrite <-Hb. by apply He.
        -- destruct Hr2 as (->&?&?&?). split_and!; try done. by rewrite <-Hb.
  - destruct Hr as (->&->&Hq&Hc). do 4 eexists. split; [done|]. split; [done|]. exists []. split; [by apply Forall_nil|]. split; [by exists []|done].
  - destruct Hr as (Hq&Hq'&Hc&Hw). do 4 eexists. split; [done|]. split; [done|]. exists []. split; [by apply Forall_nil|]. done.
Qed.

(** ** One poll *)
Record poll_keeps p p' : Prop := {
  pk_inv : chan_inv (p_chan p');
  pk_a : closed (half (p_chan p') SideA) = closed (half (p_chan p) SideA);
  pk_b : closed (half (p_chan p') SideB) = closed (half (p_chan p) SideB);
  pk_next : p_next p' = p_next p;
}.
Definition inbox p := queue (half (p_chan p) SideB).

(** The lock is held before the poll ends: the call waits on the channel, or
    has its reply and wakes those that wait for the lock. *)
Definition served p p' (pid : Z) (c : Call) (w : list Z) (r : Call + reply) : Prop :=
  ∃ used, inbox p = used ++ inbox p' ∧
  match r with
  | inl c' => c' = mkCall (c_id c) (c_frame c) Receiving ∧ p_busy p' = true ∧ p_waiters p' = p_waiters p ∧ inbox p' = [] ∧
      closed (half (p_chan p') SideB) = false ∧ waiting (half_waker (half (p_chan p') SideA)) = Some pid
  | inr rep => p_busy p' = false ∧ p_waiters p' = [] ∧ (∀ q, q ∈ p_waiters p → q ∈ w) ∧
      match rep with
      | inl (buf, att) => (∃ skipped, used = skipped ++ [mkMsg buf att]) ∧ 9 <= len buf ∧ from_le_bytes (take 8 (drop 1 buf)) = c_id c
      | inr _ => True
      end
  end.

Lemma receive_poll_spec p ms pid c woken : chan_inv (p_chan p) → p_busy p = true → ∃ p' ms' w r,
  receive_poll p ms pid c woken = Ok (p', ms', woken ++ w, r) ∧ poll_keeps p p' ∧ served p p' pid c w r.
Proof.
  intros Hi Hb. unfold receive_poll.
  destruct (match_loop_spec (S (length (queue (half (p_chan p) SideB)))) (p_chan p) ms pid (c_id c) woken Hi) as (sh'&ms'&w&r&->&[Ki Kq Ka Kb]&skipped&Hsk&Hr); [lia|].
  cbn [mbind outcome_bind]. destruct r as [rep|]; cbn [release].
  - exists (mkProvider sh' false [] (p_next p)), ms', (w ++ p_waiters p), (inr rep). split; [by rewrite app_assoc|]. split; [done|].
    destruct rep as [[buf att]|e].
    + destruct Hr as (Hq&Hl&Hid). exists (skipped ++ [mkMsg buf att]). unfold inbox. cbn [p_chan p_busy p_waiters]. rewrite Hq, <-app_assoc. split; [done|].
      split_and!; try done; [intros; apply elem_of_app; by right|by exists skipped].
    + destruct Hr as [[used Hq] _]. exists (skipped ++ used). unfold inbox. cbn [p_chan p_busy p_waiters]. rewrite Hq, <-app_assoc. split; [done|].
      split_and!; try done. intros; apply elem_of_app; by right.
  - destruct Hr as (Hq&Hq'&Hc&Hw). exists (set_chan p sh'), ms', w. eexists. split; [done|]. split; [done|].
    exists skipped. unfold inbox. cbn [set_chan p_chan p_busy p_waiters]. rewrite Hq, Hq', app_nil_r. split; [done|]. split_and!; try done. by rewrite Kb.
Qed.

Lemma send_keeps p ms msg : chan_inv (p_chan p) → ∃ sh' ms' w r, send_with_attachment (p_chan p) ms SideA msg None = (sh', ms', w, r) ∧
  chan_inv sh' ∧ queue (half sh' SideB) = inbox p ∧ closed (half sh' SideA) = closed (half (p_chan p) SideA) ∧
  closed (half sh' SideB) = closed (half (p_chan p) SideB) ∧ waiting (half_waker (half sh' SideA)) = waiting (half_waker (half (p_chan p) SideA)) ∧
  (closed (half (p_chan p) SideB) = true → ∃ e, r = inr e).
Proof.
  intros Hi. pose proof (chan_step_fifo (p_chan p) ms (CSend SideA msg None)) as Hf. cbn [chan_step] in Hf.
  destruct (send_cases (p_chan p) ms SideA msg None) as [(e&E&He)|(peer'&ms1&wk&E&_&Hcl&_&Hq&Hc&_)]; rewrite E in *; cbn [other] in *.
  - do 4 eexists. split; [done|]. split_and!; try done. intros _. by eexists.
  - destruct (Hf _ _ _ _ Hi eq_refl) as [Hi' _]. do 4 eexists. split; [done|]. split_and!; try done. by rewrite Hcl.
Qed.

(** A poll never fails: it waits for the lock, or is served. *)
Lemma round_trip_spec p ms pid c : chan_inv (p_chan p) → (c_phase c = Receiving → p_busy p = true) → ∃ p' ms' w r,
  round_trip_poll p ms pid c = Ok (p', ms', w, r) ∧ poll_keeps p p' ∧
  (c_phase c = Acquiring ∧ p_busy p = true ∧ r = inl c ∧ w = [] ∧ p_chan p' = p_chan p ∧ p_busy p' = true ∧ pid ∈ p_waiters p' ∧ (∀ q, q ∈ p_waiters p → q ∈ p_waiters p') ∨
   (c_phase c = Acquiring → p_busy p = false) ∧ served p p' pid c w r).
Proof.
  intros Hi Hph. unfold round_trip_poll. destruct (c_phase c) eqn:Ephase.
  - unfold acquire_poll. destruct (p_busy p) eqn:Eb.
    + do 4 eexists. split; [done|]. split; [done|]. left. cbn [p_chan p_busy p_waiters]. split_and!; try done.
      * destruct (decide _); [done|]. apply elem_of_app. right. apply list_elem_of_here.
      * intros q Hq. destruct (decide _); [done|]. apply elem_of_app. by left.
    + set (p1 := mkProvider (p_chan p) true (p_waiters p) (p_next p)). destruct (send_keeps p1 ms (c_frame c) Hi) as (sh'&ms'&wk&r&->&Hi'&Hq&Ha&Hb&_&_).
      destruct r as [[]|e].
      * destruct (receive_poll_spec (set_chan p1 sh') ms' pid c wk Hi' eq_refl) as (p'&ms2&w2&r&->&[K1 K2 K3 K4]&(used&Hu&Hr)).
        do 4 eexists. split; [done|]. split; [split; [done|by rewrite K2|by rewrite K3|done]|]. right. split; [done|].
        exists used. split; [etransitivity; [symmetry; exact Hq|exact Hu]|]. destruct r as [c'|rep]; [done|].
        destruct Hr as (?&?&Hw&?). split_and!; try done. intros q Hin. apply elem_of_app. right. by apply Hw.
      * do 4 eexists. split; [done|]. split; [done|]. right. split; [done|]. exists []. split; [symmetry; exact Hq|]. cbn [release set_chan p_chan p_busy p_waiters].
        split_and!; try done. intros q Hin. apply elem_of_app. by right.
  - destruct (receive_poll_spec p ms pid c [] Hi (Hph eq_refl)) as (p'&ms'&w&r&->&K&S). do 4 eexists. split; [done|]. split; [done|]. by right.
Qed.

(** ** Requests *)
Lemma encode_total r b0 : len b0 < 2 ^ 16 → ∃ b0' n, SchemeRequest_encode r b0 = Ok (b0', n) ∧
  match n with Some k => take (Z.to_nat k) b0' = request_frame r | None => True end.
Proof.
  intros Hb. assert (∀ m f, frames m f → ∃ b0' n, m b0 = Ok (b0', n) ∧ match n with Some k => take (Z.to_nat k) b0' = f | None => True end) as Hf.
  { intros m f ->. destruct (decide _); do 2 eexists; (split; [done|]); [|done]. unfold len. by rewrite Nat2Z.id, take_app_length. }
  assert (∀ kind id path, ∃ b0' n, encode_path_request kind id path b0 = Ok (b0', n) ∧
    match n with Some k => take (Z.to_nat k) b0' = path_frame kind id path | None => True end) as Hp.
  { intros kind id path. destruct (decide (len path <= 0xFFFF)); [by apply Hf, encode_path_frames|].
    unfold encode_path_request. rewrite bind_buf_len. rewrite decide_True by lia. by do 2 eexists. }
  destruct r; cbn [SchemeRequest_encode request_frame]; try apply Hp.
  - apply Hf. run_frame. from_start. run_stores.
  - destruct (decide (len data < 2 ^ 32)).
    + apply Hf. rewrite wrap_u_small by (unfold in_u; len_lia). run_frame. from_start. run_stores.
    + rewrite bind_buf_len. unfold HEADER_LEN. rewrite decide_True by lia. by do 2 eexists.
  - apply Hf. run_frame. from_start. run_stores.
Qed.

Lemma zeros_short n : 0 <= n < 2 ^ 16 → len (replicate (Z.to_nat n) 0) < 2 ^ 16.
Proof. intros ?. unfold len. rewrite length_replicate. lia. Qed.

Lemma begin_call_spec p a : 0 <= p_next p → p_next p + 1 < 2 ^ 64 → ∃ p' c, begin_call p a = Ok (p', c) ∧
  p_chan p' = p_chan p ∧ p_busy p' = p_busy p ∧ p_waiters p' = p_waiters p ∧ p_next p' = p_next p + 1 ∧
  match c with Some c => c = mkCall (p_next p) (request_frame (request_of a (p_next p))) Acquiring | None => True end.
Proof.
  intros H0 H1. unfold begin_call, next_request_id. rewrite wrap_u_small by (unfold in_u; lia).
  destruct (encode_total (request_of a (p_next p)) (replicate (Z.to_nat MAX_MESSAGE_SIZE) 0)) as (buf'&n&->&Hn); [by apply zeros_short|].
  cbn [mbind outcome_bind]. do 2 eexists. split; [done|]. split_and!; try done. destruct n as [n|]; [|done]. by rewrite Hn.
Qed.

Lemma drop_proxy_spec p ms rid : chan_inv (p_chan p) → 0 <= p_next p → p_next p + 1 < 2 ^ 64 → ∃ p' ms' w, drop_proxy p ms rid = Ok (p', ms', w) ∧
  chan_inv (p_chan p') ∧ inbox p' = inbox p ∧ closed (half (p_chan p') SideA) = closed (half (p_chan p) SideA) ∧
  closed (half (p_chan p') SideB) = closed (half (p_chan p) SideB) ∧
  waiting (half_waker (half (p_chan p') SideA)) = waiting (half_waker (half (p_chan p) SideA)) ∧
  p_busy p' = p_busy p ∧ p_waiters p' = p_waiters p ∧ p_next p' = p_next p + 1.
Proof.
  intros Hi H0 H1. unfold drop_proxy, next_request_id. rewrite wrap_u_small by (unfold in_u; lia).
  destruct (encode_total (SClose (p_next p) rid) (replicate 32 0)) as (buf'&n&->&_); [by vm_compute|].
  cbn [mbind outcome_bind]. destruct n as [n|]; [|by do 3 eexists].
  destruct (send_keeps (mkProvider (p_chan p) (p_busy p) (p_waiters p) (p_next p + 1)) ms (take (Z.to_nat n) buf') Hi) as (sh'&ms'&w&r&->&?&?&?&?&?&_).
  do 3 eexists. split; [done|]. done.
Qed.

(** ** The invariant *)
Definition results (done : list (Z * Ask * Z * reply)) : list (ChannelMessage R) :=
  omap (λ e, match e.2 with inl (buf, att) => Some (mkMsg buf att) | inr _ => None end) done.
Definition done_ids (done : list (Z * Ask * Z * reply)) : list Z := (λ e, e.1.2) <$> done.

Record sys_inv (y : Sys) : Prop := {
  v_chan : chan_inv (p_chan (y_p y));
  v_open : closed (half (p_chan (y_p y)) SideA) = false;
  v_lock : p_busy (y_p y) = true ↔ ∃ pid a c, y_calls y !! pid = Some (a, c) ∧ c_phase c = Receiving;
  v_one pid1 a1 c1 pid2 a2 c2 : y_calls y !! pid1 = Some (a1, c1) → c_phase c1 = Receiving →
    y_calls y !! pid2 = Some (a2, c2) → c_phase c2 = Receiving → pid1 = pid2;
  v_acquiring pid a c : y_calls y !! pid = Some (a, c) → c_phase c = Acquiring →
    pid ∈ y_ready y ∨ p_busy (y_p y) = true ∧ pid ∈ p_waiters (y_p y);
  v_receiving pid a c : y_calls y !! pid = Some (a, c) → c_phase c = Receiving →
    pid ∈ y_ready y ∨ waiting (half_waker (half (p_chan (y_p y)) SideA)) = Some pid ∧ inbox (y_p y) = [] ∧ closed (half (p_chan (y_p y)) SideB) = false;
  v_ids pid a c : y_calls y !! pid = Some (a, c) → 1 <= c_id c < p_next (y_p y) ∧ (c_id c ∉ done_ids (y_done y)) ∧ c_frame c = request_frame (request_of a (c_id c));
  v_distinct pid1 a1 c1 pid2 a2 c2 : y_calls y !! pid1 = Some (a1, c1) → y_calls y !! pid2 = Some (a2, c2) → c_id c1 = c_id c2 → pid1 = pid2;
  v_done_ids : NoDup (done_ids (y_done y)) ∧ Forall (λ i, 1 <= i < p_next (y_p y)) (done_ids (y_done y));
  v_next : 1 <= p_next (y_p y);
  v_sent : ∃ used, y_sent y = used ++ inbox (y_p y) ∧ (results (y_done y) `sublist_of` used);
  v_done : Forall (λ e, match e.2 with inl (buf, _) => 9 <= len buf ∧ from_le_bytes (take 8 (drop 1 buf)) = e.1.2 | inr _ => True end) (y_done y);
}.

Lemma sys_inv_new ms : sys_inv (sys_new ms).
Proof.
  split; try done.
  - apply chan_inv_new.
  - cbn. split; [done|]. intros (?&?&?&E&_). by rewrite lookup_empty in E.
  - split; constructor.
  - by exists [].
Qed.

(** ** Steps *)
Lemma others_acquire y pid a c : sys_inv y → y_calls y !! pid = Some (a, c) → (c_phase c = Acquiring → p_busy (y_p y) = false) →
  ∀ pid' a' c', y_calls y !! pid' = Some (a', c') → pid' ≠ pid → c_phase c' = Acquiring.
Proof.
  intros Hv Hc Hb pid' a' c' Hc' Hne. destruct (c_phase c') eqn:E; [done|]. destruct (c_phase c) eqn:Ec.
  - assert (p_busy (y_p y) = true) by (apply (v_lock _ Hv); eauto). rewrite Hb in *; done.
  - by destruct Hne; apply (v_one _ Hv pid' a' c' pid a c).
Qed.

Lemma begin_step y pid a : sys_inv y → p_next (y_p y) + 1 < 2 ^ 64 → ∃ y', sys_step y (Begin pid a) = Ok y' ∧ sys_inv y' ∧ p_next (y_p y') <= p_next (y_p y) + 1.
Proof.
  intros Hv Hn. pose proof Hv as [C O L U Aq Rc Ids D [Nd Fd] Nx (used&Hs&Hsub) Dn]. cbn [sys_step].
  destruct (y_calls y !! pid) eqn:E; [exists y; split_and!; [done|done|lia]|].
  destruct (begin_call_spec (y_p y) a) as (p'&c&->&Ec&Eb&Ew&En&Hc); [lia|done|]. cbn [mbind outcome_bind].
  assert (inbox p' = inbox (y_p y)) as Ei by (unfold inbox; by rewrite Ec).
  assert (Forall (λ i, 1 <= i < p_next p') (done_ids (y_done y))) as Fd' by (eapply Forall_impl; [exact Fd|]; cbn; intros; lia).
  destruct c as [c|]; eexists; (split; [done|]); (split; [|cbn [y_p]; lia]).
  - subst c. split; cbn [y_p y_calls y_ready y_done y_sent]; rewrite ?Ec, ?Eb, ?Ew, ?En, ?Ei; try done.
    + rewrite L. split.
      * intros (q&a'&c'&Hq&Hp). exists q, a', c'. split; [|done]. rewrite lookup_insert_ne; [done|congruence].
      * intros (q&a'&c'&Hq&Hp). apply lookup_insert_Some in Hq as [[<- [= <- <-]]|[_ Hq]]; [done|eauto].
    + intros p1 a1 c1 p2 a2 c2 [[_ [= <- <-]]|[_ H1]]%lookup_insert_Some P1 [[_ [= <- <-]]|[_ H2]]%lookup_insert_Some P2; try done. by eapply U.
    + intros q a' c' [[<- [= <- <-]]|[_ Hq]]%lookup_insert_Some P; [left; set_solver|]. destruct (Aq q a' c' Hq P) as [?|?]; [left; set_solver|by right].
    + intros q a' c' [[<- [= <- <-]]|[_ Hq]]%lookup_insert_Some P; [done|]. destruct (Rc q a' c' Hq P) as [?|?]; [left; set_solver|by right].
    + intros q a' c' [[<- [= <- <-]]|[_ Hq]]%lookup_insert_Some; [|destruct (Ids q a' c' Hq) as (?&?&?); split_and!; try done; lia].
      cbn [c_id c_frame]. split_and!; try lia; [|done]. intros Hin. rewrite Forall_forall in Fd. specialize (Fd _ Hin). lia.
    + intros p1 a1 c1 p2 a2 c2 [[<- [= <- <-]]|[_ H1]]%lookup_insert_Some [[<- [= <- <-]]|[_ H2]]%lookup_insert_Some; cbn [c_id]; intros Ei'; try done.
      * destruct (Ids p2 a2 c2 H2). lia.
      * destruct (Ids p1 a1 c1 H1). lia.
      * by eapply D.
    + by rewrite <-En.
    + lia.
    + eauto.
  - split; cbn [y_p y_calls y_ready y_done y_sent]; rewrite ?Ec, ?Eb, ?Ew, ?En, ?Ei; try done; [|by rewrite <-En|lia|eauto].
    intros q a' c' Hq. destruct (Ids q a' c' Hq) as (?&?&?). split_and!; try done; lia.
Qed.

Lemma provider_step y o : sys_inv y → ∃ y', sys_step y (Provider o) = Ok y' ∧ sys_inv y' ∧ p_next (y_p y') = p_next (y_p y).
Proof.
  intros Hv. pose proof Hv as [C O L U Aq Rc Ids D Nd Nx (used&Hs&Hsub) Dn]. cbn [sys_step]. destruct (decide _) as [[Ho Hop]|]; [|by exists y].
  destruct (chan_step (p_chan (y_p y), y_ms y) o) as [[[sh ms] woken] ev] eqn:E. destruct (chan_step_fifo _ _ _ _ _ _ _ C E) as [C' Hq].
  eexists. split; [done|]. split; [|done]. split; cbn [y_p y_calls y_ready y_done y_sent set_chan p_chan p_busy p_waiters p_next]; try done.
  - destruct o as [s msg att|s buf|s|s r|s q]; cbn [op_side] in Ho; subst s; cbn [chan_step] in E.
    + destruct (send_cases (p_chan (y_p y)) (y_ms y) SideB msg att) as [(e&He&_)|(peer'&ms1&w&He&_&_&_&_&Hcl&_)]; rewrite He in E; injection E as <- <- <- <-; [done|]. cbn. by rewrite Hcl.
    + destruct (recv_cases (p_chan (y_p y)) (y_ms y) SideB buf) as [(e&He&_)|(m&rest&peer'&ms1&w&_&_&He&_&Hcl&_)]; rewrite He in E; injection E as <- <- <- <-; [done|]. cbn. by rewrite Hcl.
    + destruct (close_cases (p_chan (y_p y)) (y_ms y) SideB) as (peer'&ms1&w&He&_&Hcl&_). rewrite He in E; injection E as <- <- <- <-. cbn. by rewrite Hcl.
    + by injection E as <- <- <- <-.
    + by injection E as <- <- <- <-.
  - intros q a c Hc P. destruct (Aq q a c Hc P) as [?|?]; [left; set_solver|by right].
  - intros q a c Hc P. destruct (Rc q a c Hc P) as [?|(Hw&Hi&Hcl)]; [left; set_solver|].
    destruct (peer_step _ _ _ _ _ _ _ SideA q E Ho Hw) as [Hin|(Hw'&Hq'&Hcl'&_)]; [left; apply elem_of_union_r; by apply elem_of_list_to_set|].
    right. unfold inbox in *. cbn [other] in *. cbn [set_chan p_chan]. rewrite Hq', Hcl'. done.
  - specialize (Hq SideB). unfold inbox in *. cbn [set_chan p_chan]. exists (used ++ taken SideB o ev). rewrite <-app_assoc, <-Hq, Hs, <-app_assoc. split.
    + do 2 f_equal. unfold added. rewrite Ho. destruct ev as [[m|m]|]; [by rewrite decide_True|done|done].
    + by apply sublist_inserts_r.
Qed.

Lemma drop_step y rid : sys_inv y → p_next (y_p y) + 1 < 2 ^ 64 → ∃ y', sys_step y (DropProxy rid) = Ok y' ∧ sys_inv y' ∧ p_next (y_p y') <= p_next (y_p y) + 1.
Proof.
  intros Hv Hn. pose proof Hv as [C O L U Aq Rc Ids D [Nd Fd] Nx (used&Hs&Hsub) Dn]. cbn [sys_step].
  destruct (drop_proxy_spec (y_p y) (y_ms y) rid C) as (p'&ms'&w&->&C'&Ei&Ea&Eb&Ew&Ebusy&Ewt&En); [lia|done|]. cbn [mbind outcome_bind].
  eexists. split; [done|]. split; [|cbn [y_p]; lia]. split; cbn [y_p y_calls y_ready y_done y_sent]; rewrite ?Ebusy, ?Ewt, ?En, ?Ei, ?Ea, ?Eb, ?Ew; try done.
  - intros q a c Hc P. destruct (Aq q a c Hc P) as [?|?]; [left; set_solver|by right].
  - intros q a c Hc P. destruct (Rc q a c Hc P) as [?|?]; [left; set_solver|by right].
  - intros q a c Hc. destruct (Ids q a c Hc) as (?&?&?). split_and!; try done; lia.
  - split; [done|]. eapply Forall_impl; [exact Fd|]. cbn. intros. lia.
  - lia.
  - eauto.
Qed.

(** A call that leaves: its process no longer counts, and when it held the lock
    everyone that waits for it is ready. *)
Lemma leave_inv y p' pid a c (ready : gset Z) done : sys_inv y → y_calls y !! pid = Some (a, c) → poll_keeps (y_p y) p' →
  (c_phase c = Acquiring → p_busy (y_p y) = false) → p_busy p' = false →
  (∀ q, q ≠ pid → q ∈ y_ready y ∨ q ∈ p_waiters (y_p y) → q ∈ ready) →
  (∃ used, inbox (y_p y) = used ++ inbox p' ∧ results done `sublist_of` used) →
  Forall (λ e, match e.2 with inl (buf, _) => 9 <= len buf ∧ from_le_bytes (take 8 (drop 1 buf)) = e.1.2 | inr _ => True end) done →
  (done_ids done = [] ∨ done_ids done = [c_id c]) → ∀ ms,
  sys_inv (mkSys p' ms (delete pid (y_calls y)) ready (y_done y ++ done) (y_sent y)).
Proof.
  intros Hv Hc [K1 K2 K3 K4] Hb Hb' Hready (used'&Hi&Hsub') Hdone Hids ms. pose proof (others_acquire y pid a c Hv Hc Hb) as Hoth.
  pose proof Hv as [C O L U Aq Rc Ids D [Nd Fd] Nx (used&Hs&Hsub) Dn].
  assert (done_ids (y_done y ++ done) = done_ids (y_done y) ++ done_ids done) as Ed by apply fmap_app.
  destruct (Ids pid a c Hc) as (Hid&Hnid&_).
  split; cbn [y_p y_calls y_ready y_done y_sent]; rewrite ?Ed, ?K4; try done; try congruence.
  - rewrite Hb'. split; [done|]. intros (q&a'&c'&[Hne Hq]%lookup_delete_Some&P). rewrite (Hoth q a' c') in P; done.
  - intros p1 a1 c1 p2 a2 c2 [_ H1]%lookup_delete_Some P1 [_ H2]%lookup_delete_Some P2. by eapply U.
  - intros q a' c' [Hne Hq]%lookup_delete_Some P. left. apply Hready; [done|]. destruct (Aq q a' c' Hq P) as [?|[_ ?]]; auto.
  - intros q a' c' [Hne Hq]%lookup_delete_Some P. rewrite (Hoth q a' c') in P; done.
  - intros q a' c' [Hne Hq]%lookup_delete_Some. destruct (Ids q a' c' Hq) as (?&?&?). split; [done|]. split; [|done]. rewrite not_elem_of_app. split; [done|].
    destruct Hids as [->| ->]; [apply not_elem_of_nil|]. intros Eid%list_elem_of_singleton. by destruct Hne; apply (D pid a c q a' c').
  - intros p1 a1 c1 p2 a2 c2 [_ H1]%lookup_delete_Some [_ H2]%lookup_delete_Some. by eapply D.
  - split.
    + apply NoDup_app. split_and!; [done| |destruct Hids as [->| ->]; [constructor|apply NoDup_singleton]].
      intros i Hin Hin'. destruct Hids as [E|E]; rewrite E in Hin'; [by apply not_elem_of_nil in Hin'|]. apply list_elem_of_singleton in Hin' as ->. done.
    + apply Forall_app. split; [done|]. destruct Hids as [->| ->]; [constructor|]. by apply Forall_singleton.
  - exists (used ++ used'). rewrite <-app_assoc, <-Hi. split; [done|]. unfold results. rewrite omap_app. by apply sublist_app.
  - by apply Forall_app.
Qed.

Lemma cancel_step y pid : sys_inv y → ∃ y', sys_step y (Cancel pid) = Ok y' ∧ sys_inv y' ∧ p_next (y_p y') = p_next (y_p y).
Proof.
  intros Hv. cbn [sys_step]. destruct (y_calls y !! pid) as [[a c]|] eqn:E; [|by exists y]. unfold cancel_call. destruct (c_phase c) eqn:Ec.
  - eexists. split; [done|]. split; [|done]. pose proof Hv as [C O L U Aq Rc Ids D Nd Nx Hs Dn].
    split; cbn [y_p y_calls y_ready y_done y_sent]; try done.
    + rewrite L. split; intros (q&a'&c'&Hq&P); exists q, a', c'; (split; [|done]); [|by apply lookup_delete_Some in Hq as [_ Hq]].
      apply lookup_delete_Some. split; [|done]. intros <-. congruence.
    + intros p1 a1 c1 p2 a2 c2 [_ H1]%lookup_delete_Some P1 [_ H2]%lookup_delete_Some P2. by eapply U.
    + intros q a' c' [_ Hq]%lookup_delete_Some P. destruct (Aq q a' c' Hq P) as [?|?]; [left; set_solver|by right].
    + intros q a' c' [_ Hq]%lookup_delete_Some P. destruct (Rc q a' c' Hq P) as [?|?]; [left; set_solver|by right].
    + intros q a' c' [_ Hq]%lookup_delete_Some. by eapply Ids.
    + intros p1 a1 c1 p2 a2 c2 [_ H1]%lookup_delete_Some [_ H2]%lookup_delete_Some. by eapply D.
  - cbn [release]. eexists. split; [done|]. split; [|done]. rewrite <-(app_nil_r (y_done y)).
    eapply (leave_inv y _ pid a c); try done; [split; try done; apply (v_chan _ Hv)|by rewrite Ec| | |by left].
    + intros q _ [?|?]; [set_solver|]. apply elem_of_union_r. by apply elem_of_list_to_set.
    + by exists [].
Qed.

Lemma poll_step y pid : sys_inv y → ∃ y', sys_step y (Poll pid) = Ok y' ∧ sys_inv y' ∧ p_next (y_p y') = p_next (y_p y).
Proof.
  intros Hv. cbn [sys_step]. destruct (y_calls y !! pid) as [[a c]|] eqn:E; [|by exists y]. destruct (decide (pid ∈ y_ready y)) as [Hrd|]; [|by exists y].
  destruct (round_trip_spec (y_p y) (y_ms y) pid c (v_chan _ Hv)) as (p'&ms'&w&r&->&K&Hr); [intros; apply (v_lock _ Hv); eauto|]. cbn [mbind outcome_bind].
  eexists. split; [done|]. pose proof Hv as [C O L U Aq Rc Ids D Nd Nx (used&Hs&Hsub) Dn]. pose proof K as [K1 K2 K3 K4].
  destruct Hr as [(Ec&Eb&->&->&Ech&Eb'&Hin&Hw)|[Hb (used'&Hi&Hr)]].
  - split; [|done]. rewrite insert_id by done. assert (inbox p' = inbox (y_p y)) as Ei by (unfold inbox; by rewrite Ech).
    split; cbn [y_p y_calls y_ready y_done y_sent]; rewrite ?K4, ?Ei, ?Ech; try done; [by rewrite Eb', <-L, Eb| | |eauto].
    + intros q a' c' Hq P. destruct (decide (q = pid)) as [->|Hne]; [by right|]. destruct (Aq q a' c' Hq P) as [?|[? ?]]; [left; set_solver|right; auto].
    + intros q a' c' Hq P. destruct (decide (q = pid)) as [->|Hne]; [congruence|]. destruct (Rc q a' c' Hq P) as [?|?]; [left; set_solver|by right].
  - pose proof (others_acquire y pid a c Hv E Hb) as Hoth. destruct r as [c'|rep].
    + destruct Hr as (->&Eb'&Ew&Ei&Ecl&Hwt). split; [|done]. split; cbn [y_p y_calls y_ready y_done y_sent]; rewrite ?K4, ?Ew; try done; try congruence.
      * rewrite Eb'. split; [|done]. intros _. exists pid, a. eexists. split; [apply lookup_insert_eq|done].
      * intros p1 a1 c1 p2 a2 c2 [[<- _]|[N1 H1]]%lookup_insert_Some P1 [[<- _]|[N2 H2]]%lookup_insert_Some P2; try done.
        -- by rewrite (Hoth p2 a2 c2) in P2.
        -- by rewrite (Hoth p1 a1 c1) in P1.
        -- by eapply U.
      * intros q a' c' [[<- [= <- <-]]|[Hne Hq]]%lookup_insert_Some P; [done|]. destruct (Aq q a' c' Hq P) as [?|[_ ?]]; [left; set_solver|by right].
      * intros q a' c' [[<- [= <- <-]]|[Hne Hq]]%lookup_insert_Some P; [by right|]. by rewrite (Hoth q a' c') in P.
      * intros q a' c' [[<- [= <- <-]]|[Hne Hq]]%lookup_insert_Some; [apply (Ids pid a c E)|by eapply Ids].
      * intros p1 a1 c1 p2 a2 c2 [[<- [= <- <-]]|[_ H1]]%lookup_insert_Some [[<- [= <- <-]]|[_ H2]]%lookup_insert_Some; cbn [c_id]; intros Eid; try done.
        -- by apply (D pid a c p2 a2 c2).
        -- by apply (D p1 a1 c1 pid a c).
        -- by eapply D.
      * exists (used ++ used'). rewrite <-app_assoc, <-Hi. split; [done|]. by apply sublist_inserts_r.
    + destruct Hr as (Eb'&Ew&Hw&Hrep). split; [|done]. eapply (leave_inv y p' pid a c); try done; [|destruct rep as [[buf att]|e]..|by right].
      * intros q Hne [?|?]; [set_solver|]. apply elem_of_difference. split; [apply elem_of_union_r, elem_of_list_to_set; auto|set_solver].
      * destruct Hrep as [(sk&->) _]. exists (sk ++ [mkMsg buf att]). split; [done|]. by apply sublist_inserts_l.
      * exists used'. split; [done|]. apply sublist_nil_l.
      * destruct Hrep as (_&?&?). by apply Forall_singleton.
      * by apply Forall_singleton.
Qed.

(** ** Runs *)
Lemma step_inv y s : sys_inv y → p_next (y_p y) + 1 < 2 ^ 64 → ∃ y', sys_step y s = Ok y' ∧ sys_inv y' ∧ p_next (y_p y') <= p_next (y_p y) + 1.
Proof.
  intros Hv Hn. destruct s as [pid a|pid|o|rid|pid]; [by apply begin_step| | |by apply drop_step|].
  - destruct (poll_step y pid Hv) as (y'&?&?&?). exists y'. split_and!; [done|done|lia].
  - destruct (provider_step y o Hv) as (y'&?&?&?). exists y'. split_and!; [done|done|lia].
  - destruct (cancel_step y pid Hv) as (y'&?&?&?). exists y'. split_and!; [done|done|lia].
Qed.

Lemma run_inv steps : ∀ y, sys_inv y → p_next (y_p y) + len steps < 2 ^ 64 → ∃ y', sys_run y steps = Ok y' ∧ sys_inv y'.
Proof.
  induction steps as [|s steps IH]; intros y Hv Hn; cbn [sys_run]; [by exists y|]. rewrite len_cons in Hn. pose proof (len_nonneg steps).
  destruct (step_inv y s Hv) as (y1&->&Hv1&Hn1); [lia|]. cbn [mbind outcome_bind]. apply IH; [done|lia].
Qed.

(** ** The provider is gone *)
Definition gone (y : Sys) : Prop := closed (half (p_chan (y_p y)) SideB) = true.

Lemma gone_poll y pid a c : sys_inv y → gone y → y_calls y !! pid = Some (a, c) → pid ∈ y_ready y →
  (c_phase c = Acquiring → p_busy (y_p y) = false) →
  ∃ y' rep, sys_step y (Poll pid) = Ok y' ∧ sys_inv y' ∧ gone y' ∧ y_calls y' = delete pid (y_calls y) ∧ y_done y' = y_done y ++ [(pid, a, c_id c, rep)].
Proof.
  intros Hv Hg Hc Hr Hb. destruct (poll_step y pid Hv) as (y'&E&Hv'&_). cbn [sys_step] in E. rewrite Hc, decide_True in E by done.
  destruct (round_trip_spec (y_p y) (y_ms y) pid c (v_chan _ Hv)) as (p'&ms'&w&r&Er&[K1 K2 K3 K4]&Hrt); [intros; apply (v_lock _ Hv); eauto|].
  rewrite Er in E. cbn [mbind outcome_bind] in E. injection E as <-.
  destruct Hrt as [(Ep&Eb&_)|[_ (used&_&Hs)]]; [rewrite Hb in Eb by done; done|]. destruct r as [c'|rep].
  - exfalso. destruct Hs as (_&_&_&_&Hcl&_). unfold gone in Hg. congruence.
  - do 2 eexists. split; [cbn [sys_step]; rewrite Hc, decide_True by done; by rewrite Er|]. split; [exact Hv'|]. split; [|done]. unfold gone. cbn [y_p]. by rewrite K3.
Qed.

(** Someone whose poll ends its call. *)
Lemma gone_next y : sys_inv y → gone y → y_calls y ≠ ∅ →
  ∃ pid a c, y_calls y !! pid = Some (a, c) ∧ pid ∈ y_ready y ∧ (c_phase c = Acquiring → p_busy (y_p y) = false).
Proof.
  intros Hv Hg Hne. destruct (p_busy (y_p y)) eqn:Eb.
  - pose proof Eb as Eb'. apply (v_lock _ Hv) in Eb' as (pid&a&c&Hc&Hp). exists pid, a, c. split; [done|]. split; [|congruence].
    destruct (v_receiving _ Hv pid a c Hc Hp) as [?|(_&_&Hcl)]; [done|]. unfold gone in Hg. congruence.
  - destruct (map_choose (y_calls y) Hne) as (pid&[a c]&Hc). exists pid, a, c. split; [done|]. split; [|done]. destruct (c_phase c) eqn:Hp.
    + destruct (v_acquiring _ Hv pid a c Hc Hp) as [?|[? _]]; [done|congruence].
    + assert (p_busy (y_p y) = true) by (apply (v_lock _ Hv); eauto). congruence.
Qed.

Lemma gone_drains n : ∀ y, sys_inv y → gone y → size (y_calls y) = n →
  ∃ pids y', length pids = n ∧ sys_run y (Poll <$> pids) = Ok y' ∧ y_calls y' = ∅ ∧ sys_inv y'.
Proof.
  induction n as [|n IH]; intros y Hv Hg Hn; [exists [], y; split_and!; try done; by apply map_size_empty_inv|].
  destruct (gone_next y Hv Hg) as (pid&a&c&Hc&Hr&Hp); [intros E; by rewrite E, map_size_empty in Hn|].
  destruct (gone_poll y pid a c Hv Hg Hc Hr Hp) as (y1&rep&E&Hv1&Hg1&Ec&_).
  destruct (IH y1 Hv1 Hg1) as (pids&y2&Hl&E2&He&Hv2); [rewrite Ec, map_size_delete_Some by (by eexists); lia|].
  exists (pid :: pids), y2. split_and!; [simpl; lia| |done|done]. cbn [fmap list_fmap sys_run]. rewrite E. cbn [mbind outcome_bind]. exact E2.
Qed.
End calls.

(** C8.  Calls of any number of client processes to a userspace scheme
    provider, in any interleaving of their polls with arbitrary actions of the
    provider, closing of proxies and ends of clients: nothing panics or fails to
    end.  At most one call has its request under way; a call that is not going
    to be polled waits for a lock another call holds, among its waiters, or for
    a message on an empty open channel, registered on it.  Every answered call
    got a message the provider sent, with the id of its own request; answers are
    taken in the order they were sent, none twice, and no id is answered twice. *)
Theorem scheme_calls_exact {R} (ms : mailboxes) (steps : list (Step (R:=R))) :
  len steps < 2 ^ 64 - 1 → ∃ y, sys_run (sys_new ms) steps = Ok y ∧
  (∀ pid1 a1 c1 pid2 a2 c2, y_calls y !! pid1 = Some (a1, c1) → c_phase c1 = Receiving →
     y_calls y !! pid2 = Some (a2, c2) → c_phase c2 = Receiving → pid1 = pid2) ∧
  (∀ pid a c, y_calls y !! pid = Some (a, c) → pid ∉ y_ready y →
     match c_phase c with
     | Acquiring => pid ∈ p_waiters (y_p y) ∧ ∃ holder a' c', y_calls y !! holder = Some (a', c') ∧ c_phase c' = Receiving
     | Receiving => waiting (half_waker (half (p_chan (y_p y)) SideA)) = Some pid ∧ would_block_recv (p_chan (y_p y)) SideA = true
     end) ∧
  Forall (λ e, match e.2 with inl (buf, _) => 9 <= len buf ∧ from_le_bytes (take 8 (drop 1 buf)) = e.1.2 | inr _ => True end) (y_done y) ∧
  (results (y_done y) `sublist_of` y_sent y) ∧ NoDup (done_ids (y_done y)).
Proof.
  intros Hn. destruct (run_inv steps (sys_new ms) (sys_inv_new ms)) as (y&->&Hv); [cbn; lia|]. exists y. split; [done|].
  pose proof Hv as [C O L U Aq Rc Ids D [Nd _] Nx (used&->&Hsub) Dn]. split_and!; [exact U| |done|by apply sublist_inserts_r|done].
  intros pid a c Hc Hr. destruct (c_phase c) eqn:Hp.
  - destruct (Aq pid a c Hc Hp) as [?|[Hb ?]]; [done|]. split; [done|]. by apply L.
  - destruct (Rc pid a c Hc Hp) as [?|(Hw&Hi&Hcl)]; [done|]. split; [done|]. unfold would_block_recv. cbn [other]. unfold inbox in Hi. by rewrite Hi, Hcl.
Qed.

(** C25.  When the provider is gone, wherever the calls stand, they all end:
    while there are calls one of them will be polled, and polling as many
    processes as there are calls, one after the other, ends them all.  The poll of
    a call that holds the lock, or of any call when none does, ends it. *)
Theorem scheme_provider_gone {R} (ms : mailboxes) (steps : list (Step (R:=R))) :
  len steps < 2 ^ 64 - 1 → ∃ y, sys_run (sys_new ms) steps = Ok y ∧
  (closed (half (p_chan (y_p y)) SideB) = true →
   (y_calls y ≠ ∅ → ∃ pid, pid ∈ y_ready y ∧ is_Some (y_calls y !! pid)) ∧
   (∀ pid a c, y_calls y !! pid = Some (a, c) → pid ∈ y_ready y → (c_phase c = Acquiring → p_busy (y_p y) = false) →
      ∃ y' rep, sys_step y (Poll pid) = Ok y' ∧ y_calls y' = delete pid (y_calls y) ∧ y_done y' = y_done y ++ [(pid, a, c_id c, rep)]) ∧
   ∃ pids y', length pids = size (y_calls y) ∧ sys_run y (Poll <$> pids) = Ok y' ∧ y_calls y' = ∅).
Proof.
  intros Hn. destruct (run_inv steps (sys_new ms) (sys_inv_new ms)) as (y&->&Hv); [cbn; lia|]. exists y. split; [done|]. intros Hg. split_and!.
  - intros Hne. destruct (gone_next y Hv Hg Hne) as (pid&a&c&Hc&Hr&_). eauto.
  - intros pid a c Hc Hr Hb. destruct (gone_poll y pid a c Hv Hg Hc Hr Hb) as (y'&rep&?&_&_&?&?). eauto 10.
  - destruct (gone_drains _ y Hv Hg eq_refl) as (pids&y'&?&?&?&_). eauto 10.
Qed.

(** Two clients; the first ends while it waits, and the answer to its request
    comes first. *)
Definition response_bytes (m : BufM Z) : list Z :=
  match m (replicate 64 0) with Ok (buf, Some n) => take (Z.to_nat n) buf | _ => [] end.
Definition answer (bytes : list Z) : Step (R:=Z) := Provider (CSend SideB bytes None).
Definition orphan_run : list (Step (R:=Z)) :=
  [Begin 1 (AOpen [47]); Begin 2 (ARead 9 4); Poll 1; Poll 2; Cancel 1; answer (response_bytes (encode_open_ok 1 7)); Poll 2;
   answer (response_bytes (encode_read_ok 2 [104; 105])); Poll 2].

Lemma scheme_calls_exact_witness :
  ∃ y, sys_run (sys_new ∅) orphan_run = Ok y ∧
  (∀ pid1 a1 c1 pid2 a2 c2, y_calls y !! pid1 = Some (a1, c1) → c_phase c1 = Receiving →
     y_calls y !! pid2 = Some (a2, c2) → c_phase c2 = Receiving → pid1 = pid2) ∧
  (∀ pid a c, y_calls y !! pid = Some (a, c) → pid ∉ y_ready y →
     match c_phase c with
     | Acquiring => pid ∈ p_waiters (y_p y) ∧ ∃ holder a' c', y_calls y !! holder = Some (a', c') ∧ c_phase c' = Receiving
     | Receiving => waiting (half_waker (half (p_chan (y_p y)) SideA)) = Some pid ∧ would_block_recv (p_chan (y_p y)) SideA = true
     end) ∧
  Forall (λ e, match e.2 with inl (buf, _) => 9 <= len buf ∧ from_le_bytes (take 8 (drop 1 buf)) = e.1.2 | inr _ => True end) (y_done y) ∧
  (results (y_done y) `sublist_of` y_sent y) ∧ NoDup (done_ids (y_done y)).
Proof. apply scheme_calls_exact. by vm_compute. Defined.

Lemma scheme_provider_gone_witness :
  ∃ y, sys_run (sys_new ∅) [Begin 1 (AOpen [47]); Begin 2 (ARead 9 4); Poll 1; Poll 2; Provider (R:=Z) (CClose SideB)] = Ok y ∧
  (closed (half (p_chan (y_p y)) SideB) = true →
   (y_calls y ≠ ∅ → ∃ pid, pid ∈ y_ready y ∧ is_Some (y_calls y !! pid)) ∧
   (∀ pid a c, y_calls y !! pid = Some (a, c) → pid ∈ y_ready y → (c_phase c = Acquiring → p_busy (y_p y) = false) →
      ∃ y' rep, sys_step y (Poll pid) = Ok y' ∧ y_calls y' = delete pid (y_calls y) ∧ y_done y' = y_done y ++ [(pid, a, c_id c, rep)]) ∧
   ∃ pids y', length pids = size (y_calls y) ∧ sys_run y (Poll <$> pids) = Ok y' ∧ y_calls y' = ∅).
Proof. apply scheme_provider_gone. by vm_compute. Defined.

(** What a run left: the finished calls. *)
Definition finished (steps : list (Step (R:=Z))) : option (list (Z * ((list Z * option Z) + ProviderError))) :=
  match sys_run (sys_new ∅) steps with Ok y => Some ((λ e, (e.1.1.1, e.2)) <$> y_done y) | _ => None end.

(** Runs with their answers.  The answer to a call that has ended is discarded
    and the next call gets its own.  A message of the provider shorter than a
    header ends whatever call is under way with an error.  A provider that does
    not receive makes calls fail as if it were gone: closes of proxies are sent
    without waiting and fill its queue. *)
Example scheme_call_runs :
  finished orphan_run = Some [(2, inl (response_bytes (encode_read_ok 2 [104; 105]), None))] ∧
  finished [Begin 1 (AOpen [47]); Poll 1; answer [1; 2; 3]; Poll 1] = Some [(1, inr PProtocol)] ∧
  finished (replicate (Z.to_nat DEFAULT_QUEUE_CAPACITY) (DropProxy 3) ++ [Begin 1 (AOpen [47]); Poll 1]) = Some [(1, inr PDisconnected)] ∧
  read_answer (R:=Z) (inl (response_bytes (encode_read_ok 2 [104; 105]), None)) = Ok [104; 105].
Proof. vm_compute. done. Qed.
