(* ===== verification/SchemeRegistry.v ===== *)
(** * The scheme registry ([panda-kernel/src/resource/scheme.rs], the first
      half; [resource/initrd.rs]; [syscall/scheme.rs])

    A URI names a scheme and a path; the scheme's handler opens, lists or
    connects.  The built-in handlers, registration by processes, and who ends
    up owning a device. *)

From Stdlib Require Import Sorted Ascii String.
From S2P Require Import Prelude Utf8 Text BTree Value StrMap Abi Path Handle UserPtr Channel Effects FsTypes Devices Vfs TarFs SchemeProvider.
#[local] Open Scope Z_scope.
#[local] Open Scope list_scope.

(** The handlers; a userspace provider by the channel to its process. *)
Inductive SchemeHandler :=
| FileScheme | InitrdScheme (fs : TarFs) | ConsoleScheme | KeyboardScheme | DisplayScheme | BlockScheme | SchemeScheme
| UserSchemeProvider (chan : Z).

Abbreviation Schemes := (list (str * SchemeHandler)).
Implicit Types schemes : Schemes.

Definition register_scheme (name : str) (handler : SchemeHandler) schemes : Schemes := btree_insert name handler schemes.
Definition scheme_names schemes : list str := schemes.*1.

Definition register_user_scheme (name : str) (kernel_endpoint : Z) schemes : Schemes * (() + ErrorCode) :=
  if decide (name = []) then (schemes, inr EInvalidArgument)
  else match sm_get name schemes with
       | Some _ => (schemes, inr EAlreadyExists)
       | None => (btree_insert name (UserSchemeProvider kernel_endpoint) schemes, inl tt)
       end.
Definition unregister_scheme_if_present (name : str) schemes : Schemes := sm_remove name schemes.

Section schemes.
(** The file systems' state and open files, and what a provider hands out. *)
Context {W H UR : Type}.

(** Resources: a directory, with its path when the VFS can change it; files;
    devices, with the claim that goes with them; a provider's. *)
Inductive Resource :=
| RDirectory (entries : list FsDirEntry) (vfs_path : option str)
| RVfsFile (file : H) | RTarFile (file : TarFile)
| RSerialConsole (port : Z)
| RKeyboard (address : DeviceAddress)
| RDisplay (guard : ClaimGuard)
| RBlockDevice (address : DeviceAddress) (guard : ClaimGuard)
| REndpoint (chan : Z) (side : Side)
| RUser (r : UR).

(** [DirectoryResource] as a [Directory]. *)
Definition directory_entry (entries : list FsDirEntry) (i : Z) : option FsDirEntry := entries !! Z.to_nat i.

Record Kernel := mkKernel { k_schemes : Schemes; k_classes : ClassRegistry; k_vfs : VfsState W H }.
Definition set_vfs (v : VfsState W H) (k : Kernel) : Kernel := mkKernel (k_schemes k) (k_classes k) v.
Definition set_schemes (s : Schemes) (k : Kernel) : Kernel := mkKernel s (k_classes k) (k_vfs k).
Definition k_claims (k : Kernel) : Claims := v_claims (k_vfs k).
Definition put_claims (c : Claims) (k : Kernel) : Kernel := set_vfs (set_claims c (k_vfs k)) k.

(** The devices the drivers registered, whether a framebuffer exists, and what
    the providers answer (see [SchemeCalls]). *)
Context (has_keyboard has_block : DeviceAddress → bool) (framebuffer : bool).
Context (user_open : Z → str → ST W OpenError UR) (user_connect : Z → str → ST W OpenError UR)
        (user_readdir : Z → str → ST W OpenError (list FsDirEntry)).

Abbreviation SchemeM := (ST Kernel OpenError).

(** A computation of the file systems, with any error an answer. *)
Definition in_world {E A} (m : ST W E A) : SchemeM (E + A) := λ k,
  let '(w, r) := m (v_world (k_vfs k)) in
  let k := set_vfs (mkVfs w (v_claims (k_vfs k)) (v_mounts (k_vfs k))) k in
  (k, match r with Ok a => Ok (inr a) | Err e => Ok (inl e) | Panic => Panic | OutOfFuel => OutOfFuel end).
Definition or_not_found {E A} (r : E + A) : SchemeM A := match r with inr a => mret a | inl _ => fail OENotFound end.
Definition or_error {A} (r : OpenError + A) : SchemeM A := match r with inr a => mret a | inl e => fail e end.

(** [claim(..).map_err(|_| Busy)?]. *)
Definition claim_device (address : DeviceAddress) (owner : ClaimOwner) : SchemeM ClaimGuard := λ k,
  match claim address owner (k_claims k) with
  | (_, None) => (k, Err OEBusy)
  | (claims, Some g) => (put_claims claims k, Ok g)
  end.
Definition release_guard (g : ClaimGuard) : SchemeM () := λ k, (put_claims (drop_guard g (k_claims k)) k, Ok tt).
Definition resolve_or_not_found (path : str) : SchemeM DeviceAddress := λ k,
  (k, match resolve_device path (k_classes k) with Some a => Ok a | None => Err OENotFound end).

(** ** The built-in handlers *)
Definition FileScheme_open (path : str) : SchemeM Resource :=
  mounts ← gets (λ k, v_mounts (k_vfs k));
  entries ← in_world (vfs_readdir mounts path);
  match entries with
  | inr entries => mret (RDirectory entries (Some path))
  | inl _ => file ← in_world (vfs_open mounts path); file ← or_not_found file; mret (RVfsFile file)
  end.

Definition InitrdScheme_open (fs : TarFs) (path : str) : SchemeM Resource :=
  let path := trim_start_char SLASH path in
  entries ← in_world (liftO (TarFs_readdir fs path));
  match entries with
  | inr entries => mret (RDirectory entries None)
  | inl _ => file ← in_world (liftO (TarFs_open fs path)); file ← or_not_found file; mret (RTarFile file)
  end.

Definition ConsoleScheme_open (path : str) : SchemeM Resource :=
  if decide (path = lit "/serial/0") then mret (RSerialConsole 0x3f8) else fail OENotFound.
Definition ConsoleScheme_readdir (path : str) : option (list FsDirEntry) :=
  if decide (path = lit "/") then Some [{| fde_name := lit "serial"; fde_is_dir := true |}]
  else if decide (path = lit "/serial") then Some [{| fde_name := lit "0"; fde_is_dir := false |}]
  else None.

Definition KeyboardScheme_open (path : str) : SchemeM Resource :=
  address ← resolve_or_not_found path;
  if has_keyboard address then mret (RKeyboard address) else fail OENotFound.

(** [display_device_address]: the first device of the display class. *)
Definition display_device_address (k : Kernel) : option DeviceAddress := get_device_by_class (DeviceClass_code Display) 0 (k_classes k).

(** [DisplayDevice::new] takes the claim, and drops it when there is no
    framebuffer; [BlockScheme] drops it when there is no such block device. *)
Definition DisplayScheme_open (path : str) : SchemeM Resource :=
  address ← resolve_or_not_found path;
  display ← gets display_device_address;
  if decide (display ≠ Some address) then fail OENotFound
  else
    guard ← claim_device address OwnerDisplay;
    if framebuffer then mret (RDisplay guard) else release_guard guard;; fail OENotFound.

Definition BlockScheme_open (path : str) : SchemeM Resource :=
  address ← resolve_or_not_found path;
  guard ← claim_device address OwnerRawOpen;
  if has_block address then mret (RBlockDevice address guard) else release_guard guard;; fail OENotFound.

Definition SchemeScheme_readdir (path : str) (k : Kernel) : option (list FsDirEntry) :=
  if decide (path = lit "/") then Some ((λ name, {| fde_name := name; fde_is_dir := false |}) <$> scheme_names (k_schemes k)) else None.

(** ** The registry *)
Definition handler_open (h : SchemeHandler) (path : str) : SchemeM Resource :=
  match h with
  | FileScheme => FileScheme_open path
  | InitrdScheme fs => InitrdScheme_open fs path
  | ConsoleScheme => ConsoleScheme_open path
  | KeyboardScheme => KeyboardScheme_open path
  | DisplayScheme => DisplayScheme_open path
  | BlockScheme => BlockScheme_open path
  | SchemeScheme => fail OENotFound
  | UserSchemeProvider chan => r ← in_world (user_open chan path); r ← or_error r; mret (RUser r)
  end.

(** Only userspace providers connect. *)
Definition handler_connect (h : SchemeHandler) (path : str) : SchemeM Resource :=
  match h with
  | UserSchemeProvider chan => r ← in_world (user_connect chan path); r ← or_error r; mret (RUser r)
  | _ => fail OENotFound
  end.

(** [None] is a failure, for any reason. *)
Definition ok_entries {E} (r : E + list FsDirEntry) : option (list FsDirEntry) := match r with inr es => Some es | inl _ => None end.
Definition handler_readdir (h : SchemeHandler) (path : str) : SchemeM (option (list FsDirEntry)) :=
  match h with
  | FileScheme => mounts ← gets (λ k, v_mounts (k_vfs k)); r ← in_world (vfs_readdir mounts path); mret (ok_entries r)
  | InitrdScheme fs => r ← in_world (liftO (TarFs_readdir fs (trim_start_char SLASH path))); mret (ok_entries r)
  | ConsoleScheme => mret (ConsoleScheme_readdir path)
  | KeyboardScheme | DisplayScheme | BlockScheme => gets (λ k, list_devices_at path (k_classes k))
  | SchemeScheme => gets (SchemeScheme_readdir path)
  | UserSchemeProvider chan => r ← in_world (user_readdir chan path); mret (ok_entries r)
  end.

Definition find_handler (uri : str) (k : Kernel) : option (SchemeHandler * str) :=
  '(scheme, path) ← split_once COLON uri;
  handler ← sm_get scheme (k_schemes k);
  Some (handler, path).

Definition scheme_open (uri : str) : SchemeM Resource :=
  found ← gets (find_handler uri);
  match found with Some (handler, path) => handler_open handler path | None => fail OENotFound end.
Definition scheme_connect (uri : str) : SchemeM Resource :=
  found ← gets (find_handler uri);
  match found with Some (handler, path) => handler_connect handler path | None => fail OENotFound end.
Definition scheme_readdir (uri : str) : SchemeM (option (list FsDirEntry)) :=
  found ← gets (find_handler uri);
  match found with Some (handler, path) => handler_readdir handler path | None => mret None end.

(** ** Registration by a process ([handle_register])

    [chan] is the channel pair the call creates: side A goes into the
    registry, side B into the caller's handle table. *)
Definition handle_register (m : mem) (name_ptr name_len chan : Z) (schemes : Schemes) (table : HandleTable Resource) :
    Schemes * HandleTable Resource * SyscallResult :=
  match ua_read m (mkSlice name_ptr name_len) with
  | Ok name =>
      if utf8_valid name then
        match register_user_scheme name chan schemes with
        | (schemes, inr code) => (schemes, table, result_err code)
        | (schemes, inl _) =>
            match insert_typed table HTChannel (REndpoint chan SideB) with
            | (table, inl handle_id) => (schemes, table, result_ok handle_id)
            | (table, inr _) => (unregister_scheme_if_present name schemes, table, result_err ETooManyHandles)
            end
        end
      else (schemes, table, result_err EInvalidArgument)
  | _ => (schemes, table, result_err EInvalidArgument)
  end.
End schemes.
Arguments Kernel : clear implicits.
Arguments Resource : clear implicits.

(** ** Registration *)
Lemma sm_remove_insert {V} k (v : V) m : sm_get k m = None → sm_remove k (btree_insert k v m) = m.
Proof.
  induction m as [|[k' v'] m IH]; cbn [sm_get btree_insert]; [intros _; cbn; by rewrite decide_True|]. destruct (decide (k = k')); [done|].
  intros Hg. pose proof (str_compare_eq k k') as Heq. destruct (str_compare k k'); cbn [sm_remove].
  - by destruct (proj1 Heq eq_refl).
  - by rewrite decide_True.
  - rewrite decide_False by done. by rewrite IH.
Qed.

(** The name a process passes, when it can be read and is text. *)
Definition passed_name (m : mem) (ptr n : Z) : option str :=
  match ua_read m (mkSlice ptr n) with Ok name => if utf8_valid name then Some name else None | _ => None end.

(** C28.  Registering a scheme is all or nothing.  It succeeds exactly for a
    readable UTF-8 name, not empty and not registered, when the caller's table
    has room: then the name leads to one end of the new channel, the returned
    handle to the other, and nothing else changes.  In every other case the
    registry and the table are as before, the failed insertion into the handle
    table included, and the code says why. *)
Theorem scheme_register_exact {H UR} (m : mem) (ptr n chan : Z) schemes (table : HandleTable (Resource H UR)) :
  sm_sorted schemes → table_inv table →
  let '(schemes', table', r) := handle_register m ptr n chan schemes table in
  let unchanged code := schemes' = schemes ∧ table' = table ∧ r = result_err code in
  match passed_name m ptr n with
  | None | Some [] => unchanged EInvalidArgument
  | Some name =>
      if decide (is_Some (sm_get name schemes)) then unchanged EAlreadyExists
      else if decide (table_is_full table = true ∨ MAX_ID < next_id table) then unchanged ETooManyHandles
      else ∃ h, r = result_ok h ∧ sm_sorted schemes' ∧
        (∀ s, sm_get s schemes' = if decide (s = name) then Some (UserSchemeProvider chan) else sm_get s schemes) ∧
        table_get table h = None ∧ table_inv table' ∧
        ∀ h', table_get table' h' = if decide (h' = h) then Some (mkHandle (REndpoint chan SideB) 0) else table_get table h'
  end.
Proof.
  intros Hs Hinv. unfold handle_register, passed_name. destruct (ua_read m (mkSlice ptr n)) as [name|e| |]; [|done..].
  destruct (utf8_valid name); [|done]. unfold register_user_scheme. destruct name as [|c name]; [done|]. rewrite decide_False by done.
  destruct (sm_get (c :: name) schemes) as [h0|] eqn:Eg; cbv zeta; [by rewrite decide_True by (by eexists)|].
  assert (¬ is_Some (@None SchemeHandler)) as Hno by (by intros []).
  destruct (insert_typed table HTChannel (REndpoint chan SideB)) as [table' [h|e]] eqn:Ei.
  - pose proof (table_inv_insert_typed _ _ _ _ _ Hinv Ei) as Hinv'. apply insert_typed_ok in Ei as (Hlen & Hmax & -> & ->).
    unfold table_is_full. cbv zeta. rewrite decide_False by done. rewrite bool_decide_eq_false_2 by lia. rewrite decide_False by (intros [?|?]; [done|lia]).
    eexists. split_and!; [done|by apply btree_insert_sorted|by intros s; apply sm_get_insert|by apply fresh_id|done|].
    intros h'. unfold table_get. cbn [handles]. destruct (decide _) as [->|]; [apply lookup_insert_eq|by apply lookup_insert_ne].
  - pose proof (insert_typed_err _ _ _ _ _ Ei) as ->. cbv zeta. rewrite decide_False by done. rewrite decide_True; [by rewrite (sm_remove_insert _ _ _ Eg)|].
    revert Ei. unfold insert_typed, table_is_full. case_decide; [by left; apply bool_decide_eq_true|]. case_decide; [right; lia|done].
Qed.

(** [init], and [register_initrd_scheme] with the archive mounted at boot. *)
Definition init_schemes : Schemes :=
  register_scheme (lit "scheme") SchemeScheme (register_scheme (lit "block") BlockScheme (register_scheme (lit "display") DisplayScheme
    (register_scheme (lit "keyboard") KeyboardScheme (register_scheme (lit "console") ConsoleScheme (register_scheme (lit "file") FileScheme []))))).
Definition register_initrd_scheme (fs : TarFs) schemes : Schemes := register_scheme (lit "initrd") (InitrdScheme fs) schemes.

(** A process that passes the name at address 16. *)
Definition name_memory : mem := store_bytes ∅ 16 (lit "clock").

Lemma scheme_register_exact_witness :
  let '(schemes', table', r) := handle_register (H := ()) (UR := ()) name_memory 16 5 3 init_schemes HandleTable_new in
  r = result_ok (make_handle HTChannel 7) ∧ sm_get (lit "clock") schemes' = Some (UserSchemeProvider 3) ∧ sm_sorted schemes'.
Proof.
  assert (sm_sorted init_schemes) as Hs by (do 6 apply btree_insert_sorted; constructor).
  pose proof (scheme_register_exact (H := ()) (UR := ()) name_memory 16 5 3 init_schemes HandleTable_new Hs table_inv_new) as Hr.
  destruct (handle_register name_memory 16 5 3 init_schemes HandleTable_new) as [[schemes' table'] r] eqn:E. vm_compute in E. injection E as <- <- <-.
  split; [by vm_compute|]. split; [by vm_compute|]. cbn zeta in Hr.
  change (passed_name name_memory 16 5) with (Some (lit "clock")) in Hr. cbn match in Hr.
  rewrite decide_False in Hr by (vm_compute; by intros []). rewrite decide_False in Hr by (vm_compute; by intros []). by destruct Hr as (h & _ & ? & _).
Defined.

(** ** Who owns which device *)
Lemma claims_inv_perm claims l l' : l ≡ₚ l' → claims_inv (claims, l) → claims_inv (claims, l').
Proof.
  intros Hp [Hnd Hiff]. cbn in *. split; cbn; [by rewrite <-Hp|]. intros a o. by rewrite Hiff, Hp.
Qed.

Section owners.
Context {W H UR D : Type}.
Context (has_keyboard has_block : DeviceAddress → bool) (framebuffer : bool).
Context (user_open : Z → str → ST W OpenError UR).
Context (devices : list DeviceAddress) (get_device : DeviceAddress → option D) (ext2_mount : D → ST W str (Filesystem W H)).
Implicit Types (k : Kernel W H) (rs : list (Resource H UR)).

Definition resource_guard (r : Resource H UR) : option ClaimGuard :=
  match r with RDisplay g | RBlockDevice _ g => Some g | _ => None end.

(** The system: the kernel and the resources that are open; closing drops. *)
Inductive SysStep := SOpen (uri : str) | SClose (i : nat) | SMountExt2 (mountpoint : str) | SRegister (name : str) (handler : SchemeHandler).

Abbreviation open := (scheme_open has_keyboard has_block framebuffer user_open).

(** [None] is a panic. *)
Definition owner_step k rs (s : SysStep) : option (Kernel W H * list (Resource H UR)) :=
  match s with
  | SOpen uri =>
      match open uri k with
      | (k, Ok r) => Some (k, rs ++ [r])
      | (k, Err _) => Some (k, rs)
      | _ => None
      end
  | SClose i =>
      match rs !! i with
      | Some r => Some (match resource_guard r with Some g => put_claims (drop_guard g (k_claims k)) k | None => k end, delete i rs)
      | None => Some (k, rs)
      end
  | SMountExt2 mountpoint =>
      match mount_ext2 devices get_device ext2_mount mountpoint (k_vfs k) with
      | (v, Ok _) | (v, Err _) => Some (set_vfs v k, rs)
      | _ => None
      end
  | SRegister name handler => Some (set_schemes (register_scheme name handler (k_schemes k)) k, rs)
  end.

Fixpoint owner_run k rs (steps : list SysStep) : option (Kernel W H * list (Resource H UR)) :=
  match steps with
  | [] => Some (k, rs)
  | s :: steps => '(k, rs) ← owner_step k rs s; owner_run k rs steps
  end.

Definition owners k rs : list ClaimGuard := omap resource_guard rs ++ omap mount_claim (v_mounts (k_vfs k)).
Definition owner_inv k rs : Prop := claims_inv (k_claims k, owners k rs).

(** What an open may do to the claims: nothing, or take the one its resource
    holds. *)
Definition open_effect k (res : Kernel W H * outcome OpenError (Resource H UR)) : Prop :=
  v_mounts (k_vfs res.1) = v_mounts (k_vfs k) ∧ k_schemes res.1 = k_schemes k ∧
  match res.2 with
  | Ok r =>
      match resource_guard r with
      | None => k_claims res.1 = k_claims k
      | Some g => k_claims k !! guard_address g = None ∧ k_claims res.1 = <[guard_address g := guard_owner g]> (k_claims k)
      end
  | _ => k_claims res.1 = k_claims k
  end.

Lemma in_world_frame {E A} (m : ST W E A) k : ∀ k' r, in_world m k = (k', r) →
  v_mounts (k_vfs k') = v_mounts (k_vfs k) ∧ k_schemes k' = k_schemes k ∧ k_claims k' = k_claims k.
Proof. intros k' r. unfold in_world. destruct (m _) as [w o]. by intros [= <- _]. Qed.

Lemma put_claims_frame c k : v_mounts (k_vfs (put_claims c k)) = v_mounts (k_vfs k) ∧ k_schemes (put_claims c k) = k_schemes k ∧ k_claims (put_claims c k) = c.
Proof. done. Qed.

(** Opening a device, the claim first. *)
Lemma claimed_open_effect address owner (c : bool) (mk : ClaimGuard → Resource H UR) k :
  (∀ g, resource_guard (mk g) = Some g) →
  open_effect k ((g ← claim_device address owner; if c then mret (mk g) else release_guard g;; fail OENotFound) k).
Proof.
  intros Hmk. unfold open_effect, mbind, ST_bind, claim_device, claim. destruct (k_claims k !! address) as [o|] eqn:E; [done|].
  destruct c; cbn -[put_claims]; [by rewrite Hmk|]. split_and!; [done..|]. unfold drop_guard. cbn. by rewrite delete_insert_id.
Qed.

Lemma world_open_effect {E A} (m : ST W E A) (f : E + A → ST (Kernel W H) OpenError (Resource H UR)) k :
  (∀ x k1, open_effect k1 (f x k1)) → open_effect k ((in_world m ≫= f) k).
Proof.
  intros Hf. unfold mbind, ST_bind. destruct (in_world m k) as [k1 r] eqn:E1. destruct (in_world_frame m k k1 r E1) as (Hm & Hs & Hc).
  destruct r as [x|e| |]; [|done..]. specialize (Hf x k1). unfold open_effect in *. rewrite Hm, Hs, Hc in Hf. done.
Qed.

Lemma pure_open_effect (o : outcome OpenError (Resource H UR)) k :
  match o with Ok r => resource_guard r = None | _ => True end → open_effect k (k, o).
Proof. unfold open_effect. cbn. destruct o as [r| | |]; [by intros ->|done..]. Qed.

Lemma handler_open_effect h path k : open_effect k (handler_open has_keyboard has_block framebuffer user_open h path k).
Proof.
  destruct h; cbn [handler_open].
  - unfold FileScheme_open. change ((gets _ ≫= ?f) k) with (f (v_mounts (k_vfs k)) k). apply world_open_effect. intros [e|es] k1; [|by apply pure_open_effect].
    apply world_open_effect. intros [e2|f] k2; by apply pure_open_effect.
  - unfold InitrdScheme_open. apply world_open_effect. intros [e|es] k1; [|by apply pure_open_effect].
    apply world_open_effect. intros [e2|f] k2; by apply pure_open_effect.
  - unfold ConsoleScheme_open. destruct (decide _); by apply pure_open_effect.
  - unfold KeyboardScheme_open, mbind, ST_bind, resolve_or_not_found. destruct (resolve_device _ _) as [a|]; [|by apply pure_open_effect].
    destruct (has_keyboard a); by apply pure_open_effect.
  - unfold DisplayScheme_open. unfold mbind at 1, ST_bind at 1, resolve_or_not_found. destruct (resolve_device _ _) as [a|]; [|by apply pure_open_effect].
    change ((gets _ ≫= ?f) k) with (f (display_device_address k) k). cbv beta. destruct (decide _); [by apply pure_open_effect|].
    by apply (claimed_open_effect a OwnerDisplay framebuffer RDisplay).
  - unfold BlockScheme_open. unfold mbind at 1, ST_bind at 1, resolve_or_not_found. destruct (resolve_device _ _) as [a|]; [|by apply pure_open_effect].
    by apply (claimed_open_effect a OwnerRawOpen (has_block a) (RBlockDevice a)).
  - by apply pure_open_effect.
  - apply world_open_effect. intros [e|r] k1; by apply pure_open_effect.
Qed.

Lemma scheme_open_effect uri k : open_effect k (open uri k).
Proof.
  unfold scheme_open. change ((gets _ ≫= ?f) k) with (f (find_handler uri k) k). cbv beta.
  destruct (find_handler uri k) as [[h path]|]; [apply handler_open_effect|by apply pure_open_effect].
Qed.

Lemma owners_snoc k rs r : owners k (rs ++ [r]) ≡ₚ owners k rs ++ match resource_guard r with Some g => [g] | None => [] end.
Proof.
  unfold owners. rewrite omap_app. cbn. destruct (resource_guard r); [|by rewrite !app_nil_r]. rewrite <-!app_assoc. apply Permutation_app_head, Permutation_app_comm.
Qed.

Lemma owner_inv_open uri k rs k' rs' : owner_inv k rs → owner_step k rs (SOpen uri) = Some (k', rs') → owner_inv k' rs'.
Proof.
  intros Hinv. cbn [owner_step]. pose proof (scheme_open_effect uri k) as (Hm & _ & He). destruct (open uri k) as [k1 [r|e| |]]; cbn in *; [| |done..].
  - intros [= <- <-]. unfold owner_inv. eapply claims_inv_perm; [symmetry; apply owners_snoc|].
    replace (owners k1 rs) with (owners k rs) by (unfold owners; by rewrite Hm). destruct (resource_guard r) as [[a o]|]; [|by rewrite app_nil_r, He].
    cbn in He. destruct He as [Hn ->]. pose proof (claims_inv_claim (k_claims k) (owners k rs) a o Hinv) as Hc. cbn in Hc. unfold claim in Hc. rewrite Hn in Hc. done.
  - intros [= <- <-]. unfold owner_inv, owners. by rewrite Hm, He.
Qed.

Lemma owner_inv_close i k rs k' rs' : owner_inv k rs → owner_step k rs (SClose i) = Some (k', rs') → owner_inv k' rs'.
Proof.
  intros Hinv. cbn [owner_step]. destruct (rs !! i) as [r|] eqn:Ei; [|by intros [= <- <-]]. intros [= <- <-].
  apply list_elem_of_split_length in Ei as (l1 & l2 & -> & ->). rewrite delete_middle.
  destruct (resource_guard r) as [g|] eqn:Eg.
  - assert (owners k (l1 ++ r :: l2) = omap resource_guard l1 ++ g :: (omap resource_guard l2 ++ omap mount_claim (v_mounts (k_vfs k)))) as Ho.
    { unfold owners. rewrite omap_app. cbn. rewrite Eg. by rewrite <-app_assoc. }
    unfold owner_inv in Hinv. rewrite Ho in Hinv. pose proof (claims_inv_drop _ _ (length (omap resource_guard l1)) Hinv) as Hd. cbn in Hd.
    rewrite list_lookup_middle in Hd by done. rewrite delete_middle in Hd. unfold owner_inv. replace (owners _ _) with (omap resource_guard l1 ++ omap resource_guard l2 ++ omap mount_claim (v_mounts (k_vfs k))); [done|].
    unfold owners. by rewrite omap_app, <-app_assoc.
  - unfold owner_inv, owners in *. rewrite omap_app in *. cbn in Hinv. by rewrite Eg in Hinv.
Qed.

Lemma owner_inv_mount mountpoint k rs k' rs' : owner_inv k rs → owner_step k rs (SMountExt2 mountpoint) = Some (k', rs') → owner_inv k' rs'.
Proof.
  intros Hinv. cbn [owner_step]. pose proof (mount_effect devices get_device ext2_mount mountpoint (k_vfs k)) as He.
  destruct (mount_ext2 _ _ _ _ _) as [v [u|e| |]]; [| |done..].
  - destruct He as (a & fs & Hn & Hc & Hm). intros [= <- <-]. unfold owner_inv, owners, k_claims. cbn. rewrite Hm, omap_app, app_assoc. cbn.
    pose proof (claims_inv_claim (k_claims k) (owners k rs) a OwnerMount Hinv) as Hx. cbn in Hx. unfold claim, k_claims in Hx. rewrite Hn in Hx. by rewrite Hc.
  - destruct He as [Hc Hm]. intros [= <- <-]. unfold owner_inv, owners, k_claims. cbn. by rewrite Hc, Hm.
Qed.

Lemma owner_inv_step s k rs k' rs' : owner_inv k rs → owner_step k rs s = Some (k', rs') → owner_inv k' rs'.
Proof.
  destruct s; [apply owner_inv_open|apply owner_inv_close|apply owner_inv_mount|]. intros Hinv [= <- <-]. exact Hinv.
Qed.

Lemma owner_inv_run steps : ∀ k rs k' rs', owner_inv k rs → owner_run k rs steps = Some (k', rs') → owner_inv k' rs'.
Proof.
  induction steps as [|s steps IH]; intros k rs k' rs' Hinv; cbn [owner_run]; [by intros [= <- <-]|].
  destruct (owner_step k rs s) as [[k1 rs1]|] eqn:E; cbn [mbind option_bind]; [|done]. apply IH. by eapply owner_inv_step.
Qed.

Lemma owned_iff k rs a : owner_inv k rs → is_Some (k_claims k !! a) ↔ a ∈ guard_address <$> owners k rs.
Proof.
  intros [_ Hiff]. cbn in Hiff. rewrite list_elem_of_fmap. split.
  - intros [o Ho%Hiff]. by exists (mkGuard a o).
  - intros ([b o] & -> & Hin%Hiff). by exists o.
Qed.

(** The answer of an open that claims a device. *)
Definition claim_answer (owned there : bool) (r : Resource H UR) : outcome OpenError (Resource H UR) :=
  if owned then Err OEBusy else if there then Ok r else Err OENotFound.

Lemma claimed_open_answer address owner (c : bool) (mk : ClaimGuard → Resource H UR) k rs : owner_inv k rs →
  ((g ← claim_device address owner; if c then mret (mk g) else release_guard g;; fail OENotFound) k).2 =
    claim_answer (bool_decide (address ∈ guard_address <$> owners k rs)) c (mk (mkGuard address owner)).
Proof.
  intros Hinv. pose proof (owned_iff k rs address Hinv) as Hiff. unfold claim_answer, mbind, ST_bind, claim_device, claim.
  destruct (k_claims k !! address) as [o|].
  - rewrite bool_decide_eq_true_2 by (by apply Hiff). done.
  - rewrite bool_decide_eq_false_2 by (rewrite <-Hiff; by intros []). by destruct c.
Qed.

(** C16.  A device has one owner.  Over any sequence of opens, closes, mounts
    and registrations, no two of the open raw block devices, the open display
    and the mounted file systems hold the same device.  Opening one through
    the block or the display scheme is refused with [Busy] exactly while it
    has an owner, whoever that is; otherwise it succeeds when the driver knows
    the device.  A mount on an owned device fails and changes nothing. *)
Theorem device_owners_exclusive k0 steps k rs :
  k_claims k0 = ∅ → omap mount_claim (v_mounts (k_vfs k0)) = [] → owner_run k0 [] steps = Some (k, rs) →
  let owned a := bool_decide (a ∈ guard_address <$> owners k rs) in
  NoDup (guard_address <$> owners k rs) ∧
  (∀ uri path a, find_handler uri k = Some (BlockScheme, path) → resolve_device path (k_classes k) = Some a →
    (open uri k).2 = claim_answer (owned a) (has_block a) (RBlockDevice a (mkGuard a OwnerRawOpen))) ∧
  (∀ uri path a, find_handler uri k = Some (DisplayScheme, path) → resolve_device path (k_classes k) = Some a → display_device_address k = Some a →
    (open uri k).2 = claim_answer (owned a) framebuffer (RDisplay (mkGuard a OwnerDisplay))) ∧
  (∀ mountpoint a, head devices = Some a → owned a = true →
    ∃ why, mount_ext2 devices get_device ext2_mount mountpoint (k_vfs k) = (k_vfs k, Err why)).
Proof.
  intros Hc Hm Hrun owned. assert (owner_inv k rs) as Hinv.
  { eapply (owner_inv_run steps); [|exact Hrun]. unfold owner_inv, owners. rewrite Hc, Hm. cbn. apply claims_inv_new. }
  split_and!; [apply Hinv| | |].
  - intros uri path a Hf Hr. unfold scheme_open. change ((gets _ ≫= ?f) k) with (f (find_handler uri k) k). cbv beta. rewrite Hf. cbn [handler_open].
    unfold BlockScheme_open. unfold mbind at 1, ST_bind at 1, resolve_or_not_found. rewrite Hr. by apply (claimed_open_answer a OwnerRawOpen (has_block a) (RBlockDevice a)).
  - intros uri path a Hf Hr Hd. unfold scheme_open. change ((gets _ ≫= ?f) k) with (f (find_handler uri k) k). cbv beta. rewrite Hf. cbn [handler_open].
    unfold DisplayScheme_open. unfold mbind at 1, ST_bind at 1, resolve_or_not_found. rewrite Hr.
    change ((gets _ ≫= ?f) k) with (f (display_device_address k) k). cbv beta. rewrite Hd, decide_False by auto.
    by apply (claimed_open_answer a OwnerDisplay framebuffer RDisplay).
  - intros mountpoint a Ha Ho. apply bool_decide_eq_true, (owned_iff k rs a Hinv) in Ho as [o Ho]. unfold mount_ext2. destruct devices as [|b l]; [done|].
    injection Ha as ->. unfold claim, k_claims in *. rewrite Ho. by eexists.
Qed.
End owners.

(** A machine with one block device, mounted and then opened raw. *)
Definition machine_classes : ClassRegistry := enumerate_pci_devices machine_ecam one_group [].
Definition machine_kernel : Kernel () () := mkKernel init_schemes machine_classes (mkVfs () ∅ []).
Definition silent_fs : Filesystem () () := read_only_fs (λ _, fail FsNotFound) (λ _, fail FsNotFound) (λ _, fail FsNotFound).

Lemma device_owners_exclusive_witness :
  let step := owner_run (UR := ()) (λ _, false) (λ a, bool_decide (a = Pci 0 1 0)) false (λ _ _, fail OENotFound)
    [Pci 0 1 0] (λ _, Some tt) (λ _, mret silent_fs) machine_kernel [] [SMountExt2 (lit "/mnt")] in
  ∃ k rs, step = Some (k, rs) ∧ NoDup (guard_address <$> owners k rs) ∧
    (scheme_open (UR := ()) (λ _, false) (λ a, bool_decide (a = Pci 0 1 0)) false (λ _ _, fail OENotFound) (lit "block:/pci/storage/0") k).2 = Err OEBusy.
Proof.
  intros step. destruct step as [[k rs]|] eqn:E; [|by vm_compute in E]. exists k, rs. split; [done|].
  destruct (device_owners_exclusive (λ _, false) (λ a, bool_decide (a = Pci 0 1 0)) false (λ _ _, fail OENotFound)
    [Pci 0 1 0] (λ _, Some tt) (λ _, mret silent_fs) machine_kernel [SMountExt2 (lit "/mnt")] k rs eq_refl eq_refl E) as (Hnd & Hopen & _).
  split; [exact Hnd|]. vm_compute in E. injection E as <- <-.
  rewrite (Hopen (lit "block:/pci/storage/0") (lit "/pci/storage/0") (Pci 0 1 0)); by vm_compute.
Defined.

(** A name with a colon can be registered and is never found: the scheme of a
    URI ends at its first colon. *)
Lemma colon_unreachable {W H} uri (k : Kernel W H) h path : find_handler uri k = Some (h, path) →
  ∃ scheme, (COLON ∉ scheme) ∧ uri = scheme ++ COLON :: path ∧ sm_get scheme (k_schemes k) = Some h.
Proof.
  unfold find_handler. destruct (split_once COLON uri) as [[scheme p]|] eqn:Es; [|done]. cbn. apply split_once_Some in Es as [-> Hn].
  destruct (sm_get scheme (k_schemes k)) as [h'|] eqn:Eg; [|done]. intros [= <- <-]. by exists scheme.
Qed.
