(* ===== verification/FileCalls.v ===== *)
(** * File system calls
    ([panda-kernel/src/syscall/file.rs], [libpanda/src/sys/file.rs])

    A process reads, writes, seeks and lists through its handles.  A handle
    leads to a resource, which may be a file of the VFS, a proxy of a scheme
    provider, a source of events, a character output or a directory; the
    accessors of the trait [Resource] and the operations behind them are an
    interface.  Reads of event sources block and are given poll by poll. *)

From Stdlib Require Import Ascii String.
From S2P Require Import Prelude Utf8 Text Abi SchemeProtocol Handle UserPtr Effects FsTypes TarFs.
#[local] Open Scope Z_scope.
#[local] Open Scope list_scope.

Definition FILE_NONBLOCK : Z := Z.shiftl 1 0.

(** [dyn Resource] as the file calls use it: resources [R], open files [H],
    proxies [X], event sources [V] and character outputs [O] over a world [W]. *)
Class ResourceOps (R H X V O W : Type) := {
  as_vfs_file : R → option H;
  as_scheme_proxy : R → option X;
  as_event_source : R → option V;
  as_char_output : R → option O;
  as_directory : R → option (list FsDirEntry * option (list Z));
  (** [waker()] and [set_waiting] on it; nothing without a waker. *)
  register_waiting : R → Z → W → W;
  (** Dropping the table's reference to the resource. *)
  release_resource : R → W → W;
  file_read : H → Z → ST W FsError (list Z);
  file_write : H → list Z → ST W FsError Z;
  file_seek : H → VfsSeekFrom → ST W FsError Z;
  file_stat : H → ST W FsError FileStat;
  proxy_read : X → Z → ST W ErrorCode (list Z);
  proxy_write : X → list Z → ST W ErrorCode Z;
  event_poll : V → W → W * option (Z * Z);
  char_write : O → list Z → ST W () Z;
}.

Section file_calls.
Context {R H X V O W : Type} `{!ResourceOps R H X V O W}.
(** The bytes of padding of a structure, which the code does not set. *)
Context (padding : nat → list Z).

(** The calling process and the world. *)
Record Caller := mkCaller { c_mem : mem; c_table : HandleTable R; c_world : W }.
Implicit Types (c : Caller) (h : Z).

Definition put_table (t : HandleTable R) c : Caller := mkCaller (c_mem c) t (c_world c).
Definition put_world (w : W) c : Caller := mkCaller (c_mem c) (c_table c) w.
Definition put_mem (m : mem) c : Caller := mkCaller m (c_table c) (c_world c).

(** A handler; an error is [SyscallResult::err]. *)
Abbreviation CallM := (ST Caller ErrorCode).
Definition on_world {E A} (f : E → ErrorCode) (m : ST W E A) : CallM A := zoom c_world put_world f m.
Definition user_read (s : UserSlice) : CallM (list Z) := c ← gets c_mem; liftO (map_err (λ _, EInvalidArgument) (ua_read c s)).

Definition get_resource h c : option R := h_resource <$> table_get (c_table c) h.
Definition get_vfs_file h c : option H := get_resource h c ≫= as_vfs_file.
Definition get_scheme_proxy h c : option X := get_resource h c ≫= as_scheme_proxy.
(** [.map(|h| h.offset()).unwrap_or(0)]. *)
Definition offset_of h c : Z := default 0 (h_offset <$> table_get (c_table c) h).

(** [if let Some(handle) = get_mut(handle_id) { handle.set_offset(offset) }]. *)
Definition store_offset h (offset : outcome ErrorCode Z) : CallM () := λ c,
  match table_get (c_table c) h with
  | None => (c, Ok tt)
  | Some _ => match offset with
              | Ok o => (put_table (table_update (c_table c) h (λ x, set_offset x o)) c, Ok tt)
              | Err e => (c, Err e)
              | Panic => (c, Panic)
              | OutOfFuel => (c, OutOfFuel)
              end
  end.

(** ** Reading *)
Definition handle_read_scheme_proxy (buf_len : Z) (dst : UserSlice) (proxy : X) : CallM SyscallResult :=
  data ← on_world id (proxy_read proxy (Z.min buf_len MAX_TRANSFER_SIZE));
  mret (write_back (len data) data dst).

Definition handle_read_vfs h (buf_len : Z) (dst : UserSlice) (file : H) : CallM SyscallResult :=
  offset ← gets (offset_of h);
  on_world (λ _, EIoError) (file_seek file (SeekStart offset));;
  data ← on_world (λ _, EIoError) (file_read file (Z.min buf_len MAX_FILE_IO_SIZE));
  store_offset h (chk 64 (offset + len data));;
  mret (write_back (len data) data dst).

(** [struct InputEvent { event_type, code, value }]. *)
Definition event_bytes (e : Z * Z) : list Z := to_le_bytes 2 1 ++ to_le_bytes 2 e.1 ++ to_le_bytes 4 e.2.
Definition event_data (dst : UserSlice) (e : Z * Z) : list Z := take (Z.to_nat (Z.min 8 (us_len dst))) (event_bytes e).

(** The future of a read that waits for an event. *)
Record EventRead := mkEventRead { er_resource : R; er_source : V; er_dst : UserSlice }.

(** The part of [handle_read_sync] before its future. *)
Definition handle_read_sync h (dst : UserSlice) (flags : Z) : CallM (SyscallResult + EventRead) := λ c,
  match get_resource h c with
  | None => (c, Err EInvalidHandle)
  | Some r =>
      match as_event_source r with
      | None => (c, Ok (inl (result_ok 0)))
      | Some source =>
          match event_poll source (c_world c) with
          | (w, Some e) =>
              let data := event_data dst e in
              (put_world w c, Ok (inl (match data with [] => result_ok (len data) | _ => write_back (len data) data dst end)))
          | (w, None) =>
              (put_world w c, Ok (if decide (Z.land flags FILE_NONBLOCK ≠ 0) then inl (result_ok 0) else inr (mkEventRead r source dst)))
          end
      end
  end.

(** A poll of the future: [None] is [Pending]. *)
Definition event_read_poll (er : EventRead) (pid : Z) (w : W) : W * option SyscallResult :=
  let result e := let data := event_data (er_dst er) e in write_back (len data) data (er_dst er) in
  match event_poll (er_source er) w with
  | (w, Some e) => (w, Some (result e))
  | (w, None) =>
      match event_poll (er_source er) (register_waiting (er_resource er) pid w) with
      | (w, Some e) => (w, Some (result e))
      | (w, None) => (w, None)
      end
  end.

Definition handle_read h (buf_ptr buf_len flags : Z) : CallM (SyscallResult + EventRead) :=
  let dst := mkSlice buf_ptr buf_len in
  proxy ← gets (get_scheme_proxy h);
  match proxy with
  | Some proxy => r ← handle_read_scheme_proxy buf_len dst proxy; mret (inl r)
  | None =>
      file ← gets (get_vfs_file h);
      match file with
      | Some file => r ← handle_read_vfs h buf_len dst file; mret (inl r)
      | None => handle_read_sync h dst flags
      end
  end.

(** ** Writing *)
Definition handle_write_scheme_proxy (buf_ptr buf_len : Z) (proxy : X) : CallM SyscallResult :=
  data ← user_read (mkSlice buf_ptr (Z.min buf_len MAX_TRANSFER_SIZE));
  n ← on_world id (proxy_write proxy data);
  mret (result_ok n).

Definition handle_write_vfs h (buf_ptr buf_len : Z) (file : H) : CallM SyscallResult :=
  offset ← gets (offset_of h);
  data ← user_read (mkSlice buf_ptr (Z.min buf_len MAX_FILE_IO_SIZE));
  on_world (λ _, EIoError) (file_seek file (SeekStart offset));;
  n ← on_world (λ _, EIoError) (file_write file data);
  store_offset h (chk 64 (offset + n));;
  mret (result_ok n).

Definition handle_write_sync h (buf_ptr buf_len : Z) : CallM SyscallResult :=
  data ← user_read (mkSlice buf_ptr (Z.min buf_len MAX_FILE_IO_SIZE));
  resource ← gets (get_resource h);
  match resource with
  | None => fail EInvalidHandle
  | Some r =>
      match as_char_output r with
      | Some out => n ← on_world (λ _, EIoError) (char_write out data); mret (result_ok n)
      | None => fail ENotWritable
      end
  end.

Definition handle_write h (buf_ptr buf_len : Z) : CallM SyscallResult :=
  proxy ← gets (get_scheme_proxy h);
  match proxy with
  | Some proxy => handle_write_scheme_proxy buf_ptr buf_len proxy
  | None =>
      file ← gets (get_vfs_file h);
      match file with Some file => handle_write_vfs h buf_ptr buf_len file | None => handle_write_sync h buf_ptr buf_len end
  end.

(** ** Seeking *)
(** [new_offset as i64 < 0], else store it and return it. *)
Definition seek_to h (new_offset : Z) : CallM SyscallResult :=
  if decide (new_offset < 0) then fail EInvalidOffset
  else store_offset h (Ok new_offset);; mret (result_ok new_offset).
(** [a as i64 + offset as i64]. *)
Definition add_i64 (a offset : Z) : CallM Z :=
  let z := wrap_i 64 a + wrap_i 64 offset in liftO (if decide (in_i 64 z) then Ok z else Panic).

Definition handle_seek h (offset_lo offset_hi : Z) : CallM SyscallResult :=
  let offset := Z.lor (wrap_u 64 (Z.shiftl offset_hi 32)) offset_lo in
  let whence := wrap_u 32 (Z.shiftr offset_hi 32) in
  file ← gets (get_vfs_file h);
  match file with
  | None => fail EInvalidHandle
  | Some file =>
      current ← gets (offset_of h);
      if decide (whence = SeekFrom_as_u32 Abi.SeekStart) then seek_to h (wrap_i 64 offset)
      else if decide (whence = SeekFrom_as_u32 Abi.SeekCurrent) then new_offset ← add_i64 current offset; seek_to h new_offset
      else if decide (whence = SeekFrom_as_u32 Abi.SeekEnd) then
        st ← on_world (λ _, EIoError) (file_stat file);
        new_offset ← add_i64 (st_size st) offset;
        seek_to h new_offset
      else fail EInvalidArgument
  end.

(** What the library passes for [seek(handle, offset, whence)]. *)
Definition sys_seek h (offset whence : Z) : CallM SyscallResult := handle_seek h (wrap_u 64 offset) whence.

(** ** Metadata, closing and listing *)
(** [panda_abi::FileStat] in memory: a [u64], a [bool] and seven bytes of
    padding. *)
Definition stat_bytes (size : Z) (is_dir : bool) : list Z := to_le_bytes 8 size ++ [if is_dir then 1 else 0] ++ padding 7.

Definition handle_stat h (stat_ptr : Z) : CallM SyscallResult :=
  let dst := mkSlice stat_ptr 16 in
  file ← gets (get_vfs_file h);
  match file with
  | Some file =>
      st ← on_world (λ _, EIoError) (file_stat file);
      mret (write_back 0 (stat_bytes (st_size st) (st_is_dir st)) dst)
  | None =>
      resource ← gets (get_resource h);
      match resource with
      | None => fail EInvalidHandle
      | Some r => mret (write_back 0 (stat_bytes 0 (bool_decide (is_Some (as_directory r)))) dst)
      end
  end.

Definition handle_close h : CallM SyscallResult := λ c,
  match table_remove (c_table c) h with
  | (t, Some x) => (put_world (release_resource (h_resource x) (c_world c)) (put_table t c), Ok (result_ok 0))
  | (t, None) => (put_table t c, Err EInvalidHandle)
  end.

(** [panda_abi::DirEntry] in memory: the length, the flag and 255 bytes. *)
Definition dirent_bytes (e : FsDirEntry) : list Z :=
  let name := take (Z.to_nat DIRENT_NAME_MAX) (fde_name e) in
  [wrap_u 8 (len name); if fde_is_dir e then 1 else 0] ++ name ++ replicate (Z.to_nat (DIRENT_NAME_MAX - len name)) 0.

Definition handle_readdir h (entry_ptr : Z) : CallM SyscallResult := λ c,
  match table_get (c_table c) h with
  | None => (c, Err EInvalidHandle)
  | Some x =>
      match as_directory (h_resource x) with
      | None => (c, Err EInvalidHandle)
      | Some (entries, _) =>
          match entries !! Z.to_nat (h_offset x) with
          | None => (c, Ok (result_ok 0))
          | Some e =>
              let c := put_table (table_update (c_table c) h (λ x, set_offset x (h_offset x + 1))) c in
              match ua_write (c_mem c) (mkSlice entry_ptr 257) (dirent_bytes e) with
              | Ok (m, _) => (put_mem m c, Ok (result_ok 1))
              | _ => (c, Err EInvalidArgument)
              end
          end
      end
  end.

(** A call that is done at once: the result, its data copied out. *)
Definition complete_call (r : Caller * outcome ErrorCode SyscallResult) : option (Caller * Z) :=
  match r with
  | (c, Ok r) => let '(m, code) := complete_now (c_mem c) r in Some (put_mem m c, code)
  | (c, Err e) => Some (c, to_isize e)
  | (_, Panic) | (_, OutOfFuel) => None
  end.
End file_calls.
Arguments Caller : clear implicits.

(** ** Reading a file through a handle *)
(** A file that is an array of bytes with a position, as far as the positions
    in it go: what reading relies on. *)
Class ArrayFile {R H X V O W} `{!ResourceOps R H X V O W} (f : H) (view : W → option (list Z * Z)) := {
  array_seek w bs p n : view w = Some (bs, p) → 0 <= n <= len bs → ∃ w', file_seek f (SeekStart n) w = (w', Ok n) ∧ view w' = Some (bs, n);
  array_read w bs p k : view w = Some (bs, p) → 0 <= p <= len bs → 0 <= k →
    ∃ w' p', file_read f k w = (w', Ok (take (Z.to_nat k) (drop (Z.to_nat p) bs))) ∧ view w' = Some (bs, p');
}.

(** The pieces that reads of the given lengths get from a position on. *)
Fixpoint served (bs : list Z) (off : Z) (lens : list Z) : list (list Z) :=
  match lens with
  | [] => []
  | n :: lens => let d := take (Z.to_nat (Z.min n MAX_FILE_IO_SIZE)) (drop (Z.to_nat off) bs) in d :: served bs (off + len d) lens
  end.
Definition capped (lens : list Z) : Z := foldr (λ n s, Z.min n MAX_FILE_IO_SIZE + s) 0 lens.

Lemma served_concat bs lens : ∀ off, 0 <= off → Forall (λ n, 0 <= n) lens →
  concat (served bs off lens) = take (Z.to_nat (capped lens)) (drop (Z.to_nat off) bs).
Proof.
  induction lens as [|n lens IH]; intros off Hoff Hl; [done|]. apply Forall_cons in Hl as [Hn Hl]. cbn [served concat capped foldr].
  set (k := Z.min n MAX_FILE_IO_SIZE). assert (0 <= k) as Hk by (unfold k, MAX_FILE_IO_SIZE; lia).
  assert (0 <= capped lens) as Hc. { clear -Hl. induction Hl as [|n' lens' ? ? IHl]; cbn [capped foldr]; [done|]. fold (capped lens'). unfold MAX_FILE_IO_SIZE. lia. }
  rewrite IH by (done || (pose proof (len_nonneg (take (Z.to_nat k) (drop (Z.to_nat off) bs))); lia)).
  fold (capped lens). set (d := drop (Z.to_nat off) bs). rewrite (Z2Nat.inj_add k), <-take_take_drop by lia. f_equal. f_equal.
  unfold len. rewrite Z2Nat.inj_add, <-drop_drop, Nat2Z.id, length_take by lia. fold d.
  destruct (decide (Z.to_nat k <= length d)%nat); [by rewrite Nat.min_l by lia|].
  rewrite Nat.min_r by lia. by rewrite !drop_ge by lia.
Qed.

Section reads.
Context {R H X V O W : Type} `{!ResourceOps R H X V O W}.
Implicit Types c : Caller R W.

(** A read that does not wait, completed. *)
Definition read_call (h ptr n : Z) c : option (Caller R W * Z) :=
  match handle_read h ptr n 0 c with
  | (c, Ok (inl r)) => complete_call (c, Ok r)
  | (c, Err e) => complete_call (c, Err e)
  | _ => None
  end.
Fixpoint read_calls (h : Z) (reads : list (Z * Z)) c : option (Caller R W * list Z) :=
  match reads with
  | [] => Some (c, [])
  | (ptr, n) :: reads => '(c, code) ← read_call h ptr n c; '(c, codes) ← read_calls h reads c; Some (c, code :: codes)
  end.

(** The same handles with the same resources; only the offset of [h] moved. *)
Definition moved (h off : Z) (t t' : HandleTable R) : Prop :=
  next_id t' = next_id t ∧ handles t' = alter (λ x, set_offset x off) h (handles t).

(** The user memory after the pieces are stored at the buffers. *)
Definition store_pieces (m : mem) (ps : list (Z * list Z)) : mem := foldl (λ m p, store_bytes m p.1 p.2) m ps.

Lemma read_call_exact h x f view bs c ptr n :
  table_get (c_table c) h = Some x → as_scheme_proxy (h_resource x) = None → as_vfs_file (h_resource x) = Some f →
  ArrayFile f view → (∃ p, view (c_world c) = Some (bs, p)) → 0 <= h_offset x <= len bs → len bs < 2 ^ 63 →
  0 <= n → validate (mkSlice ptr n) = Ok tt →
  let d := take (Z.to_nat (Z.min n MAX_FILE_IO_SIZE)) (drop (Z.to_nat (h_offset x)) bs) in
  ∃ w', (∃ p, view w' = Some (bs, p)) ∧
    read_call h ptr n c =
      Some (mkCaller (store_bytes (c_mem c) ptr d) (table_update (c_table c) h (λ y, set_offset y (h_offset x + len d))) w', len d).
Proof.
  intros Hx Hp Hf Ha [p Hv] Hoff Hl Hn Hval d. destruct (array_seek _ _ _ (h_offset x) Hv Hoff) as (w1 & Hs & Hv1).
  assert (0 <= Z.min n MAX_FILE_IO_SIZE) as Hk by (unfold MAX_FILE_IO_SIZE; lia).
  destruct (array_read _ _ _ (Z.min n MAX_FILE_IO_SIZE) Hv1 Hoff Hk) as (w2 & p2 & Hr & Hv2). fold d in Hr.
  assert (len d <= n ∧ h_offset x + len d <= len bs) as [Hd1 Hd2].
  { unfold d, len in *. rewrite length_take, length_drop. unfold MAX_FILE_IO_SIZE in *. lia. }
  assert (get_scheme_proxy h c = None) as Gp by (unfold get_scheme_proxy, get_resource; by rewrite Hx).
  assert (get_vfs_file h c = Some f) as Gf by (unfold get_vfs_file, get_resource; by rewrite Hx).
  set (t' := table_update (c_table c) h (λ y, set_offset y (h_offset x + len d))).
  assert (handle_read_vfs h n (mkSlice ptr n) f c = (mkCaller (c_mem c) t' w2, Ok (write_back (len d) d (mkSlice ptr n)))) as Hrun.
  { unfold handle_read_vfs. rewrite (bind_run _ _ c c (h_offset x)) by (unfold gets, offset_of; by rewrite Hx).
    rewrite (bind_run _ _ c (put_world w1 c) (h_offset x)) by (unfold on_world, zoom; by rewrite Hs).
    rewrite (bind_run _ _ _ (put_world w2 c) d) by (unfold on_world, zoom; cbn; by rewrite Hr).
    rewrite (bind_run _ _ _ (mkCaller (c_mem c) t' w2) tt); [done|]. unfold store_offset. cbn [c_table put_world]. rewrite Hx. unfold chk.
    pose proof (len_nonneg d). by rewrite decide_True by (unfold in_u; lia). }
  exists w2. split; [by exists p2|]. unfold read_call, handle_read. rewrite (bind_run _ _ c c (get_scheme_proxy h c)) by done. rewrite Gp.
  rewrite (bind_run _ _ c c (get_vfs_file h c)) by done. rewrite Gf, (bind_run _ _ _ _ _ Hrun). cbn. unfold try_write, ua_write. cbn. rewrite Hval. cbn.
  rewrite Z.min_l by lia. unfold len at 1. by rewrite Nat2Z.id, firstn_all.
Qed.

Lemma moved_trans h o1 o2 t t1 t2 : moved h o1 t t1 → moved h o2 t1 t2 → moved h o2 t t2.
Proof.
  intros [? E1] [? E2]. split; [congruence|]. rewrite E2, E1. apply map_eq. intros k.
  destruct (decide (k = h)) as [->|]; [|by rewrite !lookup_alter_ne]. rewrite !lookup_alter_eq. by destruct (handles t !! h).
Qed.

(** C1.  Reading through a handle is reading the file.  Reads of a handle to a
    file that is an array of bytes, into any buffers of the process, succeed;
    each returns and stores in its buffer the bytes that follow those of the
    one before, at most 1 MiB; together they are the bytes from the handle's
    offset on, all of them once the buffers are large enough.  Of the handles
    only the offset of this one changes, by the number of bytes read, and of
    the memory only the buffers. *)
Theorem file_reads_exact h x f view bs (reads : list (Z * Z)) c :
  table_get (c_table c) h = Some x → as_scheme_proxy (h_resource x) = None → as_vfs_file (h_resource x) = Some f →
  ArrayFile f view → (∃ p, view (c_world c) = Some (bs, p)) → 0 <= h_offset x <= len bs → len bs < 2 ^ 63 →
  Forall (λ r, 0 <= r.2 ∧ validate (mkSlice r.1 r.2) = Ok tt) reads →
  let pieces := served bs (h_offset x) reads.*2 in
  ∃ c', read_calls h reads c = Some (c', len <$> pieces) ∧
    c_mem c' = store_pieces (c_mem c) (zip reads.*1 pieces) ∧
    moved h (h_offset x + len (concat pieces)) (c_table c) (c_table c') ∧
    concat pieces = take (Z.to_nat (capped reads.*2)) (drop (Z.to_nat (h_offset x)) bs) ∧
    (len bs - h_offset x <= capped reads.*2 → concat pieces = drop (Z.to_nat (h_offset x)) bs).
Proof.
  intros Hx Hp Hf Ha Hv Hoff Hl Hreads pieces.
  assert (concat pieces = take (Z.to_nat (capped reads.*2)) (drop (Z.to_nat (h_offset x)) bs)) as Hcat.
  { apply served_concat; [lia|]. apply Forall_fmap. eapply Forall_impl; [exact Hreads|]. by intros r [? _]. }
  assert (∃ c', read_calls h reads c = Some (c', len <$> pieces) ∧ c_mem c' = store_pieces (c_mem c) (zip reads.*1 pieces) ∧
    moved h (h_offset x + len (concat pieces)) (c_table c) (c_table c')) as (c' & ? & ? & ?).
  2: { exists c'. split_and!; [done..|]. intros Hend. rewrite Hcat. apply take_ge. rewrite length_drop. unfold len in Hend. lia. }
  clear Hcat. subst pieces. revert c x Hx Hp Hf Hv Hoff. induction reads as [|[ptr n] reads IH]; intros c x Hx Hp Hf Hv Hoff.
  { exists c. split_and!; [done..|]. cbn. split; [done|]. apply map_eq. intros k. destruct (decide (k = h)) as [->|]; [|by rewrite lookup_alter_ne].
    rewrite lookup_alter_eq. unfold table_get in Hx. rewrite Hx. cbn. unfold set_offset. rewrite Z.add_0_r. by destruct x. }
  apply Forall_cons in Hreads as [[Hn Hval] Hreads]. cbn [fst snd] in *.
  destruct (read_call_exact h x f view bs c ptr n Hx Hp Hf Ha Hv Hoff Hl Hn Hval) as (w' & Hv' & E). set (d := take _ _) in *.
  assert (len d <= len bs - h_offset x) as Hd by (unfold d, len in *; rewrite length_take, length_drop; lia). pose proof (len_nonneg d).
  set (c1 := mkCaller _ _ _) in E. assert (table_get (c_table c1) h = Some (set_offset x (h_offset x + len d))) as Hx1.
  { unfold table_get, c1. cbn. rewrite lookup_alter_eq. unfold table_get in Hx. by rewrite Hx. }
  destruct (IH Hreads c1 _ Hx1 Hp Hf Hv') as (c' & E' & Em & Et); [cbn; lia|]. exists c'. cbn [read_calls]. rewrite E. cbn [mbind option_bind]. rewrite E'.
  cbn [mbind option_bind fmap list_fmap served concat zip]. split_and!; [done|exact Em|]. cbn [h_offset set_offset] in Et. rewrite len_app, Z.add_assoc.
  eapply moved_trans; [|exact Et]. split; [done|]. unfold c1. cbn. done.
Qed.
End reads.

(** ** Files of the archive *)
(** The open files by number; a resource is one of them or a directory. *)
Abbreviation TarWorld := (gmap Z TarFile).
Definition on_file {A} (n : Z) (m : ST TarFile FsError A) : ST TarWorld FsError A := λ w,
  match w !! n with Some f => let '(f, r) := m f in (<[n := f]> w, r) | None => (w, Err FsNotFound) end.

#[export] Instance tar_ops : ResourceOps (Z + list FsDirEntry) Z Empty_set Empty_set Empty_set TarWorld := {|
  as_vfs_file r := match r with inl n => Some n | inr _ => None end;
  as_scheme_proxy _ := None; as_event_source _ := None; as_char_output _ := None;
  as_directory r := match r with inl _ => None | inr es => Some (es, None) end;
  register_waiting _ _ w := w;
  release_resource r w := match r with inl n => delete n w | inr _ => w end;
  file_read n k := on_file n (TarFile_read k);
  file_write _ _ := fail FsNotWritable;
  file_seek n whence := on_file n (TarFile_seek whence);
  file_stat n := on_file n (gets TarFile_stat);
  proxy_read (x : Empty_set) := match x with end; proxy_write (x : Empty_set) := match x with end;
  event_poll (v : Empty_set) := match v with end; char_write (o : Empty_set) := match o with end;
|}.

Definition tar_view (n : Z) (w : TarWorld) : option (list Z * Z) :=
  f ← w !! n; if decide (0 <= tf_pos f <= len (tf_data f) ∧ len (tf_data f) < 2 ^ 63) then Some (tf_data f, tf_pos f) else None.

Lemma tar_view_Some n w bs p : tar_view n w = Some (bs, p) ↔ w !! n = Some (mkTarFile bs p) ∧ tf_ok (mkTarFile bs p).
Proof.
  unfold tar_view, tf_ok. cbn. destruct (w !! n) as [[bs' p']|]; cbn; [|naive_solver]. case_decide; naive_solver.
Qed.

(** The archive's files are arrays of bytes. *)
#[export] Instance tar_array n : ArrayFile n (tar_view n).
Proof.
  split.
  - intros w bs p k [Hw Hok]%tar_view_Some Hk. pose proof Hok as [Hp Hl]. cbn in Hp, Hl.
    exists (<[n := mkTarFile bs k]> w). cbn [file_seek tar_ops]. unfold on_file. rewrite Hw.
    rewrite TarFile_seek_exact by (done || (cbn; rng)). unfold seek_result. cbn. rewrite decide_True by done. split; [done|].
    apply tar_view_Some. by rewrite lookup_insert_eq.
  - intros w bs p k [Hw Hok]%tar_view_Some Hp Hk. exists (<[n := mkTarFile bs (Z.min (p + k) (len bs))]> w), (Z.min (p + k) (len bs)).
    cbn [file_read tar_ops]. unfold on_file. rewrite Hw, TarFile_read_exact by done. cbn. split; [done|].
    apply tar_view_Some. rewrite lookup_insert_eq. split; [done|]. destruct Hok as [_ Hl]. unfold tf_ok. cbn in *. lia.
Qed.

(** A process with one open file and one open directory. *)
Definition two_entries : list FsDirEntry := [{| fde_name := lit "a"; fde_is_dir := false |}; {| fde_name := lit "sub"; fde_is_dir := true |}].
Definition one_file : Caller (Z + list FsDirEntry) TarWorld :=
  mkCaller ∅ (mkTable {[ 7 := mkHandle (inl 0) 1; 8 := mkHandle (inr two_entries) 0 ]} 9) {[ 0 := mkTarFile [10; 11; 12; 13] 0 ]}.

Lemma file_reads_exact_witness : ∃ c', read_calls 7 [(4096, 2); (8192, 5)] one_file = Some (c', [2; 1]) ∧
  load_bytes (c_mem c') 4096 2 = [11; 12] ∧ load_bytes (c_mem c') 8192 1 = [13].
Proof.
  destruct (file_reads_exact 7 (mkHandle (inl 0) 1) 0 (tar_view 0) [10; 11; 12; 13] [(4096, 2); (8192, 5)] one_file) as (c' & E & Em & _);
    [by vm_compute..|apply tar_array|by exists 0; vm_compute|vm_compute; by split|by vm_compute| |].
  { repeat constructor; by vm_compute. }
  exists c'. rewrite Em. split; [exact E|]. split; by vm_compute.
Defined.

(** ** Seeking through a handle *)
(** The arguments the kernel expects: the offset in two halves, the origin
    above the high one. *)
Definition pack_lo (offset : Z) : Z := wrap_u 64 offset mod 2 ^ 32.
Definition pack_hi (offset whence : Z) : Z := wrap_u 64 offset / 2 ^ 32 + whence * 2 ^ 32.

Lemma lor_bounds a b n : 0 <= n → 0 <= a < 2 ^ n → 0 <= b < 2 ^ n → b <= Z.lor a b < 2 ^ n.
Proof.
  intros Hn Ha Hb. split.
  - assert (Z.lor a b = b + Z.ldiff a b) as ->; [|assert (0 <= Z.ldiff a b) by (apply Z.ldiff_nonneg; lia); lia].
    assert (Z.land b (Z.ldiff a b) = 0) as Hd by (apply Z.bits_inj'; intros k ?; rewrite Z.land_spec, Z.ldiff_spec, Z.bits_0; by destruct (Z.testbit a k), (Z.testbit b k)).
    rewrite Z.add_nocarry_lxor, Z.lxor_lor by done. apply Z.bits_inj'. intros k ?. rewrite !Z.lor_spec, Z.ldiff_spec. by destruct (Z.testbit a k), (Z.testbit b k).
  - assert (0 <= Z.lor a b) by (apply Z.lor_nonneg; lia). destruct (decide (Z.lor a b = 0)) as [->|]; [lia|]. apply Z.log2_lt_pow2; [lia|]. rewrite Z.log2_lor by lia.
    assert (∀ z, 0 <= z < 2 ^ n → z = 0 ∨ Z.log2 z < n) as Hlog by (intros z ?; destruct (decide (z = 0)); [by left|right; apply Z.log2_lt_pow2; lia]).
    assert (0 < n). { destruct (decide (n = 0)) as [->|]; [|lia]. assert (a = 0) as -> by lia. assert (b = 0) as -> by lia. done. }
    apply Z.max_lub_lt; [destruct (Hlog a Ha) as [->|]|destruct (Hlog b Hb) as [->|]]; cbn; lia.
Qed.

Lemma unpack_offset offset whence : 0 <= whence → Z.lor (wrap_u 64 (Z.shiftl (pack_hi offset whence) 32)) (pack_lo offset) = wrap_u 64 offset.
Proof.
  intros Hw. unfold pack_hi, pack_lo. set (u := wrap_u 64 offset). assert (0 <= u < 2 ^ 64) as Hu by (unfold u, wrap_u; apply Z.mod_pos_bound; lia).
  assert (wrap_u 64 (Z.shiftl (u / 2 ^ 32 + whence * 2 ^ 32) 32) = Z.shiftl (u / 2 ^ 32) 32) as ->.
  { rewrite !Z.shiftl_mul_pow2 by lia. unfold wrap_u. replace ((u / 2 ^ 32 + whence * 2 ^ 32) * 2 ^ 32) with (u / 2 ^ 32 * 2 ^ 32 + whence * 2 ^ 64) by lia.
    rewrite Z_mod_plus_full. apply Z.mod_small. pose proof (Z.div_pos u (2 ^ 32)). pose proof (Z.mul_div_le u (2 ^ 32)). lia. }
  rewrite lor_shiftl_add by (try lia; apply Z.mod_pos_bound; lia). pose proof (Z.div_mod u (2 ^ 32)). lia.
Qed.

Lemma unpack_whence offset whence : 0 <= whence < 2 ^ 32 → wrap_u 32 (Z.shiftr (pack_hi offset whence) 32) = whence.
Proof.
  intros Hw. unfold pack_hi. set (u := wrap_u 64 offset). assert (0 <= u < 2 ^ 64) as Hu by (unfold u, wrap_u; apply Z.mod_pos_bound; lia).
  rewrite Z.shiftr_div_pow2, Z.div_add by lia. rewrite (Z.div_small (u / 2 ^ 32)); [by apply wrap_u_small|].
  split; [apply Z.div_pos; lia|]. apply Z.div_lt_upper_bound; lia.
Qed.

Section seek.
Context {R H X V O W : Type} `{!ResourceOps R H X V O W}.
Implicit Types c : Caller R W.

(** The offset of a handle set, and returned. *)
Definition sought (h o : Z) c : Caller R W * outcome ErrorCode SyscallResult :=
  if decide (o < 0) then (c, Err EInvalidOffset) else (put_table (table_update (c_table c) h (λ x, set_offset x o)) c, Ok (result_ok o)).

Lemma seek_to_run h o c f : get_vfs_file h c = Some f → seek_to h o c = sought h o c.
Proof.
  unfold get_vfs_file, get_resource, seek_to, sought. destruct (table_get (c_table c) h) as [x|] eqn:E; [|done]. intros _. case_decide; [done|].
  by rewrite (bind_run _ _ c (put_table (table_update (c_table c) h (λ x, set_offset x o)) c) tt) by (unfold store_offset; by rewrite E).
Qed.

Lemma table_stat_get h c f w : get_vfs_file h c = Some f → get_vfs_file h (put_world w c) = Some f.
Proof. done. Qed.

Lemma seek_file_run h f c lo hi : get_vfs_file h c = Some f →
  handle_seek h lo hi c =
    (let offset := Z.lor (wrap_u 64 (Z.shiftl hi 32)) lo in
     let whence := wrap_u 32 (Z.shiftr hi 32) in
     if decide (whence = 0) then seek_to h (wrap_i 64 offset)
     else if decide (whence = 1) then new_offset ← add_i64 (offset_of h c) offset; seek_to h new_offset
     else if decide (whence = 2) then
       st ← on_world (λ _, EIoError) (file_stat f); new_offset ← add_i64 (st_size st) offset; seek_to h new_offset
     else fail EInvalidArgument) c.
Proof.
  intros Hf. unfold handle_seek. rewrite (bind_run _ _ c c (Some f)) by (unfold gets; by rewrite Hf). by rewrite (bind_run _ _ c c (offset_of h c)).
Qed.

(** C1.  Seeking.  With its arguments packed as the kernel reads them the call
    sets the handle's offset to the given one, or to the one relative to the
    current offset or to the file's size, and refuses a negative one.  The
    library does not pack them: it passes the offset whole and the origin where
    the high half is expected.  Every seek made through it, of any origin, is
    therefore absolute, to the offset with the origin's code set from bit 32 on:
    neither the current offset nor the size of the file plays a part. *)
Theorem file_seek_exact h f c offset :
  get_vfs_file h c = Some f → in_i 64 offset → 0 <= offset_of h c < 2 ^ 63 →
  let packed whence := handle_seek h (pack_lo offset) (pack_hi offset (SeekFrom_as_u32 whence)) c in
  packed Abi.SeekStart = sought h offset c ∧
  (in_i 64 (offset_of h c + offset) → packed Abi.SeekCurrent = sought h (offset_of h c + offset) c) ∧
  (∀ w st, file_stat f (c_world c) = (w, Ok st) → 0 <= st_size st < 2 ^ 63 → in_i 64 (st_size st + offset) →
     packed Abi.SeekEnd = sought h (st_size st + offset) (put_world w c)) ∧
  ∀ whence, sys_seek h offset (SeekFrom_as_u32 whence) c =
    if decide (offset < 0) then (c, Err EInvalidOffset) else sought h (Z.lor (Z.shiftl (SeekFrom_as_u32 whence) 32) offset) c.
Proof.
  intros Hf Ho Hc packed.
  assert (wrap_i 64 (wrap_u 64 offset) = offset) as Hw by (rewrite wrap_i_wrap_u by lia; by apply wrap_i_small).
  assert (∀ a, 0 <= a < 2 ^ 63 → wrap_i 64 a = a) as Hs by (intros a ?; apply wrap_i_small; [lia|rng]).
  unfold packed, sys_seek. setoid_rewrite (seek_file_run h f c); [|done..]. split_and!.
  - rewrite unpack_offset, unpack_whence by (cbn; lia). rewrite decide_True, Hw by done. by eapply seek_to_run.
  - intros Hi. rewrite unpack_offset, unpack_whence by (cbn; lia). rewrite decide_False, decide_True by done.
    rewrite (bind_run _ _ c c (offset_of h c + offset)); [by eapply seek_to_run|]. unfold add_i64, liftO. rewrite Hw, Hs by done. by rewrite decide_True.
  - intros w st Hst Hsz Hi. rewrite unpack_offset, unpack_whence by (cbn; lia). rewrite !decide_False, decide_True by done.
    rewrite (bind_run _ _ c (put_world w c) st) by (unfold on_world, zoom; by rewrite Hst).
    rewrite (bind_run _ _ _ (put_world w c) (st_size st + offset)); [eapply seek_to_run, table_stat_get, Hf|].
    unfold add_i64, liftO. rewrite Hw, Hs by done. by rewrite decide_True.
  - intros whence.
    assert (0 <= Z.shiftl (SeekFrom_as_u32 whence) 32 < 2 ^ 62 ∧ wrap_u 32 (Z.shiftr (SeekFrom_as_u32 whence) 32) = 0) as [Hb ->] by (by destruct whence).
    rewrite decide_True by done. erewrite seek_to_run by done. rewrite (wrap_u_small 64 (Z.shiftl _ _)) by (unfold in_u; lia).
    set (x := Z.shiftl _ 32) in *. unfold in_i in Ho. case_decide as Hneg.
    + assert (wrap_u 64 offset = offset + 2 ^ 64) as ->.
      { unfold wrap_u. rewrite <-(Z.mod_small (offset + 2 ^ 64) (2 ^ 64)) by lia. by rewrite <-(Z_mod_plus_full offset 1). }
      destruct (lor_bounds x (offset + 2 ^ 64) 64) as [Hl Hu]; [lia..|]. set (z := Z.lor _ _) in *. unfold sought. by rewrite wrap_i_high, decide_True by lia.
    + rewrite wrap_u_small by (unfold in_u; lia). destruct (lor_bounds x offset 63) as [Hl Hu]; [lia..|]. by rewrite Hs by lia.
Qed.
End seek.

(** A seek to the end of the file of four bytes: packed it gives 4; through the
    library it goes to 8 GiB, and the next read fails. *)
Lemma file_seek_exact_witness :
  handle_seek 7 (pack_lo 0) (pack_hi 0 (SeekFrom_as_u32 Abi.SeekEnd)) one_file = sought 7 4 (put_world {[ 0 := mkTarFile [10; 11; 12; 13] 0 ]} one_file) ∧
  sys_seek 7 0 (SeekFrom_as_u32 Abi.SeekEnd) one_file = sought 7 (2 ^ 33) one_file ∧
  snd <$> read_call 7 4096 2 (sought 7 (2 ^ 33) one_file).1 = Some (to_isize EIoError).
Proof.
  assert (get_vfs_file 7 one_file = Some 0) as Hf by (by vm_compute). assert (in_i 64 0) as Hi by (by vm_compute).
  assert (0 <= offset_of 7 one_file < 2 ^ 63) as Ho by (by vm_compute).
  destruct (file_seek_exact 7 0 one_file 0 Hf Hi Ho) as (_ & _ & Hend & Hlib). split; [|split].
  - apply (Hend _ (TarFile_stat (mkTarFile [10; 11; 12; 13] 0))); by vm_compute.
  - rewrite Hlib. by vm_compute.
  - by vm_compute.
Defined.

(** ** Listing through a handle *)
Section listing.
Context {R H X V O W : Type} `{!ResourceOps R H X V O W}.
Implicit Types c : Caller R W.

Definition readdir_call (h ptr : Z) c : option (Caller R W * Z) := complete_call (handle_readdir h ptr c).
Fixpoint readdir_calls (h : Z) (ptrs : list Z) c : option (Caller R W * list Z) :=
  match ptrs with
  | [] => Some (c, [])
  | ptr :: ptrs => '(c, code) ← readdir_call h ptr c; '(c, codes) ← readdir_calls h ptrs c; Some (c, code :: codes)
  end.

(** Where the entries from a cursor on go, one buffer each. *)
Fixpoint listed_at (entries : list FsDirEntry) (ptrs : list Z) : list (Z * list Z) :=
  match entries, ptrs with e :: entries, ptr :: ptrs => (ptr, dirent_bytes e) :: listed_at entries ptrs | _, _ => [] end.

Lemma dirent_len e : len (dirent_bytes e) = 257.
Proof.
  unfold dirent_bytes, len. cbn -[replicate take Z.to_nat]. rewrite !length_app, length_replicate, length_take. unfold DIRENT_NAME_MAX. lia.
Qed.

Lemma readdir_call_exact h x entries p c ptr :
  table_get (c_table c) h = Some x → as_directory (h_resource x) = Some (entries, p) → validate (mkSlice ptr 257) = Ok tt →
  readdir_call h ptr c =
    match entries !! Z.to_nat (h_offset x) with
    | None => Some (c, 0)
    | Some e => Some (mkCaller (store_bytes (c_mem c) ptr (dirent_bytes e)) (table_update (c_table c) h (λ y, set_offset y (h_offset y + 1))) (c_world c), 1)
    end.
Proof.
  intros Hx Hd Hval. unfold readdir_call, handle_readdir. rewrite Hx, Hd. destruct (entries !! _) as [e|] eqn:E; [|by destruct c].
  unfold ua_write. cbn [us_len us_addr]. rewrite Hval. cbn [mbind outcome_bind]. rewrite dirent_len, Z.min_id.
  rewrite take_ge by (pose proof (dirent_len e); unfold len in *; lia). done.
Qed.

(** Listing a directory through its handle gives its entries in order, one
    call each, and then 0 for ever; the cursor is the handle's offset. *)
Theorem readdir_lists h x entries p ptrs c :
  table_get (c_table c) h = Some x → as_directory (h_resource x) = Some (entries, p) → 0 <= h_offset x <= len entries →
  Forall (λ ptr, validate (mkSlice ptr 257) = Ok tt) ptrs →
  let rest := drop (Z.to_nat (h_offset x)) entries in
  let n := Nat.min (length ptrs) (length rest) in
  ∃ c', readdir_calls h ptrs c = Some (c', replicate n 1 ++ replicate (length ptrs - n) 0) ∧
    c_mem c' = store_pieces (c_mem c) (listed_at rest ptrs) ∧
    moved h (h_offset x + Z.of_nat n) (c_table c) (c_table c').
Proof.
  intros Hx Hd Hoff Hval. revert c x Hx Hd Hoff. induction Hval as [|ptr ptrs Hptr Hval IH]; intros c x Hx Hd Hoff rest n.
  { exists c. split; [done|]. split; [by unfold listed_at; destruct rest|]. split; [done|]. apply map_eq. intros k. cbn. rewrite Z.add_0_r.
    destruct (decide (k = h)) as [->|]; [|by rewrite lookup_alter_ne]. unfold table_get in Hx. rewrite lookup_alter_eq, Hx. by destruct x. }
  cbn [readdir_calls]. rewrite (readdir_call_exact h x entries p c ptr) by done.
  destruct (entries !! Z.to_nat (h_offset x)) as [e|] eqn:Ee.
  - assert (rest = e :: drop (Z.to_nat (h_offset x + 1)) entries) as Hrest.
    { unfold rest. rewrite (drop_S _ e) by done. do 2 f_equal. lia. }
    set (c1 := mkCaller _ _ _). assert (table_get (c_table c1) h = Some (set_offset x (h_offset x + 1))) as Hx1.
    { unfold table_get, c1. cbn. rewrite lookup_alter_eq. unfold table_get in Hx. by rewrite Hx. }
    apply lookup_lt_Some in Ee. destruct (IH c1 _ Hx1 Hd) as (c' & E & Em & Et); [cbn; unfold len; lia|].
    cbn [h_offset set_offset] in *. exists c'. cbn [mbind option_bind]. rewrite E. cbn [mbind option_bind]. unfold n. rewrite Hrest. cbn [length Nat.min replicate app].
    split; [done|]. split; [exact Em|]. apply (moved_trans h (h_offset x + 1) _ _ (c_table c1)).
    + split; [done|]. unfold c1. cbn. apply map_eq. intros k. destruct (decide (k = h)) as [->|]; [|by rewrite !lookup_alter_ne].
      unfold table_get in Hx. by rewrite !lookup_alter_eq, Hx.
    + replace (h_offset x + Z.of_nat (S _)) with (h_offset x + 1 + Z.of_nat (Nat.min (length ptrs) (length (drop (Z.to_nat (h_offset x + 1)) entries)))) by lia. exact Et.
  - apply lookup_ge_None in Ee. assert (rest = []) as Hrest by (unfold rest; by apply drop_ge).
    destruct (IH c x Hx Hd Hoff) as (c' & E & Em & Et). fold rest in E, Em, Et. rewrite Hrest in E, Em, Et. cbn [length] in E, Et.
    rewrite Nat.min_0_r, Nat.sub_0_r in E. rewrite Nat.min_0_r in Et. exists c'. cbn [mbind option_bind]. rewrite E. cbn [mbind option_bind]. unfold n. rewrite Hrest.
    cbn [length]. rewrite Nat.min_0_r, Nat.sub_0_r. split; [done|]. split; [|done]. rewrite Em. by destruct ptrs.
Qed.
End listing.

(** A name of more than 255 bytes is cut, in the middle of a character too; the
    library takes what is left for valid UTF-8 without looking. *)
Example readdir_cuts_names :
  let name := replicate 254 97 ++ [0xC3; 0xA9] in
  utf8_valid name = true ∧ take 257 (dirent_bytes {| fde_name := name; fde_is_dir := false |}) = [255; 0] ++ replicate 254 97 ++ [0xC3] ∧
  utf8_valid (replicate 254 97 ++ [0xC3]) = false.
Proof. by vm_compute. Qed.
