(* ===== verification/EnvCalls.v ===== *)
(** * Environment and directory system calls
    ([panda-kernel/src/syscall/environment.rs], [directory.rs], [helpers.rs],
    [resource/mod.rs] loading a binary)

    Opening by URI, connecting, listing, mounting, and changing a directory
    through its handle.  The scheme registry is an argument (see
    [SchemeRegistry]), the mount table that of [Vfs]. *)

From Stdlib Require Import Ascii String.
From S2P Require Import Prelude Utf8 Text Abi Path Handle Mailbox UserPtr Effects FsTypes Devices Vfs SchemeProvider FileCalls.
#[local] Open Scope Z_scope.
#[local] Open Scope list_scope.

(** The rest of [dyn Resource]: tags, mailboxes, and the resources the calls
    make. *)
Class EnvOps (R H W : Type) := {
  handle_type : R → HandleType;
  as_mailbox : R → option Z;
  (** [Mailbox::attach] of a handle with its mask. *)
  mailbox_attach : Z → Z → Z → W → W;
  (** [Resource::attach_mailbox]. *)
  attach_mailbox : R → MailboxRef → W → W;
  (** [VfsFileResource::new] and [DirectoryResource]. *)
  vfs_file_resource : H → R;
  directory_resource : list FsDirEntry → option str → R;
}.

Definition fs_error_code (e : FsError) : ErrorCode :=
  match e with
  | FsNotFound => ENotFound
  | FsInvalidOffset => EInvalidOffset
  | FsNotReadable => ENotReadable
  | FsNotWritable => ENotWritable
  | FsNotSeekable => ENotSeekable
  | FsReadOnlyFs => ENotSupported
  | FsNoSpace => ENoSpace
  | FsAlreadyExists => EAlreadyExists
  | FsNotEmpty => ENotEmpty
  | FsIsDirectory => EIsDirectory
  | FsNotDirectory => ENotDirectory
  | FsIoError => EIoError
  end.
Definition open_error_code (e : OpenError) : ErrorCode := match e with OENotFound => ENotFound | OEBusy => EBusy end.

Inductive LoadBinaryError := LBNotFound | LBNotReadable | LBIoError.

Section env_calls.
Context {R H X V O W : Type} `{!ResourceOps R H X V O W} `{!EnvOps R H W}.
Context (mounts : list (Mount W H)).
(** [resource::open], [connect], [readdir] (whose [None] is the error) and
    [vfs::mount_ext2]. *)
Context (resource_open resource_connect : str → ST W OpenError R) (resource_readdir : str → ST W () (list FsDirEntry))
        (mount_ext2_at : str → ST W str ()).
Implicit Types (c : Caller R W) (h : Z).
Abbreviation CallM := (ST (Caller R W) ErrorCode).

Definition read_user_str (ptr n : Z) : CallM str := m ← gets c_mem; liftO (map_err (λ _, EInvalidArgument) (ua_read_str m ptr n)).

(** [handles_mut().insert(..)]: a refused resource is dropped. *)
Definition install (r : R) : CallM Z := λ c,
  match table_insert handle_type (c_table c) r with
  | (t, inl id) => (put_table t c, Ok id)
  | (t, inr _) => (put_world (release_resource r (c_world c)) (put_table t c), Err ETooManyHandles)
  end.

(** ** Mailboxes *)
Definition attach_to_mailbox (mailbox_handle handle_id event_mask : Z) : CallM (option Z) := λ c,
  if decide (mailbox_handle = 0) then (c, Ok None)
  else match get_resource mailbox_handle c ≫= as_mailbox with
       | None => (c, Ok None)
       | Some mb => (put_world (mailbox_attach mb handle_id event_mask (c_world c)) c, Ok (Some mb))
       end.
Definition complete_mailbox_attach (mb handle_id : Z) : CallM () := λ c,
  match get_resource handle_id c with
  | Some r => (put_world (attach_mailbox r (mkRef mb handle_id) (c_world c)) c, Ok tt)
  | None => (c, Ok tt)
  end.

(** ** Opening *)
Definition handle_open (uri_ptr uri_len mailbox_handle event_mask : Z) : CallM SyscallResult :=
  let event_mask := wrap_u 32 event_mask in
  uri ← read_user_str uri_ptr uri_len;
  r ← on_world open_error_code (resource_open uri);
  handle_id ← install r;
  (if decide (event_mask ≠ 0) then
     mb ← attach_to_mailbox mailbox_handle handle_id event_mask;
     match mb with Some mb => complete_mailbox_attach mb handle_id | None => mret tt end
   else mret tt);;
  mret (result_ok handle_id).

Definition handle_connect (uri_ptr uri_len : Z) : CallM SyscallResult :=
  uri ← read_user_str uri_ptr uri_len;
  r ← on_world open_error_code (resource_connect uri);
  handle_id ← install r;
  mret (result_ok handle_id).

Definition handle_opendir (uri_ptr uri_len : Z) : CallM SyscallResult :=
  uri ← read_user_str uri_ptr uri_len;
  entries ← on_world (λ _, ENotFound) (resource_readdir uri);
  handle_id ← install (directory_resource entries (strip_prefix (lit "file:") uri));
  mret (result_ok handle_id).

Definition handle_log (msg_ptr msg_len : Z) : CallM SyscallResult := read_user_str msg_ptr msg_len;; mret (result_ok 0).
Definition handle_time (uptime_ms : Z) : CallM SyscallResult := mret (result_ok (wrap_i 64 uptime_ms)).

Definition handle_mount (fstype_ptr fstype_len mountpoint_ptr mountpoint_len : Z) : CallM SyscallResult :=
  fstype ← read_user_str fstype_ptr fstype_len;
  mountpoint ← read_user_str mountpoint_ptr mountpoint_len;
  if decide (fstype = lit "ext2") then on_world (λ _, EIoError) (mount_ext2_at mountpoint);; mret (result_ok 0)
  else fail ENotSupported.

(** ** Changing a directory *)
Definition directory_path h c : option str :=
  match get_resource h c with
  | Some r => match as_directory r with Some (_, vfs_path) => vfs_path | None => None end
  | None => None
  end.
Definition join_entry (dir_path name : str) : str :=
  if decide (dir_path = [] ∨ dir_path = [SEP]) then SEP :: name else dir_path ++ SEP :: name.
Definition resolve_dir_op_path h (name_ptr name_len : Z) : CallM str :=
  name ← read_user_str name_ptr name_len;
  dir_path ← gets (directory_path h);
  match dir_path with
  | None => fail EInvalidHandle
  | Some dir_path => mret (join_entry dir_path name)
  end.

Definition handle_create h (name_ptr name_len mode mailbox_handle : Z) : CallM SyscallResult :=
  full_path ← resolve_dir_op_path h name_ptr name_len;
  file ← on_world fs_error_code (vfs_create mounts full_path (wrap_u 16 mode));
  handle_id ← install (vfs_file_resource file);
  attach_to_mailbox mailbox_handle handle_id 0;;
  mret (result_ok handle_id).
Definition handle_unlink h (name_ptr name_len : Z) : CallM SyscallResult :=
  full_path ← resolve_dir_op_path h name_ptr name_len;
  on_world fs_error_code (vfs_unlink mounts full_path);; mret (result_ok 0).
Definition handle_mkdir h (name_ptr name_len mode : Z) : CallM SyscallResult :=
  full_path ← resolve_dir_op_path h name_ptr name_len;
  on_world fs_error_code (vfs_mkdir mounts full_path (wrap_u 16 mode));; mret (result_ok 0).
Definition handle_rmdir h (name_ptr name_len : Z) : CallM SyscallResult :=
  full_path ← resolve_dir_op_path h name_ptr name_len;
  on_world fs_error_code (vfs_rmdir mounts full_path);; mret (result_ok 0).

(** ** Loading a binary *)
(** The loop that reads the rest of the file: a round that reads nothing ends
    it, so the number of bytes left is enough fuel. *)
Fixpoint read_rest (fuel : nat) (f : H) (size : Z) (data : list Z) : ST W LoadBinaryError (list Z) :=
  if decide (len data < size) then
    match fuel with
    | 0%nat => liftO OutOfFuel
    | S fuel =>
        bs ← zoom id (λ w _, w) (λ _, LBIoError) (file_read f (size - len data));
        match bs with [] => mret data | _ => read_rest fuel f size (data ++ bs) end
    end
  else mret data.

Definition load_binary (uri : str) : ST W LoadBinaryError (list Z) :=
  r ← zoom id (λ w _, w) (λ _, LBNotFound) (resource_open uri);
  match as_vfs_file r with
  | None => modify (release_resource r);; fail LBNotReadable
  | Some f =>
      result ← try_ (
        st ← zoom id (λ w _, w) (λ _, LBIoError) (file_stat f);
        data ← read_rest (Z.to_nat (st_size st)) f (st_size st) [];
        if decide (len data ≠ st_size st) then fail LBIoError else mret data);
      modify (release_resource r);;
      match result with inr data => mret data | inl e => fail e end
  end.
End env_calls.
